(* ===== verification/_CoqProject ===== *)
-Q . S2P
Prelude.v
Bytes.v
Double.v
Decimal.v
NumberText.v
Site.v
Hlc.v
KvStore.v
PagedIterate.v
Transaction.v
StoreRead.v
Cache.v
Utf8.v
Json.v
Comparison.v
KeySerializer.v
BTree.v
VTab.v
Types.v
JsonOrder.v
TypeLaws.v
TypedOrder.v
Collations.v
Fds.v
FdLaws.v
Joins.v
JoinLaws.v
JoinFacts.v
RowOps.v
RowOpLaws.v
AggregateLaws.v
Lexer.v
Ast.v
AstStringify.v
QueryStringify.v
ExprParser.v
QueryParser.v
ParserTotal.v
PrintExamples.v
MemoryTable.v
MemoryKeys.v
ScanLayer.v
MemoryRefine.v
MemoryScan.v
KeyEncoding.v
SeekKeys.v
SyncKeys.v
TableIdentity.v
ChangeLog.v
Watermarks.v
SyncApply.v
SyncCommit.v
SyncBatch.v
SyncFiling.v
SyncRecords.v
SyncConverge.v
SyncRows.v
SyncExamples.v
Latches.v
