(* ===== verification/Prelude.v ===== *)
(** * Quereus: a verification library

    Quereus is a TypeScript SQL engine ([src/packages/quereus]) with pluggable
    virtual tables.  Around it sit a persistent table module over ordered
    key-value stores ([src/packages/quereus-store]), a per-connection isolation
    layer ([src/packages/quereus-isolation]) and a replication engine that
    merges changes of peers by hybrid logical time
    ([src/packages/quereus-sync]).  This library models parts of these
    packages as executable functions and proves the properties the packages
    rely on.  The parts that are not modelled are listed at the end.

    ** Conventions

    - A [Uint8Array] is a list of bytes ([bytes], well formed by [wf_bytes]);
      a JS string is the list of its UTF-16 units ([jsstring]); a number is
      its IEEE bit pattern ([Double.double]); a bigint is a [Z].
    - A function that may throw returns [res]: [Ok] or [Throw] with the kind
      of error.  [let* x := m in k] is the sequencing of such calls.  The
      parser threads its token position as well: [let! x := m in k].
    - A comparator returns a [Z] whose sign matters; [sgn] reads it.  The laws
      of an order are the class [CmpLaws], stated on [comparison].
    - An object that is mutated is a record passed through the calls.  An
      [await] is a point where another call may run only where a file says so
      (the two halves of [TableIdentity.retire], the steps of [Latches]);
      elsewhere a call runs to its end before the next one starts.
    - A cursor or generator is the list of its rows, with the error that ends
      it where one can.
    - Time, randomness, Unicode case mapping, the Temporal polyfill and other
      third-party code are arguments.  What is used of them is a named
      hypothesis, and each theorem that has one comes with a witness that
      instantiates it.

    ** Files

    Shared: [Prelude] (results, comparators, sorting, scans), [Bytes]
    ([util/bytes.ts] and typed-array calls), [Double], [Decimal] and
    [NumberText] (numbers and their texts), [Utf8], [Json] (JSON values, their
    parser and printer, canonical text).

    Store package ([packages/quereus-store/src/common]):
    - [KvStore]: the store contract as the class [KVStore] with [KVStoreLaws]
      ([kv-store.ts]), and [InMemoryKVStore] ([memory-store.ts]) proved to
      meet it.
    - [PagedIterate]: [paged-iterate.ts], the resumable cursor over a backend
      that answers in pages.
    - [Transaction]: [transaction.ts], the write log with savepoints, derived
      operations and the two commit paths.
    - [StoreRead]: the reads of [store-table-base.ts] that overlay the pending
      log on the committed store.
    - [Cache]: [cached-kv-store.ts], the LRU cache at the level of its linked
      list.
    - [KeyEncoding]: [encoding.ts], the order-preserving key bytes.

    Sync package ([packages/quereus-sync/src]):
    - [Site], [Hlc]: [clock/site.ts], [clock/hlc.ts].
    - [SyncKeys]: [metadata/keys.ts], [metadata/filing-position.ts].
    - [TableIdentity], [ChangeLog], [Watermarks]: the metadata stores of the
      same names ([delta-floor.ts] and [peer-state.ts] for the last).
    - [SyncApply]: how a batch from a peer is applied
      ([sync/change-applicator.ts], [admission.ts], [local-write-tracker.ts],
      [store-adapter.ts]), where a write of the key-value store can be
      rejected.  Its theorems are in [SyncCommit] (the commit of metadata),
      [SyncBatch] (the in-batch rules), [SyncFiling] (filing, order independence), [SyncRecords] (records
      and log), [SyncConverge] (convergence), [SyncRows] (rows follow cells);
      [SyncExamples] runs two replicas.

    Engine package ([packages/quereus/src]), values and types:
    - [Comparison]: [util/comparison.ts]; [KeySerializer]:
      [util/key-serializer.ts]; [Latches]: [util/latches.ts].
    - [Types]: [types/], the built-in types, CAST and coercions, with their
      laws in [TypeLaws]; [JsonOrder]: the order of [types/json-type.ts];
      [TypedOrder]: the comparators of the built-in types as orders, and
      TIMESPAN of [types/temporal-types.ts].

    Engine package, text:
    - [Lexer]: [parser/lexer.ts]; [Ast]: the expressions and queries of
      [parser/ast.ts].
    - [ExprParser], [QueryParser]: the expression and query methods of
      [parser/parser.ts]; [ParserTotal] shows that they return.
    - [AstStringify], [QueryStringify]: the same trees printed by
      [emit/ast-stringify.ts]; [PrintExamples] reads printed text again.

    Engine package, planning and running queries:
    - [Collations]: [planner/analysis/comparison-collation.ts].
    - [Fds], [FdLaws]: [planner/util/fd-utils.ts] and the key and fact
      propagation around it.
    - [Joins]: the nested loop, hash and merge joins of [runtime/emit];
      [JoinLaws] proves them equal and [JoinFacts] proves the planner's facts
      of their rows.
    - [RowOps]: filter, DISTINCT, set operations, LIMIT, ORDER BY and GROUP BY
      of [runtime/emit]; [RowOpLaws] proves what they compute and
      [AggregateLaws] that the two ways of grouping agree.

    Engine package, memory tables ([vtab/memory]):
    - [BTree]: the ordered trees of the library the tables are built on, by
      their contract; [VTab]: rows, schemas and results of a table module.
    - [MemoryTable]: keys, index entries, mutations and UNIQUE checks;
      [MemoryKeys]: encoded primary keys; [MemoryRefine]: the mutations refine
      a plain table.
    - [ScanLayer], [MemoryScan]: scans by plan and what they yield.
    - [SeekKeys]: one key space for the numeric types, across [Types],
      [KeySerializer], [MemoryTable] and [KeyEncoding].

    ** What the theorems show

    - Replication: replicas that receive the same changes converge; a batch may
      be reordered and cut at will; the change log indexes exactly the records;
      a failed apply leaves the records alone, but for a rejected cleanup write
      after the commit; the stored rows follow the cells.
    - Change log: a recorded fact is delivered by every delta whose watermark
      is below it; a delta is exactly the entries after a position, in order;
      pruning removes exactly the entries before a position.
    - Table identity: the committed records reload to the index in memory
      after any create, drop and rename, and a drop that overlaps a re-create
      leaves the new table alone.
    - Metadata keys: every key parses back, and every scan bound visits
      exactly its own keys.
    - Watermarks: the floor is the maximum of what was pruned; the peer
      watermarks are what was last stored and their minimum.
    - Clock: issued timestamps increase, received ones are dominated, the
      stored form is a round trip and its byte order is the clock's order.
    - Memory tables: a mutation does what a plain table with UNIQUE checks
      does and keeps the indexes exact, under any collation of the primary key
      as long as a key keeps its spelling; an ascending scan yields exactly the
      rows its plan accepts; encoded primary keys are faithful.
    - Key encoding: byte order is the order of the key columns under their
      collations and directions; keys decode.  Hash keys are equal exactly
      for equal values.
    - Comparison and types: the comparators are total preorders with the
      documented order of storage classes and within each of them; a coerced row and a cast value are
      of their type; integers keep their exact value; equal JSON values are
      those with equal canonical text.
    - Planner facts and operators: the closure of the dependencies is exact;
      the facts claimed of a join are true of its rows; the join algorithms
      agree, and so do the two ways of grouping, errors included; set operations are set and bag
      algebra; a limited query yields its window.
    - Text: a scan consumes every text and its tokens say where they stand; the
      parser returns a tree or a parse error on every text.
    - Transactions: rollback to a savepoint restores the view; a commit
      applies exactly the pending operations or, by one atomic batch, none, and
      clears the log unless a rollback callback throws; the pending index always
      agrees with the log; the merged scan is the committed content with the
      log applied.
    - Paging, cache and latches: a paged scan is the whole scan; a cached store
      answers as the store does; without bounded waits a latch has one holder,
      granted in call order.

    ** Fuel and bounds

    The loops of the sources are structural in the model except where a file
    says otherwise; there the fuel is a bound on the input, and a theorem shows
    that it is enough: the length of the text for the lexer, two more than the
    number of tokens for the parser ([ParserTotal]), one more than the dependents of all
    dependencies for the closure ([Fds.closure_fuel]), the number of pages for
    a paged scan.  Integers keep their width where the code does: the fields of a
    stored timestamp are 64 bits of wall time, 16 of counter and 32 of operation
    number, key residuals are 64 bits, with the wrap or the throw written out.

    ** Not modelled

    - Engine: statements other than queries in the parser and the printer (DDL,
      transactions, pragmas, declarative schemas); source ranges and messages
      of errors; the planner but for collations, dependencies and join facts;
      the scheduler and the emitters not named above; the built-in functions;
      the temporal types but for the order of TIMESPAN; the schema manager; the database object; in memory
      tables the commit of layers, DDL and the building of a scan plan.
    - Store: the table module (scans, constraints, DDL, catalog) but for its
      effective reads.
    - The isolation layer.
    - Sync: schema migrations, snapshots, quarantine draining, the stored forms
      of the records, events and transport.
    - The platform backends (LevelDB, IndexedDB, SQLite, S3), the servers and
      the command line, web and editor front ends: I/O around the modelled
      contracts.
*)

From Stdlib Require Import ZArith Lia.
From stdpp Require Import sorting.
From stdpp Require Import base tactics numbers gmap list.

(** ** Scope and error values *)

Declare Scope quereus_scope.
Delimit Scope quereus_scope with quereus.
Open Scope quereus_scope.
#[local] Open Scope Z_scope.

(** A TypeScript expression that may throw is a value of [res]; the error
    constructors name the [throw] statements of the modelled code. *)
Inductive js_error : Type :=
| EDrift (ahead : Z)
| EBadLength (got expected : Z)
| EMisuse
| EInternal
| ECommitted
| EUnderflow
| EUnknownTag (tag : Z)
| EUnpairedSurrogate (at_ : nat)
| ENoCollation
| EClosed
| EOpSeqExhausted
| EBatchTooLong (got want : nat)
| EBadBatchSize
| EMalformedKey
| ERange
| EApplyFailed (changes : nat)
| ESyntax
| EType
| EMismatch
| EStatement
| EParse
| EOutOfFuel
| EStore.

Inductive res (A : Type) : Type :=
| Ok (a : A)
| Throw (e : js_error).
Arguments Ok {A} a.
Arguments Throw {A} e.

Definition res_bind {A B} (m : res A) (k : A -> res B) : res B :=
  match m with
  | Ok a => k a
  | Throw e => Throw e
  end.

Notation "'let*' x := m 'in' k" := (res_bind m (fun x => k))
  (at level 10, x pattern, m at level 100, k at level 200,
   format "'let*'  x  :=  m  'in' '//' k") : quereus_scope.

(** [map] over a list of throwing computations, left to right. *)
Fixpoint res_map {A B} (f : A -> res B) (l : list A) : res (list B) :=
  match l with
  | [] => Ok []
  | x :: l' => let* y := f x in let* ys := res_map f l' in Ok (y :: ys)
  end.

Lemma res_map_ok {A B} (f : A -> B) (l : list A) :
  res_map (fun x => Ok (f x)) l = Ok (map f l).
Proof. induction l as [|x l IH]; simpl; [done|]. by rewrite IH. Qed.

Lemma res_map_length {A B} (f : A -> res B) (l : list A) (ys : list B) :
  res_map f l = Ok ys -> length ys = length l.
Proof.
  revert ys; induction l as [|x l IH]; intros ys; simpl; [by intros [= <-]|].
  destruct (f x); simpl; [|done]. destruct (res_map f l); simpl; [|done].
  intros [= <-]. simpl. f_equal. by apply IH.
Qed.

(** ** Comparisons

    A JS comparator returns a number whose sign carries the answer.  [sgn]
    reads the sign; the laws are stated on [comparison] results. *)

Definition sgn (z : Z) : comparison := z ?= 0.

Definition cmp_then (c d : comparison) : comparison :=
  match c with
  | Eq => d
  | _ => c
  end.

(** [c] is (the three-way test of) a total preorder. *)
Class CmpLaws {A : Type} (c : A -> A -> comparison) : Prop := {
  cmp_opp : forall x y, c y x = CompOpp (c x y);
  cmp_trans : forall o x y z, c x y = o -> c y z = o -> c x z = o;
  cmp_eq_l : forall x y z, c x y = Eq -> c x z = c y z
}.

(** ... and its equivalence is equality: a total order. *)
Class CmpEq {A : Type} (c : A -> A -> comparison) : Prop :=
  cmp_eq : forall x y, c x y = Eq <-> x = y.

Arguments cmp_opp {A} c {_} x y.
Arguments cmp_trans {A} c {_} o x y z.
Arguments cmp_eq_l {A} c {_} x y z.
Arguments cmp_eq {A} c {_} x y.

Section CmpFacts.
Context {A : Type} (c : A -> A -> comparison) `{!CmpLaws c}.

Lemma cmp_refl x : c x x = Eq.
Proof. pose proof (cmp_opp c x x) as H. by destruct (c x x). Qed.

Lemma cmp_lt_gt x y : c x y = Lt <-> c y x = Gt.
Proof. rewrite (cmp_opp c x y). destruct (c x y); naive_solver. Qed.

Lemma cmp_eq_sym x y : c x y = Eq -> c y x = Eq.
Proof. intros H. by rewrite (cmp_opp c), H. Qed.

Lemma cmp_eq_r x y z : c x y = Eq -> c z x = c z y.
Proof. intros H. by rewrite (cmp_opp c x z), (cmp_opp c y z), (cmp_eq_l c x y z H). Qed.

Lemma cmp_ge_trans x y z : c x y <> Lt -> c y z <> Lt -> c x z <> Lt.
Proof.
  intros Hxy Hyz Hxz. destruct (c x y) eqn:E1; [| done |].
  - by rewrite (cmp_eq_l c x y z E1) in Hxz.
  - destruct (c y z) eqn:E2; [| done |].
    + rewrite <- (cmp_eq_r y z x E2) in Hxz. congruence.
    + pose proof (cmp_trans c Gt x y z E1 E2). congruence.
Qed.

Lemma cmp_le_trans x y z : c x y <> Gt -> c y z <> Gt -> c x z <> Gt.
Proof.
  intros Hxy Hyz Hxz. apply cmp_lt_gt in Hxz.
  revert Hxz. apply (cmp_ge_trans z y x); intros H%cmp_lt_gt; done.
Qed.

Lemma cmp_le_lt_trans x y z : c x y <> Gt -> c y z = Lt -> c x z = Lt.
Proof.
  intros Hxy Hyz. destruct (c x y) eqn:E1; [| |done].
  - by rewrite (cmp_eq_l c x y z E1).
  - by apply (cmp_trans c Lt x y z).
Qed.

Lemma cmp_lt_le_trans x y z : c x y = Lt -> c y z <> Gt -> c x z = Lt.
Proof.
  intros Hxy Hyz. destruct (c y z) eqn:E1; [| |done].
  - by rewrite <- (cmp_eq_r y z x E1).
  - by apply (cmp_trans c Lt x y z).
Qed.

(** Comparing through a projection keeps the laws. *)
#[global] Instance cmp_on_laws {B} (f : B -> A) : CmpLaws (fun x y => c (f x) (f y)).
Proof.
  split; intros.
  - apply (cmp_opp c).
  - by eapply (cmp_trans c).
  - by apply (cmp_eq_l c).
Qed.
End CmpFacts.

#[global] Instance Z_compare_laws : CmpLaws Z.compare.
Proof.
  split.
  - intros x y. apply Z.compare_antisym.
  - intros [] x y z; rewrite ?Z.compare_eq_iff, ?Z.compare_lt_iff, ?Z.compare_gt_iff; lia.
  - intros x y z. rewrite Z.compare_eq_iff. by intros ->.
Qed.

#[global] Instance Z_compare_eq : CmpEq Z.compare.
Proof. intros x y. apply Z.compare_eq_iff. Qed.

(** Lexicographic combination of two preorders on the same type. *)
#[global] Instance cmp_then_laws {A} (c d : A -> A -> comparison) :
  CmpLaws c -> CmpLaws d -> CmpLaws (fun x y => cmp_then (c x y) (d x y)).
Proof.
  intros Hc Hd. split.
  - intros x y. rewrite (cmp_opp c x y), (cmp_opp d x y). by destruct (c x y).
  - intros o x y z. unfold cmp_then.
    destruct (c x y) eqn:E1; destruct (c y z) eqn:E2; intros H1 H2; subst.
    + rewrite (cmp_eq_l c x y z E1), E2. by eapply (cmp_trans d).
    + by rewrite (cmp_eq_l c x y z E1), E2.
    + by rewrite (cmp_eq_l c x y z E1), E2.
    + by rewrite <- (cmp_eq_r c y z x E2), E1.
    + by rewrite (cmp_trans c Lt x y z E1 E2).
    + done.
    + by rewrite <- (cmp_eq_r c y z x E2), E1.
    + done.
    + by rewrite (cmp_trans c Gt x y z E1 E2).
  - intros x y z. unfold cmp_then. destruct (c x y) eqn:E1; [|done|done].
    intros E2. rewrite (cmp_eq_l c x y z E1). destruct (c y z); [|done|done].
    by apply (cmp_eq_l d).
Qed.

Lemma sgn_lt z : sgn z = Lt <-> z < 0.
Proof. unfold sgn. apply Z.compare_lt_iff. Qed.
Lemma sgn_gt z : sgn z = Gt <-> 0 < z.
Proof. unfold sgn. apply Z.compare_gt_iff. Qed.
Lemma sgn_eq z : sgn z = Eq <-> z = 0.
Proof. unfold sgn. apply Z.compare_eq_iff. Qed.
Lemma sgn_sub x y : sgn (x - y) = (x ?= y).
Proof. unfold sgn. destruct (x ?= y) eqn:E; revert E;
  rewrite ?Z.compare_eq_iff, ?Z.compare_lt_iff, ?Z.compare_gt_iff; lia. Qed.
Lemma sgn_0_ltb z : (0 <? z) = match sgn z with Gt => true | _ => false end.
Proof. unfold sgn. destruct (Z.compare_spec z 0); destruct (Z.ltb_spec 0 z); lia || done. Qed.

(** ** Lexicographic order on lists *)

Section Lex.
Context {A : Type} (c : A -> A -> comparison).

Fixpoint lex (l1 l2 : list A) : comparison :=
  match l1, l2 with
  | [], [] => Eq
  | [], _ :: _ => Lt
  | _ :: _, [] => Gt
  | x :: l1', y :: l2' => cmp_then (c x y) (lex l1' l2')
  end.

Lemma lex_app (l1 l2 k1 k2 : list A) :
  length l1 = length l2 ->
  lex (l1 ++ k1) (l2 ++ k2) = cmp_then (lex l1 l2) (lex k1 k2).
Proof.
  revert l2; induction l1 as [|x l1 IH]; intros [|y l2]; simpl; try done.
  intros [= H]. rewrite (IH _ H). by destruct (c x y).
Qed.

#[global] Instance lex_laws : CmpLaws c -> CmpLaws lex.
Proof.
  intros Hc. split.
  - intros l1; induction l1 as [|x l1 IH]; intros [|y l2]; simpl; try done.
    rewrite (cmp_opp c x y), IH. by destruct (c x y).
  - intros o l1; revert o; induction l1 as [|x l1 IH];
      intros o [|y l2] [|z l3]; simpl; intros H1 H2; subst; try done.
    unfold cmp_then in *.
    destruct (c x y) eqn:E1; destruct (c y z) eqn:E2;
      rewrite ?(cmp_eq_l c x y z E1), ?E2; try done;
      [by eapply IH| | | | ].
    + by rewrite <- (cmp_eq_r c y z x E2), E1.
    + by rewrite (cmp_trans c Lt x y z E1 E2).
    + by rewrite <- (cmp_eq_r c y z x E2), E1.
    + by rewrite (cmp_trans c Gt x y z E1 E2).
  - intros l1; induction l1 as [|x l1 IH]; intros [|y l2] [|z l3]; simpl; try done.
    unfold cmp_then. destruct (c x y) eqn:E1; try done. intros E2.
    rewrite (cmp_eq_l c x y z E1). destruct (c y z); [|done|done]. by apply IH.
Qed.

#[global] Instance lex_eq : CmpEq c -> CmpEq lex.
Proof.
  intros Hc l1. induction l1 as [|x l1 IH]; intros [|y l2]; simpl; try done.
  unfold cmp_then. destruct (c x y) eqn:E.
  - apply (cmp_eq c) in E as ->. rewrite IH. split; congruence.
  - split; [done|]. intros [= -> ->]. by rewrite (proj2 (cmp_eq c y y) eq_refl) in E.
  - split; [done|]. intros [= -> ->]. by rewrite (proj2 (cmp_eq c y y) eq_refl) in E.
Qed.

Lemma lex_app_lt (l1 l2 k1 k2 : list A) :
  length l1 = length l2 -> lex l1 l2 = Lt -> lex (l1 ++ k1) (l2 ++ k2) = Lt.
Proof. intros Hl H. rewrite lex_app by done. by rewrite H. Qed.

Lemma lex_prefix `{!CmpLaws c} (l k1 k2 : list A) : lex (l ++ k1) (l ++ k2) = lex k1 k2.
Proof. rewrite lex_app by done. by rewrite (cmp_refl lex). Qed.
End Lex.

(** ** [Array.prototype.sort]

    ECMAScript sorts are stable: [js_sort] keeps an element before every later
    element it does not exceed. *)

Section JsSort.
Context {A : Type} (cmp : A -> A -> Z).

Fixpoint sort_insert (x : A) (l : list A) : list A :=
  match l with
  | [] => [x]
  | y :: l' => if 0 <? cmp x y then y :: sort_insert x l' else x :: l
  end.

Definition js_sort (l : list A) : list A := foldr sort_insert [] l.

Definition cmp_le (x y : A) : Prop := sgn (cmp x y) <> Gt.

Lemma sort_insert_perm x l : sort_insert x l ≡ₚ x :: l.
Proof.
  induction l as [|y l IH]; simpl; [done|].
  destruct (0 <? cmp x y); [|done]. rewrite IH. by constructor.
Qed.

Lemma js_sort_perm l : js_sort l ≡ₚ l.
Proof. induction l as [|x l IH]; simpl; [done|]. by rewrite sort_insert_perm, IH. Qed.

Lemma js_sort_length l : length (js_sort l) = length l.
Proof. by rewrite js_sort_perm. Qed.

Lemma elem_of_js_sort x l : x ∈ js_sort l <-> x ∈ l.
Proof. by rewrite js_sort_perm. Qed.

(** A list already in order is left as it is. *)
Lemma js_sort_id l : StronglySorted cmp_le l -> js_sort l = l.
Proof.
  induction 1 as [|x l Hs IH Hall]; simpl; [done|]. rewrite IH.
  destruct l as [|y l]; simpl; [done|].
  apply Forall_inv in Hall as Hxy. unfold cmp_le in Hxy. rewrite sgn_0_ltb.
  by destruct (sgn (cmp x y)).
Qed.

Context `{!CmpLaws (fun x y => sgn (cmp x y))}.

Lemma sort_insert_sorted x l :
  StronglySorted cmp_le l -> StronglySorted cmp_le (sort_insert x l).
Proof.
  induction 1 as [|y l Hs IH Hall]; simpl; [repeat constructor|].
  rewrite sgn_0_ltb. destruct (sgn (cmp x y)) eqn:E.
  1,2: constructor; [by constructor|]; constructor; [unfold cmp_le; congruence|];
       eapply Forall_impl; [exact Hall|]; intros z Hz;
       apply (cmp_le_trans (fun x y => sgn (cmp x y)) x y z); [congruence|exact Hz].
  constructor; [done|]. rewrite sort_insert_perm. constructor; [|done].
  unfold cmp_le. intros H. apply (cmp_lt_gt (fun x y => sgn (cmp x y))) in H. congruence.
Qed.

Lemma js_sort_sorted l : StronglySorted cmp_le (js_sort l).
Proof. induction l; simpl; [constructor|]. by apply sort_insert_sorted. Qed.

(** Two sorted permutations of a list whose elements are pairwise
    inequivalent are equal. *)
Lemma sorted_perm_unique l1 l2 :
  (forall x y, x ∈ l1 -> y ∈ l1 -> sgn (cmp x y) = Eq -> x = y) ->
  StronglySorted cmp_le l1 -> StronglySorted cmp_le l2 -> l1 ≡ₚ l2 -> l1 = l2.
Proof.
  intros Hinj Hs; revert l2; induction Hs as [|x l1 Hs IH Hall]; intros l2 Hs2 Hp.
  { by apply Permutation_nil_l in Hp. }
  destruct Hs2 as [|y l2 Hs2 Hall2].
  { by apply Permutation_nil_r in Hp. }
  rewrite Forall_forall in Hall. rewrite Forall_forall in Hall2.
  assert (x = y) as ->.
  { assert (Hy : y ∈ x :: l1) by (rewrite Hp; set_solver).
    assert (Hx : x ∈ y :: l2) by (rewrite <- Hp; set_solver).
    apply elem_of_cons in Hy as [Hyx|Hy]; [done|].
    apply elem_of_cons in Hx as [Hxy|Hx]; [done|].
    apply Hinj; [set_solver..|].
    pose proof (Hall _ Hy) as H1. pose proof (Hall2 _ Hx) as H2. unfold cmp_le in *.
    pose proof (cmp_opp (fun x y => sgn (cmp x y)) x y) as H3. simpl in H3.
    destruct (sgn (cmp x y)), (sgn (cmp y x)); simpl in *; congruence. }
  f_equal. apply IH; [|done|by apply Permutation_cons_inv in Hp].
  intros; apply Hinj; set_solver.
Qed.

Lemma js_sort_perm_eq l1 l2 :
  (forall x y, x ∈ l1 -> y ∈ l1 -> sgn (cmp x y) = Eq -> x = y) ->
  l1 ≡ₚ l2 -> js_sort l1 = js_sort l2.
Proof.
  intros Hinj Hp. apply sorted_perm_unique; auto using js_sort_sorted.
  - intros x y Hx Hy. rewrite elem_of_js_sort in Hx, Hy. by apply Hinj.
  - by rewrite !js_sort_perm.
Qed.
End JsSort.

(** The sort only looks at the signs of the comparisons of its elements. *)
Lemma js_sort_ext {A} (cmp cmp' : A -> A -> Z) l :
  (forall x y, x ∈ l -> y ∈ l -> sgn (cmp x y) = sgn (cmp' x y)) -> js_sort cmp l = js_sort cmp' l.
Proof.
  assert (Hins : forall x k, (forall y, y ∈ k -> sgn (cmp x y) = sgn (cmp' x y)) -> sort_insert cmp x k = sort_insert cmp' x k).
  { intros x k. induction k as [|y k IH]; intros H; [done|]. cbn. rewrite !sgn_0_ltb, (H y) by left.
    destruct (sgn (cmp' x y)); try done. f_equal. apply IH. intros z Hz. apply H. by right. }
  induction l as [|x l IH]; intros H; [done|].
  change (sort_insert cmp x (js_sort cmp l) = sort_insert cmp' x (js_sort cmp' l)). rewrite <- IH by (intros; apply H; by right).
  apply Hins. intros y Hy. apply H; [left|right]. by rewrite elem_of_js_sort in Hy.
Qed.

(** ** Maps that keep insertion order

    A JavaScript [Map], where the order of its entries is observed. *)

Section Alist.
Context {K V : Type} `{EqDecision K}.

Fixpoint alist_get (k : K) (m : list (K * V)) : option V :=
  match m with
  | [] => None
  | (k', v) :: m' => if decide (k' = k) then Some v else alist_get k m'
  end.

Fixpoint alist_set (k : K) (v : V) (m : list (K * V)) : list (K * V) :=
  match m with
  | [] => [(k, v)]
  | (k', v') :: m' => if decide (k' = k) then (k, v) :: m' else (k', v') :: alist_set k v m'
  end.

Lemma alist_get_set k k' v m : alist_get k' (alist_set k v m) = if decide (k = k') then Some v else alist_get k' m.
Proof.
  induction m as [|[k1 v1] m IH]; cbn; [done|]. destruct (decide (k1 = k)) as [->|Hk]; cbn.
  - by destruct (decide (k = k')).
  - rewrite IH. destruct (decide (k1 = k')) as [->|]; [|done]. by destruct (decide (k = k')) as [->|].
Qed.

Lemma alist_keys_set k v m :
  (alist_set k v m).*1 = if decide (k ∈ m.*1) then m.*1 else m.*1 ++ [k].
Proof.
  induction m as [|[k1 v1] m IH]; cbn; [done|]. destruct (decide (k1 = k)) as [->|Hk]; cbn.
  - rewrite decide_True by left. done.
  - rewrite IH. destruct (decide (k ∈ m.*1)) as [Hin|Hin].
    + rewrite decide_True by (by right). done.
    + rewrite decide_False; [done|]. rewrite elem_of_cons. intros [->|]; done.
Qed.

Lemma alist_set_NoDup k v m : NoDup m.*1 -> NoDup (alist_set k v m).*1.
Proof.
  intros H. rewrite alist_keys_set. case_decide as Hk; [done|]. rewrite NoDup_app. split_and!; [done| |apply NoDup_singleton].
  intros x Hx ->%list_elem_of_singleton. done.
Qed.

Lemma alist_get_elem k v m : NoDup m.*1 -> alist_get k m = Some v <-> (k, v) ∈ m.
Proof.
  induction m as [|[k1 v1] m IH]; cbn; intros Hn.
  - by rewrite elem_of_nil.
  - apply NoDup_cons in Hn as [Hni Hn]. rewrite elem_of_cons. destruct (decide (k1 = k)) as [->|Hk].
    + split; [intros [= ->]; by left|]. intros [[= ->]|Hin]; [done|]. destruct Hni. by apply (list_elem_of_fmap_2 fst) in Hin.
    + rewrite IH by done. split; [by right|]. intros [[= ? ?]|]; [congruence|done].
Qed.

Lemma alist_get_is_Some k m : is_Some (alist_get k m) <-> k ∈ m.*1.
Proof.
  induction m as [|[k1 v1] m IH]; cbn.
  - rewrite elem_of_nil. split; [by intros []|done].
  - rewrite elem_of_cons. destruct (decide (k1 = k)) as [->|Hk]; [split; eauto|]. rewrite IH. split; [by right|]. by intros [->|].
Qed.

End Alist.

(** ** Induction in steps of three *)

Lemma list_ind3 {A} (P : list A -> Prop) :
  P [] -> (forall a, P [a]) -> (forall a b, P [a; b]) ->
  (forall a b c l, P l -> P (a :: b :: c :: l)) -> forall l, P l.
Proof.
  intros H0 H1 H2 H3. fix IH 1.
  intros [|a [|b [|c l]]]; [done|apply H1|apply H2|apply H3, IH].
Qed.

(** ** Reversed lists *)

Lemma StronglySorted_reverse {A} (R : relation A) (l : list A) :
  StronglySorted R l -> StronglySorted (flip R) (reverse l).
Proof.
  induction 1 as [|x l Hs IH Hall]; [constructor|]. rewrite reverse_cons.
  apply StronglySorted_app. split_and!; [|done|repeat constructor].
  intros y z Hy Hz. apply list_elem_of_singleton in Hz as ->. unfold flip.
  rewrite Forall_forall in Hall. apply Hall. by rewrite elem_of_reverse in Hy.
Qed.

Lemma bfilter_reverse {A} (f : A -> bool) (l : list A) :
  List.filter f (reverse l) = reverse (List.filter f l).
Proof. unfold reverse. rewrite <- !rev_alt. apply filter_rev. Qed.

Lemma bfilter_bfilter {A} (f g : A -> bool) (l : list A) :
  List.filter f (List.filter g l) = List.filter (fun x => g x && f x) l.
Proof.
  induction l as [|x l IH]; simpl; [done|]. destruct (g x); simpl; [|done].
  destruct (f x); by rewrite IH.
Qed.

Lemma bfilter_elem {A} (f : A -> bool) (l : list A) x :
  x ∈ List.filter f l <-> x ∈ l /\ f x = true.
Proof. rewrite !list_elem_of_In. apply filter_In. Qed.

Lemma filter_none_b {A} (f : A -> bool) (l : list A) :
  (forall x, x ∈ l -> f x = false) -> List.filter f l = [].
Proof.
  induction l as [|x l IH]; intros H; simpl; [done|].
  rewrite H by constructor. apply IH. intros y Hy. apply H. by constructor.
Qed.

Lemma StronglySorted_impl {A} (R Q : relation A) (l : list A) :
  (forall x y, x ∈ l -> y ∈ l -> R x y -> Q x y) -> StronglySorted R l -> StronglySorted Q l.
Proof.
  intros H Hs; induction Hs as [|x l Hs IH Hall]; constructor.
  - apply IH. intros y z Hy Hz. apply H; by constructor.
  - rewrite Forall_forall in *. intros y Hy. apply H; [constructor|by constructor|auto].
Qed.

(** ** Range scans over an ordered list

    A cursor loop that passes over elements before the range ([continue]),
    stops at the first one after it ([break]) and counts what it yields. *)

Definition take_limit {A} (n : option Z) (l : list A) : list A :=
  match n with
  | None => l
  | Some n => take (Z.to_nat n) l
  end.

Section Scan.
Context {A : Type} (skip stop : A -> bool).

Fixpoint scan (lim : option Z) (count : Z) (l : list A) : list A :=
  match l with
  | [] => []
  | x :: l' =>
    if skip x then scan lim count l'
    else if stop x then []
    else if (match lim with Some n => n <=? count | None => false end) then []
    else x :: scan lim (count + 1) l'
  end.

Definition wanted (x : A) : bool := negb (skip x) && negb (stop x).

(** Once the scan stops, nothing after is wanted. *)
Definition scan_ordered (l : list A) : Prop :=
  StronglySorted (fun x y => skip x = false -> stop x = true -> wanted y = false) l.

Lemma scan_spec lim count l :
  scan_ordered l ->
  scan lim count l = take_limit ((fun n => n - count) <$> lim) (List.filter wanted l).
Proof.
  intros Hs; revert count; induction Hs as [|x l Hs IH Hall]; intros count; simpl.
  { destruct lim; simpl; [by rewrite take_nil|done]. }
  unfold wanted at 1. destruct (skip x) eqn:Esk; simpl; [apply IH|].
  destruct (stop x) eqn:Est; simpl.
  - rewrite filter_none_b; [destruct lim; simpl; [by rewrite take_nil|done]|].
    intros y Hy. rewrite Forall_forall in Hall. auto.
  - rewrite IH. destruct lim as [n|]; simpl; [|done]. destruct (Z.leb_spec n count).
    + by replace (Z.to_nat (n - count)) with 0%nat by lia.
    + replace (Z.to_nat (n - count)) with (S (Z.to_nat (n - (count + 1)))) by lia. done.
Qed.
End Scan.
