(* ===== verification/Bytes.v ===== *)
(** * Byte strings

    Models [packages/quereus-store/src/common/bytes.ts] and the parts of
    [DataView] and [Uint8Array] the storage and sync packages use.

    A [Uint8Array] is a list of integers in [0, 256); a JS string is a list of
    UTF-16 code units.  [be n z] is what [setUint16] / [setUint32] /
    [setBigUint64] write (big-endian, reduced modulo [256^n]) and [unbe] what
    the matching getters read. *)

From S2P Require Import Prelude.
From Stdlib Require Import ZArith Lia.
From Stdlib Require Ascii String.
Export String.StringSyntax.
From stdpp Require Import sorting.
From stdpp Require Import base tactics numbers sets gmap list.
#[local] Open Scope Z_scope.

Abbreviation bytes := (list Z).
Abbreviation jsstring := (list Z).

(** The code units of an ASCII literal of the source. *)
Definition js (s : String.string) : jsstring :=
  map (fun a => Z.of_N (Ascii.N_of_ascii a)) (String.list_ascii_of_string s).
Arguments js s%_string_scope.

Definition is_byte (b : Z) : Prop := 0 <= b < 256.
Definition wf_bytes (l : bytes) : Prop := Forall is_byte l.

Definition is_byteb (b : Z) : bool := (0 <=? b) && (b <? 256).
Definition wf_bytesb (l : bytes) : bool := forallb is_byteb l.

Lemma wf_bytesb_spec l : wf_bytesb l = true <-> wf_bytes l.
Proof.
  unfold wf_bytesb, wf_bytes. rewrite forallb_forall, Forall_forall.
  setoid_rewrite list_elem_of_In. unfold is_byteb, is_byte.
  setoid_rewrite andb_true_iff. setoid_rewrite Z.leb_le. by setoid_rewrite Z.ltb_lt.
Qed.

(** Lexicographic unsigned-byte order, the order of every key in a store. *)
Abbreviation blex := (lex Z.compare).

Create HintDb bytes.
Create Rewrite HintDb bytes.
#[export] Hint Rewrite @length_app @length_reverse : bytes.
#[export] Hint Extern 4 => lia : bytes.

Lemma wf_app l k : wf_bytes (l ++ k) <-> wf_bytes l /\ wf_bytes k.
Proof. apply Forall_app. Qed.
Lemma wf_cons b l : wf_bytes (b :: l) <-> is_byte b /\ wf_bytes l.
Proof. apply Forall_cons. Qed.
Lemma wf_nil : wf_bytes [].
Proof. constructor. Qed.
Lemma wf_take n l : wf_bytes l -> wf_bytes (take n l).
Proof. apply Forall_take. Qed.
Lemma wf_drop n l : wf_bytes l -> wf_bytes (drop n l).
Proof. apply Forall_drop. Qed.

#[export] Hint Resolve wf_nil wf_take wf_drop : bytes.

(** ** bytes.ts *)

Module Bytes.

(** [Number.prototype.toString(16)] of one hexadecimal digit. *)
Definition hex_digit (d : Z) : Z := if d <? 10 then 48 + d else 87 + d.

Definition to_string16 (b : Z) : jsstring :=
  if b <? 16 then [hex_digit b] else [hex_digit (b / 16); hex_digit (b mod 16)].

Definition pad_start (n : nat) (c : Z) (s : jsstring) : jsstring :=
  replicate (n - length s) c ++ s.

(** [HEX_BYTE] entry of [b]: lowercase, zero-padded to two characters. *)
Definition HEX_BYTE (b : Z) : jsstring := pad_start 2 48 (to_string16 b).

Fixpoint bytesToHex (key : bytes) : jsstring :=
  match key with
  | [] => []
  | b :: key' => HEX_BYTE b ++ bytesToHex key'
  end.

Fixpoint bytesEqual_loop (a b : bytes) : bool :=
  match a, b with
  | x :: a', y :: b' => if x =? y then bytesEqual_loop a' b' else false
  | _, _ => true
  end.

Definition bytesEqual (a b : bytes) : bool :=
  if (length a =? length b)%nat then bytesEqual_loop a b else false.

(** The loop of [compareBytes] over the common length; [d] is the
    difference of lengths it falls back to. *)
Fixpoint compareBytes_loop (a b : bytes) (d : Z) : Z :=
  match a, b with
  | x :: a', y :: b' => if x =? y then compareBytes_loop a' b' d else x - y
  | _, _ => d
  end.

Definition compareBytes (a b : bytes) : Z :=
  compareBytes_loop a b (Z.of_nat (length a) - Z.of_nat (length b)).

Lemma bytesEqual_spec a b : bytesEqual a b = true <-> a = b.
Proof.
  unfold bytesEqual. destruct (Nat.eqb_spec (length a) (length b)) as [Hl|Hl];
    [|split; [done|by intros ->]].
  revert b Hl; induction a as [|x a IH]; intros [|y b] Hl; simpl in *; try done.
  destruct (Z.eqb_spec x y) as [->|Hne].
  - rewrite IH by lia. split; congruence.
  - split; [done|congruence].
Qed.

Lemma compareBytes_loop_lex a b d :
  sgn d = (Z.of_nat (length a) - Z.of_nat (length b) ?= 0) ->
  sgn (compareBytes_loop a b d) = blex a b.
Proof.
  revert b d; induction a as [|x a IH]; intros [|y b] d Hd; simpl compareBytes_loop; simpl lex.
  - rewrite Hd. done.
  - rewrite Hd. simpl. by destruct (Z.of_nat _).
  - rewrite Hd. simpl. by destruct (Z.of_nat _).
  - destruct (Z.eqb_spec x y) as [->|Hne].
    + rewrite (cmp_refl Z.compare). simpl. apply IH. rewrite Hd.
      simpl length. f_equal. lia.
    + rewrite sgn_sub. destruct (x ?= y) eqn:E; [|done|done].
      by apply Z.compare_eq_iff in E.
Qed.

Lemma compareBytes_lex a b : sgn (compareBytes a b) = blex a b.
Proof. by apply compareBytes_loop_lex. Qed.

#[global] Instance compareBytes_laws : CmpLaws (fun a b => sgn (compareBytes a b)).
Proof.
  split; intros *; rewrite !compareBytes_lex.
  - apply (cmp_opp blex).
  - apply (cmp_trans blex).
  - apply (cmp_eq_l blex).
Qed.

#[global] Instance compareBytes_eq : CmpEq (fun a b => sgn (compareBytes a b)).
Proof. intros a b. rewrite compareBytes_lex. apply (cmp_eq blex). Qed.

Lemma hex_digit_compare d e :
  0 <= d < 16 -> 0 <= e < 16 -> (hex_digit d ?= hex_digit e) = (d ?= e).
Proof.
  intros Hd He. unfold hex_digit.
  destruct (Z.ltb_spec d 10), (Z.ltb_spec e 10); destruct (Z.compare_spec d e);
    rewrite ?Z.compare_eq_iff, ?Z.compare_lt_iff, ?Z.compare_gt_iff; lia.
Qed.

Lemma HEX_BYTE_digits b :
  is_byte b -> HEX_BYTE b = [hex_digit (b / 16); hex_digit (b mod 16)].
Proof.
  intros Hb. unfold HEX_BYTE, pad_start, to_string16, is_byte in *.
  destruct (Z.ltb_spec b 16); simpl; [|done].
  rewrite Z.div_small, Z.mod_small by lia. done.
Qed.

Lemma HEX_BYTE_lex b c :
  is_byte b -> is_byte c -> lex Z.compare (HEX_BYTE b) (HEX_BYTE c) = (b ?= c).
Proof.
  intros Hb Hc. rewrite !HEX_BYTE_digits by done. simpl. unfold is_byte in *.
  rewrite !hex_digit_compare
    by (try apply Z.mod_pos_bound; try (split; [apply Z.div_pos|apply Z.div_lt_upper_bound]); lia).
  pose proof (Z.div_mod b 16). pose proof (Z.div_mod c 16).
  pose proof (Z.mod_pos_bound b 16). pose proof (Z.mod_pos_bound c 16).
  unfold cmp_then.
  destruct (Z.compare_spec (b / 16) (c / 16)); [destruct (Z.compare_spec (b mod 16) (c mod 16))| |];
    symmetry; rewrite ?Z.compare_eq_iff, ?Z.compare_lt_iff, ?Z.compare_gt_iff; lia.
Qed.

Lemma length_HEX_BYTE b : is_byte b -> length (HEX_BYTE b) = 2%nat.
Proof. intros H. by rewrite HEX_BYTE_digits. Qed.

Lemma bytesToHex_lex a b :
  wf_bytes a -> wf_bytes b -> lex Z.compare (bytesToHex a) (bytesToHex b) = blex a b.
Proof.
  intros Ha; revert b; induction Ha as [|x a Hx Ha IH]; intros b Hb; destruct Hb as [|y b Hy Hb].
  - done.
  - simpl. by rewrite HEX_BYTE_digits.
  - simpl. by rewrite HEX_BYTE_digits.
  - cbn [bytesToHex]. rewrite lex_app by (by rewrite !length_HEX_BYTE).
    rewrite HEX_BYTE_lex, IH by done. done.
Qed.

Lemma bytesToHex_inj a b :
  wf_bytes a -> wf_bytes b -> bytesToHex a = bytesToHex b -> a = b.
Proof.
  intros Ha Hb H. apply (cmp_eq blex). rewrite <- bytesToHex_lex by done.
  rewrite H. apply (cmp_refl (lex Z.compare)).
Qed.

End Bytes.

(** ** Big-endian integers *)

Fixpoint be (n : nat) (z : Z) : bytes :=
  match n with
  | O => []
  | S n' => be n' (z / 256) ++ [z mod 256]
  end.

Definition unbe (l : bytes) : Z := foldl (fun acc b => acc * 256 + b) 0 l.

Lemma length_be n z : length (be n z) = n.
Proof. revert z; induction n as [|n IH]; intros z; simpl; [done|]. rewrite length_app, IH. simpl. lia. Qed.

Lemma wf_be n z : wf_bytes (be n z).
Proof.
  revert z; induction n as [|n IH]; intros z; simpl; [constructor|].
  apply wf_app; split; [apply IH|]. repeat constructor; apply Z.mod_pos_bound; lia.
Qed.

#[export] Hint Rewrite length_be : bytes.
#[export] Hint Resolve wf_be : bytes.

Lemma unbe_snoc l b : unbe (l ++ [b]) = unbe l * 256 + b.
Proof. unfold unbe. by rewrite foldl_app. Qed.

Lemma unbe_be n z : unbe (be n z) = z mod 256 ^ Z.of_nat n.
Proof.
  revert z; induction n as [|n IH]; intros z; simpl be.
  - simpl. by rewrite Z.mod_1_r.
  - rewrite unbe_snoc, IH, Nat2Z.inj_succ, Z.pow_succ_r by lia.
    rewrite Z.rem_mul_r by lia. lia.
Qed.

Lemma unbe_be_small n z : 0 <= z < 256 ^ Z.of_nat n -> unbe (be n z) = z.
Proof. intros H. rewrite unbe_be. by apply Z.mod_small. Qed.

Lemma unbe_bound l : wf_bytes l -> 0 <= unbe l < 256 ^ Z.of_nat (length l).
Proof.
  induction l as [|b l IH] using rev_ind; intros H; [unfold unbe; simpl; lia|].
  apply wf_app in H as [Hl Hb]. apply Forall_inv in Hb. unfold is_byte in Hb.
  rewrite unbe_snoc, length_app, Nat.add_comm. simpl length.
  change (1 + length l)%nat with (S (length l)).
  rewrite Nat2Z.inj_succ, Z.pow_succ_r by lia. specialize (IH Hl). lia.
Qed.

Lemma be_unbe l : wf_bytes l -> be (length l) (unbe l) = l.
Proof.
  induction l as [|b l IH] using rev_ind; intros H; [done|].
  apply wf_app in H as [Hl Hb]. apply Forall_inv in Hb. unfold is_byte in Hb.
  rewrite length_app, Nat.add_comm. simpl length. change (1 + length l)%nat with (S (length l)).
  rewrite unbe_snoc. simpl be.
  rewrite Z.div_add_l, Z.div_small, Z.add_0_r, IH by (done || lia). do 2 f_equal.
  rewrite Z.add_comm, Z.mod_add, Z.mod_small by lia. done.
Qed.

(** Byte order on fixed-width big-endian integers is integer order. *)
Lemma lex_be n x y :
  0 <= x < 256 ^ Z.of_nat n -> 0 <= y < 256 ^ Z.of_nat n -> blex (be n x) (be n y) = (x ?= y).
Proof.
  revert x y; induction n as [|n IH]; intros x y Hx Hy.
  - simpl in *. symmetry. apply Z.compare_eq_iff. lia.
  - rewrite Nat2Z.inj_succ, Z.pow_succ_r in Hx, Hy by lia.
    simpl be. rewrite lex_app by (by rewrite !length_be).
    rewrite IH by (split; [apply Z.div_pos|apply Z.div_lt_upper_bound]; lia).
    pose proof (Z.div_mod x 256). pose proof (Z.div_mod y 256).
    pose proof (Z.mod_pos_bound x 256). pose proof (Z.mod_pos_bound y 256).
    simpl. unfold cmp_then.
    destruct (Z.compare_spec (x / 256) (y / 256));
      [destruct (Z.compare_spec (x mod 256) (y mod 256))| |];
      symmetry; rewrite ?Z.compare_eq_iff, ?Z.compare_lt_iff, ?Z.compare_gt_iff; lia.
Qed.

(** [Uint8Array.prototype.slice(from, to)]. *)
Definition slice {A} (from to : nat) (l : list A) : list A := take (to - from) (drop from l).

Lemma slice_app_l {A} (l k : list A) : slice 0 (length l) (l ++ k) = l.
Proof. unfold slice. rewrite drop_0, Nat.sub_0_r. apply take_app_length. Qed.

Lemma slice_mid {A} (l k m : list A) from to :
  length l = from -> to = (from + length k)%nat -> slice from to (l ++ k ++ m) = k.
Proof.
  intros <- ->. unfold slice. rewrite drop_app_length.
  replace (length l + length k - length l)%nat with (length k) by lia. apply take_app_length.
Qed.

(** [new Uint8Array(n)] and [buffer.set(src, off)]; the latter, like the
    [DataView] setters, raises a [RangeError] when it would write past the end. *)
Definition u8_new (n : nat) : bytes := replicate n 0.

Definition u8_set (buf src : bytes) (off : nat) : res bytes :=
  if (off + length src <=? length buf)%nat
  then Ok (take off buf ++ src ++ drop (off + length src) buf)
  else Throw ERange.

Definition dv_get (n : nat) (off : nat) (buf : bytes) : res Z :=
  if (off + n <=? length buf)%nat then Ok (unbe (slice off (off + n) buf)) else Throw ERange.

Lemma u8_set_at (pre old post src : bytes) off :
  length pre = off -> length old = length src ->
  u8_set (pre ++ old ++ post) src off = Ok (pre ++ src ++ post).
Proof.
  intros <- Hl. unfold u8_set. rewrite !length_app.
  destruct (Nat.leb_spec (length pre + length src)
              (length pre + (length old + length post))); [|lia].
  do 2 f_equal; [apply take_app_length|]. f_equal.
  rewrite <- Hl, <- length_app, app_assoc. apply drop_app_length.
Qed.

Lemma u8_new_split n m : u8_new (n + m) = u8_new n ++ u8_new m.
Proof. apply replicate_add. Qed.

Lemma length_u8_new n : length (u8_new n) = n.
Proof. apply length_replicate. Qed.

Lemma dv_get_mid (l k m : bytes) n off :
  length l = off -> n = length k -> dv_get n off (l ++ k ++ m) = Ok (unbe k).
Proof.
  intros <- ->. unfold dv_get. rewrite !length_app.
  destruct (Nat.leb_spec (length l + length k) (length l + (length k + length m))); [|lia].
  by rewrite slice_mid.
Qed.
