(* ===== verification/Double.v ===== *)
(** * JS numbers

    The IEEE-754 binary64 arithmetic the modelled code uses.  A JS number is
    its 64-bit pattern ([double]); its exact value is an integer count of
    2^-1074 units, or an infinity, or NaN ([num]).  [Number(bigint)] rounds to
    nearest, ties to even. *)

From S2P Require Import Prelude.
From Stdlib Require Import ZArith Lia.
From stdpp Require Import sorting.
From stdpp Require Import base tactics numbers sets gmap list.
#[local] Open Scope Z_scope.

(** [a / 2^s] rounded to the nearest integer, ties to even. *)
Definition round_shift (a s : Z) : Z :=
  let q := a / 2 ^ s in
  let r := a mod 2 ^ s in
  if 2 * r <? 2 ^ s then q
  else if 2 ^ s <? 2 * r then q + 1
  else if Z.even q then q else q + 1.

(** [Number(n)] for a bigint [n] inside the range of finite doubles: the
    result is integer-valued. *)
Definition Number_of_bigint (n : Z) : Z :=
  let a := Z.abs n in
  let s := Z.log2 a - 52 in
  if s <=? 0 then n else Z.sgn n * (round_shift a s * 2 ^ s).

(** Every integer of at most 53 bits is a double. *)
Lemma Number_of_bigint_exact n : Z.abs n < 2 ^ 53 -> Number_of_bigint n = n.
Proof.
  intros H. unfold Number_of_bigint. destruct (Z.leb_spec (Z.log2 (Z.abs n) - 52) 0); [done|].
  assert (Z.log2 (Z.abs n) < 53); [|lia].
  apply Z.log2_lt_pow2; [|done].
  destruct (decide (n = 0)) as [->|]; [simpl in *; lia|lia].
Qed.

(** ** Bit patterns and values *)

Definition double : Type := Z.

(** JS has one NaN; its pattern is the quiet one. *)
Definition INF_MAG : Z := 0x7FF * 2 ^ 52.
Definition NAN_BITS : double := INF_MAG + 2 ^ 51.
Definition wf_double (d : double) : Prop :=
  0 <= d < 2 ^ 64 /\ (d mod 2 ^ 63 <= INF_MAG \/ d = NAN_BITS).

Definition dneg (d : double) : bool := 2 ^ 63 <=? d.
Definition dmag (d : double) : Z := d mod 2 ^ 63.

(** The magnitude of a finite pattern, in units of 2^-1074. *)
Definition units (mag : Z) : Z :=
  let e := mag / 2 ^ 52 in
  let m := mag mod 2 ^ 52 in
  if e =? 0 then m else (2 ^ 52 + m) * 2 ^ (e - 1).

Inductive num : Type :=
| NNan
| NNegInf
| NFin (u : Z)
| NPosInf.

Definition num_of_double (d : double) : num :=
  if INF_MAG <? dmag d then NNan
  else if dmag d =? INF_MAG then (if dneg d then NNegInf else NPosInf)
  else NFin (if dneg d then - units (dmag d) else units (dmag d)).

Definition UNIT : Z := 2 ^ 1074.

Definition num_of_bigint (n : Z) : num := NFin (n * UNIT).

(** JS [a < b] on numbers and bigints: exact, and false on NaN. *)
Definition num_ltb (a b : num) : bool :=
  match a, b with
  | NNan, _ | _, NNan => false
  | NNegInf, NNegInf => false
  | NNegInf, _ => true
  | _, NNegInf => false
  | NPosInf, _ => false
  | _, NPosInf => true
  | NFin x, NFin y => x <? y
  end.

Definition is_nan (d : double) : bool := match num_of_double d with NNan => true | _ => false end.

(** [Object.is(value, -0)]. *)
Definition NEG_ZERO : double := 2 ^ 63.
Definition is_neg_zero (d : double) : bool := d =? NEG_ZERO.

(** [Number.isInteger(d)]. *)
Definition is_integer (d : double) : bool :=
  match num_of_double d with
  | NFin u => u mod UNIT =? 0
  | _ => false
  end.

(** [BigInt(d)] for an integer-valued [d]. *)
Definition BigInt_of_double (d : double) : option Z :=
  match num_of_double d with
  | NFin u => if u mod UNIT =? 0 then Some (u / UNIT) else None
  | _ => None
  end.

(** The pattern of an integer that is exactly a double. *)
Definition double_of_Z (p : Z) : double :=
  let a := Z.abs p in
  if a =? 0 then 0
  else
    let L := Z.log2 a in
    (if p <? 0 then 2 ^ 63 else 0) + (L + 1022) * 2 ^ 52
    + (if L <=? 52 then a * 2 ^ (52 - L) else a / 2 ^ (L - 52)).

(** [Number(n)] as a pattern. *)
Definition Number_bits (n : Z) : double := double_of_Z (Number_of_bigint n).

(** ** Magnitudes *)

Lemma units_bounds mag :
  0 <= mag ->
  let e := mag / 2 ^ 52 in
  (if e =? 0 then 0 else 2 ^ (51 + e)) <= units mag < 2 ^ (52 + e).
Proof.
  intros Hm e. unfold units. fold e.
  assert (0 <= e) by (apply Z.div_pos; lia).
  pose proof (Z.mod_pos_bound mag (2 ^ 52) ltac:(lia)) as Hr.
  destruct (Z.eqb_spec e 0) as [->|Hne]; [lia|].
  replace (51 + e) with (52 + (e - 1)) by lia. replace (52 + e) with (53 + (e - 1)) by lia.
  rewrite !Z.pow_add_r by lia. assert (0 < 2 ^ (e - 1)) by (apply Z.pow_pos_nonneg; lia).
  change (2 ^ 53) with (2 * 2 ^ 52). nia.
Qed.

Lemma units_mono a b : 0 <= a -> a < b -> units a < units b.
Proof.
  intros Ha Hab. pose proof (units_bounds a Ha) as [_ Hua]. pose proof (units_bounds b ltac:(lia)) as [Hub _].
  cbv zeta in Hua, Hub.
  assert (a / 2 ^ 52 <= b / 2 ^ 52) as Hle by (apply Z.div_le_mono; lia).
  assert (0 <= a / 2 ^ 52) by (apply Z.div_pos; lia).
  destruct (Z.eq_dec (a / 2 ^ 52) (b / 2 ^ 52)) as [E|Hne].
  - pose proof (Z.div_mod a (2 ^ 52) ltac:(lia)). pose proof (Z.div_mod b (2 ^ 52) ltac:(lia)).
    assert (a mod 2 ^ 52 < b mod 2 ^ 52) by lia.
    unfold units. rewrite E. destruct (Z.eqb_spec (b / 2 ^ 52) 0); [done|].
    apply Z.mul_lt_mono_pos_r; [|lia]. apply Z.pow_pos_nonneg; lia.
  - destruct (Z.eqb_spec (b / 2 ^ 52) 0); [lia|].
    assert (2 ^ (52 + a / 2 ^ 52) <= 2 ^ (51 + b / 2 ^ 52)) by (apply Z.pow_le_mono_r; lia). lia.
Qed.

Lemma units_nonneg a : 0 <= a -> 0 <= units a.
Proof.
  intros Ha. pose proof (units_bounds a Ha) as [H _]. cbv zeta in H. destruct (_ =? 0); [lia|].
  pose proof (Z.pow_nonneg 2 (51 + a / 2 ^ 52)). lia.
Qed.

Lemma units_0 : units 0 = 0.
Proof. done. Qed.

Lemma units_pos a : 0 < a -> 0 < units a.
Proof. intros Ha. pose proof (units_mono 0 a ltac:(lia) Ha). by rewrite units_0 in *. Qed.

(** ** Rounding *)

Lemma round_shift_bounds a s :
  0 <= a -> 0 <= s -> a / 2 ^ s <= round_shift a s <= a / 2 ^ s + 1.
Proof. intros. unfold round_shift. repeat case_match; lia. Qed.

Lemma round_shift_mono a b s : 0 <= s -> 0 <= a -> a <= b -> round_shift a s <= round_shift b s.
Proof.
  intros Hs Ha Hab. pose proof (Z.pow_pos_nonneg 2 s ltac:(lia) Hs) as Hp.
  pose proof (Z.div_le_mono a b (2 ^ s) Hp Hab) as Hq.
  destruct (Z.eq_dec (a / 2 ^ s) (b / 2 ^ s)) as [E|Hne].
  - pose proof (Z.div_mod a (2 ^ s) ltac:(lia)). pose proof (Z.div_mod b (2 ^ s) ltac:(lia)).
    unfold round_shift. rewrite E in *. repeat case_match; lia.
  - pose proof (round_shift_bounds a s). pose proof (round_shift_bounds b s). lia.
Qed.

Lemma round_shift_exact q s : 0 <= s -> round_shift (q * 2 ^ s) s = q.
Proof.
  intros Hs. pose proof (Z.pow_pos_nonneg 2 s ltac:(lia) Hs) as Hp. unfold round_shift.
  rewrite Z.div_mul, Z.mod_mul, Z.mul_0_r by lia. by rewrite (proj2 (Z.ltb_lt 0 (2 ^ s))).
Qed.

(** Rounding a magnitude. *)
Definition round_mag (a : Z) : Z :=
  let s := Z.log2 a - 52 in
  if s <=? 0 then a else round_shift a s * 2 ^ s.

Lemma Number_of_bigint_mag n : Number_of_bigint n = Z.sgn n * round_mag (Z.abs n).
Proof.
  unfold Number_of_bigint, round_mag. destruct (_ <=? 0); [|done]. by rewrite Z.mul_comm, Z.abs_sgn.
Qed.

(** Rounding stays within the binade, up to its top. *)
Lemma round_mag_bounds a : 0 < a -> 2 ^ Z.log2 a <= round_mag a <= 2 ^ (Z.log2 a + 1).
Proof.
  intros Ha. pose proof (Z.log2_spec a Ha) as [H1 H2]. rewrite <- Z.add_1_r in H2. unfold round_mag.
  destruct (Z.leb_spec (Z.log2 a - 52) 0) as [Hs|Hs]; [lia|].
  set (s := Z.log2 a - 52) in *. replace (Z.log2 a) with (52 + s) in * by lia.
  replace (52 + s + 1) with (53 + s) in * by lia. rewrite !Z.pow_add_r in * by lia.
  pose proof (Z.pow_pos_nonneg 2 s ltac:(lia) ltac:(lia)) as Hp.
  pose proof (round_shift_bounds a s ltac:(lia) ltac:(lia)) as Hb.
  assert (2 ^ 52 <= a / 2 ^ s) by (apply Z.div_le_lower_bound; lia).
  assert (a / 2 ^ s < 2 ^ 53) by (apply Z.div_lt_upper_bound; lia). nia.
Qed.

Lemma round_mag_mono a b : 0 <= a -> a <= b -> round_mag a <= round_mag b.
Proof.
  intros Ha Hab. destruct (Z.eq_dec a 0) as [->|Hne].
  { destruct (Z.eq_dec b 0) as [->|]; [done|]. change (round_mag 0) with 0.
    pose proof (round_mag_bounds b ltac:(lia)). pose proof (Z.pow_nonneg 2 (Z.log2 b) ltac:(lia)). lia. }
  destruct (Z.eq_dec (Z.log2 a) (Z.log2 b)) as [E|Hl].
  - unfold round_mag. rewrite E. destruct (Z.leb_spec (Z.log2 b - 52) 0); [done|].
    apply Z.mul_le_mono_nonneg_r; [apply Z.pow_nonneg; lia|]. apply round_shift_mono; lia.
  - pose proof (Z.log2_le_mono a b Hab). pose proof (round_mag_bounds a ltac:(lia)).
    pose proof (round_mag_bounds b ltac:(lia)).
    assert (2 ^ (Z.log2 a + 1) <= 2 ^ Z.log2 b) by (apply Z.pow_le_mono_r; lia). lia.
Qed.

Lemma round_mag_nonneg a : 0 <= a -> 0 <= round_mag a.
Proof. intros Ha. pose proof (round_mag_mono 0 a ltac:(lia) Ha) as H. by change (round_mag 0) with 0 in H. Qed.

(** [Number] is monotone. *)
Lemma Number_of_bigint_mono n m : n <= m -> Number_of_bigint n <= Number_of_bigint m.
Proof.
  intros Hnm. rewrite !Number_of_bigint_mag.
  pose proof (round_mag_nonneg (Z.abs n) ltac:(lia)). pose proof (round_mag_nonneg (Z.abs m) ltac:(lia)).
  destruct (Z.sgn_spec n) as [[Hn ->]|[[Hn ->]|[Hn ->]]], (Z.sgn_spec m) as [[Hm ->]|[[Hm ->]|[Hm ->]]]; try lia.
  - pose proof (round_mag_mono (Z.abs n) (Z.abs m)). lia.
  - pose proof (round_mag_mono (Z.abs m) (Z.abs n)). lia.
Qed.

(** Integers that are doubles (in the finite range). *)
Definition representable (p : Z) : Prop :=
  Z.log2 (Z.abs p) <= 52 \/ exists q, Z.abs p = q * 2 ^ (Z.log2 (Z.abs p) - 52).

Lemma Number_of_representable p : representable p -> Number_of_bigint p = p.
Proof.
  intros Hp. rewrite Number_of_bigint_mag. unfold round_mag.
  destruct (Z.leb_spec (Z.log2 (Z.abs p) - 52) 0) as [Hs|Hs]; [by rewrite Z.mul_comm, Z.abs_sgn|].
  destruct Hp as [?|[q Hq]]; [lia|]. set (s := Z.log2 (Z.abs p) - 52) in *.
  rewrite Hq at 1. rewrite round_shift_exact by lia. rewrite <- Hq. by rewrite Z.mul_comm, Z.abs_sgn.
Qed.

Lemma abs_Number n : Z.abs (Number_of_bigint n) = round_mag (Z.abs n).
Proof.
  rewrite Number_of_bigint_mag, Z.abs_mul. pose proof (round_mag_nonneg (Z.abs n) ltac:(lia)).
  destruct (Z.eq_dec n 0) as [->|Hn]; [done|].
  rewrite (Z.abs_eq (round_mag _)) by done. destruct (Z.sgn_spec n) as [[? ->]|[[? ->]|[? ->]]]; lia.
Qed.

Lemma round_mag_representable a : 0 <= a -> representable (round_mag a).
Proof.
  intros Ha. unfold representable. rewrite Z.abs_eq by by apply round_mag_nonneg.
  unfold round_mag. destruct (Z.leb_spec (Z.log2 a - 52) 0) as [Hs|Hs]; [left; lia|].
  set (s := Z.log2 a - 52) in *. right.
  assert (0 < a) as Hpos by (destruct (Z.eq_dec a 0) as [->|]; [cbn in *; lia|lia]).
  pose proof (round_mag_bounds a Hpos) as Hb. unfold round_mag in Hb.
  rewrite (proj2 (Z.leb_gt _ _)) in Hb by done. fold s in Hb.
  replace (Z.log2 a + 1) with (53 + s) in Hb by lia. replace (Z.log2 a) with (52 + s) in Hb by lia.
  rewrite !Z.pow_add_r in Hb by lia. pose proof (Z.pow_pos_nonneg 2 s ltac:(lia) ltac:(lia)) as Hp.
  assert (2 ^ 52 <= round_shift a s <= 2 ^ 53) as Hr by nia.
  rewrite Z.log2_mul_pow2 by lia.
  destruct (Z.eq_dec (round_shift a s) (2 ^ 53)) as [E|Hne].
  - rewrite E. exists (2 ^ 52). rewrite Z.log2_pow2 by lia. replace (s + 53 - 52) with (s + 1) by lia.
    rewrite Z.pow_add_r by lia. lia.
  - assert (Z.log2 (round_shift a s) = 52) as ->.
    { apply Z.log2_unique; [lia|]. change (Z.succ 52) with 53. lia. }
    exists (round_shift a s). f_equal. f_equal. lia.
Qed.

Lemma Number_representable n : representable (Number_of_bigint n).
Proof.
  unfold representable. rewrite abs_Number. pose proof (round_mag_representable (Z.abs n) ltac:(lia)) as H.
  unfold representable in H. by rewrite Z.abs_eq in H by (apply round_mag_nonneg; lia).
Qed.

Lemma split_pattern e m : 0 <= m < 2 ^ 52 -> (e * 2 ^ 52 + m) / 2 ^ 52 = e /\ (e * 2 ^ 52 + m) mod 2 ^ 52 = m.
Proof. intros Hm. split; Z.to_euclidean_division_equations; lia. Qed.

Lemma sign_pattern (neg : bool) mag :
  0 <= mag < 2 ^ 63 ->
  dneg ((if neg then 2 ^ 63 else 0) + mag) = neg /\ dmag ((if neg then 2 ^ 63 else 0) + mag) = mag.
Proof.
  intros Hm. unfold dneg, dmag. destruct neg; split; try lia.
  - rewrite Z.add_comm, <- (Z.mul_1_l (2 ^ 63)), Z.mod_add by lia. by apply Z.mod_small.
  - by apply Z.mod_small.
Qed.

Lemma double_of_Z_value p :
  representable p -> Z.log2 (Z.abs p) <= 1023 ->
  num_of_double (double_of_Z p) = NFin (p * UNIT) /\ wf_double (double_of_Z p) /\
  double_of_Z p <> NEG_ZERO.
Proof.
  intros Hrep HL. unfold representable in Hrep. unfold double_of_Z. destruct (Z.eqb_spec (Z.abs p) 0) as [E|Hne].
  { assert (p = 0) as -> by lia. split; [done|]. split; [|done]. split; [done|by left]. }
  set (a := Z.abs p) in *. set (L := Z.log2 a) in *.
  set (M := if L <=? 52 then a * 2 ^ (52 - L) else a / 2 ^ (L - 52)).
  assert (0 <= L) as HL0 by apply Z.log2_nonneg.
  assert (2 ^ 52 <= M < 2 ^ 53 /\ M * 2 ^ L = a * 2 ^ 52) as [HM HML].
  { pose proof (Z.log2_spec a ltac:(lia)) as [H1 H2]. fold L in H1, H2. rewrite <- Z.add_1_r in H2.
    subst M. destruct (Z.leb_spec L 52) as [Hle|Hgt].
    - pose proof (Z.pow_pos_nonneg 2 (52 - L) ltac:(lia) ltac:(lia)).
      assert (2 ^ (52 - L) * 2 ^ L = 2 ^ 52) by (rewrite <- Z.pow_add_r by lia; f_equal; lia).
      rewrite Z.pow_add_r in H2 by lia. change (2 ^ 53) with (2 * 2 ^ 52). nia.
    - destruct Hrep as [?|[q Hq]]; [lia|].
      pose proof (Z.pow_pos_nonneg 2 (L - 52) ltac:(lia) ltac:(lia)).
      assert (a / 2 ^ (L - 52) = q) as -> by (rewrite Hq; apply Z.div_mul; lia).
      assert (2 ^ (L - 52) * 2 ^ 52 = 2 ^ L) by (rewrite <- Z.pow_add_r by lia; f_equal; lia).
      rewrite Z.pow_add_r in H2 by lia. change (2 ^ 53) with (2 * 2 ^ 52). nia. }
  set (mag := (L + 1022) * 2 ^ 52 + M).
  replace ((if p <? 0 then 2 ^ 63 else 0) + (L + 1022) * 2 ^ 52 + M)
    with ((if p <? 0 then 2 ^ 63 else 0) + mag) by lia.
  assert (mag = (L + 1023) * 2 ^ 52 + (M - 2 ^ 52)) as Hmag by lia.
  destruct (split_pattern (L + 1023) (M - 2 ^ 52)) as [Hq Hr]; [lia|]. rewrite <- Hmag in Hq, Hr.
  assert (0 < mag < INF_MAG) as Hrange by (unfold INF_MAG; lia).
  destruct (sign_pattern (p <? 0) mag) as [Hs Hd]; [unfold INF_MAG in *; lia|].
  assert (units mag = a * UNIT) as Hu.
  { unfold units. rewrite Hq, Hr, (proj2 (Z.eqb_neq (L + 1023) 0)) by lia.
    replace (2 ^ 52 + (M - 2 ^ 52)) with M by lia. replace (L + 1023 - 1) with (L + 1022) by lia.
    unfold UNIT. replace 1074 with (52 + 1022) by lia. rewrite !Z.pow_add_r by lia.
    rewrite !Z.mul_assoc, HML. done. }
  split; [|split].
  - unfold num_of_double. rewrite Hs, Hd, Hu.
    rewrite (proj2 (Z.ltb_ge INF_MAG mag)), (proj2 (Z.eqb_neq mag INF_MAG)) by lia.
    f_equal. subst a. destruct (Z.ltb_spec p 0); lia.
  - unfold wf_double. fold (dmag ((if p <? 0 then 2 ^ 63 else 0) + mag)). rewrite Hd.
    unfold INF_MAG in *. destruct (p <? 0); lia.
  - unfold NEG_ZERO. unfold INF_MAG in *. destruct (p <? 0); lia.
Qed.

(** ** Comparing integers with doubles *)

(** A finite double is a representable integer, or is below 2^52. *)
Definition double_value (u : Z) : Prop :=
  (exists f, u = f * UNIT /\ representable f) \/ Z.abs u < 2 ^ 52 * UNIT.

Lemma UNIT_pos : 0 < UNIT.
Proof. apply Z.pow_pos_nonneg; lia. Qed.

Lemma units_double_value mag : 0 <= mag < INF_MAG -> double_value (units mag).
Proof.
  intros [Hm0 Hm]. set (e := mag / 2 ^ 52).
  assert (0 <= e) by (apply Z.div_pos; lia).
  pose proof (Z.mod_pos_bound mag (2 ^ 52) ltac:(lia)) as Hr.
  destruct (Z.le_gt_cases e 1074) as [Hle|Hgt].
  - right. rewrite Z.abs_eq by by apply units_nonneg. pose proof (units_bounds mag Hm0) as [_ Hu].
    cbv zeta in Hu. fold e in Hu. unfold UNIT. rewrite <- Z.pow_add_r by lia.
    assert (2 ^ (52 + e) <= 2 ^ (52 + 1074)) by (apply Z.pow_le_mono_r; lia). lia.
  - left. unfold units. fold e. rewrite (proj2 (Z.eqb_neq e 0)) by lia.
    set (m := mag mod 2 ^ 52) in *. exists ((2 ^ 52 + m) * 2 ^ (e - 1075)). split.
    + unfold UNIT. rewrite <- Z.mul_assoc, <- Z.pow_add_r by lia. f_equal. f_equal. lia.
    + right. exists (2 ^ 52 + m).
      pose proof (Z.pow_pos_nonneg 2 (e - 1075) ltac:(lia) ltac:(lia)).
      rewrite Z.abs_eq by nia. rewrite Z.log2_mul_pow2 by lia.
      assert (Z.log2 (2 ^ 52 + m) = 52) as ->.
      { apply Z.log2_unique; [lia|]. change (Z.succ 52) with 53. lia. }
      f_equal. f_equal. lia.
Qed.

Lemma double_value_opp u : double_value u -> double_value (- u).
Proof.
  intros [(f & -> & Hf)|Hu]; [left|right; by rewrite Z.abs_opp].
  exists (- f). split; [lia|]. unfold representable in *. by rewrite Z.abs_opp.
Qed.

Lemma Number_of_bigint_opp n : Number_of_bigint (- n) = - Number_of_bigint n.
Proof. rewrite !Number_of_bigint_mag, Z.abs_opp, Z.sgn_opp. lia. Qed.

(** Rounding does not cross a double. *)
Lemma nearest_le n u : double_value u -> n * UNIT <= u -> Number_of_bigint n * UNIT <= u.
Proof.
  pose proof UNIT_pos as HU. intros [(f & -> & Hf)|Hu] Hn.
  - assert (n <= f) as Hnf by nia. apply Number_of_bigint_mono in Hnf.
    rewrite (Number_of_representable f Hf) in Hnf. nia.
  - assert (n <= u / UNIT) as Hnf by (apply Z.div_le_lower_bound; lia).
    apply Number_of_bigint_mono in Hnf. rewrite (Number_of_bigint_exact (u / UNIT)) in Hnf.
    + pose proof (Z.mul_div_le u UNIT HU). nia.
    + assert (- 2 ^ 52 <= u / UNIT) by (apply Z.div_le_lower_bound; lia).
      assert (u / UNIT < 2 ^ 52) by (apply Z.div_lt_upper_bound; lia). lia.
Qed.

Lemma nearest_ge n u : double_value u -> u <= n * UNIT -> u <= Number_of_bigint n * UNIT.
Proof.
  intros Hu Hn. pose proof (nearest_le (- n) (- u) (double_value_opp u Hu)) as H.
  rewrite Number_of_bigint_opp in H. lia.
Qed.

(** The nearest double and the residual order an integer against a double. *)
Lemma nearest_cmp n u :
  double_value u ->
  cmp_then (Number_of_bigint n * UNIT ?= u) (n - Number_of_bigint n ?= 0) = (n * UNIT ?= u).
Proof.
  pose proof UNIT_pos as HU. intros Hu. destruct (Z.compare_spec (Number_of_bigint n * UNIT) u) as [E|E|E]; cbn.
  - rewrite <- E. destruct (Z.compare_spec (n - Number_of_bigint n) 0);
      symmetry; [apply Z.compare_eq_iff|apply Z.compare_lt_iff|apply Z.compare_gt_iff]; nia.
  - symmetry. apply Z.compare_lt_iff. apply Z.nle_gt. intros H. pose proof (nearest_ge n u Hu H). lia.
  - symmetry. apply Z.compare_gt_iff. apply Z.nle_gt. intros H. pose proof (nearest_le n u Hu H). lia.
Qed.

(** ... and two integers against each other. *)
Lemma nearest_cmp_int n m :
  cmp_then (Number_of_bigint n ?= Number_of_bigint m)
    (n - Number_of_bigint n ?= m - Number_of_bigint m) = (n ?= m).
Proof.
  destruct (Z.compare_spec (Number_of_bigint n) (Number_of_bigint m)) as [E|E|E]; cbn.
  - rewrite E. destruct (Z.compare_spec (n - Number_of_bigint m) (m - Number_of_bigint m)), (Z.compare_spec n m);
      try done; lia.
  - symmetry. apply Z.compare_lt_iff. apply Z.nle_gt. intros H%Number_of_bigint_mono. lia.
  - symmetry. apply Z.compare_gt_iff. apply Z.nle_gt. intros H%Number_of_bigint_mono. lia.
Qed.

(** The residual of an int64 is small. *)
Lemma residual_bound n : Z.abs n <= 2 ^ 63 -> Z.abs (n - Number_of_bigint n) <= 2 ^ 11.
Proof.
  intros Hn. rewrite Number_of_bigint_mag.
  assert (Z.abs (Z.abs n - round_mag (Z.abs n)) <= 2 ^ 11) as H.
  { unfold round_mag. destruct (Z.leb_spec (Z.log2 (Z.abs n) - 52) 0); [lia|].
    assert (Z.log2 (Z.abs n) <= 63) by (apply Z.log2_le_mono in Hn; by rewrite Z.log2_pow2 in Hn).
    set (a := Z.abs n) in *. set (s := Z.log2 a - 52) in *.
    pose proof (Z.pow_pos_nonneg 2 s ltac:(lia) ltac:(lia)).
    assert (2 ^ s <= 2 ^ 11) by (apply Z.pow_le_mono_r; lia).
    pose proof (Z.div_mod a (2 ^ s) ltac:(lia)). pose proof (Z.mod_pos_bound a (2 ^ s) ltac:(lia)).
    pose proof (round_shift_bounds a s ltac:(lia) ltac:(lia)). nia. }
  destruct (Z.sgn_spec n) as [[? ->]|[[? ->]|[? ->]]]; lia.
Qed.

(** ** Order *)

(** Numeric order, with NaN above everything. *)
Definition num_compare (a b : num) : comparison :=
  match a, b with
  | NNan, NNan => Eq
  | NNan, _ => Gt
  | _, NNan => Lt
  | NNegInf, NNegInf => Eq
  | NNegInf, _ => Lt
  | _, NNegInf => Gt
  | NPosInf, NPosInf => Eq
  | NPosInf, _ => Gt
  | _, NPosInf => Lt
  | NFin x, NFin y => x ?= y
  end.

#[global] Instance num_compare_laws : CmpLaws num_compare.
Proof.
  split.
  - intros [| |x|] [| |y|]; cbn; try done. apply Z.compare_antisym.
  - intros o [| |x|] [| |y|] [| |z|]; cbn; intros; subst; try done.
    by apply (cmp_trans Z.compare _ x y z).
  - intros [| |x|] [| |y|] [| |z|]; cbn; intros H; try done. by apply Z.compare_eq in H as ->.
Qed.

#[global] Instance num_compare_eq : CmpEq num_compare.
Proof. intros [| |x|] [| |y|]; cbn; try done. rewrite Z.compare_eq_iff. split; congruence. Qed.

Definition not_nan (a : num) : Prop := a <> NNan.

Lemma num_ltb_compare a b :
  not_nan a -> not_nan b -> num_ltb a b = match num_compare a b with Lt => true | _ => false end.
Proof. destruct a as [| |x|], b as [| |y|]; unfold not_nan; cbn; intros; done. Qed.

(** The integer whose order is the order of the double. *)
Definition skey (d : double) : Z := if dneg d then 2 ^ 63 - 1 - dmag d else 2 ^ 63 + dmag d.

Lemma dmag_bound d : 0 <= dmag d < 2 ^ 63.
Proof. unfold dmag. apply Z.mod_pos_bound. lia. Qed.

Lemma dsplit d : 0 <= d < 2 ^ 64 -> d = (if dneg d then 2 ^ 63 else 0) + dmag d.
Proof.
  intros Hd. unfold dneg, dmag. destruct (Z.leb_spec (2 ^ 63) d).
  - rewrite <- (Z.mod_unique d (2 ^ 63) 1 (d - 2 ^ 63)); lia.
  - by rewrite Z.mod_small by lia.
Qed.

Lemma skey_bound d : 0 <= skey d < 2 ^ 64.
Proof. pose proof (dmag_bound d). unfold skey. destruct (dneg d); lia. Qed.

(** A rank for numbers that are doubles: infinities and NaN just outside. *)
Lemma num_of_double_cases d :
  wf_double d -> d <> NEG_ZERO ->
  (dmag d < INF_MAG /\ num_of_double d = NFin (if dneg d then - units (dmag d) else units (dmag d)) /\
   (dneg d = true -> 0 < dmag d)) \/
  (dmag d = INF_MAG /\ num_of_double d = if dneg d then NNegInf else NPosInf) \/
  (INF_MAG < dmag d /\ dneg d = false /\ num_of_double d = NNan /\ d = NAN_BITS).
Proof.
  intros [Hd Hc] Hz. unfold num_of_double. fold (dmag d) in Hc. pose proof (dmag_bound d).
  destruct (Z.ltb_spec INF_MAG (dmag d)) as [Hn|Hn].
  - right. right. destruct Hc as [Hc| ->]; [lia|]. done.
  - destruct (Z.eqb_spec (dmag d) INF_MAG) as [E|Hne]; [right; by left|].
    left. split; [lia|]. split; [done|]. intros Hneg.
    destruct (Z.eq_dec (dmag d) 0) as [E|]; [|lia].
    exfalso. apply Hz. rewrite (dsplit d Hd), Hneg, E. done.
Qed.

Lemma skey_cmp d1 d2 :
  wf_double d1 -> wf_double d2 -> d1 <> NEG_ZERO -> d2 <> NEG_ZERO ->
  (skey d1 ?= skey d2) = num_compare (num_of_double d1) (num_of_double d2).
Proof.
  intros H1 H2 Hz1 Hz2. pose proof (dmag_bound d1) as B1. pose proof (dmag_bound d2) as B2.
  assert (forall a b, 0 <= a -> 0 <= b -> (units a ?= units b) = (a ?= b)) as Hu.
  { intros a b Ha Hb. destruct (Z.compare_spec a b) as [->|Hab|Hab].
    - by rewrite Z.compare_refl.
    - apply Z.compare_lt_iff. by apply units_mono.
    - apply Z.compare_gt_iff. by apply units_mono. }
  destruct (num_of_double_cases d1 H1 Hz1) as [(M1 & -> & P1)|[[M1 ->]|(M1 & S1 & -> & ->)]],
    (num_of_double_cases d2 H2 Hz2) as [(M2 & -> & P2)|[[M2 ->]|(M2 & S2 & -> & ->)]]; unfold skey.
  1: { destruct (dneg d1), (dneg d2); cbn [num_compare].
    - rewrite Z.compare_opp, Hu by lia.
      destruct (Z.compare_spec (dmag d2) (dmag d1)), (Z.compare_spec (2 ^ 63 - 1 - dmag d1) (2 ^ 63 - 1 - dmag d2));
        try done; lia.
    - pose proof (units_pos (dmag d1) (P1 eq_refl)). pose proof (units_nonneg (dmag d2) ltac:(lia)).
      rewrite !(proj2 (Z.compare_lt_iff _ _)) by lia. done.
    - pose proof (units_pos (dmag d2) (P2 eq_refl)). pose proof (units_nonneg (dmag d1) ltac:(lia)).
      rewrite !(proj2 (Z.compare_gt_iff _ _)) by lia. done.
    - rewrite Hu by lia. destruct (Z.compare_spec (dmag d1) (dmag d2)), (Z.compare_spec (2 ^ 63 + dmag d1) (2 ^ 63 + dmag d2));
        try done; lia. }
  all: try rewrite S1; try rewrite S2.
  all: repeat match goal with |- context [if dneg ?d then _ else _] => destruct (dneg d) end; cbn [num_compare].
  all: first [apply Z.compare_eq_iff; lia | apply Z.compare_lt_iff; lia | apply Z.compare_gt_iff; lia].
Qed.

Lemma skey_inj d e : 0 <= d < 2 ^ 64 -> 0 <= e < 2 ^ 64 -> skey d = skey e -> d = e.
Proof.
  intros Hd He. pose proof (dmag_bound d). pose proof (dmag_bound e). unfold skey.
  intros H1.
  rewrite (dsplit d Hd), (dsplit e He). destruct (dneg d), (dneg e); lia.
Qed.

(** Apart from the two zeros, a number has one pattern. *)
Lemma num_of_double_inj d e :
  wf_double d -> wf_double e -> d <> NEG_ZERO -> e <> NEG_ZERO ->
  num_of_double d = num_of_double e -> d = e.
Proof.
  intros Hd He Zd Ze H. apply skey_inj; [apply Hd|apply He|]. apply Z.compare_eq_iff.
  rewrite skey_cmp by done. by apply (cmp_eq num_compare).
Qed.
