(* ===== verification/Decimal.v ===== *)
(** * Decimal text

    The standard-library conversions between integers and text the modelled
    code uses: [BigInt.prototype.toString] / [Number.prototype.toString] on
    integers, [parseInt(s, 10)] on digit strings and [BigInt(string)]. *)

From S2P Require Import Prelude Bytes.
From Stdlib Require Import ZArith Lia.
From stdpp Require Import sorting.
From stdpp Require Import base tactics numbers sets gmap list.
#[local] Open Scope Z_scope.

Definition digit (d : Z) : Z := 48 + d.
Definition is_digit (c : Z) : bool := (48 <=? c) && (c <=? 57).

(** Decimal digits of [n], most significant first, before [acc]. *)
Fixpoint dec_digits (fuel : nat) (n : Z) (acc : jsstring) : jsstring :=
  match fuel with
  | O => acc
  | S fuel' =>
    if n <? 10 then digit n :: acc
    else dec_digits fuel' (n / 10) (digit (n mod 10) :: acc)
  end.

(** [n] has at most [1 + log2 n] decimal digits: the fuel is enough
    ([parse_digits_dec]). *)
Definition dec_nonneg (n : Z) : jsstring := dec_digits (S (Z.to_nat (Z.log2 n))) n [].

Definition dec (n : Z) : jsstring :=
  if n <? 0 then 45 :: dec_nonneg (- n) else dec_nonneg n.

(** [parseInt(s, 10)] of a string of digits. *)
Definition parse_digits (s : jsstring) : Z := foldl (fun acc c => acc * 10 + (c - 48)) 0 s.

(** Value of a digit in a radix up to 16, if it is one. *)
Definition radix_digit (radix c : Z) : option Z :=
  let v := if (48 <=? c) && (c <=? 57) then Some (c - 48)
           else if (97 <=? c) && (c <=? 102) then Some (c - 87)
           else if (65 <=? c) && (c <=? 70) then Some (c - 55) else None in
  match v with
  | Some d => if d <? radix then Some d else None
  | None => None
  end.

Fixpoint parse_radix (radix acc : Z) (s : jsstring) : option Z :=
  match s with
  | [] => Some acc
  | c :: s' =>
    match radix_digit radix c with
    | Some d => parse_radix radix (acc * radix + d) s'
    | None => None
    end
  end.

Definition parse_nonempty (radix : Z) (s : jsstring) : option Z :=
  match s with
  | [] => None
  | _ => parse_radix radix 0 s
  end.

(** [WhiteSpace] and [LineTerminator] code units. *)
Definition is_space (c : Z) : bool :=
  bool_decide (c ∈ [9; 10; 11; 12; 13; 32; 160; 5760; 8192; 8193; 8194; 8195; 8196; 8197;
                    8198; 8199; 8200; 8201; 8202; 8232; 8233; 8239; 8287; 12288; 65279]).

Fixpoint trim_start (s : jsstring) : jsstring :=
  match s with
  | c :: s' => if is_space c then trim_start s' else s
  | [] => []
  end.

Definition trim (s : jsstring) : jsstring := reverse (trim_start (reverse (trim_start s))).

(** [BigInt(s)]: [None] is the [SyntaxError]. *)
Definition BigInt_of_string (s : jsstring) : option Z :=
  match trim s with
  | [] => Some 0
  | 43 :: s' => parse_nonempty 10 s'
  | 45 :: s' => Z.opp <$> parse_nonempty 10 s'
  | 48 :: 120 :: s' | 48 :: 88 :: s' => parse_nonempty 16 s'
  | 48 :: 111 :: s' | 48 :: 79 :: s' => parse_nonempty 8 s'
  | 48 :: 98 :: s' | 48 :: 66 :: s' => parse_nonempty 2 s'
  | s' => parse_nonempty 10 s'
  end.

(** ** Facts *)

Lemma parse_digits_app_acc s acc :
  foldl (fun acc c => acc * 10 + (c - 48)) acc s
  = acc * 10 ^ Z.of_nat (length s) + parse_digits s.
Proof.
  unfold parse_digits. revert acc. induction s as [|c s IH] using rev_ind; intros acc.
  - simpl. lia.
  - rewrite !foldl_app, IH. simpl. rewrite length_app, Nat2Z.inj_add. simpl.
    rewrite Z.pow_add_r by lia. rewrite (IH 0). lia.
Qed.

Lemma dec_digits_spec fuel n acc :
  0 <= n < 2 ^ Z.of_nat fuel ->
  exists ds, dec_digits fuel n acc = ds ++ acc /\ parse_digits ds = n /\
    Forall (fun c => is_digit c = true) ds /\ (fuel <> 0%nat -> ds <> []) /\
    (forall c ds', ds = c :: ds' -> ds' <> [] -> c <> 48).
Proof.
  revert n acc; induction fuel as [|fuel IH]; intros n acc Hn.
  - exists []. simpl in Hn. split_and!; try done. unfold parse_digits; simpl. lia.
  - rewrite Nat2Z.inj_succ, Z.pow_succ_r in Hn by lia. simpl.
    destruct (Z.ltb_spec n 10) as [Hlt|Hge].
    + exists [digit n]. unfold digit, parse_digits, is_digit. simpl. split_and!; try done; [lia| |].
      * constructor; [|constructor].
        destruct (Z.leb_spec 48 (48 + n)), (Z.leb_spec (48 + n) 57); simpl; done || lia.
      * by intros c ds' [= <- <-].
    + pose proof (Z.mod_pos_bound n 10).
      destruct (IH (n / 10) (digit (n mod 10) :: acc)) as (ds & -> & Hp & Hd & Hne & Hz).
      { split; [apply Z.div_pos; lia|apply Z.div_lt_upper_bound; lia]. }
      assert (fuel <> 0%nat) as Hf by (intros ->; simpl in *; lia).
      exists (ds ++ [digit (n mod 10)]). split_and!.
      * by rewrite <- app_assoc.
      * unfold parse_digits. rewrite foldl_app. simpl. fold (parse_digits ds). rewrite Hp.
        unfold digit. pose proof (Z.div_mod n 10). lia.
      * apply Forall_app; split; [done|]. constructor; [|constructor]. unfold is_digit, digit.
        destruct (Z.leb_spec 48 (48 + n mod 10)), (Z.leb_spec (48 + n mod 10) 57); simpl; done || lia.
      * intros _ Heq. by apply app_nil in Heq as [_ ?].
      * intros c ds' Heq _. destruct ds as [|d ds]; [by destruct Hne|].
        simpl in Heq. injection Heq as <- _. destruct ds as [|d' ds]; [|by apply (Hz d (d' :: ds))].
        intros ->. unfold parse_digits in Hp. simpl in Hp.
        assert (1 <= n / 10) by (apply Z.div_le_lower_bound; lia). lia.
Qed.

Lemma dec_nonneg_spec n :
  0 <= n ->
  parse_digits (dec_nonneg n) = n /\ Forall (fun c => is_digit c = true) (dec_nonneg n) /\
  dec_nonneg n <> [] /\ (forall c ds', dec_nonneg n = c :: ds' -> ds' <> [] -> c <> 48).
Proof.
  intros Hn. unfold dec_nonneg.
  destruct (dec_digits_spec (S (Z.to_nat (Z.log2 n))) n []) as (ds & -> & Hp & Hd & Hne & Hz).
  - split; [done|]. rewrite Nat2Z.inj_succ, Z2Nat.id by apply Z.log2_nonneg.
    destruct (decide (n = 0)) as [->|]; [done|]. apply Z.log2_spec. lia.
  - rewrite app_nil_r. auto.
Qed.

(** Printing then parsing a non-negative integer is the identity. *)
Lemma parse_digits_dec n : 0 <= n -> parse_digits (dec n) = n.
Proof. intros Hn. unfold dec. destruct (Z.ltb_spec n 0); [lia|]. by apply dec_nonneg_spec. Qed.

Lemma dec_is_digits n : 0 <= n -> Forall (fun c => is_digit c = true) (dec n).
Proof. intros Hn. unfold dec. destruct (Z.ltb_spec n 0); [lia|]. by apply dec_nonneg_spec. Qed.

Lemma dec_nonempty n : 0 <= n -> dec n <> [].
Proof. intros Hn. unfold dec. destruct (Z.ltb_spec n 0); [lia|]. by apply dec_nonneg_spec. Qed.

Lemma dec_inj n m : 0 <= n -> 0 <= m -> dec n = dec m -> n = m.
Proof. intros Hn Hm H. rewrite <- (parse_digits_dec n), <- (parse_digits_dec m), H by done. done. Qed.

#[export] Hint Resolve dec_is_digits dec_nonempty : bytes.

Lemma is_digit_range c : is_digit c = true <-> 48 <= c <= 57.
Proof. unfold is_digit. rewrite andb_true_iff, !Z.leb_le. done. Qed.

Lemma not_space_low c : 32 < c < 160 -> is_space c = false.
Proof.
  intros Hc. apply bool_decide_eq_false. intros H.
  repeat (apply elem_of_cons in H as [->|H]; [lia|]). by apply elem_of_nil in H.
Qed.

Lemma trim_start_id s : Forall (fun c => is_space c = false) s -> trim_start s = s.
Proof. intros [|c s' Hc _]; simpl; [done|]. by rewrite Hc. Qed.

Lemma trim_id s : Forall (fun c => is_space c = false) s -> trim s = s.
Proof.
  intros H. unfold trim. rewrite (trim_start_id s) by done.
  rewrite trim_start_id by (by apply Forall_reverse). apply reverse_involutive.
Qed.

Lemma parse_radix_digits s acc :
  Forall (fun c => is_digit c = true) s ->
  parse_radix 10 acc s = Some (foldl (fun acc c => acc * 10 + (c - 48)) acc s).
Proof.
  intros H; revert acc; induction H as [|c s Hc Hs IH]; intros acc; simpl; [done|].
  apply is_digit_range in Hc. unfold radix_digit.
  destruct (Z.leb_spec 48 c), (Z.leb_spec c 57); simpl; try lia.
  destruct (Z.ltb_spec (c - 48) 10); [|lia]. apply IH.
Qed.

Lemma parse_nonempty_digits s :
  Forall (fun c => is_digit c = true) s -> s <> [] -> parse_nonempty 10 s = Some (parse_digits s).
Proof.
  intros H Hne. unfold parse_nonempty. destruct s; [done|]. by apply parse_radix_digits.
Qed.

Lemma BigInt_of_digits s :
  Forall (fun c => is_digit c = true) s -> s <> [] -> BigInt_of_string s = Some (parse_digits s).
Proof.
  intros H Hne. unfold BigInt_of_string. rewrite trim_id.
  2: { eapply Forall_impl; [exact H|]. intros c Hc%is_digit_range. apply not_space_low. lia. }
  rewrite <- parse_nonempty_digits by done.
  destruct H as [|c s Hc H]; [done|]. apply is_digit_range in Hc.
  assert (c = 48 \/ c = 49 \/ c = 50 \/ c = 51 \/ c = 52 \/ c = 53 \/ c = 54 \/ c = 55 \/ c = 56 \/ c = 57)
    as Hcs by lia.
  destruct Hcs as [->|[->|[->|[->|[->|[->|[->|[->|[->| ->]]]]]]]]]; try done.
  destruct H as [|d s Hd H]; [done|]. apply is_digit_range in Hd.
  assert (d = 48 \/ d = 49 \/ d = 50 \/ d = 51 \/ d = 52 \/ d = 53 \/ d = 54 \/ d = 55 \/ d = 56 \/ d = 57)
    as Hds by lia.
  by destruct Hds as [->|[->|[->|[->|[->|[->|[->|[->|[->| ->]]]]]]]]].
Qed.

(** [BigInt(n.toString()) === n]. *)
Lemma BigInt_of_dec n : BigInt_of_string (dec n) = Some n.
Proof.
  unfold dec. destruct (Z.ltb_spec n 0) as [Hn|Hn].
  - destruct (dec_nonneg_spec (- n)) as (Hp & Hd & Hne & _); [lia|].
    unfold BigInt_of_string. rewrite trim_id.
    2: { constructor; [apply not_space_low; lia|]. eapply Forall_impl; [exact Hd|].
         intros c Hc%is_digit_range. apply not_space_low. lia. }
    rewrite parse_nonempty_digits, Hp by done. simpl. f_equal. lia.
  - destruct (dec_nonneg_spec n) as (Hp & Hd & Hne & _); [lia|].
    by rewrite BigInt_of_digits, Hp.
Qed.

(** A printed integer never contains the separator [':']. *)
Lemma dec_no_colon n : 58 ∉ dec n.
Proof.
  unfold dec. intros H.
  assert (Hd : forall m, 0 <= m -> 58 ∉ dec_nonneg m).
  { intros m Hm Hin. destruct (dec_nonneg_spec m Hm) as (_ & Hd & _).
    rewrite Forall_forall in Hd. apply Hd, is_digit_range in Hin. lia. }
  destruct (Z.ltb_spec n 0).
  - apply elem_of_cons in H as [?|H]; [lia|]. revert H. apply Hd. lia.
  - revert H. apply Hd. lia.
Qed.

Lemma dec_inj_Z n m : dec n = dec m -> n = m.
Proof. intros H. apply (inj Some). by rewrite <- !BigInt_of_dec, H. Qed.

(** A separator that occurs in neither head splits a concatenation. *)
Lemma split_at_sep (sep : Z) (a b k l : jsstring) :
  sep ∉ a -> sep ∉ b -> a ++ sep :: k = b ++ sep :: l -> a = b /\ k = l.
Proof.
  revert b; induction a as [|x a IH]; intros [|y b] Ha Hb; simpl; intros H; simplify_eq.
  - done.
  - set_solver.
  - set_solver.
  - destruct (IH b) as [-> ->]; [set_solver..|done|done].
Qed.
