(* ===== verification/NumberText.v ===== *)
(** * JS numbers and text

    The standard-library conversions between a JS number and a string that the
    modelled code uses: [Number(string)], [parseFloat] and [String(number)]
    (ECMAScript StringToNumber, [parseFloat] and Number::toString with radix
    10).  A decimal literal denotes a rational, which is rounded to the nearest
    double, ties to even; a number prints as the shortest decimal that reads
    back.  [number_text_roundtrip] is the resulting round trip. *)

From S2P Require Import Prelude Bytes Double Decimal.
From Stdlib Require Import ZArith Lia.
From stdpp Require Import sorting.
From stdpp Require Import base tactics numbers sets gmap list.
#[local] Open Scope Z_scope.

(** ** Rounding *)

(** [a / b] rounded to the nearest integer, ties to even. *)
Definition rne (a b : Z) : Z :=
  let q := a / b in
  let r := a mod b in
  if 2 * r <? b then q
  else if b <? 2 * r then q + 1
  else if Z.even q then q else q + 1.

(** The magnitude pattern of the double nearest to [n / d].  In units of
    2^-1074 the quantum at that magnitude is [2 ^ s]. *)
Definition round_ratio (n d : Z) : Z :=
  let N := n * UNIT in
  let s := Z.max 0 (Z.log2 (N / d) - 52) in
  Z.min INF_MAG (s * 2 ^ 52 + rne N (d * 2 ^ s)).

(** The magnitude of the decimal [m * 10 ^ e]. *)
Definition decimal_mag (m e : Z) : Z :=
  if 0 <=? e then round_ratio (m * 10 ^ e) 1 else round_ratio m (10 ^ (- e)).

Definition signed (neg : bool) (mag : Z) : double := if neg then 2 ^ 63 + mag else mag.

(** ** Text to number *)

Fixpoint span_digits (s : jsstring) : jsstring * jsstring :=
  match s with
  | c :: s' => if is_digit c then (c :: (span_digits s').1, (span_digits s').2) else ([], s)
  | [] => ([], [])
  end.

(** An optional sign. *)
Definition scan_sign (s : jsstring) : bool * jsstring :=
  match s with
  | 43 :: s' => (false, s')
  | 45 :: s' => (true, s')
  | _ => (false, s)
  end.

(** An exponent part, if there is a complete one. *)
Definition scan_exponent (s : jsstring) : Z * jsstring :=
  match s with
  | c :: s' =>
    if (c =? 101) || (c =? 69) then
      let '(neg, s1) := scan_sign s' in
      let '(ds, rest) := span_digits s1 in
      match ds with
      | [] => (0, s)
      | _ => (if neg : bool then - parse_digits ds else parse_digits ds, rest)
      end
    else (0, s)
  | [] => (0, s)
  end.

(** The longest prefix that is an unsigned decimal literal: its digits, the
    power of ten they are scaled by, and what follows. *)
Definition scan_decimal (s : jsstring) : option (jsstring * Z * jsstring) :=
  let '(i, s1) := span_digits s in
  let '(f, s2) := match s1 with
                  | 46 :: s1' => span_digits s1'
                  | _ => ([], s1)
                  end in
  match i ++ f with
  | [] => None
  | ds => let '(e, rest) := scan_exponent s2 in Some (ds, e - Z.of_nat (length f), rest)
  end.

Fixpoint after_prefix (p s : jsstring) : option jsstring :=
  match p, s with
  | [], _ => Some s
  | a :: p', b :: s' => if a =? b then after_prefix p' s' else None
  | _, [] => None
  end.

(** A signed decimal literal or infinity at the start of [s]. *)
Definition scan_number (s : jsstring) : option (double * jsstring) :=
  let '(neg, s1) := scan_sign s in
  match after_prefix (js "Infinity") s1 with
  | Some rest => Some (signed neg INF_MAG, rest)
  | None =>
    match scan_decimal s1 with
    | Some (ds, e, rest) => Some (signed neg (decimal_mag (parse_digits ds) e), rest)
    | None => None
    end
  end.

(** [parseFloat(s)]. *)
Definition parseFloat (s : jsstring) : double :=
  match scan_number (trim_start s) with
  | Some (d, _) => d
  | None => NAN_BITS
  end.

Definition number_or_nan (n : option Z) : double :=
  match n with
  | Some m => round_ratio m 1
  | None => NAN_BITS
  end.

(** [Number(s)]. *)
Definition Number_of_string (s : jsstring) : double :=
  match trim s with
  | [] => 0
  | 48 :: 120 :: s' | 48 :: 88 :: s' => number_or_nan (parse_nonempty 16 s')
  | 48 :: 111 :: s' | 48 :: 79 :: s' => number_or_nan (parse_nonempty 8 s')
  | 48 :: 98 :: s' | 48 :: 66 :: s' => number_or_nan (parse_nonempty 2 s')
  | s' =>
    match scan_number s' with
    | Some (d, []) => d
    | _ => NAN_BITS
    end
  end.

(** ** Number to text *)

(** The [n] with [10 ^ (n - 1) <= u / UNIT < 10 ^ n]. *)
Definition decimal_exponent (u : Z) : Z :=
  if u <? UNIT then 1 - Z.of_nat (length (dec_nonneg ((UNIT - 1) / u)))
  else Z.of_nat (length (dec_nonneg (u / UNIT))).

(** [u / UNIT * 10 ^ j] as a fraction. *)
Definition scaled (u j : Z) : Z * Z :=
  if 0 <=? j then (u * 10 ^ j, UNIT) else (u, UNIT * 10 ^ (- j)).

(** The [k]-digit decimal [s * 10 ^ (n - k)] that reads back as [mag] and is
    closest to it, if there is one. *)
Definition digits_of_length (mag n k : Z) : option Z :=
  let '(a, b) := scaled (units mag) (k - n) in
  let lo := a / b in
  let reads s := decimal_mag s (n - k) =? mag in
  let below := 2 * (a mod b) <? b in
  let tie := 2 * (a mod b) =? b in
  if reads lo && reads (lo + 1) then
    Some (if below then lo else if tie && Z.even lo then lo else lo + 1)
  else if reads lo then Some lo
  else if reads (lo + 1) then Some (lo + 1)
  else None.

(** The shortest such decimal of at least [k] digits; 17 always suffice
    ([shortest_found]). *)
Fixpoint shortest (mag n k : Z) (fuel : nat) : Z * Z :=
  match fuel with
  | O => (0, 1)
  | S fuel' =>
    match digits_of_length mag n k with
    | Some s => (s, k)
    | None => shortest mag n (k + 1) fuel'
    end
  end.

Definition exponent_text (e : Z) : jsstring :=
  js "e" ++ (if e <? 0 then js "-" else js "+") ++ dec_nonneg (Z.abs e).

(** The layout of the digits [ds] of a value below [10 ^ n]. *)
Definition layout (ds : jsstring) (n : Z) : jsstring :=
  let k := Z.of_nat (length ds) in
  if (k <=? n) && (n <=? 21) then ds ++ replicate (Z.to_nat (n - k)) 48
  else if (0 <? n) && (n <=? 21) then take (Z.to_nat n) ds ++ js "." ++ drop (Z.to_nat n) ds
  else if (-6 <? n) && (n <=? 0) then js "0." ++ replicate (Z.to_nat (- n)) 48 ++ ds
  else if k =? 1 then ds ++ exponent_text (n - 1)
  else take 1 ds ++ js "." ++ drop 1 ds ++ exponent_text (n - 1).

(** The text of a positive finite magnitude.  A closest decimal that is a
    power of ten has one digit and the next exponent. *)
Definition mag_to_string (mag : Z) : jsstring :=
  let n := decimal_exponent (units mag) in
  let '(s, k) := shortest mag n 1 17 in
  if s =? 10 ^ k then layout (dec_nonneg 1) (n + 1) else layout (dec_nonneg s) n.

(** [String(d)]. *)
Definition number_to_string (d : double) : jsstring :=
  if is_nan d then js "NaN"
  else if dmag d =? 0 then js "0"
  else
    (if dneg d then js "-" else []) ++
    (if dmag d =? INF_MAG then js "Infinity" else mag_to_string (dmag d)).

(** ** Rounding is exact near a double *)

Lemma rne_near a b r : 0 < b -> 2 * Z.abs (a - r * b) < b -> rne a b = r.
Proof.
  intros Hb Hr. unfold rne. pose proof (Z.div_mod a b ltac:(lia)) as Ha.
  pose proof (Z.mod_pos_bound a b Hb) as Hm.
  set (q := a / b) in *. set (m := a mod b) in *.
  replace (a - r * b) with (b * (q - r) + m) in Hr by lia.
  assert (q = r \/ q + 1 = r) as Hq.
  { destruct (Z.lt_trichotomy (q - r) 0) as [H|[H|H]]; [|lia|nia].
    destruct (decide (q - r = -1)); [lia|]. nia. }
  destruct Hq as [<-|<-].
  - replace (b * (q - q) + m) with m in Hr by lia. destruct (Z.ltb_spec (2 * m) b); lia.
  - replace (b * (q - (q + 1)) + m) with (m - b) in Hr by lia.
    destruct (Z.ltb_spec (2 * m) b); [lia|]. destruct (Z.ltb_spec b (2 * m)); lia.
Qed.

Lemma rne_ge a b r : 0 < b -> r * b <= a -> r <= rne a b.
Proof.
  intros Hb Hr. assert (r <= a / b) by (apply Z.div_le_lower_bound; lia).
  unfold rne. repeat case_match; lia.
Qed.

Lemma log2_quotient N d k :
  0 < d -> 0 <= k -> 2 ^ k * d <= N < 2 ^ (k + 1) * d -> Z.log2 (N / d) = k.
Proof.
  intros Hd Hk HN. apply Z.log2_unique; [lia|]. unfold Z.succ. split.
  - apply Z.div_le_lower_bound; lia.
  - apply Z.div_lt_upper_bound; lia.
Qed.

(** [round_ratio] below its overflow, on the ratio [N / d] of units. *)
Definition nearest_mag (N d : Z) : Z :=
  let s := Z.max 0 (Z.log2 (N / d) - 52) in
  s * 2 ^ 52 + rne N (d * 2 ^ s).

Lemma nearest_small N d u :
  0 < d -> 0 <= u < 2 ^ 53 -> 2 * Z.abs (N - u * d) < d -> nearest_mag N d = u.
Proof.
  intros Hd Hu H. unfold nearest_mag.
  assert (Z.log2 (N / d) <= 52).
  { assert (N / d < 2 ^ 53) by (apply Z.div_lt_upper_bound; nia).
    destruct (decide (N / d <= 0)); [rewrite Z.log2_nonpos by lia; lia|].
    enough (Z.log2 (N / d) < 53) by lia. apply Z.log2_lt_pow2; lia. }
  rewrite Z.max_l by lia. cbv zeta. rewrite Z.pow_0_r, Z.mul_1_r. by rewrite (rne_near _ _ u).
Qed.

Lemma nearest_normal N d r s :
  0 < d -> 1 <= s -> 2 ^ 52 <= r < 2 ^ 53 ->
  2 * Z.abs (N - r * 2 ^ s * d) * 2 ^ 53 < r * 2 ^ s * d -> nearest_mag N d = s * 2 ^ 52 + r.
Proof.
  intros Hd Hs Hr H. unfold nearest_mag. set (p := 2 ^ s) in *.
  assert (0 < p) as Hp0 by (apply Z.pow_pos_nonneg; lia).
  assert (2 ^ (52 + s) = 2 ^ 52 * p) as E52 by (apply Z.pow_add_r; lia).
  assert (2 * Z.abs (N - r * (d * p)) < d * p) as Hnear by nia.
  destruct (Z.le_gt_cases (2 ^ (52 + s) * d) N) as [Hge|Hlt].
  - rewrite (log2_quotient N d (52 + s)); [|lia..|].
    2: { split; [done|]. replace (52 + s + 1) with (1 + (52 + s)) by lia.
         rewrite Z.pow_add_r, E52 by lia. nia. }
    rewrite Z.max_r by lia. cbv zeta. replace (52 + s - 52) with s by lia.
    fold p. rewrite (rne_near _ _ r); [done|nia|done].
  - assert (r = 2 ^ 52) as -> by nia.
    assert (p = 2 * 2 ^ (s - 1)) as Hp.
    { unfold p. rewrite <- Z.pow_succ_r by lia. f_equal. lia. }
    set (p' := 2 ^ (s - 1)) in *.
    assert (2 ^ (51 + s) = 2 ^ 52 * p') as E51.
    { replace (51 + s) with (52 + (s - 1)) by lia. apply Z.pow_add_r; lia. }
    rewrite (log2_quotient N d (51 + s)); [|lia..|].
    2: { split; [rewrite E51; nia|]. by replace (51 + s + 1) with (52 + s) by lia. }
    rewrite Z.max_r by lia. cbv zeta. replace (51 + s - 52) with (s - 1) by lia.
    fold p'. rewrite (rne_near _ _ (2 ^ 53)); [lia|nia|]. nia.
Qed.

(** A ratio within half an ulp of the double [mag] rounds to it.  [2 ^ -53]
    of the value is at most half the gap on either side. *)
Lemma round_ratio_near n d mag :
  0 < d -> 0 < mag < INF_MAG ->
  2 * Z.abs (n * UNIT - units mag * d) * 2 ^ 53 < units mag * d ->
  round_ratio n d = mag.
Proof.
  intros Hd Hmag H. change (round_ratio n d) with (Z.min INF_MAG (nearest_mag (n * UNIT) d)).
  cut (nearest_mag (n * UNIT) d = mag); [lia|].
  pose proof (Z.div_mod mag (2 ^ 52) ltac:(lia)) as Hdm.
  pose proof (Z.mod_pos_bound mag (2 ^ 52) ltac:(lia)) as Hm.
  assert (0 <= mag / 2 ^ 52) as He by (apply Z.div_pos; lia).
  revert H. unfold units. set (e := mag / 2 ^ 52) in *. set (m := mag mod 2 ^ 52) in *.
  destruct (decide (e <= 1)) as [He1|He1].
  - assert ((if e =? 0 then m else (2 ^ 52 + m) * 2 ^ (e - 1)) = mag) as ->.
    { destruct (Z.eqb_spec e 0); [lia|]. replace e with 1 in * by lia. simpl (2 ^ (1 - 1)). lia. }
    intros H. apply nearest_small; [done|lia|nia].
  - destruct (Z.eqb_spec e 0); [lia|]. intros H.
    rewrite (nearest_normal _ _ (2 ^ 52 + m) (e - 1)); [lia|lia..|done].
Qed.

Lemma decimal_mag_near m e mag a b :
  0 < mag < INF_MAG -> scaled (units mag) (- e) = (a, b) ->
  2 * Z.abs (m * b - a) * 2 ^ 53 < a -> decimal_mag m e = mag.
Proof.
  intros Hmag Hab H. unfold scaled in Hab. unfold decimal_mag.
  pose proof UNIT_pos. assert (forall j, 0 <= j -> 0 < 10 ^ j) by (intros; apply Z.pow_pos_nonneg; lia).
  destruct (Z.leb_spec 0 e).
  - assert ((if 0 <=? - e then (units mag * 10 ^ (- e), UNIT) else (units mag, UNIT * 10 ^ (- - e)))
      = (units mag, UNIT * 10 ^ e)) as Heq.
    { destruct (Z.leb_spec 0 (- e)); [replace e with 0 by lia; simpl; f_equal; lia|].
      by rewrite Z.opp_involutive. }
    rewrite Heq in Hab. injection Hab as <- <-. apply round_ratio_near; [lia|done|]. rewrite Z.mul_1_r.
    replace (m * 10 ^ e * UNIT) with (m * (UNIT * 10 ^ e)) by lia. done.
  - destruct (Z.leb_spec 0 (- e)); [|lia]. injection Hab as <- <-.
    apply round_ratio_near; [apply H1; lia|done|done].
Qed.

(** ** Decimal exponents *)

Lemma dec_nonneg_length n :
  0 < n -> 10 ^ (Z.of_nat (length (dec_nonneg n)) - 1) <= n < 10 ^ Z.of_nat (length (dec_nonneg n)).
Proof.
  intros Hn. destruct (dec_nonneg_spec n) as (Hp & Hd & Hne & Hz); [lia|].
  set (ds := dec_nonneg n) in *. clearbody ds. subst n.
  assert (forall l, Forall (fun c => is_digit c = true) l -> 0 <= parse_digits l < 10 ^ Z.of_nat (length l)) as Hb.
  { intros l Hl. induction Hl as [|c l Hc Hl IH] using Forall_ind; [simpl; done|].
    apply is_digit_range in Hc. unfold parse_digits. cbn [foldl]. rewrite parse_digits_app_acc.
    cbn [length]. rewrite Nat2Z.inj_succ, Z.pow_succ_r by lia. nia. }
  split; [|by apply Hb]. destruct ds as [|c ds]; [done|].
  inversion_clear Hd as [|? ? Hc Hds]. apply is_digit_range in Hc. specialize (Hb ds Hds).
  cbn [length]. rewrite Nat2Z.inj_succ. replace (Z.succ (Z.of_nat (length ds)) - 1) with (Z.of_nat (length ds)) by lia.
  revert Hn. unfold parse_digits. cbn [foldl]. rewrite parse_digits_app_acc. intros Hn.
  destruct (decide (c = 48)) as [->|]; [|nia].
  destruct ds as [|c' ds]; [simpl in *; lia|]. by destruct (Hz 48 (c' :: ds)).
Qed.

(** [a / b = u / UNIT * 10 ^ (k - n)] lies in [[10 ^ (k - 1), 10 ^ k)]. *)
Lemma decimal_exponent_spec u k a b :
  0 < u -> 1 <= k -> scaled u (k - decimal_exponent u) = (a, b) ->
  0 < b /\ b * 10 ^ (k - 1) <= a < b * 10 ^ k.
Proof.
  intros Hu Hk Hab. pose proof UNIT_pos as HU. unfold decimal_exponent in Hab.
  assert (exists n, scaled u (k - n) = (a, b) /\
    ((1 <= n /\ 10 ^ (n - 1) * UNIT <= u < 10 ^ n * UNIT) \/
     (n <= 0 /\ UNIT <= u * 10 ^ (1 - n) /\ u * 10 ^ (- n) < UNIT))) as (n & Hs & Hn).
  { destruct (Z.ltb_spec u UNIT) as [Hlt|Hge]; eexists; (split; [exact Hab|]).
    - assert (0 < (UNIT - 1) / u) as Hq by (apply Z.div_str_pos; lia).
      pose proof (dec_nonneg_length _ Hq) as Hl. set (L := Z.of_nat (length (dec_nonneg ((UNIT - 1) / u)))) in *.
      assert (1 <= L) by (unfold L; destruct (dec_nonneg _) eqn:E; [by destruct (dec_nonneg_spec ((UNIT - 1) / u)) as (_&_&?&_); [lia|]|simpl; lia]).
      right. split; [lia|]. replace (1 - (1 - L)) with L by lia. replace (- (1 - L)) with (L - 1) by lia.
      pose proof (Z.mul_div_le (UNIT - 1) u Hu). pose proof (Z.mul_succ_div_gt (UNIT - 1) u Hu). nia.
    - assert (0 < u / UNIT) as Hq by (apply Z.div_str_pos; lia).
      pose proof (dec_nonneg_length _ Hq) as Hl. set (L := Z.of_nat (length (dec_nonneg (u / UNIT)))) in *.
      assert (1 <= L) by (unfold L; destruct (dec_nonneg _) eqn:E; [by destruct (dec_nonneg_spec (u / UNIT)) as (_&_&?&_); [lia|]|simpl; lia]).
      left. split; [done|]. pose proof (Z.mul_div_le u UNIT HU). pose proof (Z.mul_succ_div_gt u UNIT HU). nia. }
  clear Hab. assert (forall j, 0 <= j -> 0 < 10 ^ j) as Hpos by (intros; apply Z.pow_pos_nonneg; lia).
  unfold scaled in Hs. destruct (Z.leb_spec 0 (k - n)) as [Hj|Hj]; injection Hs as <- <-.
  - split; [done|]. destruct Hn as [(Hn1 & Hlo & Hhi)|(Hn0 & Hlo & Hhi)].
    + replace (10 ^ (k - 1)) with (10 ^ (n - 1) * 10 ^ (k - n)) by (rewrite <- Z.pow_add_r by lia; f_equal; lia).
      replace (10 ^ k) with (10 ^ n * 10 ^ (k - n)) by (rewrite <- Z.pow_add_r by lia; f_equal; lia).
      specialize (Hpos (k - n)). nia.
    + replace (10 ^ (k - n)) with (10 ^ (1 - n) * 10 ^ (k - 1)) at 1 by (rewrite <- Z.pow_add_r by lia; f_equal; lia).
      replace (10 ^ (k - n)) with (10 ^ (- n) * 10 ^ k) by (rewrite <- Z.pow_add_r by lia; f_equal; lia).
      pose proof (Hpos (k - 1)). pose proof (Hpos k). nia.
  - destruct Hn as [(Hn1 & Hlo & Hhi)|(Hn0 & Hlo & Hhi)]; [|lia].
    replace (- (k - n)) with (n - k) by lia. split; [specialize (Hpos (n - k)); nia|].
    replace (UNIT * 10 ^ (n - k) * 10 ^ (k - 1)) with (10 ^ (n - 1) * UNIT).
    2: { replace (n - 1) with ((n - k) + (k - 1)) by lia. rewrite Z.pow_add_r by lia. lia. }
    replace (UNIT * 10 ^ (n - k) * 10 ^ k) with (10 ^ n * UNIT); [done|].
    replace n with ((n - k) + k) at 1 by lia. rewrite Z.pow_add_r by lia. lia.
Qed.

(** Seventeen digits identify a double. *)
Lemma seventeen_digits mag :
  0 < mag < INF_MAG -> is_Some (digits_of_length mag (decimal_exponent (units mag)) 17).
Proof.
  intros Hmag. unfold digits_of_length. set (n := decimal_exponent (units mag)).
  destruct (scaled (units mag) (17 - n)) as [a b] eqn:Hs.
  destruct (decimal_exponent_spec (units mag) 17 a b) as (Hb & Hlo & _); [apply units_pos; lia|lia|done|].
  replace (17 - 1) with 16 in Hlo by lia.
  pose proof (Z.div_mod a b ltac:(lia)) as Ha. pose proof (Z.mod_pos_bound a b Hb) as Hm.
  assert (forall s, 2 * Z.abs (s * b - a) <= b -> decimal_mag s (n - 17) = mag) as Hread.
  { intros s Hsb. apply (decimal_mag_near s (n - 17) mag a b); [done| |nia].
    replace (- (n - 17)) with (17 - n) by lia. done. }
  destruct (decide (2 * (a mod b) <= b)) as [Hle|Hgt].
  - rewrite (Hread (a / b)), Z.eqb_refl by nia. simpl. by case_match.
  - rewrite (Hread (a / b + 1)), Z.eqb_refl by nia. rewrite andb_true_r. by case_match.
Qed.

(** The digits of length [k] are in range and read back. *)
Lemma digits_of_length_spec mag k s :
  0 < mag < INF_MAG -> 1 <= k ->
  digits_of_length mag (decimal_exponent (units mag)) k = Some s ->
  decimal_mag s (decimal_exponent (units mag) - k) = mag /\ 10 ^ (k - 1) <= s <= 10 ^ k.
Proof.
  intros Hmag Hk. unfold digits_of_length. set (n := decimal_exponent (units mag)).
  destruct (scaled (units mag) (k - n)) as [a b] eqn:Hs.
  destruct (decimal_exponent_spec (units mag) k a b) as (Hb & Hlo & Hhi); [apply units_pos; lia|done|done|].
  assert (10 ^ (k - 1) <= a / b) by (apply Z.div_le_lower_bound; lia).
  assert (a / b < 10 ^ k) by (apply Z.div_lt_upper_bound; lia).
  destruct (Z.eqb_spec (decimal_mag (a / b) (n - k)) mag) as [E1|E1],
    (Z.eqb_spec (decimal_mag (a / b + 1) (n - k)) mag) as [E2|E2]; cbn [andb];
    intros [= <-]; [|split; [done|lia]..].
  destruct (2 * (a mod b) <? b), ((2 * (a mod b) =? b) && Z.even (a / b)); (split; [done|lia]).
Qed.

Lemma shortest_found mag fuel k :
  0 < mag < INF_MAG -> 1 <= k <= 17 -> Z.of_nat fuel = 18 - k ->
  exists s k', shortest mag (decimal_exponent (units mag)) k fuel = (s, k') /\ 1 <= k' /\
    decimal_mag s (decimal_exponent (units mag) - k') = mag /\ 10 ^ (k' - 1) <= s <= 10 ^ k'.
Proof.
  intros Hmag. revert k. induction fuel as [|fuel IH]; intros k Hk Hf; [lia|]. cbn [shortest].
  destruct (digits_of_length mag (decimal_exponent (units mag)) k) as [s|] eqn:E.
  - exists s, k. split; [done|]. split; [lia|]. apply digits_of_length_spec; [done|lia|done].
  - destruct (decide (k = 17)) as [->|].
    + destruct (seventeen_digits mag Hmag) as [? E']. congruence.
    + apply IH; lia.
Qed.

(** ** Reading a printed number *)

Lemma rne_scale a b c : 0 < b -> 0 < c -> rne (a * c) (b * c) = rne a b.
Proof.
  intros Hb Hc. unfold rne. rewrite Z.div_mul_cancel_r, Zmult_mod_distr_r by lia.
  assert ((2 * (a mod b * c) <? b * c) = (2 * (a mod b) <? b)) as ->.
  { destruct (Z.ltb_spec (2 * (a mod b)) b); [apply Z.ltb_lt|apply Z.ltb_ge]; nia. }
  assert ((b * c <? 2 * (a mod b * c)) = (b <? 2 * (a mod b))) as ->.
  { destruct (Z.ltb_spec b (2 * (a mod b))); [apply Z.ltb_lt|apply Z.ltb_ge]; nia. }
  done.
Qed.

Lemma round_ratio_scale n d c : 0 < d -> 0 < c -> round_ratio (n * c) (d * c) = round_ratio n d.
Proof.
  intros Hd Hc. unfold round_ratio. replace (n * c * UNIT) with (n * UNIT * c) by lia.
  rewrite Z.div_mul_cancel_r by lia. set (s := Z.max 0 _).
  assert (0 < 2 ^ s) by (apply Z.pow_pos_nonneg; lia).
  replace (d * c * 2 ^ s) with (d * 2 ^ s * c) by lia. rewrite rne_scale by nia. done.
Qed.

(** Trailing zeros and the exponent trade against each other. *)
Lemma decimal_mag_shift m e j : 0 <= j -> decimal_mag (m * 10 ^ j) (e - j) = decimal_mag m e.
Proof.
  intros Hj. unfold decimal_mag. assert (forall i, 0 <= i -> 0 < 10 ^ i) as Hp by (intros; apply Z.pow_pos_nonneg; lia).
  destruct (Z.leb_spec 0 (e - j)), (Z.leb_spec 0 e); try lia.
  - f_equal. rewrite <- Z.mul_assoc, <- Z.pow_add_r by lia. do 2 f_equal. lia.
  - rewrite <- (round_ratio_scale (m * 10 ^ e) 1 (10 ^ (- (e - j)))) by (try lia; apply Hp; lia).
    f_equal; [|lia]. rewrite <- Z.mul_assoc, <- Z.pow_add_r by lia. do 2 f_equal. lia.
  - rewrite <- (round_ratio_scale m (10 ^ (- e)) (10 ^ j)) by (apply Hp; lia).
    f_equal. rewrite <- Z.pow_add_r by lia. f_equal. lia.
Qed.

Abbreviation digits s := (Forall (fun c => is_digit c = true) s).

Definition no_digit (s : jsstring) : Prop := match s with c :: _ => is_digit c = false | [] => True end.

Lemma span_digits_app ds rest : digits ds -> no_digit rest -> span_digits (ds ++ rest) = (ds, rest).
Proof.
  intros Hd Hr. induction Hd as [|c ds Hc Hd IH]; cbn [app span_digits].
  - destruct rest as [|c rest]; [done|]. cbn in Hr. cbn [span_digits]. by rewrite Hr.
  - by rewrite Hc, IH.
Qed.

(** What may follow the digits of a printed number: the exponent [e], and then
    [rest]. *)
Definition exponent_of (x : jsstring) (e : Z) (rest : jsstring) : Prop :=
  no_digit x /\ head x <> Some 46 /\ scan_exponent x = (e, rest).

(** Text that does not continue a number. *)
Definition stops (rest : jsstring) : Prop := exponent_of rest 0 rest.

Lemma stops_nil : stops [].
Proof. done. Qed.

Lemma exponent_text_spec e rest : no_digit rest -> exponent_of (exponent_text e ++ rest) e rest.
Proof.
  intros Hr. destruct (dec_nonneg_spec (Z.abs e)) as (Hp & Hd & Hne & _); [lia|].
  pose proof (span_digits_app _ rest Hd Hr) as Hs.
  unfold exponent_of, exponent_text. set (ds := dec_nonneg (Z.abs e)) in *. clearbody ds.
  rewrite <- !(assoc_L (++)).
  destruct (Z.ltb_spec e 0); (split; [done|split; [done|]]);
    [change (js "e" ++ js "-" ++ ds ++ rest) with (101 :: 45 :: ds ++ rest)
    |change (js "e" ++ js "+" ++ ds ++ rest) with (101 :: 43 :: ds ++ rest)];
    cbn [scan_exponent scan_sign Z.eqb Pos.eqb orb]; rewrite Hs; destruct ds; try done;
    rewrite Hp; f_equal; lia.
Qed.

(** A decimal literal: the integer digits [i], the fraction digits [f], and
    the exponent text [x] that denotes [e] before any text that stops a
    number. *)
Record literal (t i f : jsstring) (e : Z) : Prop := mkLiteral {
  lit_int : digits i;
  lit_int_nil : i <> [];
  lit_frac : digits f;
  lit_text : exists x, t = i ++ match f with [] => x | _ => 46 :: f ++ x end /\
    forall rest, stops rest -> exponent_of (x ++ rest) e rest
}.

Lemma match_dot {A} (x : jsstring) (k : jsstring -> A) (d : A) :
  head x <> Some 46 -> (match x with 46 :: s => k s | _ => d end) = d.
Proof.
  destruct x as [|c x]; [done|]. cbn. intros H.
  destruct c as [|c|c]; try done. do 6 (destruct c as [c|c|]; try done).
Qed.

Lemma scan_literal t i f e rest :
  literal t i f e -> stops rest ->
  scan_decimal (t ++ rest) = Some (i ++ f, e - Z.of_nat (length f), rest).
Proof.
  intros [Hi Hne Hf (x & -> & Hx)] Hr. destruct (Hx rest Hr) as (Hnd & Hdot & He). unfold scan_decimal.
  destruct f as [|c f].
  - rewrite <- (assoc_L (++)), span_digits_app, match_dot, He, app_nil_r by done. by destruct i.
  - rewrite <- (assoc_L (++)), <- app_comm_cons, <- (assoc_L (++)), span_digits_app by done.
    rewrite span_digits_app, He by done. by destruct i.
Qed.

Lemma parse_digits_app a b : parse_digits (a ++ b) = parse_digits a * 10 ^ Z.of_nat (length b) + parse_digits b.
Proof. unfold parse_digits at 1. rewrite foldl_app. apply parse_digits_app_acc. Qed.

Lemma parse_digits_zeros j : parse_digits (replicate j 48) = 0.
Proof. unfold parse_digits. induction j as [|j IH]; [done|]. cbn. done. Qed.

Lemma digits_zeros j : digits (replicate j 48).
Proof. by apply Forall_replicate. Qed.

(** The layout of [ds] is a literal for [ds] scaled by [10 ^ (n - k)], with
    no superfluous leading zero. *)
Lemma layout_literal ds n :
  digits ds -> ds <> [] ->
  exists i f e, literal (layout ds n) i f e /\ (i = [48] \/ head i = head ds) /\
    decimal_mag (parse_digits (i ++ f)) (e - Z.of_nat (length f))
    = decimal_mag (parse_digits ds) (n - Z.of_nat (length ds)).
Proof.
  intros Hd Hne. unfold layout. set (k := Z.of_nat (length ds)).
  assert (forall rest, stops rest -> exponent_of ([] ++ rest) 0 rest) as Hno by done.
  assert (forall e rest, stops rest -> exponent_of (exponent_text e ++ rest) e rest) as Hexp.
  { intros e rest Hr. apply exponent_text_spec, Hr. }
  assert (forall m, (0 < m < length ds)%nat -> exists c f, drop m ds = c :: f) as Hdrop.
  { intros m Hm. destruct (drop m ds) as [|c f] eqn:E; [|by eexists _, _].
    apply (f_equal length) in E. rewrite length_drop in E. cbn in E. lia. }
  assert (forall m, (0 < m)%nat -> take m ds <> [] /\ head (take m ds) = head ds) as Htake.
  { intros [|m] Hm; [lia|]. by destruct ds. }
  destruct ((k <=? n) && (n <=? 21)) eqn:E1; [|destruct ((0 <? n) && (n <=? 21)) eqn:E2;
    [|destruct ((-6 <? n) && (n <=? 0)) eqn:E3; [|destruct (Z.eqb_spec k 1)]]].
  - exists (ds ++ replicate (Z.to_nat (n - k)) 48), [], 0. split_and!.
    + split; [apply Forall_app; auto using digits_zeros|by destruct ds|done|]. exists []. by rewrite app_nil_r.
    + right. by destruct ds.
    + rewrite app_nil_r, parse_digits_app, parse_digits_zeros, length_replicate, Z.add_0_r, Z2Nat.id by lia.
      rewrite <- (decimal_mag_shift (parse_digits ds) (n - k) (n - k)) by lia. f_equal; cbn; lia.
  - destruct (Htake (Z.to_nat n)) as [Ht Hh]; [lia|].
    destruct (Hdrop (Z.to_nat n)) as (c & f & Ef); [lia|].
    exists (take (Z.to_nat n) ds), (drop (Z.to_nat n) ds), 0. split_and!.
    + split; [by apply Forall_take|done|by apply Forall_drop|]. exists [].
      split; [|exact Hno]. by rewrite Ef, app_nil_r.
    + by right.
    + rewrite take_drop, length_drop. f_equal. lia.
  - exists [48], (replicate (Z.to_nat (- n)) 48 ++ ds), 0. split_and!.
    + split; [by repeat constructor|done|apply Forall_app; auto using digits_zeros|]. exists [].
      rewrite app_nil_r. destruct (replicate _ 48 ++ ds) eqn:E; [|by rewrite <- E]. by apply app_nil in E as [_ ?].
    + by left.
    + rewrite !parse_digits_app, parse_digits_zeros, length_app, length_replicate. f_equal; simpl; lia.
  - exists ds, [], (n - 1). split_and!.
    + split; [done|done|done|]. exists (exponent_text (n - 1)). split; [done|apply Hexp].
    + by right.
    + rewrite app_nil_r. f_equal. cbn. lia.
  - assert (1 < length ds)%nat by (subst k; destruct ds; cbn in *; [done|lia]).
    destruct (Htake 1%nat) as [Ht Hh]; [lia|]. destruct (Hdrop 1%nat) as (c & f & Ef); [lia|].
    exists (take 1 ds), (drop 1 ds), (n - 1). split_and!.
    + split; [by apply Forall_take|done|by apply Forall_drop|]. exists (exponent_text (n - 1)).
      split; [by rewrite Ef|apply Hexp].
    + by right.
    + rewrite take_drop, length_drop. f_equal. lia.
Qed.

(** The characters of a printed finite number. *)
Definition numchar (c : Z) : Prop := c ∈ [43; 45; 46; 101; 48; 49; 50; 51; 52; 53; 54; 55; 56; 57].

Lemma digit_cases c :
  is_digit c = true ->
  c = 48 \/ c = 49 \/ c = 50 \/ c = 51 \/ c = 52 \/ c = 53 \/ c = 54 \/ c = 55 \/ c = 56 \/ c = 57.
Proof. intros Hc%is_digit_range. lia. Qed.

Lemma digit_numchar c : is_digit c = true -> numchar c.
Proof.
  intros Hc%digit_cases. unfold numchar. set_solver.
Qed.

Lemma numchar_bound c : numchar c -> 32 < c < 160.
Proof. unfold numchar. rewrite !elem_of_cons, elem_of_nil. lia. Qed.

Lemma digits_numchar ds : digits ds -> Forall numchar ds.
Proof. intros H. eapply Forall_impl; [exact H|apply digit_numchar]. Qed.

Lemma layout_numchar ds n : digits ds -> Forall numchar (layout ds n).
Proof.
  intros Hd. assert (forall e, Forall numchar (exponent_text e)) as He.
  { intros e. unfold exponent_text. destruct (dec_nonneg_spec (Z.abs e)) as (_ & Hp & _); [lia|].
    apply Forall_app; split; [repeat constructor; set_solver|].
    apply Forall_app; split; [case_match; repeat constructor; set_solver|by apply digits_numchar]. }
  assert (Forall numchar (js ".")) by (repeat constructor; set_solver).
  assert (Forall numchar (js "0.")) by (repeat constructor; set_solver).
  unfold layout. repeat case_match; rewrite ?Forall_app; split_and!; auto using digits_numchar, digits_zeros, Forall_take, Forall_drop.
Qed.

(** A string of such characters is read as a signed decimal literal. *)
Lemma trim_numchars s : Forall numchar s -> trim s = s.
Proof.
  intros H. apply trim_id. eapply Forall_impl; [exact H|]. intros c Hc%numchar_bound. by apply not_space_low.
Qed.

Lemma Number_of_numchars s :
  Forall numchar s -> s <> [] ->
  Number_of_string s = match scan_number s with Some (d, []) => d | _ => NAN_BITS end.
Proof.
  intros Hs Hne. unfold Number_of_string. rewrite trim_numchars by done.
  destruct Hs as [|c s Hc Hs]; [done|].
  destruct (decide (c = 48)) as [->|Hc'].
  - destruct Hs as [|c2 s Hc2 Hs]; [done|]. unfold numchar in Hc2.
    repeat (apply elem_of_cons in Hc2 as [->|Hc2]; [done|]). by apply elem_of_nil in Hc2.
  - unfold numchar in Hc. repeat (apply elem_of_cons in Hc as [->|Hc]; [done|]). by apply elem_of_nil in Hc.
Qed.

Lemma strip_infinity_digit c s : is_digit c = true -> after_prefix (js "Infinity") (c :: s) = None.
Proof.
  intros Hc%is_digit_range. change (js "Infinity") with (73 :: js "nfinity"). cbn [after_prefix].
  destruct (Z.eqb_spec 73 c); [lia|done].
Qed.

Lemma scan_sign_digit c s : is_digit c = true -> scan_sign (c :: s) = (false, c :: s).
Proof.
  intros Hc%digit_cases. destruct_or! Hc; by subst.
Qed.

(** The text of a positive finite magnitude. *)
Lemma mag_to_string_literal mag :
  0 < mag < INF_MAG ->
  exists i f e, literal (mag_to_string mag) i f e /\ (i = [48] \/ head i <> Some 48) /\
    Forall numchar (mag_to_string mag) /\ decimal_mag (parse_digits (i ++ f)) (e - Z.of_nat (length f)) = mag.
Proof.
  intros Hmag. unfold mag_to_string.
  destruct (shortest_found mag 17 1 Hmag) as (s & k & -> & Hk & Hread & Hs); [lia..|].
  set (n := decimal_exponent (units mag)) in *.
  assert (0 < 10 ^ (k - 1)) by (apply Z.pow_pos_nonneg; lia).
  cut (exists ds n', (if s =? 10 ^ k then layout (dec_nonneg 1) (n + 1) else layout (dec_nonneg s) n) = layout ds n' /\
    digits ds /\ ds <> [] /\ head ds <> Some 48 /\ decimal_mag (parse_digits ds) (n' - Z.of_nat (length ds)) = mag).
  { intros (ds & n' & -> & Hd & Hne & Hh & Hm).
    destruct (layout_literal ds n' Hd Hne) as (i & f & e & Hl & Hi & He).
    exists i, f, e. split; [done|]. split; [destruct Hi as [?|Hi]; [by left|right; by rewrite Hi]|].
    split; [by apply layout_numchar|congruence]. }
  destruct (Z.eqb_spec s (10 ^ k)) as [->|Hne].
  - exists (dec_nonneg 1), (n + 1). split; [done|]. split; [by repeat constructor|]. split; [done|]. split; [done|].
    change (parse_digits (dec_nonneg 1)) with 1. change (Z.of_nat (length (dec_nonneg 1))) with 1.
    replace (n + 1 - 1) with n by lia. rewrite <- Hread, <- (decimal_mag_shift 1 n k) by lia. f_equal. lia.
  - destruct (dec_nonneg_spec s) as (Hp & Hd & Hnil & Hz); [lia|].
    exists (dec_nonneg s), n. split; [done|]. split; [done|]. split; [done|]. split.
    { destruct (dec_nonneg s) as [|c ds] eqn:E; [done|]. cbn. intros [= ->]. destruct ds as [|c' ds]; [|by apply (Hz 48 (c' :: ds))].
      change (parse_digits [48]) with 0 in Hp. lia. }
    rewrite Hp. pose proof (dec_nonneg_length s ltac:(lia)) as Hl. set (L := Z.of_nat (length (dec_nonneg s))) in *.
    replace L with k; [done|].
    assert (k - 1 < L) by (apply (Z.pow_lt_mono_r_iff 10); lia).
    assert (L - 1 < k) by (apply (Z.pow_lt_mono_r_iff 10); lia). lia.
Qed.

Lemma literal_head t i f e : literal t i f e -> exists c t', t = c :: t' /\ is_digit c = true.
Proof.
  intros [Hi Hne _ (x & -> & _)]. destruct Hi as [|c i Hc Hi]; [done|]. by eexists _, _.
Qed.

Lemma scan_mag mag :
  0 < mag < INF_MAG ->
  scan_number (mag_to_string mag) = Some (mag, []) /\
  scan_number (45 :: mag_to_string mag) = Some (2 ^ 63 + mag, []).
Proof.
  intros Hmag. destruct (mag_to_string_literal mag Hmag) as (i & f & e & Hl & _ & _ & Hread).
  pose proof (scan_literal _ _ _ _ [] Hl stops_nil) as Hs. rewrite app_nil_r in Hs.
  destruct (literal_head _ _ _ _ Hl) as (c & t & Ht & Hc). rewrite Ht in *.
  unfold scan_number. rewrite scan_sign_digit by done. cbn [scan_sign].
  rewrite strip_infinity_digit, Hs, Hread by done. done.
Qed.

Lemma wf_nan d : wf_double d -> is_nan d = true -> d = NAN_BITS.
Proof.
  intros [Hd [Hm|?]] Hn; [|done]. unfold is_nan, num_of_double, dmag in Hn.
  destruct (Z.ltb_spec INF_MAG (d mod 2 ^ 63)); [lia|]. by repeat case_match; simplify_eq.
Qed.

Lemma finite_or_infinite d :
  wf_double d -> is_nan d = false -> 0 <= dmag d <= INF_MAG /\ d = signed (dneg d) (dmag d).
Proof.
  intros [Hd Hm] Hn. pose proof (dmag_bound d). split.
  - unfold is_nan, num_of_double in Hn. destruct (Z.ltb_spec INF_MAG (dmag d)); [done|lia].
  - rewrite (dsplit d) at 1 by done. unfold signed. by destruct (dneg d).
Qed.

(** The text of a number, other than [-0], is scanned back to it. *)
Lemma number_text_scan d :
  wf_double d -> d <> NEG_ZERO -> is_nan d = false ->
  scan_number (number_to_string d) = Some (d, []) /\
  (Forall numchar (number_to_string d) \/ number_to_string d = js "Infinity" \/ number_to_string d = js "-Infinity").
Proof.
  intros Hwf Hz Hn. destruct (finite_or_infinite d Hwf Hn) as [Hm Hd].
  unfold number_to_string. rewrite Hn.
  destruct (Z.eqb_spec (dmag d) 0) as [E|E].
  { rewrite E in Hd. destruct (dneg d); [by destruct Hz|]. simpl in Hd. subst d.
    split; [done|]. left. by repeat constructor. }
  destruct (Z.eqb_spec (dmag d) INF_MAG) as [E'|E'].
  { rewrite Hd, E'. destruct (dneg d); (split; [by vm_compute|]); auto. }
  destruct (scan_mag (dmag d)) as (Hpos & Hneg); [lia|].
  destruct (mag_to_string_literal (dmag d)) as (_ & _ & _ & _ & _ & Hc & _); [lia|].
  rewrite Hd at 3. destruct (dneg d); cbn [signed].
  - change (js "-") with [45]. split; [done|]. left. constructor; [set_solver|done].
  - split; [done|]. by left.
Qed.

(** [Number(String(d)) === d], for every number but [-0], which prints as [0]. *)
Lemma number_text_roundtrip d :
  wf_double d -> d <> NEG_ZERO -> Number_of_string (number_to_string d) = d.
Proof.
  intros Hwf Hz. destruct (is_nan d) eqn:Hn.
  { apply wf_nan in Hn as ->; [|done]. by vm_compute. }
  destruct (number_text_scan d Hwf Hz Hn) as [Hs [Hc|[E|E]]].
  - rewrite Number_of_numchars, Hs; [done|done|]. intros E. by rewrite E in Hs.
  - rewrite E in *. vm_compute in Hs. vm_compute. by simplify_eq.
  - rewrite E in *. vm_compute in Hs. vm_compute. by simplify_eq.
Qed.

Lemma parseFloat_text_roundtrip d :
  wf_double d -> d <> NEG_ZERO -> parseFloat (number_to_string d) = d.
Proof.
  intros Hwf Hz. destruct (is_nan d) eqn:Hn.
  { apply wf_nan in Hn as ->; [|done]. by vm_compute. }
  destruct (number_text_scan d Hwf Hz Hn) as [Hs [Hc|[E|E]]].
  - unfold parseFloat. rewrite trim_start_id, Hs; [done|].
    eapply Forall_impl; [exact Hc|]. intros c ?%numchar_bound. by apply not_space_low.
  - rewrite E in *. vm_compute in Hs. vm_compute. by simplify_eq.
  - rewrite E in *. vm_compute in Hs. vm_compute. by simplify_eq.
Qed.

(** ** Integers *)

Lemma double_of_Z_mag n :
  0 < n -> representable n -> Z.log2 n <= 1023 ->
  dneg (double_of_Z n) = false /\ 0 < dmag (double_of_Z n) < INF_MAG /\
  dmag (double_of_Z n) = double_of_Z n /\ units (double_of_Z n) = n * UNIT.
Proof.
  intros Hn Hr HL. pose proof UNIT_pos as HU.
  destruct (double_of_Z_value n Hr) as (Hv & [Hb Hm] & _); [rewrite Z.abs_eq; lia|].
  pose proof (dsplit _ Hb) as Hd. pose proof (dmag_bound (double_of_Z n)) as Hdm.
  pose proof (units_nonneg (dmag (double_of_Z n)) ltac:(lia)) as Hu.
  unfold num_of_double in Hv. destruct (Z.ltb_spec INF_MAG (dmag (double_of_Z n))); [done|].
  destruct (Z.eqb_spec (dmag (double_of_Z n)) INF_MAG); [by destruct (dneg _)|].
  destruct (dneg (double_of_Z n)); [injection Hv as Hv; nia|]. injection Hv as Hv.
  rewrite Z.add_0_l in Hd. rewrite <- Hd in *. split; [done|]. split; [|done].
  destruct (decide (double_of_Z n = 0)) as [E|]; [|lia]. rewrite E, units_0 in Hv. nia.
Qed.

(** [Number] of an integer text is exact up to 2^53. *)
Lemma round_ratio_exact n : 0 <= n < 2 ^ 53 -> round_ratio n 1 = double_of_Z n.
Proof.
  intros Hn. destruct (decide (n = 0)) as [->|Hne]; [done|].
  assert (Z.log2 n < 53) by (apply Z.log2_lt_pow2; lia).
  destruct (double_of_Z_mag n) as (_ & Hm & Hd & Hu); [lia|left; rewrite Z.abs_eq; lia|lia|].
  pose proof UNIT_pos. rewrite Hd in Hm. apply round_ratio_near; [lia|done|]. rewrite Hu.
  replace (n * UNIT - n * UNIT * 1) with 0 by lia. cbn [Z.abs]. lia.
Qed.

Lemma pattern_units s r : 0 <= s -> 2 ^ 52 <= r <= 2 ^ 53 -> units (s * 2 ^ 52 + r) = r * 2 ^ s.
Proof.
  intros Hs Hr. unfold units. destruct (decide (r = 2 ^ 53)) as [->|Hne].
  - replace (s * 2 ^ 52 + 2 ^ 53) with ((s + 2) * 2 ^ 52 + 0) by lia.
    destruct (split_pattern (s + 2) 0) as [-> ->]; [lia|]. rewrite (proj2 (Z.eqb_neq (s + 2) 0)) by lia.
    replace (s + 2 - 1) with (s + 1) by lia. rewrite Z.pow_add_r by lia. lia.
  - replace (s * 2 ^ 52 + r) with ((s + 1) * 2 ^ 52 + (r - 2 ^ 52)) by lia.
    destruct (split_pattern (s + 1) (r - 2 ^ 52)) as [-> ->]; [lia|]. rewrite (proj2 (Z.eqb_neq (s + 1) 0)) by lia.
    replace (s + 1 - 1) with s by lia. lia.
Qed.

Lemma rne_bounds a b lo hi : 0 < b -> lo * b <= a <= hi * b -> lo <= rne a b <= hi.
Proof.
  intros Hb H. pose proof (rne_ge a b lo Hb ltac:(lia)). split; [done|]. unfold rne.
  pose proof (Z.div_mod a b ltac:(lia)). pose proof (Z.mod_pos_bound a b Hb).
  assert (a / b <= hi) by (apply Z.div_le_upper_bound; lia).
  destruct (decide (a / b = hi)) as [E|]; [|repeat case_match; lia].
  rewrite E in *. assert (a mod b = 0) as -> by nia. rewrite (proj2 (Z.ltb_lt (2 * 0) b)) by lia. lia.
Qed.

(** An integer from 2^53 on rounds to an integer from 2^53 on, or overflows. *)
Lemma round_ratio_large n :
  2 ^ 53 <= n ->
  exists s r, 1075 <= s /\ 2 ^ 52 <= r <= 2 ^ 53 /\ round_ratio n 1 = Z.min INF_MAG (s * 2 ^ 52 + r).
Proof.
  intros Hn. pose proof UNIT_pos as HU. unfold round_ratio. rewrite Z.div_1_r.
  assert (53 + 1074 <= Z.log2 (n * UNIT)) as HL.
  { apply Z.log2_le_pow2; [nia|]. rewrite Z.pow_add_r by lia. fold UNIT. nia. }
  exists (Z.log2 (n * UNIT) - 52), (rne (n * UNIT) (1 * 2 ^ (Z.log2 (n * UNIT) - 52))).
  rewrite Z.max_r by lia. split; [lia|]. split; [|done].
  destruct (Z.log2_spec (n * UNIT)) as [Hlo Hhi]; [nia|]. set (L := Z.log2 (n * UNIT)) in *.
  apply rne_bounds; [pose proof (Z.pow_pos_nonneg 2 (L - 52)); lia|].
  rewrite Z.mul_1_l, <- !Z.pow_add_r by lia.
  replace (52 + (L - 52)) with L by lia. replace (53 + (L - 52)) with (Z.succ L) by lia. lia.
Qed.

Lemma round_ratio_integer n :
  0 <= n -> round_ratio n 1 < INF_MAG -> exists m, units (round_ratio n 1) = m * UNIT.
Proof.
  intros Hn Hf. destruct (Z.lt_ge_cases n (2 ^ 53)) as [Hlt|Hge].
  - rewrite round_ratio_exact in * by lia. destruct (decide (n = 0)) as [->|]; [by exists 0|].
    assert (Z.log2 n < 53) by (apply Z.log2_lt_pow2; lia).
    destruct (double_of_Z_mag n) as (_ & _ & _ & ->); [lia|left; rewrite Z.abs_eq; lia|lia|]. by exists n.
  - destruct (round_ratio_large n Hge) as (s & r & Hs & Hr & E). rewrite E in *.
    rewrite Z.min_r in * by lia. rewrite pattern_units by lia. exists (r * 2 ^ (s - 1074)). unfold UNIT.
    rewrite <- Z.mul_assoc, <- Z.pow_add_r by lia. do 2 f_equal. lia.
Qed.

(** ** What distinguishes the text of a number *)

Lemma Number_of_dec n : Number_of_string (dec n) = signed (n <? 0) (round_ratio (Z.abs n) 1).
Proof.
  destruct (dec_nonneg_spec (Z.abs n)) as (Hp & Hd & Hne & _); [lia|].
  assert (dec n = (if n <? 0 then [45] else []) ++ dec_nonneg (Z.abs n)) as ->.
  { unfold dec. destruct (Z.ltb_spec n 0); [rewrite Z.abs_neq by lia|rewrite Z.abs_eq by lia]; done. }
  set (ds := dec_nonneg (Z.abs n)) in *. clearbody ds.
  rewrite Number_of_numchars.
  2: { apply Forall_app. split; [|by apply digits_numchar]. destruct (n <? 0); repeat constructor. }
  2: { by destruct (n <? 0), ds. }
  assert (literal ds ds [] 0) as Hl.
  { split; [done..|]. exists []. by rewrite app_nil_r. }
  pose proof (scan_literal ds ds [] 0 [] Hl stops_nil) as Hs. rewrite !app_nil_r in Hs.
  destruct Hd as [|c ds Hc Hd]; [done|]. unfold scan_number. destruct (n <? 0); cbn [app].
  - cbn [scan_sign]. rewrite strip_infinity_digit, Hs by done. unfold decimal_mag. cbn [length Z.of_nat Z.sub Z.leb Z.compare].
    rewrite Hp. cbn. by rewrite Z.mul_1_r.
  - rewrite scan_sign_digit, strip_infinity_digit, Hs by done. unfold decimal_mag.
    cbn [length Z.of_nat Z.sub Z.leb Z.compare]. rewrite Hp. cbn. by rewrite Z.mul_1_r.
Qed.

Lemma fraction_not_neg_zero d : BigInt_of_double d = None -> d <> NEG_ZERO.
Proof. by intros H ->. Qed.

Lemma number_to_string_inj d e :
  wf_double d -> wf_double e -> BigInt_of_double d = None -> BigInt_of_double e = None ->
  number_to_string d = number_to_string e -> d = e.
Proof.
  intros Hd He Bd Be H. rewrite <- (number_text_roundtrip d), <- (number_text_roundtrip e), H;
    auto using fraction_not_neg_zero.
Qed.

Lemma round_ratio_range n : 0 <= n -> 0 <= round_ratio n 1 <= INF_MAG.
Proof.
  intros Hn. split; [|unfold round_ratio; lia]. destruct (Z.lt_ge_cases n (2 ^ 53)) as [Hlt|Hge].
  - rewrite round_ratio_exact by lia. destruct (decide (n = 0)) as [->|]; [done|].
    assert (Z.log2 n < 53) by (apply Z.log2_lt_pow2; lia).
    destruct (double_of_Z_mag n) as (_ & Hm & E & _); [lia|left; rewrite Z.abs_eq; lia|lia|]. lia.
  - destruct (round_ratio_large n Hge) as (s & r & Hs & Hr & ->). unfold INF_MAG. lia.
Qed.

Lemma signed_split neg mag : 0 <= mag < 2 ^ 63 -> dneg (signed neg mag) = neg /\ dmag (signed neg mag) = mag.
Proof.
  intros Hm. pose proof (sign_pattern neg mag Hm) as H. unfold signed. by destruct neg.
Qed.

(** The digits of an integer never denote a fraction. *)
Lemma number_to_string_not_dec d n : wf_double d -> BigInt_of_double d = None -> number_to_string d <> dec n.
Proof.
  intros Hwf Hb H. pose proof (number_text_roundtrip d Hwf (fraction_not_neg_zero d Hb)) as Hr.
  rewrite H, Number_of_dec in Hr. set (mag := round_ratio (Z.abs n) 1) in *.
  pose proof (round_ratio_range (Z.abs n) ltac:(lia)) as Hm. fold mag in Hm.
  destruct (signed_split (n <? 0) mag) as [Hsn Hsm]; [unfold INF_MAG in *; lia|]. rewrite Hr in Hsn, Hsm.
  assert (is_nan d = false) as Hn.
  { unfold is_nan, num_of_double. rewrite (proj2 (Z.ltb_ge INF_MAG (dmag d))) by lia. by repeat case_match. }
  destruct (decide (mag = INF_MAG)) as [E|E].
  - assert (73 ∈ dec n) as Hin.
    { rewrite <- H. unfold number_to_string. rewrite Hn, Hsm, E. cbn -[js].
      apply elem_of_app. right. by left. }
    assert (forall m, 0 <= m -> 73 ∉ dec_nonneg m) as Hno.
    { intros m Hm' Hi. destruct (dec_nonneg_spec m Hm') as (_ & Hds & _). rewrite Forall_forall in Hds.
      apply Hds, is_digit_range in Hi. lia. }
    unfold dec in Hin. destruct (Z.ltb_spec n 0); [|by apply Hno in Hin].
    apply elem_of_cons in Hin as [?|Hin]; [lia|]. by apply Hno in Hin; [|lia].
  - destruct (round_ratio_integer (Z.abs n)) as [m Hu]; [lia|fold mag; lia|]. fold mag in Hu.
    unfold BigInt_of_double, num_of_double in Hb. rewrite Hsm, Hsn, Hu in Hb.
    rewrite (proj2 (Z.ltb_ge INF_MAG mag)), (proj2 (Z.eqb_neq mag INF_MAG)) in Hb by lia.
    pose proof UNIT_pos. destruct (n <? 0); [rewrite <- Z.mul_opp_l in Hb|]; by rewrite Z.mod_mul, Z.eqb_refl in Hb by lia.
Qed.

Lemma number_to_string_printable d u : wf_double d -> u ∈ number_to_string d -> 32 < u < 160.
Proof.
  intros Hwf Hu. assert (Forall (fun u => 32 < u < 160) (number_to_string d)) as H; [|rewrite Forall_forall in H; auto].
  clear u Hu. destruct (is_nan d) eqn:Hn.
  { apply wf_nan in Hn as ->; [|done]. by repeat constructor. }
  destruct (decide (d = NEG_ZERO)) as [->|Hz]; [by repeat constructor|].
  destruct (number_text_scan d Hwf Hz Hn) as [_ [H|[->| ->]]]; [|by repeat constructor..].
  eapply Forall_impl; [exact H|]. apply numchar_bound.
Qed.
