(* ===== verification/Site.v ===== *)
(** * Site identifiers

    Models [packages/quereus-sync/src/clock/site.ts]: the 16-byte replica
    identifier, its base64url text and its stored record. *)

From S2P Require Import Prelude Bytes Double.
From Stdlib Require Import ZArith Lia.
From stdpp Require Import sorting.
From stdpp Require Import base tactics numbers sets gmap list.
#[local] Open Scope Z_scope.

Module Site.

Abbreviation SiteId := bytes.

(** [randomBytes] is the platform's entropy: its output is an argument. *)
Definition generateSiteId (random : bytes) : SiteId :=
  let id := <[6%nat := Z.lor (Z.land (nth 6 random 0) 0x0f) 0x40]> random in
  <[8%nat := Z.lor (Z.land (nth 8 id 0) 0x3f) 0x80]> id.

Definition BASE64URL_CHARS : jsstring :=
  Eval vm_compute in js "ABCDEFGHIJKLMNOPQRSTUVWXYZabcdefghijklmnopqrstuvwxyz0123456789-_".

Definition b64_char (i : Z) : Z := nth (Z.to_nat i) BASE64URL_CHARS 0.

Definition triplet (b1 b2 b3 : Z) : Z :=
  Z.lor (Z.lor (Z.shiftl b1 16) (Z.shiftl b2 8)) b3.

Fixpoint toBase64Url (l : bytes) : jsstring :=
  match l with
  | [] => []
  | [b1] =>
    let t := triplet b1 0 0 in
    [b64_char (Z.land (Z.shiftr t 18) 0x3f); b64_char (Z.land (Z.shiftr t 12) 0x3f)]
  | [b1; b2] =>
    let t := triplet b1 b2 0 in
    [b64_char (Z.land (Z.shiftr t 18) 0x3f); b64_char (Z.land (Z.shiftr t 12) 0x3f);
     b64_char (Z.land (Z.shiftr t 6) 0x3f)]
  | b1 :: b2 :: b3 :: rest =>
    let t := triplet b1 b2 b3 in
    b64_char (Z.land (Z.shiftr t 18) 0x3f) :: b64_char (Z.land (Z.shiftr t 12) 0x3f) ::
    b64_char (Z.land (Z.shiftr t 6) 0x3f) :: b64_char (Z.land t 0x3f) :: toBase64Url rest
  end.

(** The reverse table: position of [c] in the alphabet from position [i] on;
    a character outside it reads as 0. *)
Fixpoint lookup_from (i : Z) (alphabet : jsstring) (c : Z) : Z :=
  match alphabet with
  | [] => 0
  | x :: rest => if x =? c then i else lookup_from (i + 1) rest c
  end.

Definition lookup (c : Z) : Z := lookup_from 0 BASE64URL_CHARS c.

Definition quad (c1 c2 c3 c4 : Z) : Z :=
  Z.lor (Z.lor (Z.lor (Z.shiftl c1 18) (Z.shiftl c2 12)) (Z.shiftl c3 6)) c4.

(** The three guarded stores of one round of the decoding loop; [room] is
    [outputLen - writePos]. *)
Definition emit (room : nat) (t : Z) : bytes :=
  take room [Z.land (Z.shiftr t 16) 0xff; Z.land (Z.shiftr t 8) 0xff; Z.land t 0xff].

Fixpoint fromBase64Url_loop (room : nat) (str : jsstring) : bytes :=
  match str with
  | [] => []
  | [s1] => emit room (quad (lookup s1) 0 0 0)
  | [s1; s2] => emit room (quad (lookup s1) (lookup s2) 0 0)
  | [s1; s2; s3] => emit room (quad (lookup s1) (lookup s2) (lookup s3) 0)
  | s1 :: s2 :: s3 :: s4 :: rest =>
    emit room (quad (lookup s1) (lookup s2) (lookup s3) (lookup s4))
    ++ fromBase64Url_loop (room - 3) rest
  end.

Definition fromBase64Url (str : jsstring) : bytes :=
  fromBase64Url_loop (length str * 3 / 4) str.

Definition siteIdToBase64 (siteId : SiteId) : jsstring := toBase64Url siteId.

Definition siteIdFromBase64 (base64 : jsstring) : res SiteId :=
  if (length base64 =? 22)%nat then Ok (fromBase64Url base64)
  else Throw (EBadLength (Z.of_nat (length base64)) 22).

Definition siteIdEquals (a b : SiteId) : bool :=
  if (length a =? length b)%nat then Bytes.bytesEqual_loop a b else false.

Record SiteIdentity := { si_siteId : SiteId; si_createdAt : Z }.

Definition serializeSiteIdentity (identity : SiteIdentity) : res bytes :=
  let buffer := u8_new 24 in
  let* buffer := u8_set buffer (si_siteId identity) 0 in
  u8_set buffer (be 8 (si_createdAt identity)) 16.

Definition deserializeSiteIdentity (buffer : bytes) : res SiteIdentity :=
  if (length buffer =? 24)%nat then
    let siteId := slice 0 16 buffer in
    let* t := dv_get 8 16 buffer in
    Ok {| si_siteId := siteId; si_createdAt := Number_of_bigint t |}
  else Throw (EBadLength (Z.of_nat (length buffer)) 24).

(** ** Base64url round trip *)

Lemma testbit_high b n i : 0 <= b < 2 ^ n -> n <= i -> Z.testbit b i = false.
Proof.
  intros Hb Hi. destruct (decide (b = 0)) as [->|]; [apply Z.bits_0|].
  apply Z.bits_above_log2; [lia|]. eapply Z.lt_le_trans; [|exact Hi].
  apply Z.log2_lt_pow2; lia.
Qed.

Lemma land_shiftl_low a b n : 0 <= n -> 0 <= b < 2 ^ n -> Z.land (Z.shiftl a n) b = 0.
Proof.
  intros Hn Hb. apply Z.bits_inj'. intros i Hi.
  rewrite Z.land_spec, Z.shiftl_spec, Z.bits_0 by done.
  destruct (Z.ltb_spec i n).
  - by rewrite (Z.testbit_neg_r a (i - n)) by lia.
  - by rewrite (testbit_high b n i), andb_false_r by lia.
Qed.

Lemma lor_disjoint a b n : 0 <= n -> 0 <= b < 2 ^ n -> Z.lor (Z.shiftl a n) b = a * 2 ^ n + b.
Proof.
  intros Hn Hb. rewrite <- Z.shiftl_mul_pow2 by done.
  pose proof (Z.add_lor_land (Z.shiftl a n) b) as H.
  rewrite land_shiftl_low in H by done. lia.
Qed.

Lemma triplet_arith b1 b2 b3 :
  is_byte b1 -> is_byte b2 -> is_byte b3 -> triplet b1 b2 b3 = b1 * 65536 + b2 * 256 + b3.
Proof.
  unfold is_byte, triplet. intros H1 H2 H3.
  rewrite <- Z.lor_assoc, (lor_disjoint b2 b3 8) by lia.
  rewrite lor_disjoint by lia. lia.
Qed.

Lemma quad_arith c1 c2 c3 c4 :
  0 <= c1 < 64 -> 0 <= c2 < 64 -> 0 <= c3 < 64 -> 0 <= c4 < 64 ->
  quad c1 c2 c3 c4 = c1 * 262144 + c2 * 4096 + c3 * 64 + c4.
Proof.
  unfold quad. intros H1 H2 H3 H4.
  rewrite <- !Z.lor_assoc, (lor_disjoint c3 c4 6) by lia.
  rewrite (lor_disjoint c2 _ 12) by lia. rewrite lor_disjoint by lia. lia.
Qed.

Lemma land_3f t k : 0 <= k -> Z.land (Z.shiftr t k) 0x3f = (t / 2 ^ k) mod 64.
Proof. intros. rewrite Z.shiftr_div_pow2 by done. change 0x3f with (Z.ones 6). by rewrite Z.land_ones. Qed.

Lemma land_ff t k : 0 <= k -> Z.land (Z.shiftr t k) 0xff = (t / 2 ^ k) mod 256.
Proof. intros. rewrite Z.shiftr_div_pow2 by done. change 0xff with (Z.ones 8). by rewrite Z.land_ones. Qed.

Lemma land_3f_0 t : Z.land t 0x3f = t mod 64.
Proof. change 0x3f with (Z.ones 6). by rewrite Z.land_ones. Qed.

Lemma land_ff_0 t : Z.land t 0xff = t mod 256.
Proof. change 0xff with (Z.ones 8). by rewrite Z.land_ones. Qed.

Lemma lookup_b64_char i : 0 <= i < 64 -> lookup (b64_char i) = i.
Proof.
  intros H.
  assert (Hall : forallb (fun j => lookup (b64_char j) =? j)
            (map Z.of_nat (seq 0 64)) = true) by (vm_compute; done).
  rewrite forallb_forall in Hall. apply Z.eqb_eq, Hall, in_map_iff.
  exists (Z.to_nat i). split; [lia|]. apply in_seq. lia.
Qed.

(** Decoding the characters of one group gives back its 24 bits. *)
Lemma quad_of_chars t :
  0 <= t < 2 ^ 24 ->
  quad (lookup (b64_char ((t / 2 ^ 18) mod 64))) (lookup (b64_char ((t / 2 ^ 12) mod 64)))
       (lookup (b64_char ((t / 2 ^ 6) mod 64))) (lookup (b64_char (t mod 64))) = t.
Proof.
  intros Ht. rewrite !lookup_b64_char by (apply Z.mod_pos_bound; lia).
  rewrite quad_arith by (apply Z.mod_pos_bound; lia).
  change (2 ^ 18) with 262144. change (2 ^ 12) with 4096. change (2 ^ 6) with 64.
  change (2 ^ 24) with 16777216 in Ht.
  Z.to_euclidean_division_equations. lia.
Qed.

Lemma emit_triplet b1 b2 b3 :
  is_byte b1 -> is_byte b2 -> is_byte b3 -> emit 3 (triplet b1 b2 b3) = [b1; b2; b3].
Proof.
  intros H1 H2 H3. rewrite triplet_arith by done. unfold emit, is_byte in *.
  rewrite !land_ff, land_ff_0 by lia.
  change (2 ^ 16) with 65536. change (2 ^ 8) with 256. simpl.
  repeat f_equal; Z.to_euclidean_division_equations; lia.
Qed.

Lemma emit_take n t : (n <= 3)%nat -> emit n t = take n (emit 3 t).
Proof. intros H. unfold emit. rewrite take_take. by replace (n `min` 3)%nat with n by lia. Qed.

Lemma triplet_bound b1 b2 b3 :
  is_byte b1 -> is_byte b2 -> is_byte b3 -> 0 <= triplet b1 b2 b3 < 2 ^ 24.
Proof. intros. rewrite triplet_arith by done. unfold is_byte in *. lia. Qed.

(** Characters past the end of the text read as 0, which is what the low
    sextets of a short final group hold. *)
Lemma lookup_zero : lookup (b64_char 0) = 0.
Proof. done. Qed.

Lemma quad_full b1 b2 b3 :
  is_byte b1 -> is_byte b2 -> is_byte b3 ->
  let t := triplet b1 b2 b3 in
  quad (lookup (b64_char (Z.land (Z.shiftr t 18) 0x3f)))
       (lookup (b64_char (Z.land (Z.shiftr t 12) 0x3f)))
       (lookup (b64_char (Z.land (Z.shiftr t 6) 0x3f)))
       (lookup (b64_char (Z.land t 0x3f))) = t.
Proof.
  intros H1 H2 H3 t. rewrite !land_3f, land_3f_0 by lia.
  apply quad_of_chars. by apply triplet_bound.
Qed.

Lemma is_byte_0 : is_byte 0.
Proof. unfold is_byte. lia. Qed.

Lemma sextet_zero t k : 0 <= k -> t mod 2 ^ (k + 6) = 0 -> (t / 2 ^ k) mod 64 = 0.
Proof.
  intros Hk H. rewrite Z.pow_add_r in H by lia. rewrite Z.rem_mul_r in H by lia.
  pose proof (Z.mod_pos_bound t (2 ^ k)). pose proof (Z.mod_pos_bound (t / 2 ^ k) (2 ^ 6)).
  change (2 ^ 6) with 64 in *. assert (0 < 2 ^ k) by lia. nia.
Qed.

Lemma quad_short2 b1 b2 :
  is_byte b1 -> is_byte b2 ->
  let t := triplet b1 b2 0 in
  quad (lookup (b64_char (Z.land (Z.shiftr t 18) 0x3f)))
       (lookup (b64_char (Z.land (Z.shiftr t 12) 0x3f)))
       (lookup (b64_char (Z.land (Z.shiftr t 6) 0x3f))) 0 = t.
Proof.
  intros H1 H2. cbv zeta. etransitivity; [|by apply (quad_full b1 b2 0), is_byte_0].
  f_equal. rewrite land_3f_0. rewrite triplet_arith by (done || apply is_byte_0).
  unfold is_byte in *. replace ((b1 * 65536 + b2 * 256 + 0) mod 64) with 0; [done|].
  Z.to_euclidean_division_equations; lia.
Qed.

Lemma quad_short1 b1 :
  is_byte b1 ->
  let t := triplet b1 0 0 in
  quad (lookup (b64_char (Z.land (Z.shiftr t 18) 0x3f)))
       (lookup (b64_char (Z.land (Z.shiftr t 12) 0x3f))) 0 0 = t.
Proof.
  intros H1. cbv zeta. etransitivity; [|by apply (quad_short2 b1 0), is_byte_0].
  f_equal. rewrite land_3f by lia. rewrite triplet_arith by (done || apply is_byte_0).
  unfold is_byte in *. rewrite sextet_zero; [done|lia|].
  change (2 ^ (6 + 6)) with 4096. Z.to_euclidean_division_equations; lia.
Qed.

Lemma fromBase64Url_loop_to l :
  wf_bytes l -> fromBase64Url_loop (length l) (toBase64Url l) = l.
Proof.
  induction l as [|b1|b1 b2|b1 b2 b3 l IH] using list_ind3; intros Hwf;
    rewrite ?wf_cons in Hwf; [done|..].
  - destruct Hwf as [H1 _]. cbn [toBase64Url fromBase64Url_loop length].
    rewrite quad_short1, emit_take, emit_triplet by (done || lia || apply is_byte_0). done.
  - destruct Hwf as (H1 & H2 & _). cbn [toBase64Url fromBase64Url_loop length].
    rewrite quad_short2, emit_take, emit_triplet by (done || lia || apply is_byte_0). done.
  - destruct Hwf as (H1 & H2 & H3 & Hl). cbn [toBase64Url fromBase64Url_loop].
    rewrite quad_full by done.
    assert (emit (length (b1 :: b2 :: b3 :: l)) (triplet b1 b2 b3) = [b1; b2; b3]) as ->.
    { rewrite <- emit_triplet by done. unfold emit. by rewrite !take_ge by (simpl; lia). }
    replace (length (b1 :: b2 :: b3 :: l) - 3)%nat with (length l) by (simpl; lia).
    by rewrite IH.
Qed.

Lemma length_toBase64Url l : (length (toBase64Url l) * 3 / 4 = length l)%nat.
Proof.
  induction l as [| | |b1 b2 b3 l IH] using list_ind3; [done..|].
  cbn [toBase64Url length].
  replace (S (S (S (S (length (toBase64Url l))))) * 3)%nat
    with (3 * 4 + length (toBase64Url l) * 3)%nat by lia.
  rewrite Nat.div_add_l by lia. lia.
Qed.

(** Decoding the base64url text of a byte string gives the byte string. *)
Lemma base64url_roundtrip l : wf_bytes l -> fromBase64Url (toBase64Url l) = l.
Proof. intros H. unfold fromBase64Url. rewrite length_toBase64Url. by apply fromBase64Url_loop_to. Qed.

Lemma length_toBase64Url_16 l : length l = 16%nat -> length (toBase64Url l) = 22%nat.
Proof. intros H. do 16 (destruct l as [|? l]; [done|]). by destruct l. Qed.

Lemma siteIdentity_stored identity :
  length (si_siteId identity) = 16%nat ->
  serializeSiteIdentity identity = Ok (si_siteId identity ++ be 8 (si_createdAt identity)).
Proof.
  intros Hl. unfold serializeSiteIdentity.
  change (u8_new 24) with ([] ++ u8_new 16 ++ u8_new 8).
  rewrite (u8_set_at [] (u8_new 16) _ _ 0) by done. cbn [res_bind app].
  rewrite <- (app_nil_r (u8_new 8)).
  rewrite (u8_set_at _ (u8_new 8) [] _ 16) by (by rewrite ?length_be).
  by rewrite app_nil_r.
Qed.

(** A 16-byte site id survives its 22-character text form, and the stored
    identity record (site id and creation time) survives the KV store, for
    every creation time a double holds exactly; a text of any other length is
    rejected with the length error. *)
Theorem site_identity_roundtrip (id : SiteId) (createdAt : Z) (text : jsstring) :
  wf_bytes id -> length id = 16%nat -> 0 <= createdAt < 2 ^ 53 ->
  siteIdFromBase64 (siteIdToBase64 id) = Ok id /\
  (let* b := serializeSiteIdentity {| si_siteId := id; si_createdAt := createdAt |} in
   deserializeSiteIdentity b) = Ok {| si_siteId := id; si_createdAt := createdAt |} /\
  (length text <> 22%nat ->
   siteIdFromBase64 text = Throw (EBadLength (Z.of_nat (length text)) 22)).
Proof.
  intros Hwf Hl Ht. split_and!.
  - unfold siteIdFromBase64, siteIdToBase64. rewrite length_toBase64Url_16 by done.
    cbn [Nat.eqb]. by rewrite base64url_roundtrip.
  - rewrite siteIdentity_stored by done. cbn [res_bind si_siteId si_createdAt].
    unfold deserializeSiteIdentity. rewrite length_app, length_be, Hl. cbn [Nat.add Nat.eqb].
    rewrite <- (app_nil_r (be 8 _)), (dv_get_mid id (be 8 createdAt) [] 8 16)
      by (by rewrite ?length_be). cbn [res_bind].
    rewrite <- Hl at 1. rewrite slice_app_l, unbe_be_small by (simpl; lia).
    by rewrite Number_of_bigint_exact by lia.
  - intros Hne. unfold siteIdFromBase64. by destruct (Nat.eqb_spec (length text) 22).
Qed.

Lemma site_identity_roundtrip_witness :
  siteIdFromBase64 (siteIdToBase64 (map Z.of_nat (seq 250 16))) <> Throw ERange /\
  siteIdFromBase64 (siteIdToBase64 (map Z.of_nat (seq 240 16)))
    = Ok (map Z.of_nat (seq 240 16)).
Proof.
  split; [done|].
  apply (site_identity_roundtrip (map Z.of_nat (seq 240 16)) 1700000000000 []);
    [apply wf_bytesb_spec; reflexivity|reflexivity|lia].
Defined.

End Site.
