(* ===== verification/Hlc.v ===== *)
(** * Hybrid logical clock

    Models [packages/quereus-sync/src/clock/hlc.ts]: the timestamp, its total
    order, its 30-byte and JSON forms, and the per-replica clock.  [Date.now()]
    is an argument of the operations that read it. *)

From S2P Require Import Prelude Bytes Double Decimal Site.
From Stdlib Require Import ZArith Lia.
From stdpp Require Import sorting.
From stdpp Require Import base tactics numbers sets gmap list.
#[local] Open Scope Z_scope.

Module Hlc.

Record HLC := mkHLC {
  wallTime : Z;
  counter : Z;
  siteId : Site.SiteId;
  opSeq : Z
}.

#[global] Instance HLC_eq_dec : EqDecision HLC.
Proof. solve_decision. Defined.

#[global] Instance HLC_countable : Countable HLC.
Proof.
  refine (inj_countable' (fun h => (wallTime h, counter h, siteId h, opSeq h))
            (fun p => match p with (w, c, s, o) => mkHLC w c s o end) _).
  by intros [].
Defined.

Definition MAX_COUNTER : Z := 0xFFFF.
Definition MAX_OPSEQ : Z := 0xFFFFFFFF.
Definition MAX_DRIFT_MS : Z := 60000.

Definition assertWithinDrift (remoteWallTime now : Z) : res unit :=
  if now + MAX_DRIFT_MS <? remoteWallTime
  then Throw (EDrift (remoteWallTime - now)) else Ok tt.

(** The loop of [compareSiteIds] over the common length, then the difference
    of lengths. *)
Fixpoint compareSiteIds_loop (a b : Site.SiteId) (d : Z) : Z :=
  match a, b with
  | x :: a', y :: b' =>
    if x <? y then -1 else if y <? x then 1 else compareSiteIds_loop a' b' d
  | _, _ => d
  end.

Definition compareSiteIds (a b : Site.SiteId) : Z :=
  compareSiteIds_loop a b (Z.of_nat (length a) - Z.of_nat (length b)).

Definition compareHLC (a b : HLC) : Z :=
  if wallTime a <? wallTime b then -1
  else if wallTime b <? wallTime a then 1
  else if counter a <? counter b then -1
  else if counter b <? counter a then 1
  else
    let siteCmp := compareSiteIds (siteId a) (siteId b) in
    if negb (siteCmp =? 0) then siteCmp
    else if opSeq a <? opSeq b then -1
    else if opSeq b <? opSeq a then 1
    else 0.

Definition hlcEquals (a b : HLC) : bool := compareHLC a b =? 0.

(** The running maximum of [maxHLC]'s loop. *)
Definition maxHLC_step (max : option HLC) (hlc : HLC) : option HLC :=
  match max with
  | None => Some hlc
  | Some m => if 0 <? compareHLC hlc m then Some hlc else Some m
  end.

Definition maxHLC (hlcs : list HLC) : option HLC := foldl maxHLC_step None hlcs.

Definition createHLC (w c : Z) (s : Site.SiteId) (o : Z) : HLC := mkHLC w c s o.

Definition deterministicTxnId (base : HLC) : jsstring :=
  dec (wallTime base) ++ [58] ++ dec (counter base) ++ [58]
  ++ Site.siteIdToBase64 (siteId base).

Definition serializeHLC (hlc : HLC) : res bytes :=
  let buffer := u8_new 30 in
  let* buffer := u8_set buffer (be 8 (wallTime hlc)) 0 in
  let* buffer := u8_set buffer (be 2 (counter hlc)) 8 in
  let* buffer := u8_set buffer (siteId hlc) 10 in
  u8_set buffer (be 4 (opSeq hlc)) 26.

Definition deserializeHLC (buffer : bytes) : res HLC :=
  if negb (length buffer =? 30)%nat then Throw (EBadLength (Z.of_nat (length buffer)) 30)
  else
    let* w := dv_get 8 0 buffer in
    let* c := dv_get 2 8 buffer in
    let s := slice 10 26 buffer in
    let* o := dv_get 4 26 buffer in
    Ok (createHLC w c s o).

Record SerializedHLC := {
  j_wallTime : jsstring;
  j_counter : Z;
  j_siteId : jsstring;
  j_opSeq : option Z
}.

Definition hlcToJson (hlc : HLC) : SerializedHLC := {|
  j_wallTime := dec (wallTime hlc);
  j_counter := counter hlc;
  j_siteId := Site.siteIdToBase64 (siteId hlc);
  j_opSeq := Some (opSeq hlc)
|}.

Definition hlcFromJson (json : SerializedHLC) : res HLC :=
  let* w := match BigInt_of_string (j_wallTime json) with Some w => Ok w | None => Throw ESyntax end in
  let* s := Site.siteIdFromBase64 (j_siteId json) in
  Ok (createHLC w (j_counter json) s (default 0 (j_opSeq json))).

(** ** [HLCManager] *)

Record HLCManager := mkManager {
  m_wallTime : Z;
  m_counter : Z;
  m_siteId : Site.SiteId
}.

Definition newManager (site : Site.SiteId) (initialState : option (Z * Z)) : HLCManager :=
  match initialState with
  | Some (w, c) => mkManager w c site
  | None => mkManager 0 0 site
  end.

Definition getState (m : HLCManager) : Z * Z := (m_wallTime m, m_counter m).

Definition now (m : HLCManager) : HLC := createHLC (m_wallTime m) (m_counter m) (m_siteId m) 0.

Definition tick (m : HLCManager) (date_now : Z) : HLCManager * HLC :=
  let m' :=
    if m_wallTime m <? date_now then mkManager date_now 0 (m_siteId m)
    else
      let c := m_counter m + 1 in
      if MAX_COUNTER <? c then mkManager (m_wallTime m + 1) 0 (m_siteId m)
      else mkManager (m_wallTime m) c (m_siteId m) in
  (m', now m').

Definition receive (m : HLCManager) (remote : HLC) (date_now : Z) : res (HLCManager * HLC) :=
  let* _ := assertWithinDrift (wallTime remote) date_now in
  let w := m_wallTime m in
  let rw := wallTime remote in
  let maxWall :=
    if w <? date_now then (if rw <? date_now then date_now else rw)
    else (if rw <? w then w else rw) in
  let '(w1, c1) :=
    if (maxWall =? w) && (maxWall =? rw) then (w, Z.max (m_counter m) (counter remote) + 1)
    else if maxWall =? w then (w, m_counter m + 1)
    else if maxWall =? rw then (rw, counter remote + 1)
    else (maxWall, 0) in
  let m' := if MAX_COUNTER <? c1 then mkManager (w1 + 1) 0 (m_siteId m)
            else mkManager w1 c1 (m_siteId m) in
  Ok (m', now m').

(** ** Timestamp order *)

(** The order [compareHLC] computes: lexicographic on the four fields. *)
Definition hlc_cmp (a b : HLC) : comparison :=
  cmp_then (wallTime a ?= wallTime b)
    (cmp_then (counter a ?= counter b)
      (cmp_then (blex (siteId a) (siteId b)) (opSeq a ?= opSeq b))).

Lemma compareSiteIds_loop_lex a b d :
  sgn d = (Z.of_nat (length a) - Z.of_nat (length b) ?= 0) ->
  sgn (compareSiteIds_loop a b d) = blex a b.
Proof.
  revert b d; induction a as [|x a IH]; intros [|y b] d Hd;
    simpl compareSiteIds_loop; simpl lex.
  - by rewrite Hd.
  - rewrite Hd. simpl. by destruct (Z.of_nat _).
  - rewrite Hd. simpl. by destruct (Z.of_nat _).
  - destruct (Z.compare_spec x y), (Z.ltb_spec x y), (Z.ltb_spec y x); try lia; try done.
    simpl. apply IH. rewrite Hd. simpl length. f_equal. lia.
Qed.

Lemma compareSiteIds_lex a b : sgn (compareSiteIds a b) = blex a b.
Proof. by apply compareSiteIds_loop_lex. Qed.

Lemma compareHLC_cmp a b : sgn (compareHLC a b) = hlc_cmp a b.
Proof.
  unfold compareHLC, hlc_cmp. cbv zeta. rewrite <- compareSiteIds_lex.
  destruct (Z.compare_spec (wallTime a) (wallTime b)), (Z.ltb_spec (wallTime a) (wallTime b)),
    (Z.ltb_spec (wallTime b) (wallTime a)); try lia; try done. simpl.
  destruct (Z.compare_spec (counter a) (counter b)), (Z.ltb_spec (counter a) (counter b)),
    (Z.ltb_spec (counter b) (counter a)); try lia; try done. simpl.
  destruct (Z.eqb_spec (compareSiteIds (siteId a) (siteId b)) 0) as [->|Hne]; simpl.
  - destruct (Z.compare_spec (opSeq a) (opSeq b)), (Z.ltb_spec (opSeq a) (opSeq b)),
      (Z.ltb_spec (opSeq b) (opSeq a)); try lia; done.
  - destruct (sgn _) eqn:E; [|done|done]. by apply sgn_eq in E.
Qed.

#[global] Instance hlc_cmp_laws : CmpLaws hlc_cmp.
Proof.
  unfold hlc_cmp.
  repeat (apply cmp_then_laws); apply cmp_on_laws || idtac; apply _.
Qed.

#[global] Instance hlc_cmp_eq : CmpEq hlc_cmp.
Proof.
  intros [w c s o] [w' c' s' o']. unfold hlc_cmp, cmp_then. simpl. split.
  - destruct (w ?= w') eqn:E1; try done. destruct (c ?= c') eqn:E2; try done.
    destruct (blex s s') eqn:E3; try done. intros E4.
    apply (cmp_eq Z.compare) in E1, E2, E4. apply (cmp_eq blex) in E3. by subst.
  - intros [= -> -> -> ->]. by rewrite !(cmp_refl Z.compare), (cmp_refl blex).
Qed.

#[global] Instance compareHLC_laws : CmpLaws (fun a b => sgn (compareHLC a b)).
Proof.
  split; intros *; rewrite !compareHLC_cmp.
  - apply (cmp_opp hlc_cmp).
  - apply (cmp_trans hlc_cmp).
  - apply (cmp_eq_l hlc_cmp).
Qed.

Lemma compareHLC_0 a b : compareHLC a b = 0 <-> a = b.
Proof. rewrite <- sgn_eq, compareHLC_cmp. apply (cmp_eq hlc_cmp). Qed.

Lemma compareHLC_lt a b : compareHLC a b < 0 <-> hlc_cmp a b = Lt.
Proof. by rewrite <- sgn_lt, compareHLC_cmp. Qed.

Lemma compareHLC_gt a b : 0 < compareHLC a b <-> hlc_cmp a b = Gt.
Proof. by rewrite <- sgn_gt, compareHLC_cmp. Qed.

(** ** Maximum of a list of timestamps *)

Lemma maxHLC_step_spec acc h :
  exists m, maxHLC_step acc h = Some m /\ (m = h \/ acc = Some m) /\
    hlc_cmp h m <> Gt /\ (forall a, acc = Some a -> hlc_cmp a m <> Gt).
Proof.
  unfold maxHLC_step. destruct acc as [a|].
  - destruct (Z.ltb_spec 0 (compareHLC h a)) as [H|H].
    + exists h. rewrite compareHLC_gt in H. split_and!; [done|auto| |].
      * by rewrite (cmp_refl hlc_cmp).
      * intros ? [= <-]. apply (cmp_lt_gt hlc_cmp) in H. congruence.
    + exists a. split_and!; [done|auto| |].
      * rewrite <- compareHLC_gt. lia.
      * intros ? [= <-]. by rewrite (cmp_refl hlc_cmp).
  - exists h. split_and!; [done|auto|by rewrite (cmp_refl hlc_cmp)|done].
Qed.

Lemma maxHLC_fold acc l :
  match foldl maxHLC_step acc l with
  | None => acc = None /\ l = []
  | Some m => (acc = Some m \/ m ∈ l) /\
      Forall (fun h => hlc_cmp h m <> Gt) l /\ (forall a, acc = Some a -> hlc_cmp a m <> Gt)
  end.
Proof.
  revert acc; induction l as [|h l IH]; intros acc; simpl.
  - destruct acc as [a|]; [|done]. split_and!; [auto|done|].
    intros ? [= <-]. by rewrite (cmp_refl hlc_cmp).
  - destruct (maxHLC_step_spec acc h) as (m1 & Hs & Hor & Hh & Hacc). rewrite Hs.
    specialize (IH (Some m1)). destruct (foldl maxHLC_step (Some m1) l) as [m|]; [|by destruct IH].
    destruct IH as (Hin & Hall & Hm). specialize (Hm m1 eq_refl).
    split_and!.
    + destruct Hin as [[= ->]|?]; [|right; by constructor]. destruct Hor as [->|?]; [right; constructor|auto].
    + constructor; [|done]. by eapply (cmp_le_trans hlc_cmp).
    + intros a Ha. eapply (cmp_le_trans hlc_cmp); eauto.
Qed.

(** ** Stored form *)

Definition valid_hlc (h : HLC) : Prop :=
  0 <= wallTime h < 2 ^ 64 /\ 0 <= counter h <= MAX_COUNTER /\
  (wf_bytes (siteId h) /\ length (siteId h) = 16%nat) /\ 0 <= opSeq h <= MAX_OPSEQ.

(** The layout: eight bytes of wall time, two of counter, the site id, four of
    sub-order. *)
Definition hlc_bytes (h : HLC) : bytes :=
  be 8 (wallTime h) ++ be 2 (counter h) ++ siteId h ++ be 4 (opSeq h).

Lemma length_hlc_bytes h : length (siteId h) = 16%nat -> length (hlc_bytes h) = 30%nat.
Proof. intros H. unfold hlc_bytes. by rewrite !length_app, !length_be, H. Qed.

Lemma wf_hlc_bytes h : wf_bytes (siteId h) -> wf_bytes (hlc_bytes h).
Proof. intros H. unfold hlc_bytes. rewrite !wf_app. auto using wf_be. Qed.

Lemma serializeHLC_bytes h :
  length (siteId h) = 16%nat -> serializeHLC h = Ok (hlc_bytes h).
Proof.
  intros Hs. unfold serializeHLC.
  change (u8_new 30) with ([] ++ u8_new 8 ++ u8_new 2 ++ u8_new 16 ++ u8_new 4).
  rewrite (u8_set_at [] (u8_new 8) _ _ 0) by (by rewrite ?length_be). cbn [res_bind app].
  rewrite (u8_set_at (be 8 _) (u8_new 2) _ _ 8) by (by rewrite ?length_be). cbn [res_bind].
  rewrite (app_assoc (be 8 _)).
  rewrite (u8_set_at _ (u8_new 16) _ _ 10) by (by rewrite ?length_app, ?length_be). cbn [res_bind].
  rewrite (app_assoc (_ ++ _)), <- (app_nil_r (u8_new 4)).
  rewrite (u8_set_at _ (u8_new 4) _ _ 26) by (by rewrite ?length_app, ?length_be, ?Hs).
  unfold hlc_bytes. by rewrite app_nil_r, <- !app_assoc.
Qed.

Lemma hlc_bytes_split (b : bytes) :
  length b = 30%nat ->
  b = slice 0 8 b ++ slice 8 10 b ++ slice 10 26 b ++ slice 26 30 b.
Proof.
  intros Hl. unfold slice. simpl Nat.sub. rewrite drop_0.
  rewrite <- (take_drop 8 b) at 1. f_equal.
  rewrite <- (take_drop 2 (drop 8 b)) at 1. f_equal. rewrite drop_drop. cbn [Nat.add].
  rewrite <- (take_drop 16 (drop 10 b)) at 1. f_equal. rewrite drop_drop. cbn [Nat.add].
  symmetry. apply take_ge. rewrite length_drop. lia.
Qed.

Lemma deserializeHLC_bytes (b8 b2 s b4 : bytes) :
  length b8 = 8%nat -> length b2 = 2%nat -> length s = 16%nat -> length b4 = 4%nat ->
  deserializeHLC (b8 ++ b2 ++ s ++ b4) = Ok (mkHLC (unbe b8) (unbe b2) s (unbe b4)).
Proof.
  intros H8 H2 Hs H4. unfold deserializeHLC. rewrite !length_app, H8, H2, Hs, H4. cbn [Nat.eqb Nat.add negb].
  pose proof (dv_get_mid [] b8 (b2 ++ s ++ b4) 8 0 eq_refl (eq_sym H8)) as E. cbn [app] in E.
  rewrite E. cbn [res_bind]. clear E.
  rewrite (dv_get_mid b8 b2 _ 2 8) by done. cbn [res_bind].
  rewrite !(app_assoc b8), (slice_mid (b8 ++ b2) s b4 10 26) by (rewrite ?length_app; lia).
  rewrite (app_assoc (b8 ++ b2)), <- (app_nil_r b4).
  rewrite (dv_get_mid ((b8 ++ b2) ++ s) b4 [] 4 26) by (rewrite ?length_app; lia).
  by rewrite app_nil_r.
Qed.

Lemma deserialize_hlc_bytes h : valid_hlc h -> deserializeHLC (hlc_bytes h) = Ok h.
Proof.
  intros (Hw & Hc & [_ Hs] & Ho). unfold hlc_bytes, MAX_COUNTER, MAX_OPSEQ in *.
  rewrite deserializeHLC_bytes by (by rewrite ?length_be).
  rewrite !unbe_be_small by (split; [lia|]; simpl; lia). by destruct h.
Qed.

(** Byte order on stored timestamps is timestamp order. *)
Lemma hlc_bytes_lex a b :
  valid_hlc a -> valid_hlc b -> blex (hlc_bytes a) (hlc_bytes b) = hlc_cmp a b.
Proof.
  intros (Hw & Hc & [_ Hs] & Ho) (Hw' & Hc' & [_ Hs'] & Ho'). unfold MAX_COUNTER, MAX_OPSEQ in *.
  unfold hlc_bytes, hlc_cmp.
  rewrite !lex_app by (by rewrite ?length_be, ?Hs, ?Hs').
  rewrite !lex_be by (split; [lia|]; simpl; lia). done.
Qed.

(** ** The clock of one replica *)

Inductive clock_event : Type :=
| Tick (date_now : Z)
| Receive (remote : HLC) (date_now : Z).

(** One event; a rejected [receive] throws before it changes anything, so it
    issues no timestamp and leaves the clock as it was. *)
Definition clock_step (m : HLCManager) (e : clock_event) : HLCManager * list HLC :=
  match e with
  | Tick n => let '(m', h) := tick m n in (m', [h])
  | Receive r n =>
    match receive m r n with
    | Ok (m', h) => (m', [h])
    | Throw _ => (m, [])
    end
  end.

Fixpoint clock_run (m : HLCManager) (evs : list clock_event) : HLCManager * list HLC :=
  match evs with
  | [] => (m, [])
  | e :: evs' =>
    let '(m1, hs) := clock_step m e in
    let '(m2, hs') := clock_run m1 evs' in
    (m2, hs ++ hs')
  end.

Definition stamp_lt (w c w' c' : Z) : Prop := w < w' \/ (w = w' /\ c < c').

Lemma stamp_lt_hlc a b :
  stamp_lt (wallTime a) (counter a) (wallTime b) (counter b) -> hlc_cmp a b = Lt.
Proof.
  unfold stamp_lt, hlc_cmp. intros [H|[H1 H2]].
  - by rewrite (proj2 (Z.compare_lt_iff _ _) H).
  - rewrite H1, (cmp_refl Z.compare). simpl. by rewrite (proj2 (Z.compare_lt_iff _ _) H2).
Qed.

Lemma tick_advances m n :
  stamp_lt (m_wallTime m) (m_counter m) (m_wallTime (tick m n).1) (m_counter (tick m n).1) /\
  m_siteId (tick m n).1 = m_siteId m /\ (tick m n).2 = now (tick m n).1 /\
  (0 <= m_counter m <= MAX_COUNTER -> 0 <= m_counter (tick m n).1 <= MAX_COUNTER) /\
  m_wallTime (tick m n).1 <= Z.max (m_wallTime m) n + 1.
Proof.
  unfold tick, stamp_lt, MAX_COUNTER.
  destruct (Z.ltb_spec (m_wallTime m) n); simpl; [split_and!; done || lia|].
  destruct (Z.ltb_spec 65535 (m_counter m + 1)); simpl; split_and!; done || lia.
Qed.

Lemma receive_advances m r n m' h :
  receive m r n = Ok (m', h) ->
  stamp_lt (m_wallTime m) (m_counter m) (m_wallTime m') (m_counter m') /\
  stamp_lt (wallTime r) (counter r) (m_wallTime m') (m_counter m') /\
  m_siteId m' = m_siteId m /\ h = now m' /\
  (0 <= m_counter m <= MAX_COUNTER -> 0 <= counter r -> 0 <= m_counter m' <= MAX_COUNTER) /\
  wallTime r <= n + MAX_DRIFT_MS /\
  m_wallTime m' <= Z.max (m_wallTime m) (n + MAX_DRIFT_MS) + 1.
Proof.
  unfold receive, assertWithinDrift, stamp_lt, MAX_COUNTER, MAX_DRIFT_MS.
  destruct (Z.ltb_spec (n + 60000) (wallTime r)) as [|Hd]; [done|]. cbn [res_bind].
  set (w := m_wallTime m) in *. set (rw := wallTime r) in *.
  destruct (Z.ltb_spec w n), (Z.ltb_spec rw n), (Z.ltb_spec rw w); try lia;
  repeat match goal with |- context [?x =? ?y] => destruct (Z.eqb_spec x y) end;
  try lia; cbn [andb]; cbv beta iota zeta;
  match goal with |- context [65535 <? ?c] => destruct (Z.ltb_spec 65535 c) end;
  intros [= <- <-]; simpl; split_and!; done || lia.
Qed.

Lemma clock_step_spec m e :
  let '(m', hs) := clock_step m e in
  m_siteId m' = m_siteId m /\
  match hs with
  | [] => m' = m
  | [h] => h = now m' /\ hlc_cmp (now m) h = Lt
  | _ => False
  end.
Proof.
  destruct e as [n|r n]; cbn [clock_step].
  - destruct (tick_advances m n) as (Ha & Hs & Hh & _). destruct (tick m n) as [m' h].
    cbn [fst snd] in *. subst h. split; [done|]. split; [done|]. by apply stamp_lt_hlc.
  - destruct (receive m r n) as [[m' h]|] eqn:E; [|done].
    apply receive_advances in E as (Ha & _ & Hs & -> & _). split; [done|].
    split; [done|]. by apply stamp_lt_hlc.
Qed.

Lemma clock_run_above m evs :
  Forall (fun h => hlc_cmp (now m) h = Lt /\ siteId h = m_siteId m /\ opSeq h = 0)
    (clock_run m evs).2 /\
  StronglySorted (fun a b => hlc_cmp a b = Lt) (clock_run m evs).2.
Proof.
  revert m; induction evs as [|e evs IH]; intros m; simpl; [split; constructor|].
  pose proof (clock_step_spec m e) as H. destruct (clock_step m e) as [m1 hs].
  destruct H as [Hs H]. specialize (IH m1). destruct (clock_run m1 evs) as [m2 hs']. simpl in *.
  destruct IH as [IHa IHs].
  destruct hs as [|h [|? ?]]; [subst m1; by split| |done]. destruct H as [-> Hlt]. simpl. split.
  - constructor; [done|]. eapply Forall_impl; [exact IHa|]. intros h (Hh & Hs' & Ho).
    split_and!; [by eapply (cmp_trans hlc_cmp)|congruence|done].
  - constructor; [done|]. eapply Forall_impl; [exact IHa|]. by intros h [Hh _].
Qed.

Lemma deterministicTxnId_inj a b :
  wf_bytes (siteId a) -> wf_bytes (siteId b) ->
  deterministicTxnId a = deterministicTxnId b <->
  wallTime a = wallTime b /\ counter a = counter b /\ siteId a = siteId b.
Proof.
  intros Ha Hb. unfold deterministicTxnId. split; [|intros (-> & -> & ->); done].
  intros H. cbn [app] in H. apply split_at_sep in H as [H1 H]; [|apply dec_no_colon..].
  apply split_at_sep in H as [H2 H3]; [|apply dec_no_colon..].
  split_and!; [by apply dec_inj_Z..|].
  unfold Site.siteIdToBase64 in H3.
  rewrite <- (Site.base64url_roundtrip (siteId a)), <- (Site.base64url_roundtrip (siteId b)) by done.
  by rewrite H3.
Qed.

(** ** Properties *)

(** [compareHLC] decides a total order on timestamps: it answers 0 exactly
    on equal timestamps ([hlcEquals]), swapping its arguments swaps the sign,
    and "less than" is transitive. *)
Theorem compareHLC_total_order :
  (forall a b, hlcEquals a b = true <-> a = b) /\
  (forall a b, compareHLC a b < 0 <-> 0 < compareHLC b a) /\
  (forall a b c, compareHLC a b < 0 -> compareHLC b c < 0 -> compareHLC a c < 0).
Proof.
  split_and!.
  - intros a b. unfold hlcEquals. rewrite Z.eqb_eq. apply compareHLC_0.
  - intros a b. rewrite compareHLC_lt, compareHLC_gt. apply (cmp_lt_gt hlc_cmp).
  - intros a b c. rewrite !compareHLC_lt. apply (cmp_trans hlc_cmp).
Qed.

(** C19: The 30-byte form is faithful and order-preserving: every timestamp in
    the machine ranges (64-bit wall time, 16-bit counter, 16-byte site, 32-bit
    sub-order) serializes to 30 bytes that deserialize to it, the JSON form
    also gives it back, and comparing two serialized timestamps byte by byte
    answers with the sign of [compareHLC]. *)
Theorem hlc_stored_form (a b : HLC) :
  valid_hlc a -> valid_hlc b ->
  exists x y, serializeHLC a = Ok x /\ serializeHLC b = Ok y /\
    length x = 30%nat /\ wf_bytes x /\ deserializeHLC x = Ok a /\
    hlcFromJson (hlcToJson a) = Ok a /\
    sgn (Bytes.compareBytes x y) = sgn (compareHLC a b).
Proof.
  intros Ha Hb. exists (hlc_bytes a), (hlc_bytes b).
  rewrite !serializeHLC_bytes by (apply Ha || apply Hb).
  rewrite Bytes.compareBytes_lex, compareHLC_cmp, hlc_bytes_lex, deserialize_hlc_bytes by done.
  destruct Ha as (_ & _ & [Hwf Hs] & _).
  split_and!; try done; [by apply length_hlc_bytes|by apply wf_hlc_bytes|].
  unfold hlcFromJson, hlcToJson. cbn [j_wallTime j_counter j_siteId j_opSeq].
  rewrite BigInt_of_dec. cbn [res_bind]. unfold Site.siteIdFromBase64, Site.siteIdToBase64.
  rewrite Site.length_toBase64Url_16, Site.base64url_roundtrip by done. by destruct a.
Qed.

Lemma hlc_stored_form_witness :
  exists x y,
    serializeHLC (mkHLC 1700000000000 7 (map Z.of_nat (seq 1 16)) 3) = Ok x /\
    serializeHLC (mkHLC 1700000000000 7 (map Z.of_nat (seq 2 16)) 0) = Ok y /\
    sgn (Bytes.compareBytes x y) = Lt.
Proof.
  destruct (hlc_stored_form (mkHLC 1700000000000 7 (map Z.of_nat (seq 1 16)) 3)
              (mkHLC 1700000000000 7 (map Z.of_nat (seq 2 16)) 0))
    as (x & y & Hx & Hy & _ & _ & _ & _ & Hc).
  - repeat split; try (vm_compute; congruence). apply wf_bytesb_spec; reflexivity.
  - repeat split; try (vm_compute; congruence). apply wf_bytesb_spec; reflexivity.
  - exists x, y. split; [exact Hx|]. split; [exact Hy|]. rewrite Hc. reflexivity.
Defined.

(** A buffer that is not 30 bytes long is rejected, and any 30-byte buffer
    reads back to a timestamp whose serialization is that buffer. *)
Theorem deserializeHLC_total (b : bytes) :
  wf_bytes b ->
  (length b <> 30%nat -> deserializeHLC b = Throw (EBadLength (Z.of_nat (length b)) 30)) /\
  (length b = 30%nat -> exists h, deserializeHLC b = Ok h /\ serializeHLC h = Ok b).
Proof.
  intros Hwf. split.
  - intros Hne. unfold deserializeHLC. by destruct (Nat.eqb_spec (length b) 30).
  - intros Hl. pose proof (hlc_bytes_split b Hl) as Hb.
    assert (Hsl : forall i j, (j <= 30)%nat -> (i <= j)%nat -> length (slice i j b) = (j - i)%nat).
    { intros i j Hj Hij. unfold slice. rewrite length_take, length_drop. lia. }
    assert (Hws : forall i j, wf_bytes (slice i j b)) by (intros; unfold slice; auto with bytes).
    eexists. split.
    + rewrite Hb at 1. apply deserializeHLC_bytes; by rewrite Hsl by lia.
    + rewrite serializeHLC_bytes by (simpl; by rewrite Hsl by lia).
      unfold hlc_bytes. simpl wallTime. simpl counter. simpl siteId. simpl opSeq.
      pose proof (be_unbe (slice 0 8 b) (Hws _ _)) as E1.
      pose proof (be_unbe (slice 8 10 b) (Hws _ _)) as E2.
      pose proof (be_unbe (slice 26 30 b) (Hws _ _)) as E3.
      rewrite Hsl in E1, E2, E3 by lia. cbn [Nat.sub] in E1, E2, E3.
      rewrite E1, E2, E3. by rewrite <- Hb.
Qed.

Lemma deserializeHLC_total_witness :
  exists h, deserializeHLC (replicate 30 255) = Ok h /\ serializeHLC h = Ok (replicate 30 255).
Proof.
  apply (deserializeHLC_total (replicate 30 255)); [apply wf_bytesb_spec; reflexivity|reflexivity].
Defined.

(** [maxHLC] returns nothing exactly on an empty input; otherwise it
    returns one of the timestamps, and none is greater. *)
Theorem maxHLC_spec (l : list HLC) :
  match maxHLC l with
  | None => l = []
  | Some m => m ∈ l /\ Forall (fun h => compareHLC h m <= 0) l
  end.
Proof.
  pose proof (maxHLC_fold None l) as H. unfold maxHLC.
  destruct (foldl maxHLC_step None l) as [m|]; [|by destruct H].
  destruct H as ([|Hin] & Hall & _); [done|]. split; [done|].
  eapply Forall_impl; [exact Hall|]. intros h Hh. simpl in Hh.
  rewrite <- compareHLC_gt in Hh. lia.
Qed.

(** C20: Whatever events a replica's clock goes through (local ticks and
    received remote timestamps, at any wall-clock readings, including ones
    that go backwards), the timestamps it issues are strictly increasing in
    [compareHLC], all above the clock it started from, and no two of them
    derive the same transaction id. *)
Theorem clock_issues_increasing (m : HLCManager) (evs : list clock_event) :
  wf_bytes (m_siteId m) ->
  StronglySorted (fun a b => compareHLC a b < 0) (clock_run m evs).2 /\
  Forall (fun h => compareHLC (now m) h < 0) (clock_run m evs).2 /\
  NoDup (map deterministicTxnId (clock_run m evs).2).
Proof.
  intros Hwf. destruct (clock_run_above m evs) as [Ha Hs]. split_and!.
  - clear Ha. induction Hs as [|h l Hs IH Hall]; constructor; [done|].
    eapply Forall_impl; [exact Hall|]. intros h' Hh. by apply compareHLC_lt.
  - eapply Forall_impl; [exact Ha|]. intros h [Hh _]. by apply compareHLC_lt.
  - induction Hs as [|h l Hs IH Hall]; simpl; [constructor|].
    apply Forall_cons in Ha as [(_ & Hsite & Ho) Ha]. constructor; [|by apply IH].
    intros Hin. apply list_elem_of_fmap in Hin as (h' & Heq & Hin).
    rewrite Forall_forall in Hall, Ha. specialize (Hall h' Hin).
    destruct (Ha h' Hin) as (_ & Hsite' & Ho').
    apply deterministicTxnId_inj in Heq as (Hw & Hc & Hsi); [|congruence..].
    assert (h = h') as <- by (destruct h, h'; simpl in *; congruence).
    by rewrite (cmp_refl hlc_cmp) in Hall.
Qed.

Lemma clock_issues_increasing_witness :
  (clock_run (newManager (map Z.of_nat (seq 1 16)) (Some (1000, 65535)))
     [Tick 900; Receive (mkHLC 1500 3 [9] 0) 1200; Tick 100; Receive (mkHLC 99999999 0 [9] 0) 0]).2
  <> [] /\
  NoDup (map deterministicTxnId
    (clock_run (newManager (map Z.of_nat (seq 1 16)) (Some (1000, 65535)))
       [Tick 900; Receive (mkHLC 1500 3 [9] 0) 1200; Tick 100;
        Receive (mkHLC 99999999 0 [9] 0) 0]).2).
Proof.
  split; [vm_compute; congruence|].
  apply (clock_issues_increasing (newManager (map Z.of_nat (seq 1 16)) (Some (1000, 65535)))
           [Tick 900; Receive (mkHLC 1500 3 [9] 0) 1200; Tick 100; Receive (mkHLC 99999999 0 [9] 0) 0]).
  apply wf_bytesb_spec; reflexivity.
Defined.

(** C21: Receiving a remote timestamp either fails, exactly when its wall time is
    more than [MAX_DRIFT_MS] ahead of the local wall clock, or moves the clock
    strictly above both the remote timestamp and its own previous state,
    never further than one millisecond past the drift bound, and keeps the
    counter in its 16 bits. *)
Theorem receive_causal (m : HLCManager) (remote : HLC) (date_now : Z) :
  0 <= m_counter m <= MAX_COUNTER -> 0 <= counter remote ->
  match receive m remote date_now with
  | Throw e => date_now + MAX_DRIFT_MS < wallTime remote /\ e = EDrift (wallTime remote - date_now)
  | Ok (m', h) =>
    wallTime remote <= date_now + MAX_DRIFT_MS /\
    h = now m' /\ m_siteId m' = m_siteId m /\
    compareHLC remote h < 0 /\ compareHLC (now m) h < 0 /\
    0 <= m_counter m' <= MAX_COUNTER /\
    m_wallTime m' <= Z.max (m_wallTime m) (date_now + MAX_DRIFT_MS) + 1
  end.
Proof.
  intros Hc Hr. destruct (receive m remote date_now) as [[m' h]|e] eqn:E.
  - apply receive_advances in E as (H1 & H2 & Hs & -> & Hcnt & Hd & Hw).
    rewrite !compareHLC_lt. split_and!; try done; [by apply stamp_lt_hlc..| |]; by apply Hcnt.
  - revert E. unfold receive, assertWithinDrift.
    destruct (Z.ltb_spec (date_now + MAX_DRIFT_MS) (wallTime remote)); cbn [res_bind].
    + by intros [= <-].
    + by repeat case_match.
Qed.

Lemma receive_causal_witness :
  (exists m' h, receive (mkManager 1000 65535 [1]) (mkHLC 1000 9 [2] 0) 990 = Ok (m', h) /\
     compareHLC (mkHLC 1000 9 [2] 0) h < 0) /\
  receive (mkManager 1000 65535 [1]) (mkHLC 100000 9 [2] 0) 990 = Throw (EDrift 99010).
Proof.
  split; [|reflexivity].
  pose proof (receive_causal (mkManager 1000 65535 [1]) (mkHLC 1000 9 [2] 0) 990) as H.
  eexists _, _. split; [reflexivity|].
  apply H; [split|]; vm_compute; congruence.
Defined.

End Hlc.
