(* ===== verification/KvStore.v ===== *)
(** * Ordered key-value stores

    Models the store contract of [kv-store.ts] and the in-memory backend of
    [memory-store.ts] (both under [packages/quereus-store/src/common/]).

    The abstract store is a finite map from keys to values; [spec_iterate] says
    what a range scan returns.  The class [KVStore] is what the components that
    sit on a store rely on; [InMemoryKVStore] is shown to implement it. *)

From S2P Require Import Prelude Bytes.
From Stdlib Require Import ZArith Lia.
From stdpp Require Import sorting.
From stdpp Require Import base tactics numbers sets gmap list.
#[local] Open Scope Z_scope.

Abbreviation kvmap := (gmap bytes bytes).
Abbreviation kventry := (bytes * bytes)%type.

Record IterateOptions := mkOptions {
  o_gte : option bytes;
  o_gt : option bytes;
  o_lte : option bytes;
  o_lt : option bytes;
  o_reverse : bool;
  o_limit : option Z
}.

Inductive BatchOp : Type :=
| OpPut (key value : bytes)
| OpDelete (key : bytes).

Definition op_key (op : BatchOp) : bytes :=
  match op with
  | OpPut k _ | OpDelete k => k
  end.

(** ** Abstract semantics *)

Definition apply_op (m : kvmap) (op : BatchOp) : kvmap :=
  match op with
  | OpPut k v => <[k := v]> m
  | OpDelete k => delete k m
  end.

(** Queued operations apply in queue order: a later one wins. *)
Definition apply_ops (m : kvmap) (ops : list BatchOp) : kvmap := foldl apply_op m ops.

Definition test (bound : option bytes) (p : comparison -> bool) (k : bytes) : bool :=
  match bound with
  | Some b => p (blex k b)
  | None => true
  end.

Definition is_lt (c : comparison) : bool := match c with Lt => true | _ => false end.
Definition is_gt (c : comparison) : bool := match c with Gt => true | _ => false end.

Definition lower_ok (o : IterateOptions) (k : bytes) : bool :=
  test (o_gte o) (fun c => negb (is_lt c)) k && test (o_gt o) is_gt k.
Definition upper_ok (o : IterateOptions) (k : bytes) : bool :=
  test (o_lte o) (fun c => negb (is_gt c)) k && test (o_lt o) is_lt k.
Definition in_range (o : IterateOptions) (k : bytes) : bool := lower_ok o k && upper_ok o k.

Definition compareEntries (a b : kventry) : Z := Bytes.compareBytes a.1 b.1.

Definition sorted_entries (m : kvmap) : list kventry := js_sort compareEntries (map_to_list m).

(** Every entry in the range, in key order (or its reverse), up to the limit. *)
Definition spec_iterate (o : IterateOptions) (m : kvmap) : list kventry :=
  let l := List.filter (fun e => in_range o e.1) (sorted_entries m) in
  take_limit (o_limit o) (if o_reverse o then reverse l else l).

Definition wf_bound (b : option bytes) : Prop := match b with Some k => wf_bytes k | None => True end.
Definition wf_options (o : IterateOptions) : Prop :=
  wf_bound (o_gte o) /\ wf_bound (o_gt o) /\ wf_bound (o_lte o) /\ wf_bound (o_lt o).

(** Bounds are monotone: what is above the lower bound stays above it going
    up, what is below the upper bound stays below it going down. *)
Lemma upper_ok_mono o k k' : blex k k' <> Gt -> upper_ok o k' = true -> upper_ok o k = true.
Proof.
  intros Hk. unfold upper_ok, test. rewrite !andb_true_iff. intros [H1 H2]. split.
  - destruct (o_lte o) as [b|]; [|done].
    assert (blex k b <> Gt) as Hb by (apply (cmp_le_trans blex k k' b Hk); by destruct (blex k' b)).
    by destruct (blex k b).
  - destruct (o_lt o) as [b|]; [|done].
    assert (blex k b = Lt) as -> by (apply (cmp_le_lt_trans blex k k' b Hk); by destruct (blex k' b)).
    done.
Qed.

Lemma lower_ok_mono o k k' : blex k k' <> Gt -> lower_ok o k = true -> lower_ok o k' = true.
Proof.
  intros Hk. unfold lower_ok, test. rewrite !andb_true_iff. intros [H1 H2].
  assert (Hk' : blex k' k <> Lt) by (rewrite (cmp_opp blex k k'); by destruct (blex k k')).
  split.
  - destruct (o_gte o) as [b|]; [|done].
    assert (blex k' b <> Lt) as Hb by (apply (cmp_ge_trans blex k' k b Hk'); by destruct (blex k b)).
    by destruct (blex k' b).
  - destruct (o_gt o) as [b|]; [|done].
    assert (blex b k' = Lt) as Hb.
    { apply (cmp_lt_le_trans blex b k k'); [|done]. apply (cmp_lt_gt blex). by destruct (blex k b). }
    apply (cmp_lt_gt blex) in Hb. by rewrite Hb.
Qed.

Lemma compareEntries_lex a b : sgn (compareEntries a b) = blex a.1 b.1.
Proof. apply Bytes.compareBytes_lex. Qed.

#[global] Instance compareEntries_laws : CmpLaws (fun a b => sgn (compareEntries a b)).
Proof. unfold compareEntries. apply (cmp_on_laws (fun a b => sgn (Bytes.compareBytes a b)) fst). Qed.

Lemma sorted_entries_sorted m : StronglySorted (fun a b => blex a.1 b.1 <> Gt) (sorted_entries m).
Proof.
  eapply StronglySorted_impl, (js_sort_sorted compareEntries).
  intros a b _ _. unfold cmp_le. by rewrite compareEntries_lex.
Qed.

Lemma elem_of_sorted_entries m k v : (k, v) ∈ sorted_entries m <-> m !! k = Some v.
Proof. unfold sorted_entries. rewrite elem_of_js_sort. apply elem_of_map_to_list. Qed.

(** ** The store contract *)

Class KVStore (S : Type) := {
  kv_get : S -> bytes -> res (option bytes);
  kv_put : S -> bytes -> bytes -> res S;
  kv_delete : S -> bytes -> res S;
  kv_iterate : S -> IterateOptions -> res (list kventry);
  kv_write : S -> list BatchOp -> res S;
  kv_ok : S -> Prop;
  kv_abs : S -> kvmap
}.

Class KVStoreLaws (S : Type) `{KVStore S} : Prop := {
  kv_abs_wf : forall s k v, kv_ok s -> kv_abs s !! k = Some v -> wf_bytes k;
  kv_get_spec : forall s k, kv_ok s -> wf_bytes k -> kv_get s k = Ok (kv_abs s !! k);
  kv_put_spec : forall s k v, kv_ok s -> wf_bytes k ->
    exists s', kv_put s k v = Ok s' /\ kv_ok s' /\ kv_abs s' = <[k := v]> (kv_abs s);
  kv_delete_spec : forall s k, kv_ok s -> wf_bytes k ->
    exists s', kv_delete s k = Ok s' /\ kv_ok s' /\ kv_abs s' = delete k (kv_abs s);
  kv_iterate_spec : forall s o, kv_ok s -> wf_options o ->
    kv_iterate s o = Ok (spec_iterate o (kv_abs s));
  kv_write_spec : forall s ops, kv_ok s -> Forall (fun op => wf_bytes (op_key op)) ops ->
    exists s', kv_write s ops = Ok s' /\ kv_ok s' /\ kv_abs s' = apply_ops (kv_abs s) ops
}.

(** ** memory-store.ts *)

Module MemoryStore.

Record InMemoryKVStore := mkStore {
  data : gmap jsstring kventry;
  closed : bool
}.

Definition new_store : InMemoryKVStore := mkStore ∅ false.

Definition checkOpen (s : InMemoryKVStore) : res unit :=
  if closed s then Throw EClosed else Ok tt.

Definition get (s : InMemoryKVStore) (key : bytes) : res (option bytes) :=
  let* _ := checkOpen s in
  Ok (snd <$> data s !! Bytes.bytesToHex key).

Definition put (s : InMemoryKVStore) (key value : bytes) : res InMemoryKVStore :=
  let* _ := checkOpen s in
  Ok (mkStore (<[Bytes.bytesToHex key := (key, value)]> (data s)) (closed s)).

Definition delete_ (s : InMemoryKVStore) (key : bytes) : res InMemoryKVStore :=
  let* _ := checkOpen s in
  Ok (mkStore (delete (Bytes.bytesToHex key) (data s)) (closed s)).

Definition has (s : InMemoryKVStore) (key : bytes) : res bool :=
  let* _ := checkOpen s in
  Ok (bool_decide (is_Some (data s !! Bytes.bytesToHex key))).

(** [localeCompare] on the hexadecimal alphabet and the JS operators [<], [>]
    on strings are both code-unit order here. *)
Definition compareHex (a b : jsstring) : Z :=
  match lex Z.compare a b with Lt => -1 | Eq => 0 | Gt => 1 end.
Definition str_lt (a b : jsstring) : bool := is_lt (lex Z.compare a b).
Definition str_gt (a b : jsstring) : bool := is_gt (lex Z.compare a b).
Definition str_le (a b : jsstring) : bool := negb (str_gt a b).
Definition str_ge (a b : jsstring) : bool := negb (str_lt a b).

Definition when (bound : option jsstring) (p : jsstring -> bool) : bool :=
  match bound with
  | Some b => p b
  | None => false
  end.

Definition limit_reached (lim : option Z) (count : Z) : bool :=
  match lim with
  | Some n => n <=? count
  | None => false
  end.

(** The loop of [iterate]: [continue] goes on with [rest], [break] returns. *)
Fixpoint iterate_loop (reverse : bool) (gteHex gtHex lteHex ltHex : option jsstring)
    (lim : option Z) (count : Z) (entries : list (jsstring * kventry)) : list kventry :=
  match entries with
  | [] => []
  | (keyHex, (key, value)) :: rest =>
    let continue_ := iterate_loop reverse gteHex gtHex lteHex ltHex lim count rest in
    let yield :=
      if limit_reached lim count then []
      else (key, value) :: iterate_loop reverse gteHex gtHex lteHex ltHex lim (count + 1) rest in
    if reverse then
      if when lteHex (str_gt keyHex) then continue_
      else if when ltHex (str_ge keyHex) then continue_
      else if when gteHex (str_lt keyHex) then []
      else if when gtHex (str_le keyHex) then []
      else yield
    else
      if when gteHex (str_lt keyHex) then continue_
      else if when gtHex (str_le keyHex) then continue_
      else if when lteHex (str_gt keyHex) then []
      else if when ltHex (str_ge keyHex) then []
      else yield
  end.

Definition compareHexEntries (a b : jsstring * kventry) : Z := compareHex a.1 b.1.

Definition iterate (s : InMemoryKVStore) (options : IterateOptions) : res (list kventry) :=
  let* _ := checkOpen s in
  let entries := js_sort compareHexEntries (map_to_list (data s)) in
  let entries := if o_reverse options then reverse entries else entries in
  Ok (iterate_loop (o_reverse options)
        (Bytes.bytesToHex <$> o_gte options) (Bytes.bytesToHex <$> o_gt options)
        (Bytes.bytesToHex <$> o_lte options) (Bytes.bytesToHex <$> o_lt options)
        (o_limit options) 0 entries).

(** [batch().write()]: each queued operation in order, through [put] and
    [delete]. *)
Fixpoint batch_write (s : InMemoryKVStore) (ops : list BatchOp) : res InMemoryKVStore :=
  match ops with
  | [] => Ok s
  | OpPut k v :: ops' => let* s' := put s k v in batch_write s' ops'
  | OpDelete k :: ops' => let* s' := delete_ s k in batch_write s' ops'
  end.

Definition close (s : InMemoryKVStore) : InMemoryKVStore := mkStore ∅ true.

Definition clear (s : InMemoryKVStore) : res InMemoryKVStore :=
  let* _ := checkOpen s in
  Ok (mkStore ∅ (closed s)).

Definition approximateCount (s : InMemoryKVStore) (options : option IterateOptions) : res Z :=
  let* _ := checkOpen s in
  match options with
  | None => Ok (Z.of_nat (size (data s)))
  | Some o => let* l := iterate s o in Ok (Z.of_nat (length l))
  end.

(** *** Invariant and abstraction *)

(** An open store files every entry under the hexadecimal text of its key. *)
Definition store_ok (s : InMemoryKVStore) : Prop :=
  closed s = false /\
  map_Forall (fun hex e => hex = Bytes.bytesToHex e.1 /\ wf_bytes e.1) (data s).

Definition store_abs (s : InMemoryKVStore) : kvmap := list_to_map (snd <$> map_to_list (data s)).

Lemma entries_keys_nodup s :
  store_ok s -> NoDup ((snd <$> map_to_list (data s)).*1).
Proof.
  intros [_ Hwf]. rewrite <- list_fmap_compose.
  pose proof (NoDup_map_to_list (data s)) as Hnd.
  assert (Hall : Forall (fun e => e.1 = Bytes.bytesToHex e.2.1 /\ wf_bytes e.2.1) (map_to_list (data s))).
  { apply Forall_forall. intros [hex e] Hin%elem_of_map_to_list. apply (Hwf hex e Hin). }
  pose proof (NoDup_fst_map_to_list (data s)) as Hfst. revert Hfst Hall.
  induction (map_to_list (data s)) as [|[hex e] l IH]; intros Hfst Hall; simpl; [constructor|].
  apply NoDup_cons in Hfst as [Hni Hfst]. apply Forall_cons in Hall as [[Hhex Hw] Hall].
  apply NoDup_cons in Hnd as [_ Hnd]. constructor; [|by apply IH].
  intros Hin. apply list_elem_of_fmap in Hin as ([hex' e'] & Heq & Hin). simpl in *.
  apply Hni, list_elem_of_fmap. exists (hex', e'). split; [|done].
  rewrite Forall_forall in Hall. destruct (Hall _ Hin) as [-> _]. simpl. by rewrite Hhex, Heq.
Qed.

Lemma store_abs_lookup s k :
  store_ok s -> wf_bytes k -> store_abs s !! k = snd <$> data s !! Bytes.bytesToHex k.
Proof.
  intros Hok Hk. pose proof (entries_keys_nodup s Hok) as Hnd. destruct Hok as [_ Hwf].
  apply option_eq. intros v. unfold store_abs. rewrite <- elem_of_list_to_map by done.
  rewrite list_elem_of_fmap, fmap_Some. split.
  - intros ([hex e] & He & Hin%elem_of_map_to_list). simpl in He. subst e.
    destruct (Hwf _ _ Hin) as [-> _]. by exists (k, v).
  - intros ([k' v'] & Hl & ->). destruct (Hwf _ _ Hl) as [Hhex Hw]. simpl in *.
    apply Bytes.bytesToHex_inj in Hhex as ->; [|done..].
    exists (Bytes.bytesToHex k', (k', v')). split; [done|]. by apply elem_of_map_to_list.
Qed.

Lemma store_abs_wf s k v : store_ok s -> store_abs s !! k = Some v -> wf_bytes k.
Proof.
  intros Hok Hl. unfold store_abs in Hl. apply elem_of_list_to_map_2 in Hl.
  apply list_elem_of_fmap in Hl as ([hex e] & He & Hin%elem_of_map_to_list).
  simpl in He. subst. by destruct Hok as [_ Hwf]; destruct (Hwf _ _ Hin).
Qed.

(** Two abstract stores whose keys are byte strings agree when they agree on
    byte strings. *)
Lemma kvmap_eq_wf (m1 m2 : kvmap) :
  (forall k v, m1 !! k = Some v -> wf_bytes k) -> (forall k v, m2 !! k = Some v -> wf_bytes k) ->
  (forall k, wf_bytes k -> m1 !! k = m2 !! k) -> m1 = m2.
Proof.
  intros H1 H2 H. apply map_eq. intros k. destruct (m1 !! k) as [v|] eqn:E1.
  - by rewrite <- E1, H by eauto.
  - destruct (m2 !! k) as [v|] eqn:E2; [|done]. rewrite H, E2 in E1 by eauto. done.
Qed.

Lemma put_ok s k v :
  store_ok s -> wf_bytes k ->
  exists s', put s k v = Ok s' /\ store_ok s' /\ store_abs s' = <[k := v]> (store_abs s).
Proof.
  intros Hok Hk. eexists. unfold put, checkOpen. destruct Hok as [Hc Hwf]. rewrite Hc.
  split; [done|].
  assert (Hok' : store_ok (mkStore (<[Bytes.bytesToHex k:=(k, v)]> (data s)) (closed s))).
  { split; [done|]. by apply map_Forall_insert_2. }
  rewrite Hc in Hok'. split; [done|].
  apply kvmap_eq_wf; [eauto using store_abs_wf| |].
  - intros k' v'. rewrite lookup_insert. case_decide; [by subst|]. eapply store_abs_wf. by split.
  - intros k' Hk'. rewrite store_abs_lookup by done. simpl.
    destruct (decide (k = k')) as [->|Hne].
    + by rewrite !lookup_insert_eq.
    + rewrite !lookup_insert_ne by (done || intros ?%Bytes.bytesToHex_inj; done).
      by rewrite store_abs_lookup.
Qed.

Lemma delete_ok s k :
  store_ok s -> wf_bytes k ->
  exists s', delete_ s k = Ok s' /\ store_ok s' /\ store_abs s' = delete k (store_abs s).
Proof.
  intros Hok Hk. eexists. unfold delete_, checkOpen. destruct Hok as [Hc Hwf]. rewrite Hc.
  split; [done|].
  assert (Hok' : store_ok (mkStore (delete (Bytes.bytesToHex k) (data s)) (closed s))).
  { split; [done|]. by apply map_Forall_delete. }
  rewrite Hc in Hok'. split; [done|].
  apply kvmap_eq_wf; [eauto using store_abs_wf| |].
  - intros k' v'. rewrite lookup_delete. case_decide; [done|]. eapply store_abs_wf. by split.
  - intros k' Hk'. rewrite store_abs_lookup by done. simpl.
    destruct (decide (k = k')) as [->|Hne].
    + by rewrite !lookup_delete_eq.
    + rewrite !lookup_delete_ne by (done || intros ?%Bytes.bytesToHex_inj; done).
      by rewrite store_abs_lookup.
Qed.

Lemma batch_write_ok s ops :
  store_ok s -> Forall (fun op => wf_bytes (op_key op)) ops ->
  exists s', batch_write s ops = Ok s' /\ store_ok s' /\ store_abs s' = apply_ops (store_abs s) ops.
Proof.
  intros Hok Hops; revert s Hok; induction Hops as [|[k v|k] ops Hk Hops IH]; intros s Hok; simpl.
  - eauto.
  - destruct (put_ok s k v Hok Hk) as (s1 & -> & Hok1 & Habs). simpl.
    destruct (IH s1 Hok1) as (s2 & -> & Hok2 & Habs2).
    exists s2. by rewrite Habs2, Habs.
  - destruct (delete_ok s k Hok Hk) as (s1 & -> & Hok1 & Habs). simpl.
    destruct (IH s1 Hok1) as (s2 & -> & Hok2 & Habs2).
    exists s2. by rewrite Habs2, Habs.
Qed.

(** *** Range scans *)

Definition filed (e : jsstring * kventry) : Prop :=
  e.1 = Bytes.bytesToHex e.2.1 /\ wf_bytes e.2.1.

Lemma when_spec (b : option bytes) (p q : comparison -> bool) k :
  wf_bytes k -> wf_bound b -> (forall c, p c = negb (q c)) ->
  when (Bytes.bytesToHex <$> b) (fun h => p (lex Z.compare (Bytes.bytesToHex k) h))
  = negb (test b q k).
Proof.
  intros Hk Hb Hpq. destruct b as [b|]; simpl; [|done].
  rewrite Bytes.bytesToHex_lex by done. apply Hpq.
Qed.

Definition scan_skip (o : IterateOptions) (e : kventry) : bool :=
  negb (if o_reverse o then upper_ok o e.1 else lower_ok o e.1).
Definition scan_stop (o : IterateOptions) (e : kventry) : bool :=
  negb (if o_reverse o then lower_ok o e.1 else upper_ok o e.1).

(** The loop on well-filed entries is a scan of their keys. *)
Lemma iterate_loop_scan o count E :
  wf_options o -> Forall filed E ->
  iterate_loop (o_reverse o)
    (Bytes.bytesToHex <$> o_gte o) (Bytes.bytesToHex <$> o_gt o)
    (Bytes.bytesToHex <$> o_lte o) (Bytes.bytesToHex <$> o_lt o) (o_limit o) count E
  = scan (scan_skip o) (scan_stop o) (o_limit o) count (snd <$> E).
Proof.
  intros (H1 & H2 & H3 & H4) HE; revert count.
  induction HE as [|[hex [k v]] E [Hhex Hw] HE IH]; intros count; [done|].
  cbn [iterate_loop fmap list_fmap scan snd]. simpl in Hhex, Hw. subst hex. rewrite !IH.
  unfold scan_skip, scan_stop, lower_ok, upper_ok.
  pose proof (when_spec (o_gte o) is_lt (fun c => negb (is_lt c)) k Hw H1) as W1.
  pose proof (when_spec (o_gt o) (fun c => negb (is_gt c)) is_gt k Hw H2) as W2.
  pose proof (when_spec (o_lte o) is_gt (fun c => negb (is_gt c)) k Hw H3) as W3.
  pose proof (when_spec (o_lt o) (fun c => negb (is_lt c)) is_lt k Hw H4) as W4.
  unfold str_lt, str_gt, str_le, str_ge, str_lt, str_gt.
  rewrite W1, W2, W3, W4 by (by intros []). unfold limit_reached. simpl fst.
  by destruct (o_reverse o), (test (o_gte o) _ k), (test (o_gt o) _ k), (test (o_lte o) _ k), (test (o_lt o) _ k).
Qed.

Lemma compareHex_sgn a b : sgn (compareHex a b) = lex Z.compare a b.
Proof. unfold compareHex. by destruct (lex Z.compare a b). Qed.

#[global] Instance compareHexEntries_laws : CmpLaws (fun a b => sgn (compareHexEntries a b)).
Proof.
  unfold compareHexEntries. split; intros *; rewrite !compareHex_sgn.
  - apply (cmp_opp (lex Z.compare)).
  - apply (cmp_trans (lex Z.compare)).
  - apply (cmp_eq_l (lex Z.compare)).
Qed.

Lemma filed_entries s : store_ok s -> Forall filed (map_to_list (data s)).
Proof.
  intros [_ Hwf]. apply Forall_forall. intros [hex e] Hin%elem_of_map_to_list. apply (Hwf _ _ Hin).
Qed.

Lemma abs_to_list s : store_ok s -> map_to_list (store_abs s) ≡ₚ snd <$> map_to_list (data s).
Proof. intros Hok. apply map_to_list_to_map. by apply entries_keys_nodup. Qed.

(** Sorting by hexadecimal text is sorting by key bytes. *)
Lemma sorted_hex_entries s :
  store_ok s ->
  snd <$> js_sort compareHexEntries (map_to_list (data s)) = sorted_entries (store_abs s).
Proof.
  intros Hok. unfold sorted_entries. symmetry. apply (sorted_perm_unique compareEntries).
  - intros [k v] [k' v'] Hx Hy Heq. rewrite elem_of_js_sort, elem_of_map_to_list in Hx, Hy.
    apply (cmp_eq (fun a b => sgn (Bytes.compareBytes a b))) in Heq. simpl in Heq. subst k'.
    congruence.
  - apply js_sort_sorted, _.
  - pose proof (js_sort_sorted compareHexEntries (map_to_list (data s))) as Hs.
    assert (HE : Forall filed (js_sort compareHexEntries (map_to_list (data s)))).
    { rewrite js_sort_perm. by apply filed_entries. }
    induction Hs as [|[hex [k v]] l Hs IH Hall]; [constructor|].
    apply Forall_cons in HE as [[Hhex Hw] HE]. simpl in Hhex, Hw. subst hex.
    constructor; [by apply IH|]. apply Forall_fmap.
    rewrite Forall_forall in Hall, HE. apply Forall_forall. intros [hex [k' v']] Hin.
    specialize (Hall _ Hin). destruct (HE _ Hin) as [Hhex Hw']. simpl in Hhex, Hw'. subst hex.
    unfold cmp_le, compareHexEntries, compareEntries in *. simpl in *.
    rewrite compareHex_sgn, Bytes.bytesToHex_lex in Hall by done.
    by rewrite Bytes.compareBytes_lex.
  - by rewrite !js_sort_perm, abs_to_list.
Qed.

Lemma scan_in_range o e : wanted (scan_skip o) (scan_stop o) e = in_range o e.1.
Proof.
  unfold wanted, scan_skip, scan_stop, in_range. rewrite !negb_involutive.
  destruct (o_reverse o); [apply andb_comm|done].
Qed.

Lemma scan_entries_ordered o m :
  scan_ordered (scan_skip o) (scan_stop o)
    (if o_reverse o then reverse (sorted_entries m) else sorted_entries m).
Proof.
  unfold scan_ordered. destruct (o_reverse o) eqn:Er.
  - eapply StronglySorted_impl, StronglySorted_reverse, sorted_entries_sorted.
    intros x y _ _ Hxy _ Hst. rewrite scan_in_range. unfold scan_stop in Hst. rewrite Er in Hst.
    unfold in_range. destruct (lower_ok o y.1) eqn:El; [|done].
    by rewrite (lower_ok_mono o y.1 x.1) in Hst.
  - eapply StronglySorted_impl, sorted_entries_sorted.
    intros x y _ _ Hxy _ Hst. rewrite scan_in_range. unfold scan_stop in Hst. rewrite Er in Hst.
    unfold in_range. destruct (upper_ok o y.1) eqn:El; [|by rewrite andb_false_r].
    by rewrite (upper_ok_mono o x.1 y.1) in Hst.
Qed.

Lemma filter_scan o l :
  List.filter (wanted (scan_skip o) (scan_stop o)) (if o_reverse o then reverse l else l)
  = if o_reverse o then reverse (List.filter (fun e => in_range o e.1) l)
    else List.filter (fun e => in_range o e.1) l.
Proof.
  assert (H : List.filter (wanted (scan_skip o) (scan_stop o)) l
              = List.filter (fun e => in_range o e.1) l).
  { apply filter_ext. intros e. apply scan_in_range. }
  destruct (o_reverse o); by rewrite ?bfilter_reverse, H.
Qed.

Lemma iterate_ok s o :
  store_ok s -> wf_options o -> iterate s o = Ok (spec_iterate o (store_abs s)).
Proof.
  intros Hok Ho. unfold iterate, checkOpen. pose proof Hok as [-> _]. cbn [res_bind].
  rewrite iterate_loop_scan; [|done|].
  2: { destruct (o_reverse o); [apply Forall_reverse|]; rewrite js_sort_perm; by apply filed_entries. }
  rewrite scan_spec.
  - unfold spec_iterate. cbv zeta. rewrite <- sorted_hex_entries, <- filter_scan by done.
    destruct (o_reverse o); rewrite ?fmap_reverse; destruct (o_limit o) as [n|]; try done;
      cbn [take_limit fmap option_fmap option_map]; by rewrite Z.sub_0_r.
  - pose proof (scan_entries_ordered o (store_abs s)) as H.
    rewrite <- sorted_hex_entries in H by done. by destruct (o_reverse o); rewrite ?fmap_reverse.
Qed.

#[global] Instance memory_KVStore : KVStore InMemoryKVStore := {|
  kv_get := get; kv_put := put; kv_delete := delete_; kv_iterate := iterate;
  kv_write := batch_write; kv_ok := store_ok; kv_abs := store_abs
|}.

#[global] Instance memory_KVStoreLaws : KVStoreLaws InMemoryKVStore.
Proof.
  split; simpl.
  - apply store_abs_wf.
  - intros s k Hok Hk. unfold get, checkOpen. rewrite store_abs_lookup by done. by destruct Hok as [-> _].
  - apply put_ok.
  - apply delete_ok.
  - apply iterate_ok.
  - apply batch_write_ok.
Qed.

Lemma new_store_ok : store_ok new_store.
Proof. by split. Qed.

Lemma new_store_abs : store_abs new_store = ∅.
Proof. unfold store_abs, new_store. simpl. by rewrite map_to_list_empty. Qed.

(** C26: The in-memory store refines the abstract ordered map: after any batch
    of writes, point reads, membership and range scans (any combination of the
    four bounds, either direction, any limit) answer as the finite map that
    batch denotes, with the later of two writes to a key winning; and a scan
    lists its keys in byte order.  A closed store refuses every operation. *)
Theorem memory_store_refines (ops : list BatchOp) (o : IterateOptions) (k : bytes) :
  Forall (fun op => wf_bytes (op_key op)) ops -> wf_options o -> wf_bytes k ->
  exists s, batch_write new_store ops = Ok s /\
    get s k = Ok (apply_ops ∅ ops !! k) /\
    has s k = Ok (bool_decide (is_Some (apply_ops ∅ ops !! k))) /\
    iterate s o = Ok (spec_iterate o (apply_ops ∅ ops)) /\
    StronglySorted (fun a b => Bytes.compareBytes a.1 b.1 <= 0) (sorted_entries (apply_ops ∅ ops)) /\
    get (close s) k = Throw EClosed /\ iterate (close s) o = Throw EClosed /\
    clear (close s) = Throw EClosed.
Proof.
  intros Hops Ho Hk. destruct (batch_write_ok new_store ops new_store_ok Hops) as (s & -> & Hok & Habs).
  rewrite new_store_abs in Habs. rewrite <- Habs. exists s.
  pose proof (store_abs_lookup s k Hok Hk) as Hl. pose proof Hok as [Hc _].
  split_and!; try done.
  - unfold get, checkOpen. by rewrite Hc, Hl.
  - unfold has, checkOpen. rewrite Hc. cbn [res_bind]. f_equal. apply bool_decide_ext.
    rewrite Hl. by rewrite fmap_is_Some.
  - by apply iterate_ok.
  - eapply StronglySorted_impl, sorted_entries_sorted. intros a b _ _ H. cbv beta in H.
    rewrite <- Bytes.compareBytes_lex in H.
    destruct (Z.le_gt_cases (Bytes.compareBytes a.1 b.1) 0) as [?|Hgt]; [done|].
    apply sgn_gt in Hgt. done.
Qed.

Lemma memory_store_refines_witness :
  exists s, batch_write new_store [OpPut [2] [20]; OpPut [1; 255] [7]; OpPut [2] [21]; OpDelete [1; 255];
                                  OpPut [1] [9]] = Ok s /\
    iterate s (mkOptions (Some [1]) None None (Some [3]) true (Some 5)) = Ok [([2], [21]); ([1], [9])].
Proof.
  destruct (memory_store_refines [OpPut [2] [20]; OpPut [1; 255] [7]; OpPut [2] [21]; OpDelete [1; 255];
                                  OpPut [1] [9]]
              (mkOptions (Some [1]) None None (Some [3]) true (Some 5)) [1])
    as (s & Hs & _ & _ & Hi & _).
  - repeat constructor; vm_compute; congruence.
  - repeat split; try (repeat constructor; vm_compute; congruence).
  - repeat constructor; vm_compute; congruence.
  - exists s. split; [exact Hs|]. rewrite Hi. vm_compute. reflexivity.
Defined.

End MemoryStore.
