(* ===== verification/PagedIterate.v ===== *)
(** * Paged range scans

    Models [packages/quereus-store/src/common/paged-iterate.ts]: the loop that
    drives a backend without a streaming cursor (IndexedDB, SQLite) as a range
    scan, one bounded batch at a time.  The backend read is an argument; the
    contract [FetchBatch] documents is the hypothesis [fetch_honest]. *)

From S2P Require Import Prelude Bytes KvStore.
From Stdlib Require Import ZArith Lia.
From stdpp Require Import sorting.
From stdpp Require Import base tactics numbers sets gmap list.
#[local] Open Scope Z_scope.

Module PagedIterate.

Definition DEFAULT_BATCH_SIZE : Z := 256.

Definition FetchBatch : Type := IterateOptions -> Z -> list kventry.

Record Edge := mkEdge { edge_key : bytes; edge_open : bool }.

Definition edgesOf (options : IterateOptions) : option Edge * option Edge :=
  let lower := match o_gte options, o_gt options with
               | Some k, _ => Some (mkEdge k false)
               | None, Some k => Some (mkEdge k true)
               | None, None => None
               end in
  let upper := match o_lte options, o_lt options with
               | Some k, _ => Some (mkEdge k false)
               | None, Some k => Some (mkEdge k true)
               | None, None => None
               end in
  (lower, upper).

Definition isEmptyRange (lower upper : option Edge) : bool :=
  match lower, upper with
  | Some l, Some u =>
    let c := Bytes.compareBytes (edge_key l) (edge_key u) in
    (0 <? c) || ((c =? 0) && (edge_open l || edge_open u))
  | _, _ => false
  end.

Definition boundsOf (lower upper : option Edge) (reverse : bool) : IterateOptions :=
  mkOptions
    (match lower with Some l => if edge_open l then None else Some (edge_key l) | None => None end)
    (match lower with Some l => if edge_open l then Some (edge_key l) else None | None => None end)
    (match upper with Some u => if edge_open u then None else Some (edge_key u) | None => None end)
    (match upper with Some u => if edge_open u then Some (edge_key u) else None | None => None end)
    reverse None.

(** What the generator produced: the entries it yielded, then the error that
    ended it, if any.  [None] is a run longer than the fuel. *)
Definition outcome : Type := list kventry * option js_error.

Definition yield_then (batch : list kventry) (k : option outcome) : option outcome :=
  match k with
  | Some (l, e) => Some (batch ++ l, e)
  | None => None
  end.

Fixpoint paged_loop (fuel : nat) (fetchBatch : FetchBatch) (batchSize : Z) (reverse : bool)
    (lower upper : option Edge) (remaining : option Z) (resumeKey : option bytes) : option outcome :=
  match fuel with
  | O => None
  | S fuel' =>
    if (match remaining with Some r => r <=? 0 | None => false end) then Some ([], None)
    else
      let want := match remaining with Some r => Z.min batchSize r | None => batchSize end in
      let effLower := match resumeKey with
                      | Some k => if negb reverse then Some (mkEdge k true) else lower
                      | None => lower
                      end in
      let effUpper := match resumeKey with
                      | Some k => if reverse then Some (mkEdge k true) else upper
                      | None => upper
                      end in
      if isEmptyRange effLower effUpper then Some ([], None)
      else
        let batch := fetchBatch (boundsOf effLower effUpper reverse) want in
        if want <? Z.of_nat (length batch)
        then Some ([], Some (EBatchTooLong (length batch) (Z.to_nat want)))
        else
          let nextResumeKey := fst <$> last batch in
          let remaining' := match remaining with
                            | Some r => Some (r - Z.of_nat (length batch))
                            | None => None
                            end in
          if Z.of_nat (length batch) <? want then Some (batch, None)
          else yield_then batch
                 (paged_loop fuel' fetchBatch batchSize reverse lower upper remaining' nextResumeKey)
  end.

Definition pagedIterate (fuel : nat) (options : IterateOptions) (fetchBatch : FetchBatch)
    (batchSize : Z) : option outcome :=
  if batchSize <? 1 then Some ([], Some EBadBatchSize)
  else
    let '(lower, upper) := edgesOf options in
    paged_loop fuel fetchBatch batchSize (o_reverse options) lower upper (o_limit options) None.

(** ** Correctness *)

(** The options as the loop reads them: where both forms of a bound are given,
    the inclusive one counts. *)
Definition normalize (o : IterateOptions) : IterateOptions :=
  let '(lower, upper) := edgesOf o in
  let b := boundsOf lower upper (o_reverse o) in
  mkOptions (o_gte b) (o_gt b) (o_lte b) (o_lt b) (o_reverse o) (o_limit o).

Definition above (e : option Edge) (k : bytes) : bool :=
  match e with
  | Some l => if edge_open l then is_gt (blex k (edge_key l)) else negb (is_lt (blex k (edge_key l)))
  | None => true
  end.

Definition below (e : option Edge) (k : bytes) : bool :=
  match e with
  | Some u => if edge_open u then is_lt (blex k (edge_key u)) else negb (is_gt (blex k (edge_key u)))
  | None => true
  end.

Lemma in_range_bounds l u r k : in_range (boundsOf l u r) k = above l k && below u k.
Proof.
  unfold in_range, lower_ok, upper_ok, boundsOf, above, below, test. simpl.
  destruct l as [[kl []]|], u as [[ku []]|]; simpl; by rewrite ?andb_true_r.
Qed.

Lemma above_ge e k k' : above e k = true -> blex k k' <> Gt -> above e k' = true.
Proof.
  intros H Hk.
  pose proof (lower_ok_mono (boundsOf e None false) k k' Hk) as Hm.
  pose proof (in_range_bounds e None false k) as E1.
  pose proof (in_range_bounds e None false k') as E2.
  unfold in_range in E1, E2. simpl in E1, E2. rewrite !andb_true_r in E1, E2.
  rewrite E1, E2 in Hm. auto.
Qed.

Lemma below_le e k k' : below e k' = true -> blex k k' <> Gt -> below e k = true.
Proof.
  intros H Hk.
  pose proof (upper_ok_mono (boundsOf None e false) k k' Hk) as Hm.
  pose proof (in_range_bounds None e false k) as E1.
  pose proof (in_range_bounds None e false k') as E2.
  unfold in_range in E1, E2. simpl in E1, E2. rewrite E1, E2 in Hm. auto.
Qed.

(** An empty range holds no key. *)
Lemma above_lex l k : above (Some l) k = true -> blex (edge_key l) k <> Gt.
Proof.
  unfold above. rewrite (cmp_opp blex k (edge_key l)).
  destruct (edge_open l), (blex k (edge_key l)); simpl; done.
Qed.

Lemma below_lex u k : below (Some u) k = true -> blex k (edge_key u) <> Gt.
Proof. unfold below. destruct (edge_open u), (blex k (edge_key u)); simpl; done. Qed.

Lemma isEmptyRange_none l u k : isEmptyRange l u = true -> above l k && below u k = false.
Proof.
  intros H. destruct (above l k && below u k) eqn:E; [|done].
  destruct l as [l|], u as [u|]; try done. apply andb_true_iff in E as [Ha Hb].
  pose proof (above_lex _ _ Ha) as Hl. pose proof (below_lex _ _ Hb) as Hu.
  pose proof (cmp_le_trans blex _ _ _ Hl Hu) as Hlu. unfold isEmptyRange in H. cbv zeta in H.
  rewrite <- Bytes.compareBytes_lex in Hlu.
  rewrite sgn_0_ltb in H. destruct (sgn (Bytes.compareBytes _ _)) eqn:Es; simpl in H; [| |done].
  - rewrite Bytes.compareBytes_lex in Es. apply (cmp_eq blex) in Es.
    apply andb_true_iff in H as [_ H]. unfold above, below in Ha, Hb. rewrite Es in *.
    rewrite (cmp_opp blex k (edge_key u)) in Hl.
    destruct (edge_open l), (edge_open u), (blex k (edge_key u)); simpl in *; done.
  - apply sgn_lt in Es. rewrite (proj2 (Z.eqb_neq _ 0)) in H; [done|]. intros Heq.
    by rewrite Heq in Es.
Qed.

(** *** Strictly ordered scans *)

Section Scan.
Context (rev : bool).

(** [k] comes strictly before [k'] in scan direction. *)
Definition before (k k' : bytes) : bool :=
  if rev then is_gt (blex k k') else is_lt (blex k k').

Lemma before_trans k1 k2 k3 : before k1 k2 = true -> before k2 k3 = true -> before k1 k3 = true.
Proof.
  unfold before. destruct rev.
  - destruct (blex k1 k2) eqn:E1, (blex k2 k3) eqn:E2; try done. intros _ _.
    by rewrite (cmp_trans blex Gt k1 k2 k3).
  - destruct (blex k1 k2) eqn:E1, (blex k2 k3) eqn:E2; try done. intros _ _.
    by rewrite (cmp_trans blex Lt k1 k2 k3).
Qed.

Lemma before_irrefl k : before k k = false.
Proof. unfold before. rewrite (cmp_refl blex). by destruct rev. Qed.

Definition strictly (l : list kventry) : Prop := StronglySorted (fun a b => before a.1 b.1 = true) l.

(** What is left of a strictly ordered list past the last element of a prefix. *)
Lemma filter_past (B R : list kventry) k v :
  strictly (B ++ R) -> last B = Some (k, v) ->
  List.filter (fun e => before k e.1) (B ++ R) = R.
Proof.
  intros Hs Hl. rewrite List.filter_app.
  apply StronglySorted_app in Hs as (Hbr & Hb & Hr).
  assert (Hk : (k, v) ∈ B) by (apply last_Some in Hl as [l' ->]; set_solver).
  replace (List.filter _ B) with (@nil kventry); simpl.
  - clear Hl Hb Hr. induction R as [|e R IH]; simpl; [done|].
    assert (before k e.1 = true) as -> by (apply (Hbr (k, v) e); [done|constructor]).
    f_equal. apply IH.
    intros x y Hx Hy. apply Hbr; [done|by constructor].
  - apply last_Some in Hl as [B' ->]. apply StronglySorted_app in Hb as (Hbb & Hb & _).
    rewrite List.filter_app. simpl. rewrite before_irrefl, app_nil_r. symmetry.
    assert (Hall : forall e, e ∈ B' -> before k e.1 = false).
    { intros e He. destruct (before k e.1) eqn:E; [|done].
      pose proof (Hbb e (k, v) He) as H. rewrite <- (before_irrefl k).
      symmetry. eapply before_trans; [exact E|]. apply H. constructor. }
    clear -Hall. induction B' as [|e B' IH]; simpl; [done|].
    rewrite Hall by constructor. apply IH. intros x Hx. apply Hall. by constructor.
Qed.

End Scan.

(** The entries of a range in scan direction are strictly ordered. *)
Definition range (o : IterateOptions) (m : kvmap) : list kventry :=
  let l := List.filter (fun e => in_range o e.1) (sorted_entries m) in
  if o_reverse o then reverse l else l.

Lemma filter_StronglySorted {A} (R : relation A) (f : A -> bool) l :
  StronglySorted R l -> StronglySorted R (List.filter f l).
Proof.
  induction 1 as [|x l Hs IH Hall]; simpl; [constructor|]. destruct (f x); [|done].
  constructor; [done|]. rewrite Forall_forall in *. intros y Hy. apply Hall.
  apply list_elem_of_In, filter_In in Hy as [Hy _]. by apply list_elem_of_In.
Qed.

Lemma sorted_entries_strict m :
  StronglySorted (fun a b => blex a.1 b.1 = Lt) (sorted_entries m).
Proof.
  pose proof (sorted_entries_sorted m) as Hs.
  assert (Hnd : NoDup (sorted_entries m).*1).
  { unfold sorted_entries. rewrite js_sort_perm. apply NoDup_fst_map_to_list. }
  induction Hs as [|x l Hs IH Hall]; [constructor|].
  apply NoDup_cons in Hnd as [Hni Hnd]. constructor; [by apply IH|].
  rewrite Forall_forall in *. intros y Hy. specialize (Hall y Hy).
  destruct (blex x.1 y.1) eqn:E; [|done|done]. apply (cmp_eq blex) in E.
  destruct Hni. rewrite E. by apply list_elem_of_fmap_2.
Qed.

Lemma range_strict o m : strictly (o_reverse o) (range o m).
Proof.
  unfold range, strictly, before. cbv zeta. destruct (o_reverse o).
  - eapply StronglySorted_impl, StronglySorted_reverse, filter_StronglySorted, sorted_entries_strict.
    unfold flip. simpl. intros x y _ _ H. apply (cmp_lt_gt blex) in H. by rewrite H.
  - eapply StronglySorted_impl, filter_StronglySorted, sorted_entries_strict.
    intros x y _ _ H. by rewrite H.
Qed.

(** *** The loop *)

Section Loop.
Context (m : kvmap) (o : IterateOptions) (fetchBatch : FetchBatch) (batchSize : Z).

(** A backend read returns the first [want] entries of the range it is asked
    for, a full batch whenever one is available. *)
Definition fetch_honest : Prop :=
  forall bounds want, o_limit bounds = None -> 0 <= want ->
    fetchBatch bounds want = take (Z.to_nat want) (spec_iterate bounds m).

Definition lower := (edgesOf o).1.
Definition upper := (edgesOf o).2.

Definition eff_lower (resume : option bytes) : option Edge :=
  match resume with
  | Some k => if negb (o_reverse o) then Some (mkEdge k true) else lower
  | None => lower
  end.
Definition eff_upper (resume : option bytes) : option Edge :=
  match resume with
  | Some k => if o_reverse o then Some (mkEdge k true) else upper
  | None => upper
  end.

(** What is left to yield when the last yielded key is [resume]. *)
Definition left_of (resume : option bytes) : list kventry :=
  match resume with
  | None => range (normalize o) m
  | Some k => List.filter (fun e => before (o_reverse o) k e.1) (range (normalize o) m)
  end.

Definition resume_ok (resume : option bytes) : Prop :=
  match resume with
  | None => True
  | Some k => exists v, (k, v) ∈ range (normalize o) m
  end.

Lemma in_range_normalize k : in_range (normalize o) k = above lower k && below upper k.
Proof.
  unfold normalize, lower, upper. destruct (edgesOf o) as [l u]. simpl.
  rewrite <- (in_range_bounds l u (o_reverse o)). done.
Qed.

Lemma o_reverse_normalize : o_reverse (normalize o) = o_reverse o.
Proof. unfold normalize. by destruct (edgesOf o). Qed.

Lemma in_range_eff k v k' :
  (k, v) ∈ range (normalize o) m ->
  above (eff_lower (Some k)) k' && below (eff_upper (Some k)) k'
  = in_range (normalize o) k' && before (o_reverse o) k k'.
Proof.
  intros Hin. assert (Hk : above lower k = true /\ below upper k = true).
  { unfold range in Hin. rewrite o_reverse_normalize in Hin.
    apply andb_true_iff. rewrite <- in_range_normalize.
    destruct (o_reverse o); rewrite ?elem_of_reverse in Hin; apply bfilter_elem in Hin; apply Hin. }
  destruct Hk as [Ha Hb]. rewrite in_range_normalize.
  unfold eff_lower, eff_upper, before. destruct (o_reverse o); simpl negb; cbv iota.
  - cbn [below edge_open edge_key]. rewrite (cmp_opp blex k k').
    destruct (blex k k') eqn:E; simpl; rewrite ?andb_false_r, ?andb_true_r; try done.
    rewrite (below_le upper k' k Hb); [by rewrite andb_true_r|].
    rewrite (cmp_opp blex k k'), E. done.
  - cbn [above edge_open edge_key]. rewrite (cmp_opp blex k k').
    destruct (blex k k') eqn:E; simpl; rewrite ?andb_false_r, ?andb_true_r; try done.
    rewrite (above_ge lower k k' Ha); [done|]. by rewrite E.
Qed.

Lemma eff_range resume :
  resume_ok resume ->
  spec_iterate (boundsOf (eff_lower resume) (eff_upper resume) (o_reverse o)) m = left_of resume.
Proof.
  intros Hr. unfold spec_iterate, left_of, range. cbv zeta. cbn [o_limit o_reverse boundsOf take_limit].
  rewrite o_reverse_normalize.
  destruct resume as [k|].
  - destruct Hr as [v Hin].
    assert (Hf : List.filter (fun e => in_range (boundsOf (eff_lower (Some k)) (eff_upper (Some k))
                    (o_reverse o)) e.1) (sorted_entries m)
      = List.filter (fun e => before (o_reverse o) k e.1)
          (List.filter (fun e => in_range (normalize o) e.1) (sorted_entries m))).
    { rewrite bfilter_bfilter. apply filter_ext. intros e.
      rewrite in_range_bounds. by eapply in_range_eff. }
    rewrite Hf. destruct (o_reverse o) eqn:E; [|done]. by rewrite bfilter_reverse.
  - assert (Hf : List.filter (fun e => in_range (boundsOf (eff_lower None) (eff_upper None)
                    (o_reverse o)) e.1) (sorted_entries m)
      = List.filter (fun e => in_range (normalize o) e.1) (sorted_entries m)).
    { apply filter_ext. intros e. by rewrite in_range_bounds, in_range_normalize. }
    by rewrite Hf.
Qed.

Lemma left_strict resume : strictly (o_reverse o) (left_of resume).
Proof.
  pose proof (range_strict (normalize o) m) as Hs. rewrite o_reverse_normalize in Hs.
  destruct resume; simpl; [by apply filter_StronglySorted|done].
Qed.

(** Past a batch that is a prefix of what is left, the rest of it is left. *)
Lemma left_next resume B R k v :
  resume_ok resume -> left_of resume = B ++ R -> last B = Some (k, v) ->
  resume_ok (Some k) /\ left_of (Some k) = R.
Proof.
  intros Hr Hl Hlast. pose proof (left_strict resume) as Hs. rewrite Hl in Hs.
  assert (Hin : (k, v) ∈ left_of resume).
  { rewrite Hl. apply last_Some in Hlast as [B' ->]. set_solver. }
  destruct resume as [k0|]; simpl in *.
  - apply bfilter_elem in Hin as [Hin Hb]. split; [by exists v|].
    rewrite <- (filter_past (o_reverse o) B R k v) by done. rewrite <- Hl, bfilter_bfilter.
    apply filter_ext. intros e. destruct (before (o_reverse o) k e.1) eqn:E; [|by rewrite andb_false_r].
    rewrite (before_trans (o_reverse o) k0 k e.1) by done. done.
  - split; [by exists v|]. rewrite Hl. by eapply filter_past.
Qed.

Lemma left_empty resume :
  resume_ok resume -> isEmptyRange (eff_lower resume) (eff_upper resume) = true -> left_of resume = [].
Proof.
  intros Hr He. rewrite <- eff_range by done. unfold spec_iterate. cbn [o_limit boundsOf take_limit].
  assert (Hf : List.filter (fun e => in_range (boundsOf (eff_lower resume) (eff_upper resume)
                  (o_reverse o)) e.1) (sorted_entries m) = []).
  { apply filter_none_b. intros e _. rewrite in_range_bounds. by apply isEmptyRange_none. }
  cbv zeta. rewrite Hf. by destruct (o_reverse _).
Qed.

Lemma paged_loop_ok fuel remaining resume :
  fetch_honest -> 1 <= batchSize -> resume_ok resume -> (length (left_of resume) < fuel)%nat ->
  paged_loop fuel fetchBatch batchSize (o_reverse o) lower upper remaining resume
  = Some (take_limit remaining (left_of resume), None).
Proof.
  intros Hf Hbs. revert remaining resume; induction fuel as [|fuel IH]; intros remaining resume Hr Hlen; [lia|].
  cbn [paged_loop]. fold (eff_lower resume) (eff_upper resume).
  destruct (match remaining with Some r => r <=? 0 | None => false end) eqn:Erem.
  { destruct remaining as [r|]; [|done]. apply Z.leb_le in Erem. simpl.
    by replace (Z.to_nat r) with 0%nat by lia. }
  set (want := match remaining with Some r => Z.min batchSize r | None => batchSize end).
  assert (Hw : 1 <= want /\ (forall r, remaining = Some r -> want <= r)).
  { unfold want. destruct remaining as [r|]; [|done]. apply Z.leb_gt in Erem.
    split; [lia|]. intros ? [= <-]. lia. }
  destruct Hw as [Hw1 Hwr].
  destruct (isEmptyRange _ _) eqn:Ee.
  { rewrite left_empty by done. destruct remaining; simpl; by rewrite ?take_nil. }
  rewrite Hf, eff_range by (done || lia).
  pose proof (length_take (left_of resume) (Z.to_nat want)) as Hlt.
  destruct (Z.ltb_spec want (Z.of_nat (length (take (Z.to_nat want) (left_of resume))))); [lia|].
  destruct (Z.ltb_spec (Z.of_nat (length (take (Z.to_nat want) (left_of resume)))) want) as [Hsh|Hfull].
  { rewrite take_ge by lia. destruct remaining as [r|]; [|done]. simpl.
    specialize (Hwr r eq_refl). by rewrite take_ge by lia. }
  destruct (last (take (Z.to_nat want) (left_of resume))) as [[k v]|] eqn:Elast.
  2: { apply last_None in Elast. rewrite Elast in Hlt, Hfull. simpl in *. lia. }
  destruct (left_next resume (take (Z.to_nat want) (left_of resume))
              (drop (Z.to_nat want) (left_of resume)) k v) as [Hr' Hl']; [done| |done|].
  { by rewrite take_drop. }
  cbn [fmap option_fmap option_map fst]. rewrite IH; [|done|rewrite Hl', length_drop; lia].
  rewrite Hl'. cbn [yield_then]. do 2 f_equal.
  destruct remaining as [r|]; simpl take_limit; [|by rewrite take_drop].
  specialize (Hwr r eq_refl).
  rewrite <- (take_drop (Z.to_nat want) (left_of resume)) at 4.
  rewrite take_app. f_equal; [rewrite take_take; f_equal; lia|]. f_equal. lia.
Qed.

End Loop.

Lemma normalize_single o :
  (o_gte o = None \/ o_gt o = None) -> (o_lte o = None \/ o_lt o = None) -> normalize o = o.
Proof.
  destruct o as [a b c d r l]. unfold normalize, edgesOf, boundsOf. simpl.
  intros [->| ->] [->| ->]; destruct a, b || idtac; repeat case_match; simplify_eq; done.
Qed.

(** C25: Paging loses nothing and repeats nothing: whatever the batch size, over
    a backend that honours the [FetchBatch] contract the paged scan yields
    exactly the entries of the range, in scan order and up to the limit, and
    ends without an error after at most one round per entry plus one; a batch
    size below 1 is rejected before any read.  When a side has both an
    inclusive and an exclusive bound the inclusive one counts; otherwise the
    options are taken as given. *)
Theorem pagedIterate_complete (m : kvmap) (o : IterateOptions) (fetchBatch : FetchBatch)
    (batchSize : Z) (fuel : nat) :
  fetch_honest m fetchBatch -> (length (range (normalize o) m) < fuel)%nat ->
  pagedIterate fuel o fetchBatch batchSize
  = (if batchSize <? 1 then Some ([], Some EBadBatchSize)
     else Some (spec_iterate (normalize o) m, None)) /\
  ((o_gte o = None \/ o_gt o = None) -> (o_lte o = None \/ o_lt o = None) ->
   spec_iterate (normalize o) m = spec_iterate o m).
Proof.
  intros Hf Hfuel. split; [|intros H1 H2; by rewrite normalize_single].
  unfold pagedIterate. destruct (Z.ltb_spec batchSize 1); [done|].
  pose proof (paged_loop_ok m o fetchBatch batchSize fuel (o_limit o) None Hf ltac:(lia) I Hfuel) as H'.
  unfold lower, upper in H'. unfold spec_iterate, left_of, range in *.
  unfold normalize at 1. destruct (edgesOf o) as [l u]. simpl in *. exact H'.
Qed.

Lemma pagedIterate_complete_witness :
  let m : kvmap := apply_ops ∅ [OpPut [1] [10]; OpPut [2] [20]; OpPut [2; 0] [25]; OpPut [3] [30]] in
  let fetch : FetchBatch := fun b want => take (Z.to_nat want) (spec_iterate b m) in
  pagedIterate 9 (mkOptions None (Some [1]) (Some [3]) None true None) fetch 2
  = Some ([([3], [30]); ([2; 0], [25]); ([2], [20])], None).
Proof.
  intros m fetch.
  destruct (pagedIterate_complete m (mkOptions None (Some [1]) (Some [3]) None true None) fetch 2 9)
    as [H _]; [by intros ? ? ? ?|vm_compute; lia|].
  rewrite H. vm_compute. reflexivity.
Defined.

End PagedIterate.
