(* ===== verification/Transaction.v ===== *)
(** * Transaction coordinator

    Models [packages/quereus-store/src/common/transaction.ts]: the module-wide
    write buffer shared by every table of a storage module, its savepoints, its
    last-write-wins index and its commit.

    A store handle is a number (object identity); the stores themselves are a
    finite map from handles to abstract key-value maps ([world]).  What the
    coordinator calls and cannot control (whether there is an emitter, whether
    the provider offers an atomic batch, whether a write or a commit callback
    throws) is the record [env].  A write that throws leaves its stores as they
    were (the [WriteBatch] and [AtomicBatch] contract of [kv-store.ts]);
    [emitDataChange] catches what a listener throws, so emitting cannot fail.
    Each call runs to its end before the next one starts. *)

From S2P Require Import Prelude Bytes KvStore.
From Stdlib Require Import ZArith Lia.
From stdpp Require Import sorting.
From stdpp Require Import base tactics numbers sets gmap list.
#[local] Open Scope Z_scope.

Module Transaction.

Abbreviation world := (gmap nat kvmap).

Section Coordinator.
Context {Event : Type}.

Record PendingOp := mkOp { op_store : nat; op_op : BatchOp }.

Record PendingBucket := mkBucket {
  puts : gmap jsstring kventry;
  deletes : gset jsstring
}.

Definition EMPTY_PENDING : PendingBucket := mkBucket ∅ ∅.

Record OrderedPendingOps := mkOrdered {
  ordered_puts : list kventry;
  ordered_deletes : gset jsstring
}.

Record SavepointSnapshot := mkSnap { opIndex : nat; eventIndex : nat }.

Record TransactionCoordinator := mkCoord {
  inTransaction : bool;
  pendingOps : list PendingOp;
  pendingEvents : list Event;
  savepointStack : list SavepointSnapshot;
  callbacks : list nat;
  pendingIndex : gmap nat PendingBucket
}.

Definition new_coordinator : TransactionCoordinator := mkCoord false [] [] [] [] ∅.

Definition set_log (st : TransactionCoordinator) ops events stack index : TransactionCoordinator :=
  mkCoord (inTransaction st) ops events stack (callbacks st) index.

Definition bucketIn (index : gmap nat PendingBucket) (store : nat) : PendingBucket :=
  default EMPTY_PENDING (index !! store).

(** The index update shared by [put], [delete] and [replayOps]. *)
Definition bucket_op (b : PendingBucket) (op : BatchOp) : PendingBucket :=
  match op with
  | OpPut key value =>
    let hex := Bytes.bytesToHex key in
    mkBucket (<[hex := (key, value)]> (puts b)) (deletes b ∖ {[hex]})
  | OpDelete key =>
    let hex := Bytes.bytesToHex key in
    mkBucket (delete hex (puts b)) (deletes b ∪ {[hex]})
  end.

Definition index_op (index : gmap nat PendingBucket) (op : PendingOp) : gmap nat PendingBucket :=
  <[op_store op := bucket_op (bucketIn index (op_store op)) (op_op op)]> index.

Definition orderedView (bucket : option PendingBucket) : OrderedPendingOps :=
  match bucket with
  | None => mkOrdered [] ∅
  | Some b =>
    if bool_decide (size (puts b) = 0%nat) && bool_decide (size (deletes b) = 0%nat)
    then mkOrdered [] ∅
    else mkOrdered (js_sort compareEntries (map_to_list (puts b)).*2) (deletes b)
  end.

Definition registerCallbacks (st : TransactionCoordinator) (cb : nat) : TransactionCoordinator :=
  mkCoord (inTransaction st) (pendingOps st) (pendingEvents st) (savepointStack st)
    (callbacks st ++ [cb]) (pendingIndex st).

Fixpoint remove_first (cb : nat) (l : list nat) : list nat :=
  match l with
  | [] => []
  | x :: l' => if decide (x = cb) then l' else x :: remove_first cb l'
  end.

(** The disposer [registerCallbacks] returns. *)
Definition disposeCallbacks (st : TransactionCoordinator) (cb : nat) : TransactionCoordinator :=
  mkCoord (inTransaction st) (pendingOps st) (pendingEvents st) (savepointStack st)
    (remove_first cb (callbacks st)) (pendingIndex st).

Definition begin (st : TransactionCoordinator) : TransactionCoordinator :=
  if inTransaction st then st else mkCoord true [] [] [] (callbacks st) ∅.

Definition push_op (st : TransactionCoordinator) (op : PendingOp) : TransactionCoordinator :=
  set_log st (pendingOps st ++ [op]) (pendingEvents st) (savepointStack st)
    (index_op (pendingIndex st) op).

Definition put (st : TransactionCoordinator) (key value : bytes) (store : nat)
    : res TransactionCoordinator :=
  if negb (inTransaction st) then Throw EMisuse
  else Ok (push_op st (mkOp store (OpPut key value))).

Definition delete_ (st : TransactionCoordinator) (key : bytes) (store : nat)
    : res TransactionCoordinator :=
  if negb (inTransaction st) then Throw EMisuse
  else Ok (push_op st (mkOp store (OpDelete key))).

(** Outside a transaction the event goes to the emitter, if there is one, at
    once (the second result). *)
Definition queueEvent (emitter : bool) (st : TransactionCoordinator) (event : Event)
    : TransactionCoordinator * list Event :=
  if negb (inTransaction st) then (st, if emitter then [event] else [])
  else (set_log st (pendingOps st) (pendingEvents st ++ [event]) (savepointStack st)
          (pendingIndex st), []).

Definition clearTransaction (st : TransactionCoordinator) : TransactionCoordinator :=
  mkCoord false [] [] [] (callbacks st) ∅.

(** ** Commit *)

(** [atomicBatch]: what the factory yields, [Some fails] for a batch whose
    write throws when [fails]. *)
Record env := mkEnv {
  eventEmitter : bool;
  atomicBatch : option bool;
  write_fails : nat -> bool;
  onCommit_throws : nat -> bool;
  onRollback_throws : nat -> bool
}.

Inductive effect : Type :=
| Emit (e : Event)
| OnCommit (cb : nat)
| OnRollback (cb : nat).

Fixpoint group_insert (g : list (nat * list BatchOp)) (store : nat) (op : BatchOp)
    : list (nat * list BatchOp) :=
  match g with
  | [] => [(store, [op])]
  | (s, ops) :: g' =>
    if decide (s = store) then (s, ops ++ [op]) :: g' else (s, ops) :: group_insert g' store op
  end.

(** [opsByStore]: each store once, in the order of its first op. *)
Definition opsByStore (l : list PendingOp) : list (nat * list BatchOp) :=
  foldl (fun g op => group_insert g (op_store op) (op_op op)) [] l.

Definition write_store (w : world) (g : nat * list BatchOp) : world :=
  <[g.1 := apply_ops (default ∅ (w !! g.1)) g.2]> w.

Definition write_atomic (w : world) (groups : list (nat * list BatchOp)) : world :=
  foldl write_store w groups.

(** The fallback: one batch per store, in order, up to the first that fails. *)
Fixpoint write_each (en : env) (w : world) (groups : list (nat * list BatchOp)) : world * bool :=
  match groups with
  | [] => (w, true)
  | g :: groups' =>
    if write_fails en g.1 then (w, false) else write_each en (write_store w g) groups'
  end.

Definition commit_writes (en : env) (w : world) (ops : list PendingOp) : world * bool :=
  match ops with
  | [] => (w, true)
  | _ =>
    match atomicBatch en with
    | Some fails => if fails then (w, false) else (write_atomic w (opsByStore ops), true)
    | None => write_each en w (opsByStore ops)
    end
  end.

(** The [onCommit] loop: the callbacks that ran, and whether all did. *)
Fixpoint notify_commit (en : env) (l : list nat) : list effect * bool :=
  match l with
  | [] => ([], true)
  | cb :: l' =>
    if onCommit_throws en cb then ([], false)
    else let '(es, ok) := notify_commit en l' in (OnCommit cb :: es, ok)
  end.

(** The [onRollback] loop, up to the first callback that throws. *)
Fixpoint notify_rollback (en : env) (l : list nat) : list effect * bool :=
  match l with
  | [] => ([], true)
  | cb :: l' =>
    if onRollback_throws en cb then ([], false)
    else let '(es, ok) := notify_rollback en l' in (OnRollback cb :: es, ok)
  end.

Definition emit_all (en : env) (l : list Event) : list effect :=
  if eventEmitter en then map Emit l else [].

(** The final state, the stores, the notifications that returned, in order, and
    whether the commit resolved ([false]: it threw).  A callback that throws in
    the [finally] block skips [clearTransaction]. *)
Definition commit (en : env) (st : TransactionCoordinator) (w : world)
    : TransactionCoordinator * world * list effect * bool :=
  if negb (inTransaction st) then (st, w, [], true)
  else
    let failed (es : list effect) (w' : world) :=
      let '(es', cleaned) := notify_rollback en (callbacks st) in
      (if cleaned then clearTransaction st else st, w', es ++ es', false) in
    let '(w', written) := commit_writes en w (pendingOps st) in
    if negb written then failed [] w'
    else
      let es1 := emit_all en (pendingEvents st) in
      let '(es2, notified) := notify_commit en (callbacks st) in
      if negb notified then failed (es1 ++ es2) w'
      else (clearTransaction st, w', es1 ++ es2, true).

Definition rollback (en : env) (st : TransactionCoordinator) : TransactionCoordinator * list effect * bool :=
  if negb (inTransaction st) then (st, [], true)
  else
    let '(es, notified) := notify_rollback en (callbacks st) in
    (if notified then clearTransaction st else st, es, notified).

(** ** Savepoints *)

Definition createSavepoint (st : TransactionCoordinator) (depth : nat) : TransactionCoordinator :=
  let st := if negb (inTransaction st) then begin st else st in
  if negb (length (savepointStack st) =? depth)%nat then st
  else set_log st (pendingOps st) (pendingEvents st)
         (savepointStack st ++ [mkSnap (length (pendingOps st)) (length (pendingEvents st))])
         (pendingIndex st).

Definition releaseSavepoint (st : TransactionCoordinator) (targetDepth : nat) : TransactionCoordinator :=
  if (length (savepointStack st) <? targetDepth)%nat then st
  else set_log st (pendingOps st) (pendingEvents st) (take targetDepth (savepointStack st))
         (pendingIndex st).

Definition replayOps (st : TransactionCoordinator) (opCount : nat) : gmap nat PendingBucket :=
  foldl index_op ∅ (take opCount (pendingOps st)).

Definition rebuildPendingIndex (st : TransactionCoordinator) : TransactionCoordinator :=
  set_log st (pendingOps st) (pendingEvents st) (savepointStack st)
    (replayOps st (length (pendingOps st))).

Definition rollbackToSavepoint (st : TransactionCoordinator) (targetDepth : nat)
    : TransactionCoordinator :=
  match savepointStack st !! targetDepth with
  | None => st
  | Some snapshot =>
    let st1 := set_log st (take (opIndex snapshot) (pendingOps st))
                 (take (eventIndex snapshot) (pendingEvents st)) (savepointStack st) (pendingIndex st) in
    let st2 := rebuildPendingIndex st1 in
    set_log st2 (pendingOps st2) (pendingEvents st2)
      (take (S targetDepth) (savepointStack st2)) (pendingIndex st2)
  end.

(** ** Log rewriting *)

(** The [while] of [rewriteLog]: savepoints from [depth] on that sit at old
    position [i] move to [newlen]. *)
Fixpoint move_savepoints (stack : list SavepointSnapshot) (i newlen : nat)
    : list SavepointSnapshot * list SavepointSnapshot :=
  match stack with
  | [] => ([], [])
  | sp :: stack' =>
    if (opIndex sp =? i)%nat then
      let '(moved, rest) := move_savepoints stack' i newlen in
      (mkSnap newlen (eventIndex sp) :: moved, rest)
    else ([], stack)
  end.

(** The [for] of [rewriteLog] from old position [i], with the ops that remain,
    the savepoints not yet passed, and the new log so far; [expand] sees an
    op with its position, which stands for its identity. *)
Fixpoint rewrite_loop (expand : nat -> PendingOp -> list PendingOp) (i : nat)
    (ops : list PendingOp) (stack : list SavepointSnapshot) (log : list PendingOp)
    : list PendingOp * list SavepointSnapshot :=
  let '(moved, rest) := move_savepoints stack i (length log) in
  match ops with
  | [] => (log, moved ++ rest)
  | op :: ops' =>
    let '(log', rest') := rewrite_loop expand (S i) ops' rest (log ++ expand i op) in
    (log', moved ++ rest')
  end.

Definition rewriteLog (st : TransactionCoordinator)
    (expand : nat -> PendingOp -> list PendingOp) : TransactionCoordinator :=
  let '(log, stack) := rewrite_loop expand 0 (pendingOps st) (savepointStack st) [] in
  rebuildPendingIndex (set_log st log (pendingEvents st) stack (pendingIndex st)).

Record DerivedOp := mkDerived { d_key : bytes; d_value : option bytes }.

Definition DeriveOps : Type := option bytes -> option bytes -> list DerivedOp.

Definition derived_batch (d : DerivedOp) : BatchOp :=
  match d_value d with
  | None => OpDelete (d_key d)
  | Some value => OpPut (d_key d) value
  end.

Definition derived_op (target : nat) (d : DerivedOp) : PendingOp := mkOp target (derived_batch d).

Definition op_value (op : BatchOp) : option bytes :=
  match op with
  | OpPut _ v => Some v
  | OpDelete _ => None
  end.

(** The loop of [queueDerivedOps]: the ops [target] owes for each op of the
    log, none for ops of other stores; [latest] is the last value seen per key
    and [source_get] the committed read. *)
Fixpoint derive_loop (source target : nat) (source_get : bytes -> res (option bytes))
    (derive : DeriveOps) (latest : gmap jsstring (option bytes)) (ops : list PendingOp)
    : res (list (list PendingOp)) :=
  match ops with
  | [] => Ok []
  | op :: ops' =>
    if decide (op_store op = source) then
      let hex := Bytes.bytesToHex (op_key (op_op op)) in
      let* before := match latest !! hex with
                     | Some v => Ok v
                     | None => source_get (op_key (op_op op))
                     end in
      let after := op_value (op_op op) in
      let* rest := derive_loop source target source_get derive (<[hex := after]> latest) ops' in
      Ok (map (derived_op target) (derive before after) :: rest)
    else
      let* rest := derive_loop source target source_get derive latest ops' in
      Ok ([] :: rest)
  end.

Definition queueDerivedOps (st : TransactionCoordinator) (source target : nat)
    (source_get : bytes -> res (option bytes)) (derive : DeriveOps) : res TransactionCoordinator :=
  let* derived := derive_loop source target source_get derive ∅ (pendingOps st) in
  if bool_decide (Exists (fun op => op_store op = source) (pendingOps st))
  then Ok (rewriteLog st (fun i op => op :: nth i derived []))
  else Ok st.

Definition discardOpsFor (st : TransactionCoordinator) (store : nat) : TransactionCoordinator :=
  match pendingIndex st !! store with
  | Some _ => rewriteLog st (fun _ op => if decide (op_store op = store) then [] else [op])
  | None => st
  end.

(** ** Views *)

Definition getPendingOpsForStore (st : TransactionCoordinator) (store : nat) : PendingBucket :=
  default EMPTY_PENDING (pendingIndex st !! store).

Definition getOrderedPendingOps (st : TransactionCoordinator) (store : nat) : OrderedPendingOps :=
  orderedView (pendingIndex st !! store).

Definition getOrderedPendingOpsAtSavepoints (st : TransactionCoordinator) (store : nat)
    : list OrderedPendingOps :=
  map (fun sp => orderedView (replayOps st (opIndex sp) !! store)) (savepointStack st).

(** ** Runs of the coordinator *)

Inductive call : Type :=
| CBegin
| CPut (key value : bytes) (store : nat)
| CDelete (key : bytes) (store : nat)
| CQueueEvent (emitter : bool) (event : Event)
| CCreateSavepoint (depth : nat)
| CReleaseSavepoint (targetDepth : nat)
| CRollbackToSavepoint (targetDepth : nat)
| CQueueDerivedOps (source target : nat) (source_get : bytes -> res (option bytes)) (derive : DeriveOps)
| CDiscardOpsFor (store : nat)
| CRegister (cb : nat)
| CDispose (cb : nat)
| CCommit (en : env) (w : world)
| CRollback (en : env).

Definition or_else (st : TransactionCoordinator) (r : res TransactionCoordinator)
    : TransactionCoordinator :=
  match r with
  | Ok st' => st'
  | Throw _ => st
  end.

(** The state after a call; a call that throws leaves it unchanged. *)
Definition exec (st : TransactionCoordinator) (c : call) : TransactionCoordinator :=
  match c with
  | CBegin => begin st
  | CPut key value store => or_else st (put st key value store)
  | CDelete key store => or_else st (delete_ st key store)
  | CQueueEvent emitter event => (queueEvent emitter st event).1
  | CCreateSavepoint depth => createSavepoint st depth
  | CReleaseSavepoint d => releaseSavepoint st d
  | CRollbackToSavepoint d => rollbackToSavepoint st d
  | CQueueDerivedOps source target get derive =>
    or_else st (queueDerivedOps st source target get derive)
  | CDiscardOpsFor store => discardOpsFor st store
  | CRegister cb => registerCallbacks st cb
  | CDispose cb => disposeCallbacks st cb
  | CCommit en w => (commit en st w).1.1.1
  | CRollback en => (rollback en st).1.1
  end.

Definition run (st : TransactionCoordinator) (cs : list call) : TransactionCoordinator :=
  foldl exec st cs.

(** ** The invariant *)

Definition snap_le (a b : SavepointSnapshot) : Prop :=
  (opIndex a <= opIndex b)%nat /\ (eventIndex a <= eventIndex b)%nat.

Definition snap_in (st : TransactionCoordinator) (sp : SavepointSnapshot) : Prop :=
  (opIndex sp <= length (pendingOps st))%nat /\ (eventIndex sp <= length (pendingEvents st))%nat.

(** The index is the log replayed, the savepoints are positions of the logs in
    order, and nothing is buffered outside a transaction. *)
Record coordinator_ok (st : TransactionCoordinator) : Prop := {
  ok_index : pendingIndex st = foldl index_op ∅ (pendingOps st);
  ok_bounds : Forall (snap_in st) (savepointStack st);
  ok_sorted : StronglySorted snap_le (savepointStack st);
  ok_idle : inTransaction st = false ->
    pendingOps st = [] /\ pendingEvents st = [] /\ savepointStack st = []
}.

(** *** Log rewriting, functionally *)

(** The ops that replace [ops], which start at position [i] of the old log. *)
Fixpoint expand_from (expand : nat -> PendingOp -> list PendingOp) (i : nat) (ops : list PendingOp)
    : list PendingOp :=
  match ops with
  | [] => []
  | op :: ops' => expand i op ++ expand_from expand (S i) ops'
  end.

Lemma expand_from_app expand i l1 l2 :
  expand_from expand i (l1 ++ l2)
  = expand_from expand i l1 ++ expand_from expand (i + length l1) l2.
Proof.
  revert i. induction l1 as [|op l1 IH]; intros i; cbn.
  - by rewrite Nat.add_0_r.
  - rewrite IH, app_assoc, Nat.add_succ_r. done.
Qed.

Lemma expand_from_ext e1 e2 i ops :
  (forall j op, ops !! j = Some op -> e1 (i + j)%nat op = e2 (i + j)%nat op) ->
  expand_from e1 i ops = expand_from e2 i ops.
Proof.
  revert i. induction ops as [|op ops IH]; intros i He; cbn; [done|].
  f_equal.
  - rewrite <- (Nat.add_0_r i). by apply He.
  - apply IH. intros j op' Hj. replace (S i + j)%nat with (i + S j)%nat by lia. by apply He.
Qed.

Definition moved_to (n : nat) (sp : SavepointSnapshot) : SavepointSnapshot :=
  mkSnap n (eventIndex sp).

Lemma move_savepoints_spec stack i n :
  StronglySorted snap_le stack -> Forall (fun sp => (i <= opIndex sp)%nat) stack ->
  exists A B, stack = A ++ B /\ move_savepoints stack i n = (map (moved_to n) A, B) /\
    Forall (fun sp => opIndex sp = i) A /\ Forall (fun sp => (S i <= opIndex sp)%nat) B.
Proof.
  induction stack as [|sp stack IH]; intros Hs Hi; cbn.
  { exists [], []. by repeat split. }
  apply StronglySorted_inv in Hs as [Hs Hle]. apply Forall_cons in Hi as [Hsp Hi].
  destruct (Nat.eqb_spec (opIndex sp) i) as [Heq|Hne].
  - destruct (IH Hs Hi) as (A & B & -> & -> & HA & HB).
    exists (sp :: A), B. repeat split; try done. by apply Forall_cons.
  - exists [], (sp :: stack). repeat split; [apply Forall_nil_2|].
    apply Forall_cons. split; [lia|].
    eapply Forall_impl; [exact Hle|]. intros x [Hx _]. lia.
Qed.

Lemma rewrite_loop_spec expand i ops stack log :
  StronglySorted snap_le stack ->
  Forall (fun sp => (i <= opIndex sp <= i + length ops)%nat) stack ->
  rewrite_loop expand i ops stack log
  = (log ++ expand_from expand i ops,
     map (fun sp => moved_to (length (log ++ expand_from expand i (take (opIndex sp - i) ops))) sp) stack).
Proof.
  revert i stack log. induction ops as [|op ops IH]; intros i stack log Hs Hi; cbn.
  all: destruct (move_savepoints_spec stack i (length log)) as (A & B & -> & -> & HA & HB);
    [done|eapply Forall_impl; [exact Hi|]; cbv beta; lia|].
  all: apply Forall_app in Hi as [_ Hi].
  - assert (B = []) as ->.
    { destruct B as [|sp B]; [done|]. apply Forall_cons in HB as [HB _].
      apply Forall_cons in Hi as [Hi _]. cbn in Hi. lia. }
    rewrite !app_nil_r. f_equal. apply map_ext. intros sp.
    destruct (opIndex sp - i)%nat; cbn; by rewrite app_nil_r.
  - rewrite IH.
    2: { clear -Hs. induction A as [|a A IHA]; [done|]. apply IHA.
         by apply StronglySorted_inv in Hs as [Hs _]. }
    2: { apply Forall_forall. intros sp Hsp. rewrite Forall_forall in HB, Hi.
         specialize (HB sp Hsp). specialize (Hi sp Hsp). cbn in Hi. lia. }
    rewrite <- app_assoc, map_app. f_equal. f_equal.
    + apply map_ext_in. intros sp Hsp%list_elem_of_In. rewrite Forall_forall in HA.
      rewrite (HA sp Hsp), Nat.sub_diag. cbn. by rewrite app_nil_r.
    + apply map_ext_in. intros sp Hsp%list_elem_of_In. rewrite Forall_forall in HB.
      specialize (HB sp Hsp). replace (opIndex sp - i)%nat with (S (opIndex sp - S i)) by lia.
      cbn. by rewrite <- app_assoc.
Qed.

Definition rewritten (expand : nat -> PendingOp -> list PendingOp) (st : TransactionCoordinator)
    : TransactionCoordinator :=
  let log := expand_from expand 0 (pendingOps st) in
  set_log st log (pendingEvents st)
    (map (fun sp => moved_to (length (expand_from expand 0 (take (opIndex sp) (pendingOps st)))) sp)
       (savepointStack st))
    (foldl index_op ∅ log).

Lemma rewriteLog_spec expand st : coordinator_ok st -> rewriteLog st expand = rewritten expand st.
Proof.
  intros Hok. unfold rewriteLog. rewrite rewrite_loop_spec; cycle 1.
  - apply Hok.
  - eapply Forall_impl; [apply Hok|]. intros sp [H _]. lia.
  - unfold rewritten, rebuildPendingIndex, replayOps, set_log; cbn. rewrite take_ge by lia.
    f_equal. apply map_ext. intros sp. by rewrite Nat.sub_0_r.
Qed.

Lemma expand_from_take_le expand ops n m :
  (n <= m)%nat ->
  (length (expand_from expand 0 (take n ops)) <= length (expand_from expand 0 (take m ops)))%nat.
Proof.
  intros Hnm. rewrite <- (take_drop n (take m ops)), take_take, Nat.min_l by done.
  rewrite expand_from_app, length_app. lia.
Qed.

Lemma rewritten_ok expand st : coordinator_ok st -> coordinator_ok (rewritten expand st).
Proof.
  intros [Hix Hb Hs Hidle]. split; unfold rewritten; cbn.
  - done.
  - apply Forall_fmap. eapply Forall_impl; [exact Hb|]. intros sp [H1 H2].
    split; cbn; [|done].
    rewrite <- (take_ge (pendingOps st) (length (pendingOps st))) at 2 by lia.
    by apply expand_from_take_le.
  - clear Hb Hidle. induction Hs as [|sp stack Hs IH Hle]; cbn; [constructor|]. constructor; [done|].
    apply Forall_fmap. eapply Forall_impl; [exact Hle|]. intros sp' [H1 H2].
    split; cbn; [by apply expand_from_take_le|done].
  - intros Ht. destruct (Hidle Ht) as (-> & -> & ->). done.
Qed.

Lemma clear_ok st : coordinator_ok (clearTransaction st).
Proof. split; cbn; try done; constructor. Qed.

Lemma begin_ok st : coordinator_ok st -> coordinator_ok (begin st).
Proof. intros Hok. unfold begin. destruct (inTransaction st); [done|]. split; cbn; try done; constructor. Qed.

Lemma push_op_ok st op : inTransaction st = true -> coordinator_ok st -> coordinator_ok (push_op st op).
Proof.
  intros Ht [Hix Hb Hs Hidle]. split; cbn; try done.
  - by rewrite foldl_app, <- Hix.
  - eapply Forall_impl; [exact Hb|]. intros sp [H1 H2]. split; cbn; [|done].
    rewrite length_app. lia.
  - by rewrite Ht.
Qed.

Lemma createSavepoint_ok st d : coordinator_ok st -> coordinator_ok (createSavepoint st d).
Proof.
  intros Hok. unfold createSavepoint.
  set (st0 := if negb (inTransaction st) then begin st else st).
  assert (coordinator_ok st0 /\ inTransaction st0 = true) as [H0 Ht].
  { subst st0. destruct (inTransaction st) eqn:E; cbn; [done|].
    split; [by apply begin_ok|]. unfold begin. by rewrite E. }
  clearbody st0. destruct (negb _); [done|].
  destruct H0 as [Hix Hb Hs Hidle]. split; cbn; try done.
  - apply Forall_app. split; [done|]. apply Forall_cons. split; [|constructor]. split; cbn; lia.
  - clear Hidle Hix. induction Hs as [|sp stack Hs IH Hle]; cbn; [repeat constructor|].
    apply Forall_cons in Hb as [Hsp Hb]. constructor; [by apply IH|].
    apply Forall_app. split; [done|]. by apply Forall_cons.
  - by rewrite Ht.
Qed.

Lemma StronglySorted_take {A} (R : relation A) n (l : list A) :
  StronglySorted R l -> StronglySorted R (take n l).
Proof.
  intros H. revert n. induction H as [|x l Hs IH Hx]; intros [|n]; cbn; try constructor; [done|].
  by apply Forall_take.
Qed.

Lemma sorted_below_last {A} (R : relation A) (l : list A) n x :
  (forall y, R y y) -> StronglySorted R l -> l !! n = Some x ->
  Forall (fun y => R y x) (take (S n) l).
Proof.
  intros Hrefl Hs. revert n. induction Hs as [|y l Hs IH Hy]; intros [|n] Hn; cbn in *; simplify_eq.
  - by apply Forall_cons.
  - apply Forall_cons. split; [|by apply IH].
    rewrite Forall_forall in Hy. apply Hy. by eapply list_elem_of_lookup_2.
Qed.

Lemma rollbackTo_spec st d sp :
  savepointStack st !! d = Some sp ->
  rollbackToSavepoint st d
  = set_log st (take (opIndex sp) (pendingOps st)) (take (eventIndex sp) (pendingEvents st))
      (take (S d) (savepointStack st)) (foldl index_op ∅ (take (opIndex sp) (pendingOps st))).
Proof.
  intros Hd. unfold rollbackToSavepoint. rewrite Hd.
  unfold rebuildPendingIndex, replayOps, set_log; cbn [pendingOps pendingEvents savepointStack].
  by rewrite (take_ge (take _ _)) by lia.
Qed.

Lemma rollbackToSavepoint_ok st d : coordinator_ok st -> coordinator_ok (rollbackToSavepoint st d).
Proof.
  intros Hok. destruct (savepointStack st !! d) as [sp|] eqn:Hd.
  2: { unfold rollbackToSavepoint. by rewrite Hd. }
  rewrite (rollbackTo_spec _ _ _ Hd). destruct Hok as [Hix Hb Hs Hidle].
  split; unfold set_log; cbn [pendingIndex pendingOps pendingEvents savepointStack inTransaction].
  - done.
  - assert (snap_in st sp) as [Hsp1 Hsp2].
    { rewrite Forall_forall in Hb. apply Hb. by eapply list_elem_of_lookup_2. }
    eapply Forall_impl; [apply (sorted_below_last snap_le _ _ sp); [by split|done|done]|].
    intros y [H1 H2]. split; cbn; rewrite length_take; lia.
  - by apply StronglySorted_take.
  - intros Ht. destruct (Hidle Ht) as (_ & _ & H). by rewrite H in Hd.
Qed.

Lemma set_events_ok st e :
  inTransaction st = true -> coordinator_ok st ->
  coordinator_ok (set_log st (pendingOps st) (pendingEvents st ++ [e]) (savepointStack st) (pendingIndex st)).
Proof.
  intros Ht [Hix Hb Hs Hidle]. split; cbn; try done.
  - eapply Forall_impl; [exact Hb|]. intros sp [H1 H2]. split; cbn; [done|].
    rewrite length_app. lia.
  - by rewrite Ht.
Qed.

Lemma releaseSavepoint_ok st d : coordinator_ok st -> coordinator_ok (releaseSavepoint st d).
Proof.
  intros Hok. unfold releaseSavepoint. destruct (_ <? _)%nat; [done|].
  destruct Hok as [Hix Hb Hs Hidle]. split; cbn; try done.
  - by apply Forall_take.
  - by apply StronglySorted_take.
  - intros Ht. destruct (Hidle Ht) as (-> & -> & ->). by rewrite take_nil.
Qed.

Lemma commit_state en st w :
  (commit en st w).1.1.1 = st \/ (commit en st w).1.1.1 = clearTransaction st.
Proof.
  unfold commit. destruct (inTransaction st); cbn; [|by left].
  destruct (notify_rollback _ _) as [es' []], (commit_writes _ _ _) as [w' []]; cbn; auto;
    destruct (notify_commit _ _) as [es []]; cbn; auto.
Qed.

Lemma rollback_state en st :
  (rollback en st).1.1 = st \/ (rollback en st).1.1 = clearTransaction st.
Proof.
  unfold rollback. destruct (inTransaction st); cbn; [|by left].
  destruct (notify_rollback _ _) as [es []]; cbn; auto.
Qed.

Lemma exec_ok st c : coordinator_ok st -> coordinator_ok (exec st c).
Proof.
  intros Hok. destruct c; cbn [exec].
  - by apply begin_ok.
  - unfold put. destruct (inTransaction st) eqn:Ht; cbn; [by apply push_op_ok|done].
  - unfold delete_. destruct (inTransaction st) eqn:Ht; cbn; [by apply push_op_ok|done].
  - unfold queueEvent. destruct (inTransaction st) eqn:Ht; cbn; [by apply set_events_ok|done].
  - by apply createSavepoint_ok.
  - by apply releaseSavepoint_ok.
  - by apply rollbackToSavepoint_ok.
  - unfold queueDerivedOps. destruct (derive_loop _ _ _ _ _ _) as [derived|]; cbn; [|done].
    case_bool_decide; cbn; [|done]. rewrite rewriteLog_spec by done. by apply rewritten_ok.
  - unfold discardOpsFor. destruct (pendingIndex st !! store); [|done].
    rewrite rewriteLog_spec by done. by apply rewritten_ok.
  - by destruct Hok.
  - by destruct Hok.
  - destruct (commit_state en st w) as [-> | ->]; [done|apply clear_ok].
  - destruct (rollback_state en st) as [-> | ->]; [done|apply clear_ok].
Qed.

Lemma run_ok st cs : coordinator_ok st -> coordinator_ok (run st cs).
Proof. unfold run. revert st. induction cs as [|c cs IH]; cbn; auto using exec_ok. Qed.

Lemma new_coordinator_ok : coordinator_ok new_coordinator.
Proof. split; cbn; try done; constructor. Qed.

(** *** What the index holds *)

Definition ops_of (store : nat) (log : list PendingOp) : list BatchOp :=
  op_op <$> filter (fun op => op_store op = store) log.

Definition wf_log (log : list PendingOp) : Prop :=
  Forall (fun op => wf_bytes (op_key (op_op op))) log.

Lemma ops_of_app store l1 l2 : ops_of store (l1 ++ l2) = ops_of store l1 ++ ops_of store l2.
Proof. unfold ops_of. by rewrite filter_app, fmap_app. Qed.

Lemma ops_of_cons store op l :
  ops_of store (op :: l)
  = if decide (op_store op = store) then op_op op :: ops_of store l else ops_of store l.
Proof. unfold ops_of. rewrite filter_cons. by destruct (decide _). Qed.

Lemma ops_of_wf store log :
  wf_log log -> Forall (fun op => wf_bytes (op_key op)) (ops_of store log).
Proof.
  intros H. unfold ops_of. apply Forall_fmap. apply Forall_forall. intros op Hop.
  apply list_elem_of_filter in Hop as [_ Hop]. unfold wf_log in H. rewrite Forall_forall in H.
  by apply H.
Qed.

Lemma index_fold log store :
  foldl index_op ∅ log !! store
  = match ops_of store log with
    | [] => None
    | ops => Some (foldl bucket_op EMPTY_PENDING ops)
    end.
Proof.
  induction log as [|op log IH] using rev_ind; [done|].
  rewrite foldl_snoc, ops_of_app, ops_of_cons. unfold index_op at 1.
  destruct (decide (op_store op = store)) as [->|Hne].
  - rewrite lookup_insert_eq. cbn. unfold bucketIn. rewrite IH.
    destruct (ops_of store log) as [|o ops]; [done|].
    cbn. by rewrite foldl_snoc.
  - rewrite lookup_insert_ne by done. cbn. by rewrite app_nil_r, IH.
Qed.

(** What a reader of a pending bucket over the committed map [m] sees at a key. *)
Definition pending_lookup (b : PendingBucket) (m : kvmap) (k : bytes) : option bytes :=
  let hex := Bytes.bytesToHex k in
  if bool_decide (hex ∈ deletes b) then None
  else match puts b !! hex with
       | Some e => Some e.2
       | None => m !! k
       end.

(** Every put is filed under the hex form of its own key, and no key is both
    put and deleted. *)
Record bucket_ok (b : PendingBucket) : Prop := {
  bucket_puts : forall hex e, puts b !! hex = Some e -> wf_bytes e.1 /\ hex = Bytes.bytesToHex e.1;
  bucket_disjoint : forall hex e, puts b !! hex = Some e -> hex ∉ deletes b
}.

Lemma bucket_op_ok b op : wf_bytes (op_key op) -> bucket_ok b -> bucket_ok (bucket_op b op).
Proof.
  intros Hk [Hp Hd]. destruct op as [k v|k]; cbn in *; split; intros hex e; cbn.
  - intros [[<- <-]|[Hne He]]%lookup_insert_Some; [done|]. by apply Hp.
  - intros [[<- <-]|[Hne He]]%lookup_insert_Some; [set_solver|]. apply Hd in He. set_solver.
  - intros [Hne He]%lookup_delete_Some. by apply Hp.
  - intros [Hne He]%lookup_delete_Some. apply Hd in He. set_solver.
Qed.

Lemma bucket_op_lookup b op m k :
  wf_bytes (op_key op) -> wf_bytes k ->
  pending_lookup (bucket_op b op) m k
  = if decide (k = op_key op) then op_value op else pending_lookup b m k.
Proof.
  intros Hop Hk. unfold pending_lookup. destruct (decide (k = op_key op)) as [->|Hne].
  - destruct op as [k v|k]; cbn.
    + rewrite bool_decide_false by set_solver. by rewrite lookup_insert_eq.
    + by rewrite bool_decide_true by set_solver.
  - assert (Bytes.bytesToHex k <> Bytes.bytesToHex (op_key op)) as Hhex.
    { intros H. by apply Bytes.bytesToHex_inj in H. }
    destruct op as [k' v|k']; cbn in *.
    + rewrite lookup_insert_ne by done.
      by rewrite (bool_decide_ext (_ ∈ _ ∖ _) (Bytes.bytesToHex k ∈ deletes b)) by set_solver.
    + rewrite lookup_delete_ne by done.
      by rewrite (bool_decide_ext (_ ∈ _ ∪ _) (Bytes.bytesToHex k ∈ deletes b)) by set_solver.
Qed.

Lemma apply_op_lookup m op k :
  apply_op m op !! k = if decide (k = op_key op) then op_value op else m !! k.
Proof.
  destruct op as [k' v|k']; cbn; destruct (decide (k = k')) as [->|Hne].
  - apply lookup_insert_eq.
  - by apply lookup_insert_ne.
  - apply lookup_delete_eq.
  - by apply lookup_delete_ne.
Qed.

Lemma bucket_fold ops m k :
  Forall (fun op => wf_bytes (op_key op)) ops -> wf_bytes k ->
  let b := foldl bucket_op EMPTY_PENDING ops in
  bucket_ok b /\ pending_lookup b m k = apply_ops m ops !! k.
Proof.
  intros Hops Hk. cbv zeta. induction ops as [|op ops IH] using rev_ind.
  { split; [split; intros hex e; cbn; by rewrite lookup_empty|].
    unfold pending_lookup; cbn. rewrite bool_decide_false by set_solver. by rewrite lookup_empty. }
  apply Forall_app in Hops as [Hops Hop]. apply Forall_cons in Hop as [Hop _].
  destruct (IH Hops) as [Hb Hl]. unfold apply_ops. rewrite !foldl_snoc. split.
  - by apply bucket_op_ok.
  - rewrite bucket_op_lookup, apply_op_lookup by done. by rewrite Hl.
Qed.

Lemma pending_for_store st store m k :
  coordinator_ok st -> wf_log (pendingOps st) -> wf_bytes k ->
  bucket_ok (getPendingOpsForStore st store) /\
  pending_lookup (getPendingOpsForStore st store) m k
  = apply_ops m (ops_of store (pendingOps st)) !! k.
Proof.
  intros Hok Hwf Hk. unfold getPendingOpsForStore. rewrite (ok_index _ Hok), index_fold.
  pose proof (bucket_fold _ m k (ops_of_wf store _ Hwf) Hk) as H.
  by destruct (ops_of store (pendingOps st)).
Qed.

(** *** What a commit writes *)

Definition content (w : world) (store : nat) : kvmap := default ∅ (w !! store).

Fixpoint group_ops (groups : list (nat * list BatchOp)) (store : nat) : list BatchOp :=
  match groups with
  | [] => []
  | (s, ops) :: groups' => (if decide (s = store) then ops else []) ++ group_ops groups' store
  end.

Lemma group_ops_absent groups store : store ∉ groups.*1 -> group_ops groups store = [].
Proof.
  induction groups as [|[s ops] groups IH]; cbn; [done|].
  intros [Hne Hin]%not_elem_of_cons. rewrite decide_False by congruence. by rewrite IH.
Qed.

Lemma group_insert_keys g s op x : x ∈ (group_insert g s op).*1 <-> x = s \/ x ∈ g.*1.
Proof.
  induction g as [|[s' ops] g IH]; cbn [group_insert fmap list_fmap fst]; [set_solver|].
  destruct (decide (s' = s)) as [->|]; cbn; rewrite !elem_of_cons; [naive_solver|].
  cbn in IH. rewrite IH. naive_solver.
Qed.

Lemma group_insert_nodup g s op : NoDup g.*1 -> NoDup (group_insert g s op).*1.
Proof.
  induction g as [|[s' ops] g IH]; cbn; [intros _; apply NoDup_singleton|].
  intros [Hs Hg]%NoDup_cons. destruct (decide (s' = s)); cbn; apply NoDup_cons; [done|].
  split; [|by apply IH]. rewrite group_insert_keys. naive_solver.
Qed.

Lemma group_ops_insert g s op store :
  NoDup g.*1 ->
  group_ops (group_insert g s op) store
  = group_ops g store ++ (if decide (s = store) then [op] else []).
Proof.
  induction g as [|[s' ops] g IH]; cbn; [intros _; by rewrite app_nil_r|].
  intros [Hs Hg]%NoDup_cons. destruct (decide (s' = s)) as [->|Hne]; cbn.
  - destruct (decide (s = store)) as [->|]; [|by rewrite app_nil_r].
    by rewrite (group_ops_absent g) by done; rewrite !app_nil_r.
  - by rewrite IH, app_assoc by done.
Qed.

Lemma opsByStore_spec log store :
  NoDup (opsByStore log).*1 /\ group_ops (opsByStore log) store = ops_of store log.
Proof.
  induction log as [|op log [IH1 IH2]] using rev_ind; [split; [constructor|done]|].
  unfold opsByStore in *. rewrite foldl_snoc. split; [by apply group_insert_nodup|].
  rewrite group_ops_insert, IH2, ops_of_app, ops_of_cons by done.
  by destruct (decide (op_store op = store)).
Qed.

Lemma write_stores_content w groups store :
  content (foldl write_store w groups) store = apply_ops (content w store) (group_ops groups store).
Proof.
  revert w. induction groups as [|[s ops] groups IH]; intros w; cbn; [done|].
  rewrite IH. unfold apply_ops. rewrite foldl_app. f_equal. unfold content, write_store; cbn.
  destruct (decide (s = store)) as [->|]; [by rewrite lookup_insert_eq|by rewrite lookup_insert_ne].
Qed.

Lemma write_each_spec en w groups :
  (exists n g, groups !! n = Some g /\ write_fails en g.1 = true /\
     write_each en w groups = (foldl write_store w (take n groups), false)) \/
  (Forall (fun g => write_fails en g.1 = false) groups /\
     write_each en w groups = (foldl write_store w groups, true)).
Proof.
  revert w. induction groups as [|g groups IH]; intros w; cbn; [right; by split|].
  destruct (write_fails en g.1) eqn:Hg; [left; by exists 0%nat, g|].
  destruct (IH (write_store w g)) as [(n & g' & Hn & Hf & ->)|[Hall ->]].
  - left. by exists (S n), g'.
  - right. split; [by apply Forall_cons|done].
Qed.

Lemma notify_commit_spec en cbs :
  (exists pre cb post, cbs = pre ++ cb :: post /\ onCommit_throws en cb = true /\
     notify_commit en cbs = (map OnCommit pre, false)) \/
  (Forall (fun cb => onCommit_throws en cb = false) cbs /\
     notify_commit en cbs = (map OnCommit cbs, true)).
Proof.
  induction cbs as [|cb cbs IH]; cbn; [right; by split|].
  destruct (onCommit_throws en cb) eqn:Hcb; [left; by exists [], cb, cbs|].
  destruct IH as [(pre & cb' & post & -> & Hf & ->)|[Hall ->]].
  - left. by exists (cb :: pre), cb', post.
  - right. split; [by apply Forall_cons|done].
Qed.

Definition all_written (w w' : world) (log : list PendingOp) : Prop :=
  forall store, content w' store = apply_ops (content w store) (ops_of store log).

(** Why [commit_writes] gave up, and what it had written by then. *)
Inductive write_failure (en : env) (w : world) (log : list PendingOp) : world -> Prop :=
| FailAtomic : atomicBatch en = Some true -> write_failure en w log w
| FailStore n g :
  atomicBatch en = None -> opsByStore log !! n = Some g -> write_fails en g.1 = true ->
  write_failure en w log (foldl write_store w (take n (opsByStore log))).

Lemma commit_writes_spec en w log :
  let '(w', ok) := commit_writes en w log in
  if ok then all_written w w' log else write_failure en w log w'.
Proof.
  assert (forall l, all_written w (foldl write_store w (opsByStore l)) l) as Hall.
  { intros l store. rewrite write_stores_content. by rewrite (proj2 (opsByStore_spec l store)). }
  unfold commit_writes. destruct log as [|op log]; [by intros store|].
  destruct (atomicBatch en) as [[]|] eqn:Ha; [by constructor|apply Hall|].
  destruct (write_each_spec en w (opsByStore (op :: log))) as [(n & g & Hn & Hf & ->)|[_ ->]].
  - by eapply FailStore.
  - apply Hall.
Qed.

(** The [onRollback] loop either reached every callback, and the transaction is
    cleared, or stopped at one that threw, and nothing is. *)
Definition rolled_back (en : env) (st st' : TransactionCoordinator) (es : list effect) : Prop :=
  (Forall (fun cb => onRollback_throws en cb = false) (callbacks st) /\
   st' = clearTransaction st /\ es = map OnRollback (callbacks st)) \/
  (exists pre cb post, callbacks st = pre ++ cb :: post /\ onRollback_throws en cb = true /\
     st' = st /\ es = map OnRollback pre).

Lemma notify_rollback_spec en st :
  let '(es, cleaned) := notify_rollback en (callbacks st) in
  rolled_back en st (if cleaned then clearTransaction st else st) es.
Proof.
  unfold rolled_back. generalize (clearTransaction st) as st0. intros st0.
  induction (callbacks st) as [|cb cbs IH]; cbn; [by left|].
  destruct (onRollback_throws en cb) eqn:Hcb; [right; by exists [], cb, cbs|].
  destruct (notify_rollback en cbs) as [es cleaned].
  destruct IH as [(Hall & Hst & ->)|(pre & cb' & post & -> & Hf & Hst & ->)].
  - left. split_and!; [by apply Forall_cons|done|done].
  - right. by exists (cb :: pre), cb', post.
Qed.

Definition commit_outcome (en : env) (st st' : TransactionCoordinator) (w w' : world)
    (es : list effect) (ok : bool) : Prop :=
  let cbs := callbacks st in
  let emits := emit_all en (pendingEvents st) in
  if ok then
    st' = clearTransaction st /\ all_written w w' (pendingOps st) /\ es = emits ++ map OnCommit cbs
  else
    (write_failure en w (pendingOps st) w' /\ rolled_back en st st' es) \/
    (all_written w w' (pendingOps st) /\
     exists pre cb post es', cbs = pre ++ cb :: post /\ onCommit_throws en cb = true /\
       es = emits ++ map OnCommit pre ++ es' /\ rolled_back en st st' es').

Lemma commit_spec en st w :
  inTransaction st = true ->
  exists st' w' es ok, commit en st w = (st', w', es, ok) /\ commit_outcome en st st' w w' es ok.
Proof.
  intros Ht. unfold commit, commit_outcome. rewrite Ht. cbn [negb].
  pose proof (commit_writes_spec en w (pendingOps st)) as Hw. pose proof (notify_rollback_spec en st) as Hr.
  destruct (notify_rollback en (callbacks st)) as [es' cleaned].
  destruct (commit_writes en w (pendingOps st)) as [w' []]; cbn [negb].
  - destruct (notify_commit_spec en (callbacks st)) as [(pre & cb & post & E & Hf & ->)|[_ ->]];
      cbn [negb]; eexists _, _, _, _; (split; [done|]); cbn.
    + right. split; [done|]. exists pre, cb, post, es'. by rewrite app_assoc.
    + done.
  - eexists _, _, _, _. split; [done|]. cbn. by left.
Qed.

(** *** Rolling back to a savepoint *)

(** Calls made while the savepoint at [d] is open: they may nest, release and
    undo savepoints above it. *)
Definition nested (d : nat) (c : call) : Prop :=
  match c with
  | CReleaseSavepoint t => (d < t)%nat
  | CRollbackToSavepoint t => (d <= t)%nat
  | CQueueDerivedOps _ _ _ _ | CDiscardOpsFor _ | CCommit _ _ | CRollback _ => False
  | _ => True
  end.

(** [st] has grown from [st1] above the savepoint [sp] at depth [d]. *)
Record grown (d : nat) (sp : SavepointSnapshot) (st1 st : TransactionCoordinator) : Prop := {
  grown_in : inTransaction st = true;
  grown_ok : coordinator_ok st;
  grown_sp : savepointStack st !! d = Some sp;
  grown_ops : take (opIndex sp) (pendingOps st) = pendingOps st1;
  grown_events : take (eventIndex sp) (pendingEvents st) = pendingEvents st1;
  grown_stack : take (S d) (savepointStack st) = savepointStack st1
}.

Lemma grown_bounds d sp st1 st : grown d sp st1 st -> snap_in st sp.
Proof.
  intros Hg. pose proof (ok_bounds _ (grown_ok _ _ _ _ Hg)) as Hb. rewrite Forall_forall in Hb.
  apply Hb. eapply list_elem_of_lookup_2, Hg.
Qed.

Lemma grown_rollback d sp st1 st t :
  grown d sp st1 st -> (d <= t)%nat -> grown d sp st1 (rollbackToSavepoint st t).
Proof.
  intros Hg Ht. pose proof (rollbackToSavepoint_ok st t (grown_ok _ _ _ _ Hg)) as Hok.
  destruct Hg as [Hin Hok0 Hsp Hops Hev Hst].
  destruct (savepointStack st !! t) as [sp'|] eqn:Ht'.
  2: { unfold rollbackToSavepoint in *. by rewrite Ht' in *. }
  assert (snap_le sp sp') as [Hle1 Hle2].
  { pose proof (sorted_below_last snap_le _ t sp' ltac:(by split) (ok_sorted _ Hok0) Ht') as H.
    rewrite Forall_forall in H. apply H. apply (list_elem_of_lookup_2 _ d).
    by rewrite lookup_take_lt by lia. }
  rewrite (rollbackTo_spec _ _ _ Ht') in *.
  split; unfold set_log; cbn [inTransaction savepointStack pendingOps pendingEvents]; try done.
  - by rewrite lookup_take_lt by lia.
  - by rewrite take_take, Nat.min_l by lia.
  - by rewrite take_take, Nat.min_l by lia.
  - by rewrite take_take, Nat.min_l by lia.
Qed.

Lemma grown_exec d sp st1 st c : nested d c -> grown d sp st1 st -> grown d sp st1 (exec st c).
Proof.
  intros Hc Hg. pose proof (exec_ok st c (grown_ok _ _ _ _ Hg)) as Hok.
  pose proof (grown_bounds _ _ _ _ Hg) as [Hb1 Hb2].
  assert (d < length (savepointStack st))%nat as Hd by (eapply lookup_lt_Some, Hg).
  destruct c; cbn [nested] in Hc; try done; cbn [exec] in *.
  - unfold begin. by rewrite (grown_in _ _ _ _ Hg).
  - destruct Hg as [Hin Hok0 Hsp Hops Hev Hst]. unfold put in *. rewrite Hin in *.
    split; try done. cbn. by rewrite take_app_le.
  - destruct Hg as [Hin Hok0 Hsp Hops Hev Hst]. unfold delete_ in *. rewrite Hin in *.
    split; try done. cbn. by rewrite take_app_le.
  - destruct Hg as [Hin Hok0 Hsp Hops Hev Hst]. unfold queueEvent in *. rewrite Hin in *.
    split; try done. cbn. by rewrite take_app_le.
  - destruct Hg as [Hin Hok0 Hsp Hops Hev Hst]. unfold createSavepoint in *. rewrite Hin in *.
    cbn [negb] in *. destruct (negb _); [done|].
    split; unfold set_log; cbn [savepointStack inTransaction]; try done.
    + by rewrite lookup_app_l by done.
    + by rewrite take_app_le by lia.
  - destruct Hg as [Hin Hok0 Hsp Hops Hev Hst]. unfold releaseSavepoint in *.
    destruct (_ <? _)%nat; [done|].
    split; unfold set_log; cbn [savepointStack inTransaction]; try done.
    + by rewrite lookup_take_lt by lia.
    + by rewrite take_take, Nat.min_l by lia.
  - by apply grown_rollback.
  - by destruct Hg.
  - by destruct Hg.
Qed.

Lemma grown_run d sp st1 st cs : Forall (nested d) cs -> grown d sp st1 st -> grown d sp st1 (run st cs).
Proof.
  unfold run. intros Hcs. revert st. induction Hcs as [|c cs Hc Hcs IH]; intros st Hg; cbn; [done|].
  by apply IH, grown_exec.
Qed.

(** The log as rolling back to [d] would leave it. *)
Definition same_log (st st' : TransactionCoordinator) : Prop :=
  pendingOps st = pendingOps st' /\ pendingEvents st = pendingEvents st' /\
  savepointStack st = savepointStack st' /\ pendingIndex st = pendingIndex st' /\
  inTransaction st = inTransaction st'.

Lemma createSavepoint_grown st :
  coordinator_ok st ->
  let st1 := createSavepoint st (length (savepointStack st)) in
  exists sp, grown (length (savepointStack st)) sp st1 st1.
Proof.
  intros Hok st1. assert (coordinator_ok st1) as Hok1 by by apply createSavepoint_ok.
  subst st1. unfold createSavepoint in *.
  set (st0 := if negb (inTransaction st) then begin st else st) in *.
  assert (inTransaction st0 = true /\ length (savepointStack st0) = length (savepointStack st))
    as [Ht Hlen].
  { subst st0. unfold begin. destruct (inTransaction st) eqn:E; cbn; [done|].
    by destruct (ok_idle _ Hok E) as (_ & _ & ->). }
  clearbody st0. rewrite Hlen, Nat.eqb_refl in *. cbn [negb] in *.
  eexists. split; unfold set_log; cbn [inTransaction savepointStack pendingOps pendingEvents]; try done.
  - rewrite lookup_app_r by lia. by rewrite Hlen, Nat.sub_diag.
  - cbn. by rewrite take_ge.
  - cbn. by rewrite take_ge.
  - rewrite take_ge; [done|]. rewrite length_app. cbn. lia.
Qed.

(** *** Derived ops *)

Lemma rewritten_rollback expand st d :
  coordinator_ok st ->
  rollbackToSavepoint (rewritten expand st) d = rewritten expand (rollbackToSavepoint st d).
Proof.
  intros Hok. destruct (savepointStack st !! d) as [sp|] eqn:Hd.
  2: { unfold rollbackToSavepoint. rewrite Hd. unfold rewritten at 1; cbn.
       by rewrite list_lookup_fmap, Hd. }
  assert (savepointStack (rewritten expand st) !! d
          = Some (moved_to (length (expand_from expand 0 (take (opIndex sp) (pendingOps st)))) sp))
    as Hd' by (unfold rewritten; cbn; by rewrite list_lookup_fmap, Hd).
  rewrite (rollbackTo_spec _ _ _ Hd'), (rollbackTo_spec _ _ _ Hd).
  unfold rewritten, set_log, moved_to;
    cbn [pendingOps pendingEvents savepointStack inTransaction callbacks opIndex eventIndex].
  assert (take (length (expand_from expand 0 (take (opIndex sp) (pendingOps st))))
            (expand_from expand 0 (pendingOps st))
          = expand_from expand 0 (take (opIndex sp) (pendingOps st))) as ->.
  { rewrite <- (take_drop (opIndex sp) (pendingOps st)) at 2. rewrite expand_from_app.
    apply take_app_length. }
  f_equal. rewrite <- fmap_take. apply map_ext_in. intros sp' Hsp'%list_elem_of_In. f_equal. f_equal. f_equal.
  pose proof (sorted_below_last snap_le _ d sp ltac:(by split) (ok_sorted _ Hok) Hd) as H.
  rewrite Forall_forall in H. destruct (H _ Hsp') as [Hle _].
  by rewrite take_take, Nat.min_l by done.
Qed.

Lemma rewritten_id expand st :
  coordinator_ok st -> (forall i op, pendingOps st !! i = Some op -> expand i op = [op]) ->
  rewritten expand st = st.
Proof.
  intros Hok He.
  assert (forall n, expand_from expand 0 (take n (pendingOps st)) = take n (pendingOps st)) as Hid.
  { intros n. rewrite (expand_from_ext _ (fun _ op => [op])).
    - generalize 0%nat. induction (take n (pendingOps st)) as [|op l IH]; intros i; cbn; [done|].
      by rewrite IH.
    - intros j op Hj. apply He. by apply lookup_take_Some in Hj as [Hj _]. }
  assert (expand_from expand 0 (pendingOps st) = pendingOps st) as Hall.
  { rewrite <- (take_ge (pendingOps st) (length (pendingOps st))) by lia. apply Hid. }
  unfold rewritten. rewrite Hall, <- (ok_index _ Hok). destruct st; unfold set_log; cbn in *. f_equal.
  rewrite <- (map_id savepointStack0) at 2. apply map_ext_in. intros sp Hsp%list_elem_of_In.
  rewrite Hid. pose proof (ok_bounds _ Hok) as Hb. rewrite Forall_forall in Hb.
  destruct (Hb _ Hsp) as [H1 _]. cbn in H1. rewrite length_take, Nat.min_l by done. by destruct sp.
Qed.

Section Derive.
Context (source target : nat) (source_get : bytes -> res (option bytes)) (derive : DeriveOps).

Abbreviation loop := (derive_loop source target source_get derive).

Lemma derive_loop_app latest l1 l2 d :
  loop latest (l1 ++ l2) = Ok d ->
  exists d1 d2, d = d1 ++ d2 /\ loop latest l1 = Ok d1 /\ length d1 = length l1.
Proof.
  revert latest d. induction l1 as [|op l1 IH]; intros latest d; cbn.
  { intros _. by exists [], d. }
  destruct (decide (op_store op = source)).
  - destruct (match latest !! _ with Some _ => _ | None => _ end) as [before|]; cbn; [|done].
    destruct (loop _ (l1 ++ l2)) as [rest|] eqn:Hr; cbn; [|done]. intros [= <-].
    destruct (IH _ _ Hr) as (d1 & d2 & -> & -> & Hlen). cbn.
    eexists (_ :: d1), d2. split; [done|]. split; [done|]. cbn. by rewrite Hlen.
  - destruct (loop _ (l1 ++ l2)) as [rest|] eqn:Hr; cbn; [|done]. intros [= <-].
    destruct (IH _ _ Hr) as (d1 & d2 & -> & -> & Hlen). cbn.
    eexists (_ :: d1), d2. split; [done|]. split; [done|]. cbn. by rewrite Hlen.
Qed.

Lemma derive_loop_none latest ops d i :
  loop latest ops = Ok d -> ~ Exists (fun op => op_store op = source) ops -> nth i d [] = [].
Proof.
  revert d i. induction ops as [|op ops IH]; intros d i; cbn.
  { intros [= <-] _. by destruct i. }
  rewrite Exists_cons. intros Hl Hn. rewrite decide_False in Hl by naive_solver.
  destruct (loop latest ops) as [rest|] eqn:Hr; cbn in Hl; simplify_eq.
  destruct i as [|i]; cbn; [done|]. apply IH; [done|naive_solver].
Qed.

Lemma rollback_ops_prefix st d : exists n, pendingOps (rollbackToSavepoint st d) = take n (pendingOps st).
Proof.
  destruct (savepointStack st !! d) as [sp|] eqn:Hd.
  - rewrite (rollbackTo_spec _ _ _ Hd). by eexists.
  - unfold rollbackToSavepoint. rewrite Hd. exists (length (pendingOps st)). by rewrite take_ge.
Qed.

Lemma queueDerivedOps_rewritten st d :
  coordinator_ok st -> loop ∅ (pendingOps st) = Ok d ->
  queueDerivedOps st source target source_get derive
  = Ok (rewritten (fun i op => op :: nth i d []) st).
Proof.
  intros Hok Hd. unfold queueDerivedOps. rewrite Hd. cbn [res_bind]. case_bool_decide as Hex.
  - by rewrite rewriteLog_spec.
  - rewrite rewritten_id; [done|done|]. intros i op _. by rewrite (derive_loop_none _ _ _ _ Hd Hex).
Qed.

Lemma queueDerivedOps_rollback st st' d :
  coordinator_ok st ->
  queueDerivedOps st source target source_get derive = Ok st' ->
  queueDerivedOps (rollbackToSavepoint st d) source target source_get derive
  = Ok (rollbackToSavepoint st' d).
Proof.
  intros Hok Hq. destruct (loop ∅ (pendingOps st)) as [dv|] eqn:Hd.
  2: { unfold queueDerivedOps in Hq. by rewrite Hd in Hq. }
  rewrite (queueDerivedOps_rewritten _ dv) in Hq by done. simplify_eq.
  rewrite rewritten_rollback by done.
  destruct (rollback_ops_prefix st d) as [n Hn].
  rewrite <- (take_drop n (pendingOps st)) in Hd.
  destruct (derive_loop_app _ _ _ _ Hd) as (d1 & d2 & -> & Hd1 & Hlen).
  rewrite (queueDerivedOps_rewritten _ d1);
    [|by apply rollbackToSavepoint_ok|by rewrite Hn].
  f_equal. unfold rewritten. rewrite Hn.
  assert (forall m, expand_from (fun i op => op :: nth i d1 []) 0 (take m (take n (pendingOps st)))
    = expand_from (fun i op => op :: nth i (d1 ++ d2) []) 0 (take m (take n (pendingOps st)))) as He.
  { intros m. apply expand_from_ext. intros j op Hj. f_equal.
    apply lookup_take_Some in Hj as [Hj _]. apply lookup_lt_Some in Hj.
    rewrite app_nth1; [done|]. cbn. lia. }
  pose proof (He n) as Hn'. rewrite take_take, Nat.min_id in Hn'. rewrite Hn'.
  f_equal. apply map_ext. intros sp. by rewrite He.
Qed.

End Derive.

(** *** What a derived structure owes *)

Fixpoint interleave (ops : list PendingOp) (d : list (list PendingOp)) : list PendingOp :=
  match ops, d with
  | op :: ops', x :: d' => op :: x ++ interleave ops' d'
  | _, _ => []
  end.

Lemma expand_interleave pre ops d :
  length d = length ops ->
  expand_from (fun i op => op :: nth i (pre ++ d) []) (length pre) ops = interleave ops d.
Proof.
  revert pre d. induction ops as [|op ops IH]; intros pre [|x d]; cbn; try done.
  intros [= Hlen]. rewrite app_nth2 by lia. rewrite Nat.sub_diag. cbn. f_equal. f_equal.
  rewrite <- (IH (pre ++ [x]) d Hlen), <- app_assoc, length_app. cbn. by rewrite Nat.add_1_r.
Qed.

Section Honest.
Context (row_ok : bytes -> bytes -> Prop) (F : kvmap -> kvmap) (derive : DeriveOps).

Definition rows_ok (m : kvmap) : Prop := forall k v, m !! k = Some v -> row_ok k v.

Definition op_ok (op : BatchOp) : Prop :=
  wf_bytes (op_key op) /\ forall v, op_value op = Some v -> row_ok (op_key op) v.

(** [F m] is the derived structure over the rows [m], and [derive] is what one
    write to the rows changes in it. *)
Definition maintains : Prop := forall m op, rows_ok m -> op_ok op ->
  apply_ops (F m) (map derived_batch (derive (m !! op_key op) (op_value op))) = F (apply_op m op).

Lemma rows_ok_apply m op : rows_ok m -> op_ok op -> rows_ok (apply_op m op).
Proof.
  intros Hm [Hk Hv] k v. rewrite apply_op_lookup. destruct (decide (k = op_key op)) as [->|]; auto.
Qed.

Lemma ops_of_derived target ds : ops_of target (map (derived_op target) ds) = map derived_batch ds.
Proof.
  induction ds as [|d ds IH]; [done|]. cbn [map]. rewrite ops_of_cons, decide_True by done. by rewrite IH.
Qed.

Lemma ops_of_derived_ne store target ds :
  store <> target -> ops_of store (map (derived_op target) ds) = [].
Proof.
  intros Hne. induction ds as [|d ds IH]; [done|]. cbn [map].
  rewrite ops_of_cons, decide_False by (cbn; congruence). done.
Qed.

(** [m] is the committed rows with the ops seen so far. *)
Definition latest_agrees (committed m : kvmap) (latest : gmap jsstring (option bytes)) : Prop :=
  forall k, wf_bytes k ->
    m !! k = match latest !! Bytes.bytesToHex k with Some v => v | None => committed !! k end.

Lemma latest_agrees_step committed m latest op :
  wf_bytes (op_key op) -> latest_agrees committed m latest ->
  latest_agrees committed (apply_op m op) (<[Bytes.bytesToHex (op_key op) := op_value op]> latest).
Proof.
  intros Hop Hl k Hk. rewrite apply_op_lookup. destruct (decide (k = op_key op)) as [->|Hne].
  - by rewrite lookup_insert_eq.
  - rewrite lookup_insert_ne; [by apply Hl|]. intros H. by apply Bytes.bytesToHex_inj in H.
Qed.

Lemma derive_loop_sound source target committed latest m ops d :
  maintains -> source <> target -> latest_agrees committed m latest -> rows_ok m ->
  Forall op_ok (ops_of source ops) -> ops_of target ops = [] ->
  derive_loop source target (fun k => Ok (committed !! k)) derive latest ops = Ok d ->
  length d = length ops /\
  ops_of source (interleave ops d) = ops_of source ops /\
  apply_ops (F m) (ops_of target (interleave ops d)) = F (apply_ops m (ops_of source ops)).
Proof.
  intros HF Hne. revert latest m d.
  induction ops as [|op ops IH]; intros latest m d Hl Hm Hops Ht; cbn [derive_loop].
  { intros [= <-]. done. }
  rewrite ops_of_cons in Ht, Hops. destruct (decide (op_store op = target)) as [|Hnt]; [done|].
  destruct (decide (op_store op = source)) as [Hs|Hns].
  - apply Forall_cons in Hops as [Hop Hops].
    assert (match latest !! Bytes.bytesToHex (op_key (op_op op)) with
            | Some v => Ok v | None => Ok (committed !! op_key (op_op op)) end
            = Ok (m !! op_key (op_op op))) as ->.
    { rewrite (Hl _ (proj1 Hop)). by destruct (latest !! _). }
    cbn [res_bind].
    destruct (derive_loop _ _ _ _ _ ops) as [rest|] eqn:Hr; cbn [res_bind]; [|done]. intros [= <-].
    destruct (IH (<[Bytes.bytesToHex (op_key (op_op op)) := op_value (op_op op)]> latest)
                (apply_op m (op_op op)) rest) as (Hlen & Hsrc & Happ);
      [apply latest_agrees_step; [apply Hop|done]|by apply rows_ok_apply|done|done|exact Hr|].
    cbn [interleave length]. rewrite !ops_of_cons, !(decide_True (P := op_store op = source)) by done.
    rewrite (decide_False (P := op_store op = target)) by done.
    rewrite !ops_of_app, ops_of_derived, ops_of_derived_ne by done. rewrite Hlen, Hsrc.
    split; [done|]. split; [done|].
    unfold apply_ops at 1. rewrite foldl_app. fold (apply_ops (F m)).
    unfold apply_ops in Happ |- *. unfold maintains, apply_ops in HF. rewrite HF by done. by rewrite Happ.
  - destruct (derive_loop _ _ _ _ _ ops) as [rest|] eqn:Hr; cbn [res_bind]; [|done]. intros [= <-].
    destruct (IH latest m rest) as (Hlen & Hsrc & Happ); try done.
    cbn [interleave length app]. rewrite !ops_of_cons, !decide_False by done.
    by rewrite Hlen.
Qed.

Lemma derive_loop_total (source target : nat) (committed : kvmap) latest ops :
  exists d, derive_loop source target (fun k => Ok (committed !! k)) derive latest ops = Ok d.
Proof.
  revert latest. induction ops as [|op ops IH]; intros latest; cbn; [by eexists|].
  destruct (decide _).
  - destruct (latest !! _); cbn;
      destruct (IH (<[Bytes.bytesToHex (op_key (op_op op)):=op_value (op_op op)]> latest)) as [d ->];
      by eexists.
  - destruct (IH latest) as [d ->]. by eexists.
Qed.

Lemma queueDerivedOps_sound (st : TransactionCoordinator) (source target : nat) (committed : kvmap) :
  maintains -> coordinator_ok st -> source <> target -> rows_ok committed ->
  Forall op_ok (ops_of source (pendingOps st)) -> ops_of target (pendingOps st) = [] ->
  exists st', queueDerivedOps st source target (fun k => Ok (committed !! k)) derive = Ok st' /\
    ops_of source (pendingOps st') = ops_of source (pendingOps st) /\
    apply_ops (F committed) (ops_of target (pendingOps st'))
    = F (apply_ops committed (ops_of source (pendingOps st))).
Proof.
  intros HF Hok Hne Hc Hops Ht.
  destruct (derive_loop_total source target committed ∅ (pendingOps st)) as [d Hd].
  destruct (derive_loop_sound source target committed ∅ committed (pendingOps st) d)
    as (Hlen & Hsrc & Happ); try done.
  eexists. split; [by apply queueDerivedOps_rewritten|].
  unfold rewritten, set_log; cbn [pendingOps].
  pose proof (expand_interleave [] (pendingOps st) d Hlen) as He. cbn [app length] in He. by rewrite He.
Qed.

End Honest.

(** ** Properties *)

(** Whatever calls are made on a new coordinator, its last-write-wins
    index is exactly its op log replayed, its savepoints are ordered positions
    within the op and event logs, and it buffers nothing outside a
    transaction. *)
Theorem coordinator_invariant (cs : list call) : coordinator_ok (run new_coordinator cs).
Proof. apply run_ok, new_coordinator_ok. Qed.

(** C23: Rolling back to a savepoint restores the op log, the event log, the
    index and the savepoint stack exactly as they were when it was created,
    whatever was queued and whichever savepoints were nested, released or
    undone above it in between. *)
Theorem rollback_to_savepoint_restores (before after : list call) :
  let st := run new_coordinator before in
  let d := length (savepointStack st) in
  let st1 := createSavepoint st d in
  Forall (nested d) after ->
  same_log (rollbackToSavepoint (run st1 after) d) st1.
Proof.
  intros st d st1 Hafter.
  destruct (createSavepoint_grown st) as [sp Hg]; [apply run_ok, new_coordinator_ok|].
  assert (coordinator_ok st1) as Hok1 by apply Hg.
  apply (grown_run _ _ _ _ after Hafter) in Hg. fold d st1 in Hg.
  assert (inTransaction st1 = true) as Hin1.
  { subst st1. unfold createSavepoint, begin. destruct (inTransaction st) eqn:E; cbn; by destruct (negb _). }
  rewrite (rollbackTo_spec _ _ _ (grown_sp _ _ _ _ Hg)).
  destruct Hg as [Hin Hok Hsp Hops Hev Hst].
  unfold same_log, set_log; cbn [pendingOps pendingEvents savepointStack pendingIndex inTransaction].
  rewrite Hops, Hev, Hst, (ok_index _ Hok1), Hin, Hin1. done.
Qed.

(** C24: What a commit does on every path.  When it resolves, the transaction is
    cleared, each store holds its old contents with the log's ops for it applied
    in log order, and every event then every [onCommit] has fired once, in order.
    When it throws, either a write failed (then nothing was emitted, and an
    atomic batch has changed no store while the fallback has written exactly the
    stores before the failing one), or everything was written and an [onCommit]
    threw.  In both cases the [onRollback] callbacks then run in order: if all
    return, the transaction is cleared; if one throws, the later ones do not run
    and the coordinator stays as it was, inside the transaction with its whole
    log. *)
Theorem commit_outcomes (en : env) (st : TransactionCoordinator) (w : world) :
  inTransaction st = true ->
  exists st' w' es ok, commit en st w = (st', w', es, ok) /\
    commit_outcome en st st' w w' es ok /\
    (ok = false -> atomicBatch en = Some true -> pendingOps st <> [] ->
     w' = w /\ rolled_back en st st' es).
Proof.
  intros Ht. destruct (commit_spec en st w Ht) as (st' & w' & es & ok & Hc & Ho).
  exists st', w', es, ok. split; [done|]. split; [done|].
  intros -> Ha Hne. pose proof (notify_rollback_spec en st) as Hr.
  unfold commit in Hc. rewrite Ht in Hc. unfold commit_writes in Hc.
  destruct (pendingOps st); [done|]. rewrite Ha in Hc. cbn in Hc.
  destruct (notify_rollback en (callbacks st)) as [es' cleaned]. by simplify_eq.
Qed.

(** Deriving ops commutes with undoing: the log that [queueDerivedOps]
    builds, rolled back to any savepoint, is the log it would have built had
    the transaction been rolled back to that savepoint first.  So a rollback
    removes exactly the derived ops of the writes it undoes. *)
Theorem derived_ops_follow_savepoints (cs : list call) (source target d : nat)
    (source_get : bytes -> res (option bytes)) (derive : DeriveOps) (st' : TransactionCoordinator) :
  let st := run new_coordinator cs in
  queueDerivedOps st source target source_get derive = Ok st' ->
  queueDerivedOps (rollbackToSavepoint st d) source target source_get derive
  = Ok (rollbackToSavepoint st' d).
Proof. intros st. apply queueDerivedOps_rollback, run_ok, new_coordinator_ok. Qed.

(** If [derive] maintains a structure [F] of the source rows write by
    write, then deriving the buffered ops of a transaction gives the target
    what it would hold had it been maintained all along: committing its ops
    over [F] of the committed rows yields [F] of the rows the transaction
    leaves.  The source's own ops are untouched. *)
Theorem derived_ops_complete (row_ok : bytes -> bytes -> Prop) (F : kvmap -> kvmap)
    (derive : DeriveOps) (cs : list call) (source target : nat) (committed : kvmap) :
  let st := run new_coordinator cs in
  maintains row_ok F derive -> source <> target -> rows_ok row_ok committed ->
  Forall (op_ok row_ok) (ops_of source (pendingOps st)) -> ops_of target (pendingOps st) = [] ->
  exists st', queueDerivedOps st source target (fun k => Ok (committed !! k)) derive = Ok st' /\
    ops_of source (pendingOps st') = ops_of source (pendingOps st) /\
    apply_ops (F committed) (ops_of target (pendingOps st'))
    = F (apply_ops committed (ops_of source (pendingOps st))).
Proof.
  intros st HF. apply (queueDerivedOps_sound row_ok F derive); [done|apply run_ok, new_coordinator_ok].
Qed.

(** The savepoint views are what rolling back would leave: entry [d] of
    [getOrderedPendingOpsAtSavepoints] is [getOrderedPendingOps] after
    [rollbackToSavepoint d], for every open savepoint and no other. *)
Theorem savepoint_views (cs : list call) (store d : nat) :
  let st := run new_coordinator cs in
  getOrderedPendingOpsAtSavepoints st store !! d
  = if (d <? length (savepointStack st))%nat
    then Some (getOrderedPendingOps (rollbackToSavepoint st d) store) else None.
Proof.
  intros st. unfold getOrderedPendingOpsAtSavepoints. rewrite list_lookup_fmap.
  destruct (Nat.ltb_spec d (length (savepointStack st))) as [Hd|Hd].
  - apply lookup_lt_is_Some_2 in Hd as [sp Hsp]. rewrite Hsp. cbn.
    unfold getOrderedPendingOps. by rewrite (rollbackTo_spec _ _ _ Hsp).
  - by rewrite lookup_ge_None_2.
Qed.

End Coordinator.

Definition demo_calls : list (call (Event := nat)) :=
  [CBegin; CPut [1] [1] 0; CQueueEvent true 7%nat].

Lemma rollback_to_savepoint_restores_witness :
  same_log
    (rollbackToSavepoint
       (run (createSavepoint (run new_coordinator demo_calls) 0)
          [CPut [2] [20] 0; CCreateSavepoint 1; CDelete [1] 0; CRollbackToSavepoint 1; CReleaseSavepoint 1]) 0)
    (createSavepoint (run new_coordinator demo_calls) 0).
Proof.
  apply (rollback_to_savepoint_restores demo_calls
    [CPut [2] [20] 0; CCreateSavepoint 1; CDelete [1] 0; CRollbackToSavepoint 1; CReleaseSavepoint 1]).
  repeat (apply Forall_cons; split; [cbn; lia || exact I|]). apply Forall_nil_2.
Defined.

Definition demo_env : env := mkEnv true (Some true) (fun _ => false) (fun _ => false) (fun _ => true).

Lemma commit_outcomes_witness :
  let st := run new_coordinator (CRegister 3 :: demo_calls) in
  exists st' w' es ok, commit demo_env st ∅ = (st', w', es, ok) /\
    commit_outcome demo_env st st' ∅ w' es ok /\
    (ok = false -> atomicBatch demo_env = Some true -> pendingOps st <> [] ->
     w' = ∅ /\ rolled_back demo_env st st' es).
Proof. apply (commit_outcomes demo_env (run new_coordinator (CRegister 3 :: demo_calls)) ∅). reflexivity. Defined.

(** An [onCommit] that throws after the write, and then an [onRollback] that
    throws: the row is written and its op is still pending, so the next commit
    on this coordinator writes it again over what was stored meanwhile. *)
Lemma throwing_rollback_replays :
  let en := mkEnv true (Some false) (fun _ => false) (fun _ => true) (fun _ => true) in
  let calm := mkEnv true (Some false) (fun _ => false) (fun _ => false) (fun _ => false) in
  let st := run new_coordinator (CRegister 3 :: demo_calls) in
  let '(st1, w1, _, ok1) := commit en st ∅ in
  let st2 := run st1 [CBegin; CPut [2] [2] 0] in
  let '(st3, w3, _, ok3) := commit calm st2 (write_store w1 (0%nat, [OpPut [1] [9]])) in
  ok1 = false /\ content w1 0 !! [1] = Some [1] /\
  ok3 = true /\ content w3 0 !! [1] = Some [1].
Proof. by vm_compute. Qed.

(** An index over rows that store their own key: one entry, under a prefix,
    per row. *)
Definition demo_index (m : kvmap) : kvmap := kmap (cons 9) ((fun _ => []) <$> m).

Definition demo_derive : DeriveOps := fun before after =>
  match before with Some v => [mkDerived (9 :: v) None] | None => [] end ++
  match after with Some v => [mkDerived (9 :: v) (Some [])] | None => [] end.

Lemma demo_maintains : maintains (fun k v => v = k) demo_index demo_derive.
Proof.
  intros m op Hm [_ Hop]. unfold demo_derive, demo_index, apply_ops.
  destruct (m !! op_key op) as [v|] eqn:Hv; destruct op as [k w|k]; cbn in *;
    try (apply Hm in Hv as ->); try (rewrite (Hop w) by done);
    rewrite ?fmap_insert, ?fmap_delete, ?(kmap_insert (cons 9)), ?(kmap_delete (cons 9)); try done.
  - by rewrite insert_delete_eq.
  - rewrite delete_id; [done|]. by rewrite (lookup_kmap (cons 9)), lookup_fmap, Hv.
Qed.

Lemma derived_ops_follow_savepoints_witness :
  queueDerivedOps (rollbackToSavepoint
      (run new_coordinator (demo_calls ++ [CCreateSavepoint 0; CPut [2] [2] 0])) 0) 0 1
    (fun _ => Ok None) demo_derive
  = Ok (rollbackToSavepoint
      (or_else new_coordinator (queueDerivedOps
        (run new_coordinator (demo_calls ++ [CCreateSavepoint 0; CPut [2] [2] 0])) 0 1
        (fun _ => Ok None) demo_derive)) 0).
Proof.
  apply (derived_ops_follow_savepoints (demo_calls ++ [CCreateSavepoint 0; CPut [2] [2] 0]) 0 1 0
    (fun _ => Ok None) demo_derive).
  vm_compute. reflexivity.
Defined.

Lemma derived_ops_complete_witness :
  exists st', queueDerivedOps (run new_coordinator demo_calls) 0 1
      (fun k => Ok ((∅ : kvmap) !! k)) demo_derive = Ok st' /\
    ops_of 0 (pendingOps st') = ops_of 0 (pendingOps (run new_coordinator demo_calls)) /\
    apply_ops (demo_index ∅) (ops_of 1 (pendingOps st'))
    = demo_index (apply_ops ∅ (ops_of 0 (pendingOps (run new_coordinator demo_calls)))).
Proof.
  apply (derived_ops_complete (fun k v => v = k) demo_index demo_derive demo_calls 0 1 ∅).
  - exact demo_maintains.
  - lia.
  - intros k v. by rewrite lookup_empty.
  - apply Forall_cons. split; [|apply Forall_nil_2]. split.
    + apply wf_bytesb_spec. reflexivity.
    + cbn. by intros v [= <-].
  - reflexivity.
Defined.

End Transaction.
