(* ===== verification/StoreRead.v ===== *)
(** * Read-your-own-writes

    Models the effective reads of a store table
    ([packages/quereus-store/src/common/store-table-base.ts]): point reads and
    ordered scans that lay the coordinator's pending ops over the committed
    store.  The committed store is any implementation of [KVStore]; the row
    decoder is a function the reads are generic in. *)

From S2P Require Import Prelude Bytes KvStore Transaction.
From Stdlib Require Import ZArith Lia.
From stdpp Require Import sorting.
From stdpp Require Import base tactics numbers sets gmap list.
#[local] Open Scope Z_scope.

Import Transaction.

Module StoreRead.

Section Scan.
Context {Event S : Type} `{!KVStore S}.

Abbreviation coordinator := (TransactionCoordinator (Event := Event)).

Definition opt_test (b : option bytes) (bad : bytes -> bool) : bool :=
  match b with
  | Some x => bad x
  | None => false
  end.

Definition keyWithinBounds (key : bytes) (bounds : IterateOptions) : bool :=
  if opt_test (o_gte bounds) (fun b => Bytes.compareBytes key b <? 0) then false
  else if opt_test (o_gt bounds) (fun b => Bytes.compareBytes key b <=? 0) then false
  else if opt_test (o_lte bounds) (fun b => 0 <? Bytes.compareBytes key b) then false
  else if opt_test (o_lt bounds) (fun b => 0 <=? Bytes.compareBytes key b) then false
  else true.

(** The inner [while]: the puts that come before [key], and the others. *)
Fixpoint emit_before (sign : Z) (puts : list kventry) (key : bytes) : list kventry * list kventry :=
  match puts with
  | [] => ([], [])
  | p :: puts' =>
    if sign * Bytes.compareBytes p.1 key <? 0
    then let '(out, rest) := emit_before sign puts' key in (p :: out, rest)
    else ([], puts)
  end.

(** The [for await] over the committed entries, then the remaining puts. *)
Fixpoint merge_loop (sign : Z) (deletes : gset jsstring) (puts entries : list kventry) : list kventry :=
  match entries with
  | [] => puts
  | entry :: entries' =>
    let '(out, puts1) := emit_before sign puts entry.1 in
    let otherwise :=
      if bool_decide (Bytes.bytesToHex entry.1 ∈ deletes)
      then merge_loop sign deletes puts1 entries'
      else entry :: merge_loop sign deletes puts1 entries' in
    out ++
      match puts1 with
      | p :: puts2 =>
        if Bytes.compareBytes p.1 entry.1 =? 0
        then p :: merge_loop sign deletes puts2 entries'
        else otherwise
      | [] => otherwise
      end
  end.

Definition with_reverse (o : IterateOptions) (rev : bool) : IterateOptions :=
  if rev then mkOptions (o_gte o) (o_gt o) (o_lte o) (o_lt o) rev (o_limit o) else o.

Definition mergeWithPending (store : S) (pending : option OrderedPendingOps)
    (bounds : IterateOptions) (rev : bool) : res (list kventry) :=
  let iterOptions := with_reverse bounds rev in
  match pending with
  | None => kv_iterate store iterOptions
  | Some p =>
    if (length (ordered_puts p) =? 0)%nat && (size (ordered_deletes p) =? 0)%nat
    then kv_iterate store iterOptions
    else
      let puts := List.filter (fun e => keyWithinBounds e.1 bounds) (ordered_puts p) in
      let puts := if rev then reverse puts else puts in
      let sign := if rev then -1 else 1 in
      let* entries := kv_iterate store iterOptions in
      Ok (merge_loop sign (ordered_deletes p) puts entries)
  end.

Definition iterateEffective (coord : option coordinator) (handle : nat) (store : S)
    (bounds : IterateOptions) (rev : bool) : res (list kventry) :=
  let pending := match coord with
                 | Some c => if inTransaction c then Some (getOrderedPendingOps c handle) else None
                 | None => None
                 end in
  mergeWithPending store pending bounds rev.

Definition buildFullScanBounds : IterateOptions := mkOptions (Some []) None None None false None.

(** Every state a rollback could return the table to, as scans: the committed
    entries, then each open savepoint's, outermost first. *)
Definition bufferedRollbackScans (coord : option coordinator) (handle : nat) (store : S)
    : list (res (list kventry)) :=
  match coord with
  | None => []
  | Some c =>
    if negb (inTransaction c) then []
    else
      let buffered := getPendingOpsForStore c handle in
      if bool_decide (size (puts buffered) = 0%nat) && bool_decide (size (deletes buffered) = 0%nat)
      then []
      else
        kv_iterate store buildFullScanBounds
        :: map (fun view => mergeWithPending store (Some view) buildFullScanBounds false)
             (getOrderedPendingOpsAtSavepoints c handle)
  end.

End Scan.

(** ** Merging *)

(** [a] comes strictly before [b] in iteration order. *)
Definition before (rev : bool) (a b : kventry) : Prop :=
  if rev then blex b.1 a.1 = Lt else blex a.1 b.1 = Lt.

Definition sign_of (rev : bool) : Z := if rev then -1 else 1.

Lemma before_sign rev a b :
  (sign_of rev * Bytes.compareBytes a.1 b.1 <? 0) = true <-> before rev a b.
Proof.
  unfold before, sign_of. rewrite Z.ltb_lt. destruct rev.
  - rewrite (cmp_lt_gt blex), <- Bytes.compareBytes_lex, sgn_gt. lia.
  - rewrite <- Bytes.compareBytes_lex, sgn_lt. lia.
Qed.

#[local] Instance entry_before_trans rev : Transitive (before rev).
Proof.
  intros a b c. unfold before. destruct rev; intros H1 H2.
  - by apply (cmp_trans blex Lt c.1 b.1 a.1).
  - by apply (cmp_trans blex Lt a.1 b.1 c.1).
Qed.

Lemma entry_before_irrefl rev a b : a.1 = b.1 -> ~ before rev a b.
Proof. unfold before. intros -> H. destruct rev; by rewrite (cmp_refl blex) in H. Qed.

(** Not before and not at the same key: after. *)
Lemma before_total rev a b : ~ before rev a b -> a.1 <> b.1 -> before rev b a.
Proof.
  unfold before. intros Hn Hne. destruct (blex a.1 b.1) eqn:E.
  - by apply (cmp_eq blex) in E.
  - by destruct rev.
  - apply (cmp_lt_gt blex) in E. by destruct rev.
Qed.

Lemma emit_before_spec rev puts e :
  StronglySorted (before rev) puts ->
  exists out rest, emit_before (sign_of rev) puts e.1 = (out, rest) /\ puts = out ++ rest /\
    Forall (fun p => before rev p e) out /\ Forall (fun p => ~ before rev p e) rest.
Proof.
  induction 1 as [|p puts Hs IH Hp]; cbn; [by exists [], []|].
  destruct (_ <? 0) eqn:E.
  - apply before_sign in E. destruct IH as (out & rest & -> & -> & Ho & Hr).
    exists (p :: out), rest. split; [done|]. split; [done|]. split; [by apply Forall_cons|done].
  - assert (~ before rev p e) as Hn by (rewrite <- before_sign; by rewrite E).
    exists [], (p :: puts). split; [done|]. split; [done|]. split; [apply Forall_nil_2|].
    apply Forall_cons. split; [done|]. eapply Forall_impl; [exact Hp|].
    intros q Hq Hqe. apply Hn. by transitivity q.
Qed.

(** The entry survives the overlay: not deleted, and no put at its key. *)
Definition survives (deletes : gset jsstring) (puts : list kventry) (e : kventry) : Prop :=
  Bytes.bytesToHex e.1 ∉ deletes /\ forall p, p ∈ puts -> p.1 <> e.1.

Lemma survives_app deletes out rest e :
  (forall q, q ∈ out -> q.1 <> e.1) -> survives deletes (out ++ rest) e <-> survives deletes rest e.
Proof.
  intros Hout. unfold survives. apply and_iff_compat_l. split.
  - intros H q Hq. apply H. apply elem_of_app. by right.
  - intros H q [Hq|Hq]%elem_of_app; auto.
Qed.

(** One committed entry no pending put shadows. *)
Lemma merge_unshadowed x deletes out rest e entries M :
  (forall q, q ∈ out ++ rest -> q.1 <> e.1) ->
  (forall q y, q ∈ out -> y ∈ entries -> q.1 <> y.1) ->
  (x ∈ M <-> x ∈ rest \/ (x ∈ entries /\ survives deletes rest x)) ->
  x ∈ out ++ (if bool_decide (Bytes.bytesToHex e.1 ∈ deletes) then M else e :: M) <->
  x ∈ out ++ rest \/ (x ∈ e :: entries /\ survives deletes (out ++ rest) x).
Proof.
  intros Hne Hout HM.
  assert (x ∈ entries -> survives deletes (out ++ rest) x <-> survives deletes rest x) as Hs
    by (intros Hx; apply survives_app; eauto).
  assert (survives deletes (out ++ rest) e <-> Bytes.bytesToHex e.1 ∉ deletes) as Hse
    by (unfold survives; tauto).
  rewrite (elem_of_app out rest), elem_of_app, (elem_of_cons entries).
  case_bool_decide as Hd; rewrite ?elem_of_cons, HM; clear HM Hne Hout.
  - split; [tauto|]. intros [?|[[->|?] ?]]; tauto.
  - split; [|tauto]. intros [?|[->|?]]; tauto.
Qed.

(** One committed entry the next pending put shadows. *)
Lemma merge_shadowed x deletes out p rest e entries M :
  p.1 = e.1 -> (forall q y, q ∈ out ++ [p] -> y ∈ entries -> q.1 <> y.1) ->
  (x ∈ M <-> x ∈ rest \/ (x ∈ entries /\ survives deletes rest x)) ->
  x ∈ out ++ p :: M <->
  x ∈ out ++ p :: rest \/ (x ∈ e :: entries /\ survives deletes (out ++ p :: rest) x).
Proof.
  intros Hp Hout HM.
  assert (x ∈ entries -> survives deletes (out ++ p :: rest) x <-> survives deletes rest x) as Hs.
  { intros Hx. rewrite cons_middle, app_assoc. apply survives_app. eauto. }
  assert (~ survives deletes (out ++ p :: rest) e) as Hse.
  { intros [_ H]. apply (H p); [set_solver|done]. }
  rewrite !elem_of_app, !elem_of_cons, HM. clear HM Hout.
  split; [tauto|]. intros [?|[[->|?] ?]]; tauto.
Qed.

Lemma merge_loop_elem rev deletes puts entries :
  StronglySorted (before rev) puts -> StronglySorted (before rev) entries ->
  forall x, x ∈ merge_loop (sign_of rev) deletes puts entries <->
    x ∈ puts \/ (x ∈ entries /\ survives deletes puts x).
Proof.
  intros Hp He. revert puts Hp. induction He as [|e entries Hes IH Hall]; intros puts Hp x; cbn.
  { rewrite elem_of_nil. tauto. }
  destruct (emit_before_spec rev puts e Hp) as (out & rest & -> & -> & Hout & Hrest).
  apply StronglySorted_app in Hp as (Hp3 & Hp1 & Hp2). rewrite Forall_forall in Hout, Hrest, Hall.
  assert (forall q y, q ∈ out -> y ∈ entries -> q.1 <> y.1) as Hdis.
  { intros q y Hq Hy Heq. apply (entry_before_irrefl rev q y Heq).
    transitivity e; [by apply Hout|by apply Hall]. }
  assert (forall q, q ∈ out -> q.1 <> e.1) as Hdis0.
  { intros q Hq Heq. by apply (entry_before_irrefl rev q e Heq), Hout. }
  assert (forall q, q ∈ rest -> before rev e q -> q.1 <> e.1) as Hafter.
  { intros q Hq Hb Heq. by apply (entry_before_irrefl rev e q). }
  destruct rest as [|p rest].
  - apply merge_unshadowed; [|done|by apply IH]. rewrite app_nil_r. done.
  - destruct (Z.eqb_spec (Bytes.compareBytes p.1 e.1) 0) as [Heq|Hneq].
    + rewrite <- sgn_eq, Bytes.compareBytes_lex in Heq. apply (cmp_eq blex) in Heq.
      apply merge_shadowed; [done| |apply IH; by apply StronglySorted_inv in Hp2 as [? _]].
      intros q y [Hq|Hq]%elem_of_app Hy; [by apply Hdis|]. apply list_elem_of_singleton in Hq as ->.
      rewrite Heq. intros H. by apply (entry_before_irrefl rev e y H), Hall.
    + assert (before rev e p) as Hep.
      { apply before_total; [apply Hrest; by left|]. intros H. apply Hneq.
        by rewrite <- sgn_eq, Bytes.compareBytes_lex, H, (cmp_refl blex). }
      apply merge_unshadowed; [|done|by apply IH].
      intros q [Hq|Hq]%elem_of_app; [by apply Hdis0|]. apply Hafter; [done|].
      apply elem_of_cons in Hq as [->|Hq]; [done|].
      transitivity p; [done|]. apply StronglySorted_inv in Hp2 as [_ Hp2].
      rewrite Forall_forall in Hp2. by apply Hp2.
Qed.

(** Whatever the merge emits is an input entry. *)
Lemma merge_loop_from rev deletes puts entries x :
  StronglySorted (before rev) puts -> StronglySorted (before rev) entries ->
  x ∈ merge_loop (sign_of rev) deletes puts entries -> x ∈ puts \/ x ∈ entries.
Proof. intros Hp He. rewrite merge_loop_elem by done. tauto. Qed.

Lemma merge_loop_sorted rev deletes puts entries :
  StronglySorted (before rev) puts -> StronglySorted (before rev) entries ->
  StronglySorted (before rev) (merge_loop (sign_of rev) deletes puts entries).
Proof.
  intros Hp He. revert puts Hp. induction He as [|e entries Hes IH Hall]; intros puts Hp; cbn; [done|].
  destruct (emit_before_spec rev puts e Hp) as (out & rest & -> & -> & Hout & Hrest).
  apply StronglySorted_app in Hp as (Hp3 & Hp1 & Hp2). rewrite Forall_forall in Hout, Hrest, Hall.
  (* what follows [out]: the merge of later puts and entries, perhaps behind [e] *)
  assert (forall rest', StronglySorted (before rev) rest' -> (forall q, q ∈ rest' -> before rev e q) ->
    forall y, y ∈ merge_loop (sign_of rev) deletes rest' entries -> before rev e y) as Hgt.
  { intros rest' Hs Hq y [Hy|Hy]%merge_loop_from; auto. }
  assert ((forall q, q ∈ rest -> before rev e q) ->
    StronglySorted (before rev) (out ++
      (if bool_decide (Bytes.bytesToHex e.1 ∈ deletes)
       then merge_loop (sign_of rev) deletes rest entries
       else e :: merge_loop (sign_of rev) deletes rest entries))) as Hother.
  { intros Hq. pose proof (Hgt rest Hp2 Hq) as Hy. apply StronglySorted_app. split_and!; [|done|].
    2: { case_bool_decide; [by apply IH|]. constructor; [by apply IH|by apply Forall_forall]. }
    intros x y Hx Hin. assert (y = e \/ before rev e y) as [->|Hey]; [|by apply Hout|].
    { case_bool_decide; [right; by apply Hy|]. apply elem_of_cons in Hin as [->|Hin]; auto. }
    transitivity e; [by apply Hout|done]. }
  destruct rest as [|p rest]; [apply Hother; intros q Hq; by apply elem_of_nil in Hq|].
  apply StronglySorted_inv in Hp2 as [Hp2 Hpr]. rewrite Forall_forall in Hpr.
  destruct (Z.eqb_spec (Bytes.compareBytes p.1 e.1) 0) as [Heq|Hneq].
  - rewrite <- sgn_eq, Bytes.compareBytes_lex in Heq. apply (cmp_eq blex) in Heq.
    assert (forall y, before rev p y <-> before rev e y) as Hpe by (intros y; unfold before; by rewrite Heq).
    assert (forall y, y ∈ merge_loop (sign_of rev) deletes rest entries -> before rev p y) as Hy.
    { intros y Hy. apply Hpe, (Hgt rest); [done| |done]. intros q Hq. by apply Hpe, Hpr. }
    apply StronglySorted_app. split_and!; [|done|constructor; [by apply IH|by apply Forall_forall]].
    intros x y Hx [->|Hin]%elem_of_cons; [apply Hp3; [done|by left]|].
    transitivity p; [apply Hp3; [done|by left]|by apply Hy].
  - apply Hother. assert (before rev e p) as Hep.
    { apply before_total; [apply Hrest; by left|]. intros H. apply Hneq.
      by rewrite <- sgn_eq, Bytes.compareBytes_lex, H, (cmp_refl blex). }
    intros q [->|Hq]%elem_of_cons; [done|]. transitivity p; auto.
Qed.

Lemma strict_sorted_unique rev (l1 l2 : list kventry) :
  StronglySorted (before rev) l1 -> StronglySorted (before rev) l2 ->
  (forall x, x ∈ l1 <-> x ∈ l2) -> l1 = l2.
Proof.
  intros H1. revert l2. induction H1 as [|x l1 Hs1 IH Hx]; intros l2 H2 Heq.
  { destruct l2 as [|y l2]; [done|]. exfalso. apply (not_elem_of_nil y), Heq. by left. }
  destruct H2 as [|y l2 Hs2 Hy]; [exfalso; apply (not_elem_of_nil x), Heq; by left|].
  rewrite Forall_forall in Hx, Hy.
  assert (x = y) as ->.
  { assert (x ∈ y :: l2) as [->|Hin1]%elem_of_cons by (apply Heq; by left); [done|].
    assert (y ∈ x :: l1) as [->|Hin2]%elem_of_cons by (apply Heq; by left); [done|].
    exfalso. apply (entry_before_irrefl rev x x eq_refl). transitivity y; auto. }
  f_equal. apply IH; [done|]. intros z.
  assert (z ∈ l1 -> z <> y /\ z ∈ y :: l1) as Ha.
  { intros Hz. split; [|by right]. intros ->. by apply (entry_before_irrefl rev y y eq_refl), Hx. }
  assert (z ∈ l2 -> z <> y /\ z ∈ y :: l2) as Hb.
  { intros Hz. split; [|by right]. intros ->. by apply (entry_before_irrefl rev y y eq_refl), Hy. }
  specialize (Heq z). rewrite !elem_of_cons in *. tauto.
Qed.

(** ** The inputs of the merge *)

Lemma le_sorted_strict (l : list kventry) :
  NoDup l.*1 -> StronglySorted (fun a b => blex a.1 b.1 <> Gt) l -> StronglySorted (before false) l.
Proof.
  intros Hn Hs. induction Hs as [|x l Hs IH Hx]; constructor; cbn in Hn; apply NoDup_cons in Hn as [Hnx Hn].
  - by apply IH.
  - rewrite Forall_forall in *. intros y Hy. specialize (Hx y Hy). unfold before.
    destruct (blex x.1 y.1) eqn:E; [|done|done].
    apply (cmp_eq blex) in E. exfalso. apply Hnx. rewrite E. by apply list_elem_of_fmap_2.
Qed.

Lemma entries_strict m : StronglySorted (before false) (sorted_entries m).
Proof.
  apply le_sorted_strict; [|apply sorted_entries_sorted].
  unfold sorted_entries. rewrite (js_sort_perm compareEntries). apply NoDup_fst_map_to_list.
Qed.

Lemma filter_sorted {A} (R : relation A) (f : A -> bool) l :
  StronglySorted R l -> StronglySorted R (List.filter f l).
Proof.
  induction 1 as [|x l Hs IH Hx]; cbn; [constructor|]. destruct (f x); [|done].
  constructor; [done|]. rewrite Forall_forall in *. intros y [_ Hy]%bfilter_elem%and_comm.
  by apply Hx.
Qed.

Lemma dir_sorted rev l :
  StronglySorted (before false) l -> StronglySorted (before rev) (if rev then reverse l else l).
Proof. destruct rev; [|done]. intros H. by apply StronglySorted_reverse in H. Qed.

Lemma spec_iterate_strict o m :
  o_limit o = None -> StronglySorted (before (o_reverse o)) (spec_iterate o m).
Proof.
  intros Hl. unfold spec_iterate. rewrite Hl. cbn. apply dir_sorted, filter_sorted, entries_strict.
Qed.

Lemma elem_of_spec_iterate o m e :
  o_limit o = None -> e ∈ spec_iterate o m <-> in_range o e.1 = true /\ m !! e.1 = Some e.2.
Proof.
  intros Hl. unfold spec_iterate. rewrite Hl. cbn.
  assert (e ∈ (if o_reverse o then reverse (List.filter (fun e => in_range o e.1) (sorted_entries m))
     else List.filter (fun e => in_range o e.1) (sorted_entries m))
     <-> e ∈ List.filter (fun e => in_range o e.1) (sorted_entries m)) as ->.
  { destruct (o_reverse o); [apply elem_of_reverse|done]. }
  rewrite bfilter_elem. destruct e as [k v]. rewrite elem_of_sorted_entries. cbn. tauto.
Qed.

Lemma keyWithinBounds_spec k o : keyWithinBounds k o = in_range o k.
Proof.
  unfold keyWithinBounds, in_range, lower_ok, upper_ok, test, opt_test.
  assert (forall b, (Bytes.compareBytes k b <? 0) = is_lt (blex k b) /\
    (Bytes.compareBytes k b <=? 0) = negb (is_gt (blex k b)) /\
    (0 <? Bytes.compareBytes k b) = is_gt (blex k b) /\
    (0 <=? Bytes.compareBytes k b) = negb (is_lt (blex k b))) as H.
  { intros b. rewrite <- Bytes.compareBytes_lex. unfold sgn.
    destruct (Z.compare_spec (Bytes.compareBytes k b) 0); cbn; repeat split; lia. }
  destruct (o_gte o) as [a|], (o_gt o) as [b|], (o_lte o) as [c|], (o_lt o) as [d|]; cbn;
    rewrite ?(proj1 (H _)), ?(proj1 (proj2 (H _))), ?(proj1 (proj2 (proj2 (H _)))),
      ?(proj2 (proj2 (proj2 (H _))));
    repeat match goal with |- context [blex k ?x] => destruct (blex k x); cbn end; done.
Qed.

Section ScanSpec.
Context {Event S : Type} `{!KVStore S, !KVStoreLaws S}.

Abbreviation coordinator := (TransactionCoordinator (Event := Event)).

(** A pending view that turns the rows [m] into [m']. *)
Record overlays (v : OrderedPendingOps) (m m' : kvmap) : Prop := {
  overlay_sorted : StronglySorted (before false) (ordered_puts v);
  overlay_lookup : forall e, m' !! e.1 = Some e.2 <->
    e ∈ ordered_puts v \/ (m !! e.1 = Some e.2 /\ survives (ordered_deletes v) (ordered_puts v) e)
}.

Lemma with_reverse_range o rev k : in_range (with_reverse o rev) k = in_range o k.
Proof. by destruct rev. Qed.

Lemma with_reverse_wf o rev : wf_options o -> wf_options (with_reverse o rev).
Proof. by destruct rev. Qed.

Lemma merge_overlay store v m' bounds rev :
  kv_ok store -> wf_options bounds -> o_limit bounds = None -> o_reverse bounds = false ->
  overlays v (kv_abs store) m' ->
  mergeWithPending store (Some v) bounds rev = Ok (spec_iterate (with_reverse bounds rev) m').
Proof.
  intros Hok Hwf Hl Hr [Hsort Hlook]. unfold mergeWithPending.
  assert (o_limit (with_reverse bounds rev) = None) as Hl' by by destruct rev.
  assert (o_reverse (with_reverse bounds rev) = rev) as Hr' by by destruct rev.
  rewrite kv_iterate_spec by (done || by apply with_reverse_wf).
  destruct (_ && _) eqn:Hempty.
  - apply andb_true_iff in Hempty as [H1%Nat.eqb_eq H2%Nat.eqb_eq].
    apply nil_length_inv in H1. apply size_empty_iff in H2. f_equal. f_equal.
    apply map_eq. intros k. apply option_eq. intros x. rewrite (Hlook (k, x)), H1.
    unfold survives. cbn. split; [intros H; right|intros [Hn|[H _]]; [by apply elem_of_nil in Hn|done]].
    split; [done|]. split; [set_solver|]. intros p Hp. by apply elem_of_nil in Hp.
  - cbn [res_bind]. f_equal. fold (sign_of rev).
    set (P := List.filter (fun e => keyWithinBounds e.1 bounds) (ordered_puts v)).
    assert (forall e, e ∈ (if rev then reverse P else P) <-> e ∈ ordered_puts v /\ in_range bounds e.1 = true)
      as HP.
    { intros e. rewrite <- keyWithinBounds_spec. subst P.
      transitivity (e ∈ List.filter (fun e => keyWithinBounds e.1 bounds) (ordered_puts v)).
      - destruct rev; [apply elem_of_reverse|done].
      - apply (bfilter_elem (fun e => keyWithinBounds e.1 bounds)). }
    assert (StronglySorted (before rev) (if rev then reverse P else P)) as HPs
      by (apply dir_sorted, filter_sorted, Hsort).
    pose proof (spec_iterate_strict (with_reverse bounds rev) (kv_abs store) Hl') as Hs1.
    pose proof (spec_iterate_strict (with_reverse bounds rev) m' Hl') as Hs2. rewrite Hr' in *.
    apply (strict_sorted_unique rev); [by apply merge_loop_sorted|done|].
    intros e. rewrite merge_loop_elem by done. rewrite !elem_of_spec_iterate by done.
    rewrite HP, with_reverse_range, Hlook.
    assert (in_range bounds e.1 = true ->
      survives (ordered_deletes v) (if rev then reverse P else P) e
      <-> survives (ordered_deletes v) (ordered_puts v) e) as Hsv.
    { intros Hin. unfold survives. apply and_iff_compat_l. split; intros H q Hq.
      - intros Heq. apply (H q); [|done]. apply HP. by rewrite Heq.
      - apply H. by apply HP in Hq as [Hq _]. }
    tauto.
Qed.

(** ** The coordinator's view *)

Lemma bucket_view b m e :
  bucket_ok b -> wf_bytes e.1 ->
  pending_lookup b m e.1 = Some e.2 <->
  e ∈ (map_to_list (puts b)).*2 \/
  (m !! e.1 = Some e.2 /\ survives (deletes b) (map_to_list (puts b)).*2 e).
Proof.
  intros [Hp Hd] Hwf. unfold pending_lookup, survives.
  assert (forall q, q ∈ (map_to_list (puts b)).*2 <-> puts b !! Bytes.bytesToHex q.1 = Some q) as Hel.
  { intros q. rewrite list_elem_of_fmap. split.
    - intros ([hex q'] & -> & Hq). apply elem_of_map_to_list in Hq. cbn.
      by destruct (Hp _ _ Hq) as [_ <-].
    - intros Hq. exists (Bytes.bytesToHex q.1, q). split; [done|]. by apply elem_of_map_to_list. }
  rewrite Hel. case_bool_decide as Hdel.
  - split; [done|]. intros [H|(_ & H & _)]; [by apply Hd in H|done].
  - destruct (puts b !! Bytes.bytesToHex e.1) as [e'|] eqn:He.
    + destruct (Hp _ _ He) as [Hwf' Hhex]. apply Bytes.bytesToHex_inj in Hhex; [|done|done].
      destruct e as [k x], e' as [k' x']; cbn in *; subst k'. split.
      * intros [= ->]. by left.
      * intros [[= ->]|(_ & _ & Hno)]; [done|]. exfalso. apply (Hno (k, x')); [by apply Hel|done].
    + split.
      * intros H. right. split; [done|]. split; [done|]. intros q Hq Heq.
        apply Hel in Hq. rewrite Heq in Hq. congruence.
      * intros [[=]|[H _]]. done.
Qed.

Lemma apply_ops_wf m ops :
  (forall k v, m !! k = Some v -> wf_bytes k) -> Forall (fun op => wf_bytes (op_key op)) ops ->
  forall k v, apply_ops m ops !! k = Some v -> wf_bytes k.
Proof.
  intros Hm Hops. induction ops as [|op ops IH] using rev_ind; [done|].
  apply Forall_app in Hops as [Hops Hop]. apply Forall_cons in Hop as [Hop _].
  intros k v. unfold apply_ops. rewrite foldl_snoc, apply_op_lookup.
  destruct (decide (k = op_key op)) as [->|]; [done|]. by apply IH.
Qed.

Lemma orderedView_overlays ops m :
  Forall (fun op => wf_bytes (op_key op)) ops -> (forall k v, m !! k = Some v -> wf_bytes k) ->
  overlays (orderedView (match ops with [] => None | _ => Some (foldl bucket_op EMPTY_PENDING ops) end))
    m (apply_ops m ops).
Proof.
  intros Hops Hm. set (b := foldl bucket_op EMPTY_PENDING ops).
  assert (bucket_ok b) as Hb by apply (bucket_fold ops m [] Hops wf_nil).
  set (v := orderedView _).
  assert (ordered_puts v = js_sort compareEntries (map_to_list (puts b)).*2 /\ ordered_deletes v = deletes b)
    as [Hv1 Hv2].
  { subst v b. destruct ops as [|op ops]; [done|]. unfold orderedView.
    set (b := foldl bucket_op EMPTY_PENDING (op :: ops)).
    case_bool_decide as H1; [|done]. case_bool_decide as H2; [|done].
    apply map_size_empty_inv in H1. apply size_empty_iff in H2.
    cbn [andb ordered_puts ordered_deletes]. rewrite H1. split; [done|].
    symmetry. by apply leibniz_equiv. }
  split.
  - rewrite Hv1. apply le_sorted_strict.
    + rewrite (js_sort_perm compareEntries). rewrite <- list_fmap_compose.
      apply NoDup_fmap_2_strong; [|apply NoDup_map_to_list].
      intros [h1 e1] [h2 e2] H1%elem_of_map_to_list H2%elem_of_map_to_list Heq. cbn in Heq.
      destruct (bucket_puts _ Hb _ _ H1) as [_ ->], (bucket_puts _ Hb _ _ H2) as [_ ->].
      rewrite Heq in *. congruence.
    + eapply StronglySorted_impl, (js_sort_sorted compareEntries).
      intros x y _ _. unfold cmp_le. by rewrite compareEntries_lex.
  - intros e. rewrite Hv1, Hv2.
    assert (wf_bytes e.1 -> apply_ops m ops !! e.1 = Some e.2 <->
      e ∈ (map_to_list (puts b)).*2 \/
      (m !! e.1 = Some e.2 /\ survives (deletes b) (map_to_list (puts b)).*2 e)) as Hview.
    { intros Hwf. rewrite <- bucket_view by done. subst b.
      by rewrite (proj2 (bucket_fold ops m e.1 Hops Hwf)). }
    unfold survives in *. setoid_rewrite elem_of_js_sort. split.
    + intros H. apply Hview; [by eapply apply_ops_wf|done].
    + intros H. apply Hview; [|done]. destruct H as [H|[H _]]; [|by eapply Hm].
      apply list_elem_of_fmap in H as ([h q] & -> & Hq). apply elem_of_map_to_list in Hq.
      by apply (bucket_puts _ Hb _ _ Hq).
Qed.

Lemma coordinator_view (st : coordinator) handle m :
  coordinator_ok st -> wf_log (pendingOps st) -> (forall k v, m !! k = Some v -> wf_bytes k) ->
  overlays (getOrderedPendingOps st handle) m (apply_ops m (ops_of handle (pendingOps st))).
Proof.
  intros Hok Hwf Hm. unfold getOrderedPendingOps. rewrite (ok_index _ Hok), index_fold.
  pose proof (orderedView_overlays (ops_of handle (pendingOps st)) m (ops_of_wf _ _ Hwf) Hm) as H.
  by destruct (ops_of handle (pendingOps st)).
Qed.

Lemma iterateEffective_spec (st : coordinator) handle store bounds rev :
  coordinator_ok st -> wf_log (pendingOps st) -> kv_ok store ->
  wf_options bounds -> o_limit bounds = None -> o_reverse bounds = false ->
  iterateEffective (Some st) handle store bounds rev
  = Ok (spec_iterate (with_reverse bounds rev) (apply_ops (kv_abs store) (ops_of handle (pendingOps st)))).
Proof.
  intros Hok Hwf Hs Hb Hl Hr. unfold iterateEffective. destruct (inTransaction st) eqn:Ht.
  - apply merge_overlay; try done. apply coordinator_view; [done|done|]. intros k v. by apply kv_abs_wf.
  - destruct (ok_idle _ Hok Ht) as (-> & _). cbn. apply kv_iterate_spec; [done|by apply with_reverse_wf].
Qed.

(** ** Properties of scans *)

(** C22: A table's effective scan within any bounds, in either direction, is
    exactly the ordered scan of the committed store with the transaction's
    buffered ops for that store applied: no row is missed, repeated, stale or
    out of order, and other stores' ops do not show. *)
Theorem effective_scan (cs : list call) (handle : nat) (store : S) (bounds : IterateOptions) (rev : bool) :
  let st : coordinator := run new_coordinator cs in
  wf_log (pendingOps st) -> kv_ok store ->
  wf_options bounds -> o_limit bounds = None -> o_reverse bounds = false ->
  iterateEffective (Some st) handle store bounds rev
  = Ok (spec_iterate (with_reverse bounds rev) (apply_ops (kv_abs store) (ops_of handle (pendingOps st)))).
Proof. intros st. apply iterateEffective_spec, run_ok, new_coordinator_ok. Qed.

End ScanSpec.

(** ** Point reads *)

Section Rows.
Context {Event S Row : Type} `{!KVStore S}.
Context (deserializeRow : bytes -> Row).

Abbreviation coordinator := (TransactionCoordinator (Event := Event)).

Definition pendingDataOps (coord : option coordinator) (handle : nat) : option PendingBucket :=
  match coord with
  | Some c => if inTransaction c then Some (getPendingOpsForStore c handle) else None
  | None => None
  end.

(** [None]: the overlay has nothing to say; [Some None]: the row is gone. *)
Definition pendingRowFor (pending : option PendingBucket) (key : bytes) : option (option Row) :=
  match pending with
  | None => None
  | Some p =>
    let hex := Bytes.bytesToHex key in
    if bool_decide (hex ∈ deletes p) then Some None
    else match puts p !! hex with
         | Some overlay => Some (Some (deserializeRow overlay.2))
         | None => None
         end
  end.

Definition readEffectiveRowByKey (coord : option coordinator) (handle : nat) (store : S) (key : bytes)
    : res (option Row) :=
  match pendingRowFor (pendingDataOps coord handle) key with
  | Some overlay => Ok overlay
  | None =>
    let* value := kv_get store key in
    Ok (deserializeRow <$> value)
  end.

(** [KVStore.getMany]: positional, one answer per key. *)
Definition getMany (store : S) (keys : list bytes) : res (list (option bytes)) :=
  res_map (kv_get store) keys.

(** The first loop of the batch read: a slot per key, filled where the overlay
    decides, and the positions and keys it leaves. *)
Fixpoint overlay_rows (pending : option PendingBucket) (i : nat) (keys : list bytes)
    : list (option (option Row)) * list (nat * bytes) :=
  match keys with
  | [] => ([], [])
  | key :: keys' =>
    let '(rows, misses) := overlay_rows pending (Datatypes.S i) keys' in
    match pendingRowFor pending key with
    | Some overlay => (Some overlay :: rows, misses)
    | None => (None :: rows, (i, key) :: misses)
    end
  end.

(** The second loop: each fetched value into its remembered position. *)
Fixpoint fill_rows (rows : list (option (option Row))) (misses : list (nat * bytes))
    (values : list (option bytes)) : list (option (option Row)) :=
  match misses, values with
  | (pos, _) :: misses', value :: values' =>
    fill_rows (<[pos := Some (deserializeRow <$> value)]> rows) misses' values'
  | _, _ => rows
  end.

(** A slot left unset would read as [undefined]. *)
Definition readEffectiveRowsByKeys (coord : option coordinator) (handle : nat) (store : S)
    (keys : list bytes) : res (list (option (option Row))) :=
  if (length keys =? 0)%nat then Ok []
  else
    let '(rows, misses) := overlay_rows (pendingDataOps coord handle) 0 keys in
    if (0 <? length misses)%nat then
      let* values := getMany store misses.*2 in
      Ok (fill_rows rows misses values)
    else Ok rows.

Context `{!KVStoreLaws S}.

Lemma readEffectiveRow_spec (st : coordinator) handle store key :
  coordinator_ok st -> wf_log (pendingOps st) -> kv_ok store -> wf_bytes key ->
  readEffectiveRowByKey (Some st) handle store key
  = Ok (deserializeRow <$> apply_ops (kv_abs store) (ops_of handle (pendingOps st)) !! key).
Proof.
  intros Hok Hwf Hs Hk. unfold readEffectiveRowByKey, pendingDataOps.
  destruct (inTransaction st) eqn:Ht.
  - rewrite <- (proj2 (pending_for_store st handle (kv_abs store) key Hok Hwf Hk)).
    unfold pendingRowFor, pending_lookup. case_bool_decide; [done|].
    destruct (puts _ !! _); [done|]. by rewrite kv_get_spec.
  - destruct (ok_idle _ Hok Ht) as (-> & _). cbn. by rewrite kv_get_spec.
Qed.

(** Filling the remembered positions puts every answer in its place. *)
Lemma fill_overlay p (f : bytes -> option bytes) keys pre :
  let '(rows, misses) := overlay_rows p (length pre) keys in
  fill_rows (pre ++ rows) misses (map f misses.*2)
  = pre ++ map (fun k => Some (match pendingRowFor p k with
                               | Some o => o
                               | None => deserializeRow <$> f k
                               end)) keys.
Proof.
  revert pre. induction keys as [|k keys IH]; intros pre; [done|]. cbn [overlay_rows].
  destruct (pendingRowFor p k) as [o|] eqn:Hk.
  - specialize (IH (pre ++ [Some o])). rewrite length_app, Nat.add_1_r in IH.
    destruct (overlay_rows p _ keys) as [rows misses]. rewrite <- !app_assoc in IH. cbn in *.
    by rewrite IH, Hk.
  - specialize (IH (pre ++ [Some (deserializeRow <$> f k)])). rewrite length_app, Nat.add_1_r in IH.
    destruct (overlay_rows p _ keys) as [rows misses]. rewrite <- !app_assoc in IH. cbn in *.
    rewrite insert_app_r_alt, Nat.sub_diag by lia. cbn. by rewrite IH, Hk.
Qed.

Lemma overlay_misses p i keys : Forall (fun m => m.2 ∈ keys) (overlay_rows p i keys).2.
Proof.
  revert i. induction keys as [|k keys IH]; intros i; cbn; [constructor|].
  specialize (IH (Datatypes.S i)). destruct (overlay_rows p _ keys) as [rows misses]. cbn in IH.
  destruct (pendingRowFor p k); cbn; [|apply Forall_cons; split; [by left|]];
    (eapply Forall_impl; [exact IH|]; intros x Hx; by right).
Qed.

Lemma getMany_spec store keys :
  kv_ok store -> Forall wf_bytes keys -> getMany store keys = Ok (map (fun k => kv_abs store !! k) keys).
Proof.
  intros Hs. induction 1 as [|k keys Hk Hkeys IH]; [done|]. unfold getMany in *. cbn.
  by rewrite kv_get_spec, IH.
Qed.

Lemma readEffectiveRows_spec coord handle store keys :
  kv_ok store -> Forall wf_bytes keys ->
  readEffectiveRowsByKeys coord handle store keys
  = let* rows := res_map (readEffectiveRowByKey coord handle store) keys in Ok (map Some rows).
Proof.
  intros Hs Hkeys. set (p := pendingDataOps coord handle).
  assert (res_map (readEffectiveRowByKey coord handle store) keys
    = Ok (map (fun k => match pendingRowFor p k with
                        | Some o => o
                        | None => deserializeRow <$> kv_abs store !! k
                        end) keys)) as ->.
  { induction Hkeys as [|k keys Hk Hkeys IH]; [done|]. cbn. rewrite IH.
    unfold readEffectiveRowByKey. fold p. destruct (pendingRowFor p k); [done|].
    by rewrite kv_get_spec. }
  cbn [res_bind]. rewrite map_map. unfold readEffectiveRowsByKeys. fold p.
  destruct keys as [|k0 keys0]; [done|]. cbn [length Nat.eqb]. set (keys := k0 :: keys0) in *.
  pose proof (fill_overlay p (fun k => kv_abs store !! k) keys []) as Hfill.
  pose proof (overlay_misses p 0 keys) as Hmiss. cbn [length app] in Hfill.
  destruct (overlay_rows p 0 keys) as [rows misses]. cbn [snd] in Hmiss.
  destruct (Nat.ltb_spec 0 (length misses)) as [Hlt|Hlt].
  - rewrite getMany_spec; [|done|].
    + cbn [res_bind]. by rewrite Hfill.
    + apply Forall_fmap. eapply Forall_impl; [exact Hmiss|]. intros x Hx.
      rewrite Forall_forall in Hkeys. by apply Hkeys.
  - destruct misses; [|cbn in Hlt; lia]. cbn in Hfill. by rewrite Hfill.
Qed.

(** ** Properties of point reads *)

(** Every point read a transaction makes, one key at a time or in a
    batch, returns the row that a successful commit of the transaction as it
    stands makes durable under that key. *)
Theorem effective_reads_durable (cs : list call) (handle : nat) (store : S) (keys : list bytes)
    (en : env) (w w' : world) (es : list effect) :
  let st : coordinator := run new_coordinator cs in
  inTransaction st = true -> wf_log (pendingOps st) -> kv_ok store -> Forall wf_bytes keys ->
  kv_abs store = content w handle ->
  commit en st w = (clearTransaction st, w', es, true) ->
  readEffectiveRowsByKeys (Some st) handle store keys
  = Ok (map (fun k => Some (deserializeRow <$> content w' handle !! k)) keys) /\
  Forall (fun k => readEffectiveRowByKey (Some st) handle store k
                   = Ok (deserializeRow <$> content w' handle !! k)) keys.
Proof.
  intros st Ht Hwf Hs Hkeys Habs Hc.
  assert (coordinator_ok st) as Hok by apply run_ok, new_coordinator_ok.
  assert (all_written w w' (pendingOps st)) as Hw.
  { destruct (commit_spec en st w Ht) as (st1 & w1 & es1 & ok & Hc' & Ho).
    rewrite Hc in Hc'. simplify_eq. by destruct Ho as (_ & ? & _). }
  assert (Forall (fun k => readEffectiveRowByKey (Some st) handle store k
                   = Ok (deserializeRow <$> content w' handle !! k)) keys) as Hpt.
  { eapply Forall_impl; [exact Hkeys|]. intros k Hk. cbv beta.
    rewrite readEffectiveRow_spec by done. by rewrite Habs, Hw. }
  split; [|done]. rewrite readEffectiveRows_spec by done.
  assert (res_map (readEffectiveRowByKey (Some st) handle store) keys
    = Ok (map (fun k => deserializeRow <$> content w' handle !! k) keys)) as ->.
  { clear Hkeys. induction Hpt as [|k keys Hk Hkeys IH]; [done|]. cbn. by rewrite Hk, IH. }
  cbn. by rewrite map_map.
Qed.

End Rows.

Import MemoryStore.

(** A table with rows 1 and 3 committed, and a transaction that adds 2,
    overwrites 3, deletes 1 and writes another store. *)
Definition demo_store : InMemoryKVStore :=
  match batch_write new_store [OpPut [1] [10]; OpPut [3] [30]] with
  | Ok s => s
  | Throw _ => new_store
  end.

Definition demo_txn : list (call (Event := nat)) :=
  [CBegin; CPut [2] [20] 0; CPut [3] [31] 0; CDelete [1] 0; CPut [9] [9] 1].

Lemma demo_store_ok :
  store_ok demo_store /\ store_abs demo_store = apply_ops ∅ [OpPut [1] [10]; OpPut [3] [30]].
Proof.
  destruct (batch_write_ok new_store [OpPut [1] [10]; OpPut [3] [30]] new_store_ok)
    as (s' & Hs & Hok & Habs).
  - repeat (apply Forall_cons; split; [apply wf_bytesb_spec; reflexivity|]). apply Forall_nil_2.
  - unfold demo_store. rewrite Hs. by rewrite <- new_store_abs.
Qed.

Lemma demo_txn_wf : wf_log (pendingOps (run new_coordinator demo_txn)).
Proof. repeat (apply Forall_cons; split; [apply wf_bytesb_spec; reflexivity|]). apply Forall_nil_2. Qed.

Lemma effective_scan_witness :
  iterateEffective (Some (run new_coordinator demo_txn)) 0 demo_store buildFullScanBounds true
  = Ok [([3], [31]); ([2], [20])].
Proof.
  rewrite (effective_scan demo_txn 0 demo_store buildFullScanBounds true).
  - change (kv_abs demo_store) with (store_abs demo_store). rewrite (proj2 demo_store_ok).
    vm_compute. reflexivity.
  - exact demo_txn_wf.
  - exact (proj1 demo_store_ok).
  - repeat split. apply wf_nil.
  - reflexivity.
  - reflexivity.
Defined.

Definition demo_world : world := {[ 0%nat := store_abs demo_store ]}.

Definition demo_en : env := mkEnv true (Some false) (fun _ => false) (fun _ => false) (fun _ => false).

Lemma effective_reads_durable_witness :
  let st := run new_coordinator demo_txn in
  let w' := (commit demo_en st demo_world).1.1.2 in
  readEffectiveRowsByKeys (fun v => v) (Some st) 0 demo_store [[1]; [2]; [1]]
  = Ok (map (fun k => Some ((fun v => v) <$> content w' 0 !! k)) [[1]; [2]; [1]]) /\
  Forall (fun k => readEffectiveRowByKey (fun v => v) (Some st) 0 demo_store k
                   = Ok ((fun v => v) <$> content w' 0 !! k)) [[1]; [2]; [1]].
Proof.
  intros st w'.
  apply (effective_reads_durable (fun v => v) demo_txn 0 demo_store [[1]; [2]; [1]] demo_en demo_world w'
    (commit demo_en st demo_world).1.2).
  - reflexivity.
  - exact demo_txn_wf.
  - exact (proj1 demo_store_ok).
  - repeat (apply Forall_cons; split; [apply wf_bytesb_spec; reflexivity|]). apply Forall_nil_2.
  - reflexivity.
  - reflexivity.
Defined.

End StoreRead.
