(* ===== verification/Cache.v ===== *)
(** * Read-through cache

    Models [packages/quereus-store/src/common/cached-kv-store.ts]: an LRU cache
    in front of any [KVStore].  The doubly-linked list is kept at pointer level:
    a node is identified by its hex key (the key of the [map] that holds it),
    and [prev]/[next]/[head]/[tail] are such identities. *)

From S2P Require Import Prelude Bytes KvStore.
From Stdlib Require Import ZArith Lia.
From stdpp Require Import sorting.
From stdpp Require Import base tactics numbers sets gmap list.
#[local] Open Scope Z_scope.

Module Cache.

Record LRUNode := mkNode {
  n_value : option bytes;
  n_size : Z;
  n_prev : option jsstring;
  n_next : option jsstring
}.

Section Cached.
Context {S : Type} `{!KVStore S}.

Record CachedKVStore := mkCache {
  store : S;
  maxEntries : Z;
  maxBytes : option Z;
  enabled : bool;
  head : option jsstring;
  tail : option jsstring;
  map : gmap jsstring LRUNode;
  totalBytes : Z
}.

Record CacheOptions := mkCacheOptions {
  opt_maxEntries : option Z;
  opt_maxBytes : option Z;
  opt_enabled : option bool
}.

Definition new_cache (s : S) (options : option CacheOptions) : CachedKVStore :=
  mkCache s (default 1000 (options ≫= opt_maxEntries)) (options ≫= opt_maxBytes)
    (default true (options ≫= opt_enabled)) None None ∅ 0.

Definition set_store (c : CachedKVStore) (s : S) : CachedKVStore :=
  mkCache s (maxEntries c) (maxBytes c) (enabled c) (head c) (tail c) (map c) (totalBytes c).
Definition set_head (c : CachedKVStore) (h : option jsstring) : CachedKVStore :=
  mkCache (store c) (maxEntries c) (maxBytes c) (enabled c) h (tail c) (map c) (totalBytes c).
Definition set_tail (c : CachedKVStore) (t : option jsstring) : CachedKVStore :=
  mkCache (store c) (maxEntries c) (maxBytes c) (enabled c) (head c) t (map c) (totalBytes c).
Definition set_map (c : CachedKVStore) (m : gmap jsstring LRUNode) : CachedKVStore :=
  mkCache (store c) (maxEntries c) (maxBytes c) (enabled c) (head c) (tail c) m (totalBytes c).
Definition set_bytes (c : CachedKVStore) (b : Z) : CachedKVStore :=
  mkCache (store c) (maxEntries c) (maxBytes c) (enabled c) (head c) (tail c) (map c) b.

Definition with_prev (p : option jsstring) (n : LRUNode) : LRUNode :=
  mkNode (n_value n) (n_size n) p (n_next n).
Definition with_next (x : option jsstring) (n : LRUNode) : LRUNode :=
  mkNode (n_value n) (n_size n) (n_prev n) x.
Definition with_value (v : option bytes) (size : Z) (n : LRUNode) : LRUNode :=
  mkNode v size (n_prev n) (n_next n).

(** Write through a node pointer. *)
Definition upd (c : CachedKVStore) (k : jsstring) (f : LRUNode -> LRUNode) : CachedKVStore :=
  set_map c (alter f k (map c)).

(** ** LRU internals *)

Definition prependNode (c : CachedKVStore) (node : jsstring) : CachedKVStore :=
  let c := upd c node (with_prev None) in
  let c := upd c node (with_next (head c)) in
  let c := match head c with
           | Some h => upd c h (with_prev (Some node))
           | None => c
           end in
  let c := set_head c (Some node) in
  match tail c with
  | None => set_tail c (Some node)
  | Some _ => c
  end.

Definition unlinkNode (c : CachedKVStore) (node : jsstring) : CachedKVStore :=
  let prev := map c !! node ≫= n_prev in
  let next := map c !! node ≫= n_next in
  let c := match prev with
           | Some p => upd c p (with_next next)
           | None => set_head c next
           end in
  let c := match next with
           | Some n => upd c n (with_prev prev)
           | None => set_tail c prev
           end in
  upd (upd c node (with_prev None)) node (with_next None).

Definition moveToHead (c : CachedKVStore) (node : jsstring) : CachedKVStore :=
  if decide (head c = Some node) then c else prependNode (unlinkNode c node) node.

Definition size_of (c : CachedKVStore) (hex : jsstring) : Z :=
  match map c !! hex with
  | Some n => n_size n
  | None => 0
  end.

Definition over_limit (c : CachedKVStore) : bool :=
  (maxEntries c <? Z.of_nat (size (map c)))
  || match maxBytes c with Some b => b <? totalBytes c | None => false end.

Definition drop_node (c : CachedKVStore) (node : jsstring) : CachedKVStore :=
  let sz := size_of c node in
  let c := unlinkNode c node in
  let c := set_map c (delete node (map c)) in
  set_bytes c (totalBytes c - sz).

(** The [while] of [evict]: each turn drops the tail, so as many turns as there
    are entries are enough. *)
Fixpoint evict_loop (fuel : nat) (c : CachedKVStore) : CachedKVStore :=
  match fuel with
  | O => c
  | Datatypes.S fuel' =>
    if over_limit c then
      match tail c with
      | None => c
      | Some evicted => evict_loop fuel' (drop_node c evicted)
      end
    else c
  end.

Definition evict (c : CachedKVStore) : CachedKVStore := evict_loop (size (map c)) c.

(** The update of an entry that is already cached, shared by [addEntry], [put]
    and [delete]. *)
Definition update_entry (c : CachedKVStore) (hex : jsstring) (value : option bytes) (size : Z)
    : CachedKVStore :=
  let c := set_bytes c (totalBytes c - size_of c hex) in
  let c := upd c hex (with_value value size) in
  let c := set_bytes c (totalBytes c + size) in
  moveToHead c hex.

Definition addEntry (c : CachedKVStore) (hex : jsstring) (value : option bytes) (size : Z)
    : CachedKVStore :=
  match map c !! hex with
  | Some _ => update_entry c hex value size
  | None =>
    let c := set_map c (<[hex := mkNode value size None None]> (map c)) in
    let c := set_bytes c (totalBytes c + size) in
    evict (prependNode c hex)
  end.

Definition removeEntry (c : CachedKVStore) (hex : jsstring) : CachedKVStore :=
  match map c !! hex with
  | None => c
  | Some _ => drop_node c hex
  end.

Definition invalidate (c : CachedKVStore) (key : bytes) : CachedKVStore :=
  removeEntry c (Bytes.bytesToHex key).

Definition invalidateAll (c : CachedKVStore) : CachedKVStore :=
  mkCache (store c) (maxEntries c) (maxBytes c) (enabled c) None None ∅ 0.

(** ** The store operations *)

Definition len (b : bytes) : Z := Z.of_nat (length b).

Definition entry_size (key : bytes) (value : option bytes) : Z :=
  len key + match value with Some v => len v | None => 0 end.

Definition get (c : CachedKVStore) (key : bytes) : res (option bytes * CachedKVStore) :=
  if negb (enabled c) then let* v := kv_get (store c) key in Ok (v, c)
  else
    let hex := Bytes.bytesToHex key in
    match map c !! hex with
    | Some node => Ok (n_value node, moveToHead c hex)
    | None =>
      let* value := kv_get (store c) key in
      Ok (value, addEntry c hex value (entry_size key value))
    end.

(** The store's own [has] answers whether a [get] finds a value. *)
Definition has (c : CachedKVStore) (key : bytes) : res (bool * CachedKVStore) :=
  if negb (enabled c) then let* v := kv_get (store c) key in Ok (bool_decide (is_Some v), c)
  else
    let hex := Bytes.bytesToHex key in
    match map c !! hex with
    | Some node => Ok (bool_decide (is_Some (n_value node)), moveToHead c hex)
    | None =>
      let* value := kv_get (store c) key in
      Ok (bool_decide (is_Some value), addEntry c hex value (entry_size key value))
    end.

(** The first loop of [getMany]: hits answered, misses remembered by position. *)
Fixpoint many_hits (c : CachedKVStore) (i : nat) (keys : list bytes)
    : list (option bytes) * list (nat * bytes) * CachedKVStore :=
  match keys with
  | [] => ([], [], c)
  | key :: keys' =>
    let hex := Bytes.bytesToHex key in
    match map c !! hex with
    | Some node =>
      let '(out, misses, c') := many_hits (moveToHead c hex) (Datatypes.S i) keys' in
      (n_value node :: out, misses, c')
    | None =>
      let '(out, misses, c') := many_hits c (Datatypes.S i) keys' in
      (None :: out, (i, key) :: misses, c')
    end
  end.

Fixpoint many_fill (c : CachedKVStore) (out : list (option bytes)) (misses : list (nat * bytes))
    (values : list (option bytes)) : list (option bytes) * CachedKVStore :=
  match misses, values with
  | (pos, key) :: misses', value :: values' =>
    let c := addEntry c (Bytes.bytesToHex key) value (entry_size key value) in
    many_fill c (<[pos := value]> out) misses' values'
  | _, _ => (out, c)
  end.

Definition getMany (c : CachedKVStore) (keys : list bytes)
    : res (list (option bytes) * CachedKVStore) :=
  if negb (enabled c) then let* vs := res_map (kv_get (store c)) keys in Ok (vs, c)
  else
    let '(out, misses, c) := many_hits c 0 keys in
    if (0 <? length misses)%nat then
      let* values := res_map (kv_get (store c)) misses.*2 in
      Ok (many_fill c out misses values)
    else Ok (out, c).

Definition put (c : CachedKVStore) (key value : bytes) : res CachedKVStore :=
  let* s := kv_put (store c) key value in
  let c := set_store c s in
  if negb (enabled c) then Ok c
  else
    let hex := Bytes.bytesToHex key in
    match map c !! hex with
    | Some _ => Ok (update_entry c hex (Some value) (len key + len value))
    | None => Ok (addEntry c hex (Some value) (len key + len value))
    end.

Definition delete_ (c : CachedKVStore) (key : bytes) : res CachedKVStore :=
  let* s := kv_delete (store c) key in
  let c := set_store c s in
  if negb (enabled c) then Ok c
  else
    let hex := Bytes.bytesToHex key in
    match map c !! hex with
    | Some _ => Ok (update_entry c hex None (len key))
    | None => Ok (addEntry c hex None (len key))
    end.

Definition iterate (c : CachedKVStore) (options : IterateOptions) : res (list kventry) :=
  kv_iterate (store c) options.

(** [CachedWriteBatch.write] with its queued ops. *)
Definition batch_write (c : CachedKVStore) (ops : list BatchOp) : res CachedKVStore :=
  let* s := kv_write (store c) ops in
  Ok (foldl (fun c op => invalidate c (op_key op)) (set_store c s) ops).

(** [close]: the cache is dropped before the underlying store is closed. *)
Definition close (store_close : S -> S) (c : CachedKVStore) : CachedKVStore :=
  let c := invalidateAll c in
  set_store c (store_close (store c)).

End Cached.

(** ** The linked list *)

Abbreviation nodes := (gmap jsstring LRUNode).

Definition hd_or (l : list jsstring) (n : option jsstring) : option jsstring :=
  match l with
  | [] => n
  | k :: _ => Some k
  end.

Definition last_or (p : option jsstring) (l : list jsstring) : option jsstring :=
  match last l with
  | Some k => Some k
  | None => p
  end.

(** The nodes of [l] point at each other in order; the first points back to
    [p] and the last forward to [n]. *)
Fixpoint dll (m : nodes) (p : option jsstring) (l : list jsstring) (n : option jsstring) : Prop :=
  match l with
  | [] => True
  | k :: l' =>
    (exists node, m !! k = Some node /\ n_prev node = p /\ n_next node = hd_or l' n) /\
    dll m (Some k) l' n
  end.

Lemma last_or_cons p k l : last_or p (k :: l) = last_or (Some k) l.
Proof. unfold last_or. rewrite last_cons. by destruct (last l). Qed.

Lemma last_or_snoc p l k : last_or p (l ++ [k]) = Some k.
Proof. unfold last_or. by rewrite last_snoc. Qed.

Lemma hd_or_app l1 l2 n : hd_or (l1 ++ l2) n = hd_or l1 (hd_or l2 n).
Proof. by destruct l1. Qed.

Lemma last_or_app p l1 l2 : last_or p (l1 ++ l2) = last_or (last_or p l1) l2.
Proof.
  revert p. induction l1 as [|k l1 IH]; intros p; [done|]. cbn [app]. by rewrite !last_or_cons, IH.
Qed.

Lemma dll_app m p l1 l2 n :
  dll m p (l1 ++ l2) n <-> dll m p l1 (hd_or l2 n) /\ dll m (last_or p l1) l2 n.
Proof.
  revert p. induction l1 as [|k l1 IH]; intros p; cbn [app dll].
  - unfold last_or. cbn. tauto.
  - rewrite IH, hd_or_app, last_or_cons. tauto.
Qed.

Lemma dll_frame m m' p l n : (forall k, k ∈ l -> m' !! k = m !! k) -> dll m p l n -> dll m' p l n.
Proof.
  revert p. induction l as [|k l IH]; intros p Hm; cbn; [done|]. intros [(node & Hk & H) Hl].
  split; [|apply IH; [|done]; intros x Hx; apply Hm; by right].
  exists node. by rewrite Hm by left.
Qed.

Lemma dll_alter m f k p l n : k ∉ l -> dll m p l n -> dll (alter f k m) p l n.
Proof. intros Hk. apply dll_frame. intros x Hx. apply lookup_alter_ne. by intros ->. Qed.

(** Repointing the head's [prev], and the last node's [next]. *)
Lemma dll_set_prev m k p p' l n :
  k ∉ l -> dll m p (k :: l) n -> dll (alter (with_prev p') k m) p' (k :: l) n.
Proof.
  cbn. intros Hk [(node & Hn & _ & Hx) Hl]. split; [|by apply dll_alter].
  exists (with_prev p' node). by rewrite lookup_alter_eq, Hn.
Qed.

Lemma dll_set_next m k p l n n' :
  k ∉ l -> dll m p (l ++ [k]) n -> dll (alter (with_next n') k m) p (l ++ [k]) n'.
Proof.
  intros Hk. rewrite !dll_app. cbn. intros [Hl [(node & Hn & Hp & _) _]]. split; [by apply dll_alter|].
  split; [|done]. exists (with_next n' node). by rewrite lookup_alter_eq, Hn.
Qed.

(** A null-terminated list from [h] to [t]. *)
Record chain (m : nodes) (l : list jsstring) (h t : option jsstring) : Prop := {
  chain_dll : dll m None l None;
  chain_nodup : NoDup l;
  chain_head : h = hd_or l None;
  chain_tail : t = last_or None l
}.

Section CacheProofs.
Context {S : Type} `{!KVStore S}.

Abbreviation cache := (CachedKVStore (S := S)).

Definition chained (c : cache) (l : list jsstring) : Prop := chain (map c) l (head c) (tail c).

(** What the nodes carry, pointers aside. *)
Definition payload (n : LRUNode) : option bytes * Z := (n_value n, n_size n).
Definition vals (c : cache) : gmap jsstring (option bytes * Z) := payload <$> map c.

Lemma vals_upd (c : cache) k f : (forall n, payload (f n) = payload n) -> vals (upd c k f) = vals c.
Proof.
  intros Hf. unfold vals, upd; cbn. apply map_eq. intros x. rewrite !lookup_fmap.
  destruct (decide (x = k)) as [->|Hne].
  - rewrite lookup_alter_eq. destruct (map c !! k); cbn; [by rewrite Hf|done].
  - by rewrite lookup_alter_ne.
Qed.

Lemma vals_with_prev (c : cache) k p : vals (upd c k (with_prev p)) = vals c.
Proof. by apply vals_upd. Qed.
Lemma vals_with_next (c : cache) k p : vals (upd c k (with_next p)) = vals c.
Proof. by apply vals_upd. Qed.

Lemma vals_is_Some (c : cache) k : is_Some (map c !! k) <-> is_Some (vals c !! k).
Proof. unfold vals. by rewrite lookup_fmap, fmap_is_Some. Qed.

(** Everything the list and the entries do not touch. *)
Definition same_conf (c c' : cache) : Prop :=
  store c' = store c /\ maxEntries c' = maxEntries c /\ maxBytes c' = maxBytes c /\
  enabled c' = enabled c.

Lemma last_or_some k l : exists x, last_or (Some k) l = Some x.
Proof. unfold last_or. destruct (last l); eauto. Qed.

Lemma prependNode_conf (c : cache) k :
  same_conf c (prependNode c k) /\ totalBytes (prependNode c k) = totalBytes c /\ vals (prependNode c k) = vals c.
Proof.
  assert (forall (d : cache) h, vals (set_head d h) = vals d) as Hh by done.
  assert (forall (d : cache) t, vals (set_tail d t) = vals d) as Ht by done.
  unfold prependNode. cbn [head upd set_map].
  destruct (head c); cbn [tail set_head upd set_map]; destruct (tail c);
    (split; [done|]); (split; [done|]); rewrite ?Ht, ?Hh, ?vals_with_prev, ?vals_with_next, ?vals_with_prev; done.
Qed.

Lemma prependNode_chain (c : cache) k l :
  chained c l -> k ∉ l -> is_Some (map c !! k) -> chained (prependNode c k) (k :: l).
Proof.
  intros [Hd Hn Hh Ht] Hk [node Hnode]. unfold chained, prependNode. cbn [head upd set_map].
  rewrite Hh. destruct l as [|h l]; cbn [hd_or] in *.
  - cbn. rewrite Ht. cbn. split; cbn; [|apply NoDup_singleton|done|done].
    split; [|done]. exists (with_next None (with_prev None node)).
    by rewrite !lookup_alter_eq, Hnode.
  - apply not_elem_of_cons in Hk as [Hkh Hkl]. cbn. rewrite Ht, last_or_cons.
    destruct (last_or_some h l) as [x Hx]. rewrite Hx. cbn.
    split; [|apply NoDup_cons; split; [by apply not_elem_of_cons|done]|done|by rewrite Ht, !last_or_cons].
    apply NoDup_cons in Hn as [Hnh Hn]. cbn [dll hd_or]. split.
    + exists (with_next (Some h) (with_prev None node)).
      rewrite lookup_alter_ne by done. by rewrite !lookup_alter_eq, Hnode.
    + apply (dll_set_prev _ _ None); [done|].
      do 2 (apply dll_alter; [by apply not_elem_of_cons|]). done.
Qed.

Lemma unlinkNode_conf (c : cache) k :
  same_conf c (unlinkNode c k) /\ totalBytes (unlinkNode c k) = totalBytes c /\ vals (unlinkNode c k) = vals c.
Proof.
  assert (forall (d : cache) h, vals (set_head d h) = vals d) as Hh by done.
  assert (forall (d : cache) t, vals (set_tail d t) = vals d) as Ht by done.
  unfold unlinkNode. destruct (map c !! k ≫= n_prev), (map c !! k ≫= n_next);
    (split; [done|]); (split; [done|]); rewrite !vals_with_next, ?vals_with_prev, ?Ht, ?Hh, ?vals_with_prev, ?vals_with_next; done.
Qed.

Lemma dll_clear_node m k p l n :
  k ∉ l -> dll m p l n -> dll (alter (with_next None) k (alter (with_prev None) k m)) p l n.
Proof. intros Hk H. by repeat (apply dll_alter; [done|]). Qed.

Lemma unlinkNode_chain (c : cache) k l1 l2 :
  chained c (l1 ++ k :: l2) -> chained (unlinkNode c k) (l1 ++ l2).
Proof.
  intros [Hd Hn Hh Ht].
  apply dll_app in Hd as [Hd1 Hd2]. cbn [dll hd_or] in Hd2, Hd1.
  destruct Hd2 as [(node & Hnode & Hp & Hx) Hd2].
  apply NoDup_app in Hn as (Hn1 & Hn12 & Hn2). apply NoDup_cons in Hn2 as [Hk2 Hn2].
  assert (k ∉ l1) as Hk1 by (intros H; apply (Hn12 k H); by left).
  assert (forall x, x ∈ l1 -> x ∉ l2) as Hdis by (intros x H1 H2; apply (Hn12 x H1); by right).
  assert (NoDup (l1 ++ l2)) as Hnd by (apply NoDup_app; done).
  unfold chained, unlinkNode. rewrite Hnode. cbn [mbind option_bind]. rewrite Hp, Hx.
  rewrite hd_or_app in Hh. rewrite last_or_app, last_or_cons in Ht. cbn [hd_or] in Hh.
  (* the first half, up to its last node's [next] *)
  set (m1 := match last_or None l1 with
             | Some q => alter (with_next (hd_or l2 None)) q (map c) | None => map c end).
  assert (dll m1 None l1 (hd_or l2 None) /\ dll m1 (Some k) l2 None) as [Hm1 Hm2].
  { subst m1. destruct l1 as [|q l1' _] using rev_ind; [done|]. rewrite last_or_snoc.
    assert (q ∉ l1') as Hq by (apply NoDup_app in Hn1 as (_ & H & _); intros Hin; apply (H q Hin); by left).
    split; [by apply (dll_set_next _ _ _ _ (Some k))|].
    apply dll_alter; [|done]. apply Hdis. apply elem_of_app. right. by left. }
  set (m2 := match hd_or l2 None with
             | Some r => alter (with_prev (last_or None l1)) r m1 | None => m1 end).
  assert (dll m2 None (l1 ++ l2) None) as Hm.
  { apply dll_app. subst m2. destruct l2 as [|r l2]; [done|]. cbn [hd_or].
    apply NoDup_cons in Hn2 as [Hr Hn2]. split.
    - apply dll_alter; [|done]. intros H. apply (Hdis r H). by left.
    - by apply (dll_set_prev _ _ (Some k)). }
  assert (k ∉ l1 ++ l2) as Hk12 by (rewrite elem_of_app; tauto).
  apply (dll_clear_node _ k) in Hm; [|done]. subst m2 m1.
  assert (match last_or None l1 with Some _ => head c | None => hd_or l2 None end
          = hd_or (l1 ++ l2) None) as Hhead.
  { rewrite hd_or_app, Hh. destruct l1 as [|a l1]; [done|]. rewrite last_or_cons.
    by destruct (last_or_some a l1) as [x ->]. }
  assert (match hd_or l2 None with Some _ => tail c | None => last_or None l1 end
          = last_or None (l1 ++ l2)) as Htail.
  { rewrite last_or_app, Ht. destruct l2 as [|b l2]; [done|]. cbn [hd_or]. by rewrite !last_or_cons. }
  destruct (last_or None l1) as [q|], (hd_or l2 None) as [r|]; by split.
Qed.

(** ** The entries *)

Definition total (v : gmap jsstring (option bytes * Z)) : Z := map_fold (fun _ x a => x.2 + a) 0 v.

Lemma total_insert v k x : v !! k = None -> total (<[k := x]> v) = x.2 + total v.
Proof. intros Hk. unfold total. rewrite map_fold_insert_L; [done| |done]. intros; lia. Qed.

Lemma total_delete v k x : v !! k = Some x -> total v = x.2 + total (delete k v).
Proof.
  intros Hk. rewrite <- (insert_id v k x Hk) at 1. rewrite <- insert_delete_eq.
  by rewrite total_insert by apply lookup_delete_eq.
Qed.

Lemma total_replace v k x y : v !! k = Some x -> total (<[k := y]> v) = total v - x.2 + y.2.
Proof.
  intros Hk. rewrite <- insert_delete_eq, total_insert by apply lookup_delete_eq.
  rewrite (total_delete v k x Hk). lia.
Qed.

(** The list holds exactly the cached keys, and the byte count is theirs. *)
Record lru_ok (c : cache) : Prop := {
  lru_list : exists l, chained c l /\ forall k, k ∈ l <-> is_Some (vals c !! k);
  lru_total : totalBytes c = total (vals c)
}.

Lemma size_of_vals (c : cache) k x : vals c !! k = Some x -> size_of c k = x.2.
Proof.
  unfold vals, size_of. rewrite lookup_fmap. destruct (map c !! k); cbn; [|done]. by intros [= <-].
Qed.

Lemma same_conf_trans (c1 c2 c3 : cache) : same_conf c1 c2 -> same_conf c2 c3 -> same_conf c1 c3.
Proof. unfold same_conf. intuition congruence. Qed.

Lemma moveToHead_spec (c : cache) k :
  lru_ok c -> is_Some (vals c !! k) ->
  lru_ok (moveToHead c k) /\ same_conf c (moveToHead c k) /\ vals (moveToHead c k) = vals c.
Proof.
  intros [(l & Hl & Hmem) Htot] Hk. unfold moveToHead.
  destruct (decide (head c = Some k)); [split; [by split; [exists l|]|done]|].
  destruct (unlinkNode_conf c k) as (Hc1 & Ht1 & Hv1).
  destruct (prependNode_conf (unlinkNode c k) k) as (Hc2 & Ht2 & Hv2).
  assert (k ∈ l) as (l1 & l2 & ->)%list_elem_of_split by by apply Hmem.
  pose proof (chain_nodup _ _ _ _ Hl) as Hn.
  apply unlinkNode_chain in Hl.
  assert (k ∉ l1 ++ l2) as Hnk.
  { rewrite <- Permutation_middle in Hn. by apply NoDup_cons in Hn as [Hn _]. }
  split; [|split; [by eapply same_conf_trans|congruence]]. split.
  - exists (k :: l1 ++ l2). split.
    + apply prependNode_chain; [done|done|]. apply vals_is_Some. by rewrite Hv1.
    + intros x. rewrite Hv2, Hv1, <- Hmem. by rewrite <- Permutation_middle.
  - congruence.
Qed.

Lemma drop_node_spec (c : cache) k x :
  lru_ok c -> vals c !! k = Some x ->
  lru_ok (drop_node c k) /\ same_conf c (drop_node c k) /\ vals (drop_node c k) = delete k (vals c).
Proof.
  intros [(l & Hl & Hmem) Htot] Hk. unfold drop_node.
  destruct (unlinkNode_conf c k) as (Hc1 & Ht1 & Hv1).
  assert (k ∈ l) as (l1 & l2 & ->)%list_elem_of_split by (apply Hmem; by eexists).
  pose proof (chain_nodup _ _ _ _ Hl) as Hn. setoid_rewrite <- Permutation_middle in Hmem. rewrite <- Permutation_middle in Hn.
  apply NoDup_cons in Hn as [Hnk Hn].
  apply unlinkNode_chain in Hl.
  set (c' := set_bytes _ _).
  assert (vals c' = delete k (vals c)) as Hv by (rewrite <- Hv1; unfold vals; cbn; by rewrite fmap_delete).
  split; [|by split]. split.
  - exists (l1 ++ l2). split.
    + destruct Hl as [Hd Hnd Hh Ht]. split; try done. subst c'; cbn.
      eapply dll_frame; [|exact Hd]. intros y Hy. apply lookup_delete_ne. by intros ->.
    + intros y. rewrite Hv. specialize (Hmem y). rewrite elem_of_cons in Hmem.
      rewrite lookup_delete_is_Some, <- Hmem. split; [|naive_solver]. intros Hy. split; [by intros ->|auto].
  - rewrite Hv. subst c'. cbn [totalBytes set_bytes set_map]. rewrite Ht1, Htot, (size_of_vals c k x Hk), (total_delete _ _ _ Hk). lia.
Qed.

Lemma tail_member (c : cache) k :
  lru_ok c -> tail c = Some k -> is_Some (vals c !! k).
Proof.
  intros [(l & [_ _ _ Ht] & Hmem) _] Hk. apply Hmem. rewrite Hk in Ht. unfold last_or in Ht.
  destruct (last l) as [x|] eqn:E; simplify_eq. by apply last_Some_elem_of.
Qed.

Lemma size_vals (c : cache) : size (map c) = size (vals c).
Proof. unfold vals. by rewrite map_size_fmap. Qed.

Lemma evict_loop_spec fuel (c : cache) :
  (size (vals c) <= fuel)%nat -> lru_ok c ->
  let c' := evict_loop fuel c in
  lru_ok c' /\ same_conf c c' /\ vals c' ⊆ vals c /\ (over_limit c' = false \/ map c' = ∅).
Proof.
  revert c. induction fuel as [|fuel IH]; intros c Hf Hok; cbn.
  { split; [done|]. split; [done|]. split; [done|]. right.
    apply map_size_empty_inv. rewrite size_vals. lia. }
  destruct (over_limit c) eqn:Ho; [|by repeat split; auto; apply Hok].
  destruct (tail c) as [k|] eqn:Ht.
  - destruct (tail_member c k Hok Ht) as [x Hx].
    destruct (drop_node_spec c k x Hok Hx) as (Hok1 & Hc1 & Hv1).
    destruct (IH (drop_node c k)) as (Hok2 & Hc2 & Hv2 & Hd); [|done|].
    { rewrite Hv1, map_size_delete_Some by (by eexists). lia. }
    split; [done|]. split; [by eapply same_conf_trans|]. split; [|done].
    etrans; [exact Hv2|]. rewrite Hv1. apply delete_subseteq.
  - split; [done|]. split; [done|]. split; [done|]. right.
    destruct Hok as [(l & [_ _ _ Htl] & Hmem) _]. rewrite Ht in Htl.
    assert (l = []) as ->.
    { destruct l as [|a l]; [done|]. rewrite last_or_cons in Htl.
      destruct (last_or_some a l) as [y Hy]. congruence. }
    apply map_empty. intros k. destruct (map c !! k) eqn:E; [|done]. exfalso.
    assert (is_Some (vals c !! k)) as H by (apply vals_is_Some; by eexists).
    apply Hmem in H. by apply elem_of_nil in H.
Qed.

Lemma update_entry_spec (c : cache) k v sz x :
  lru_ok c -> vals c !! k = Some x ->
  let c' := update_entry c k v sz in
  lru_ok c' /\ same_conf c c' /\ vals c' = <[k := (v, sz)]> (vals c).
Proof.
  intros [(l & Hl & Hmem) Htot] Hk. unfold update_entry.
  set (c1 := set_bytes (upd _ _ _) _).
  assert (vals c1 = <[k := (v, sz)]> (vals c)) as Hv1.
  { subst c1. unfold vals; cbn. apply map_eq. intros y. rewrite lookup_fmap.
    unfold vals in Hk. rewrite lookup_fmap in Hk. destruct (decide (y = k)) as [->|Hne].
    - rewrite lookup_alter_eq, lookup_insert_eq. by destruct (map c !! k).
    - rewrite lookup_alter_ne, lookup_insert_ne by done. by rewrite lookup_fmap. }
  assert (lru_ok c1) as Hok1.
  { split.
    - exists l. split.
      + destruct Hl as [Hd Hn Hh Ht]. split; try done. subst c1; cbn. clear -Hd.
        revert Hd. generalize (None : option jsstring) at 1 3. induction l as [|a l IH]; intros p; cbn; [done|].
        intros [(node & Ha & Hp & Hx) Hl]. split; [|by apply IH].
        destruct (decide (a = k)) as [->|Hne].
        * exists (with_value v sz node). by rewrite lookup_alter_eq, Ha.
        * exists node. by rewrite lookup_alter_ne.
      + intros y. rewrite Hmem, Hv1. destruct (decide (y = k)) as [->|Hne].
        * rewrite lookup_insert_eq, Hk. by split.
        * by rewrite lookup_insert_ne.
    - rewrite Hv1, (total_replace _ _ x) by done. subst c1; cbn.
      rewrite Htot, (size_of_vals c k x Hk). lia. }
  destruct (moveToHead_spec c1 k Hok1) as (Hok2 & Hc2 & Hv2).
  { rewrite Hv1, lookup_insert_eq. by eexists. }
  split; [done|]. split; [|congruence]. by eapply same_conf_trans; [|exact Hc2].
Qed.

Definition bounded (c : cache) : Prop := Z.of_nat (size (vals c)) <= Z.max 0 (maxEntries c).

Lemma addEntry_spec (c : cache) k v sz :
  lru_ok c ->
  let c' := addEntry c k v sz in
  lru_ok c' /\ same_conf c c' /\ vals c' ⊆ <[k := (v, sz)]> (vals c) /\
  (bounded c -> bounded c').
Proof.
  intros Hok. unfold addEntry. destruct (map c !! k) as [node|] eqn:Hk.
  - destruct (update_entry_spec c k v sz (payload node) Hok) as (H1 & H2 & H3).
    { unfold vals. by rewrite lookup_fmap, Hk. }
    rewrite H3. split; [done|]. split; [done|]. split; [done|].
    unfold bounded. destruct H2 as (_ & -> & _). rewrite H3, map_size_insert_Some; [done|].
    apply vals_is_Some. by eexists.
  - set (c1 := set_bytes (set_map _ _) _).
    assert (vals c1 = <[k := (v, sz)]> (vals c)) as Hv1 by (unfold vals; cbn; by rewrite fmap_insert).
    assert (vals c !! k = None) as Hvk by (unfold vals; by rewrite lookup_fmap, Hk).
    destruct Hok as [(l & Hl & Hmem) Htot].
    assert (k ∉ l) as Hkl by (rewrite Hmem, Hvk; by intros [? ?]).
    destruct (prependNode_conf c1 k) as (Hc2 & Ht2 & Hv2).
    assert (lru_ok (prependNode c1 k)) as Hok2.
    { split.
      - exists (k :: l). split.
        + apply prependNode_chain; [|done|cbn; rewrite lookup_insert_eq; by eexists].
          destruct Hl as [Hd Hn Hh Ht]. split; try done. subst c1; cbn.
          eapply dll_frame; [|exact Hd]. intros y Hy. apply lookup_insert_ne. by intros ->.
        + intros y. rewrite Hv2, Hv1, elem_of_cons, Hmem. destruct (decide (y = k)) as [->|Hne].
          * rewrite lookup_insert_eq. split; [by eexists|by left].
          * rewrite lookup_insert_ne by done. naive_solver.
      - rewrite Ht2, Hv2, Hv1, total_insert by done. subst c1; cbn. lia. }
    destruct (evict_loop_spec (size (map (prependNode c1 k))) (prependNode c1 k))
      as (Hok3 & Hc3 & Hv3 & Hend); [by rewrite size_vals|done|].
    split; [done|]. split; [|split; [by rewrite Hv2, Hv1 in Hv3|]].
    + eapply same_conf_trans; [|exact Hc3]. by eapply same_conf_trans; [|exact Hc2].
    + intros _. unfold bounded, evict. rewrite <- size_vals.
      destruct Hend as [Hlim| ->]; [|rewrite map_size_empty; lia].
      unfold over_limit in Hlim. apply orb_false_iff in Hlim as [Hlim%Z.ltb_ge _].
      lia.
Qed.

Lemma removeEntry_spec (c : cache) k :
  lru_ok c ->
  lru_ok (removeEntry c k) /\ same_conf c (removeEntry c k) /\ vals (removeEntry c k) = delete k (vals c).
Proof.
  intros Hok. unfold removeEntry. destruct (map c !! k) as [node|] eqn:Hk.
  - apply (drop_node_spec c k (payload node)); [done|]. unfold vals. by rewrite lookup_fmap, Hk.
  - split; [done|]. split; [done|]. rewrite delete_id; [done|]. unfold vals. by rewrite lookup_fmap, Hk.
Qed.

(** ** Coherence *)

(** Every cached entry is what the store [m] holds under some key. *)
Definition coherent (v : gmap jsstring (option bytes * Z)) (m : kvmap) : Prop :=
  forall hex x, v !! hex = Some x ->
    exists k, wf_bytes k /\ hex = Bytes.bytesToHex k /\ x.1 = m !! k /\ x.2 = entry_size k x.1.

Lemma coherent_lookup v m k x :
  coherent v m -> wf_bytes k -> v !! Bytes.bytesToHex k = Some x -> x.1 = m !! k.
Proof.
  intros Hc Hk Hx. destruct (Hc _ _ Hx) as (k' & Hk' & Heq & Hv & _).
  apply Bytes.bytesToHex_inj in Heq; [|done|done]. by subst k'.
Qed.

Lemma coherent_weaken v v' m : v' ⊆ v -> coherent v m -> coherent v' m.
Proof. intros Hsub Hc hex x Hx. apply Hc. by eapply lookup_weaken. Qed.

(** Writing [k] in the store and refreshing, or dropping, its entry. *)
Lemma coherent_insert v m m' k :
  coherent v m -> wf_bytes k -> (forall k', k' <> k -> m' !! k' = m !! k') ->
  coherent (<[Bytes.bytesToHex k := (m' !! k, entry_size k (m' !! k))]> v) m'.
Proof.
  intros Hc Hk Hm hex x [[<- <-]|[Hne Hx]]%lookup_insert_Some; [by exists k|].
  destruct (Hc _ _ Hx) as (k' & Hk' & -> & Hv & Hs). exists k'. split; [done|]. split; [done|].
  split; [|done]. rewrite Hv. symmetry. apply Hm. congruence.
Qed.

Lemma coherent_delete v m m' k :
  coherent v m -> wf_bytes k -> (forall k', k' <> k -> m' !! k' = m !! k') ->
  coherent (delete (Bytes.bytesToHex k) v) m'.
Proof.
  intros Hc Hk Hm hex x [Hne Hx]%lookup_delete_Some.
  destruct (Hc _ _ Hx) as (k' & Hk' & -> & Hv & Hs). exists k'. split; [done|]. split; [done|].
  split; [|done]. rewrite Hv. symmetry. apply Hm. congruence.
Qed.

Record cache_ok (c : cache) : Prop := {
  cache_lru : lru_ok c;
  cache_store : kv_ok (store c);
  cache_coherent : coherent (vals c) (kv_abs (store c));
  cache_disabled : enabled c = false -> vals c = ∅;
  cache_bounded : bounded c
}.

(** ** Requests *)

Inductive request : Type :=
| RGet (key : bytes)
| RHas (key : bytes)
| RGetMany (keys : list bytes)
| RPut (key value : bytes)
| RDelete (key : bytes)
| RIterate (options : IterateOptions)
| RBatch (ops : list BatchOp)
| RInvalidate (key : bytes)
| RInvalidateAll.

Inductive answer : Type :=
| AValue (v : option bytes)
| ABool (b : bool)
| AValues (vs : list (option bytes))
| AEntries (es : list kventry)
| ADone.

Definition cache_exec (c : cache) (r : request) : res (answer * cache) :=
  match r with
  | RGet key => let* x := get c key in Ok (AValue x.1, x.2)
  | RHas key => let* x := has c key in Ok (ABool x.1, x.2)
  | RGetMany keys => let* x := getMany c keys in Ok (AValues x.1, x.2)
  | RPut key value => let* c := put c key value in Ok (ADone, c)
  | RDelete key => let* c := delete_ c key in Ok (ADone, c)
  | RIterate o => let* es := iterate c o in Ok (AEntries es, c)
  | RBatch ops => let* c := batch_write c ops in Ok (ADone, c)
  | RInvalidate key => Ok (ADone, invalidate c key)
  | RInvalidateAll => Ok (ADone, invalidateAll c)
  end.

(** What the same request means on a plain map. *)
Definition spec_exec (m : kvmap) (r : request) : answer * kvmap :=
  match r with
  | RGet key => (AValue (m !! key), m)
  | RHas key => (ABool (bool_decide (is_Some (m !! key))), m)
  | RGetMany keys => (AValues (List.map (fun k => m !! k) keys), m)
  | RPut key value => (ADone, <[key := value]> m)
  | RDelete key => (ADone, delete key m)
  | RIterate o => (AEntries (spec_iterate o m), m)
  | RBatch ops => (ADone, apply_ops m ops)
  | RInvalidate _ | RInvalidateAll => (ADone, m)
  end.

Definition wf_request (r : request) : Prop :=
  match r with
  | RGet key | RHas key | RPut key _ | RDelete key | RInvalidate key => wf_bytes key
  | RGetMany keys => Forall wf_bytes keys
  | RIterate o => wf_options o
  | RBatch ops => Forall (fun op => wf_bytes (op_key op)) ops
  | RInvalidateAll => True
  end.

Context `{!KVStoreLaws S}.

(** An operation that keeps the entries, or fills one from the store. *)
Lemma move_ok (c : cache) k :
  cache_ok c -> is_Some (vals c !! k) ->
  cache_ok (moveToHead c k) /\ store (moveToHead c k) = store c /\ enabled (moveToHead c k) = enabled c.
Proof.
  intros [Hl Hs Hc Hd Hb] Hk. destruct (moveToHead_spec c k Hl Hk) as (Hl' & (E1 & E2 & E3 & E4) & Hv).
  split; [|done]. split; rewrite ?E1, ?Hv, ?E4; try done. unfold bounded. by rewrite Hv, E2.
Qed.

Lemma fill_ok (c : cache) k :
  cache_ok c -> enabled c = true -> wf_bytes k ->
  let v := kv_abs (store c) !! k in
  let c' := addEntry c (Bytes.bytesToHex k) v (entry_size k v) in
  cache_ok c' /\ store c' = store c /\ enabled c' = enabled c.
Proof.
  intros [Hl Hs Hc Hd Hb] He Hk v c'.
  destruct (addEntry_spec c (Bytes.bytesToHex k) v (entry_size k v) Hl)
    as (Hl' & (E1 & E2 & E3 & E4) & Hv & Hb'). fold c' in Hl', E1, E2, E3, E4, Hv, Hb'.
  split; [|done]. split; rewrite ?E1, ?E4, ?He; try done; [|by apply Hb'].
  eapply coherent_weaken; [exact Hv|]. by apply (coherent_insert _ (kv_abs (store c))).
Qed.

Lemma get_ok (c : cache) key :
  cache_ok c -> wf_bytes key ->
  exists c', get c key = Ok (kv_abs (store c) !! key, c') /\ cache_ok c' /\ store c' = store c.
Proof.
  intros Hok Hk. unfold get. destruct (enabled c) eqn:He; cbn.
  - destruct (map c !! Bytes.bytesToHex key) as [node|] eqn:Hn.
    + assert (vals c !! Bytes.bytesToHex key = Some (payload node)) as Hv
        by (unfold vals; by rewrite lookup_fmap, Hn).
      destruct (move_ok c (Bytes.bytesToHex key) Hok) as (Hok' & Hs' & _); [by eexists|].
      eexists. split; [|done]. f_equal. f_equal.
      exact (coherent_lookup _ _ _ _ (cache_coherent _ Hok) Hk Hv).
    + rewrite kv_get_spec by (done || apply Hok). cbn.
      destruct (fill_ok c key Hok He Hk) as (Hok' & Hs' & _). by eexists.
  - rewrite kv_get_spec by (done || apply Hok). cbn. by eexists.
Qed.

Lemma has_get (c : cache) key :
  has c key = let* x := get c key in Ok (bool_decide (is_Some x.1), x.2).
Proof.
  unfold has, get. destruct (enabled c); cbn.
  - destruct (map c !! _); [done|]. by destruct (kv_get (store c) key).
  - by destruct (kv_get (store c) key).
Qed.

Lemma many_spec keys (c : cache) pre :
  cache_ok c -> enabled c = true -> Forall wf_bytes keys ->
  let f k := kv_abs (store c) !! k in
  let '(out, misses, c1) := many_hits c (length pre) keys in
  cache_ok c1 /\ store c1 = store c /\ enabled c1 = true /\ Forall wf_bytes misses.*2 /\
  forall c2, cache_ok c2 -> enabled c2 = true -> store c2 = store c ->
    exists c3, many_fill c2 (pre ++ out) misses (List.map f misses.*2) = (pre ++ List.map f keys, c3) /\
      cache_ok c3 /\ store c3 = store c.
Proof.
  revert c pre. induction keys as [|k keys IH]; intros c pre Hok He Hwf; cbn.
  { split_and!; try done. intros c2 Hok2 _ Hs2. by exists c2. }
  apply Forall_cons in Hwf as [Hk Hwf].
  destruct (map c !! Bytes.bytesToHex k) as [node|] eqn:Hn.
  - assert (vals c !! Bytes.bytesToHex k = Some (payload node)) as Hv
      by (unfold vals; by rewrite lookup_fmap, Hn).
    destruct (move_ok c (Bytes.bytesToHex k) Hok) as (Hok' & Hs' & He'); [by eexists|].
    pose proof (coherent_lookup _ _ _ _ (cache_coherent _ Hok) Hk Hv) as Hval. cbn in Hval.
    specialize (IH (moveToHead c (Bytes.bytesToHex k)) (pre ++ [n_value node]) Hok').
    rewrite He', Hs', length_app, Nat.add_1_r in IH. specialize (IH He Hwf).
    destruct (many_hits _ _ keys) as [[out misses] c1]. destruct IH as (H1 & H2 & H3 & H4 & H5).
    split_and!; try done. intros c2 Hok2 He2 Hs2.
    destruct (H5 c2 Hok2 He2 Hs2) as (c3 & Hfill & H6). rewrite <- !app_assoc in Hfill. cbn in Hfill.
    exists c3. by rewrite Hfill, Hval.
  - specialize (IH c (pre ++ [kv_abs (store c) !! k]) Hok He Hwf).
    rewrite length_app, Nat.add_1_r in IH.
    destruct (many_hits _ _ keys) as [[out misses] c1]. destruct IH as (H1 & H2 & H3 & H4 & H5).
    split_and!; try done; [by apply Forall_cons|]. intros c2 Hok2 He2 Hs2. cbn.
    rewrite insert_app_r_alt, Nat.sub_diag by lia. cbn.
    destruct (fill_ok c2 k Hok2 He2 Hk) as (Hok3 & Hs3 & He3). rewrite Hs2 in Hok3, Hs3, He3.
    destruct (H5 _ Hok3) as (c3 & Hfill & H6); [congruence|done|].
    rewrite <- !app_assoc in Hfill. cbn in Hfill. exists c3. by rewrite Hfill.
Qed.

Lemma res_map_get s keys :
  kv_ok s -> Forall wf_bytes keys -> res_map (kv_get s) keys = Ok (List.map (fun k => kv_abs s !! k) keys).
Proof. intros Hs. induction 1 as [|k keys Hk Hkeys IH]; [done|]. cbn. by rewrite kv_get_spec, IH. Qed.

Lemma getMany_ok (c : cache) keys :
  cache_ok c -> Forall wf_bytes keys ->
  exists c', getMany c keys = Ok (List.map (fun k => kv_abs (store c) !! k) keys, c') /\
    cache_ok c' /\ store c' = store c.
Proof.
  intros Hok Hwf. unfold getMany. destruct (enabled c) eqn:He; cbn [negb].
  - pose proof (many_spec keys c [] Hok He Hwf) as H. cbn in H.
    destruct (many_hits c 0 keys) as [[out misses] c1]. destruct H as (H1 & H2 & H3 & H4 & H5).
    destruct (H5 c1 H1 H3 H2) as (c3 & Hfill & Hok3 & Hs3).
    destruct (Nat.ltb_spec 0 (length misses)) as [Hlt|Hlt].
    + rewrite H2, res_map_get by (done || apply Hok). cbn. rewrite Hfill. by exists c3.
    + destruct misses; [|cbn in Hlt; lia]. cbn in Hfill. simplify_eq. by eexists.
  - rewrite res_map_get by (done || apply Hok). cbn. by eexists.
Qed.

(** A write to [k] that refreshes its entry. *)
Lemma write_entry_ok (c : cache) s k :
  cache_ok c -> wf_bytes k -> kv_ok s ->
  (forall k', k' <> k -> kv_abs s !! k' = kv_abs (store c) !! k') ->
  let v := kv_abs s !! k in
  let hex := Bytes.bytesToHex k in
  let c' := match map c !! hex with
            | Some _ => update_entry (set_store c s) hex v (entry_size k v)
            | None => addEntry (set_store c s) hex v (entry_size k v)
            end in
  enabled c = true -> cache_ok c' /\ store c' = s.
Proof.
  intros [Hl Hs Hc Hd Hb] Hk Hok Hm v hex c' He.
  assert (c' = addEntry (set_store c s) hex v (entry_size k v)) as ->.
  { subst c'. unfold addEntry. cbn [map set_store]. by destruct (map c !! hex). }
  destruct (addEntry_spec (set_store c s) hex v (entry_size k v))
    as (Hl' & (E1 & E2 & E3 & E4) & Hv & Hb'); [by destruct Hl|].
  split; [|done]. split; rewrite ?E1, ?E4; try done; [|cbn; by rewrite He|by apply Hb'].
  eapply coherent_weaken; [exact Hv|]. by apply (coherent_insert _ (kv_abs (store c))).
Qed.

Lemma cache_put_ok (c : cache) k v :
  cache_ok c -> wf_bytes k ->
  exists c', put c k v = Ok c' /\ cache_ok c' /\ kv_abs (store c') = <[k := v]> (kv_abs (store c)).
Proof.
  intros Hok Hk. unfold put.
  destruct (kv_put_spec (store c) k v) as (s & -> & Hs & Habs); [apply Hok|done|]. cbn [res_bind].
  cbn [enabled set_store]. destruct (enabled c) eqn:He; cbn [negb].
  - destruct (write_entry_ok c s k Hok Hk Hs) as (Hok' & Hs'); [|done|].
    { intros k' Hne. rewrite Habs. by apply lookup_insert_ne. }
    rewrite Habs, lookup_insert_eq in Hok', Hs'. cbn [map set_store]. unfold entry_size in *.
    destruct (map c !! Bytes.bytesToHex k); eexists; (split; [done|]); by rewrite Hs', Habs.
  - eexists. split; [done|]. split; [|done]. destruct Hok as [Hl _ _ Hd Hb].
    split; try done; [by destruct Hl|]. change (vals (set_store c s)) with (vals c).
    rewrite Hd by done. intros hex x Hx. by rewrite lookup_empty in Hx.
Qed.

Lemma cache_delete_ok (c : cache) k :
  cache_ok c -> wf_bytes k ->
  exists c', delete_ c k = Ok c' /\ cache_ok c' /\ kv_abs (store c') = delete k (kv_abs (store c)).
Proof.
  intros Hok Hk. unfold delete_.
  destruct (kv_delete_spec (store c) k) as (s & -> & Hs & Habs); [apply Hok|done|]. cbn [res_bind].
  cbn [enabled set_store]. destruct (enabled c) eqn:He; cbn [negb].
  - destruct (write_entry_ok c s k Hok Hk Hs) as (Hok' & Hs'); [|done|].
    { intros k' Hne. rewrite Habs. by apply lookup_delete_ne. }
    rewrite Habs, lookup_delete_eq in Hok', Hs'. cbn [map set_store]. unfold entry_size in *.
    rewrite Z.add_0_r in Hok', Hs'.
    destruct (map c !! Bytes.bytesToHex k); eexists; (split; [done|]); by rewrite Hs', Habs.
  - eexists. split; [done|]. split; [|done]. destruct Hok as [Hl _ _ Hd Hb].
    split; try done; [by destruct Hl|]. change (vals (set_store c s)) with (vals c).
    rewrite Hd by done. intros hex x Hx. by rewrite lookup_empty in Hx.
Qed.

Lemma invalidate_fold ops (c : cache) :
  lru_ok c ->
  let c' := foldl (fun c op => invalidate c (op_key op)) c ops in
  lru_ok c' /\ same_conf c c' /\ vals c' ⊆ vals c /\
  forall op, op ∈ ops -> vals c' !! Bytes.bytesToHex (op_key op) = None.
Proof.
  revert c. induction ops as [|op ops IH]; intros c Hok; cbn [foldl].
  { split_and!; try done. intros op Hop. by apply elem_of_nil in Hop. }
  destruct (removeEntry_spec c (Bytes.bytesToHex (op_key op)) Hok) as (Hok1 & Hc1 & Hv1).
  change (removeEntry c (Bytes.bytesToHex (op_key op))) with (invalidate c (op_key op)) in Hok1, Hc1, Hv1.
  destruct (IH _ Hok1) as (Hok2 & Hc2 & Hv2 & Hn2).
  split; [done|]. split; [by eapply same_conf_trans|]. split.
  - etrans; [exact Hv2|]. rewrite Hv1. apply delete_subseteq.
  - intros op' [->|Hin]%elem_of_cons; [|by apply Hn2].
    apply (lookup_weaken_None _ (vals (invalidate c (op_key op)))); [|done].
    rewrite Hv1. apply lookup_delete_eq.
Qed.

Lemma apply_ops_other m ops k :
  (forall op, op ∈ ops -> op_key op <> k) -> apply_ops m ops !! k = m !! k.
Proof.
  revert m. induction ops as [|op ops IH]; intros m Hk; [done|]. unfold apply_ops in *. cbn [foldl].
  rewrite IH by (intros op' Hop'; apply Hk; by right).
  assert (op_key op <> k) as Hne by (apply Hk; by left).
  destruct op as [k' v|k']; cbn in *; [by apply lookup_insert_ne|by apply lookup_delete_ne].
Qed.

Lemma bounded_sub (c c' : cache) : same_conf c c' -> vals c' ⊆ vals c -> bounded c -> bounded c'.
Proof.
  intros (_ & E & _) Hsub Hb. unfold bounded in *. rewrite E.
  pose proof (map_subseteq_size _ _ Hsub). lia.
Qed.

Lemma cache_batch_write_ok (c : cache) ops :
  cache_ok c -> Forall (fun op => wf_bytes (op_key op)) ops ->
  exists c', batch_write c ops = Ok c' /\ cache_ok c' /\
    kv_abs (store c') = apply_ops (kv_abs (store c)) ops.
Proof.
  intros [Hl Hs Hc Hd Hb] Hops. unfold batch_write.
  destruct (kv_write_spec (store c) ops Hs Hops) as (s & -> & Hs' & Habs). cbn [res_bind].
  destruct (invalidate_fold ops (set_store c s)) as (Hl' & Hconf & Hv & Hn); [by destruct Hl|].
  eexists. split; [done|]. pose proof Hconf as (E1 & E2 & E3 & E4). split; [|by rewrite E1].
  split; rewrite ?E1, ?E4; try done.
  - intros hex x Hx. pose proof (lookup_weaken _ _ _ _ Hx Hv) as Hx0.
    destruct (Hc _ _ Hx0) as (k & Hk & -> & Hval & Hsz). exists k. split; [done|]. split; [done|].
    split; [|done]. rewrite Hval. cbn [store set_store]. rewrite Habs. symmetry. apply apply_ops_other.
    intros op Hop <-. by rewrite (Hn op Hop) in Hx.
  - cbn [enabled set_store]. intros He. apply map_empty. intros k.
    apply (lookup_weaken_None _ (vals (set_store c s))); [|done].
    change (vals (set_store c s)) with (vals c). by rewrite Hd.
  - eapply bounded_sub; [exact Hconf|exact Hv|done].
Qed.

Lemma invalidateAll_ok (c : cache) : cache_ok c -> cache_ok (invalidateAll c).
Proof.
  intros [Hl Hs Hc Hd Hb]. split; try done.
  - split; [|done]. exists []. split; [split; try done; constructor|].
    intros k. unfold vals. cbn. rewrite elem_of_nil, lookup_fmap, lookup_empty. split; [done|by intros [? ?]].
  - unfold bounded, vals. cbn. rewrite map_size_fmap, map_size_empty. lia.
Qed.

Lemma invalidate_ok (c : cache) k : cache_ok c -> cache_ok (invalidate c k) /\ store (invalidate c k) = store c.
Proof.
  intros [Hl Hs Hc Hd Hb]. unfold invalidate.
  destruct (removeEntry_spec c (Bytes.bytesToHex k) Hl) as (Hl' & Hconf & Hv).
  pose proof Hconf as (E1 & E2 & E3 & E4). split; [|done].
  assert (vals (removeEntry c (Bytes.bytesToHex k)) ⊆ vals c) as Hsub by (rewrite Hv; apply delete_subseteq).
  split; rewrite ?E1, ?E4; try done.
  - by eapply coherent_weaken.
  - intros He. by rewrite Hv, Hd, delete_empty.
  - by eapply bounded_sub.
Qed.

Lemma cache_exec_ok (c : cache) r :
  cache_ok c -> wf_request r ->
  exists c', cache_exec c r = Ok ((spec_exec (kv_abs (store c)) r).1, c') /\ cache_ok c' /\
    kv_abs (store c') = (spec_exec (kv_abs (store c)) r).2.
Proof.
  intros Hok Hwf. destruct r; cbn [cache_exec spec_exec wf_request fst snd] in *.
  - destruct (get_ok c key Hok Hwf) as (c' & -> & Hok' & Hs). exists c'. by rewrite Hs.
  - rewrite has_get. destruct (get_ok c key Hok Hwf) as (c' & -> & Hok' & Hs). exists c'. by rewrite Hs.
  - destruct (getMany_ok c keys Hok Hwf) as (c' & -> & Hok' & Hs). exists c'. by rewrite Hs.
  - destruct (cache_put_ok c key value Hok Hwf) as (c' & -> & Hok' & Hs). by exists c'.
  - destruct (cache_delete_ok c key Hok Hwf) as (c' & -> & Hok' & Hs). by exists c'.
  - exists c. unfold iterate. rewrite kv_iterate_spec by (done || apply Hok). done.
  - destruct (cache_batch_write_ok c ops Hok Hwf) as (c' & -> & Hok' & Hs). by exists c'.
  - destruct (invalidate_ok c key Hok) as (Hok' & Hs). eexists. by rewrite Hs.
  - eexists. split; [done|]. split; [by apply invalidateAll_ok|done].
Qed.

Fixpoint cache_run (c : cache) (rs : list request) : res (list answer * cache) :=
  match rs with
  | [] => Ok ([], c)
  | r :: rs' =>
    let* x := cache_exec c r in
    let* y := cache_run x.2 rs' in
    Ok (x.1 :: y.1, y.2)
  end.

Fixpoint spec_run (m : kvmap) (rs : list request) : list answer * kvmap :=
  match rs with
  | [] => ([], m)
  | r :: rs' =>
    let x := spec_exec m r in
    let y := spec_run x.2 rs' in
    (x.1 :: y.1, y.2)
  end.

Lemma cache_run_ok (c : cache) rs :
  cache_ok c -> Forall wf_request rs ->
  exists c', cache_run c rs = Ok ((spec_run (kv_abs (store c)) rs).1, c') /\ cache_ok c' /\
    kv_abs (store c') = (spec_run (kv_abs (store c)) rs).2.
Proof.
  intros Hok Hrs. revert c Hok. induction Hrs as [|r rs Hr Hrs IH]; intros c Hok; cbn; [by exists c|].
  destruct (cache_exec_ok c r Hok Hr) as (c1 & -> & Hok1 & Habs1). cbn.
  destruct (IH c1 Hok1) as (c2 & -> & Hok2 & Habs2). cbn.
  exists c2. rewrite <- Habs1. done.
Qed.

Lemma new_cache_ok s options : kv_ok s -> cache_ok (new_cache s options).
Proof.
  intros Hs. split; try done.
  - split; [|done]. exists []. split; [split; try done; constructor|].
    intros k. unfold vals. cbn. rewrite elem_of_nil, lookup_fmap, lookup_empty. split; [done|by intros [? ?]].
  - unfold bounded, vals. cbn [map new_cache]. rewrite map_size_fmap, map_size_empty. lia.
Qed.

(** ** Properties *)

(** C18: The cache is transparent: over any store that meets its contract, any
    sequence of gets, existence checks, batch gets, puts, deletes, scans,
    batches and invalidations through it gives the answers, and leaves the
    contents, of a plain map, whatever its limits and whether or not it is
    enabled.  The pointer list stays a well-formed list of exactly the cached
    keys, at most [maxEntries] of them, and the byte count is theirs. *)
Theorem cache_transparent (s : S) (options : option CacheOptions) (rs : list request) :
  kv_ok s -> Forall wf_request rs ->
  exists c', cache_run (new_cache s options) rs = Ok ((spec_run (kv_abs s) rs).1, c') /\
    kv_abs (store c') = (spec_run (kv_abs s) rs).2 /\
    (exists l, chained c' l /\ forall k, k ∈ l <-> is_Some (map c' !! k)) /\
    totalBytes c' = total (vals c') /\
    Z.of_nat (size (map c')) <= Z.max 0 (maxEntries c').
Proof.
  intros Hs Hrs.
  destruct (cache_run_ok (new_cache s options) rs (new_cache_ok s options Hs) Hrs) as (c' & H & Hok & Habs).
  exists c'. split; [done|]. split; [done|]. destruct Hok as [[(l & Hl & Hmem) Htot] _ _ _ Hb].
  split; [|split; [done|by rewrite size_vals]].
  exists l. split; [done|]. intros k. by rewrite Hmem, vals_is_Some.
Qed.

End CacheProofs.

Definition demo_requests : list request :=
  [RPut [1] [10]; RGet [2]; RDelete [1]; RGetMany [[1]; [2]; [1]];
   RBatch [OpPut [2] [20]]; RGet [2]; RHas [1]].

Lemma demo_requests_wf : Forall wf_request demo_requests.
Proof.
  assert (forall l, wf_bytesb l = true -> wf_bytes l) as Hwf by (intros l; apply wf_bytesb_spec).
  repeat (apply Forall_cons; split; [first [by apply Hwf|cbn [wf_request]]|]); try apply Forall_nil_2;
    repeat (apply Forall_cons; split; [by apply Hwf|]); apply Forall_nil_2.
Qed.

Lemma cache_transparent_witness :
  exists c', cache_run (new_cache MemoryStore.new_store (Some (mkCacheOptions (Some 1) None None)))
      demo_requests
    = Ok ([ADone; AValue None; ADone; AValues [None; None; None]; ADone; AValue (Some [20]); ABool false], c') /\
    kv_abs (store c') = (spec_run (kv_abs MemoryStore.new_store) demo_requests).2 /\
    (exists l, chained c' l /\ forall k, k ∈ l <-> is_Some (map c' !! k)) /\
    totalBytes c' = total (vals c') /\
    Z.of_nat (size (map c')) <= Z.max 0 (maxEntries c').
Proof.
  assert ([ADone; AValue None; ADone; AValues [None; None; None]; ADone; AValue (Some [20]); ABool false]
    = (spec_run (kv_abs MemoryStore.new_store) demo_requests).1) as -> by (vm_compute; reflexivity).
  apply (cache_transparent MemoryStore.new_store (Some (mkCacheOptions (Some 1) None None)) demo_requests).
  - exact MemoryStore.new_store_ok.
  - exact demo_requests_wf.
Defined.

(** The byte limit is enforced only when an entry is added: overwriting a
    cached entry with a longer value leaves the cache above [maxBytes]. *)
Definition overgrown : res (list answer * CachedKVStore (S := MemoryStore.InMemoryKVStore)) :=
  cache_run (new_cache MemoryStore.new_store (Some (mkCacheOptions None (Some 4) None)))
    [RPut [1] [1]; RPut [1] [1; 2; 3; 4; 5]].

(** A cache limited to 4 bytes holds 6 after one entry is overwritten. *)
Lemma put_exceeds_maxBytes :
  match overgrown with
  | Ok (_, c) => maxBytes c = Some 4 /\ totalBytes c = 6
  | Throw _ => False
  end.
Proof. vm_compute. done. Qed.

End Cache.
