(* ===== verification/Utf8.v ===== *)
(** * Text encoding

    The platform's [TextEncoder] and [TextDecoder] (WHATWG UTF-8), over JS
    strings as lists of UTF-16 code units.  [TextEncoder] replaces an unpaired
    surrogate by U+FFFD; the default [TextDecoder] drops a leading byte-order
    mark and replaces malformed sequences by U+FFFD. *)

From S2P Require Import Prelude Bytes.
From Stdlib Require Import ZArith Lia.
From stdpp Require Import sorting.
From stdpp Require Import base tactics numbers sets gmap list.
#[local] Open Scope Z_scope.

Module Utf8.

Definition within (lo hi u : Z) : bool := (lo <=? u) && (u <=? hi).

Definition is_high (u : Z) : bool := within 0xD800 0xDBFF u.
Definition is_low (u : Z) : bool := within 0xDC00 0xDFFF u.

(** Code units are 16-bit. *)
Definition wf_string (s : jsstring) : Prop := Forall (fun u => 0 <= u < 0x10000) s.

Definition wf_stringb (s : jsstring) : bool := forallb (fun u => (0 <=? u) && (u <? 0x10000)) s.

Lemma wf_stringb_spec s : wf_stringb s = true -> wf_string s.
Proof.
  unfold wf_stringb. rewrite forallb_forall. intros H. apply Forall_forall. intros u Hu%list_elem_of_In.
  specialize (H u Hu). lia.
Qed.

Definition pair_cp (hi lo : Z) : Z := 0x10000 + (hi - 0xD800) * 0x400 + (lo - 0xDC00).

(** The string as scalar values, unpaired surrogates replaced. *)
Fixpoint code_points (s : jsstring) : list Z :=
  match s with
  | [] => []
  | u :: s' =>
    if is_high u then
      match s' with
      | v :: s'' => if is_low v then pair_cp u v :: code_points s'' else 0xFFFD :: code_points s'
      | [] => [0xFFFD]
      end
    else if is_low u then 0xFFFD :: code_points s'
    else u :: code_points s'
  end.

(** Every surrogate is half of a pair. *)
Fixpoint well_formed (s : jsstring) : bool :=
  match s with
  | [] => true
  | u :: s' =>
    if is_high u then
      match s' with
      | v :: s'' => is_low v && well_formed s''
      | [] => false
      end
    else negb (is_low u) && well_formed s'
  end.

Definition utf8_cp (c : Z) : bytes :=
  if c <? 0x80 then [c]
  else if c <? 0x800 then [0xC0 + c / 0x40; 0x80 + c mod 0x40]
  else if c <? 0x10000 then [0xE0 + c / 0x1000; 0x80 + c / 0x40 mod 0x40; 0x80 + c mod 0x40]
  else [0xF0 + c / 0x40000; 0x80 + c / 0x1000 mod 0x40; 0x80 + c / 0x40 mod 0x40; 0x80 + c mod 0x40].

Definition utf8_cps (cs : list Z) : bytes := concat (map utf8_cp cs).

Definition utf8_encode (s : jsstring) : bytes := utf8_cps (code_points s).

Definition units_of (c : Z) : jsstring :=
  if c <? 0x10000 then [c]
  else [0xD800 + (c - 0x10000) / 0x400; 0xDC00 + (c - 0x10000) mod 0x400].

(** ** Decoding *)

(** The decoder between bytes: bytes still needed, the code point so far, and
    the range the next continuation byte must be in. *)
Record dstate := mkD { needed : nat; acc : Z; lower : Z; upper : Z }.

Definition idle : dstate := mkD 0 0 0x80 0xBF.

(** A byte in the idle state: code points emitted, next state. *)
Definition d_start (b : Z) : list Z * dstate :=
  if b <? 0x80 then ([b], idle)
  else if within 0xC2 0xDF b then ([], mkD 1 (b - 0xC0) 0x80 0xBF)
  else if within 0xE0 0xEF b then
    ([], mkD 2 (b - 0xE0) (if b =? 0xE0 then 0xA0 else 0x80) (if b =? 0xED then 0x9F else 0xBF))
  else if within 0xF0 0xF4 b then
    ([], mkD 3 (b - 0xF0) (if b =? 0xF0 then 0x90 else 0x80) (if b =? 0xF4 then 0x8F else 0xBF))
  else ([0xFFFD], idle).

Definition d_step (st : dstate) (b : Z) : list Z * dstate :=
  match needed st with
  | O => d_start b
  | S n =>
    if within (lower st) (upper st) b then
      let a := acc st * 0x40 + (b - 0x80) in
      match n with
      | O => ([a], idle)
      | S _ => ([], mkD n a 0x80 0xBF)
      end
    else
      let '(cs, st') := d_start b in
      (0xFFFD :: cs, st')
  end.

Fixpoint d_run (st : dstate) (bs : bytes) : list Z :=
  match bs with
  | [] => match needed st with O => [] | S _ => [0xFFFD] end
  | b :: bs' => let '(cs, st') := d_step st b in cs ++ d_run st' bs'
  end.

Definition strip_bom (bs : bytes) : bytes :=
  match bs with
  | 0xEF :: 0xBB :: 0xBF :: rest => rest
  | _ => bs
  end.

Definition utf8_decode (bs : bytes) : jsstring := concat (map units_of (d_run idle (strip_bom bs))).

(** ** Scalar values *)

(** Unicode scalar values. *)
Definition scalar (c : Z) : Prop := 0 <= c < 0xD800 \/ 0xE000 <= c < 0x110000.

Lemma within_spec lo hi u : within lo hi u = true <-> lo <= u <= hi.
Proof. unfold within. lia. Qed.

Lemma within_false lo hi u : within lo hi u = false <-> u < lo \/ hi < u.
Proof. unfold within. lia. Qed.

(** Induction over a well-formed string, one character at a time. *)
Lemma well_formed_ind (P : jsstring -> Prop) :
  P [] ->
  (forall u s, is_high u = false -> is_low u = false -> well_formed s = true -> P s -> P (u :: s)) ->
  (forall u v s, is_high u = true -> is_low v = true -> well_formed s = true -> P s -> P (u :: v :: s)) ->
  forall s, well_formed s = true -> P s.
Proof.
  intros Hnil Hone Hpair s. remember (length s) as n eqn:Hn.
  assert (length s <= n)%nat as Hle by lia. clear Hn. revert s Hle.
  induction n as [|n IH]; intros [|u s] Hle; cbn in *; try done; try lia.
  destruct (is_high u) eqn:Hu.
  - destruct s as [|v s]; [done|]. intros [Hv Hs]%andb_true_iff. cbn in Hle.
    apply Hpair; auto. apply IH; [lia|done].
  - intros [Hl Hs]%andb_true_iff. apply negb_true_iff in Hl. apply Hone; auto. apply IH; [lia|done].
Qed.

Lemma well_formed_app a b : well_formed a = true -> well_formed (a ++ b) = well_formed b.
Proof.
  intros Ha. pattern a. revert a Ha. apply well_formed_ind.
  - done.
  - intros u s Hh Hl Hs IH. cbn. by rewrite Hh, Hl.
  - intros u v s Hu Hv Hs IH. cbn. by rewrite Hu, Hv.
Qed.

Lemma pair_cp_range u v : is_high u = true -> is_low v = true -> 0x10000 <= pair_cp u v < 0x110000.
Proof. unfold is_high, is_low, pair_cp. rewrite !within_spec. lia. Qed.

Lemma code_points_scalar s : wf_string s -> well_formed s = true -> Forall scalar (code_points s).
Proof.
  intros Hw Hs. revert Hw. pattern s. revert s Hs. apply well_formed_ind; cbn.
  - constructor.
  - intros u s Hh Hl Hs IH Hw. unfold wf_string in Hw. apply Forall_cons in Hw as [Hu Hw]. rewrite Hh, Hl.
    apply Forall_cons. split; [|by apply IH]. unfold is_high, is_low in *.
    apply within_false in Hh, Hl. unfold scalar. lia.
  - intros u v s Hh Hl Hs IH Hw. unfold wf_string in Hw. rewrite !Forall_cons in Hw.
    destruct Hw as (_ & _ & Hw). rewrite Hh, Hl.
    apply Forall_cons. split; [|by apply IH]. right. pose proof (pair_cp_range u v Hh Hl). lia.
Qed.

Lemma units_of_code_points s :
  wf_string s -> well_formed s = true -> concat (map units_of (code_points s)) = s.
Proof.
  intros Hw Hs. revert Hw. pattern s. revert s Hs. apply well_formed_ind; cbn.
  - done.
  - intros u s Hh Hl Hs IH Hw. unfold wf_string in Hw. apply Forall_cons in Hw as [Hu Hw].
    rewrite Hh, Hl. cbn. unfold units_of at 1. rewrite (proj2 (Z.ltb_lt u 0x10000)) by lia.
    cbn. by rewrite IH.
  - intros u v s Hh Hl Hs IH Hw. unfold wf_string in Hw. rewrite !Forall_cons in Hw.
    destruct Hw as (_ & _ & Hw). rewrite Hh, Hl. cbn. unfold units_of at 1.
    pose proof (pair_cp_range u v Hh Hl). rewrite (proj2 (Z.ltb_ge (pair_cp u v) 0x10000)) by lia.
    cbn. rewrite IH by done. unfold is_high, is_low, pair_cp in *. apply within_spec in Hh, Hl.
    f_equal; [|f_equal]; Z.to_euclidean_division_equations; lia.
Qed.

(** ** Order *)

Lemma digit_cmp m c d :
  0 < m -> cmp_then (c / m ?= d / m) (c mod m ?= d mod m) = (c ?= d).
Proof.
  intros Hm. pose proof (Z.div_mod c m). pose proof (Z.div_mod d m).
  pose proof (Z.mod_pos_bound c m Hm). pose proof (Z.mod_pos_bound d m Hm).
  destruct (Z.compare_spec (c / m) (d / m)) as [E|E|E]; cbn.
  - rewrite E in *. destruct (Z.compare_spec (c mod m) (d mod m)), (Z.compare_spec c d); try done; lia.
  - symmetry. apply Z.compare_lt_iff. nia.
  - symmetry. apply Z.compare_gt_iff. nia.
Qed.

Lemma add_cmp k c d : (k + c ?= k + d) = (c ?= d).
Proof. destruct (Z.compare_spec c d), (Z.compare_spec (k + c) (k + d)); try done; lia. Qed.

Lemma lex_cons a b l1 l2 : blex (a :: l1) (b :: l2) = cmp_then (a ?= b) (blex l1 l2).
Proof. done. Qed.

Lemma cmp_then_assoc a b c : cmp_then (cmp_then a b) c = cmp_then a (cmp_then b c).
Proof. by destruct a. Qed.

(** UTF-8 is prefix-free and its byte order is code point order. *)
Lemma utf8_cp_lex c d x y :
  scalar c -> scalar d ->
  blex (utf8_cp c ++ x) (utf8_cp d ++ y) = cmp_then (c ?= d) (blex x y).
Proof.
  intros Hc Hd.
  assert (0 <= c < 0x110000 /\ 0 <= d < 0x110000) as [Hc' Hd'] by (unfold scalar in *; lia).
  clear Hc Hd. unfold utf8_cp.
  destruct (Z.ltb_spec c 0x80); [|destruct (Z.ltb_spec c 0x800); [|destruct (Z.ltb_spec c 0x10000)]];
  (destruct (Z.ltb_spec d 0x80); [|destruct (Z.ltb_spec d 0x800); [|destruct (Z.ltb_spec d 0x10000)]]);
  cbn [app]; rewrite !lex_cons.
  (* equal lengths: the digits of [c] and [d] in base 64 *)
  1: done.
  5: { rewrite !add_cmp, <- (digit_cmp 0x40 c d) by lia. by rewrite cmp_then_assoc. }
  9: { rewrite !add_cmp. replace 0x1000 with (0x40 * 0x40) by lia. rewrite <- !Z.div_div by lia.
       rewrite <- (digit_cmp 0x40 c d), <- (digit_cmp 0x40 (c / 0x40) (d / 0x40)) by lia.
       by rewrite !cmp_then_assoc. }
  13: { rewrite !add_cmp. replace 0x40000 with (0x40 * 0x40 * 0x40) by lia.
        replace 0x1000 with (0x40 * 0x40) by lia. rewrite <- !Z.div_div by lia.
        rewrite <- (digit_cmp 0x40 c d), <- (digit_cmp 0x40 (c / 0x40) (d / 0x40)),
          <- (digit_cmp 0x40 (c / 0x40 / 0x40) (d / 0x40 / 0x40)) by lia.
        by rewrite !cmp_then_assoc. }
  (* different lengths: the lead byte decides *)
  all: match goal with |- cmp_then (?a ?= ?b) _ = _ =>
    first [ assert (a < b) by (Z.to_euclidean_division_equations; lia);
            rewrite (proj2 (Z.compare_lt_iff a b)), (proj2 (Z.compare_lt_iff c d)) by lia; done
          | assert (b < a) by (Z.to_euclidean_division_equations; lia);
            rewrite (proj2 (Z.compare_gt_iff a b)), (proj2 (Z.compare_gt_iff c d)) by lia; done ] end.
Qed.

Lemma utf8_cp_nonempty c : exists b l, utf8_cp c = b :: l.
Proof. unfold utf8_cp. repeat (destruct (_ <? _)); eauto. Qed.

Lemma utf8_cps_lex cs ds :
  Forall scalar cs -> Forall scalar ds -> blex (utf8_cps cs) (utf8_cps ds) = lex Z.compare cs ds.
Proof.
  unfold utf8_cps. intros Hcs. revert ds. induction Hcs as [|c cs Hc Hcs IH]; intros ds Hds; cbn.
  - destruct ds as [|d ds]; [done|]. cbn. by destruct (utf8_cp_nonempty d) as (b & l & ->).
  - destruct Hds as [|d ds Hd Hds]; cbn.
    + by destruct (utf8_cp_nonempty c) as (b & l & ->).
    + rewrite utf8_cp_lex by done. by rewrite IH.
Qed.

Lemma utf8_cp_wf c : scalar c -> wf_bytes (utf8_cp c).
Proof.
  intros Hc. assert (0 <= c < 0x110000) by (unfold scalar in Hc; lia). unfold utf8_cp.
  destruct (Z.ltb_spec c 0x80); [|destruct (Z.ltb_spec c 0x800); [|destruct (Z.ltb_spec c 0x10000)]];
    repeat (apply wf_cons; split; [unfold is_byte; Z.to_euclidean_division_equations; lia|]); apply wf_nil.
Qed.

Lemma utf8_cps_wf cs : Forall scalar cs -> wf_bytes (utf8_cps cs).
Proof.
  induction 1 as [|c cs Hc Hcs IH]; [apply wf_nil|]. cbn. apply wf_app. split; [by apply utf8_cp_wf|done].
Qed.

(** ** Round trip *)

Ltac decide_within :=
  repeat match goal with
  | |- context [?a <? ?b] =>
    first [rewrite (proj2 (Z.ltb_lt a b)) by (Z.to_euclidean_division_equations; lia)
          |rewrite (proj2 (Z.ltb_ge a b)) by (Z.to_euclidean_division_equations; lia)]
  | |- context [within ?a ?b ?c] =>
    first [rewrite (proj2 (within_spec a b c)) by (Z.to_euclidean_division_equations; lia)
          |rewrite (proj2 (within_false a b c)) by (Z.to_euclidean_division_equations; lia)]
  end.

Lemma d_run_cp c bs : scalar c -> d_run idle (utf8_cp c ++ bs) = c :: d_run idle bs.
Proof.
  intros Hc. assert (0 <= c < 0x110000) as Hr by (unfold scalar in Hc; lia). unfold utf8_cp.
  destruct (Z.ltb_spec c 0x80); [|destruct (Z.ltb_spec c 0x800); [|destruct (Z.ltb_spec c 0x10000)]].
  - cbn. unfold d_step, d_start; cbn. by decide_within.
  - cbn [app d_run]. unfold d_step at 1, d_start. cbn [needed idle]. decide_within.
    cbn [app]. unfold d_step at 1. cbn [needed lower upper acc]. decide_within. cbn [app].
    f_equal. Z.to_euclidean_division_equations; lia.
  - cbn [app d_run]. unfold d_step at 1, d_start. cbn [needed idle]. decide_within.
    cbn [app]. unfold d_step at 1. cbn [needed lower upper acc].
    assert (within (if 0xE0 + c / 0x1000 =? 0xE0 then 0xA0 else 0x80)
              (if 0xE0 + c / 0x1000 =? 0xED then 0x9F else 0xBF) (0x80 + c / 0x40 mod 0x40) = true) as ->.
    { apply within_spec. unfold scalar in Hc.
      destruct (Z.eqb_spec (0xE0 + c / 0x1000) 0xE0), (Z.eqb_spec (0xE0 + c / 0x1000) 0xED);
        Z.to_euclidean_division_equations; lia. }
    cbn [app]. unfold d_step at 1. cbn [needed lower upper acc]. decide_within. cbn [app].
    f_equal. Z.to_euclidean_division_equations; lia.
  - cbn [app d_run]. unfold d_step at 1, d_start. cbn [needed idle]. decide_within.
    cbn [app]. unfold d_step at 1. cbn [needed lower upper acc].
    assert (within (if 0xF0 + c / 0x40000 =? 0xF0 then 0x90 else 0x80)
              (if 0xF0 + c / 0x40000 =? 0xF4 then 0x8F else 0xBF) (0x80 + c / 0x1000 mod 0x40) = true) as ->.
    { apply within_spec.
      destruct (Z.eqb_spec (0xF0 + c / 0x40000) 0xF0), (Z.eqb_spec (0xF0 + c / 0x40000) 0xF4);
        Z.to_euclidean_division_equations; lia. }
    cbn [app]. unfold d_step at 1. cbn [needed lower upper acc]. decide_within. cbn [app].
    unfold d_step at 1. cbn [needed lower upper acc]. decide_within. cbn [app].
    f_equal. Z.to_euclidean_division_equations; lia.
Qed.

Lemma d_run_cps cs : Forall scalar cs -> d_run idle (utf8_cps cs) = cs.
Proof.
  induction 1 as [|c cs Hc Hcs IH]; [done|]. unfold utf8_cps in *. cbn. by rewrite d_run_cp, IH.
Qed.

(** A leading U+FEFF is the only character the decoder drops. *)
Lemma strip_bom_cps cs :
  Forall scalar cs -> head cs <> Some 0xFEFF -> strip_bom (utf8_cps cs) = utf8_cps cs.
Proof.
  intros Hcs Hne. destruct Hcs as [|c cs Hc Hcs]; [done|]. cbn in Hne.
  unfold strip_bom.
  destruct (utf8_cps (c :: cs)) as [|b0 [|b1 [|b2 rest]]] eqn:E; try by repeat case_match.
  assert (~ (b0 = 0xEF /\ b1 = 0xBB /\ b2 = 0xBF)) as Hn.
  { intros (-> & -> & ->). apply Hne. f_equal.
    pose proof (d_run_cps (c :: cs) ltac:(by apply Forall_cons)) as Hd. rewrite E in Hd.
    change (0xFEFF :: d_run idle rest = c :: cs) in Hd. congruence. }
  repeat case_match; subst; tauto || done.
Qed.

Lemma utf8_roundtrip s :
  wf_string s -> well_formed s = true -> head s <> Some 0xFEFF -> utf8_decode (utf8_encode s) = s.
Proof.
  intros Hw Hs Hb. unfold utf8_decode, utf8_encode.
  pose proof (code_points_scalar s Hw Hs) as Hsc.
  rewrite strip_bom_cps; [|done|].
  - by rewrite d_run_cps, units_of_code_points.
  - intros Hh. apply Hb. destruct s as [|u s]; [done|]. cbn in *. destruct (is_high u) eqn:Hu.
    + destruct s as [|v s]; [done|]. apply andb_true_iff in Hs as [Hv _]. rewrite Hv in Hh. cbn in Hh.
      pose proof (pair_cp_range u v Hu Hv). injection Hh as Hh. lia.
    + apply andb_true_iff in Hs as [Hl _]. apply negb_true_iff in Hl. by rewrite Hl in Hh.
Qed.

Lemma utf8_encode_wf s : wf_string s -> well_formed s = true -> wf_bytes (utf8_encode s).
Proof. intros Hw Hs. by apply utf8_cps_wf, code_points_scalar. Qed.

Lemma utf8_encode_lex s t :
  wf_string s -> wf_string t -> well_formed s = true -> well_formed t = true ->
  blex (utf8_encode s) (utf8_encode t) = lex Z.compare (code_points s) (code_points t).
Proof. intros. apply utf8_cps_lex; by apply code_points_scalar. Qed.

End Utf8.
