(* ===== verification/Json.v ===== *)
(** * JSON values

    The JSON values of [packages/quereus/src/common/json-types.ts] as JS holds
    them, [JSON.stringify] and [JSON.parse], and
    [packages/quereus/src/util/json-canonical.ts], which derives the key text
    of a JSON value.

    An object is its own enumerable properties in JS order: array-index names
    first, ascending, then the other names as they were created. *)

From S2P Require Import Prelude Bytes Double Decimal NumberText Utf8.
From Stdlib Require Import ZArith Lia.
From stdpp Require Import sorting.
From stdpp Require Import base tactics numbers sets gmap list.
#[local] Open Scope Z_scope.

Import Utf8.

Module Json.

Create HintDb json.

Inductive JSONValue : Type :=
| JNull
| JBool (b : bool)
| JNumber (d : double)
| JString (s : jsstring)
| JArray (l : list JSONValue)
| JObject (o : list (jsstring * JSONValue)).

Abbreviation fields := (list (jsstring * JSONValue)).

(** ** Objects *)

(** The number an array-index name stands for. *)
Definition key_index (k : jsstring) : option Z :=
  let n := parse_digits k in
  if forallb is_digit k && bool_decide (k = dec_nonneg n) && (n <? 2 ^ 32 - 1) then Some n else None.

Fixpoint insert_index (n : Z) (k : jsstring) (v : JSONValue) (o : fields) : fields :=
  match o with
  | [] => [(k, v)]
  | (k', v') :: o' =>
    match key_index k' with
    | Some n' => if n' <? n then (k', v') :: insert_index n k v o' else (k, v) :: o
    | None => (k, v) :: o
    end
  end.

(** Define an own property. *)
Definition define_field (k : jsstring) (v : JSONValue) (o : fields) : fields :=
  match alist_get k o with
  | Some _ => alist_set k v o
  | None =>
    match key_index k with
    | Some n => insert_index n k v o
    | None => o ++ [(k, v)]
    end
  end.

(** [o[k] = v] on a plain object: the name [__proto__] reaches the setter of
    [Object.prototype], which creates no own property. *)
Definition assign_field (o : fields) (k : jsstring) (v : JSONValue) : fields :=
  if decide (k = js "__proto__") then o else define_field k v o.

(** ** JSON.stringify *)

Definition hex_digit (d : Z) : Z := if d <? 10 then 48 + d else 87 + d.

(** [\uXXXX]. *)
Definition unicode_escape (u : Z) : jsstring :=
  [92; 117; hex_digit (u / 4096); hex_digit (u / 256 mod 16); hex_digit (u / 16 mod 16); hex_digit (u mod 16)].

Definition escape_unit (u : Z) : jsstring :=
  if u =? 34 then [92; 34]
  else if u =? 92 then [92; 92]
  else if u =? 8 then [92; 98]
  else if u =? 9 then [92; 116]
  else if u =? 10 then [92; 110]
  else if u =? 12 then [92; 102]
  else if u =? 13 then [92; 114]
  else if u <? 32 then unicode_escape u
  else [u].

(** Unpaired surrogates are escaped, pairs are not. *)
Fixpoint quote_units (s : jsstring) : jsstring :=
  match s with
  | [] => []
  | u :: s' =>
    if is_high u then
      match s' with
      | w :: s'' => if is_low w then u :: w :: quote_units s'' else unicode_escape u ++ quote_units s'
      | [] => unicode_escape u
      end
    else if is_low u then unicode_escape u ++ quote_units s'
    else escape_unit u ++ quote_units s'
  end.

Definition quote (s : jsstring) : jsstring := 34 :: quote_units s ++ [34].

Fixpoint join (sep : Z) (l : list jsstring) : jsstring :=
  match l with
  | [] => []
  | [x] => x
  | x :: l' => x ++ sep :: join sep l'
  end.

Definition is_finite (d : double) : bool :=
  match num_of_double d with
  | NFin _ => true
  | _ => false
  end.

Fixpoint stringify (v : JSONValue) : jsstring :=
  match v with
  | JNull => js "null"
  | JBool b => if b then js "true" else js "false"
  | JNumber d => if is_finite d then number_to_string d else js "null"
  | JString s => quote s
  | JArray l => 91 :: join 44 (map stringify l) ++ [93]
  | JObject o => 123 :: join 44 (map (fun kv => quote kv.1 ++ 58 :: stringify kv.2) o) ++ [125]
  end.

(** ** JSON.parse *)

Definition is_json_space (c : Z) : bool := bool_decide (c ∈ [9; 10; 13; 32]).

Fixpoint skip_ws (s : jsstring) : jsstring :=
  match s with
  | c :: s' => if is_json_space c then skip_ws s' else s
  | [] => []
  end.

Definition hex_value (a b c d : Z) : option Z :=
  match radix_digit 16 a, radix_digit 16 b, radix_digit 16 c, radix_digit 16 d with
  | Some w, Some x, Some y, Some z => Some (w * 4096 + x * 256 + y * 16 + z)
  | _, _, _, _ => None
  end.

(** The unit a one-letter escape stands for. *)
Definition short_escape (c : Z) : option Z :=
  if c =? 34 then Some 34
  else if c =? 92 then Some 92
  else if c =? 47 then Some 47
  else if c =? 98 then Some 8
  else if c =? 102 then Some 12
  else if c =? 110 then Some 10
  else if c =? 114 then Some 13
  else if c =? 116 then Some 9
  else None.

(** The rest of a string literal after its opening quote. *)
Fixpoint parse_string (s : jsstring) : option (jsstring * jsstring) :=
  match s with
  | [] => None
  | c :: s1 =>
    if c =? 34 then Some ([], s1)
    else if c =? 92 then
      match s1 with
      | [] => None
      | e :: s2 =>
        if e =? 117 then
          match s2 with
          | h1 :: h2 :: h3 :: h4 :: s3 =>
            match hex_value h1 h2 h3 h4, parse_string s3 with
            | Some u, Some (t, rest) => Some (u :: t, rest)
            | _, _ => None
            end
          | _ => None
          end
        else
          match short_escape e, parse_string s2 with
          | Some u, Some (t, rest) => Some (u :: t, rest)
          | _, _ => None
          end
      end
    else if c <? 32 then None
    else
      match parse_string s1 with
      | Some (t, rest) => Some (c :: t, rest)
      | None => None
      end
  end.

(** A JSON number.  An incomplete fraction or exponent is left over, and no
    JSON text continues with one. *)
Definition parse_number (s : jsstring) : option (double * jsstring) :=
  let '(neg, s1) := match s with 45 :: s' => (true, s') | _ => (false, s) end in
  let '(i, s2) := match s1 with 48 :: s' => ([48], s') | _ => span_digits s1 end in
  match i with
  | [] => None
  | _ =>
    let '(f, s3) := match s2 with
                    | 46 :: s' => match span_digits s' with ([], _) => ([], s2) | p => p end
                    | _ => ([], s2)
                    end in
    let '(e, rest) := scan_exponent s3 in
    Some (signed neg (decimal_mag (parse_digits (i ++ f)) (e - Z.of_nat (length f))), rest)
  end.

(** The text after the unit [c], if it is next. *)
Definition expect (c : Z) (s : jsstring) : option jsstring :=
  match s with
  | x :: s' => if x =? c then Some s' else None
  | [] => None
  end.

(** [null], [true] or [false]. *)
Definition parse_keyword (s : jsstring) : option (JSONValue * jsstring) :=
  match after_prefix (js "null") s, after_prefix (js "true") s, after_prefix (js "false") s with
  | Some rest, _, _ => Some (JNull, rest)
  | _, Some rest, _ => Some (JBool true, rest)
  | _, _, Some rest => Some (JBool false, rest)
  | _, _, _ => None
  end.

(** [fuel] bounds the calls; twice the length of the text is enough
    ([parse_fuel]). *)
Fixpoint parse_value (fuel : nat) (s : jsstring) : option (JSONValue * jsstring) :=
  match fuel with
  | O => None
  | S fuel =>
    let s := skip_ws s in
    match expect 34 s, expect 91 s, expect 123 s, parse_keyword s with
    | Some r, _, _, _ =>
      match parse_string r with
      | Some (t, rest) => Some (JString t, rest)
      | None => None
      end
    | _, Some r, _, _ =>
      match expect 93 (skip_ws r) with
      | Some rest => Some (JArray [], rest)
      | None => parse_elements fuel [] r
      end
    | _, _, Some r, _ =>
      match expect 125 (skip_ws r) with
      | Some rest => Some (JObject [], rest)
      | None => parse_members fuel [] r
      end
    | _, _, _, Some (v, rest) => Some (v, rest)
    | _, _, _, None =>
      match parse_number s with
      | Some (d, rest) => Some (JNumber d, rest)
      | None => None
      end
    end
  end
(** The elements of an array after [acc]. *)
with parse_elements (fuel : nat) (acc : list JSONValue) (s : jsstring) : option (JSONValue * jsstring) :=
  match fuel with
  | O => None
  | S fuel =>
    match parse_value fuel s with
    | Some (v, s1) =>
      match expect 44 (skip_ws s1), expect 93 (skip_ws s1) with
      | Some s2, _ => parse_elements fuel (acc ++ [v]) s2
      | _, Some rest => Some (JArray (acc ++ [v]), rest)
      | _, _ => None
      end
    | None => None
    end
  end
(** The members of an object after [acc]. *)
with parse_members (fuel : nat) (acc : fields) (s : jsstring) : option (JSONValue * jsstring) :=
  match fuel with
  | O => None
  | S fuel =>
    match expect 34 (skip_ws s) with
    | Some s1 =>
      match parse_string s1 with
      | Some (k, s2) =>
        match expect 58 (skip_ws s2) with
        | Some s3 =>
          match parse_value fuel s3 with
          | Some (v, s4) =>
            match expect 44 (skip_ws s4), expect 125 (skip_ws s4) with
            | Some s5, _ => parse_members fuel (define_field k v acc) s5
            | _, Some rest => Some (JObject (define_field k v acc), rest)
            | _, _ => None
            end
          | None => None
          end
        | None => None
        end
      | None => None
      end
    | None => None
    end
  end.

(** [JSON.parse(s)]: [None] is the [SyntaxError]. *)
Definition JSON_parse (s : jsstring) : option JSONValue :=
  match parse_value (2 * length s + 2) s with
  | Some (v, rest) => match skip_ws rest with [] => Some v | _ => None end
  | None => None
  end.

(** ** Canonical text *)

(** The default order of [Array.prototype.sort] on strings. *)
Definition compare_units (a b : jsstring) : Z :=
  match lex Z.compare a b with
  | Lt => -1
  | Eq => 0
  | Gt => 1
  end.

(** Assign the fields of an object to a new one in the order of their names. *)
Definition sort_fields (o : fields) : fields :=
  foldl (fun sorted kv => assign_field sorted kv.1 kv.2) []
    (js_sort (fun a b => compare_units a.1 b.1) o).

(** The members are canonicalized first, where the code canonicalizes each one
    as it assigns it. *)
Fixpoint canonicalize (value : JSONValue) : JSONValue :=
  match value with
  | JArray l => JArray (map canonicalize l)
  | JObject o => JObject (sort_fields (map (fun kv => (kv.1, canonicalize kv.2)) o))
  | _ => value
  end.

Definition canonicalJsonString (value : JSONValue) : jsstring := stringify (canonicalize value).

(** ** Induction *)

Lemma JSONValue_rect' (P : JSONValue -> Prop) :
  P JNull -> (forall b, P (JBool b)) -> (forall d, P (JNumber d)) -> (forall s, P (JString s)) ->
  (forall l, Forall P l -> P (JArray l)) ->
  (forall o, Forall (fun kv => P kv.2) o -> P (JObject o)) -> forall v, P v.
Proof.
  intros Hn Hb Hd Hs Ha Ho. fix IH 1. intros [|b|d|s|l|o]; [exact Hn|apply Hb|apply Hd|apply Hs|..].
  - apply Ha. induction l as [|x l IHl]; constructor; [apply IH|apply IHl].
  - apply Ho. induction o as [|[k x] o IHo]; constructor; [apply IH|apply IHo].
Qed.

#[global] Instance JSONValue_eq_dec : EqDecision JSONValue.
Proof.
  unfold EqDecision, RelDecision, Decision. fix go 1. intros v w.
  pose proof (fun l => @list_eq_dec JSONValue go l) as Hl.
  assert (forall a b : jsstring * JSONValue, {a = b} + {a <> b}) as Hp.
  { intros [k x] [k' x']. destruct (decide (k = k')) as [->|]; [|right; congruence].
    destruct (go x x') as [->|]; [by left|right; congruence]. }
  destruct v as [|b|d|s|l|o], w as [|b'|d'|s'|l'|o']; try (right; discriminate); [by left|..].
  - destruct (decide (b = b')) as [->|]; [by left|right; congruence].
  - destruct (decide (d = d')) as [->|]; [by left|right; congruence].
  - destruct (decide (s = s')) as [->|]; [by left|right; congruence].
  - destruct (Hl l l') as [->|]; [by left|right; congruence].
  - destruct (@list_eq_dec _ Hp o o') as [->|]; [by left|right; congruence].
Defined.

(** ** Objects in JS order *)

(** [k] may stand before [k'] in an object. *)
Definition before (k k' : jsstring) : Prop :=
  match key_index k, key_index k' with
  | Some n, Some n' => n < n'
  | None, Some _ => False
  | _, _ => True
  end.

Definition ordered (o : fields) : Prop := NoDup o.*1 /\ StronglySorted before o.*1.

Lemma alist_get_None {V} (k : jsstring) (m : list (jsstring * V)) : alist_get k m = None <-> k ∉ m.*1.
Proof.
  induction m as [|[k' v] m IH]; cbn; [set_solver|]. destruct (decide (k' = k)) as [->|].
  - split; [done|]. set_solver.
  - rewrite IH. set_solver.
Qed.

Lemma insert_index_perm n k v o : insert_index n k v o ≡ₚ (k, v) :: o.
Proof.
  induction o as [|[k' v'] o IH]; cbn; [done|]. case_match; [|done]. case_match; [|done].
  rewrite IH. apply Permutation_swap.
Qed.

Lemma define_field_perm k v o : k ∉ o.*1 -> define_field k v o ≡ₚ (k, v) :: o.
Proof.
  intros Hk. unfold define_field. rewrite (proj2 (alist_get_None k o)) by done.
  destruct (key_index k) as [n|]; [apply insert_index_perm|]. by rewrite Permutation_app_comm.
Qed.

Lemma sorted_snoc {A} (R : relation A) l x : StronglySorted R (l ++ [x]) <-> StronglySorted R l /\ Forall (fun y => R y x) l.
Proof.
  induction l as [|y l IH]; cbn.
  - split; [intros _; split; constructor|by repeat constructor].
  - split.
    + intros H. inversion_clear H as [|? ? Hs Hf]. apply IH in Hs as [Hs Hx].
      apply Forall_app in Hf as [Hf Hfx]. inversion_clear Hfx. split; constructor; done.
    + intros [H Hx]. inversion_clear H as [|? ? Hs Hf]. inversion_clear Hx as [|? ? Hy Hx'].
      constructor; [by apply IH|]. apply Forall_app. auto.
Qed.

(** Reading the fields of an object back in order rebuilds it. *)
Lemma define_last o k v : ordered (o ++ [(k, v)]) -> define_field k v o = o ++ [(k, v)].
Proof.
  intros [Hnd Hs]. rewrite fmap_app in Hnd, Hs. cbn in Hnd, Hs. apply sorted_snoc in Hs as [_ Hb].
  apply NoDup_app in Hnd as (_ & Hnd & _). unfold define_field.
  rewrite (proj2 (alist_get_None k o)) by (intros H; apply (Hnd k H); by left).
  destruct (key_index k) as [n|] eqn:E; [|done]. clear Hnd.
  induction o as [|[k' v'] o IH]; cbn; [done|]. inversion_clear Hb as [|? ? Hk' Hb'].
  unfold before in Hk'. rewrite E in Hk'. destruct (key_index k') as [n'|]; [|done].
  rewrite (proj2 (Z.ltb_lt n' n)) by done. by rewrite IH.
Qed.

Lemma ordered_app_l o o' : ordered (o ++ o') -> ordered o.
Proof.
  intros [Hnd Hs]. rewrite fmap_app in Hnd, Hs. apply NoDup_app in Hnd as (Hnd & _ & _).
  split; [done|]. clear Hnd. revert Hs. generalize (o.*1), (o'.*1). clear. intros l l' H.
  induction l as [|x l IH]; [constructor|]. cbn in H. inversion_clear H as [|? ? Hs Hf].
  apply Forall_app in Hf as [Hf _]. constructor; auto.
Qed.

Lemma insert_index_Forall (P : jsstring -> Prop) n k v o :
  P k -> Forall P o.*1 -> Forall P (insert_index n k v o).*1.
Proof.
  intros Hk Ho. rewrite insert_index_perm. by constructor.
Qed.

Lemma insert_index_sorted n k v o :
  key_index k = Some n -> (forall k', k' ∈ o.*1 -> key_index k' <> Some n) ->
  StronglySorted before o.*1 -> StronglySorted before (insert_index n k v o).*1.
Proof.
  intros Hk. induction o as [|[k' v'] o IH]; cbn; intros Hn Hs; [by repeat constructor|].
  inversion_clear Hs as [|? ? Hs' Hf].
  assert (forall k'', before k k' -> k'' ∈ o.*1 -> before k k'') as Htail.
  { intros k'' Hb Hin. rewrite Forall_forall in Hf. specialize (Hf k'' Hin). unfold before in *.
    rewrite Hk in *. repeat case_match; simplify_eq; try done. lia. }
  assert (before k k' -> StronglySorted before (k :: k' :: o.*1)) as Hcons.
  { intros Hb. constructor; [by constructor|]. constructor; [done|]. apply Forall_forall. auto. }
  destruct (key_index k') as [n'|] eqn:E.
  - destruct (Z.ltb_spec n' n) as [Hlt|Hge]; cbn.
    + constructor; [apply IH; [set_solver|done]|]. apply insert_index_Forall; [|done].
      unfold before. by rewrite E, Hk.
    + apply Hcons. unfold before. rewrite Hk, E.
      assert (n' <> n) by (intros ->; apply (Hn k'); [left|done]). lia.
  - apply Hcons. unfold before. by rewrite Hk, E.
Qed.

Lemma key_index_inj k k' n : key_index k = Some n -> key_index k' = Some n -> k = k'.
Proof.
  unfold key_index. intros H H'. repeat case_match; simplify_eq.
  repeat match goal with H : _ && _ = true |- _ => apply andb_true_iff in H as [? ?] end.
  repeat match goal with H : bool_decide _ = true |- _ => apply bool_decide_eq_true in H end. congruence.
Qed.

Lemma define_field_ordered k v o : ordered o -> ordered (define_field k v o).
Proof.
  intros [Hnd Hs]. destruct (decide (k ∈ o.*1)) as [Hin|Hin].
  - unfold define_field. destruct (alist_get k o) eqn:E; [|by apply alist_get_None in E].
    split; [by apply alist_set_NoDup|]. by rewrite alist_keys_set, decide_True.
  - split.
    { rewrite (define_field_perm k v o Hin). by constructor. }
    unfold define_field. rewrite (proj2 (alist_get_None k o)) by done. destruct (key_index k) as [n|] eqn:E.
    + apply insert_index_sorted; [done| |done]. intros k' Hk' E'. by rewrite (key_index_inj k k' n) in Hin.
    + rewrite fmap_app. apply sorted_snoc. split; [done|]. apply Forall_forall. intros k' _.
      unfold before. cbn [fst]. rewrite E. by case_match.
Qed.

Lemma ordered_nil : ordered [].
Proof. split; constructor. Qed.

#[export] Hint Resolve define_field_ordered ordered_nil : json.

(** ** Strings *)

Definition push_unit (u : Z) (r : option (jsstring * jsstring)) : option (jsstring * jsstring) :=
  match r with
  | Some (t, rest) => Some (u :: t, rest)
  | None => None
  end.

Lemma radix_hex_digit d : 0 <= d < 16 -> radix_digit 16 (hex_digit d) = Some d.
Proof.
  intros Hd. unfold hex_digit, radix_digit. destruct (Z.ltb_spec d 10).
  - rewrite (proj2 (Z.leb_le 48 (48 + d))), (proj2 (Z.leb_le (48 + d) 57)) by lia. cbn [andb].
    replace (48 + d - 48) with d by lia. by rewrite (proj2 (Z.ltb_lt d 16)) by lia.
  - rewrite (proj2 (Z.leb_gt (87 + d) 57)) by lia. rewrite andb_false_r.
    rewrite (proj2 (Z.leb_le 97 (87 + d))), (proj2 (Z.leb_le (87 + d) 102)) by lia. cbn [andb].
    replace (87 + d - 87) with d by lia. by rewrite (proj2 (Z.ltb_lt d 16)) by lia.
Qed.

Lemma parse_unicode u t : 0 <= u < 0x10000 -> parse_string (unicode_escape u ++ t) = push_unit u (parse_string t).
Proof.
  intros Hu. unfold unicode_escape. cbn [app parse_string].
  change (92 =? 34) with false. change (92 =? 92) with true. change (117 =? 117) with true. cbv iota.
  unfold hex_value. pose proof (Z.mod_pos_bound u 16). pose proof (Z.mod_pos_bound (u / 16) 16).
  pose proof (Z.mod_pos_bound (u / 256) 16).
  assert (0 <= u / 4096 < 16) by (split; [apply Z.div_pos|apply Z.div_lt_upper_bound]; lia).
  rewrite !radix_hex_digit by lia.
  replace (u / 4096 * 4096 + u / 256 mod 16 * 256 + u / 16 mod 16 * 16 + u mod 16) with u; [done|].
  pose proof (Z.div_mod u 16). pose proof (Z.div_mod (u / 16) 16). pose proof (Z.div_mod (u / 256) 16).
  assert (u / 16 / 16 = u / 256) by (by rewrite Z.div_div by lia).
  assert (u / 256 / 16 = u / 4096) by (by rewrite Z.div_div by lia). lia.
Qed.

Lemma parse_plain u t : 32 <= u -> u <> 34 -> u <> 92 -> parse_string (u :: t) = push_unit u (parse_string t).
Proof.
  intros H H1 H2. cbn [parse_string].
  by rewrite (proj2 (Z.eqb_neq u 34)), (proj2 (Z.eqb_neq u 92)), (proj2 (Z.ltb_ge u 32)) by done.
Qed.

Lemma parse_escape u t : 0 <= u < 0x10000 -> parse_string (escape_unit u ++ t) = push_unit u (parse_string t).
Proof.
  intros Hu. unfold escape_unit.
  repeat match goal with
  | |- context [if u =? ?n then _ else _] => destruct (Z.eqb_spec u n) as [->|?]; [done|]
  end.
  destruct (Z.ltb_spec u 32); [by apply parse_unicode|]. cbn [app]. by apply parse_plain.
Qed.

Lemma quote_units_parse s rest : wf_string s -> parse_string (quote_units s ++ 34 :: rest) = Some (s, rest).
Proof.
  remember (length s) as n eqn:Hn. assert (length s <= n)%nat as Hl by lia. clear Hn.
  revert s Hl. induction n as [|n IH]; intros [|u s] Hl Hs; cbn [length] in Hl; try lia; try done.
  unfold wf_string in Hs. apply Forall_cons in Hs as [Hu Hs].
  assert (parse_string (quote_units s ++ 34 :: rest) = Some (s, rest)) as IHs by (apply IH; [lia|done]).
  cbn [quote_units]. destruct (is_high u) eqn:Eh.
  - assert (parse_string ((unicode_escape u ++ quote_units s) ++ 34 :: rest) = Some (u :: s, rest)) as Hesc.
    { rewrite <- (assoc_L (++)), parse_unicode, IHs by done. done. }
    destruct s as [|w s]; [by rewrite <- (app_nil_r (unicode_escape u))|].
    destruct (is_low w) eqn:Ew; [|done]. apply Forall_cons in Hs as [Hw Hs].
    unfold is_high in Eh. unfold is_low in Ew. apply within_spec in Eh, Ew. cbn [app].
    cbn [length] in Hl. rewrite !parse_plain, IH by (done || lia). done.
  - destruct (is_low u).
    + by rewrite <- (assoc_L (++)), parse_unicode, IHs.
    + by rewrite <- (assoc_L (++)), parse_escape, IHs.
Qed.

(** ** Numbers *)

(** What may follow a value in a JSON text. *)
Definition delimited (rest : jsstring) : Prop :=
  match rest with
  | [] => True
  | c :: _ => c = 44 \/ c = 93 \/ c = 125
  end.

Lemma delimited_stops rest : delimited rest -> stops rest.
Proof. destruct rest as [|c rest]; [done|]. by intros [->|[->| ->]]. Qed.

Lemma match_zero {A} (s : jsstring) (k : jsstring -> A) (d : A) :
  head s <> Some 48 -> (match s with 48 :: s' => k s' | _ => d end) = d.
Proof.
  destruct s as [|c s]; [done|]. cbn. intros H.
  destruct c as [|c|c]; try done. do 6 (destruct c as [c|c|]; try done).
Qed.

Lemma match_minus {A} (s : jsstring) (k : jsstring -> A) (d : A) :
  head s <> Some 45 -> (match s with 45 :: s' => k s' | _ => d end) = d.
Proof.
  destruct s as [|c s]; [done|]. cbn. intros H.
  destruct c as [|c|c]; try done. do 6 (destruct c as [c|c|]; try done).
Qed.

(** The number after an optional sign. *)
Definition parse_unsigned (neg : bool) (s1 : jsstring) : option (double * jsstring) :=
  let '(i, s2) := match s1 with 48 :: s' => ([48], s') | _ => span_digits s1 end in
  match i with
  | [] => None
  | _ =>
    let '(f, s3) := match s2 with
                    | 46 :: s' => match span_digits s' with ([], _) => ([], s2) | p => p end
                    | _ => ([], s2)
                    end in
    let '(e, rest) := scan_exponent s3 in
    Some (signed neg (decimal_mag (parse_digits (i ++ f)) (e - Z.of_nat (length f))), rest)
  end.

Lemma parse_number_unfold s :
  parse_number s = match s with 45 :: s' => parse_unsigned true s' | _ => parse_unsigned false s end.
Proof.
  unfold parse_number. destruct s as [|c s]; [done|].
  destruct c as [|c|c]; try done. do 6 (destruct c as [c|c|]; try done).
Qed.

Lemma parse_unsigned_literal neg t i f e rest :
  literal t i f e -> (i = [48] \/ head i <> Some 48) -> stops rest ->
  parse_unsigned neg (t ++ rest)
  = Some (signed neg (decimal_mag (parse_digits (i ++ f)) (e - Z.of_nat (length f))), rest).
Proof.
  intros [Hi Hne Hf (x & -> & Hx)] Hz Hr. destruct (Hx rest Hr) as (Hnd & Hdot & He).
  set (y := match f with [] => x | _ => 46 :: f ++ x end ++ rest).
  assert (no_digit y) as Hy by (destruct f; done).
  rewrite <- (assoc_L (++)). fold y. unfold parse_unsigned.
  assert ((match i ++ y with 48 :: s' => ([48], s') | _ => span_digits (i ++ y) end) = (i, y)) as ->.
  { destruct Hz as [->|Hz]; [done|]. rewrite match_zero by (by destruct i). by apply span_digits_app. }
  assert ((match y with
           | 46 :: s' => match span_digits s' with ([], _) => ([], y) | p => p end
           | _ => ([], y) end) = (f, x ++ rest)) as ->.
  { subst y. destruct f as [|c f]; [by rewrite match_dot|]. cbn [app]. rewrite <- (assoc_L (++)).
    change (c :: f ++ x ++ rest) with ((c :: f) ++ x ++ rest). by rewrite span_digits_app. }
  rewrite He. by destruct i.
Qed.

(** [-0] prints as [0]. *)
Definition plain_number (d : double) : double := if decide (d = NEG_ZERO) then 0 else d.

Lemma finite_magnitude d : wf_double d -> is_finite d = true -> 0 <= dmag d < INF_MAG /\ d = signed (dneg d) (dmag d).
Proof.
  intros Hwf Hf. destruct (is_nan d) eqn:Hn.
  { unfold is_nan in Hn. unfold is_finite in Hf. by repeat case_match. }
  destruct (finite_or_infinite d Hwf Hn) as [Hm Hd]. split; [|done].
  unfold is_finite, num_of_double in Hf. destruct (Z.eqb_spec (dmag d) INF_MAG) as [E|]; [|lia].
  rewrite E in Hf. rewrite Z.ltb_irrefl in Hf. by destruct (dneg d).
Qed.

Lemma parse_number_text d rest :
  wf_double d -> is_finite d = true -> stops rest ->
  (exists c t, number_to_string d ++ rest = c :: t /\ (is_digit c = true \/ c = 45)) /\
  parse_number (number_to_string d ++ rest) = Some (plain_number d, rest).
Proof.
  intros Hwf Hf Hr. destruct (finite_magnitude d Hwf Hf) as [Hm Hd].
  assert (is_nan d = false) as Hn by (unfold is_nan; unfold is_finite in Hf; by repeat case_match).
  unfold number_to_string. rewrite Hn. destruct (Z.eqb_spec (dmag d) 0) as [E|E].
  - split; [exists 48, rest; auto|]. change (js "0" ++ rest) with ([48] ++ rest). rewrite parse_number_unfold.
    change (match [48] ++ rest with 45 :: s' => parse_unsigned true s' | _ => parse_unsigned false ([48] ++ rest) end)
      with (parse_unsigned false ([48] ++ rest)).
    rewrite (parse_unsigned_literal false [48] [48] [] 0); [|split; [by repeat constructor|done|done|]|by left|done].
    2: { exists []. split; [done|]. intros. done. }
    rewrite E in Hd. unfold plain_number. by destruct (dneg d); subst d.
  - rewrite (proj2 (Z.eqb_neq (dmag d) INF_MAG)) by lia.
    destruct (mag_to_string_literal (dmag d)) as (i & f & e & Hl & Hi & _ & Hread); [lia|].
    pose proof (fun neg => parse_unsigned_literal neg _ i f e rest Hl Hi Hr) as Hp. rewrite Hread in Hp.
    assert (plain_number d = d) as Hpl.
    { unfold plain_number. rewrite decide_False; [done|]. intros ->. by cbn in E. }
    destruct (literal_head _ _ _ _ Hl) as (c & t & Ht & Hc). rewrite parse_number_unfold, Hpl.
    destruct (dneg d); cbn [signed] in Hd.
    + change (js "-") with [45]. split; [exists 45, (mag_to_string (dmag d) ++ rest); auto|]. cbn [app].
      rewrite Hp. cbn [signed]. by rewrite <- Hd.
    + cbn [app]. split; [rewrite Ht; exists c, (t ++ rest); auto|].
      rewrite match_minus; [rewrite Hp; cbn [signed]; by rewrite <- Hd|].
      rewrite Ht. cbn. intros [= ->]. done.
Qed.

(** ** Every step consumes text *)

Lemma skip_ws_length s : (length (skip_ws s) <= length s)%nat.
Proof. induction s as [|c s IH]; cbn; [done|]. case_match; cbn; lia. Qed.

Lemma parse_string_rest s t r : parse_string s = Some (t, r) -> (length r < length s)%nat.
Proof.
  remember (length s) as n eqn:Hn. assert (length s <= n)%nat as Hl by lia. rewrite Hn. clear Hn.
  revert s t r Hl. induction n as [|n IH]; intros [|c s] t r Hl; cbn [length] in *; try lia; try done.
  cbn [parse_string]. intros H.
  destruct (c =? 34); [by simplify_eq; lia|]. destruct (c =? 92).
  - destruct s as [|e s]; [done|]. cbn [length] in *. destruct (e =? 117).
    + destruct s as [|h1 [|h2 [|h3 [|h4 s]]]]; try done. cbn [length] in *.
      destruct (hex_value h1 h2 h3 h4); [|done]. destruct (parse_string s) as [[t' r']|] eqn:E; [|done].
      simplify_eq. apply IH in E; lia.
    + destruct (short_escape e); [|done]. destruct (parse_string s) as [[t' r']|] eqn:E; [|done].
      simplify_eq. apply IH in E; lia.
  - destruct (c <? 32); [done|]. destruct (parse_string s) as [[t' r']|] eqn:E; [|done].
    simplify_eq. apply IH in E; lia.
Qed.

Lemma span_digits_length s : length s = (length (span_digits s).1 + length (span_digits s).2)%nat.
Proof. induction s as [|c s IH]; cbn; [done|]. case_match; cbn; lia. Qed.

Lemma scan_sign_length s : (length (scan_sign s).2 <= length s)%nat.
Proof.
  destruct s as [|c s]; [done|]. unfold scan_sign.
  destruct c as [|c|c]; try (cbn; lia). repeat (destruct c as [c|c|]; try (cbn; lia)).
Qed.

Lemma scan_exponent_length s : (length (scan_exponent s).2 <= length s)%nat.
Proof.
  destruct s as [|c s]; [done|]. unfold scan_exponent. destruct (_ || _); [|done].
  pose proof (scan_sign_length s) as H. destruct (scan_sign s) as [neg s1]. cbn in H.
  pose proof (span_digits_length s1). destruct (span_digits s1) as [[|d ds] rest]; cbn in *; lia.
Qed.

Lemma parse_unsigned_rest neg s d r : parse_unsigned neg s = Some (d, r) -> (length r < length s)%nat.
Proof.
  unfold parse_unsigned. intros H.
  destruct (match s with 48 :: s' => ([48], s') | _ => span_digits s end) as [i s2] eqn:Ei.
  assert (i <> [] -> (length s2 < length s)%nat) as Hi.
  { assert (span_digits s = (i, s2) -> i <> [] -> (length s2 < length s)%nat).
    { intros E Hne. pose proof (span_digits_length s) as Hl. rewrite E in Hl. destruct i; [done|]. cbn in Hl. lia. }
    destruct (decide (head s = Some 48)) as [E|E]; [|rewrite match_zero in Ei by done; auto].
    destruct s as [|c s]; [done|]. cbn in E. simplify_eq. intros _. cbn. lia. }
  destruct i as [|c i]; [done|]. specialize (Hi ltac:(done)).
  destruct (match s2 with 46 :: s' => _ | _ => _ end) as [f s3] eqn:Ef.
  assert (length s3 <= length s2)%nat as Hf.
  { destruct (decide (head s2 = Some 46)) as [E|E]; [|rewrite match_dot in Ef by done; by simplify_eq].
    destruct s2 as [|c' s2]; [done|]. cbn in E. simplify_eq. pose proof (span_digits_length s2).
    destruct (span_digits s2) as [[|x y] z]; simplify_eq; cbn in *; lia. }
  pose proof (scan_exponent_length s3). destruct (scan_exponent s3) as [e rest]. simplify_eq. cbn in *. lia.
Qed.

Lemma parse_number_rest s d r : parse_number s = Some (d, r) -> (length r < length s)%nat.
Proof.
  rewrite parse_number_unfold. destruct (decide (head s = Some 45)) as [E|E].
  - destruct s as [|c s]; [done|]. cbn in E. simplify_eq. intros H%parse_unsigned_rest. cbn. lia.
  - rewrite match_minus by done. apply parse_unsigned_rest.
Qed.

Lemma after_prefix_length p s r : after_prefix p s = Some r -> length s = (length p + length r)%nat.
Proof.
  revert s. induction p as [|a p IH]; intros [|b s]; cbn; try done; [by intros [= <-]..|].
  destruct (a =? b); [|done]. intros H. by rewrite (IH s).
Qed.

Lemma expect_length c s r : expect c s = Some r -> length s = S (length r).
Proof. destruct s as [|x s]; cbn; [done|]. case_match; [|done]. by intros [= <-]. Qed.

Lemma parse_keyword_rest s v r : parse_keyword s = Some (v, r) -> (length r < length s)%nat.
Proof.
  unfold parse_keyword. intros H.
  destruct (after_prefix (js "null") s) eqn:E1; [apply after_prefix_length in E1; simplify_eq; cbn in E1; lia|].
  destruct (after_prefix (js "true") s) eqn:E2; [apply after_prefix_length in E2; simplify_eq; cbn in E2; lia|].
  destruct (after_prefix (js "false") s) eqn:E3; [apply after_prefix_length in E3; simplify_eq; cbn in E3; lia|done].
Qed.

(** The parser consumes at least one unit whenever it returns. *)
Lemma parse_consumes fuel :
  (forall s v r, parse_value fuel s = Some (v, r) -> (length r < length s)%nat) /\
  (forall acc s v r, parse_elements fuel acc s = Some (v, r) -> (length r < length s)%nat) /\
  (forall acc s v r, parse_members fuel acc s = Some (v, r) -> (length r < length s)%nat).
Proof.
  induction fuel as [|fuel (IHv & IHe & IHm)]; [done|]. split_and!.
  - intros s v r. cbn [parse_value]. pose proof (skip_ws_length s) as Hw.
    destruct (expect 34 _) as [r1|] eqn:E1; [|destruct (expect 91 _) as [r1|] eqn:E2;
      [|destruct (expect 123 _) as [r1|] eqn:E3; [|destruct (parse_keyword _) as [[w r1]|] eqn:E4]]].
    + apply expect_length in E1. destruct (parse_string r1) as [[t rest]|] eqn:E; [|done].
      apply parse_string_rest in E. intros [= <- <-]. lia.
    + apply expect_length in E2. pose proof (skip_ws_length r1). destruct (expect 93 _) as [rest|] eqn:E.
      * apply expect_length in E. intros [= <- <-]. lia.
      * intros H'%IHe. lia.
    + apply expect_length in E3. pose proof (skip_ws_length r1). destruct (expect 125 _) as [rest|] eqn:E.
      * apply expect_length in E. intros [= <- <-]. lia.
      * intros H'%IHm. lia.
    + apply parse_keyword_rest in E4. intros [= <- <-]. lia.
    + destruct (parse_number _) as [[d rest]|] eqn:E; [|done]. apply parse_number_rest in E.
      intros [= <- <-]. lia.
  - intros acc s v r. cbn [parse_elements]. destruct (parse_value fuel s) as [[w s1]|] eqn:E; [|done].
    apply IHv in E. pose proof (skip_ws_length s1).
    destruct (expect 44 _) as [s2|] eqn:E2; [|destruct (expect 93 _) as [s2|] eqn:E3; [|done]].
    + apply expect_length in E2. intros H'%IHe. lia.
    + apply expect_length in E3. intros [= <- <-]. lia.
  - intros acc s v r. cbn [parse_members]. pose proof (skip_ws_length s).
    destruct (expect 34 _) as [s1|] eqn:E1; [|done]. apply expect_length in E1.
    destruct (parse_string s1) as [[k s2]|] eqn:E2; [|done]. apply parse_string_rest in E2.
    pose proof (skip_ws_length s2). destruct (expect 58 _) as [s3|] eqn:E3; [|done]. apply expect_length in E3.
    destruct (parse_value fuel s3) as [[w s4]|] eqn:E4; [|done]. apply IHv in E4. pose proof (skip_ws_length s4).
    destruct (expect 44 _) as [s5|] eqn:E5; [|destruct (expect 125 _) as [s5|] eqn:E6; [|done]].
    + apply expect_length in E5. intros H'%IHm. lia.
    + apply expect_length in E6. intros [= <- <-]. lia.
Qed.

(** Twice the length of the text is enough fuel: more changes nothing. *)
Lemma parse_fuel f g :
  (forall s, (2 * length s + 1 <= f)%nat -> (2 * length s + 1 <= g)%nat -> parse_value f s = parse_value g s) /\
  (forall acc s, (2 * length s + 2 <= f)%nat -> (2 * length s + 2 <= g)%nat ->
     parse_elements f acc s = parse_elements g acc s) /\
  (forall acc s, (2 * length s + 2 <= f)%nat -> (2 * length s + 2 <= g)%nat ->
     parse_members f acc s = parse_members g acc s).
Proof.
  revert g. induction f as [|f IH]; intros g; [split_and!; intros; lia|].
  destruct g as [|g]; [split_and!; intros; lia|]. destruct (IH g) as (IHv & IHe & IHm). split_and!.
  - intros s Hf Hg. cbn [parse_value]. pose proof (skip_ws_length s) as Hw.
    destruct (expect 34 _) as [r1|] eqn:E1; [done|destruct (expect 91 _) as [r1|] eqn:E2;
      [|destruct (expect 123 _) as [r1|] eqn:E3; [|done]]].
    + apply expect_length in E2. destruct (expect 93 _); [done|]. apply IHe; lia.
    + apply expect_length in E3. destruct (expect 125 _); [done|]. apply IHm; lia.
  - intros acc s Hf Hg. cbn [parse_elements]. rewrite IHv by lia.
    destruct (parse_value g s) as [[w s1]|] eqn:E; [|done]. apply parse_consumes in E.
    pose proof (skip_ws_length s1). destruct (expect 44 _) as [s2|] eqn:E2; [|done].
    apply expect_length in E2. apply IHe; lia.
  - intros acc s Hf Hg. cbn [parse_members]. pose proof (skip_ws_length s).
    destruct (expect 34 _) as [s1|] eqn:E1; [|done]. apply expect_length in E1.
    destruct (parse_string s1) as [[k s2]|] eqn:E2; [|done]. apply parse_string_rest in E2.
    pose proof (skip_ws_length s2). destruct (expect 58 _) as [s3|] eqn:E3; [|done]. apply expect_length in E3.
    rewrite IHv by lia. destruct (parse_value g s3) as [[w s4]|] eqn:E4; [|done]. apply parse_consumes in E4.
    pose proof (skip_ws_length s4). destruct (expect 44 _) as [s5|] eqn:E5; [|done].
    apply expect_length in E5. apply IHm; lia.
Qed.

(** ** Round trip *)

(** A JSON value as JS holds it. *)
Fixpoint wf_json (v : JSONValue) : Prop :=
  match v with
  | JNumber d => wf_double d
  | JString s => wf_string s
  | JArray l => foldr (fun x P => wf_json x /\ P) True l
  | JObject o => ordered o /\ foldr (fun kv P => (wf_string kv.1 /\ wf_json kv.2) /\ P) True o
  | _ => True
  end.

Lemma foldr_Forall {A} (P : A -> Prop) l : foldr (fun x Q => P x /\ Q) True l <-> Forall P l.
Proof.
  induction l as [|x l IH]; cbn; [done|]. rewrite Forall_cons, IH. done.
Qed.

Lemma wf_array l : wf_json (JArray l) <-> Forall wf_json l.
Proof. apply foldr_Forall. Qed.

Lemma wf_object o : wf_json (JObject o) <-> ordered o /\ Forall (fun kv => wf_string kv.1 /\ wf_json kv.2) o.
Proof. cbn. by rewrite (foldr_Forall (fun kv => wf_string kv.1 /\ wf_json kv.2)). Qed.

(** What JSON text keeps of a value: [-0] becomes [0] and the numbers JSON
    cannot write become [null]. *)
Fixpoint plain (v : JSONValue) : JSONValue :=
  match v with
  | JNumber d => if is_finite d then JNumber (plain_number d) else JNull
  | JArray l => JArray (map plain l)
  | JObject o => JObject (map (fun kv => (kv.1, plain kv.2)) o)
  | _ => v
  end.

(** The unit a value's text starts with. *)
Definition value_start (c : Z) : Prop := is_json_space c = false /\ c <> 44 /\ c <> 93 /\ c <> 125 /\ c < 128.

Lemma digit_start c : is_digit c = true \/ c = 45 -> value_start c.
Proof.
  intros H. assert (c = 45 \/ 48 <= c <= 57) as Hc by (destruct H as [H%is_digit_range|]; auto).
  split_and!; [|lia..]. apply bool_decide_eq_false. rewrite !elem_of_cons, elem_of_nil. lia.
Qed.

Lemma stringify_start v : wf_json v -> exists c t, stringify v = c :: t /\ value_start c.
Proof.
  destruct v as [|b|d|s|l|o]; cbn [stringify]; intros Hwf; [|destruct b|destruct (is_finite d) eqn:Hf|..];
    try (eexists _, _; split; [reflexivity|by split_and!]).
  destruct (parse_number_text d [] Hwf Hf stops_nil) as [(c & t & E & Hc) _].
  rewrite app_nil_r in E. exists c, t. split; [done|]. by apply digit_start.
Qed.

Lemma skip_ws_start c s : is_json_space c = false -> skip_ws (c :: s) = c :: s.
Proof. intros H. cbn. by rewrite H. Qed.

Lemma expect_other c x s : x <> c -> expect c (x :: s) = None.
Proof. intros H. cbn. by rewrite (proj2 (Z.eqb_neq x c)). Qed.

Lemma expect_same c s : expect c (c :: s) = Some s.
Proof. cbn. by rewrite Z.eqb_refl. Qed.

Lemma keyword_digit c s : is_digit c = true \/ c = 45 -> parse_keyword (c :: s) = None.
Proof.
  intros H. assert (c = 45 \/ 48 <= c <= 57) as Hc by (destruct H as [H%is_digit_range|]; auto).
  assert (forall a p, 57 < a -> after_prefix (a :: p) (c :: s) = None) as Hp.
  { intros a p Ha. cbn. by rewrite (proj2 (Z.eqb_neq a c)) by lia. }
  unfold parse_keyword. change (js "null") with (110 :: js "ull"). change (js "true") with (116 :: js "rue").
  change (js "false") with (102 :: js "alse"). by rewrite !Hp.
Qed.

(** [v] is read back in front of any text that may follow a value. *)
Definition reads_back (v : JSONValue) : Prop :=
  forall fuel rest, delimited rest -> (2 * length (stringify v ++ rest) + 1 <= fuel)%nat ->
    parse_value fuel (stringify v ++ rest) = Some (plain v, rest).

Lemma number_reads_back d : wf_double d -> reads_back (JNumber d).
Proof.
  intros Hwf fuel rest Hr Hf. destruct fuel as [|fuel]; [lia|]. cbn [stringify plain].
  destruct (is_finite d) eqn:Hfin; [|by destruct rest].
  destruct (parse_number_text d rest Hwf Hfin) as [(c & t & E & Hc) Hp]; [by apply delimited_stops|].
  rewrite E in *. pose proof (digit_start c Hc) as (Hsp & _).
  cbn [parse_value]. rewrite skip_ws_start, keyword_digit by done.
  assert (c = 45 \/ 48 <= c <= 57) as Hc' by (destruct Hc as [Hc%is_digit_range|]; auto).
  rewrite !expect_other, Hp by lia. done.
Qed.

Lemma string_reads_back s : wf_string s -> reads_back (JString s).
Proof.
  intros Hwf fuel rest Hr Hf. destruct fuel as [|fuel]; [lia|]. cbn [stringify plain]. unfold quote.
  cbn [parse_value app]. rewrite skip_ws_start, expect_same by done. rewrite <- (assoc_L (++)).
  cbn [app]. by rewrite quote_units_parse.
Qed.

Lemma keyword_reads_back v : match v with JNull | JBool _ => True | _ => False end -> reads_back v.
Proof.
  intros Hv fuel rest Hr Hf. destruct fuel as [|fuel]; [lia|]. by destruct v as [|[|]| | | |].
Qed.

(** ** Arrays and objects *)

Lemma join_cons sep x y l : join sep (x :: y :: l) = x ++ sep :: join sep (y :: l).
Proof. done. Qed.

Lemma skip_ws_value v s : wf_json v -> skip_ws (stringify v ++ s) = stringify v ++ s.
Proof.
  intros Hwf. destruct (stringify_start v Hwf) as (c & t & -> & Hc & _). cbn [app]. by apply skip_ws_start.
Qed.

Lemma elements_read_back l acc fuel rest :
  l <> [] -> Forall wf_json l -> Forall reads_back l ->
  (2 * length (join 44 (map stringify l) ++ 93%Z :: rest) + 2 <= fuel)%nat ->
  parse_elements fuel acc (join 44 (map stringify l) ++ 93 :: rest) = Some (JArray (acc ++ map plain l), rest).
Proof.
  revert acc fuel. induction l as [|v l IH]; intros acc fuel Hne Hwf Hrb Hf; [done|].
  inversion_clear Hwf as [|? ? Hv Hl]. inversion_clear Hrb as [|? ? Rv Rl].
  destruct fuel as [|fuel]; [lia|]. cbn [parse_elements]. destruct l as [|w l].
  - cbn [map join] in *. rewrite Rv; [|cbn; auto|lia]. rewrite skip_ws_start by done.
    by rewrite expect_other, expect_same by done.
  - cbn [map] in *. rewrite join_cons, <- (assoc_L (++)), <- app_comm_cons in *.
    rewrite Rv; [|cbn; auto|lia]. rewrite skip_ws_start, expect_same by done.
    rewrite length_app in Hf. cbn [length] in Hf. rewrite IH; [|done..|lia]. by rewrite <- (assoc_L (++)).
Qed.

Lemma array_reads_back l : Forall wf_json l -> Forall reads_back l -> reads_back (JArray l).
Proof.
  intros Hwf Hrb fuel rest Hr Hf. destruct fuel as [|fuel]; [lia|]. cbn [stringify plain] in *.
  rewrite <- app_comm_cons in *. cbn [parse_value]. rewrite skip_ws_start by done.
  rewrite expect_other, expect_same by done. rewrite <- (assoc_L (++)) in *. cbn [app length] in *.
  destruct l as [|v l].
  { cbn [map join app]. by rewrite skip_ws_start, expect_same. }
  assert (skip_ws (join 44 (map stringify (v :: l)) ++ 93 :: rest) = join 44 (map stringify (v :: l)) ++ 93 :: rest
    /\ expect 93 (join 44 (map stringify (v :: l)) ++ 93 :: rest) = None) as [-> ->].
  { inversion_clear Hwf as [|? ? Hv _]. destruct (stringify_start v Hv) as (c & t & E & Hc & _ & Hc' & _).
    assert (exists t', join 44 (map stringify (v :: l)) ++ 93 :: rest = c :: t') as (t' & ->).
    { cbn [map]. destruct l; cbn [map]; [cbn [join]|rewrite join_cons]; rewrite E; by eexists. }
    split; [by apply skip_ws_start|by apply expect_other]. }
  rewrite elements_read_back; [done|done..|lia].
Qed.

Definition member (kv : jsstring * JSONValue) : jsstring := quote kv.1 ++ 58 :: stringify kv.2.

Lemma quote_app k s : quote k ++ s = 34 :: quote_units k ++ 34 :: s.
Proof. unfold quote. cbn. by rewrite <- (assoc_L (++)). Qed.

Lemma members_read_back o acc fuel rest :
  o <> [] -> Forall (fun kv => wf_string kv.1 /\ wf_json kv.2) o -> Forall (fun kv => reads_back kv.2) o ->
  ordered (acc ++ map (fun kv => (kv.1, plain kv.2)) o) ->
  (2 * length (join 44 (map member o) ++ 125%Z :: rest) + 2 <= fuel)%nat ->
  parse_members fuel acc (join 44 (map member o) ++ 125 :: rest)
  = Some (JObject (acc ++ map (fun kv => (kv.1, plain kv.2)) o), rest).
Proof.
  revert acc fuel. induction o as [|[k v] o IH]; intros acc fuel Hne Hwf Hrb Hord Hf; [done|].
  inversion_clear Hwf as [|? ? [Hk Hv] Ho]. inversion_clear Hrb as [|? ? Rv Rl]. cbn [fst snd] in *.
  cbn [map fst snd] in Hord. rewrite (cons_middle _ acc), (assoc_L (++)) in Hord.
  destruct fuel as [|fuel]; [lia|]. cbn [parse_members].
  pose proof (define_last acc k (plain v) (ordered_app_l _ _ Hord)) as Hdef. destruct o as [|kv o].
  - cbn [map join] in *. unfold member at 1. cbn [fst snd].
    unfold member in Hf. cbn [fst snd] in Hf. rewrite <- (assoc_L (++)), quote_app in *. cbn [app] in *.
    rewrite skip_ws_start, expect_same, quote_units_parse by done. rewrite skip_ws_start, expect_same by done.
    rewrite Rv; [|cbn; auto|].
    2: { cbn [length] in Hf. rewrite length_app in Hf. cbn [length] in Hf. lia. }
    rewrite skip_ws_start by done. by rewrite expect_other, expect_same, Hdef.
  - cbn [map] in *. rewrite join_cons, <- (assoc_L (++)), <- app_comm_cons in *.
    unfold member at 1. unfold member at 1 in Hf. cbn [fst snd] in *. rewrite <- (assoc_L (++)), quote_app in *. cbn [app] in *.
    rewrite skip_ws_start, expect_same, quote_units_parse by done. rewrite skip_ws_start, expect_same by done.
    cbn [length] in Hf. rewrite length_app in Hf. cbn [length] in Hf.
    rewrite Rv; [|cbn; auto|lia]. rewrite skip_ws_start, expect_same, Hdef by done.
    rewrite length_app in Hf. cbn [length] in Hf.
    rewrite IH; [by rewrite <- (assoc_L (++))|done..|lia].
Qed.


Lemma plain_keys (o : fields) : (map (fun kv => (kv.1, plain kv.2)) o).*1 = o.*1.
Proof. induction o as [|[k v] o IH]; cbn; [done|]. by f_equal. Qed.

Lemma object_reads_back o :
  ordered o -> Forall (fun kv => wf_string kv.1 /\ wf_json kv.2) o -> Forall (fun kv => reads_back kv.2) o ->
  reads_back (JObject o).
Proof.
  intros Hord Hwf Hrb fuel rest Hr Hf. destruct fuel as [|fuel]; [lia|].
  cbn [stringify plain] in *. change (fun kv => quote kv.1 ++ 58 :: stringify kv.2) with member in *.
  rewrite <- app_comm_cons in *. cbn [parse_value]. rewrite skip_ws_start by done.
  rewrite !(expect_other _ 123), expect_same by done. rewrite <- (assoc_L (++)) in *. cbn [app length] in *.
  destruct o as [|[k v] o].
  { cbn [map join app]. by rewrite skip_ws_start, expect_same. }
  assert (exists t, join 44 (map member ((k, v) :: o)) ++ 125 :: rest = 34 :: t) as (t & E).
  { cbn [map]. destruct o; cbn [map]; [cbn [join]|rewrite join_cons]; unfold member at 1; cbn [fst];
      rewrite <- !(assoc_L (++)), quote_app; by eexists. }
  rewrite E, skip_ws_start, expect_other, <- E by done.
  rewrite members_read_back; [done|done..| |lia].
  destruct Hord as [Hnd Hs]. cbn [app]. split; by rewrite plain_keys.
Qed.

Lemma json_reads_back v : wf_json v -> reads_back v.
Proof.
  induction v as [|b|d|s|l IH|o IH] using JSONValue_rect'; intros Hwf.
  - by apply keyword_reads_back.
  - by apply keyword_reads_back.
  - by apply number_reads_back.
  - by apply string_reads_back.
  - apply wf_array in Hwf. apply array_reads_back; [done|].
    rewrite Forall_forall in *. auto.
  - apply wf_object in Hwf as [Hord Hwf]. apply object_reads_back; [done..|].
    rewrite Forall_forall in *. intros kv Hin. apply IH; [done|]. by apply Hwf.
Qed.

(** [JSON.parse(JSON.stringify(v))]. *)
Lemma JSON_parse_stringify v : wf_json v -> JSON_parse (stringify v) = Some (plain v).
Proof.
  intros Hwf. unfold JSON_parse.
  pose proof (json_reads_back v Hwf (2 * length (stringify v) + 2)%nat []) as H. rewrite app_nil_r in H.
  by rewrite H by (done || lia).
Qed.

Lemma stringify_inj v w : wf_json v -> wf_json w -> stringify v = stringify w <-> plain v = plain w.
Proof.
  intros Hv Hw. split.
  - intros H. apply (inj Some). by rewrite <- !JSON_parse_stringify, H.
  - assert (forall v, stringify (plain v) = stringify v) as Hp; [|intros H; by rewrite <- (Hp v), H].
    clear. intros v. induction v as [|b|d|s|l IH|o IH] using JSONValue_rect'; cbn; try done.
    + destruct (is_finite d) eqn:E; [|done]. cbn. unfold plain_number. case_decide as Hd; [by subst|]. by rewrite E.
    + do 3 f_equal. rewrite map_map. apply map_ext_Forall, IH.
    + do 3 f_equal. rewrite map_map. apply map_ext_Forall. eapply Forall_impl; [exact IH|].
      intros [k x] Hx. cbn in *. by rewrite Hx.
Qed.


(** ** Canonical objects *)

Definition map_snd (f : JSONValue -> JSONValue) (o : fields) : fields := map (fun kv => (kv.1, f kv.2)) o.

Lemma map_snd_keys f o : (map_snd f o).*1 = o.*1.
Proof. induction o as [|[k v] o IH]; cbn; [done|]. by f_equal. Qed.

Lemma compare_units_sgn a b : sgn (compare_units a b) = lex Z.compare a b.
Proof. unfold compare_units. by destruct (lex Z.compare a b). Qed.

Lemma assign_fields_perm l acc :
  NoDup (acc.*1 ++ l.*1) -> js "__proto__" ∉ l.*1 ->
  foldl (fun sorted kv => assign_field sorted kv.1 kv.2) acc l ≡ₚ acc ++ l.
Proof.
  revert acc. induction l as [|[k v] l IH]; intros acc Hnd Hp; cbn [foldl].
  { by rewrite app_nil_r. }
  cbn in Hnd, Hp. unfold assign_field at 2. cbn [fst snd]. rewrite decide_False by set_solver.
  assert (k ∉ acc.*1) as Hk.
  { apply NoDup_app in Hnd as (_ & Hd & _). intros Hin. apply (Hd k Hin). by left. }
  pose proof (define_field_perm k v acc Hk) as Hperm. rewrite IH; [|rewrite Hperm; cbn|set_solver].
  - rewrite Hperm. cbn. by rewrite Permutation_middle.
  - by rewrite <- Permutation_middle in Hnd.
Qed.

Lemma sort_fields_perm o : NoDup o.*1 -> js "__proto__" ∉ o.*1 -> sort_fields o ≡ₚ o.
Proof.
  intros Hnd Hp. unfold sort_fields. pose proof (js_sort_perm (fun a b => compare_units a.1 b.1) o) as Hperm.
  rewrite assign_fields_perm; cbn; [done|by rewrite Hperm|by rewrite Hperm].
Qed.

Lemma assign_fields_ordered l acc :
  ordered acc -> ordered (foldl (fun sorted kv => assign_field sorted kv.1 kv.2) acc l).
Proof.
  revert acc. induction l as [|[k v] l IH]; intros acc Hacc; cbn; [done|]. apply IH. unfold assign_field.
  case_decide; auto with json.
Qed.

Lemma sort_fields_ordered o : ordered (sort_fields o).
Proof. apply assign_fields_ordered. auto with json. Qed.

Lemma assign_fields_Forall (P : jsstring * JSONValue -> Prop) l acc :
  Forall P acc -> Forall P l -> Forall P (foldl (fun sorted kv => assign_field sorted kv.1 kv.2) acc l).
Proof.
  revert acc. induction l as [|[k v] l IH]; intros acc Hacc Hl; cbn; [done|].
  inversion_clear Hl as [|? ? Hkv Hl']. apply IH; [|done]. unfold assign_field. case_decide; [done|]. cbn in *.
  unfold define_field. destruct (alist_get k acc); [|destruct (key_index k)].
  - clear IH. induction Hacc as [|[k' v'] acc Hx Hacc IH]; cbn; [by repeat constructor|]. by case_decide; constructor.
  - rewrite insert_index_perm. by constructor.
  - apply Forall_app. by repeat constructor.
Qed.

Lemma sort_fields_Forall (P : jsstring * JSONValue -> Prop) o : Forall P o -> Forall P (sort_fields o).
Proof. intros H. apply assign_fields_Forall; [done|]. by rewrite js_sort_perm. Qed.

Lemma canonicalize_wf v : wf_json v -> wf_json (canonicalize v).
Proof.
  induction v as [|b|d|s|l IH|o IH] using JSONValue_rect'; cbn [canonicalize]; try done.
  - rewrite !wf_array, Forall_map. intros H. rewrite Forall_forall in *. auto.
  - rewrite !wf_object. intros [_ H]. split; [apply sort_fields_ordered|]. apply sort_fields_Forall.
    rewrite Forall_map, Forall_forall in *. intros kv Hin. cbn. specialize (H kv Hin). naive_solver.
Qed.

Lemma canonicalJsonString_inj v w :
  wf_json v -> wf_json w ->
  canonicalJsonString v = canonicalJsonString w <-> plain (canonicalize v) = plain (canonicalize w).
Proof. intros Hv Hw. apply stringify_inj; by apply canonicalize_wf. Qed.

(** Changing the values of an object commutes with sorting it. *)
Lemma js_sort_map_snd f (c : jsstring -> jsstring -> Z) o :
  js_sort (fun a b => c a.1 b.1) (map_snd f o) = map_snd f (js_sort (fun a b => c a.1 b.1) o).
Proof.
  induction o as [|[k v] o IH]; [done|]. unfold js_sort in *. cbn [map_snd map foldr fst snd].
  unfold map_snd in IH. rewrite IH.
  generalize (foldr (sort_insert (fun a b : jsstring * JSONValue => c a.1 b.1)) [] o). intros l.
  induction l as [|[k' v'] l IHl]; cbn; [done|]. destruct (0 <? c k k'); cbn; [by rewrite IHl|done].
Qed.

Lemma define_field_map f k v o : define_field k (f v) (map_snd f o) = map_snd f (define_field k v o).
Proof.
  unfold define_field.
  assert (alist_get k (map_snd f o) = f <$> alist_get k o) as ->.
  { induction o as [|[k' v'] o IH]; cbn; [done|]. by case_decide. }
  destruct (alist_get k o); cbn.
  - induction o as [|[k' v'] o IH]; cbn; [done|]. case_decide; cbn; [done|]. f_equal. apply IH.
  - destruct (key_index k) as [n|]; [|by unfold map_snd; rewrite map_app].
    induction o as [|[k' v'] o IH]; cbn; [done|]. destruct (key_index k') as [n'|]; [|done].
    destruct (n' <? n); cbn; [f_equal; apply IH|done].
Qed.

Lemma sort_fields_map f o : sort_fields (map_snd f o) = map_snd f (sort_fields o).
Proof.
  unfold sort_fields. rewrite js_sort_map_snd. generalize (js_sort (fun a b => compare_units a.1 b.1) o) as l.
  intros l. change (@nil (jsstring * JSONValue)) with (map_snd f []) at 1. generalize (@nil (jsstring * JSONValue)).
  induction l as [|[k v] l IH]; intros acc; cbn [map_snd map foldl fst snd]; [done|].
  unfold assign_field at 2 4. cbn [fst snd]. case_decide; [apply IH|].
  change (map (fun kv => (kv.1, f kv.2)) acc) with (map_snd f acc). rewrite define_field_map. apply IH.
Qed.


#[global] Instance compare_units_laws {V} :
  CmpLaws (fun a b : jsstring * V => sgn (compare_units a.1 b.1)).
Proof.
  split; intros *; rewrite !compare_units_sgn.
  - apply (cmp_opp (lex Z.compare)).
  - apply (cmp_trans (lex Z.compare)).
  - apply (cmp_eq_l (lex Z.compare)).
Qed.

Lemma NoDup_keys_inj (o : fields) x y : NoDup o.*1 -> x ∈ o -> y ∈ o -> x.1 = y.1 -> x = y.
Proof.
  intros Hnd Hx Hy E. destruct x as [k v], y as [k' w]. cbn in E. subst k'.
  apply (alist_get_elem k v o Hnd) in Hx. apply (alist_get_elem k w o Hnd) in Hy. congruence.
Qed.

(** Two objects sort into the same one exactly when they have the same
    members. *)
Lemma sort_fields_eq o o' :
  NoDup o.*1 -> NoDup o'.*1 -> js "__proto__" ∉ o.*1 -> js "__proto__" ∉ o'.*1 ->
  sort_fields o = sort_fields o' <-> o ≡ₚ o'.
Proof.
  intros Hn Hn' Hp Hp'. split; intros H.
  - etrans; [symmetry; by apply sort_fields_perm|]. rewrite H. by apply sort_fields_perm.
  - unfold sort_fields. f_equal.
    apply (js_sort_perm_eq (fun a b : jsstring * JSONValue => compare_units a.1 b.1) o o'); [|exact H]. intros x y Hx Hy E.
    apply (NoDup_keys_inj o); [done..|]. rewrite compare_units_sgn in E. by apply (cmp_eq (lex Z.compare)) in E.
Qed.

(** ** The units of a JSON text *)

Lemma numchars_wf s : Forall numchar s -> wf_string s.
Proof. intros H. eapply Forall_impl; [exact H|]. intros c Hc%numchar_bound. cbn. lia. Qed.

Lemma number_to_string_wf d : wf_double d -> is_finite d = true -> wf_string (number_to_string d).
Proof.
  intros Hwf Hf. destruct (decide (d = NEG_ZERO)) as [->|Hz]; [by repeat constructor|].
  destruct (number_text_scan d Hwf Hz) as [_ [H|[H|H]]].
  - unfold is_nan; unfold is_finite in Hf; by repeat case_match.
  - by apply numchars_wf.
  - rewrite H. by repeat constructor.
  - rewrite H. by repeat constructor.
Qed.

Lemma unicode_escape_wf u : 0 <= u < 0x10000 -> wf_string (unicode_escape u).
Proof.
  intros Hu. assert (forall d, 0 <= d < 16 -> 0 <= hex_digit d < 0x10000) as Hh.
  { intros d Hd. unfold hex_digit. case_match; lia. }
  pose proof (Z.mod_pos_bound u 16). pose proof (Z.mod_pos_bound (u / 16) 16). pose proof (Z.mod_pos_bound (u / 256) 16).
  assert (0 <= u / 4096 < 16) by (split; [apply Z.div_pos|apply Z.div_lt_upper_bound]; lia).
  unfold unicode_escape, wf_string. repeat constructor; try done; apply Hh; lia.
Qed.

Lemma escape_unit_wf u : 0 <= u < 0x10000 -> wf_string (escape_unit u).
Proof.
  intros Hu. unfold escape_unit. repeat case_match; try (by repeat constructor); [by apply unicode_escape_wf|].
  by constructor.
Qed.

Lemma quote_units_wf s : wf_string s -> wf_string (quote_units s).
Proof.
  remember (length s) as n eqn:Hn. assert (length s <= n)%nat as Hl by lia. clear Hn.
  revert s Hl. induction n as [|n IH]; intros [|u s] Hl Hs; cbn [length] in Hl; try lia; try done.
  unfold wf_string in *. apply Forall_cons in Hs as [Hu Hs]. assert (Forall (fun u => 0 <= u < 0x10000) (quote_units s)) by (apply IH; [lia|done]).
  cbn [quote_units]. destruct (is_high u).
  - destruct s as [|w s]; [by apply unicode_escape_wf|]. destruct (is_low w).
    + cbn [length] in Hl. apply Forall_cons in Hs as [Hw Hs]. constructor; [done|]. constructor; [done|]. apply IH; [lia|done].
    + apply Forall_app; split; [by apply unicode_escape_wf|done].
  - destruct (is_low u); apply Forall_app; (split; [|done]); [by apply unicode_escape_wf|by apply escape_unit_wf].
Qed.

Lemma quote_wf s : wf_string s -> wf_string (quote s).
Proof.
  intros H. unfold quote. constructor; [done|]. apply Forall_app. split; [by apply quote_units_wf|by repeat constructor].
Qed.

Lemma join_wf sep l : 0 <= sep < 0x10000 -> Forall wf_string l -> wf_string (join sep l).
Proof.
  intros Hs. induction l as [|x l IH]; intros H; [constructor|]. inversion_clear H as [|? ? Hx Hl].
  destruct l as [|y l]; [done|]. rewrite join_cons. apply Forall_app. split; [done|]. constructor; [done|by apply IH].
Qed.

Lemma stringify_wf v : wf_json v -> wf_string (stringify v).
Proof.
  induction v as [|b|d|s|l IH|o IH] using JSONValue_rect'; cbn [stringify]; intros Hwf.
  - by repeat constructor.
  - destruct b; by repeat constructor.
  - destruct (is_finite d) eqn:E; [by apply number_to_string_wf|by repeat constructor].
  - by apply quote_wf.
  - apply wf_array in Hwf. constructor; [done|]. apply Forall_app. split; [|by repeat constructor].
    apply join_wf; [done|]. rewrite Forall_map, Forall_forall in *. auto.
  - apply wf_object in Hwf as [_ Hwf]. constructor; [done|]. apply Forall_app. split; [|by repeat constructor].
    apply join_wf; [done|]. rewrite Forall_map, Forall_forall in *. intros kv Hin. destruct (Hwf kv Hin).
    apply Forall_app. split; [by apply quote_wf|]. constructor; [done|]. by apply IH.
Qed.

Lemma canonicalJsonString_wf v : wf_json v -> wf_string (canonicalJsonString v).
Proof. intros H. by apply stringify_wf, canonicalize_wf. Qed.


(** A JSON text has no control units and no unpaired surrogates. *)
Definition json_text (s : jsstring) : Prop := Forall (fun u => 32 <= u) s /\ well_formed s = true.

Lemma json_text_app a b : json_text a -> json_text b -> json_text (a ++ b).
Proof. intros [Ha Ha'] [Hb Hb']. split; [by apply Forall_app|by rewrite well_formed_app]. Qed.

Lemma json_text_ascii s : Forall (fun u => 32 <= u < 0xD800) s -> json_text s.
Proof.
  intros H. split; [eapply Forall_impl; [exact H|]; cbn; lia|].
  induction H as [|u s Hu H IH]; [done|]. cbn [well_formed]. unfold is_high, is_low.
  rewrite !(proj2 (within_false _ _ u)) by lia. done.
Qed.

Lemma json_text_cons u s : 32 <= u < 0xD800 -> json_text s -> json_text (u :: s).
Proof. intros Hu. apply (json_text_app [u]), json_text_ascii. constructor; [done|constructor]. Qed.

Lemma unicode_escape_text u : 0 <= u < 0x10000 -> json_text (unicode_escape u).
Proof.
  intros Hu. assert (forall d, 0 <= d < 16 -> 32 <= hex_digit d < 0xD800) as Hh.
  { intros d Hd. unfold hex_digit. case_match; lia. }
  pose proof (Z.mod_pos_bound u 16). pose proof (Z.mod_pos_bound (u / 16) 16). pose proof (Z.mod_pos_bound (u / 256) 16).
  assert (0 <= u / 4096 < 16) by (split; [apply Z.div_pos|apply Z.div_lt_upper_bound]; lia).
  apply json_text_ascii. unfold unicode_escape. repeat constructor; try done; apply Hh; lia.
Qed.

Lemma quote_units_text s : wf_string s -> json_text (quote_units s).
Proof.
  remember (length s) as n eqn:Hn. assert (length s <= n)%nat as Hl by lia. clear Hn.
  revert s Hl. induction n as [|n IH]; intros [|u s] Hl Hs; cbn [length] in Hl; try lia; try done.
  unfold wf_string in *. apply Forall_cons in Hs as [Hu Hs].
  assert (json_text (quote_units s)) as IHs by (apply IH; [lia|done]).
  cbn [quote_units]. destruct (is_high u) eqn:Eh.
  - destruct s as [|w s]; [by apply unicode_escape_text|]. destruct (is_low w) eqn:Ew.
    + cbn [length] in Hl. apply Forall_cons in Hs as [Hw Hs]. destruct (IH s) as [H1 H2]; [lia|done|].
      split; [|cbn [well_formed]; by rewrite Eh, Ew].
      unfold is_high in Eh. unfold is_low in Ew. apply within_spec in Eh, Ew. constructor; [lia|]. by constructor; [lia|].
    + by apply json_text_app; [apply unicode_escape_text|].
  - destruct (is_low u) eqn:El; (apply json_text_app; [|done]); [by apply unicode_escape_text|].
    unfold escape_unit. repeat case_match; try (apply json_text_ascii; by repeat constructor); [by apply unicode_escape_text|].
    split; [constructor; [lia|done]|]. cbn. by rewrite Eh, El.
Qed.

Lemma quote_text s : wf_string s -> json_text (quote s).
Proof.
  intros H. unfold quote. apply json_text_cons; [lia|]. apply json_text_app; [by apply quote_units_text|].
  apply json_text_ascii. by repeat constructor.
Qed.

Lemma join_text sep l : 32 <= sep < 0xD800 -> Forall json_text l -> json_text (join sep l).
Proof.
  intros Hs. induction l as [|x l IH]; intros H; [by split|]. inversion_clear H as [|? ? Hx Hl].
  destruct l as [|y l]; [done|]. rewrite join_cons. apply json_text_app; [done|].
  apply json_text_cons; [lia|by apply IH].
Qed.

Lemma stringify_text v : wf_json v -> json_text (stringify v).
Proof.
  assert (forall s, Forall (fun u => 32 <= u < 0xD800) s -> forall t, json_text t -> json_text (t ++ s)) as Hend.
  { intros s Hs t Ht. apply json_text_app; [done|]. by apply json_text_ascii. }
  induction v as [|b|d|s|l IH|o IH] using JSONValue_rect'; cbn [stringify]; intros Hwf.
  - apply json_text_ascii. by repeat constructor.
  - apply json_text_ascii. destruct b; by repeat constructor.
  - destruct (is_finite d) eqn:E; apply json_text_ascii; [|by repeat constructor].
    apply Forall_forall. intros u Hu. pose proof (number_to_string_printable d u Hwf Hu). lia.
  - by apply quote_text.
  - apply wf_array in Hwf. apply json_text_cons; [lia|]. apply Hend; [by repeat constructor|].
    apply join_text; [lia|]. rewrite Forall_map, Forall_forall in *. auto.
  - apply wf_object in Hwf as [_ Hwf]. apply json_text_cons; [lia|]. apply Hend; [by repeat constructor|].
    apply join_text; [lia|]. rewrite Forall_map, Forall_forall in *. intros kv Hin. destruct (Hwf kv Hin).
    apply json_text_app; [by apply quote_text|]. apply json_text_cons; [lia|]. by apply IH.
Qed.

Lemma canonicalJsonString_text v : wf_json v -> json_text (canonicalJsonString v).
Proof. intros H. by apply stringify_text, canonicalize_wf. Qed.

#[export] Hint Resolve canonicalJsonString_wf canonicalJsonString_text canonicalize_wf : json.

End Json.
