(* ===== verification/Comparison.v ===== *)
(** * SQL value comparison

    Models [packages/quereus/src/util/comparison.ts]: the storage-class order
    of SQL values, the built-in collations, and the ORDER BY and row
    comparators built from them.

    A JSON object or array is a [JSONValue] of [Json];
    [String.prototype.toLowerCase] (Unicode tables) is an argument of the one
    collation that uses it. *)

From S2P Require Import Prelude Bytes Double Utf8 Json.
From Stdlib Require Import ZArith Lia.
From stdpp Require Import sorting.
From stdpp Require Import base tactics numbers sets gmap list.
#[local] Open Scope Z_scope.

Import Utf8 Json.

Module Comparison.

Definition CollationFunction : Type := jsstring -> jsstring -> Z.

(** ** Text *)

(** [/[\uD800-\uDBFF]/.test(s)]. *)
Definition HAS_HIGH_SURROGATE (s : jsstring) : bool := existsb is_high s.

Definition rank (unit : Z) : Z := if is_high unit then unit + 0x2800 else unit.

(** The loop of [compareCodePointsBounded] over two prefixes, then their
    lengths. *)
Fixpoint compareCodePoints_loop (a b : jsstring) : Z :=
  match a, b with
  | [], [] => 0
  | [], _ :: _ => -1
  | _ :: _, [] => 1
  | unitA :: a', unitB :: b' =>
    if negb (unitA =? unitB) then (if rank unitA <? rank unitB then -1 else 1)
    else compareCodePoints_loop a' b'
  end.

Definition compareCodePointsBounded (a : jsstring) (lenA : nat) (b : jsstring) (lenB : nat) : Z :=
  compareCodePoints_loop (take lenA a) (take lenB b).

(** JS [a < b] on strings: code-unit order. *)
Definition str_ltb (a b : jsstring) : bool := match lex Z.compare a b with Lt => true | _ => false end.

Definition compareCodePoints (a b : jsstring) : Z :=
  if decide (a = b) then 0
  else if negb (HAS_HIGH_SURROGATE a) && negb (HAS_HIGH_SURROGATE b) then
    (if str_ltb a b then -1 else 1)
  else compareCodePointsBounded a (length a) b (length b).

Definition BINARY_COLLATION : CollationFunction := fun a b => compareCodePoints a b.

Definition NOCASE_COLLATION (toLowerCase : jsstring -> jsstring) : CollationFunction :=
  fun a b => compareCodePoints (toLowerCase a) (toLowerCase b).

(** [while (len > 0 && s.charCodeAt(len - 1) === 0x20) len--]. *)
Fixpoint rtrim_len (s : jsstring) (len : nat) : nat :=
  match len with
  | O => O
  | S len' => match s !! len' with
              | Some 0x20 => rtrim_len s len'
              | _ => len
              end
  end.

Definition RTRIM_COLLATION : CollationFunction := fun a b =>
  compareCodePointsBounded a (rtrim_len a (length a)) b (rtrim_len b (length b)).

(** ** Values *)

Section Values.

Inductive SqlValue : Type :=
| VNull
| VNumber (d : double)
| VBigint (n : Z)
| VBool (b : bool)
| VText (s : jsstring)
| VBlob (b : bytes)
| VObject (o : JSONValue).

Abbreviation Row := (list SqlValue).

Inductive StorageClass : Type := NULL | NUMERIC | TEXT | BLOB | OBJECT.

(** A JSON value as JS holds it in a cell: its scalars are plain values. *)
Definition sql_of_json (v : JSONValue) : SqlValue :=
  match v with
  | JNull => VNull
  | JBool b => VBool b
  | JNumber d => VNumber d
  | JString s => VText s
  | JArray _ | JObject _ => VObject v
  end.

Definition class_num (c : StorageClass) : Z :=
  match c with
  | NULL => 0
  | NUMERIC => 1
  | TEXT => 2
  | BLOB => 3
  | OBJECT => 4
  end.

Definition getStorageClass (v : SqlValue) : StorageClass :=
  match v with
  | VNull => NULL
  | VNumber _ | VBigint _ | VBool _ => NUMERIC
  | VText _ => TEXT
  | VBlob _ => BLOB
  | VObject _ => OBJECT
  end.

(** The exact value of a numeric-class value, booleans as 0 and 1. *)
Definition numeric_of (v : SqlValue) : num :=
  match v with
  | VNumber d => num_of_double d
  | VBigint n => num_of_bigint n
  | VBool b => num_of_bigint (if b then 1 else 0)
  | _ => NNan
  end.

Definition compareNumbers (a b : num) : Z := if num_ltb a b then -1 else if num_ltb b a then 1 else 0.

(** The BLOB branch of [compareSameType]. *)
Fixpoint compareBlobs (a b : bytes) : Z :=
  match a, b with
  | [], [] => 0
  | [], _ :: _ => -1
  | _ :: _, [] => 1
  | x :: a', y :: b' => if negb (x =? y) then (if x <? y then -1 else 1) else compareBlobs a' b'
  end.

Definition compareSameType (a b : SqlValue) (collationFunc : CollationFunction) : Z :=
  match a, b with
  | VText s, VText t => collationFunc s t
  | VBlob x, VBlob y => compareBlobs x y
  | VObject x, VObject y => compareCodePoints (canonicalJsonString x) (canonicalJsonString y)
  | VNull, VNull => 0
  | _, _ => compareNumbers (numeric_of a) (numeric_of b)
  end.

Definition class_eqb (a b : StorageClass) : bool := class_num a =? class_num b.

Definition compareSqlValuesFast (a b : SqlValue) (collationFunc : CollationFunction) : Z :=
  let classA := getStorageClass a in
  let classB := getStorageClass b in
  if class_eqb classA NULL then (if class_eqb classB NULL then 0 else -1)
  else if class_eqb classB NULL then 1
  else if class_eqb classA classB then compareSameType a b collationFunc
  else class_num classA - class_num classB.

Definition compareSqlValues (a b : SqlValue) : Z := compareSqlValuesFast a b BINARY_COLLATION.

Definition sqlValueIdentical (a b : SqlValue) : bool := compareSqlValuesFast a b BINARY_COLLATION =? 0.

Fixpoint identical_loop (a b : Row) : bool :=
  match a, b with
  | x :: a', y :: b' => if negb (sqlValueIdentical x y) then false else identical_loop a' b'
  | _, _ => true
  end.

Definition rowsValueIdentical (a b : Row) : bool :=
  if negb (length a =? length b)%nat then false else identical_loop a b.

Definition isObjectClassValue (v : SqlValue) : bool :=
  match v with
  | VObject _ => true
  | _ => false
  end.

(** ** ORDER BY *)

Inductive SortDirection : Type := ASC | DESC.
Inductive NullsOrdering : Type := DEFAULT | FIRST | LAST.

Definition is_null (v : SqlValue) : bool := match v with VNull => true | _ => false end.

Definition is_last (n : NullsOrdering) : bool := match n with LAST => true | _ => false end.

Definition orderByNullResult (a b : SqlValue) (nullsOrdering : NullsOrdering) : Z :=
  if is_null a && is_null b then 0
  else if is_null a then (if is_last nullsOrdering then 1 else -1)
  else if is_last nullsOrdering then -1 else 1.

Definition compareWithOrderByFast (a b : SqlValue) (direction : SortDirection)
    (nullsOrdering : NullsOrdering) (collationFunc : CollationFunction) : Z :=
  if negb (is_null a) && negb (is_null b) then
    let comparison := compareSqlValuesFast a b collationFunc in
    match direction with
    | DESC => - comparison
    | ASC => comparison
    end
  else orderByNullResult a b nullsOrdering.

(** The string arguments, as written in an ORDER BY clause. *)
Definition direction_flag (desc : bool) : SortDirection := if desc then DESC else ASC.

Definition nulls_flag (nulls : option bool) : NullsOrdering :=
  match nulls with
  | Some true => FIRST
  | Some false => LAST
  | None => DEFAULT
  end.

(** [desc]: direction ['desc']; [nulls]: [Some true] for NULLS FIRST, [Some
    false] for NULLS LAST. *)
Definition createOrderByComparatorFast (desc : bool) (nulls : option bool)
    (collationFunc : CollationFunction) (a b : SqlValue) : Z :=
  compareWithOrderByFast a b (direction_flag desc) (nulls_flag nulls) collationFunc.

(** ** Logical types *)

Inductive PhysicalType : Type := PNull | PInteger | PReal | PText | PBlob | PBoolean | PObject.

(** [t_id] stands for the identity of the type object. *)
Record LogicalType := mkType {
  t_id : nat;
  t_typeName : jsstring;
  t_physicalType : PhysicalType;
  t_validate : option (SqlValue -> bool);
  t_parse : option (SqlValue -> res SqlValue);
  t_normalizeComparand : option (SqlValue -> SqlValue);
  t_compare : option (SqlValue -> SqlValue -> option CollationFunction -> Z);
  t_collationAware : bool;
  t_semanticOrdering : bool;
  t_groupKey : option (SqlValue -> SqlValue);
  t_isNumeric : bool;
  t_isTextual : bool;
  t_isTemporal : bool
}.

(** A type with nothing but its name. *)
Definition untyped : LogicalType :=
  mkType 100 (js "UNTYPED") PNull None None None None false false None false false false.

Definition createTypedComparator (type : LogicalType) (collation : option CollationFunction)
    (a b : SqlValue) : Z :=
  match t_compare type with
  | Some compareFunc =>
    if is_null a && is_null b then 0
    else if is_null a then -1
    else if is_null b then 1
    else
      let classA := getStorageClass a in
      let classB := getStorageClass b in
      if negb (class_eqb classA classB) then class_num classA - class_num classB
      else compareFunc a b collation
  | None => compareSqlValuesFast a b (default BINARY_COLLATION collation)
  end.

Definition hasSemanticOrdering (type : option LogicalType) : option LogicalType :=
  match type with
  | Some t => if t_semanticOrdering t && bool_decide (is_Some (t_compare t)) then Some t else None
  | None => None
  end.

Definition semanticKeyTransform (type : option LogicalType) : option (SqlValue -> SqlValue) :=
  match hasSemanticOrdering type with
  | Some t => t_groupKey t
  | None => None
  end.

Definition createTypedOrderByComparator (type : option LogicalType) (desc : bool) (nulls : option bool)
    (collationFunc : CollationFunction) (a b : SqlValue) : Z :=
  match hasSemanticOrdering type with
  | None => createOrderByComparatorFast desc nulls collationFunc a b
  | Some t =>
    if negb (is_null a) && negb (is_null b) then
      let comparison := createTypedComparator t (Some collationFunc) a b in
      if desc then - comparison else comparison
    else orderByNullResult a b (nulls_flag nulls)
  end.

Definition createSemanticValueComparator (type : option LogicalType) (collation : CollationFunction)
    (a b : SqlValue) : Z :=
  match hasSemanticOrdering type with
  | Some t => createTypedComparator t (Some collation) a b
  | None => compareSqlValuesFast a b collation
  end.

(** ** Rows *)

(** The loop shared by the row comparators: the first column that differs. *)
Fixpoint row_loop (comparators : list (SqlValue -> SqlValue -> Z)) (a b : Row) : Z :=
  match comparators, a, b with
  | c :: cs, x :: a', y :: b' => let cmp := c x y in if negb (cmp =? 0) then cmp else row_loop cs a' b'
  | _, _, _ => 0
  end.

Definition createSemanticRowComparator (types : list (option LogicalType)) (collations : list CollationFunction)
    (a b : Row) : Z :=
  row_loop (imap (fun i type => createSemanticValueComparator type
                                  (default BINARY_COLLATION (collations !! i))) types) a b.

Definition createTypedRowComparator (types : list LogicalType) (collations : list (option CollationFunction))
    (a b : Row) : Z :=
  row_loop (imap (fun i type => createTypedComparator type (mjoin (collations !! i))) types) a b.

Definition createCollationRowComparator (collations : list CollationFunction) (a b : Row) : Z :=
  row_loop (map (fun c x y => compareSqlValuesFast x y c) collations) a b.

Definition compareRows (a b : Row) : Z := row_loop (map (fun _ => compareSqlValues) a) a b.

End Values.

#[global] Instance StorageClass_eq_dec : EqDecision StorageClass.
Proof. solve_decision. Defined.

(** ** Code point order *)

Definition rank_cmp (u v : Z) : comparison := rank u ?= rank v.

#[global] Instance rank_cmp_laws : CmpLaws rank_cmp.
Proof. unfold rank_cmp. apply (cmp_on_laws Z.compare rank). Qed.

Lemma rank_inj u v : 0 <= u < 0x10000 -> 0 <= v < 0x10000 -> rank u = rank v -> u = v.
Proof.
  unfold rank, is_high. intros Hu Hv.
  destruct (within 0xD800 0xDBFF u) eqn:Eu, (within 0xD800 0xDBFF v) eqn:Ev;
    rewrite ?within_spec in *; lia.
Qed.

Lemma compareCodePoints_loop_lex a b :
  wf_string a -> wf_string b -> sgn (compareCodePoints_loop a b) = lex rank_cmp a b.
Proof.
  revert b. induction a as [|u a IH]; intros [|v b] Ha Hb; try done. cbn.
  unfold wf_string in *. apply Forall_cons in Ha as [Hu Ha]. apply Forall_cons in Hb as [Hv Hb].
  unfold rank_cmp at 1. destruct (Z.eqb_spec u v) as [->|Hne]; cbn.
  - rewrite Z.compare_refl. by apply IH.
  - destruct (Z.compare_spec (rank u) (rank v)) as [E|E|E].
    + by apply rank_inj in E.
    + by rewrite (proj2 (Z.ltb_lt _ _) E).
    + by rewrite (proj2 (Z.ltb_ge _ _)) by lia.
Qed.

Lemma lex_rank_low a b :
  HAS_HIGH_SURROGATE a = false -> HAS_HIGH_SURROGATE b = false -> lex rank_cmp a b = lex Z.compare a b.
Proof.
  revert b. induction a as [|u a IH]; intros [|v b]; try done. cbn.
  intros [Hu Ha]%orb_false_iff [Hv Hb]%orb_false_iff. unfold rank_cmp at 1, rank. rewrite Hu, Hv.
  by rewrite IH.
Qed.

Lemma lex_Z_eq a b : lex Z.compare a b = Eq <-> a = b.
Proof. apply (cmp_eq (lex Z.compare)). Qed.

Lemma compareCodePoints_lex a b :
  wf_string a -> wf_string b -> sgn (compareCodePoints a b) = lex rank_cmp a b.
Proof.
  intros Ha Hb. unfold compareCodePoints. destruct (decide (a = b)) as [->|Hne].
  { by rewrite (cmp_refl (lex rank_cmp)). }
  destruct (negb (HAS_HIGH_SURROGATE a) && negb (HAS_HIGH_SURROGATE b)) eqn:E.
  - apply andb_true_iff in E as [E1%negb_true_iff E2%negb_true_iff].
    rewrite lex_rank_low by done. unfold str_ltb. destruct (lex Z.compare a b) eqn:E3; try done.
    by apply lex_Z_eq in E3.
  - unfold compareCodePointsBounded. rewrite !firstn_all. by apply compareCodePoints_loop_lex.
Qed.

(** On strings without unpaired surrogates the ranks follow the code points. *)
Lemma lex_rank_code_points a b :
  wf_string a -> wf_string b -> well_formed a = true -> well_formed b = true ->
  lex rank_cmp a b = lex Z.compare (code_points a) (code_points b).
Proof.
  intros Ha Hb Hwa. revert Ha b Hb. pattern a. revert a Hwa. apply well_formed_ind.
  - intros _ [|v b] _ Hwb; [done|].
    assert (exists c l, code_points (v :: b) = c :: l) as (c & l & ->) by (cbn; repeat case_match; eauto).
    done.
  - intros u a Hh Hl Hwa IH Ha b Hb Hwb. unfold wf_string in *. apply Forall_cons in Ha as [Hu Ha].
    cbn [code_points]. rewrite Hh, Hl. assert (rank u = u) as Hru by (unfold rank; by rewrite Hh).
    unfold is_high, is_low in Hh, Hl. apply within_false in Hh, Hl.
    revert Hb. pattern b. revert b Hwb. apply well_formed_ind.
    + done.
    + intros v b Hh' Hl' Hwb _ Hb. apply Forall_cons in Hb as [Hv Hb]. cbn. rewrite Hh', Hl'. cbn.
      unfold rank_cmp at 1. rewrite Hru. unfold rank. rewrite Hh'. by rewrite IH.
    + intros v w b Hh' Hl' Hwb _ Hb. cbn. rewrite Hh', Hl'. cbn.
      pose proof (pair_cp_range v w Hh' Hl'). unfold rank_cmp at 1. rewrite Hru. unfold rank. rewrite Hh'.
      unfold is_high in Hh'. apply within_spec in Hh'.
      rewrite !(proj2 (Z.compare_lt_iff _ _)) by lia. done.
  - intros u u2 a Hh Hl Hwa IH Ha b Hb Hwb. unfold wf_string in *. rewrite !Forall_cons in Ha.
    destruct Ha as (_ & _ & Ha). cbn [code_points]. rewrite Hh, Hl.
    assert (rank u = u + 0x2800) as Hru by (unfold rank; by rewrite Hh).
    assert (rank u2 = u2) as Hru2.
    { unfold rank. unfold is_low in Hl. apply within_spec in Hl. unfold is_high.
      by rewrite (proj2 (within_false _ _ _)) by lia. }
    pose proof (pair_cp_range u u2 Hh Hl) as Hp. unfold is_high, is_low in Hh, Hl. apply within_spec in Hh, Hl.
    revert Hb. pattern b. revert b Hwb. apply well_formed_ind.
    + done.
    + intros v b Hh' Hl' Hwb _ Hb. apply Forall_cons in Hb as [Hv Hb]. cbn. rewrite Hh', Hl'. cbn.
      unfold rank_cmp at 1. rewrite Hru. unfold rank. rewrite Hh'.
      rewrite !(proj2 (Z.compare_gt_iff _ _)) by lia. done.
    + intros v w b Hh' Hl' Hwb _ Hb. rewrite !Forall_cons in Hb. destruct Hb as (_ & _ & Hb).
      cbn. rewrite Hh', Hl'. cbn.
      unfold rank_cmp at 1 2. rewrite Hru, Hru2. unfold rank. rewrite Hh'.
      unfold is_high, is_low in Hh', Hl'. apply within_spec in Hh', Hl'.
      rewrite (proj2 (within_false 0xD800 0xDBFF w) ltac:(lia) : is_high w = false).
      rewrite IH by done. rewrite <- cmp_then_assoc. f_equal. unfold pair_cp.
      destruct (Z.compare_spec (u + 0x2800) (v + 0x2800)); cbn;
        [destruct (Z.compare_spec u2 w)|..]; symmetry;
        first [apply Z.compare_eq_iff; lia|apply Z.compare_lt_iff; lia|apply Z.compare_gt_iff; lia].
Qed.

(** ** The order of values *)

#[global] Instance cmp_flip_laws {A} (c : A -> A -> comparison) :
  CmpLaws c -> CmpLaws (fun x y => CompOpp (c x y)).
Proof.
  intros Hc. split.
  - intros x y. by rewrite (cmp_opp c x y).
  - intros o x y z H1 H2. rewrite (cmp_trans c (CompOpp o) x y z); [by destruct o|..];
      [rewrite <- H1|rewrite <- H2]; by rewrite CompOpp_involutive.
  - intros x y z H. f_equal. apply (cmp_eq_l c). by destruct (c x y).
Qed.

(** What the comparator contract asks of a collation: on JS strings it is the
    three-way test of a total preorder [c]. *)
Definition collates (coll : CollationFunction) (c : jsstring -> jsstring -> comparison) : Prop :=
  CmpLaws c /\ forall s t, wf_string s -> wf_string t -> sgn (coll s t) = c s t.

Lemma BINARY_collates : collates BINARY_COLLATION (lex rank_cmp).
Proof. split; [apply _|]. intros. by apply compareCodePoints_lex. Qed.

Lemma NOCASE_collates (toLowerCase : jsstring -> jsstring) :
  (forall s, wf_string s -> wf_string (toLowerCase s)) ->
  collates (NOCASE_COLLATION toLowerCase) (fun s t => lex rank_cmp (toLowerCase s) (toLowerCase t)).
Proof.
  intros Hl. split; [exact (cmp_on_laws (lex rank_cmp) toLowerCase)|].
  intros. apply compareCodePoints_lex; auto.
Qed.

Definition rtrim (s : jsstring) : jsstring := take (rtrim_len s (length s)) s.

Lemma RTRIM_collates : collates RTRIM_COLLATION (fun s t => lex rank_cmp (rtrim s) (rtrim t)).
Proof.
  split; [exact (cmp_on_laws (lex rank_cmp) rtrim)|].
  intros s t Hs Ht. apply compareCodePoints_loop_lex; by apply Forall_take.
Qed.

Section Order.

Abbreviation value := SqlValue.
Abbreviation compare_fast := compareSqlValuesFast.

Abbreviation text_order := (jsstring -> jsstring -> comparison).

(** Values the order is about: 16-bit code units, one bit pattern per number,
    and no NaN, which [compareNumbers] calls equal to every number. *)
Definition wf_value (v : value) : Prop :=
  match v with
  | VNumber d => wf_double d /\ not_nan (num_of_double d)
  | VText s => wf_string s
  | VBlob b => wf_bytes b
  | VObject o => wf_json o
  | _ => True
  end.

Definition num_part (v : value) : num :=
  match getStorageClass v with NUMERIC => numeric_of v | _ => NFin 0 end.
Definition text_part (v : value) : jsstring := match v with VText s => s | _ => [] end.
Definition blob_part (v : value) : bytes := match v with VBlob b => b | _ => [] end.
Definition obj_part (v : value) : jsstring := match v with VObject o => canonicalJsonString o | _ => [] end.

(** Storage class first, then the order of the class. *)
Definition value_compare (c : text_order) (a b : value) : comparison :=
  cmp_then (class_num (getStorageClass a) ?= class_num (getStorageClass b))
    (cmp_then (num_compare (num_part a) (num_part b))
       (cmp_then (c (text_part a) (text_part b))
          (cmp_then (blex (blob_part a) (blob_part b)) (lex rank_cmp (obj_part a) (obj_part b))))).

Lemma value_compare_laws c : CmpLaws c -> CmpLaws (value_compare c).
Proof.
  intros Hc. unfold value_compare. apply cmp_then_laws.
  { exact (cmp_on_laws Z.compare (fun v => class_num (getStorageClass v))). }
  apply cmp_then_laws; [exact (cmp_on_laws num_compare num_part)|].
  apply cmp_then_laws; [exact (cmp_on_laws c text_part)|].
  apply cmp_then_laws; [exact (cmp_on_laws blex blob_part)|].
  exact (cmp_on_laws (lex rank_cmp) obj_part).
Qed.

Lemma compareNumbers_sgn a b : not_nan a -> not_nan b -> sgn (compareNumbers a b) = num_compare a b.
Proof.
  intros Ha Hb. unfold compareNumbers. rewrite !num_ltb_compare by done.
  rewrite (cmp_opp num_compare a b). by destruct (num_compare a b).
Qed.

Lemma compareBlobs_sgn a b : sgn (compareBlobs a b) = blex a b.
Proof.
  revert b. induction a as [|x a IH]; intros [|y b]; try done. cbn.
  destruct (Z.eqb_spec x y) as [->|Hne]; cbn; [by rewrite Z.compare_refl, IH|].
  destruct (Z.compare_spec x y); [done|..].
  - by rewrite (proj2 (Z.ltb_lt x y)).
  - by rewrite (proj2 (Z.ltb_ge x y)) by lia.
Qed.

Lemma num_part_not_nan v : wf_value v -> not_nan (num_part v).
Proof. unfold not_nan. destruct v; cbn; try done. by intros [_ H]. Qed.

Lemma compare_fast_spec coll c a b :
  collates coll c -> wf_value a -> wf_value b -> sgn (compare_fast a b coll) = value_compare c a b.
Proof.
  intros [Hc Hcoll] Ha Hb. pose proof (num_part_not_nan a Ha) as Na. pose proof (num_part_not_nan b Hb) as Nb.
  assert (c [] [] = Eq) as Hnil by apply (cmp_refl c).
  unfold compareSqlValuesFast, value_compare, num_part, class_eqb in *.
  destruct a, b; cbn [getStorageClass class_num Z.eqb Pos.eqb compareSameType text_part blob_part obj_part] in *;
    cbn [Z.compare Pos.compare Pos.compare_cont cmp_then num_compare]; rewrite ?Hnil; cbn [cmp_then blex lex];
    try done.
  all: try (rewrite compareNumbers_sgn by done; by destruct (num_compare _ _)).
  - rewrite Hcoll by done. by destruct (c s s0).
  - rewrite compareBlobs_sgn. by destruct (blex _ _).
  - by rewrite compareCodePoints_lex by (by apply canonicalJsonString_wf).
Qed.

(** The ORDER BY order: NULLs at one end whatever the direction, then the
    values, reversed for DESC. *)
Definition null_rank (nulls : NullsOrdering) (v : value) : Z :=
  if is_null v then (if is_last nulls then 2 else 0) else 1.

Definition order_by_compare (desc : bool) (nulls : NullsOrdering) (c : text_order)
    (a b : value) : comparison :=
  cmp_then (null_rank nulls a ?= null_rank nulls b)
    (if desc then CompOpp (value_compare c a b) else value_compare c a b).

Lemma order_by_laws desc nulls c : CmpLaws c -> CmpLaws (order_by_compare desc nulls c).
Proof.
  intros Hc. unfold order_by_compare. apply cmp_then_laws; [exact (cmp_on_laws Z.compare (null_rank nulls))|].
  pose proof (value_compare_laws c Hc). destruct desc; [by apply cmp_flip_laws|done].
Qed.

Lemma order_by_spec desc nulls coll c a b :
  collates coll c -> wf_value a -> wf_value b ->
  sgn (createOrderByComparatorFast desc nulls coll a b)
  = order_by_compare desc (nulls_flag nulls) c a b.
Proof.
  intros Hc Ha Hb. unfold createOrderByComparatorFast, compareWithOrderByFast, order_by_compare.
  pose proof (value_compare_laws c (proj1 Hc)) as Hlaws.
  unfold null_rank. destruct (is_null a) eqn:Na, (is_null b) eqn:Nb; cbn [negb andb].
  - unfold orderByNullResult. rewrite Na, Nb. cbn [andb].
    assert (value_compare c a b = Eq) as E.
    { assert (a = b) as -> by by destruct a, b. apply (cmp_refl (value_compare c)). }
    rewrite Z.compare_refl, E. by destruct desc.
  - unfold orderByNullResult. rewrite Na, Nb. cbn. by destruct (is_last _).
  - unfold orderByNullResult. rewrite Na, Nb. cbn. by destruct (is_last _).
  - rewrite Z.compare_refl. cbn [cmp_then]. rewrite <- (compare_fast_spec coll) by done.
    destruct desc; cbn [direction_flag]; [|done].
    unfold sgn. rewrite <- Z.opp_0 at 1. rewrite Z.compare_opp. apply Z.compare_antisym.
Qed.

(** A three-way test that is a total preorder on the values [P] holds of. *)
Definition preorder_on {A} (P : A -> Prop) (cmp : A -> A -> Z) : Prop :=
  (forall x y, P x -> P y -> sgn (cmp y x) = CompOpp (sgn (cmp x y))) /\
  (forall o x y z, P x -> P y -> P z -> sgn (cmp x y) = o -> sgn (cmp y z) = o -> sgn (cmp x z) = o) /\
  (forall x y z, P x -> P y -> P z -> sgn (cmp x y) = Eq -> sgn (cmp x z) = sgn (cmp y z)).

Lemma preorder_from {A} (P : A -> Prop) (cmp : A -> A -> Z) (c : A -> A -> comparison) :
  CmpLaws c -> (forall x y, P x -> P y -> sgn (cmp x y) = c x y) -> preorder_on P cmp.
Proof.
  intros Hc H. split; [|split].
  - intros x y Hx Hy. rewrite !H by done. apply (cmp_opp c).
  - intros o x y z Hx Hy Hz. rewrite !H by done. apply (cmp_trans c).
  - intros x y z Hx Hy Hz. rewrite !H by done. apply (cmp_eq_l c).
Qed.

(** ** Rows *)

Definition wf_row (n : nat) (r : list value) : Prop := length r = n /\ Forall wf_value r.

Fixpoint row_compare (cs : list text_order) (a b : list value) : comparison :=
  match cs, a, b with
  | c :: cs', x :: a', y :: b' => cmp_then (value_compare c x y) (row_compare cs' a' b')
  | _, _, _ => Eq
  end.

Lemma sgn_then z c : (if negb (z =? 0) then z else c) = if decide (z = 0) then c else z.
Proof. destruct (Z.eqb_spec z 0), (decide (z = 0)); done. Qed.

Lemma row_loop_spec colls cs a b n :
  Forall2 collates colls cs -> wf_row n a -> wf_row n b ->
  sgn (row_loop (map (fun c x y => compare_fast x y c) colls) a b) = row_compare cs a b.
Proof.
  intros Hcs. revert n a b. induction Hcs as [|coll c colls cs Hc Hcs IH]; intros n a b [Ha Wa] [Hb Wb]; [done|].
  destruct Wa as [|x a Hx Wa], Wb as [|y b Hy Wb]; cbn in *; try done.
  rewrite sgn_then, <- (compare_fast_spec coll) by done. destruct (decide _) as [E|Hne].
  - rewrite E. cbn. apply (IH (length a)); split; congruence || done.
  - unfold cmp_then. destruct (sgn (compare_fast x y coll)) eqn:E; try done. by apply sgn_eq in E.
Qed.

Fixpoint pad_compare (cs : list text_order) (a b : list value) : comparison :=
  match cs with
  | [] => Eq
  | c :: cs' => cmp_then (value_compare c (default VNull (head a)) (default VNull (head b)))
                  (pad_compare cs' (tail a) (tail b))
  end.

Lemma pad_compare_laws cs : Forall CmpLaws cs -> CmpLaws (pad_compare cs).
Proof.
  induction 1 as [|c cs Hc Hcs IH]; cbn; [by split|].
  pose proof (value_compare_laws c Hc).
  apply cmp_then_laws; [exact (cmp_on_laws (value_compare c) (fun r => default VNull (head r)))|].
  exact (cmp_on_laws (pad_compare cs) tail).
Qed.

Lemma row_pad_compare cs a b :
  length a = length cs -> length b = length cs -> row_compare cs a b = pad_compare cs a b.
Proof.
  revert a b. induction cs as [|c cs IH]; intros [|x a] [|y b]; cbn; try done.
  intros [= Ha] [= Hb]. by rewrite IH.
Qed.

(** ** Properties *)

(** What two values of one storage class are compared by: numbers, bigints and
    booleans by exact value, texts by the collation, blobs byte by byte, objects
    by the code points of their canonical text. *)
Definition class_order (c : text_order) (a b : value) : comparison :=
  match a, b with
  | VText s, VText t => c s t
  | VBlob x, VBlob y => lex Z.compare x y
  | VObject x, VObject y => lex rank_cmp (canonicalJsonString x) (canonicalJsonString y)
  | VNull, VNull => Eq
  | _, _ => num_compare (numeric_of a) (numeric_of b)
  end.

Lemma value_compare_class c a b :
  CmpLaws c -> getStorageClass a = getStorageClass b -> value_compare c a b = class_order c a b.
Proof.
  intros Hc E. assert (c [] [] = Eq) as Hnil by apply (cmp_refl c).
  assert (forall o, cmp_then o Eq = o) as Hr by (by intros []). unfold value_compare, num_part.
  destruct a, b; try done; cbn [getStorageClass class_num text_part blob_part obj_part class_order];
    rewrite ?(cmp_refl Z.compare); cbn [cmp_then num_compare lex]; rewrite ?Hnil; cbn [cmp_then lex]; by rewrite ?Hr.
Qed.

(** C17: Under any lawful collation, [compareSqlValuesFast] is a total preorder
    on the values a column can hold.  Storage classes never mix: NULL, numeric,
    text, blob, object, in that order.  Within a class the order is exactly that
    of the class: exact numeric value (whatever the mix of doubles, bigints and
    booleans), the collation, the bytes, or the code points of the canonical
    JSON text. *)
Theorem sql_value_order (coll : CollationFunction) (c : text_order) :
  collates coll c ->
  preorder_on wf_value (fun a b => compare_fast a b coll) /\
  (forall a b, wf_value a -> wf_value b ->
    class_num (getStorageClass a) < class_num (getStorageClass b) -> compare_fast a b coll < 0) /\
  (forall a b, wf_value a -> wf_value b ->
    getStorageClass a = getStorageClass b -> sgn (compare_fast a b coll) = class_order c a b).
Proof.
  intros Hc. split_and!.
  - apply (preorder_from _ _ (value_compare c)); [by apply value_compare_laws, Hc|].
    intros. by apply compare_fast_spec.
  - intros a b Ha Hb Hlt. rewrite <- sgn_lt, (compare_fast_spec coll c) by done.
    unfold value_compare. by rewrite (proj2 (Z.compare_lt_iff _ _) Hlt).
  - intros a b Ha Hb E. rewrite (compare_fast_spec coll c) by done. apply value_compare_class; [apply Hc|done].
Qed.

(** An ORDER BY comparator is a total preorder for either direction and
    any NULL placement; DESC reverses the order of the non-NULL values only,
    and a NULL sorts before every value, or after it under NULLS LAST, in both
    directions. *)
Theorem order_by_order (coll : CollationFunction) (c : text_order) (desc : bool) (nulls : option bool) :
  collates coll c ->
  let cmp := createOrderByComparatorFast desc nulls coll in
  preorder_on wf_value cmp /\
  (forall v, is_null v = false -> cmp VNull v = if decide (nulls = Some false) then 1 else -1) /\
  (forall a b, wf_value a -> wf_value b -> is_null a = false -> is_null b = false ->
     sgn (cmp a b) = if desc then sgn (compare_fast b a coll) else sgn (compare_fast a b coll)).
Proof.
  intros Hc cmp. split; [|split].
  - apply (preorder_from _ _ (order_by_compare desc (nulls_flag nulls) c)); [by apply order_by_laws, Hc|].
    intros. by apply order_by_spec.
  - intros v Hv. unfold cmp, createOrderByComparatorFast, compareWithOrderByFast, orderByNullResult. cbn.
    rewrite Hv. by destruct nulls as [[]|].
  - intros a b Ha Hb Na Nb. unfold cmp. rewrite (order_by_spec desc nulls coll c) by done.
    unfold order_by_compare, null_rank. rewrite Na, Nb, Z.compare_refl. cbn [cmp_then].
    rewrite !(compare_fast_spec coll c) by done. pose proof (value_compare_laws c (proj1 Hc)).
    destruct desc; [|done]. symmetry. apply (cmp_opp (value_compare c)).
Qed.

(** The collation-aware row comparator is the lexicographic order of its
    columns, a total preorder on the rows of its width; it is 0 exactly when
    every column compares equal. *)
Theorem row_comparator_order (colls : list CollationFunction) (cs : list text_order) :
  Forall2 collates colls cs ->
  let cmp := createCollationRowComparator colls in
  preorder_on (wf_row (length colls)) cmp /\
  (forall a b, wf_row (length colls) a -> wf_row (length colls) b ->
     sgn (cmp a b) = Eq <-> forall i x y coll, a !! i = Some x -> b !! i = Some y -> colls !! i = Some coll ->
                         compare_fast x y coll = 0).
Proof.
  intros Hcs cmp.
  assert (forall a b, wf_row (length colls) a -> wf_row (length colls) b ->
    sgn (cmp a b) = row_compare cs a b) as Hspec by (intros; by eapply row_loop_spec).
  pose proof (Forall2_length _ _ _ Hcs) as Hlen. split.
  - apply (preorder_from _ _ (pad_compare cs)).
    + apply pad_compare_laws. apply Forall_forall. intros c [i Hi]%list_elem_of_lookup.
      destruct (Forall2_lookup_r _ _ _ _ _ Hcs Hi) as (coll & _ & [Hc _]). done.
    + intros a b Ha Hb. rewrite Hspec by done. apply row_pad_compare; [destruct Ha|destruct Hb]; congruence.
  - intros a b Ha Hb. rewrite Hspec by done. clear Hspec cmp. destruct Ha as [La Wa], Hb as [Lb Wb].
    revert a b La Lb Wa Wb. clear Hlen.
    induction Hcs as [|coll c colls cs Hc Hcs IH]; intros a b La Lb Wa Wb; [by split|].
    destruct Wa as [|x a Hx Wa], Wb as [|y b Hy Wb]; try done. cbn in La, Lb. injection La as La. injection Lb as Lb.
    cbn [row_compare]. rewrite <- (compare_fast_spec coll) by done. unfold cmp_then.
    destruct (sgn (compare_fast x y coll)) eqn:E.
    + rewrite IH by done. split.
      * intros H [|i] x' y' coll'; cbn; [intros; simplify_eq; by apply sgn_eq|by apply H].
      * intros H i. apply (H (S i)).
    + split; [done|]. intros H. specialize (H 0%nat x y coll eq_refl eq_refl eq_refl). by rewrite H in E.
    + split; [done|]. intros H. specialize (H 0%nat x y coll eq_refl eq_refl eq_refl). by rewrite H in E.
Qed.

End Order.

(** The BINARY collation orders JS strings exactly as a byte comparison of
    their UTF-8 encodings does (strings with an unpaired surrogate, which have
    no encoding, excepted), and equates only identical strings. *)
Theorem binary_is_utf8_order (s t : jsstring) :
  wf_string s -> wf_string t -> well_formed s = true -> well_formed t = true ->
  sgn (BINARY_COLLATION s t) = sgn (Bytes.compareBytes (utf8_encode s) (utf8_encode t)) /\
  (BINARY_COLLATION s t = 0 <-> s = t).
Proof.
  intros Hs Ht Ws Wt. unfold BINARY_COLLATION.
  rewrite Bytes.compareBytes_lex, utf8_encode_lex, compareCodePoints_lex, lex_rank_code_points by done.
  split; [done|]. rewrite <- sgn_eq, compareCodePoints_lex, lex_rank_code_points by done.
  rewrite lex_Z_eq. split; [|congruence]. intros H.
  by rewrite <- (units_of_code_points s), <- (units_of_code_points t), H.
Qed.

Lemma binary_is_utf8_order_witness :
  sgn (BINARY_COLLATION [0xD83D; 0xDE00] [0xFF21])
  = sgn (Bytes.compareBytes (utf8_encode [0xD83D; 0xDE00]) (utf8_encode [0xFF21])) /\
  (BINARY_COLLATION [0xD83D; 0xDE00] [0xFF21] = 0 <-> [0xD83D; 0xDE00] = [0xFF21]).
Proof.
  apply (binary_is_utf8_order [0xD83D; 0xDE00] [0xFF21]);
    [repeat (apply Forall_cons; split; [lia|]); apply Forall_nil_2..|reflexivity|reflexivity].
Defined.

Lemma sql_value_order_witness :
  preorder_on wf_value (fun a b => compareSqlValuesFast a b RTRIM_COLLATION) /\
  (forall a b, wf_value a -> wf_value b ->
    class_num (getStorageClass a) < class_num (getStorageClass b) -> compareSqlValuesFast a b RTRIM_COLLATION < 0) /\
  (forall a b, wf_value a -> wf_value b -> getStorageClass a = getStorageClass b ->
    sgn (compareSqlValuesFast a b RTRIM_COLLATION) = class_order (fun s t => lex rank_cmp (rtrim s) (rtrim t)) a b).
Proof.
  apply (sql_value_order RTRIM_COLLATION (fun s t => lex rank_cmp (rtrim s) (rtrim t))).
  exact RTRIM_collates.
Defined.

Lemma order_by_order_witness :
  let cmp := createOrderByComparatorFast true (Some false) BINARY_COLLATION in
  preorder_on wf_value cmp /\
  (forall v, is_null v = false -> cmp VNull v = if decide (Some false = Some false) then 1 else -1) /\
  (forall a b, wf_value a -> wf_value b -> is_null a = false -> is_null b = false ->
     sgn (cmp a b) = sgn (compareSqlValuesFast b a BINARY_COLLATION)).
Proof.
  apply (order_by_order BINARY_COLLATION (lex rank_cmp) true (Some false)).
  exact BINARY_collates.
Defined.

Lemma row_comparator_order_witness :
  let colls := [BINARY_COLLATION; RTRIM_COLLATION] in
  let cmp := createCollationRowComparator colls in
  preorder_on (wf_row (length colls)) cmp /\
  (forall a b, wf_row (length colls) a -> wf_row (length colls) b ->
     sgn (cmp a b) = Eq <-> forall i x y coll, a !! i = Some x -> b !! i = Some y -> colls !! i = Some coll ->
                         compareSqlValuesFast x y coll = 0).
Proof.
  apply (row_comparator_order [BINARY_COLLATION; RTRIM_COLLATION]
    [lex rank_cmp; fun s t => lex rank_cmp (rtrim s) (rtrim t)]).
  repeat constructor; try apply BINARY_collates; apply RTRIM_collates.
Defined.

(** The direction flags read as written: by default NULLs come first also in
    descending order. *)
Lemma desc_default_nulls_first (v : SqlValue) :
  is_null v = false ->
  createOrderByComparatorFast true None BINARY_COLLATION VNull v = -1.
Proof. by destruct v. Qed.

End Comparison.
