(* ===== verification/KeySerializer.v ===== *)
(** * Hash keys

    Models [packages/quereus/src/util/key-serializer.ts]: the string keys that
    hash joins, DISTINCT, GROUP BY, window partitions and the row-identity of
    sync and isolation use, and the built-in collation normalizers. *)

From S2P Require Import Prelude Bytes Double Decimal NumberText Utf8 Json Comparison.
From Stdlib Require Import ZArith Lia.
From stdpp Require Import sorting.
From stdpp Require Import base tactics numbers sets gmap list.
#[local] Open Scope Z_scope.

Import Utf8 Json Comparison.

Module KeySerializer.

Definition normalizer : Type := jsstring -> jsstring.

Definition IDENTITY_NORMALIZER : normalizer := fun s => s.

Definition RTRIM_NORMALIZER : normalizer := fun s =>
  let end_ := rtrim_len s (length s) in
  if (end_ =? length s)%nat then s else take end_ s.

Definition NOCASE_NORMALIZER (toLowerCase : normalizer) : normalizer := fun s => toLowerCase s.

(** The own keys of the record; any other name is [undefined]. *)
Definition BUILTIN_NORMALIZERS (toLowerCase : normalizer) (name : jsstring) : option normalizer :=
  if decide (name = js "BINARY") then Some IDENTITY_NORMALIZER
  else if decide (name = js "NOCASE") then Some (NOCASE_NORMALIZER toLowerCase)
  else if decide (name = js "RTRIM") then Some RTRIM_NORMALIZER
  else None.

Section Serialize.

Abbreviation value := SqlValue.

Definition canonicalNumeric_double (d : double) : jsstring :=
  match BigInt_of_double d with
  | Some n => dec n
  | None => number_to_string d
  end.

(** [Array.from(val).join(',')]. *)
Fixpoint join_bytes (b : bytes) : jsstring :=
  match b with
  | [] => []
  | [x] => dec x
  | x :: b' => dec x ++ js "," ++ join_bytes b'
  end.

(** [None] for NULL. *)
Definition appendValue (val : value) (norm : normalizer) : option jsstring :=
  match val with
  | VNull => None
  | VText s => Some (js "s:" ++ norm s)
  | VNumber d => Some (js "n:" ++ canonicalNumeric_double d)
  | VBigint n => Some (js "n:" ++ dec n)
  | VBool b => Some (js "n:" ++ (if b then js "1" else js "0"))
  | VBlob b => Some (js "x:" ++ join_bytes b)
  | VObject o => Some (js "o:" ++ canonicalJsonString o)
  end.

Definition NUL : Z := 0.

(** The loop of [serializeKey], after the separator of part [i]. *)
Fixpoint serialize_loop (first : bool) (values : list value) (normalizers : list normalizer)
    (key : jsstring) : option jsstring :=
  match values with
  | [] => Some key
  | v :: values' =>
    match appendValue v (default IDENTITY_NORMALIZER (head normalizers)) with
    | None => None
    | Some part =>
      serialize_loop false values' (tail normalizers)
        ((if first then key else key ++ [NUL]) ++ part)
    end
  end.

Definition serializeKey (values : list value) (normalizers : list normalizer) : option jsstring :=
  serialize_loop true values normalizers [].

Fixpoint grouping_loop (first : bool) (values : list value) (normalizers : list normalizer)
    (key : jsstring) : jsstring :=
  match values with
  | [] => key
  | v :: values' =>
    let key := if first then key else key ++ [NUL] in
    let part := match appendValue v (default IDENTITY_NORMALIZER (head normalizers)) with
                | None => js "N:"
                | Some part => part
                end in
    grouping_loop false values' (tail normalizers) (key ++ part)
  end.

Definition serializeKeyNullGrouping (values : list value) (normalizers : list normalizer) : jsstring :=
  grouping_loop true values normalizers [].

(** [row[indices[i]]]: [undefined] out of range, which [appendValue] treats as
    NULL. *)
Definition serializeRowKey (row : list value) (indices : list nat) (normalizers : list normalizer)
    : option jsstring :=
  serialize_loop true (map (fun i => default VNull (row !! i)) indices) normalizers [].

Definition transform_value (transform : option (value -> value)) (v : value) : value :=
  match transform with
  | Some f => if is_null v then v else f v
  | None => v
  end.

(** [makePkIdentitySerializer] with the keying it resolves. *)
Definition pkIdentity (normalizers : list normalizer) (transforms : list (option (value -> value)))
    (pk : list value) : jsstring :=
  serializeKeyNullGrouping
    (imap (fun i v => transform_value (mjoin (transforms !! i)) v) pk) normalizers.

End Serialize.

(** ** Parts *)

Section Spec.

Abbreviation value := SqlValue.
Abbreviation append := appendValue.

(** A normalizer is faithful to a collation: equal forms exactly for equal
    strings. *)
Definition faithful (coll : CollationFunction) (norm : normalizer) : Prop :=
  forall s t, wf_string s -> wf_string t -> coll s t = 0 <-> norm s = norm t.

Lemma dec_no_sep n c : c <> 45 -> ~ (48 <= c <= 57) -> c ∉ dec n.
Proof.
  intros Hm Hd Hin.
  assert (forall m, 0 <= m -> c ∉ dec_nonneg m) as H.
  { intros m Hm' H. destruct (dec_nonneg_spec m Hm') as (_ & Hds & _). rewrite Forall_forall in Hds.
    specialize (Hds c H). apply is_digit_range in Hds. done. }
  unfold dec in Hin. destruct (Z.ltb_spec n 0).
  - apply elem_of_cons in Hin as [->|Hin]; [done|]. by apply (H (- n)) in Hin; [|lia].
  - by apply H in Hin.
Qed.

Lemma dec_not_nil n : dec n <> [].
Proof.
  unfold dec. destruct (Z.ltb_spec n 0); [done|]. by apply dec_nonneg_spec.
Qed.

Lemma join_bytes_cons x y b : join_bytes (x :: y :: b) = dec x ++ 44 :: join_bytes (y :: b).
Proof. done. Qed.

Lemma join_bytes_nil b : join_bytes b = [] -> b = [].
Proof.
  destruct b as [|x [|y b]]; [done|..].
  - cbn. intros H. by apply dec_not_nil in H.
  - rewrite join_bytes_cons. intros [H _]%app_nil. by apply dec_not_nil in H.
Qed.

Lemma join_bytes_inj b c : join_bytes b = join_bytes c -> b = c.
Proof.
  assert (forall n, 44 ∉ dec n) as Hsep by (intros n; apply dec_no_sep; lia).
  revert c. induction b as [|x b IH]; intros c H.
  { symmetry. by apply join_bytes_nil. }
  destruct c as [|y c]; [by apply join_bytes_nil in H|].
  destruct b as [|x' b], c as [|y' c].
  - cbn in H. apply dec_inj_Z in H. by subst.
  - rewrite join_bytes_cons in H. cbn in H. exfalso. apply (Hsep x). rewrite H. apply elem_of_app. right. by left.
  - rewrite join_bytes_cons in H. cbn in H. exfalso. apply (Hsep y). rewrite <- H. apply elem_of_app. right. by left.
  - rewrite !join_bytes_cons in H. apply split_at_sep in H as [H1 H2]; [|done|done].
    apply dec_inj_Z in H1. by rewrite H1, (IH _ H2).
Qed.

Lemma BigInt_of_double_num d n : BigInt_of_double d = Some n <-> num_of_double d = NFin (n * UNIT).
Proof.
  unfold BigInt_of_double. pose proof UNIT_pos. destruct (num_of_double d) as [| |u|]; try done.
  destruct (Z.eqb_spec (u mod UNIT) 0) as [E|Hne].
  - apply Z.div_exact in E; [|lia]. split.
    + intros [= <-]. f_equal. lia.
    + intros [= ->]. f_equal. apply Z.div_mul. lia.
  - split; [done|]. intros [= ->]. exfalso. apply Hne. apply Z.mod_mul. lia.
Qed.

(** The decimal text of a numeric-class value. *)
Definition numeric_text (v : value) : jsstring :=
  match v with
  | VNumber d => canonicalNumeric_double d
  | VBigint n => dec n
  | VBool b => if b then js "1" else js "0"
  | _ => []
  end.

Lemma numeric_text_cases v :
  getStorageClass v = NUMERIC ->
  (exists n, numeric_of v = NFin (n * UNIT) /\ numeric_text v = dec n) \/
  (exists d, v = VNumber d /\ BigInt_of_double d = None /\ numeric_text v = number_to_string d).
Proof.
  destruct v as [|d|n|b|s|b|o]; cbn; try done; intros _.
  - unfold canonicalNumeric_double. destruct (BigInt_of_double d) as [n|] eqn:E.
    + left. exists n. split; [by apply BigInt_of_double_num|done].
    + right. by exists d.
  - left. by exists n.
  - left. destruct b; [by exists 1|by exists 0].
Qed.

Lemma numeric_text_eq a b :
  getStorageClass a = NUMERIC -> getStorageClass b = NUMERIC ->
  wf_value a -> wf_value b ->
  numeric_text a = numeric_text b <-> numeric_of a = numeric_of b.
Proof.
  intros Ca Cb Wa Wb. pose proof UNIT_pos.
  destruct (numeric_text_cases a Ca) as [(n & Na & ->)|(d & -> & Nd & ->)],
    (numeric_text_cases b Cb) as [(m & Nb & ->)|(e & -> & Ne & ->)].
  - rewrite Na, Nb. split; [by intros ->%dec_inj_Z|]. intros [= H1]. f_equal. nia.
  - rewrite Na. cbn. destruct Wb as [Wb _].
    split; [intros H1; symmetry in H1; by apply number_to_string_not_dec in H1|].
    intros H1. symmetry in H1. apply BigInt_of_double_num in H1. congruence.
  - rewrite Nb. cbn. destruct Wa as [Wa _]. split; [intros H1; by apply number_to_string_not_dec in H1|].
    intros H1. apply BigInt_of_double_num in H1. congruence.
  - cbn. destruct Wa as [Wa _], Wb as [Wb _]. split; [by intros ->%number_to_string_inj|]. intros H1.
    f_equal. apply num_of_double_inj; [done|done|by intros ->|by intros ->|done].
Qed.

Lemma lex_rank_eq a b : wf_string a -> wf_string b -> lex rank_cmp a b = Eq <-> a = b.
Proof.
  revert b. induction a as [|u a IH]; intros [|v b] Ha Hb; try done. unfold wf_string in *.
  apply Forall_cons in Ha as [Hu Ha]. apply Forall_cons in Hb as [Hv Hb]. cbn. unfold rank_cmp at 1.
  destruct (Z.compare_spec (rank u) (rank v)) as [E|E|E]; cbn.
  - apply rank_inj in E as ->; [|done|done]. rewrite IH by done. split; congruence.
  - split; [done|]. intros [= -> ->]. lia.
  - split; [done|]. intros [= -> ->]. lia.
Qed.

(** A part as the key holds it, NULL included. *)
Definition part_of (v : value) (norm : normalizer) : jsstring := default (js "N:") (append v norm).

Lemma part_numeric v norm : getStorageClass v = NUMERIC -> part_of v norm = js "n:" ++ numeric_text v.
Proof. by destruct v. Qed.

Lemma part_eq a b coll c norm :
  collates coll c -> faithful coll norm ->
  wf_value a -> wf_value b ->
  part_of a norm = part_of b norm <-> compareSqlValuesFast a b coll = 0.
Proof.
  intros Hc Hf Wa Wb.
  destruct (decide (getStorageClass a = NUMERIC /\ getStorageClass b = NUMERIC)) as [[Ca Cb]|Hn].
  - rewrite !part_numeric by done. rewrite <- sgn_eq, (compare_fast_spec coll c) by done.
    unfold value_compare. rewrite Ca, Cb, Z.compare_refl. cbn [cmp_then].
    assert (num_part a = numeric_of a /\ num_part b = numeric_of b) as [-> ->]
      by (unfold num_part; by rewrite Ca, Cb).
    assert (text_part a = [] /\ text_part b = [] /\ blob_part a = [] /\ blob_part b = [] /\
      obj_part a = [] /\ obj_part b = [])
      as (-> & -> & -> & -> & -> & ->) by (destruct a; try done; by destruct b).
    pose proof (proj1 Hc) as Hlaws. rewrite (cmp_refl c). cbn [cmp_then lex].
    transitivity (numeric_text a = numeric_text b).
    { split; [|by intros ->]. intros H. by apply (inj (app (js "n:"))) in H. }
    rewrite numeric_text_eq by done. rewrite <- (cmp_eq num_compare).
    by destruct (num_compare (numeric_of a) (numeric_of b)).
  - destruct a, b; cbn [getStorageClass] in Hn; try (exfalso; tauto); clear Hn; try done.
    + cbn. split; [intros [= H]; by apply Hf|]. intros H. apply Hf in H; [by rewrite H|done|done].
    + cbn. rewrite <- sgn_eq, compareBlobs_sgn, (cmp_eq blex). split; [|by intros ->].
      intros [= H]. by apply join_bytes_inj.
    + cbn. rewrite <- sgn_eq, compareCodePoints_lex, lex_rank_eq by auto with json. split; congruence.
Qed.

(** ** Composite keys *)

Fixpoint join_nul (parts : list jsstring) : jsstring :=
  match parts with
  | [] => []
  | [p] => p
  | p :: parts' => p ++ NUL :: join_nul parts'
  end.

Fixpoint parts_of (values : list value) (normalizers : list normalizer) : list jsstring :=
  match values with
  | [] => []
  | v :: values' =>
    part_of v (default IDENTITY_NORMALIZER (head normalizers)) :: parts_of values' (tail normalizers)
  end.

Lemma grouping_loop_join values normalizers key :
  grouping_loop false values normalizers key
  = key ++ concat (map (cons NUL) (parts_of values normalizers)).
Proof.
  revert normalizers key. induction values as [|v values IH]; intros normalizers key; cbn.
  - by rewrite app_nil_r.
  - rewrite IH. unfold part_of. rewrite <- !app_assoc. cbn. by destruct (append v _).
Qed.

Lemma join_nul_concat p parts : join_nul (p :: parts) = p ++ concat (map (cons NUL) parts).
Proof.
  revert p. induction parts as [|q parts IH]; intros p; [by rewrite app_nil_r|].
  change (join_nul (p :: q :: parts)) with (p ++ NUL :: join_nul (q :: parts)). by rewrite IH.
Qed.

Lemma grouping_join values normalizers :
  serializeKeyNullGrouping values normalizers
  = join_nul (parts_of values normalizers).
Proof.
  unfold serializeKeyNullGrouping. destruct values as [|v values]; [done|]. cbn [grouping_loop app].
  rewrite grouping_loop_join. cbn [parts_of]. rewrite join_nul_concat. unfold part_of.
  by destruct (append v _).
Qed.

Lemma serialize_loop_grouping first values normalizers key :
  serialize_loop first values normalizers key
  = if existsb is_null values then None
    else Some (grouping_loop first values normalizers key).
Proof.
  revert first normalizers key. induction values as [|v values IH]; intros first normalizers key; [done|].
  cbn [serialize_loop existsb grouping_loop].
  destruct (append v (default IDENTITY_NORMALIZER (head normalizers))) as [part|] eqn:E.
  - assert (is_null v = false) as -> by by destruct v. cbn. rewrite IH. by destruct first.
  - assert (is_null v = true) as -> by by destruct v. done.
Qed.

Lemma join_nul_inj ps qs :
  length ps = length qs -> Forall (fun p => NUL ∉ p) ps -> Forall (fun p => NUL ∉ p) qs ->
  join_nul ps = join_nul qs -> ps = qs.
Proof.
  revert qs. induction ps as [|p ps IH]; intros [|q qs] Hlen Hp Hq H; try done.
  apply Forall_cons in Hp as [Hp Hps]. apply Forall_cons in Hq as [Hq Hqs].
  injection Hlen as Hlen. destruct ps as [|p' ps], qs as [|q' qs]; try done.
  - cbn in H. by subst.
  - change (p ++ NUL :: join_nul (p' :: ps) = q ++ NUL :: join_nul (q' :: qs)) in H.
    apply split_at_sep in H as [-> H]; [|done|done]. f_equal. by apply IH.
Qed.

(** No NUL in the text a value contributes. *)
Definition nul_free (norm : normalizer) (v : value) : Prop :=
  match v with
  | VText s => NUL ∉ norm s
  | _ => True
  end.

Lemma join_bytes_nul b : NUL ∉ join_bytes b.
Proof.
  assert (forall n, NUL ∉ dec n) as Hd by (intros n; apply dec_no_sep; unfold NUL; lia).
  induction b as [|x b IH]; [apply not_elem_of_nil|]. destruct b as [|y b]; [apply Hd|].
  rewrite join_bytes_cons, elem_of_app, elem_of_cons. intros [H|[H|H]]; [by apply (Hd x)|done|done].
Qed.

Lemma part_nul_free v norm : wf_value v -> nul_free norm v -> NUL ∉ part_of v norm.
Proof.
  assert (forall n, NUL ∉ dec n) as Hd by (intros n; apply dec_no_sep; unfold NUL; lia).
  assert (forall x y (l : jsstring), NUL <> x -> NUL <> y -> NUL ∉ l -> NUL ∉ [x; y] ++ l) as Happ.
  { intros x y l Hx Hy Hl. cbn. rewrite !elem_of_cons. tauto. }
  intros Hwf Hv. destruct v as [|d|n|b|s|b|o]; unfold part_of; cbn [appendValue default];
    try (apply Happ; [done|done|]).
  - apply not_elem_of_nil.
  - unfold canonicalNumeric_double. destruct (BigInt_of_double d); [apply Hd|].
    intros Hin%number_to_string_printable; [|apply Hwf]. unfold NUL in Hin. lia.
  - apply Hd.
  - destruct b; (apply not_elem_of_cons; split; [done|apply not_elem_of_nil]).
  - exact Hv.
  - apply join_bytes_nul.
  - intros Hin. destruct (canonicalJsonString_text o Hwf) as [Ht _]. rewrite Forall_forall in Ht.
    apply Ht in Hin. unfold NUL in Hin. lia.
Qed.

Fixpoint nul_free_row (normalizers : list normalizer) (values : list value) : Prop :=
  match values with
  | [] => True
  | v :: values' =>
    nul_free (default IDENTITY_NORMALIZER (head normalizers)) v /\ nul_free_row (tail normalizers) values'
  end.

Lemma parts_nul_free values normalizers :
  Forall wf_value values -> nul_free_row normalizers values ->
  Forall (fun p => NUL ∉ p) (parts_of values normalizers).
Proof.
  intros Hwf. revert normalizers. induction Hwf as [|v values Hw Hwf IH]; intros normalizers; cbn; [constructor|].
  intros [Hv Hvs]. apply Forall_cons. split; [by apply part_nul_free|by apply IH].
Qed.

Lemma length_parts values normalizers : length (parts_of values normalizers) = length values.
Proof. revert normalizers. induction values as [|v values IH]; intros; cbn; [done|]. by rewrite IH. Qed.

(** Column by column equality under the collations. *)
Fixpoint row_equal (colls : list CollationFunction) (a b : list value) : Prop :=
  match colls, a, b with
  | coll :: colls', x :: a', y :: b' =>
    compareSqlValuesFast x y coll = 0 /\ row_equal colls' a' b'
  | _, _, _ => True
  end.

(** One collation, its order and its normalizer. *)
Definition keyed (coll : CollationFunction) (norm : normalizer) : Prop :=
  (exists c, collates coll c) /\ faithful coll norm.

Lemma parts_eq colls norms a b :
  Forall2 keyed colls norms ->
  wf_row (length colls) a -> wf_row (length colls) b ->
  parts_of a norms = parts_of b norms <-> row_equal colls a b.
Proof.
  intros Hk [La Wa] [Lb Wb]. revert a b La Lb Wa Wb.
  induction Hk as [|coll norm colls norms [[c Hc] Hf] Hk IH]; intros a b La Lb Wa Wb.
  { by destruct a, b. }
  destruct Wa as [|x a Hx Wa], Wb as [|y b Hy Wb]; try done. cbn in La, Lb. injection La as La. injection Lb as Lb.
  cbn [parts_of row_equal head tail default]. rewrite <- IH by done.
  rewrite <- (part_eq x y coll c norm) by done. split; [by intros [= ? ?]|intros [H1 H2]; f_equal; done].
Qed.

(** ** Properties *)

(** C16: A hash key identifies a row of SQL values up to its columns'
    collations: two rows of the same width whose texts hold no NUL get the same
    NULL-grouping key exactly when they compare equal column by column, and
    [serializeKey] is that key, or [null] exactly when a value is NULL. *)
Theorem hash_key_identity (colls : list CollationFunction) (norms : list normalizer) (a b : list value) :
  Forall2 keyed colls norms ->
  wf_row (length colls) a -> wf_row (length colls) b ->
  nul_free_row norms a -> nul_free_row norms b ->
  (serializeKeyNullGrouping a norms
   = serializeKeyNullGrouping b norms
   <-> row_equal colls a b) /\
  serializeKey a norms
  = if existsb is_null a then None
    else Some (serializeKeyNullGrouping a norms).
Proof.
  intros Hk Ha Hb Na Nb. split; [|apply serialize_loop_grouping].
  rewrite !grouping_join, <- (parts_eq colls norms a b) by done.
  split; [|by intros ->]. apply join_nul_inj.
  - rewrite !length_parts. destruct Ha, Hb. congruence.
  - apply parts_nul_free; [apply Ha|done].
  - apply parts_nul_free; [apply Hb|done].
Qed.

End Spec.

(** ** Built-in collations *)

Lemma RTRIM_NORMALIZER_rtrim s : RTRIM_NORMALIZER s = rtrim s.
Proof.
  unfold RTRIM_NORMALIZER, rtrim. destruct (Nat.eqb_spec (rtrim_len s (length s)) (length s)) as [E|]; [|done].
  by rewrite E, firstn_all.
Qed.

Lemma keyed_BINARY : keyed BINARY_COLLATION IDENTITY_NORMALIZER.
Proof.
  split; [eexists; apply BINARY_collates|]. intros s t Hs Ht.
  rewrite <- sgn_eq, (proj2 BINARY_collates s t Hs Ht). by apply lex_rank_eq.
Qed.

Lemma keyed_RTRIM : keyed RTRIM_COLLATION RTRIM_NORMALIZER.
Proof.
  split; [eexists; apply RTRIM_collates|]. intros s t Hs Ht.
  rewrite <- sgn_eq, (proj2 RTRIM_collates s t Hs Ht), !RTRIM_NORMALIZER_rtrim.
  apply lex_rank_eq; by apply Forall_take.
Qed.

Lemma keyed_NOCASE toLowerCase :
  (forall s, wf_string s -> wf_string (toLowerCase s)) ->
  keyed (NOCASE_COLLATION toLowerCase) (NOCASE_NORMALIZER toLowerCase).
Proof.
  intros Hl. split; [eexists; by apply NOCASE_collates|]. intros s t Hs Ht.
  rewrite <- sgn_eq, (proj2 (NOCASE_collates toLowerCase Hl) s t Hs Ht). apply lex_rank_eq; auto.
Qed.

Lemma hash_key_identity_witness :
  let a := [VText (js "a  "); VBigint 5] in
  let b := [VText (js "a"); VNumber (double_of_Z 5)] in
  let norms := [RTRIM_NORMALIZER; IDENTITY_NORMALIZER] in
  (serializeKeyNullGrouping a norms
   = serializeKeyNullGrouping b norms
   <-> row_equal [RTRIM_COLLATION; BINARY_COLLATION] a b) /\
  serializeKey a norms
  = if existsb is_null a then None
    else Some (serializeKeyNullGrouping a norms).
Proof.
  intros a b norms.
  apply (hash_key_identity [RTRIM_COLLATION; BINARY_COLLATION] norms a b).
  - constructor; [apply keyed_RTRIM|constructor; [apply keyed_BINARY|constructor]].
  - split; [reflexivity|]. apply Forall_cons. split; [|apply Forall_cons; split; [exact I|apply Forall_nil_2]].
    apply wf_stringb_spec. reflexivity.
  - split; [reflexivity|]. apply Forall_cons. split.
    + apply wf_stringb_spec. reflexivity.
    + apply Forall_cons. split; [|apply Forall_nil_2].
      destruct (double_of_Z_value 5) as (Hv & Hwf & _); [left; vm_compute; discriminate|vm_compute; discriminate|].
      split; [exact Hwf|]. unfold not_nan. rewrite Hv. discriminate.
  - cbn. repeat split; set_solver.
  - cbn. repeat split; set_solver.
Defined.

(** Texts that hold a NUL can shift across columns: these two rows differ in
    both columns and get the same key. *)
Lemma hash_key_nul_collision :
  let a : list SqlValue := [VText (js "a" ++ NUL :: js "s:b"); VText (js "c")] in
  let b := [VText (js "a"); VText (js "b" ++ NUL :: js "s:c")] in
  let norms := [IDENTITY_NORMALIZER; IDENTITY_NORMALIZER] in
  serializeKey a norms = serializeKey b norms /\
  ~ row_equal [BINARY_COLLATION; BINARY_COLLATION] a b.
Proof. cbn. split; [reflexivity|]. intros [H _]. vm_compute in H. discriminate. Qed.

End KeySerializer.
