(* ===== verification/BTree.v ===== *)
(** * Ordered trees

    The memory tables keep rows and index entries in the B+trees of the
    [inheritree] package, which is not part of the sources: a tree is built
    from the key of a value and a comparator, possibly over a base tree whose
    content it inherits.  [BTree] is the interface the tables use and
    [BTreeLaws] what they rely on, stated on the ascending walk; [SortedList]
    is a plain implementation that shows the laws can hold. *)

From S2P Require Import Prelude.
From Stdlib Require Import ZArith Lia.
From stdpp Require Import sorting.
From stdpp Require Import base tactics numbers sets gmap list.
#[local] Open Scope Z_scope.

Module BTree.

(** [bt_get] is [get]; [bt_upsert] is [upsert], or [insert] or [updateAt] at a
    found path; [bt_remove] is [find] followed by [deleteAt] when it is on an
    entry; [bt_ascending] is the walk from the first entry; [bt_find] is [find],
    as the entries before the path, the entry it is on, and the entries after.
    A tree over a base starts as the base's value: writes go to copied nodes. *)
Definition option_list {A} (o : option A) : list A := match o with Some x => [x] | None => [] end.

Class BTree (T : Type -> Type) : Type := {
  bt_empty : forall {V : Type}, T V;
  bt_get : forall {V K : Type}, (V -> K) -> (K -> K -> Z) -> T V -> K -> option V;
  bt_upsert : forall {V K : Type}, (V -> K) -> (K -> K -> Z) -> T V -> V -> T V;
  bt_remove : forall {V K : Type}, (V -> K) -> (K -> K -> Z) -> T V -> K -> T V;
  bt_ascending : forall {V : Type}, T V -> list V;
  bt_find : forall {V K : Type}, (V -> K) -> (K -> K -> Z) -> T V -> K -> list V * option V * list V
}.

(** A comparator that is, on the keys [dom] holds of, the test of a total
    preorder. *)
Definition ordered {K : Type} (dom : K -> Prop) (cmp : K -> K -> Z) (c : K -> K -> comparison) : Prop :=
  CmpLaws c /\ forall x y, dom x -> dom y -> sgn (cmp x y) = c x y.

Section Trees.
Context {V K : Type} (keyOf : V -> K) (dom : K -> Prop) (c : K -> K -> comparison).

(** Content of a tree: keys of the domain, strictly increasing. *)
Definition content_ok (l : list V) : Prop :=
  Forall (fun v => dom (keyOf v)) l /\ StronglySorted (fun v w => c (keyOf v) (keyOf w) = Lt) l.

Definition at_key (k : K) (v : V) : Prop := c (keyOf v) k = Eq.

Context `{!CmpLaws c}.

Lemma content_unique l v w :
  content_ok l -> v ∈ l -> w ∈ l -> c (keyOf v) (keyOf w) = Eq -> v = w.
Proof.
  intros [_ Hs] Hv Hw E. induction Hs as [|x l Hs IH Hx]; [by apply elem_of_nil in Hv|].
  rewrite Forall_forall in Hx. apply elem_of_cons in Hv as [->|Hv], Hw as [<-|Hw].
  - done.
  - specialize (Hx _ Hw). congruence.
  - specialize (Hx _ Hv). apply (cmp_eq_sym c) in E. congruence.
  - by apply IH.
Qed.

Lemma content_at_unique l k v w :
  content_ok l -> v ∈ l -> w ∈ l -> at_key k v -> at_key k w -> v = w.
Proof.
  intros Hl Hv Hw Ev Ew. apply (content_unique l); [done..|].
  rewrite (cmp_eq_l c (keyOf v) k (keyOf w) Ev). by apply (cmp_eq_sym c).
Qed.

(** Two contents with the same elements are equal. *)
Lemma content_ext l1 l2 :
  content_ok l1 -> content_ok l2 -> (forall v, v ∈ l1 <-> v ∈ l2) -> l1 = l2.
Proof.
  intros [_ H1] [_ H2] He. revert l2 H2 He.
  induction H1 as [|x l1 H1 IH Hx]; intros l2 H2 He.
  - destruct l2 as [|y l2]; [done|]. exfalso. apply (elem_of_nil y), He. left.
  - rewrite Forall_forall in Hx. destruct H2 as [|y l2 H2 Hy]; [exfalso; apply (elem_of_nil x), He; left|].
    rewrite Forall_forall in Hy.
    assert (Hlt : forall a b, c (keyOf a) (keyOf b) = Lt -> c (keyOf b) (keyOf a) = Lt -> False).
    { intros a b Ha Hb. apply (cmp_lt_gt c) in Ha. congruence. }
    assert (x = y) as <-.
    { assert (Hxy : x ∈ y :: l2) by (apply He; left). assert (Hyx : y ∈ x :: l1) by (apply He; left).
      apply elem_of_cons in Hxy as [->|Hxy]; [done|]. apply elem_of_cons in Hyx as [->|Hyx]; [done|].
      exfalso. by eapply (Hlt x y); [apply Hx|apply Hy]. }
    f_equal. apply IH; [done|]. intros v. specialize (He v). rewrite !elem_of_cons in He.
    assert (Hne1 : v ∈ l1 -> v <> x) by (intros Hv ->; specialize (Hx _ Hv); by apply (Hlt x x)).
    assert (Hne2 : v ∈ l2 -> v <> x) by (intros Hv ->; specialize (Hy _ Hv); by apply (Hlt x x)).
    clear -He Hne1 Hne2. naive_solver.
Qed.

Lemma content_filter (P : V -> Prop) `{!forall v, Decision (P v)} l :
  content_ok l -> content_ok (filter P l).
Proof.
  intros [Hd Hs]. split.
  - apply Forall_forall. intros v [_ Hv]%list_elem_of_filter. by eapply Forall_forall in Hd.
  - induction Hs as [|x l Hs IH Hx]; [constructor|]. apply Forall_cons in Hd as [_ Hd].
    rewrite filter_cons. case_decide; [|by apply IH]. constructor; [by apply IH|].
    apply Forall_forall. intros v [_ Hv]%list_elem_of_filter. by eapply Forall_forall in Hx.
Qed.

End Trees.

(** What the tables rely on. *)
Class BTreeLaws (T : Type -> Type) `{BTree T} : Prop := {
  bt_empty_spec : forall V, bt_ascending (T := T) (V := V) bt_empty = [];
  bt_get_spec : forall V K (keyOf : V -> K) dom cmp c (t : T V) k v,
    ordered dom cmp c -> content_ok keyOf dom c (bt_ascending t) -> dom k ->
    bt_get keyOf cmp t k = Some v <-> v ∈ bt_ascending t /\ at_key keyOf c k v;
  bt_upsert_spec : forall V K (keyOf : V -> K) dom cmp c (t : T V) v,
    ordered dom cmp c -> content_ok keyOf dom c (bt_ascending t) -> dom (keyOf v) ->
    content_ok keyOf dom c (bt_ascending (bt_upsert keyOf cmp t v)) /\
    forall w, w ∈ bt_ascending (bt_upsert keyOf cmp t v) <->
      w = v \/ w ∈ bt_ascending t /\ ~ at_key keyOf c (keyOf v) w;
  bt_remove_spec : forall V K (keyOf : V -> K) dom cmp c (t : T V) k,
    ordered dom cmp c -> content_ok keyOf dom c (bt_ascending t) -> dom k ->
    content_ok keyOf dom c (bt_ascending (bt_remove keyOf cmp t k)) /\
    (forall w, w ∈ bt_ascending (bt_remove keyOf cmp t k) <->
      w ∈ bt_ascending t /\ ~ at_key keyOf c k w);
  bt_find_spec : forall V K (keyOf : V -> K) dom cmp c (t : T V) k,
    ordered dom cmp c -> content_ok keyOf dom c (bt_ascending t) -> dom k ->
    let '(before, on, after) := bt_find keyOf cmp t k in
    bt_ascending t = before ++ option_list on ++ after /\
    Forall (fun v => c (keyOf v) k = Lt) before /\ Forall (fun v => c (keyOf v) k = Eq) (option_list on) /\
    Forall (fun v => c (keyOf v) k = Gt) after
}.

(** ** An implementation *)

Module SortedList.

Fixpoint get {V K} (keyOf : V -> K) (cmp : K -> K -> Z) (t : list V) (k : K) : option V :=
  match t with
  | [] => None
  | v :: t' => if cmp (keyOf v) k =? 0 then Some v else get keyOf cmp t' k
  end.

Fixpoint upsert {V K} (keyOf : V -> K) (cmp : K -> K -> Z) (t : list V) (v : V) : list V :=
  match t with
  | [] => [v]
  | w :: t' =>
    if cmp (keyOf w) (keyOf v) =? 0 then v :: t'
    else if cmp (keyOf w) (keyOf v) <? 0 then w :: upsert keyOf cmp t' v
    else v :: w :: t'
  end.

Fixpoint remove {V K} (keyOf : V -> K) (cmp : K -> K -> Z) (t : list V) (k : K) : list V :=
  match t with
  | [] => []
  | w :: t' => if cmp (keyOf w) k =? 0 then t' else w :: remove keyOf cmp t' k
  end.

Fixpoint find {V K} (keyOf : V -> K) (cmp : K -> K -> Z) (t : list V) (k : K) : list V * option V * list V :=
  match t with
  | [] => ([], None, [])
  | w :: t' =>
    if cmp (keyOf w) k =? 0 then ([], Some w, t')
    else if cmp (keyOf w) k <? 0 then
      let '(before, on, after) := find keyOf cmp t' k in (w :: before, on, after)
    else ([], None, w :: t')
  end.

End SortedList.

Definition sorted_list (V : Type) : Type := list V.

#[export] Instance sorted_list_btree : BTree sorted_list := {
  bt_empty V := [];
  bt_get V K := SortedList.get;
  bt_upsert V K := SortedList.upsert;
  bt_remove V K := SortedList.remove;
  bt_ascending V t := t;
  bt_find V K := SortedList.find
}.

Section SortedListLaws.
Context {V K : Type} (keyOf : V -> K) (dom : K -> Prop) (cmp : K -> K -> Z) (c : K -> K -> comparison).
Context (Hord : ordered dom cmp c).

Lemma cmp_is_0 x y : dom x -> dom y -> (cmp x y =? 0) = bool_decide (c x y = Eq).
Proof.
  intros Hx Hy. rewrite <- (proj2 Hord x y Hx Hy).
  destruct (Z.eqb_spec (cmp x y) 0) as [E|E]; symmetry.
  - apply bool_decide_eq_true. by apply sgn_eq.
  - apply bool_decide_eq_false. by rewrite sgn_eq.
Qed.

Lemma cmp_is_neg x y : dom x -> dom y -> (cmp x y <? 0) = bool_decide (c x y = Lt).
Proof.
  intros Hx Hy. rewrite <- (proj2 Hord x y Hx Hy).
  destruct (Z.ltb_spec (cmp x y) 0) as [E|E]; symmetry.
  - apply bool_decide_eq_true. by apply sgn_lt.
  - apply bool_decide_eq_false. rewrite sgn_lt. lia.
Qed.

Lemma content_cons v l :
  content_ok keyOf dom c (v :: l) <->
  dom (keyOf v) /\ Forall (fun w => c (keyOf v) (keyOf w) = Lt) l /\ content_ok keyOf dom c l.
Proof.
  unfold content_ok. rewrite Forall_cons. split.
  - intros [[Hv Hd] Hs]. inversion Hs; subst. done.
  - intros (Hv & Hl & Hd & Hs). split; [done|]. by constructor.
Qed.

Lemma list_get_spec l k v :
  content_ok keyOf dom c l -> dom k ->
  SortedList.get keyOf cmp l k = Some v <-> v ∈ l /\ at_key keyOf c k v.
Proof.
  intros Hl Hk. pose proof (proj1 Hord) as Hc. induction l as [|w l IH]; cbn.
  - rewrite elem_of_nil. split; [done|]. by intros [[] _].
  - pose proof Hl as (Hw & Hlt & Hl')%content_cons. rewrite cmp_is_0 by done. rewrite elem_of_cons.
    case_bool_decide as E.
    + split; [intros [= <-]; split; [by left|done]|]. intros [[->|Hv] Hat]; [done|].
      f_equal. apply (content_at_unique keyOf dom c (w :: l) k); [done|left|by right|done|done].
    + rewrite (IH Hl'). unfold at_key. split; [intros [? ?]; by split; [right|]|].
      intros [[->|Hv] Hat]; [done|]. done.
Qed.

Lemma list_upsert_elem l v w :
  content_ok keyOf dom c l -> dom (keyOf v) ->
  w ∈ SortedList.upsert keyOf cmp l v <-> w = v \/ w ∈ l /\ ~ at_key keyOf c (keyOf v) w.
Proof.
  intros Hl Hv. pose proof (proj1 Hord) as Hc. unfold at_key. induction l as [|x l IH]; cbn [SortedList.upsert].
  - rewrite list_elem_of_singleton, elem_of_nil. naive_solver.
  - pose proof Hl as (Hx & Hlt & Hl')%content_cons. rewrite cmp_is_0, cmp_is_neg by done.
    rewrite Forall_forall in Hlt. case_bool_decide as E; [|case_bool_decide as E2].
    + rewrite !elem_of_cons. split; [|naive_solver]. intros [->|Hw]; [by left|]. right. split; [by right|].
      intros Ew. specialize (Hlt _ Hw). rewrite (cmp_eq_l c _ _ (keyOf w) E) in Hlt.
      apply (cmp_eq_sym c) in Ew. congruence.
    + rewrite elem_of_cons, (IH Hl'), !elem_of_cons. naive_solver.
    + rewrite !elem_of_cons. split; [|naive_solver]. intros [->|[->|Hw]]; [by left|right; by split; [left|]|].
      right. split; [by right|]. intros Ew. specialize (Hlt _ Hw).
      rewrite (cmp_eq_r c _ _ (keyOf x) Ew) in Hlt. done.
Qed.

Lemma list_upsert_ok l v :
  content_ok keyOf dom c l -> dom (keyOf v) -> content_ok keyOf dom c (SortedList.upsert keyOf cmp l v).
Proof.
  intros Hl Hv. pose proof (proj1 Hord) as Hc. induction l as [|x l IH]; cbn [SortedList.upsert].
  - apply content_cons. split_and!; [done|constructor|]. split; constructor.
  - pose proof Hl as (Hx & Hlt & Hl')%content_cons. rewrite cmp_is_0, cmp_is_neg by done.
    case_bool_decide as E; [|case_bool_decide as E2].
    + apply content_cons. split_and!; [done| |done]. eapply Forall_impl; [exact Hlt|].
      intros w Hw. by rewrite <- (cmp_eq_l c _ _ (keyOf w) E).
    + apply content_cons. split_and!; [done| |by apply IH].
      apply Forall_forall. intros w Hw. apply (list_upsert_elem l v w) in Hw as [->|[Hw _]]; [done| |done..].
      by eapply Forall_forall in Hlt.
    + apply content_cons. split_and!; [done| |done].
      assert (Hvx : c (keyOf v) (keyOf x) = Lt).
      { apply (cmp_lt_gt c). by destruct (c (keyOf x) (keyOf v)). }
      constructor; [done|]. eapply Forall_impl; [exact Hlt|]. intros w Hw. by eapply (cmp_trans c).
Qed.

Lemma list_remove_elem l k w :
  content_ok keyOf dom c l -> dom k ->
  w ∈ SortedList.remove keyOf cmp l k <-> w ∈ l /\ ~ at_key keyOf c k w.
Proof.
  intros Hl Hk. pose proof (proj1 Hord) as Hc. unfold at_key. induction l as [|x l IH]; cbn [SortedList.remove].
  - rewrite elem_of_nil. naive_solver.
  - pose proof Hl as (Hx & Hlt & Hl')%content_cons. rewrite cmp_is_0 by done. rewrite Forall_forall in Hlt.
    case_bool_decide as E.
    + rewrite elem_of_cons. split; [|naive_solver]. intros Hw. split; [by right|]. intros Ew.
      specialize (Hlt _ Hw). rewrite (cmp_eq_l c _ _ (keyOf w) E) in Hlt. apply (cmp_eq_sym c) in Ew. congruence.
    + rewrite !elem_of_cons, (IH Hl'). naive_solver.
Qed.

Lemma list_remove_ok l k :
  content_ok keyOf dom c l -> dom k -> content_ok keyOf dom c (SortedList.remove keyOf cmp l k).
Proof.
  intros Hl Hk. induction l as [|x l IH]; cbn [SortedList.remove]; [done|].
  pose proof Hl as (Hx & Hlt & Hl')%content_cons. rewrite cmp_is_0 by done.
  case_bool_decide as E; [done|]. apply content_cons. split_and!; [done| |by apply IH].
  apply Forall_forall. intros w [Hw _]%(list_remove_elem l k w); [|done..]. by eapply Forall_forall in Hlt.
Qed.

Lemma list_find_spec l k :
  content_ok keyOf dom c l -> dom k ->
  let '(before, on, after) := SortedList.find keyOf cmp l k in
  l = before ++ option_list on ++ after /\
  Forall (fun v => c (keyOf v) k = Lt) before /\ Forall (fun v => c (keyOf v) k = Eq) (option_list on) /\
  Forall (fun v => c (keyOf v) k = Gt) after.
Proof.
  intros Hl Hk. pose proof (proj1 Hord) as Hc. induction l as [|x l IH]; cbn [SortedList.find]; [by repeat constructor|].
  pose proof Hl as (Hx & Hlt & Hl')%content_cons. rewrite cmp_is_0, cmp_is_neg by done.
  case_bool_decide as E; [|case_bool_decide as E2].
  - split_and!; [done|constructor|by repeat constructor|]. eapply Forall_impl; [exact Hlt|]. intros w Hw. cbn in Hw.
    apply (cmp_lt_gt c). by rewrite <- (cmp_eq_l c _ _ (keyOf w) E).
  - specialize (IH Hl'). destruct (SortedList.find keyOf cmp l k) as [[before on] after].
    destruct IH as (-> & Hb & Ho & Ha). split_and!; [done|by constructor|done|done].
  - assert (Hgt : c (keyOf x) k = Gt) by (by destruct (c (keyOf x) k)).
    split_and!; [done|constructor|constructor|]. constructor; [done|]. eapply Forall_impl; [exact Hlt|].
    intros w Hw. cbn in Hw. apply (cmp_lt_gt c). apply (cmp_trans c _ _ (keyOf x)); [|done]. by apply (cmp_lt_gt c).
Qed.

(** Sorting by a comparator that is an order on the elements. *)
Lemma sort_ordered l :
  Forall (fun v => dom (keyOf v)) l ->
  StronglySorted (fun v w => c (keyOf v) (keyOf w) <> Gt) (js_sort (fun v w => cmp (keyOf v) (keyOf w)) l).
Proof.
  intros Hd. pose proof (proj1 Hord) as Hc. rewrite Forall_forall in Hd.
  set (zc := fun v w => match c (keyOf v) (keyOf w) with Eq => 0 | Lt => -1 | Gt => 1 end).
  assert (Hz : forall v w, sgn (zc v w) = c (keyOf v) (keyOf w)).
  { intros v w. unfold zc. by destruct (c (keyOf v) (keyOf w)). }
  assert (CmpLaws (fun v w => sgn (zc v w))).
  { pose proof (cmp_on_laws c keyOf) as [L1 L2 L3]. split; intros; rewrite ?Hz in *; eauto. }
  rewrite (js_sort_ext _ zc) by (intros v w Hv Hw; rewrite Hz; apply (proj2 Hord); auto).
  eapply StronglySorted_impl; [|apply (js_sort_sorted zc)]. intros v w. unfold cmp_le. by rewrite Hz.
Qed.

(** Sorting keys no two of which are equivalent gives a content. *)
Lemma sort_content l :
  Forall (fun v => dom (keyOf v)) l -> NoDup l -> (forall v w, v ∈ l -> w ∈ l -> c (keyOf v) (keyOf w) = Eq -> v = w) ->
  content_ok keyOf dom c (js_sort (fun v w => cmp (keyOf v) (keyOf w)) l).
Proof.
  intros Hd Hn Hinj. split; [by rewrite js_sort_perm|]. pose proof (sort_ordered l Hd) as Hs.
  assert (Hnd : NoDup (js_sort (fun v w => cmp (keyOf v) (keyOf w)) l)) by (by rewrite js_sort_perm).
  assert (Hsub : forall v, v ∈ js_sort (fun v w => cmp (keyOf v) (keyOf w)) l -> v ∈ l) by (intros v; by rewrite elem_of_js_sort).
  induction Hs as [|v k Hs IH Hv]; constructor.
  - apply IH; [by apply NoDup_cons in Hnd as [_ ?]|]. intros w Hw. apply Hsub. by right.
  - rewrite Forall_forall in Hv. apply Forall_forall. intros w Hw. specialize (Hv w Hw). cbn in Hv.
    destruct (c (keyOf v) (keyOf w)) eqn:E; try done. exfalso.
    apply NoDup_cons in Hnd as [Hnv _]. apply Hnv.
    rewrite (Hinj v w); [done|apply Hsub; left|apply Hsub; by right|done].
Qed.

End SortedListLaws.

#[export] Instance sorted_list_laws : BTreeLaws sorted_list.
Proof.
  split.
  - done.
  - intros V K keyOf dom cmp c t k v Ho Ht Hk. exact (list_get_spec keyOf dom cmp c Ho t k v Ht Hk).
  - intros V K keyOf dom cmp c t v Ho Ht Hv. split; [exact (list_upsert_ok keyOf dom cmp c Ho t v Ht Hv)|].
    intros w. exact (list_upsert_elem keyOf dom cmp c Ho t v w Ht Hv).
  - intros V K keyOf dom cmp c t k Ho Ht Hk. split; [exact (list_remove_ok keyOf dom cmp c Ho t k Ht Hk)|].
    intros w. exact (list_remove_elem keyOf dom cmp c Ho t k w Ht Hk).
  - intros V K keyOf dom cmp c t k Ho Ht Hk. exact (list_find_spec keyOf dom cmp c Ho t k Ht Hk).
Qed.

End BTree.
