(* ===== verification/VTab.v ===== *)
(** * Virtual tables: shared vocabulary

    The types every table module exchanges with the engine: table, index and
    UNIQUE constraint schemas ([packages/quereus/src/schema/table.ts],
    [schema/column.ts]), the arguments and result of [VirtualTable.update]
    ([vtab/table.ts], [common/types.ts], [common/constants.ts]), and the UNIQUE
    enforcement helpers the three backends share
    ([schema/unique-enforcement.ts]).

    A row is the list of its cells and has the width of its table; [cell] reads
    one.  A partial-index predicate is its compiled form ([CompiledPredicate] of
    [vtab/memory/utils/predicate.ts]).  A collation name is resolved by the
    registry of the database, an argument. *)

From S2P Require Import Prelude Bytes Utf8 Json Comparison.
From Stdlib Require Import ZArith Lia.
From stdpp Require Import sorting.
From stdpp Require Import base tactics numbers sets gmap list.
#[local] Open Scope Z_scope.

Import Utf8 Json Comparison.

Module VTab.

Inductive ConflictResolution : Type := ROLLBACK | ABORT | FAIL | IGNORE | REPLACE.

#[global] Instance ConflictResolution_eq_dec : EqDecision ConflictResolution.
Proof. solve_decision. Defined.

Inductive RowOp : Type := RInsert | RUpdate | RDelete.

Inductive ConstraintType : Type := CUnique | CCheck | CNotNull | CForeignKey.

Section Values.

Abbreviation value := SqlValue.
Abbreviation Row := (list value).

(** [row[i]]. *)
Definition cell (row : Row) (i : nat) : value := default VNull (row !! i).

Inductive UpdateResult : Type :=
| UOk (row : option Row) (replacedRow : option Row) (evictedRows : option (list Row))
| UConstraint (constraint : ConstraintType) (message : jsstring) (existingRow : option Row)
    (onConflict : ConflictResolution).

Definition isUpdateOk (r : UpdateResult) : bool := match r with UOk _ _ _ => true | _ => false end.

Definition isConstraintViolation (r : UpdateResult) : bool :=
  match r with UConstraint _ _ _ _ => true | _ => false end.

Record UpdateArgs := mkUpdateArgs {
  operation : RowOp;
  values : option Row;
  oldKeyValues : option Row;
  onConflict : option ConflictResolution;
  preCoerced : bool;
  trustedWrite : bool
}.

(** [true], [false] or [null]. *)
Record CompiledPredicate := mkPredicate {
  evaluate : Row -> option bool;
  referencedColumns : list nat
}.

Record ColumnSchema := mkColumn {
  c_name : jsstring;
  c_logicalType : LogicalType;
  c_collation : jsstring;
  c_defaultConflict : option ConflictResolution
}.

Record PrimaryKeyColumnDefinition := mkPkColumn {
  p_index : nat;
  p_desc : bool;
  p_collation : option jsstring
}.

Record IndexColumnSchema := mkIndexColumn {
  ic_index : nat;
  ic_desc : bool;
  ic_collation : option jsstring
}.

Record IndexSchema := mkIndex {
  ix_name : jsstring;
  ix_columns : list IndexColumnSchema;
  ix_predicate : option CompiledPredicate
}.

Record UniqueConstraintSchema := mkUnique {
  uc_name : option jsstring;
  uc_columns : list nat;
  uc_defaultConflict : option ConflictResolution;
  uc_predicate : option CompiledPredicate;
  uc_derivedFromIndex : option jsstring
}.

Record TableSchema := mkTable {
  t_name : jsstring;
  t_columns : list ColumnSchema;
  t_primaryKeyDefinition : list PrimaryKeyColumnDefinition;
  t_primaryKeyDefaultConflict : option ConflictResolution;
  t_indexes : list IndexSchema;
  t_uniqueConstraints : list UniqueConstraintSchema
}.

(** The first column-level action of a key column. *)
Fixpoint pk_column_default (columns : list ColumnSchema) (defs : list PrimaryKeyColumnDefinition)
    : option ConflictResolution :=
  match defs with
  | [] => None
  | def :: defs' =>
    match columns !! p_index def with
    | Some col =>
      match c_defaultConflict col with
      | Some a => Some a
      | None => pk_column_default columns defs'
      end
    | None => pk_column_default columns defs'
    end
  end.

Definition resolvePkDefaultConflict (schema : TableSchema) : option ConflictResolution :=
  match t_primaryKeyDefaultConflict schema with
  | Some a => Some a
  | None => pk_column_default (t_columns schema) (t_primaryKeyDefinition schema)
  end.

(** ** UNIQUE enforcement *)

Section Enforcement.
Context (resolver : jsstring -> CollationFunction).

Definition find_index (schema : TableSchema) (name : jsstring) : option IndexSchema :=
  list_find (fun ix => ix_name ix = name) (t_indexes schema) ≫= fun p => Some p.2.

Definition uniqueEnforcementCollations (schema : TableSchema) (uc : UniqueConstraintSchema)
    : list (option jsstring) :=
  let index := uc_derivedFromIndex uc ≫= find_index schema in
  imap (fun i col =>
    match index ≫= fun ix => ix_columns ix !! i ≫= ic_collation with
    | Some c => Some c
    | None => c_collation <$> t_columns schema !! col
    end) (uc_columns uc).

(** [resolveCollationFunctions]. *)
Definition resolve_collation (name : option jsstring) : CollationFunction :=
  match name with
  | Some n => if bool_decide (n = []) then BINARY_COLLATION else resolver n
  | None => BINARY_COLLATION
  end.

Definition resolveUniqueEnforcementCollations (schema : TableSchema) (uc : UniqueConstraintSchema)
    : list CollationFunction := map resolve_collation (uniqueEnforcementCollations schema uc).

Definition enforcement_comparator (columns : list ColumnSchema) (colIdx : nat) (collation : CollationFunction)
    : value -> value -> Z :=
  match hasSemanticOrdering (c_logicalType <$> columns !! colIdx) with
  | Some t => createTypedComparator t (Some collation)
  | None => fun a b => compareSqlValuesFast a b collation
  end.

Definition uniqueEnforcementComparators (columns : list ColumnSchema) (ucColumns : list nat)
    (collations : list CollationFunction) : list (value -> value -> Z) :=
  imap (fun i colIdx => enforcement_comparator columns colIdx (default BINARY_COLLATION (collations !! i)))
    ucColumns.

Definition anyColumnChanged (columns : list nat) (oldRow newRow : Row) : bool :=
  existsb (fun colIdx => negb (compareSqlValues (cell oldRow colIdx) (cell newRow colIdx) =? 0))
    columns.

(** [predicateColumns] is asked only for a constraint with a predicate. *)
Definition uniqueColumnsChanged (uniqueConstraints : list UniqueConstraintSchema) (oldRow newRow : Row)
    (predicateColumns : UniqueConstraintSchema -> option (list nat)) : bool :=
  existsb (fun uc =>
    anyColumnChanged (uc_columns uc) oldRow newRow ||
    match uc_predicate uc with
    | None => false
    | Some _ =>
      match predicateColumns uc with
      | Some referenced => anyColumnChanged referenced oldRow newRow
      | None => false
      end
    end) uniqueConstraints.

End Enforcement.
End Values.

Arguments UpdateResult : clear implicits.
Arguments UpdateArgs : clear implicits.
Arguments CompiledPredicate : clear implicits.
Arguments ColumnSchema : clear implicits.
Arguments IndexSchema : clear implicits.
Arguments UniqueConstraintSchema : clear implicits.
Arguments TableSchema : clear implicits.

End VTab.
