(* ===== verification/Types.v ===== *)
(** * Logical types

    Models the type system of the engine:
    [packages/quereus/src/types/logical-type.ts], [builtin-types.ts],
    [json-type.ts], [representation.ts], [validation.ts], [cast-semantics.ts],
    [comparison-coercion.ts] and [registry.ts], with the conversions they use:
    [util/numeric-canonical.ts], [util/value-text.ts] and [util/coercion.ts].

    A type is compared by object identity where the code does; [t_id] stands
    for the object.  The temporal types (built on the Temporal polyfill) and
    [String.prototype.toLowerCase] / [toUpperCase] (Unicode tables) are
    arguments of the definitions that use them. *)

From S2P Require Import Prelude Bytes Double Decimal NumberText Utf8 Json Comparison VTab.
From Stdlib Require Import ZArith Lia.
From stdpp Require Import sorting.
From stdpp Require Import base tactics numbers sets gmap list.
#[local] Open Scope Z_scope.

Import Utf8 Json Comparison VTab.

Module Types.

Abbreviation value := SqlValue.
Abbreviation Row := (list SqlValue).

(** ** Text search *)

Fixpoint starts_with (p s : jsstring) : bool :=
  match p, s with
  | [], _ => true
  | a :: p', b :: s' => (a =? b) && starts_with p' s'
  | _, [] => false
  end.

(** [s.includes(p)]. *)
Fixpoint includes (s p : jsstring) : bool :=
  starts_with p s || match s with [] => false | _ :: s' => includes s' p end.

(** ** Numbers in canonical form *)

Definition MAX_SAFE_INTEGER : Z := 9007199254740991.

Definition safe (n : Z) : bool := (- MAX_SAFE_INTEGER <=? n) && (n <=? MAX_SAFE_INTEGER).

(** [Number.isSafeInteger(d)]. *)
Definition isSafeInteger (d : double) : bool :=
  match BigInt_of_double d with
  | Some n => safe n
  | None => false
  end.

(** [Number(n)] of a bigint. *)
Definition Number_of_BigInt (n : Z) : double := signed (n <? 0) (round_ratio (Z.abs n) 1).

(** [Math.trunc(d)]: the sign is kept, also on a zero. *)
Definition Math_trunc (d : double) : double :=
  match num_of_double d with
  | NFin u => if u mod UNIT =? 0 then d else signed (dneg d) (double_of_Z (Z.abs u / UNIT))
  | _ => d
  end.

(** The [number | bigint] values; any other value is returned as it is. *)
Definition canonicalizeInteger (v : value) : value :=
  match v with
  | VBigint n => if safe n then VNumber (Number_of_BigInt n) else v
  | VNumber d =>
    if negb (isSafeInteger d) && is_integer d then
      match BigInt_of_double d with Some n => VBigint n | None => v end
    else v
  | _ => v
  end.

Definition integerFromDigits (digits : jsstring) : res value :=
  let parsed := Number_of_string digits in
  if isSafeInteger parsed then Ok (VNumber parsed)
  else
    match BigInt_of_string (if decide (head digits = Some 43) then tail digits else digits) with
    | Some n => Ok (canonicalizeInteger (VBigint n))
    | None => Throw ESyntax
    end.

Definition canonicalizeSqlValue (v : value) : value :=
  match v with
  | VBigint _ => canonicalizeInteger v
  | _ => v
  end.

Definition isCanonicalNumeric (v : value) : bool :=
  match v with
  | VBigint n => (MAX_SAFE_INTEGER <? n) || (n <? - MAX_SAFE_INTEGER)
  | _ => true
  end.

(** ** Values as text *)

(** A decoder that keeps a byte order mark. *)
Definition decodeUtf8 (b : bytes) : jsstring := concat (map units_of (d_run idle b)).

(** [None] is [null]. *)
Definition valueToText (v : value) : option jsstring :=
  match v with
  | VNull => None
  | VText s => Some s
  | VNumber d => Some (number_to_string d)
  | VBigint n => Some (dec n)
  | VBool b => Some (if b then js "true" else js "false")
  | VBlob b => Some (decodeUtf8 b)
  | VObject o => Some (stringify o)
  end.

(** ** Text as a number *)

(** The match of [/^[+-]?\d+/]. *)
Definition integer_prefix (s : jsstring) : option jsstring :=
  let sign := match s with
              | c :: _ => if (c =? 43) || (c =? 45) then [c] else []
              | [] => []
              end in
  match (span_digits (drop (length sign) s)).1 with
  | [] => None
  | ds => Some (sign ++ ds)
  end.

(** [/^[+-]?\d+$/.test(s)]. *)
Definition is_integer_text (s : jsstring) : bool := bool_decide (integer_prefix s = Some s).

(** [Math.abs(d) > Number.MAX_SAFE_INTEGER]. *)
Definition beyond_safe (d : double) : bool :=
  match num_of_double d with
  | NNan => false
  | NFin u => MAX_SAFE_INTEGER * UNIT <? Z.abs u
  | _ => true
  end.

Definition parseNumericText (text : jsstring) : res value :=
  let trimmed := trim text in
  let approx := Number_of_string trimmed in
  if negb (beyond_safe approx) then Ok (VNumber approx)
  else if is_integer_text trimmed then integerFromDigits trimmed
  else Ok (VNumber approx).

Definition tryCoerceToNumber (v : value) : res value :=
  match v with
  | VText s =>
    if decide (trim s = []) then Ok v
    else
      let* parsed := parseNumericText s in
      match parsed with
      | VBigint _ => Ok parsed
      | VNumber d => Ok (if is_finite d then parsed else v)
      | _ => Ok v
      end
  | _ => Ok v
  end.

Definition coerceToNumberForArithmetic (v : value) : res value :=
  match v with
  | VNumber _ | VBigint _ => Ok v
  | VBool b => Ok (VNumber (double_of_Z (if b then 1 else 0)))
  | VText s =>
    let* parsed := parseNumericText s in
    match parsed with
    | VNumber d => Ok (VNumber (if is_nan d then 0 else d))
    | _ => Ok parsed
    end
  | _ => Ok (VNumber 0)
  end.

Definition is_numeric_class (v : value) : bool :=
  match v with
  | VNumber _ | VBigint _ | VBool _ => true
  | _ => false
  end.

Definition is_text (v : value) : bool :=
  match v with
  | VText _ => true
  | _ => false
  end.

Definition coerceForComparison (v1 v2 : value) : res (value * value) :=
  if is_null v1 || is_null v2 then Ok (v1, v2)
  else if is_numeric_class v1 && is_text v2 then let* coercedV2 := tryCoerceToNumber v2 in Ok (v1, coercedV2)
  else if is_text v1 && is_numeric_class v2 then let* coercedV1 := tryCoerceToNumber v1 in Ok (coercedV1, v2)
  else Ok (v1, v2).

Definition NON_NUMERIC_AGGREGATES : list jsstring := [js "COUNT"; js "GROUP_CONCAT"; js "MIN"; js "MAX"].

Definition aggregateCoercesArguments (toUpperCase : jsstring -> jsstring) (functionName : jsstring) : bool :=
  let upperName := toUpperCase functionName in
  negb (bool_decide (upperName ∈ NON_NUMERIC_AGGREGATES)) && negb (starts_with (js "JSON_") upperName).

Definition coerceAggregateValue (v : value) : res value := tryCoerceToNumber v.

Definition coerceForAggregate (toUpperCase : jsstring -> jsstring) (v : value) (functionName : jsstring) : res value :=
  if aggregateCoercesArguments toUpperCase functionName then coerceAggregateValue v else Ok v.

(** A string coerces when it comes back as a number. *)
Definition isNumericValue (v : value) : res bool :=
  match v with
  | VNull => Ok false
  | VNumber _ | VBigint _ | VBool _ => Ok true
  | VText _ => let* coerced := tryCoerceToNumber v in Ok (negb (is_text coerced))
  | _ => Ok false
  end.

(** ** The built-in types *)

Definition compareNulls (a b : value) : option Z :=
  if is_null a then Some (if is_null b then 0 else -1)
  else if is_null b then Some 1
  else None.

(** [a < b ? -1 : a > b ? 1 : 0] on values of the numeric class. *)
Definition compareNumericValues (a b : value) : Z := compareNumbers (numeric_of a) (numeric_of b).

Definition is_nan_value (v : value) : bool :=
  match v with
  | VNumber d => is_nan d
  | _ => false
  end.

Definition compareNumericWithNaN (a b : value) : Z :=
  match compareNulls a b with
  | Some c => c
  | None =>
    if is_nan_value a then (if is_nan_value b then 0 else -1)
    else if is_nan_value b then 1
    else compareNumericValues a b
  end.

Definition NULL_TYPE : LogicalType := {|
  t_id := 0; t_typeName := js "NULL"; t_physicalType := PNull;
  t_validate := Some is_null; t_parse := None; t_normalizeComparand := None;
  t_compare := Some (fun a b _ => default 0 (compareNulls a b));
  t_collationAware := false; t_semanticOrdering := false; t_groupKey := None;
  t_isNumeric := false; t_isTextual := false; t_isTemporal := false
|}.

Definition INTEGER_validate (v : value) : bool :=
  match v with
  | VNull | VBigint _ => true
  | VNumber d => is_integer d && isSafeInteger d
  | _ => false
  end.

Definition INTEGER_parse (v : value) : res value :=
  match v with
  | VNull => Ok VNull
  | VBigint _ => Ok (canonicalizeInteger v)
  | VNumber d => Ok (canonicalizeInteger (VNumber (Math_trunc d)))
  | VBool b => Ok (VNumber (double_of_Z (if b then 1 else 0)))
  | VText s =>
    let trimmed := trim s in
    if decide (trimmed = []) then Ok VNull
    else
      match integer_prefix trimmed with
      | None => Throw EType
      | Some m => integerFromDigits m
      end
  | _ => Throw EType
  end.

Definition INTEGER_TYPE : LogicalType := {|
  t_id := 1; t_typeName := js "INTEGER"; t_physicalType := PInteger;
  t_validate := Some INTEGER_validate; t_parse := Some INTEGER_parse; t_normalizeComparand := None;
  t_compare := Some (fun a b _ => match compareNulls a b with Some c => c | None => compareNumericValues a b end);
  t_collationAware := false; t_semanticOrdering := false; t_groupKey := None;
  t_isNumeric := true; t_isTextual := false; t_isTemporal := false
|}.

Definition REAL_validate (v : value) : bool :=
  match v with
  | VNull | VNumber _ => true
  | _ => false
  end.

Definition REAL_parse (v : value) : res value :=
  match v with
  | VNull => Ok VNull
  | VNumber _ => Ok v
  | VBigint n => Ok (VNumber (Number_of_BigInt n))
  | VBool b => Ok (VNumber (double_of_Z (if b then 1 else 0)))
  | VText s =>
    let trimmed := trim s in
    if decide (trimmed = []) then Ok VNull
    else
      let parsed := parseFloat trimmed in
      if is_nan parsed then Throw EType else Ok (VNumber parsed)
  | _ => Throw EType
  end.

Definition REAL_TYPE : LogicalType := {|
  t_id := 2; t_typeName := js "REAL"; t_physicalType := PReal;
  t_validate := Some REAL_validate; t_parse := Some REAL_parse; t_normalizeComparand := None;
  t_compare := Some (fun a b _ => compareNumericWithNaN a b);
  t_collationAware := false; t_semanticOrdering := false; t_groupKey := None;
  t_isNumeric := true; t_isTextual := false; t_isTemporal := false
|}.

Definition TEXT_validate (v : value) : bool :=
  match v with
  | VNull | VText _ => true
  | _ => false
  end.

Definition text_value (t : option jsstring) : value :=
  match t with
  | Some s => VText s
  | None => VNull
  end.

Definition TEXT_parse (v : value) : res value := Ok (text_value (valueToText v)).

Definition TEXT_TYPE : LogicalType := {|
  t_id := 3; t_typeName := js "TEXT"; t_physicalType := PText;
  t_validate := Some TEXT_validate; t_parse := Some TEXT_parse; t_normalizeComparand := None;
  t_compare := Some (fun a b collation =>
    match compareNulls a b with
    | Some c => c
    | None => default BINARY_COLLATION collation (text_part a) (text_part b)
    end);
  t_collationAware := true; t_semanticOrdering := false; t_groupKey := None;
  t_isNumeric := false; t_isTextual := true; t_isTemporal := false
|}.

Definition BLOB_validate (v : value) : bool :=
  match v with
  | VNull | VBlob _ => true
  | _ => false
  end.

Definition encode_text (t : option jsstring) : value :=
  match t with
  | Some s => VBlob (utf8_encode s)
  | None => VNull
  end.

Definition BLOB_parse (v : value) : res value :=
  match v with
  | VNull => Ok VNull
  | VBlob _ => Ok v
  | VText s => Ok (VBlob (utf8_encode s))
  | VNumber _ | VBigint _ | VBool _ => Ok (encode_text (valueToText v))
  | VObject _ => Throw EType
  end.

Definition BLOB_TYPE : LogicalType := {|
  t_id := 4; t_typeName := js "BLOB"; t_physicalType := PBlob;
  t_validate := Some BLOB_validate; t_parse := Some BLOB_parse; t_normalizeComparand := None;
  t_compare := Some (fun a b _ =>
    match compareNulls a b with Some c => c | None => compareBlobs (blob_part a) (blob_part b) end);
  t_collationAware := false; t_semanticOrdering := false; t_groupKey := None;
  t_isNumeric := false; t_isTextual := false; t_isTemporal := false
|}.

Definition BOOLEAN_validate (v : value) : bool :=
  match v with
  | VNull | VBool _ => true
  | _ => false
  end.

(** [v !== 0]: NaN differs from 0, and [-0] does not. *)
Definition nonzero (d : double) : bool := negb (dmag d =? 0).

Definition BOOLEAN_parse (toLowerCase : jsstring -> jsstring) (v : value) : res value :=
  match v with
  | VNull => Ok VNull
  | VBool _ => Ok v
  | VNumber d => Ok (VBool (nonzero d))
  | VBigint n => Ok (VBool (negb (n =? 0)))
  | VText s =>
    let lower := trim (toLowerCase s) in
    if bool_decide (lower ∈ [js "true"; js "1"; js "yes"; js "on"]) then Ok (VBool true)
    else if bool_decide (lower ∈ [js "false"; js "0"; js "no"; js "off"]) then Ok (VBool false)
    else Throw EType
  | _ => Throw EType
  end.

Definition BOOLEAN_TYPE (toLowerCase : jsstring -> jsstring) : LogicalType := {|
  t_id := 5; t_typeName := js "BOOLEAN"; t_physicalType := PBoolean;
  t_validate := Some BOOLEAN_validate; t_parse := Some (BOOLEAN_parse toLowerCase); t_normalizeComparand := None;
  t_compare := Some (fun a b _ =>
    match compareNulls a b with
    | Some c => c
    | None =>
      match a, b with
      | VBool x, VBool y => if Bool.eqb x y then 0 else if x then 1 else -1
      | _, _ => compareSqlValuesFast a b BINARY_COLLATION
      end
    end);
  t_collationAware := false; t_semanticOrdering := false; t_groupKey := None;
  t_isNumeric := false; t_isTextual := false; t_isTemporal := false
|}.

Definition NUMERIC_validate (v : value) : bool :=
  match v with
  | VNull | VNumber _ | VBigint _ => true
  | _ => false
  end.

Definition NUMERIC_parse (v : value) : res value :=
  match v with
  | VNull => Ok VNull
  | VNumber _ => Ok v
  | VBigint _ => Ok (canonicalizeInteger v)
  | VBool b => Ok (VNumber (double_of_Z (if b then 1 else 0)))
  | VText s =>
    let trimmed := trim s in
    if decide (trimmed = []) then Ok VNull
    else if is_integer_text trimmed then integerFromDigits trimmed
    else
      let parsed := parseFloat trimmed in
      if is_nan parsed then Throw EType else Ok (VNumber parsed)
  | _ => Throw EType
  end.

Definition NUMERIC_TYPE : LogicalType := {|
  t_id := 6; t_typeName := js "NUMERIC"; t_physicalType := PReal;
  t_validate := Some NUMERIC_validate; t_parse := Some NUMERIC_parse; t_normalizeComparand := None;
  t_compare := Some (fun a b _ => compareNumericWithNaN a b);
  t_collationAware := false; t_semanticOrdering := false; t_groupKey := None;
  t_isNumeric := true; t_isTextual := false; t_isTemporal := false
|}.

Definition ANY_TYPE : LogicalType := {|
  t_id := 7; t_typeName := js "ANY"; t_physicalType := PNull;
  t_validate := Some (fun _ => true); t_parse := Some (fun v => Ok v); t_normalizeComparand := None;
  t_compare := Some (fun a b collation => compareSqlValuesFast a b (default BINARY_COLLATION collation));
  t_collationAware := true; t_semanticOrdering := false; t_groupKey := None;
  t_isNumeric := false; t_isTextual := false; t_isTemporal := false
|}.

Definition isNumericOrUnknownType (type : LogicalType) : bool :=
  t_isNumeric type || (t_id type =? t_id ANY_TYPE)%nat || (t_id type =? t_id NULL_TYPE)%nat.

Definition isSeekKeySpaceNumeric (type : LogicalType) : bool :=
  (t_id type =? t_id INTEGER_TYPE)%nat || (t_id type =? t_id REAL_TYPE)%nat || (t_id type =? t_id NUMERIC_TYPE)%nat.

Definition sharesSeekKeySpace (a b : LogicalType) : bool :=
  bool_decide (t_typeName a = t_typeName b) || isSeekKeySpaceNumeric a && isSeekKeySpaceNumeric b.

(** ** JSON *)

Definition jsonTypeOrder (v : JSONValue) : Z :=
  match v with
  | JNull => 0
  | JBool _ => 1
  | JNumber _ => 2
  | JString _ => 3
  | JArray _ => 4
  | JObject _ => 5
  end.

Definition sort_keys (o : fields) : list jsstring := js_sort compareCodePoints o.*1.

(** The comparison of the sorted names of two objects. *)
Fixpoint compare_keys (a b : list jsstring) : Z :=
  match a, b with
  | [], [] => 0
  | [], _ :: _ => -1
  | _ :: _, [] => 1
  | x :: a', y :: b' => let c := compareCodePoints x y in if negb (c =? 0) then c else compare_keys a' b'
  end.

(** The comparison of two arrays, given the comparison with each element of
    the first. *)
Fixpoint compare_elements (cs : list (JSONValue -> Z)) (b : list JSONValue) : Z :=
  match cs, b with
  | [], [] => 0
  | [], _ :: _ => -1
  | _ :: _, [] => 1
  | c :: cs', y :: b' => let r := c y in if negb (r =? 0) then r else compare_elements cs' b'
  end.

(** The members of two objects with the same names, in the order of [keys]. *)
Fixpoint compare_members (keys : list jsstring) (cs : list (jsstring * (JSONValue -> Z))) (b : fields) : Z :=
  match keys with
  | [] => 0
  | k :: keys' =>
    let r := match alist_get k cs, alist_get k b with
             | Some c, Some y => c y
             | _, _ => 0
             end in
    if negb (r =? 0) then r else compare_members keys' cs b
  end.

(** The test [a === b] that opens the function only saves work
    ([deepCompareJson_refl]). *)
Fixpoint deepCompareJson (a b : JSONValue) : Z :=
  if negb (jsonTypeOrder a =? jsonTypeOrder b) then (if jsonTypeOrder a <? jsonTypeOrder b then -1 else 1)
  else
    match a, b with
    | JString s, JString t => compareCodePoints s t
    | JBool x, JBool y =>
      compareNumbers (num_of_bigint (if x then 1 else 0)) (num_of_bigint (if y then 1 else 0))
    | JNumber x, JNumber y => compareNumbers (num_of_double x) (num_of_double y)
    | JArray l, JArray l' => compare_elements (map deepCompareJson l) l'
    | JObject o, JObject o' =>
      let c := compare_keys (sort_keys o) (sort_keys o') in
      if negb (c =? 0) then c
      else compare_members (sort_keys o) (map (fun kv => (kv.1, deepCompareJson kv.2)) o) o'
    | _, _ => 0
    end.

(** The JSON value a SQL value is; blobs and bigints are none. *)
Definition json_of_sql (v : value) : option JSONValue :=
  match v with
  | VNull => Some JNull
  | VBool b => Some (JBool b)
  | VNumber d => Some (JNumber d)
  | VText s => Some (JString s)
  | VObject o => Some o
  | _ => None
  end.

Definition JSON_validate (v : value) : bool :=
  match v with
  | VNull | VObject _ | VNumber _ | VBool _ | VText _ => true
  | _ => false
  end.

Definition safeJsonParse (s : jsstring) : JSONValue := default JNull (JSON_parse s).

Definition JSON_type_parse (v : value) : res value :=
  match v with
  | VNull => Ok VNull
  | VObject _ | VNumber _ | VBool _ => Ok v
  | VText s =>
    let parsed := safeJsonParse s in
    if bool_decide (parsed = JNull) && negb (bool_decide (s = js "null")) then Throw EType
    else Ok (sql_of_json parsed)
  | VBigint n => Ok (VNumber (Number_of_BigInt n))
  | VBlob _ => Throw EType
  end.

(** [JSON.stringify] throws a TypeError on a bigint and writes a typed array
    as the object of its indices. *)
Definition JSON_serialize (v : value) : res value :=
  match v with
  | VNull => Ok VNull
  | VBigint _ => Throw EType
  | VBlob b => Ok (VText (stringify (JObject (imap (fun i x => (dec (Z.of_nat i), JNumber (double_of_Z x))) b))))
  | _ => match json_of_sql v with Some j => Ok (VText (stringify j)) | None => Throw EType end
  end.

Definition JSON_deserialize (v : value) : res value :=
  match v with
  | VText s => match JSON_parse s with Some j => Ok (sql_of_json j) | None => Throw ESyntax end
  | _ => Ok v
  end.

Definition JSON_compare (a b : value) (collation : option CollationFunction) : Z :=
  match compareNulls a b with
  | Some c => c
  | None =>
    match a, b with
    | VText s, VText t => match collation with Some coll => coll s t | None => compareCodePoints s t end
    | _, _ =>
      match json_of_sql a, json_of_sql b with
      | Some x, Some y => deepCompareJson x y
      | _, _ => 0
      end
    end
  end.

Definition JSON_TYPE : LogicalType := {|
  t_id := 8; t_typeName := js "JSON"; t_physicalType := PObject;
  t_validate := Some JSON_validate; t_parse := Some JSON_type_parse; t_normalizeComparand := None;
  t_compare := Some JSON_compare;
  t_collationAware := false; t_semanticOrdering := true; t_groupKey := None;
  t_isNumeric := false; t_isTextual := false; t_isTemporal := false
|}.

(** ** Representation *)

Definition getPhysicalType (v : value) : PhysicalType :=
  match v with
  | VNull => PNull
  | VNumber d => if is_integer d then PInteger else PReal
  | VBigint _ => PInteger
  | VText _ => PText
  | VBool _ => PBoolean
  | VBlob _ => PBlob
  | VObject _ => PObject
  end.

Definition INTEGER_CONFORMS (v : value) : bool :=
  match v with
  | VBigint _ => true
  | VNumber d => isSafeInteger d
  | _ => false
  end.

Definition REAL_CONFORMS (v : value) : bool := match v with VNumber _ => true | _ => false end.
Definition NUMERIC_CONFORMS (v : value) : bool := match v with VNumber _ | VBigint _ => true | _ => false end.
Definition TEXT_CONFORMS (v : value) : bool := match v with VText _ => true | _ => false end.
Definition BLOB_CONFORMS (v : value) : bool := match v with VBlob _ => true | _ => false end.
Definition BOOLEAN_CONFORMS (v : value) : bool := match v with VBool _ => true | _ => false end.

Definition OBJECT_CONFORMS (v : value) : bool :=
  match v with
  | VObject _ | VText _ | VNumber _ | VBool _ => true
  | _ => false
  end.

Definition buildConformanceCheck (type : LogicalType) : option (value -> bool) :=
  match t_physicalType type with
  | PInteger => Some INTEGER_CONFORMS
  | PReal => Some (if decide (t_typeName type = js "NUMERIC") then NUMERIC_CONFORMS else REAL_CONFORMS)
  | PText => Some TEXT_CONFORMS
  | PBlob => Some BLOB_CONFORMS
  | PBoolean => Some BOOLEAN_CONFORMS
  | PObject => Some OBJECT_CONFORMS
  | PNull => None
  end.

Definition conformsToType (v : value) (type : LogicalType) : bool :=
  match buildConformanceCheck type with
  | None => true
  | Some check => check v
  end.

(** ** Validation and conversion at the write boundary *)

Definition validateValue (v : value) (type : LogicalType) : res value :=
  if is_null v then Ok VNull
  else
    match t_validate type with
    | Some validate => if negb (validate v) then Throw EMismatch else Ok v
    | None => Ok v
    end.

Definition parseValue (v : value) (type : LogicalType) : res value :=
  if is_null v then Ok VNull
  else
    match t_parse type with
    | Some parse =>
      match parse v with
      | Ok w => Ok w
      | Throw _ => Throw EMismatch
      end
    | None => Ok v
    end.

Definition validateAndParse (v : value) (type : LogicalType) : res value :=
  let* parsed := parseValue v type in
  validateValue parsed type.

Definition coerceRowToSchema (row : Row) (columns : list ColumnSchema) : res Row :=
  if (length columns <? length row)%nat then Throw EStatement
  else res_map (fun vc => validateAndParse vc.1 (c_logicalType vc.2)) (zip row columns).

Definition same_type (a : option LogicalType) (b : LogicalType) : bool :=
  match a with
  | Some t => (t_id t =? t_id b)%nat
  | None => false
  end.

Definition buildCellCoercion (sourceType : option LogicalType) (target : LogicalType)
    : option (value -> res value) :=
  if negb (same_type sourceType target) then Some (fun v => validateAndParse v target)
  else
    match buildConformanceCheck target with
    | None => None
    | Some conforms => Some (fun v => if is_null v || conforms v then Ok v else validateAndParse v target)
    end.

(** The converters of the columns that need one, with their positions. *)
Fixpoint cell_converters (i : nat) (sourceTypes : list (option LogicalType)) (columns : list ColumnSchema)
    : list (nat * (value -> res value)) :=
  match columns with
  | [] => []
  | c :: columns' =>
    match buildCellCoercion (mjoin (head sourceTypes)) (c_logicalType c) with
    | Some convert => [(i, convert)]
    | None => []
    end ++ cell_converters (S i) (tail sourceTypes) columns'
  end.

(** The copy of the row is made when a cell first changes; the row returned
    has the same cells either way. *)
Fixpoint convert_cells (converters : list (nat * (value -> res value))) (row : Row) : res Row :=
  match converters with
  | [] => Ok row
  | (i, convert) :: converters' =>
    match row !! i with
    | None => Ok row
    | Some original =>
      let* converted := convert original in
      convert_cells converters' (<[i := converted]> row)
    end
  end.

Definition buildRowCoercion (sourceTypes : list (option LogicalType)) (columns : list ColumnSchema)
    : option (Row -> res Row) :=
  match cell_converters 0 sourceTypes columns with
  | [] => None
  | converters => Some (convert_cells converters)
  end.

Definition isValidForType (v : value) (type : LogicalType) : bool :=
  if is_null v then true
  else match t_validate type with None => true | Some validate => validate v end.

Definition tryParse (v : value) (type : LogicalType) : value :=
  match parseValue v type with
  | Ok w => w
  | Throw _ => VNull
  end.

(** ** CAST *)

Definition castFallback (v : value) (type : LogicalType) : value :=
  if decide (t_typeName type = js "INTEGER") then VNumber 0
  else if decide (t_typeName type = js "REAL") then VNumber 0
  else if decide (t_typeName type = js "NUMERIC") then VNumber 0
  else if decide (t_typeName type = js "TEXT") then text_value (valueToText v)
  else if decide (t_typeName type = js "BLOB") then encode_text (valueToText v)
  else
    match t_validate type with
    | Some validate => if validate v then v else VNull
    | None => VNull
    end.

Definition lenientCast (v : value) (type : LogicalType) : value :=
  if is_null v then VNull
  else
    match t_parse type with
    | None => v
    | Some parse =>
      match parse v with
      | Ok w => w
      | Throw _ => castFallback v type
      end
    end.

(** One comparison site: the memo holds the last text it converted. *)
Record Memo := mkMemo { lastInput : option jsstring; lastOutput : value }.

Definition noMemo : Memo := mkMemo None VNull.

Definition comparandConverter (type : LogicalType) (memo : Memo) (v : value) : value * Memo :=
  match t_normalizeComparand type with
  | None => (lenientCast v type, memo)
  | Some normalize =>
    match v with
    | VText s =>
      let memo := if decide (lastInput memo = Some s) then memo else mkMemo (Some s) (normalize v) in
      (lastOutput memo, memo)
    | _ => (normalize v, memo)
    end
  end.

Definition castConverter (type : LogicalType) (synthetic : bool) (memo : Memo) (v : value) : value * Memo :=
  if synthetic then comparandConverter type memo v else (lenientCast v type, memo).

Definition castCanYieldNull (type : LogicalType) : bool :=
  negb (t_id type =? t_id TEXT_TYPE)%nat && negb (t_id type =? t_id BLOB_TYPE)%nat.

(** Where the collation of a type comes from: a [COLLATE] expression, a column
    declared with one, or a default. *)
Inductive CollationSource : Type := SrcExplicit | SrcDeclared | SrcDefault.

(** The static type of a scalar expression. *)
Record ScalarType := mkScalar {
  s_logicalType : LogicalType;
  s_nullable : bool;
  s_isReadOnly : option bool;
  s_collationName : option jsstring;
  s_collationSource : option CollationSource
}.

Definition castedScalarType (operandType : ScalarType) (target : LogicalType) : ScalarType := {|
  s_logicalType := target;
  s_nullable := s_nullable operandType
    || negb (t_id target =? t_id (s_logicalType operandType))%nat && castCanYieldNull target;
  s_isReadOnly := s_isReadOnly operandType;
  s_collationName := if t_isTextual target then s_collationName operandType else None;
  s_collationSource := if t_isTextual target then s_collationSource operandType else None
|}.

(** ** Comparison operands *)

(** The positions a function compares: all of them, or those declared that the
    call has. *)
Definition comparisonGroupIndices (comparesArgs : option (list Z)) (argCount : nat) : list Z :=
  match comparesArgs with
  | None => map Z.of_nat (seq 0 argCount)
  | Some positions => List.filter (fun i => (0 <=? i) && (i <? Z.of_nat argCount)) positions
  end.

Inductive Side : Type := Left_ | Right_.

Definition isObject (type : LogicalType) : bool :=
  match t_physicalType type with
  | PObject => true
  | _ => false
  end.

Definition normalizes (type : LogicalType) : bool := bool_decide (is_Some (t_normalizeComparand type)).

Definition isComparandSource (type : LogicalType) : bool :=
  t_isTextual type || bool_decide (t_typeName type = t_typeName ANY_TYPE).

Definition is_null_type (type : LogicalType) : bool := (t_id type =? t_id NULL_TYPE)%nat.

Definition textCoercionTarget (numeric : LogicalType) : LogicalType :=
  if decide (t_typeName numeric = t_typeName INTEGER_TYPE) then NUMERIC_TYPE else numeric.

Definition crossTypeCoercion (left right : LogicalType) : option (Side * LogicalType) :=
  if negb (Bool.eqb (isObject left) (isObject right)) then
    if isObject left && negb (is_null_type right) then Some (Right_, left)
    else if isObject right && negb (is_null_type left) then Some (Left_, right)
    else None
  else if normalizes left && isComparandSource right then Some (Right_, left)
  else if normalizes right && isComparandSource left then Some (Left_, right)
  else if t_isNumeric left && t_isTextual right then Some (Right_, textCoercionTarget left)
  else if t_isNumeric right && t_isTextual left then Some (Left_, textCoercionTarget right)
  else None.

Definition commonNumericType (first : LogicalType) (rest : list LogicalType) : LogicalType :=
  if forallb (fun t => (t_id t =? t_id first)%nat) rest then textCoercionTarget first else NUMERIC_TYPE.

Definition valueTarget (probeType v : LogicalType) : option LogicalType :=
  match crossTypeCoercion probeType v with
  | Some (Right_, target) => Some target
  | _ => None
  end.

Definition comparisonGroupCoercions (logicals : list LogicalType) : list (option LogicalType) :=
  let none := map (fun _ => None) logicals in
  match logicals with
  | [] | [_] => none
  | probe :: vals =>
    let objectValue := head (filter (fun t => isObject t = true) vals) in
    match (if isObject probe then Some probe else objectValue) with
    | Some effectiveProbe =>
      (if isObject probe then None else Some effectiveProbe) :: map (valueTarget effectiveProbe) vals
    | None =>
      if t_isNumeric probe || normalizes probe then None :: map (valueTarget probe) vals
      else
        match filter (fun t => is_null_type t = false) vals with
        | [] => none
        | first :: rest =>
          if normalizes first && isComparandSource probe && forallb (fun t => (t_id t =? t_id first)%nat) rest
          then Some first :: map (fun _ => None) vals
          else if t_isTextual probe && forallb t_isNumeric (first :: rest)
          then Some (commonNumericType first rest) :: map (fun _ => None) vals
          else none
        end
    end
  end.

(** ** The registry *)

Section Registry.
Context (toUpperCase toLowerCase : jsstring -> jsstring)
  (DATE_TYPE TIME_TYPE DATETIME_TYPE TIMESTAMP_TYPE TIMESPAN_TYPE : LogicalType).

Abbreviation registry := (list (jsstring * LogicalType)).

Definition registerType (types : registry) (type : LogicalType) : registry :=
  alist_set (toUpperCase (t_typeName type)) type types.

Definition alias (types : registry) (entry : jsstring * LogicalType) : registry := alist_set entry.1 entry.2 types.

Definition typeRegistry : registry :=
  foldl alias
    (foldl registerType []
      [NULL_TYPE; INTEGER_TYPE; REAL_TYPE; TEXT_TYPE; BLOB_TYPE; BOOLEAN_TYPE toLowerCase; NUMERIC_TYPE; ANY_TYPE;
       DATE_TYPE; TIME_TYPE; DATETIME_TYPE; TIMESTAMP_TYPE; TIMESPAN_TYPE; JSON_TYPE])
    [(js "INTERVAL", TIMESPAN_TYPE); (js "DURATION", TIMESPAN_TYPE);
     (js "INT", INTEGER_TYPE); (js "BIGINT", INTEGER_TYPE); (js "SMALLINT", INTEGER_TYPE);
     (js "TINYINT", INTEGER_TYPE); (js "MEDIUMINT", INTEGER_TYPE);
     (js "FLOAT", REAL_TYPE); (js "DOUBLE", REAL_TYPE); (js "DECIMAL", NUMERIC_TYPE);
     (js "VARCHAR", TEXT_TYPE); (js "CHAR", TEXT_TYPE); (js "CHARACTER", TEXT_TYPE); (js "CLOB", TEXT_TYPE);
     (js "STRING", TEXT_TYPE); (js "BOOL", BOOLEAN_TYPE toLowerCase);
     (js "BYTES", BLOB_TYPE); (js "BINARY", BLOB_TYPE); (js "VARBINARY", BLOB_TYPE)].

Definition getType (types : registry) (name : jsstring) : option LogicalType :=
  alist_get (toUpperCase name) types.

(** [undefined] and the empty name default too. *)
Definition getTypeOrDefault (types : registry) (name : option jsstring) : LogicalType :=
  match name with
  | None | Some [] => BLOB_TYPE
  | Some name => default BLOB_TYPE (getType types name)
  end.

Definition hasType (types : registry) (name : jsstring) : bool := bool_decide (is_Some (getType types name)).

Definition getTypeNames (types : registry) : list jsstring := types.*1.

Definition inferType (types : registry) (typeName : option jsstring) : LogicalType :=
  match typeName with
  | None | Some [] => BLOB_TYPE
  | Some typeName =>
    let upperName := toUpperCase typeName in
    match alist_get upperName types with
    | Some exactMatch => exactMatch
    | None =>
      if includes upperName (js "INT") then INTEGER_TYPE
      else if includes upperName (js "CHAR") || includes upperName (js "CLOB") || includes upperName (js "TEXT")
      then TEXT_TYPE
      else if includes upperName (js "BLOB") then BLOB_TYPE
      else if includes upperName (js "REAL") || includes upperName (js "FLOA") || includes upperName (js "DOUB")
      then REAL_TYPE
      else if includes upperName (js "BOOL") then BOOLEAN_TYPE toLowerCase
      else if includes upperName (js "NUMERIC") || includes upperName (js "DECIMAL") then NUMERIC_TYPE
      else BLOB_TYPE
    end
  end.

(** The new type and, unless the types are the same object, the conversion of
    a non-NULL value. *)
Definition planRetypeConversion (types : registry) (dataType : jsstring) (oldLogicalType : LogicalType)
    : LogicalType * option (value -> res value) :=
  let newLogicalType := inferType types (Some dataType) in
  if (t_id newLogicalType =? t_id oldLogicalType)%nat then (newLogicalType, None)
  else
    (newLogicalType, Some (fun v =>
       match validateAndParse v newLogicalType with
       | Ok w => Ok w
       | Throw _ => Throw EMismatch
       end)).

End Registry.

End Types.
