(* ===== verification/JsonOrder.v ===== *)
(** * The order of JSON values

    [deepCompareJson] of [types/json-type.ts] orders JSON values and decides
    their equality; [canonicalJsonString] of [util/json-canonical.ts] derives
    the key text of a value.  This file shows that the comparator is a total
    preorder, and when the key texts agree with it. *)

From S2P Require Import Prelude Bytes Double Decimal NumberText Utf8 Json Comparison KeySerializer VTab Types.
From Stdlib Require Import ZArith Lia.
From stdpp Require Import sorting.
From stdpp Require Import base tactics numbers sets gmap list.
#[local] Open Scope Z_scope.

Import Utf8 Json Comparison KeySerializer Types.

Module JsonOrder.

(** ** A value as a sequence of tokens

    Comparing two values is comparing their sequences. *)

Inductive token : Type :=
| TEnd
| TNull
| TBool (b : bool)
| TNumber (n : num)
| TString (s : jsstring)
| TArray
| TObject
| TKey (k : jsstring).

Definition token_rank (t : token) : Z :=
  match t with
  | TEnd => 0
  | TNull => 1
  | TBool _ => 2
  | TNumber _ => 3
  | TString _ => 4
  | TArray => 5
  | TObject => 6
  | TKey _ => 7
  end.

Definition token_num (t : token) : num :=
  match t with
  | TBool b => num_of_bigint (if b then 1 else 0)
  | TNumber n => n
  | _ => NFin 0
  end.

Definition token_text (t : token) : jsstring :=
  match t with
  | TString s | TKey s => s
  | _ => []
  end.

Definition token_compare (a b : token) : comparison :=
  cmp_then (token_rank a ?= token_rank b)
    (cmp_then (num_compare (token_num a) (token_num b)) (lex rank_cmp (token_text a) (token_text b))).

#[global] Instance token_compare_laws : CmpLaws token_compare.
Proof.
  unfold token_compare. apply cmp_then_laws; [exact (cmp_on_laws Z.compare token_rank)|].
  apply cmp_then_laws; [exact (cmp_on_laws num_compare token_num)|exact (cmp_on_laws (lex rank_cmp) token_text)].
Qed.

Definition by_key {V} (a b : jsstring * V) : Z := compareCodePoints a.1 b.1.

Fixpoint tokens (v : JSONValue) : list token :=
  match v with
  | JNull => [TNull]
  | JBool b => [TBool b]
  | JNumber d => [TNumber (num_of_double d)]
  | JString s => [TString s]
  | JArray l => TArray :: concat (map tokens l) ++ [TEnd]
  | JObject o =>
    let members := js_sort by_key (map (fun kv => (kv.1, tokens kv.2)) o) in
    TObject :: map TKey members.*1 ++ TEnd :: concat members.*2
  end.

(** ** Sorting fields by name *)

Lemma sort_by_key_map {V W} (f : V -> W) (o : list (jsstring * V)) :
  js_sort by_key (map (fun kv => (kv.1, f kv.2)) o) = map (fun kv => (kv.1, f kv.2)) (js_sort by_key o).
Proof.
  induction o as [|[k v] o IH]; [done|]. unfold js_sort in *. cbn [map foldr]. rewrite IH.
  generalize (foldr (sort_insert by_key) [] o). intros l.
  induction l as [|[k' v'] l IHl]; cbn; [done|].
  change (by_key (k, f v) (k', f v')) with (compareCodePoints k k').
  change (by_key (k, v) (k', v')) with (compareCodePoints k k').
  destruct (0 <? compareCodePoints k k'); cbn; [f_equal; apply IHl|done].
Qed.

Lemma sort_by_key_keys {V} (o : list (jsstring * V)) : (js_sort by_key o).*1 = js_sort compareCodePoints o.*1.
Proof.
  induction o as [|[k v] o IH]; [done|]. unfold js_sort in *. cbn [foldr fmap list_fmap]. rewrite <- IH.
  generalize (foldr (sort_insert by_key) [] o). intros l. induction l as [|[k' v'] l IHl]; cbn; [done|].
  change (by_key (k, v) (k', v')) with (compareCodePoints k k').
  destruct (0 <? compareCodePoints k k'); cbn; [f_equal; apply IHl|done].
Qed.

(** A JSON value whose numbers are ordered. *)
Fixpoint no_nan (v : JSONValue) : Prop :=
  match v with
  | JNumber d => not_nan (num_of_double d)
  | JArray l => foldr (fun x P => no_nan x /\ P) True l
  | JObject o => foldr (fun kv P => no_nan kv.2 /\ P) True o
  | _ => True
  end.

Definition comparable (v : JSONValue) : Prop := wf_json v /\ no_nan v.

Lemma comparable_array l : comparable (JArray l) -> Forall comparable l.
Proof.
  intros [Hwf Hn]. apply wf_array in Hwf. cbn in Hn. rewrite foldr_Forall in Hn.
  by apply Forall_and.
Qed.

Lemma comparable_object o :
  comparable (JObject o) -> NoDup o.*1 /\ Forall (fun kv => wf_string kv.1 /\ comparable kv.2) o.
Proof.
  intros [Hwf Hn]. apply wf_object in Hwf as [[Hnd _] Hwf]. cbn in Hn.
  rewrite (foldr_Forall (fun kv : jsstring * JSONValue => no_nan kv.2)) in Hn. split; [done|].
  rewrite Forall_forall in *. intros kv Hin. destruct (Hwf kv Hin). unfold comparable. auto.
Qed.

(** ** Comparing is comparing sequences *)

Lemma tokens_start v : exists t ts, tokens v = t :: ts /\ token_rank t = jsonTypeOrder v + 1.
Proof. destruct v; by eexists _, _. Qed.

Lemma cmp_then_nonzero (z : Z) (c : comparison) : z <> 0 -> cmp_then (sgn z) c = sgn z.
Proof. intros H. destruct (sgn z) eqn:E; [|done..]. by apply sgn_eq in E. Qed.

Lemma compareCodePoints_eq s t : wf_string s -> wf_string t -> compareCodePoints s t = 0 <-> s = t.
Proof. intros Hs Ht. rewrite <- sgn_eq, compareCodePoints_lex by done. by apply lex_rank_eq. Qed.

Lemma compare_keys_tokens ka kb r1 r2 :
  Forall wf_string ka -> Forall wf_string kb ->
  lex token_compare (map TKey ka ++ TEnd :: r1) (map TKey kb ++ TEnd :: r2)
  = cmp_then (sgn (compare_keys ka kb)) (lex token_compare r1 r2).
Proof.
  intros Ha. revert kb. induction Ha as [|x ka Hx Ha IH]; intros kb Hb; destruct Hb as [|y kb Hy Hb]; try done.
  cbn [map app lex compare_keys]. unfold token_compare at 1. cbn [token_rank token_num token_text].
  rewrite Z.compare_refl, (cmp_refl num_compare), <- compareCodePoints_lex by done. cbn [cmp_then].
  rewrite IH by done. destruct (Z.eqb_spec (compareCodePoints x y) 0) as [E|E]; cbn [negb].
  - by rewrite E.
  - rewrite !cmp_then_nonzero by done. done.
Qed.

(** [a] compares as its tokens do, whatever follows. *)
Definition as_tokens (a : JSONValue) : Prop :=
  forall b k1 k2, comparable b ->
    lex token_compare (tokens a ++ k1) (tokens b ++ k2)
    = cmp_then (sgn (deepCompareJson a b)) (lex token_compare k1 k2).

Lemma compare_elements_tokens l l' k1 k2 :
  Forall as_tokens l -> Forall comparable l' ->
  lex token_compare (concat (map tokens l) ++ TEnd :: k1) (concat (map tokens l') ++ TEnd :: k2)
  = cmp_then (sgn (compare_elements (map deepCompareJson l) l')) (lex token_compare k1 k2).
Proof.
  intros Hl. revert l'. induction Hl as [|x l Hx Hl IH]; intros l' Hl'; destruct Hl' as [|y l' Hy Hl']; try done.
  - cbn [map concat]. destruct (tokens_start y) as (t & ts & -> & Ht).
    cbn [app lex]. unfold token_compare at 1. cbn [token_rank]. rewrite Ht.
    by rewrite (proj2 (Z.compare_lt_iff 0 (jsonTypeOrder y + 1))) by (destruct y; cbn; lia).
  - cbn [map concat]. destruct (tokens_start x) as (t & ts & -> & Ht).
    cbn [app lex]. unfold token_compare at 1. cbn [token_rank]. rewrite Ht.
    by rewrite (proj2 (Z.compare_gt_iff (jsonTypeOrder x + 1) 0)) by (destruct x; cbn; lia).
  - cbn [map concat compare_elements]. rewrite <- !(assoc_L (++)), Hx, IH by done.
    destruct (Z.eqb_spec (deepCompareJson x y) 0) as [E|E]; cbn [negb]; [by rewrite E|].
    by rewrite !cmp_then_nonzero by done.
Qed.

Lemma compare_members_tokens (sa sb : fields) cs b k1 k2 :
  sa.*1 = sb.*1 -> Forall (fun kv => as_tokens kv.2) sa -> Forall (fun kv => comparable kv.2) sb ->
  (forall kv, kv ∈ sa -> alist_get kv.1 cs = Some (deepCompareJson kv.2)) ->
  (forall kv, kv ∈ sb -> alist_get kv.1 b = Some kv.2) ->
  lex token_compare (concat (map (fun kv => tokens kv.2) sa) ++ k1) (concat (map (fun kv => tokens kv.2) sb) ++ k2)
  = cmp_then (sgn (compare_members sa.*1 cs b)) (lex token_compare k1 k2).
Proof.
  revert sb. induction sa as [|[k x] sa IH]; intros [|[k' y] sb] Hk Ha Hb Hcs Hget; try done.
  cbn in Hk. injection Hk as <- Hk. inversion_clear Ha as [|? ? Hx Ha']. inversion_clear Hb as [|? ? Hy Hb'].
  cbn [fmap list_fmap fst compare_members map concat snd] in *.
  pose proof (Hcs (k, x) ltac:(by left)) as Ec. pose proof (Hget (k, y) ltac:(by left)) as Eb. cbn in Ec, Eb.
  rewrite Ec, Eb. rewrite <- !(assoc_L (++)), Hx by done.
  rewrite (IH sb); [|done..|intros; apply Hcs; by right|intros; apply Hget; by right].
  destruct (Z.eqb_spec (deepCompareJson x y) 0) as [E|E]; cbn [negb]; [by rewrite E|].
  by rewrite !cmp_then_nonzero by done.
Qed.

Lemma different_kinds a b k1 k2 :
  jsonTypeOrder a <> jsonTypeOrder b ->
  lex token_compare (tokens a ++ k1) (tokens b ++ k2)
  = cmp_then (sgn (if jsonTypeOrder a <? jsonTypeOrder b then -1 else 1)) (lex token_compare k1 k2).
Proof.
  intros H. destruct (tokens_start a) as (t & ts & -> & Ht), (tokens_start b) as (u & us & -> & Hu).
  cbn [app lex]. unfold token_compare at 1. rewrite Ht, Hu. destruct (Z.ltb_spec (jsonTypeOrder a) (jsonTypeOrder b)).
  - by rewrite (proj2 (Z.compare_lt_iff _ _)) by lia.
  - by rewrite (proj2 (Z.compare_gt_iff _ _)) by lia.
Qed.

Lemma deepCompareJson_kinds a b :
  jsonTypeOrder a <> jsonTypeOrder b ->
  deepCompareJson a b = if jsonTypeOrder a <? jsonTypeOrder b then -1 else 1.
Proof. intros H. destruct a; cbn [deepCompareJson]; by rewrite (proj2 (Z.eqb_neq _ _) H). Qed.

(** Only values of the same kind need a look inside. *)
Lemma same_kind_tokens a :
  (forall b k1 k2, comparable b -> jsonTypeOrder a = jsonTypeOrder b ->
     lex token_compare (tokens a ++ k1) (tokens b ++ k2)
     = cmp_then (sgn (deepCompareJson a b)) (lex token_compare k1 k2)) ->
  as_tokens a.
Proof.
  intros H b k1 k2 Hb. destruct (decide (jsonTypeOrder a = jsonTypeOrder b)) as [E|E]; [by apply H|].
  by rewrite different_kinds, deepCompareJson_kinds by done.
Qed.

Lemma object_as_tokens o :
  comparable (JObject o) -> Forall (fun kv => as_tokens kv.2) o -> as_tokens (JObject o).
Proof.
  intros Hc IH. apply same_kind_tokens. intros b k1 k2 Hb E. destruct b as [| | | | |o']; try done. cbn [tokens deepCompareJson]. cbn [jsonTypeOrder Z.eqb Pos.eqb negb].
  apply comparable_object in Hc as [Hnd Hc]. apply comparable_object in Hb as [Hnd' Hb].
  assert (forall o : fields, NoDup o.*1 -> Forall (fun kv => wf_string kv.1 /\ comparable kv.2) o ->
    Forall wf_string (sort_keys o) /\ Forall (fun kv => comparable kv.2) (js_sort by_key o) /\
    (forall kv, kv ∈ js_sort by_key o -> alist_get kv.1 o = Some kv.2)) as Hs.
  { clear. intros o Hnd Hc. unfold sort_keys. rewrite js_sort_perm, js_sort_perm.
    split; [apply Forall_fmap; eapply Forall_impl; [exact Hc|]; by intros ? []|].
    split; [eapply Forall_impl; [exact Hc|]; by intros ? []|].
    intros [k v] Hin. rewrite elem_of_js_sort in Hin. by apply alist_get_elem. }
  destruct (Hs o Hnd Hc) as (Wa & _ & Ga), (Hs o' Hnd' Hb) as (Wb & Cb & Gb).
  rewrite !sort_by_key_map. cbn [app].
  assert (forall o : fields, (map (fun kv => (kv.1, tokens kv.2)) o).*1 = o.*1) as Hfst.
  { intros l. induction l as [|[k v] l IHl]; cbn; [done|]. by f_equal. }
  assert (forall o : fields, (map (fun kv => (kv.1, tokens kv.2)) o).*2 = map (fun kv => tokens kv.2) o) as Hsnd.
  { intros l. induction l as [|[k v] l IHl]; cbn; [done|]. by f_equal. }
  rewrite !Hfst, !Hsnd, !sort_by_key_keys. fold (sort_keys o) (sort_keys o').
  cbn [lex]. rewrite (cmp_refl token_compare). cbn [cmp_then].
  rewrite <- !(assoc_L (++)), <- !app_comm_cons, compare_keys_tokens by done.
  destruct (Z.eqb_spec (compare_keys (sort_keys o) (sort_keys o')) 0) as [E0|E0]; cbn [negb].
  2: { by rewrite !cmp_then_nonzero by done. }
  rewrite E0. cbn [sgn Z.compare cmp_then].
  assert (sort_keys o = sort_keys o') as Hkeys.
  { revert Wb E0. clear -Wa. revert Wa. generalize (sort_keys o) (sort_keys o'). intros ka kb Ha. revert kb.
    induction Ha as [|x ka Hx Ha IH]; intros [|y kb] Hb; cbn; try done. inversion_clear Hb as [|? ? Hy Hb'].
    destruct (Z.eqb_spec (compareCodePoints x y) 0) as [E|E]; cbn [negb]; [|done].
    apply compareCodePoints_eq in E as ->; [|done..]. intros E0. f_equal. auto. }
  rewrite (compare_members_tokens (js_sort by_key o) (js_sort by_key o')
    (map (fun kv => (kv.1, deepCompareJson kv.2)) o) o').
  - by rewrite sort_by_key_keys.
  - by rewrite !sort_by_key_keys.
  - by rewrite js_sort_perm.
  - done.
  - intros [k v] Hin%Ga. cbn in *. revert Hin. clear. induction o as [|[k' v'] o IH]; cbn; [done|].
    case_decide; [by intros [= ->]|done].
  - done.
Qed.

Lemma json_as_tokens a : comparable a -> as_tokens a.
Proof.
  induction a as [|x|d|s|l IH|o IH] using JSONValue_rect'; intros Ha.
  6: { apply object_as_tokens; [done|]. apply comparable_object in Ha as [_ Ha].
       rewrite Forall_forall in *. intros kv Hin. apply IH; [done|]. by apply Ha. }
  all: apply same_kind_tokens; intros b k1 k2 Hb E.
  - by destruct b.
  - destruct b as [|y| | | |]; try done. cbn [tokens deepCompareJson app lex jsonTypeOrder Z.eqb Pos.eqb negb].
    rewrite compareNumbers_sgn by done. unfold token_compare at 1. cbn. by destruct x, y.
  - destruct b as [| |e| | |]; try done. cbn [tokens deepCompareJson app lex jsonTypeOrder Z.eqb Pos.eqb negb].
    rewrite compareNumbers_sgn by (apply Ha || apply Hb). unfold token_compare at 1. cbn [token_rank token_num token_text lex].
    rewrite Z.compare_refl. cbn [cmp_then]. by destruct (num_compare _ _).
  - destruct b as [| | |t| |]; try done. cbn [tokens deepCompareJson app lex jsonTypeOrder Z.eqb Pos.eqb negb].
    rewrite compareCodePoints_lex by (apply Ha || apply Hb). unfold token_compare at 1. cbn [token_rank token_num token_text].
    by rewrite Z.compare_refl, (cmp_refl num_compare).
  - destruct b as [| | | |l'|]; try done. cbn [tokens deepCompareJson jsonTypeOrder Z.eqb Pos.eqb negb].
    cbn [app lex]. rewrite (cmp_refl token_compare). cbn [cmp_then]. rewrite <- !(assoc_L (++)). cbn [app].
    apply comparable_array in Ha, Hb. apply compare_elements_tokens; [|done]. rewrite Forall_forall in *. auto.
Qed.

Lemma deepCompareJson_tokens a b :
  comparable a -> comparable b -> sgn (deepCompareJson a b) = lex token_compare (tokens a) (tokens b).
Proof.
  intros Ha Hb. pose proof (json_as_tokens a Ha b [] [] Hb) as H. rewrite !app_nil_r in H. rewrite H.
  by destruct (sgn _).
Qed.

(** [a === b] would answer 0 as well. *)
Lemma deepCompareJson_refl a : comparable a -> deepCompareJson a a = 0.
Proof. intros Ha. apply sgn_eq. rewrite deepCompareJson_tokens by done. apply (cmp_refl (lex token_compare)). Qed.

(** ** Key texts *)

(** Values whose key text holds all of them: every number is finite, and no
    object has an own property named [__proto__]. *)
Fixpoint keyable (v : JSONValue) : Prop :=
  match v with
  | JNumber d => is_finite d = true
  | JArray l => foldr (fun x P => keyable x /\ P) True l
  | JObject o => (js "__proto__" ∉ o.*1) /\ foldr (fun kv P => keyable kv.2 /\ P) True o
  | _ => True
  end.

Lemma keyable_array l : keyable (JArray l) <-> Forall keyable l.
Proof. apply foldr_Forall. Qed.

Lemma keyable_object o : keyable (JObject o) <-> (js "__proto__" ∉ o.*1) /\ Forall (fun kv => keyable kv.2) o.
Proof. cbn. by rewrite (foldr_Forall (fun kv : jsstring * JSONValue => keyable kv.2)). Qed.

Lemma keyable_comparable v : wf_json v -> keyable v -> comparable v.
Proof.
  intros Hwf Hk. split; [done|]. revert Hwf Hk.
  induction v as [|b|d|s|l IH|o IH] using JSONValue_rect'; intros Hwf Hk; try done.
  - cbn in *. unfold is_finite in Hk. unfold not_nan. by destruct (num_of_double d).
  - apply wf_array in Hwf. apply keyable_array in Hk. cbn. rewrite foldr_Forall. rewrite Forall_forall in *. auto.
  - apply wf_object in Hwf as [_ Hwf]. apply keyable_object in Hk as [_ Hk]. cbn.
    rewrite (foldr_Forall (fun kv : jsstring * JSONValue => no_nan kv.2)). rewrite Forall_forall in *.
    intros kv Hin. apply IH; [done|by apply Hwf|by apply Hk].
Qed.

Abbreviation canon v := (plain (canonicalize v)).

Lemma compare_elements_zero l l' :
  compare_elements (map deepCompareJson l) l' = 0 <-> Forall2 (fun x y => deepCompareJson x y = 0) l l'.
Proof.
  revert l'. induction l as [|x l IH]; intros [|y l']; cbn.
  - split; [constructor|done].
  - split; [done|]. by intros ?%Forall2_nil_inv_l.
  - split; [done|]. by intros ?%Forall2_nil_inv_r.
  - rewrite Forall2_cons. destruct (Z.eqb_spec (deepCompareJson x y) 0) as [E|E]; cbn [negb]; [rewrite IH|]; tauto.
Qed.

Lemma compare_keys_zero ka kb :
  Forall wf_string ka -> Forall wf_string kb -> compare_keys ka kb = 0 <-> ka = kb.
Proof.
  intros Ha. revert kb. induction Ha as [|x ka Hx Ha IH]; intros kb Hb; destruct Hb as [|y kb Hy Hb]; cbn; try done.
  destruct (Z.eqb_spec (compareCodePoints x y) 0) as [E|E]; cbn [negb].
  - apply compareCodePoints_eq in E as ->; [|done..]. rewrite IH by done. split; congruence.
  - split; [done|]. intros [= -> _]. destruct E. by apply compareCodePoints_eq.
Qed.

(** Sorting names is canonical on names of well-formed units. *)
Definition rank_z (x y : jsstring) : Z :=
  match lex rank_cmp x y with
  | Lt => -1
  | Eq => 0
  | Gt => 1
  end.

Lemma rank_z_sgn x y : sgn (rank_z x y) = lex rank_cmp x y.
Proof. unfold rank_z. by destruct (lex rank_cmp x y). Qed.

#[global] Instance rank_z_laws : CmpLaws (fun x y => sgn (rank_z x y)).
Proof.
  split; intros *; rewrite !rank_z_sgn; [apply (cmp_opp (lex rank_cmp))|apply (cmp_trans (lex rank_cmp))|apply (cmp_eq_l (lex rank_cmp))].
Qed.

Lemma sort_names_perm ka kb :
  Forall wf_string ka -> Forall wf_string kb ->
  js_sort compareCodePoints ka = js_sort compareCodePoints kb <-> ka ≡ₚ kb.
Proof.
  intros Ha Hb. split.
  - intros E. rewrite <- (js_sort_perm compareCodePoints ka), E. apply js_sort_perm.
  - rewrite Forall_forall in Ha. rewrite Forall_forall in Hb. intros Hp.
    rewrite (js_sort_ext compareCodePoints rank_z ka), (js_sort_ext compareCodePoints rank_z kb).
    + apply (js_sort_perm_eq rank_z); [|done]. intros x y Hx Hy E. rewrite rank_z_sgn in E. apply lex_rank_eq in E; auto.
    + intros x y Hx Hy. rewrite rank_z_sgn. apply compareCodePoints_lex; auto.
    + intros x y Hx Hy. rewrite rank_z_sgn. apply compareCodePoints_lex; auto.
Qed.

Lemma compare_members_zero keys cs b :
  compare_members keys cs b = 0 <->
  forall k c y, k ∈ keys -> alist_get k cs = Some c -> alist_get k b = Some y -> c y = 0.
Proof.
  induction keys as [|k keys IH]; cbn; [split; [intros _ k c y H; by apply elem_of_nil in H|done]|].
  destruct (Z.eqb_spec (match alist_get k cs, alist_get k b with Some c, Some y => c y | _, _ => 0 end) 0) as [E|E]; cbn [negb].
  - rewrite IH. split.
    + intros H k' c y [->|Hin]%elem_of_cons Hc Hy; [by rewrite Hc, Hy in E|by eapply H].
    + intros H k' c y Hin. apply H. by right.
  - split; [done|]. intros H. exfalso. apply E. destruct (alist_get k cs) as [c|] eqn:Ec; [|done].
    destruct (alist_get k b) as [y|] eqn:Ey; [|done]. apply (H k); [left|done..].
Qed.

(** Objects with the same names whose members agree are permutations. *)
Lemma fields_perm (f : JSONValue -> JSONValue) (o o' : fields) :
  NoDup o.*1 -> NoDup o'.*1 ->
  map_snd f o ≡ₚ map_snd f o' <->
  o.*1 ≡ₚ o'.*1 /\ forall k v w, alist_get k o = Some v -> alist_get k o' = Some w -> f v = f w.
Proof.
  intros Hn Hn'. assert (forall (o : fields) k w, NoDup o.*1 -> (k, w) ∈ map_snd f o <-> exists v, alist_get k o = Some v /\ w = f v) as Hel.
  { clear. intros o k w Hn. unfold map_snd. rewrite list_elem_of_fmap. split.
    - intros ([k' v] & [= -> ->] & Hin). exists v. split; [by apply alist_get_elem|done].
    - intros (v & Hv & ->). exists (k, v). split; [done|]. by apply alist_get_elem. }
  split.
  - intros Hp. split; [by rewrite <- (map_snd_keys f o), Hp, map_snd_keys|]. intros k v w Hv Hw.
    assert ((k, f v) ∈ map_snd f o') as Hin by (rewrite <- Hp; apply Hel; eauto).
    apply Hel in Hin as (w' & Hw' & E); [|done]. congruence.
  - intros [Hk Hv]. apply NoDup_Permutation; [apply (NoDup_fmap_1 fst); by rewrite map_snd_keys..|].
    assert (forall k, is_Some (alist_get k o) <-> is_Some (alist_get k o')) as Hsome.
    { intros k. by rewrite !alist_get_is_Some, Hk. }
    intros [k x]. rewrite !Hel by done. split.
    + intros (v & E & ->). destruct (proj1 (Hsome k)) as [w Ew]; [by eexists|]. exists w. split; [done|by apply (Hv k)].
    + intros (w & E & ->). destruct (proj2 (Hsome k)) as [v Ev]; [by eexists|]. exists v. split; [done|symmetry; by apply (Hv k)].
Qed.

Lemma alist_get_map {V W} (f : V -> W) k (o : list (jsstring * V)) :
  alist_get k (map (fun kv => (kv.1, f kv.2)) o) = f <$> alist_get k o.
Proof. induction o as [|[k' v] o IH]; cbn; [done|]. by case_decide. Qed.

Lemma sgn_le z : sgn z <> Gt <-> z <= 0.
Proof. rewrite sgn_gt. lia. Qed.

Lemma plain_number_num x : num_of_double (plain_number x) = num_of_double x.
Proof. unfold plain_number. case_decide as E; [by subst|done]. Qed.

Lemma plain_number_wf x : wf_double x -> wf_double (plain_number x).
Proof. unfold plain_number. case_decide; [|done]. intros _. split; [lia|]. left. by vm_compute. Qed.

Lemma plain_number_zero x : plain_number x <> NEG_ZERO.
Proof. unfold plain_number. by case_decide. Qed.

Lemma finite_not_nan d : is_finite d = true -> not_nan (num_of_double d).
Proof. unfold is_finite, not_nan. by destruct (num_of_double d). Qed.

Lemma compareNumbers_zero x y :
  wf_double x -> wf_double y -> is_finite x = true -> is_finite y = true ->
  compareNumbers (num_of_double x) (num_of_double y) = 0 <-> plain_number x = plain_number y.
Proof.
  intros Hx Hy Fx Fy. rewrite <- sgn_eq, compareNumbers_sgn by (by apply finite_not_nan).
  rewrite (cmp_eq num_compare). rewrite <- (plain_number_num x), <- (plain_number_num y). split; [|congruence].
  apply num_of_double_inj; auto using plain_number_wf, plain_number_zero.
Qed.

Lemma compare_booleans x y :
  compareNumbers (num_of_bigint (if x : bool then 1 else 0)) (num_of_bigint (if y : bool then 1 else 0)) = 0 <-> x = y.
Proof. by destruct x, y. Qed.

Lemma canon_object o : canon (JObject o) = JObject (sort_fields (map_snd (fun v => canon v) o)).
Proof.
  cbn. f_equal. change (map_snd plain (sort_fields (map_snd canonicalize o)) = sort_fields (map_snd (fun v => canon v) o)).
  rewrite <- sort_fields_map. f_equal. unfold map_snd. by rewrite map_map.
Qed.

Lemma canon_array l : canon (JArray l) = JArray (map (fun v => canon v) l).
Proof. cbn. by rewrite map_map. Qed.

(** Values of two kinds differ both ways. *)
Ltac kinds_differ :=
  repeat match goal with H : keyable (JNumber _) |- _ => cbn in H end; cbn;
  repeat match goal with H : is_finite _ = true |- _ => rewrite H; clear H end; split; discriminate.

Definition settles (a : JSONValue) : Prop :=
  forall b, wf_json b -> keyable b -> deepCompareJson a b = 0 <-> canon a = canon b.

Lemma arrays_settle l :
  Forall settles l -> settles (JArray l).
Proof.
  intros Hl b Hb Kb. destruct b as [| | | |l'|]; try kinds_differ.
  cbn [deepCompareJson jsonTypeOrder Z.eqb Pos.eqb negb].
  rewrite compare_elements_zero, !canon_array. apply wf_array in Hb. apply keyable_array in Kb.
  transitivity (map (fun v => canon v) l = map (fun v => canon v) l'); [|split; congruence].
  revert l' Hb Kb. induction Hl as [|x l Hx Hl IH]; intros l' Hb Kb; destruct l' as [|y l']; cbn.
  - split; [done|constructor].
  - split; [by intros ?%Forall2_nil_inv_l|done].
  - split; [by intros ?%Forall2_nil_inv_r|done].
  - apply Forall_cons in Hb as [Hy Hb]. apply Forall_cons in Kb as [Ky Kb].
    rewrite Forall2_cons, (Hx y), (IH l') by done. split; [intros [-> ->]; done|]. intros E. by injection E.
Qed.

Lemma objects_settle o :
  wf_json (JObject o) -> keyable (JObject o) -> Forall (fun kv => settles kv.2) o -> settles (JObject o).
Proof.
  intros Ha Ka Ho b Hb Kb. destruct b as [| | | | |o']; try kinds_differ.
  rewrite !canon_object. apply wf_object in Ha as [[Na _] Ha], Hb as [[Nb _] Hb]. apply keyable_object in Ka as [Pa Ka], Kb as [Pb Kb].
  transitivity (sort_fields (map_snd (fun v => canon v) o) = sort_fields (map_snd (fun v => canon v) o')); [|split; congruence].
  rewrite sort_fields_eq, fields_perm by (rewrite ?map_snd_keys; done).
  assert (Forall wf_string o.*1 /\ Forall wf_string o'.*1) as [Wa Wb].
  { split; apply Forall_fmap; [eapply Forall_impl; [exact Ha|]|eapply Forall_impl; [exact Hb|]]; by intros kv [? _]. }
  assert (Forall wf_string (sort_keys o) /\ Forall wf_string (sort_keys o')) as [Sa Sb].
  { unfold sort_keys. by rewrite !js_sort_perm. }
  cbn [deepCompareJson jsonTypeOrder Z.eqb Pos.eqb negb]. rewrite <- (sort_names_perm o.*1 o'.*1) by done.
  destruct (Z.eqb_spec (compare_keys (sort_keys o) (sort_keys o')) 0) as [E|E]; cbn [negb].
  2: { rewrite compare_keys_zero in E by done. split; [|by intros [? _]]. intros E0. by apply compare_keys_zero in E0. }
  apply compare_keys_zero in E; [|done..]. rewrite compare_members_zero.
  assert (forall k v w, alist_get k o = Some v -> alist_get k o' = Some w -> deepCompareJson v w = 0 <-> canon v = canon w) as Hs.
  { intros k v w Hv Hw. apply alist_get_elem in Hv, Hw; [|done..]. rewrite Forall_forall in Ho, Hb, Kb.
    apply (Ho (k, v)); [done|by apply (Hb (k, w))|by apply (Kb (k, w))]. }
  split.
  - intros H. split; [done|]. intros k v w Hv Hw. apply (Hs k); [done..|].
    apply (H k); [|by rewrite alist_get_map, Hv|done].
    unfold sort_keys. rewrite js_sort_perm. apply alist_get_is_Some. by eexists.
  - intros [_ H] k c w _ Hc Hw. rewrite alist_get_map in Hc. destruct (alist_get k o) as [v|] eqn:Hv; [|done].
    injection Hc as <-. apply (Hs k); [done..|]. by apply (H k).
Qed.

Lemma json_settles a : wf_json a -> keyable a -> settles a.
Proof.
  induction a as [|x|d|s|l IH|o IH] using JSONValue_rect'; intros Ha Ka.
  5: { apply arrays_settle. apply wf_array in Ha. apply keyable_array in Ka. rewrite Forall_forall in *. auto. }
  5: { apply objects_settle; [done..|]. apply wf_object in Ha as [_ Ha]. apply keyable_object in Ka as [_ Ka].
       rewrite Forall_forall in *. intros kv Hin. apply IH; [done|by apply Ha|by apply Ka]. }
  all: intros b Hb Kb; destruct b; try kinds_differ; try done; cbn [deepCompareJson jsonTypeOrder Z.eqb Pos.eqb negb].
  - rewrite compare_booleans. cbn. split; congruence.
  - cbn in Ka, Kb. rewrite compareNumbers_zero by done. cbn. rewrite Ka, Kb. split; congruence.
  - rewrite compareCodePoints_eq by done. cbn. split; congruence.
Qed.

(** C31: The order of JSON columns is a total preorder and its key text is its
    equality.  For values the engine can hold without a NaN, [deepCompareJson]
    is antisymmetric in sign and transitive, so sorts and primary-key trees
    over JSON columns are well defined.  For values with finite numbers and no
    own property named [__proto__] two values compare equal exactly when
    [canonicalJsonString], which DISTINCT, GROUP BY and hash keys use instead of
    the comparator, gives one text for both.  The condition on [__proto__] is
    needed: the text drops a property of that name although the order sees it. *)
Theorem json_order_and_key a b c :
  comparable a -> comparable b -> comparable c ->
  sgn (deepCompareJson b a) = CompOpp (sgn (deepCompareJson a b)) /\
  (deepCompareJson a b <= 0 -> deepCompareJson b c <= 0 -> deepCompareJson a c <= 0) /\
  (keyable a -> keyable b -> deepCompareJson a b = 0 <-> canonicalJsonString a = canonicalJsonString b) /\
  (canonicalJsonString (JObject [(js "__proto__", a)]) = canonicalJsonString (JObject []) /\
   deepCompareJson (JObject [(js "__proto__", a)]) (JObject []) <> 0).
Proof.
  intros Ha Hb Hc. split_and!; [..|done|done].
  - rewrite !deepCompareJson_tokens by done. apply (cmp_opp (lex token_compare)).
  - rewrite <- !sgn_le, !deepCompareJson_tokens by done. apply (cmp_le_trans (lex token_compare)).
  - intros Ka Kb. destruct Ha as [Ha _], Hb as [Hb _]. rewrite canonicalJsonString_inj by done. by apply json_settles.
Qed.

(** [{"a": true, "b": [1]}], the same with the names the other way round, and
    [{"c": null}]. *)
Definition ab : JSONValue := JObject [(js "a", JBool true); (js "b", JArray [JNumber (double_of_Z 1)])].
Definition ba : JSONValue := JObject [(js "b", JArray [JNumber (double_of_Z 1)]); (js "a", JBool true)].
Definition cc : JSONValue := JObject [(js "c", JNull)].

Lemma names_ordered (o : fields) :
  forallb (fun k => bool_decide (key_index k = None)) o.*1 = true -> NoDup o.*1 -> ordered o.
Proof.
  intros Hk Hn. split; [done|]. clear Hn. induction o.*1 as [|k ks IH]; [constructor|]. cbn in Hk.
  apply andb_prop in Hk as [Hk Hks]. constructor; [by apply IH|]. rewrite forallb_forall in Hks. apply Forall_forall.
  intros k' Hin%list_elem_of_In. apply Hks in Hin. apply bool_decide_eq_true in Hk, Hin. unfold before. rewrite Hk. by destruct (key_index k').
Qed.

Lemma wf_one : wf_double (double_of_Z 1).
Proof. split; [split|left]; by vm_compute. Qed.

Lemma examples_comparable : comparable ab /\ comparable ba /\ comparable cc.
Proof.
  assert (wf_string (js "a") /\ wf_string (js "b") /\ wf_string (js "c")) as (Ha & Hb & Hc).
  { split_and!; by apply wf_stringb_spec. }
  pose proof wf_one as H1.
  assert (comparable (JArray [JNumber (double_of_Z 1)])) as [H2 H3]
    by (split; [apply wf_array; by constructor|split; [by vm_compute|done]]).
  split_and!; (split; [apply wf_object; split; [apply names_ordered|]|]).
  1,5,9: reflexivity.
  1,4,7: apply (bool_decide_unpack _); exact I.
  all: repeat first [exact I | assumption | apply Forall_nil | apply Forall_cons | split].
Qed.

Lemma json_order_and_key_witness :
  deepCompareJson ab ba = 0 /\ canonicalJsonString ab = canonicalJsonString ba /\ deepCompareJson ab cc <= 0.
Proof.
  destruct examples_comparable as (Ha & Hb & Hc).
  destruct (json_order_and_key ab ba cc Ha Hb Hc) as (_ & Ht & He & _).
  assert (deepCompareJson ab ba = 0) as E by (by vm_compute). split; [exact E|]. split.
  - apply He; [| |exact E]; (split; [|by vm_compute]); apply (bool_decide_unpack _); by vm_compute.
  - apply Ht; [by rewrite E|by vm_compute].
Defined.

End JsonOrder.
