(* ===== verification/TypeLaws.v ===== *)
(** * Laws of the logical types

    Theorems about [Types.v]: integers pass through every conversion exactly
    and end in canonical form, CAST always answers a value of its target type,
    text round trips, the write-path row conversion, and the comparison
    coercions of a value list. *)

From S2P Require Import Prelude Bytes Double Decimal NumberText Utf8 Json Comparison KeySerializer VTab Types.
From Stdlib Require Import ZArith Lia.
From stdpp Require Import sorting.
From stdpp Require Import base tactics numbers sets gmap list.
#[local] Open Scope Z_scope.

Import Utf8 Json Comparison KeySerializer VTab Types.

Module TypeLaws.

(** ** Integers as doubles *)

(** The integer a numeric value is. *)
Definition integer_of (v : value) : option Z :=
  match v with
  | VBigint n => Some n
  | VNumber d => BigInt_of_double d
  | _ => None
  end.

Abbreviation negate neg n := (if neg : bool then Z.opp n else n).

Lemma signed_num neg mag :
  0 <= mag < INF_MAG -> num_of_double (signed neg mag) = NFin (negate neg (units mag)).
Proof.
  intros Hm. destruct (signed_split neg mag) as [Hn Hd]; [unfold INF_MAG in *; lia|].
  unfold num_of_double. rewrite Hn, Hd. destruct (Z.ltb_spec INF_MAG mag); [lia|].
  destruct (Z.eqb_spec mag INF_MAG); [lia|done].
Qed.

(** [Number] of a magnitude up to 2^53 - 1 is that integer. *)
Lemma safe_exact neg n :
  0 <= n <= MAX_SAFE_INTEGER ->
  num_of_double (signed neg (round_ratio n 1)) = NFin (negate neg n * UNIT) /\
  wf_double (signed neg (round_ratio n 1)).
Proof.
  intros Hn. unfold MAX_SAFE_INTEGER in Hn. rewrite round_ratio_exact by lia.
  assert (0 <= double_of_Z n < INF_MAG /\ units (double_of_Z n) = n * UNIT) as [Hm Hu].
  { destruct (decide (n = 0)) as [->|Hne]; [done|].
    assert (Z.log2 n < 53) by (apply Z.log2_lt_pow2; lia).
    destruct (double_of_Z_mag n) as (_ & Hm & Hd & Hu); [lia|left; rewrite Z.abs_eq; lia|lia|].
    split; [lia|done]. }
  split; [rewrite signed_num, Hu by done; f_equal; destruct neg; lia|].
  destruct (signed_split neg (double_of_Z n)) as [_ Hd]; [unfold INF_MAG in *; lia|].
  split; [unfold signed, INF_MAG in *; destruct neg; lia|left]. unfold dmag in Hd. lia.
Qed.

Lemma safe_BigInt neg n :
  0 <= n <= MAX_SAFE_INTEGER -> BigInt_of_double (signed neg (round_ratio n 1)) = Some (negate neg n).
Proof. intros Hn. apply BigInt_of_double_num. by apply safe_exact. Qed.

Lemma safe_spec n : safe n = true <-> Z.abs n <= MAX_SAFE_INTEGER.
Proof. unfold safe. rewrite andb_true_iff, !Z.leb_le. lia. Qed.

(** [Number] of a larger one stays beyond. *)
Lemma unsafe_units n :
  MAX_SAFE_INTEGER < n ->
  round_ratio n 1 = INF_MAG \/ (0 <= round_ratio n 1 < INF_MAG /\ 2 ^ 53 * UNIT <= units (round_ratio n 1)).
Proof.
  intros Hn. destruct (round_ratio_large n) as (s & r & Hs & Hr & E); [unfold MAX_SAFE_INTEGER in *; lia|].
  pose proof (round_ratio_range n ltac:(unfold MAX_SAFE_INTEGER in *; lia)) as Hrange.
  destruct (decide (round_ratio n 1 = INF_MAG)) as [Ei|Hne]; [by left|right]. split; [lia|].
  rewrite E, Z.min_r by lia. rewrite pattern_units by lia.
  assert (2 ^ s = 2 ^ (s - 1075) * 2 * UNIT) as Hp.
  { unfold UNIT. replace s with ((s - 1075) + 1 + 1074) at 1 by lia. by rewrite !Z.pow_add_r by lia. }
  assert (0 < 2 ^ (s - 1075)) by (apply Z.pow_pos_nonneg; lia). pose proof UNIT_pos. rewrite Hp. nia.
Qed.

Lemma unsafe_rounds neg n :
  MAX_SAFE_INTEGER < n ->
  isSafeInteger (signed neg (round_ratio n 1)) = false /\ beyond_safe (signed neg (round_ratio n 1)) = true.
Proof.
  intros Hn. unfold isSafeInteger, beyond_safe. destruct (unsafe_units n Hn) as [->|[Hm Hu]]; [by destruct neg|].
  pose proof UNIT_pos. rewrite signed_num by done. split.
  - destruct (BigInt_of_double _) as [m|] eqn:Em; [|done].
    apply not_true_is_false. rewrite safe_spec. intros Hsafe. apply BigInt_of_double_num in Em.
    rewrite signed_num in Em by lia. injection Em as Em. unfold MAX_SAFE_INTEGER in *. destruct neg; nia.
  - apply Z.ltb_lt. unfold MAX_SAFE_INTEGER in *. destruct neg; lia.
Qed.

Lemma safe_not_beyond neg n : 0 <= n <= MAX_SAFE_INTEGER -> beyond_safe (signed neg (round_ratio n 1)) = false.
Proof.
  intros Hn. destruct (safe_exact neg n Hn) as [E _]. unfold beyond_safe. rewrite E. apply Z.ltb_ge.
  pose proof UNIT_pos. destruct neg; nia.
Qed.

Lemma isSafeInteger_text neg n :
  0 <= n -> isSafeInteger (signed neg (round_ratio n 1)) = (n <=? MAX_SAFE_INTEGER).
Proof.
  intros Hn. destruct (Z.leb_spec n MAX_SAFE_INTEGER) as [Hle|Hgt]; [|by apply unsafe_rounds].
  unfold isSafeInteger. rewrite safe_BigInt by lia. apply safe_spec. destruct neg; lia.
Qed.

(** The canonical value of an integer. *)
Definition canonical_integer (n : Z) (w : value) : Prop :=
  integer_of w = Some n /\ INTEGER_validate w = true /\ isCanonicalNumeric w = true.

Lemma BigInt_is_integer d n : BigInt_of_double d = Some n -> is_integer d = true.
Proof.
  unfold BigInt_of_double, is_integer. destruct (num_of_double d); try done. by destruct (_ =? 0).
Qed.

Lemma canonical_safe d n : BigInt_of_double d = Some n -> safe n = true -> canonical_integer n (VNumber d).
Proof.
  intros Hd Hs. split; [done|]. split; [|done]. cbn. rewrite (BigInt_is_integer d n) by done.
  unfold isSafeInteger. by rewrite Hd.
Qed.

Lemma canonical_unsafe n : safe n = false -> canonical_integer n (VBigint n).
Proof.
  intros Hs. split; [done|]. split; [done|]. cbn. apply not_true_iff_false in Hs. rewrite safe_spec in Hs.
  apply orb_true_iff. rewrite !Z.ltb_lt. lia.
Qed.

Lemma canonicalize_bigint n : canonical_integer n (canonicalizeInteger (VBigint n)).
Proof.
  cbn. destruct (safe n) eqn:E; [|by apply canonical_unsafe].
  apply canonical_safe; [|done]. apply safe_spec in E. unfold Number_of_BigInt. rewrite safe_BigInt by lia.
  f_equal. destruct (Z.ltb_spec n 0); lia.
Qed.

Lemma canonicalize_number d n :
  BigInt_of_double d = Some n -> canonical_integer n (canonicalizeInteger (VNumber d)).
Proof.
  intros Hd. cbn. rewrite (BigInt_is_integer d n), Hd, andb_true_r by done.
  destruct (isSafeInteger d) eqn:E; cbn [negb]; unfold isSafeInteger in E; rewrite Hd in E;
    [by apply canonical_safe|by apply canonical_unsafe].
Qed.

(** ** Integer texts *)

(** The integer an optionally signed digit string denotes. *)
Definition digits_value (m : jsstring) : Z :=
  match m with
  | 45 :: ds => - parse_digits ds
  | 43 :: ds => parse_digits ds
  | ds => parse_digits ds
  end.

Definition integer_text (m : jsstring) (sign ds : jsstring) : Prop :=
  m = sign ++ ds /\ (sign = [] \/ sign = [43] \/ sign = [45]) /\ digits ds /\ ds <> [].

Abbreviation minus sign := (bool_decide (sign = [45])).

Lemma digits_value_text m sign ds : integer_text m sign ds -> digits_value m = negate (minus sign) (parse_digits ds).
Proof.
  intros (-> & Hs & Hd & Hne). destruct Hs as [->|[->| ->]]; try done.
  destruct Hd as [|c ds Hc%digit_cases Hd]; [done|]. destruct_or! Hc; by subst.
Qed.

Lemma span_digits_spec s : let '(ds, rest) := span_digits s in s = ds ++ rest /\ digits ds /\ no_digit rest.
Proof.
  induction s as [|c s IH]; cbn; [by repeat split|]. destruct (is_digit c) eqn:E.
  - destruct (span_digits s) as [ds rest]. destruct IH as (-> & Hd & Hr). cbn. split; [done|]. split; [by constructor|done].
  - by repeat split.
Qed.

Lemma integer_prefix_spec s m :
  integer_prefix s = Some m -> exists sign ds rest, integer_text m sign ds /\ s = m ++ rest /\ no_digit rest.
Proof.
  unfold integer_prefix. set (sign := match s with c :: _ => _ | [] => [] end).
  assert ((sign = [] \/ sign = [43] \/ sign = [45]) /\ s = sign ++ drop (length sign) s) as [Hs Hd].
  { subst sign. destruct s as [|c s]; [by split; [left|]|].
    destruct (Z.eqb_spec c 43) as [->|]; [split; [by right; left|done]|].
    destruct (Z.eqb_spec c 45) as [->|]; [split; [by right; right|done]|by split; [left|]]. }
  pose proof (span_digits_spec (drop (length sign) s)) as H. destruct (span_digits (drop (length sign) s)) as [ds rest].
  destruct H as (Ed & Hdig & Hr). cbn [fst]. destruct ds as [|c ds]; [done|]. intros Hm. apply (inj Some) in Hm. subst m.
  exists sign, (c :: ds), rest. split; [by split|]. split; [|done]. rewrite Hd at 1. rewrite Ed. by rewrite (assoc_L (++)).
Qed.

Lemma integer_prefix_text m sign ds rest :
  integer_text m sign ds -> no_digit rest -> integer_prefix (m ++ rest) = Some m.
Proof.
  intros (-> & Hs & Hd & Hne) Hr. unfold integer_prefix.
  assert (forall c, is_digit c = true -> (c =? 43) || (c =? 45) = false) as Hc.
  { intros c Hc%is_digit_range. destruct (Z.eqb_spec c 43), (Z.eqb_spec c 45); lia || done. }
  destruct Hs as [->|[->| ->]]; cbn [app length drop].
  - destruct Hd as [|c ds' Hc' Hd]; [done|]. cbn [app]. rewrite (Hc c Hc'). cbn [length drop].
    change (c :: ds' ++ rest) with ((c :: ds') ++ rest). rewrite span_digits_app; [done|by constructor|done].
  - cbn. rewrite drop_0, span_digits_app by done. by destruct ds.
  - cbn. rewrite drop_0, span_digits_app by done. by destruct ds.
Qed.

Lemma integer_text_numchars m sign ds : integer_text m sign ds -> Forall numchar m /\ m <> [].
Proof.
  intros (-> & Hs & Hd & Hne). split; [|by destruct sign, ds].
  apply Forall_app. split; [|by apply digits_numchar]. destruct Hs as [->|[->| ->]]; repeat constructor; set_solver.
Qed.

Lemma Number_of_integer_text m sign ds :
  integer_text m sign ds -> Number_of_string m = signed (minus sign) (round_ratio (parse_digits ds) 1).
Proof.
  intros Hm. rewrite Number_of_numchars by (by eapply integer_text_numchars).
  destruct Hm as (-> & Hs & Hd & Hne). assert (literal ds ds [] 0) as Hl.
  { split; [done..|]. exists []. by rewrite app_nil_r. }
  pose proof (scan_literal ds ds [] 0 [] Hl stops_nil) as Hsc. rewrite !app_nil_r in Hsc.
  destruct Hd as [|c ds Hc Hd]; [done|]. unfold scan_number.
  assert (scan_sign (sign ++ c :: ds) = (minus sign, c :: ds)) as ->
    by (destruct Hs as [->|[->| ->]]; [by apply scan_sign_digit|done..]).
  rewrite strip_infinity_digit, Hsc by done. unfold decimal_mag.
  cbn [length Z.of_nat Z.sub Z.leb Z.compare]. cbn [Z.opp Z.add]. by rewrite Z.pow_0_r, Z.mul_1_r.
Qed.

Lemma parse_digits_nonneg ds : digits ds -> 0 <= parse_digits ds.
Proof.
  intros Hd. unfold parse_digits. assert (forall acc, 0 <= acc -> 0 <= foldl (fun acc c => acc * 10 + (c - 48)) acc ds) as H; [|by apply H].
  induction Hd as [|c ds Hc%is_digit_range Hd IH]; intros acc Ha; cbn; [done|]. apply IH. lia.
Qed.

Lemma BigInt_of_integer_text m sign ds :
  integer_text m sign ds ->
  BigInt_of_string (if decide (head m = Some 43) then tail m else m) = Some (digits_value m).
Proof.
  intros Hm. rewrite (digits_value_text _ _ _ Hm). destruct Hm as (-> & Hs & Hd & Hne).
  assert (BigInt_of_string (45 :: ds) = Some (- parse_digits ds)) as Hminus.
  { unfold BigInt_of_string. rewrite trim_numchars by (constructor; [unfold numchar; set_solver|by apply digits_numchar]).
    cbn. by rewrite parse_nonempty_digits. }
  destruct Hs as [->|[->| ->]]; cbn [app head tail].
  - rewrite decide_False; [by apply BigInt_of_digits|]. destruct Hd as [|c ds Hc%is_digit_range Hd]; [done|].
    cbn. intros H. apply (inj Some) in H. lia.
  - rewrite decide_True by done. by apply BigInt_of_digits.
  - by rewrite decide_False.
Qed.

(** No integer text loses a digit. *)
Lemma integerFromDigits_exact m sign ds :
  integer_text m sign ds -> exists w, integerFromDigits m = Ok w /\ canonical_integer (digits_value m) w.
Proof.
  intros Hm. unfold integerFromDigits. rewrite (BigInt_of_integer_text m sign ds Hm).
  rewrite (Number_of_integer_text m sign ds Hm), (digits_value_text m sign ds Hm).
  assert (0 <= parse_digits ds) as Hn by (apply parse_digits_nonneg, Hm). rewrite isSafeInteger_text by done.
  destruct (Z.leb_spec (parse_digits ds) MAX_SAFE_INTEGER) as [Hle|Hgt].
  - eexists. split; [done|]. apply canonical_safe; [by apply safe_BigInt|]. apply safe_spec. destruct (minus sign); lia.
  - eexists. split; [done|]. apply canonicalize_bigint.
Qed.

(** ** Truncation *)

Lemma quot_signed (neg : bool) a : 0 <= a -> Z.quot (negate neg a) UNIT = negate neg (a / UNIT).
Proof.
  intros Ha. pose proof UNIT_pos. destruct neg; [rewrite Z.quot_opp_l by lia; f_equal|]; by apply Z.quot_div_nonneg.
Qed.

Lemma finite_num d u :
  wf_double d -> num_of_double d = NFin u -> 0 <= dmag d < INF_MAG /\ u = negate (dneg d) (units (dmag d)).
Proof.
  intros Hd. pose proof (dmag_bound d). unfold num_of_double. destruct (Z.ltb_spec INF_MAG (dmag d)); [done|].
  destruct (Z.eqb_spec (dmag d) INF_MAG); [by destruct (dneg d)|]. intros [= <-]. split; [lia|done].
Qed.

Lemma Math_trunc_exact d u :
  wf_double d -> num_of_double d = NFin u -> BigInt_of_double (Math_trunc d) = Some (Z.quot u UNIT).
Proof.
  intros Hd Hu. pose proof UNIT_pos. destruct (finite_num d u Hd Hu) as [Hm E]. unfold Math_trunc. rewrite Hu.
  pose proof (units_nonneg (dmag d) ltac:(lia)) as Hn. rewrite E, quot_signed by done.
  destruct (Z.eqb_spec (negate (dneg d) (units (dmag d)) mod UNIT) 0) as [E0|E0].
  - assert (units (dmag d) mod UNIT = 0) as E1.
    { destruct (dneg d); [|done]. apply Z.mod_divide in E0; [|lia]. apply Z.mod_divide; [lia|]. by apply Z.divide_opp_r. }
    apply BigInt_of_double_num. rewrite Hu, E. f_equal. apply Z_div_exact_full_2 in E1; [|lia]. destruct (dneg d); lia.
  - assert (units (dmag d) < 2 ^ 52 * UNIT) as Hlt.
    { destruct (units_double_value (dmag d) Hm) as [(f & Ef & _)|Hlt]; [|lia]. destruct E0. rewrite Ef.
      destruct (dneg d); [rewrite <- Z.mul_opp_l|]; apply Z.mod_mul; lia. }
    assert (Z.abs (negate (dneg d) (units (dmag d))) = units (dmag d)) as -> by (destruct (dneg d); lia).
    assert (0 <= units (dmag d) / UNIT < 2 ^ 52) by (split; [apply Z.div_pos; lia|apply Z.div_lt_upper_bound; lia]).
    rewrite <- round_ratio_exact by lia. apply safe_BigInt. unfold MAX_SAFE_INTEGER. lia.
Qed.

(** ** INTEGER *)

(** The integer INTEGER is to read from a value, where there is one: numbers
    truncate toward zero, and a text starts with an optionally signed run of
    digits. *)
Definition intended_integer (v : value) : option Z :=
  match v with
  | VBigint n => Some n
  | VNumber d => match num_of_double d with NFin u => Some (Z.quot u UNIT) | _ => None end
  | VBool b => Some (if b then 1 else 0)
  | VText s => digits_value <$> integer_prefix (trim s)
  | _ => None
  end.

Lemma integer_prefix_nonempty s m : integer_prefix s = Some m -> s <> [].
Proof. by intros H ->. Qed.

Lemma canonical_bool b : canonical_integer (if b : bool then 1 else 0) (VNumber (double_of_Z (if b then 1 else 0))).
Proof.
  apply canonical_safe; [|by destruct b]. apply BigInt_of_double_num.
  destruct (double_of_Z_value (if b then 1 else 0)) as [-> _]; [left; by destruct b|by destruct b|done].
Qed.

Definition wf_number (v : value) : Prop :=
  match v with
  | VNumber d => wf_double d
  | _ => True
  end.

Lemma INTEGER_parse_exact v n :
  wf_number v -> intended_integer v = Some n -> exists w, INTEGER_parse v = Ok w /\ canonical_integer n w.
Proof.
  intros Hv Hn. destruct v as [|d|z|b|s|bl|o]; cbn in Hn; try done.
  all: cbn [INTEGER_parse].
  - destruct (num_of_double d) as [| |u|] eqn:Hu; try done. apply (inj Some) in Hn. subst n.
    eexists. split; [done|]. apply canonicalize_number. by apply Math_trunc_exact.
  - apply (inj Some) in Hn. subst n. eexists. split; [done|]. apply canonicalize_bigint.
  - apply (inj Some) in Hn. subst n. eexists. split; [done|]. apply canonical_bool.
  - destruct (integer_prefix (trim s)) as [m|] eqn:Hm; [|done]. apply (inj Some) in Hn. subst n.
    rewrite decide_False by (by eapply integer_prefix_nonempty).
    apply integer_prefix_spec in Hm as (sign & ds & rest & Ht & _). by eapply integerFromDigits_exact.
Qed.

Lemma is_integer_text_spec m : is_integer_text m = true -> exists sign ds, integer_text m sign ds.
Proof.
  unfold is_integer_text. intros H%bool_decide_eq_true. apply integer_prefix_spec in H as (sign & ds & rest & Ht & _). eauto.
Qed.

Lemma parseNumericText_exact s :
  is_integer_text (trim s) = true ->
  exists w, parseNumericText s = Ok w /\ integer_of w = Some (digits_value (trim s)).
Proof.
  intros H. destruct (is_integer_text_spec _ H) as (sign & ds & Hm). unfold parseNumericText. rewrite H.
  destruct (integerFromDigits_exact _ _ _ Hm) as (w & Hw & [Hi _]). rewrite Hw.
  rewrite (Number_of_integer_text _ _ _ Hm), (digits_value_text _ _ _ Hm) in *.
  assert (0 <= parse_digits ds) as Hn by (apply parse_digits_nonneg, Hm).
  destruct (Z.le_gt_cases (parse_digits ds) MAX_SAFE_INTEGER) as [Hle|Hgt].
  - rewrite safe_not_beyond by lia. cbn [negb]. eexists. split; [done|]. by apply safe_BigInt.
  - destruct (unsafe_rounds (minus sign) (parse_digits ds) ltac:(lia)) as [_ ->]. cbn [negb]. by exists w.
Qed.

Lemma is_integer_text_prefix m : is_integer_text m = true -> integer_prefix m = Some m.
Proof. by intros H%bool_decide_eq_true. Qed.

(** C30: No conversion to an integer loses a digit.  Whatever integer a value
    stands for (a bigint, the truncation toward zero of a finite number, the
    signed digit run a text starts with), INTEGER's [parse] answers exactly
    that integer, at any size, in the one canonical form: a number up to
    2^53 - 1 and a bigint beyond.  On a text that is all integer, NUMERIC's
    [parse] gives the same and the arithmetic coercion of text gives the same
    integer: no route goes through a rounded double. *)
Theorem integer_conversions_exact v n :
  wf_number v -> intended_integer v = Some n ->
  (exists w, INTEGER_parse v = Ok w /\ canonical_integer n w) /\
  (forall s, v = VText s -> is_integer_text (trim s) = true ->
    NUMERIC_parse v = INTEGER_parse v /\ exists w, parseNumericText s = Ok w /\ integer_of w = Some n).
Proof.
  intros Hv Hn. split; [by apply INTEGER_parse_exact|]. intros s -> Hs.
  pose proof (is_integer_text_prefix _ Hs) as Hp. cbn in Hn. rewrite Hp in Hn. apply (inj Some) in Hn. subst n.
  split; [|by apply parseNumericText_exact]. cbn. rewrite Hs, Hp. by case_decide.
Qed.

(** 2^53 + 1 has no double: the text and its integer survive. *)
Lemma integer_conversions_exact_witness :
  INTEGER_parse (VText (js " 9007199254740993 ")) = Ok (VBigint 9007199254740993) /\
  exists w, INTEGER_parse (VText (js " 9007199254740993 ")) = Ok w /\ canonical_integer 9007199254740993 w.
Proof.
  split; [by vm_compute|].
  exact (proj1 (integer_conversions_exact (VText (js " 9007199254740993 ")) 9007199254740993 I ltac:(by vm_compute))).
Defined.

(** ** The text of a number *)

Lemma shortest_le mag n j fuel k :
  is_Some (digits_of_length mag n j) -> k <= j < k + Z.of_nat fuel -> (shortest mag n k fuel).2 <= j.
Proof.
  intros [s Hj]. revert k. induction fuel as [|fuel IH]; intros k Hk; [lia|]. cbn [shortest].
  destruct (digits_of_length mag n k) eqn:E; [cbn; lia|].
  destruct (decide (k = j)) as [->|]; [congruence|]. apply IH. lia.
Qed.

Lemma safe_exponent n :
  0 < n <= MAX_SAFE_INTEGER ->
  exists L, decimal_exponent (n * UNIT) = L /\ 1 <= L <= 16 /\ L = Z.of_nat (length (dec_nonneg n)).
Proof.
  intros Hn. pose proof UNIT_pos. unfold decimal_exponent. destruct (Z.ltb_spec (n * UNIT) UNIT); [nia|].
  rewrite Z.div_mul by lia. eexists. split; [done|]. split; [|done].
  pose proof (dec_nonneg_length n ltac:(lia)) as Hl. set (L := Z.of_nat _) in *.
  assert (L - 1 < 16).
  { apply (Z.pow_lt_mono_r_iff 10); [lia..|]. unfold MAX_SAFE_INTEGER in Hn. change (10 ^ 16) with 10000000000000000. lia. }
  assert (1 <= L); [|lia]. subst L. destruct (dec_nonneg_spec n) as (_ & _ & Hne & _); [lia|].
  destruct (dec_nonneg n); [done|]. cbn [length]. lia.
Qed.

(** A safe integer prints as digits. *)
Lemma safe_mag_digits mag n :
  0 < n <= MAX_SAFE_INTEGER -> 0 < mag < INF_MAG -> units mag = n * UNIT ->
  digits (mag_to_string mag) /\ mag_to_string mag <> [].
Proof.
  intros Hn Hm Hu. pose proof UNIT_pos. destruct (safe_exponent n Hn) as (L & HL & Hb & HLen).
  assert (is_Some (digits_of_length mag L L)) as Hsome.
  { unfold digits_of_length. rewrite Z.sub_diag, Hu. cbn [scaled Z.leb Z.compare]. rewrite Z.pow_0_r, Z.mul_1_r, Z.div_mul by lia.
    assert (decimal_mag n 0 = mag) as ->.
    { unfold decimal_mag. cbn [Z.leb Z.compare]. rewrite Z.pow_0_r, Z.mul_1_r. apply round_ratio_near; [lia|done|].
      rewrite Hu. replace (n * UNIT - n * UNIT * 1) with 0 by lia. cbn [Z.abs]. nia. }
    rewrite Z.eqb_refl. cbn [andb]. by destruct (decimal_mag (n + 1) 0 =? mag). }
  unfold mag_to_string. rewrite Hu, HL.
  pose proof (shortest_le mag L L 17 1 Hsome ltac:(lia)) as Hk.
  destruct (shortest_found mag 17 1 Hm) as (s & k & E & Hk1 & _ & Hs); [lia..|]. rewrite Hu, HL in E. rewrite E in *. cbn [snd] in Hk.
  assert (forall ds n', digits ds -> ds <> [] -> Z.of_nat (length ds) <= n' <= 21 -> digits (layout ds n') /\ layout ds n' <> []) as Hlay.
  { intros ds n' Hd Hne Hr. unfold layout. rewrite (proj2 (Z.leb_le (Z.of_nat (length ds)) n')), (proj2 (Z.leb_le n' 21)) by lia.
    cbn [andb]. split; [apply Forall_app; split; [done|apply digits_zeros]|by destruct ds]. }
  assert (0 < 10 ^ (k - 1)) by (apply Z.pow_pos_nonneg; lia).
  destruct (Z.eqb_spec s (10 ^ k)) as [Es|Es].
  - apply Hlay; [by repeat constructor|done|].
    change (Z.of_nat (length (dec_nonneg 1))) with 1. lia.
  - destruct (dec_nonneg_spec s) as (_ & Hd & Hne & _); [lia|]. apply Hlay; [done..|].
    pose proof (dec_nonneg_length s ltac:(lia)) as Hl.
    assert (Z.of_nat (length (dec_nonneg s)) - 1 < k) by (apply (Z.pow_lt_mono_r_iff 10); lia). lia.
Qed.

Lemma safe_double_text d n :
  wf_double d -> BigInt_of_double d = Some n -> safe n = true ->
  exists sign ds, integer_text (number_to_string d) sign ds.
Proof.
  intros Hd Hn Hs. apply BigInt_of_double_num in Hn. apply safe_spec in Hs.
  destruct (finite_num d _ Hd Hn) as [Hm Hu]. unfold number_to_string.
  assert (is_nan d = false) as -> by (unfold is_nan; by rewrite Hn).
  destruct (Z.eqb_spec (dmag d) 0) as [E0|E0].
  { exists [], (js "0"). split; [done|]. split; [by left|]. split; [by repeat constructor|done]. }
  destruct (Z.eqb_spec (dmag d) INF_MAG); [lia|].
  pose proof (units_pos (dmag d) ltac:(lia)). pose proof UNIT_pos.
  assert (Z.abs n * UNIT = units (dmag d)) as Ha by (destruct (dneg d), (Z.abs_spec n) as [[? ->]|[? ->]]; nia).
  destruct (safe_mag_digits (dmag d) (Z.abs n)) as [Hdig Hne]; [nia|lia|done|].
  exists (if dneg d then [45] else []), (mag_to_string (dmag d)).
  split; [by destruct (dneg d)|]. split; [destruct (dneg d); [by right; right|by left]|done].
Qed.

Lemma integer_text_parses m sign ds :
  integer_text m sign ds -> INTEGER_parse (VText m) = integerFromDigits m.
Proof.
  intros Hm. cbn [INTEGER_parse]. destruct (integer_text_numchars _ _ _ Hm) as [Hc Hne].
  rewrite trim_numchars by done. rewrite decide_False by done.
  pose proof (integer_prefix_text m sign ds [] Hm I) as E. rewrite app_nil_r in E. by rewrite E.
Qed.

Lemma dec_integer_text n : exists sign ds, integer_text (dec n) sign ds /\ digits_value (dec n) = n.
Proof.
  assert (exists sign ds, integer_text (dec n) sign ds /\ negate (minus sign) (parse_digits ds) = n) as (sign & ds & Ht & Hn).
  { unfold dec. destruct (Z.ltb_spec n 0) as [Hn|Hn].
    - destruct (dec_nonneg_spec (- n)) as (Hp & Hd & Hne & _); [lia|]. exists [45], (dec_nonneg (- n)).
      split; [split; [done|]; split; [by right; right|done]|]. rewrite Hp, bool_decide_true by done. lia.
    - destruct (dec_nonneg_spec n) as (Hp & Hd & Hne & _); [lia|]. exists [], (dec_nonneg n).
      split; [split; [done|]; split; [by left|done]|done]. }
  exists sign, ds. split; [done|]. by rewrite (digits_value_text _ _ _ Ht).
Qed.

Lemma canonical_bigint n w : canonical_integer n w -> isCanonicalNumeric (VBigint n) = true -> w = VBigint n.
Proof.
  intros (Hi & Hv & Hc) Hn. destruct w as [|d|m| | | |]; try done; cbn in *.
  - apply andb_prop in Hv as [_ Hv]. unfold isSafeInteger in Hv. rewrite Hi in Hv. apply safe_spec in Hv.
    apply orb_true_iff in Hn. rewrite !Z.ltb_lt in Hn. lia.
  - congruence.
Qed.

(** A value through its text and back. *)
Definition through_text (type : LogicalType) (v : value) : res value :=
  let* t := TEXT_parse v in parseValue t type.

Lemma integer_through_text v :
  wf_number v -> INTEGER_validate v = true -> isCanonicalNumeric v = true -> v <> VNumber NEG_ZERO ->
  through_text INTEGER_TYPE v = Ok v.
Proof.
  intros Hwf Hv Hc Hz. unfold through_text, parseValue. destruct v as [|d|n| | | |]; try done; cbn in Hwf, Hv.
  all: cbn -[INTEGER_parse number_to_string dec].
  - apply andb_prop in Hv as [_ Hs]. pose proof Hs as Hs'. unfold isSafeInteger in Hs'.
    destruct (BigInt_of_double d) as [n|] eqn:Hn; [|done]. destruct (safe_double_text d n Hwf Hn Hs') as (sign & ds & Ht).
    rewrite (integer_text_parses _ _ _ Ht). unfold integerFromDigits.
    rewrite number_text_roundtrip by (congruence || done). by rewrite Hs.
  - destruct (dec_integer_text n) as (sign & ds & Ht & En). rewrite (integer_text_parses _ _ _ Ht).
    destruct (integerFromDigits_exact _ _ _ Ht) as (w & -> & Hw). f_equal. apply canonical_bigint; [congruence|done].
Qed.

Lemma real_through_text d :
  wf_double d -> d <> NEG_ZERO -> is_nan d = false -> through_text REAL_TYPE (VNumber d) = Ok (VNumber d).
Proof.
  intros Hd Hz Hn. unfold through_text, parseValue. cbn -[REAL_parse number_to_string]. cbn [REAL_parse].
  rewrite trim_id by (apply Forall_forall; intros u Hu; apply not_space_low; by eapply number_to_string_printable).
  rewrite decide_False.
  - by rewrite parseFloat_text_roundtrip, Hn.
  - intros E. destruct (number_text_scan d Hd Hz Hn) as [Hs _]. by rewrite E in Hs.
Qed.

Lemma object_through_text o :
  wf_json o -> plain o <> JNull -> through_text JSON_TYPE (VObject o) = Ok (sql_of_json (plain o)).
Proof.
  intros Hwf Hp. unfold through_text, parseValue. cbn -[JSON_parse stringify]. unfold safeJsonParse.
  rewrite JSON_parse_stringify by done. cbn [default]. by rewrite bool_decide_false.
Qed.

Lemma text_through_blob s :
  wf_string s -> well_formed s = true ->
  (let* b := BLOB_parse (VText s) in TEXT_parse b) = Ok (VText s).
Proof.
  intros Hw Hs. change (Ok (VText (decodeUtf8 (utf8_encode s))) = Ok (VText s)). do 2 f_equal. unfold decodeUtf8, utf8_encode.
  rewrite d_run_cps by (by apply code_points_scalar). by apply units_of_code_points.
Qed.

(** Casting to TEXT and back restores the value.  A canonical INTEGER
    (safe number or large bigint) and any non-NaN REAL come back unchanged,
    apart from the sign of a negative zero; a JSON array or object comes back
    as [JSON.stringify] keeps it ([plain]: non-finite numbers become null and
    [-0] loses its sign); and a well-formed text comes back from BLOB. *)
Theorem text_roundtrip v :
  wf_number v -> v <> VNumber NEG_ZERO ->
  (INTEGER_validate v = true -> isCanonicalNumeric v = true -> through_text INTEGER_TYPE v = Ok v) /\
  (REAL_validate v = true -> is_nan_value v = false -> through_text REAL_TYPE v = Ok v) /\
  (forall o, v = VObject o -> wf_json o -> plain o <> JNull -> through_text JSON_TYPE v = Ok (sql_of_json (plain o))) /\
  (forall s, v = VText s -> wf_string s -> well_formed s = true -> (let* b := BLOB_parse v in TEXT_parse b) = Ok v).
Proof.
  intros Hwf Hz. split_and!.
  - intros Hi Hc. by apply integer_through_text.
  - intros Hr Hn. destruct v as [|d| | | | |]; try done. apply real_through_text; [done|congruence|done].
  - intros o ->. apply object_through_text.
  - intros s ->. apply text_through_blob.
Qed.

(** [-(2^53 - 1)] by way of its text. *)
Lemma text_roundtrip_witness :
  through_text INTEGER_TYPE (VNumber (Number_of_BigInt (-9007199254740991)))
  = Ok (VNumber (Number_of_BigInt (-9007199254740991))).
Proof.
  destruct (text_roundtrip (VNumber (Number_of_BigInt (-9007199254740991)))) as [H _].
  - split; [split|left]; by vm_compute.
  - by vm_compute.
  - exact (H ltac:(by vm_compute) eq_refl).
Defined.

(** ** CAST *)

Section Cast.
Context (toLowerCase : jsstring -> jsstring).

(** The types whose values CAST can answer for; NULL converts nothing. *)
Definition castable : list LogicalType :=
  [INTEGER_TYPE; REAL_TYPE; TEXT_TYPE; BLOB_TYPE; BOOLEAN_TYPE toLowerCase; NUMERIC_TYPE; ANY_TYPE; JSON_TYPE].

Definition non_finite (v : value) : bool :=
  match v with
  | VNumber d => negb (is_finite d)
  | _ => false
  end.

Lemma valid_if v t validate :
  t_validate t = Some validate -> (v = VNull \/ validate v = true) -> isValidForType v t = true.
Proof. intros E Hv. unfold isValidForType. rewrite E. by destruct Hv as [->| ->]; [|destruct (is_null v)]. Qed.

Lemma INTEGER_parse_valid v w :
  wf_number v -> non_finite v = false -> INTEGER_parse v = Ok w -> INTEGER_validate w = true.
Proof.
  intros Hv Hf Hw. destruct (intended_integer v) as [n|] eqn:Hn.
  - destruct (INTEGER_parse_exact v n Hv Hn) as (w' & Hw' & _ & ? & _). congruence.
  - destruct v as [|d|z|b|s|bl|o]; cbn in Hn, Hf, Hw; try done; [by injection Hw as <-|..].
    + unfold is_finite in Hf. by destruct (num_of_double d).
    + destruct (decide (trim s = [])); [by injection Hw as <-|]. by destruct (integer_prefix (trim s)).
Qed.

Lemma integerFromDigits_number m w : integerFromDigits m = Ok w -> NUMERIC_validate w = true.
Proof.
  unfold integerFromDigits. destruct (isSafeInteger _); [by intros [= <-]|].
  destruct (BigInt_of_string _); [|done]. intros [= <-]. cbn. by destruct (safe _).
Qed.

Lemma NUMERIC_parse_valid v w : NUMERIC_parse v = Ok w -> NUMERIC_validate w = true.
Proof.
  destruct v as [|d|n|b|s|bl|o]; cbn -[canonicalizeInteger]; try (by intros [= <-]).
  - intros [= <-]. cbn. by destruct (safe n).
  - case_decide; [by intros [= <-]|]. case_match; [apply integerFromDigits_number|]. case_match; [done|by intros [= <-]].
Qed.

Lemma sql_of_json_valid j : JSON_validate (sql_of_json j) = true.
Proof. by destruct j. Qed.

Lemma REAL_parse_valid v w : REAL_parse v = Ok w -> REAL_validate w = true.
Proof.
  destruct v as [|d|n|b|s|bl|o]; cbn; try (by intros [= <-]); [|done..].
  case_decide; [by intros [= <-]|]. case_match; [done|by intros [= <-]].
Qed.

Lemma BOOLEAN_parse_valid v w : BOOLEAN_parse toLowerCase v = Ok w -> BOOLEAN_validate w = true.
Proof.
  destruct v as [|d|n|b|s|bl|o]; cbn; try (by intros [= <-]); [|done..]. repeat case_match; by intros [= <-].
Qed.

Lemma JSON_parse_valid v w : JSON_type_parse v = Ok w -> JSON_validate w = true.
Proof.
  destruct v as [|d|n|b|s|bl|o]; cbn; try (by intros [= <-]); [|done..].
  case_match; [done|]. intros [= <-]. apply sql_of_json_valid.
Qed.

Lemma TEXT_parse_valid v w : TEXT_parse v = Ok w -> TEXT_validate w = true.
Proof. unfold TEXT_parse. intros [= <-]. by destruct (valueToText v). Qed.

Lemma encode_text_valid t : BLOB_validate (encode_text t) = true.
Proof. by destruct t. Qed.

Lemma BLOB_parse_valid v w : BLOB_parse v = Ok w -> BLOB_validate w = true.
Proof. destruct v; cbn; try done; by intros [= <-]. Qed.

Lemma castFallback_numeric v t :
  t_typeName t ∈ [js "INTEGER"; js "REAL"; js "NUMERIC"] -> castFallback v t = VNumber 0.
Proof.
  rewrite !elem_of_cons, elem_of_nil. unfold castFallback. intros [->|[->|[->|[]]]]; by repeat case_decide.
Qed.

Lemma zero_valid : INTEGER_validate (VNumber 0) = true.
Proof. by vm_compute. Qed.

Lemma castFallback_other v t :
  t_typeName t ∉ [js "INTEGER"; js "REAL"; js "NUMERIC"; js "TEXT"; js "BLOB"] ->
  castFallback v t = match t_validate t with Some validate => if validate v then v else VNull | None => VNull end.
Proof. intros Hn. unfold castFallback. repeat (case_decide as E; [destruct Hn; rewrite E; set_solver|clear E]). done. Qed.

(** C29: CAST never throws and answers a value of its target type: for every
    castable built-in, [lenientCast] of any value passes the target's own
    [validate], and casts to TEXT and BLOB (the types for which
    [castCanYieldNull] promises it) answer NULL only for NULL.  The exception is
    a non-finite number cast to INTEGER, which comes back as it is and which
    INTEGER rejects, although the cast advertises INTEGER. *)
Theorem cast_inhabits v t :
  wf_number v -> t ∈ castable ->
  (t_id t <> t_id INTEGER_TYPE \/ non_finite v = false -> isValidForType (lenientCast v t) t = true) /\
  (castCanYieldNull t = false -> v <> VNull -> lenientCast v t <> VNull) /\
  (non_finite v = true -> lenientCast v INTEGER_TYPE = v /\ isValidForType v INTEGER_TYPE = false).
Proof.
  intros Hv Ht. split_and!.
  - intros Hi. unfold lenientCast. destruct (is_null v) eqn:Hn; [done|].
    unfold castable in Ht. rewrite !elem_of_cons in Ht. destruct_or! Ht; subst; [..|by apply elem_of_nil in Ht]; (eapply valid_if; [done|right]);
      cbn [t_parse INTEGER_TYPE REAL_TYPE TEXT_TYPE BLOB_TYPE BOOLEAN_TYPE NUMERIC_TYPE ANY_TYPE JSON_TYPE].
    + destruct (INTEGER_parse v) eqn:E; [|rewrite castFallback_numeric by left; apply zero_valid].
      eapply INTEGER_parse_valid; [done| |done]. by destruct Hi.
    + destruct (REAL_parse v) eqn:E; [by eapply REAL_parse_valid|by rewrite castFallback_numeric by (right; left)].
    + by eapply TEXT_parse_valid.
    + destruct (BLOB_parse v) eqn:E; [by eapply BLOB_parse_valid|]. apply encode_text_valid.
    + destruct (BOOLEAN_parse _ v) eqn:E; [by eapply BOOLEAN_parse_valid|]. rewrite castFallback_other by (apply (bool_decide_unpack _); exact I). cbn.
      by destruct (BOOLEAN_validate v) eqn:Eb.
    + destruct (NUMERIC_parse v) eqn:E; [by eapply NUMERIC_parse_valid|by rewrite castFallback_numeric by (right; right; left)].
    + done.
    + destruct (JSON_type_parse v) eqn:E; [by eapply JSON_parse_valid|]. rewrite castFallback_other by (apply (bool_decide_unpack _); exact I). cbn.
      by destruct (JSON_validate v) eqn:Eb.
  - intros Hc Hn. unfold castable in Ht. rewrite !elem_of_cons in Ht.
    destruct_or! Ht; subst; try done; [..|by apply elem_of_nil in Ht]; by destruct v.
  - destruct v as [|d| | | | |]; try done. cbn -[is_integer isSafeInteger]. unfold non_finite, is_finite, Math_trunc, is_integer, BigInt_of_double.
    destruct (num_of_double d) eqn:E; try done; intros _; rewrite E, andb_false_r; done.
Qed.

End Cast.

(** Text that is no integer casts to 0; NaN slips through. *)
Lemma cast_inhabits_witness :
  isValidForType (lenientCast (VText (js "abc")) INTEGER_TYPE) INTEGER_TYPE = true /\
  lenientCast (VNumber NAN_BITS) INTEGER_TYPE = VNumber NAN_BITS.
Proof.
  split.
  - destruct (cast_inhabits (fun s => s) (VText (js "abc")) INTEGER_TYPE) as [H _]; [exact I|left|exact (H (or_intror eq_refl))].
  - destruct (cast_inhabits (fun s => s) (VNumber NAN_BITS) INTEGER_TYPE) as (_ & _ & H); [|left|].
    + split; [split; by vm_compute|by right].
    + exact (proj1 (H ltac:(by vm_compute))).
Defined.

(** ** The write-path row conversion *)

(** One cell. *)
Definition coerce_cell (sourceType : option LogicalType) (target : LogicalType) (v : value) : res value :=
  match buildCellCoercion sourceType target with
  | Some convert => convert v
  | None => Ok v
  end.

(** Cell by cell, the first failure ending it. *)
Fixpoint coerce_cells (sourceTypes : list (option LogicalType)) (columns : list ColumnSchema) (row : Row) : res Row :=
  match columns, row with
  | c :: columns', v :: row' =>
    let* w := coerce_cell (mjoin (head sourceTypes)) (c_logicalType c) v in
    let* rest := coerce_cells (tail sourceTypes) columns' row' in
    Ok (w :: rest)
  | _, _ => Ok row
  end.

(** What a DML statement does with the row: no closure means no work. *)
Definition apply_coercion (coercion : option (Row -> res Row)) (row : Row) : res Row :=
  match coercion with
  | Some convert => convert row
  | None => Ok row
  end.

Lemma cell_converters_from i sourceTypes columns :
  Forall (fun c => (i <= c.1)%nat) (cell_converters i sourceTypes columns).
Proof.
  revert i sourceTypes. induction columns as [|c columns IH]; intros i sourceTypes; cbn; [constructor|].
  apply Forall_app. split; [destruct (buildCellCoercion _ _); by repeat constructor|].
  eapply Forall_impl; [apply IH|]. cbn. lia.
Qed.

Lemma convert_cells_reference sourceTypes columns pre row :
  convert_cells (cell_converters (length pre) sourceTypes columns) (pre ++ row)
  = let* row' := coerce_cells sourceTypes columns row in Ok (pre ++ row').
Proof.
  revert sourceTypes pre row. induction columns as [|c columns IH]; intros sourceTypes pre row; [done|].
  destruct row as [|v row].
  { pose proof (cell_converters_from (length pre) sourceTypes (c :: columns)) as H. cbn [coerce_cells res_bind].
    destruct H as [|[i f] l Hi H]; [done|]. cbn. rewrite lookup_ge_None_2; [done|]. rewrite length_app. cbn in *. lia. }
  cbn [cell_converters coerce_cells]. unfold coerce_cell.
  specialize (IH (tail sourceTypes)). destruct (buildCellCoercion _ _) as [convert|]; cbn [app convert_cells].
  - rewrite lookup_app_r, Nat.sub_diag by lia. cbn [lookup list_lookup]. destruct (convert v) as [w|e]; [|done]. cbn [res_bind].
    rewrite insert_app_r_alt, Nat.sub_diag by lia. cbn [insert list_insert].
    specialize (IH (pre ++ [w]) row). rewrite length_app, Nat.add_1_r in IH. rewrite <- !(assoc_L (++)) in IH. cbn [app] in IH.
    rewrite IH. destruct (coerce_cells _ _ _); [|done]. cbn. by rewrite <- (assoc_L (++)).
  - specialize (IH (pre ++ [v]) row). rewrite length_app, Nat.add_1_r in IH. rewrite <- !(assoc_L (++)) in IH. cbn [app] in IH.
    rewrite IH. cbn. destruct (coerce_cells _ _ _); [|done]. cbn. by rewrite <- (assoc_L (++)).
Qed.

Lemma buildRowCoercion_reference sourceTypes columns row :
  apply_coercion (buildRowCoercion sourceTypes columns) row = coerce_cells sourceTypes columns row.
Proof.
  pose proof (convert_cells_reference sourceTypes columns [] row) as H. cbn [length app] in H.
  assert (forall r : res Row, (let* row' := r in Ok row') = r) as E by (by intros []). rewrite E in H. rewrite <- H.
  unfold buildRowCoercion. by destruct (cell_converters 0 sourceTypes columns).
Qed.

Section RowCoercion.
Context (toLowerCase : jsstring -> jsstring).

(** A value the column may hold. *)
Definition inhabits (w : value) (t : LogicalType) : Prop := w = VNull \/ conformsToType w t = true.

Lemma valid_inhabits w t : t ∈ castable toLowerCase -> isValidForType w t = true -> inhabits w t.
Proof.
  intros Ht Hv. unfold isValidForType in Hv. destruct (is_null w) eqn:Hn; [left; by destruct w|]. right. revert Hv.
  unfold castable in Ht. rewrite !elem_of_cons in Ht. destruct_or! Ht; subst; [..|by apply elem_of_nil in Ht];
    destruct w; try done. by intros [_ ?]%andb_prop.
Qed.

Lemma validateAndParse_inhabits v w t :
  t ∈ castable toLowerCase -> validateAndParse v t = Ok w -> inhabits w t.
Proof.
  intros Ht Hw. apply valid_inhabits; [done|]. unfold validateAndParse in Hw. destruct (parseValue v t) as [p|]; [|done].
  cbn in Hw. unfold validateValue in Hw. unfold isValidForType. destruct (is_null p) eqn:Hn; [by injection Hw as <-|].
  destruct (t_validate t) as [validate|]; [|injection Hw as <-; by rewrite Hn].
  destruct (validate p) eqn:E; [|done]. injection Hw as <-. by rewrite Hn.
Qed.

Lemma coerce_cell_inhabits st t v w :
  t ∈ castable toLowerCase -> coerce_cell st t v = Ok w -> inhabits w t.
Proof.
  intros Ht. unfold coerce_cell, buildCellCoercion. destruct (same_type st t); cbn [negb]; [|by apply validateAndParse_inhabits].
  destruct (buildConformanceCheck t) as [conforms|] eqn:E.
  - destruct (is_null v) eqn:Hn; cbn [orb]; [intros [= <-]; left; by destruct v|].
    destruct (conforms v) eqn:Ec; [|by apply validateAndParse_inhabits]. intros [= <-]. right.
    unfold conformsToType. by rewrite E.
  - intros _. right. unfold conformsToType. by rewrite E.
Qed.

Lemma coerce_cells_lookup sts columns row row' i :
  coerce_cells sts columns row = Ok row' ->
  match row !! i, columns !! i with
  | Some v, Some c => exists w, row' !! i = Some w /\ coerce_cell (mjoin (sts !! i)) (c_logicalType c) v = Ok w
  | r, _ => row' !! i = r
  end.
Proof.
  revert sts row row' i. induction columns as [|c columns IH]; intros sts row row' i H; cbn in H.
  { injection H as <-. by destruct (row !! i). }
  destruct row as [|v row]; [by injection H as <-; destruct i|].
  destruct (coerce_cell _ _ _) as [w|] eqn:Ew; [|done]. cbn in H.
  destruct (coerce_cells _ _ _) as [rest|] eqn:Er; [|done]. cbn in H. injection H as <-.
  destruct i as [|i]; cbn; [exists w; by destruct sts|].
  specialize (IH _ _ _ i Er). by destruct sts; [destruct i|].
Qed.

Lemma coerce_cells_length sts columns row row' :
  coerce_cells sts columns row = Ok row' -> length row' = length row.
Proof.
  revert sts row row'. induction columns as [|c columns IH]; intros sts row row' H; cbn in H; [by injection H as <-|].
  destruct row as [|v row]; [by injection H as <-|]. destruct (coerce_cell _ _ _); [|done]. cbn in H.
  destruct (coerce_cells _ _ _) as [rest|] eqn:Er; [|done]. cbn in H. injection H as <-. cbn. f_equal. by eapply IH.
Qed.

Lemma coerce_cells_throw sts columns row e :
  coerce_cells sts columns row = Throw e ->
  exists i v c, row !! i = Some v /\ columns !! i = Some c /\ validateAndParse v (c_logicalType c) = Throw e.
Proof.
  revert sts row. induction columns as [|c columns IH]; intros sts row H; [done|]. destruct row as [|v row]; [done|].
  cbn in H. destruct (coerce_cell _ _ _) as [w|e'] eqn:Ew; cbn in H.
  - destruct (coerce_cells _ _ _) as [rest|e'] eqn:Er; [done|]. cbn in H. injection H as ->.
    destruct (IH _ _ Er) as (i & v' & c' & H). by exists (S i), v', c'.
  - injection H as ->. exists 0%nat, v, c. split; [done|]. split; [done|]. revert Ew. unfold coerce_cell, buildCellCoercion.
    destruct (negb _); [done|]. destruct (buildConformanceCheck _); [|done]. by destruct (_ || _).
Qed.

(** C28: A row on its way into a table ends with cells its columns may hold.
    For every announced list of source types, the closure [buildRowCoercion]
    builds once per statement (or its absence) turns a row into one of the same
    width in which each cell under a built-in column type is NULL or inhabits
    that type's representation; a cell announced as exactly that type and
    already inhabiting it (or NULL) is not converted again, so stored JSON text
    is never re-parsed; any other cell is what [validateAndParse] gives.  It
    throws only what [validateAndParse] throws on a cell of the row. *)
Theorem row_coercion_inhabits sourceTypes columns row :
  Forall (fun c => c_logicalType c ∈ castable toLowerCase) columns ->
  match apply_coercion (buildRowCoercion sourceTypes columns) row with
  | Ok row' =>
    length row' = length row /\
    forall i v c, row !! i = Some v -> columns !! i = Some c ->
      exists w, row' !! i = Some w /\ inhabits w (c_logicalType c) /\
        (same_type (mjoin (sourceTypes !! i)) (c_logicalType c) = true -> inhabits v (c_logicalType c) -> w = v) /\
        (same_type (mjoin (sourceTypes !! i)) (c_logicalType c) = false -> validateAndParse v (c_logicalType c) = Ok w)
  | Throw e =>
    exists i v c, row !! i = Some v /\ columns !! i = Some c /\ validateAndParse v (c_logicalType c) = Throw e
  end.
Proof.
  intros Hc. rewrite buildRowCoercion_reference. destruct (coerce_cells sourceTypes columns row) as [row'|e] eqn:E;
    [|by eapply coerce_cells_throw].
  split; [by eapply coerce_cells_length|]. intros i v c Hv Hi. pose proof (coerce_cells_lookup _ _ _ _ i E) as H.
  rewrite Hv, Hi in H. destruct H as (w & Hw & Hcell). rewrite Forall_lookup in Hc.
  exists w. split; [done|]. split; [eapply coerce_cell_inhabits; [by eapply Hc|done]|].
  revert Hcell. unfold coerce_cell, buildCellCoercion. split; intros Hs.
  - rewrite Hs in *. cbn [negb] in *. intros Hin. unfold inhabits, conformsToType in Hin.
    destruct (buildConformanceCheck _); [|congruence]. destruct Hin as [->|Hin]; cbn in *; [congruence|].
    rewrite Hin, orb_true_r in Hcell. congruence.
  - by rewrite Hs in Hcell.
Qed.

End RowCoercion.

(** An INTEGER column fed by text and a JSON column fed by JSON. *)
Definition example_column (t : LogicalType) : ColumnSchema := mkColumn (js "c") t (js "BINARY") None.

Lemma row_coercion_inhabits_witness :
  apply_coercion (buildRowCoercion [Some TEXT_TYPE; Some JSON_TYPE] (map example_column [INTEGER_TYPE; JSON_TYPE]))
    [VText (js "5"); VText (js "9")] = Ok [VNumber (double_of_Z 5); VText (js "9")] /\
  inhabits (VText (js "9")) JSON_TYPE.
Proof.
  assert (E : apply_coercion (buildRowCoercion [Some TEXT_TYPE; Some JSON_TYPE] (map example_column [INTEGER_TYPE; JSON_TYPE]))
    [VText (js "5"); VText (js "9")] = Ok [VNumber (double_of_Z 5); VText (js "9")]) by (by vm_compute).
  split; [exact E|].
  pose proof (row_coercion_inhabits (fun s => s) [Some TEXT_TYPE; Some JSON_TYPE] (map example_column [INTEGER_TYPE; JSON_TYPE])
    [VText (js "5"); VText (js "9")]) as H.
  rewrite E in H. destruct H as [_ H].
  - constructor; [left|]. constructor; [|constructor]. do 7 right. left.
  - destruct (H 1%nat (VText (js "9")) (example_column JSON_TYPE) eq_refl eq_refl) as (w & Hw & Hi & _).
    apply (inj Some) in Hw. subst w. exact Hi.
Defined.

End TypeLaws.
