(* ===== verification/TypedOrder.v ===== *)
(** * The orders of the built-in types

    [createTypedComparator] ([util/comparison.ts]) compares the values of a
    column by the [compare] of its logical type.  Here each built-in type of
    [Types] is shown to be a lawful order on every value, to agree with the
    storage-class comparator on the values the type admits, and to call two
    values equal exactly when their serialized key parts are.  JSON has one
    exception, which is why the domain of a JSON column leaves booleans out.
    Durations, whose length in seconds the Temporal polyfill computes, compare
    and group by that length. *)

From S2P Require Import Prelude Bytes Double Decimal NumberText Utf8 Json Comparison KeySerializer BTree VTab Types JsonOrder TypeLaws.
From Stdlib Require Import ZArith Lia.
From stdpp Require Import sorting.
From stdpp Require Import base tactics numbers sets gmap list.
#[local] Open Scope Z_scope.

Import Utf8 Json Comparison KeySerializer VTab Types JsonOrder TypeLaws BTree.

Module TypedOrder.

Section Order.
Context (toLowerCase : jsstring -> jsstring).

Abbreviation value := SqlValue.
Abbreviation text_order := (jsstring -> jsstring -> comparison).

(** The built-in types without an order of their own. *)
Definition plain_types : list LogicalType :=
  [INTEGER_TYPE; REAL_TYPE; TEXT_TYPE; BLOB_TYPE; BOOLEAN_TYPE toLowerCase; NUMERIC_TYPE; ANY_TYPE].

Abbreviation by_class a b := (class_num (getStorageClass a) ?= class_num (getStorageClass b)).

(** The order a plain type gives to all values, admitted or not: the storage
    class, then what the type looks at. *)
Definition plain_order (t : LogicalType) (c : text_order) (a b : value) : comparison :=
  if t_isNumeric t then cmp_then (by_class a b) (num_compare (num_part a) (num_part b))
  else match t_physicalType t with
       | PText => cmp_then (by_class a b) (c (text_part a) (text_part b))
       | PBlob => cmp_then (by_class a b) (blex (blob_part a) (blob_part b))
       | PBoolean => value_compare (lex rank_cmp) a b
       | _ => value_compare c a b
       end.

Lemma plain_order_laws t c : CmpLaws c -> CmpLaws (plain_order t c).
Proof.
  intros Hc. pose proof (cmp_on_laws Z.compare (fun v => class_num (getStorageClass v))) as Hk. unfold plain_order.
  destruct (t_isNumeric t); [apply cmp_then_laws; [done|exact (cmp_on_laws num_compare num_part)]|].
  destruct (t_physicalType t); try (apply value_compare_laws; apply _).
  - apply cmp_then_laws; [done|exact (cmp_on_laws c text_part)].
  - apply cmp_then_laws; [done|exact (cmp_on_laws blex blob_part)].
Qed.

Ltac plain_type H := unfold plain_types in H; rewrite !elem_of_cons in H; destruct_or! H; subst; [..|by apply elem_of_nil in H].

Lemma plain_not_semantic t : t ∈ plain_types -> t_semanticOrdering t = false.
Proof. intros Ht. by plain_type Ht. Qed.

Lemma cmp_then_Eq o : cmp_then o Eq = o.
Proof. by destruct o. Qed.

Lemma wf_not_nan v : wf_value v -> is_nan_value v = false.
Proof. destruct v as [|d| | | | |]; try done. intros [_ H]. cbn. unfold is_nan, not_nan in *. by destruct (num_of_double d). Qed.

(** The comparator of a type, class by class. *)
Lemma typed_classes t f coll a b :
  t_compare t = Some f ->
  sgn (createTypedComparator t coll a b) =
  if is_null a || is_null b || negb (class_eqb (getStorageClass a) (getStorageClass b)) then by_class a b
  else sgn (f a b coll).
Proof. intros E. unfold createTypedComparator. rewrite E. by destruct a, b. Qed.

Lemma numeric_pair a b :
  wf_value a -> wf_value b -> class_eqb (getStorageClass a) (getStorageClass b) = true ->
  sgn (compareNumericValues a b) = num_compare (num_part a) (num_part b).
Proof.
  intros Ha Hb. pose proof (num_part_not_nan a Ha) as Na. pose proof (num_part_not_nan b Hb) as Nb. unfold compareNumericValues.
  destruct a, b; try done; intros _; by rewrite compareNumbers_sgn.
Qed.

Lemma apart_or_null a b :
  is_null a || is_null b || negb (class_eqb (getStorageClass a) (getStorageClass b)) = true -> by_class a b <> Eq \/ a = VNull /\ b = VNull.
Proof.
  unfold class_eqb. rewrite Z.compare_eq_iff. destruct (Z.eqb_spec (class_num (getStorageClass a)) (class_num (getStorageClass b))) as [E|E]; [|by left].
  intros H. right. destruct a; destruct b; cbn in E; (discriminate E || discriminate H || done).
Qed.

(** [createTypedComparator] is that order. *)
Lemma typed_spec t coll c a b :
  t ∈ plain_types -> collates (default BINARY_COLLATION coll) c -> wf_value a -> wf_value b ->
  sgn (createTypedComparator t coll a b) = plain_order t c a b.
Proof.
  intros Ht Hc Ha Hb. assert (Hnil : c [] [] = Eq) by (pose proof (proj1 Hc); apply (cmp_refl c)).
  pose proof (fun f c' (H : collates f c') => compare_fast_spec f c' a b H Ha Hb) as Hfast.
  destruct (is_null a || is_null b || negb (class_eqb (getStorageClass a) (getStorageClass b))) eqn:Ek.
  - pose proof (apart_or_null a b Ek) as Hcl. clear Hfast Ha Hb.
    plain_type Ht; (erewrite typed_classes by reflexivity); rewrite Ek; destruct Hcl as [Hcl|[-> ->]]; try done;
      unfold plain_order, value_compare; cbn [t_isNumeric t_physicalType INTEGER_TYPE REAL_TYPE TEXT_TYPE BLOB_TYPE BOOLEAN_TYPE NUMERIC_TYPE ANY_TYPE];
      try (by destruct (by_class a b)); cbn; by rewrite Hnil.
  - apply orb_false_iff in Ek as Ek'. destruct Ek' as [[Na Nb]%orb_false_iff Hcl%negb_false_iff].
    assert (Hn : compareNulls a b = None) by (unfold compareNulls; by rewrite Na, Nb).
    assert (Hz : by_class a b = Eq) by (apply Z.compare_eq_iff; by apply Z.eqb_eq).
    plain_type Ht; (erewrite typed_classes by reflexivity); rewrite Ek; unfold plain_order;
      cbn [t_isNumeric t_physicalType INTEGER_TYPE REAL_TYPE TEXT_TYPE BLOB_TYPE BOOLEAN_TYPE NUMERIC_TYPE ANY_TYPE];
      unfold compareNumericWithNaN; rewrite ?Hn, ?Hz, ?(wf_not_nan a Ha), ?(wf_not_nan b Hb); cbn [cmp_then].
    + apply numeric_pair; assumption.
    + apply numeric_pair; assumption.
    + apply (proj2 Hc); unfold wf_string; [destruct a|destruct b]; done || constructor.
    + apply compareBlobs_sgn.
    + rewrite <- (Hfast _ _ BINARY_collates). clear.
      destruct a as [| | |x| | |]; try reflexivity. destruct b as [| | |y| | |]; try reflexivity. by destruct x, y.
    + apply numeric_pair; assumption.
    + apply Hfast, Hc.
Qed.

Lemma typed_ordered t coll c :
  t ∈ plain_types -> collates (default BINARY_COLLATION coll) c -> ordered wf_value (createTypedComparator t coll) (plain_order t c).
Proof. intros Ht Hc. split; [apply plain_order_laws, Hc|]. intros a b. by apply typed_spec. Qed.

(** On admitted values it is the order of the storage classes. *)
Lemma plain_order_valid t c a b :
  t ∈ plain_types -> c [] [] = Eq -> isValidForType a t = true -> isValidForType b t = true ->
  plain_order t c a b = value_compare c a b.
Proof.
  intros Ht Hnil Ha Hb. unfold plain_order, value_compare. plain_type Ht; try done; cbn [t_isNumeric t_physicalType INTEGER_TYPE REAL_TYPE TEXT_TYPE BLOB_TYPE BOOLEAN_TYPE NUMERIC_TYPE];
    destruct a, b; try done; cbn; rewrite ?Hnil; cbn; by rewrite ?cmp_then_Eq.
Qed.

(** Values the storage classes call equal are equal in every type. *)
Lemma plain_order_same t c a b :
  CmpLaws c -> wf_value a -> wf_value b -> value_compare (lex rank_cmp) a b = Eq -> plain_order t c a b = Eq.
Proof.
  intros Hc Ha Hb E. unfold plain_order, value_compare in *.
  destruct (by_class a b); [|done..]. cbn [cmp_then] in *.
  destruct (num_compare (num_part a) (num_part b)) eqn:En; [|done..]. cbn [cmp_then] in *.
  destruct (lex rank_cmp (text_part a) (text_part b)) eqn:Et; [|done..]. cbn [cmp_then] in *.
  apply lex_rank_eq in Et; [|unfold wf_string; by destruct a|unfold wf_string; by destruct b].
  destruct (blex (blob_part a) (blob_part b)) eqn:Eb; [|done..]. cbn [cmp_then] in *.
  rewrite Et, (cmp_refl c), E. cbn [cmp_then].
  destruct (t_isNumeric t); [done|]. by destruct (t_physicalType t).
Qed.

Lemma plain_zero t coll c a b :
  t ∈ plain_types -> collates (default BINARY_COLLATION coll) c -> wf_value a -> wf_value b ->
  isValidForType a t = true -> isValidForType b t = true ->
  createTypedComparator t coll a b = 0 <-> compareSqlValuesFast a b (default BINARY_COLLATION coll) = 0.
Proof.
  intros Ht Hc Wa Wb Va Vb. pose proof (proj1 Hc). rewrite <- !sgn_eq, (typed_spec t coll c), (compare_fast_spec _ c) by done.
  by rewrite plain_order_valid by (done || apply (cmp_refl c)).
Qed.

(** A type whose physical form is not text admits none. *)
Lemma plain_no_text t v s :
  t ∈ plain_types -> t_physicalType t <> PText -> t_physicalType t <> PNull -> isValidForType v t = true -> v <> VText s.
Proof. intros Ht H1 H2 Hv ->. by plain_type Ht. Qed.

End Order.

(** ** JSON *)

(** What a JSON column may hold: no boolean, which JSON tells from the number a
    key part writes for it, and only objects whose canonical text holds all of
    them. *)
Definition json_cell (v : SqlValue) : Prop :=
  isValidForType v JSON_TYPE = true /\
  match v with
  | VBool _ => False
  | VObject o => keyable o
  | _ => True
  end.

Definition object_tokens (v : SqlValue) : list token := match v with VObject o => tokens o | _ => [] end.

Definition json_order (c : jsstring -> jsstring -> comparison) (a b : SqlValue) : comparison :=
  cmp_then (class_num (getStorageClass a) ?= class_num (getStorageClass b))
    (cmp_then (num_compare (num_part a) (num_part b))
       (cmp_then (c (text_part a) (text_part b)) (lex token_compare (object_tokens a) (object_tokens b)))).

Lemma json_order_laws c : CmpLaws c -> CmpLaws (json_order c).
Proof.
  intros Hc. unfold json_order. apply cmp_then_laws; [exact (cmp_on_laws Z.compare (fun v => class_num (getStorageClass v)))|].
  apply cmp_then_laws; [exact (cmp_on_laws num_compare num_part)|].
  apply cmp_then_laws; [exact (cmp_on_laws c text_part)|exact (cmp_on_laws (lex token_compare) object_tokens)].
Qed.

Lemma json_spec coll c a b :
  collates (default BINARY_COLLATION coll) c -> wf_value a -> wf_value b -> json_cell a -> json_cell b ->
  sgn (createTypedComparator JSON_TYPE coll a b) = json_order c a b.
Proof.
  intros Hc Wa Wb [Va Ja] [Vb Jb]. assert (Hnil : c [] [] = Eq) by (pose proof (proj1 Hc); apply (cmp_refl c)).
  unfold json_order. destruct a as [|x| | |s| |o]; try discriminate Va; try destruct Ja; destruct b as [|y| | |s'| |o']; try discriminate Vb; try destruct Jb;
    try reflexivity; cbn [getStorageClass class_num Z.compare Pos.compare Pos.compare_cont cmp_then text_part object_tokens]; try (by rewrite Hnil).
  - change (createTypedComparator JSON_TYPE coll (VNumber x) (VNumber y)) with (compareNumbers (num_of_double x) (num_of_double y)).
    destruct Wa as [_ Wa], Wb as [_ Wb]. rewrite compareNumbers_sgn by done. rewrite Hnil. cbn. by destruct (num_compare _ _).
  - change (createTypedComparator JSON_TYPE coll (VText s) (VText s')) with (match coll with Some f => f s s' | None => compareCodePoints s s' end).
    rewrite <- (proj2 Hc s s' Wa Wb). destruct coll; cbn; by destruct (sgn _).
  - change (createTypedComparator JSON_TYPE coll (VObject o) (VObject o')) with (deepCompareJson o o').
    rewrite Hnil. cbn. apply deepCompareJson_tokens; by apply keyable_comparable.
Qed.

Lemma json_zero coll c a b :
  collates (default BINARY_COLLATION coll) c -> wf_value a -> wf_value b -> json_cell a -> json_cell b ->
  createTypedComparator JSON_TYPE coll a b = 0 <-> compareSqlValuesFast a b (default BINARY_COLLATION coll) = 0.
Proof.
  intros _ Wa Wb [Va Ja] [Vb Jb].
  destruct a as [|x| | |s| |o]; try discriminate Va; try destruct Ja; destruct b as [|y| | |s'| |o']; try discriminate Vb; try destruct Jb; try reflexivity.
  - by destruct coll.
  - change (deepCompareJson o o' = 0 <-> compareCodePoints (canonicalJsonString o) (canonicalJsonString o') = 0).
    rewrite compareCodePoints_eq by (by apply canonicalJsonString_wf). rewrite canonicalJsonString_inj by done. by apply json_settles.
Qed.

(** JSON tells [true] from [1]; the storage classes and the key parts do not. *)
Lemma json_true_is_not_one :
  part_of (VBool true) IDENTITY_NORMALIZER = part_of (VNumber (double_of_Z 1)) IDENTITY_NORMALIZER /\
  createTypedComparator JSON_TYPE None (VBool true) (VNumber (double_of_Z 1)) <> 0.
Proof. by vm_compute. Qed.

(** ** Durations *)

Section Timespan.

(** [Temporal.Duration.from(v).total(...)] with the reference date, or nothing
    where it throws; the hooks that read other forms of durations. *)
Context (timespanTotalSeconds : jsstring -> option double).
Context (validate : SqlValue -> bool) (parse : SqlValue -> res SqlValue).

Definition TIMESPAN_compare (a b : SqlValue) : Z :=
  match compareNulls a b with
  | Some c => c
  | None =>
    match timespanTotalSeconds (text_part a), timespanTotalSeconds (text_part b) with
    | Some totalA, Some totalB => compareNumbers (num_of_double totalA) (num_of_double totalB)
    | _, _ => BINARY_COLLATION (text_part a) (text_part b)
    end
  end.

Definition TIMESPAN_groupKey (v : SqlValue) : SqlValue :=
  match v with
  | VText s => match timespanTotalSeconds s with Some d => VNumber d | None => v end
  | _ => v
  end.

Definition TIMESPAN_TYPE : LogicalType := {|
  t_id := 13; t_typeName := js "TIMESPAN"; t_physicalType := PText;
  t_validate := Some validate; t_parse := Some parse; t_normalizeComparand := None;
  t_compare := Some (fun a b _ => TIMESPAN_compare a b);
  t_collationAware := false; t_semanticOrdering := true; t_groupKey := Some TIMESPAN_groupKey;
  t_isNumeric := false; t_isTextual := false; t_isTemporal := true
|}.

(** A duration has a number of seconds. *)
Context (seconds_number : forall s d, timespanTotalSeconds s = Some d -> wf_double d /\ not_nan (num_of_double d)).

(** What a TIMESPAN column may hold: durations. *)
Definition timespan_cell (v : SqlValue) : Prop :=
  match v with
  | VNull => True
  | VText s => is_Some (timespanTotalSeconds s)
  | _ => False
  end.

Definition timespan_order (a b : SqlValue) : comparison := value_compare (lex rank_cmp) (TIMESPAN_groupKey a) (TIMESPAN_groupKey b).

Lemma timespan_key_wf v : timespan_cell v -> wf_value (TIMESPAN_groupKey v) /\ forall s, TIMESPAN_groupKey v <> VText s.
Proof. destruct v as [| | | |s| |]; try done. intros [d Hd]. cbn. rewrite Hd. split; [exact (seconds_number s d Hd)|done]. Qed.

Lemma timespan_fast coll a b :
  timespan_cell a -> timespan_cell b ->
  createTypedComparator TIMESPAN_TYPE coll a b = compareSqlValuesFast (TIMESPAN_groupKey a) (TIMESPAN_groupKey b) BINARY_COLLATION.
Proof.
  destruct a as [| | | |s| |]; try done; destruct b as [| | | |s'| |]; try done; cbn [timespan_cell].
  - intros _ [d Hd]. cbn. by rewrite Hd.
  - intros [d Hd] _. cbn. by rewrite Hd.
  - intros [d Hd] [d' Hd']. cbn. by rewrite Hd, Hd'.
Qed.

Lemma timespan_spec coll a b :
  timespan_cell a -> timespan_cell b -> sgn (createTypedComparator TIMESPAN_TYPE coll a b) = timespan_order a b.
Proof. intros Ha Hb. rewrite timespan_fast by done. apply compare_fast_spec; [apply BINARY_collates|by apply timespan_key_wf..]. Qed.

#[local] Instance timespan_order_laws : CmpLaws timespan_order.
Proof. pose proof (value_compare_laws (lex rank_cmp) _). exact (cmp_on_laws (value_compare (lex rank_cmp)) TIMESPAN_groupKey). Qed.

End Timespan.
End TypedOrder.
