(* ===== verification/Collations.v ===== *)
(** * The collation of a comparison

    Models [packages/quereus/src/planner/analysis/comparison-collation.ts]: the
    lattice by which the operands of a comparison settle on one collation, its
    many-operand forms for [IN], variadic builtins, set operations and
    propagation, and the collation a hash key is normalized under.  The errors
    of [collationConflictError] are the one error value [EStatement].

    The binary form is symmetric, the many-operand form does not depend on the
    order of its operands, and on two operands they are the same function. *)

From S2P Require Import Prelude Bytes Double Decimal NumberText Utf8 Json Comparison VTab Types.
From Stdlib Require Import ZArith Lia.
From stdpp Require Import sorting.
From stdpp Require Import base tactics numbers sets gmap list.
#[local] Open Scope Z_scope.

Import Utf8 Json Comparison VTab Types.

Module Collations.

Definition BINARY : jsstring := js "BINARY".

Record CollationContribution := mkContribution { cc_name : jsstring; cc_rank : Z }.

#[global] Instance CollationContribution_eq_dec : EqDecision CollationContribution.
Proof. solve_decision. Defined.

Definition RANK_BY_SOURCE (s : CollationSource) : Z :=
  match s with
  | SrcExplicit => 3
  | SrcDeclared => 2
  | SrcDefault => 1
  end.

Definition SOURCE_BY_RANK (rank : Z) : CollationSource :=
  if rank =? 3 then SrcExplicit else if rank =? 2 then SrcDeclared else SrcDefault.

(** The level of a conflict: explicit clauses or declared columns. *)
Inductive ConflictLevel : Type := AtExplicit | AtDeclared.

Inductive CollationResolution : Type :=
| Resolved (name : jsstring)
| Conflict (level : ConflictLevel) (left_name right_name : jsstring).

Definition RESOLVED_BINARY : CollationResolution := Resolved BINARY.

Definition conflict_level (rank : Z) : ConflictLevel := if rank =? 3 then AtExplicit else AtDeclared.

Definition resolveContributions (l r : option CollationContribution) : CollationResolution :=
  match l, r with
  | None, None => RESOLVED_BINARY
  | None, Some r => Resolved (cc_name r)
  | Some l, None => Resolved (cc_name l)
  | Some l, Some r =>
    if negb (cc_rank l =? cc_rank r) then Resolved (cc_name (if cc_rank r <? cc_rank l then l else r))
    else if bool_decide (cc_name l = cc_name r) then Resolved (cc_name l)
    else if cc_rank l =? 1 then RESOLVED_BINARY
    else Conflict (conflict_level (cc_rank l)) (cc_name l) (cc_name r)
  end.

(** The merge of many contributions, with the first name that disagrees with
    the best one. *)
Inductive ContributionMerge : Type :=
| Contribution (contribution : option CollationContribution)
| MergeConflict (level : ConflictLevel) (left_name right_name : jsstring).

Definition merge_contribution (state : option CollationContribution * option jsstring)
    (c : option CollationContribution) : option CollationContribution * option jsstring :=
  let '(best, conflictingName) := state in
  match c with
  | None => state
  | Some c =>
    match best with
    | None => (Some c, None)
    | Some b =>
      if cc_rank b <? cc_rank c then (Some c, None)
      else if (cc_rank c =? cc_rank b) && negb (bool_decide (cc_name c = cc_name b)) && bool_decide (conflictingName = None)
      then (best, Some (cc_name c))
      else state
    end
  end.

Definition mergeContributions (contribs : list (option CollationContribution)) : ContributionMerge :=
  let '(best, conflictingName) := foldl merge_contribution (None, None) contribs in
  match best, conflictingName with
  | Some b, Some other =>
    if cc_rank b =? 1 then Contribution None else MergeConflict (conflict_level (cc_rank b)) (cc_name b) other
  | _, _ => Contribution best
  end.

(** The physical representations that never hold a string. *)
Definition NEVER_TEXT_PHYSICAL_TYPES (p : PhysicalType) : bool :=
  match p with
  | PInteger | PReal | PBlob | PBoolean => true
  | _ => false
  end.

Definition logicalTypeCanHoldText (logicalType : option LogicalType) : bool :=
  match logicalType with
  | None => true
  | Some t => if t_isTextual t then true else negb (NEVER_TEXT_PHYSICAL_TYPES (t_physicalType t))
  end.

Definition typeCanHoldText (t : ScalarType) : bool := logicalTypeCanHoldText (Some (s_logicalType t)).

Definition isNonTextualLogicalType (lt : option LogicalType) : bool := negb (logicalTypeCanHoldText lt).

(** An absent or empty name is returned as it is. *)
Definition hashKeyCollationName (collationName : option jsstring) (operandTypes : list ScalarType) : option jsstring :=
  match collationName with
  | None => None
  | Some [] => collationName
  | Some _ =>
    if (length operandTypes =? 0)%nat then collationName
    else if existsb typeCanHoldText operandTypes then collationName else None
  end.

Definition pkKeyCollationName (column : option (LogicalType * option jsstring)) : option jsstring :=
  match column with
  | None => None
  | Some (logicalType, collation) =>
    if negb (logicalTypeCanHoldText (Some logicalType)) then None
    else if t_collationAware logicalType then collation else Some BINARY
  end.

Section Resolve.
Context (toUpperCase : jsstring -> jsstring).

Definition normalizeCollationName (name : jsstring) : jsstring := toUpperCase (trim name).

(** Both names absent read as BINARY. *)
Definition collationRefines (finer coarser : option jsstring) : bool :=
  let f := normalizeCollationName (default BINARY finer) in
  bool_decide (f = BINARY) || bool_decide (f = normalizeCollationName (default BINARY coarser)).

Definition collationContribution (t : ScalarType) : option CollationContribution :=
  match s_collationName t with
  | None => None
  | Some collationName =>
    let rank := RANK_BY_SOURCE (default SrcDefault (s_collationSource t)) in
    let name := normalizeCollationName collationName in
    if (rank =? 1) && bool_decide (name = BINARY) then None else Some (mkContribution name rank)
  end.

Definition resolveComparisonCollation (left_type right_type : ScalarType) : CollationResolution :=
  resolveContributions (collationContribution left_type) (collationContribution right_type).

Definition resolvedOrThrow (r : CollationResolution) : res jsstring :=
  match r with
  | Conflict _ _ _ => Throw EStatement
  | Resolved name => Ok name
  end.

Definition effectiveCollationOfTypes (left_type right_type : ScalarType) : res jsstring :=
  resolvedOrThrow (resolveComparisonCollation left_type right_type).

Record ForeignKeyColumnComparison := mkFkComparison {
  fk_collation : jsstring;
  childNeedsCollate : bool;
  keyEquality : option jsstring
}.

(** The two columns by their scalar types. *)
Definition foreignKeyColumnComparison (child parent : ScalarType) : res ForeignKeyColumnComparison :=
  let* collation := effectiveCollationOfTypes child parent in
  let childAlone := default BINARY (cc_name <$> collationContribution child) in
  let keyEquality :=
    if negb (bool_decide (collation = BINARY)) && t_collationAware (s_logicalType child)
       && t_collationAware (s_logicalType parent)
    then Some collation else None in
  Ok (mkFkComparison collation (negb (bool_decide (collation = childAlone))) keyEquality).

Definition resolveInCollation (condition : ScalarType) (rhs : list ScalarType) : CollationResolution :=
  match mergeContributions (map collationContribution rhs) with
  | MergeConflict level l r => Conflict level l r
  | Contribution c => resolveContributions (collationContribution condition) c
  end.

Definition resolveGroupCollation (types : list ScalarType) : CollationResolution :=
  match mergeContributions (map collationContribution types) with
  | MergeConflict level l r => Conflict level l r
  | Contribution (Some c) => Resolved (cc_name c)
  | Contribution None => RESOLVED_BINARY
  end.

Definition effectiveGroupCollation (types : list ScalarType) : res jsstring :=
  resolvedOrThrow (resolveGroupCollation types).

Definition mergePropagatedCollation (types : list ScalarType) : option (jsstring * CollationSource) :=
  match mergeContributions (map collationContribution types) with
  | Contribution (Some c) => Some (cc_name c, SOURCE_BY_RANK (cc_rank c))
  | _ => None
  end.

Inductive SetOpColumnCollation : Type :=
| SetResolved (collation : option (jsstring * CollationSource))
| SetConflict (level : ConflictLevel) (left_name right_name : jsstring).

Definition resolveSetOpColumnCollation (left_type right_type : ScalarType) : SetOpColumnCollation :=
  match mergeContributions [collationContribution left_type; collationContribution right_type] with
  | MergeConflict level l r => SetConflict level l r
  | Contribution c => SetResolved ((fun c => (cc_name c, SOURCE_BY_RANK (cc_rank c))) <$> c)
  end.

Definition operandCollation (t : ScalarType) : jsstring := normalizeCollationName (default BINARY (s_collationName t)).

Definition isStaticallyNonTextual (t : ScalarType) : bool := isNonTextualLogicalType (Some (s_logicalType t)).

Definition isValueDiscriminatingEquality (left_type right_type : ScalarType) : bool :=
  if bool_decide (operandCollation left_type = BINARY) && bool_decide (operandCollation right_type = BINARY) then true
  else isStaticallyNonTextual left_type && isStaticallyNonTextual right_type.

End Resolve.

(** ** Properties *)

(** What a fold over [cs] knows: a contribution of the highest rank, and a name
    of that rank that disagrees with it, if there is one. *)
Definition merged (cs : list (option CollationContribution)) (best : option CollationContribution)
    (other : option jsstring) : Prop :=
  match best with
  | None => other = None /\ forall c, Some c ∉ cs
  | Some b =>
    Some b ∈ cs /\ (forall c, Some c ∈ cs -> cc_rank c <= cc_rank b) /\
    match other with
    | None => forall c, Some c ∈ cs -> cc_rank c = cc_rank b -> c = b
    | Some n => n <> cc_name b /\ Some (mkContribution n (cc_rank b)) ∈ cs
    end
  end.

Lemma contribution_eq c b : cc_rank c = cc_rank b -> cc_name c = cc_name b -> c = b.
Proof. destruct c, b. cbn. congruence. Qed.

Lemma elem_snoc (cs : list (option CollationContribution)) c c' : Some c' ∈ cs ++ [Some c] -> Some c' ∈ cs \/ c' = c.
Proof. intros [H|H%list_elem_of_singleton%(inj Some)]%elem_of_app; [by left|by right]. Qed.

Lemma merge_contribution_merged cs best other c :
  merged cs best other ->
  let s := merge_contribution (best, other) c in merged (cs ++ [c]) s.1 s.2.
Proof.
  intros H. destruct c as [c|]; cbn [merge_contribution].
  2:{ destruct best as [b|]; cbn [fst snd merged] in *.
      - destruct H as (Hb & Hr & Ho). split_and!; [set_solver..|]. destruct other; set_solver.
      - destruct H as [-> H]. split; [done|]. intros c. specialize (H c). set_solver. }
  destruct best as [b|]; cbn [merged] in H.
  2:{ destruct H as [-> H]. cbn. split_and!; [set_solver| |]; intros c' Hc'; (assert (c' = c) as -> by set_solver); [lia|done]. }
  destruct H as (Hb & Hr & Ho). cbv zeta. destruct (Z.ltb_spec (cc_rank b) (cc_rank c)) as [Hlt|Hge]; cbn [fst snd merged].
  { split_and!; [set_solver| |]; intros c' [Hc'| ->]%elem_snoc; try done; specialize (Hr _ Hc'); lia. }
  assert (forall c', Some c' ∈ cs ++ [Some c] -> cc_rank c' <= cc_rank b) as Hr'.
  { intros c' [Hc'| ->]%elem_snoc; [by apply Hr|lia]. }
  destruct (Z.eqb_spec (cc_rank c) (cc_rank b)) as [E|E]; cbn [andb]; [case_bool_decide as En; cbn [negb andb]|].
  - split_and!; [set_solver|done|]. destruct other as [n|]; [set_solver|].
    intros c' [Hc'| ->]%elem_snoc Hk; [by apply Ho|by apply contribution_eq].
  - case_bool_decide as Eo; cbn [fst snd merged].
    + split_and!; [set_solver|done|done|]. rewrite <- E. destruct c. set_solver.
    + split_and!; [set_solver|done|]. destruct other as [n|]; [set_solver|done].
  - split_and!; [set_solver|done|]. destruct other as [n|]; [set_solver|].
    intros c' [Hc'| ->]%elem_snoc Hk; [by apply Ho|done].
Qed.

Lemma fold_merged cs :
  let s := foldl merge_contribution (None, None) cs in merged cs s.1 s.2.
Proof.
  induction cs as [|c cs IH] using rev_ind; [cbn; set_solver|]. rewrite foldl_app. cbn [foldl].
  destruct (foldl merge_contribution (None, None) cs) as [best other]. by apply merge_contribution_merged.
Qed.

(** The outcome of a merge without the spelling of a conflict. *)
Inductive Outcome : Type :=
| OResolved (c : option CollationContribution)
| OConflict (level : ConflictLevel).

Definition outcome (m : ContributionMerge) : Outcome :=
  match m with
  | Contribution c => OResolved c
  | MergeConflict level _ _ => OConflict level
  end.

(** The outcome depends on which contributions are present only. *)
Lemma merge_outcome cs cs' :
  (forall c, Some c ∈ cs <-> Some c ∈ cs') -> outcome (mergeContributions cs) = outcome (mergeContributions cs').
Proof.
  intros He. unfold mergeContributions. pose proof (fold_merged cs) as H. pose proof (fold_merged cs') as H'.
  destruct (foldl _ _ cs) as [best other], (foldl _ _ cs') as [best' other']. cbn [fst snd] in *.
  destruct best as [b|], best' as [b'|]; cbn [merged] in *.
  - destruct H as (Hb & Hr & Ho), H' as (Hb' & Hr' & Ho').
    assert (cc_rank b = cc_rank b') as Ek by (apply Z.le_antisymm; [apply Hr', He|apply Hr, He]; done).
    destruct other as [n|], other' as [n'|].
    + rewrite Ek. by destruct (cc_rank b' =? 1).
    + destruct Ho as [Hn Ho]. exfalso. apply Hn. transitivity (cc_name b').
      * apply He, Ho' in Ho; [by rewrite <- Ho|done].
      * symmetry. apply He, Ho' in Hb; [by rewrite Hb|done].
    + destruct Ho' as [Hn Ho']. exfalso. apply Hn. transitivity (cc_name b).
      * apply He, Ho in Ho'; [by rewrite <- Ho'|done].
      * symmetry. apply He, Ho in Hb'; [by rewrite Hb'|done].
    + cbn. do 2 f_equal. symmetry. by apply Ho; [apply He|].
  - destruct H as (Hb & _), H' as [_ H']. by apply He, H' in Hb.
  - destruct H' as (Hb & _), H as [_ H]. by apply He, H in Hb.
  - destruct H as [-> _], H' as [-> _]. done.
Qed.

(** The resolution of a merge. *)
Definition resolution (m : ContributionMerge) : CollationResolution :=
  match m with
  | MergeConflict level l r => Conflict level l r
  | Contribution (Some c) => Resolved (cc_name c)
  | Contribution None => RESOLVED_BINARY
  end.

Lemma merge_two l r : resolution (mergeContributions [l; r]) = resolveContributions l r.
Proof.
  destruct l as [l|], r as [r|]; cbn; try done. unfold mergeContributions. cbn [foldl merge_contribution].
  destruct (Z.ltb_spec (cc_rank l) (cc_rank r)) as [Hlt|Hge]; cbn.
  { destruct (Z.eqb_spec (cc_rank l) (cc_rank r)); [lia|]. cbn. destruct (Z.ltb_spec (cc_rank r) (cc_rank l)); [lia|done]. }
  destruct (Z.eqb_spec (cc_rank r) (cc_rank l)) as [E|E]; cbn [andb].
  - rewrite E, Z.eqb_refl. cbn. do 2 case_bool_decide; cbn; try congruence; try done. by destruct (cc_rank l =? 1).
  - destruct (Z.eqb_spec (cc_rank l) (cc_rank r)); [lia|]. cbn. destruct (Z.ltb_spec (cc_rank r) (cc_rank l)); [done|lia].
Qed.

(** The same resolution, or a conflict of the same level. *)
Definition agrees (a b : CollationResolution) : Prop :=
  match a, b with
  | Resolved n, Resolved n' => n = n'
  | Conflict level _ _, Conflict level' _ _ => level = level'
  | _, _ => False
  end.

Definition mirrored (r : CollationResolution) : CollationResolution :=
  match r with
  | Conflict level l r => Conflict level r l
  | Resolved n => Resolved n
  end.

Lemma resolveContributions_sym l r : resolveContributions l r = mirrored (resolveContributions r l).
Proof.
  destruct l as [l|], r as [r|]; cbn; try done. rewrite (Z.eqb_sym (cc_rank r)).
  destruct (Z.eqb_spec (cc_rank l) (cc_rank r)) as [E|E]; cbn.
  - rewrite E. case_bool_decide as En.
    + rewrite bool_decide_eq_true_2 by done. cbn. by rewrite En.
    + rewrite bool_decide_eq_false_2 by congruence. by destruct (cc_rank r =? 1).
  - f_equal. destruct (Z.ltb_spec (cc_rank r) (cc_rank l)), (Z.ltb_spec (cc_rank l) (cc_rank r)); (done || lia).
Qed.

(** The collation of a comparison does not depend on how it is written:
    [a = b] and [b = a] resolve alike, a group of operands resolves alike in any
    order and however often an operand is repeated, a group of two is the binary
    comparison, [x IN (y)] is [x = y], and a set operation over two columns
    merges to the collation their comparison resolves to, with the same
    conflicts. *)
Theorem collation_symmetric (toUpperCase : jsstring -> jsstring) (a b : ScalarType) (types types' : list ScalarType) :
  (forall t, t ∈ types <-> t ∈ types') ->
  resolveComparisonCollation toUpperCase a b = mirrored (resolveComparisonCollation toUpperCase b a) /\
  agrees (resolveGroupCollation toUpperCase types) (resolveGroupCollation toUpperCase types') /\
  mergePropagatedCollation toUpperCase types = mergePropagatedCollation toUpperCase types' /\
  resolveGroupCollation toUpperCase [a; b] = resolveComparisonCollation toUpperCase a b /\
  resolveInCollation toUpperCase a [b] = resolveComparisonCollation toUpperCase a b /\
  resolveComparisonCollation toUpperCase a b
  = match resolveSetOpColumnCollation toUpperCase a b with
    | SetResolved c => Resolved (default BINARY (fst <$> c))
    | SetConflict level l r => Conflict level l r
    end.
Proof.
  intros He. assert (Ho : outcome (mergeContributions (map (collationContribution toUpperCase) types))
    = outcome (mergeContributions (map (collationContribution toUpperCase) types'))).
  { apply merge_outcome. intros c. rewrite !list_elem_of_fmap. by setoid_rewrite He. }
  split_and!.
  - apply resolveContributions_sym.
  - unfold resolveGroupCollation. destruct (mergeContributions _) as [[c|]|], (mergeContributions _) as [[c'|]|];
      cbn in Ho |- *; congruence.
  - unfold mergePropagatedCollation. destruct (mergeContributions _) as [[c|]|], (mergeContributions _) as [[c'|]|];
      cbn in Ho |- *; congruence.
  - apply merge_two.
  - unfold resolveInCollation, resolveComparisonCollation. cbn. by destruct (collationContribution toUpperCase b).
  - unfold resolveComparisonCollation, resolveSetOpColumnCollation. rewrite <- merge_two.
    clear Ho. by destruct (mergeContributions _) as [[c|]|].
Qed.

(** A declared NOCASE column against a defaulted BINARY one, and a conflict. *)
Lemma collation_symmetric_witness :
  let up := fun s : jsstring => s in
  let nocase := mkScalar TEXT_TYPE false None (Some (js "NOCASE")) (Some SrcDeclared) in
  let plain := mkScalar TEXT_TYPE false None (Some BINARY) (Some SrcDefault) in
  let rtrim := mkScalar TEXT_TYPE false None (Some (js "RTRIM")) (Some SrcDeclared) in
  resolveComparisonCollation up nocase plain = Resolved (js "NOCASE") /\
  resolveComparisonCollation up nocase rtrim = mirrored (resolveComparisonCollation up rtrim nocase) /\
  agrees (resolveGroupCollation up [nocase; plain; rtrim]) (resolveGroupCollation up [rtrim; nocase; plain]) /\
  resolveGroupCollation up [nocase; rtrim] = Conflict AtDeclared (js "NOCASE") (js "RTRIM").
Proof.
  intros up nocase plain rtrim. split; [by vm_compute|].
  destruct (collation_symmetric up nocase rtrim [nocase; plain; rtrim] [rtrim; nocase; plain]) as (H1 & H2 & _).
  - intros t. rewrite !elem_of_cons, !elem_of_nil. split; tauto.
  - split; [exact H1|]. split; [exact H2|]. by vm_compute.
Defined.

End Collations.
