(* ===== verification/Fds.v ===== *)
(** * Functional dependencies of the planner

    Models [packages/quereus/src/planner/util/fd-utils.ts] and the facts of
    [planner/nodes/plan-node.ts] it works on: functional dependencies with
    guards and uniqueness, equivalence classes of columns, constant bindings,
    domain constraints and inclusion dependencies, with the propagation through
    joins of [planner/nodes/join-utils.ts].

    Columns are output positions.  A JS [Set] of columns is a list without
    duplicates in insertion order.  Literals of facts come from SQL text or
    constant folding and are never JSON objects, which JS would compare by
    reference. *)

From S2P Require Import Prelude Bytes Double Decimal NumberText Utf8 Json Comparison VTab.
From Stdlib Require Import ZArith Lia.
From stdpp Require Import sorting.
From stdpp Require Import base tactics numbers sets gmap list.
#[local] Open Scope Z_scope.

Import Utf8 Json Comparison VTab.

Module Fds.

Abbreviation value := SqlValue.
Abbreviation column := nat.

(** ** Sets of columns *)

Abbreviation colset := (list column).

Definition set_has (s : colset) (c : column) : bool := bool_decide (c ∈ s).

Definition set_add (s : colset) (c : column) : colset := if set_has s c then s else s ++ [c].

Definition set_delete (s : colset) (c : column) : colset := List.filter (fun x => negb (x =? c)%nat) s.

(** [new Set(l)]. *)
Definition set_of (l : list column) : colset := foldl set_add [] l.

Definition by_number (a b : column) : Z := Z.of_nat a - Z.of_nat b.

(** [Array.from(s).sort((a, b) => a - b)]. *)
Definition sorted (s : colset) : list column := js_sort by_number s.

(** ** The facts *)

Inductive GuardClause : Type :=
| EqLiteral (c : column) (v : value)
| EqColumn (left right : column)
| IsNull (c : column) (negated : bool)
| Range (c : column) (min max : option value) (minInclusive maxInclusive : bool)
| OrOf (clauses : list GuardClause).

(** The clauses all hold. *)
Abbreviation GuardPredicate := (list GuardClause).

Inductive ProvenanceKind : Type := DeclaredCheck | Assertion.

Record ConstraintProvenance := mkProvenance { pv_kind : ProvenanceKind; pv_name : option jsstring }.

Inductive FdKind : Type := Unique | Determination.

#[global] Instance FdKind_eq_dec : EqDecision FdKind.
Proof. solve_decision. Defined.

Record FunctionalDependency := mkFd {
  determinants : list column;
  dependents : list column;
  guard : option GuardPredicate;
  fd_source : option ConstraintProvenance;
  valueEquality : option bool;
  kind : FdKind
}.

Definition with_kind (k : FdKind) (fd : FunctionalDependency) : FunctionalDependency :=
  mkFd (determinants fd) (dependents fd) (guard fd) (fd_source fd) (valueEquality fd) k.

Definition with_columns (det dep : list column) (g : option GuardPredicate) (fd : FunctionalDependency) : FunctionalDependency :=
  mkFd det dep g (fd_source fd) (valueEquality fd) (kind fd).

(** [{ determinants, dependents, kind }]. *)
Definition plain_fd (det dep : list column) (k : FdKind) : FunctionalDependency := mkFd det dep None None None k.

Definition MAX_FDS_PER_NODE : nat := 64.

Definition unguarded (fd : FunctionalDependency) : bool :=
  match guard fd with
  | None => true
  | Some _ => false
  end.

(** ** Closure *)

(** The inner loop over the dependents: the closure and whether it grew. *)
Definition add_dependent (state : colset * bool) (dep : column) : colset * bool :=
  if set_has state.1 dep then state else (set_add state.1 dep, true).

Definition closure_step (state : colset * bool) (fd : FunctionalDependency) : colset * bool :=
  if negb (unguarded fd) then state
  else if forallb (set_has state.1) (determinants fd) then foldl add_dependent state (dependents fd)
  else state.

(** One pass over the dependencies. *)
Definition closure_pass (fds : list FunctionalDependency) (closure : colset) : colset * bool :=
  foldl closure_step (closure, false) fds.

(** [while (changed)], at most [fuel] passes. *)
Fixpoint closure_loop (fuel : nat) (fds : list FunctionalDependency) (closure : colset) : colset :=
  match fuel with
  | O => closure
  | S fuel' =>
    let '(closure', changed) := closure_pass fds closure in
    if changed then closure_loop fuel' fds closure' else closure'
  end.

(** Every pass but the last adds a dependent, so this many passes suffice
    ([computeClosure_final]). *)
Definition closure_fuel (fds : list FunctionalDependency) : nat := S (length (concat (map dependents fds))).

Definition computeClosure (attrs : colset) (fds : list FunctionalDependency) : colset :=
  closure_loop (closure_fuel fds) fds (set_of attrs).

(** The pairs of distinct positions of a class. *)
Definition class_fds (cls : list column) : list FunctionalDependency :=
  if (length cls <? 2)%nat then []
  else
    concat (imap (fun i ci =>
      concat (imap (fun j cj => if (i =? j)%nat then [] else [plain_fd [ci] [cj] Determination]) cls)) cls).

Definition expandEcsToFds (ecs : list (list column)) (fds : list FunctionalDependency) : list FunctionalDependency :=
  fds ++ concat (map class_fds ecs).

Definition determines (attrs target : colset) (fds : list FunctionalDependency) : bool :=
  if (length target =? 0)%nat then true
  else forallb (set_has (computeClosure attrs fds)) target.

(** The test whether dropping [a] keeps the closure. *)
Definition cover_step (fullClosure : colset) (fds : list FunctionalDependency) (result : colset) (a : column) : colset :=
  let trialClosure := computeClosure (set_delete result a) fds in
  if (length trialClosure =? length fullClosure)%nat && forallb (set_has trialClosure) fullClosure
  then set_delete result a
  else result.

Definition minimalCover (attrs : colset) (fds : list FunctionalDependency) : colset :=
  foldl (cover_step (computeClosure attrs fds) fds) (set_of attrs) (set_of attrs).

(** ** Structural equality *)

(** [===], or the bytes of blobs. *)
Definition sqlValueEquals (a b : value) : bool :=
  match a, b with
  | VNull, VNull => true
  | VNumber x, VNumber y => negb (is_nan x) && negb (is_nan y) && (compareNumbers (num_of_double x) (num_of_double y) =? 0)
  | VBigint x, VBigint y => x =? y
  | VBool x, VBool y => Bool.eqb x y
  | VText x, VText y => bool_decide (x = y)
  | VBlob x, VBlob y => bool_decide (x = y)
  | _, _ => false
  end.

(** Both bounds present, equal and equally inclusive, or both absent. *)
Definition boundEquals (a b : option value) (aInclusive bInclusive : bool) : bool :=
  match a, b with
  | None, None => true
  | Some x, Some y => sqlValueEquals x y && Bool.eqb aInclusive bInclusive
  | _, _ => false
  end.

(** The first unused clause that matches is marked used. *)
Fixpoint use_match (eq : GuardClause -> bool) (clauses : list GuardClause) (used : list bool) : option (list bool) :=
  match clauses, used with
  | c :: clauses', u :: used' =>
    if negb u && eq c then Some (true :: used')
    else match use_match eq clauses' used' with
         | Some used'' => Some (u :: used'')
         | None => None
         end
  | _, _ => None
  end.

Fixpoint match_all (eqs : list (GuardClause -> bool)) (clauses : list GuardClause) (used : list bool) : bool :=
  match eqs with
  | [] => true
  | eq :: eqs' =>
    match use_match eq clauses used with
    | Some used' => match_all eqs' clauses used'
    | None => false
    end
  end.

Definition clause_lists_equal (eqs : list (GuardClause -> bool)) (clauses : list GuardClause) : bool :=
  (length eqs =? length clauses)%nat && match_all eqs clauses (replicate (length clauses) false).

Fixpoint guardClauseEquals (a b : GuardClause) : bool :=
  match a, b with
  | EqLiteral c v, EqLiteral c' v' => (c =? c')%nat && sqlValueEquals v v'
  | EqColumn l r, EqColumn l' r' => ((l =? l') && (r =? r') || (l =? r') && (r =? l'))%nat
  | IsNull c n, IsNull c' n' => (c =? c')%nat && Bool.eqb n n'
  | Range c mn mx i x, Range c' mn' mx' i' x' => (c =? c')%nat && boundEquals mn mn' i i' && boundEquals mx mx' x x'
  | OrOf l, OrOf l' => clause_lists_equal (map guardClauseEquals l) l'
  | _, _ => false
  end.

Definition guardsEqual (a b : option GuardPredicate) : bool :=
  match a, b with
  | None, None => true
  | Some l, Some l' => clause_lists_equal (map guardClauseEquals l) l'
  | _, _ => false
  end.

Definition determinantsEqual (a b : list column) : bool :=
  (length a =? length b)%nat && forallb (set_has a) b.

Definition dependentsSubset (sub sup : list column) : bool := forallb (set_has sup) sub.

Definition fdsEqual (a b : FunctionalDependency) : bool :=
  determinantsEqual (determinants a) (determinants b) &&
  determinantsEqual (dependents a) (dependents b) &&
  guardsEqual (guard a) (guard b).

(** ** Adding and merging *)

Record AddFdOptions := mkAddFd { keyHints : list (list column); cap : option nat }.

Definition no_options : AddFdOptions := mkAddFd [] None.

Definition is_unique (fd : FunctionalDependency) : bool := bool_decide (kind fd = Unique).

Definition uniqueFirst (l : list FunctionalDependency) : list FunctionalDependency :=
  List.filter is_unique l ++ List.filter (fun fd => negb (is_unique fd)) l.

Definition isSubsetOfAnyKey (keys : list (list column)) (det : list column) : bool :=
  existsb (fun ks => forallb (set_has ks) det) keys.

Definition enforceCap (fds : list FunctionalDependency) (opts : AddFdOptions) : list FunctionalDependency :=
  let n := default MAX_FDS_PER_NODE (cap opts) in
  if (length fds <=? n)%nat then fds
  else
    let hinted fd := isSubsetOfAnyKey (keyHints opts) (determinants fd) in
    let preferred := List.filter hinted fds in
    let other := List.filter (fun fd => negb (hinted fd)) fds in
    if (n <=? length preferred)%nat then take n (uniqueFirst preferred)
    else preferred ++ take (n - length preferred) (uniqueFirst other).

(** ['unique'] wins on a merge. *)
Definition upgraded (next existing : FunctionalDependency) : FunctionalDependency :=
  if is_unique next && negb (is_unique existing) then with_kind Unique existing else existing.

Record AddState := mkAdd { a_result : list FunctionalDependency; a_subsumed : bool; a_kind : FdKind }.

Definition add_step (next : FunctionalDependency) (s : AddState) (existing : FunctionalDependency) : AddState :=
  if fdsEqual existing next then mkAdd (a_result s ++ [upgraded next existing]) true (a_kind s)
  else if determinantsEqual (determinants existing) (determinants next) && guardsEqual (guard existing) (guard next) then
    if dependentsSubset (dependents existing) (dependents next) then
      mkAdd (a_result s) (a_subsumed s) (if is_unique existing then Unique else a_kind s)
    else if dependentsSubset (dependents next) (dependents existing) then
      mkAdd (a_result s ++ [upgraded next existing]) true (a_kind s)
    else mkAdd (a_result s ++ [existing]) (a_subsumed s) (a_kind s)
  else mkAdd (a_result s ++ [existing]) (a_subsumed s) (a_kind s).

Definition addFd (fds : list FunctionalDependency) (next : FunctionalDependency) (opts : AddFdOptions) : list FunctionalDependency :=
  if (length (dependents next) =? 0)%nat then fds
  else
    let s := foldl (add_step next) (mkAdd [] false (kind next)) fds in
    enforceCap (if a_subsumed s then a_result s else a_result s ++ [with_kind (a_kind s) next]) opts.

Definition mergeFds (a b : list FunctionalDependency) (opts : AddFdOptions) : list FunctionalDependency :=
  foldl (fun result fd => addFd result fd opts) a b.

(** ** Projection and shift *)

(** A [Map] from old to new columns. *)
Abbreviation mapping := (gmap column column).

Fixpoint projectClause (m : mapping) (clause : GuardClause) : option GuardClause :=
  match clause with
  | EqLiteral c v => c' ← m !! c; Some (EqLiteral c' v)
  | EqColumn l r => l' ← m !! l; r' ← m !! r; Some (EqColumn l' r')
  | IsNull c n => c' ← m !! c; Some (IsNull c' n)
  | Range c mn mx i x => c' ← m !! c; Some (Range c' mn mx i x)
  | OrOf l => l' ← mapM (projectClause m) l; Some (OrOf l')
  end.

Definition projectGuard (m : mapping) (g : GuardPredicate) : option GuardPredicate := mapM (projectClause m) g.

(** One dependency, if it survives. *)
Definition project_fd (m : mapping) (fd : FunctionalDependency) : option FunctionalDependency :=
  newDet ← mapM (fun d => m !! d) (determinants fd);
  let newDep := omap (fun d => m !! d) (dependents fd) in
  if (length newDep =? 0)%nat then None
  else
    match guard fd with
    | None => Some (with_columns newDet newDep None fd)
    | Some g => g' ← projectGuard m g; Some (with_columns newDet newDep (Some g') fd)
    end.

Definition projectFds (fds : list FunctionalDependency) (m : mapping) : list FunctionalDependency := omap (project_fd m) fds.

Fixpoint shiftClause (offset : nat) (clause : GuardClause) : GuardClause :=
  match clause with
  | EqLiteral c v => EqLiteral (c + offset) v
  | EqColumn l r => EqColumn (l + offset) (r + offset)
  | IsNull c n => IsNull (c + offset) n
  | Range c mn mx i x => Range (c + offset) mn mx i x
  | OrOf l => OrOf (map (shiftClause offset) l)
  end.

Definition shiftGuard (offset : nat) (g : GuardPredicate) : GuardPredicate := map (shiftClause offset) g.

Definition shift_cols (offset : nat) (cols : list column) : list column := map (fun c => c + offset)%nat cols.

Definition shiftFds (fds : list FunctionalDependency) (offset : nat) : list FunctionalDependency :=
  if (offset =? 0)%nat then fds
  else
    map (fun fd =>
      with_columns (shift_cols offset (determinants fd)) (shift_cols offset (dependents fd))
        (shiftGuard offset <$> guard fd) fd) fds.

Definition stripGuard (fd : FunctionalDependency) : FunctionalDependency :=
  with_columns (determinants fd) (dependents fd) None fd.

(** ** Equivalence classes *)

Definition shiftEquivClasses (classes : list (list column)) (offset : nat) : list (list column) :=
  if (offset =? 0)%nat then classes else map (shift_cols offset) classes.

Definition normalizeClass (cls : list column) : list column := sorted (set_of cls).

(** The first later class that overlaps [ci], and the classes without it. *)
Fixpoint take_overlap (ci : list column) (rest : list (list column)) : option (list column * list (list column)) :=
  match rest with
  | [] => None
  | cj :: rest' =>
    if existsb (set_has ci) cj then Some (cj, rest')
    else match take_overlap ci rest' with
         | Some (cj', rest'') => Some (cj', cj :: rest'')
         | None => None
         end
  end.

(** One round of the outer loop: the first overlapping pair is merged. *)
Fixpoint merge_first (classes : list (list column)) : option (list (list column)) :=
  match classes with
  | [] => None
  | ci :: rest =>
    match take_overlap ci rest with
    | Some (cj, rest') => Some (normalizeClass (ci ++ cj) :: rest')
    | None => cons ci <$> merge_first rest
    end
  end.

(** [while (merged)]; a round that merges leaves one class less. *)
Fixpoint merge_loop (fuel : nat) (classes : list (list column)) : list (list column) :=
  match fuel with
  | O => classes
  | S fuel' =>
    match merge_first classes with
    | Some classes' => merge_loop fuel' classes'
    | None => classes
    end
  end.

Definition mergeEquivClasses (a b : list (list column)) : list (list column) :=
  let classes := map normalizeClass (a ++ b) in
  List.filter (fun c => (2 <=? length c)%nat) (merge_loop (length classes) classes).

Definition addEquivalence (classes : list (list column)) (a b : column) : list (list column) :=
  if (a =? b)%nat then classes else mergeEquivClasses classes [[a; b]].

(** ** Keys *)

Definition superkeyToFd (key : list column) (columnCount : nat) : option FunctionalDependency :=
  let deps := List.filter (fun i => negb (set_has key i)) (seq 0 columnCount) in
  if (length deps =? 0)%nat then None else Some (plain_fd key deps Unique).

Definition closureCoversAll (attrs : colset) (fds : option (list FunctionalDependency)) (columnCount : nat) : bool :=
  if (columnCount <=? 0)%nat then true
  else forallb (set_has (computeClosure attrs (default [] fds))) (seq 0 columnCount).

Definition isUniqueDeterminant (attrs : colset) (fds : option (list FunctionalDependency)) (columnCount : nat) (isSet : bool)
    : bool :=
  let fdList := default [] fds in
  let closure := computeClosure attrs fdList in
  if negb (forallb (set_has closure) (seq 0 columnCount)) then false
  else if isSet then true
  else existsb (fun fd => unguarded fd && is_unique fd && forallb (set_has closure) (determinants fd)) fdList.

(** [k.join(',')]. *)
Definition key_text (k : list column) : jsstring := join 44 (map (fun c => dec (Z.of_nat c)) k).

Definition derive_step (fds : list FunctionalDependency) (columnCount : nat) (isSet : bool)
    (state : list (list column) * list jsstring) (fd : FunctionalDependency) : list (list column) * list jsstring :=
  let '(results, seen) := state in
  if negb (unguarded fd) then state
  else if (columnCount <=? length (determinants fd))%nat then state
  else
    let det := set_of (determinants fd) in
    if negb (isUniqueDeterminant det (Some fds) columnCount isSet) then state
    else
      let minimal := sorted (minimalCover det fds) in
      if decide (key_text minimal ∈ seen) then state
      else (results ++ [minimal], seen ++ [key_text minimal]).

Definition deriveKeysFromFds (fds : option (list FunctionalDependency)) (columnCount : nat) (isSet : bool) : list (list column) :=
  match fds with
  | None | Some [] => []
  | Some fds => (foldl (derive_step fds columnCount isSet) ([], []) fds).1
  end.

Definition hasAnyKey (fds : option (list FunctionalDependency)) (columnCount : nat) (isSet : bool) : bool :=
  match fds with
  | None | Some [] => false
  | Some l =>
    existsb (fun fd => unguarded fd && (length (determinants fd) <? columnCount)%nat &&
                       isUniqueDeterminant (set_of (determinants fd)) fds columnCount isSet) l
  end.

Definition hasSingletonFd (fds : option (list FunctionalDependency)) (columnCount : nat) (isSet : bool) : bool :=
  if (columnCount <=? 0)%nat then false else isUniqueDeterminant [] fds columnCount isSet.

Definition singletonFd (columnCount : nat) : option FunctionalDependency :=
  if (columnCount <=? 0)%nat then None else Some (plain_fd [] (seq 0 columnCount) Unique).

Definition addSingletonFd (fds : list FunctionalDependency) (columnCount : nat) : list FunctionalDependency :=
  match singletonFd columnCount with
  | Some singleton => addFd fds singleton no_options
  | None => fds
  end.

(** What [getType] and [physical] say of a relation: its declared keys, whether
    it is a set, its number of columns and its dependencies. *)
Record KeyRel := mkRel {
  rel_keys : list (list column);
  rel_isSet : bool;
  rel_columnCount : nat;
  rel_fds : option (list FunctionalDependency)
}.

Definition uniq_step (state : list (list column) * list jsstring) (k : list column) : list (list column) * list jsstring :=
  let '(uniq, seen) := state in
  if decide (key_text k ∈ seen) then state else (uniq ++ [k], seen ++ [key_text k]).

(** [other !== k] follows from the lengths. *)
Definition normalizeKeys (keys : list (list column)) : list (list column) :=
  let sortedKeys := map (fun k => sorted (set_of k)) keys in
  let uniq := (foldl uniq_step ([], []) sortedKeys).1 in
  List.filter (fun k => negb (existsb (fun other => (length other <? length k)%nat && forallb (set_has k) other) uniq)) uniq.

Definition allColumns (columnCount : nat) : list column := seq 0 columnCount.

Definition keysOf (rel : KeyRel) : list (list column) :=
  let fds := rel_fds rel in
  let columnCount := rel_columnCount rel in
  let keys :=
    rel_keys rel ++ (if hasSingletonFd fds columnCount (rel_isSet rel) then [[]] else []) ++
    deriveKeysFromFds fds columnCount (rel_isSet rel) in
  let normalized := normalizeKeys keys in
  if (length normalized =? 0)%nat && rel_isSet rel && (0 <? columnCount)%nat then [allColumns columnCount] else normalized.

Definition isUnique (cols : list column) (rel : KeyRel) : bool :=
  let colSet := set_of cols in
  existsb (fun key => forallb (set_has colSet) key) (keysOf rel) ||
  isUniqueDeterminant colSet (rel_fds rel) (rel_columnCount rel) (rel_isSet rel).

Definition isAtMostOneRow (rel : KeyRel) : bool := isUnique [] rel.

(** ** Constant bindings *)

(** A parameter by position or name. *)
Inductive ParamRef : Type := ParamIndex (n : Z) | ParamName (s : jsstring).

#[global] Instance ParamRef_eq_dec : EqDecision ParamRef.
Proof. solve_decision. Defined.

Inductive ConstantValue : Type := CLiteral (v : value) | CParameter (paramRef : ParamRef).

Record ConstantBinding := mkBinding { b_attrs : list column; b_value : ConstantValue; b_source : option ConstraintProvenance }.

Definition constantValueEquals (a b : ConstantValue) : bool :=
  match a, b with
  | CLiteral v, CLiteral w => sqlValueEquals v w
  | CParameter p, CParameter q => bool_decide (p = q)
  | _, _ => false
  end.

Definition unionAttrs (a b : list column) : list column := sorted (foldl set_add (set_of a) b).

(** The provenance is not kept. *)
Definition normalizeBinding (b : ConstantBinding) : ConstantBinding := mkBinding (sorted (set_of (b_attrs b))) (b_value b) None.

Fixpoint merge_binding (result : list ConstantBinding) (next : ConstantBinding) : list ConstantBinding :=
  match result with
  | [] => [next]
  | r :: result' =>
    if constantValueEquals (b_value r) (b_value next)
    then mkBinding (unionAttrs (b_attrs r) (b_attrs next)) (b_value r) None :: result'
    else r :: merge_binding result' next
  end.

Definition enforceBindingCap (bindings : list ConstantBinding) : list ConstantBinding :=
  if (length bindings <=? MAX_FDS_PER_NODE)%nat then bindings else take MAX_FDS_PER_NODE bindings.

Definition mergeConstantBindings (a b : list ConstantBinding) : list ConstantBinding :=
  enforceBindingCap (foldl (fun result raw => merge_binding result (normalizeBinding raw)) (map normalizeBinding a) b).

(** One pass over the classes: the set and whether it grew. *)
Definition grow_class (state : colset * bool) (cls : list column) : colset * bool :=
  if existsb (set_has state.1) cls then foldl add_dependent state cls else state.

Fixpoint grow_loop (fuel : nat) (ecs : list (list column)) (expanded : colset) : colset :=
  match fuel with
  | O => expanded
  | S fuel' =>
    let '(expanded', grew) := foldl grow_class (expanded, false) ecs in
    if grew then grow_loop fuel' ecs expanded' else expanded'
  end.

Definition close_binding (ecs : list (list column)) (b : ConstantBinding) : ConstantBinding :=
  mkBinding (sorted (grow_loop (S (length (concat ecs))) ecs (set_of (b_attrs b)))) (b_value b) None.

Definition closeConstantBindingsOverEcs (bindings : list ConstantBinding) (ecs : list (list column)) : list ConstantBinding :=
  match bindings, ecs with
  | [], _ => []
  | _, [] => map normalizeBinding bindings
  | _, _ => mergeConstantBindings (map (close_binding ecs) bindings) []
  end.

Definition project_attrs (m : mapping) (attrs : list column) : list column :=
  foldl (fun mapped c => match m !! c with Some c' => set_add mapped c' | None => mapped end) [] attrs.

Definition projectConstantBindings (bindings : list ConstantBinding) (m : mapping) : list ConstantBinding :=
  mergeConstantBindings
    (omap (fun b =>
       match project_attrs m (b_attrs b) with
       | [] => None
       | mapped => Some (mkBinding (sorted mapped) (b_value b) None)
       end) bindings) [].

Definition shiftConstantBindings (bindings : list ConstantBinding) (offset : nat) : list ConstantBinding :=
  if (offset =? 0)%nat then map normalizeBinding bindings
  else map (fun b => mkBinding (sorted (shift_cols offset (b_attrs b))) (b_value b) None) bindings.

(** ** Domain constraints *)

Inductive DomainConstraint : Type :=
| DRange (c : column) (min max : option value) (minInclusive maxInclusive : bool) (source : option ConstraintProvenance)
| DEnum (c : column) (values : list value) (source : option ConstraintProvenance).

Definition d_column (d : DomainConstraint) : column :=
  match d with
  | DRange c _ _ _ _ _ => c
  | DEnum c _ _ => c
  end.

Definition with_d_column (c : column) (d : DomainConstraint) : DomainConstraint :=
  match d with
  | DRange _ mn mx i x s => DRange c mn mx i x s
  | DEnum _ vs s => DEnum c vs s
  end.

Fixpoint values_equal (a b : list value) : bool :=
  match a, b with
  | [], [] => true
  | x :: a', y :: b' => sqlValueEquals x y && values_equal a' b'
  | _, _ => false
  end.

Definition domainConstraintEquals (a b : DomainConstraint) : bool :=
  match a, b with
  | DRange c mn mx i x _, DRange c' mn' mx' i' x' _ => (c =? c')%nat && boundEquals mn mn' i i' && boundEquals mx mx' x x'
  | DEnum c vs _, DEnum c' vs' _ => (c =? c')%nat && values_equal vs vs'
  | _, _ => false
  end.

Definition enforceDomainCap (domains : list DomainConstraint) : list DomainConstraint :=
  if (length domains <=? MAX_FDS_PER_NODE)%nat then domains else take MAX_FDS_PER_NODE domains.

Definition mergeDomainConstraints (a b : list DomainConstraint) : list DomainConstraint :=
  enforceDomainCap
    (foldl (fun result next => if existsb (fun e => domainConstraintEquals e next) result then result else result ++ [next]) a b).

Definition projectDomainConstraints (domains : list DomainConstraint) (m : mapping) : list DomainConstraint :=
  mergeDomainConstraints (omap (fun d => c ← m !! d_column d; Some (with_d_column c d)) domains) [].

Definition shiftDomainConstraints (domains : list DomainConstraint) (offset : nat) : list DomainConstraint :=
  if (offset =? 0)%nat then domains else map (fun d => with_d_column (d_column d + offset) d) domains.

(** ** Inclusion dependencies *)

Inductive IndTarget : Type :=
| TableTarget (schema table : jsstring) (targetCols : list column)
| RelationTarget (relationId : jsstring) (targetCols : list column).

#[global] Instance IndTarget_eq_dec : EqDecision IndTarget.
Proof. solve_decision. Defined.

Record InclusionDependency := mkInd { i_cols : list column; i_target : IndTarget; nullRejecting : bool }.

Definition MAX_INDS_PER_NODE : nat := 64.

Fixpoint sameOrderedList (a b : list column) : bool :=
  match a, b with
  | [], [] => true
  | x :: a', y :: b' => (x =? y)%nat && sameOrderedList a' b'
  | _, _ => false
  end.

Definition indTargetsEqual (a b : IndTarget) : bool :=
  match a, b with
  | TableTarget s t cols, TableTarget s' t' cols' => bool_decide (s = s') && bool_decide (t = t') && sameOrderedList cols cols'
  | RelationTarget r cols, RelationTarget r' cols' => bool_decide (r = r') && sameOrderedList cols cols'
  | _, _ => false
  end.

Definition indsEqual (a b : InclusionDependency) : bool :=
  Bool.eqb (nullRejecting a) (nullRejecting b) && sameOrderedList (i_cols a) (i_cols b) && indTargetsEqual (i_target a) (i_target b).

Definition enforceIndCap (inds : list InclusionDependency) (maximum : option nat) : list InclusionDependency :=
  let n := default MAX_INDS_PER_NODE maximum in
  if (length inds <=? n)%nat then inds else take n inds.

Definition addInd (inds : list InclusionDependency) (next : InclusionDependency) (maximum : option nat) : list InclusionDependency :=
  enforceIndCap (if existsb (fun e => indsEqual e next) inds then inds else inds ++ [next]) maximum.

Definition mergeInds (a b : list InclusionDependency) (maximum : option nat) : list InclusionDependency :=
  foldl (fun result ind => addInd result ind maximum) a b.

Definition projectInds (inds : list InclusionDependency) (m : mapping) : list InclusionDependency :=
  mergeInds []
    (omap (fun ind => cols ← mapM (fun c => m !! c) (i_cols ind); Some (mkInd cols (i_target ind) (nullRejecting ind))) inds) None.

Definition shiftInds (inds : list InclusionDependency) (offset : nat) : list InclusionDependency :=
  if (offset =? 0)%nat then inds
  else map (fun ind => mkInd (shift_cols offset (i_cols ind)) (i_target ind) (nullRejecting ind)) inds.

(** ** Joins *)

Inductive JoinType : Type := Inner | Cross | LeftOuter | RightOuter | FullOuter | Semi | Anti.

Record EquiPair := mkPair { p_left : column; p_right : column }.

(** The part of a node's physical properties these functions read. *)
Record PhysicalProperties := mkPhysical {
  ph_fds : option (list FunctionalDependency);
  ph_equivClasses : option (list (list column));
  ph_constantBindings : option (list ConstantBinding);
  ph_domainConstraints : option (list DomainConstraint);
  ph_inds : option (list InclusionDependency)
}.

Definition downgradeUniqueFds (fds : list FunctionalDependency) : list FunctionalDependency :=
  map (fun fd => if is_unique fd then with_kind Determination fd else fd) fds.

Definition withKeyFds (preservedKeys : list (list column)) (totalColumnCount : nat) (fds : list FunctionalDependency)
    : list FunctionalDependency :=
  foldl (fun out key =>
    match superkeyToFd key totalColumnCount with
    | Some keyFd => addFd out keyFd (mkAddFd preservedKeys None)
    | None => out
    end) fds preservedKeys.

(** The facts of an equi-pair, both directions. *)
Definition add_pair (opts : AddFdOptions) (leftColumnCount : nat)
    (state : list FunctionalDependency * list (list column)) (p : EquiPair) : list FunctionalDependency * list (list column) :=
  let rShifted := (p_right p + leftColumnCount)%nat in
  let fds := addFd state.1 (plain_fd [p_left p] [rShifted] Determination) opts in
  let fds := addFd fds (plain_fd [rShifted] [p_left p] Determination) opts in
  (fds, addEquivalence state.2 (p_left p) rShifted).

(** A list, or [undefined] for an empty one. *)
Definition some_list {A} (l : list A) : option (list A) :=
  match l with
  | [] => None
  | _ => Some l
  end.

Definition wrap (fds : list FunctionalDependency) (equiv : list (list column)) (bindings : list ConstantBinding)
    (domains : list DomainConstraint) : PhysicalProperties :=
  mkPhysical (some_list fds) (some_list equiv) (some_list bindings) (some_list domains) None.

Definition propagateJoinFds (joinType : JoinType) (leftPhys rightPhys : PhysicalProperties) (equiPairs : list EquiPair)
    (leftColumnCount totalColumnCount : nat) (preservedKeys : list (list column)) : PhysicalProperties :=
  let leftFds := default [] (ph_fds leftPhys) in
  let rightFds := default [] (ph_fds rightPhys) in
  let leftEC := default [] (ph_equivClasses leftPhys) in
  let rightEC := default [] (ph_equivClasses rightPhys) in
  let leftBindings := default [] (ph_constantBindings leftPhys) in
  let rightBindings := default [] (ph_constantBindings rightPhys) in
  let leftDomains := default [] (ph_domainConstraints leftPhys) in
  let rightDomains := default [] (ph_domainConstraints rightPhys) in
  let opts := mkAddFd preservedKeys None in
  let leftPreserved := existsb (forallb (fun i => i <? leftColumnCount)%nat) preservedKeys in
  let rightPreserved := existsb (forallb (fun i => leftColumnCount <=? i)%nat) preservedKeys in
  let keptLeftFds := if leftPreserved then leftFds else downgradeUniqueFds leftFds in
  let keptRightFds := if rightPreserved then rightFds else downgradeUniqueFds rightFds in
  match joinType with
  | Inner | Cross =>
    let '(fds, equiv) :=
      foldl (add_pair opts leftColumnCount)
        (mergeFds keptLeftFds (shiftFds keptRightFds leftColumnCount) opts,
         mergeEquivClasses leftEC (shiftEquivClasses rightEC leftColumnCount)) equiPairs in
    let mergedBindings := mergeConstantBindings leftBindings (shiftConstantBindings rightBindings leftColumnCount) in
    wrap (withKeyFds preservedKeys totalColumnCount fds) equiv (closeConstantBindingsOverEcs mergedBindings equiv)
      (mergeDomainConstraints leftDomains (shiftDomainConstraints rightDomains leftColumnCount))
  | LeftOuter => wrap (withKeyFds preservedKeys totalColumnCount keptLeftFds) leftEC leftBindings leftDomains
  | RightOuter =>
    wrap (withKeyFds preservedKeys totalColumnCount (shiftFds keptRightFds leftColumnCount))
      (shiftEquivClasses rightEC leftColumnCount) (shiftConstantBindings rightBindings leftColumnCount)
      (shiftDomainConstraints rightDomains leftColumnCount)
  | FullOuter => mkPhysical None None None None None
  | Semi | Anti => wrap (withKeyFds preservedKeys totalColumnCount leftFds) leftEC leftBindings leftDomains
  end.

Definition propagateJoinInds (joinType : JoinType) (leftPhys rightPhys : PhysicalProperties) (leftColumnCount : nat)
    : option (list InclusionDependency) :=
  let leftInds := default [] (ph_inds leftPhys) in
  let rightInds := default [] (ph_inds rightPhys) in
  some_list
    match joinType with
    | Inner | Cross => mergeInds leftInds (shiftInds rightInds leftColumnCount) None
    | LeftOuter | Semi | Anti => leftInds
    | RightOuter => shiftInds rightInds leftColumnCount
    | FullOuter => []
    end.

(** The non-empty key with the fewest columns, then the lowest first column. *)
Definition lex_min_step (best : option (list column)) (key : list column) : option (list column) :=
  match key with
  | [] => best
  | k0 :: _ =>
    match best with
    | None => Some key
    | Some b =>
      if (length key <? length b)%nat || (length key =? length b)%nat && (k0 <? default O (head b))%nat then Some key else best
    end
  end.

Definition selectLexMinKey (keys : list (list column)) : option (list column) := foldl lex_min_step None keys.

Record JoinKeyCoverageResult := mkCoverage {
  leftKeyCovered : bool;
  rightKeyCovered : bool;
  cov_preservedKeys : list (list column)
}.

(** The keys a join keeps, for sides whose logical type is known.  The row
    estimates that come with them are not modelled. *)
Definition analyzeJoinKeyCoverage (joinType : JoinType) (leftRel rightRel : KeyRel) (equiPairs : list EquiPair)
    (leftColumnCount : nat) : JoinKeyCoverageResult :=
  let leftKeys := keysOf leftRel in
  let rightKeysShifted := map (shift_cols leftColumnCount) (keysOf rightRel) in
  let leftCovered := isUnique (map p_left equiPairs) leftRel in
  let rightCovered := isUnique (map p_right equiPairs) rightRel in
  let both_single := if isAtMostOneRow leftRel && isAtMostOneRow rightRel then [[]] else [] in
  match joinType with
  | Semi | Anti => mkCoverage false false leftKeys
  | FullOuter => mkCoverage false false []
  | Inner | Cross =>
    let product :=
      if negb leftCovered && negb rightCovered then
        match selectLexMinKey leftKeys, selectLexMinKey rightKeysShifted with
        | Some l, Some r => [l ++ r]
        | _, _ => []
        end
      else [] in
    mkCoverage leftCovered rightCovered
      ((if rightCovered then leftKeys else []) ++ (if leftCovered then rightKeysShifted else []) ++ both_single ++ product)
  | LeftOuter => mkCoverage leftCovered rightCovered ((if rightCovered then leftKeys else []) ++ both_single)
  | RightOuter => mkCoverage leftCovered rightCovered ((if leftCovered then rightKeysShifted else []) ++ both_single)
  end.

(** ** Guards and predicates *)

(** The bounds a filter puts on a column. *)
Record FilterRange := mkRange {
  f_min : option value;
  f_max : option value;
  f_minInclusive : bool;
  f_maxInclusive : bool
}.

(** What the conjuncts of a filter say of single columns. *)
Record PredicateFacts := mkFacts {
  literalEqs : gmap column value;
  columnEqs : gmap column (list column);
  isNullCols : list column;
  isNotNullCols : list column;
  inListEqs : gmap column (list value);
  rangeBounds : gmap column FilterRange
}.

Fixpoint ecIndexOf_from (i : nat) (col : column) (ecs : list (list column)) : option nat :=
  match ecs with
  | [] => None
  | cls :: ecs' => if set_has cls col then Some i else ecIndexOf_from (S i) col ecs'
  end.

Definition ecIndexOf (col : column) (ecs : list (list column)) : option nat := ecIndexOf_from 0 col ecs.

(** The class of a column, or none. *)
Definition ec_of (col : column) (ecs : list (list column)) : list column :=
  match ecIndexOf col ecs with
  | Some i => default [] (ecs !! i)
  | None => []
  end.

Definition bindingForColumn (col : column) (bindings : list ConstantBinding) : option ConstantBinding :=
  List.find (fun b => set_has (b_attrs b) col) bindings.

Definition candidateColumns (col : column) (ecs : list (list column)) (bindings : list ConstantBinding) : list column :=
  let out := foldl set_add [col] (ec_of col ecs) in
  match bindingForColumn col bindings with
  | Some own => foldl set_add out (b_attrs own)
  | None => out
  end.

(** One side of the subset test. *)
Definition min_within (filter_min guard_min : option value) (filterInclusive guardInclusive : bool) : bool :=
  match guard_min with
  | None => true
  | Some g =>
    match filter_min with
    | None => false
    | Some f =>
      let cmp := compareSqlValues f g in
      negb (cmp <? 0) && negb ((cmp =? 0) && filterInclusive && negb guardInclusive)
    end
  end.

Definition max_within (filter_max guard_max : option value) (filterInclusive guardInclusive : bool) : bool :=
  match guard_max with
  | None => true
  | Some g =>
    match filter_max with
    | None => false
    | Some f =>
      let cmp := compareSqlValues f g in
      negb (0 <? cmp) && negb ((cmp =? 0) && filterInclusive && negb guardInclusive)
    end
  end.

Definition filterRangeSubsetOfGuardRange (f : FilterRange) (mn mx : option value) (minInclusive maxInclusive : bool) : bool :=
  min_within (f_min f) mn (f_minInclusive f) minInclusive && max_within (f_max f) mx (f_maxInclusive f) maxInclusive.

(** The column and the literals of clauses that are all [eq-literal] on it. *)
Fixpoint in_list_shape (clauses : list GuardClause) : option (column * list value) :=
  match clauses with
  | [EqLiteral c v] => Some (c, [v])
  | EqLiteral c v :: clauses' =>
    match in_list_shape clauses' with
    | Some (c', vs) => if (c =? c')%nat then Some (c, v :: vs) else None
    | None => None
    end
  | _ => None
  end.

Definition binding_literal (b : option ConstantBinding) : option value :=
  match b with
  | Some b => match b_value b with CLiteral v => Some v | CParameter _ => None end
  | None => None
  end.

Definition inListEntailed (clauses : list GuardClause) (facts : PredicateFacts) (ecs : list (list column))
    (bindings : list ConstantBinding) : bool :=
  match in_list_shape clauses with
  | None => false
  | Some (col, orSet) =>
    let inOrSet v := existsb (fun x => sqlValueEquals x v) orSet in
    existsb (fun c =>
      match literalEqs facts !! c with Some direct => inOrSet direct | None => false end ||
      match inListEqs facts !! c with
      | Some inList => (0 <? length inList)%nat && forallb inOrSet inList
      | None => false
      end ||
      match binding_literal (bindingForColumn c bindings) with Some v => inOrSet v | None => false end)
      (candidateColumns col ecs bindings)
  end.

Definition literal_is (facts : PredicateFacts) (v : value) (c : column) : bool :=
  match literalEqs facts !! c with
  | Some lit => sqlValueEquals lit v
  | None => false
  end.

Fixpoint clauseEntailed (facts : PredicateFacts) (ecs : list (list column)) (bindings : list ConstantBinding)
    (isColumnNonNullable : column -> bool) (clause : GuardClause) : bool :=
  match clause with
  | EqLiteral col v =>
    literal_is facts v col || existsb (literal_is facts v) (ec_of col ecs) ||
    match binding_literal (bindingForColumn col bindings) with Some w => sqlValueEquals w v | None => false end
  | EqColumn l r =>
    (l =? r)%nat ||
    match ecIndexOf l ecs, ecIndexOf r ecs with Some i, Some j => (i =? j)%nat | _, _ => false end ||
    set_has (default [] (columnEqs facts !! l)) r ||
    match bindingForColumn l bindings, bindingForColumn r bindings with
    | Some lb, Some rb => constantValueEquals (b_value lb) (b_value rb)
    | _, _ => false
    end
  | IsNull col negated =>
    if negated then set_has (isNotNullCols facts) col || isColumnNonNullable col
    else set_has (isNullCols facts) col
  | Range col mn mx i x =>
    existsb (fun c =>
      match rangeBounds facts !! c with
      | Some f => filterRangeSubsetOfGuardRange f mn mx i x
      | None => false
      end) (candidateColumns col ecs bindings)
  | OrOf clauses =>
    existsb (clauseEntailed facts ecs bindings isColumnNonNullable) clauses || inListEntailed clauses facts ecs bindings
  end.

(** [predicateImpliesGuard] on the facts of the predicate. *)
Definition guardEntailed (facts : PredicateFacts) (g : GuardPredicate) (ecs : list (list column)) (bindings : list ConstantBinding)
    (isColumnNonNullable : column -> bool) : bool :=
  forallb (clauseEntailed facts ecs bindings isColumnNonNullable) g.

End Fds.
