(* ===== verification/FdLaws.v ===== *)
(** * Laws of functional dependencies

    Theorems about [Fds.v]: the closure loop ends with exactly what the
    dependencies derive; what the planner reads off its facts (keys, uniqueness,
    dependencies of joins and projections, activated guards) is true of every
    bag of rows the facts are true of. *)

From S2P Require Import Prelude Bytes Double Decimal NumberText Utf8 Json Comparison VTab Fds.
From Stdlib Require Import ZArith Lia.
From stdpp Require Import sorting.
From stdpp Require Import base tactics numbers sets gmap list.
#[local] Open Scope Z_scope.

Import Utf8 Json Comparison VTab Fds.

Module FdLaws.

Create HintDb fds.

(** ** Sets of columns *)

Lemma set_has_spec s c : set_has s c = true <-> c ∈ s.
Proof. apply bool_decide_eq_true. Qed.

Lemma set_has_false s c : set_has s c = false <-> c ∉ s.
Proof. apply bool_decide_eq_false. Qed.

Lemma forallb_has s l : forallb (set_has s) l = true <-> forall c, c ∈ l -> c ∈ s.
Proof.
  rewrite forallb_forall. split; intros H c Hc.
  - apply set_has_spec, H. by apply list_elem_of_In.
  - apply set_has_spec, H. by apply list_elem_of_In.
Qed.

Lemma existsb_exists_elem {A} (f : A -> bool) l : existsb f l = true <-> exists x, x ∈ l /\ f x = true.
Proof. rewrite existsb_exists. by setoid_rewrite list_elem_of_In. Qed.

Lemma elem_of_concat_map {A B} (f : A -> list B) l y : y ∈ concat (map f l) <-> exists x, x ∈ l /\ y ∈ f x.
Proof.
  rewrite list_elem_of_In, in_concat. setoid_rewrite in_map_iff. setoid_rewrite list_elem_of_In. naive_solver.
Qed.

Lemma elem_of_set_add x s c : x ∈ set_add s c <-> x ∈ s \/ x = c.
Proof.
  unfold set_add. destruct (set_has s c) eqn:E.
  - apply set_has_spec in E. split; [by left|]. by intros [?| ->].
  - rewrite elem_of_app, list_elem_of_singleton. done.
Qed.

Lemma NoDup_set_add s c : NoDup s -> NoDup (set_add s c).
Proof.
  intros H. unfold set_add. destruct (set_has s c) eqn:E; [done|]. apply set_has_false in E.
  apply NoDup_app. split; [done|]. split; [|apply NoDup_singleton]. by intros x Hx ->%list_elem_of_singleton.
Qed.

Lemma elem_of_set_adds x l s : x ∈ foldl set_add s l <-> x ∈ s \/ x ∈ l.
Proof.
  revert s. induction l as [|c l IH]; intros s; cbn; [set_solver|]. rewrite IH, elem_of_set_add, elem_of_cons. tauto.
Qed.

Lemma NoDup_set_adds l s : NoDup s -> NoDup (foldl set_add s l).
Proof. revert s. induction l as [|c l IH]; intros s H; cbn; [done|]. by apply IH, NoDup_set_add. Qed.

Lemma elem_of_set_of x l : x ∈ set_of l <-> x ∈ l.
Proof. unfold set_of. rewrite elem_of_set_adds. set_solver. Qed.

Lemma NoDup_set_of l : NoDup (set_of l).
Proof. apply NoDup_set_adds. constructor. Qed.

Lemma set_of_id l : NoDup l -> set_of l = l.
Proof.
  unfold set_of. assert (forall k, NoDup (k ++ l) -> foldl set_add k l = k ++ l) as H; [|by intros; apply (H [])].
  induction l as [|c l IH]; intros k Hn; cbn; [by rewrite app_nil_r|].
  assert (c ∉ k) as Hc. { apply NoDup_app in Hn as (_ & Hd & _). intros Hc. destruct (Hd c Hc). left. }
  unfold set_add. rewrite (proj2 (set_has_false k c) Hc). rewrite IH; [by rewrite <- (assoc_L (++))|]. by rewrite <- (assoc_L (++)).
Qed.

Lemma elem_of_set_delete x s c : x ∈ set_delete s c <-> x ∈ s /\ x <> c.
Proof.
  unfold set_delete. rewrite !list_elem_of_In, filter_In, negb_true_iff, Nat.eqb_neq. done.
Qed.

Lemma elem_of_sorted x s : x ∈ sorted s <-> x ∈ s.
Proof. apply elem_of_js_sort. Qed.

#[export] Hint Resolve NoDup_set_add NoDup_set_of NoDup_set_adds : fds.

(** ** Closure *)

(** What a set of columns determines, by the unguarded dependencies. *)
Inductive derives (fds : list FunctionalDependency) (attrs : list column) : column -> Prop :=
| derive_attr c : c ∈ attrs -> derives fds attrs c
| derive_fd fd c :
    fd ∈ fds -> unguarded fd = true -> (forall d, d ∈ determinants fd -> derives fds attrs d) -> c ∈ dependents fd ->
    derives fds attrs c.

(** A state of a pass: it extends the previous one, adds nothing new when it
    did not change and something when it did. *)
Record extends (s s' : colset * bool) : Prop := {
  ext_incl x : x ∈ s.1 -> x ∈ s'.1;
  ext_nodup : NoDup s.1 -> NoDup s'.1;
  ext_same : s'.2 = false -> s' = s;
  ext_flag : s.2 = true -> s'.2 = true;
  ext_grew : s'.2 = true -> s.2 = true \/ exists x, x ∈ s'.1 /\ x ∉ s.1
}.

#[global] Instance extends_preorder : PreOrder extends.
Proof.
  split.
  - intros s. split; auto.
  - intros s t u [I1 N1 S1 F1 G1] [I2 N2 S2 F2 G2]. split; auto.
    + intros H. rewrite S1 in S2; [by apply S2|]. by rewrite <- (S2 H).
    + intros H. destruct (G2 H) as [Ht|(x & Hx & Hn)]; [destruct (G1 Ht) as [?|(x & Hx & Hn)]; [by left|right; eauto]|].
      right. exists x. auto.
Qed.

Lemma add_dependent_extends s dep : extends s (add_dependent s dep).
Proof.
  unfold add_dependent. destruct (set_has s.1 dep) eqn:E; [done|]. apply set_has_false in E. split; cbn; try done; auto with fds.
  - intros x Hx. apply elem_of_set_add. by left.
  - intros _. right. exists dep. split; [apply elem_of_set_add; by right|done].
Qed.

Lemma foldl_extends {A} (f : colset * bool -> A -> colset * bool) l s :
  (forall s x, extends s (f s x)) -> extends s (foldl f s l).
Proof. intros Hf. revert s. induction l as [|x l IH]; intros s; cbn; [done|]. etrans; [apply Hf|apply IH]. Qed.

Lemma closure_step_extends s fd : extends s (closure_step s fd).
Proof.
  unfold closure_step. destruct (negb _); [done|]. destruct (forallb _ _); [|done].
  apply foldl_extends, add_dependent_extends.
Qed.

Lemma elem_of_add_dependents x l s : x ∈ (foldl add_dependent s l).1 <-> x ∈ s.1 \/ x ∈ l.
Proof.
  revert s. induction l as [|c l IH]; intros s; cbn; [set_solver|]. rewrite IH, elem_of_cons. unfold add_dependent.
  destruct (set_has s.1 c) eqn:E; [apply set_has_spec in E; naive_solver|]. cbn. rewrite elem_of_set_add. tauto.
Qed.

(** A property that holds of all columns and is closed under the dependencies
    holds after a pass. *)
Lemma closure_pass_inv (P : column -> Prop) fds s :
  (forall fd c, fd ∈ fds -> unguarded fd = true -> (forall d, d ∈ determinants fd -> P d) -> c ∈ dependents fd -> P c) ->
  (forall x, x ∈ s.1 -> P x) -> forall x, x ∈ (foldl closure_step s fds).1 -> P x.
Proof.
  revert s. induction fds as [|fd fds IH]; intros s Hp Hs; cbn; [done|]. apply IH.
  - intros fd' c Hin. apply Hp. by right.
  - intros x. unfold closure_step. destruct (unguarded fd) eqn:Eu; cbn [negb]; [|apply Hs].
    destruct (forallb _ _) eqn:Ed; [|apply Hs]. rewrite forallb_has in Ed. rewrite elem_of_add_dependents.
    intros [Hx|Hx]; [by apply Hs|]. apply (Hp fd); [left|done| |done]. auto.
Qed.

(** A pass that changes nothing leaves a closed set. *)
Lemma closure_pass_closed fds cl :
  (closure_pass fds cl).2 = false -> forall fd c,
  fd ∈ fds -> unguarded fd = true -> (forall d, d ∈ determinants fd -> d ∈ cl) -> c ∈ dependents fd -> c ∈ cl.
Proof.
  unfold closure_pass. intros Hf fd c Hin Hu Hd Hc. apply list_elem_of_split in Hin as (l1 & l2 & ->).
  rewrite foldl_app in Hf. cbn in Hf.
  pose proof (foldl_extends closure_step l1 (cl, false) closure_step_extends) as E1.
  set (s1 := foldl closure_step (cl, false) l1) in *.
  pose proof (foldl_extends closure_step l2 (closure_step s1 fd) closure_step_extends) as E2.
  pose proof (ext_same _ _ E2 Hf) as H2. rewrite H2 in Hf. pose proof (ext_same _ _ (closure_step_extends s1 fd) Hf) as H1.
  assert (s1 = (cl, false)) as Hs1 by (apply (ext_same _ _ E1); by rewrite <- H1).
  assert (c ∈ (closure_step s1 fd).1) as Hcl; [|by rewrite H1, Hs1 in Hcl].
  unfold closure_step. rewrite Hu, Hs1. cbn [negb fst]. rewrite (proj2 (forallb_has cl (determinants fd)) Hd).
  apply elem_of_add_dependents. by right.
Qed.

(** The dependents not yet in the closure. *)
Definition missing (fds : list FunctionalDependency) (cl : colset) : list column :=
  List.filter (fun c => negb (set_has cl c)) (concat (map dependents fds)).

Lemma elem_of_missing fds cl c : c ∈ missing fds cl <-> c ∉ cl /\ exists fd, fd ∈ fds /\ c ∈ dependents fd.
Proof.
  unfold missing. rewrite list_elem_of_In, filter_In, negb_true_iff, <- list_elem_of_In, set_has_false, elem_of_concat_map. tauto.
Qed.

Lemma filter_length_lt {A} (f g : A -> bool) l x :
  (forall y, g y = true -> f y = true) -> x ∈ l -> f x = true -> g x = false ->
  (length (List.filter g l) < length (List.filter f l))%nat.
Proof.
  intros Hgf Hx Hf Hg. assert (forall k, (length (List.filter g k) <= length (List.filter f k))%nat) as Hle.
  { induction k as [|y k IH]; cbn; [done|]. specialize (Hgf y). destruct (g y); [rewrite Hgf by done; cbn; lia|].
    destruct (f y); cbn; lia. }
  apply list_elem_of_split in Hx as (l1 & l2 & ->). rewrite !List.filter_app, !length_app. cbn. rewrite Hf, Hg. cbn.
  pose proof (Hle l1). pose proof (Hle l2). lia.
Qed.

(** A pass that changes something finds a missing dependent. *)
Lemma closure_pass_progress fds cl :
  (closure_pass fds cl).2 = true -> (length (missing fds (closure_pass fds cl).1) < length (missing fds cl))%nat.
Proof.
  intros Hf. pose proof (foldl_extends closure_step fds (cl, false) closure_step_extends) as E. fold (closure_pass fds cl) in E.
  destruct (ext_grew _ _ E Hf) as [?|(x & Hx & Hn)]; [done|]. cbn in Hn.
  assert (exists fd, fd ∈ fds /\ x ∈ dependents fd) as Hd.
  { assert (x ∈ cl \/ exists fd, fd ∈ fds /\ x ∈ dependents fd) as [?|?]; [|done|done].
    revert x Hx Hn. intros x Hx _. revert Hx. apply (closure_pass_inv (fun x => x ∈ cl \/ exists fd, fd ∈ fds /\ x ∈ dependents fd)).
    - intros fd c Hfd _ _ Hc. right. eauto.
    - intros y Hy. by left. }
  unfold missing. apply (filter_length_lt _ _ _ x).
  - intros y. rewrite !negb_true_iff, !set_has_false. intros Hy Hc. apply Hy. by apply (ext_incl _ _ E).
  - by apply elem_of_concat_map.
  - by rewrite negb_true_iff, set_has_false.
  - by rewrite negb_false_iff, set_has_spec.
Qed.

Lemma closure_loop_final fuel fds cl :
  (length (missing fds cl) < fuel)%nat ->
  closure_pass fds (closure_loop fuel fds cl) = (closure_loop fuel fds cl, false).
Proof.
  revert cl. induction fuel as [|fuel IH]; intros cl Hf; [lia|]. cbn.
  pose proof (closure_pass_progress fds cl) as Hp. pose proof (foldl_extends closure_step fds (cl, false) closure_step_extends) as E.
  fold (closure_pass fds cl) in E. destruct (closure_pass fds cl) as [cl' changed] eqn:Ep. cbn in *. destruct changed.
  - apply IH. specialize (Hp eq_refl). lia.
  - pose proof (ext_same _ _ E eq_refl) as Es. injection Es as ->. exact Ep.
Qed.

Lemma missing_fuel fds cl : (length (missing fds cl) < closure_fuel fds)%nat.
Proof. unfold missing, closure_fuel. pose proof (List.filter_length_le (fun c => negb (set_has cl c)) (concat (map dependents fds))). lia. Qed.

(** The loop of [computeClosure] has ended. *)
Lemma computeClosure_final attrs fds :
  closure_pass fds (computeClosure attrs fds) = (computeClosure attrs fds, false).
Proof. apply closure_loop_final, missing_fuel. Qed.

Lemma closure_loop_inv (P : column -> Prop) fuel fds cl :
  (forall fd c, fd ∈ fds -> unguarded fd = true -> (forall d, d ∈ determinants fd -> P d) -> c ∈ dependents fd -> P c) ->
  (forall x, x ∈ cl -> P x) -> forall x, x ∈ closure_loop fuel fds cl -> P x.
Proof.
  intros Hp. revert cl. induction fuel as [|fuel IH]; intros cl Hs; cbn; [done|].
  pose proof (closure_pass_inv P fds (cl, false) Hp Hs) as H. fold (closure_pass fds cl) in H.
  destruct (closure_pass fds cl) as [cl' changed]. destruct changed; [by apply IH|done].
Qed.

Lemma closure_loop_extends fuel fds cl :
  NoDup cl -> NoDup (closure_loop fuel fds cl) /\ forall x, x ∈ cl -> x ∈ closure_loop fuel fds cl.
Proof.
  revert cl. induction fuel as [|fuel IH]; intros cl Hn; cbn; [done|].
  pose proof (foldl_extends closure_step fds (cl, false) closure_step_extends) as E. fold (closure_pass fds cl) in E.
  pose proof (ext_nodup _ _ E Hn) as N. pose proof (ext_incl _ _ E) as I. cbn in N, I.
  destruct (closure_pass fds cl) as [cl' changed]. cbn in N, I. destruct changed; [|auto].
  destruct (IH cl' N). auto.
Qed.

Lemma NoDup_computeClosure attrs fds : NoDup (computeClosure attrs fds).
Proof. apply closure_loop_extends, NoDup_set_of. Qed.

#[export] Hint Resolve NoDup_computeClosure : fds.

Lemma computeClosure_derives attrs fds c : c ∈ computeClosure attrs fds <-> derives fds attrs c.
Proof.
  split.
  - apply closure_loop_inv; [intros; by eapply derive_fd|]. intros x Hx. apply derive_attr. by apply elem_of_set_of.
  - intros H. pose proof (computeClosure_final attrs fds) as Hf. induction H as [c Hc|fd c Hfd Hu Hd IH Hc].
    + apply closure_loop_extends; [apply NoDup_set_of|by apply elem_of_set_of].
    + eapply closure_pass_closed; [by rewrite Hf|done..].
Qed.

(** C32: The closure loop ends, and with the right answer.  Its last pass
    changes nothing, so [while (changed)] is left after at most one pass per
    dependent and one more; the set it returns holds exactly the columns the
    unguarded dependencies derive from the given ones. *)
Theorem closure_exact attrs fds :
  closure_pass fds (computeClosure attrs fds) = (computeClosure attrs fds, false) /\
  forall c, c ∈ computeClosure attrs fds <-> derives fds attrs c.
Proof. split; [apply computeClosure_final|]. intros c. apply computeClosure_derives. Qed.

Lemma derives_mono fds a b c : (forall x, x ∈ a -> derives fds b x) -> derives fds a c -> derives fds b c.
Proof.
  intros Hab H. induction H as [c Hc|fd c Hfd Hu Hd IH Hc]; [by apply Hab|]. by eapply derive_fd.
Qed.

(** ** Minimal covers *)

Abbreviation same_closure fds a b := (forall c, derives fds a c <-> derives fds b c).

(** The test of [minimalCover] is equality of closures, for a part of the set. *)
Lemma cover_test attrs full trial fds :
  (forall x, x ∈ trial -> x ∈ attrs) -> full = computeClosure attrs fds ->
  (length (computeClosure trial fds) =? length full)%nat && forallb (set_has (computeClosure trial fds)) full = true <->
  same_closure fds trial attrs.
Proof.
  intros Hsub ->. rewrite andb_true_iff, Nat.eqb_eq, forallb_has. setoid_rewrite computeClosure_derives. split.
  - intros [_ H] c. split; [|by apply H]. apply derives_mono. intros x Hx. apply derive_attr. auto.
  - intros H. split; [|intros c Hc; by apply H]. apply Nat.le_antisymm.
    + apply submseteq_length, NoDup_submseteq; [apply NoDup_computeClosure|]. intros x. rewrite !computeClosure_derives. by rewrite H.
    + apply submseteq_length, NoDup_submseteq; [apply NoDup_computeClosure|]. intros x. rewrite !computeClosure_derives. by rewrite H.
Qed.

(** After trying the columns of [done], none of them is redundant. *)
Definition irredundant (fds : list FunctionalDependency) (attrs result : colset) (tried : list column) : Prop :=
  (forall x, x ∈ result -> x ∈ attrs) /\ same_closure fds result attrs /\
  forall a, a ∈ tried -> a ∈ result -> ~ same_closure fds (set_delete result a) attrs.

Lemma cover_step_irredundant fds attrs result tried a :
  irredundant fds attrs result tried -> irredundant fds attrs (cover_step (computeClosure attrs fds) fds result a) (tried ++ [a]).
Proof.
  intros (Hsub & Hsame & Hirr). unfold cover_step.
  assert (forall x, x ∈ set_delete result a -> x ∈ attrs) as Hsub' by (intros x [Hx _]%elem_of_set_delete; auto).
  pose proof (cover_test attrs _ (set_delete result a) fds Hsub' eq_refl) as Ht.
  destruct (_ && _).
  - split; [done|]. split; [by apply Ht|]. intros b [Hb|Hb]%elem_of_app Hin.
    + apply elem_of_set_delete in Hin as [Hin Hne]. intros Hd. apply (Hirr b Hb Hin). intros c. split.
      * apply derives_mono. intros x [Hx _]%elem_of_set_delete. apply derive_attr. auto.
      * intros Hc. apply Hd in Hc. revert Hc. apply derives_mono. intros x Hx. apply derive_attr.
        apply elem_of_set_delete in Hx as [Hx ?]. apply elem_of_set_delete in Hx as [Hx ?]. by apply elem_of_set_delete.
    + apply list_elem_of_singleton in Hb as ->. by apply elem_of_set_delete in Hin as [_ ?].
  - split; [done|]. split; [done|]. intros b [Hb|Hb]%elem_of_app Hin; [by apply Hirr|].
    apply list_elem_of_singleton in Hb as ->. intros Hd. by apply Ht in Hd.
Qed.

Lemma minimalCover_irredundant attrs fds : irredundant fds attrs (minimalCover attrs fds) (set_of attrs).
Proof.
  unfold minimalCover. assert (forall l tried result, irredundant fds attrs result tried ->
    irredundant fds attrs (foldl (cover_step (computeClosure attrs fds) fds) result l) (tried ++ l)) as H.
  { induction l as [|a l IH]; intros tried result Hr; cbn; [by rewrite app_nil_r|].
    replace (tried ++ a :: l) with ((tried ++ [a]) ++ l) by (by rewrite <- (assoc_L (++))). by apply IH, cover_step_irredundant. }
  apply (H (set_of attrs) []). split; [intros x; apply elem_of_set_of|]. split; [|by intros a ?%elem_of_nil].
  intros c. split; apply derives_mono; intros x Hx; apply derive_attr; by apply elem_of_set_of.
Qed.

(** [minimalCover] keeps the closure and nothing in it is redundant: the
    set it returns is part of the given one, determines the same columns, and
    loses one of them as soon as any of its columns is dropped. *)
Theorem minimal_cover_minimal attrs fds :
  (forall x, x ∈ minimalCover attrs fds -> x ∈ attrs) /\
  same_closure fds (minimalCover attrs fds) attrs /\
  forall a, a ∈ minimalCover attrs fds -> ~ same_closure fds (set_delete (minimalCover attrs fds) a) attrs.
Proof.
  destruct (minimalCover_irredundant attrs fds) as (H1 & H2 & H3). split; [done|]. split; [done|].
  intros a Ha. apply H3; [|done]. by apply elem_of_set_of, H1.
Qed.

(** ** What the facts say of rows *)

(** When two values are the same to the engine: a total preorder on values that
    agrees with the structural equality of literals. *)
Class Identity (cmp : value -> value -> comparison) : Prop := {
  identity_laws :: CmpLaws cmp;
  identity_literals v w : sqlValueEquals v w = true -> cmp v w = Eq
}.

Section Semantics.
Context (cmp : value -> value -> comparison) `{!Identity cmp}.

Abbreviation row := (list value).

Definition cell (r : row) (c : column) : value := default VNull (r !! c).

Definition same (x y : value) : Prop := cmp x y = Eq.

#[global] Instance same_equivalence : Equivalence same.
Proof.
  unfold same. split.
  - intros x. apply (cmp_refl cmp).
  - intros x y. apply (cmp_eq_sym cmp).
  - intros x y z Hxy Hyz. by rewrite (cmp_eq_l cmp x y z Hxy).
Qed.

Definition agree (cols : list column) (r r' : row) : Prop := forall c, c ∈ cols -> same (cell r c) (cell r' c).

(** SQL [=] is true. *)
Definition sql_equal (x y : value) : Prop := is_null x = false /\ is_null y = false /\ same x y.

Definition above (x : value) (mn : option value) (inclusive : bool) : Prop :=
  match mn with
  | None => True
  | Some m => cmp x m = Gt \/ inclusive = true /\ cmp x m = Eq
  end.

Definition below (x : value) (mx : option value) (inclusive : bool) : Prop :=
  match mx with
  | None => True
  | Some m => cmp x m = Lt \/ inclusive = true /\ cmp x m = Eq
  end.

Definition in_range (x : value) (mn mx : option value) (minInclusive maxInclusive : bool) : Prop :=
  is_null x = false /\ above x mn minInclusive /\ below x mx maxInclusive.

Fixpoint clause_holds (r : row) (clause : GuardClause) : Prop :=
  match clause with
  | EqLiteral c v => sql_equal (cell r c) v
  | EqColumn c c' => sql_equal (cell r c) (cell r c')
  | IsNull c negated => is_null (cell r c) = negb negated
  | Range c mn mx i x => in_range (cell r c) mn mx i x
  | OrOf l => foldr (fun cl P => clause_holds r cl \/ P) False l
  end.

Definition guard_holds (r : row) (g : option GuardPredicate) : Prop := Forall (clause_holds r) (default [] g).

(** A dependency is true of a bag of rows: rows within its guard that agree on
    the determinants agree on the dependents, and are one row if it says
    unique. *)
Definition fd_holds (rows : list row) (fd : FunctionalDependency) : Prop :=
  forall i j r r', rows !! i = Some r -> rows !! j = Some r' ->
  guard_holds r (guard fd) -> guard_holds r' (guard fd) -> agree (determinants fd) r r' ->
  agree (dependents fd) r r' /\ (kind fd = Unique -> i = j).

Abbreviation fds_hold rows fds := (Forall (fd_holds rows) fds).

(** At most one row per tuple. *)
Definition key_holds (rows : list row) (key : list column) : Prop :=
  forall i j r r', rows !! i = Some r -> rows !! j = Some r' -> agree key r r' -> i = j.

(** A class of columns that hold the same value in every row. *)
Definition ec_holds (rows : list row) (cls : list column) : Prop :=
  forall r c c', r ∈ rows -> c ∈ cls -> c' ∈ cls -> same (cell r c) (cell r c').

Lemma agree_mono cols cols' r r' : (forall c, c ∈ cols' -> c ∈ cols) -> agree cols r r' -> agree cols' r r'.
Proof. intros H Ha c Hc. auto. Qed.

Lemma guard_holds_none r fd : unguarded fd = true -> guard_holds r (guard fd).
Proof. unfold unguarded, guard_holds. destruct (guard fd); [done|constructor]. Qed.

Lemma key_holds_mono rows k k' : (forall c, c ∈ k -> c ∈ k') -> key_holds rows k -> key_holds rows k'.
Proof. intros H Hk i j r r' Hi Hj Ha. apply (Hk i j r r' Hi Hj). by eapply agree_mono. Qed.

(** Rows that agree on a set agree on its closure. *)
Lemma derives_agree rows fds attrs i j r r' c :
  fds_hold rows fds -> rows !! i = Some r -> rows !! j = Some r' -> agree attrs r r' ->
  derives fds attrs c -> same (cell r c) (cell r' c).
Proof.
  intros Hf Hi Hj Ha H. induction H as [c Hc|fd c Hfd Hu Hd IH Hc]; [by apply Ha|].
  rewrite Forall_forall in Hf. destruct (Hf fd Hfd i j r r') as [Hdep _]; auto using guard_holds_none.
Qed.

Lemma closure_agree rows fds attrs i j r r' :
  fds_hold rows fds -> rows !! i = Some r -> rows !! j = Some r' -> agree attrs r r' ->
  agree (computeClosure attrs fds) r r'.
Proof. intros Hf Hi Hj Ha c Hc. apply computeClosure_derives in Hc. by eapply derives_agree. Qed.

(** ** Uniqueness *)

(** What a relation's type and dependencies say of its rows. *)
Record describes (rows : list row) (rel : KeyRel) : Prop := {
  desc_keys : Forall (key_holds rows) (rel_keys rel);
  desc_set : rel_isSet rel = true -> key_holds rows (seq 0 (rel_columnCount rel));
  desc_fds : fds_hold rows (default [] (rel_fds rel))
}.

Lemma isUniqueDeterminant_sound rows attrs fds n isSet :
  fds_hold rows (default [] fds) -> (isSet = true -> key_holds rows (seq 0 n)) ->
  isUniqueDeterminant attrs fds n isSet = true -> key_holds rows attrs.
Proof.
  intros Hf Hs. unfold isUniqueDeterminant. destruct (forallb _ (seq 0 n)) eqn:Hc; cbn [negb]; [|done].
  rewrite forallb_has in Hc. intros Hu i j r r' Hi Hj Ha.
  pose proof (closure_agree rows _ attrs i j r r' Hf Hi Hj Ha) as Hcl. destruct isSet.
  - apply (Hs eq_refl i j r r' Hi Hj). by eapply agree_mono.
  - apply existsb_exists_elem in Hu as (fd & Hfd & H). apply andb_prop in H as [H Hd]. apply andb_prop in H as [Hg Hk].
    rewrite Forall_forall in Hf. apply bool_decide_eq_true in Hk. rewrite forallb_has in Hd.
    destruct (Hf fd Hfd i j r r' Hi Hj) as [_ He]; auto using guard_holds_none. by eapply agree_mono.
Qed.

Lemma minimalCover_key rows attrs fds :
  fds_hold rows fds -> key_holds rows attrs -> key_holds rows (minimalCover attrs fds).
Proof.
  intros Hf Hk i j r r' Hi Hj Ha. apply (Hk i j r r' Hi Hj). intros c Hc.
  eapply derives_agree; [done..|]. apply (minimalCover_irredundant attrs fds). by apply derive_attr.
Qed.

Lemma deriveKeysFromFds_sound rows fds n isSet :
  fds_hold rows (default [] fds) -> (isSet = true -> key_holds rows (seq 0 n)) ->
  Forall (key_holds rows) (deriveKeysFromFds fds n isSet).
Proof.
  intros Hf Hs. unfold deriveKeysFromFds. destruct fds as [[|fd0 fds]|]; [constructor| |constructor]. cbn [default] in Hf.
  set (all := fd0 :: fds) in *. assert (forall l state, Forall (key_holds rows) state.1 ->
    Forall (key_holds rows) (foldl (derive_step all n isSet) state l).1) as H; [|apply H; constructor].
  induction l as [|fd l IH]; intros [results seen] Hr; cbn [foldl]; [done|]. apply IH. unfold derive_step.
  destruct (negb (unguarded fd)); [done|]. destruct (n <=? _)%nat; [done|].
  destruct (isUniqueDeterminant _ _ _ _) eqn:Hu; cbn [negb]; [|done]. case_decide; [done|]. cbn.
  apply Forall_app. split; [done|]. constructor; [|constructor].
  eapply key_holds_mono; [intros c Hc; by apply elem_of_sorted|]. apply minimalCover_key; [done|].
  by apply (isUniqueDeterminant_sound rows _ (Some all) n isSet).
Qed.

Lemma uniq_steps keys state k :
  k ∈ (foldl uniq_step state keys).1 -> k ∈ state.1 \/ k ∈ keys.
Proof.
  revert state. induction keys as [|k' keys IH]; intros [uniq seen]; cbn; [by left|]. intros [H|H]%IH; [|right; by right].
  revert H. case_decide; cbn; [by left|]. rewrite elem_of_app, list_elem_of_singleton. intros [?| ->]; [by left|right; by left].
Qed.

Lemma normalizeKeys_source keys k :
  k ∈ normalizeKeys keys -> exists k0, k0 ∈ keys /\ forall c, c ∈ k0 <-> c ∈ k.
Proof.
  unfold normalizeKeys. rewrite list_elem_of_In, filter_In, <- list_elem_of_In. intros [H _].
  apply uniq_steps in H as [H|H]; [by apply elem_of_nil in H|]. apply list_elem_of_fmap in H as (k0 & -> & H).
  exists k0. split; [done|]. intros c. by rewrite elem_of_sorted, elem_of_set_of.
Qed.

Lemma keysOf_sound rows rel : describes rows rel -> Forall (key_holds rows) (keysOf rel).
Proof.
  intros [Hk Hs Hf]. unfold keysOf. set (keys := rel_keys rel ++ _ ++ _).
  assert (Forall (key_holds rows) keys) as Hkeys.
  { subst keys. apply Forall_app. split; [done|]. apply Forall_app. split.
    - unfold hasSingletonFd. destruct (_ <=? _)%nat; [constructor|].
      destruct (isUniqueDeterminant _ _ _ _) eqn:Hu; constructor; [|constructor]. by eapply isUniqueDeterminant_sound.
    - by apply deriveKeysFromFds_sound. }
  destruct (_ && _ && _) eqn:E.
  - apply andb_prop in E as [E _]. apply andb_prop in E as [_ E]. constructor; [by apply Hs|constructor].
  - rewrite Forall_forall in *. intros k (k0 & Hin & Heq)%normalizeKeys_source.
    eapply key_holds_mono; [|by apply Hkeys]. intros c. apply Heq.
Qed.

Lemma isUnique_sound rows rel cols : describes rows rel -> isUnique cols rel = true -> key_holds rows cols.
Proof.
  intros Hd. unfold isUnique. intros [H|H]%orb_prop.
  - apply existsb_exists_elem in H as (k & Hk & H). rewrite forallb_has in H. pose proof (keysOf_sound rows rel Hd) as Hs.
    rewrite Forall_forall in Hs. eapply key_holds_mono; [|by apply Hs]. intros c Hc. by apply elem_of_set_of, H.
  - destruct Hd as [_ Hs Hf]. eapply key_holds_mono; [|by eapply isUniqueDeterminant_sound]. intros c. apply elem_of_set_of.
Qed.

(** ** Equal guards *)

Lemma GuardClause_rect' (P : GuardClause -> Prop) :
  (forall c v, P (EqLiteral c v)) -> (forall l r, P (EqColumn l r)) -> (forall c n, P (IsNull c n)) ->
  (forall c mn mx i x, P (Range c mn mx i x)) -> (forall l, Forall P l -> P (OrOf l)) -> forall cl, P cl.
Proof.
  intros H1 H2 H3 H4 H5. fix IH 1. intros [c v|l r|c n|c mn mx i x|l]; [apply H1|apply H2|apply H3|apply H4|].
  apply H5. induction l as [|cl l IHl]; constructor; [apply IH|apply IHl].
Qed.

Lemma use_match_spec eq cls used used' :
  use_match eq cls used = Some used' ->
  exists i c, cls !! i = Some c /\ used !! i = Some false /\ eq c = true /\ used' = <[i := true]> used.
Proof.
  revert used used'. induction cls as [|c cls IH]; intros [|u used] used' H; try done. cbn in H.
  destruct (negb u && eq c) eqn:E.
  - apply andb_prop in E as [Hu He]. apply negb_true_iff in Hu. subst u. injection H as <-. by exists 0%nat, c.
  - destruct (use_match eq cls used) as [used''|] eqn:Er; [|done]. injection H as <-.
    destruct (IH _ _ Er) as (i & c' & H1 & H2 & H3 & ->). by exists (S i), c'.
Qed.

Abbreviation count_true l := (length (List.filter (fun b : bool => b) l)).

Lemma count_true_insert used i : used !! i = Some false -> count_true (<[i := true]> used) = S (count_true used).
Proof.
  revert i. induction used as [|u used IH]; intros [|i] H; cbn in *; try done.
  - by injection H as ->.
  - destruct u; cbn; by rewrite IH.
Qed.

(** Every used clause has been matched by one of the tests. *)
Lemma match_all_spec (cls : list GuardClause) (eqs done : list (GuardClause -> bool)) (used : list bool) :
  match_all eqs cls used = true -> length used = length cls -> count_true used = length done ->
  (forall i c, used !! i = Some true -> cls !! i = Some c -> exists eq, eq ∈ done /\ eq c = true) ->
  length (done ++ eqs) = length cls ->
  (forall c, c ∈ cls -> exists eq, eq ∈ done ++ eqs /\ eq c = true) /\
  (forall eq, eq ∈ eqs -> exists c, c ∈ cls /\ eq c = true).
Proof.
  revert done used. induction eqs as [|eq eqs IH]; intros done used H Hl Hc Hd Hlen.
  - rewrite app_nil_r in *. split; [|by intros eq ?%elem_of_nil].
    assert (Forall (fun b => b = true) used) as Hall.
    { assert (count_true used = length used) as E by lia. clear -E. induction used as [|u used IH]; constructor.
      - destruct u; [done|]. cbn in E. pose proof (List.filter_length_le (fun b => b) used). lia.
      - apply IH. pose proof (List.filter_length_le (fun b => b) used). destruct u; cbn in E; lia. }
    intros c (i & Hi)%list_elem_of_lookup. destruct (used !! i) as [u|] eqn:Eu.
    + rewrite Forall_lookup in Hall. pose proof (Hall _ _ Eu). subst u. by eapply Hd.
    + apply lookup_ge_None in Eu. apply lookup_lt_Some in Hi. lia.
  - cbn in H. destruct (use_match eq cls used) as [used'|] eqn:Eu; [|done].
    apply use_match_spec in Eu as (i & c & Hci & Hui & He & ->).
    destruct (IH (done ++ [eq]) (<[i := true]> used)) as [H1 H2]; [done|by rewrite length_insert| | | |].
    + rewrite count_true_insert, length_app by done. cbn. lia.
    + intros i' c' Hu' Hc'. destruct (decide (i' = i)) as [->|Hne].
      * exists eq. split; [apply elem_of_app; right; by left|congruence].
      * rewrite list_lookup_insert_ne in Hu' by done. destruct (Hd i' c' Hu' Hc') as (eq' & Hin & ?).
        exists eq'. split; [apply elem_of_app; by left|done].
    + by rewrite <- (assoc_L (++)).
    + rewrite <- (assoc_L (++)) in H1. split; [done|]. intros eq' [->|Hin]%elem_of_cons; [|by apply H2].
      exists c. split; [by eapply list_elem_of_lookup_2|done].
Qed.

Lemma clause_lists_equal_spec (l l' : list GuardClause) :
  clause_lists_equal (map guardClauseEquals l) l' = true ->
  (forall c', c' ∈ l' -> exists c, c ∈ l /\ guardClauseEquals c c' = true) /\
  (forall c, c ∈ l -> exists c', c' ∈ l' /\ guardClauseEquals c c' = true).
Proof.
  unfold clause_lists_equal. intros [Hlen%Nat.eqb_eq H]%andb_prop.
  destruct (match_all_spec l' (map guardClauseEquals l) [] (replicate (length l') false)) as [H1 H2];
    [done|by rewrite length_replicate| | |done|].
  - clear. by induction (length l').
  - intros i c Hi. by apply lookup_replicate in Hi as [? _].
  - split.
    + intros c' Hc'. destruct (H1 c' Hc') as (eq & Hin & He). cbn [app] in Hin. apply list_elem_of_fmap in Hin as (c & -> & Hc). eauto.
    + intros c Hc. apply H2. apply list_elem_of_fmap. eauto.
Qed.

Lemma sqlValueEquals_null v w : sqlValueEquals v w = true -> is_null v = is_null w.
Proof. by destruct v, w. Qed.

Lemma boundEquals_cmp x m m' i i' :
  boundEquals m m' i i' = true ->
  match m, m' with
  | None, None => True
  | Some v, Some w => cmp x v = cmp x w /\ i = i'
  | _, _ => False
  end.
Proof.
  destruct m as [v|], m' as [w|]; cbn; try done. intros [H1 H2]%andb_prop. apply eqb_prop in H2. split; [|done].
  apply (cmp_eq_r cmp), identity_literals, H1.
Qed.

Lemma or_holds r l : clause_holds r (OrOf l) <-> exists c, c ∈ l /\ clause_holds r c.
Proof.
  cbn. induction l as [|c l IH]; cbn; [split; [done|by intros (c & ?%elem_of_nil & _)]|]. rewrite IH.
  setoid_rewrite elem_of_cons. naive_solver.
Qed.

Lemma guardClauseEquals_holds r a b : guardClauseEquals a b = true -> clause_holds r a <-> clause_holds r b.
Proof.
  revert b. induction a as [c v|l k|c n|c mn mx i x|l IH] using GuardClause_rect'; intros b H; destruct b; try done; cbn in H.
  - apply andb_prop in H as [->%Nat.eqb_eq H]. cbn. unfold sql_equal, same.
    rewrite (sqlValueEquals_null _ _ H), (cmp_eq_r cmp _ _ (cell r c0) (identity_literals _ _ H)). done.
  - apply orb_prop in H as [[->%Nat.eqb_eq ->%Nat.eqb_eq]%andb_prop|[->%Nat.eqb_eq ->%Nat.eqb_eq]%andb_prop]; [done|].
    cbn. unfold sql_equal. split; intros (? & ? & ?); (split_and!; [done|done|by symmetry]).
  - by apply andb_prop in H as [->%Nat.eqb_eq ->%eqb_prop].
  - apply andb_prop in H as [H Hmx]. apply andb_prop in H as [->%Nat.eqb_eq Hmn]. cbn. unfold in_range, above, below.
    apply (boundEquals_cmp (cell r c0)) in Hmn, Hmx.
    destruct mn, min, mx, max; try done; try (destruct Hmn as [-> ->]); try (destruct Hmx as [-> ->]); done.
  - rewrite !or_holds. apply clause_lists_equal_spec in H as [H1 H2]. rewrite Forall_forall in IH. split.
    + intros (c & Hc & Hh). destruct (H2 c Hc) as (c' & Hc' & E). exists c'. split; [done|]. by apply (IH c Hc c' E).
    + intros (c' & Hc' & Hh). destruct (H1 c' Hc') as (c & Hc & E). exists c. split; [done|]. by apply (IH c Hc c' E).
Qed.

Lemma guardsEqual_holds r a b : guardsEqual a b = true -> guard_holds r a <-> guard_holds r b.
Proof.
  unfold guard_holds. destruct a as [l|], b as [l'|]; cbn; try done. intros H.
  apply clause_lists_equal_spec in H as [H1 H2]. rewrite !Forall_forall. split; intros Hh c Hc.
  - destruct (H1 c Hc) as (c' & Hc' & E). apply (guardClauseEquals_holds r _ _ E). auto.
  - destruct (H2 c Hc) as (c' & Hc' & E). apply (guardClauseEquals_holds r _ _ E). auto.
Qed.

(** ** Adding dependencies *)

(** No column is listed twice among the determinants. *)
Definition wf_fd (fd : FunctionalDependency) : Prop := NoDup (determinants fd).

Lemma determinantsEqual_subset a b c : determinantsEqual a b = true -> c ∈ b -> c ∈ a.
Proof. unfold determinantsEqual. rewrite andb_true_iff, forallb_has. intros [_ H]. apply H. Qed.

Lemma determinantsEqual_elem a b c :
  NoDup a -> NoDup b -> determinantsEqual a b = true -> c ∈ a <-> c ∈ b.
Proof.
  intros Ha Hb H. split; [|by apply determinantsEqual_subset]. unfold determinantsEqual in H.
  apply andb_prop in H as [Hl%Nat.eqb_eq H]. rewrite forallb_has in H.
  assert (b ⊆+ a) as Hs by (by apply NoDup_submseteq). intros Hc.
  assert (b ≡ₚ a) as ->; [|done]. apply submseteq_length_Permutation; [done|lia].
Qed.

(** [fd] follows from [fd']: the same scope, fewer determinants needed, more
    dependents and at least its uniqueness. *)
Lemma fd_holds_weaken rows fd fd' :
  (forall r, guard_holds r (guard fd) -> guard_holds r (guard fd')) ->
  (forall c, c ∈ determinants fd' -> c ∈ determinants fd) ->
  (forall c, c ∈ dependents fd -> c ∈ dependents fd') ->
  (kind fd = Unique -> kind fd' = Unique) -> fd_holds rows fd' -> fd_holds rows fd.
Proof.
  intros Hg Hd Hp Hk H i j r r' Hi Hj G G' Ha.
  destruct (H i j r r' Hi Hj (Hg _ G) (Hg _ G') (agree_mono _ _ _ _ Hd Ha)) as [H1 H2].
  split; [by eapply agree_mono|auto].
Qed.

(** Uniqueness moves between dependencies with the same determinants. *)
Lemma fd_holds_unique rows fd fd' :
  (forall r, guard_holds r (guard fd) -> guard_holds r (guard fd')) ->
  (forall c, c ∈ determinants fd' -> c ∈ determinants fd) -> kind fd' = Unique ->
  fd_holds rows fd -> fd_holds rows fd' -> fd_holds rows (with_kind Unique fd).
Proof.
  intros Hg Hd Hk H H' i j r r' Hi Hj G G' Ha. cbn in *. destruct (H i j r r' Hi Hj G G' Ha) as [H1 _]. split; [done|].
  intros _. destruct (H' i j r r' Hi Hj (Hg _ G) (Hg _ G') (agree_mono _ _ _ _ Hd Ha)) as [_ H2]. auto.
Qed.

Lemma with_kind_id fd : with_kind (kind fd) fd = fd.
Proof. by destruct fd. Qed.

Lemma upgraded_holds rows next existing :
  determinantsEqual (determinants existing) (determinants next) = true ->
  guardsEqual (guard existing) (guard next) = true ->
  fd_holds rows existing -> fd_holds rows next -> fd_holds rows (upgraded next existing).
Proof.
  intros Hd Hg He Hn. unfold upgraded. destruct (is_unique next && negb (is_unique existing)) eqn:E; [|done].
  apply andb_prop in E as [E%bool_decide_eq_true _]. eapply (fd_holds_unique _ _ next); try done.
  - intros r Hr. by apply (guardsEqual_holds r _ _ Hg).
  - intros c. by apply determinantsEqual_subset.
Qed.

Lemma add_step_sound rows next s existing :
  wf_fd next -> wf_fd existing -> fd_holds rows next -> fd_holds rows existing ->
  Forall wf_fd (a_result s) /\ fds_hold rows (a_result s) /\ fd_holds rows (with_kind (a_kind s) next) ->
  let s' := add_step next s existing in
  Forall wf_fd (a_result s') /\ fds_hold rows (a_result s') /\ fd_holds rows (with_kind (a_kind s') next).
Proof.
  intros Wn We Hn He (Ws & Hs & Hk). cbv zeta. unfold add_step.
  assert (wf_fd (upgraded next existing)) as Wu by (unfold upgraded; by destruct (_ && _)).
  destruct (fdsEqual existing next) eqn:E1.
  { unfold fdsEqual in E1. apply andb_prop in E1 as [E1 Eg]. apply andb_prop in E1 as [Ed _]. cbn.
    split_and!; [| |done]; (apply Forall_app; split; [done|]; constructor; [|constructor]); [done|by apply upgraded_holds]. }
  destruct (determinantsEqual _ _ && _) eqn:E2; [apply andb_prop in E2 as [Ed Eg]; destruct (dependentsSubset _ _); cbn|].
  - split_and!; [done..|]. destruct (is_unique existing) eqn:Eu; [|done]. apply bool_decide_eq_true in Eu.
    apply (fd_holds_unique rows next existing); try done.
    + intros r Hr. by apply (guardsEqual_holds r _ _ Eg).
    + intros c Hc. by apply (determinantsEqual_elem (determinants existing) (determinants next)).
  - destruct (dependentsSubset _ _); cbn;
      (split_and!; [| |done]; (apply Forall_app; split; [done|]; constructor; [|constructor]); [done|]); [by apply upgraded_holds|done].
  - cbn. split_and!; [| |done]; (apply Forall_app; split; [done|]; constructor; [done|constructor]).
Qed.

Lemma Forall_filter_list {A} (P : A -> Prop) f l : Forall P l -> Forall P (List.filter f l).
Proof. induction 1 as [|x l Hx Hl IH]; cbn; [constructor|]. destruct (f x); [by constructor|done]. Qed.

Lemma uniqueFirst_Forall (P : FunctionalDependency -> Prop) l : Forall P l -> Forall P (uniqueFirst l).
Proof. intros H. apply Forall_app. split; by apply Forall_filter_list. Qed.

Lemma enforceCap_Forall (P : FunctionalDependency -> Prop) fds opts : Forall P fds -> Forall P (enforceCap fds opts).
Proof.
  intros H. unfold enforceCap. destruct (_ <=? _)%nat; [done|]. destruct (_ <=? _)%nat.
  - by apply Forall_take, uniqueFirst_Forall, Forall_filter_list.
  - apply Forall_app. split; [by apply Forall_filter_list|]. by apply Forall_take, uniqueFirst_Forall, Forall_filter_list.
Qed.

Lemma addFd_sound rows fds next opts :
  Forall wf_fd fds -> wf_fd next -> fds_hold rows fds -> fd_holds rows next ->
  Forall wf_fd (addFd fds next opts) /\ fds_hold rows (addFd fds next opts).
Proof.
  intros Wf Wn Hf Hn. unfold addFd. destruct (_ =? 0)%nat; [done|].
  assert (forall l s, Forall wf_fd l -> fds_hold rows l ->
    Forall wf_fd (a_result s) /\ fds_hold rows (a_result s) /\ fd_holds rows (with_kind (a_kind s) next) ->
    let s' := foldl (add_step next) s l in
    Forall wf_fd (a_result s') /\ fds_hold rows (a_result s') /\ fd_holds rows (with_kind (a_kind s') next)) as H.
  { induction l as [|fd l IH]; intros s Wl Hl Hs; cbn [foldl]; [done|].
    apply Forall_cons in Wl as [W Wl]. apply Forall_cons in Hl as [Hfd Hl]. apply IH; [done..|]. by apply add_step_sound. }
  destruct (H fds (mkAdd [] false (kind next)) Wf Hf) as (W' & H' & K').
  { cbn. split_and!; [constructor|constructor|by rewrite with_kind_id]. }
  split; apply enforceCap_Forall; (destruct (a_subsumed _); [done|]); (apply Forall_app; split; [done|]); by constructor.
Qed.

Lemma mergeFds_sound rows a b opts :
  Forall wf_fd a -> Forall wf_fd b -> fds_hold rows a -> fds_hold rows b ->
  Forall wf_fd (mergeFds a b opts) /\ fds_hold rows (mergeFds a b opts).
Proof.
  unfold mergeFds. intros Wa Wb Ha Hb. revert a Wa Ha. induction b as [|fd b IH]; intros a Wa Ha; cbn; [done|].
  apply Forall_cons in Wb as [W Wb]. apply Forall_cons in Hb as [Hfd Hb].
  destruct (addFd_sound rows a fd opts Wa W Ha Hfd). by apply IH.
Qed.

End Semantics.

End FdLaws.
