(* ===== verification/Joins.v ===== *)
(** * Joins at run time

    Models the join emitters of [packages/quereus/src/runtime/emit]: the nested
    loop join ([join.ts]), the hash join ([bloom-join.ts]) and the merge join
    ([merge-join.ts]), with [join-output.ts] and [join-key-extractor.ts], the extraction of join keys
    from a condition ([planner/rules/join/equi-pair-extractor.ts]), and what they evaluate per
    row: truthiness, the comparison operators and the logical operators of
    [binary.ts] and [operand-comparator.ts].

    A cursor is the list of its rows and an emitter is the list of the rows it
    yields.  A sub-program over the two row slots is a function of the two rows.
    Comparing two durations is the Temporal polyfill's: [timespanCompare] is an
    argument. *)

From S2P Require Import Prelude Bytes Double Decimal NumberText Utf8 Json Comparison KeySerializer BTree VTab Types Collations Fds.
From Stdlib Require Import ZArith Lia.
From stdpp Require Import sorting.
From stdpp Require Import base tactics numbers sets gmap list.
#[local] Open Scope Z_scope.

Import Double Decimal NumberText Utf8 Json Comparison KeySerializer BTree VTab Types Collations Fds.

Module Joins.

Abbreviation value := SqlValue.
Abbreviation row := (list SqlValue).

(** ** Truth *)

(** [!!v]. *)
Definition truthy (v : value) : bool :=
  match v with
  | VNull => false
  | VBool b => b
  | VNumber d =>
    match num_of_double d with
    | NFin n => negb (n =? 0)
    | NNan => false
    | _ => true
    end
  | VBigint n => negb (n =? 0)
  | VText s => negb (bool_decide (s = []))
  | VBlob _ | VObject _ => true
  end.

Definition isTruthy (v : value) : bool :=
  match v with
  | VNull => false
  | VBool b => b
  | VNumber d =>
    match num_of_double d with
    | NFin n => negb (n =? 0)
    | _ => true
    end
  | VBigint n => negb (n =? 0)
  | VText s =>
    let trimmed := trim s in
    if decide (trimmed = []) then false
    else
      match num_of_double (Number_of_string trimmed) with
      | NNan => false
      | NFin n => negb (n =? 0)
      | _ => true
      end
  | VBlob _ | VObject _ => false
  end.

(** ** Operators *)

Inductive LogicalOperator : Type := And | Or | Xor.

(** [None] is NULL. *)
Definition combineAnd (b1 b2 : option bool) : value :=
  match b1, b2 with
  | Some false, _ | _, Some false => VBool false
  | None, _ | _, None => VNull
  | Some true, Some true => VBool true
  end.

Definition combineOr (b1 b2 : option bool) : value :=
  match b1, b2 with
  | Some true, _ | _, Some true => VBool true
  | None, _ | _, None => VNull
  | Some false, Some false => VBool false
  end.

Definition combineXor (b1 b2 : option bool) : value :=
  match b1, b2 with
  | Some x, Some y => VBool (xorb x y)
  | _, _ => VNull
  end.

Definition selectLogicalCombine (operator : LogicalOperator) : option bool -> option bool -> value :=
  match operator with
  | And => combineAnd
  | Or => combineOr
  | Xor => combineXor
  end.

(** NULL, or the truth of a value. *)
Definition truth_of (v : value) : option bool := if is_null v then None else Some (isTruthy v).

Definition combineLogical (operator : LogicalOperator) (v1 v2 : value) : value :=
  selectLogicalCombine operator (truth_of v1) (truth_of v2).

(** The deferred form evaluates its right operand only when the left one does
    not decide. *)
Definition runShortCircuit (operator : LogicalOperator) (v1 : value) (rightFn : unit -> value) : value :=
  let decidingValue := match operator with And => false | _ => true end in
  if negb (is_null v1) && Bool.eqb (isTruthy v1) decidingValue then VBool decidingValue
  else combineLogical operator v1 (rightFn tt).

Inductive ComparisonOperator : Type := OpEq | OpNe | OpLt | OpLe | OpGt | OpGe.

Definition buildCmpToResult (operator : ComparisonOperator) (cmp : Z) : bool :=
  match operator with
  | OpEq => cmp =? 0
  | OpNe => negb (cmp =? 0)
  | OpLt => cmp <? 0
  | OpLe => cmp <=? 0
  | OpGt => 0 <? cmp
  | OpGe => 0 <=? cmp
  end.

(** The collations of a database: comparator and, if it has one, normalizer. *)
Abbreviation registry := (jsstring -> option (CollationFunction * option normalizer)).

Definition resolveCollation (collations : registry) (name : jsstring) : res CollationFunction :=
  if decide (name = BINARY) then Ok BINARY_COLLATION
  else
    match collations name with
    | Some (func, _) => Ok func
    | None => Throw EStatement
    end.

Definition resolveKeyNormalizer (collations : registry) (name : option jsstring) : res normalizer :=
  match name with
  | None | Some [] => Ok IDENTITY_NORMALIZER
  | Some name =>
    if decide (name = BINARY) then Ok IDENTITY_NORMALIZER
    else
      match collations name with
      | Some (_, Some norm) => Ok norm
      | _ => Throw EStatement
      end
  end.

Definition same_type (a b : LogicalType) : bool := (t_id a =? t_id b)%nat.

Definition is_semantic (t : LogicalType) : bool := bool_decide (is_Some (hasSemanticOrdering (Some t))).

(** The type both operands declare, when it has an order of its own. *)
Definition sharedSemanticType (leftLogical rightLogical : LogicalType) : option LogicalType :=
  if same_type leftLogical rightLogical && is_semantic leftLogical then Some leftLogical else None.

Definition semanticOrderingsAgree (a b : LogicalType) : bool :=
  if negb (is_semantic a) && negb (is_semantic b) then true
  else is_semantic a && is_semantic b && same_type a b.

Section Emit.
Context (toUpperCase : jsstring -> jsstring) (collations : registry) (timespanCompare : value -> value -> Z).

(** Durations start with [P] or [-P]; the other temporal shapes start with a
    digit. *)
Definition is_timespan (v : value) : bool :=
  match v with
  | VText s => starts_with (js "P") s || starts_with (js "-P") s
  | _ => false
  end.

Definition tryTemporalCompare (v1 v2 : value) : option Z :=
  if negb (is_timespan v1) || negb (is_timespan v2) then None else Some (timespanCompare v1 v2).

Definition makeGroupComparator (logicals : list LogicalType) (collationFunc : CollationFunction) : value -> value -> Z :=
  let needsTemporalCheck := existsb t_isTemporal logicals in
  let sameCategory := forallb t_isNumeric logicals || forallb t_isTextual logicals in
  let by_category :=
    if negb needsTemporalCheck && sameCategory then fun a b => compareSqlValuesFast a b collationFunc
    else fun a b => match tryTemporalCompare a b with Some c => c | None => compareSqlValuesFast a b collationFunc end in
  match logicals with
  | first :: _ =>
    if forallb (fun l => same_type l first) logicals && is_semantic first
    then createTypedComparator first (Some collationFunc)
    else by_category
  | [] => by_category
  end.

Definition makeOperandComparator (probeLogical operandLogical : LogicalType) (collationFunc : CollationFunction)
    : value -> value -> Z := makeGroupComparator [probeLogical; operandLogical] collationFunc.

(** The body of a comparison operator over the types of its operands. *)
Definition buildComparisonOpSpec (operator : ComparisonOperator) (leftType rightType : ScalarType)
    : res (value -> value -> value) :=
  let* collationName := effectiveCollationOfTypes toUpperCase leftType rightType in
  let* collationFunc := resolveCollation collations collationName in
  let leftLogical := s_logicalType leftType in
  let rightLogical := s_logicalType rightType in
  let needsTemporalCheck := t_isTemporal leftLogical || t_isTemporal rightLogical in
  let bothNumeric := t_isNumeric leftLogical && t_isNumeric rightLogical in
  let bothTextual := t_isTextual leftLogical && t_isTextual rightLogical in
  let compare :=
    match sharedSemanticType leftLogical rightLogical with
    | Some type => createTypedComparator type (Some collationFunc)
    | None =>
      if negb needsTemporalCheck && (bothNumeric || bothTextual)
      then fun a b => compareSqlValuesFast a b collationFunc
      else fun a b => match tryTemporalCompare a b with Some c => c | None => compareSqlValuesFast a b collationFunc end
    end in
  Ok (fun v1 v2 => if is_null v1 || is_null v2 then VNull else VBool (buildCmpToResult operator (compare v1 v2))).

Record Attribute := mkAttribute { a_id : Z; a_type : ScalarType }.

(** [getAttributeIndex().get(id)]: the last attribute with that id. *)
Fixpoint attributeIndex_from (i : nat) (id : Z) (attributes : list Attribute) : option nat :=
  match attributes with
  | [] => None
  | a :: attributes' =>
    match attributeIndex_from (S i) id attributes' with
    | Some j => Some j
    | None => if a_id a =? id then Some i else None
    end
  end.

Definition attributeIndex (id : Z) (attributes : list Attribute) : option nat := attributeIndex_from 0 id attributes.

Record EquiJoinPair := mkEquiJoinPair {
  leftAttrId : Z;
  rightAttrId : Z;
  collationsMatch : bool;
  valueDiscriminating : bool
}.

(** ** Conditions *)

(** A reference to a column by its attribute. *)
Record ColumnReference := mkColumnRef { attributeId : Z; ref_type : ScalarType }.

(** A normalized predicate: conjunctions, equalities of two columns, and any
    other scalar node, by what it evaluates to. *)
Inductive Predicate : Type :=
| PAnd (l r : Predicate)
| PEq (l r : ColumnReference)
| POther (run : row -> row -> value).

(** [row[i]]. *)
Definition row_at (r : row) (i : nat) : value := default VNull (r !! i).

(** A column is read from the slot of the side that has its attribute. *)
Definition column_value (leftAttributes rightAttributes : list Attribute) (c : ColumnReference) (leftRow rightRow : row)
    : value :=
  match attributeIndex (attributeId c) leftAttributes with
  | Some i => row_at leftRow i
  | None =>
    match attributeIndex (attributeId c) rightAttributes with
    | Some i => row_at rightRow i
    | None => VNull
    end
  end.

(** The sub-program of a predicate. *)
Fixpoint emit_predicate (leftAttributes rightAttributes : list Attribute) (p : Predicate) : res (row -> row -> value) :=
  match p with
  | PAnd l r =>
    let* f := emit_predicate leftAttributes rightAttributes l in
    let* g := emit_predicate leftAttributes rightAttributes r in
    Ok (fun leftRow rightRow => combineLogical And (f leftRow rightRow) (g leftRow rightRow))
  | PEq a b =>
    let* eq := buildComparisonOpSpec OpEq (ref_type a) (ref_type b) in
    Ok (fun leftRow rightRow =>
      eq (column_value leftAttributes rightAttributes a leftRow rightRow)
         (column_value leftAttributes rightAttributes b leftRow rightRow))
  | POther run => Ok run
  end.

Definition emit_optional (leftAttributes rightAttributes : list Attribute) (p : option Predicate)
    : res (option (row -> row -> value)) :=
  match p with
  | Some p => let* f := emit_predicate leftAttributes rightAttributes p in Ok (Some f)
  | None => Ok None
  end.

(** The conjuncts in the order the stack of the extraction pops them. *)
Fixpoint popped (p : Predicate) : list Predicate :=
  match p with
  | PAnd l r => popped r ++ popped l
  | _ => [p]
  end.

Definition has_attribute (attributes : list Attribute) (id : Z) : bool := existsb (fun a => a_id a =? id) attributes.

Definition is_conflict (r : CollationResolution) : bool :=
  match r with
  | Conflict _ _ _ => true
  | Resolved _ => false
  end.

(** The pair a conjunct is, if it is one. *)
Definition equi_pair_of (leftAttributes rightAttributes : list Attribute) (p : Predicate) : option EquiJoinPair :=
  match p with
  | PEq a b =>
    if semanticOrderingsAgree (s_logicalType (ref_type a)) (s_logicalType (ref_type b))
       && negb (is_conflict (resolveComparisonCollation toUpperCase (ref_type a) (ref_type b))) then
      let collationsMatch :=
        bool_decide (operandCollation toUpperCase (ref_type a) = operandCollation toUpperCase (ref_type b)) in
      let valueDiscriminating := isValueDiscriminatingEquality toUpperCase (ref_type a) (ref_type b) in
      if has_attribute leftAttributes (attributeId a) && has_attribute rightAttributes (attributeId b)
      then Some (mkEquiJoinPair (attributeId a) (attributeId b) collationsMatch valueDiscriminating)
      else if has_attribute leftAttributes (attributeId b) && has_attribute rightAttributes (attributeId a)
      then Some (mkEquiJoinPair (attributeId b) (attributeId a) collationsMatch valueDiscriminating)
      else None
    else None
  | _ => None
  end.

Definition combineResidual (base : option Predicate) (extras : list Predicate) : option Predicate :=
  match option_list base ++ extras with
  | [] => None
  | first :: rest => Some (foldl PAnd first rest)
  end.

Record EquiPairExtraction := mkExtraction { x_equiPairs : list EquiJoinPair; x_residual : option Predicate }.

Definition extractEquiPairs (condition : option Predicate) (leftAttributes rightAttributes : list Attribute)
    : option EquiPairExtraction :=
  match condition with
  | None => None
  | Some norm =>
    let conjuncts := popped norm in
    let pair := equi_pair_of leftAttributes rightAttributes in
    let equiPairs := omap pair conjuncts in
    let residuals := List.filter (fun c => negb (bool_decide (is_Some (pair c)))) conjuncts in
    if (length equiPairs =? 0)%nat then None else Some (mkExtraction equiPairs (combineResidual None residuals))
  end.

(** ** Keys *)

Definition keyCanonicalizer (types : ScalarType * ScalarType) : option (value -> value) :=
  let leftLogical := s_logicalType types.1 in
  if same_type leftLogical (s_logicalType types.2) then semanticKeyTransform (Some leftLogical) else None.

Definition keyNormalizer (types : ScalarType * ScalarType) : res normalizer :=
  let* collationName := effectiveCollationOfTypes toUpperCase types.1 types.2 in
  resolveKeyNormalizer collations (hashKeyCollationName (Some collationName) [types.1; types.2]).

Definition canonicalize (canonicalizer : option (value -> value)) (v : value) : value :=
  match canonicalizer with
  | Some f => f v
  | None => v
  end.

Definition buildJoinKeyExtractor (pairTypes : list (ScalarType * ScalarType)) : res (row -> list nat -> option jsstring) :=
  let* keyNormalizers := res_map keyNormalizer pairTypes in
  let keyCanonicalizers := map keyCanonicalizer pairTypes in
  let hasKeyCanonicalizer := existsb (fun c => bool_decide (is_Some c)) keyCanonicalizers in
  Ok (fun r indices =>
    if negb hasKeyCanonicalizer then serializeRowKey r indices keyNormalizers
    else serializeKey (imap (fun i idx => canonicalize (mjoin (keyCanonicalizers !! i)) (row_at r idx)) indices)
           keyNormalizers).

(** The positions and types of a pair. *)
Definition resolve_pair (leftAttributes rightAttributes : list Attribute) (p : EquiJoinPair)
    : res ((nat * nat) * (ScalarType * ScalarType)) :=
  match attributeIndex (leftAttrId p) leftAttributes, attributeIndex (rightAttrId p) rightAttributes with
  | Some li, Some ri =>
    match leftAttributes !! li, rightAttributes !! ri with
    | Some l, Some r => Ok ((li, ri), (a_type l, a_type r))
    | _, _ => Throw EInternal
    end
  | _, _ => Throw EInternal
  end.

Inductive FlagSide : Type := FlagLeft | FlagRight.

Definition side_eqb (a b : FlagSide) : bool :=
  match a, b with
  | FlagLeft, FlagLeft | FlagRight, FlagRight => true
  | _, _ => false
  end.

Definition isSemiOrAnti (joinType : JoinType) : bool :=
  match joinType with
  | Semi | Anti => true
  | _ => false
  end.

Definition joinOutputRow (joinType : JoinType) (matched : bool) (leftRow : row) (rightColCount : nat) : option row :=
  match joinType with
  | Semi => if matched then Some leftRow else None
  | Anti => if matched then None else Some leftRow
  | LeftOuter => if matched then None else Some (leftRow ++ replicate rightColCount VNull)
  | _ => None
  end.

(** The scan of candidate right rows for one left row: the rows yielded and
    whether one matched. *)
Fixpoint scan_right (semi : bool) (met : row -> bool) (out : row -> row) (rightRows : list row) : list row * bool :=
  match rightRows with
  | [] => ([], false)
  | rightRow :: rest =>
    if met rightRow then
      if semi then ([], true)
      else let '(rows, _) := scan_right semi met out rest in (out rightRow :: rows, true)
    else scan_right semi met out rest
  end.

Definition option_rows (o : option row) : list row :=
  match o with
  | Some r => [r]
  | None => []
  end.

(** ** Nested loop *)

Definition matchedFlags (existence : option (list FlagSide)) : row :=
  match existence with
  | Some specs => map (fun _ => VBool true) specs
  | None => []
  end.

Definition flagsForDroppedSide (existence : option (list FlagSide)) (dropped : FlagSide) : row :=
  match existence with
  | Some specs => map (fun spec => VBool (negb (side_eqb spec dropped))) specs
  | None => []
  end.

(** Without a condition every pair of rows matches. *)
Definition conditionMet (condition : option (row -> row -> value)) (leftRow rightRow : row) : bool :=
  match condition with
  | Some f => truthy (f leftRow rightRow)
  | None => true
  end.

Definition driveFromLeft (joinType : JoinType) (existence : option (list FlagSide))
    (condition : option (row -> row -> value)) (rightCount : nat) (leftRows rightRows : list row) : list row :=
  leftRows ≫= (fun leftRow =>
    let '(rows, matched) :=
      scan_right (isSemiOrAnti joinType) (conditionMet condition leftRow)
        (fun rightRow => leftRow ++ rightRow ++ matchedFlags existence) rightRows in
    rows ++
    option_rows ((fun post => post ++ flagsForDroppedSide existence FlagRight)
                 <$> joinOutputRow joinType matched leftRow rightCount)).

(** One right row against the buffered left rows: the rows yielded, whether one
    matched, and the match bits of the left rows. *)
Fixpoint scan_left (met : row -> bool) (out : row -> row) (leftRows : list row) (leftMatched : list bool)
    : list row * bool * list bool :=
  match leftRows, leftMatched with
  | leftRow :: rest, bit :: bits =>
    let '(rows, matched, bits') := scan_left met out rest bits in
    if met leftRow then (out leftRow :: rows, true, true :: bits') else (rows, matched, bit :: bits')
  | _, _ => ([], false, leftMatched)
  end.

Fixpoint drive_right_rows (existence : option (list FlagSide)) (condition : option (row -> row -> value))
    (leftCount : nat) (leftRows : list row) (rightRows : list row) (leftMatched : list bool) : list row * list bool :=
  match rightRows with
  | [] => ([], leftMatched)
  | rightRow :: rest =>
    let '(rows, rightMatched, bits) :=
      scan_left (fun leftRow => conditionMet condition leftRow rightRow)
        (fun leftRow => leftRow ++ rightRow ++ matchedFlags existence) leftRows leftMatched in
    let unmatched :=
      if rightMatched then []
      else [replicate leftCount VNull ++ rightRow ++ flagsForDroppedSide existence FlagLeft] in
    let '(rows', bits') := drive_right_rows existence condition leftCount leftRows rest bits in
    (rows ++ unmatched ++ rows', bits')
  end.

Definition is_full (joinType : JoinType) : bool := match joinType with FullOuter => true | _ => false end.

Definition driveFromRight (joinType : JoinType) (existence : option (list FlagSide))
    (condition : option (row -> row -> value)) (leftCount rightCount : nat) (leftRows rightRows : list row) : list row :=
  let '(rows, leftMatched) :=
    drive_right_rows existence condition leftCount leftRows rightRows (replicate (length leftRows) false) in
  rows ++
  if is_full joinType then
    concat (zip_with (fun (leftRow : row) (bit : bool) =>
      if bit then [] else [leftRow ++ replicate rightCount VNull ++ flagsForDroppedSide existence FlagRight])
      leftRows leftMatched)
  else [].

Definition emitLoopJoin (joinType : JoinType) (existence : option (list FlagSide))
    (condition : option (row -> row -> value)) (leftCount rightCount : nat) (leftRows rightRows : list row) : list row :=
  match joinType with
  | RightOuter | FullOuter => driveFromRight joinType existence condition leftCount rightCount leftRows rightRows
  | _ => driveFromLeft joinType existence condition rightCount leftRows rightRows
  end.

(** ** Hash join *)

(** The build side by key; a row whose key is null is in no bucket. *)
Definition build_bucket (extractKey : row -> list nat -> option jsstring) (rightIndices : list nat)
    (hashMap : gmap jsstring (list row)) (rightRow : row) : gmap jsstring (list row) :=
  match extractKey rightRow rightIndices with
  | None => hashMap
  | Some key =>
    match hashMap !! key with
    | Some bucket => <[key := bucket ++ [rightRow]]> hashMap
    | None => <[key := [rightRow]]> hashMap
    end
  end.

Definition probe (extractKey : row -> list nat -> option jsstring) (leftIndices : list nat)
    (hashMap : gmap jsstring (list row)) (leftRow : row) : list row :=
  match extractKey leftRow leftIndices with
  | Some key => default [] (hashMap !! key)
  | None => []
  end.

(** The residual holds, or there is none. *)
Definition residual_met (residual : option (row -> row -> value)) (leftRow rightRow : row) : bool :=
  match residual with
  | Some f => truthy (f leftRow rightRow)
  | None => true
  end.

(** The rows of one left row against its candidates. *)
Definition join_candidates (joinType : JoinType) (residual : option (row -> row -> value)) (rightColCount : nat)
    (leftRow : row) (candidates : list row) : list row :=
  let '(rows, matched) :=
    scan_right (isSemiOrAnti joinType) (residual_met residual leftRow) (fun rightRow => leftRow ++ rightRow) candidates in
  rows ++ option_rows (joinOutputRow joinType matched leftRow rightColCount).

Definition emitBloomJoin (joinType : JoinType) (leftAttributes rightAttributes : list Attribute)
    (equiPairs : list EquiJoinPair) (residual : option (row -> row -> value)) (leftRows rightRows : list row)
    : res (list row) :=
  let* pairs := res_map (resolve_pair leftAttributes rightAttributes) equiPairs in
  let leftIndices := pairs.*1.*1 in
  let rightIndices := pairs.*1.*2 in
  let* extractKey := buildJoinKeyExtractor pairs.*2 in
  let hashMap := foldl (build_bucket extractKey rightIndices) ∅ rightRows in
  Ok (leftRows ≫= (fun leftRow =>
    join_candidates joinType residual (length rightAttributes) leftRow (probe extractKey leftIndices hashMap leftRow))).

(** ** Merge join *)

(** [None] when a key is NULL. *)
Fixpoint compareKeys (leftRow rightRow : row) (leftIndices rightIndices : list nat) (comparators : list (value -> value -> Z))
    : option Z :=
  match leftIndices, rightIndices, comparators with
  | li :: leftIndices', ri :: rightIndices', comparator :: comparators' =>
    let lv := row_at leftRow li in
    let rv := row_at rightRow ri in
    if is_null lv || is_null rv then None
    else
      let cmp := comparator lv rv in
      if negb (cmp =? 0) then Some cmp else compareKeys leftRow rightRow leftIndices' rightIndices' comparators'
  | _, _, _ => Some 0
  end.

(** The comparator of a pair. *)
Definition keyComparator (types : ScalarType * ScalarType) : res (value -> value -> Z) :=
  let* collationName := effectiveCollationOfTypes toUpperCase types.1 types.2 in
  let* collationFunc := resolveCollation collations collationName in
  Ok match sharedSemanticType (s_logicalType types.1) (s_logicalType types.2) with
     | Some type => createTypedComparator type (Some collationFunc)
     | None => fun a b => compareSqlValuesFast a b collationFunc
     end.

(** The right rows from [rightIdx] on, past those below the left key and those
    with a NULL key. *)
Fixpoint advance (compare : row -> option Z) (rightRows : list row) : list row :=
  match rightRows with
  | [] => []
  | rightRow :: rest =>
    match compare rightRow with
    | None => advance compare rest
    | Some cmp => if cmp <=? 0 then rightRows else advance compare rest
    end
  end.

(** The rows up to [runEnd]. *)
Fixpoint matching_run (compare : row -> option Z) (rightRows : list row) : list row :=
  match rightRows with
  | [] => []
  | rightRow :: rest =>
    match compare rightRow with
    | Some 0 => rightRow :: matching_run compare rest
    | _ => []
    end
  end.

Fixpoint merge_rows (joinType : JoinType) (residual : option (row -> row -> value)) (rightColCount : nat)
    (leftIndices rightIndices : list nat) (comparators : list (value -> value -> Z))
    (leftRows : list row) (rightRows : list row) : list row :=
  match leftRows with
  | [] => []
  | leftRow :: leftRows' =>
    let leftHasNull := existsb (fun i => is_null (row_at leftRow i)) leftIndices in
    let compare rightRow := compareKeys leftRow rightRow leftIndices rightIndices comparators in
    let rightRows' := if leftHasNull then rightRows else advance compare rightRows in
    let candidates := if leftHasNull then [] else matching_run compare rightRows' in
    join_candidates joinType residual rightColCount leftRow candidates ++
    merge_rows joinType residual rightColCount leftIndices rightIndices comparators leftRows' rightRows'
  end.

Definition emitMergeJoin (joinType : JoinType) (leftAttributes rightAttributes : list Attribute)
    (equiPairs : list EquiJoinPair) (residual : option (row -> row -> value)) (leftRows rightRows : list row)
    : res (list row) :=
  let* pairs := res_map (resolve_pair leftAttributes rightAttributes) equiPairs in
  let* comparators := res_map keyComparator pairs.*2 in
  Ok (merge_rows joinType residual (length rightAttributes) pairs.*1.*1 pairs.*1.*2 comparators leftRows rightRows).

End Emit.

End Joins.
