(* ===== verification/JoinLaws.v ===== *)
(** * The join algorithms agree

    The hash join and the merge join yield the rows of the nested loop join, in
    the same order: the bucket a left row probes and the run a left row merges
    with are the right rows its condition accepts. *)

From S2P Require Import Prelude Bytes Double Decimal NumberText Utf8 Json Comparison KeySerializer BTree VTab Types Collations Fds Joins.
From Stdlib Require Import ZArith Lia.
From stdpp Require Import sorting.
From stdpp Require Import base tactics numbers sets gmap list.
#[local] Open Scope Z_scope.

Import Double Decimal NumberText Utf8 Json Comparison KeySerializer BTree VTab Types Collations Fds Joins.

Module JoinLaws.


(** ** Rows of one left row *)

(** What a left row contributes, given the right rows it matches. *)
Definition left_rows (joinType : JoinType) (rightCount : nat) (leftRow : row) (matches : list row) : list row :=
  (if isSemiOrAnti joinType then [] else map (fun rightRow => leftRow ++ rightRow) matches) ++
  option_rows (joinOutputRow joinType (negb (length matches =? 0)%nat) leftRow rightCount).

Lemma scan_right_spec semi met out rows :
  scan_right semi met out rows
  = (if semi then [] else map out (List.filter met rows), negb (length (List.filter met rows) =? 0)%nat).
Proof.
  induction rows as [|r rows IH]; cbn; [by destruct semi|]. destruct (met r); [|done].
  destruct semi; [done|]. by rewrite IH.
Qed.

Lemma join_candidates_spec joinType residual n leftRow candidates :
  join_candidates joinType residual n leftRow candidates
  = left_rows joinType n leftRow (List.filter (residual_met residual leftRow) candidates).
Proof. unfold join_candidates, left_rows. by rewrite scan_right_spec. Qed.

Lemma driveFromLeft_spec joinType condition n L R :
  driveFromLeft joinType None condition n L R
  = L ≫= (fun l => left_rows joinType n l (List.filter (conditionMet condition l) R)).
Proof.
  unfold driveFromLeft. apply list_bind_ext; [|done]. intros l. rewrite scan_right_spec. unfold left_rows. f_equal.
  - destruct (isSemiOrAnti joinType); [done|]. apply map_ext. intros r. cbn. by rewrite app_nil_r.
  - destruct (joinOutputRow _ _ _ _); cbn; [by rewrite app_nil_r|done].
Qed.

(** The join types the hash and merge joins are planned for. *)
Definition left_driven (joinType : JoinType) : bool :=
  match joinType with
  | RightOuter | FullOuter => false
  | _ => true
  end.

Lemma emitLoopJoin_left joinType condition nl nr L R :
  left_driven joinType = true ->
  emitLoopJoin joinType None condition nl nr L R
  = L ≫= (fun l => left_rows joinType nr l (List.filter (conditionMet condition l) R)).
Proof. intros H. rewrite <- driveFromLeft_spec. by destruct joinType. Qed.

(** ** Buckets *)

Lemma build_buckets extractKey ri R key :
  default [] (foldl (build_bucket extractKey ri) (∅ : gmap jsstring (list row)) R !! key)
  = List.filter (fun r => bool_decide (extractKey r ri = Some key)) R.
Proof.
  induction R as [|r R IH] using rev_ind; [cbn [foldl]; by rewrite lookup_empty|].
  rewrite foldl_app, List.filter_app, <- IH. cbn. unfold build_bucket at 1.
  destruct (extractKey r ri) as [k|]; cbn; [|by rewrite app_nil_r].
  set (m := foldl (build_bucket extractKey ri) ∅ R). destruct (decide (k = key)) as [->|Hne].
  - rewrite bool_decide_eq_true_2 by done. destruct (m !! key) as [b|]; by rewrite lookup_insert_eq.
  - rewrite bool_decide_eq_false_2 by congruence. rewrite app_nil_r. destruct (m !! k); by rewrite lookup_insert_ne.
Qed.

Lemma probe_spec extractKey li ri R l :
  probe extractKey li (foldl (build_bucket extractKey ri) ∅ R) l
  = List.filter (fun r => bool_decide (is_Some (extractKey l li) /\ extractKey r ri = extractKey l li)) R.
Proof.
  unfold probe. destruct (extractKey l li) as [key|].
  - rewrite build_buckets. apply List.filter_ext. intros r. apply bool_decide_ext. split; [by eauto|by intros [_ ?]].
  - symmetry. induction R as [|r R IH]; cbn [List.filter]; [done|]. rewrite bool_decide_eq_false_2; [done|]. by intros [[? ?] _].
Qed.

(** ** Runs *)

Definition key_of (indices : list nat) (r : row) : list value := map (row_at r) indices.

Lemma collates_laws colls cs : Forall2 collates colls cs -> Forall CmpLaws cs.
Proof. induction 1 as [|coll c colls cs [Hc _] H IH]; by constructor. Qed.

Section Merge.
Context (colls : list CollationFunction) (cs : list (jsstring -> jsstring -> comparison)).
Context (Hcs : Forall2 collates colls cs) (li ri : list nat).
Context (Hli : length li = length colls) (Hri : length ri = length colls).

Abbreviation comparators := (map (fun coll x y => compareSqlValuesFast x y coll) colls).
Abbreviation K := (pad_compare cs).
Abbreviation compare_rows l r := (compareKeys l r li ri comparators).

Definition wf_key (indices : list nat) (r : row) : Prop := Forall wf_value (key_of indices r).

Definition no_null (l : row) : Prop := Forall (fun i => is_null (row_at l i) = false) li.

#[local] Instance K_laws : CmpLaws K.
Proof.
  by eapply pad_compare_laws, collates_laws.
Qed.

Lemma value_compare_null c v : is_null v = false -> value_compare c v VNull = Gt.
Proof. by destruct v. Qed.

(** A comparison of keys decides their order, or meets a NULL. *)
Lemma compareKeys_spec l r :
  wf_key li l -> wf_key ri r ->
  match compare_rows l r with
  | Some z => sgn z = K (key_of li l) (key_of ri r) /\ (z = 0 -> no_null l)
  | None => no_null l -> K (key_of li l) (key_of ri r) = Gt
  end.
Proof.
  unfold wf_key, no_null. clear -Hcs Hli Hri. revert li ri Hli Hri.
  induction Hcs as [|coll c colls' cs' Hc H IH]; intros [|i li'] [|j ri'] Hl Hr; try done.
  cbn in Hl, Hr. injection Hl as Hl. injection Hr as Hr. intros [Hx Wl]%Forall_cons [Hy Wr]%Forall_cons.
  cbn [map compareKeys key_of pad_compare head tail default id]. specialize (IH H li' ri' Hl Hr Wl Wr).
  destruct (is_null (row_at l i)) eqn:Ni; cbn [orb].
  { intros [E _]%Forall_cons. congruence. }
  destruct (is_null (row_at r j)) eqn:Nj; cbn [orb].
  { intros _. destruct (row_at r j); try done. cbn. by rewrite value_compare_null. }
  rewrite <- (compare_fast_spec coll c _ _ Hc Hx Hy).
  destruct (Z.eqb_spec (compareSqlValuesFast (row_at l i) (row_at r j) coll) 0) as [E|E]; cbn [negb].
  - rewrite E. cbn [sgn Z.compare cmp_then]. destruct (compareKeys l r li' ri' _) as [z|].
    + destruct IH as [IH Hn]. split; [done|]. intros Hz. constructor; auto.
    + intros [_ Hn]%Forall_cons. auto.
  - split; [|done]. unfold cmp_then. destruct (sgn _) eqn:Es; try done. by apply sgn_eq in Es.
Qed.

(** The right rows a left row matches. *)
Definition key_match (l r : row) : bool := bool_decide (compare_rows l r = Some 0).

Lemma key_match_spec l r :
  wf_key li l -> wf_key ri r ->
  key_match l r = true <-> no_null l /\ K (key_of li l) (key_of ri r) = Eq.
Proof.
  intros Wl Wr. pose proof (compareKeys_spec l r Wl Wr) as H. unfold key_match. rewrite bool_decide_eq_true.
  destruct (compare_rows l r) as [z|].
  - destruct H as [Hs Hn]. rewrite (inj_iff Some), <- Hs, sgn_eq. naive_solver.
  - split; [done|]. intros [Hn E]. specialize (H Hn). congruence.
Qed.

Lemma filter_nothing {A} (f : A -> bool) l : (forall x, x ∈ l -> f x = false) -> List.filter f l = [].
Proof.
  intros H. induction l as [|x l IH]; cbn; [done|]. rewrite H by left. apply IH. intros y Hy. apply H. by right.
Qed.

(** The rows the cursor passes are below the left key. *)
Lemma advance_spec l R :
  wf_key li l -> no_null l -> Forall (wf_key ri) R ->
  exists passed, R = passed ++ advance (fun r => compare_rows l r) R /\
    Forall (fun r => K (key_of li l) (key_of ri r) = Gt) passed /\
    (forall r, head (advance (fun r => compare_rows l r) R) = Some r -> K (key_of li l) (key_of ri r) <> Gt).
Proof.
  intros Wl Hn. induction R as [|r R IH]; intros W; [by exists []|]. apply Forall_cons in W as [Wr W].
  pose proof (compareKeys_spec l r Wl Wr) as H. cbn [advance]. destruct (IH W) as (passed & E & Hp & Hh).
  destruct (compare_rows l r) as [z|]; [destruct (Z.leb_spec z 0) as [Hz|Hz]|].
  - exists []. split_and!; [done|constructor|]. intros r' [= <-]. destruct H as [<- _]. rewrite sgn_gt. lia.
  - exists (r :: passed). split_and!; [by cbn; f_equal|constructor; [|done]|done]. destruct H as [<- _]. apply sgn_gt. lia.
  - exists (r :: passed). split_and!; [by cbn; f_equal|constructor; [by apply H|done]|done].
Qed.

Abbreviation right_order := (fun r r' => K (key_of ri r) (key_of ri r') <> Gt).

Lemma matching_run_spec l R :
  wf_key li l -> no_null l -> Forall (wf_key ri) R -> StronglySorted right_order R ->
  (forall r, head R = Some r -> K (key_of li l) (key_of ri r) <> Gt) ->
  matching_run (fun r => compare_rows l r) R = List.filter (key_match l) R.
Proof.
  intros Wl Hn. induction R as [|r R IH]; intros W Hs Hh; [done|]. apply Forall_cons in W as [Wr W].
  apply StronglySorted_inv in Hs as [Hs Hall]. rewrite Forall_forall in Hall, W. specialize (Hh r eq_refl).
  assert (Hle : forall r', r' ∈ R -> K (key_of li l) (key_of ri r') <> Gt).
  { intros r' Hr'. apply (cmp_le_trans K _ (key_of ri r)); auto. }
  cbn [matching_run List.filter]. destruct (key_match l r) eqn:Em.
  - unfold key_match in Em. apply bool_decide_eq_true in Em. rewrite Em. f_equal.
    apply IH; [by apply Forall_forall|done|]. intros r' Hr'. apply Hle. destruct R; [done|]. injection Hr' as <-. left.
  - rewrite filter_nothing.
    + unfold key_match in Em. apply bool_decide_eq_false in Em. by destruct (compare_rows l r) as [[]|].
    + intros r' Hr'. apply not_true_is_false. rewrite key_match_spec by auto. intros [_ E].
      assert (K (key_of li l) (key_of ri r) = Lt) as Hlt.
      { destruct (K (key_of li l) (key_of ri r)) eqn:Ek; [|done|done]. exfalso.
        enough (key_match l r = true) by congruence. by apply key_match_spec. }
      rewrite (cmp_lt_le_trans K _ (key_of ri r)) in E; [done|done|by apply Hall].
Qed.

Lemma has_null_spec l : existsb (fun i => is_null (row_at l i)) li = false <-> no_null l.
Proof.
  unfold no_null. clear. induction li as [|i li' IH]; cbn; [split; constructor|].
  rewrite orb_false_iff, Forall_cons. by rewrite IH.
Qed.

(** The merge, over the right rows still ahead of the cursor. *)
Lemma merge_rows_spec joinType residual n L passed R :
  Forall (wf_key li) L -> Forall (wf_key ri) (passed ++ R) ->
  StronglySorted (fun l l' => K (key_of li l) (key_of li l') <> Gt) L -> StronglySorted right_order R ->
  (forall l r, l ∈ L -> r ∈ passed -> no_null l -> K (key_of li l) (key_of ri r) = Gt) ->
  merge_rows joinType residual n li ri comparators L R
  = L ≫= (fun l => left_rows joinType n l (List.filter (residual_met residual l) (List.filter (key_match l) (passed ++ R)))).
Proof.
  revert passed R. induction L as [|l L IH]; intros passed R WL WR HL HR Hp; [done|].
  apply Forall_cons in WL as [Wl WL]. apply StronglySorted_inv in HL as [HL Hl]. rewrite Forall_forall in Hl.
  pose proof WR as [Wp Wr]%Forall_app. cbn [merge_rows mbind list_bind]. rewrite join_candidates_spec.
  assert (Hpass : no_null l -> List.filter (key_match l) passed = []).
  { intros Hn. apply filter_nothing. intros r Hr. rewrite Forall_forall in Wp. apply not_true_is_false.
    rewrite key_match_spec by auto. intros [_ E]. rewrite (Hp l r) in E; [done|left|done|done]. }
  destruct (existsb _ li) eqn:En.
  - rewrite (filter_nothing (key_match l)).
    + f_equal. apply IH; [done..|]. intros l' r Hl'. apply Hp. by right.
    + intros r Hr. rewrite Forall_forall in WR. apply not_true_is_false. rewrite key_match_spec by auto.
      intros [Hn _]. apply has_null_spec in Hn. congruence.
  - apply has_null_spec in En. destruct (advance_spec l R Wl En Wr) as (skipped & ER & Hsk & Hh).
    set (R' := advance (fun r => compare_rows l r) R) in *.
    assert (StronglySorted right_order R') as HR' by (rewrite ER in HR; apply StronglySorted_app in HR; tauto).
    assert (Forall (wf_key ri) R') as WR' by (rewrite ER in Wr; by apply Forall_app in Wr as [_ ?]).
    rewrite (matching_run_spec l R') by done. f_equal.
    + do 2 f_equal. rewrite ER, !List.filter_app, (Hpass En). cbn [app]. rewrite (filter_nothing _ skipped); [done|].
      intros r Hr. rewrite Forall_forall in Hsk. specialize (Hsk r Hr). apply not_true_is_false. rewrite key_match_spec.
      * intros [_ E]. congruence.
      * done.
      * rewrite Forall_forall in Wr. apply Wr. rewrite ER. apply elem_of_app. by left.
    + rewrite (IH (passed ++ skipped) R'); [by rewrite <- (assoc_L (++)), <- ER|done|by rewrite <- (assoc_L (++)), <- ER|done|done|].
      intros l' r Hl' [Hr|Hr]%elem_of_app Hn; [apply Hp; [by right|done|done]|].
      rewrite Forall_forall in Hsk. specialize (Hsk r Hr). specialize (Hl l' Hl').
      apply (cmp_lt_gt K). apply (cmp_lt_le_trans K _ (key_of li l)); [by apply (cmp_lt_gt K)|done].
Qed.

End Merge.

(** ** Conditions *)

Lemma isTruthy_and a b : isTruthy (combineLogical And a b) = isTruthy a && isTruthy b.
Proof.
  unfold combineLogical, truth_of. cbn [selectLogicalCombine].
  assert (forall v, is_null v = true -> isTruthy v = false) as Hn by (by intros []).
  destruct (is_null a) eqn:Ea, (is_null b) eqn:Eb; rewrite ?(Hn a Ea), ?(Hn b Eb);
    by destruct (isTruthy a), (isTruthy b).
Qed.

Lemma truthy_and a b : truthy (combineLogical And a b) = isTruthy (combineLogical And a b).
Proof. unfold combineLogical. by destruct (truth_of a) as [[]|], (truth_of b) as [[]|]. Qed.

Section Agree.
Context (toUpperCase : jsstring -> jsstring) (collations : registry) (timespanCompare : value -> value -> Z).

(** What registering a collation promises: an order, and a normalizer that is
    faithful to it. *)
Record lawful : Prop := {
  lawful_blank : collations [] = None;
  lawful_order : forall name coll norm, collations name = Some (coll, norm) ->
    (exists c, collates coll c) /\ forall n, norm = Some n -> faithful coll n
}.

(** The collation a pair of columns compares under and the normalizer its keys
    are built with. *)
Record pair_key := mkPairKey { pk_coll : CollationFunction; pk_norm : normalizer }.

(** Two columns of one category, compared as values of their storage class. *)
Record plain_pair (types : ScalarType * ScalarType) (k : pair_key) : Prop := {
  pp_coll : exists name,
    effectiveCollationOfTypes toUpperCase types.1 types.2 = Ok name /\
    resolveCollation collations name = Ok (pk_coll k) /\
    resolveKeyNormalizer collations (hashKeyCollationName (Some name) [types.1; types.2]) = Ok (pk_norm k);
  pp_temporal : t_isTemporal (s_logicalType types.1) || t_isTemporal (s_logicalType types.2) = false;
  pp_semantic : is_semantic (s_logicalType types.1) || is_semantic (s_logicalType types.2) = false;
  pp_category : t_isNumeric (s_logicalType types.1) && t_isNumeric (s_logicalType types.2)
    || t_isTextual (s_logicalType types.1) && t_isTextual (s_logicalType types.2) = true
}.

(** A value a column of the pair can hold; texts have no NUL in their key. *)
Definition fits (types : ScalarType * ScalarType) (k : pair_key) (v : value) : Prop :=
  wf_value v /\ nul_free (pk_norm k) v /\
  (existsb typeCanHoldText [types.1; types.2] = false -> forall s, v <> VText s).

(** [=] on a plain pair. *)
Definition pair_test (k : pair_key) (x y : value) : bool :=
  negb (is_null x) && negb (is_null y) && (compareSqlValuesFast x y (pk_coll k) =? 0).

Context (Hlawful : lawful).

Lemma effective_sym a b : effectiveCollationOfTypes toUpperCase a b = effectiveCollationOfTypes toUpperCase b a.
Proof.
  unfold effectiveCollationOfTypes, resolveComparisonCollation. rewrite resolveContributions_sym.
  by destruct (resolveContributions _ _).
Qed.

Lemma plain_collates types k : plain_pair types k -> exists c, collates (pk_coll k) c.
Proof.
  intros [(name & _ & H & _) _ _ _]. unfold resolveCollation in H. destruct (decide (name = BINARY)).
  - injection H as <-. eexists. apply BINARY_collates.
  - destruct (collations name) as [[coll norm]|] eqn:E; [|done]. injection H as <-. by apply (lawful_order Hlawful _ _ _ E).
Qed.

(** Without texts the collation plays no part. *)
Lemma compare_no_text x y coll coll' :
  (forall s, x <> VText s) -> compareSqlValuesFast x y coll = compareSqlValuesFast x y coll'.
Proof. intros H. destruct x; try (by exfalso; eapply H); by destruct y. Qed.

(** Key parts are equal exactly for values the pair calls equal. *)
Lemma pair_part types k x y :
  plain_pair types k -> fits types k x -> fits types k y ->
  part_of x (pk_norm k) = part_of y (pk_norm k) <-> compareSqlValuesFast x y (pk_coll k) = 0.
Proof.
  intros [(name & He & Hc & Hn) _ _ _] (Wx & _ & Tx) (Wy & _ & Ty). unfold resolveCollation in Hc.
  destruct (decide (name = BINARY)) as [->|Hne].
  - injection Hc as <-. assert (pk_norm k = IDENTITY_NORMALIZER) as ->.
    { cbn [hashKeyCollationName length Nat.eqb] in Hn. by destruct (existsb _ _); injection Hn as <-. }
    destruct keyed_BINARY as [[c Hb] Hf]. by apply (part_eq _ _ _ c).
  - destruct (collations name) as [[coll norm]|] eqn:E; [|done]. injection Hc as <-.
    destruct (lawful_order Hlawful _ _ _ E) as [[c Hord] Hfaith].
    destruct name as [|u name]; [by rewrite (lawful_blank Hlawful) in E|].
    cbn [hashKeyCollationName length Nat.eqb] in Hn. destruct (existsb _ _) eqn:Et.
    + cbn [resolveKeyNormalizer] in Hn. rewrite decide_False in Hn by done. rewrite E in Hn.
      destruct norm as [n|]; [|done]. injection Hn as <-. apply (part_eq _ _ _ c); auto.
    + injection Hn as <-. rewrite (compare_no_text x y coll BINARY_COLLATION) by auto.
      destruct keyed_BINARY as [[c' Hb] Hf]. by apply (part_eq _ _ _ c').
Qed.

Lemma plain_shared types k :
  plain_pair types k -> sharedSemanticType (s_logicalType types.1) (s_logicalType types.2) = None.
Proof.
  intros [_ _ H _]. unfold sharedSemanticType. apply orb_false_iff in H as [H _].
  by rewrite H, andb_false_r.
Qed.

Lemma plain_equality types k :
  plain_pair types k ->
  buildComparisonOpSpec toUpperCase collations timespanCompare OpEq types.1 types.2
  = Ok (fun v1 v2 => if is_null v1 || is_null v2 then VNull else VBool (compareSqlValuesFast v1 v2 (pk_coll k) =? 0)).
Proof.
  intros H. pose proof (plain_shared _ _ H) as Hs. destruct H as [(name & He & Hc & _) Ht _ Hcat].
  unfold buildComparisonOpSpec. rewrite He. cbn [res_bind]. rewrite Hc. cbn [res_bind]. by rewrite Hs, Ht, Hcat.
Qed.

Lemma plain_pair_swap t1 t2 k : plain_pair (t1, t2) k -> plain_pair (t2, t1) k.
Proof.
  intros [(name & He & Hc & Hn) Ht Hs Hcat]. cbn [fst snd] in *. split; cbn [fst snd].
  - exists name. rewrite effective_sym. split_and!; [done|done|]. rewrite <- Hn. f_equal.
    destruct name as [|u name]; cbn; [done|]. by rewrite !orb_false_r, orb_comm.
  - by rewrite orb_comm.
  - by rewrite orb_comm.
  - by rewrite (andb_comm (t_isNumeric _)), (andb_comm (t_isTextual _)).
Qed.

Lemma pair_test_sym types k x y :
  plain_pair types k -> wf_value x -> wf_value y -> pair_test k x y = pair_test k y x.
Proof.
  intros (c & Hc)%plain_collates Wx Wy. unfold pair_test. rewrite (andb_comm (negb (is_null x))). f_equal.
  apply eq_iff_eq_true. rewrite !Z.eqb_eq, <- !sgn_eq, !(compare_fast_spec _ c) by done.
  pose proof (value_compare_laws c (proj1 Hc)). split; apply (cmp_eq_sym (value_compare c)).
Qed.

(** ** Lists of pairs *)

Abbreviation pair_at := ((nat * nat) * (ScalarType * ScalarType))%type.

Definition plain_pairs (pairs : list pair_at) (keys : list pair_key) : Prop :=
  Forall2 (fun p k => plain_pair p.2 k) pairs keys.

(** A row holds values of the pairs, on the given side. *)
Definition row_fits (side : nat * nat -> nat) (pairs : list pair_at) (keys : list pair_key) (r : row) : Prop :=
  Forall2 (fun p k => fits p.2 k (row_at r (side p.1))) pairs keys.

Fixpoint pairs_test (pairs : list pair_at) (keys : list pair_key) (l r : row) : bool :=
  match pairs, keys with
  | p :: pairs', k :: keys' => pair_test k (row_at l p.1.1) (row_at r p.1.2) && pairs_test pairs' keys' l r
  | _, _ => true
  end.

Lemma pairs_test_parts pairs keys l r :
  plain_pairs pairs keys -> row_fits fst pairs keys l -> row_fits snd pairs keys r ->
  pairs_test pairs keys l r = true <->
  existsb is_null (key_of pairs.*1.*1 l) = false /\ existsb is_null (key_of pairs.*1.*2 r) = false /\
  parts_of (key_of pairs.*1.*1 l) (map pk_norm keys) = parts_of (key_of pairs.*1.*2 r) (map pk_norm keys).
Proof.
  intros Hp. induction Hp as [|p k pairs keys Hpk Hp IH]; intros Hl Hr; [done|].
  apply Forall2_cons in Hl as [Hx Hl]. apply Forall2_cons in Hr as [Hy Hr]. specialize (IH Hl Hr).
  cbn [pairs_test fmap list_fmap key_of map existsb parts_of head tail default id].
  rewrite andb_true_iff, IH. unfold pair_test. rewrite !andb_true_iff, !negb_true_iff, !orb_false_iff, Z.eqb_eq.
  rewrite <- (pair_part _ _ _ _ Hpk Hx Hy). split.
  - intros (((Nx & Ny) & E) & El & Er & Ep). split_and!; [done..|]. by f_equal.
  - intros ((Nx & El) & (Ny & Er) & [= E Ep]). by split_and!.
Qed.

Lemma row_fits_parts side pairs keys r :
  row_fits side pairs keys r ->
  Forall wf_value (key_of (map side pairs.*1) r) /\ nul_free_row (map pk_norm keys) (key_of (map side pairs.*1) r).
Proof.
  induction 1 as [|p k pairs keys (Hw & Hn & _) H [IHw IHn]]; cbn; [by split; [constructor|]|].
  split; [by constructor|done].
Qed.

Lemma serializeRowKey_spec r indices norms :
  serializeRowKey r indices norms
  = if existsb is_null (key_of indices r) then None else Some (join_nul (parts_of (key_of indices r) norms)).
Proof. rewrite <- grouping_join. apply serialize_loop_grouping. Qed.

(** Probing a bucket is testing the pairs. *)
Lemma bucket_match pairs keys l r :
  plain_pairs pairs keys -> row_fits fst pairs keys l -> row_fits snd pairs keys r ->
  bool_decide (is_Some (serializeRowKey l pairs.*1.*1 (map pk_norm keys)) /\
    serializeRowKey r pairs.*1.*2 (map pk_norm keys) = serializeRowKey l pairs.*1.*1 (map pk_norm keys))
  = pairs_test pairs keys l r.
Proof.
  intros Hp Hl Hr. apply eq_iff_eq_true. rewrite bool_decide_eq_true, (pairs_test_parts _ _ _ _ Hp Hl Hr), !serializeRowKey_spec.
  destruct (row_fits_parts fst _ _ _ Hl) as [Wl Nl]. destruct (row_fits_parts snd _ _ _ Hr) as [Wr Nr].
  destruct (existsb is_null (key_of _ l)); [split; [by intros [[? ?] _]|by intros [? _]]|].
  destruct (existsb is_null (key_of _ r)); [split; [by intros [_ ?]|by intros (_ & ? & _)]|].
  split.
  - intros [_ E%(inj Some)]. split_and!; [done..|]. symmetry. revert E. apply join_nul_inj.
    + rewrite !length_parts. unfold key_of. by rewrite !length_map.
    + by apply parts_nul_free.
    + by apply parts_nul_free.
  - intros (_ & _ & E). split; [eauto|]. by rewrite E.
Qed.

(** Merging keys is testing the pairs. *)
Lemma run_match pairs keys l r :
  plain_pairs pairs keys ->
  key_match (map pk_coll keys) pairs.*1.*1 pairs.*1.*2 l r = pairs_test pairs keys l r.
Proof.
  intros Hp. unfold key_match. apply eq_iff_eq_true. rewrite bool_decide_eq_true.
  induction Hp as [|p k pairs keys Hpk Hp IH]; [done|].
  cbn [pairs_test fmap list_fmap map compareKeys]. unfold pair_test.
  destruct (is_null (row_at l p.1.1)), (is_null (row_at r p.1.2)); cbn [negb orb andb]; try (by split).
  destruct (Z.eqb_spec (compareSqlValuesFast (row_at l p.1.1) (row_at r p.1.2) (pk_coll k)) 0) as [E|E]; cbn [negb andb]; [done|].
  split; [|done]. by intros ?%(inj Some).
Qed.

(** ** Extraction *)

Context (leftAttributes rightAttributes : list Attribute).
Context (Hdisjoint : forall a b, a ∈ leftAttributes -> b ∈ rightAttributes -> a_id a <> a_id b).

Abbreviation emit := (emit_predicate toUpperCase collations timespanCompare leftAttributes rightAttributes).

(** References carry the types of their attributes. *)
Definition ref_ok (c : ColumnReference) : Prop :=
  forall a, a ∈ leftAttributes ++ rightAttributes -> a_id a = attributeId c -> ref_type c = a_type a.

Fixpoint well_typed (p : Predicate) : Prop :=
  match p with
  | PAnd l r => well_typed l /\ well_typed r
  | PEq a b => ref_ok a /\ ref_ok b
  | POther _ => True
  end.

(** The truth of a conjunct. *)
Definition holds (l r : row) (p : Predicate) : bool :=
  match emit p with
  | Ok f => isTruthy (f l r)
  | Throw _ => false
  end.

Lemma emit_popped p f l r : emit p = Ok f -> isTruthy (f l r) = forallb (holds l r) (popped p).
Proof.
  revert f. induction p as [p IHp q IHq|a b|run]; intros f H.
  - cbn [emit_predicate] in H. destruct (emit p) as [g|] eqn:Ep; [|done]. destruct (emit q) as [h|] eqn:Eq; [|done].
    injection H as <-. cbn [popped].
    change (combineAnd _ _) with (combineLogical And (g l r) (h l r)). rewrite isTruthy_and, forallb_app, (IHp _ eq_refl), (IHq _ eq_refl). apply andb_comm.
  - cbn [popped forallb]. unfold holds. by rewrite H, andb_true_r.
  - cbn [popped forallb]. unfold holds. by rewrite H, andb_true_r.
Qed.

Lemma emit_fold first rest f l r :
  emit (foldl PAnd first rest) = Ok f -> isTruthy (f l r) = forallb (holds l r) (first :: rest).
Proof.
  revert first f. induction rest as [|c rest IH]; intros first f H; cbn [foldl] in H.
  - cbn. unfold holds. by rewrite H, andb_true_r.
  - rewrite (IH _ _ H). cbn [forallb]. unfold holds at 1. cbn [emit_predicate].
    destruct (emit first) as [g|] eqn:E1; [|unfold holds at 2; by rewrite E1].
    destruct (emit c) as [h|] eqn:E2; [|unfold holds at 3; rewrite E2; cbn; by rewrite andb_false_r].
    cbn [res_bind]. cbv beta. rewrite isTruthy_and. unfold holds at 2 3. by rewrite E1, E2, andb_assoc.
Qed.

Lemma forallb_split {A} (f g : A -> bool) l :
  forallb f l = forallb f (List.filter g l) && forallb f (List.filter (fun x => negb (g x)) l).
Proof.
  induction l as [|x l IH]; cbn; [done|]. rewrite IH. destruct (g x); cbn; [apply andb_assoc|].
  rewrite !andb_assoc. f_equal. apply andb_comm.
Qed.

Lemma attributeIndex_from_spec i id attributes j :
  attributeIndex_from i id attributes = Some j ->
  exists k a, j = (i + k)%nat /\ attributes !! k = Some a /\ a_id a = id.
Proof.
  revert i j. induction attributes as [|a attributes IH]; intros i j H; [done|]. cbn in H.
  destruct (attributeIndex_from (S i) id attributes) as [j'|] eqn:E.
  - injection H as <-. destruct (IH _ _ E) as (k & b & -> & Hk & Hb). exists (S k), b. split_and!; [lia|done|done].
  - destruct (Z.eqb_spec (a_id a) id) as [Ha|]; [|done]. injection H as <-. exists 0%nat, a. split_and!; [lia|done|done].
Qed.

Lemma attributeIndex_none id attributes : existsb (fun a => a_id a =? id) attributes = false -> attributeIndex id attributes = None.
Proof.
  unfold attributeIndex. generalize 0%nat. induction attributes as [|a attributes IH]; intros i H; [done|]. cbn in *.
  apply orb_false_iff in H as [Ha H]. by rewrite (IH _ H), Ha.
Qed.

Lemma resolve_pair_spec p li ri types :
  resolve_pair leftAttributes rightAttributes p = Ok ((li, ri), types) ->
  attributeIndex (leftAttrId p) leftAttributes = Some li /\ attributeIndex (rightAttrId p) rightAttributes = Some ri /\
  (exists a, a ∈ leftAttributes /\ a_id a = leftAttrId p /\ types.1 = a_type a) /\
  (exists b, b ∈ rightAttributes /\ a_id b = rightAttrId p /\ types.2 = a_type b).
Proof.
  unfold resolve_pair. destruct (attributeIndex (leftAttrId p) _) as [i|] eqn:El; [|done].
  destruct (attributeIndex (rightAttrId p) _) as [j|] eqn:Er; [|done].
  destruct (attributeIndex_from_spec _ _ _ _ El) as (k & a & -> & Ha & Eia). cbn [Nat.add].
  destruct (attributeIndex_from_spec _ _ _ _ Er) as (k' & b & -> & Hb & Eib). cbn [Nat.add]. rewrite Ha, Hb.
  intros [= <- <- <-]. split_and!; [done..| |]; eexists; (split; [by eapply list_elem_of_lookup_2|done]).
Qed.

Lemma left_not_right id i : attributeIndex id rightAttributes = Some i -> attributeIndex id leftAttributes = None.
Proof.
  intros (k & b & -> & Hb & Eb)%attributeIndex_from_spec. destruct (attributeIndex id leftAttributes) as [j|] eqn:E; [|done].
  apply attributeIndex_from_spec in E as (k' & a & -> & Ha & Ea). exfalso.
  apply (Hdisjoint a b); [by eapply list_elem_of_lookup_2..|congruence].
Qed.

(** A conjunct that became a pair is true where the pair's test is. *)
Lemma conjunct_pair c p li ri types k l r :
  equi_pair_of toUpperCase leftAttributes rightAttributes c = Some p -> well_typed c ->
  resolve_pair leftAttributes rightAttributes p = Ok ((li, ri), types) -> plain_pair types k ->
  wf_value (row_at l li) -> wf_value (row_at r ri) ->
  holds l r c = pair_test k (row_at l li) (row_at r ri).
Proof.
  intros Hc Hw Hres Hp Wx Wy. destruct c as [| a b |]; try done. cbn [equi_pair_of] in Hc.
  destruct (_ && negb _); [|done]. destruct Hw as [Ha Hb].
  apply resolve_pair_spec in Hres as (Hli & Hri & (al & Hal & Eal & Tl) & (br & Hbr & Ebr & Tr)).
  assert (Hl : al ∈ leftAttributes ++ rightAttributes) by (apply elem_of_app; by left).
  assert (Hr : br ∈ leftAttributes ++ rightAttributes) by (apply elem_of_app; by right).
  pose proof (left_not_right _ _ Hri) as Hnot. destruct types as [tl tr]. cbn [fst snd] in Tl, Tr. subst tl tr.
  assert (Htest : forall x y, isTruthy (if is_null x || is_null y then VNull else VBool (compareSqlValuesFast x y (pk_coll k) =? 0))
    = pair_test k x y) by (intros x y; unfold pair_test; by destruct (is_null x), (is_null y)).
  destruct (has_attribute leftAttributes (attributeId a) && _); [|destruct (_ && _); [|done]]; injection Hc as <-;
    cbn [leftAttrId rightAttrId] in *; unfold holds, column_value; cbn [emit_predicate].
  - pose proof (plain_equality _ _ Hp) as Heq. cbn [fst snd] in Heq. rewrite (Ha al Hl Eal), (Hb br Hr Ebr), Heq. cbn [res_bind]. unfold column_value.
    rewrite Hli, Hnot, Hri. apply Htest.
  - pose proof (plain_equality _ _ (plain_pair_swap _ _ _ Hp)) as Heq. cbn [fst snd] in Heq.
    rewrite (Hb al Hl Eal), (Ha br Hr Ebr), Heq. cbn [res_bind].
    unfold column_value. rewrite Hli, Hnot, Hri, Htest. by apply (pair_test_sym (a_type br, a_type al) k); [apply plain_pair_swap|..].
Qed.

Lemma pairs_holds cs pairs keys l r :
  Forall well_typed cs ->
  res_map (resolve_pair leftAttributes rightAttributes) (omap (equi_pair_of toUpperCase leftAttributes rightAttributes) cs) = Ok pairs ->
  plain_pairs pairs keys -> row_fits fst pairs keys l -> row_fits snd pairs keys r ->
  forallb (holds l r) (List.filter (fun c => bool_decide (is_Some (equi_pair_of toUpperCase leftAttributes rightAttributes c))) cs)
  = pairs_test pairs keys l r.
Proof.
  revert pairs keys. induction cs as [|c cs IH]; intros pairs keys Hw Hres Hp Hl Hr.
  { cbn in Hres. injection Hres as <-. by inversion Hp. }
  apply Forall_cons in Hw as [Hc Hw]. cbn [omap list_omap List.filter] in *.
  destruct (equi_pair_of toUpperCase leftAttributes rightAttributes c) as [p|] eqn:Ep.
  - rewrite bool_decide_eq_true_2 by eauto. cbn [res_map] in Hres.
    destruct (resolve_pair leftAttributes rightAttributes p) as [[[li ri] types]|] eqn:Er; [|done]. cbn [res_bind] in Hres.
    destruct (res_map _ _) as [pairs'|] eqn:Es; [|done]. injection Hres as <-.
    destruct keys as [|k keys]; [by inversion Hp|]. apply Forall2_cons in Hp as [Hpk Hp].
    apply Forall2_cons in Hl as [Hx Hl]. apply Forall2_cons in Hr as [Hy Hr]. cbn [forallb pairs_test fst snd].
    rewrite (conjunct_pair c p li ri types k), (IH pairs' keys); try done; [by destruct Hx|by destruct Hy].
  - rewrite bool_decide_eq_false_2; [|by intros [? ?]]. by apply IH.
Qed.

Lemma well_typed_popped p : well_typed p -> Forall well_typed (popped p).
Proof.
  induction p as [p IHp q IHq|a b|run]; cbn; intros H; [|by apply list.Forall_singleton..].
  apply Forall_app. destruct H. auto.
Qed.

(** The condition of a join is its pairs and its residual. *)
Lemma condition_split condition f x pairs keys residual l r :
  well_typed condition -> emit condition = Ok f ->
  extractEquiPairs toUpperCase (Some condition) leftAttributes rightAttributes = Some x ->
  emit_optional toUpperCase collations timespanCompare leftAttributes rightAttributes (x_residual x) = Ok residual ->
  res_map (resolve_pair leftAttributes rightAttributes) (x_equiPairs x) = Ok pairs ->
  plain_pairs pairs keys -> row_fits fst pairs keys l -> row_fits snd pairs keys r ->
  (forall g, residual = Some g -> truthy (g l r) = isTruthy (g l r)) ->
  conditionMet (Some f) l r = pairs_test pairs keys l r && residual_met residual l r.
Proof.
  intros Hw He Hx Hres Hpairs Hp Hl Hr Hplain. unfold extractEquiPairs in Hx.
  set (cs := popped condition) in *. set (pair := equi_pair_of toUpperCase leftAttributes rightAttributes) in *.
  destruct (Nat.eqb_spec (length (omap pair cs)) 0) as [|Hne]; [done|]. injection Hx as <-. cbn [x_equiPairs x_residual] in *.
  assert (conditionMet (Some f) l r = isTruthy (f l r)) as ->.
  { cbn. destruct condition as [p q|a b|run].
    - cbn [emit_predicate] in He. destruct (emit p), (emit q); try done. injection He as <-. apply truthy_and.
    - cbn [emit_predicate] in He. destruct (buildComparisonOpSpec _ _ _ _ _ _) as [eq|] eqn:Eb; [|done]. injection He as <-.
      unfold buildComparisonOpSpec in Eb. destruct (effectiveCollationOfTypes _ _ _); [|done]. cbn [res_bind] in Eb.
      destruct (resolveCollation _ _); [|done]. injection Eb as <-. by destruct (is_null _ || is_null _).
    - by exfalso. }
  rewrite (emit_popped _ _ l r He). fold cs. rewrite (forallb_split _ (fun c => bool_decide (is_Some (pair c))) cs).
  pose proof (pairs_holds cs pairs keys l r (well_typed_popped _ Hw) Hpairs Hp Hl Hr) as Hph. fold pair in Hph. rewrite Hph. f_equal.
  unfold combineResidual, option_list in Hres. cbn [app] in Hres. destruct (List.filter _ _) as [|first rest].
  - cbn in Hres. by injection Hres as <-.
  - cbn [emit_optional] in Hres. destruct (emit (foldl PAnd first rest)) as [g|] eqn:Eg; [|done]. injection Hres as <-.
    cbn [residual_met]. rewrite (Hplain g eq_refl). symmetry. by apply emit_fold.
Qed.

Lemma plain_extractor pairs keys :
  plain_pairs pairs keys ->
  buildJoinKeyExtractor toUpperCase collations pairs.*2
  = Ok (fun r indices => serializeRowKey r indices (map pk_norm keys)).
Proof.
  intros Hp. unfold buildJoinKeyExtractor.
  assert (res_map (keyNormalizer toUpperCase collations) pairs.*2 = Ok (map pk_norm keys) /\
    existsb (fun c => bool_decide (is_Some c)) (map keyCanonicalizer pairs.*2) = false) as [H1 H2].
  { induction Hp as [|p k pairs keys [(name & He & _ & Hn) _ Hs _] Hp [IH1 IH2]]; [done|]. split; cbn.
    - unfold keyNormalizer at 1. rewrite He. cbn [res_bind]. rewrite Hn. cbn [res_bind]. by rewrite IH1.
    - apply orb_false_iff. split; [|done]. apply orb_false_iff in Hs as [Hs _]. unfold keyCanonicalizer, is_semantic in *.
      destruct (same_type _ _); [|by rewrite bool_decide_eq_false_2; [|by intros [? ?]]].
      unfold semanticKeyTransform. apply bool_decide_eq_false in Hs. destruct (hasSemanticOrdering _); [by destruct Hs; eauto|].
      by rewrite bool_decide_eq_false_2; [|by intros [? ?]]. }
  rewrite H1. cbn [res_bind]. by rewrite H2.
Qed.

Lemma plain_comparators pairs keys :
  plain_pairs pairs keys ->
  res_map (keyComparator toUpperCase collations) pairs.*2
  = Ok (map (fun coll x y => compareSqlValuesFast x y coll) (map pk_coll keys)).
Proof.
  induction 1 as [|p k pairs keys Hpk Hp IH]; [done|]. pose proof (plain_shared _ _ Hpk) as Hs.
  destruct Hpk as [(name & He & Hc & _) _ _ _]. cbn. unfold keyComparator at 1. rewrite He. cbn [res_bind].
  rewrite Hc. cbn [res_bind]. rewrite Hs. cbn [res_bind]. by rewrite IH.
Qed.

Lemma plain_orders pairs keys : plain_pairs pairs keys -> exists cs, Forall2 collates (map pk_coll keys) cs.
Proof.
  induction 1 as [|p k pairs keys Hpk Hp [cs IH]]; [by exists []|].
  destruct (plain_collates _ _ Hpk) as [c Hc]. exists (c :: cs). by constructor.
Qed.

Lemma bind_ext_in {A B} (f g : A -> list B) l : (forall x, x ∈ l -> f x = g x) -> l ≫= f = l ≫= g.
Proof.
  induction l as [|x l IH]; intros H; [done|]. cbn. rewrite (H x) by left. f_equal. apply IH. intros y Hy. apply H. by right.
Qed.

Lemma filter_agree {A} (f g : A -> bool) l : (forall x, x ∈ l -> f x = g x) -> List.filter f l = List.filter g l.
Proof.
  induction l as [|x l IH]; intros H; [done|]. cbn. rewrite (H x) by left. rewrite IH; [done|]. intros y Hy. apply H. by right.
Qed.

Lemma filter_filter {A} (f g : A -> bool) l : List.filter f (List.filter g l) = List.filter (fun x => g x && f x) l.
Proof. induction l as [|x l IH]; cbn; [done|]. destruct (g x); cbn; [destruct (f x)|]; by rewrite IH. Qed.

(** The rows come in the order of the comparators on the columns [indices]. *)
Definition key_sorted (keys : list pair_key) (indices : list nat) (rows : list row) : Prop :=
  StronglySorted (fun r r' =>
    row_loop (map (fun coll x y => compareSqlValuesFast x y coll) (map pk_coll keys)) (key_of indices r) (key_of indices r') <= 0)
    rows.

Lemma key_sorted_pad side pairs keys cs rows :
  Forall2 collates (map pk_coll keys) cs -> length pairs = length keys -> Forall (row_fits side pairs keys) rows ->
  key_sorted keys (map side pairs.*1) rows ->
  StronglySorted (fun r r' => pad_compare cs (key_of (map side pairs.*1) r) (key_of (map side pairs.*1) r') <> Gt) rows.
Proof.
  intros Hcs Hlen Hw. apply StronglySorted_impl. intros r r' Hr Hr' Hle. rewrite Forall_forall in Hw.
  assert (Hn : forall q, q ∈ rows -> wf_row (length keys) (key_of (map side pairs.*1) q)).
  { intros q Hq. split; [unfold key_of; by rewrite !length_map, Hlen|]. apply (row_fits_parts side pairs keys q). auto. }
  assert (length cs = length keys) as Hc by (apply Forall2_length in Hcs; by rewrite length_map in Hcs).
  rewrite <- row_pad_compare by (rewrite Hc; by apply Hn).
  rewrite <- (row_loop_spec (map pk_coll keys) cs _ _ (length keys)) by auto. rewrite sgn_gt. lia.
Qed.

(** C33: The physical join does not change the answer.  Take a join whose keys
    are extracted from its condition: equalities of columns of one category,
    under collations whose normalizers are faithful, on rows whose key columns
    hold no NaN and no text with a NUL in its normalized form, with a residual
    whose JS and SQL truth agree.  The hash join yields exactly the rows of the nested
    loop over the whole condition, in the same order, for inner, cross, left,
    semi and anti joins; and so does the merge join when both inputs come
    sorted by the keys. *)
Theorem join_algorithms_agree joinType condition f x pairs keys residual (L R : list row) :
  left_driven joinType = true ->
  well_typed condition -> emit condition = Ok f ->
  extractEquiPairs toUpperCase (Some condition) leftAttributes rightAttributes = Some x ->
  emit_optional toUpperCase collations timespanCompare leftAttributes rightAttributes (x_residual x) = Ok residual ->
  res_map (resolve_pair leftAttributes rightAttributes) (x_equiPairs x) = Ok pairs -> plain_pairs pairs keys ->
  Forall (row_fits fst pairs keys) L -> Forall (row_fits snd pairs keys) R ->
  (forall g l r, residual = Some g -> l ∈ L -> r ∈ R -> truthy (g l r) = isTruthy (g l r)) ->
  let rows := emitLoopJoin joinType None (Some f) (length leftAttributes) (length rightAttributes) L R in
  emitBloomJoin toUpperCase collations joinType leftAttributes rightAttributes (x_equiPairs x) residual L R = Ok rows /\
  (key_sorted keys pairs.*1.*1 L -> key_sorted keys pairs.*1.*2 R ->
   emitMergeJoin toUpperCase collations joinType leftAttributes rightAttributes (x_equiPairs x) residual L R = Ok rows).
Proof.
  intros Hj Hw He Hx Hres Hpairs Hp HL HR Hplain rows.
  assert (Hsplit : forall l r, l ∈ L -> r ∈ R ->
    conditionMet (Some f) l r = pairs_test pairs keys l r && residual_met residual l r).
  { intros l r Hl Hr. rewrite Forall_forall in HL, HR. eapply condition_split; eauto. }
  assert (Hrows : rows = L ≫= (fun l => left_rows joinType (length rightAttributes) l
    (List.filter (residual_met residual l) (List.filter (pairs_test pairs keys l) R)))).
  { unfold rows. rewrite emitLoopJoin_left by done. apply bind_ext_in. intros l Hl. f_equal.
    rewrite filter_filter. apply filter_agree. auto. }
  rewrite Hrows. split; [|intros SL SR].
  - unfold emitBloomJoin. rewrite Hpairs. cbn [res_bind]. rewrite (plain_extractor _ _ Hp). cbn [res_bind]. f_equal.
    apply bind_ext_in. intros l Hl. rewrite join_candidates_spec, probe_spec. do 2 f_equal.
    apply filter_agree. intros r Hr. rewrite Forall_forall in HL, HR. apply bucket_match; auto.
  - destruct (plain_orders _ _ Hp) as [cs Hcs]. pose proof (Forall2_length _ _ _ Hp) as Hlen.
    unfold emitMergeJoin. rewrite Hpairs. cbn [res_bind]. rewrite (plain_comparators _ _ Hp). cbn [res_bind]. f_equal.
    rewrite (merge_rows_spec (map pk_coll keys) cs Hcs pairs.*1.*1 pairs.*1.*2) with (passed := []); try done.
    + apply bind_ext_in. intros l Hl. cbn [app]. do 2 f_equal. apply filter_agree. intros r Hr. by apply run_match.
    + by rewrite !length_map.
    + by rewrite !length_map.
    + eapply Forall_impl; [exact HL|]. intros l Hl. exact (proj1 (row_fits_parts fst pairs keys l Hl)).
    + eapply Forall_impl; [exact HR|]. intros r Hr. exact (proj1 (row_fits_parts snd pairs keys r Hr)).
    + by apply (key_sorted_pad fst pairs keys cs L).
    + by apply (key_sorted_pad snd pairs keys cs R).
    + by intros l r _ ?%elem_of_nil.
Qed.

End Agree.

(** ** Examples *)

Module Orders.

(** Orders with a customer number, against customers. *)
Definition int_column : ScalarType := mkScalar INTEGER_TYPE false None (Some BINARY) (Some SrcDefault).
Definition text_column : ScalarType := mkScalar TEXT_TYPE false None (Some BINARY) (Some SrcDefault).
Definition any_column : ScalarType := mkScalar ANY_TYPE false None (Some BINARY) (Some SrcDefault).
Definition orders : list Attribute := [mkAttribute 1 int_column; mkAttribute 2 int_column].
Definition customers : list Attribute := [mkAttribute 3 int_column; mkAttribute 4 text_column].
Definition key : pair_key := mkPairKey BINARY_COLLATION IDENTITY_NORMALIZER.
Definition no_collations : registry := fun _ => None.
Definition upper : jsstring -> jsstring := fun s => s.
Definition order_rows : list row := [[VBigint 1; VBigint 7]; [VBigint 2; VBigint 7]; [VBigint 3; VNull]; [VBigint 4; VBigint 9]].
Definition customer_rows : list row := [[VBigint 7; VText (js "Ann")]; [VBigint 8; VText (js "Bob")]].
Definition same_customer : Predicate := PEq (mkColumnRef 3 int_column) (mkColumnRef 2 int_column).

Lemma no_collations_lawful : lawful no_collations.
Proof. by split. Qed.

Lemma sides_disjoint a b : a ∈ orders -> b ∈ customers -> a_id a <> a_id b.
Proof. unfold orders, customers. rewrite !elem_of_cons, !elem_of_nil. intros Ha Hb. by destruct Ha as [->|[->|[]]], Hb as [->|[->|[]]]. Qed.

End Orders.

Lemma join_algorithms_agree_witness :
  emitBloomJoin Orders.upper Orders.no_collations LeftOuter Orders.orders Orders.customers
    [mkEquiJoinPair 2 3 true true] None Orders.order_rows Orders.customer_rows
  = Ok [[VBigint 1; VBigint 7; VBigint 7; VText (js "Ann")]; [VBigint 2; VBigint 7; VBigint 7; VText (js "Ann")];
        [VBigint 3; VNull; VNull; VNull]; [VBigint 4; VBigint 9; VNull; VNull]].
Proof.
  destruct (join_algorithms_agree Orders.upper Orders.no_collations (fun _ _ => 0)
    Orders.no_collations_lawful Orders.orders Orders.customers Orders.sides_disjoint
    LeftOuter Orders.same_customer
    (fun l r => if is_null (row_at r 0) || is_null (row_at l 1) then VNull
                else VBool (compareSqlValuesFast (row_at r 0) (row_at l 1) BINARY_COLLATION =? 0))
    (mkExtraction [mkEquiJoinPair 2 3 true true] None) [((1, 0), (Orders.int_column, Orders.int_column))%nat]
    [Orders.key] None Orders.order_rows Orders.customer_rows) as [H _].
  - reflexivity.
  - split; intros a; unfold Orders.orders, Orders.customers; cbn [app]; rewrite !elem_of_cons, elem_of_nil;
      (intros [->|[->|[->|[->|[]]]]]; [by intros E|by intros E|by intros E|by intros E]).
  - reflexivity.
  - vm_compute. reflexivity.
  - reflexivity.
  - reflexivity.
  - constructor; [|constructor]. split; [exists BINARY; split_and!; vm_compute; reflexivity|reflexivity..].
  - repeat (apply Forall_cons; split; [constructor; [split_and!; [exact I|exact I|by intros _ s]|constructor]|]). constructor.
  - repeat (apply Forall_cons; split; [constructor; [split_and!; [exact I|exact I|by intros _ s]|constructor]|]). constructor.
  - done.
  - exact H.
Defined.

(** A residual that is a text: SQL reads [o.customer = c.id and c.name] as
    false, since the name is not a number, and the nested loop yields nothing;
    the hash join tests the name with JS truth and yields the matches. *)
Lemma residual_truth_differs :
  let condition := PAnd Orders.same_customer (POther (fun _ r => row_at r 1)) in
  (exists f, emit_predicate Orders.upper Orders.no_collations (fun _ _ => 0) Orders.orders Orders.customers condition = Ok f /\
     emitLoopJoin Inner None (Some f) 2 2 Orders.order_rows Orders.customer_rows = []) /\
  exists x residual, extractEquiPairs Orders.upper (Some condition) Orders.orders Orders.customers = Some x /\
     emit_optional Orders.upper Orders.no_collations (fun _ _ => 0) Orders.orders Orders.customers (x_residual x) = Ok residual /\
     emitBloomJoin Orders.upper Orders.no_collations Inner Orders.orders Orders.customers (x_equiPairs x) residual
       Orders.order_rows Orders.customer_rows
     = Ok [[VBigint 1; VBigint 7; VBigint 7; VText (js "Ann")]; [VBigint 2; VBigint 7; VBigint 7; VText (js "Ann")]].
Proof.
  split; [eexists; split; [reflexivity|by vm_compute]|]. do 2 eexists. split; [reflexivity|]. split; [reflexivity|by vm_compute].
Qed.

(** Two [ANY] columns: [=] compares texts that look like durations by elapsed
    time, a hash key by their spelling. *)
Lemma any_durations_differ (timespanCompare : value -> value -> Z) :
  let one_hour : value := VText (js "PT1H") in
  let sixty_minutes : value := VText (js "PT60M") in
  let left_attrs := [mkAttribute 1 Orders.any_column] in
  let right_attrs := [mkAttribute 2 Orders.any_column] in
  let condition := PEq (mkColumnRef 1 Orders.any_column) (mkColumnRef 2 Orders.any_column) in
  timespanCompare one_hour sixty_minutes = 0 ->
  (exists f, emit_predicate Orders.upper Orders.no_collations timespanCompare left_attrs right_attrs condition = Ok f /\
     emitLoopJoin Inner None (Some f) 1 1 [[one_hour]] [[sixty_minutes]] = [[one_hour; sixty_minutes]]) /\
  exists x, extractEquiPairs Orders.upper (Some condition) left_attrs right_attrs = Some x /\
     emitBloomJoin Orders.upper Orders.no_collations Inner left_attrs right_attrs (x_equiPairs x) None
       [[one_hour]] [[sixty_minutes]] = Ok [].
Proof.
  intros one_hour sixty_minutes left_attrs right_attrs condition H. split.
  - eexists. split; [reflexivity|]. cbn -[one_hour sixty_minutes is_timespan]. unfold tryTemporalCompare.
    change (is_timespan one_hour) with true. change (is_timespan sixty_minutes) with true. cbn [negb orb]. by rewrite H.
  - eexists. split; [reflexivity|by vm_compute].
Qed.

End JoinLaws.
