(* ===== verification/JoinFacts.v ===== *)
(** What the planner claims of a join holds of the rows the join produces.

    [facts_hold] reads the physical properties of a plan node as statements on
    its rows: functional dependencies, equivalence classes of columns, columns
    bound to a literal or parameter, and value domains.  The merge and shift
    functions of [Fds] are shown to keep them true; [join_facts_sound] then
    composes [analyzeJoinKeyCoverage] and [propagateJoinFds] (planner) with
    [emitLoopJoin] (run time). *)

From S2P Require Import Prelude.
From S2P Require Import Bytes.
From S2P Require Import Double.
From S2P Require Import Decimal.
From S2P Require Import Comparison.
From S2P Require Import Fds.
From S2P Require Import FdLaws.
From S2P Require Import Joins.
From S2P Require Import JoinLaws.
From Stdlib Require Import ZArith Lia.
From stdpp Require Import sorting.
From stdpp Require Import base tactics numbers sets gmap list.
#[local] Open Scope Z_scope.

Import Double Decimal Comparison Fds FdLaws Joins JoinLaws.

Module JoinFacts.

Abbreviation value := SqlValue.
Abbreviation row := (list SqlValue).
Abbreviation column := nat.

(** ** Lists *)

Lemma shift_cols_0 cols : shift_cols 0 cols = cols.
Proof. unfold shift_cols. induction cols as [|c cols IH]; cbn; [done|]. by rewrite IH, Nat.add_0_r. Qed.

Lemma elem_of_shift_cols c off cols : c ∈ shift_cols off cols <-> exists c', c = (c' + off)%nat /\ c' ∈ cols.
Proof. unfold shift_cols. by rewrite list_elem_of_fmap. Qed.

Lemma NoDup_shift_cols off cols : NoDup cols -> NoDup (shift_cols off cols).
Proof. apply NoDup_fmap_2. intros x y. lia. Qed.

Lemma elem_of_unionAttrs x a b : x ∈ unionAttrs a b <-> x ∈ a \/ x ∈ b.
Proof. unfold unionAttrs. by rewrite elem_of_sorted, elem_of_set_adds, elem_of_set_of. Qed.

Lemma NoDup_sorted l : NoDup l -> NoDup (sorted l).
Proof. intros H. unfold sorted. by rewrite js_sort_perm. Qed.

(** Where the rows of a sublist stand in the list. *)
Lemma sublist_positions {A} (l' l : list A) :
  l' `sublist_of` l ->
  exists f : nat -> nat, (forall i x, l' !! i = Some x -> l !! f i = Some x) /\
    forall i j, f i = f j -> i = j.
Proof.
  induction 1 as [|x l' l _ (f & Hf & Hi)|x l' l _ (f & Hf & Hi)].
  - exists id. split; [done|auto].
  - exists (fun i => match i with O => O | S i => S (f i) end). split.
    + intros [|i] y; cbn; [done|auto].
    + intros [|i] [|j]; intros E; try done. f_equal. apply Hi. by injection E.
  - exists (fun i => S (f i)). split; [auto|]. intros i j E. apply Hi. by injection E.
Qed.

Lemma list_filter_sublist {A} (f : A -> bool) l : List.filter f l `sublist_of` l.
Proof. induction l as [|x l IH]; cbn; [constructor|]. destruct (f x); by constructor. Qed.

Section Facts.
Context (cmp : value -> value -> comparison) `{!Identity cmp} (env : ParamRef -> value).

Abbreviation key_holds := (FdLaws.key_holds cmp).
Abbreviation fd_holds := (FdLaws.fd_holds cmp).
Abbreviation ec_holds := (FdLaws.ec_holds cmp).
Abbreviation agree := (FdLaws.agree cmp).
Abbreviation same := (FdLaws.same cmp).

(** ** What the other facts say *)

Definition const_value (v : ConstantValue) : value :=
  match v with
  | CLiteral v => v
  | CParameter p => env p
  end.

(** Every bound column holds the value in every row. *)
Definition binding_holds (rows : list row) (b : ConstantBinding) : Prop :=
  forall r c, r ∈ rows -> c ∈ b_attrs b -> same (cell r c) (const_value (b_value b)).

(** A CHECK passes on NULL. *)
Definition domain_holds (rows : list row) (d : DomainConstraint) : Prop :=
  forall r, r ∈ rows ->
  match d with
  | DRange c mn mx i x _ => is_null (cell r c) = true \/ above cmp (cell r c) mn i /\ below cmp (cell r c) mx x
  | DEnum c values _ => is_null (cell r c) = true \/ exists v, v ∈ values /\ same (cell r c) v
  end.

Record facts_hold (rows : list row) (ph : PhysicalProperties) : Prop := {
  fh_fds : Forall (fd_holds rows) (default [] (ph_fds ph));
  fh_ecs : Forall (ec_holds rows) (default [] (ph_equivClasses ph));
  fh_bindings : Forall (binding_holds rows) (default [] (ph_constantBindings ph));
  fh_domains : Forall (domain_holds rows) (default [] (ph_domainConstraints ph))
}.

(** ** Equivalence classes *)

Lemma ec_subset rows cls cls' : (forall c, c ∈ cls' -> c ∈ cls) -> ec_holds rows cls -> ec_holds rows cls'.
Proof. intros H Hc r c c' Hr ??. apply Hc; auto. Qed.

Lemma elem_of_normalizeClass c cls : c ∈ normalizeClass cls <-> c ∈ cls.
Proof. unfold normalizeClass. by rewrite elem_of_sorted, elem_of_set_of. Qed.

Lemma ec_union rows a b x : ec_holds rows a -> ec_holds rows b -> x ∈ a -> x ∈ b -> ec_holds rows (normalizeClass (a ++ b)).
Proof.
  intros Ha Hb Hxa Hxb. assert (H : forall r c, r ∈ rows -> c ∈ a ++ b -> same (cell r c) (cell r x)).
  { intros r c Hr [Hc|Hc]%elem_of_app; [by apply Ha|by apply Hb]. }
  intros r c c' Hr. rewrite !elem_of_normalizeClass. intros Hc Hc'. trans (cell r x); [by apply H|]. symmetry. by apply H.
Qed.

Lemma take_overlap_spec ci rest cj rest' :
  take_overlap ci rest = Some (cj, rest') ->
  cj ∈ rest /\ (exists x, x ∈ ci /\ x ∈ cj) /\ forall c, c ∈ rest' -> c ∈ rest.
Proof.
  revert rest'. induction rest as [|c rest IH]; intros rest' H; [done|]. cbn in H. destruct (existsb (set_has ci) c) eqn:E.
  - injection H as <- <-. apply existsb_exists_elem in E as (x & Hx & Hci%set_has_spec).
    split; [left|]. split; [eauto|]. intros; by right.
  - destruct (take_overlap ci rest) as [[cj' rest'']|] eqn:Et; [|done]. injection H as -> <-.
    destruct (IH rest'' eq_refl) as (H1 & H2 & H3). split; [by right|]. split; [done|].
    intros c' [->|Hc]%elem_of_cons; [left|right; auto].
Qed.

Lemma merge_first_sound rows classes classes' :
  merge_first classes = Some classes' -> Forall (ec_holds rows) classes -> Forall (ec_holds rows) classes'.
Proof.
  revert classes'. induction classes as [|ci rest IH]; intros classes' H Hc; [done|]. cbn in H.
  apply Forall_cons in Hc as [Hi Hr]. destruct (take_overlap ci rest) as [[cj rest']|] eqn:E.
  - injection H as <-. apply take_overlap_spec in E as (Hj & (x & Hxi & Hxj) & Hs). rewrite Forall_forall in Hr.
    constructor; [eapply ec_union; eauto|]. apply Forall_forall. auto.
  - destruct (merge_first rest) as [rest'|] eqn:Em; [|done]. injection H as <-. constructor; [done|]. by apply IH.
Qed.

Lemma merge_loop_sound rows fuel classes : Forall (ec_holds rows) classes -> Forall (ec_holds rows) (merge_loop fuel classes).
Proof.
  revert classes. induction fuel as [|fuel IH]; intros classes H; [done|]. cbn.
  destruct (merge_first classes) eqn:E; [|done]. apply IH. by eapply merge_first_sound.
Qed.

Lemma mergeEquivClasses_sound rows a b :
  Forall (ec_holds rows) a -> Forall (ec_holds rows) b -> Forall (ec_holds rows) (mergeEquivClasses a b).
Proof.
  intros Ha Hb. apply Forall_filter_list, merge_loop_sound, Forall_fmap.
  eapply Forall_impl; [by apply Forall_app|]. intros cls. apply ec_subset. intros c. by apply elem_of_normalizeClass.
Qed.

Lemma addEquivalence_sound rows classes a b :
  Forall (ec_holds rows) classes -> (forall r, r ∈ rows -> same (cell r a) (cell r b)) ->
  Forall (ec_holds rows) (addEquivalence classes a b).
Proof.
  intros Hc H. unfold addEquivalence. destruct (a =? b)%nat; [done|]. apply mergeEquivClasses_sound; [done|].
  constructor; [|constructor]. intros r c c' Hr. rewrite !elem_of_cons, !elem_of_nil. pose proof (H r Hr) as E.
  intros [->|[->|[]]] [->|[->|[]]]; done.
Qed.

(** ** Bindings *)

Lemma constantValueEquals_same v w : constantValueEquals v w = true -> same (const_value v) (const_value w).
Proof.
  destruct v, w; cbn; try done.
  - apply identity_literals.
  - intros ->%bool_decide_eq_true. done.
Qed.

Lemma normalizeBinding_sound rows b : binding_holds rows b -> binding_holds rows (normalizeBinding b).
Proof. intros H r c Hr. cbn. rewrite elem_of_sorted, elem_of_set_of. by apply H. Qed.

Lemma merge_binding_sound rows result next :
  Forall (binding_holds rows) result -> binding_holds rows next -> Forall (binding_holds rows) (merge_binding result next).
Proof.
  intros Hr Hn. induction Hr as [|b result Hb Hr IH]; cbn; [by constructor|].
  destruct (constantValueEquals _ _) eqn:E; constructor; [|done..]. apply constantValueEquals_same in E.
  intros r c Hin. cbn. rewrite elem_of_unionAttrs. intros [Hc|Hc]; [by apply Hb|]. etrans; [by apply Hn|]. done.
Qed.

Lemma enforceBindingCap_Forall (P : ConstantBinding -> Prop) l : Forall P l -> Forall P (enforceBindingCap l).
Proof. unfold enforceBindingCap. destruct (_ <=? _)%nat; [done|]. apply Forall_take. Qed.

Lemma normalizeBindings_sound rows l : Forall (binding_holds rows) l -> Forall (binding_holds rows) (map normalizeBinding l).
Proof. intros H. apply Forall_fmap. eapply Forall_impl; [done|]. apply normalizeBinding_sound. Qed.

Lemma mergeConstantBindings_sound rows a b :
  Forall (binding_holds rows) a -> Forall (binding_holds rows) b -> Forall (binding_holds rows) (mergeConstantBindings a b).
Proof.
  intros Ha%normalizeBindings_sound Hb. apply enforceBindingCap_Forall. revert Ha. generalize (map normalizeBinding a).
  induction Hb as [|x b Hx Hb IH]; intros result Hr; cbn; [done|].
  apply IH, merge_binding_sound; [done|]. by apply normalizeBinding_sound.
Qed.

(** The columns added through the classes hold the value too. *)
Lemma grow_pass_sound (P : column -> Prop) ecs state :
  (forall cls c c', cls ∈ ecs -> c ∈ cls -> c' ∈ cls -> P c -> P c') ->
  (forall c, c ∈ state.1 -> P c) -> forall c, c ∈ (foldl grow_class state ecs).1 -> P c.
Proof.
  revert state. induction ecs as [|cls ecs IH]; intros state He Hs; [done|]. cbn [foldl]. apply IH.
  - intros cls' c c' Hin. apply (He cls'). by right.
  - unfold grow_class. destruct (existsb _ cls) eqn:E; [|done]. apply existsb_exists_elem in E as (x & Hx & Hin%set_has_spec).
    intros c. rewrite elem_of_add_dependents. intros [Hc|Hc]; [auto|]. apply (He cls x c); [left|done..|auto].
Qed.

Lemma grow_loop_sound (P : column -> Prop) fuel ecs s :
  (forall cls c c', cls ∈ ecs -> c ∈ cls -> c' ∈ cls -> P c -> P c') ->
  (forall c, c ∈ s -> P c) -> forall c, c ∈ grow_loop fuel ecs s -> P c.
Proof.
  intros He. revert s. induction fuel as [|fuel IH]; intros s Hs; [done|]. cbn.
  pose proof (grow_pass_sound P ecs (s, false) He Hs) as Hp. destruct (foldl grow_class (s, false) ecs) as [s' grew]. cbn in Hp.
  destruct grew; [by apply IH|done].
Qed.

Lemma closeConstantBindingsOverEcs_sound rows bindings ecs :
  Forall (binding_holds rows) bindings -> Forall (ec_holds rows) ecs ->
  Forall (binding_holds rows) (closeConstantBindingsOverEcs bindings ecs).
Proof.
  intros Hb He. unfold closeConstantBindingsOverEcs. destruct bindings as [|b bs] eqn:Eb; [constructor|]. rewrite <- Eb in *. clear Eb.
  destruct ecs as [|e es] eqn:Ee; [by apply normalizeBindings_sound|]. rewrite <- Ee in *. clear Ee.
  apply mergeConstantBindings_sound; [|constructor]. apply Forall_fmap. eapply Forall_impl; [done|]. intros x Hx r c Hr. cbn [close_binding b_attrs b_value].
  rewrite elem_of_sorted. revert c. apply (grow_loop_sound (fun c => same (cell r c) (const_value (b_value x)))).
  - intros cls c c' Hin Hc Hc' H. rewrite Forall_forall in He. etrans; [|exact H]. by apply (He cls Hin).
  - intros c. rewrite elem_of_set_of. by apply Hx.
Qed.

Lemma mergeDomainConstraints_Forall (P : DomainConstraint -> Prop) a b :
  Forall P a -> Forall P b -> Forall P (mergeDomainConstraints a b).
Proof.
  intros Ha Hb. unfold mergeDomainConstraints, enforceDomainCap.
  assert (Forall P (foldl (fun result next => if existsb (fun e => domainConstraintEquals e next) result then result
    else result ++ [next]) a b)) as H; [|destruct (_ <=? _)%nat; [done|by apply Forall_take]].
  revert a Ha. induction Hb as [|d b Hd Hb IH]; intros a Ha; cbn; [done|]. apply IH.
  destruct (existsb _ a); [done|]. apply Forall_app. by split; [|constructor].
Qed.

(** ** Rows that carry the rows of an input *)

(** Every row carries, from column [offset] on, the columns in scope of a row
    of the input. *)
Definition carries (scope : column -> Prop) (offset : nat) (rows rows' : list row) : Prop :=
  forall r', r' ∈ rows' -> exists r, r ∈ rows /\ forall c, scope c -> cell r' (c + offset) = cell r c.

Fixpoint clause_scope (scope : column -> Prop) (clause : GuardClause) : Prop :=
  match clause with
  | EqLiteral c _ | IsNull c _ | Range c _ _ _ _ => scope c
  | EqColumn l r => scope l /\ scope r
  | OrOf l => foldr (fun cl P => clause_scope scope cl /\ P) True l
  end.

Record fd_scope (scope : column -> Prop) (fd : FunctionalDependency) : Prop := {
  fs_determinants : Forall scope (determinants fd);
  fs_dependents : Forall scope (dependents fd);
  fs_guard : Forall (clause_scope scope) (default [] (guard fd))
}.

Definition shift_fd (offset : nat) (fd : FunctionalDependency) : FunctionalDependency :=
  with_columns (shift_cols offset (determinants fd)) (shift_cols offset (dependents fd)) (shiftGuard offset <$> guard fd) fd.

Lemma or_scope scope l : clause_scope scope (OrOf l) <-> Forall (clause_scope scope) l.
Proof. cbn. induction l as [|c l IH]; cbn; [split; [constructor|done]|]. by rewrite Forall_cons, IH. Qed.

Lemma shift_clause_holds scope off r r' cl :
  (forall c, scope c -> cell r' (c + off) = cell r c) -> clause_scope scope cl ->
  clause_holds cmp r' (shiftClause off cl) <-> clause_holds cmp r cl.
Proof.
  intros H. induction cl as [c v|l k|c n|c mn mx i x|l IH] using GuardClause_rect'; intros Hs; try (cbn in *; by rewrite H).
  - cbn in *. destruct Hs as [Hl Hk]. by rewrite !H.
  - apply or_scope in Hs. cbn [shiftClause]. rewrite !or_holds. setoid_rewrite list_elem_of_fmap. rewrite Forall_forall in IH, Hs. split.
    + intros (_ & (cl & -> & Hin) & Hh). exists cl. split; [done|]. by apply IH; auto.
    + intros (cl & Hin & Hh). exists (shiftClause off cl). split; [eauto|]. by apply IH; auto.
Qed.

Lemma shift_guard_holds scope off r r' fd :
  (forall c, scope c -> cell r' (c + off) = cell r c) -> fd_scope scope fd ->
  guard_holds cmp r' (guard (shift_fd off fd)) <-> guard_holds cmp r (guard fd).
Proof.
  intros H [_ _ Hg]. unfold guard_holds. cbn [shift_fd guard with_columns]. destruct (guard fd) as [g|]; [|done]. cbn in *.
  unfold shiftGuard. rewrite Forall_fmap. rewrite !Forall_forall in *. split; intros Hh c Hc.
  - apply (shift_clause_holds scope off r r' c H (Hg c Hc)). by apply Hh.
  - apply (shift_clause_holds scope off r r' c H (Hg c Hc)). by apply Hh.
Qed.

Lemma shift_agree scope off cols r1 r2 r1' r2' :
  (forall c, scope c -> cell r1' (c + off) = cell r1 c) -> (forall c, scope c -> cell r2' (c + off) = cell r2 c) ->
  Forall scope cols -> agree (shift_cols off cols) r1' r2' <-> agree cols r1 r2.
Proof.
  intros H1 H2 Hs. rewrite Forall_forall in Hs. split.
  - intros Ha c Hc. rewrite <- H1, <- H2 by auto. apply Ha, elem_of_shift_cols. eauto.
  - intros Ha c (c' & -> & Hc)%elem_of_shift_cols. rewrite H1, H2 by auto. by apply Ha.
Qed.

Section Carry.
Context (scope : column -> Prop) (offset : nat) (rows rows' : list row).
Context (Hcarries : carries scope offset rows rows').

(** A dependency of the input holds; one row of the input may occur several
    times, unless the output has a key within its columns. *)
Lemma carry_fd fd :
  fd_holds rows fd -> fd_scope scope fd ->
  (kind fd = Unique -> exists k, Forall scope k /\ key_holds rows' (shift_cols offset k)) ->
  fd_holds rows' (shift_fd offset fd).
Proof.
  intros Hf Hs Hu i j r1' r2' Hi Hj G1 G2 Ha.
  destruct (Hcarries r1') as (r1 & Hr1 & E1); [by eapply list_elem_of_lookup_2|].
  destruct (Hcarries r2') as (r2 & Hr2 & E2); [by eapply list_elem_of_lookup_2|].
  apply list_elem_of_lookup in Hr1 as [p Hp], Hr2 as [q Hq].
  rewrite (shift_guard_holds scope offset r1 r1' fd E1 Hs) in G1. rewrite (shift_guard_holds scope offset r2 r2' fd E2 Hs) in G2.
  cbn [shift_fd determinants dependents kind with_columns] in *.
  apply (shift_agree scope offset _ r1 r2 r1' r2' E1 E2 (fs_determinants _ _ Hs)) in Ha.
  destruct (Hf p q r1 r2 Hp Hq G1 G2 Ha) as [Hd Hk]. split.
  - by apply (shift_agree scope offset _ r1 r2 r1' r2' E1 E2 (fs_dependents _ _ Hs)).
  - intros Hkind. destruct (Hu Hkind) as (k & Hks & Hkey). specialize (Hk Hkind) as ->.
    assert (r1 = r2) as -> by congruence. apply (Hkey i j r1' r2' Hi Hj). apply (shift_agree scope offset k r2 r2 r1' r2' E1 E2 Hks). by intros c _.
Qed.

Lemma carry_ec cls : ec_holds rows cls -> Forall scope cls -> ec_holds rows' (shift_cols offset cls).
Proof.
  intros He Hs r' c c' Hr (d & -> & Hd)%elem_of_shift_cols (d' & -> & Hd')%elem_of_shift_cols.
  destruct (Hcarries r' Hr) as (r & Hin & E). rewrite Forall_forall in Hs. rewrite !E by auto. by apply He.
Qed.

Lemma carry_binding b :
  binding_holds rows b -> Forall scope (b_attrs b) ->
  binding_holds rows' (mkBinding (shift_cols offset (b_attrs b)) (b_value b) None).
Proof.
  intros Hb Hs r' c Hr. cbn. intros (d & -> & Hd)%elem_of_shift_cols.
  destruct (Hcarries r' Hr) as (r & Hin & E). rewrite Forall_forall in Hs. rewrite E by auto. by apply Hb.
Qed.

Lemma carry_domain d :
  domain_holds rows d -> scope (d_column d) -> domain_holds rows' (with_d_column (d_column d + offset) d).
Proof.
  intros Hd Hs r' Hr. destruct (Hcarries r' Hr) as (r & Hin & E). specialize (Hd r Hin). by destruct d; cbn in *; rewrite E.
Qed.

End Carry.

(** ** Keys of joined rows *)

Lemma key_empty_iff rows : key_holds rows [] <-> (length rows <= 1)%nat.
Proof.
  split.
  - destruct rows as [|r [|r' rows]]; intros H; cbn; [lia..|]. exfalso. specialize (H 0%nat 1%nat r r' eq_refl eq_refl).
    enough (0 = 1)%nat by done. apply H. by intros c ?%elem_of_nil.
  - intros Hl i j r r' Hi%lookup_lt_Some Hj%lookup_lt_Some _. lia.
Qed.

Lemma key_short rows k : (length rows <= 1)%nat -> key_holds rows k.
Proof. rewrite <- key_empty_iff. apply key_holds_mono. by intros c ?%elem_of_nil. Qed.

Lemma key_value rows k r r' : key_holds rows k -> r ∈ rows -> r' ∈ rows -> agree k r r' -> r = r'.
Proof.
  intros Hk [i Hi]%list_elem_of_lookup [j Hj]%list_elem_of_lookup Ha. pose proof (Hk i j r r' Hi Hj Ha) as ->. congruence.
Qed.

(** At most one row passes a test whose rows agree on a key. *)
Lemma key_filter_short rows k f :
  key_holds rows k -> (forall r r', r ∈ rows -> r' ∈ rows -> f r = true -> f r' = true -> agree k r r') ->
  (length (List.filter f rows) <= 1)%nat.
Proof.
  intros Hk Hf. apply key_empty_iff. destruct (sublist_positions _ _ (list_filter_sublist f rows)) as (g & Hg & Hi).
  intros i j r r' Hri Hrj _. apply Hi. apply (Hk _ _ r r'); [by apply Hg|by apply Hg|].
  apply list_elem_of_lookup_2, list_elem_of_In, filter_In in Hri as [Hin Hfr], Hrj as [Hin' Hfr'].
  apply Hf; [by apply list_elem_of_In..|done|done].
Qed.

Lemma key_sublist rows rows' k : rows' `sublist_of` rows -> key_holds rows k -> key_holds rows' k.
Proof.
  intros (f & Hf & Hi)%sublist_positions Hk i j r r' Hri Hrj Ha. apply Hi. apply (Hk _ _ r r'); auto.
Qed.

Lemma fd_sublist rows rows' fd : rows' `sublist_of` rows -> fd_holds rows fd -> fd_holds rows' fd.
Proof.
  intros (f & Hf & Hi)%sublist_positions Hk i j r r' Hri Hrj G G' Ha.
  destruct (Hk (f i) (f j) r r') as [H1 H2]; auto.
Qed.

(** The rows of a join, each contributed by one row of the driving side: a key
    holds if it holds among the rows of each contribution and never matches
    across two of them. *)
Lemma key_bind (D : list row) (f : row -> list row) k :
  (forall d, d ∈ D -> key_holds (f d) k) ->
  (forall i j d d' x y, D !! i = Some d -> D !! j = Some d' -> x ∈ f d -> y ∈ f d' -> agree k x y -> i = j) ->
  key_holds (D ≫= f) k.
Proof.
  induction D as [|d D IH]; intros Hin Hx; [by intros i j r r' ?|].
  change ((d :: D) ≫= f) with (f d ++ (D ≫= f)).
  assert (key_holds (D ≫= f) k) as HD.
  { apply IH; [intros d' Hd'; apply Hin; by right|]. intros i j e e' x y Hi Hj Hxe Hye Ha.
    pose proof (Hx (S i) (S j) e e' x y Hi Hj Hxe Hye Ha). lia. }
  assert (Hcross : forall x y, x ∈ f d -> y ∈ D ≫= f -> agree k x y -> False).
  { intros x y Hxd (e & Hye & [j Hj]%list_elem_of_lookup)%list_elem_of_bind Ha.
    by pose proof (Hx 0%nat (S j) d e x y eq_refl Hj Hxd Hye Ha). }
  intros i j r r' Hi Hj Ha. apply lookup_app_Some in Hi as [Hi|[Li Hi]], Hj as [Hj|[Lj Hj]].
  - apply (Hin d (list_elem_of_here _ _) i j r r' Hi Hj Ha).
  - destruct (Hcross r r'); eauto using list_elem_of_lookup_2.
  - destruct (Hcross r' r); eauto using list_elem_of_lookup_2. intros c Hc. symmetry. by apply Ha.
  - pose proof (HD _ _ r r' Hi Hj Ha). lia.
Qed.

(** A side that contributes at most one row per driving row. *)
Lemma key_driven (D : list row) (f : row -> list row) k k' :
  key_holds D k -> (forall d, d ∈ D -> (length (f d) <= 1)%nat) ->
  (forall d d' x y, d ∈ D -> d' ∈ D -> x ∈ f d -> y ∈ f d' -> agree k' x y -> agree k d d') ->
  key_holds (D ≫= f) k'.
Proof.
  intros Hk Hl Hx. apply key_bind; [intros d Hd; by apply key_short, Hl|].
  intros i j d d' x y Hi Hj Hxd Hyd Ha. apply (Hk i j d d' Hi Hj). eapply Hx; eauto using list_elem_of_lookup_2.
Qed.

Lemma bind_short (D : list row) (f : row -> list row) :
  (length D <= 1)%nat -> (forall d, d ∈ D -> (length (f d) <= 1)%nat) -> (length (D ≫= f) <= 1)%nat.
Proof.
  destruct D as [|d [|d' D]]; cbn; intros H1 H2; [lia| |lia]. rewrite app_nil_r. apply H2. left.
Qed.

(** ** The rows of a loop join *)

(** What a right row contributes when it drives. *)
Definition right_rows (leftCount : nat) (rightRow : row) (matches : list row) : list row :=
  map (fun leftRow => leftRow ++ rightRow) matches ++
  if (length matches =? 0)%nat then [replicate leftCount VNull ++ rightRow] else [].

Lemma scan_left_spec met out rows bits :
  length bits = length rows ->
  (scan_left met out rows bits).1 = (map out (List.filter met rows), negb (length (List.filter met rows) =? 0)%nat) /\
  length (scan_left met out rows bits).2 = length rows.
Proof.
  revert bits. induction rows as [|r rows IH]; intros [|b bits] H; try done. cbn [scan_left List.filter].
  injection H as H. destruct (IH bits H) as [H1 H2]. destruct (scan_left met out rows bits) as [[rs m] bs]. cbn in H1, H2.
  injection H1 as -> ->. destruct (met r); cbn; by rewrite H2.
Qed.

Lemma drive_right_rows_spec condition leftCount L R bits :
  length bits = length L ->
  (drive_right_rows None condition leftCount L R bits).1
  = R ≫= (fun r => right_rows leftCount r (List.filter (fun l => conditionMet condition l r) L)).
Proof.
  revert bits. induction R as [|r R IH]; intros bits H; [done|]. cbn [drive_right_rows].
  destruct (scan_left_spec (fun l => conditionMet condition l r) (fun l => l ++ r ++ matchedFlags None) L bits H) as [H1 H2].
  destruct (scan_left _ _ L bits) as [[rs m] bs]. cbn in H1, H2. injection H1 as -> ->. specialize (IH bs H2).
  destruct (drive_right_rows None condition leftCount L R bs) as [rs' bits']. cbn [fst] in *. rewrite IH.
  change (matchedFlags None) with (@nil value). change (flagsForDroppedSide None FlagLeft) with (@nil value).
  rewrite bind_cons. unfold right_rows at 2. rewrite <- (assoc_L (++)). f_equal.
  - apply map_ext. intros l. by rewrite app_nil_r.
  - destruct (length _ =? 0)%nat; cbn; by rewrite ?app_nil_r.
Qed.

Lemma emitLoopJoin_right condition nl nr L R :
  emitLoopJoin RightOuter None condition nl nr L R
  = R ≫= (fun r => right_rows nl r (List.filter (fun l => conditionMet condition l r) L)).
Proof.
  cbn [emitLoopJoin]. unfold driveFromRight. rewrite <- (drive_right_rows_spec condition nl L R (replicate (length L) false));
    [|by rewrite length_replicate]. destruct (drive_right_rows _ _ _ _ _ _) as [rs bits]. cbn. by rewrite app_nil_r.
Qed.

Lemma cell_app_l (l r : row) c : (c < length l)%nat -> cell (l ++ r) c = cell l c.
Proof. intros H. unfold cell. by rewrite lookup_app_l. Qed.

Lemma cell_app_r (l r : row) c : cell (l ++ r) (c + length l) = cell r c.
Proof. unfold cell. rewrite lookup_app_r by lia. do 2 f_equal. lia. Qed.

Lemma elem_of_left_rows joinType nr l ms x :
  x ∈ left_rows joinType nr l ms ->
  x = l \/ (exists r, r ∈ ms /\ x = l ++ r) \/ joinType = LeftOuter /\ ms = [] /\ x = l ++ replicate nr VNull.
Proof.
  unfold left_rows. rewrite elem_of_app. intros [H|H].
  - destruct (isSemiOrAnti joinType); [by apply elem_of_nil in H|]. apply list_elem_of_fmap in H as (r & -> & Hr). right; left; eauto.
  - destruct ms as [|r ms]; destruct joinType; cbn in H; rewrite ?elem_of_nil, ?list_elem_of_singleton in H; auto; done.
Qed.

Lemma left_rows_pairs joinType nr l ms x :
  joinType = Inner \/ joinType = Cross -> x ∈ left_rows joinType nr l ms -> exists r, r ∈ ms /\ x = l ++ r.
Proof.
  intros Hj. unfold left_rows. rewrite elem_of_app. intros [H|H].
  - destruct Hj as [-> | ->]; apply list_elem_of_fmap in H as (r & -> & Hr); eauto.
  - destruct Hj as [-> | ->]; by apply elem_of_nil in H.
Qed.

Lemma left_rows_short joinType nr l ms : (length ms <= 1)%nat -> (length (left_rows joinType nr l ms) <= 1)%nat.
Proof. unfold left_rows. destruct ms as [|r [|]], joinType; cbn; lia. Qed.

Lemma right_rows_short nl r ms : (length ms <= 1)%nat -> (length (right_rows nl r ms) <= 1)%nat.
Proof. unfold right_rows. destruct ms as [|l [|]]; cbn; lia. Qed.

Lemma elem_of_right_rows nl r ms x :
  Forall (fun l => length l = nl) ms -> x ∈ right_rows nl r ms -> exists l, length l = nl /\ x = l ++ r.
Proof.
  intros Hl. rewrite Forall_forall in Hl. unfold right_rows. rewrite elem_of_app. intros [H|H].
  - apply list_elem_of_fmap in H as (l & -> & Hin). eauto.
  - destruct (_ =? _)%nat; [|by apply elem_of_nil in H]. apply list_elem_of_singleton in H as ->.
    exists (replicate nl VNull). by rewrite length_replicate.
Qed.

Section Join.
Context (condition : option (row -> row -> value)) (nl nr : nat) (L R : list row) (equiPairs : list EquiPair).
Context (HL : Forall (fun l => length l = nl) L).
Context (Hcond : forall l r, l ∈ L -> r ∈ R -> conditionMet condition l r = true ->
  Forall (fun p => sql_equal cmp (cell l (p_left p)) (cell r (p_right p))) equiPairs).

Abbreviation output joinType := (emitLoopJoin joinType None condition nl nr L R).
Abbreviation matches l := (List.filter (conditionMet condition l) R).
Abbreviation left_columns := (fun c => c < nl)%nat.

Lemma width l : l ∈ L -> length l = nl.
Proof. rewrite Forall_forall in HL. apply HL. Qed.

Lemma elem_of_matches l r : r ∈ matches l <-> r ∈ R /\ conditionMet condition l r = true.
Proof. by rewrite !list_elem_of_In, filter_In. Qed.

(** Rows that match the same row agree on the paired columns. *)
Lemma matched_left l l' r :
  l ∈ L -> l' ∈ L -> r ∈ R -> conditionMet condition l r = true -> conditionMet condition l' r = true ->
  agree (map p_left equiPairs) l l'.
Proof.
  intros Hl Hl' Hr Hc Hc' c (p & -> & Hp)%list_elem_of_fmap.
  pose proof (Hcond l r Hl Hr Hc) as H. pose proof (Hcond l' r Hl' Hr Hc') as H'. rewrite Forall_forall in H, H'.
  destruct (H p Hp) as (_ & _ & E), (H' p Hp) as (_ & _ & E'). etrans; [exact E|]. by symmetry.
Qed.

Lemma matched_right l r r' :
  l ∈ L -> r ∈ R -> r' ∈ R -> conditionMet condition l r = true -> conditionMet condition l r' = true ->
  agree (map p_right equiPairs) r r'.
Proof.
  intros Hl Hr Hr' Hc Hc' c (p & -> & Hp)%list_elem_of_fmap.
  pose proof (Hcond l r Hl Hr Hc) as H. pose proof (Hcond l r' Hl Hr' Hc') as H'. rewrite Forall_forall in H, H'.
  destruct (H p Hp) as (_ & _ & E), (H' p Hp) as (_ & _ & E'). etrans; [symmetry; exact E|]. done.
Qed.

Lemma matches_short l : key_holds R (map p_right equiPairs) -> l ∈ L -> (length (matches l) <= 1)%nat.
Proof. intros Hk Hl. eapply key_filter_short; [exact Hk|]. intros r r' ????. by eapply matched_right. Qed.

Lemma left_matches_short r :
  key_holds L (map p_left equiPairs) -> r ∈ R -> (length (List.filter (fun l => conditionMet condition l r) L) <= 1)%nat.
Proof. intros Hk Hr. eapply key_filter_short; [exact Hk|]. intros l l' ????. by eapply matched_left. Qed.

Lemma left_rows_part joinType l x :
  l ∈ L -> x ∈ left_rows joinType nr l (matches l) -> forall c, (c < nl)%nat -> cell x c = cell l c.
Proof.
  intros Hl Hx c Hc. rewrite <- (width l Hl) in Hc.
  apply elem_of_left_rows in Hx as [->|[(r & _ & ->)|(_ & _ & ->)]]; [done|by apply cell_app_l..].
Qed.

Lemma left_carries joinType : left_driven joinType = true -> carries left_columns 0 L (output joinType).
Proof.
  intros Hj x. rewrite emitLoopJoin_left by done. intros (l & Hx & Hl)%list_elem_of_bind. exists l. split; [done|].
  intros c Hc. rewrite Nat.add_0_r. by eapply left_rows_part.
Qed.

Lemma right_carries joinType :
  joinType = Inner \/ joinType = Cross \/ joinType = RightOuter -> carries (fun _ => True) nl R (output joinType).
Proof.
  intros Hj x Hx. assert (exists l r, r ∈ R /\ length l = nl /\ x = l ++ r) as (l & r & Hr & Hl & ->).
  - assert ((joinType = Inner \/ joinType = Cross) \/ joinType = RightOuter) as [Hj'| ->] by tauto.
    + rewrite emitLoopJoin_left in Hx by (by destruct Hj' as [-> | ->]). apply list_elem_of_bind in Hx as (l & Hx & Hl).
      apply left_rows_pairs in Hx as (r & [Hr _]%elem_of_matches & ->); [|done]. exists l, r. auto using width.
    + rewrite emitLoopJoin_right in Hx. apply list_elem_of_bind in Hx as (r & Hx & Hr).
      apply elem_of_right_rows in Hx as (l & Hl & ->); [by exists l, r|]. by apply Forall_filter_list.
  - exists r. split; [done|]. intros c _. rewrite <- Hl. apply cell_app_r.
Qed.

(** ** Keys the join keeps *)

Lemma left_key_kept joinType k :
  left_driven joinType = true -> key_holds R (map p_right equiPairs) -> key_holds L k -> Forall left_columns k ->
  key_holds (output joinType) k.
Proof.
  intros Hj HR Hk Hs. rewrite Forall_forall in Hs. rewrite emitLoopJoin_left by done. eapply key_driven; [exact Hk| |].
  - intros l Hl. apply left_rows_short. by apply matches_short.
  - intros l l' x y Hl Hl' Hx Hy Ha c Hc. rewrite <- (left_rows_part _ l x Hl Hx c (Hs c Hc)).
    rewrite <- (left_rows_part _ l' y Hl' Hy c (Hs c Hc)). by apply Ha.
Qed.

Lemma inner_pair joinType l x :
  joinType = Inner \/ joinType = Cross -> l ∈ L -> x ∈ left_rows joinType nr l (matches l) ->
  exists r, r ∈ R /\ conditionMet condition l r = true /\ x = l ++ r /\ forall c, cell x (c + nl) = cell r c.
Proof.
  intros Hj Hl Hx. apply left_rows_pairs in Hx as (r & [Hr Hc]%elem_of_matches & ->); [|done]. exists r. split_and!; try done.
  intros c. rewrite <- (width l Hl). apply cell_app_r.
Qed.

(** The matches of one left row: a key of the right side tells them apart. *)
Lemma inner_rows_key joinType l k :
  joinType = Inner \/ joinType = Cross -> l ∈ L -> key_holds R k ->
  key_holds (left_rows joinType nr l (matches l)) (shift_cols nl k).
Proof.
  intros Hj Hl Hk. apply (key_sublist _ (matches l)) in Hk; [|apply list_filter_sublist].
  assert (left_rows joinType nr l (matches l) = map (fun r => l ++ r) (matches l)) as ->.
  { unfold left_rows. destruct Hj as [-> | ->]; cbn; by rewrite app_nil_r. }
  intros i j x y Hi Hj' Ha. apply list_lookup_fmap_Some in Hi as (r & -> & Hr), Hj' as (r' & -> & Hr').
  apply (Hk i j r r' Hr Hr'). intros c Hc.
  rewrite <- (cell_app_r l r), <- (cell_app_r l r'), (width l Hl). apply Ha, elem_of_shift_cols. eauto.
Qed.

Lemma right_key_kept joinType k :
  joinType = Inner \/ joinType = Cross -> key_holds L (map p_left equiPairs) -> key_holds R k ->
  key_holds (output joinType) (shift_cols nl k).
Proof.
  intros Hj HkL Hk. rewrite emitLoopJoin_left by (by destruct Hj as [-> | ->]). apply key_bind.
  - intros l Hl. by apply inner_rows_key.
  - intros i j l l' x y Hi Hj' Hx Hy Ha. pose proof (list_elem_of_lookup_2 _ _ _ Hi) as Hl.
    pose proof (list_elem_of_lookup_2 _ _ _ Hj') as Hl'.
    destruct (inner_pair _ l x Hj Hl Hx) as (r & Hr & Hc & _ & Er).
    destruct (inner_pair _ l' y Hj Hl' Hy) as (r' & Hr' & Hc' & _ & Er').
    assert (r = r') as <-.
    { apply (key_value R k); [done..|]. intros c Hin. rewrite <- Er, <- Er'. apply Ha, elem_of_shift_cols. eauto. }
    apply (HkL i j l l' Hi Hj'). by apply (matched_left l l' r).
Qed.

Lemma right_outer_key_kept k :
  key_holds L (map p_left equiPairs) -> key_holds R k -> key_holds (output RightOuter) (shift_cols nl k).
Proof.
  intros HkL Hk. rewrite emitLoopJoin_right. eapply key_driven; [exact Hk| |].
  - intros r Hr. apply right_rows_short. by apply left_matches_short.
  - intros r r' x y Hr Hr' Hx Hy Ha c Hc.
    apply elem_of_right_rows in Hx as (l & Hl & ->); [|by apply Forall_filter_list].
    apply elem_of_right_rows in Hy as (l' & Hl' & ->); [|by apply Forall_filter_list].
    rewrite <- (cell_app_r l r), <- (cell_app_r l' r'), Hl, Hl'. apply Ha, elem_of_shift_cols. eauto.
Qed.

(** Without a covered side, a key of each makes a key. *)
Lemma product_key joinType k k' :
  joinType = Inner \/ joinType = Cross -> key_holds L k -> Forall left_columns k -> key_holds R k' ->
  key_holds (output joinType) (k ++ shift_cols nl k').
Proof.
  intros Hj Hk Hs Hk'. rewrite Forall_forall in Hs. rewrite emitLoopJoin_left by (by destruct Hj as [-> | ->]). apply key_bind.
  - intros l Hl. eapply key_holds_mono; [|by apply inner_rows_key]. intros c Hc. apply elem_of_app. by right.
  - intros i j l l' x y Hi Hj' Hx Hy Ha. apply (Hk i j l l' Hi Hj'). intros c Hc.
    rewrite <- (left_rows_part joinType l x (list_elem_of_lookup_2 _ _ _ Hi) Hx c (Hs c Hc)).
    rewrite <- (left_rows_part joinType l' y (list_elem_of_lookup_2 _ _ _ Hj') Hy c (Hs c Hc)).
    apply Ha, elem_of_app. by left.
Qed.

Lemma single_row joinType :
  left_driven joinType = true \/ joinType = RightOuter -> key_holds L [] -> key_holds R [] -> key_holds (output joinType) [].
Proof.
  rewrite !key_empty_iff. intros [Hj| ->] H1 H2.
  - rewrite emitLoopJoin_left by done. apply bind_short; [done|]. intros l Hl. apply left_rows_short.
    etrans; [apply List.filter_length_le|done].
  - rewrite emitLoopJoin_right. apply bind_short; [done|]. intros r Hr. apply right_rows_short.
    etrans; [apply List.filter_length_le|done].
Qed.

Lemma semi_sublist joinType : isSemiOrAnti joinType = true -> output joinType `sublist_of` L.
Proof.
  intros Hj. rewrite emitLoopJoin_left by (by destruct joinType). clear HL Hcond. induction L as [|l L' IH]; [constructor|].
  rewrite bind_cons. unfold left_rows at 1. rewrite Hj. cbn [app].
  destruct joinType; try done; destruct (negb (length (matches l) =? 0)%nat); cbn; by constructor.
Qed.

End Join.

(** ** Shifting by nothing *)

Lemma shiftClause_0 cl : shiftClause 0 cl = cl.
Proof.
  induction cl as [c v|l k|c n|c mn mx i x|l IH] using GuardClause_rect'; cbn; rewrite ?Nat.add_0_r; try done.
  f_equal. induction IH as [|cl l Hcl Hl IHl]; cbn; [done|]. by rewrite Hcl, IHl.
Qed.

Lemma shift_fd_0 fd : shift_fd 0 fd = fd.
Proof.
  destruct fd as [det dep g src ve k]. unfold shift_fd, with_columns. cbn [determinants dependents guard fd_source valueEquality kind].
  rewrite !shift_cols_0. f_equal. destruct g as [g|]; [|done]. cbn. f_equal. unfold shiftGuard. rewrite <- (map_id g) at 2. apply map_ext, shiftClause_0.
Qed.

Lemma map_id_ext {A} (f : A -> A) l : (forall x, f x = x) -> map f l = l.
Proof. intros H. rewrite <- (map_id l) at 2. by apply map_ext. Qed.

Lemma shiftFds_map fds off : shiftFds fds off = map (shift_fd off) fds.
Proof. unfold shiftFds. destruct (Nat.eqb_spec off 0) as [->|]; [by rewrite (map_id_ext _ _ shift_fd_0)|done]. Qed.

Lemma shiftEquivClasses_map classes off : shiftEquivClasses classes off = map (shift_cols off) classes.
Proof.
  unfold shiftEquivClasses. destruct (Nat.eqb_spec off 0) as [->|]; [by rewrite (map_id_ext _ _ shift_cols_0)|done].
Qed.

Lemma shiftDomainConstraints_map domains off :
  shiftDomainConstraints domains off = map (fun d => with_d_column (d_column d + off) d) domains.
Proof.
  unfold shiftDomainConstraints. destruct (Nat.eqb_spec off 0) as [->|]; [|done]. rewrite map_id_ext; [done|].
  intros []; cbn; by rewrite Nat.add_0_r.
Qed.

(** ** The columns of keys *)

Lemma keysOf_columns rel :
  Forall (Forall (fun c => c < rel_columnCount rel)%nat) (rel_keys rel) ->
  Forall (fun fd => Forall (fun c => c < rel_columnCount rel)%nat (determinants fd)) (default [] (rel_fds rel)) ->
  Forall (fun k => NoDup k /\ Forall (fun c => c < rel_columnCount rel)%nat k) (keysOf rel).
Proof.
  intros Hk Hf. set (n := rel_columnCount rel) in *. unfold keysOf. fold n. set (keys := rel_keys rel ++ _ ++ _).
  assert (Forall (Forall (fun c => c < n)%nat) keys) as Hkeys.
  { subst keys. apply Forall_app. split; [done|]. apply Forall_app. split; [destruct (hasSingletonFd _ _ _); repeat constructor|].
    unfold deriveKeysFromFds. destruct (rel_fds rel) as [[|fd0 fds]|]; [constructor| |constructor]. cbn [default] in Hf.
    set (all := fd0 :: fds) in *. assert (forall l state, Forall (fun fd => Forall (fun c => c < n)%nat (determinants fd)) l ->
      Forall (Forall (fun c => c < n)%nat) state.1 ->
      Forall (Forall (fun c => c < n)%nat) (foldl (derive_step all n (rel_isSet rel)) state l).1) as H;
      [|apply H; [done|constructor]].
    induction l as [|fd l IH]; intros [results seen] Hl Hr; cbn [foldl]; [done|]. apply Forall_cons in Hl as [Hfd Hl].
    apply IH; [done|]. unfold derive_step. repeat (case_match; try done). cbn. apply Forall_app. split; [done|].
    constructor; [|constructor]. rewrite Forall_forall in Hfd |- *. intros c. rewrite elem_of_sorted. intros Hc.
    apply Hfd, elem_of_set_of. by apply (proj1 (minimalCover_irredundant (set_of (determinants fd)) all)). }
  destruct (_ && _ && _).
  - constructor; [|constructor]. split; [apply NoDup_seq|]. apply Forall_forall. intros c Hc%elem_of_seq. lia.
  - apply Forall_forall. intros k Hin. pose proof (normalizeKeys_source _ _ Hin) as (k0 & Hk0 & Heq). split.
    + unfold normalizeKeys in Hin. rewrite list_elem_of_In, filter_In, <- list_elem_of_In in Hin. destruct Hin as [Hin _].
      apply uniq_steps in Hin as [Hin|Hin]; [by apply elem_of_nil in Hin|]. apply list_elem_of_fmap in Hin as (k1 & -> & _).
      apply NoDup_sorted, NoDup_set_of.
    + rewrite Forall_forall in Hkeys. specialize (Hkeys k0 Hk0). rewrite Forall_forall in Hkeys |- *.
      intros c Hc. by apply Hkeys, Heq.
Qed.

(** ** One side of a join *)

(** What the planner knows of an input, true of its rows and about its
    columns. *)
Record input (n : nat) (rows : list row) (rel : KeyRel) (ph : PhysicalProperties) : Prop := {
  in_width : Forall (fun r => length r = n) rows;
  in_columns : rel_columnCount rel = n;
  in_describes : describes cmp rows rel;
  in_keys : Forall (Forall (fun c => c < n)%nat) (rel_keys rel);
  in_same_fds : rel_fds rel = ph_fds ph;
  in_facts : facts_hold rows ph;
  in_fds : Forall (fun fd => wf_fd fd /\ fd_scope (fun c => c < n)%nat fd) (default [] (ph_fds ph));
  in_ecs : Forall (Forall (fun c => c < n)%nat) (default [] (ph_equivClasses ph));
  in_bindings : Forall (fun b => Forall (fun c => c < n)%nat (b_attrs b)) (default [] (ph_constantBindings ph));
  in_domains : Forall (fun d => d_column d < n)%nat (default [] (ph_domainConstraints ph))
}.

Lemma input_keys n rows rel ph :
  input n rows rel ph -> Forall (fun k => key_holds rows k /\ NoDup k /\ Forall (fun c => c < n)%nat k) (keysOf rel).
Proof.
  intros H. pose proof (keysOf_sound cmp rows rel (in_describes _ _ _ _ H)) as Hs.
  pose proof (keysOf_columns rel) as Hc. rewrite (in_columns _ _ _ _ H), (in_same_fds _ _ _ _ H) in Hc.
  rewrite Forall_forall in Hs |- *. intros k Hk. split; [auto|].
  enough (Forall (fun k => NoDup k /\ Forall (fun c => c < n)%nat k) (keysOf rel)) as Hf by (rewrite Forall_forall in Hf; auto).
  apply Hc; [by apply (in_keys _ _ _ _ H)|]. eapply Forall_impl; [by apply (in_fds _ _ _ _ H)|]. by intros fd [_ [? _ _]].
Qed.

Lemma selectLexMinKey_elem keys k : selectLexMinKey keys = Some k -> k ∈ keys.
Proof.
  unfold selectLexMinKey. assert (forall keys best, (forall k, best = Some k -> k ∈ keys ++ option_list best) ->
    forall k, foldl lex_min_step best keys = Some k -> k ∈ keys \/ best = Some k) as H.
  { clear. induction keys as [|k0 keys IH]; intros best _ k H; cbn in H; [by right|].
    apply IH in H; [|intros k1 ->; apply elem_of_app; right; by left]. destruct H as [H|H]; [left; by right|].
    unfold lex_min_step in H. destruct k0 as [|c0 k0]; [by right|].
    repeat case_match; simplify_eq; try (left; by left); by right. }
  intros E. by destruct (H keys None (fun _ H => ltac:(done)) k E).
Qed.

(** ** Facts of the join *)

Lemma wf_shift off fd : wf_fd fd -> wf_fd (shift_fd off fd).
Proof. apply NoDup_shift_cols. Qed.

Lemma determination_holds rows fd : fd_holds rows fd -> fd_holds rows (with_kind Determination fd).
Proof. by apply fd_holds_weaken. Qed.

(** The dependencies of a side, downgraded unless the join keeps a key within
    its columns. *)
Lemma kept_fds scope off rows rows' fds (preserved : bool) :
  carries scope off rows rows' -> Forall (fd_holds rows) fds -> Forall (fun fd => wf_fd fd /\ fd_scope scope fd) fds ->
  (preserved = true -> exists k, Forall scope k /\ key_holds rows' (shift_cols off k)) ->
  let kept := map (shift_fd off) (if preserved then fds else downgradeUniqueFds fds) in
  Forall wf_fd kept /\ Forall (fd_holds rows') kept.
Proof.
  intros Hc Hf Hw Hp. cbv zeta. rewrite !Forall_fmap, <- Forall_and. destruct preserved.
  - rewrite Forall_forall in Hf, Hw |- *. intros fd Hfd. destruct (Hw fd Hfd) as [W S]. split; [by apply wf_shift|].
    eapply carry_fd; eauto.
  - unfold downgradeUniqueFds. rewrite Forall_fmap. rewrite Forall_forall in Hf, Hw |- *. intros fd Hfd.
    destruct (Hw fd Hfd) as [W S]. cbn [compose]. destruct (is_unique fd) eqn:Eu.
    + split; [by apply (wf_shift off (with_kind Determination fd))|].
      apply (carry_fd scope off rows rows' Hc (with_kind Determination fd)); [by apply determination_holds, Hf|by destruct S|done].
    + apply bool_decide_eq_false in Eu. split; [by apply wf_shift|]. by apply (carry_fd scope off rows rows' Hc fd); auto.
Qed.

Lemma superkey_holds rows key n fd :
  superkeyToFd key n = Some fd -> key_holds rows key -> NoDup key -> wf_fd fd /\ fd_holds rows fd.
Proof.
  unfold superkeyToFd. destruct (_ =? 0)%nat; [done|]. intros <-%(inj Some) Hk Hn. split; [done|].
  intros i j r r' Hi Hj _ _ Ha. cbn in Ha. pose proof (Hk i j r r' Hi Hj Ha) as <-. split; [|done].
  assert (r = r') as <- by congruence. by intros c _.
Qed.

Lemma withKeyFds_sound rows keys n fds :
  Forall (fun k => key_holds rows k /\ NoDup k) keys -> Forall wf_fd fds -> Forall (fd_holds rows) fds ->
  Forall (fd_holds rows) (withKeyFds keys n fds).
Proof.
  unfold withKeyFds. generalize (mkAddFd keys None). intros opts Hk. revert fds.
  induction Hk as [|k keys [Hk Hn] Hks IH]; intros fds Hw Hf; cbn; [done|].
  destruct (superkeyToFd k n) as [fd|] eqn:E; [|by apply IH]. destruct (superkey_holds rows k n fd E Hk Hn) as [W H].
  destruct (addFd_sound cmp rows fds fd opts) as [W' H']; [done..|]. by apply IH.
Qed.

Lemma add_pairs_sound opts rows pairs nl fds ecs :
  (forall r p, r ∈ rows -> p ∈ pairs -> same (cell r (p_left p)) (cell r (p_right p + nl))) ->
  Forall wf_fd fds -> Forall (fd_holds rows) fds -> Forall (ec_holds rows) ecs ->
  let '(fds', ecs') := foldl (add_pair opts nl) (fds, ecs) pairs in
  Forall wf_fd fds' /\ Forall (fd_holds rows) fds' /\ Forall (ec_holds rows) ecs'.
Proof.
  intros Hp. revert fds ecs. induction pairs as [|p pairs IH]; intros fds ecs Hw Hf He; [done|]. cbn [foldl].
  assert (Hr : forall r, r ∈ rows -> same (cell r (p_left p)) (cell r (p_right p + nl))) by (intros r Hr; apply Hp; [done|left]).
  assert (Hd : forall a b, (forall r, r ∈ rows -> same (cell r a) (cell r b)) -> fd_holds rows (plain_fd [a] [b] Determination)).
  { intros a b H i j r r' Hi%list_elem_of_lookup_2 Hj%list_elem_of_lookup_2 _ _ Ha. split; [|done]. cbn in *.
    intros c ->%list_elem_of_singleton. etrans; [symmetry; by apply H|]. etrans; [|by apply H]. apply Ha. left. }
  destruct (addFd_sound cmp rows fds (plain_fd [p_left p] [p_right p + nl]%nat Determination) opts) as [W1 H1];
    [done|apply NoDup_singleton|done|by apply Hd|].
  destruct (addFd_sound cmp rows _ (plain_fd [p_right p + nl]%nat [p_left p] Determination) opts W1) as [W2 H2];
    [apply NoDup_singleton|done|apply Hd; intros r Hin; symmetry; auto|].
  apply IH; [|done|done|by apply addEquivalence_sound]. intros r q Hin Hq. apply Hp; [done|by right].
Qed.

Lemma carry_ecs scope off rows rows' ecs :
  carries scope off rows rows' -> Forall (ec_holds rows) ecs -> Forall (Forall scope) ecs ->
  Forall (ec_holds rows') (shiftEquivClasses ecs off).
Proof.
  intros Hc He Hs. rewrite shiftEquivClasses_map, Forall_fmap. rewrite Forall_forall in He, Hs |- *.
  intros cls Hin. eapply carry_ec; eauto.
Qed.

Lemma carry_bindings scope off rows rows' bs :
  carries scope off rows rows' -> Forall (binding_holds rows) bs -> Forall (fun b => Forall scope (b_attrs b)) bs ->
  Forall (binding_holds rows') (shiftConstantBindings bs off).
Proof.
  intros Hc Hb Hs. rewrite Forall_forall in Hb, Hs. unfold shiftConstantBindings.
  assert (H : forall b r c, b ∈ bs -> r ∈ rows' -> c ∈ shift_cols off (b_attrs b) -> same (cell r c) (const_value (b_value b))).
  { intros b r c Hin. apply (carry_binding scope off rows rows' Hc b); auto. }
  destruct (Nat.eqb_spec off 0) as [->|]; apply Forall_fmap, Forall_forall; intros b Hin r c Hr; cbn;
    rewrite elem_of_sorted, ?elem_of_set_of; intros Hcol; apply H; rewrite ?shift_cols_0; done.
Qed.

Lemma carry_domains scope off rows rows' ds :
  carries scope off rows rows' -> Forall (domain_holds rows) ds -> Forall (fun d => scope (d_column d)) ds ->
  Forall (domain_holds rows') (shiftDomainConstraints ds off).
Proof.
  intros Hc Hd Hs. rewrite shiftDomainConstraints_map, Forall_fmap. rewrite Forall_forall in Hd, Hs |- *.
  intros d Hin. eapply carry_domain; eauto.
Qed.

Lemma default_some_list {A} (l : list A) : default [] (some_list l) = l.
Proof. by destruct l. Qed.

Lemma wrap_holds rows fds ecs bindings domains :
  Forall (fd_holds rows) fds -> Forall (ec_holds rows) ecs -> Forall (binding_holds rows) bindings ->
  Forall (domain_holds rows) domains -> facts_hold rows (wrap fds ecs bindings domains).
Proof. intros. split; cbn; by rewrite default_some_list. Qed.

Lemma clause_scope_any scope cl : (forall c, scope c) -> clause_scope scope cl.
Proof.
  intros H. induction cl as [| | | |l IH] using GuardClause_rect'; cbn; auto. induction IH; cbn; auto.
Qed.

Lemma fd_scope_any (scope : column -> Prop) fd : (forall c, scope c) -> fd_scope scope fd.
Proof. intros H. split; apply Forall_forall; auto using clause_scope_any. Qed.

Section Propagate.
Context (condition : option (row -> row -> value)) (nl nr : nat) (L R : list row) (equiPairs : list EquiPair).
Context (leftRel rightRel : KeyRel) (leftPhys rightPhys : PhysicalProperties).
Context (HL : input nl L leftRel leftPhys) (HR : input nr R rightRel rightPhys).
Context (Hpairs : Forall (fun p => p_left p < nl)%nat equiPairs).
Context (Hcond : forall l r, l ∈ L -> r ∈ R -> conditionMet condition l r = true ->
  Forall (fun p => sql_equal cmp (cell l (p_left p)) (cell r (p_right p))) equiPairs).

Abbreviation output joinType := (emitLoopJoin joinType None condition nl nr L R).
Abbreviation preserved joinType := (cov_preservedKeys (analyzeJoinKeyCoverage joinType leftRel rightRel equiPairs nl)).
Abbreviation kept rows := (fun k => key_holds rows k /\ NoDup k).

Lemma left_covered : isUnique (map p_left equiPairs) leftRel = true -> key_holds L (map p_left equiPairs).
Proof. apply isUnique_sound. apply HL. Qed.

Lemma right_covered : isUnique (map p_right equiPairs) rightRel = true -> key_holds R (map p_right equiPairs).
Proof. apply isUnique_sound. apply HR. Qed.

Lemma left_keys_kept joinType :
  left_driven joinType = true -> Forall (kept (output joinType)) (if isUnique (map p_right equiPairs) rightRel then keysOf leftRel else []).
Proof.
  intros Hj. destruct (isUnique (map p_right equiPairs) rightRel) eqn:E; [|constructor]. eapply Forall_impl; [by eapply input_keys|].
  intros k (Hk & Hn & Hs). split; [|done]. eapply left_key_kept; eauto using right_covered. apply HL.
Qed.

Lemma right_keys_kept joinType :
  joinType = Inner \/ joinType = Cross \/ joinType = RightOuter ->
  Forall (kept (output joinType)) (if isUnique (map p_left equiPairs) leftRel then map (shift_cols nl) (keysOf rightRel) else []).
Proof.
  intros Hj. destruct (isUnique (map p_left equiPairs) leftRel) eqn:E; [|constructor]. apply Forall_fmap.
  eapply Forall_impl; [by eapply input_keys|]. intros k (Hk & Hn & _). split; [|by apply NoDup_shift_cols].
  assert ((joinType = Inner \/ joinType = Cross) \/ joinType = RightOuter) as [Hj'| ->] by tauto.
  - eapply right_key_kept; eauto using left_covered. apply HL.
  - eapply right_outer_key_kept; eauto using left_covered. apply HL.
Qed.

Lemma single_kept joinType :
  left_driven joinType = true \/ joinType = RightOuter ->
  Forall (kept (output joinType)) (if isAtMostOneRow leftRel && isAtMostOneRow rightRel then [[]] else []).
Proof.
  intros Hj. destruct (isAtMostOneRow leftRel && isAtMostOneRow rightRel) eqn:E; [|constructor]. apply andb_prop in E as [E1 E2].
  constructor; [|constructor]. split; [|constructor]. apply single_row; [done| |].
  - eapply isUnique_sound; [apply HL|done].
  - eapply isUnique_sound; [apply HR|done].
Qed.

Lemma product_kept joinType l r :
  joinType = Inner \/ joinType = Cross -> selectLexMinKey (keysOf leftRel) = Some l ->
  selectLexMinKey (map (shift_cols nl) (keysOf rightRel)) = Some r -> kept (output joinType) (l ++ r).
Proof.
  intros Hj Hl%selectLexMinKey_elem Hr%selectLexMinKey_elem. apply list_elem_of_fmap in Hr as (k & -> & Hk).
  pose proof (input_keys _ _ _ _ HL) as H. pose proof (input_keys _ _ _ _ HR) as H'. rewrite Forall_forall in H, H'.
  destruct (H l Hl) as (Hkl & Hnl & Hsl), (H' k Hk) as (Hkr & Hnr & _). split; [by apply product_key; [apply HL|..]|].
  apply NoDup_app. split; [done|]. split; [|by apply NoDup_shift_cols]. rewrite Forall_forall in Hsl.
  intros c Hc (c' & -> & _)%elem_of_shift_cols. specialize (Hsl _ Hc). lia.
Qed.

Lemma preserved_keys joinType : Forall (kept (output joinType)) (preserved joinType).
Proof.
  destruct joinType; cbn [analyzeJoinKeyCoverage cov_preservedKeys]; rewrite ?Forall_app.
  - split_and!; [by apply left_keys_kept|apply right_keys_kept; auto|by apply single_kept; left|].
    destruct (_ && _); [|constructor]. repeat case_match; try constructor; [|constructor]. eapply product_kept; eauto.
  - split_and!; [by apply left_keys_kept|apply right_keys_kept; auto|by apply single_kept; left|].
    destruct (_ && _); [|constructor]. repeat case_match; try constructor; [|constructor]. eapply product_kept; eauto.
  - split; [by apply left_keys_kept|by apply single_kept; left].
  - split; [apply right_keys_kept; auto|by apply single_kept; right].
  - constructor.
  - eapply Forall_impl; [by eapply input_keys|]. intros k (Hk & Hn & _). split; [|done].
    eapply key_sublist; [by apply semi_sublist|done].
  - eapply Forall_impl; [by eapply input_keys|]. intros k (Hk & Hn & _). split; [|done].
    eapply key_sublist; [by apply semi_sublist|done].
Qed.

(** The dependencies of the sides, as the join keeps them. *)
Lemma kept_left_fds joinType :
  left_driven joinType = true ->
  let fds := if existsb (forallb (fun i => i <? nl)%nat) (preserved joinType) then default [] (ph_fds leftPhys)
             else downgradeUniqueFds (default [] (ph_fds leftPhys)) in
  Forall wf_fd fds /\ Forall (fd_holds (output joinType)) fds.
Proof.
  intros Hj. pose proof (kept_fds (fun c => c < nl)%nat 0 L (output joinType) (default [] (ph_fds leftPhys))
    (existsb (forallb (fun i => i <? nl)%nat) (preserved joinType))) as H.
  rewrite (map_id_ext _ _ shift_fd_0) in H. apply H.
  - by apply left_carries; [apply HL|].
  - apply HL.
  - apply HL.
  - intros (k & Hk & Hs)%existsb_exists_elem. exists k. rewrite shift_cols_0. split.
    + apply Forall_forall. intros c Hc. rewrite forallb_forall in Hs. apply Nat.ltb_lt, Hs. by apply list_elem_of_In.
    + pose proof (preserved_keys joinType) as Hp. rewrite Forall_forall in Hp. by apply Hp.
Qed.

Lemma kept_right_fds joinType :
  joinType = Inner \/ joinType = Cross \/ joinType = RightOuter ->
  let fds := shiftFds (if existsb (forallb (fun i => nl <=? i)%nat) (preserved joinType) then default [] (ph_fds rightPhys)
             else downgradeUniqueFds (default [] (ph_fds rightPhys))) nl in
  Forall wf_fd fds /\ Forall (fd_holds (output joinType)) fds.
Proof.
  intros Hj. cbv zeta. rewrite shiftFds_map. apply (kept_fds (fun _ => True) nl R).
  - by apply right_carries; [apply HL|].
  - apply HR.
  - eapply Forall_impl; [apply (in_fds _ _ _ _ HR)|]. intros fd [W _]. split; [done|]. by apply fd_scope_any.
  - intros (k & Hk & Hs)%existsb_exists_elem. exists (map (fun c => c - nl)%nat k). split; [by apply Forall_forall|].
    pose proof (preserved_keys joinType) as Hp. rewrite Forall_forall in Hp. destruct (Hp k Hk) as [Hkey _].
    eapply key_holds_mono; [|exact Hkey]. intros c Hc. apply elem_of_shift_cols. exists (c - nl)%nat.
    rewrite forallb_forall in Hs. pose proof (Hs c (proj1 (list_elem_of_In _ _) Hc)) as Hle%Nat.leb_le.
    split; [lia|]. apply list_elem_of_fmap. eauto.
Qed.

Lemma inner_pairs_same joinType r p :
  joinType = Inner \/ joinType = Cross -> r ∈ output joinType -> p ∈ equiPairs ->
  same (cell r (p_left p)) (cell r (p_right p + nl)).
Proof.
  intros Hj Hr Hp. rewrite emitLoopJoin_left in Hr by (by destruct Hj as [-> | ->]).
  apply list_elem_of_bind in Hr as (l & Hr & Hl). rewrite Forall_forall in Hpairs.
  rewrite (left_rows_part condition nl nr L R (in_width _ _ _ _ HL) _ l r Hl Hr) by auto.
  destruct (inner_pair condition nl nr L R (in_width _ _ _ _ HL) joinType l r Hj Hl Hr) as (r' & Hr' & Hc & _ & E). rewrite E.
  pose proof (Hcond l r' Hl Hr' Hc) as H. rewrite Forall_forall in H. apply (H p Hp).
Qed.

(** What holds of the columns of a side whose rows the join carries. *)
Lemma left_side_facts joinType :
  left_driven joinType = true ->
  Forall (ec_holds (output joinType)) (default [] (ph_equivClasses leftPhys)) /\
  Forall (binding_holds (output joinType)) (default [] (ph_constantBindings leftPhys)) /\
  Forall (domain_holds (output joinType)) (default [] (ph_domainConstraints leftPhys)).
Proof.
  intros Hd. pose proof (left_carries condition nl nr L R (in_width _ _ _ _ HL) joinType Hd) as C.
  destruct HL as [_ _ _ _ _ [_ He Hb Hdo] _ Se Sb Sd]. split_and!.
  - exact (carry_ecs _ _ _ _ _ C He Se).
  - rewrite Forall_forall in Hb, Sb |- *. intros b Hin r c Hr Hc.
    apply (carry_binding _ _ _ _ C b (Hb b Hin) (Sb b Hin) r c Hr). cbn. by rewrite shift_cols_0.
  - exact (carry_domains _ _ _ _ _ C Hdo Sd).
Qed.

Lemma right_side_facts joinType :
  joinType = Inner \/ joinType = Cross \/ joinType = RightOuter ->
  Forall (ec_holds (output joinType)) (shiftEquivClasses (default [] (ph_equivClasses rightPhys)) nl) /\
  Forall (binding_holds (output joinType)) (shiftConstantBindings (default [] (ph_constantBindings rightPhys)) nl) /\
  Forall (domain_holds (output joinType)) (shiftDomainConstraints (default [] (ph_domainConstraints rightPhys)) nl).
Proof.
  intros Hj. pose proof (right_carries condition nl nr L R (in_width _ _ _ _ HL) joinType Hj) as C.
  destruct HR as [_ _ _ _ _ [_ He Hb Hd] _ _ _ _]. split_and!.
  - apply (carry_ecs _ _ _ _ _ C He). apply Forall_forall. intros cls _. by apply Forall_forall.
  - apply (carry_bindings _ _ _ _ _ C Hb). apply Forall_forall. intros b _. by apply Forall_forall.
  - apply (carry_domains _ _ _ _ _ C Hd). by apply Forall_forall.
Qed.

Lemma inner_facts joinType :
  joinType = Inner \/ joinType = Cross ->
  facts_hold (output joinType)
    (propagateJoinFds joinType leftPhys rightPhys equiPairs nl (nl + nr) (preserved joinType)).
Proof.
  intros Hj. assert (left_driven joinType = true) as Hd by (by destruct Hj as [-> | ->]).
  assert (joinType = Inner \/ joinType = Cross \/ joinType = RightOuter) as Hj' by tauto.
  destruct (left_side_facts joinType Hd) as (E1 & B1 & D1). destruct (right_side_facts joinType Hj') as (E2 & B2 & D2).
  destruct (kept_left_fds joinType Hd) as [W1 F1]. destruct (kept_right_fds joinType Hj') as [W2 F2].
  destruct (mergeFds_sound cmp (output joinType) _ _ (mkAddFd (preserved joinType) None) W1 W2 F1 F2) as [W3 F3].
  pose proof (add_pairs_sound (mkAddFd (preserved joinType) None) (output joinType) equiPairs nl _ _
    (fun r p => inner_pairs_same joinType r p Hj) W3 F3 (mergeEquivClasses_sound _ _ _ E1 E2)) as HP.
  unfold propagateJoinFds. destruct Hj as [-> | ->].
  - destruct (foldl _ _ equiPairs) as [fds ecs]. destruct HP as (W & F & E). apply wrap_holds; [|done| |].
    + by apply withKeyFds_sound; [apply preserved_keys|..].
    + apply closeConstantBindingsOverEcs_sound; [|done]. by apply mergeConstantBindings_sound.
    + by apply mergeDomainConstraints_Forall.
  - destruct (foldl _ _ equiPairs) as [fds ecs]. destruct HP as (W & F & E). apply wrap_holds; [|done| |].
    + by apply withKeyFds_sound; [apply preserved_keys|..].
    + apply closeConstantBindingsOverEcs_sound; [|done]. by apply mergeConstantBindings_sound.
    + by apply mergeDomainConstraints_Forall.
Qed.

Lemma left_facts n :
  facts_hold (output LeftOuter) (propagateJoinFds LeftOuter leftPhys rightPhys equiPairs nl n (preserved LeftOuter)).
Proof.
  destruct (left_side_facts LeftOuter eq_refl) as (E & B & D). destruct (kept_left_fds LeftOuter eq_refl) as [W F].
  apply wrap_holds; [|done..]. by apply withKeyFds_sound; [apply preserved_keys|..].
Qed.

Lemma right_outer_facts n :
  facts_hold (output RightOuter) (propagateJoinFds RightOuter leftPhys rightPhys equiPairs nl n (preserved RightOuter)).
Proof.
  destruct (right_side_facts RightOuter) as (E & B & D); [auto|]. destruct (kept_right_fds RightOuter) as [W F]; [auto|].
  apply wrap_holds; [|done..]. by apply withKeyFds_sound; [apply preserved_keys|..].
Qed.

Lemma semi_facts joinType n :
  isSemiOrAnti joinType = true ->
  facts_hold (output joinType) (propagateJoinFds joinType leftPhys rightPhys equiPairs nl n (preserved joinType)).
Proof.
  intros Hj. assert (left_driven joinType = true) as Hd by (by destruct joinType).
  destruct (left_side_facts joinType Hd) as (E & B & D).
  pose proof (fh_fds _ _ (in_facts _ _ _ _ HL)) as F. pose proof (in_fds _ _ _ _ HL) as W.
  assert (Forall wf_fd (default [] (ph_fds leftPhys))) as W' by (eapply Forall_impl; [exact W|]; by intros fd [? _]).
  assert (Forall (fd_holds (output joinType)) (default [] (ph_fds leftPhys))) as F'.
  { eapply Forall_impl; [exact F|]. intros fd. apply fd_sublist. by apply semi_sublist. }
  unfold propagateJoinFds. destruct joinType; try done; (apply wrap_holds; [|done..]);
    by apply withKeyFds_sound; [apply preserved_keys|..].
Qed.

(** C34: What the planner claims of a join is true of the rows it produces.
    Take two inputs whose keys, set-ness, functional dependencies,
    equivalence classes, constant bindings and value domains are true of
    their rows, and a condition that implies the equi-pairs.  Then every key
    that [analyzeJoinKeyCoverage] preserves is a key of the rows of the join,
    and every fact that [propagateJoinFds] derives (dependencies with their
    uniqueness, classes, bindings, domains) is true of them, for each of the
    seven join types. *)
Theorem join_facts_sound joinType :
  let rows := emitLoopJoin joinType None condition nl nr L R in
  let keys := cov_preservedKeys (analyzeJoinKeyCoverage joinType leftRel rightRel equiPairs nl) in
  let columns := if isSemiOrAnti joinType then nl else (nl + nr)%nat in
  Forall (key_holds rows) keys /\
  facts_hold rows (propagateJoinFds joinType leftPhys rightPhys equiPairs nl columns keys).
Proof.
  cbv zeta. pose proof (preserved_keys joinType) as Hk. split; [eapply Forall_impl; [exact Hk|]; by intros k [? _]|].
  destruct (left_driven joinType) eqn:Hd.
  2: { destruct joinType; try discriminate Hd; [by apply right_outer_facts|split; constructor]. }
  destruct joinType; try discriminate Hd; [apply inner_facts; auto|apply inner_facts; auto|by apply left_facts| |]; by apply semi_facts.
Qed.

End Propagate.

(** ** Facts of listed rows *)

Definition agreeb (cols : list column) (r r' : row) : bool := forallb (fun c => bool_decide (cmp (cell r c) (cell r' c) = Eq)) cols.

Definition pairs_check (rows : list row) (f : bool -> row -> row -> bool) : bool :=
  forallb (fun p => forallb (fun q => f (p.1 =? q.1)%nat p.2 q.2) (imap pair rows)) (imap pair rows).

Definition key_check (rows : list row) (k : list column) : bool := pairs_check rows (fun eq r r' => eq || negb (agreeb k r r')).

Definition fd_check (rows : list row) (fd : FunctionalDependency) : bool :=
  pairs_check rows (fun eq r r' =>
    negb (agreeb (determinants fd) r r') || agreeb (dependents fd) r r' && (eq || negb (is_unique fd))).

Lemma agreeb_spec cols r r' : agreeb cols r r' = true <-> agree cols r r'.
Proof.
  unfold agreeb. rewrite forallb_forall. split; intros H c Hc.
  - exact (proj1 (bool_decide_eq_true _) (H c (proj1 (list_elem_of_In _ _) Hc))).
  - apply (proj2 (bool_decide_eq_true _)), H. by apply list_elem_of_In.
Qed.

Lemma pairs_check_spec rows f i j r r' :
  pairs_check rows f = true -> rows !! i = Some r -> rows !! j = Some r' -> f (i =? j)%nat r r' = true.
Proof.
  unfold pairs_check. rewrite forallb_forall. intros H Hi Hj.
  assert (Hin : forall n x, rows !! n = Some x -> In (n, x) (imap pair rows)).
  { intros n x Hn. apply list_elem_of_In, list_elem_of_lookup. exists n. by rewrite list_lookup_imap, Hn. }
  specialize (H _ (Hin _ _ Hi)). rewrite forallb_forall in H. apply (H _ (Hin _ _ Hj)).
Qed.

Lemma key_check_sound rows k : key_check rows k = true -> key_holds rows k.
Proof.
  intros H i j r r' Hi Hj Ha%agreeb_spec. pose proof (pairs_check_spec _ _ _ _ _ _ H Hi Hj) as Hf. cbn in Hf.
  rewrite Ha, orb_false_r in Hf. by apply Nat.eqb_eq.
Qed.

Lemma fd_check_sound rows fd : fd_check rows fd = true -> fd_holds rows fd.
Proof.
  intros H i j r r' Hi Hj _ _ Ha%agreeb_spec. pose proof (pairs_check_spec _ _ _ _ _ _ H Hi Hj) as Hf. cbn in Hf.
  rewrite Ha in Hf. cbn in Hf. apply andb_prop in Hf as [Hd%agreeb_spec Hk]. split; [done|]. intros Hu.
  unfold is_unique in Hk. rewrite (bool_decide_eq_true_2 _ Hu), orb_false_r in Hk. by apply Nat.eqb_eq.
Qed.

End Facts.

(** ** Values under BINARY *)

(** The identity of the engine: the order of [compareSqlValuesFast] under
    BINARY. *)
#[global] Instance binary_identity : Identity (value_compare (lex rank_cmp)).
Proof.
  split; [apply value_compare_laws; apply _|]. pose proof (value_compare_laws (lex rank_cmp) _) as HL.
  intros v w H. destruct v, w; try done; cbn in H.
  - apply andb_prop in H as [H Hc%Z.eqb_eq]. apply andb_prop in H as [H1 H2].
    unfold value_compare. cbn [getStorageClass class_num num_part numeric_of text_part blob_part obj_part cmp_then Z.compare].
    rewrite <- compareNumbers_sgn by (unfold not_nan; intros E; unfold is_nan in *; by rewrite E in * ). by rewrite Hc.
  - apply Z.eqb_eq in H as ->. apply (cmp_refl _).
  - apply eqb_prop in H as ->. apply (cmp_refl _).
  - apply bool_decide_eq_true in H as ->. apply (cmp_refl _).
  - apply bool_decide_eq_true in H as ->. apply (cmp_refl _).
Qed.

Module Sales.

(** Orders (id, customer) with the key [id], against customers (id, name, tier)
    with the key [id], a tier within 1..3 and a name that determines it. *)
Definition orders : list row := [[VBigint 1; VBigint 7]; [VBigint 2; VBigint 7]; [VBigint 3; VBigint 8]].
Definition customers : list row :=
  [[VBigint 7; VText (js "Ann"); VBigint 1]; [VBigint 8; VText (js "Bob"); VBigint 3]; [VBigint 9; VText (js "Eve"); VBigint 2]].
Definition order_fds := [plain_fd [0] [1] Unique]%nat.
Definition customer_fds := [plain_fd [0] [1; 2] Unique; plain_fd [1] [2] Determination]%nat.
Definition order_rel : KeyRel := mkRel [[0%nat]] true 2 (Some order_fds).
Definition customer_rel : KeyRel := mkRel [[0%nat]] true 3 (Some customer_fds).
Definition order_phys : PhysicalProperties := mkPhysical (Some order_fds) None None None None.
Definition customer_phys : PhysicalProperties :=
  mkPhysical (Some customer_fds) None None (Some [DRange 2 (Some (VBigint 1)) (Some (VBigint 3)) true true None]) None.
Definition on_customer : row -> row -> value := fun l r =>
  VBool (bool_decide (value_compare (lex rank_cmp) (cell l 1) (cell r 0) = Eq) && negb (is_null (cell l 1)) && negb (is_null (cell r 0))).
Definition pairs : list EquiPair := [mkPair 1 0].
Definition no_params : ParamRef -> value := fun _ => VNull.

Abbreviation binary := (value_compare (lex rank_cmp)).

Lemma checked (rows : list row) keys fds :
  forallb (key_check binary rows) keys && forallb (fd_check binary rows) fds = true ->
  Forall (FdLaws.key_holds binary rows) keys /\ Forall (FdLaws.fd_holds binary rows) fds.
Proof.
  rewrite andb_true_iff, !forallb_forall, !Forall_forall. intros [H1 H2]. split.
  - intros k Hk. by apply key_check_sound, H1, list_elem_of_In.
  - intros fd Hfd. by apply (fd_check_sound binary), H2, list_elem_of_In.
Qed.

Lemma columns_below (n : nat) l : forallb (fun c => c <? n)%nat l = true -> Forall (fun c => c < n)%nat l.
Proof. rewrite forallb_forall, Forall_forall. intros H c Hc. by apply Nat.ltb_lt, H, list_elem_of_In. Qed.

Lemma plain_fd_ok (n : nat) det dep k :
  NoDup det -> forallb (fun c => c <? n)%nat (det ++ dep) = true ->
  wf_fd (plain_fd det dep k) /\ fd_scope (fun c => c < n)%nat (plain_fd det dep k).
Proof. intros Hn H%columns_below. apply Forall_app in H as [H1 H2]. split; [done|]. by split; [| |constructor]. Qed.

Lemma orders_input : input binary no_params 2 orders order_rel order_phys.
Proof.
  destruct (checked orders [[0%nat]; [0; 1]%nat] order_fds) as [Hk Hf]; [by vm_compute|].
  apply Forall_cons in Hk as [H0 Hk]. apply Forall_cons in Hk as [H1 _].
  split; [by repeat constructor|done|split; [by repeat constructor|done|done]|by apply Forall_singleton, columns_below|done| | | | |].
  - by split; [|constructor..].
  - constructor; [|constructor]. apply plain_fd_ok; [apply NoDup_singleton|done].
  - constructor.
  - constructor.
  - constructor.
Qed.

Lemma customers_input : input binary no_params 3 customers customer_rel customer_phys.
Proof.
  destruct (checked customers [[0%nat]; [0; 1; 2]%nat] customer_fds) as [Hk Hf]; [by vm_compute|].
  apply Forall_cons in Hk as [H0 Hk]. apply Forall_cons in Hk as [H1 _].
  split; [by repeat constructor|done|split; [by repeat constructor|done|done]|by apply Forall_singleton, columns_below|done| | | | |].
  - split; [done|constructor|constructor|]. constructor; [|constructor]. intros r. unfold customers.
    rewrite !elem_of_cons, elem_of_nil. intros [->|[->|[->|[]]]]; right; vm_compute; auto.
  - constructor; [|constructor; [|constructor]]; (apply plain_fd_ok; [apply NoDup_singleton|done]).
  - constructor.
  - constructor.
  - constructor; [|constructor]. cbn. lia.
Qed.

End Sales.

Lemma join_facts_sound_witness :
  let rows := emitLoopJoin Inner None (Some Sales.on_customer) 2 3 Sales.orders Sales.customers in
  rows = [[VBigint 1; VBigint 7; VBigint 7; VText (js "Ann"); VBigint 1]; [VBigint 2; VBigint 7; VBigint 7; VText (js "Ann"); VBigint 1];
          [VBigint 3; VBigint 8; VBigint 8; VText (js "Bob"); VBigint 3]] /\
  FdLaws.key_holds (value_compare (lex rank_cmp)) rows [0%nat] /\
  FdLaws.ec_holds (value_compare (lex rank_cmp)) rows [1; 2]%nat.
Proof.
  destruct (join_facts_sound (value_compare (lex rank_cmp)) Sales.no_params (Some Sales.on_customer) 2 3 Sales.orders Sales.customers
    Sales.pairs Sales.order_rel Sales.customer_rel Sales.order_phys Sales.customer_phys Sales.orders_input Sales.customers_input)
    with (joinType := Inner) as [Hk [_ He _ _]].
  - repeat constructor.
  - intros l r _ _ H. apply andb_prop in H as [H Hr%negb_true_iff]. apply andb_prop in H as [H%bool_decide_eq_true Hl%negb_true_iff].
    constructor; [by split_and!|constructor].
  - split; [by vm_compute|]. split.
    + apply Forall_inv in Hk. exact Hk.
    + apply Forall_inv in He. exact He.
Defined.

End JoinFacts.
