(* ===== verification/RowOps.v ===== *)
(** * Row operators at run time

    The operators above scans and joins ([runtime/emit/]): filters with their
    conjuncts ([filter.ts], [predicate-conjuncts.ts]), DISTINCT ([distinct.ts]),
    the set operations with their membership flags ([set-operation.ts]), LIMIT
    and OFFSET ([limit-offset.ts]), ORDER BY ([sort.ts]) and GROUP BY by hashing
    and by streaming ([hash-aggregate.ts], [aggregate.ts],
    [aggregate-setup.ts]).  A generator is the rows it yields and the error that
    ends it, if one does; the sets of rows are the trees of [BTree]. *)

From S2P Require Import Prelude.
From S2P Require Import Bytes.
From S2P Require Import Double.
From S2P Require Import Decimal.
From S2P Require Import NumberText.
From S2P Require Import Utf8.
From S2P Require Import Json.
From S2P Require Import Comparison.
From S2P Require Import KeySerializer.
From S2P Require Import BTree.
From S2P Require Import VTab.
From S2P Require Import Types.
From S2P Require Import Collations.
From S2P Require Import Fds.
From S2P Require Import Joins.
From Stdlib Require Import ZArith Lia.
From stdpp Require Import sorting.
From stdpp Require Import base tactics numbers sets gmap list.
#[local] Open Scope Z_scope.

Import Double Decimal NumberText Utf8 Json Comparison KeySerializer BTree VTab Types Collations Fds Joins.

Module RowOps.

Abbreviation value := SqlValue.
Abbreviation row := (list SqlValue).

(** What a generator yields, and the error that ends it. *)
Abbreviation yields A := (list A * option js_error)%type.

(** ** Conjuncts *)

(** A predicate as its conjunction tree; anything else is a leaf, by what it
    evaluates to on the current row. *)
Inductive Pred : Type :=
| AndNode (l r : Pred)
| LeafNode (run : row -> res value).

(** The stack of [splitOn], top first. *)
Fixpoint pred_size (p : Pred) : nat :=
  match p with
  | AndNode l r => S (pred_size l + pred_size r)
  | LeafNode _ => 1
  end.

Fixpoint splitOn (fuel : nat) (stack : list Pred) (result : list (row -> res value)) : list (row -> res value) :=
  match fuel, stack with
  | _, [] | O, _ => result
  | S fuel', n :: stack' =>
    match n with
    | AndNode l r => splitOn fuel' (l :: r :: stack') result
    | LeafNode run => splitOn fuel' stack' (result ++ [run])
    end
  end.

Definition splitConjuncts (pred : Pred) : list (row -> res value) := splitOn (pred_size pred) [pred] [].

(** Evaluation of the whole tree by the logical operator. *)
Fixpoint run_pred (p : Pred) (r : row) : res value :=
  match p with
  | AndNode a b => let* x := run_pred a r in let* y := run_pred b r in Ok (combineLogical And x y)
  | LeafNode run => run r
  end.

(** ** Filter *)

Definition asPredicateScalar (v : value) : res value :=
  match v with
  | VObject _ => Throw EInternal
  | _ => Ok v
  end.

Definition evaluatePredicate (predicate : row -> res value) (r : row) : res bool :=
  let* result := predicate r in
  let* scalar := asPredicateScalar result in
  Ok (isTruthy scalar).

(** The conjuncts in order, up to the first that is not true. *)
Fixpoint keep_row (predicates : list (row -> res value)) (r : row) : res bool :=
  match predicates with
  | [] => Ok true
  | predicate :: predicates' =>
    let* decision := evaluatePredicate predicate r in
    if negb decision then Ok false else keep_row predicates' r
  end.

Fixpoint filter_rows (predicates : list (row -> res value)) (source : list row) : yields row :=
  match source with
  | [] => ([], None)
  | sourceRow :: source' =>
    match keep_row predicates sourceRow with
    | Throw e => ([], Some e)
    | Ok keep =>
      let '(rows, err) := filter_rows predicates source' in
      ((if keep then [sourceRow] else []) ++ rows, err)
    end
  end.

Definition emitFilter (predicate : Pred) (source : list row) : yields row := filter_rows (splitConjuncts predicate) source.

(** ** Limit and offset *)

(** [String(v)] of a JSON value. *)
Fixpoint json_toString (v : JSONValue) : jsstring :=
  match v with
  | JNull => js "null"
  | JBool b => if b then js "true" else js "false"
  | JNumber d => number_to_string d
  | JString s => s
  | JArray l =>
    let parts := map (fun x => match x with JNull => [] | _ => json_toString x end) l in
    match parts with
    | [] => []
    | p :: parts' => p ++ concat (map (cons 44) parts')
    end
  | JObject _ => js "[object Object]"
  end.

(** [Number(v)]. *)
Definition Number_of_value (v : value) : double :=
  match v with
  | VNull => double_of_Z 0
  | VNumber d => d
  | VBigint n => Number_of_BigInt n
  | VBool b => double_of_Z (if b then 1 else 0)
  | VText s => Number_of_string s
  | VBlob b => Number_of_string (join_bytes b)
  | VObject o => Number_of_string (json_toString o)
  end.

(** Both bounds in the units of [num_of_double], so that a fraction is exact. *)
Record RowWindow := mkWindow { w_limit : Z; w_offset : Z }.

(** [x < 0 || !Number.isFinite(x) ? 0 : x]. *)
Definition clamp (x : num) : Z :=
  match x with
  | NFin n => if n <? 0 then 0 else n
  | _ => 0
  end.

Definition resolveWindow (limitValue offsetValue : value) : RowWindow :=
  let limit := if is_null limitValue then NPosInf else num_of_double (Number_of_value limitValue) in
  let offset := if is_null offsetValue then NFin 0 else num_of_double (Number_of_value offsetValue) in
  mkWindow (clamp limit) (clamp offset).

(** The rows yielded and the number of rows pulled from the source. *)
Fixpoint limit_loop (drain : bool) (limit offset : Z) (skipped emitted : Z) (source : list row) : list row * nat :=
  match source with
  | [] => ([], 0%nat)
  | r :: source' =>
    if skipped * UNIT <? offset then
      let '(rows, pulled) := limit_loop drain limit offset (skipped + 1) emitted source' in (rows, S pulled)
    else if limit <=? emitted * UNIT then
      let '(rows, pulled) := limit_loop drain limit offset skipped emitted source' in (rows, S pulled)
    else if (limit <=? (emitted + 1) * UNIT) && negb drain then ([r], 1%nat)
    else
      let '(rows, pulled) := limit_loop drain limit offset skipped (emitted + 1) source' in (r :: rows, S pulled)
  end.

(** [drain]: the source writes. *)
Definition emitLimitOffset (drain : bool) (limitValue offsetValue : value) (source : list row) : list row * nat :=
  let w := resolveWindow limitValue offsetValue in
  if (w_limit w <=? 0) && negb drain then ([], 0%nat)
  else limit_loop drain (w_limit w) (w_offset w) 0 0 source.

Section Operators.
Context (collations : registry) {T : Type -> Type} `{!BTree T}.

(** [type.collationName ? ctx.resolveCollation(type.collationName) : BINARY_COLLATION]. *)
Definition column_collation (type : ScalarType) : res CollationFunction :=
  match s_collationName type with
  | Some (u :: name) => resolveCollation collations (u :: name)
  | _ => Ok BINARY_COLLATION
  end.

(** ** Sort *)

Record SortKey := mkSortKey {
  sk_type : ScalarType;
  sk_run : row -> value;
  sk_desc : bool;
  sk_nulls : option bool
}.

Definition sort_comparator (key : SortKey) : res (value -> value -> Z) :=
  let* collationFunc := column_collation (sk_type key) in
  Ok (createTypedOrderByComparator (Some (s_logicalType (sk_type key))) (sk_desc key) (sk_nulls key) collationFunc).

Definition emitSort (sortKeys : list SortKey) (source : list row) : res (list row) :=
  let* sortKeyComparators := res_map sort_comparator sortKeys in
  let rowsWithKeys := map (fun r => (r, map (fun key => sk_run key r) sortKeys)) source in
  Ok (map fst (js_sort (fun a b : row * list value => row_loop sortKeyComparators (snd a) (snd b)) rowsWithKeys)).

(** ** Distinct *)

(** [tree.insert(v)] on a tree whose entries are their own keys: whether the
    path it returns is on the entry it added. *)
Definition tree_insert {V} (cmp : V -> V -> Z) (tree : T V) (v : V) : T V * bool :=
  match bt_get id cmp tree v with
  | Some _ => (tree, false)
  | None => (bt_upsert id cmp tree v, true)
  end.

(** [tree.find(v).on]. *)
Definition tree_has {V} (cmp : V -> V -> Z) (tree : T V) (v : V) : bool := bool_decide (is_Some (bt_find id cmp tree v).1.2).

(** The row-identity comparator of the columns of a relation. *)
Definition row_comparator (types : list ScalarType) : res (row -> row -> Z) :=
  let* collationFuncs := res_map column_collation types in
  Ok (createSemanticRowComparator (map (fun t => Some (s_logicalType t)) types) collationFuncs).

(** The rows a tree has not seen, and the tree after them. *)
Fixpoint distinct_rows (cmp : row -> row -> Z) (tree : T row) (source : list row) : list row * T row :=
  match source with
  | [] => ([], tree)
  | sourceRow :: source' =>
    let '(tree', on) := tree_insert cmp tree sourceRow in
    let '(rows, tree'') := distinct_rows cmp tree' source' in
    ((if on then [sourceRow] else []) ++ rows, tree'')
  end.

Definition emitDistinct (types : list ScalarType) (source : list row) : res (list row) :=
  let* collationRowComparator := row_comparator types in
  Ok (distinct_rows collationRowComparator bt_empty source).1.

(** ** Set operations *)

Inductive SetOp : Type := UnionAll | Union | Intersect | Except.

Definition insert_all (cmp : row -> row -> Z) (tree : T row) (rows : list row) : T row :=
  foldl (fun tree r => (tree_insert cmp tree r).1) tree rows.

Definition createOutputRow (dataColCount : nat) (inputRow : row) : row := map (row_at inputRow) (seq 0 dataColCount).

Definition runUnionAll (n : nat) (leftRows rightRows : list row) : list row :=
  map (createOutputRow n) leftRows ++ map (createOutputRow n) rightRows.

Definition runUnionDistinct (n : nat) (cmp : row -> row -> Z) (leftRows rightRows : list row) : list row :=
  let '(rows, tree) := distinct_rows cmp bt_empty (map (createOutputRow n) leftRows) in
  rows ++ (distinct_rows cmp tree (map (createOutputRow n) rightRows)).1.

(** The left row equal to each right row, once. *)
Fixpoint intersect_rows (cmp : row -> row -> Z) (leftTree yielded : T row) (rightRows : list row) : list row :=
  match rightRows with
  | [] => []
  | outputRow :: rightRows' =>
    if tree_has cmp leftTree outputRow then
      match bt_get id cmp leftTree outputRow with
      | Some leftRow =>
        let '(yielded', on) := tree_insert cmp yielded leftRow in
        (if on then [leftRow] else []) ++ intersect_rows cmp leftTree yielded' rightRows'
      | None => intersect_rows cmp leftTree yielded rightRows'
      end
    else intersect_rows cmp leftTree yielded rightRows'
  end.

Definition runIntersect (n : nat) (cmp : row -> row -> Z) (leftRows rightRows : list row) : list row :=
  let leftTree := insert_all cmp bt_empty (map (createOutputRow n) leftRows) in
  intersect_rows cmp leftTree bt_empty (map (createOutputRow n) rightRows).

Definition runExcept (n : nat) (cmp : row -> row -> Z) (leftRows rightRows : list row) : list row :=
  let rightTree := insert_all cmp bt_empty (map (createOutputRow n) rightRows) in
  let leftRowsArray := map (createOutputRow n) leftRows in
  (distinct_rows cmp bt_empty (List.filter (fun r => negb (tree_has cmp rightTree r)) leftRowsArray)).1.

(** The flag slice of the stored row of an operand, or false for each. *)
Definition flags_for (cmp : row -> row -> Z) (n flagCount : nat) (set : T row) (data : row) : row :=
  if (flagCount =? 0)%nat then []
  else
    match bt_get id cmp set data with
    | Some stored => take flagCount (drop n stored)
    | None => replicate flagCount (VBool false)
    end.

(** [[data] ++ [L flags] ++ [R flags] ++ [own flags]]. *)
Definition surface (cmp : row -> row -> Z) (n leftFlagCount rightFlagCount : nat) (membership : list FlagSide)
    (leftSet rightSet : T row) (data : row) : row :=
  data ++ flags_for cmp n leftFlagCount leftSet data ++ flags_for cmp n rightFlagCount rightSet data ++
  map (fun branch => VBool (tree_has cmp (match branch with FlagLeft => leftSet | FlagRight => rightSet end) data)) membership.

Definition runWithSurfacedFlags (op : SetOp) (n leftColumns rightColumns : nat) (membership : list FlagSide)
    (cmp : row -> row -> Z) (leftRows rightRows : list row) : list row :=
  let leftSet := insert_all cmp bt_empty leftRows in
  let rightSet := insert_all cmp bt_empty rightRows in
  let show := surface cmp n (leftColumns - n) (rightColumns - n) membership leftSet rightSet in
  let leftData := map (createOutputRow n) leftRows in
  let rightData := map (createOutputRow n) rightRows in
  match op with
  | UnionAll => map show leftData ++ map show rightData
  | Union => map show (distinct_rows cmp bt_empty (leftData ++ rightData)).1
  | Intersect => map show (distinct_rows cmp bt_empty (List.filter (tree_has cmp rightSet) leftData)).1
  | Except => map show (distinct_rows cmp bt_empty (List.filter (fun d => negb (tree_has cmp rightSet d)) leftData)).1
  end.

Definition emitSetOperation (op : SetOp) (dataTypes : list ScalarType) (leftColumns rightColumns : nat)
    (membership : list FlagSide) (hasSurfacedFlags : bool) (leftRows rightRows : list row) : res (list row) :=
  let* dataComparator := row_comparator dataTypes in
  let n := length dataTypes in
  Ok (if hasSurfacedFlags then runWithSurfacedFlags op n leftColumns rightColumns membership dataComparator leftRows rightRows
      else match op with
           | UnionAll => runUnionAll n leftRows rightRows
           | Union => runUnionDistinct n dataComparator leftRows rightRows
           | Intersect => runIntersect n dataComparator leftRows rightRows
           | Except => runExcept n dataComparator leftRows rightRows
           end).

(** ** Aggregates *)

(** An aggregate function bound to its call site; [Acc] are the interim values,
    which can be anything.  A step and the final value can throw. *)
Context {Acc : Type}.

Record AggregateSchema := mkAggregate {
  initialValue : Acc;
  stepFunction : Acc -> list value -> res Acc;
  finalizeFunction : Acc -> res value
}.

Record AggregateCall := mkCall {
  agg_schema : AggregateSchema;
  agg_name : jsstring;
  agg_args : list (ScalarType * (row -> res value));
  agg_isDistinct : bool
}.

Record GroupExpr := mkGroupExpr { ge_type : ScalarType; ge_run : row -> res value }.

(** The comparison context of an argument: a missing collation stays undefined. *)
Definition arg_collation (type : ScalarType) : res (option CollationFunction) :=
  match s_collationName type with
  | Some (u :: name) => let* f := resolveCollation collations (u :: name) in Ok (Some f)
  | _ => Ok None
  end.

Definition argComparator (type : ScalarType) : res (value -> value -> Z) :=
  let* collation := arg_collation type in
  Ok (createTypedComparator (s_logicalType type) collation).

(** Arguments are compared as a tuple; no argument distinguishes nothing. *)
Definition buildDistinctComparator (agg : AggregateCall) : res (list value -> list value -> Z) :=
  let* argComparators := res_map argComparator (map fst (agg_args agg)) in
  Ok (row_loop argComparators).

Context (toUpperCase : jsstring -> jsstring).

Definition computeAggregateValueTransform (agg : AggregateCall) : option (value -> res value) :=
  if negb (aggregateCoercesArguments toUpperCase (agg_name agg)) then None
  else
    let types := map (fun a => s_logicalType (fst a)) (agg_args agg) in
    let skip :=
      negb (length types =? 0)%nat && (forallb t_isNumeric types || forallb is_semantic types) in
    if skip then None else Some coerceAggregateValue.

(** Arguments in order, up to the first that throws. *)
Definition evalArgsSync (fns : list (row -> res value)) (transform : option (value -> res value)) (r : row) : res (list value) :=
  res_map (fun fn =>
    let* raw := fn r in
    match transform with Some t => t raw | None => Ok raw end) fns.

Definition eval_call (agg : AggregateCall) (r : row) : res (list value) :=
  evalArgsSync (map snd (agg_args agg)) (computeAggregateValueTransform agg) r.

(** The accumulator of an aggregate and, for DISTINCT, the set of values seen. *)
Abbreviation accumulator := (Acc * option (T (list value)))%type.

Definition fresh (agg : AggregateCall) : accumulator :=
  (initialValue (agg_schema agg), if agg_isDistinct agg then Some bt_empty else None).

Definition step_value (agg : AggregateCall) (cmp : list value -> list value -> Z) (a : accumulator) (argValues : list value)
    : res accumulator :=
  match a.2 with
  | Some tree =>
    let '(tree', on) := tree_insert cmp tree argValues in
    if on then let* acc := stepFunction (agg_schema agg) a.1 argValues in Ok (acc, Some tree') else Ok (a.1, Some tree')
  | None => let* acc := stepFunction (agg_schema agg) a.1 argValues in Ok (acc, None)
  end.

(** Each aggregate of a row: evaluate its arguments, then step. *)
Fixpoint step_each (calls : list (AggregateCall * (list value -> list value -> Z))) (accs : list accumulator) (r : row)
    : res (list accumulator) :=
  match calls, accs with
  | (agg, cmp) :: calls', a :: accs' =>
    let* argValues := eval_call agg r in
    let* a' := step_value agg cmp a argValues in
    let* rest := step_each calls' accs' r in
    Ok (a' :: rest)
  | _, _ => Ok []
  end.

Definition finalize (calls : list (AggregateCall * (list value -> list value -> Z))) (accs : list accumulator) : res row :=
  res_map (fun p : (AggregateCall * (list value -> list value -> Z)) * accumulator => finalizeFunction (agg_schema p.1.1) p.2.1)
    (zip calls accs).

(** A yielded row, with the source row that is in context while it is
    consumed. *)
Abbreviation yielded_row := (row * option row)%type.

(** Without GROUP BY: one row over the whole input, also when it is empty. *)
Fixpoint aggregate_all (calls : list (AggregateCall * (list value -> list value -> Z))) (accs : list accumulator)
    (lastSourceRow : option row) (sourceRows : list row) : yields yielded_row :=
  match sourceRows with
  | [] =>
    match finalize calls accs with
    | Throw e => ([], Some e)
    | Ok aggregateRow => ([(aggregateRow, lastSourceRow)], None)
    end
  | r :: sourceRows' =>
    match step_each calls accs r with
    | Throw e => ([], Some e)
    | Ok accs' => aggregate_all calls accs' (Some r) sourceRows'
    end
  end.

(** ** Hash aggregate *)

Record GroupState := mkGroup {
  groupValues : list value;
  g_accumulators : list accumulator;
  representativeSourceRow : row
}.

Definition group_normalizer (g : GroupExpr) : res normalizer :=
  resolveKeyNormalizer collations (hashKeyCollationName (s_collationName (ge_type g)) [ge_type g]).

Definition group_canonicalizers (groupBy : list GroupExpr) : list (option (value -> value)) :=
  map (fun g => semanticKeyTransform (Some (s_logicalType (ge_type g)))) groupBy.

Definition group_key (groupBy : list GroupExpr) (norms : list normalizer) (values : list value) : jsstring :=
  serializeKeyNullGrouping (zip_with canonicalize (group_canonicalizers groupBy) values) norms.

(** One source row: its group is looked up, or created, and stepped. *)
Definition build_group (groupBy : list GroupExpr) (norms : list normalizer)
    (calls : list (AggregateCall * (list value -> list value -> Z))) (groups : list (jsstring * GroupState)) (r : row)
    : res (list (jsstring * GroupState)) :=
  let* values := evalArgsSync (map ge_run groupBy) None r in
  let key := group_key groupBy norms values in
  let group := default (mkGroup values (map (fun c => fresh c.1) calls) r) (alist_get key groups) in
  let* accs := step_each calls (g_accumulators group) r in
  Ok (alist_set key (mkGroup (groupValues group) accs (representativeSourceRow group)) groups).

Fixpoint build_groups (groupBy : list GroupExpr) (norms : list normalizer)
    (calls : list (AggregateCall * (list value -> list value -> Z))) (groups : list (jsstring * GroupState))
    (sourceRows : list row) : res (list (jsstring * GroupState)) :=
  match sourceRows with
  | [] => Ok groups
  | r :: sourceRows' =>
    let* groups' := build_group groupBy norms calls groups r in
    build_groups groupBy norms calls groups' sourceRows'
  end.

Definition emit_group (calls : list (AggregateCall * (list value -> list value -> Z))) (g : GroupState) : res yielded_row :=
  let* values := finalize calls (g_accumulators g) in
  Ok (groupValues g ++ values, Some (representativeSourceRow g)).

(** The groups one after the other, up to the first whose values throw. *)
Fixpoint emit_groups (calls : list (AggregateCall * (list value -> list value -> Z))) (groups : list GroupState) : yields yielded_row :=
  match groups with
  | [] => ([], None)
  | g :: groups' =>
    match emit_group calls g with
    | Throw e => ([], Some e)
    | Ok aggregateRow => let '(rows, err) := emit_groups calls groups' in (aggregateRow :: rows, err)
    end
  end.

(** The comparators of the DISTINCT aggregates, resolved when the plan is
    emitted. *)
Definition bind_calls (aggregates : list AggregateCall) : res (list (AggregateCall * (list value -> list value -> Z))) :=
  res_map (fun agg => let* cmp := buildDistinctComparator agg in Ok (agg, cmp)) aggregates.

Definition emitHashAggregate (groupBy : list GroupExpr) (aggregates : list AggregateCall) (sourceRows : list row)
    : res (yields yielded_row) :=
  let* norms := res_map group_normalizer groupBy in
  let* calls := bind_calls aggregates in
  Ok (if (length groupBy =? 0)%nat then aggregate_all calls (map (fun c => fresh c.1) calls) None sourceRows
      else match build_groups groupBy norms calls [] sourceRows with
           | Throw e => ([], Some e)
           | Ok groups => emit_groups calls groups.*2
           end).

(** ** Stream aggregate *)

Definition group_comparator (g : GroupExpr) : res (value -> value -> Z) := argComparator (ge_type g).

(** All the arguments of a row, before the group is checked. *)
Definition eval_calls (calls : list (AggregateCall * (list value -> list value -> Z))) (r : row) : res (list (list value)) :=
  res_map (fun call => eval_call call.1 r) calls.

Fixpoint step_values (calls : list (AggregateCall * (list value -> list value -> Z))) (accs : list accumulator)
    (args : list (list value)) : res (list accumulator) :=
  match calls, accs, args with
  | (agg, cmp) :: calls', a :: accs', argValues :: args' =>
    let* a' := step_value agg cmp a argValues in
    let* rest := step_values calls' accs' args' in
    Ok (a' :: rest)
  | _, _, _ => Ok []
  end.

(** The rows of a sorted input, group after group; the group values are those
    of the last row of the group.  A row that starts a group makes the group
    before it be yielded, after the row is evaluated and before it is
    stepped. *)
Fixpoint stream_groups (groupBy : list GroupExpr) (compareGroupKeys : list value -> list value -> Z)
    (calls : list (AggregateCall * (list value -> list value -> Z))) (current : option GroupState) (sourceRows : list row)
    : yields yielded_row :=
  match sourceRows with
  | [] => emit_groups calls (option_list current)
  | r :: sourceRows' =>
    match evalArgsSync (map ge_run groupBy) None r with
    | Throw e => ([], Some e)
    | Ok values =>
      match eval_calls calls r with
      | Throw e => ([], Some e)
      | Ok args =>
        match current with
        | Some g =>
          if negb (compareGroupKeys (groupValues g) values =? 0) then
            match emit_group calls g with
            | Throw e => ([], Some e)
            | Ok aggregateRow =>
              let '(rows, err) :=
                match step_values calls (map (fun c => fresh c.1) calls) args with
                | Throw e => ([], Some e)
                | Ok accs => stream_groups groupBy compareGroupKeys calls (Some (mkGroup values accs r)) sourceRows'
                end in
              (aggregateRow :: rows, err)
            end
          else
            match step_values calls (g_accumulators g) args with
            | Throw e => ([], Some e)
            | Ok accs =>
              stream_groups groupBy compareGroupKeys calls (Some (mkGroup values accs (representativeSourceRow g))) sourceRows'
            end
        | None =>
          match step_values calls (map (fun c => fresh c.1) calls) args with
          | Throw e => ([], Some e)
          | Ok accs => stream_groups groupBy compareGroupKeys calls (Some (mkGroup values accs r)) sourceRows'
          end
        end
      end
    end
  end.

Definition emitStreamAggregate (groupBy : list GroupExpr) (aggregates : list AggregateCall) (sourceRows : list row)
    : res (yields yielded_row) :=
  let* groupKeyComparators := res_map group_comparator groupBy in
  let* calls := bind_calls aggregates in
  Ok (if (length groupBy =? 0)%nat then aggregate_all calls (map (fun c => fresh c.1) calls) None sourceRows
      else stream_groups groupBy (row_loop groupKeyComparators) calls None sourceRows).

End Operators.

End RowOps.
