(* ===== verification/RowOpLaws.v ===== *)
(** * What the row operators compute

    Reference definitions and laws for [RowOps]: a filter that stops at the
    first false conjunct keeps the rows its whole predicate keeps; a limited
    query yields its window and pulls no row past it; DISTINCT and the set
    operations compute sets of rows up to the identity of their columns, and
    the membership flags say which operand holds a row.  Grouping is in
    [AggregateLaws]. *)

From S2P Require Import Prelude.
From S2P Require Import Bytes.
From S2P Require Import Double.
From S2P Require Import Decimal.
From S2P Require Import NumberText.
From S2P Require Import Utf8.
From S2P Require Import Json.
From S2P Require Import Comparison.
From S2P Require Import KeySerializer.
From S2P Require Import BTree.
From S2P Require Import VTab.
From S2P Require Import Types.
From S2P Require Import Collations.
From S2P Require Import Fds.
From S2P Require Import Joins.
From S2P Require Import JoinLaws.
From S2P Require Import RowOps.
From Stdlib Require Import ZArith Lia.
From stdpp Require Import sorting.
From stdpp Require Import base tactics numbers sets gmap list.
#[local] Open Scope Z_scope.

Import Double Decimal NumberText Utf8 Json Comparison KeySerializer BTree VTab Types Collations Fds Joins JoinLaws RowOps.

Module RowOpLaws.

Abbreviation value := SqlValue.
Abbreviation row := (list SqlValue).

(** ** Filter *)

Fixpoint leaves (p : Pred) : list (row -> res value) :=
  match p with
  | AndNode l r => leaves l ++ leaves r
  | LeafNode run => [run]
  end.

Lemma splitOn_spec fuel stack result :
  (sum_list_with pred_size stack <= fuel)%nat -> splitOn fuel stack result = result ++ concat (map leaves stack).
Proof.
  revert stack result. induction fuel as [|fuel IH]; intros [|n stack] result H; try (cbn; by rewrite app_nil_r).
  - cbn in H. destruct n; cbn in H; lia.
  - destruct n as [l r|run]; cbn in *.
    + rewrite IH by (cbn; lia). cbn. by rewrite <- !(assoc_L (++)).
    + rewrite IH by lia. by rewrite <- (assoc_L (++)).
Qed.

Lemma splitConjuncts_leaves p : splitConjuncts p = leaves p.
Proof. unfold splitConjuncts. rewrite splitOn_spec by (cbn; lia). cbn. by rewrite app_nil_r. Qed.

(** What the whole predicate says of a row. *)
Definition accepts (p : Pred) (r : row) : bool :=
  match run_pred p r with
  | Ok v => isTruthy v
  | Throw _ => false
  end.

Lemma keep_row_app ps qs r b :
  keep_row ps r = Ok b -> keep_row (ps ++ qs) r = if b then keep_row qs r else Ok false.
Proof.
  induction ps as [|p ps IH]; cbn; [by intros [= <-]|]. destruct (evaluatePredicate p r) as [d|]; [|done]. cbn.
  destruct d; cbn; [done|by intros [= <-]].
Qed.

Lemma keep_leaves p r v :
  run_pred p r = Ok v -> (forall leaf o, leaf ∈ leaves p -> leaf r <> Ok (VObject o)) -> keep_row (leaves p) r = Ok (isTruthy v).
Proof.
  revert v. induction p as [l IHl q IHq|run]; intros v H Hs; cbn in *.
  - destruct (run_pred l r) as [x|] eqn:E; [|done]. cbn in H. destruct (run_pred q r) as [y|] eqn:E'; [|done].
    cbn in H. injection H as <-. rewrite (keep_row_app _ _ _ (isTruthy x)).
    + change (combineAnd _ _) with (combineLogical And x y). rewrite isTruthy_and. destruct (isTruthy x); [|done]. cbn.
      apply IHq; [done|]. intros leaf o Hl. apply Hs, elem_of_app. by right.
    + apply IHl; [done|]. intros leaf o Hl. apply Hs, elem_of_app. by left.
  - unfold evaluatePredicate. rewrite H. cbn. assert (asPredicateScalar v = Ok v) as ->.
    { destruct v; try done. by destruct (Hs run o (list_elem_of_here _ _)). }
    cbn. by destruct (isTruthy v).
Qed.

(** Early exit keeps exactly the rows the whole conjunction accepts. *)
Lemma filter_early_exit p rows :
  (forall r, r ∈ rows -> (exists v, run_pred p r = Ok v) /\ forall leaf o, leaf ∈ leaves p -> leaf r <> Ok (VObject o)) ->
  emitFilter p rows = (List.filter (accepts p) rows, None).
Proof.
  unfold emitFilter. rewrite splitConjuncts_leaves. induction rows as [|r rows IH]; intros H; [done|]. cbn.
  destruct (H r) as [[v E] Hs]; [left|].
  rewrite (keep_leaves p r v E Hs), IH by (intros r' Hr'; apply H; by right).
  unfold accepts at 2. rewrite E. by destruct (isTruthy v).
Qed.

(** ** Limit and offset *)

(** A count of rows in the units of a window, rounded up. *)
Definition ceil_units (x : Z) : nat := Z.to_nat ((x + (UNIT - 1)) / UNIT).

Lemma ceil_units_le x n : 0 <= x -> x <= Z.of_nat n * UNIT <-> (ceil_units x <= n)%nat.
Proof.
  intros Hx. pose proof UNIT_pos. unfold ceil_units. pose proof (Z.div_mod (x + (UNIT - 1)) UNIT ltac:(lia)) as Hd.
  pose proof (Z.mod_pos_bound (x + (UNIT - 1)) UNIT ltac:(lia)). set (q := (x + (UNIT - 1)) / UNIT) in *.
  assert (0 <= q) by nia. split; intros Hle; [|nia]. assert (q <= Z.of_nat n) by nia. lia.
Qed.

Lemma limit_loop_spec drain limit offset s e source :
  0 <= limit -> 0 <= offset -> (s <= ceil_units offset)%nat -> (drain = false -> (e < ceil_units limit)%nat) ->
  limit_loop drain limit offset (Z.of_nat s) (Z.of_nat e) source
  = (take (ceil_units limit - e) (drop (ceil_units offset - s) source),
     if drain then length source else (length source `min` ((ceil_units offset - s) + (ceil_units limit - e)))%nat).
Proof.
  intros Hl Ho. revert s e. induction source as [|r source IH]; intros s e Hs He; cbn [limit_loop].
  { rewrite drop_nil, take_nil. cbn. by destruct drain. }
  destruct (Z.of_nat s * UNIT <? offset) eqn:E1.
  { apply Z.ltb_lt in E1. assert ((s < ceil_units offset)%nat) as Hlt.
    { pose proof (ceil_units_le offset s Ho). lia. }
    replace (Z.of_nat s + 1) with (Z.of_nat (S s)) by lia. rewrite IH by (done || lia).
    replace (ceil_units offset - s)%nat with (S (ceil_units offset - S s)) by lia. cbn [drop length].
    by destruct drain; f_equal; lia. }
  apply Z.ltb_ge in E1. apply (ceil_units_le offset s Ho) in E1. replace (ceil_units offset - s)%nat with 0%nat by lia. cbn [drop].
  destruct (limit <=? Z.of_nat e * UNIT) eqn:E2.
  { apply Z.leb_le, (ceil_units_le limit e Hl) in E2. destruct drain; [|specialize (He eq_refl); lia].
    rewrite IH by (done || lia). replace (ceil_units limit - e)%nat with 0%nat by lia. done. }
  apply Z.leb_gt in E2. pose proof (ceil_units_le limit e Hl).
  replace (Z.of_nat e + 1) with (Z.of_nat (S e)) by lia. pose proof (ceil_units_le limit (S e) Hl).
  destruct (limit <=? Z.of_nat (S e) * UNIT) eqn:E3; cbn [andb].
  - apply Z.leb_le in E3. destruct drain; cbn [negb].
    + rewrite IH by (done || lia). replace (ceil_units limit - e)%nat with 1%nat by lia.
      replace (ceil_units limit - S e)%nat with 0%nat by lia. by replace (ceil_units offset - s)%nat with 0%nat by lia.
    + replace (ceil_units limit - e)%nat with 1%nat by lia. cbn. by rewrite Nat.min_0_r.
  - apply Z.leb_gt in E3. rewrite IH by (done || lia). replace (ceil_units limit - e)%nat with (S (ceil_units limit - S e)) by lia.
    replace (ceil_units offset - s)%nat with 0%nat by lia. cbn. by destruct drain; f_equal; lia.
Qed.

Lemma clamp_nonneg x : 0 <= clamp x.
Proof. destruct x as [| |n|]; cbn; try done. destruct (n <? 0) eqn:E; [done|]. by apply Z.ltb_ge in E. Qed.


(** ** Sets kept in trees *)

Section Sets.
Context {T : Type -> Type} `{Hbt : BTree T} `{!BTreeLaws T} {V : Type}.
Context (cmp : V -> V -> Z) (dom : V -> Prop) (c : V -> V -> comparison) (Hord : ordered dom cmp c).

#[local] Instance order_laws : CmpLaws c := proj1 Hord.

(** A value equal to [v] is in the list. *)
Definition hasb (l : list V) (v : V) : bool := existsb (fun y => cmp y v =? 0) l.

(** The first occurrences, but for values already seen. *)
Fixpoint dedup_from (seen l : list V) : list V :=
  match l with
  | [] => []
  | x :: l' => if hasb seen x then dedup_from seen l' else x :: dedup_from (seen ++ [x]) l'
  end.

Lemma cmp_zero x y : dom x -> dom y -> cmp x y = 0 <-> c x y = Eq.
Proof. intros Hx Hy. rewrite <- (proj2 Hord) by done. symmetry. apply sgn_eq. Qed.

Lemma hasb_spec l v : Forall dom l -> dom v -> hasb l v = true <-> exists y, y ∈ l /\ c y v = Eq.
Proof.
  intros Hl Hv. unfold hasb. rewrite existsb_exists. rewrite Forall_forall in Hl. split.
  - intros (y & Hy%list_elem_of_In & E%Z.eqb_eq). exists y. split; [done|]. apply cmp_zero; auto.
  - intros (y & Hy & E). exists y. split; [by apply list_elem_of_In|]. apply Z.eqb_eq, cmp_zero; auto.
Qed.

(** A tree that holds the values of a list. *)
Record holds_set (t : T V) (seen : list V) : Prop := {
  hs_content : content_ok id dom c (bt_ascending t);
  hs_elems : forall v, v ∈ bt_ascending t <-> v ∈ seen
}.

Lemma holds_dom t seen : holds_set t seen -> Forall dom seen.
Proof. intros [[Hd _] He]. rewrite Forall_forall in Hd |- *. intros v Hv. by apply Hd, He. Qed.

Lemma empty_set_holds : holds_set bt_empty [].
Proof. split; rewrite bt_empty_spec; [split; constructor|done]. Qed.

Lemma tree_get_spec t seen v :
  holds_set t seen -> dom v ->
  match bt_get id cmp t v with
  | Some w => w ∈ seen /\ c w v = Eq
  | None => hasb seen v = false
  end.
Proof.
  intros Hs Hv. pose proof (holds_dom t seen Hs) as Hd. destruct Hs as [Hc He]. destruct (bt_get id cmp t v) as [w|] eqn:E.
  - apply (bt_get_spec _ _ id dom cmp c t v w Hord Hc Hv) in E as [Hw Hk]. split; [by apply He|done].
  - apply not_true_is_false. rewrite hasb_spec by done. intros (y & Hy%He & Hk).
    assert (bt_get id cmp t v = Some y) by (by apply (bt_get_spec _ _ id dom cmp c)). congruence.
Qed.

Lemma tree_insert_spec t seen v :
  holds_set t seen -> dom v ->
  (tree_insert cmp t v).2 = negb (hasb seen v) /\
  holds_set (tree_insert cmp t v).1 (if hasb seen v then seen else seen ++ [v]).
Proof.
  intros Hs Hv. pose proof (holds_dom t seen Hs) as Hd. pose proof (tree_get_spec t seen v Hs Hv) as Hg. unfold tree_insert.
  destruct (bt_get id cmp t v) as [w|]; cbn.
  - assert (hasb seen v = true) as -> by (apply hasb_spec; [done|done|]; by exists w). done.
  - rewrite Hg. split; [done|]. destruct Hs as [Hc He].
    destruct (bt_upsert_spec _ _ id dom cmp c t v Hord Hc Hv) as [Hc' He']. split; [done|]. intros w.
    rewrite He', elem_of_app, list_elem_of_singleton, He. unfold at_key. cbn [id]. split.
    + intros [->|[? _]]; [by right|by left].
    + intros [Hw| ->]; [|by left]. right. split; [done|]. intros E. apply not_true_iff_false in Hg. apply Hg.
      apply hasb_spec; eauto.
Qed.

Lemma tree_has_spec t seen v : holds_set t seen -> dom v -> tree_has cmp t v = hasb seen v.
Proof.
  intros Hs Hv. pose proof (holds_dom t seen Hs) as Hd. destruct Hs as [Hc He]. unfold tree_has.
  pose proof (bt_find_spec _ _ id dom cmp c t v Hord Hc Hv) as Hf. destruct (bt_find id cmp t v) as [[before on] after].
  destruct Hf as (Ea & Hb & Ho & Hl). cbn. apply eq_bool_prop_intro. rewrite !Is_true_true, bool_decide_eq_true, hasb_spec by done. split.
  - intros [w ->]. exists w. cbn in Ho. apply Forall_inv in Ho. split; [|done]. apply He. rewrite Ea. set_solver.
  - intros (y & Hy%He & E). destruct on as [w|]; [done|]. exfalso. rewrite Ea in Hy. cbn in Hy.
    rewrite Forall_forall in Hb, Hl. apply elem_of_app in Hy as [Hy|Hy]; [specialize (Hb _ Hy)|specialize (Hl _ Hy)]; cbn in *; congruence.
Qed.

(** ** First occurrences *)

Lemma hasb_app l l' v : hasb (l ++ l') v = hasb l v || hasb l' v.
Proof. apply existsb_app. Qed.

Lemma dedup_elem seen l v : v ∈ dedup_from seen l -> v ∈ l.
Proof.
  revert seen. induction l as [|x l IH]; intros seen; cbn; [done|]. destruct (hasb seen x).
  - intros H%IH. by right.
  - intros [->|H%IH]%elem_of_cons; [left|by right].
Qed.

Lemma dedup_fresh seen l v : Forall dom seen -> Forall dom l -> v ∈ dedup_from seen l -> hasb seen v = false.
Proof.
  revert seen. induction l as [|x l IH]; intros seen Hs Hl; cbn; [by intros ?%elem_of_nil|].
  apply Forall_cons in Hl as [Hx Hl]. destruct (hasb seen x) eqn:E; [by apply IH|].
  intros [->|H]%elem_of_cons; [done|]. apply IH in H; [|by apply Forall_app; split; [|constructor]|done].
  rewrite hasb_app in H. by apply orb_false_elim in H as [? _].
Qed.

(** Pairwise different. *)
Definition apart (l : list V) : Prop := StronglySorted (fun x y => cmp x y <> 0) l.

Lemma dedup_apart seen l : Forall dom seen -> Forall dom l -> apart (dedup_from seen l).
Proof.
  revert seen. induction l as [|x l IH]; intros seen Hs Hl; cbn; [constructor|]. apply Forall_cons in Hl as [Hx Hl].
  destruct (hasb seen x) eqn:E; [by apply IH|]. assert (Forall dom (seen ++ [x])) by (by apply Forall_app; split; [|constructor]).
  constructor; [by apply IH|]. apply Forall_forall. intros y Hy. apply dedup_fresh in Hy; [|done..].
  rewrite hasb_app in Hy. apply orb_false_elim in Hy as [_ Hy]. cbn in Hy. rewrite orb_false_r in Hy. by apply Z.eqb_neq.
Qed.

Lemma dedup_has seen l v :
  Forall dom seen -> Forall dom l -> dom v -> hasb seen v || hasb (dedup_from seen l) v = hasb seen v || hasb l v.
Proof.
  revert seen. induction l as [|x l IH]; intros seen Hs Hl Hv; cbn [dedup_from]; [done|]. apply Forall_cons in Hl as [Hx Hl].
  destruct (hasb seen x) eqn:E.
  - rewrite IH by done. change (hasb (x :: l) v) with ((cmp x v =? 0) || hasb l v).
    destruct (cmp x v =? 0) eqn:Exv; [|done]. cbn. rewrite orb_true_r. apply orb_true_iff. left.
    apply Z.eqb_eq, cmp_zero in Exv; [|done..]. apply hasb_spec in E as (y & Hy & Hyx); [|done..].
    apply hasb_spec; [done..|]. exists y. split; [done|]. by rewrite (cmp_eq_l c y x v Hyx).
  - change (hasb (x :: ?l) v) with ((cmp x v =? 0) || hasb l v).
    assert (Forall dom (seen ++ [x])) by (by apply Forall_app; split; [|constructor]).
    specialize (IH (seen ++ [x])). rewrite hasb_app in IH. cbn in IH. rewrite orb_false_r in IH.
    rewrite !orb_assoc. by apply IH.
Qed.

Lemma dedup_dom seen l : Forall dom l -> Forall dom (dedup_from seen l).
Proof. intros Hl. rewrite Forall_forall in Hl |- *. intros v Hv%dedup_elem. auto. Qed.

Lemma dedup_nil_has l v : Forall dom l -> dom v -> hasb (dedup_from [] l) v = hasb l v.
Proof. intros. exact (dedup_has [] l v (Forall_nil_2 _) ltac:(done) ltac:(done)). Qed.

Lemma dedup_app seen l l' : dedup_from seen (l ++ l') = dedup_from seen l ++ dedup_from (seen ++ dedup_from seen l) l'.
Proof.
  revert seen. induction l as [|x l IH]; intros seen; cbn; [by rewrite app_nil_r|].
  destruct (hasb seen x); [apply IH|]. cbn. by rewrite IH, <- (assoc_L (++)).
Qed.

End Sets.

Section Distinct.
Context {T : Type -> Type} `{Hbt : BTree T} `{!BTreeLaws T}.
Context (cmp : row -> row -> Z) (dom : row -> Prop) (c : row -> row -> comparison) (Hord : ordered dom cmp c).

Lemma distinct_rows_spec (t : T row) seen source :
  holds_set dom c t seen -> Forall dom source ->
  (distinct_rows cmp t source).1 = dedup_from cmp seen source /\
  holds_set dom c (distinct_rows cmp t source).2 (seen ++ dedup_from cmp seen source).
Proof.
  intros Hs Hd. revert t seen Hs. induction Hd as [|r source Hr Hd IH]; intros t seen Hs; cbn; [by rewrite app_nil_r|].
  destruct (tree_insert_spec cmp dom c Hord t seen r Hs Hr) as [Hon Ht].
  destruct (tree_insert cmp t r) as [t' on]. cbn in Hon, Ht. subst on. destruct (IH _ _ Ht) as [H1 H2].
  destruct (distinct_rows cmp t' source) as [rows t'']. cbn in *. subst rows. destruct (hasb cmp seen r); cbn; [done|].
  by rewrite <- (assoc_L (++)) in H2.
Qed.

Lemma insert_all_spec (t : T row) seen rows :
  holds_set dom c t seen -> Forall dom rows -> holds_set dom c (insert_all cmp t rows) (seen ++ dedup_from cmp seen rows).
Proof.
  intros Hs Hd. revert t seen Hs. induction Hd as [|r rows Hr Hd IH]; intros t seen Hs; cbn; [by rewrite app_nil_r|].
  destruct (tree_insert_spec cmp dom c Hord t seen r Hs Hr) as [_ Ht]. apply IH in Ht. unfold insert_all in Ht.
  destruct (hasb cmp seen r); [done|]. by rewrite <- (assoc_L (++)) in Ht.
Qed.

Lemma intersect_rows_spec (lt yt : T row) left seen rows :
  holds_set dom c lt left -> holds_set dom c yt seen -> Forall dom rows ->
  exists matched, intersect_rows cmp lt yt rows = dedup_from cmp seen matched /\ Forall (fun r => r ∈ left) matched /\
    forall v, dom v -> hasb cmp matched v = hasb cmp rows v && hasb cmp left v.
Proof.
  intros Hl Hy Hd. pose proof (holds_dom _ _ _ _ Hl) as Dl. revert yt seen Hy.
  induction Hd as [|r rows Hr Hd IH]; intros yt seen Hy; [by exists []|]. cbn [intersect_rows].
  rewrite (tree_has_spec cmp dom c Hord lt left r Hl Hr). pose proof (tree_get_spec cmp dom c Hord lt left r Hl Hr) as Hg.
  pose proof (proj1 Hord) as HL.
  assert (Hrow : forall v, hasb cmp (r :: rows) v = (cmp r v =? 0) || hasb cmp rows v) by done.
  destruct (bt_get id cmp lt r) as [w|].
  - destruct Hg as [Hw Ew]. rewrite Forall_forall in Dl. pose proof (Dl w Hw) as Dw. rewrite <- Forall_forall in Dl.
    assert (hasb cmp left r = true) as -> by (apply (hasb_spec cmp dom c Hord); eauto).
    destruct (tree_insert_spec cmp dom c Hord yt seen w Hy Dw) as [Hon Ht].
    destruct (tree_insert cmp yt w) as [yt' on]. cbn in Hon, Ht. subst on.
    destruct (IH _ _ Ht) as (m & Hm & Hin & Hh). exists (w :: m). rewrite Hm. cbn [dedup_from].
    split; [by destruct (hasb cmp seen w)|]. split; [by constructor|]. intros v Hv. rewrite Hrow.
    change (hasb cmp (w :: m) v) with ((cmp w v =? 0) || hasb cmp m v). rewrite Hh by done.
    assert ((cmp w v =? 0) = (cmp r v =? 0)) as ->.
    { apply eq_bool_prop_intro. rewrite !Is_true_true, !Z.eqb_eq, !(cmp_zero cmp dom c Hord) by done.
      by rewrite (cmp_eq_l c w r v Ew). }
    destruct (cmp r v =? 0) eqn:E; [|done]. cbn. symmetry. apply (hasb_spec cmp dom c Hord); [done..|].
    exists w. split; [done|]. apply Z.eqb_eq, (cmp_zero cmp dom c Hord) in E; [|done..]. by rewrite (cmp_eq_l c w r v Ew).
  - rewrite Hg. destruct (IH _ _ Hy) as (m & Hm & Hin & Hh). exists m. split; [done|]. split; [done|]. intros v Hv.
    rewrite Hh, Hrow by done. destruct (cmp r v =? 0) eqn:E; [|done]. cbn.
    assert (hasb cmp left v = false) as ->; [|by rewrite andb_false_r]. rewrite <- Hg. apply Z.eqb_eq, (cmp_zero cmp dom c Hord) in E; [|done..].
    apply eq_bool_prop_intro. rewrite !Is_true_true, !(hasb_spec cmp dom c Hord) by done.
    setoid_rewrite (cmp_eq_r c r v); [|done]. done.
Qed.

End Distinct.

(** ** Set operations *)

Lemma createOutputRow_take n r : (n <= length r)%nat -> createOutputRow n r = take n r.
Proof.
  unfold createOutputRow. revert n. induction r as [|x r IH]; intros [|n] H; cbn in *; try done; [lia|].
  f_equal. rewrite <- seq_shift, map_map. by rewrite <- IH by lia.
Qed.

Lemma length_createOutputRow n r : length (createOutputRow n r) = n.
Proof. unfold createOutputRow. by rewrite length_map, length_seq. Qed.

Lemma row_loop_take zs (a b : row) : row_loop zs (take (length zs) a) b = row_loop zs a b.
Proof.
  revert a b. induction zs as [|z zs IH]; intros [|x a] b; cbn; try done. destruct b as [|y b]; [done|]. by rewrite IH.
Qed.

Section SetOperations.
Context {T : Type -> Type} `{Hbt : BTree T} `{!BTreeLaws T} (collations : registry).
Context (types : list ScalarType) (cmp : row -> row -> Z) (dom : row -> Prop) (c : row -> row -> comparison).
Context (Hcmp : row_comparator collations types = Ok cmp) (Hord : ordered dom cmp c).

Abbreviation n := (length types).
Abbreviation out := (createOutputRow n).
Abbreviation has := (hasb cmp).

(** Only the data columns are compared. *)
Lemma cmp_out r v : (n <= length r)%nat -> cmp (out r) v = cmp r v.
Proof.
  intros Hr. unfold row_comparator in Hcmp. destruct (res_map _ types) as [colls|]; [|done]. cbn in Hcmp.
  injection Hcmp as <-. unfold createSemanticRowComparator. rewrite createOutputRow_take by done.
  match goal with |- row_loop ?zs _ _ = _ => replace (take n r) with (take (length zs) r) end; [apply row_loop_take|].
  by rewrite length_imap, length_map.
Qed.

Lemma has_out rows v : Forall (fun r => n <= length r)%nat rows -> has (map out rows) v = has rows v.
Proof.
  unfold hasb. induction 1 as [|r rows Hr H IH]; cbn; [done|]. by rewrite IH, cmp_out.
Qed.

(** The rows a set operation keeps, by membership in its operands. *)
Definition setop_has (op : SetOp) (inLeft inRight : bool) : bool :=
  match op with
  | UnionAll | Union => inLeft || inRight
  | Intersect => inLeft && inRight
  | Except => inLeft && negb inRight
  end.

Context (L R : list row) (leftColumns rightColumns : nat) (membership : list FlagSide).
Context (HL : Forall (fun r => n <= length r /\ dom r /\ dom (out r))%nat L).
Context (HR : Forall (fun r => n <= length r /\ dom r /\ dom (out r))%nat R).

(** The data rows of a result: what multiplicity, identity and membership say. *)
Record exact_rows (op : SetOp) (data : list row) : Prop := {
  er_bag : op = UnionAll -> data = map out L ++ map out R;
  er_set : op <> UnionAll -> apart cmp data;
  er_source : Forall (fun d => d ∈ map out L ++ map out R) data;
  er_members : forall v, dom v -> has data v = setop_has op (has L v) (has R v)
}.

Lemma wide rows : Forall (fun r => n <= length r /\ dom r /\ dom (out r))%nat rows -> Forall (fun r => n <= length r)%nat rows.
Proof. intros H. eapply Forall_impl; [exact H|]. by intros r (? & ? & ?). Qed.

Lemma full_dom rows : Forall (fun r => n <= length r /\ dom r /\ dom (out r))%nat rows -> Forall dom rows.
Proof. intros H. eapply Forall_impl; [exact H|]. by intros r (? & ? & ?). Qed.

Lemma data_dom rows : Forall (fun r => n <= length r /\ dom r /\ dom (out r))%nat rows -> Forall dom (map out rows).
Proof. intros H. apply Forall_fmap. eapply Forall_impl; [exact H|]. by intros r (? & ? & ?). Qed.

Lemma union_exact : exact_rows UnionAll (map out L ++ map out R).
Proof.
  split; [done|done|by apply Forall_forall|]. intros v Hv. by rewrite hasb_app, !has_out by auto using wide.
Qed.

Lemma dedup_exact op source :
  op <> UnionAll -> Forall dom source -> Forall (fun d => d ∈ map out L ++ map out R) source ->
  (forall v, dom v -> has source v = setop_has op (has L v) (has R v)) -> exact_rows op (dedup_from cmp [] source).
Proof.
  intros Hop Hd Hs Hm. split; [done| | |].
  - intros _. eapply dedup_apart; eauto.
  - rewrite Forall_forall in Hs |- *. intros v Hv%dedup_elem. auto.
  - intros v Hv. rewrite (dedup_nil_has cmp dom c Hord) by done. auto.
Qed.

Lemma union_distinct_exact : exact_rows Union (dedup_from cmp [] (map out L ++ map out R)).
Proof.
  apply dedup_exact; [done|apply Forall_app; auto using data_dom|by apply Forall_forall|].
  intros v Hv. by rewrite hasb_app, !has_out by auto using wide.
Qed.

(** Rows of the left operand, by a test that respects row identity. *)
Lemma filter_exact op test :
  op <> UnionAll -> (forall v, dom v -> test v = has R v) ->
  (forall a b, setop_has op a b = a && (if match op with Intersect => true | _ => false end then b else negb b)) ->
  exact_rows op (dedup_from cmp []
    (List.filter (fun d => if match op with Intersect => true | _ => false end then test d else negb (test d)) (map out L))).
Proof.
  intros Hop Ht Hs. pose proof (data_dom L HL) as HdL. apply dedup_exact; [done| | |].
  - rewrite Forall_forall in HdL |- *. intros v. rewrite list_elem_of_In, filter_In, <- list_elem_of_In. intros [Hv _]. by apply HdL.
  - apply Forall_forall. intros v. rewrite list_elem_of_In, filter_In, <- list_elem_of_In. intros [Hv _]. apply elem_of_app. by left.
  - intros v Hv. rewrite Hs, <- (has_out L) by auto using wide. revert HdL. generalize (map out L). clear Hs.
    induction l as [|d l IH]; intros Hd; [done|]. apply Forall_cons in Hd as [Hd Hl]. specialize (IH Hl). cbn [List.filter].
    change (has (d :: l) v) with ((cmp d v =? 0) || has l v). rewrite Ht by done.
    assert (Heq : cmp d v = 0 -> has R d = has R v).
    { intros E%(cmp_zero cmp dom c Hord); [|done..]. pose proof (proj1 Hord). apply eq_bool_prop_intro.
      rewrite !Is_true_true, !(hasb_spec cmp dom c Hord) by auto using full_dom. setoid_rewrite (cmp_eq_r c d v); [|done]. done. }
    set (keep := fun b : bool => if match op with Intersect => true | _ => false end then b else negb b) in *.
    change (has (if keep (has R d) then d :: List.filter (fun d0 => keep (test d0)) l else List.filter (fun d0 => keep (test d0)) l) v
      = ((cmp d v =? 0) || has l v) && keep (has R v)).
    change (has (List.filter (fun d0 => keep (test d0)) l) v = has l v && keep (has R v)) in IH.
    destruct (Z.eqb_spec (cmp d v) 0) as [E|E].
    + rewrite (Heq E). destruct (keep (has R v)).
      * change (has (d :: ?l) v) with ((cmp d v =? 0) || has l v). by rewrite E.
      * by rewrite IH, !andb_false_r.
    + destruct (keep (has R d)); [|done]. change (has (d :: ?l) v) with ((cmp d v =? 0) || has l v).
      by rewrite (proj2 (Z.eqb_neq _ _) E).
Qed.

Lemma set_holds rows :
  Forall (fun r => n <= length r /\ dom r /\ dom (out r))%nat rows ->
  holds_set dom c (insert_all cmp (bt_empty : T row) rows) (dedup_from cmp [] rows).
Proof.
  intros H. exact (insert_all_spec cmp dom c Hord bt_empty [] rows (empty_set_holds dom c) (full_dom _ H)).
Qed.

Lemma data_holds rows :
  Forall (fun r => n <= length r /\ dom r /\ dom (out r))%nat rows ->
  holds_set dom c (insert_all cmp (bt_empty : T row) (map out rows)) (dedup_from cmp [] (map out rows)).
Proof.
  intros H. exact (insert_all_spec cmp dom c Hord bt_empty [] _ (empty_set_holds dom c) (data_dom _ H)).
Qed.

Lemma set_has rows v :
  Forall (fun r => n <= length r /\ dom r /\ dom (out r))%nat rows -> dom v ->
  tree_has cmp (insert_all cmp (bt_empty : T row) rows) v = has rows v.
Proof.
  intros H Hv. rewrite (tree_has_spec cmp dom c Hord _ _ v (set_holds rows H) Hv).
  by apply (dedup_nil_has cmp dom c Hord); [apply full_dom|].
Qed.

Lemma data_has rows v :
  Forall (fun r => n <= length r /\ dom r /\ dom (out r))%nat rows -> dom v ->
  tree_has cmp (insert_all cmp (bt_empty : T row) (map out rows)) v = has rows v.
Proof.
  intros H Hv. rewrite (tree_has_spec cmp dom c Hord _ _ v (data_holds rows H) Hv), <- (has_out rows v) by auto using wide.
  by apply (dedup_nil_has cmp dom c Hord); [apply data_dom|].
Qed.

Lemma distinct_dedup source : Forall dom source -> (distinct_rows cmp (bt_empty : T row) source).1 = dedup_from cmp [] source.
Proof. intros H. exact (proj1 (distinct_rows_spec cmp dom c Hord bt_empty [] source (empty_set_holds dom c) H)). Qed.

Lemma plain_set_operation op :
  exists rows, emitSetOperation (T := T) collations op types leftColumns rightColumns membership false L R = Ok rows /\
    exact_rows op rows.
Proof.
  unfold emitSetOperation. rewrite Hcmp. cbn [res_bind]. eexists. split; [reflexivity|]. destruct op.
  - exact union_exact.
  - unfold runUnionDistinct.
    destruct (distinct_rows_spec cmp dom c Hord (bt_empty : T row) [] (map out L) (empty_set_holds dom c) (data_dom L HL)) as [H1 H2].
    destruct (distinct_rows cmp (bt_empty : T row) (map out L)) as [rows tree]. cbn [fst snd app] in H1, H2. subst rows.
    rewrite (proj1 (distinct_rows_spec cmp dom c Hord tree _ (map out R) H2 (data_dom R HR))).
    pose proof union_distinct_exact as H. by rewrite dedup_app in H.
  - unfold runIntersect.
    destruct (intersect_rows_spec cmp dom c Hord _ (bt_empty : T row) _ [] (map out R) (data_holds L HL) (empty_set_holds dom c) (data_dom R HR))
      as (m & -> & Hin & Hm). pose proof (data_dom L HL) as HdL. apply dedup_exact; [done| | |].
    + rewrite Forall_forall in Hin, HdL |- *. intros v Hv%Hin%dedup_elem. auto.
    + rewrite Forall_forall in Hin |- *. intros v Hv%Hin%dedup_elem. apply elem_of_app. by left.
    + intros v Hv. rewrite Hm, (dedup_nil_has cmp dom c Hord), !has_out by auto using wide. apply andb_comm.
  - unfold runExcept. rewrite distinct_dedup.
    + apply (filter_exact Except); [done| |done]. intros v Hv. by apply data_has.
    + pose proof (data_dom L HL) as HdL. rewrite Forall_forall in HdL |- *. intros v.
      rewrite list_elem_of_In, filter_In, <- list_elem_of_In. intros [Hv _]. auto.
Qed.

(** The flag columns of an operand for a data row: those of an equal row of the
    operand, or false when it has none. *)
Definition operand_flags (rows : list row) (columns : nat) (d flags : row) : Prop :=
  (columns <= n)%nat /\ flags = [] \/
  (exists s, s ∈ rows /\ cmp s d = 0 /\ flags = take (columns - n) (drop n s)) \/
  has rows d = false /\ flags = replicate (columns - n) (VBool false).

Lemma flags_for_spec rows columns d :
  Forall (fun r => n <= length r /\ dom r /\ dom (out r))%nat rows -> dom d ->
  operand_flags rows columns d (flags_for cmp n (columns - n) (insert_all cmp (bt_empty : T row) rows) d).
Proof.
  intros H Hd. unfold flags_for, operand_flags. destruct (Nat.eqb_spec (columns - n) 0); [left; split; [lia|done]|]. right.
  pose proof (tree_get_spec cmp dom c Hord _ _ d (set_holds rows H) Hd) as Hg.
  destruct (bt_get id cmp _ d) as [s|].
  - left. destruct Hg as [Hs%dedup_elem E]. exists s. split; [done|]. split; [|done]. apply (cmp_zero cmp dom c Hord); [|done|done].
    pose proof (full_dom _ H) as Hf. rewrite Forall_forall in Hf. auto.
  - right. split; [|done]. by rewrite (dedup_nil_has cmp dom c Hord) in Hg by auto using full_dom.
Qed.

Definition surfaced (r : row) : Prop :=
  exists leftFlags rightFlags,
    operand_flags L leftColumns (take n r) leftFlags /\ operand_flags R rightColumns (take n r) rightFlags /\
    r = take n r ++ leftFlags ++ rightFlags ++
      map (fun b => VBool (has (match b with FlagLeft => L | FlagRight => R end) (take n r))) membership.

Lemma surface_spec d :
  dom d -> length d = n ->
  let r := surface cmp n (leftColumns - n) (rightColumns - n) membership
             (insert_all cmp (bt_empty : T row) L) (insert_all cmp bt_empty R) d in
  take n r = d /\ surfaced r.
Proof.
  intros Hd Hn. cbv zeta. unfold surface. assert (forall x, take n (d ++ x) = d) as Ht by (intros x; by rewrite <- Hn, take_app_length).
  split; [apply Ht|]. do 2 eexists. rewrite Ht. split; [by apply flags_for_spec|]. split; [by apply flags_for_spec|].
  do 3 f_equal. apply map_ext. intros []; f_equal; by apply set_has.
Qed.

Lemma surfaced_exact op data :
  Forall dom data -> exact_rows op data ->
  let show := surface cmp n (leftColumns - n) (rightColumns - n) membership
                (insert_all cmp (bt_empty : T row) L) (insert_all cmp bt_empty R) in
  exact_rows op (map (take n) (map show data)) /\ Forall surfaced (map show data).
Proof.
  intros Hd He. cbv zeta. assert (Forall (fun d => length d = n) data) as Hl.
  { pose proof (er_source _ _ He) as Hs. rewrite Forall_forall in Hs |- *. intros d Hin%Hs.
    rewrite <- map_app in Hin. apply list_elem_of_fmap in Hin as (r & -> & _). apply length_createOutputRow. }
  assert (map (take n) (map (surface cmp n (leftColumns - n) (rightColumns - n) membership
    (insert_all cmp (bt_empty : T row) L) (insert_all cmp bt_empty R)) data) = data) as ->.
  { clear He. induction Hd as [|d data Hd Hds IH]; [done|]. apply Forall_cons in Hl as [Hn Hl]. cbn [map].
    by rewrite (proj1 (surface_spec d Hd Hn)), IH. }
  split; [done|]. apply Forall_fmap. rewrite Forall_forall in Hd, Hl |- *. intros d Hin. by apply surface_spec; auto.
Qed.

Lemma flagged_set_operation op :
  exists rows, emitSetOperation (T := T) collations op types leftColumns rightColumns membership true L R = Ok rows /\
    exact_rows op (map (take n) rows) /\ Forall surfaced rows.
Proof.
  unfold emitSetOperation. rewrite Hcmp. cbn [res_bind]. eexists. split; [reflexivity|].
  pose proof (data_dom L HL) as DL. pose proof (data_dom R HR) as DR. unfold runWithSurfacedFlags.
  assert (Hf : forall f, Forall dom (List.filter f (map out L))).
  { intros f. rewrite Forall_forall in DL |- *. intros v. rewrite list_elem_of_In, filter_In, <- list_elem_of_In. intros [Hv _]. auto. }
  destruct op.
  - rewrite <- map_app. apply surfaced_exact; [by apply Forall_app|exact union_exact].
  - rewrite distinct_dedup by (by apply Forall_app). apply surfaced_exact; [by apply dedup_dom, Forall_app|exact union_distinct_exact].
  - rewrite distinct_dedup by apply Hf. apply surfaced_exact; [by apply dedup_dom, Hf|].
    apply (filter_exact Intersect); [done| |done]. intros v Hv. by apply set_has.
  - rewrite distinct_dedup by apply Hf. apply surfaced_exact; [by apply dedup_dom, Hf|].
    apply (filter_exact Except); [done| |done]. intros v Hv. by apply set_has.
Qed.

(** C36: The set operations are the operations of set algebra on rows up to
    the identity of their data columns.  UNION ALL concatenates its operands;
    UNION, INTERSECT and EXCEPT yield no two equal rows, only rows of their
    operands, and a row equal to any given one exactly when the operands'
    membership says so.  With membership flags the data columns are as
    without, each flag of the operation says whether its branch holds the row,
    and the flags an operand surfaces are those of its equal row, or false. *)
Theorem set_operations_exact op hasSurfacedFlags :
  exists rows,
    emitSetOperation (T := T) collations op types leftColumns rightColumns membership hasSurfacedFlags L R = Ok rows /\
    exact_rows op (map (take n) rows) /\ (hasSurfacedFlags = true -> Forall surfaced rows).
Proof.
  destruct hasSurfacedFlags.
  - destruct (flagged_set_operation op) as (rows & H & He & Hs). by exists rows.
  - destruct (plain_set_operation op) as (rows & H & He). exists rows. split; [done|]. split; [|done].
    replace (map (take n) rows) with rows; [done|]. pose proof (er_source _ _ He) as Hs. clear H He.
    induction Hs as [|d rows Hd Hs IH]; [done|]. cbn. rewrite <- IH. f_equal.
    rewrite <- map_app in Hd. apply list_elem_of_fmap in Hd as (r & -> & _).
    rewrite <- (length_createOutputRow n r) at 2. by rewrite firstn_all.
Qed.

End SetOperations.

(** ** Plain columns *)

Lemma row_loop_takes zs (a b : row) : row_loop zs (take (length zs) a) (take (length zs) b) = row_loop zs a b.
Proof.
  revert a b. induction zs as [|z zs IH]; intros [|x a] [|y b]; cbn; try done. by rewrite IH.
Qed.

Lemma pad_compare_takes cs (a b : row) : pad_compare cs (take (length cs) a) (take (length cs) b) = pad_compare cs a b.
Proof.
  revert a b. induction cs as [|c cs IH]; intros a b; cbn; [done|]. f_equal; [by destruct a, b|].
  rewrite <- (IH (tail a) (tail b)). destruct a, b; cbn; by rewrite ?take_nil.
Qed.

(** Rows whose first columns hold proper values. *)
Definition wf_data (n : nat) (r : row) : Prop := (n <= length r)%nat /\ Forall wf_value (take n r).

(** Columns without an order of their own, under lawful collations, have a
    lawful row identity. *)
Lemma plain_rows_ordered collations types colls cs :
  Forall (fun t => is_semantic (s_logicalType t) = false) types ->
  res_map (column_collation collations) types = Ok colls -> Forall2 collates colls cs ->
  exists cmp, row_comparator collations types = Ok cmp /\ ordered (wf_data (length types)) cmp (pad_compare cs).
Proof.
  intros Hp Hc Hcs. pose proof (res_map_length _ _ _ Hc) as Hlen. pose proof (Forall2_length _ _ _ Hcs) as Hlc.
  exists (row_loop (map (fun coll x y => compareSqlValuesFast x y coll) colls)). split.
  - unfold row_comparator. rewrite Hc. cbn [res_bind]. f_equal. unfold createSemanticRowComparator. f_equal.
    clear Hc Hcs Hlc cs. revert colls Hlen. induction Hp as [|t types Ht Hp IH]; intros [|coll colls] Hlen; try done.
    cbn [map imap]. unfold is_semantic in Ht. apply bool_decide_eq_false, eq_None_not_Some in Ht. f_equal.
    + unfold createSemanticValueComparator. by rewrite Ht.
    + rewrite <- (IH colls) by (by injection Hlen). apply imap_ext. intros i x _. done.
  - split; [by eapply pad_compare_laws, collates_laws|]. intros x y [Lx Wx] [Ly Wy].
    rewrite <- (row_loop_takes _ x y), length_map, <- (pad_compare_takes cs x y), <- Hlc, Hlen.
    assert (wf_row (length types) (take (length types) x)) as Hx by (split; [rewrite length_take; lia|done]).
    assert (wf_row (length types) (take (length types) y)) as Hy by (split; [rewrite length_take; lia|done]).
    rewrite (row_loop_spec colls cs _ _ _ Hcs Hx Hy). apply row_pad_compare; rewrite length_take; lia.
Qed.

(** ** Examples *)

Module Shop.

Definition no_collations : registry := fun _ => None.
Definition text_column : ScalarType := mkScalar TEXT_TYPE false None None None.
Definition int_column : ScalarType := mkScalar INTEGER_TYPE false None None None.

Definition north : list row := [[VBigint 1; VText (js "ink")]; [VBigint 2; VText (js "pen")]; [VBigint 1; VText (js "ink")]].
Definition south : list row := [[VNumber (double_of_Z 2); VText (js "pen")]; [VBigint 3; VText (js "nib")]].

Lemma rows_ok :
  Forall (fun r => 2 <= length r /\ wf_data 2 r /\ wf_data 2 (createOutputRow 2 r))%nat north /\
  Forall (fun r => 2 <= length r /\ wf_data 2 r /\ wf_data 2 (createOutputRow 2 r))%nat south.
Proof.
  assert (wf_double (double_of_Z 2) /\ not_nan (num_of_double (double_of_Z 2))) as Hd.
  { split; [|by vm_compute]. split; [split|left]; by vm_compute. }
  split; (repeat (apply Forall_cons; split; [|])); try apply Forall_nil_2; unfold wf_data;
    (split_and!; [by vm_compute; lia|by vm_compute; lia| |by vm_compute; lia|]; cbn [createOutputRow map seq row_at take lookup list_lookup];
     (apply Forall_cons; split; [exact I || exact Hd|]; apply Forall_cons; split; [by apply wf_stringb_spec|apply Forall_nil_2])).
Qed.

End Shop.

Lemma set_operations_exact_witness :
  exists cmp, row_comparator Shop.no_collations [Shop.int_column; Shop.text_column] = Ok cmp /\
    emitSetOperation (T := sorted_list) Shop.no_collations Union [Shop.int_column; Shop.text_column] 2 2 [FlagLeft; FlagRight] true
      Shop.north Shop.south
    = Ok [[VBigint 1; VText (js "ink"); VBool true; VBool false]; [VBigint 2; VText (js "pen"); VBool true; VBool true];
          [VBigint 3; VText (js "nib"); VBool false; VBool true]] /\
    apart cmp [[VBigint 1; VText (js "ink")]; [VBigint 2; VText (js "pen")]; [VBigint 3; VText (js "nib")]].
Proof.
  destruct (plain_rows_ordered Shop.no_collations [Shop.int_column; Shop.text_column] [BINARY_COLLATION; BINARY_COLLATION]
    [lex rank_cmp; lex rank_cmp]) as (cmp & Hc & Ho).
  - repeat constructor.
  - reflexivity.
  - constructor; [exact BINARY_collates|]. constructor; [exact BINARY_collates|constructor].
  - destruct (set_operations_exact (T := sorted_list) Shop.no_collations [Shop.int_column; Shop.text_column] cmp (wf_data 2)
      (pad_compare [lex rank_cmp; lex rank_cmp]) Hc Ho Shop.north Shop.south 2 2 [FlagLeft; FlagRight]
      (proj1 Shop.rows_ok) (proj2 Shop.rows_ok) Union true) as (rows & Hr & He & _).
    assert (Hx : emitSetOperation (T := sorted_list) Shop.no_collations Union [Shop.int_column; Shop.text_column] 2 2
      [FlagLeft; FlagRight] true Shop.north Shop.south
      = Ok [[VBigint 1; VText (js "ink"); VBool true; VBool false]; [VBigint 2; VText (js "pen"); VBool true; VBool true];
            [VBigint 3; VText (js "nib"); VBool false; VBool true]]) by (vm_compute; reflexivity).
    exists cmp. split; [exact Hc|]. split; [exact Hx|]. rewrite Hx in Hr. rewrite <- (f_equal (fun x => match x with Ok l => l | Throw _ => [] end) Hr) in He.
    exact (er_set _ _ _ _ _ _ _ He ltac:(discriminate)).
Defined.

End RowOpLaws.
