(* ===== verification/AggregateLaws.v ===== *)
(** * Grouping by hashing and by streaming

    The two aggregate operators of [RowOps] against a reference: the groups of
    the rows by first occurrence, and each aggregate folded over the arguments
    of a group.  The hash keys of a GROUP BY column and its comparator are shown
    to agree for the built-in types under lawful collations, so the operators
    form the same groups; every step and final value may throw. *)

From S2P Require Import Prelude Bytes Double Decimal NumberText Utf8 Json Comparison KeySerializer BTree VTab Types TypedOrder Collations.
From S2P Require Import Fds Joins JoinLaws RowOps RowOpLaws.
From Stdlib Require Import ZArith Lia.
From stdpp Require Import sorting.
From stdpp Require Import base tactics numbers sets gmap list.
#[local] Open Scope Z_scope.

Import Double Decimal NumberText Utf8 Json Comparison KeySerializer BTree VTab Types TypedOrder Collations Fds Joins JoinLaws RowOps RowOpLaws.

Module AggregateLaws.

(** ** Keys and comparators of GROUP BY columns *)

Section Keys.
Context (collations : registry) (toLowerCase : jsstring -> jsstring).
Context (timespanTotalSeconds : jsstring -> option double) (validate : SqlValue -> bool) (parse : SqlValue -> res SqlValue).

Abbreviation TIMESPAN := (TIMESPAN_TYPE timespanTotalSeconds validate parse).
Abbreviation duration := (timespan_cell timespanTotalSeconds).

(** The types whose groups are compared here. *)
Inductive group_type : LogicalType -> Prop :=
| PlainGroup t : t ∈ plain_types toLowerCase -> group_type t
| JsonGroup : group_type JSON_TYPE
| TimespanGroup : group_type TIMESPAN.

(** The values of a column of the type. *)
Definition group_value (t : LogicalType) (v : SqlValue) : Prop :=
  wf_value v /\ (t ∈ plain_types toLowerCase -> isValidForType v t = true) /\ (t = JSON_TYPE -> json_cell v) /\ (t = TIMESPAN -> duration v).

Context (lawful_registry : lawful collations).
Context (seconds_number : forall s d, timespanTotalSeconds s = Some d -> wf_double d /\ not_nan (num_of_double d)).

Abbreviation key_value t v := (canonicalize (semanticKeyTransform (Some t)) v).

(** What a column resolves to: its comparator compares under a lawful collation
    to which the normalizer of its keys is faithful, or it holds no text. *)
Lemma group_resolves g norm cmp :
  group_normalizer collations g = Ok norm -> group_comparator collations g = Ok cmp ->
  exists coll c, cmp = createTypedComparator (s_logicalType (ge_type g)) coll /\ collates (default BINARY_COLLATION coll) c /\
    (faithful (default BINARY_COLLATION coll) norm \/ typeCanHoldText (ge_type g) = false).
Proof.
  unfold group_normalizer, group_comparator, argComparator, arg_collation.
  destruct (s_collationName (ge_type g)) as [[|u name]|]; cbn [hashKeyCollationName length Nat.eqb existsb].
  - intros [= <-] [= <-]. exists None, (lex rank_cmp). split_and!; [done|apply BINARY_collates|left; apply keyed_BINARY].
  - rewrite orb_false_r. unfold resolveCollation. destruct (decide (u :: name = BINARY)) as [E|E].
    + intros Hn [= <-]. exists (Some BINARY_COLLATION), (lex rank_cmp). split_and!; [done|apply BINARY_collates|left].
      destruct (typeCanHoldText (ge_type g)); cbn [resolveKeyNormalizer] in Hn; rewrite ?decide_True in Hn by done; injection Hn as <-; apply keyed_BINARY.
    + destruct (collations (u :: name)) as [[f n]|] eqn:El; [|done]. destruct (lawful_order _ lawful_registry _ _ _ El) as [[c Hc] Hf].
      intros Hn [= <-]. exists (Some f), c. split_and!; [done|done|]. destruct (typeCanHoldText (ge_type g)); [left|by right].
      cbn [resolveKeyNormalizer] in Hn. rewrite decide_False, El in Hn by done. destruct n as [n|]; [|done]. injection Hn as <-. by apply Hf.
  - intros [= <-] [= <-]. exists None, (lex rank_cmp). split_and!; [done|apply BINARY_collates|left; apply keyed_BINARY].
Qed.

Lemma comparator_resolves t cmp :
  argComparator collations t = Ok cmp ->
  exists coll c, cmp = createTypedComparator (s_logicalType t) coll /\ collates (default BINARY_COLLATION coll) c.
Proof.
  unfold argComparator, arg_collation. destruct (s_collationName t) as [[|u name]|].
  - intros [= <-]. exists None, (lex rank_cmp). split; [done|apply BINARY_collates].
  - unfold resolveCollation. destruct (decide (u :: name = BINARY)) as [E|E].
    + intros [= <-]. exists (Some BINARY_COLLATION), (lex rank_cmp). split; [done|apply BINARY_collates].
    + destruct (collations (u :: name)) as [[f n]|] eqn:El; [|done]. destruct (lawful_order _ lawful_registry _ _ _ El) as [[c Hc] _].
      intros [= <-]. by exists (Some f), c.
  - intros [= <-]. exists None, (lex rank_cmp). split; [done|apply BINARY_collates].
Qed.

Lemma column_order t coll c :
  group_type t -> collates (default BINARY_COLLATION coll) c -> exists o, ordered (group_value t) (createTypedComparator t coll) o.
Proof.
  intros Ht Hc. destruct Ht as [t Ht| |].
  - exists (plain_order t c). destruct (typed_ordered toLowerCase t coll c Ht Hc) as [Hl Ho]. split; [done|].
    intros v w (Wv & _) (Ww & _). by apply Ho.
  - exists (json_order c). split; [apply json_order_laws, Hc|]. intros v w (Wv & _ & Jv & _) (Ww & _ & Jw & _). apply json_spec; auto.
  - exists (timespan_order timespanTotalSeconds). split; [apply timespan_order_laws|].
    intros v w (_ & _ & _ & Dv) (_ & _ & _ & Dw). apply timespan_spec; auto.
Qed.

Lemma part_no_text v norm : (forall s, v <> VText s) -> part_of v norm = part_of v IDENTITY_NORMALIZER.
Proof. intros H. destruct v; try done. by destruct (H s). Qed.

(** Parts of values without text, whatever the normalizer and the collation. *)
Lemma parts_no_text v w norm coll :
  (forall s, v <> VText s) -> (forall s, w <> VText s) -> wf_value v -> wf_value w ->
  part_of v norm = part_of w norm <-> compareSqlValuesFast v w coll = 0.
Proof.
  intros Hv Hw Wv Ww. rewrite (part_no_text v), (part_no_text w), (compare_no_text v w coll BINARY_COLLATION) by done.
  destruct keyed_BINARY as [[c Hc] Hf]. by apply (part_eq _ _ _ c).
Qed.

Lemma plain_transform t : t ∈ plain_types toLowerCase -> semanticKeyTransform (Some t) = None.
Proof. intros Ht. unfold semanticKeyTransform, hasSemanticOrdering. by rewrite (plain_not_semantic _ _ Ht). Qed.

(** The key part of a value is equal to another's exactly when the comparator
    of the column says so. *)
Lemma column_key type norm coll c v w :
  group_type (s_logicalType type) -> collates (default BINARY_COLLATION coll) c ->
  faithful (default BINARY_COLLATION coll) norm \/ typeCanHoldText type = false ->
  group_value (s_logicalType type) v -> group_value (s_logicalType type) w ->
  part_of (key_value (s_logicalType type) v) norm = part_of (key_value (s_logicalType type) w) norm <->
  createTypedComparator (s_logicalType type) coll v w = 0.
Proof.
  unfold typeCanHoldText, logicalTypeCanHoldText. generalize (s_logicalType type) as t. intros t Ht Hc Hf (Wv & Vv & Jv & Dv) (Ww & Vw & Jw & Dw).
  destruct Ht as [t Ht| |].
  - rewrite (plain_transform t Ht). cbn [canonicalize]. rewrite (plain_zero toLowerCase t coll c) by auto.
    destruct Hf as [Hf|Hn]; [by apply (part_eq _ _ _ c)|]. destruct (t_isTextual t); [done|]. apply negb_false_iff in Hn.
    apply parts_no_text; [intros s; eapply plain_no_text..|done|done]; eauto; intros E; by rewrite E in Hn.
  - change (part_of v norm = part_of w norm <-> createTypedComparator JSON_TYPE coll v w = 0). rewrite (json_zero coll c) by auto.
    destruct Hf as [Hf|Hn]; [by apply (part_eq _ _ _ c)|done].
  - change (part_of (TIMESPAN_groupKey timespanTotalSeconds v) norm = part_of (TIMESPAN_groupKey timespanTotalSeconds w) norm <->
      createTypedComparator TIMESPAN coll v w = 0). specialize (Dv eq_refl). specialize (Dw eq_refl).
    rewrite timespan_fast by done. destruct (timespan_key_wf _ seconds_number v Dv), (timespan_key_wf _ seconds_number w Dw).
    by apply parts_no_text.
Qed.

(** The values of the GROUP BY columns of a row; texts have no NUL in their key. *)
Definition group_values (groupBy : list GroupExpr) (norms : list normalizer) (vs : list SqlValue) : Prop :=
  Forall2 (fun g v => group_value (s_logicalType (ge_type g)) v) groupBy vs /\
  nul_free_row norms (zip_with canonicalize (group_canonicalizers groupBy) vs).

(** Comparators of a list of types, applied column after column, are an order. *)
Lemma types_ordered types cmps :
  Forall (fun t => group_type (s_logicalType t)) types -> res_map (argComparator collations) types = Ok cmps ->
  exists o, ordered (Forall2 (fun t v => group_value (s_logicalType t) v) types) (row_loop cmps) o.
Proof.
  intros Ht. revert cmps. induction Ht as [|t types Ht Hts IH]; intros cmps Hc.
  { injection Hc as <-. exists (fun _ _ => Eq). split; [by split|]. intros x y Hx Hy. by destruct Hx, Hy. }
  cbn in Hc. destruct (argComparator _ t) as [cmp|] eqn:Ec; [|done].
  cbn in Hc. destruct (res_map _ types) as [cs|] eqn:Ecs in Hc; [|done].
  injection Hc as <-. destruct (IH cs Ecs) as (os & Hl & Ho). destruct (comparator_resolves t cmp Ec) as (coll & c & -> & Hcoll).
  destruct (column_order _ coll c Ht Hcoll) as (o & Hol & Hoo).
  exists (fun a b => cmp_then (o (default VNull (head a)) (default VNull (head b))) (os (tail a) (tail b))). split.
  - apply cmp_then_laws; [exact (cmp_on_laws o (fun r => default VNull (head r)))|exact (cmp_on_laws os tail)].
  - intros x y Hx Hy. inversion Hx as [|? v ? vs Hv Hvs]. inversion Hy as [|? w ? ws Hw Hws]. subst. set (cmp := createTypedComparator _ coll) in *.
    change (sgn (row_loop (cmp :: cs) (v :: vs) (w :: ws)) = cmp_then (o v w) (os vs ws)).
    rewrite <- (Hoo v w Hv Hw), <- (Ho vs ws Hvs Hws). cbn [row_loop]. set (z := cmp v w). cbn zeta. destruct (Z.eqb_spec z 0) as [->|E]; [done|]. cbn. unfold sgn. by destruct z.
Qed.

Lemma res_map_map {A B C} (f : B -> res C) (g : A -> B) l : res_map (fun x => f (g x)) l = res_map f (map g l).
Proof. induction l as [|x l IH]; cbn; [done|]. by rewrite IH. Qed.

Lemma groups_ordered groupBy norms cmps :
  Forall (fun g => group_type (s_logicalType (ge_type g))) groupBy -> res_map (group_comparator collations) groupBy = Ok cmps ->
  exists o, ordered (group_values groupBy norms) (row_loop cmps) o.
Proof.
  intros Ht Hc. unfold group_comparator in Hc. rewrite (res_map_map (argComparator collations) ge_type) in Hc.
  destruct (types_ordered (map ge_type groupBy) cmps) as (o & Hl & Ho); [by apply Forall_map|done|]. exists o. split; [done|].
  intros x y [Hx _] [Hy _]. apply Ho; by apply Forall2_fmap_l.
Qed.

Lemma groups_parts groupBy norms cmps vs ws :
  Forall (fun g => group_type (s_logicalType (ge_type g))) groupBy ->
  res_map (group_normalizer collations) groupBy = Ok norms -> res_map (group_comparator collations) groupBy = Ok cmps ->
  Forall2 (fun g v => group_value (s_logicalType (ge_type g)) v) groupBy vs ->
  Forall2 (fun g v => group_value (s_logicalType (ge_type g)) v) groupBy ws ->
  parts_of (zip_with canonicalize (group_canonicalizers groupBy) vs) norms
  = parts_of (zip_with canonicalize (group_canonicalizers groupBy) ws) norms <-> row_loop cmps vs ws = 0.
Proof.
  intros Ht. revert norms cmps vs ws. induction Ht as [|g groupBy Ht Hts IH]; intros norms cmps vs ws Hn Hc Hvs Hws.
  { injection Hc as <-. by inversion Hvs. }
  cbn in Hn, Hc. destruct (group_normalizer _ g) as [norm|] eqn:En; [|done]. destruct (group_comparator _ g) as [cmp|] eqn:Ec; [|done].
  cbn in Hn, Hc. destruct (res_map _ groupBy) as [ns|] eqn:Ens in Hn; [|done]. destruct (res_map _ groupBy) as [cs|] eqn:Ecs in Hc; [|done].
  injection Hc as <-. injection Hn as <-. destruct (group_resolves g norm cmp En Ec) as (coll & c & -> & Hcoll & Hf).
  inversion Hvs as [|? v ? vs' Hv Hvs']. inversion Hws as [|? w ? ws' Hw Hws']. subst.
  cbn [group_canonicalizers map zip_with parts_of head tail default row_loop].
  fold (group_canonicalizers groupBy). specialize (IH ns cs vs' ws' Ens Ecs Hvs' Hws').
  pose proof (column_key (ge_type g) norm coll c v w Ht Hcoll Hf Hv Hw) as Hk.
  set (z := createTypedComparator _ coll v w) in *. cbn zeta. destruct (Z.eqb_spec z 0) as [E|E]; cbn [negb].
  - rewrite <- IH. split; [by intros [= _ ?]|]. intros <-. f_equal. by apply Hk.
  - split; [intros [= Hp _]; by destruct E; apply Hk|done].
Qed.

Lemma key_values_wf groupBy vs :
  Forall (fun g => group_type (s_logicalType (ge_type g))) groupBy ->
  Forall2 (fun g v => group_value (s_logicalType (ge_type g)) v) groupBy vs ->
  Forall wf_value (zip_with canonicalize (group_canonicalizers groupBy) vs) /\
  length (zip_with canonicalize (group_canonicalizers groupBy) vs) = length groupBy.
Proof.
  intros Ht Hvs. induction Hvs as [|g v groupBy vs Hv Hvs IH]; [by repeat constructor|].
  cbn [group_canonicalizers map zip_with length]. fold (group_canonicalizers groupBy). apply Forall_cons in Ht as [Ht Hts].
  destruct (IH Hts) as [H1 H2]. split; [|by rewrite H2]. constructor; [|done]. destruct Hv as (Wv & _ & _ & Dv).
  inversion Ht as [t Hp E|E|E]; [by rewrite (plain_transform _ Hp)|by rewrite <- E in *|].
  rewrite <- E in *. apply (timespan_key_wf _ seconds_number v (Dv eq_refl)).
Qed.

(** The hash keys of two rows are equal exactly when the comparators call their
    groups equal. *)
Lemma groups_keyed groupBy norms cmps vs ws :
  Forall (fun g => group_type (s_logicalType (ge_type g))) groupBy ->
  res_map (group_normalizer collations) groupBy = Ok norms -> res_map (group_comparator collations) groupBy = Ok cmps ->
  group_values groupBy norms vs -> group_values groupBy norms ws ->
  group_key groupBy norms vs = group_key groupBy norms ws <-> row_loop cmps vs ws = 0.
Proof.
  intros Ht Hn Hc [Hvs Nv] [Hws Nw]. unfold group_key. rewrite !grouping_join, <- (groups_parts groupBy norms cmps vs ws) by done.
  destruct (key_values_wf groupBy vs Ht Hvs) as [Wv Lv], (key_values_wf groupBy ws Ht Hws) as [Ww Lw].
  split; [|by intros ->]. apply join_nul_inj; [rewrite !length_parts; congruence|by apply parts_nul_free..].
Qed.

End Keys.

(** A fold that stops at the first error. *)
Fixpoint fold_res {A B} (f : A -> B -> res A) (a : A) (l : list B) : res A :=
  match l with
  | [] => Ok a
  | x :: l' => let* a' := f a x in fold_res f a' l'
  end.

Lemma fold_res_app {A B} (f : A -> B -> res A) a l l' : fold_res f a (l ++ l') = let* b := fold_res f a l in fold_res f b l'.
Proof. revert a. induction l as [|x l IH]; intros a; cbn; [done|]. destruct (f a x); cbn; [apply IH|done]. Qed.

Lemma fold_res_snoc {A B} (f : A -> B -> res A) a l x : fold_res f a (l ++ [x]) = let* b := fold_res f a l in f b x.
Proof. rewrite fold_res_app. destruct (fold_res f a l); cbn; [by destruct (f a0 x)|done]. Qed.

(** ** Groups *)

Section Aggregation.
Context {T : Type -> Type} `{Hbt : BTree T} {Acc : Type} (collations : registry) (toUpperCase : jsstring -> jsstring).

Abbreviation value := SqlValue.
Abbreviation row := (list SqlValue).

Abbreviation call := (@AggregateCall Acc * (list value -> list value -> Z))%type.
Abbreviation state := (@GroupState T Acc).
Abbreviation accumulators := (list (Acc * option (T (list value)))).
Abbreviation fresh_all calls := (map (fun p : call => fresh (T := T) p.1) calls).

(** A source row with what the plan evaluates on it. *)
Record entry := mkEntry { e_values : list value; e_args : list (list value); e_row : row }.

Definition eval_row (groupBy : list GroupExpr) (calls : list call) (r : row) : res entry :=
  let* values := evalArgsSync (map ge_run groupBy) None r in
  let* args := eval_calls toUpperCase calls r in
  Ok (mkEntry values args r).

(** The rows up to the first one whose evaluation throws. *)
Fixpoint evaluated (groupBy : list GroupExpr) (calls : list call) (rows : list row) : list entry * option js_error :=
  match rows with
  | [] => ([], None)
  | r :: rows' =>
    match eval_row groupBy calls r with
    | Throw e => ([], Some e)
    | Ok e => let '(es, err) := evaluated groupBy calls rows' in (e :: es, err)
    end
  end.

(** A group: its first row and the later ones. *)
Abbreviation group := (entry * list entry)%type.

Fixpoint add_entry (same : entry -> entry -> bool) (e : entry) (gs : list group) : list group :=
  match gs with
  | [] => [(e, [])]
  | g :: gs' => if same g.1 e then (g.1, g.2 ++ [e]) :: gs' else g :: add_entry same e gs'
  end.

(** The groups of a list of rows, by first occurrence. *)
Definition groups_of (same : entry -> entry -> bool) (es : list entry) : list group :=
  foldl (fun gs e => add_entry same e gs) [] es.

Definition members (g : group) : list entry := g.1 :: g.2.

Definition last_of (g : group) : entry := default g.1 (last g.2).

(** The accumulators of a group after its rows. *)
Definition accumulated (calls : list call) (g : group) : res accumulators :=
  fold_res (fun (accs : accumulators) e => step_values (calls : list call) accs (e_args e)) (fresh_all calls) (members g).

(** The row of a group as the operators compute it, with the values of one of
    its rows. *)
Definition result (calls : list call) (pick : group -> entry) (g : group) : res (row * option row) :=
  let* accs := accumulated calls g in
  let* values := finalize calls accs in
  Ok (e_values (pick g) ++ values, Some (e_row g.1)).

(** A state in memory stands for a group. *)
Record stands (calls : list call) (pick : group -> entry) (g : group) (st : state) : Prop := {
  st_values : groupValues st = e_values (pick g);
  st_accs : accumulated calls g = Ok (g_accumulators st);
  st_row : representativeSourceRow st = e_row g.1
}.

Lemma emit_stands calls pick g st : stands calls pick g st -> emit_group calls st = result calls pick g.
Proof. intros [Hv Ha Hr]. unfold emit_group, result. rewrite Ha, Hv, Hr. done. Qed.

(** An aggregate function threw [e]. *)
Definition threw (calls : list call) (e : js_error) : Prop :=
  exists p, p ∈ calls /\ ((exists acc args, stepFunction (agg_schema p.1) acc args = Throw e) \/ exists acc, finalizeFunction (agg_schema p.1) acc = Throw e).

Lemma threw_cons p calls e : threw calls e -> threw (p :: calls) e.
Proof. intros (q & Hq & H). exists q. split; [by right|done]. Qed.

Lemma step_value_threw (p : call) (a : Acc * option (T (list value))) args e : step_value p.1 p.2 a args = Throw e -> threw [p] e.
Proof.
  unfold step_value. intros H. exists p. split; [left|]. left. destruct a.2 as [t|].
  - destruct (tree_insert p.2 t args) as [t' [|]]; [|done]. destruct (stepFunction _ a.1 args) eqn:E; [done|]. injection H as <-. eauto.
  - destruct (stepFunction _ a.1 args) eqn:E; [done|]. injection H as <-. eauto.
Qed.

Lemma threw_here p (calls : list call) e : threw [p] e -> threw (p :: calls) e.
Proof. intros (q & Hq%list_elem_of_singleton & H). subst q. exists p. split; [left|done]. Qed.

Lemma step_values_threw (calls : list call) (accs : accumulators) args e : step_values calls accs args = Throw e -> threw calls e.
Proof.
  revert accs args. induction calls as [|[agg cmp] calls IH]; intros [|a accs] [|x args]; try done. cbn [step_values].
  destruct (step_value agg cmp a x) as [a'|e'] eqn:E; cbn.
  - destruct (step_values calls accs args) as [rest|e'] eqn:Er; cbn; [done|]. intros [= <-]. apply threw_cons. by eapply IH.
  - intros [= <-]. apply threw_here. by apply (step_value_threw (agg, cmp)) in E.
Qed.

Lemma finalize_threw (calls : list call) (accs : accumulators) e : finalize calls accs = Throw e -> threw calls e.
Proof.
  unfold finalize. revert accs. induction calls as [|p calls IH]; intros [|a accs]; try done. cbn.
  destruct (finalizeFunction (agg_schema p.1) a.1) as [v|e'] eqn:E; cbn.
  - destruct (res_map _ (zip calls accs)) as [vs|e'] eqn:Er; cbn; [done|]. intros [= <-]. apply threw_cons. by eapply IH.
  - intros [= <-]. exists p. split; [left|]. right. by exists a.1.
Qed.

Lemma step_values_length (calls : list call) (accs accs' : accumulators) args :
  length accs = length calls -> length args = length calls -> step_values calls accs args = Ok accs' -> length accs' = length calls.
Proof.
  revert accs accs' args. induction calls as [|[agg cmp] calls IH]; intros [|a accs] accs' [|x args]; try done; cbn [step_values].
  - by intros _ _ [= <-].
  - intros [= Ha] [= Hx]. destruct (step_value agg cmp a x); [|done]. cbn. destruct (step_values calls accs args) as [rest|] eqn:E; [|done].
    intros [= <-]. cbn. f_equal. by eapply IH.
Qed.

(** The steps of a row, with their arguments evaluated one aggregate at a time. *)
Lemma step_each_spec (calls : list call) (accs : accumulators) r :
  length accs = length calls ->
  match eval_calls toUpperCase calls r with
  | Ok args => step_each toUpperCase calls accs r = step_values calls accs args
  | Throw e => exists e', step_each toUpperCase calls accs r = Throw e' /\ (e' = e \/ threw calls e')
  end.
Proof.
  unfold eval_calls. revert accs. induction calls as [|[agg cmp] calls IH]; intros [|a accs] H; try done. cbn [step_each step_values res_map fst].
  destruct (eval_call toUpperCase agg r) as [x|e]; cbn [res_bind]; [|exists e; by split; [|left]]. specialize (IH accs ltac:(by injection H)).
  destruct (res_map _ calls) as [args|e]; cbn [res_bind].
  - destruct (step_value agg cmp a x) as [a'|e'] eqn:E; [|done]. cbn [res_bind]. by rewrite IH.
  - destruct (step_value agg cmp a x) as [a'|e'] eqn:E; cbn [res_bind].
    + destruct IH as (e' & -> & He). exists e'. split; [done|]. destruct He as [->|He]; [by left|right; by apply threw_cons].
    + exists e'. split; [done|]. right. apply threw_here. by apply (step_value_threw (agg, cmp)) in E.
Qed.

Lemma eval_row_args groupBy calls r e : eval_row groupBy calls r = Ok e -> length (e_args e) = length calls.
Proof.
  unfold eval_row. destruct (evalArgsSync _ _ r); [|done]. cbn. destruct (eval_calls _ calls r) as [args|] eqn:E; [|done].
  cbn. intros [= <-]. cbn. by apply res_map_length in E.
Qed.

Lemma evaluated_args groupBy calls rows : Forall (fun e => length (e_args e) = length calls) (evaluated groupBy calls rows).1.
Proof.
  induction rows as [|r rows IH]; cbn; [constructor|]. destruct (eval_row _ _ r) as [e|] eqn:E; [|constructor].
  apply eval_row_args in E. destruct (evaluated groupBy calls rows) as [es err]. cbn in *. by constructor.
Qed.

Lemma length_accumulated calls g accs :
  Forall (fun e => length (e_args e) = length calls) (members g) -> accumulated calls g = Ok accs -> length accs = length calls.
Proof.
  unfold accumulated. intros H.
  assert (Hf : forall a : accumulators, length a = length calls ->
    fold_res (fun (accs : accumulators) e => step_values (calls : list call) accs (e_args e)) a (members g) = Ok accs -> length accs = length calls);
    [|apply Hf; by rewrite length_map].
  induction H as [|e l He Hl IH]; intros a Ha; cbn; [by intros [= <-]|].
  destruct (step_values calls a (e_args e)) as [a'|] eqn:E; [|done]. cbn. apply IH. by eapply step_values_length.
Qed.

Lemma accumulated_snoc calls g e : accumulated calls (g.1, g.2 ++ [e]) = let* accs := accumulated calls g in step_values calls accs (e_args e).
Proof. unfold accumulated, members. cbn [fst snd]. by rewrite app_comm_cons, fold_res_snoc. Qed.


(** ** What grouping keeps *)

Lemma groups_of_snoc same es e : groups_of same (es ++ [e]) = add_entry same e (groups_of same es).
Proof. unfold groups_of. by rewrite foldl_app. Qed.

Lemma add_entry_ext same same' e gs :
  (forall g, g ∈ gs -> same g.1 e = same' g.1 e) -> add_entry same e gs = add_entry same' e gs.
Proof.
  induction gs as [|g gs IH]; intros H; cbn; [done|]. rewrite (H g) by left. destruct (same' g.1 e); [done|].
  f_equal. apply IH. intros g' Hg'. apply H. by right.
Qed.

Lemma add_entry_elem same e gs g x : g ∈ add_entry same e gs -> x ∈ members g -> x = e \/ exists g', g' ∈ gs /\ x ∈ members g'.
Proof.
  induction gs as [|g0 gs IH]; cbn.
  - intros ->%list_elem_of_singleton Hx. left. by apply list_elem_of_singleton in Hx.
  - destruct (same g0.1 e).
    + intros [->|Hg]%elem_of_cons Hx; [|right; exists g; split; [by right|done]].
      unfold members in Hx. cbn in Hx. apply elem_of_cons in Hx as [->|Hx]; [right; exists g0; split; [left|left]|].
      apply elem_of_app in Hx as [Hx|Hx]; [right; exists g0; split; [left|by right]|].
      apply list_elem_of_singleton in Hx. by left.
    + intros [->|Hg]%elem_of_cons Hx; [right; exists g0; split; [left|done]|].
      destruct (IH Hg Hx) as [->|(g' & Hg' & Hx')]; [by left|]. right. exists g'. split; [by right|done].
Qed.

Lemma members_of same es g x : g ∈ groups_of same es -> x ∈ members g -> x ∈ es.
Proof.
  revert g. induction es as [|e es IH] using rev_ind; intros g; [by intros ?%elem_of_nil|]. rewrite groups_of_snoc.
  intros Hg Hx. apply elem_of_app. destruct (add_entry_elem _ _ _ _ _ Hg Hx) as [->|(g' & Hg' & Hx')]; [right; by left|].
  left. by eapply IH.
Qed.

Lemma groups_of_ext same same' es :
  (forall x y, x ∈ es -> y ∈ es -> same x y = same' x y) -> groups_of same es = groups_of same' es.
Proof.
  induction es as [|e es IH] using rev_ind; intros H; [done|]. rewrite !groups_of_snoc, <- IH.
  - apply add_entry_ext. intros g Hg. apply H; [|apply elem_of_app; right; by left].
    apply elem_of_app. left. eapply members_of; [done|left].
  - intros x y Hx Hy. apply H; apply elem_of_app; by left.
Qed.

Lemma add_entry_Forall (P : entry -> Prop) same gs e :
  Forall (fun g => Forall P (members g)) gs -> P e -> Forall (fun g => Forall P (members g)) (add_entry same e gs).
Proof.
  intros H He. induction H as [|g gs Hg H IH]; cbn; [by repeat constructor|]. destruct (same g.1 e); [|by constructor].
  constructor; [|done]. unfold members in *. cbn. apply Forall_cons in Hg as [H1 H2]. constructor; [done|].
  apply Forall_app. by split; [|constructor].
Qed.

(** A group whose steps threw keeps having thrown. *)
Lemma throw_persists calls same es gs g x :
  g ∈ gs -> accumulated calls g = Throw x -> exists g', g' ∈ foldl (fun gs e => add_entry same e gs) gs es /\ accumulated calls g' = Throw x.
Proof.
  revert gs g. induction es as [|e es IH]; intros gs g Hg Hx; cbn; [eauto|].
  assert (exists g', g' ∈ add_entry same e gs /\ accumulated calls g' = Throw x) as (g' & Hg' & Hx'); [|by eapply IH].
  clear IH. induction gs as [|g0 gs IH]; [by apply elem_of_nil in Hg|]. cbn. apply elem_of_cons in Hg as [->|Hg].
  - destruct (same g0.1 e); [|exists g0; split; [left|done]]. exists (g0.1, g0.2 ++ [e]). split; [left|]. pose proof (accumulated_snoc calls g0 e) as Ha. rewrite Hx in Ha. exact Ha.
  - destruct (same g0.1 e); [exists g; split; [by right|done]|]. destruct (IH Hg) as (g' & Hg' & Hx'). exists g'. split; [by right|done].
Qed.

(** ** Hashing *)

Section Hash.
Context (groupBy : list GroupExpr) (norms : list normalizer) (calls : list call).

Abbreviation key_of e := (group_key groupBy norms (e_values e)).
Abbreviation by_key := (fun e e' => bool_decide (key_of e = key_of e')).
Abbreviation has_args := (fun e => length (e_args e) = length calls).

(** The map in memory holds the groups, by the key of their first row. *)
Definition table (gs : list group) (tbl : list (jsstring * state)) : Prop :=
  Forall2 (fun g kv => kv.1 = key_of g.1 /\ stands calls fst g kv.2) gs tbl.

(** The group a row joins, and the map with the row stepped. *)
Lemma join_group gs tbl e :
  table gs tbl -> Forall (fun g => Forall has_args (members g)) gs -> has_args e ->
  let st := default (mkGroup (e_values e) (fresh_all calls) (e_row e)) (alist_get (key_of e) tbl) in
  length (g_accumulators st) = length calls /\
  match step_values calls (g_accumulators st) (e_args e) with
  | Ok accs => table (add_entry by_key e gs) (alist_set (key_of e) (mkGroup (groupValues st) accs (representativeSourceRow st)) tbl)
  | Throw x => exists g, g ∈ add_entry by_key e gs /\ accumulated calls g = Throw x
  end.
Proof.
  intros Ht Hgs He. induction Ht as [|g [k st0] gs tbl [Hk Hst] Ht IH]; cbv zeta.
  - cbn [alist_get default]. cbn. split; [by rewrite length_map|].
    assert (Ha : accumulated calls (e, []) = step_values calls (fresh_all calls) (e_args e))
      by (unfold accumulated; cbn; by destruct (step_values _ _ _)).
    destruct (step_values calls (fresh_all calls) (e_args e)) as [accs|x]; [|exists (e, []); split; [left|done]].
    constructor; [|constructor]. split; [done|]. by split.
  - cbn in Hk. subst k. apply Forall_cons in Hgs as [Hg Hgs]. cbn [alist_get alist_set add_entry].
    destruct (decide (key_of g.1 = key_of e)) as [E|E].
    + rewrite bool_decide_eq_true_2 by done. cbn [default]. cbn. split; [by eapply length_accumulated; [|exact (st_accs _ _ _ _ Hst)]|].
      pose proof (accumulated_snoc calls g e) as Ha. rewrite (st_accs _ _ _ _ Hst) in Ha. cbn in Ha.
      destruct (step_values calls (g_accumulators st0) (e_args e)) as [accs|x]; [|exists (g.1, g.2 ++ [e]); split; [left|done]].
      constructor; [|done]. split; [done|]. destruct Hst as [Hv _ Hr]. by split.
    + rewrite bool_decide_eq_false_2 by done. destruct (IH Hgs) as [H1 H2]. split; [done|].
      destruct (step_values _ _ (e_args e)) as [accs|x].
      * constructor; [by split|done].
      * destruct H2 as (g' & Hg' & Hx). exists g'. split; [by right|done].
Qed.

Lemma build_groups_spec rows gs tbl :
  table gs tbl -> Forall (fun g => Forall has_args (members g)) gs ->
  let '(es, err) := evaluated groupBy calls rows in
  let all := foldl (fun gs e => add_entry by_key e gs) gs es in
  match build_groups toUpperCase groupBy norms calls tbl rows with
  | Ok tbl' => err = None /\ table all tbl'
  | Throw x => (err = Some x \/ threw calls x) /\ (err = None -> exists g, g ∈ all /\ accumulated calls g = Throw x)
  end.
Proof.
  revert gs tbl. induction rows as [|r rows IH]; intros gs tbl Ht Hgs; [done|]. cbn [build_groups evaluated]. unfold build_group, eval_row.
  destruct (evalArgsSync (map ge_run groupBy) None r) as [values|x]; [|by split; [left|]]. cbn [res_bind].
  set (st := default _ _).
  assert (Hlen : length (g_accumulators st) = length calls).
  { pose proof (join_group gs tbl (mkEntry values (map (fun _ => []) calls) r) Ht Hgs) as H. cbn in H. rewrite length_map in H. by apply H. }
  pose proof (step_each_spec calls (g_accumulators st) r Hlen) as Hs.
  destruct (eval_calls toUpperCase calls r) as [args|x] eqn:E; cbn [res_bind].
  - rewrite Hs. pose proof (res_map_length _ _ _ E) as Hl.
    destruct (join_group gs tbl (mkEntry values args r) Ht Hgs Hl) as [_ Hj]. cbn [e_values e_args e_row] in Hj. fold st in Hj.
    destruct (step_values calls (g_accumulators st) args) as [accs|x] eqn:Ev; cbn [res_bind].
    + specialize (IH _ _ Hj ltac:(by apply add_entry_Forall)). by destruct (evaluated groupBy calls rows) as [es err].
    + destruct (evaluated groupBy calls rows) as [es err]. cbn [foldl]. split; [right; by eapply step_values_threw|].
      intros _. destruct Hj as (g & Hg & Hx). by eapply throw_persists.
  - destruct Hs as (x' & -> & Hx). cbn. split; [|done]. destruct Hx as [->|Hx]; [by left|by right].
Qed.

End Hash.

(** ** What is yielded *)

(** The rows of the first groups, and an error when the evaluation of a row or
    an aggregate of a group throws, and only then. *)
Definition outcome (calls : list call) (err : option js_error) (gs : list group) (row_of : group -> res (row * option row))
    (out : list (row * option row) * option js_error) : Prop :=
  (exists k, map Ok out.1 = map row_of (take k gs) /\ (out.2 = None -> take k gs = gs)) /\
  (is_Some out.2 <-> is_Some err \/ exists g x, g ∈ gs /\ row_of g = Throw x) /\
  (forall x, out.2 = Some x -> err = Some x \/ threw calls x).

Lemma accumulated_threw calls g x : accumulated calls g = Throw x -> threw calls x.
Proof.
  unfold accumulated. generalize (fresh_all calls : accumulators) as a. induction (members g) as [|e l IH]; intros a; cbn; [done|].
  destruct (step_values calls a (e_args e)) as [a'|x'] eqn:E; cbn; [apply IH|]. intros [= <-]. by eapply step_values_threw.
Qed.

Lemma result_threw calls pick g x : result calls pick g = Throw x -> threw calls x.
Proof.
  unfold result. destruct (accumulated calls g) as [accs|x'] eqn:E; cbn.
  - destruct (finalize calls accs) as [vs|x'] eqn:Ef; [done|]. intros [= <-]. by eapply finalize_threw.
  - intros [= <-]. by eapply accumulated_threw.
Qed.

Lemma accumulated_result calls pick g x : accumulated calls g = Throw x -> result calls pick g = Throw x.
Proof. unfold result. by intros ->. Qed.

Lemma emit_groups_spec calls pick gs (sts : list state) :
  Forall2 (stands calls pick) gs sts -> outcome calls None gs (result calls pick) (emit_groups calls sts).
Proof.
  induction 1 as [|g st gs sts Hst H IH]; cbn.
  - split; [exists 0%nat; done|]. split; [|done]. split; [by intros [? ?]|]. intros [[? ?]|(g & x & Hg & _)]; [done|by apply elem_of_nil in Hg].
  - rewrite (emit_stands _ _ _ _ Hst). destruct (result calls pick g) as [out|x] eqn:E.
    + destruct (emit_groups calls sts) as [rows err]. destruct IH as ((k & Hk & Hall) & Hiff & Hx). cbn [fst snd] in *. split; [|split].
      * exists (S k). cbn. rewrite E, Hk. split; [done|]. intros Hn. by rewrite (Hall Hn).
      * rewrite Hiff. setoid_rewrite elem_of_cons. split; [naive_solver|]. intros [?|(g' & x & [->|Hg'] & Hx')]; [by left|congruence|eauto].
      * done.
    + cbn. split; [exists 0%nat; done|]. split.
      * split; [|by eexists]. intros _. right. exists g, x. split; [left|done].
      * intros x' [= <-]. right. by eapply result_threw.
Qed.

(** What an operator yields after the rows of the groups [gs]. *)
Record yields_after (calls : list call) (err : option js_error) (gs all : list group) (row_of : group -> res (row * option row))
    (out : list (row * option row) * option js_error) : Prop := {
  ya_rows : exists k, map row_of gs ++ map Ok out.1 = map row_of (take k all) /\ (out.2 = None -> take k all = all);
  ya_done : out.2 = None -> err = None;
  ya_error : forall x, out.2 = Some x -> (err = Some x \/ threw calls x) /\ (err = None -> exists g y, g ∈ all /\ row_of g = Throw y)
}.

Lemma yields_outcome calls err all row_of out : yields_after calls err [] all row_of out -> outcome calls err all row_of out.
Proof.
  intros [(k & Hk & Hall) Hd He]. cbn in Hk. split; [by exists k|]. split; [|intros x Hx; by apply He].
  destruct out.2 as [x|] eqn:Ex.
  - split; [|by eexists]. intros _. destruct (He x eq_refl) as [_ H]. destruct err as [y|]; [by left|]. right. by apply H.
  - split; [by intros [? ?]|]. rewrite (Hd eq_refl). intros [[? ?]|(g & y & Hg & Hy)]; [done|]. exfalso.
    rewrite (Hall eq_refl) in Hk. apply (list_elem_of_fmap_2 row_of) in Hg.
    change (row_of <$> all) with (map row_of all) in Hg. rewrite <- Hk, Hy in Hg. apply list_elem_of_fmap in Hg as (? & ? & _). done.
Qed.

Lemma prefix_take (gs all : list group) : gs `prefix_of` all -> take (length gs) all = gs.
Proof. intros [l ->]. by rewrite take_app_length. Qed.

(** The operator stops with an error. *)
Lemma yields_stop calls err gs all row_of x :
  gs `prefix_of` all -> err = Some x \/ threw calls x -> (err = None -> exists g y, g ∈ all /\ row_of g = Throw y) ->
  yields_after calls err gs all row_of ([], Some x).
Proof.
  intros Hp He Hg. split; [|done|by intros y [= <-]]. exists (length gs). rewrite prefix_take by done. by rewrite app_nil_r.
Qed.

(** The operator yields the row of a group first. *)
Lemma yields_cons calls err gs g all row_of r rows e :
  row_of g = Ok r -> yields_after calls err (gs ++ [g]) all row_of (rows, e) -> yields_after calls err gs all row_of (r :: rows, e).
Proof.
  intros Hr [(k & Hk & Hall) Hd He]. split; [|done|done]. exists k. split; [|done]. cbn [fst] in *.
  rewrite <- Hk, map_app, <- (assoc_L (++)). cbn. by rewrite Hr.
Qed.

Section Order.
Context (gcmp : list value -> list value -> Z) (gdom : list value -> Prop) (gc : list value -> list value -> comparison).
Context (Hord : ordered gdom gcmp gc).

#[local] Instance group_laws : CmpLaws gc := proj1 Hord.

Definition same_group (e e' : entry) : bool := gcmp (e_values e) (e_values e') =? 0.

Abbreviation proper es := (Forall (fun e => gdom (e_values e)) es).

Lemma same_group_spec e e' :
  gdom (e_values e) -> gdom (e_values e') -> same_group e e' = true <-> gc (e_values e) (e_values e') = Eq.
Proof. intros He He'. unfold same_group. rewrite Z.eqb_eq. by apply (cmp_zero gcmp gdom gc Hord). Qed.

(** Every row of a group is like its first, and the first rows of two groups
    differ. *)
Record grouped (gs : list group) : Prop := {
  gr_members : Forall (fun g => Forall (fun e => gc (e_values g.1) (e_values e) = Eq) (members g)) gs;
  gr_heads : StronglySorted (fun g g' : group => gc (e_values g.1) (e_values g'.1) <> Eq) gs
}.

Lemma add_entry_grouped gs e :
  Forall (fun g => gdom (e_values g.1)) gs -> gdom (e_values e) -> grouped gs -> grouped (add_entry same_group e gs).
Proof.
  intros Hd He [Hm Hh]. split.
  - induction Hm as [|g gs Hg Hm IH]; cbn.
    { constructor; [|constructor]. constructor; [apply (cmp_refl gc)|constructor]. }
    apply Forall_cons in Hd as [Hgd Hd]. apply StronglySorted_inv in Hh as [Hh _]. destruct (same_group g.1 e) eqn:E.
    + apply same_group_spec in E; [|done..]. constructor; [|done]. unfold members in *. cbn.
      apply Forall_cons in Hg as [H1 H2]. constructor; [done|]. apply Forall_app. by split; [|constructor].
    + constructor; [done|]. by apply IH.
  - clear Hm. induction Hh as [|g gs Hh IH Hg]; cbn; [by repeat constructor|]. apply Forall_cons in Hd as [Hgd Hd].
    destruct (same_group g.1 e) eqn:E; [by constructor|]. constructor; [by apply IH|].
    assert (gc (e_values g.1) (e_values e) <> Eq) as Hne by (intros Hx; apply same_group_spec in Hx; [congruence|done..]).
    clear IH Hh Hd. induction Hg as [|g' gs Hg' Hg IH]; cbn; [by constructor|]. by destruct (same_group g'.1 e); constructor.
Qed.

Lemma groups_grouped es : proper es -> grouped (groups_of same_group es).
Proof.
  induction es as [|e es IH] using rev_ind; intros H; [by split; constructor|]. rewrite groups_of_snoc.
  apply Forall_app in H as [H He]. apply Forall_inv in He. apply add_entry_grouped; [|done|by apply IH].
  apply Forall_forall. intros g Hg. apply (proj1 (Forall_forall _ _) H). eapply members_of; [done|left].
Qed.

Lemma last_of_member g : last_of g ∈ members g.
Proof.
  unfold last_of, members. destruct (last g.2) as [e|] eqn:E; [|left]. right. apply last_Some in E as [l ->].
  apply elem_of_app. right. by left.
Qed.

(** A row like the last group joins it. *)
Lemma add_entry_last gs g e :
  grouped (gs ++ [g]) -> Forall (fun g => gdom (e_values g.1)) (gs ++ [g]) -> gdom (e_values e) ->
  gc (e_values g.1) (e_values e) = Eq -> add_entry same_group e (gs ++ [g]) = gs ++ [(g.1, g.2 ++ [e])].
Proof.
  intros [_ Hh] Hd He E. induction gs as [|g0 gs IH].
  - cbn. apply Forall_inv in Hd. by rewrite (proj2 (same_group_spec g.1 e Hd He) E).
  - cbn in *. apply Forall_cons in Hd as [Hg0 Hd]. apply StronglySorted_inv in Hh as [Hh H0].
    destruct (same_group g0.1 e) eqn:E0.
    + exfalso. apply same_group_spec in E0; [|done..]. rewrite Forall_forall in H0. apply (H0 g); [apply elem_of_app; right; by left|].
      rewrite (cmp_eq_l gc _ _ (e_values g.1) E0). by apply (cmp_eq_sym gc).
    + f_equal. by apply IH.
Qed.

(** A row unlike every group starts one. *)
Lemma add_entry_new gs e :
  Forall (fun g => same_group g.1 e = false) gs -> add_entry same_group e gs = gs ++ [(e, [])].
Proof. induction 1 as [|g gs Hg H IH]; cbn; [done|]. by rewrite Hg, IH. Qed.

(** ** Streaming *)

Definition sorted_groups (es : list entry) : Prop := StronglySorted (fun e e' => gcmp (e_values e) (e_values e') <= 0) es.

Lemma not_gt x y : gdom x -> gdom y -> gcmp x y <= 0 -> gc x y <> Gt.
Proof. intros Hx Hy H E. rewrite <- (proj2 Hord) in E by done. apply sgn_gt in E. lia. Qed.

(** The last group of the rows so far ends with the greatest of them. *)
Record at_group (p : list entry) (gs : list group) (g : group) : Prop := {
  ag_groups : groups_of same_group p = gs ++ [g];
  ag_last : forall x, x ∈ p -> gc (e_values x) (e_values (last_of g)) <> Gt
}.

(** The next row of a sorted input joins the last group or starts one. *)
Lemma next_entry p gs g e :
  at_group p gs g -> proper (p ++ [e]) -> sorted_groups (p ++ [e]) ->
  if gcmp (e_values (last_of g)) (e_values e) =? 0 then at_group (p ++ [e]) gs (g.1, g.2 ++ [e])
  else at_group (p ++ [e]) (gs ++ [g]) (e, []).
Proof.
  intros [Hg Hle] Hp Hs. apply Forall_app in Hp as [Hpp Hde]. apply Forall_inv in Hde.
  assert (Hlast : forall x, x ∈ p ++ [e] -> gc (e_values x) (e_values e) <> Gt).
  { intros x [Hx|Hx]%elem_of_app; [|apply list_elem_of_singleton in Hx as ->; by rewrite (cmp_refl gc)].
    rewrite Forall_forall in Hpp. apply not_gt; [auto|done|]. apply StronglySorted_app in Hs as (Hx' & _ & _). apply (Hx' x e Hx). left. }
  assert (Hgm : forall x g', g' ∈ gs ++ [g] -> x ∈ members g' -> x ∈ p) by (intros x g' Hg' Hx; rewrite <- Hg in Hg'; by eapply members_of).
  assert (Hgin : last_of g ∈ p) by (apply (Hgm _ g); [apply elem_of_app; right; by left|apply last_of_member]).
  assert (Hheads : Forall (fun g => gdom (e_values g.1)) (gs ++ [g])).
  { apply Forall_forall. intros g' Hg'. apply (proj1 (Forall_forall _ _) Hpp), (Hgm _ g' Hg'). left. }
  pose proof (groups_grouped p Hpp) as Hgr. rewrite Hg in Hgr.
  assert (gdom (e_values (last_of g))) as Hdl by (rewrite Forall_forall in Hpp; auto).
  assert (gc (e_values g.1) (e_values (last_of g)) = Eq) as Hgl.
  { pose proof (gr_members _ Hgr) as Hm. apply Forall_app in Hm as [_ Hm]. apply Forall_inv in Hm.
    rewrite Forall_forall in Hm. apply Hm, last_of_member. }
  pose proof (cmp_zero gcmp gdom gc Hord (e_values (last_of g)) (e_values e) Hdl Hde) as Hz.
  destruct (Z.eqb_spec (gcmp (e_values (last_of g)) (e_values e)) 0) as [E|E].
  - apply Hz in E. split; [|unfold last_of; cbn; by rewrite last_snoc].
    rewrite groups_of_snoc, Hg. apply add_entry_last; [done|done|done|]. by rewrite (cmp_eq_l gc _ _ (e_values e) Hgl).
  - split; [|done]. rewrite groups_of_snoc, Hg. apply add_entry_new. rewrite Forall_forall in Hheads |- *. intros g' Hg'.
    apply not_true_is_false. intros Hsm%same_group_spec; [|by apply Hheads|done].
    assert (g'.1 ∈ p) as Hin by (apply (Hgm _ g' Hg'); left).
    assert (gc (e_values (last_of g)) (e_values e) = Lt) as Hlt.
    { specialize (Hlast (last_of g) ltac:(apply elem_of_app; by left)). destruct (gc (e_values (last_of g)) (e_values e)) eqn:Ec; [|done|done].
      destruct E. by apply Hz. }
    specialize (Hle _ Hin). rewrite (cmp_eq_l gc _ _ (e_values (last_of g)) Hsm) in Hle.
    apply (cmp_lt_gt gc) in Hlt. congruence.
Qed.

(** So the groups before the last one are final. *)
Lemma groups_prefix es p gs g :
  at_group p gs g -> proper (p ++ es) -> sorted_groups (p ++ es) -> gs `prefix_of` groups_of same_group (p ++ es).
Proof.
  revert p gs g. induction es as [|e es IH]; intros p gs g Hg Hp Hs.
  { rewrite app_nil_r, (ag_groups _ _ _ Hg). by exists [g]. }
  assert (Hpe : proper (p ++ [e])) by (rewrite (cons_middle e p es), (assoc_L (++)) in Hp; by apply Forall_app in Hp as [? _]).
  assert (Hse : sorted_groups (p ++ [e])) by (unfold sorted_groups in *; rewrite (cons_middle e p es), (assoc_L (++)) in Hs; by apply StronglySorted_app in Hs as (_ & ? & _)).
  pose proof (next_entry p gs g e Hg Hpe Hse) as Hn.
  rewrite (cons_middle e p es), (assoc_L (++)) in *. destruct (_ =? 0).
  - by apply (IH _ _ _ Hn).
  - etransitivity; [|by apply (IH _ _ _ Hn)]. by exists [g].
Qed.

Context (groupBy : list GroupExpr) (calls : list call).

Abbreviation row_of := (result calls last_of).

Lemma stands_step g st e accs :
  stands calls last_of g st -> step_values calls (g_accumulators st) (e_args e) = Ok accs ->
  stands calls last_of (g.1, g.2 ++ [e]) (mkGroup (e_values e) accs (representativeSourceRow st)).
Proof.
  intros [Hv Ha Hr] Hs. split; cbn.
  - unfold last_of. cbn. by rewrite last_snoc.
  - pose proof (accumulated_snoc calls g e) as H. rewrite Ha in H. cbn in H. by rewrite Hs in H.
  - done.
Qed.

Lemma stands_new e accs :
  step_values calls (fresh_all calls) (e_args e) = Ok accs -> stands calls last_of (e, []) (mkGroup (e_values e) accs (e_row e)).
Proof. intros H. split; [done| |done]. unfold accumulated. cbn. by rewrite H. Qed.

Lemma accumulated_new e x : step_values calls (fresh_all calls) (e_args e) = Throw x -> accumulated calls (e, []) = Throw x.
Proof. intros H. unfold accumulated. cbn. by rewrite H. Qed.

(** A row whose step throws ends the input. *)
Lemma step_stop p es gs g err x :
  at_group p gs g -> proper (p ++ es) -> sorted_groups (p ++ es) -> accumulated calls g = Throw x ->
  yields_after calls err gs (groups_of same_group (p ++ es)) row_of ([], Some x).
Proof.
  intros Hg Hp Hs Hx. apply yields_stop; [by eapply groups_prefix|right; by eapply accumulated_threw|].
  intros _. unfold groups_of. rewrite foldl_app. fold (groups_of same_group p). rewrite (ag_groups _ _ _ Hg).
  destruct (throw_persists calls same_group es (gs ++ [g]) g x) as (g' & Hg' & Hx'); [apply elem_of_app; right; by left|done|].
  exists g', x. split; [done|]. by apply accumulated_result.
Qed.

Lemma stream_spec rows gs g p st :
  at_group p gs g -> stands calls last_of g st ->
  proper (p ++ (evaluated groupBy calls rows).1) -> sorted_groups (p ++ (evaluated groupBy calls rows).1) ->
  yields_after calls (evaluated groupBy calls rows).2 gs (groups_of same_group (p ++ (evaluated groupBy calls rows).1)) row_of
    (stream_groups toUpperCase groupBy gcmp calls (Some st) rows).
Proof.
  revert gs g p st. induction rows as [|r rows IH]; intros gs g p st Hg Hst Hp Hs; cbn [stream_groups evaluated].
  { cbn. rewrite app_nil_r, (ag_groups _ _ _ Hg), (emit_stands _ _ _ _ Hst). destruct (row_of g) as [out|x] eqn:E.
    - split; [|done|done]. exists (length (gs ++ [g])). rewrite firstn_all, map_app. cbn. by rewrite E.
    - apply yields_stop; [by exists [g]|right; by eapply result_threw|]. intros _. exists g, x. split; [|done]. apply elem_of_app. right. by left. }
  cbn [evaluated] in Hp, Hs. unfold eval_row in *.
  assert (Hnil : gs `prefix_of` groups_of same_group (p ++ [])) by (rewrite app_nil_r, (ag_groups _ _ _ Hg); by exists [g]).
  destruct (evalArgsSync (map ge_run groupBy) None r) as [values|x]; cbn [res_bind] in *; [|by apply yields_stop; [|left|]].
  destruct (eval_calls toUpperCase calls r) as [args|x]; cbn [res_bind] in *; [|by apply yields_stop; [|left|]].
  set (e := mkEntry values args r) in *. rewrite (st_values _ _ _ _ Hst).
  destruct (evaluated groupBy calls rows) as [es err] eqn:Ev. cbn [fst snd] in *.
  rewrite (cons_middle e p es), (assoc_L (++)) in *.
  pose proof (next_entry p gs g e Hg) as Hn. apply Forall_app in Hp as Hp'. destruct Hp' as [Hpe _]. specialize (Hn Hpe).
  pose proof (proj1 (proj2 (proj1 (StronglySorted_app _ _ _) Hs))) as Hse.
  specialize (Hn Hse). change values with (e_values e). destruct (gcmp (e_values (last_of g)) (e_values e) =? 0); cbn [negb].
  - destruct (step_values calls (g_accumulators st) args) as [accs|x] eqn:Es.
    + by apply (IH _ _ _ _ Hn (stands_step g st e accs Hst Es)).
    + apply (step_stop _ _ _ _ _ _ Hn); [done|done|]. pose proof (accumulated_snoc calls g e) as H. by rewrite (st_accs _ _ _ _ Hst) in H; cbn in H; rewrite Es in H.
  - rewrite (emit_stands _ _ _ _ Hst). pose proof (groups_prefix es _ _ _ Hn Hp Hs) as Hpre. destruct (row_of g) as [out|x] eqn:E.
    + destruct (step_values calls (fresh_all calls) args) as [accs|x] eqn:Es.
      * specialize (IH _ _ _ _ Hn (stands_new e accs Es) Hp Hs). destruct (stream_groups _ _ _ _ _ rows). by apply (yields_cons _ _ _ g).
      * apply (yields_cons _ _ _ g); [done|]. by apply (step_stop _ _ _ _ _ _ Hn), accumulated_new.
    + apply yields_stop; [etransitivity; [|done]; by exists [g]|right; by eapply result_threw|]. intros _. exists g, x. split; [|done].
      destruct Hpre as [l ->]. apply elem_of_app. left. apply elem_of_app. right. by left.
Qed.

(** The first row starts the first group. *)
Lemma stream_start rows :
  proper (evaluated groupBy calls rows).1 -> sorted_groups (evaluated groupBy calls rows).1 ->
  outcome calls (evaluated groupBy calls rows).2 (groups_of same_group (evaluated groupBy calls rows).1) row_of
    (stream_groups toUpperCase groupBy gcmp calls None rows).
Proof.
  intros Hp Hs. apply yields_outcome. destruct rows as [|r rows]; [split; [by exists 0%nat|done|done]|].
  cbn [stream_groups evaluated] in *. unfold eval_row in *.
  destruct (evalArgsSync (map ge_run groupBy) None r) as [values|x]; cbn [res_bind] in *; [|by apply yields_stop; [apply prefix_nil|left|]].
  destruct (eval_calls toUpperCase calls r) as [args|x]; cbn [res_bind] in *; [|by apply yields_stop; [apply prefix_nil|left|]].
  set (e := mkEntry values args r) in *.
  assert (Hg : at_group [e] [] (e, [])).
  { split; [done|]. intros x Hx%list_elem_of_singleton. subst x. unfold last_of. cbn. by rewrite (cmp_refl gc). }
  pose proof (fun st Hst => stream_spec rows [] (e, []) [e] st Hg Hst) as H.
  destruct (evaluated groupBy calls rows) as [es err]. cbn [fst snd] in *.
  destruct (step_values calls (fresh_all calls) args) as [accs|x] eqn:Es.
  - apply H; [by apply stands_new|done|done].
  - by apply (step_stop [e] es [] (e, [])), accumulated_new.
Qed.

End Order.

(** ** Aggregate values *)

(** The arguments an aggregate steps over: all of them, or under DISTINCT the
    first of each. *)
Definition stepped (p : call) (args : list (list value)) : list (list value) :=
  if agg_isDistinct p.1 then dedup_from p.2 [] args else args.

Definition agg_result (p : call) (args : list (list value)) : res value :=
  let* acc := fold_res (stepFunction (agg_schema p.1)) (initialValue (agg_schema p.1)) (stepped p args) in
  finalizeFunction (agg_schema p.1) acc.

(** The arguments of the [j]-th aggregate in a list of rows. *)
Definition args_at (j : nat) (argss : list (list (list value))) : list (list value) := map (fun args => default [] (args !! j)) argss.

Abbreviation args_of j es := (args_at j (map e_args es)).

(** The row of a group, with the values of one of its rows and its first row in
    context: every aggregate is computed by itself. *)
Definition group_row (calls : list call) (pick : group -> entry) (g : group) : res (row * option row) :=
  let* values := res_map id (imap (fun j p => agg_result p (args_of j (members g))) calls) in
  Ok (e_values (pick g) ++ values, Some (e_row g.1)).

(** Equal values, or two errors: aggregates computed in another order can meet
    another error first. *)
Definition alike {A} (r r' : res A) : Prop :=
  match r, r' with
  | Ok a, Ok b => a = b
  | Throw _, Throw _ => True
  | _, _ => False
  end.

Lemma alike_refl {A} (r : res A) : alike r r.
Proof. by destruct r. Qed.

Lemma alike_trans {A} (r s t : res A) : alike r s -> alike s t -> alike r t.
Proof. destruct r, s, t; cbn; try done. by intros -> ->. Qed.

Lemma alike_bind {A B} (m m' : res A) (k k' : A -> res B) :
  alike m m' -> (forall a, alike (k a) (k' a)) -> alike (let* a := m in k a) (let* a := m' in k' a).
Proof. destruct m as [a|], m' as [b|]; cbn; try done. by intros -> H. Qed.

Lemma outcome_alike calls err gs row_of row_of' out :
  (forall g, g ∈ gs -> alike (row_of g) (row_of' g)) -> outcome calls err gs row_of out -> outcome calls err gs row_of' out.
Proof.
  intros Ha ((k & Hk & Hall) & Hiff & Hx). split; [|split; [|done]].
  - exists k. split; [|done]. rewrite Hk. apply map_ext_in. intros g Hg%list_elem_of_In.
    assert (g ∈ gs) as Hgs by (rewrite <- (take_drop k gs); apply elem_of_app; by left). specialize (Ha g Hgs).
    assert (row_of g ∈ map Ok out.1) as Hin by (rewrite Hk; apply list_elem_of_fmap; eauto).
    apply list_elem_of_fmap in Hin as (r & Hr & _). rewrite Hr in Ha |- *. destruct (row_of' g); [by rewrite <- Ha|done].
  - rewrite Hiff. apply or_iff_compat_l.
    split; intros (g & x & Hg & Hgx); specialize (Ha g Hg); rewrite Hgx in Ha; exists g.
    + destruct (row_of' g) as [|y] eqn:E; [done|]. by exists y.
    + destruct (row_of g) as [|y] eqn:E; [done|]. by exists y.
Qed.

(** The fold over the rows, one aggregate apart from the others. *)
Lemma columns_split (p : call) (calls : list call) a (accs : accumulators) argss :
  Forall (fun args => length args = S (length calls)) argss ->
  alike (fold_res (step_values (p :: calls)) (a :: accs) argss)
    (let* a' := fold_res (step_value p.1 p.2) a (args_at 0 argss) in
     let* rest := fold_res (step_values calls) accs (map tail argss) in Ok (a' :: rest)).
Proof.
  intros H. revert a accs. induction H as [|args argss Hl H IH]; intros a accs; [done|]. destruct args as [|x args], p as [agg cmp]; [done|].
  change (alike
    (let* accs' := (let* a' := step_value agg cmp a x in let* rest := step_values calls accs args in Ok (a' :: rest)) in
     fold_res (step_values ((agg, cmp) :: calls)) accs' argss)
    (let* a' := (let* a' := step_value agg cmp a x in fold_res (step_value agg cmp) a' (args_at 0 argss)) in
     let* rest := (let* accs' := step_values calls accs args in fold_res (step_values calls) accs' (map tail argss)) in Ok (a' :: rest))).
  destruct (step_value agg cmp a x) as [a'|e]; [|exact I]. cbn [res_bind].
  destruct (step_values calls accs args) as [rest|]; cbn [res_bind]; [apply IH|]. by destruct (fold_res (step_value agg cmp) a' _).
Qed.

Context `{!BTreeLaws T}.

(** A DISTINCT aggregate has a lawful comparator on its arguments. *)
Definition distinct_ok (p : call) (args : list (list value)) : Prop :=
  agg_isDistinct p.1 = true -> exists dom c, ordered dom p.2 c /\ Forall dom args.

Lemma step_value_spec (p : call) args :
  distinct_ok p args ->
  (let* a := fold_res (step_value p.1 p.2) (fresh (T := T) p.1) args in Ok a.1)
  = fold_res (stepFunction (agg_schema p.1)) (initialValue (agg_schema p.1)) (stepped p args).
Proof.
  unfold distinct_ok, stepped, fresh. destruct (agg_isDistinct p.1).
  - intros H. destruct (H eq_refl) as (dom & c & Hord & Hd). clear H.
    assert (forall acc seen (t : T (list value)), holds_set dom c t seen ->
      (let* a := fold_res (step_value p.1 p.2) (acc, Some t) args in Ok a.1)
      = fold_res (stepFunction (agg_schema p.1)) acc (dedup_from p.2 seen args)) as H; [|apply H, empty_set_holds].
    induction Hd as [|x args Hx Hd IH]; intros acc seen t Ht; [done|]. cbn [fold_res dedup_from]. unfold step_value at 1. cbn [fst snd].
    destruct (tree_insert_spec p.2 dom c Hord t seen x Ht Hx) as [Hon Ht']. destruct (tree_insert p.2 t x) as [t' on].
    cbn in Hon, Ht'. subst on. destruct (hasb p.2 seen x); cbn; [by apply IH|].
    destruct (stepFunction (agg_schema p.1) acc x) as [acc'|]; cbn; [by apply IH|done].
  - intros _. generalize (initialValue (agg_schema p.1)). induction args as [|x args IH]; intros acc; [done|]. cbn.
    destruct (stepFunction (agg_schema p.1) acc x) as [acc'|]; cbn; [apply IH|done].
Qed.

Lemma columns_result (calls : list call) argss :
  Forall (fun args => length args = length calls) argss ->
  (forall j p, calls !! j = Some p -> distinct_ok p (args_at j argss)) ->
  alike (let* accs := fold_res (step_values calls) (fresh_all calls) argss in finalize calls accs)
    (res_map id (imap (fun j p => agg_result p (args_at j argss)) calls)).
Proof.
  revert argss. induction calls as [|p calls IH]; intros argss Hl Hd.
  { cbn. destruct (fold_res _ _ argss) eqn:E; [done|]. clear -E. exfalso. revert E. generalize (@nil (Acc * option (T (list value)))).
    induction argss as [|x argss IH]; intros l; [done|]. cbn. destruct l; apply IH. }
  eapply alike_trans; [apply alike_bind; [apply (columns_split p calls); exact Hl|intros a; apply alike_refl]|].
  specialize (IH (map tail argss)). cbn [imap res_map].
  assert (Hj : forall j, args_at j (map tail argss) = args_at (S j) argss).
  { intros j. unfold args_at. rewrite map_map. apply map_ext. by intros []. }
  rewrite (imap_ext _ (fun j p => agg_result p (args_at (S j) argss))) in IH by (intros; by rewrite Hj).
  unfold agg_result at 1. rewrite <- (step_value_spec p (args_at 0 argss)) by (by apply Hd).
  assert (IH' := IH ltac:(apply Forall_map; eapply Forall_impl; [exact Hl|]; intros [|] ?; [done|by injection H])
    ltac:(intros j q Hq; rewrite Hj; by apply Hd)). clear IH.
  cbn [fst snd map] in *. destruct (fold_res (step_value p.1 p.2) _ _) as [a|]; [|done]. cbn [res_bind].
  destruct (fold_res (step_values calls) _ _) as [rest|]; cbn [res_bind] in *.
  - unfold finalize in *. cbn [zip zip_with res_map fst snd]. destruct (finalizeFunction (agg_schema p.1) a.1) as [v|]; [|done]. cbn [res_bind id].
    by apply alike_bind.
  - destruct (finalizeFunction (agg_schema p.1) a.1) as [v|]; [|done]. cbn [res_bind id].
    change (imap _ calls) with (imap (fun j p => agg_result p (args_at (S j) argss)) calls).
    by destruct (res_map id _).
Qed.

Lemma fold_res_map {A B C} (f : A -> B -> res A) (h : C -> B) a l : fold_res (fun a x => f a (h x)) a l = fold_res f a (map h l).
Proof. revert a. induction l as [|x l IH]; intros a; cbn; [done|]. by destruct (f a (h x)); cbn. Qed.

Lemma result_alike (calls : list call) pick g :
  Forall (fun e => length (e_args e) = length calls) (members g) ->
  (forall j p, calls !! j = Some p -> distinct_ok p (args_of j (members g))) ->
  alike (result calls pick g) (group_row calls pick g).
Proof.
  intros Hl Hd. unfold result, group_row, accumulated. rewrite (fold_res_map (step_values calls) e_args).
  pose proof (columns_result calls (map e_args (members g)) ltac:(by apply Forall_map) Hd) as H.
  destruct (fold_res _ _ (map e_args (members g))) as [accs|]; cbn [res_bind] in *; [|by destruct (res_map id _)].
  apply alike_bind; [done|]. intros a. apply alike_refl.
Qed.

(** ** The two operators *)

Context (toLowerCase : jsstring -> jsstring) (timespanTotalSeconds : jsstring -> option double).
Context (validate : value -> bool) (parse : value -> res value).
Context (lawful_registry : lawful collations).
Context (seconds_number : forall s d, timespanTotalSeconds s = Some d -> wf_double d /\ not_nan (num_of_double d)).

Abbreviation grouping := (group_type toLowerCase timespanTotalSeconds validate parse).
Abbreviation cell := (group_value toLowerCase timespanTotalSeconds validate parse).
Abbreviation cells := (group_values toLowerCase timespanTotalSeconds validate parse).

(** The arguments of a DISTINCT aggregate are values of their types. *)
Definition distinct_args (agg : @AggregateCall Acc) (argss : list (list value)) : Prop :=
  agg_isDistinct agg = true ->
  Forall (fun t => grouping (s_logicalType t)) (map fst (agg_args agg)) /\
  Forall (Forall2 (fun t v => cell (s_logicalType t) v) (map fst (agg_args agg))) argss.

Lemma bound_distinct aggregates (calls : list call) j p argss :
  bind_calls collations aggregates = Ok calls -> calls !! j = Some p -> distinct_args p.1 argss -> distinct_ok p argss.
Proof.
  intros Hb Hp Hd Hdist. destruct (Hd Hdist) as [Ht Ha].
  assert (buildDistinctComparator collations p.1 = Ok p.2) as Hc.
  { clear -Hb Hp. revert calls j Hb Hp. induction aggregates as [|agg aggs IH]; intros calls j Hb Hp; [by injection Hb as <-|].
    cbn in Hb. destruct (buildDistinctComparator collations agg) as [cmp|] eqn:E; [|done]. cbn in Hb.
    destruct (res_map _ aggs) as [cs|] eqn:Ecs; [|done]. injection Hb as <-. destruct j; [by injection Hp as <-|]. by eapply IH. }
  unfold buildDistinctComparator in Hc. destruct (res_map _ (map fst (agg_args p.1))) as [cmps|] eqn:E; [|done]. injection Hc as Hc.
  destruct (types_ordered collations toLowerCase timespanTotalSeconds validate parse lawful_registry seconds_number _ _ Ht E) as (o & Ho).
  rewrite Hc in Ho. eauto.
Qed.

Lemma args_forall (P : list value -> Prop) same es g j :
  g ∈ groups_of same es -> Forall P (args_of j es) -> Forall P (args_of j (members g)).
Proof.
  intros Hg H. unfold args_at in *. rewrite map_map, Forall_map in *. rewrite Forall_forall in *. intros e He. apply H. by eapply members_of.
Qed.

(** Every group of a list of rows has a row as the operators compute it. *)
Lemma groups_alike groupBy aggregates calls rows same pick g :
  bind_calls collations aggregates = Ok calls ->
  (forall j p, calls !! j = Some p -> distinct_args p.1 (args_of j (evaluated groupBy calls rows).1)) ->
  g ∈ groups_of same (evaluated groupBy calls rows).1 -> alike (result calls pick g) (group_row calls pick g).
Proof.
  intros Hb Hd Hg. apply result_alike.
  - apply Forall_forall. intros e He. pose proof (evaluated_args groupBy calls rows) as H. rewrite Forall_forall in H. apply H. by eapply members_of.
  - intros j p Hp. eapply bound_distinct; [done|done|]. intros Hx. destruct (Hd j p Hp Hx) as [H1 H2]. split; [done|]. by eapply args_forall.
Qed.

Lemma hash_outcome groupBy norms calls rows :
  outcome calls (evaluated groupBy calls rows).2
    (groups_of (fun e e' => bool_decide (group_key groupBy norms (e_values e) = group_key groupBy norms (e_values e'))) (evaluated groupBy calls rows).1)
    (result calls fst)
    match build_groups toUpperCase groupBy norms calls ([] : list (jsstring * state)) rows with
    | Throw e => ([], Some e)
    | Ok groups => emit_groups calls groups.*2
    end.
Proof.
  pose proof (build_groups_spec groupBy norms calls rows [] [] ltac:(constructor) ltac:(constructor)) as H. unfold groups_of.
  destruct (evaluated groupBy calls rows) as [es err]. cbn [fst snd]. destruct (build_groups _ _ _ _ _ rows) as [tbl|x].
  - destruct H as [-> Ht]. apply emit_groups_spec. apply Forall2_fmap_r. eapply Forall2_impl; [exact Ht|]. by intros g kv [_ ?].
  - destruct H as [Hx Hg]. apply yields_outcome, yields_stop; [apply prefix_nil|done|]. intros He. destruct (Hg He) as (g & Hin & Ha).
    exists g, x. split; [done|]. by apply accumulated_result.
Qed.

(** C35: The two aggregate operators compute the groups of the input: whatever the
    GROUP BY columns are (plain types under lawful collations, JSON without
    booleans, or durations, which are grouped by their length and not by their
    spelling), hashing yields for the groups, by first occurrence, the values of
    their first row and each aggregate folded over the arguments of the group,
    or of the first of each under DISTINCT; streaming over an input sorted by
    the group comparators yields the same groups with the same aggregates, and
    the values of the last row, which the comparators call equal to the first.
    Both end with an error exactly when the evaluation of a row, or a step or the
    final value of an aggregate in some group, throws, and then they have
    yielded the first groups only.  Texts of the group columns have no NUL in
    their keys, and the arguments of a DISTINCT aggregate have their declared
    types. *)
Theorem aggregates_agree groupBy aggregates norms cmps calls rows :
  let es := (evaluated groupBy calls rows).1 in
  let err := (evaluated groupBy calls rows).2 in
  let groups := groups_of (same_group (row_loop cmps)) es in
  groupBy <> [] -> Forall (fun g => grouping (s_logicalType (ge_type g))) groupBy ->
  res_map (group_normalizer collations) groupBy = Ok norms -> res_map (group_comparator collations) groupBy = Ok cmps ->
  bind_calls collations aggregates = Ok calls ->
  Forall (fun e => cells groupBy norms (e_values e)) es ->
  (forall j p, calls !! j = Some p -> distinct_args p.1 (args_of j es)) ->
  (exists out, emitHashAggregate (T := T) collations toUpperCase groupBy aggregates rows = Ok out /\
    outcome calls err groups (group_row calls fst) out) /\
  (sorted_groups (row_loop cmps) es ->
   exists out, emitStreamAggregate (T := T) collations toUpperCase groupBy aggregates rows = Ok out /\
    outcome calls err groups (group_row calls last_of) out /\
    forall g, g ∈ groups -> row_loop cmps (e_values g.1) (e_values (last_of g)) = 0).
Proof.
  intros es err groups Hne Ht Hn Hc Hb Hv Hd. unfold emitHashAggregate, emitStreamAggregate. rewrite Hn, Hc, Hb. cbn [res_bind].
  assert ((length groupBy =? 0)%nat = false) as -> by (by destruct groupBy).
  destruct (groups_ordered collations toLowerCase timespanTotalSeconds validate parse lawful_registry seconds_number groupBy norms cmps Ht Hc) as (o & Ho).
  split; [|intros Hs]; eexists; (split; [reflexivity|]).
  - eapply outcome_alike; [by intros g Hg; eapply groups_alike|]. unfold groups, es, err. erewrite groups_of_ext; [apply hash_outcome|].
    rewrite Forall_forall in Hv. intros x y Hx Hy. unfold same_group. apply eq_bool_prop_intro. rewrite !Is_true_true, Z.eqb_eq, bool_decide_eq_true.
    symmetry. by apply (groups_keyed collations toLowerCase timespanTotalSeconds validate parse lawful_registry seconds_number); [..|apply Hv|apply Hv].
  - split.
    + eapply outcome_alike; [by intros g Hg; eapply groups_alike|]. by apply (stream_start _ _ _ Ho).
    + intros g Hg. pose proof (gr_members _ _ (groups_grouped _ _ _ Ho es Hv)) as Hm. rewrite Forall_forall in Hv. rewrite Forall_forall in Hm.
      specialize (Hm g Hg). rewrite Forall_forall in Hm. apply (cmp_zero _ _ _ Ho); [apply Hv; eapply members_of; [exact Hg|left]| |apply Hm, last_of_member].
      apply Hv. eapply members_of; [exact Hg|apply last_of_member].
Qed.

End Aggregation.

(** ** An example

    Sessions (client, duration, fee) by client and duration: the names of the
    clients differ in case, and one hour is spelled in two ways. *)
Module Sessions.

Definition lower (s : jsstring) : jsstring := map (fun u => if (65 <=? u) && (u <=? 90) then u + 32 else u) s.

Lemma lower_wf s : wf_string s -> wf_string (lower s).
Proof.
  intros Hs. apply Forall_map. eapply Forall_impl; [exact Hs|]. intros u Hu. cbn.
  destruct ((65 <=? u) && (u <=? 90)) eqn:E; [|done]. apply andb_true_iff in E. lia.
Qed.

Definition collations : registry := fun name =>
  if bool_decide (name = js "NOCASE") then Some (NOCASE_COLLATION lower, Some (NOCASE_NORMALIZER lower)) else None.

Lemma collations_lawful : lawful collations.
Proof.
  split; [done|]. intros name coll norm. unfold collations. case_bool_decide; [|done]. intros [= <- <-].
  destruct (keyed_NOCASE lower lower_wf) as [Hc Hf]. split; [done|]. by intros n [= <-].
Qed.

Definition seconds (s : jsstring) : option double :=
  if bool_decide (s = js "PT1H") || bool_decide (s = js "PT60M") then Some (double_of_Z 3600)
  else if bool_decide (s = js "PT30M") then Some (double_of_Z 1800)
  else None.

Lemma seconds_number s d : seconds s = Some d -> wf_double d /\ not_nan (num_of_double d).
Proof.
  unfold seconds. destruct (_ || _); [|case_bool_decide; [|done]]; intros [= <-];
    (split; [|by vm_compute]); (split; [split|left]; by vm_compute).
Qed.

Definition is_text (v : SqlValue) : bool := match v with VText _ => true | _ => false end.

Abbreviation DURATION := (TIMESPAN_TYPE seconds is_text Ok).

Definition groupBy : list GroupExpr :=
  [mkGroupExpr (mkScalar TEXT_TYPE false None (Some (js "NOCASE")) (Some SrcDeclared)) (fun r => Ok (row_at r 0));
   mkGroupExpr (mkScalar DURATION false None None None) (fun r => Ok (row_at r 1))].

(** How many fees there are, and their sum, which may not pass 100. *)
Definition count_fees : @AggregateSchema Z := mkAggregate 0 (fun n _ => Ok (n + 1)) (fun n => Ok (VBigint n)).
Definition sum_fees : @AggregateSchema Z :=
  mkAggregate 0 (fun n args => match args with
    | [VBigint fee] => if n + fee <=? 100 then Ok (n + fee) else Throw EMisuse
    | _ => Ok n
    end) (fun n => Ok (VBigint n)).

Definition fee : list (ScalarType * (list SqlValue -> res SqlValue)) :=
  [(mkScalar INTEGER_TYPE false None None None, fun r => Ok (row_at r 2))].

Definition aggregates : list AggregateCall := [mkCall count_fees (js "count") fee true; mkCall sum_fees (js "sum") fee false].

Definition session (x : jsstring * jsstring * Z) : list SqlValue := [VText x.1.1; VText x.1.2; VBigint x.2].

Definition list_of_sessions : list (jsstring * jsstring * Z) :=
  [(js "ann", js "PT1H", 5); (js "Ann", js "PT60M", 7); (js "ANN", js "PT60M", 5); (js "bob", js "PT30M", 9)].

Definition sessions : list (list SqlValue) := map session list_of_sessions.

(** The sum of the last group passes the limit. *)
Definition costly : list (list SqlValue) := map session (list_of_sessions ++ [(js "Cas", js "PT1H", 101)]).

Definition norms : list normalizer := [NOCASE_NORMALIZER lower; IDENTITY_NORMALIZER].
Definition cmps : list (SqlValue -> SqlValue -> Z) :=
  [createTypedComparator TEXT_TYPE (Some (NOCASE_COLLATION lower)); createTypedComparator DURATION None].
Definition calls := map (fun agg => (agg, row_loop [createTypedComparator INTEGER_TYPE None])) aggregates.

Abbreviation groups rows := (groups_of (same_group (row_loop cmps)) (evaluated id groupBy calls rows).1).

Lemma groupBy_types : Forall (fun g => group_type lower seconds is_text Ok (s_logicalType (ge_type g))) groupBy.
Proof. repeat constructor; unfold plain_types; set_solver. Qed.

Definition good (x : jsstring * jsstring * Z) : Prop :=
  wf_string x.1.1 /\ NUL ∉ lower x.1.1 /\ wf_string x.1.2 /\ is_Some (seconds x.1.2).

Definition entry_of (x : jsstring * jsstring * Z) : entry :=
  mkEntry [VText x.1.1; VText x.1.2] [[VBigint x.2]; [VBigint x.2]] (session x).

Lemma evaluated_sessions l : evaluated id groupBy calls (map session l) = (map entry_of l, None).
Proof. induction l as [|x l IH]; [done|]. cbn [map evaluated]. change (eval_row id groupBy calls (session x)) with (Ok (entry_of x)). by rewrite IH. Qed.

Lemma sessions_ok l :
  Forall good l -> Forall (fun e => group_values lower seconds is_text Ok groupBy norms (e_values e)) (evaluated id groupBy calls (map session l)).1.
Proof.
  rewrite evaluated_sessions. intros H. apply Forall_map. eapply Forall_impl; [exact H|]. intros x (Hc & Hn & Hd & Hs). cbn [e_values entry_of].
  split.
  - constructor; [split_and!; [done|done|discriminate|discriminate]|]. constructor; [|constructor]. by split_and!.
  - destruct Hs as [d Hd']. split; [done|]. cbn. by rewrite Hd'.
Qed.

Lemma fees_ok l j p :
  calls !! j = Some p ->
  distinct_args lower seconds is_text Ok p.1 (args_at j (map e_args (evaluated id groupBy calls (map session l)).1)).
Proof.
  rewrite evaluated_sessions. destruct j as [|[|j]]; [|intros [= <-]; by intros ?|done]. intros [= <-] _. split.
  - by repeat constructor.
  - unfold args_at. cbn [fst]. rewrite !map_map. apply Forall_map, Forall_true. intros x. constructor; [|constructor].
    split_and!; [done|done|discriminate|discriminate].
Qed.

Lemma list_good : Forall good (list_of_sessions ++ [(js "Cas", js "PT1H", 101)]).
Proof.
  repeat (apply Forall_cons; split; [split_and!; [by apply wf_stringb_spec|by vm_compute; set_solver|by apply wf_stringb_spec|by eexists]|]).
  apply Forall_nil_2.
Qed.

Lemma list_sorted : sorted_groups (row_loop cmps) (evaluated id groupBy calls costly).1.
Proof. unfold costly. rewrite evaluated_sessions. repeat constructor; by vm_compute. Qed.

Lemma short_list_sorted : sorted_groups (row_loop cmps) (evaluated id groupBy calls sessions).1.
Proof. unfold sessions. rewrite evaluated_sessions. repeat constructor; by vm_compute. Qed.

(** A yielded row: the group, the number and the sum of its fees, and the source
    row in context. *)
Definition yielded (client duration : jsstring) (count sum : Z) (source : jsstring * jsstring * Z) : list SqlValue * option (list SqlValue) :=
  ([VText client; VText duration; VBigint count; VBigint sum], Some (session source)).

Definition ann : jsstring * jsstring * Z := (js "ann", js "PT1H", 5).
Definition bob : jsstring * jsstring * Z := (js "bob", js "PT30M", 9).

End Sessions.

Lemma aggregates_agree_witness :
  let hash := emitHashAggregate (T := sorted_list) Sessions.collations id Sessions.groupBy Sessions.aggregates in
  let stream := emitStreamAggregate (T := sorted_list) Sessions.collations id Sessions.groupBy Sessions.aggregates in
  let computed pick rows out := outcome Sessions.calls None (Sessions.groups rows) (group_row Sessions.calls pick) out in
  (exists out, hash Sessions.sessions = Ok out /\ computed fst Sessions.sessions out /\
    out = ([Sessions.yielded (js "ann") (js "PT1H") 2 17 Sessions.ann; Sessions.yielded (js "bob") (js "PT30M") 1 9 Sessions.bob], None)) /\
  (exists out, stream Sessions.sessions = Ok out /\ computed last_of Sessions.sessions out /\
    out = ([Sessions.yielded (js "ANN") (js "PT60M") 2 17 Sessions.ann; Sessions.yielded (js "bob") (js "PT30M") 1 9 Sessions.bob], None)) /\
  (exists out, hash Sessions.costly = Ok out /\ computed fst Sessions.costly out /\ out = ([], Some EMisuse)) /\
  (exists out, stream Sessions.costly = Ok out /\ computed last_of Sessions.costly out /\
    out = ([Sessions.yielded (js "ANN") (js "PT60M") 2 17 Sessions.ann; Sessions.yielded (js "bob") (js "PT30M") 1 9 Sessions.bob], Some EMisuse)).
Proof.
  intros hash stream computed.
  pose proof (fun l good => aggregates_agree (T := sorted_list) Sessions.collations id Sessions.lower Sessions.seconds Sessions.is_text Ok
    Sessions.collations_lawful Sessions.seconds_number Sessions.groupBy Sessions.aggregates Sessions.norms Sessions.cmps Sessions.calls
    (map Sessions.session l) ltac:(discriminate) Sessions.groupBy_types eq_refl eq_refl eq_refl (Sessions.sessions_ok l good) (Sessions.fees_ok l)) as H.
  destruct (H Sessions.list_of_sessions (proj1 (proj1 (Forall_app _ _ _) Sessions.list_good))) as [(h & Hh & Oh) Hs].
  destruct (Hs Sessions.short_list_sorted) as (s & Es & Os & _).
  destruct (H _ Sessions.list_good) as [(h' & Hh' & Oh') Hs'].
  destruct (Hs' Sessions.list_sorted) as (s' & Es' & Os' & _).
  split; [|split; [|split]].
  - exists h. split; [exact Hh|]. split; [exact Oh|]. vm_compute in Hh. injection Hh as <-. reflexivity.
  - exists s. split; [exact Es|]. split; [exact Os|]. vm_compute in Es. injection Es as <-. reflexivity.
  - exists h'. split; [exact Hh'|]. split; [exact Oh'|]. vm_compute in Hh'. injection Hh' as <-. reflexivity.
  - exists s'. split; [exact Es'|]. split; [exact Os'|]. vm_compute in Es'. injection Es' as <-. reflexivity.
Defined.

End AggregateLaws.
