(* ===== verification/Lexer.v ===== *)
(** * The lexer

    Models [packages/quereus/src/parser/lexer.ts]: the scanner that turns a
    statement text into tokens with their source coordinates.  A character is
    its UTF-16 unit; [peek] answers [0] at the end of the text, as the code
    answers the NUL character.

    The loops run on fuel equal to the length of the text.  Every iteration
    advances, so the fuel is enough: [scanTokens_located] shows that a scan ends
    at the end of the text, whatever the text is.  The theorem also gives what
    a token says about the text: its lexeme is the slice between its offsets,
    and its line and column count the newlines and the characters before it. *)

From S2P Require Import Prelude Bytes Double Decimal NumberText Json Comparison Types.
From Stdlib Require Import ZArith Lia.
From Stdlib Require Ascii String.
From stdpp Require Import sorting.
From stdpp Require Import base tactics numbers list.
#[local] Open Scope string_scope.
#[local] Open Scope Z_scope.

Import Types.

Module Lexer.

(** ** Tokens *)

(** The members of the string enumeration [TokenType]: each one's value is its
    own name. *)
Abbreviation TokenType := String.string.

Definition TokenTypes : list TokenType :=
  [
   "INTEGER"; "FLOAT"; "STRING"; "IDENTIFIER"; "BLOB"; "SELECT"; "FROM"; "WHERE"; "INSERT";
   "UPDATE"; "DELETE"; "CREATE"; "DROP"; "ALTER"; "TABLE"; "INDEX"; "VIEW"; "ASSERTION";
   "TEMP"; "TEMPORARY"; "VIRTUAL"; "USING"; "INTO"; "NULL"; "TRUE"; "FALSE"; "NOT"; "AND";
   "OR"; "IN"; "LIKE"; "BETWEEN"; "IS"; "AS"; "DISTINCT"; "GROUP"; "BY"; "HAVING"; "ORDER";
   "ASC"; "DESC"; "LIMIT"; "OFFSET"; "UNION"; "INTERSECT"; "EXCEPT"; "DIFF"; "ALL"; "PRIMARY";
   "CONSTRAINT"; "GENERATED"; "COLLATE"; "KEY"; "UNIQUE"; "DEFAULT"; "CHECK"; "FOREIGN";
   "REFERENCES"; "AUTOINCREMENT"; "ON"; "CONFLICT"; "CASCADE"; "RESTRICT"; "SET"; "NO";
   "ACTION"; "RENAME"; "COLUMN"; "TO"; "ADD"; "ALWAYS"; "ABORT"; "FAIL"; "IGNORE"; "BEGIN";
   "COMMIT"; "ROLLBACK"; "TRANSACTION"; "DEFERRED"; "IMMEDIATE"; "JOIN"; "INNER"; "LEFT";
   "RIGHT"; "FULL"; "CROSS"; "OUTER"; "NATURAL"; "REPLACE"; "VALUES"; "EXISTS"; "IF";
   "DEFERRABLE"; "INITIALLY"; "STORED"; "RETURNING"; "SAVEPOINT"; "RELEASE"; "PRAGMA";
   "ANALYZE"; "WITH"; "RECURSIVE"; "XOR"; "CASE"; "WHEN"; "THEN"; "ELSE"; "END"; "CAST";
   "OVER"; "PARTITION"; "LATERAL"; "ROW"; "ROWS"; "RANGE"; "UNBOUNDED"; "PRECEDING";
   "FOLLOWING"; "CURRENT"; "DECLARE"; "SCHEMA"; "APPLY"; "EXPLAIN"; "VERSION"; "SEED"; "PLUS";
   "MINUS"; "ASTERISK"; "SLASH"; "PERCENT"; "EQUAL"; "EQUAL_EQUAL"; "NOT_EQUAL"; "LESS";
   "LESS_EQUAL"; "GREATER"; "GREATER_EQUAL"; "LPAREN"; "RPAREN"; "COMMA"; "DOT"; "SEMICOLON";
   "TILDE"; "PIPE"; "PIPE_PIPE"; "AMPERSAND"; "AMPERSAND_AMPERSAND"; "QUESTION"; "COLON";
   "DOLLAR"; "ARROW"; "DARROW"; "LBRACE"; "RBRACE"; "EOF"; "ERROR"].

(** [TokenType[name]], [undefined] when there is no such member. *)
Definition TokenType_of (name : jsstring) : option TokenType :=
  List.find (fun t => bool_decide (js t = name)) TokenTypes.

Inductive TokenLiteral : Type :=
| LText (s : jsstring)
| LNumber (d : double)
| LBigint (n : Z)
| LBytes (b : bytes).

Record Token : Type := mkToken {
  type : TokenType;
  lexeme : jsstring;
  literal : option TokenLiteral;
  tStartLine : Z;
  tStartColumn : Z;
  startOffset : Z;
  endLine : Z;
  endColumn : Z;
  endOffset : Z
}.

(** ASCII case mapping, which is what [toLowerCase] and [toUpperCase] do on the
    text of a bare identifier. *)
Definition lower_unit (c : Z) : Z := if (65 <=? c) && (c <=? 90) then c + 32 else c.
Definition upper_unit (c : Z) : Z := if (97 <=? c) && (c <=? 122) then c - 32 else c.
Definition ascii_lower (s : jsstring) : jsstring := map lower_unit s.
Definition ascii_upper (s : jsstring) : jsstring := map upper_unit s.

(** The words of the [KEYWORDS] table. *)
Definition KEYWORD_LIST : list String.string :=
  [
   "select"; "from"; "where"; "insert"; "update"; "delete"; "create"; "drop"; "alter"; "table";
   "index"; "view"; "assertion"; "virtual"; "using"; "null"; "true"; "false"; "not"; "and";
   "or"; "in"; "like"; "between"; "is"; "as"; "distinct"; "group"; "by"; "having"; "order";
   "asc"; "desc"; "limit"; "offset"; "union"; "diff"; "all"; "primary"; "constraint"; "key";
   "unique"; "default"; "check"; "collate"; "generated"; "foreign"; "references"; "on";
   "conflict"; "cascade"; "restrict"; "set"; "autoincrement"; "no"; "action"; "begin";
   "commit"; "rollback"; "transaction"; "deferred"; "immediate"; "deferrable"; "initially";
   "stored"; "returning"; "join"; "inner"; "left"; "right"; "full"; "cross"; "outer";
   "natural"; "replace"; "values"; "exists"; "if"; "into"; "temp"; "temporary"; "rename"; "to";
   "add"; "always"; "abort"; "fail"; "ignore"; "savepoint"; "release"; "pragma"; "analyze";
   "with"; "recursive"; "xor"; "case"; "when"; "then"; "else"; "end"; "cast"; "over";
   "partition"; "lateral"; "row"; "rows"; "range"; "unbounded"; "preceding"; "following";
   "current"; "intersect"; "except"; "declare"; "apply"; "explain"].

(** Each word maps to the token type of the same name. *)
Definition KEYWORDS (text : jsstring) : option TokenType :=
  if bool_decide (text ∈ map js KEYWORD_LIST) then TokenType_of (ascii_upper text) else None.

Definition CONTEXTUAL_KEYWORDS : list jsstring :=
  map js ["key"; "action"; "set"; "default"; "check"; "unique"; "references"; "on"; "cascade";
          "restrict"; "like"].

(** ** The scanner *)

Record lexer : Type := mkLexer {
  source : jsstring;
  tokens : list Token;
  start : nat;
  current : nat;
  line : Z;
  column : Z;
  startLine : Z;
  startColumn : Z
}.

Definition newLexer (source : jsstring) : lexer := mkLexer source [] 0 0 1 1 1 1.

Definition isAtEnd (l : lexer) : bool := (length (source l) <=? current l)%nat.

(** [source.charAt(i)]; [0] past the end, where no caller reads it. *)
Definition charAt (s : jsstring) (i : nat) : Z := nth i s 0.

Definition substring (s : jsstring) (a b : nat) : jsstring := take (b - a) (drop a s).

Definition advance (l : lexer) : lexer :=
  let char := charAt (source l) (current l) in
  if char =? 10
  then mkLexer (source l) (tokens l) (start l) (S (current l)) (line l + 1) 1 (startLine l) (startColumn l)
  else mkLexer (source l) (tokens l) (start l) (S (current l)) (line l) (column l + 1) (startLine l) (startColumn l).

(** [match(expected)]. *)
Definition match_char (expected : Z) (l : lexer) : option lexer :=
  if isAtEnd l then None
  else if negb (charAt (source l) (current l) =? expected) then None
  else Some (mkLexer (source l) (tokens l) (start l) (S (current l)) (line l) (column l + 1)
               (startLine l) (startColumn l)).

Definition peek (l : lexer) : Z := if isAtEnd l then 0 else charAt (source l) (current l).

Definition peekNext (l : lexer) : Z :=
  if (length (source l) <=? S (current l))%nat then 0 else charAt (source l) (S (current l)).

Definition isDigit (c : Z) : bool := (48 <=? c) && (c <=? 57).

Definition isHexDigit (c : Z) : bool :=
  ((48 <=? c) && (c <=? 57)) || ((97 <=? c) && (c <=? 102)) || ((65 <=? c) && (c <=? 70)).

Definition isAlpha (c : Z) : bool :=
  ((97 <=? c) && (c <=? 122)) || ((65 <=? c) && (c <=? 90)) || (c =? 95).

Definition isAlphaNumeric (c : Z) : bool := isAlpha c || isDigit c.

Definition isWhitespace (c : Z) : bool := (c =? 32) || (c =? 13) || (c =? 10) || (c =? 9).

Definition push (t : Token) (l : lexer) : lexer :=
  mkLexer (source l) (tokens l ++ [t]) (start l) (current l) (line l) (column l) (startLine l) (startColumn l).

Definition addToken (type : TokenType) (literal : option TokenLiteral) (l : lexer) : lexer :=
  let lexeme := substring (source l) (start l) (current l) in
  push (mkToken type lexeme literal (startLine l) (startColumn l) (Z.of_nat (start l))
          (line l) (column l - 1) (Z.of_nat (current l))) l.

Definition addErrorToken (message : jsstring) (l : lexer) : lexer :=
  push (mkToken "ERROR" message None (line l) (column l - 1) (Z.of_nat (current l) - 1)
          (line l) (column l - 1) (Z.of_nat (current l))) l.

(** [while (cond) this.advance()]. *)
Fixpoint advance_while (fuel : nat) (cond : lexer -> bool) (l : lexer) : lexer :=
  match fuel with
  | O => l
  | S fuel' => if cond l then advance_while fuel' cond (advance l) else l
  end.

Definition skip_while (cond : lexer -> bool) (l : lexer) : lexer :=
  advance_while (length (source l)) cond l.

(** The body of a quoted text: runs up to [quote], where a doubled quote stands
    for one.  [None] is the end of the text before the closing quote. *)
Fixpoint string_loop (fuel : nat) (quote : Z) (value : jsstring) (l : lexer) : option jsstring * lexer :=
  match fuel with
  | O => (None, l)
  | S fuel' =>
    let runStart := current l in
    let l1 := skip_while (fun l => negb (isAtEnd l) && negb (peek l =? quote)) l in
    let value1 := value ++ substring (source l1) runStart (current l1) in
    if isAtEnd l1 then (None, l1)
    else
      let l2 := advance l1 in
      if peek l2 =? quote then string_loop fuel' quote (value1 ++ [quote]) (advance l2)
      else (Some value1, l2)
  end.

Definition string_token (quote : Z) (l : lexer) : lexer :=
  match string_loop (S (length (source l))) quote [] l with
  | (Some value, l') => addToken "STRING" (Some (LText value)) l'
  | (None, l') => addErrorToken (js "Unterminated string.") l'
  end.

(** [backtickIdentifier] and [bracketIdentifier]: no escape. *)
Definition plain_identifier (close : Z) (l : lexer) : lexer :=
  let contentStart := current l in
  let l1 := skip_while (fun l => negb (isAtEnd l) && negb (peek l =? close)) l in
  if isAtEnd l1 then addErrorToken (js "Unterminated identifier.") l1
  else
    let value := substring (source l1) contentStart (current l1) in
    addToken "IDENTIFIER" (Some (LText value)) (advance l1).

Definition backtickIdentifier : lexer -> lexer := plain_identifier 96.
Definition bracketIdentifier : lexer -> lexer := plain_identifier 93.

Fixpoint identifier_loop (fuel : nat) (value : jsstring) (l : lexer) : jsstring * lexer :=
  match fuel with
  | O => (value, l)
  | S fuel' =>
    if isAtEnd l then (value, l)
    else
      let runStart := current l in
      let l1 := skip_while (fun l => negb (isAtEnd l) && negb (peek l =? 34)) l in
      let value1 := value ++ substring (source l1) runStart (current l1) in
      if isAtEnd l1 then (value1, l1)
      else if peekNext l1 =? 34 then identifier_loop fuel' (value1 ++ [34]) (advance (advance l1))
      else (value1, l1)
  end.

Definition doubleQuotedIdentifier (l : lexer) : lexer :=
  let '(value, l1) := identifier_loop (S (length (source l))) [] l in
  if isAtEnd l1 then addErrorToken (js "Unterminated identifier.") l1
  else addToken "IDENTIFIER" (Some (LText value)) (advance l1).

(** The digits of a blob literal, blanks dropped; [None] is the early return on
    a character that is neither. *)
Fixpoint blob_loop (fuel : nat) (value : jsstring) (l : lexer) : option jsstring * lexer :=
  match fuel with
  | O => (Some value, l)
  | S fuel' =>
    if negb (isAtEnd l) && negb (peek l =? 39) then
      if isHexDigit (peek l) then blob_loop fuel' (value ++ [peek l]) (advance l)
      else if isWhitespace (peek l) then blob_loop fuel' value (advance l)
      else (None, addErrorToken (js "Invalid character in blob literal.") l)
    else (Some value, l)
  end.

(** [parseInt(value.substring(i, i + 2), 16)] for the pairs of digits. *)
Fixpoint hex_pairs (value : jsstring) : bytes :=
  match value with
  | a :: b :: value' => default 0 (parse_radix 16 0 [a; b]) :: hex_pairs value'
  | _ => []
  end.

Definition blobLiteral (l : lexer) : lexer :=
  match blob_loop (S (length (source l))) [] l with
  | (None, l1) => l1
  | (Some value, l1) =>
    if isAtEnd l1 then addErrorToken (js "Unterminated blob literal.") l1
    else
      let l2 := advance l1 in
      if negb (Nat.even (length value))
      then addErrorToken (js "Blob literal must have an even number of hex digits.") l2
      else addToken "BLOB" (Some (LBytes (hex_pairs value))) l2
  end.

Definition digits_ahead (l : lexer) : lexer := skip_while (fun l => isDigit (peek l)) l.

(** The exponent part, if there is one: [None] is the error of a missing
    digit. *)
Definition exponent_part (isFloat : bool) (l : lexer) : option bool * lexer :=
  if (peek l =? 101) || (peek l =? 69) then
    let l1 := advance l in
    let l2 := if (peek l1 =? 43) || (peek l1 =? 45) then advance l1 else l1 in
    if negb (isDigit (peek l2))
    then (None, addErrorToken (js "Invalid number literal: expected digits after exponent.") l2)
    else (Some true, digits_ahead l2)
  else (Some isFloat, l).

(** [parseInt(lexeme, 10)], or the bigint when it is not a safe integer. *)
Definition integer_literal (lexeme : jsstring) : TokenLiteral :=
  let num := round_ratio (parse_digits lexeme) 1 in
  if isSafeInteger num then LNumber num else LBigint (parse_digits lexeme).

Definition number (l : lexer) : lexer :=
  let l1 := digits_ahead l in
  let '(isFloat, l2) :=
    if (peek l1 =? 46) && isDigit (peekNext l1) then (true, digits_ahead (advance l1)) else (false, l1) in
  match exponent_part isFloat l2 with
  | (None, l3) => l3
  | (Some isFloat, l3) =>
    let lexeme := substring (source l3) (start l3) (current l3) in
    if isFloat then addToken "FLOAT" (Some (LText lexeme)) l3
    else addToken "INTEGER" (Some (integer_literal lexeme)) l3
  end.

Definition identifier (l : lexer) : lexer :=
  let l1 := skip_while (fun l => isAlphaNumeric (peek l)) l in
  let text := ascii_lower (substring (source l1) (start l1) (current l1)) in
  addToken (default "IDENTIFIER" (KEYWORDS text)) None l1.

Fixpoint comment_loop (fuel : nat) (nesting : nat) (l : lexer) : nat * lexer :=
  match fuel with
  | O => (nesting, l)
  | S fuel' =>
    if (0 <? nesting)%nat && negb (isAtEnd l) then
      if (peek l =? 47) && (peekNext l =? 42) then comment_loop fuel' (S nesting) (advance (advance l))
      else if (peek l =? 42) && (peekNext l =? 47) then comment_loop fuel' (pred nesting) (advance (advance l))
      else comment_loop fuel' nesting (advance l)
    else (nesting, l)
  end.

Definition multilineComment (l : lexer) : lexer :=
  let '(nesting, l1) := comment_loop (S (length (source l))) 1 l in
  if (0 <? nesting)%nat then addErrorToken (js "Unterminated comment.") l1 else l1.

Definition line_comment (l : lexer) : lexer :=
  skip_while (fun l => negb (peek l =? 10) && negb (isAtEnd l)) l.

(** A token of one character, or of two when [second] follows. *)
Definition one_or_two (second : Z) (two one : TokenType) (l : lexer) : lexer :=
  match match_char second l with
  | Some l1 => addToken two None l1
  | None => addToken one None l
  end.

Definition single (c : Z) : option TokenType :=
  if c =? 40 then Some "LPAREN" else if c =? 41 then Some "RPAREN"
  else if c =? 123 then Some "LBRACE" else if c =? 125 then Some "RBRACE"
  else if c =? 44 then Some "COMMA" else if c =? 46 then Some "DOT"
  else if c =? 59 then Some "SEMICOLON" else if c =? 43 then Some "PLUS"
  else if c =? 42 then Some "ASTERISK" else if c =? 37 then Some "PERCENT"
  else if c =? 126 then Some "TILDE" else if c =? 63 then Some "QUESTION"
  else if c =? 58 then Some "COLON" else if c =? 36 then Some "DOLLAR"
  else None.

Definition minus_token (l : lexer) : lexer :=
  match match_char 45 l with
  | Some l1 => line_comment l1
  | None =>
    match match_char 62 l with
    | Some l1 => one_or_two 62 "DARROW" "ARROW" l1
    | None => addToken "MINUS" None l
    end
  end.

Definition slash_token (l : lexer) : lexer :=
  match match_char 47 l with
  | Some l1 => line_comment l1
  | None =>
    match match_char 42 l with
    | Some l1 => multilineComment l1
    | None => addToken "SLASH" None l
    end
  end.

Definition less_token (l : lexer) : lexer :=
  match match_char 61 l with
  | Some l1 => addToken "LESS_EQUAL" None l1
  | None => one_or_two 62 "NOT_EQUAL" "LESS" l
  end.

(** [scanToken] after its first character [c]. *)
Definition scan_from (c : Z) (l : lexer) : lexer :=
  match single c with
  | Some type => addToken type None l
  | None =>
    if c =? 45 then minus_token l
    else if c =? 47 then slash_token l
    else if c =? 61 then one_or_two 61 "EQUAL_EQUAL" "EQUAL" l
    else if c =? 33 then one_or_two 61 "NOT_EQUAL" "ERROR" l
    else if c =? 60 then less_token l
    else if c =? 62 then one_or_two 61 "GREATER_EQUAL" "GREATER" l
    else if c =? 124 then one_or_two 124 "PIPE_PIPE" "PIPE" l
    else if c =? 38 then one_or_two 38 "AMPERSAND_AMPERSAND" "AMPERSAND" l
    else if c =? 39 then string_token 39 l
    else if c =? 34 then doubleQuotedIdentifier l
    else if c =? 96 then backtickIdentifier l
    else if c =? 91 then bracketIdentifier l
    else if (c =? 120) || (c =? 88) then
      match match_char 39 l with
      | Some l1 => blobLiteral l1
      | None => identifier l
      end
    else if isWhitespace c then l
    else if isDigit c then number l
    else if isAlpha c then identifier l
    else addErrorToken (js "Unexpected character: " ++ [c]) l
  end.

Definition scanToken (l : lexer) : lexer :=
  scan_from (charAt (source l) (current l)) (advance l).

(** One turn of the loop of [scanTokens]: the start of the token is noted. *)
Definition scan_step (l : lexer) : lexer :=
  scanToken (mkLexer (source l) (tokens l) (current l) (current l) (line l) (column l) (line l) (column l)).

Fixpoint scan_loop (fuel : nat) (l : lexer) : lexer :=
  match fuel with
  | O => l
  | S fuel' => if isAtEnd l then l else scan_loop fuel' (scan_step l)
  end.

Definition eof_token (l : lexer) : Token :=
  mkToken "EOF" [] None (line l) (column l) (Z.of_nat (length (source l)))
    (line l) (column l) (Z.of_nat (length (source l))).

Definition scanTokens (source : jsstring) : list Token :=
  let l := scan_loop (length source) (newLexer source) in
  tokens l ++ [eof_token l].


Example scan_select :
  map type (scanTokens (js "select a.b, -1.5e3 <> x'0aFF' -- note")) =
  ["SELECT"; "IDENTIFIER"; "DOT"; "IDENTIFIER"; "COMMA"; "MINUS"; "FLOAT"; "NOT_EQUAL"; "BLOB"; "EOF"].
Proof. by vm_compute. Qed.

(** ** Where tokens are *)

(** The line of the character at offset [n]: one more than the newlines before
    it. *)
Definition line_at (s : jsstring) (n : nat) : Z :=
  1 + Z.of_nat (length (List.filter (fun c => c =? 10) (take n s))).

Fixpoint to_newline (s : jsstring) : jsstring :=
  match s with
  | [] => []
  | c :: s' => if c =? 10 then [] else c :: to_newline s'
  end.

(** Its column: one more than the characters since the last newline. *)
Definition column_at (s : jsstring) (n : nat) : Z := 1 + Z.of_nat (length (to_newline (reverse (take n s)))).

(** What token [t] says of the text: the slice it was read from, unless it
    reports an error, and the coordinates of its ends. *)
Definition located (s : jsstring) (t : Token) : Prop :=
  exists a b : nat, startOffset t = Z.of_nat a /\ endOffset t = Z.of_nat b /\ (a < b <= length s)%nat /\
    endLine t = line_at s b /\ endColumn t = column_at s b - 1 /\
    (type t <> "ERROR" ->
     lexeme t = substring s a b /\ tStartLine t = line_at s a /\ tStartColumn t = column_at s a).

Lemma take_next (s : jsstring) n : (n < length s)%nat -> take (S n) s = take n s ++ [charAt s n].
Proof.
  intros Hn. destruct (lookup_lt_is_Some_2 s n Hn) as [c Hc]. rewrite (take_S_r _ _ _ Hc).
  unfold charAt. by rewrite (nth_lookup_Some s n 0 c Hc).
Qed.

Lemma line_at_next s n :
  (n < length s)%nat -> line_at s (S n) = if charAt s n =? 10 then line_at s n + 1 else line_at s n.
Proof.
  intros Hn. unfold line_at. rewrite take_next, List.filter_app, length_app by done. simpl.
  destruct (charAt s n =? 10); simpl; lia.
Qed.

Lemma column_at_next s n :
  (n < length s)%nat -> column_at s (S n) = if charAt s n =? 10 then 1 else column_at s n + 1.
Proof.
  intros Hn. unfold column_at. rewrite take_next, reverse_app by done. simpl.
  destruct (charAt s n =? 10); simpl; lia.
Qed.

(** The scanner knows where it is. *)
Definition placed (l : lexer) : Prop :=
  (current l <= length (source l))%nat /\
  line l = line_at (source l) (current l) /\ column l = column_at (source l) (current l).

(** [l'] is [l] further on in the text, in the middle of the same token. *)
Record moved (l l' : lexer) : Prop := {
  mv_source : source l' = source l;
  mv_tokens : tokens l' = tokens l;
  mv_start : start l' = start l;
  mv_line : startLine l' = startLine l;
  mv_column : startColumn l' = startColumn l;
  mv_current : (current l <= current l')%nat;
  mv_placed : placed l -> placed l'
}.

#[export] Instance moved_preorder : PreOrder moved.
Proof.
  split.
  - intros l. by split.
  - intros l1 l2 l3 [] []. split; try congruence; [lia|auto].
Qed.

Lemma at_end_false l : isAtEnd l = false <-> (current l < length (source l))%nat.
Proof. unfold isAtEnd. rewrite Nat.leb_gt. done. Qed.

Lemma advance_moved l : isAtEnd l = false -> moved l (advance l).
Proof.
  rewrite at_end_false. intros He. unfold advance. destruct (charAt _ _ =? 10) eqn:E.
  all: split; simpl; try done; try lia; intros (_ & Hl & Hc); split; simpl; [lia|].
  all: by rewrite line_at_next, column_at_next, E, ?Hl, ?Hc by done.
Qed.

Lemma advance_current l : current (advance l) = S (current l).
Proof. unfold advance. by destruct (_ =? 10). Qed.

Lemma match_char_moved c l l' : c <> 10 -> match_char c l = Some l' -> moved l l'.
Proof.
  unfold match_char. intros Hc. destruct (isAtEnd l) eqn:He; [done|].
  destruct (charAt _ _ =? c) eqn:E; [|done]. simpl. intros [= <-]. apply at_end_false in He as He'.
  apply Z.eqb_eq in E. split; simpl; try done; try lia. intros (_ & Hl & Hcol). split; simpl; [lia|].
  rewrite line_at_next, column_at_next, E by done. apply Z.eqb_neq in Hc. by rewrite Hc, Hl, Hcol.
Qed.

(** A loop whose condition fails at the end of the text. *)
Definition bounded (cond : lexer -> bool) : Prop := forall l, cond l = true -> isAtEnd l = false.

Lemma advance_while_moved fuel cond l : bounded cond -> moved l (advance_while fuel cond l).
Proof.
  intros Hb. revert l; induction fuel as [|fuel IH]; intros l; simpl; [done|].
  destruct (cond l) eqn:E; [|done]. etrans; [apply advance_moved, Hb, E|apply IH].
Qed.

Lemma advance_while_stops fuel cond l :
  bounded cond -> (length (source l) <= current l + fuel)%nat -> cond (advance_while fuel cond l) = false.
Proof.
  intros Hb. revert l; induction fuel as [|fuel IH]; intros l Hf; simpl.
  - destruct (cond l) eqn:E; [|done]. apply Hb, at_end_false in E. lia.
  - destruct (cond l) eqn:E; [|done]. apply IH. rewrite advance_current.
    rewrite (mv_source _ _ (advance_moved l (Hb l E))). lia.
Qed.

Lemma skip_while_moved cond l : bounded cond -> moved l (skip_while cond l).
Proof. apply advance_while_moved. Qed.

Lemma bounded_and (p : lexer -> bool) : bounded (fun l => negb (isAtEnd l) && p l).
Proof. intros l [E _]%andb_prop. by destruct (isAtEnd l). Qed.

Lemma bounded_and' (p : lexer -> bool) : bounded (fun l => p l && negb (isAtEnd l)).
Proof. intros l [_ E]%andb_prop. by destruct (isAtEnd l). Qed.

Lemma peek_end l : peek l <> 0 -> isAtEnd l = false.
Proof. unfold peek. by destruct (isAtEnd l). Qed.

Lemma bounded_peek (p : Z -> bool) : p 0 = false -> bounded (fun l => p (peek l)).
Proof. intros H0 l E. apply peek_end. congruence. Qed.

Create HintDb lexer.
#[export] Hint Resolve bounded_and bounded_and' : lexer.
#[export] Hint Extern 2 (bounded (fun l => _ (peek l))) => (by apply bounded_peek) : lexer.

(** [l'] ends the token [l] is in: at most one token has been added. *)
Definition ends (l l' : lexer) : Prop :=
  exists l1, moved l l1 /\
    (l' = l1 \/ (exists type literal, type <> "EOF" /\ l' = addToken type literal l1) \/
     (exists m, l' = addErrorToken m l1)).

Lemma ends_silent l l' : moved l l' -> ends l l'.
Proof. exists l'. auto. Qed.
Lemma ends_token l l1 type literal : type <> "EOF" -> moved l l1 -> ends l (addToken type literal l1).
Proof. exists l1. eauto 8. Qed.
Lemma ends_error l l1 m : moved l l1 -> ends l (addErrorToken m l1).
Proof. exists l1. eauto 8. Qed.
Lemma ends_moved l l1 l' : moved l l1 -> ends l1 l' -> ends l l'.
Proof. intros H (l2 & H2 & Ho). exists l2. split; [by etrans|done]. Qed.
#[export] Hint Resolve ends_silent ends_token ends_error : lexer.
#[export] Hint Extern 1 (_ <> "EOF") => discriminate : lexer.

Lemma string_loop_moved fuel quote value l : quote <> 0 -> moved l (string_loop fuel quote value l).2.
Proof.
  intros Hq. revert value l; induction fuel as [|fuel IH]; intros value l; simpl; [done|].
  set (l1 := skip_while _ l). assert (moved l l1) as H1 by (apply skip_while_moved; auto with lexer).
  destruct (isAtEnd l1) eqn:E1; [done|]. pose proof (advance_moved l1 E1) as H2.
  destruct (peek (advance l1) =? quote) eqn:E2; simpl; [|by etrans].
  apply Z.eqb_eq in E2. etrans; [exact H1|]. etrans; [exact H2|].
  etrans; [apply advance_moved, peek_end; congruence|]. apply IH.
Qed.

Lemma identifier_loop_moved fuel value l : moved l (identifier_loop fuel value l).2.
Proof.
  revert value l; induction fuel as [|fuel IH]; intros value l; simpl; [done|].
  destruct (isAtEnd l); [done|]. set (l1 := skip_while _ l).
  assert (moved l l1) as H1 by (apply skip_while_moved; auto with lexer).
  destruct (isAtEnd l1) eqn:E1; [done|]. destruct (peekNext l1 =? 34) eqn:E2; [|done].
  pose proof (advance_moved l1 E1) as H2. etrans; [exact H1|]. etrans; [exact H2|].
  etrans; [apply advance_moved|apply IH]. apply at_end_false. rewrite advance_current, (mv_source _ _ H2).
  unfold peekNext in E2. destruct (length (source l1) <=? S (current l1))%nat eqn:E; [done|].
  by apply Nat.leb_gt in E.
Qed.

Lemma blob_loop_ends fuel value l :
  match blob_loop fuel value l with
  | (None, l') => ends l l'
  | (Some _, l') => moved l l'
  end.
Proof.
  revert value l; induction fuel as [|fuel IH]; intros value l; simpl; [done|].
  destruct (isAtEnd l) eqn:E; simpl; [done|]. destruct (peek l =? 39); simpl; [done|].
  pose proof (advance_moved l E) as H1.
  destruct (isHexDigit (peek l)); [|destruct (isWhitespace (peek l))]; [| |by apply ends_error].
  - specialize (IH (value ++ [peek l]) (advance l)).
    destruct (blob_loop _ _ _) as [[v|] l']; [by etrans|by eapply ends_moved].
  - specialize (IH value (advance l)).
    destruct (blob_loop _ _ _) as [[v|] l']; [by etrans|by eapply ends_moved].
Qed.

Lemma comment_loop_moved fuel nesting l : moved l (comment_loop fuel nesting l).2.
Proof.
  assert (Hn : forall l a b, (peek l =? a) && (peekNext l =? b) = true -> a <> 0 -> b <> 0 -> moved l (advance (advance l))).
  { intros l' a b [Ea Eb]%andb_prop Ha Hb. apply Z.eqb_eq in Ea, Eb.
    assert (H1 : moved l' (advance l')) by (apply advance_moved, peek_end; congruence).
    etrans; [exact H1|]. apply advance_moved, at_end_false. rewrite advance_current, (mv_source _ _ H1).
    unfold peekNext in Eb. destruct (length (source l') <=? S (current l'))%nat eqn:E; [congruence|].
    by apply Nat.leb_gt in E. }
  revert nesting l; induction fuel as [|fuel IH]; intros nesting l; simpl; [done|].
  destruct (0 <? nesting)%nat; simpl; [|done]. destruct (isAtEnd l) eqn:E; simpl; [done|].
  destruct ((peek l =? 47) && (peekNext l =? 42)) eqn:E1; [etrans; [by eapply Hn|apply IH]|].
  destruct ((peek l =? 42) && (peekNext l =? 47)) eqn:E2; [etrans; [by eapply Hn|apply IH]|].
  etrans; [by apply advance_moved|apply IH].
Qed.

Lemma string_token_ends quote l : quote <> 0 -> ends l (string_token quote l).
Proof.
  intros Hq. unfold string_token. pose proof (string_loop_moved (S (length (source l))) quote [] l Hq) as H.
  destruct (string_loop _ _ _ _) as [[v|] l']; auto with lexer.
Qed.

Lemma plain_identifier_ends close l : ends l (plain_identifier close l).
Proof.
  unfold plain_identifier. set (l1 := skip_while _ l).
  assert (moved l l1) as H1 by (apply skip_while_moved; auto with lexer).
  destruct (isAtEnd l1) eqn:E; [auto with lexer|]. apply ends_token; [done|]. etrans; [done|by apply advance_moved].
Qed.

Lemma doubleQuotedIdentifier_ends l : ends l (doubleQuotedIdentifier l).
Proof.
  unfold doubleQuotedIdentifier. pose proof (identifier_loop_moved (S (length (source l))) [] l) as H.
  destruct (identifier_loop _ _ _) as [v l1]; simpl in H. destruct (isAtEnd l1) eqn:E; [auto with lexer|].
  apply ends_token; [done|]. etrans; [done|by apply advance_moved].
Qed.

Lemma blobLiteral_ends l : ends l (blobLiteral l).
Proof.
  unfold blobLiteral. pose proof (blob_loop_ends (S (length (source l))) [] l) as H.
  destruct (blob_loop _ _ _) as [[v|] l1]; [|done]. destruct (isAtEnd l1) eqn:E; [auto with lexer|].
  assert (moved l (advance l1)) by (etrans; [done|by apply advance_moved]).
  destruct (negb _); auto with lexer.
Qed.

Lemma digits_ahead_moved l : moved l (digits_ahead l).
Proof. apply skip_while_moved; auto with lexer. Qed.

Lemma exponent_part_ends isFloat l :
  match exponent_part isFloat l with
  | (None, l') => ends l l'
  | (Some _, l') => moved l l'
  end.
Proof.
  unfold exponent_part. destruct ((peek l =? 101) || (peek l =? 69)) eqn:E; [|done].
  assert (moved l (advance l)) as H1.
  { apply advance_moved, peek_end. destruct (peek l =? 101) eqn:E1; simpl in E; lia. }
  set (l1 := advance l) in *.
  assert (moved l1 (if (peek l1 =? 43) || (peek l1 =? 45) then advance l1 else l1)) as H2.
  { destruct ((peek l1 =? 43) || (peek l1 =? 45)) eqn:E2; [|done].
    apply advance_moved, peek_end. destruct (peek l1 =? 43) eqn:E1; simpl in E2; lia. }
  set (l2 := if (peek l1 =? 43) || (peek l1 =? 45) then advance l1 else l1) in *. assert (moved l l2) by by etrans.
  destruct (negb (isDigit (peek l2))); [auto with lexer|]. etrans; [done|apply digits_ahead_moved].
Qed.

Lemma number_ends l : ends l (number l).
Proof.
  unfold number. set (l1 := digits_ahead l). pose proof (digits_ahead_moved l) as H1. fold l1 in H1.
  assert (exists (f : bool) (l2 : lexer), (if (peek l1 =? 46) && isDigit (peekNext l1) then (true, digits_ahead (advance l1)) else (false, l1))
    = (f, l2) /\ moved l l2) as (f & l2 & -> & H2).
  { destruct ((peek l1 =? 46) && isDigit (peekNext l1)) eqn:E; [|by eexists _, _].
    eexists _, _. split; [done|]. etrans; [done|]. etrans; [|apply digits_ahead_moved].
    apply advance_moved, peek_end. apply andb_prop in E as [E _]. lia. }
  pose proof (exponent_part_ends f l2) as H3. destruct (exponent_part f l2) as [[g|] l3].
  - assert (moved l l3) by by etrans. destruct g; auto with lexer.
  - by eapply ends_moved.
Qed.

(** No keyword is spelled like the end token. *)
Lemma keyword_not_eof text : default "IDENTIFIER" (KEYWORDS text) <> "EOF".
Proof.
  unfold KEYWORDS. case_bool_decide as Hin; [|done]. apply list_elem_of_In in Hin.
  assert (forallb (fun t => negb (String.eqb (default "IDENTIFIER" (TokenType_of (ascii_upper t))) "EOF"))
    (map js KEYWORD_LIST) = true) as Hall by by vm_compute.
  rewrite forallb_forall in Hall. specialize (Hall text Hin). intros E. by rewrite E in Hall.
Qed.

Lemma identifier_ends l : ends l (identifier l).
Proof. unfold identifier. apply ends_token; [apply keyword_not_eof|]. apply skip_while_moved; auto with lexer. Qed.

Lemma one_or_two_ends second two one l :
  second <> 10 -> two <> "EOF" -> one <> "EOF" -> ends l (one_or_two second two one l).
Proof.
  intros Hs H2 H1. unfold one_or_two. destruct (match_char second l) eqn:E; [|by apply ends_token].
  apply ends_token; [done|]. by apply match_char_moved with second.
Qed.

Lemma single_not_eof c t : single c = Some t -> t <> "EOF".
Proof. unfold single. intros H. repeat case_match; by simplify_eq. Qed.

Lemma multilineComment_ends l : ends l (multilineComment l).
Proof.
  unfold multilineComment. pose proof (comment_loop_moved (S (length (source l))) 1 l) as H.
  destruct (comment_loop _ _ _) as [n l1]; simpl in H. destruct (0 <? n)%nat; auto with lexer.
Qed.

Lemma line_comment_ends l : ends l (line_comment l).
Proof. apply ends_silent, skip_while_moved; auto with lexer. Qed.

Lemma match_ends c l l1 l' : c <> 10 -> match_char c l = Some l1 -> ends l1 l' -> ends l l'.
Proof. intros Hc E. eapply ends_moved, match_char_moved; done. Qed.

Lemma self_token type literal l : type <> "EOF" -> ends l (addToken type literal l).
Proof. intros. by apply ends_token. Qed.
Lemma self_error m l : ends l (addErrorToken m l).
Proof. by apply ends_error. Qed.
Lemma self_silent l : ends l l.
Proof. by apply ends_silent. Qed.
Lemma backtickIdentifier_ends l : ends l (backtickIdentifier l).
Proof. apply plain_identifier_ends. Qed.
Lemma bracketIdentifier_ends l : ends l (bracketIdentifier l).
Proof. apply plain_identifier_ends. Qed.

#[export] Hint Resolve self_error self_silent backtickIdentifier_ends bracketIdentifier_ends string_token_ends plain_identifier_ends doubleQuotedIdentifier_ends blobLiteral_ends
  number_ends identifier_ends one_or_two_ends multilineComment_ends line_comment_ends self_token : lexer.

Lemma scan_from_ends c l : ends l (scan_from c l).
Proof.
  assert (Hm : forall a l1, a <> 10 -> match_char a l = Some l1 -> forall l', ends l1 l' -> ends l l')
    by (intros; by eapply match_ends).
  unfold scan_from. destruct (single c) eqn:Es; [by apply self_token, (single_not_eof c)|].
  repeat match goal with
  | |- ends _ (if _ then _ else _) => case_match
  | |- ends _ (minus_token _) => unfold minus_token
  | |- ends _ (slash_token _) => unfold slash_token
  | |- ends _ (less_token _) => unfold less_token
  | |- ends _ (match match_char ?a l with _ => _ end) => destruct (match_char a l) eqn:?; [by eapply Hm; eauto with lexer|]
  | |- ends _ _ => by auto with lexer
  end.
Qed.

(** ** The whole scan *)

(** The tokens added so far are in place and in order. *)
Definition scanned (l : lexer) : Prop :=
  placed l /\ Forall (located (source l)) (tokens l) /\
  Forall (fun t => endOffset t <= Z.of_nat (current l)) (tokens l) /\
  StronglySorted (fun t u => endOffset t <= startOffset u) (tokens l) /\
  Forall (fun t => type t <> "EOF") (tokens l).

Lemma push_scanned l t :
  scanned l -> located (source l) t -> type t <> "EOF" -> endOffset t <= Z.of_nat (current l) ->
  Forall (fun u => endOffset u <= startOffset t) (tokens l) -> scanned (push t l).
Proof.
  intros (Hp & Hl & Hc & Hs & Hn) Ht Hne He Ho. split_and!; simpl; [done|..].
  - by apply Forall_app; split; [|constructor].
  - by apply Forall_app; split; [|constructor].
  - by apply Json.sorted_snoc.
  - by apply Forall_app; split; [|constructor].
Qed.

Lemma scan_step_scanned l :
  isAtEnd l = false -> scanned l ->
  scanned (scan_step l) /\ source (scan_step l) = source l /\ (current l < current (scan_step l))%nat.
Proof.
  intros He (Hp & Hl & Hc & Hs & Hn). unfold scan_step, scanToken.
  set (l0 := mkLexer _ _ _ _ _ _ _ _). assert (moved l0 (advance l0)) as Hadv by by apply advance_moved.
  pose proof (scan_from_ends (charAt (source l0) (current l0)) (advance l0)) as (l1 & Hm & Ho).
  assert (current l < current l1)%nat as Hlt.
  { pose proof (mv_current _ _ Hm) as H. rewrite advance_current in H. simpl in H. lia. }
  assert (moved l0 l1) as [Es Et Est El Ec _ Hpl] by by etrans.
  specialize (Hpl Hp). simpl in *. destruct Hp as (_ & Hline & Hcol).
  destruct Hpl as (Hle & Hline1 & Hcol1).
  assert (scanned l1) as Hs1.
  { split; [done|]. rewrite Es, Et. split_and!; [done| |done..]. eapply Forall_impl; [exact Hc|]. simpl. lia. }
  destruct Ho as [->|[(ty & lit & Hty & ->)|(m & ->)]]; [done|split_and!; [|done|simpl; lia]..].
  - apply push_scanned; [done| |done|simpl; lia|simpl; rewrite Et, Est; exact Hc].
    exists (current l), (current l1). simpl. rewrite Hline1, Hcol1, Est, El, Ec, Hline, Hcol, Es.
    rewrite Es in Hle. by split_and!; try lia.
  - apply push_scanned; [done| |done|simpl; lia|].
    + exists (pred (current l1)), (current l1). simpl. rewrite Hline1, Hcol1. by split_and!; try lia.
    + simpl. rewrite Et. eapply Forall_impl; [exact Hc|]. simpl. lia.
Qed.

Lemma scan_loop_scanned fuel l :
  (length (source l) <= current l + fuel)%nat -> scanned l ->
  scanned (scan_loop fuel l) /\ source (scan_loop fuel l) = source l /\ isAtEnd (scan_loop fuel l) = true.
Proof.
  revert l; induction fuel as [|fuel IH]; intros l Hf Hs; simpl.
  - split_and!; try done. apply Nat.leb_le. lia.
  - destruct (isAtEnd l) eqn:E; [done|]. destruct (scan_step_scanned l E Hs) as (Hs' & Es & Hlt).
    rewrite <- Es. apply IH; [rewrite Es; lia|done].
Qed.

Lemma scanned_new s : scanned (newLexer s).
Proof. split_and!; simpl; [split_and!; simpl; [lia|done..]|constructor..]. Qed.

Lemma scanTokens_eof s : Forall (fun t => type t = "EOF" -> lexeme t = []) (scanTokens s).
Proof.
  destruct (scan_loop_scanned (length s) (newLexer s)) as ((_ & _ & _ & _ & Hn) & _ & _); [simpl; lia|by apply scanned_new|].
  apply Forall_app. split; [|by constructor]. eapply Forall_impl; [exact Hn|]. done.
Qed.

(** C39: A scan consumes the whole text and ends with the end-of-input token at
    its end, and no other token is of that type, whatever the text is.  The tokens come in the order of the text
    and do not overlap.  Every token but an error is the slice of the text
    between its offsets, and its line and column are those of its first
    character. *)
Theorem scanTokens_located (s : jsstring) :
  exists body eof, scanTokens s = body ++ [eof] /\
    isAtEnd (scan_loop (length s) (newLexer s)) = true /\
    type eof = "EOF" /\ startOffset eof = Z.of_nat (length s) /\
    tStartLine eof = line_at s (length s) /\ tStartColumn eof = column_at s (length s) /\
    Forall (located s) body /\ StronglySorted (fun t u => endOffset t <= startOffset u) body /\
    Forall (fun t => type t <> "EOF") body.
Proof.
  destruct (scan_loop_scanned (length s) (newLexer s)) as ((Hp & Hl & _ & Hs & Hn) & Es & He); [simpl; lia|by apply scanned_new|].
  simpl in Es. rewrite Es in Hl. destruct Hp as (Hle & Hline & Hcol).
  assert (current (scan_loop (length s) (newLexer s)) = length s) as Hcur.
  { apply Nat.leb_le in He. rewrite Es in *. lia. }
  eexists _, _. split; [done|]. simpl. rewrite Es in *. rewrite Hcur in *. by split_and!.
Qed.

End Lexer.
