(* ===== verification/Ast.v ===== *)
(** * Syntax trees

    Models the expression and query nodes of
    [packages/quereus/src/parser/ast.ts].  Expressions and the clauses of a
    query are families over the type [Q] of queries, and [QueryExpr] ties the
    knot.  Left out are the source range [loc] of a node, which no modelled code
    reads, and the fields the parser never sets: the [alias] of a column and of
    a window function, the legacy [union] of a select, its [storedBodyEnv] and
    the [skipRowChecks] of an insert. *)

From S2P Require Import Prelude Bytes Double Decimal Json Comparison VTab.
From Stdlib Require Import ZArith Lia.
From stdpp Require Import base tactics numbers list.
Import Json Comparison VTab.
#[local] Open Scope Z_scope.

#[local] Set Warnings "-register-all".

Module Ast.

Inductive NullsOrder : Type := NullsFirst | NullsLast.

Record OrderByClause (E : Type) : Type := mkOrderBy {
  o_expr : E;
  o_desc : bool;
  o_nulls : option NullsOrder
}.
Arguments mkOrderBy {E}.
Arguments o_expr {E}.
Arguments o_desc {E}.
Arguments o_nulls {E}.

Inductive WindowFrameBound (E : Type) : Type :=
| CurrentRow
| UnboundedPreceding
| UnboundedFollowing
| Preceding (value : E)
| Following (value : E).
Arguments CurrentRow {E}.
Arguments UnboundedPreceding {E}.
Arguments UnboundedFollowing {E}.
Arguments Preceding {E}.
Arguments Following {E}.

Inductive WindowFrameUnits : Type := Rows | Range.

(** [f_end] is [None] for a frame written with one bound. *)
Record WindowFrame (E : Type) : Type := mkFrame {
  f_type : WindowFrameUnits;
  f_start : WindowFrameBound E;
  f_end : option (WindowFrameBound E);
  f_exclusion : option jsstring
}.
Arguments mkFrame {E}.
Arguments f_type {E}.
Arguments f_start {E}.
Arguments f_end {E}.
Arguments f_exclusion {E}.

Record WindowDefinition (E : Type) : Type := mkWindow {
  partitionBy : option (list E);
  orderBy : option (list (OrderByClause E));
  frame : option (WindowFrame E)
}.
Arguments mkWindow {E}.
Arguments partitionBy {E}.
Arguments orderBy {E}.
Arguments frame {E}.

Inductive Expression (Q : Type) : Type :=
| Literal (value : SqlValue) (lexeme : option jsstring)
| Identifier (name : jsstring) (schema : option jsstring)
| Column (name : jsstring) (table schema : option jsstring)
| Binary (operator : jsstring) (left right : Expression Q)
| Unary (operator : jsstring) (expr : Expression Q)
| Function_ (name : jsstring) (args : list (Expression Q)) (distinct : bool)
| Cast (expr : Expression Q) (targetType : jsstring)
| Parameter_ (index : option Z) (name : option jsstring)
| Subquery (query : Q)
| Exists (subquery : Q)
| In_ (expr : Expression Q) (values : option (list (Expression Q))) (subquery : option Q)
| Between (expr lower upper : Expression Q) (not : bool)
| Collate (expr : Expression Q) (collation : jsstring)
| Case (baseExpr : option (Expression Q)) (whenThenClauses : list (Expression Q * Expression Q))
       (elseExpr : option (Expression Q))
| WindowFunction (name : jsstring) (args : list (Expression Q)) (distinct : bool)
                 (window : option (WindowDefinition (Expression Q)))
| FunctionSource (name : jsstring) (schema : option jsstring) (args : list (Expression Q))
                 (alias : option jsstring) (columns : option (list jsstring)).
Arguments Literal {Q}.
Arguments Identifier {Q}.
Arguments Column {Q}.
Arguments Binary {Q}.
Arguments Unary {Q}.
Arguments Function_ {Q}.
Arguments Cast {Q}.
Arguments Parameter_ {Q}.
Arguments Subquery {Q}.
Arguments Exists {Q}.
Arguments In_ {Q}.
Arguments Between {Q}.
Arguments Collate {Q}.
Arguments Case {Q}.
Arguments WindowFunction {Q}.
Arguments FunctionSource {Q}.

(** ** Queries *)

Record IdentifierExpr : Type := mkIdent {
  i_name : jsstring;
  i_schema : option jsstring
}.

(** [{ column, value }] and the like. *)
Abbreviation assignment E := (jsstring * E)%type.

Inductive ResultColumn (E : Type) : Type :=
| AllColumns (table : option jsstring)
| ExprColumn (expr : E) (alias : option jsstring) (inverse : option (list (assignment E))).
Arguments AllColumns {E}.
Arguments ExprColumn {E}.

Inductive JoinType : Type := InnerJoin | LeftJoin | RightJoin | FullJoin | CrossJoin.
Inductive Side : Type := SideLeft | SideRight.

#[global] Instance JoinType_eq_dec : EqDecision JoinType.
Proof. solve_decision. Defined.
#[global] Instance Side_eq_dec : EqDecision Side.
Proof. solve_decision. Defined.

Inductive FromClause (Q : Type) : Type :=
| TableSource (table : IdentifierExpr) (alias : option jsstring)
| SubquerySource (subquery : Q) (alias : jsstring) (columns : option (list jsstring))
| FunctionFrom (name : IdentifierExpr) (args : list (Expression Q)) (alias : option jsstring)
               (columns : option (list jsstring))
| Join (joinType : JoinType) (left right : FromClause Q) (condition : option (Expression Q))
       (columns : option (list jsstring)) (isLateral : bool) (existence : option (list (Side * jsstring))).
Arguments TableSource {Q}.
Arguments SubquerySource {Q}.
Arguments FunctionFrom {Q}.
Arguments Join {Q}.

Inductive MaterializationHint : Type := Materialized | NotMaterialized.

Record CommonTableExpr (Q : Type) : Type := mkCte {
  cte_name : jsstring;
  cte_columns : option (list jsstring);
  cte_query : Q;
  materializationHint : option MaterializationHint
}.
Arguments mkCte {Q}.

Record WithClause (Q : Type) : Type := mkWith {
  recursive : bool;
  ctes : list (CommonTableExpr Q);
  maxRecursion : option SqlValue
}.
Arguments mkWith {Q}.

Inductive CompoundOp : Type := Union | UnionAll | Intersect | Except | Diff.

#[global] Instance CompoundOp_eq_dec : EqDecision CompoundOp.
Proof. solve_decision. Defined.

Record Compound (Q : Type) : Type := mkCompound {
  c_op : CompoundOp;
  c_select : Q;
  c_existence : option (list (Side * jsstring))
}.
Arguments mkCompound {Q}.

Record SelectStmt (Q : Type) : Type := mkSelect {
  s_withClause : option (WithClause Q);
  s_columns : list (ResultColumn (Expression Q));
  s_from : option (list (FromClause Q));
  s_where : option (Expression Q);
  s_groupBy : option (list (Expression Q));
  s_having : option (Expression Q);
  s_orderBy : option (list (OrderByClause (Expression Q)));
  s_limit : option (Expression Q);
  s_offset : option (Expression Q);
  s_distinct : bool;
  s_all : bool;
  s_compound : option (Compound Q);
  s_schemaPath : option (list jsstring);
  s_defaults : option (list (assignment (Expression Q)))
}.
Arguments mkSelect {Q}.
Arguments s_withClause {Q}.
Arguments s_columns {Q}.
Arguments s_from {Q}.
Arguments s_where {Q}.
Arguments s_groupBy {Q}.
Arguments s_having {Q}.
Arguments s_orderBy {Q}.
Arguments s_limit {Q}.
Arguments s_offset {Q}.
Arguments s_distinct {Q}.
Arguments s_all {Q}.
Arguments s_compound {Q}.
Arguments s_schemaPath {Q}.
Arguments s_defaults {Q}.

Inductive UpsertAction (E : Type) : Type :=
| DoNothing
| DoUpdate (assignments : list (assignment E)) (where_ : option E).
Arguments DoNothing {E}.
Arguments DoUpdate {E}.

Record UpsertClause (E : Type) : Type := mkUpsert {
  conflictTarget : option (list jsstring);
  action : UpsertAction E
}.
Arguments mkUpsert {E}.

(** A record of metadata tags, in the order of its own properties. *)
Abbreviation Tags := (list (jsstring * SqlValue)).

Record InsertStmt (Q : Type) : Type := mkInsert {
  n_withClause : option (WithClause Q);
  n_table : IdentifierExpr;
  n_columns : option (list jsstring);
  n_source : Q;
  n_onConflict : option ConflictResolution;
  n_upsertClauses : option (list (UpsertClause (Expression Q)));
  n_returning : option (list (ResultColumn (Expression Q)));
  n_contextValues : option (list (assignment (Expression Q)));
  n_schemaPath : option (list jsstring);
  n_tags : option Tags
}.
Arguments mkInsert {Q}.
Arguments n_returning {Q}.

(** An inline subquery written in place of the table: the query, its alias and
    column names. *)
Record SubqueryTarget (Q : Type) : Type := mkTarget {
  t_subquery : Q;
  t_alias : jsstring;
  t_columns : option (list jsstring)
}.
Arguments mkTarget {Q}.
Arguments t_subquery {Q}.
Arguments t_alias {Q}.
Arguments t_columns {Q}.

Record UpdateStmt (Q : Type) : Type := mkUpdate {
  u_withClause : option (WithClause Q);
  u_table : IdentifierExpr;
  u_targetSource : option (SubqueryTarget Q);
  u_alias : option jsstring;
  u_assignments : list (assignment (Expression Q));
  u_where : option (Expression Q);
  u_returning : option (list (ResultColumn (Expression Q)));
  u_contextValues : option (list (assignment (Expression Q)));
  u_schemaPath : option (list jsstring);
  u_tags : option Tags
}.
Arguments mkUpdate {Q}.
Arguments u_returning {Q}.

Record DeleteStmt (Q : Type) : Type := mkDelete {
  d_withClause : option (WithClause Q);
  d_table : IdentifierExpr;
  d_targetSource : option (SubqueryTarget Q);
  d_alias : option jsstring;
  d_where : option (Expression Q);
  d_returning : option (list (ResultColumn (Expression Q)));
  d_contextValues : option (list (assignment (Expression Q)));
  d_schemaPath : option (list jsstring);
  d_tags : option Tags
}.
Arguments mkDelete {Q}.
Arguments d_returning {Q}.

Inductive QueryExpr : Type :=
| Select (stmt : SelectStmt QueryExpr)
| Values (values : list (list (Expression QueryExpr)))
| Insert (stmt : InsertStmt QueryExpr)
| Update (stmt : UpdateStmt QueryExpr)
| Delete (stmt : DeleteStmt QueryExpr).

(** [tags[key] = value] on a plain object: an array-index name goes before the
    others, in order, and [__proto__] reaches the setter of
    [Object.prototype], which creates no own property. *)
Fixpoint insert_index_tag (n : Z) (k : jsstring) (v : SqlValue) (o : Tags) : Tags :=
  match o with
  | [] => [(k, v)]
  | (k', v') :: o' =>
    match key_index k' with
    | Some n' => if n' <? n then (k', v') :: insert_index_tag n k v o' else (k, v) :: o
    | None => (k, v) :: o
    end
  end.

Definition assign_tag (o : Tags) (k : jsstring) (v : SqlValue) : Tags :=
  if decide (k = js "__proto__") then o
  else
    match alist_get k o with
    | Some _ => alist_set k v o
    | None =>
      match key_index k with
      | Some n => insert_index_tag n k v o
      | None => o ++ [(k, v)]
      end
    end.

End Ast.
