(* ===== verification/AstStringify.v ===== *)
(** * The expression printer

    Models the expression part of [packages/quereus/src/emit/ast-stringify.ts]:
    [expressionToString] and the quoting and parenthesising rules it uses.
    Text is printed for persistence (column defaults, checks, generated columns,
    index predicates, view bodies) and read again by the parser.

    Case mapping of arbitrary text needs the Unicode tables; it is the class
    [CaseMapping].  The text of a query inside an expression is a parameter. *)

From S2P Require Import Prelude Bytes Double Decimal NumberText Json Comparison Types Lexer Ast.
From Stdlib Require Import ZArith Lia.
From Stdlib Require Ascii String.
From stdpp Require Import base tactics numbers list.
Import Json Comparison Lexer Ast.
#[local] Open Scope string_scope.
#[local] Open Scope Z_scope.

(** [String.prototype.toLowerCase] and [toUpperCase]. *)
Class CaseMapping : Type := {
  toLowerCase : jsstring -> jsstring;
  toUpperCase : jsstring -> jsstring
}.

(** What is used of them: on ASCII text they are the ASCII mappings, and an ASCII
    character is mapped on its own by [toUpperCase]. *)
Definition is_ascii (c : Z) : Prop := 0 <= c < 128.

Class CaseLaws `{!CaseMapping} : Prop := {
  lower_ascii : forall s, Forall is_ascii s -> toLowerCase s = ascii_lower s;
  upper_nil : toUpperCase [] = [];
  upper_cons : forall c s, is_ascii c -> toUpperCase (c :: s) = upper_unit c :: toUpperCase s
}.

(** The mappings of a runtime that only has ASCII letters. *)
Definition ascii_case : CaseMapping := {| toLowerCase := ascii_lower; toUpperCase := ascii_upper |}.

Lemma ascii_case_laws : @CaseLaws ascii_case.
Proof. by split. Qed.

Module Stringify.

Section Stringify.

Context `{!CaseMapping} {Q : Type} (queryToString : Q -> jsstring).

Abbreviation Expr := (Expression Q).

(** [s.replace(/q/g, 'qq')]. *)
Definition double_quotes (q : Z) (s : jsstring) : jsstring :=
  concat (map (fun c => if c =? q then [q; q] else [c]) s).

(** [/^[a-zA-Z_][a-zA-Z0-9_]*$/]. *)
Definition isValidIdentifier (name : jsstring) : bool :=
  match name with
  | c :: rest => isAlpha c && forallb isAlphaNumeric rest
  | [] => false
  end.

Definition quoteIdentifier (name : jsstring) : jsstring :=
  if bool_decide (is_Some (KEYWORDS (toLowerCase name))) || negb (isValidIdentifier name)
  then [34] ++ double_quotes 34 name ++ [34]
  else name.

Definition BARE_CALLABLE_FUNCTION_NAMES : list jsstring := CONTEXTUAL_KEYWORDS ++ [js "replace"].

Definition quoteFunctionName (name : jsstring) : jsstring :=
  let lower := toLowerCase name in
  if bool_decide (lower ∈ BARE_CALLABLE_FUNCTION_NAMES) then lower else quoteIdentifier lower.

Definition POSTFIX_IS_OPERATORS : list jsstring :=
  map js ["IS NULL"; "IS NOT NULL"; "IS TRUE"; "IS NOT TRUE"; "IS FALSE"; "IS NOT FALSE"].

(** The table, [0] for an operator it does not list. *)
Definition BINARY_OPERATOR_PRECEDENCE (op : jsstring) : Z :=
  let among := fun names => bool_decide (op ∈ map js names) in
  if among ["OR"; "XOR"] then 1
  else if among ["AND"] then 2
  else if among ["="; "=="; "!="] then 3
  else if among ["<"; "<="; ">"; ">="; "LIKE"; "GLOB"; "MATCH"; "REGEXP"] then 4
  else if among ["+"; "-"] then 5
  else if among ["*"; "/"; "%"] then 6
  else if among ["||"] then 7
  else 0.

Definition isAssociative (op : jsstring) : bool :=
  bool_decide (toUpperCase op ∈ map js ["AND"; "OR"; "XOR"; "+"; "*"; "||"]).

Inductive side : Type := LeftSide | RightSide.

Definition needsParens (expr : Expr) (parentOp : jsstring) (s : side) : bool :=
  match expr with
  | Binary operator _ _ =>
    let parentPrec := BINARY_OPERATOR_PRECEDENCE (toUpperCase parentOp) in
    let childPrec := BINARY_OPERATOR_PRECEDENCE (toUpperCase operator) in
    if childPrec <? parentPrec then true
    else (childPrec =? parentPrec) && (match s with RightSide => true | LeftSide => false end)
         && negb (isAssociative parentOp)
  | _ => false
  end.

Definition unaryBodyNeedsParens (body : Expr) : bool :=
  match body with Binary _ _ _ => true | _ => false end.

(** [l.join(sep)]. *)
Fixpoint join_with (sep : jsstring) (l : list jsstring) : jsstring :=
  match l with
  | [] => []
  | [s] => s
  | s :: l' => s ++ sep ++ join_with sep l'
  end.

Definition quote_text (s : jsstring) : jsstring := [39] ++ double_quotes 39 s ++ [39].

Definition uint8ArrayToHex (b : bytes) : jsstring := concat (map (fun x => Bytes.pad_start 2 48 (Bytes.to_string16 x)) b).

(** A lexeme is used when it is there, not empty and not what [String(value)]
    gives. *)
Definition lexeme_over (lexeme : option jsstring) (text : jsstring) : jsstring :=
  match lexeme with
  | Some ((_ :: _) as x) => if bool_decide (x = text) then text else x
  | _ => text
  end.

Definition literalToString (value : SqlValue) (lexeme : option jsstring) : jsstring :=
  match value with
  | VNumber d => lexeme_over lexeme (number_to_string d)
  | VBigint n => lexeme_over lexeme (dec n)
  | VNull =>
    match option_map toLowerCase lexeme with
    | Some ((_ :: _) as x) => x
    | _ => js "null"
    end
  | VText s => quote_text s
  | VBlob b => js "x'" ++ uint8ArrayToHex b ++ [39]
  | VObject o => quote_text (stringify o)
  | VBool b => if b then js "true" else js "false"
  end.

(** [if (s)]: a text that is there and not empty. *)
Definition given (s : option jsstring) : option jsstring :=
  match s with
  | Some (_ :: _) => s
  | _ => None
  end.

Definition qualified (schema : option jsstring) (rest : jsstring) : jsstring :=
  match given schema with
  | Some q => quoteIdentifier q ++ js "." ++ rest
  | None => rest
  end.

Definition parens (b : bool) (s : jsstring) : jsstring := if b then js "(" ++ s ++ js ")" else s.

Definition windowFrameBoundToString (exprToString : Expr -> jsstring) (b : WindowFrameBound Expr) : jsstring :=
  match b with
  | CurrentRow => js "current row"
  | UnboundedPreceding => js "unbounded preceding"
  | UnboundedFollowing => js "unbounded following"
  | Preceding value => exprToString value ++ js " preceding"
  | Following value => exprToString value ++ js " following"
  end.

Definition windowFrameToString (exprToString : Expr -> jsstring) (f : WindowFrame Expr) : jsstring :=
  let '(mkFrame type start end_ exclusion) := f in
  let bound := windowFrameBoundToString exprToString in
  match type with Rows => js "rows" | Range => js "range" end ++
  match end_ with
  | Some e => js " between " ++ bound start ++ js " and " ++ bound e
  | None => js " " ++ bound start
  end ++
  match given exclusion with
  | Some x => js " exclude " ++ toLowerCase x
  | None => []
  end.

Definition orderByToString (exprToString : Expr -> jsstring) (clause : OrderByClause Expr) : jsstring :=
  let '(mkOrderBy expr desc nulls) := clause in
  exprToString expr ++ (if desc then js " desc" else []) ++
  match nulls with
  | Some NullsFirst => js " nulls first"
  | Some NullsLast => js " nulls last"
  | None => []
  end.

Definition windowDefinitionToString (exprToString : Expr -> jsstring) (win : WindowDefinition Expr) : jsstring :=
  let '(mkWindow partitionBy orderBy frame) := win in
  join_with (js " ")
    (match partitionBy with
     | Some ((_ :: _) as l) => [js "partition by " ++ join_with (js ", ") (map exprToString l)]
     | _ => []
     end ++
     match orderBy with
     | Some ((_ :: _) as l) => [js "order by " ++ join_with (js ", ") (map (orderByToString exprToString) l)]
     | _ => []
     end ++
     match frame with
     | Some f => [windowFrameToString exprToString f]
     | None => []
     end).

(** The case ['function'], which is also the first part of a window
    function. *)
Definition functionToString (exprToString : Expr -> jsstring) (name : jsstring) (args : list Expr)
    (distinct : bool) : jsstring :=
  if bool_decide (toLowerCase name = js "count") && (length args =? 0)%nat then js "count(*)"
  else quoteFunctionName name ++ js "(" ++ (if distinct then js "distinct " else []) ++
       join_with (js ", ") (map exprToString args) ++ js ")".

Definition unaryToString (operator : jsstring) (exprStr : jsstring) : jsstring :=
  let upperOp := toUpperCase operator in
  if bool_decide (upperOp ∈ POSTFIX_IS_OPERATORS) then exprStr ++ js " " ++ toLowerCase operator
  else if bool_decide (upperOp = js "NOT") then js "not " ++ exprStr
  else toLowerCase operator ++ exprStr.

Definition parameterToString (index : option Z) (name : option jsstring) : jsstring :=
  match index with
  | Some _ => js "?"
  | None =>
    match given name with
    | Some ((c :: _) as n) => if (c =? 58) || (c =? 36) then n else js ":" ++ n
    | _ => js "?"
    end
  end.

Fixpoint expressionToString (expr : Expr) : jsstring :=
  match expr with
  | Literal value lexeme => literalToString value lexeme
  | Identifier name schema => qualified schema (quoteIdentifier name)
  | Column name table schema =>
    match given table with
    | Some t => qualified schema (quoteIdentifier t ++ js "." ++ quoteIdentifier name)
    | None => quoteIdentifier name
    end
  | Binary operator l r =>
    parens (needsParens l operator LeftSide) (expressionToString l) ++ js " " ++
    toLowerCase operator ++ js " " ++
    parens (needsParens r operator RightSide) (expressionToString r)
  | Unary operator body =>
    unaryToString operator (parens (unaryBodyNeedsParens body) (expressionToString body))
  | Function_ name args distinct => functionToString expressionToString name args distinct
  | Cast e targetType => js "cast(" ++ expressionToString e ++ js " as " ++ toLowerCase targetType ++ js ")"
  | Parameter_ index name => parameterToString index name
  | Subquery query => js "(" ++ queryToString query ++ js ")"
  | Exists subquery => js "exists (" ++ queryToString subquery ++ js ")"
  | In_ e values subquery =>
    expressionToString e ++ js " in " ++
    match values, subquery with
    | Some vs, _ => js "(" ++ join_with (js ", ") (map expressionToString vs) ++ js ")"
    | None, Some q => js "(" ++ queryToString q ++ js ")"
    | None, None => []
    end
  | Between e lower upper not =>
    expressionToString e ++ js " " ++ (if not then js "not " else []) ++ js "between " ++
    expressionToString lower ++ js " and " ++ expressionToString upper
  | Collate e collation =>
    expressionToString e ++ js " collate " ++ quoteIdentifier (toLowerCase collation)
  | Case baseExpr whenThenClauses elseExpr =>
    js "case" ++
    match baseExpr with Some b => js " " ++ expressionToString b | None => [] end ++
    concat (map (fun '(when_, then_) =>
      js " when " ++ expressionToString when_ ++ js " then " ++ expressionToString then_) whenThenClauses) ++
    match elseExpr with Some e => js " else " ++ expressionToString e | None => [] end ++
    js " end"
  | WindowFunction name args distinct window =>
    functionToString expressionToString name args distinct ++
    match window with
    | Some w => js " over (" ++ windowDefinitionToString expressionToString w ++ js ")"
    | None => []
    end
  | FunctionSource _ _ _ _ _ => js "[unknown_expr]"
  end.

(** ** Case-folded identity *)

Definition lowerWindowFrameBoundIdentifiers (lowerExpr : Expr -> Expr) (bound : WindowFrameBound Expr)
    : WindowFrameBound Expr :=
  match bound with
  | Preceding value => Preceding (lowerExpr value)
  | Following value => Following (lowerExpr value)
  | _ => bound
  end.

Definition lowerWindowFrameIdentifiers (lowerExpr : Expr -> Expr) (f : WindowFrame Expr) : WindowFrame Expr :=
  let '(mkFrame type start end_ exclusion) := f in
  mkFrame type (lowerWindowFrameBoundIdentifiers lowerExpr start)
    (option_map (lowerWindowFrameBoundIdentifiers lowerExpr) end_) exclusion.

Definition lowerWindowDefinitionIdentifiers (lowerExpr : Expr -> Expr) (win : WindowDefinition Expr)
    : WindowDefinition Expr :=
  let '(mkWindow partitionBy orderBy frame) := win in
  mkWindow (option_map (map lowerExpr) partitionBy)
    (option_map (map (fun '(mkOrderBy e desc nulls) => mkOrderBy (lowerExpr e) desc nulls)) orderBy)
    (option_map (lowerWindowFrameIdentifiers lowerExpr) frame).

Fixpoint lowerExprIdentifiers (expr : Expr) : Expr :=
  match expr with
  | Column name table schema =>
    Column (toLowerCase name) (option_map toLowerCase table) (option_map toLowerCase schema)
  | Identifier name schema => Identifier (toLowerCase name) (option_map toLowerCase schema)
  | Binary operator l r => Binary operator (lowerExprIdentifiers l) (lowerExprIdentifiers r)
  | Unary operator e => Unary operator (lowerExprIdentifiers e)
  | Function_ name args distinct => Function_ name (map lowerExprIdentifiers args) distinct
  | Cast e targetType => Cast (lowerExprIdentifiers e) targetType
  | Collate e collation => Collate (lowerExprIdentifiers e) collation
  | Case baseExpr whenThenClauses elseExpr =>
    Case (option_map lowerExprIdentifiers baseExpr)
      (map (fun '(when_, then_) => (lowerExprIdentifiers when_, lowerExprIdentifiers then_)) whenThenClauses)
      (option_map lowerExprIdentifiers elseExpr)
  | Between e lower upper not =>
    Between (lowerExprIdentifiers e) (lowerExprIdentifiers lower) (lowerExprIdentifiers upper) not
  | In_ e values subquery =>
    In_ (lowerExprIdentifiers e) (option_map (map lowerExprIdentifiers) values) subquery
  | WindowFunction name args distinct window =>
    WindowFunction name (map lowerExprIdentifiers args) distinct
      (option_map (lowerWindowDefinitionIdentifiers lowerExprIdentifiers) window)
  | Literal _ _ | Parameter_ _ _ | Subquery _ | Exists _ | FunctionSource _ _ _ _ _ => expr
  end.

Definition expressionToIdentityString (expr : Expr) : jsstring := expressionToString (lowerExprIdentifiers expr).

End Stringify.

End Stringify.
