(* ===== verification/QueryStringify.v ===== *)
(** * The query printer

    Models the query part of [packages/quereus/src/emit/ast-stringify.ts]:
    [selectToString], [insertToString], [updateToString], [deleteToString],
    [valuesToString] and the clauses they print. *)

From S2P Require Import Prelude Bytes Double Decimal NumberText Json Comparison VTab Lexer Ast AstStringify.
From Stdlib Require Import ZArith Lia.
From Stdlib Require Ascii String.
From stdpp Require Import base tactics numbers list.
Import Json Comparison VTab Lexer Ast Stringify.
#[local] Open Scope string_scope.
#[local] Open Scope Z_scope.

Module QueryStringify.

Section Queries.

Context `{!CaseMapping}.

Section Clauses.

Context {Q : Type} (astToString : Q -> jsstring).

Abbreviation Expr := (Expression Q).
Abbreviation exprToString := (expressionToString astToString).

Definition commas (l : list jsstring) : jsstring := join_with (js ", ") l.

Definition names (l : list jsstring) : jsstring := commas (map quoteIdentifier l).

Definition assignments (l : list (jsstring * Expr)) : jsstring :=
  commas (map (fun '(column, e) => quoteIdentifier column ++ js " = " ++ exprToString e) l).

(** [if (l && l.length > 0) ... else ...]. *)
Definition with_items {A B} (l : option (list A)) (f : list A -> B) (otherwise : B) : B :=
  match l with
  | Some ((_ :: _) as items) => f items
  | _ => otherwise
  end.

Definition resultColumnToString (col : ResultColumn Expr) : jsstring :=
  match col with
  | AllColumns table =>
    match given table with
    | Some t => quoteIdentifier t ++ js ".*"
    | None => js "*"
    end
  | ExprColumn expr alias inverse =>
    exprToString expr ++
    match given alias with Some a => js " as " ++ quoteIdentifier a | None => [] end ++
    with_items inverse (fun l => js " with inverse (" ++ assignments l ++ js ")") []
  end.

Definition schemaPathClauseToString (schemaPath : list jsstring) : jsstring := js "with schema " ++ names schemaPath.

Definition defaultsClauseToString (defaults : option (list (jsstring * Expr))) : jsstring :=
  with_items defaults (fun l => js "with defaults (" ++ assignments l ++ js ")") [].

Definition compoundOpToKeyword (op : CompoundOp) : jsstring :=
  match op with
  | Union => js "union"
  | UnionAll => js "union all"
  | Intersect => js "intersect"
  | Except => js "except"
  | Diff => js "diff"
  end.

Definition materializationHintToKeyword (hint : option MaterializationHint) : option jsstring :=
  match hint with
  | Some Materialized => Some (js "materialized")
  | Some NotMaterialized => Some (js "not materialized")
  | None => None
  end.

Definition column_names (columns : option (list jsstring)) : jsstring :=
  with_items columns (fun l => js " (" ++ names l ++ js ")") [].

Definition cteToString (cte : CommonTableExpr Q) : jsstring :=
  let '(mkCte name columns query hint) := cte in
  quoteIdentifier name ++ column_names columns ++ js " as" ++
  match materializationHintToKeyword hint with Some h => js " " ++ h | None => [] end ++
  js " (" ++ astToString query ++ js ")".

(** [${number}]. *)
Definition numberToString (v : SqlValue) : jsstring :=
  match v with
  | VNumber d => number_to_string d
  | VBigint n => dec n
  | _ => []
  end.

Definition withClauseToString (w : WithClause Q) : jsstring :=
  let '(mkWith recursive ctes maxRecursion) := w in
  js "with" ++ (if recursive then js " recursive" else []) ++ js " " ++ commas (map cteToString ctes) ++
  match maxRecursion with
  | Some n => js " option (maxrecursion " ++ numberToString n ++ js ")"
  | None => []
  end.

Definition sideToString (s : Side) : jsstring :=
  match s with
  | SideLeft => js "left"
  | SideRight => js "right"
  end.

Definition existenceToString (l : list (Side * jsstring)) : jsstring :=
  commas (map (fun '(s, name) => js "exists " ++ sideToString s ++ js " as " ++ quoteIdentifier name) l).

Definition joinTypeToString (t : JoinType) : jsstring :=
  match t with
  | InnerJoin => js "inner"
  | LeftJoin => js "left"
  | RightJoin => js "right"
  | FullJoin => js "full"
  | CrossJoin => js "cross"
  end.

(** [(subquery) as alias (columns)]. *)
Definition subqueryToString (subquery : Q) (alias : jsstring) (columns : option (list jsstring)) : jsstring :=
  js "(" ++ astToString subquery ++ js ") as " ++ quoteIdentifier alias ++ column_names columns.

Definition alias_clause (alias : option jsstring) : jsstring :=
  match given alias with
  | Some a => js " as " ++ quoteIdentifier a
  | None => []
  end.

Fixpoint fromClauseToString (from : FromClause Q) : jsstring :=
  match from with
  | TableSource table alias => qualified (i_schema table) (quoteIdentifier (i_name table)) ++ alias_clause alias
  | SubquerySource subquery alias columns => subqueryToString subquery alias columns
  | FunctionFrom name args alias _ =>
    quoteIdentifier (toLowerCase (i_name name)) ++ js "(" ++ commas (map exprToString args) ++ js ")" ++
    alias_clause alias
  | Join joinType left_ right_ condition columns isLateral existence =>
    fromClauseToString left_ ++ js " " ++ joinTypeToString joinType ++ js " join " ++
    (if isLateral then js "lateral " else []) ++ fromClauseToString right_ ++
    match condition, columns with
    | Some c, _ => js " on " ++ exprToString c
    | None, Some l => js " using (" ++ names l ++ js ")"
    | None, None => []
    end ++
    with_items existence (fun l => js " " ++ existenceToString l) []
  end.

(** The parts of a statement, joined by a space. *)
Definition spaced (parts : list jsstring) : jsstring := join_with (js " ") parts.

Definition with_part (w : option (WithClause Q)) : list jsstring :=
  match w with
  | Some w => [withClauseToString w]
  | None => []
  end.

(** A keyword and what follows it, when it is there. *)
Definition part {A} (keyword : jsstring) (f : A -> jsstring) (x : option A) : list jsstring :=
  match x with
  | Some a => [keyword; f a]
  | None => []
  end.

Definition select_trailing (stmt : SelectStmt Q) : list jsstring :=
  with_items (s_orderBy stmt) (fun l => [js "order by"; commas (map (orderByToString exprToString) l)]) [] ++
  part (js "limit") exprToString (s_limit stmt) ++
  part (js "offset") exprToString (s_offset stmt) ++
  match defaultsClauseToString (s_defaults stmt) with [] => [] | d => [d] end.

(** [compoundLegToString] on the text of the leg: [own] says that the leg has
    clauses that would bind to the whole. *)
Definition selectToString (own : Q -> bool) (stmt : SelectStmt Q) : jsstring :=
  spaced
    (with_part (s_withClause stmt) ++ [js "select"] ++
     (if s_distinct stmt then [js "distinct"] else []) ++
     (if s_all stmt then [js "all"] else []) ++
     [commas (map resultColumnToString (s_columns stmt))] ++
     with_items (s_from stmt) (fun l => [js "from"; commas (map fromClauseToString l)]) [] ++
     part (js "where") exprToString (s_where stmt) ++
     with_items (s_groupBy stmt) (fun l => [js "group by"; commas (map exprToString l)]) [] ++
     part (js "having") exprToString (s_having stmt) ++
     with_items (s_schemaPath stmt) (fun l => [schemaPathClauseToString l]) []) ++
  match s_compound stmt with
  | Some (mkCompound op select_ existence) =>
    js " " ++ compoundOpToKeyword op ++ js " " ++
    with_items existence (fun l => existenceToString l ++ js " ") [] ++
    parens (own select_) (astToString select_)
  | None => []
  end ++
  match select_trailing stmt with
  | [] => []
  | l => js " " ++ spaced l
  end.

Definition upsertClauseToString (u : UpsertClause Expr) : jsstring :=
  let '(mkUpsert target act) := u in
  spaced
    ([js "on conflict"] ++
     with_items target (fun l => [js "(" ++ names l ++ js ")"]) [] ++
     match act with
     | DoNothing => [js "do nothing"]
     | DoUpdate l where_ => [js "do update set"; assignments l] ++ part (js "where") exprToString where_
     end).

Definition tagValueToString (value : SqlValue) : jsstring :=
  match value with
  | VNull => js "null"
  | VBool b => if b then js "true" else js "false"
  | VNumber d => number_to_string d
  | VText s => quote_text s
  | VBigint n => dec n
  | VBlob b => join_with (js ",") (map dec b)
  | VObject _ => js "[object Object]"
  end.

Definition tagsBodyToString (tags : Tags) : jsstring :=
  js "(" ++ commas (map (fun '(k, v) => quoteIdentifier k ++ js " = " ++ tagValueToString v) tags) ++ js ")".

(** The clause without its leading space, if there are tags. *)
Definition tags_part (tags : option Tags) : list jsstring :=
  with_items tags (fun l => [js "with tags " ++ tagsBodyToString l]) [].

Definition schema_part (schemaPath : option (list jsstring)) : list jsstring :=
  with_items schemaPath (fun l => [schemaPathClauseToString l]) [].

Definition returning_part (returning : option (list (ResultColumn Expr))) : list jsstring :=
  with_items returning (fun l => [js "returning"; commas (map resultColumnToString l)]) [].

Definition context_part (l : option (list (jsstring * Expr))) : list jsstring :=
  with_items l (fun l => [js "with context"; assignments l]) [].

Definition identifierToString (i : IdentifierExpr) : jsstring := qualified (i_schema i) (quoteIdentifier (i_name i)).

Definition conflict_word (c : ConflictResolution) : jsstring :=
  match c with
  | ROLLBACK => js "rollback"
  | ABORT => js "abort"
  | FAIL => js "fail"
  | IGNORE => js "ignore"
  | REPLACE => js "replace"
  end.

Definition insertToString (stmt : InsertStmt Q) : jsstring :=
  let '(mkInsert w table columns source onConflict upserts returning contextValues schemaPath tags) := stmt in
  spaced
    (with_part w ++ [js "insert"] ++
     match onConflict with
     | Some ABORT | None => []
     | Some c => [js "or"; conflict_word c]
     end ++
     [js "into"; identifierToString table] ++
     with_items columns (fun l => [js "(" ++ names l ++ js ")"]) [] ++
     context_part contextValues ++
     [astToString source] ++
     match upserts with Some l => map upsertClauseToString l | None => [] end ++
     tags_part tags ++ schema_part schemaPath ++ returning_part returning).

Definition target_part (keyword : jsstring) (table : IdentifierExpr) (target : option (SubqueryTarget Q))
    (alias : option jsstring) : list jsstring :=
  match target with
  | Some (mkTarget subquery a columns) => [keyword; subqueryToString subquery a columns]
  | None => [keyword; identifierToString table] ++
            match given alias with Some a => [js "as"; quoteIdentifier a] | None => [] end
  end.

Definition updateToString (stmt : UpdateStmt Q) : jsstring :=
  let '(mkUpdate w table target alias assigns where_ returning contextValues schemaPath tags) := stmt in
  spaced
    (with_part w ++ target_part (js "update") table target alias ++ context_part contextValues ++
     [js "set"; assignments assigns] ++ part (js "where") exprToString where_ ++
     tags_part tags ++ schema_part schemaPath ++ returning_part returning).

Definition deleteToString (stmt : DeleteStmt Q) : jsstring :=
  let '(mkDelete w table target alias where_ returning contextValues schemaPath tags) := stmt in
  spaced
    (with_part w ++ target_part (js "delete from") table target alias ++ context_part contextValues ++
     part (js "where") exprToString where_ ++
     tags_part tags ++ schema_part schemaPath ++ returning_part returning).

Definition valuesToString (values : list (list Expr)) : jsstring :=
  js "values " ++ commas (map (fun row => js "(" ++ commas (map exprToString row) ++ js ")") values).

End Clauses.

(** A SELECT leg with trailing clauses or a schema path of its own. *)
Definition has_own_clauses (leg : QueryExpr) : bool :=
  match leg with
  | Select s =>
    with_items (s_orderBy s) (fun _ => true) false || bool_decide (is_Some (s_limit s)) ||
    bool_decide (is_Some (s_offset s)) || with_items (s_schemaPath s) (fun _ => true) false ||
    with_items (s_defaults s) (fun _ => true) false
  | _ => false
  end.

Fixpoint astToString (q : QueryExpr) : jsstring :=
  match q with
  | Select stmt => selectToString astToString has_own_clauses stmt
  | Values values => valuesToString astToString values
  | Insert stmt => insertToString astToString stmt
  | Update stmt => updateToString astToString stmt
  | Delete stmt => deleteToString astToString stmt
  end.

End Queries.

End QueryStringify.
