(* ===== verification/ExprParser.v ===== *)
(** * The expression parser

    Models the token helpers and the expression part of
    [packages/quereus/src/parser/parser.ts]: the recursive descent from
    [expression] down to [primary], with CASE, CAST, IN, BETWEEN, function
    calls and window specifications.

    The parser object is the record [parser]; a method is a function from the
    parser to a result and the parser after it ([P]).  A parse error is
    [Throw EParse]; its message and position are left out.

    The methods call each other through [expression] and [parseQueryExpr],
    which are arguments here: [QueryParser] closes the recursion on fuel.  The
    same fuel bounds the loops; running out of it is [Throw EOutOfFuel]. *)

From S2P Require Import Prelude Bytes Double Decimal NumberText Json Comparison Types Lexer Ast AstStringify.
From Stdlib Require Import ZArith Lia.
From Stdlib Require Ascii String.
From stdpp Require Import base tactics numbers list.
Import Json Comparison Lexer Ast.
#[local] Open Scope string_scope.
#[local] Open Scope Z_scope.

Module Parser.

(** ** The parser object *)

Record parser : Type := mkParser {
  p_tokens : list Token;
  p_current : nat;
  parameterPosition : Z;
  parenStack : list Token;
  aliasBarriers : list (list jsstring * nat)
}.

Definition P (A : Type) : Type := parser -> res (A * parser).

Definition ret {A} (a : A) : P A := fun p => Ok (a, p).
Definition bind {A B} (m : P A) (k : A -> P B) : P B :=
  fun p => let* (a, p') := m p in k a p'.
Definition fail {A} (e : js_error) : P A := fun _ => Throw e.

Notation "'let!' x := m 'in' k" := (bind m (fun x => k))
  (at level 10, x pattern, m at level 100, k at level 200,
   format "'let!'  x  :=  m  'in' '//' k") : quereus_scope.

Notation "m ;! k" := (bind m (fun _ => k)) (at level 100, k at level 200, right associativity) : quereus_scope.

(** What is read of the token at an index that is not there: the scan ends
    with [EOF], which is never passed. *)
Definition no_token : Token := mkToken "EOF" [] None 0 0 0 0 0 0.

Definition token_at (p : parser) (i : nat) : Token := nth i (p_tokens p) no_token.
Definition peek (p : parser) : Token := token_at p (p_current p).
Definition previous (p : parser) : Token := token_at p (pred (p_current p)).
Definition isAtEnd (p : parser) : bool := String.eqb (type (peek p)) "EOF".

Definition with_current (n : nat) (p : parser) : parser :=
  mkParser (p_tokens p) n (parameterPosition p) (parenStack p) (aliasBarriers p).
Definition with_stack (s : list Token) (p : parser) : parser :=
  mkParser (p_tokens p) (p_current p) (parameterPosition p) s (aliasBarriers p).

(** The stack of open parentheses is kept for messages, but a closing one with
    nothing open is an error. *)
Definition advance : P Token := fun p =>
  let p1 := if isAtEnd p then p else with_current (S (p_current p)) p in
  let tok := previous p1 in
  if String.eqb (type tok) "LPAREN" then Ok (tok, with_stack (tok :: parenStack p1) p1)
  else if String.eqb (type tok) "RPAREN" then
    match parenStack p1 with
    | [] => Throw EParse
    | _ :: s => Ok (tok, with_stack s p1)
    end
  else Ok (tok, p1).

Definition check (t : TokenType) (p : parser) : bool :=
  if isAtEnd p then false else String.eqb (type (peek p)) t.

Definition checkNext (n : nat) (t : TokenType) (p : parser) : bool :=
  if (length (p_tokens p) <=? p_current p + n)%nat then false
  else String.eqb (type (token_at p (p_current p + n))) t.

(** [this.f(...)] where [f] only reads. *)
Definition reads {A} (f : parser -> A) : P A := fun p => Ok (f p, p).

(** [this.current--]. *)
Definition step_back : P unit := fun p => Ok (tt, with_current (pred (p_current p)) p).

Fixpoint match_ (types : list TokenType) : P bool :=
  match types with
  | [] => ret false
  | t :: types' =>
    let! yes := reads (check t) in
    if yes then (advance ;! ret true) else match_ types'
  end.

Arguments match_ types : simpl never.

Definition consume (t : TokenType) : P Token :=
  let! yes := reads (check t) in
  if yes then advance else fail EParse.

Section Words.

Context `{!CaseMapping}.

Definition peekKeyword (keyword : jsstring) (p : parser) : bool :=
  if isAtEnd p then false
  else
    let token := peek p in
    let keywordKey := toUpperCase keyword in
    (match TokenType_of keywordKey with
     | Some expected => String.eqb (type token) expected
     | None => false
     end)
    || (String.eqb (type token) "IDENTIFIER" && bool_decide (toUpperCase (lexeme token) = keywordKey)).

Definition matchKeyword (keyword : jsstring) : P bool :=
  let! at_end := reads isAtEnd in
  if at_end then ret false
  else
    let! yes := reads (peekKeyword keyword) in
    if yes then (advance ;! ret true) else ret false.

Definition consumeKeyword (keyword : jsstring) : P Token :=
  let! yes := reads (peekKeyword keyword) in
  if yes then advance else fail EParse.

(** [for (const keyword of availableKeywords)]: the type of [token] is that of
    one of the words. *)
Definition among_keywords (availableKeywords : list jsstring) (token : Token) : bool :=
  existsb (fun keyword =>
    match TokenType_of (toUpperCase keyword) with
    | Some expected => String.eqb (type token) expected
    | None => false
    end) availableKeywords.

Definition isContextualKeywordAvailable (availableKeywords : list jsstring) (p : parser) : bool :=
  among_keywords availableKeywords (peek p).

Definition checkIdentifierLike (availableKeywords : list jsstring) (p : parser) : bool :=
  check "IDENTIFIER" p || isContextualKeywordAvailable availableKeywords p.

Definition checkIdentifierLikeAt (offset : nat) (availableKeywords : list jsstring) (p : parser) : bool :=
  if checkNext offset "IDENTIFIER" p then true
  else if (length (p_tokens p) <=? p_current p + offset)%nat then false
  else among_keywords availableKeywords (token_at p (p_current p + offset)).

(** [String(literal)]. *)
Definition literal_text (l : TokenLiteral) : jsstring :=
  match l with
  | LText s => s
  | LNumber d => number_to_string d
  | LBigint n => dec n
  | LBytes b => Stringify.join_with (js ",") (map dec b)
  end.

Definition getIdentifierValue (token : Token) : jsstring :=
  match literal token with
  | Some l => literal_text l
  | None => lexeme token
  end.

Definition consumeIdentifier (availableKeywords : list jsstring) : P jsstring :=
  let! token := reads peek in
  let! yes := reads (check "IDENTIFIER") in
  if yes then (let! t := advance in ret (getIdentifierValue t))
  else if among_keywords availableKeywords token then (let! t := advance in ret (lexeme t))
  else fail EParse.

Definition isTypeNameKeyword (lexeme : jsstring) : bool :=
  bool_decide (toUpperCase lexeme ∈ map js
    ["TEXT"; "INTEGER"; "REAL"; "BLOB"; "NUMERIC"; "VARCHAR"; "CHAR"; "DATE"; "DATETIME"; "BOOLEAN"; "INT"]).

Definition checkSubqueryStart (p : parser) : bool :=
  check "SELECT" p || check "VALUES" p || check "WITH" p || check "INSERT" p || check "UPDATE" p || check "DELETE" p.

(** ** Expressions *)

Section Expressions.

Context {Q : Type} (parseQueryExpr : P Q).

Abbreviation Expr := (Expression Q).

(** [do { l.push(item()) } while (this.match(COMMA))]. *)
Fixpoint comma_list {A} (fuel : nat) (item : P A) (l : list A) : P (list A) :=
  match fuel with
  | O => fail EOutOfFuel
  | S fuel' =>
    let! x := item in
    let! more := match_ ["COMMA"] in
    if more then comma_list fuel' item (l ++ [x]) else ret (l ++ [x])
  end.

Fixpoint chain_loop (fuel : nat) (operand : P Expr) (tokenTypes : list TokenType)
    (resolveOperator : Token -> jsstring) (expr : Expr) : P Expr :=
  match fuel with
  | O => fail EOutOfFuel
  | S fuel' =>
    let! more := match_ tokenTypes in
    if more then
      let! operator := reads (fun p => resolveOperator (previous p)) in
      let! r := operand in
      chain_loop fuel' operand tokenTypes resolveOperator (Binary operator expr r)
    else ret expr
  end.

Definition parseBinaryChain (fuel : nat) (operand : P Expr) (tokenTypes : list TokenType)
    (resolveOperator : Token -> jsstring) : P Expr :=
  let! expr := operand in
  chain_loop fuel operand tokenTypes resolveOperator expr.

(** Where an expression may occur inside another one: [expression] is the
    recursive call. *)
Section Levels.

Context (fuel : nat) (expression : P Expr).

Definition parseWindowFrameBound : P (WindowFrameBound Expr) :=
  let! unbounded := matchKeyword (js "UNBOUNDED") in
  if unbounded then
    let! preceding := matchKeyword (js "PRECEDING") in
    if preceding then ret UnboundedPreceding
    else
      let! following := matchKeyword (js "FOLLOWING") in
      if following then ret UnboundedFollowing else fail EParse
  else
    let! current_ := matchKeyword (js "CURRENT") in
    if current_ then (consumeKeyword (js "ROW") ;! ret CurrentRow)
    else
      let! value := expression in
      let! preceding := matchKeyword (js "PRECEDING") in
      if preceding then ret (Preceding value)
      else
        let! following := matchKeyword (js "FOLLOWING") in
        if following then ret (Following value) else fail EParse.

Definition parseOrderBy : P (OrderByClause Expr) :=
  let! expr := expression in
  let! desc := match_ ["DESC"] in
  let! asc := (if desc then ret false else match_ ["ASC"]) in
  let! nulls := matchKeyword (js "NULLS") in
  if nulls then
    let! first := matchKeyword (js "FIRST") in
    if first then ret (mkOrderBy expr desc (Some NullsFirst))
    else
      let! last := matchKeyword (js "LAST") in
      if last then ret (mkOrderBy expr desc (Some NullsLast)) else fail EParse
  else ret (mkOrderBy expr desc None).

(** The frame clause; [frameType] is the lower-cased lexeme of the word
    matched. *)
Definition parseFrame : P (option (WindowFrame Expr)) :=
  let! rows := matchKeyword (js "ROWS") in
  let! range := (if rows then ret false else matchKeyword (js "RANGE")) in
  if rows || range then
    let frameType := if rows then Rows else Range in
    let! between := matchKeyword (js "BETWEEN") in
    if between then
      let! start := parseWindowFrameBound in
      consumeKeyword (js "AND") ;!
      let! end_ := parseWindowFrameBound in
      ret (Some (mkFrame frameType start (Some end_) None))
    else
      let! start := parseWindowFrameBound in
      ret (Some (mkFrame frameType start None None))
  else ret None.

Definition parseWindowSpecification : P (WindowDefinition Expr) :=
  let! open := match_ ["LPAREN"] in
  if open then
    let! partition := matchKeyword (js "PARTITION") in
    let! partitionBy :=
      (if partition then
         consumeKeyword (js "BY") ;! let! l := comma_list fuel expression [] in ret (Some l)
       else ret None) in
    let! order := matchKeyword (js "ORDER") in
    let! orderBy :=
      (if order then
         consumeKeyword (js "BY") ;! let! l := comma_list fuel parseOrderBy [] in ret (Some l)
       else ret None) in
    let! frame := parseFrame in
    consume "RPAREN" ;!
    ret (mkWindow partitionBy orderBy frame)
  else fail EParse.

(** [while (this.matchKeyword('WHEN'))]. *)
Fixpoint when_loop (n : nat) (clauses : list (Expr * Expr)) : P (list (Expr * Expr)) :=
  match n with
  | O => fail EOutOfFuel
  | S n' =>
    let! when_ := matchKeyword (js "WHEN") in
    if when_ then
      let! whenCondition := expression in
      consumeKeyword (js "THEN") ;!
      let! thenResult := expression in
      when_loop n' (clauses ++ [(whenCondition, thenResult)])
    else ret clauses
  end.

Definition parseCaseExpression : P Expr :=
  let! simple := reads (fun p => negb (peekKeyword (js "WHEN") p)) in
  let! baseExpr := (if simple then let! b := expression in ret (Some b) else ret None) in
  let! whenThenClauses := when_loop fuel [] in
  match whenThenClauses with
  | [] => fail EParse
  | _ =>
    let! else_ := matchKeyword (js "ELSE") in
    let! elseExpr := (if else_ then let! e := expression in ret (Some e) else ret None) in
    consumeKeyword (js "END") ;!
    ret (Case baseExpr whenThenClauses elseExpr)
  end.

(** The literal of a value token: its value and the text kept beside it. *)
Definition literal_of (token : Token) : Expr :=
  if String.eqb (type token) "NULL" then Literal VNull (Some (lexeme token))
  else if String.eqb (type token) "TRUE" then Literal (VBool true) (Some (lexeme token))
  else if String.eqb (type token) "FALSE" then Literal (VBool false) (Some (lexeme token))
  else if String.eqb (type token) "FLOAT" then
    let text := match literal token with Some l => literal_text l | None => [] end in
    Literal (VNumber (parseFloat text)) (Some text)
  else
    let value := match literal token with
                 | Some (LText s) => VText s
                 | Some (LNumber d) => VNumber d
                 | Some (LBigint n) => VBigint n
                 | Some (LBytes b) => VBlob b
                 | None => VNull
                 end in
    if String.eqb (type token) "INTEGER" then
      let text := match literal token with Some l => literal_text l | None => [] end in
      Literal value (if bool_decide (lexeme token = text) then None else Some (lexeme token))
    else Literal value None.

Definition parseCast : P Expr :=
  advance ;!
  consume "LPAREN" ;!
  let! expr := expression in
  consumeKeyword (js "AS") ;!
  let! named := reads (fun p => check "IDENTIFIER" p || isTypeNameKeyword (toUpperCase (lexeme (peek p)))) in
  if negb named then fail EParse
  else
    let! typeToken := advance in
    consume "RPAREN" ;!
    ret (Cast expr (lexeme typeToken)).

Definition parseExists : P Expr :=
  consume "LPAREN" ;!
  let! subquery := parseQueryExpr in
  consume "RPAREN" ;!
  ret (Exists subquery).

(** [index: this.parameterPosition++]. *)
Definition next_parameter : P Z := fun p =>
  Ok (parameterPosition p,
      mkParser (p_tokens p) (p_current p) (parameterPosition p + 1) (parenStack p) (aliasBarriers p)).

Definition parseNamedParameter : P Expr :=
  let! named := reads (fun p => check "IDENTIFIER" p || check "INTEGER" p) in
  if negb named then fail EParse
  else
    let! nameToken := advance in
    ret (Parameter_ None (Some (lexeme nameToken))).

Definition FUNCTION_WORDS : list jsstring := CONTEXTUAL_KEYWORDS ++ [js "replace"].

(** The arguments up to the closing parenthesis. *)
Definition parseArguments : P (list Expr * bool) :=
  let! empty := reads (check "RPAREN") in
  if empty then ret ([], false)
  else
    let! distinct := matchKeyword (js "DISTINCT") in
    let! star := match_ ["ASTERISK"] in
    if star then (if distinct then fail EParse else ret ([], distinct))
    else
      let! args := comma_list fuel expression [] in
      ret (args, distinct).

Definition parseFunctionCall : P Expr :=
  let! name := consumeIdentifier FUNCTION_WORDS in
  consume "LPAREN" ;!
  let! (args, distinct) := parseArguments in
  consume "RPAREN" ;!
  let! over := matchKeyword (js "OVER") in
  if over then
    let! window := parseWindowSpecification in
    ret (WindowFunction name args distinct (Some window))
  else ret (Function_ name args distinct).

Definition parseColumn : P Expr :=
  let like := fun n => checkIdentifierLikeAt n CONTEXTUAL_KEYWORDS in
  let! three := reads (fun p => checkNext 1 "DOT" p && like 2%nat p && checkNext 3 "DOT" p && like 4%nat p) in
  if three then
    let! schema := consumeIdentifier CONTEXTUAL_KEYWORDS in
    advance ;!
    let! table := consumeIdentifier CONTEXTUAL_KEYWORDS in
    advance ;!
    let! name := consumeIdentifier CONTEXTUAL_KEYWORDS in
    ret (Column name (Some table) (Some schema))
  else
    let! two := reads (fun p => checkNext 1 "DOT" p && like 2%nat p) in
    if two then
      let! table := consumeIdentifier CONTEXTUAL_KEYWORDS in
      advance ;!
      let! name := consumeIdentifier CONTEXTUAL_KEYWORDS in
      ret (Column name (Some table) None)
    else
      let! name := consumeIdentifier CONTEXTUAL_KEYWORDS in
      ret (Column name None None).

Definition parseParenthesized : P Expr :=
  let! query := reads checkSubqueryStart in
  if query then
    let! subquery := parseQueryExpr in
    consume "RPAREN" ;!
    ret (Subquery subquery)
  else
    let! expr := expression in
    consume "RPAREN" ;!
    ret expr.

Definition primary : P Expr :=
  let! case := matchKeyword (js "CASE") in
  if case then parseCaseExpression
  else
  let! cast := reads (fun p => peekKeyword (js "CAST") p && checkNext 1 "LPAREN" p) in
  if cast then parseCast
  else
  let! exists_ := match_ ["EXISTS"] in
  if exists_ then parseExists
  else
  let! lit := match_ ["INTEGER"; "FLOAT"; "STRING"; "NULL"; "TRUE"; "FALSE"; "BLOB"] in
  if lit then reads (fun p => literal_of (previous p))
  else
  let! question := match_ ["QUESTION"] in
  if question then (let! index := next_parameter in ret (Parameter_ (Some index) None))
  else
  let! prefix := match_ ["COLON"; "DOLLAR"] in
  if prefix then parseNamedParameter
  else
  let! call := reads (fun p => checkIdentifierLike FUNCTION_WORDS p && checkNext 1 "LPAREN" p) in
  if call then parseFunctionCall
  else
  let! name := reads (checkIdentifierLike CONTEXTUAL_KEYWORDS) in
  if name then parseColumn
  else
  let! open := match_ ["LPAREN"] in
  if open then parseParenthesized
  else fail EParse.

Definition jsonPathRhs : P Expr :=
  let! str := match_ ["STRING"] in
  if str then
    reads (fun p =>
      let path := match literal (previous p) with Some l => literal_text l | None => [] end in
      Literal (VText (if bool_decide (head path = Some 36) then path else js "$." ++ path)) None)
  else
    let! int := match_ ["INTEGER"] in
    if int then
      reads (fun p =>
        let index := match literal (previous p) with Some l => literal_text l | None => [] end in
        Literal (VText (js "$[" ++ index ++ js "]")) None)
    else primary.

Fixpoint json_loop (n : nat) (expr : Expr) : P Expr :=
  match n with
  | O => fail EOutOfFuel
  | S n' =>
    let! more := match_ ["ARROW"; "DARROW"] in
    if more then
      let! opToken := reads previous in
      let! pathExpr := jsonPathRhs in
      let extract := Function_ (js "json_extract") [expr; pathExpr] false in
      json_loop n' (if String.eqb (type opToken) "DARROW" then Cast extract (js "text") else extract)
    else ret expr
  end.

Definition jsonPath : P Expr :=
  let! expr := primary in
  json_loop fuel expr.

Definition collateExpression : P Expr :=
  let! expr := jsonPath in
  let! collate := matchKeyword (js "COLLATE") in
  if collate then
    let! collationToken := consume "IDENTIFIER" in
    ret (Collate expr (getIdentifierValue collationToken))
  else ret expr.

Definition concatenation : P Expr :=
  parseBinaryChain fuel collateExpression ["PIPE_PIPE"] (fun _ => js "||").

Fixpoint unary (n : nat) : P Expr :=
  match n with
  | O => fail EOutOfFuel
  | S n' =>
    let! op := match_ ["MINUS"; "PLUS"; "TILDE"] in
    if op then
      let! operatorToken := reads previous in
      let! r := unary n' in
      ret (Unary (lexeme operatorToken) r)
    else concatenation
  end.

Definition factor : P Expr :=
  parseBinaryChain fuel (unary fuel) ["ASTERISK"; "SLASH"; "PERCENT"] lexeme.

Definition term : P Expr :=
  parseBinaryChain fuel factor ["PLUS"; "MINUS"]
    (fun t => if String.eqb (type t) "PLUS" then js "+" else js "-").

(** The parenthesised right side of IN, after the opening parenthesis. *)
Definition parseInTail (expr : Expr) : P Expr :=
  let! query := reads checkSubqueryStart in
  if query then
    let! subquery := parseQueryExpr in
    consume "RPAREN" ;!
    ret (In_ expr None (Some subquery))
  else
    let! empty := reads (check "RPAREN") in
    let! values := (if empty then ret [] else comma_list fuel expression []) in
    consume "RPAREN" ;!
    ret (In_ expr (Some values) None).

Definition parseBetweenTail (expr : Expr) (not : bool) : P Expr :=
  let! lower := term in
  consume "AND" ;!
  let! upper := term in
  ret (Between expr lower upper not).

Definition comparison_operator (t : TokenType) : jsstring :=
  if String.eqb t "LESS" then js "<" else if String.eqb t "LESS_EQUAL" then js "<="
  else if String.eqb t "GREATER" then js ">" else if String.eqb t "GREATER_EQUAL" then js ">="
  else js "?".

(** After NOT: [None] puts the token back and leaves the loop. *)
Definition parseNegated (expr : Expr) : P (option Expr) :=
  let! in_ := match_ ["IN"] in
  if in_ then
    consume "LPAREN" ;!
    let! e := parseInTail expr in ret (Some (Unary (js "NOT") e))
  else
  let! between := match_ ["BETWEEN"] in
  if between then (let! e := parseBetweenTail expr true in ret (Some e))
  else
  let! like := match_ ["LIKE"] in
  if like then
    let! pattern := term in
    ret (Some (Unary (js "NOT") (Binary (js "LIKE") expr pattern)))
  else (step_back ;! ret None).

(** The loop body for any other operator. *)
Definition parseCompared (operatorToken : Token) (expr : Expr) : P Expr :=
  if String.eqb (type operatorToken) "LIKE" then
    let! pattern := term in ret (Binary (js "LIKE") expr pattern)
  else if String.eqb (type operatorToken) "BETWEEN" then parseBetweenTail expr false
  else if String.eqb (type operatorToken) "IN" then
    consume "LPAREN" ;! parseInTail expr
  else
    let! r := term in ret (Binary (comparison_operator (type operatorToken)) expr r).

Fixpoint comparison_loop (n : nat) (expr : Expr) : P Expr :=
  match n with
  | O => fail EOutOfFuel
  | S n' =>
    let! more := match_ ["LESS"; "LESS_EQUAL"; "GREATER"; "GREATER_EQUAL"; "BETWEEN"; "IN"; "NOT"; "LIKE"] in
    if more then
      let! operatorToken := reads previous in
      if String.eqb (type operatorToken) "NOT" then
        let! next := parseNegated expr in
        match next with
        | Some expr' => comparison_loop n' expr'
        | None => ret expr
        end
      else
        let! expr' := parseCompared operatorToken expr in
        comparison_loop n' expr'
    else ret expr
  end.

Definition comparison : P Expr :=
  let! expr := term in
  comparison_loop fuel expr.

Definition equality : P Expr :=
  parseBinaryChain fuel comparison ["EQUAL"; "EQUAL_EQUAL"; "NOT_EQUAL"]
    (fun t => if String.eqb (type t) "NOT_EQUAL" then js "!="
              else if String.eqb (type t) "EQUAL_EQUAL" then js "==" else js "=").

Definition isPredicate : P Expr :=
  let! expr := equality in
  let! is_ := match_ ["IS"] in
  if is_ then
    let! isNot := match_ ["NOT"] in
    let! null := match_ ["NULL"] in
    if null then ret (Unary (if isNot then js "IS NOT NULL" else js "IS NULL") expr)
    else
    let! true_ := match_ ["TRUE"] in
    if true_ then ret (Unary (if isNot then js "IS NOT TRUE" else js "IS TRUE") expr)
    else
    let! false_ := match_ ["FALSE"] in
    if false_ then ret (Unary (if isNot then js "IS NOT FALSE" else js "IS FALSE") expr)
    else
      (if isNot then step_back else ret tt) ;! step_back ;! ret expr
  else ret expr.

Fixpoint notExpression (n : nat) : P Expr :=
  match n with
  | O => fail EOutOfFuel
  | S n' =>
    let! not := match_ ["NOT"] in
    if not then (let! r := notExpression n' in ret (Unary (js "NOT") r))
    else isPredicate
  end.

Definition logicalAnd : P Expr :=
  parseBinaryChain fuel (notExpression fuel) ["AND"] (fun _ => js "AND").

Definition logicalXorOr : P Expr :=
  parseBinaryChain fuel logicalAnd ["OR"; "XOR"]
    (fun t => if String.eqb (type t) "XOR" then js "XOR" else js "OR").

End Levels.

End Expressions.

(** [initialize]. *)
Definition initialize (sql : jsstring) : res parser :=
  let tokens := scanTokens sql in
  if existsb (fun t => String.eqb (type t) "ERROR") tokens then Throw EParse
  else Ok (mkParser tokens 0 1 [] []).

End Words.

End Parser.
