(* ===== verification/QueryParser.v ===== *)
(** * The query parser

    Models the query part of [packages/quereus/src/parser/parser.ts]: WITH
    clauses, SELECT with its sources, joins, set operations and trailing
    clauses, VALUES, INSERT, UPDATE and DELETE, and closes the recursion between
    queries and expressions.

    The WITH clause that the methods pass down is read by none of them and is
    left out; the one a query owns is attached by [parseQueryExpr].  A start
    token is passed for the offset it contributes to a generated alias.

    [expression], [parseQueryExpr] and [parseCompoundOperand] recurse on fuel,
    one unit less in each call.  The calls are made after a token has been
    consumed, so fuel above the tokens left is enough for every text
    ([ParserTotal]). *)

From S2P Require Import Prelude Bytes Double Decimal NumberText Json Comparison VTab Lexer Ast AstStringify ExprParser.
From Stdlib Require Import ZArith Lia.
From Stdlib Require Ascii String.
From stdpp Require Import base tactics numbers list.
Import Json Comparison VTab Lexer Ast Parser.
#[local] Open Scope string_scope.
#[local] Open Scope Z_scope.

Module QueryParser.

Section Queries.

Context `{!CaseMapping}.

Abbreviation Q := QueryExpr.
Abbreviation Expr := (Expression QueryExpr).
Abbreviation Columns := (list (ResultColumn Expr)).

(** The methods the recursion goes through. *)
Section Methods.

Context (fuel : nat) (expression : P Expr) (parseQueryExpr parseCompoundOperand : bool -> P Q).

(** ** Names and small clauses *)

(** [do { ... } while (this.match(COMMA) && !this.check(RPAREN))]. *)
Fixpoint name_loop (n : nat) (l : list jsstring) : P (list jsstring) :=
  match n with
  | O => fail EOutOfFuel
  | S n' =>
    let! name := consumeIdentifier CONTEXTUAL_KEYWORDS in
    let! more := match_ ["COMMA"] in
    if more then
      let! close := reads (check "RPAREN") in
      if close then ret (l ++ [name]) else name_loop n' (l ++ [name])
    else ret (l ++ [name])
  end.

(** A column list after its opening parenthesis. *)
Definition names_in_parens : P (list jsstring) :=
  let! empty := reads (check "RPAREN") in
  let! l := (if empty then ret [] else name_loop fuel []) in
  consume "RPAREN" ;! ret l.

Definition tableIdentifier : P IdentifierExpr :=
  let contextualKeywords := CONTEXTUAL_KEYWORDS ++ [js "temp"; js "temporary"] in
  let! dotted := reads (fun p => checkIdentifierLike contextualKeywords p && checkNext 1 "DOT" p) in
  if dotted then
    let! schema := consumeIdentifier contextualKeywords in
    advance ;!
    let! name := consumeIdentifier contextualKeywords in
    ret (mkIdent name (Some schema))
  else
    let! plain := reads (checkIdentifierLike contextualKeywords) in
    if plain then (let! name := consumeIdentifier contextualKeywords in ret (mkIdent name None))
    else fail EParse.

(** [column = expression]. *)
Definition assignment_of (words : list jsstring) : P (jsstring * Expr) :=
  let! column := consumeIdentifier words in
  consume "EQUAL" ;!
  let! value := expression in
  ret (column, value).

(** The body of WITH INVERSE and WITH DEFAULTS: no column twice. *)
Fixpoint distinct_assignments (n : nat) (seen : list jsstring) (l : list (jsstring * Expr))
    : P (list (jsstring * Expr)) :=
  match n with
  | O => fail EOutOfFuel
  | S n' =>
    let! column := consumeIdentifier CONTEXTUAL_KEYWORDS in
    if bool_decide (toLowerCase column ∈ seen) then fail EParse
    else
      consume "EQUAL" ;!
      let! value := expression in
      let! more := match_ ["COMMA"] in
      if more then distinct_assignments n' (toLowerCase column :: seen) (l ++ [(column, value)])
      else ret (l ++ [(column, value)])
  end.

(** [WITH word ( column = expr, ... )], when [word] follows WITH. *)
Definition with_assignments (word : jsstring) : P (option (list (jsstring * Expr))) :=
  let! with_ := reads (check "WITH") in
  if negb with_ then ret None
  else
    advance ;!
    let! yes := reads (peekKeyword word) in
    if negb yes then (step_back ;! ret None)
    else
      advance ;!
      consume "LPAREN" ;!
      let! l := distinct_assignments fuel [] [] in
      consume "RPAREN" ;!
      ret (Some l).

Definition parseDefaultsClause : P (option (list (jsstring * Expr))) := with_assignments (js "DEFAULTS").
Definition parseInverseClause : P (option (list (jsstring * Expr))) := with_assignments (js "INVERSE").

Definition rejectInverseClauseOnStar : P unit :=
  let! inverse := parseInverseClause in
  match inverse with
  | Some _ => fail EParse
  | None => ret tt
  end.

Definition parseContextAssignments : P (list (jsstring * Expr)) := comma_list fuel (assignment_of []) [].

Definition schema_names : P (list jsstring) := comma_list fuel (consumeIdentifier []) [].

Definition parseSchemaPath : P (option (list jsstring)) :=
  let! with_ := matchKeyword (js "WITH") in
  if with_ then
    let! schema := matchKeyword (js "SCHEMA") in
    if schema then (let! l := schema_names in ret (Some l))
    else (step_back ;! ret None)
  else ret None.

(** [this.previous().literal] as a value. *)
Definition literal_value (t : Token) : SqlValue :=
  match literal t with
  | Some (LText s) => VText s
  | Some (LNumber d) => VNumber d
  | Some (LBigint n) => VBigint n
  | Some (LBytes b) => VBlob b
  | None => VNull
  end.

(** [- d]: the other sign, unless it is not a number. *)
Definition negate_number (d : double) : double := if is_nan d then d else signed (negb (dneg d)) (dmag d).

(** Unary minus; a text is converted to a number first. *)
Definition negated (v : SqlValue) : SqlValue :=
  match v with
  | VBigint n => VBigint (- n)
  | VNumber d => VNumber (negate_number d)
  | VText s => VNumber (negate_number (Number_of_string s))
  | _ => v
  end.

Definition parseTagValue : P SqlValue :=
  let! str := match_ ["STRING"] in
  if str then reads (fun p => literal_value (previous p))
  else
  let! num := match_ ["INTEGER"; "FLOAT"] in
  if num then reads (fun p => literal_value (previous p))
  else
  let! true_ := match_ ["TRUE"] in
  if true_ then ret (VBool true)
  else
  let! false_ := match_ ["FALSE"] in
  if false_ then ret (VBool false)
  else
  let! null := match_ ["NULL"] in
  if null then ret VNull
  else
  let! minus := match_ ["MINUS"] in
  if minus then
    let! num := match_ ["INTEGER"; "FLOAT"] in
    if num then reads (fun p => negated (literal_value (previous p))) else fail EParse
  else fail EParse.

Fixpoint tag_loop (n : nat) (tags : Tags) : P Tags :=
  match n with
  | O => fail EOutOfFuel
  | S n' =>
    let! key := consumeIdentifier [] in
    consume "EQUAL" ;!
    let! value := parseTagValue in
    let tags' := assign_tag tags key value in
    let! more := match_ ["COMMA"] in
    if more then tag_loop n' tags' else ret tags'
  end.

Definition parseTags : P Tags :=
  consume "LPAREN" ;!
  let! empty := reads (check "RPAREN") in
  let! tags := (if empty then ret [] else tag_loop fuel []) in
  consume "RPAREN" ;! ret tags.

(** The loop over WITH CONTEXT and WITH TAGS before the body of a write. *)
Fixpoint leading_with (n : nat) (contextValues : option (list (jsstring * Expr))) (tags : option Tags)
    : P (option (list (jsstring * Expr)) * option Tags) :=
  match n with
  | O => fail EOutOfFuel
  | S n' =>
    let! with_ := matchKeyword (js "WITH") in
    if with_ then
      let! context := matchKeyword (js "CONTEXT") in
      if context then (let! c := parseContextAssignments in leading_with n' (Some c) tags)
      else
        let! tags_ := matchKeyword (js "TAGS") in
        if tags_ then (let! t := parseTags in leading_with n' contextValues (Some t))
        else (step_back ;! ret (contextValues, tags))
    else ret (contextValues, tags)
  end.

Record trailing : Type := mkTrailing {
  contextValues : option (list (jsstring * Expr));
  schemaPath : option (list jsstring);
  tags : option Tags
}.

Fixpoint trailing_loop (n : nat) (t : trailing) : P trailing :=
  match n with
  | O => fail EOutOfFuel
  | S n' =>
    let! with_ := matchKeyword (js "WITH") in
    if with_ then
      let! context := matchKeyword (js "CONTEXT") in
      if context then
        if bool_decide (is_Some (contextValues t)) then fail EParse
        else let! c := parseContextAssignments in trailing_loop n' (mkTrailing (Some c) (schemaPath t) (tags t))
      else
      let! schema := matchKeyword (js "SCHEMA") in
      if schema then
        if bool_decide (is_Some (schemaPath t)) then fail EParse
        else let! s := schema_names in trailing_loop n' (mkTrailing (contextValues t) (Some s) (tags t))
      else
      let! tags_ := matchKeyword (js "TAGS") in
      if tags_ then
        if bool_decide (is_Some (tags t)) then fail EParse
        else let! g := parseTags in trailing_loop n' (mkTrailing (contextValues t) (schemaPath t) (Some g))
      else (step_back ;! ret t)
    else ret t
  end.

Definition parseTrailingWithClauses : P trailing := trailing_loop fuel (mkTrailing None None None).

(** The trailing clauses of a write joined to its leading ones; a clause given
    twice is an error. *)
Definition merge_clause {A} (leading trailing : option A) : P (option A) :=
  match leading, trailing with
  | Some _, Some _ => fail EParse
  | _, Some _ => ret trailing
  | _, None => ret leading
  end.

(** ** Result columns *)

Definition isEndOfClause (p : parser) : bool :=
  existsb (String.eqb (type (peek p)))
    ["FROM"; "WHERE"; "GROUP"; "HAVING"; "ORDER"; "LIMIT"; "UNION"; "DIFF"; "INTERSECT"; "EXCEPT"; "SEMICOLON"; "EOF"].

Definition atAliasBarrier (p : parser) : bool :=
  let token := peek p in
  if negb (String.eqb (type token) "IDENTIFIER") || bool_decide (is_Some (literal token)) then false
  else existsb (fun '(words, parenDepth) =>
         (parenDepth =? length (parenStack p))%nat && bool_decide (toUpperCase (lexeme token) ∈ words)) (aliasBarriers p).

(** The alias after AS. *)
Definition column_alias : P jsstring :=
  let! named := reads (fun p => checkIdentifierLike CONTEXTUAL_KEYWORDS p || check "STRING" p) in
  if named then (let! t := advance in ret (getIdentifierValue t)) else fail EParse.

Definition resultColumn : P (ResultColumn Expr) :=
  let! star := match_ ["ASTERISK"] in
  if star then (rejectInverseClauseOnStar ;! ret (AllColumns None))
  else
  let! table_star := reads (fun p => checkIdentifierLike CONTEXTUAL_KEYWORDS p && checkNext 1 "DOT" p && checkNext 2 "ASTERISK" p) in
  if table_star then
    let! table := consumeIdentifier CONTEXTUAL_KEYWORDS in
    advance ;! advance ;!
    rejectInverseClauseOnStar ;!
    ret (AllColumns (Some table))
  else
    let! expr := expression in
    let! as_ := match_ ["AS"] in
    let! alias :=
      (if as_ then (let! a := column_alias in ret (Some a))
       else
         let! implicit := reads (fun p => checkIdentifierLike [] p && negb (checkNext 1 "LPAREN" p) &&
           negb (checkNext 1 "DOT" p) && negb (isEndOfClause p) && negb (atAliasBarrier p)) in
         if implicit then (let! t := advance in ret (Some (getIdentifierValue t))) else ret None) in
    let! inverse := parseInverseClause in
    ret (ExprColumn expr alias inverse).

Definition columnList : P Columns := comma_list fuel resultColumn [].

(** ** Sources *)

Definition isJoinToken (p : parser) : bool :=
  existsb (fun t => check t p) ["JOIN"; "INNER"; "LEFT"; "RIGHT"; "FULL"; "CROSS"].

Definition matchBareSourceAlias : P (option Token) :=
  let! no := reads (fun p => negb (checkIdentifierLike [] p) || checkNext 1 "DOT" p || isJoinToken p ||
                             isEndOfClause p || atAliasBarrier p) in
  if no then ret None else (let! t := advance in ret (Some t)).

Definition startsParenSubquery (p : parser) : bool :=
  check "LPAREN" p &&
  existsb (fun t => checkNext 1 t p) ["SELECT"; "VALUES"; "WITH"; "INSERT"; "UPDATE"; "DELETE"].

(** [AS alias], where [words] may be names, or a bare alias. *)
Definition source_alias (words : list jsstring) : P (option jsstring) :=
  let! as_ := match_ ["AS"] in
  if as_ then
    let! named := reads (checkIdentifierLike words) in
    if named then (let! t := advance in ret (Some (getIdentifierValue t))) else fail EParse
  else
    let! aliasToken := matchBareSourceAlias in
    ret (option_map getIdentifierValue aliasToken).

Definition is_mutating (q : Q) : bool :=
  match q with
  | Insert _ | Update _ | Delete _ => true
  | _ => false
  end.

Definition subquerySource (startOffset : Z) (requireAlias : bool) : P (SubqueryTarget Q) :=
  consume "LPAREN" ;!
  let! subquery := parseQueryExpr true in
  consume "RPAREN" ;!
  let! given := source_alias [] in
  let! alias :=
    (match given with
     | Some a => ret a
     | None =>
       if requireAlias then fail EParse
       else ret ((if is_mutating subquery then js "mutating_subquery" else js "subquery") ++ js "_" ++ dec startOffset)
     end) in
  let! open := match_ ["LPAREN"] in
  let! columns := (if open then (let! l := names_in_parens in ret (Some l)) else ret None) in
  ret (mkTarget subquery alias columns).

Definition subqueryDmlTarget : P (option (SubqueryTarget Q)) :=
  let! yes := reads startsParenSubquery in
  if negb yes then ret None
  else
    let! start := reads peek in
    let! t := subquerySource (startOffset start) true in
    ret (Some t).

Definition standardTableSource : P (FromClause Q) :=
  let! table := tableIdentifier in
  let! alias := source_alias CONTEXTUAL_KEYWORDS in
  ret (TableSource table alias).

Definition functionSource : P (FromClause Q) :=
  let! name := tableIdentifier in
  consume "LPAREN" ;!
  let! (args, _) := parseArguments fuel expression in
  consume "RPAREN" ;!
  let! alias := source_alias CONTEXTUAL_KEYWORDS in
  let! open := (match Stringify.given alias with Some _ => match_ ["LPAREN"] | None => ret false end) in
  let! columns := (if open then (let! l := names_in_parens in ret (Some l)) else ret None) in
  ret (FunctionFrom name args alias columns).

Definition tableSource : P (FromClause Q) :=
  let! startToken := reads peek in
  let! sub := reads startsParenSubquery in
  if sub then
    let! t := subquerySource (startOffset startToken) false in
    ret (SubquerySource (t_subquery t) (t_alias t) (t_columns t))
  else
    let! call := reads (fun p => checkIdentifierLike CONTEXTUAL_KEYWORDS p && checkNext 1 "LPAREN" p) in
    if call then functionSource else standardTableSource.

(** The sides of a join that may be null-extended. *)
Definition nonPreserved (joinType : JoinType) : list Side :=
  match joinType with
  | LeftJoin => [SideRight]
  | RightJoin => [SideLeft]
  | FullJoin => [SideLeft; SideRight]
  | _ => []
  end.

Definition resolveExistenceSide (joinType : JoinType) (explicitSide : option Side) : P Side :=
  match nonPreserved joinType, explicitSide with
  | [], _ => fail EParse
  | sides, Some s => if bool_decide (s ∈ sides) then ret s else fail EParse
  | [s], None => ret s
  | _, None => fail EParse
  end.

Definition explicit_side : P (option Side) :=
  let! left_ := match_ ["LEFT"] in
  if left_ then ret (Some SideLeft)
  else
    let! right_ := match_ ["RIGHT"] in
    if right_ then ret (Some SideRight) else ret None.

(** [exists [side] as name] repeated after a comma that EXISTS follows; [side]
    decides what is stored from the side written. *)
Fixpoint existence_loop (n : nat) (side : option Side -> P Side) (l : list (Side * jsstring))
    : P (list (Side * jsstring)) :=
  match n with
  | O => fail EOutOfFuel
  | S n' =>
    consume "EXISTS" ;!
    let! explicitSide := explicit_side in
    consume "AS" ;!
    let! name := consumeIdentifier CONTEXTUAL_KEYWORDS in
    let! s := side explicitSide in
    let! more := reads (fun p => check "COMMA" p && checkNext 1 "EXISTS" p) in
    if more then (advance ;! existence_loop n' side (l ++ [(s, name)]))
    else ret (l ++ [(s, name)])
  end.

Definition joinExistenceClauses (joinType : JoinType) : P (option (list (Side * jsstring))) :=
  let! yes := reads (fun p => check "EXISTS" p && (checkNext 1 "AS" p || checkNext 1 "LEFT" p || checkNext 1 "RIGHT" p)) in
  if negb yes then ret None
  else (let! l := existence_loop fuel (resolveExistenceSide joinType) [] in ret (Some l)).

(** The branch is mandatory: when it is missing the error comes before AS. *)
Fixpoint membership_loop (n : nat) (l : list (Side * jsstring)) : P (list (Side * jsstring)) :=
  match n with
  | O => fail EOutOfFuel
  | S n' =>
    consume "EXISTS" ;!
    let! branch := explicit_side in
    match branch with
    | None => fail EParse
    | Some b =>
      consume "AS" ;!
      let! name := consumeIdentifier CONTEXTUAL_KEYWORDS in
      let! more := reads (fun p => check "COMMA" p && checkNext 1 "EXISTS" p) in
      if more then (advance ;! membership_loop n' (l ++ [(b, name)]))
      else ret (l ++ [(b, name)])
    end
  end.

Definition setOpMembershipClauses (op : CompoundOp) : P (option (list (Side * jsstring))) :=
  let! yes := reads (fun p => check "EXISTS" p && (checkNext 1 "LEFT" p || checkNext 1 "RIGHT" p)) in
  if negb yes then ret None
  else if bool_decide (op = Diff) then fail EParse
  else (let! l := membership_loop fuel [] in ret (Some l)).

Definition join_type : P JoinType :=
  let! left_ := match_ ["LEFT"] in
  if left_ then (match_ ["OUTER"] ;! ret LeftJoin)
  else
  let! right_ := match_ ["RIGHT"] in
  if right_ then (match_ ["OUTER"] ;! ret RightJoin)
  else
  let! full := match_ ["FULL"] in
  if full then (match_ ["OUTER"] ;! ret FullJoin)
  else
  let! cross := match_ ["CROSS"] in
  if cross then ret CrossJoin
  else (match_ ["INNER"] ;! ret InnerJoin).

Definition joinClause (left_ : FromClause Q) : P (FromClause Q) :=
  let! joinType := join_type in
  consume "JOIN" ;!
  let! isLateral := match_ ["LATERAL"] in
  let! right_ := tableSource in
  let! on := match_ ["ON"] in
  let! (condition, columns) :=
    (if on then (let! c := expression in ret (Some c, None))
     else
       let! using_ := match_ ["USING"] in
       if using_ then
         consume "LPAREN" ;!
         let! l := comma_list fuel (consumeIdentifier CONTEXTUAL_KEYWORDS) [] in
         consume "RPAREN" ;! ret (None, Some l)
       else if bool_decide (joinType = CrossJoin) then ret (None, None)
       else fail EParse) in
  let! existence := joinExistenceClauses joinType in
  ret (Join joinType left_ right_ condition columns isLateral existence).

Fixpoint join_loop (n : nat) (source : FromClause Q) : P (FromClause Q) :=
  match n with
  | O => fail EOutOfFuel
  | S n' =>
    let! join := reads isJoinToken in
    if join then (let! source' := joinClause source in join_loop n' source') else ret source
  end.

Definition tableSourceList : P (list (FromClause Q)) :=
  comma_list fuel (let! source := tableSource in join_loop fuel source) [].

(** ** SELECT and VALUES *)

Definition checkCompoundOperator (p : parser) : bool :=
  check "UNION" p || check "INTERSECT" p || check "EXCEPT" p || check "DIFF" p.

Definition parseCompoundOperator : P (CompoundOp * option (list (Side * jsstring))) :=
  let! tok := reads previous in
  let! op :=
    (if String.eqb (type tok) "UNION" then (let! every := match_ ["ALL"] in ret (if every then UnionAll else Union))
     else if String.eqb (type tok) "INTERSECT" then ret Intersect
     else if String.eqb (type tok) "EXCEPT" then ret Except
     else ret Diff) in
  let! existence := setOpMembershipClauses op in
  ret (op, existence).

Definition wrapAsSubquerySelect (inner : Q) (startOffset : Z) : SelectStmt Q :=
  mkSelect None [AllColumns None]
    (Some [SubquerySource inner (js "values_" ++ dec startOffset) None])
    None None None None None None false false None None None.

(** [acc.compound = ...]. *)
Definition set_compound (s : SelectStmt Q) (c : Compound Q) : SelectStmt Q :=
  mkSelect (s_withClause s) (s_columns s) (s_from s) (s_where s) (s_groupBy s) (s_having s) (s_orderBy s)
    (s_limit s) (s_offset s) (s_distinct s) (s_all s) (Some c) (s_schemaPath s) (s_defaults s).

Fixpoint compound_loop (n : nat) (startOffset : Z) (acc : Q) : P Q :=
  match n with
  | O => fail EOutOfFuel
  | S n' =>
    let! more := match_ ["UNION"; "INTERSECT"; "EXCEPT"; "DIFF"] in
    if more then
      let! (op, existence) := parseCompoundOperator in
      let! parenthesized := reads (check "LPAREN") in
      let! right_ := parseCompoundOperand true in
      let host :=
        match acc with
        | Select s => match s_compound s with None => s | Some _ => wrapAsSubquerySelect acc startOffset end
        | _ => wrapAsSubquerySelect acc startOffset
        end in
      let acc' := Select (set_compound host (mkCompound op right_ existence)) in
      if parenthesized then compound_loop n' startOffset acc' else ret acc'
    else ret acc
  end.

Definition parseCompoundTail (startOffset : Z) (left_ : Q) : P Q := compound_loop fuel startOffset left_.

Definition set_trailing (s : SelectStmt Q) (orderBy : option (list (OrderByClause Expr)))
    (limit offset : option Expr) : SelectStmt Q :=
  mkSelect (s_withClause s) (s_columns s) (s_from s) (s_where s) (s_groupBy s) (s_having s)
    (match orderBy with Some _ => orderBy | None => s_orderBy s end)
    (match limit with Some _ => limit | None => s_limit s end)
    (match offset with Some _ => offset | None => s_offset s end)
    (s_distinct s) (s_all s) (s_compound s) (s_schemaPath s) (s_defaults s).

Definition set_defaults (s : SelectStmt Q) (defaults : list (jsstring * Expr)) : SelectStmt Q :=
  mkSelect (s_withClause s) (s_columns s) (s_from s) (s_where s) (s_groupBy s) (s_having s) (s_orderBy s)
    (s_limit s) (s_offset s) (s_distinct s) (s_all s) (s_compound s) (s_schemaPath s) (Some defaults).

Definition parseTrailingOrderLimit (sel : SelectStmt Q) (isCompoundSubquery : bool) : P (SelectStmt Q) :=
  if isCompoundSubquery then ret sel
  else
    let! order := match_ ["ORDER"] in
    let! orderBy :=
      (if order then (consume "BY" ;! let! l := comma_list fuel (parseOrderBy expression) [] in ret (Some l))
       else ret None) in
    let! limit_ := match_ ["LIMIT"] in
    let! (limit, offset) :=
      (if limit_ then
         let! first := expression in
         let! offset_ := match_ ["OFFSET"] in
         if offset_ then (let! o := expression in ret (Some first, Some o))
         else
           let! comma := match_ ["COMMA"] in
           if comma then (let! second := expression in ret (Some second, Some first))
           else ret (Some first, None)
       else ret (None, None)) in
    ret (set_trailing sel orderBy limit offset).

(** The clauses of the final result of a set operation.  The tail is a SELECT
    wherever this is called. *)
Definition finish_select (q : Q) (isCompoundSubquery : bool) : P Q :=
  match q with
  | Select s =>
    let! s1 := parseTrailingOrderLimit s isCompoundSubquery in
    if isCompoundSubquery then ret (Select s1)
    else
      let! defaults := parseDefaultsClause in
      ret (Select (match defaults with Some d => set_defaults s1 d | None => s1 end))
  | _ => ret q
  end.

(** [if (this.match(t)) ...: this.expression()]. *)
Definition optional_clause {A} (t : TokenType) (body : P A) : P (option A) :=
  let! yes := match_ [t] in
  if yes then (let! a := body in ret (Some a)) else ret None.

Definition selectStatement (startOffset : Z) (isCompoundSubquery : bool) : P Q :=
  let! distinct := matchKeyword (js "DISTINCT") in
  let! all := (if distinct then ret false else matchKeyword (js "ALL")) in
  let! columns := columnList in
  let! from := optional_clause "FROM" tableSourceList in
  let! where_ := optional_clause "WHERE" expression in
  let! groupBy := optional_clause "GROUP" (consume "BY" ;! comma_list fuel expression []) in
  let! having := optional_clause "HAVING" expression in
  let! schemaPath := (if isCompoundSubquery then ret None else parseSchemaPath) in
  let sel := mkSelect None columns from where_ groupBy having None None None distinct all None schemaPath None in
  let! result := parseCompoundTail startOffset (Select sel) in
  finish_select result isCompoundSubquery.

Definition valueList : P (list Expr) :=
  consume "LPAREN" ;!
  let! empty := reads (check "RPAREN") in
  let! l := (if empty then ret [] else comma_list fuel expression []) in
  consume "RPAREN" ;! ret l.

Definition valuesStatement : P Q :=
  let! values := comma_list fuel valueList [] in
  ret (Values values).

Definition checkWithDefaults (p : parser) : bool :=
  check "WITH" p &&
  let next := token_at p (S (p_current p)) in
  String.eqb (type next) "IDENTIFIER" && bool_decide (toUpperCase (lexeme next) = js "DEFAULTS").

Definition continueSelectAfterFrom (sel : SelectStmt Q) (startOffset : Z) (isCompoundSubquery : bool) : P Q :=
  let! result := parseCompoundTail startOffset (Select sel) in
  finish_select result isCompoundSubquery.

Definition valuesStatementWithOptionalCompound (startOffset : Z) (isCompoundSubquery : bool) : P Q :=
  let! values := valuesStatement in
  let! hasCompound := reads checkCompoundOperator in
  let! hasTrailing := reads (fun p => negb isCompoundSubquery &&
    (check "ORDER" p || check "LIMIT" p || checkWithDefaults p)) in
  if negb hasCompound && negb hasTrailing then ret values
  else continueSelectAfterFrom (wrapAsSubquerySelect values startOffset) startOffset isCompoundSubquery.

(** ** INSERT, UPDATE and DELETE *)

Definition parseUpsertClause : P (UpsertClause Expr) :=
  let! open := match_ ["LPAREN"] in
  let! conflictTarget :=
    (if open then
       let! l := comma_list fuel (consumeIdentifier []) [] in
       consume "RPAREN" ;! ret (Some l)
     else ret None) in
  consumeKeyword (js "DO") ;!
  let! nothing := matchKeyword (js "NOTHING") in
  if nothing then ret (mkUpsert conflictTarget DoNothing)
  else
    let! update := match_ ["UPDATE"] in
    if update then
      consumeKeyword (js "SET") ;!
      let! assignments := comma_list fuel (assignment_of []) [] in
      let! where_ := optional_clause "WHERE" expression in
      ret (mkUpsert conflictTarget (DoUpdate assignments where_))
    else fail EParse.

(** [while (this.match(ON))]: an ON that CONFLICT does not follow is put
    back. *)
Fixpoint upsert_loop (n : nat) (exclusive : bool) (l : option (list (UpsertClause Expr)))
    : P (option (list (UpsertClause Expr))) :=
  match n with
  | O => fail EOutOfFuel
  | S n' =>
    let! on := match_ ["ON"] in
    if on then
      let! conflict := matchKeyword (js "CONFLICT") in
      if negb conflict then (step_back ;! ret l)
      else if exclusive then fail EParse
      else
        let! clause := parseUpsertClause in
        upsert_loop n' exclusive (Some (default [] l ++ [clause]))
    else ret l
  end.

Definition or_conflict : P (option ConflictResolution) :=
  let! or := matchKeyword (js "OR") in
  if negb or then ret None
  else
  let! rollback := match_ ["ROLLBACK"] in
  if rollback then ret (Some ROLLBACK)
  else
  let! abort := match_ ["ABORT"] in
  if abort then ret (Some ABORT)
  else
  let! fail_ := match_ ["FAIL"] in
  if fail_ then ret (Some FAIL)
  else
  let! ignore := match_ ["IGNORE"] in
  if ignore then ret (Some IGNORE)
  else
  let! replace := match_ ["REPLACE"] in
  if replace then ret (Some REPLACE) else fail EParse.

Definition insert_column : P jsstring :=
  let! named := reads (checkIdentifierLike CONTEXTUAL_KEYWORDS) in
  if named then (let! t := advance in ret (getIdentifierValue t)) else fail EParse.

Definition returning_clause : P (option Columns) :=
  let! returning := matchKeyword (js "RETURNING") in
  if returning then (let! l := columnList in ret (Some l)) else ret None.

Definition insertStatement : P Q :=
  let! onConflict := or_conflict in
  matchKeyword (js "INTO") ;!
  let! table := tableIdentifier in
  let! open := match_ ["LPAREN"] in
  let! columns :=
    (if open then (let! l := comma_list fuel insert_column [] in consume "RPAREN" ;! ret (Some l)) else ret None) in
  let! (context, tags1) := leading_with fuel None None in
  let! keyword := reads (fun p => toUpperCase (lexeme (peek p))) in
  let! source :=
    (if bool_decide (keyword ∈ [js "VALUES"; js "SELECT"]) then parseQueryExpr false
     else if bool_decide (keyword ∈ [js "INSERT"; js "UPDATE"; js "DELETE"]) then parseQueryExpr true
     else fail EParse) in
  let! upsertClauses := upsert_loop fuel (bool_decide (is_Some onConflict)) None in
  let! t := parseTrailingWithClauses in
  let! context' := merge_clause context (contextValues t) in
  let! tags' := merge_clause tags1 (tags t) in
  let! returning := returning_clause in
  ret (Insert (mkInsert None table columns source onConflict upsertClauses returning context' (schemaPath t) tags')).

(** The target of UPDATE and DELETE: a table, or a subquery whose alias stands
    for it. *)
Definition write_target : P (IdentifierExpr * option (SubqueryTarget Q)) :=
  let! targetSource := subqueryDmlTarget in
  match targetSource with
  | Some t => ret (mkIdent (t_alias t) None, Some t)
  | None => let! table := tableIdentifier in ret (table, None)
  end.

Definition updateStatement : P Q :=
  let! (table, targetSource) := write_target in
  let! (context, tags1) := leading_with fuel None None in
  consume "SET" ;!
  let! assignments := comma_list fuel (assignment_of CONTEXTUAL_KEYWORDS) [] in
  let! where_ := optional_clause "WHERE" expression in
  let! t := parseTrailingWithClauses in
  let! context' := merge_clause context (contextValues t) in
  let! tags' := merge_clause tags1 (tags t) in
  let! returning := returning_clause in
  ret (Update (mkUpdate None table targetSource (option_map t_alias targetSource) assignments where_ returning
                context' (schemaPath t) tags')).

Definition deleteStatement : P Q :=
  matchKeyword (js "FROM") ;!
  let! (table, targetSource) := write_target in
  let! (context, tags1) := leading_with fuel None None in
  let! where_ := optional_clause "WHERE" expression in
  let! t := parseTrailingWithClauses in
  let! context' := merge_clause context (contextValues t) in
  let! tags' := merge_clause tags1 (tags t) in
  let! returning := returning_clause in
  ret (Delete (mkDelete None table targetSource (option_map t_alias targetSource) where_ returning
                context' (schemaPath t) tags')).

(** ** WITH *)

Definition commonTableExpression : P (CommonTableExpr Q) :=
  let! name := consumeIdentifier CONTEXTUAL_KEYWORDS in
  let! open := match_ ["LPAREN"] in
  let! columns := (if open then (let! l := names_in_parens in ret (Some l)) else ret None) in
  consume "AS" ;!
  let! materialized := matchKeyword (js "MATERIALIZED") in
  let! hint :=
    (if materialized then ret (Some Materialized)
     else
       let! not := matchKeyword (js "NOT") in
       if not then (consumeKeyword (js "MATERIALIZED") ;! ret (Some NotMaterialized)) else ret None) in
  consume "LPAREN" ;!
  let! query := parseQueryExpr true in
  consume "RPAREN" ;!
  ret (mkCte name columns query hint).

(** [value < 0]. *)
Definition is_negative (v : SqlValue) : bool :=
  match v with
  | VNumber d => match num_of_double d with NFin u => u <? 0 | _ => false end
  | VBigint n => n <? 0
  | _ => false
  end.

Definition with_options : P (option SqlValue) :=
  let! option_ := matchKeyword (js "OPTION") in
  if negb option_ then ret None
  else
    consume "LPAREN" ;!
    let! max := matchKeyword (js "MAXRECURSION") in
    if negb max then fail EParse
    else
      let! int := reads (check "INTEGER") in
      if negb int then fail EParse
      else
        let! token := advance in
        let maxRecursion := literal_value token in
        if is_negative maxRecursion then fail EParse
        else (consume "RPAREN" ;! ret (Some maxRecursion)).

Definition tryParseWithClause : P (option (WithClause Q)) :=
  let! with_ := reads (check "WITH") in
  if negb with_ then ret None
  else
    advance ;!
    let! recursive := match_ ["RECURSIVE"] in
    let! ctes := comma_list fuel commonTableExpression [] in
    let! options := with_options in
    ret (Some (mkWith recursive ctes options)).

(** [stmt.withClause = w], where the statement has the field. *)
Definition attach_with (w : WithClause Q) (stmt : Q) : P Q :=
  match stmt with
  | Select s =>
    ret (Select (mkSelect (Some w) (s_columns s) (s_from s) (s_where s) (s_groupBy s) (s_having s) (s_orderBy s)
      (s_limit s) (s_offset s) (s_distinct s) (s_all s) (s_compound s) (s_schemaPath s) (s_defaults s)))
  | Insert (mkInsert _ a b c d e f g h i) => ret (Insert (mkInsert (Some w) a b c d e f g h i))
  | Update (mkUpdate _ a b c d e f g h i) => ret (Update (mkUpdate (Some w) a b c d e f g h i))
  | Delete (mkDelete _ a b c d e f g h) => ret (Delete (mkDelete (Some w) a b c d e f g h))
  | Values _ => fail EParse
  end.

(** A write where a relation is wanted must return rows. *)
Definition lacks_returning (q : Q) : bool :=
  let none := fun r : option Columns => match r with Some (_ :: _) => false | _ => true end in
  match q with
  | Insert s => none (n_returning s)
  | Update s => none (u_returning s)
  | Delete s => none (d_returning s)
  | _ => false
  end.

(** A parenthesised operand: [parseCompoundOperand] at an opening
    parenthesis. *)
Definition paren_operand (requireReturning : bool) : P Q :=
  advance ;!
  let! inner := parseQueryExpr requireReturning in
  consume "RPAREN" ;! ret inner.

(** The body of [parseQueryExpr] after its own WITH. *)
Definition query_body (requireReturning : bool) : P Q :=
  let! startToken := reads peek in
  let! paren := reads (check "LPAREN") in
  if paren then
    let! firstOperand := paren_operand requireReturning in
    let! compound := reads checkCompoundOperator in
    if compound then parseCompoundTail (startOffset startToken) firstOperand else ret firstOperand
  else
    let kw := toUpperCase (lexeme startToken) in
    if bool_decide (kw = js "SELECT") then (advance ;! selectStatement (startOffset startToken) false)
    else if bool_decide (kw = js "VALUES") then
      (advance ;! valuesStatementWithOptionalCompound (startOffset startToken) false)
    else if bool_decide (kw = js "INSERT") then (advance ;! insertStatement)
    else if bool_decide (kw = js "UPDATE") then (advance ;! updateStatement)
    else if bool_decide (kw = js "DELETE") then (advance ;! deleteStatement)
    else fail EParse.

Definition query_expr (requireReturning : bool) : P Q :=
  let! innerWith := tryParseWithClause in
  let! stmt := query_body requireReturning in
  let! stmt := (match innerWith with Some w => attach_with w stmt | None => ret stmt end) in
  if requireReturning && lacks_returning stmt then fail EParse else ret stmt.

Definition compound_operand (requireReturning : bool) : P Q :=
  let! paren := reads (check "LPAREN") in
  if paren then paren_operand requireReturning
  else
    let! start := reads peek in
    let! select := reads (check "SELECT") in
    if select then (advance ;! selectStatement (startOffset start) true)
    else
    let! values := reads (check "VALUES") in
    if values then (advance ;! valuesStatementWithOptionalCompound (startOffset start) true)
    else
    let! query := reads (fun p => check "WITH" p || check "INSERT" p || check "UPDATE" p || check "DELETE" p) in
    if query then parseQueryExpr requireReturning else fail EParse.

End Methods.

(** ** The recursion *)

Fixpoint expression (fuel : nat) (p : parser) : res (Expr * parser) :=
  match fuel with
  | O => Throw EOutOfFuel
  | S n => logicalXorOr (parseQueryExpr n true) fuel (expression n) p
  end
with parseQueryExpr (fuel : nat) (requireReturning : bool) (p : parser) : res (Q * parser) :=
  match fuel with
  | O => Throw EOutOfFuel
  | S n => query_expr fuel (expression n) (parseQueryExpr n) (parseCompoundOperand n) requireReturning p
  end
with parseCompoundOperand (fuel : nat) (requireReturning : bool) (p : parser) : res (Q * parser) :=
  match fuel with
  | O => Throw EOutOfFuel
  | S n => compound_operand fuel (expression n) (parseQueryExpr n) (parseCompoundOperand n) requireReturning p
  end.

(** Fuel for the tokens of a text. *)
Definition enough (p : parser) : nat := S (S (length (p_tokens p))).

(** [parse] of a text whose one statement is a query, as [statement] and
    [parseAll] read it.  Any other statement is not modelled and is an error
    here. *)
Definition parse_query (sql : jsstring) : res Q :=
  let* p := initialize sql in
  let* (q, p1) := parseQueryExpr (enough p) false p in
  let* (_, p2) := match_ ["SEMICOLON"] p1 in
  if isAtEnd p2 then match parenStack p2 with [] => Ok q | _ => Throw EParse end else Throw EParse.

End Queries.

End QueryParser.
