(* ===== verification/ParserTotal.v ===== *)
(** * The parser returns

    The recursion of the query and expression parser is on fuel; here the fuel
    [QueryParser.enough] is shown to be enough for every token list.  Each
    method is run by [runs]: it returns a parser that has not gone back, or a
    parse error. *)

From S2P Require Import Prelude Bytes Double Json Comparison VTab Lexer Ast AstStringify ExprParser QueryParser.
From Stdlib Require Import ZArith Lia.
From Stdlib Require Ascii String.
From stdpp Require Import base tactics numbers list.
Import Comparison VTab Ast Lexer Parser QueryParser.
#[local] Open Scope string_scope.

Module ParserTotal.

(** [m] from [p] gives a result that satisfies [post] or a parse error; it
    does not run out of fuel. *)
Definition runs {A} (m : P A) (p : parser) (post : A -> parser -> Prop) : Prop :=
  match m p with
  | Ok (a, p') => post a p'
  | Throw e => e = EParse
  end.

Definition len (p : parser) : nat := length (p_tokens p).
Definition remaining (p : parser) : nat := len p - p_current p.

(** [p'] is [p] at the same token or a later one. *)
Definition later (p p' : parser) : Prop :=
  p_tokens p' = p_tokens p /\ len p' = len p /\ p_current p <= p_current p'.

(** ... after at least one token. *)
Definition consumed (p p' : parser) : Prop :=
  p_tokens p' = p_tokens p /\ len p' = len p /\ p_current p < p_current p' /\ p_current p < len p.

(** The end token has no text. *)
Definition plain (ts : list Token) : Prop := Forall (fun t => type t = "EOF" -> lexeme t = []) ts.

(** Fewer than [n] tokens are left. *)
Definition room (n : nat) (p : parser) : Prop := plain (p_tokens p) /\ remaining p < n.

Abbreviation always m := (forall p, runs m p (fun _ p' => later p p')).

(** [m] returns from any place with fewer than [n] tokens left. *)
Abbreviation returns n m := (forall p, room n p -> runs m p (fun _ p' => later p p')).

Lemma runs_conseq {A} (m : P A) p (post post' : A -> parser -> Prop) :
  runs m p post -> (forall a p', post a p' -> post' a p') -> runs m p post'.
Proof. unfold runs. destruct (m p) as [[a p']|e]; auto. Qed.

Lemma runs_bind {A B} (m : P A) (k : A -> P B) p post :
  runs m p (fun a p' => runs (k a) p' post) -> runs (bind m k) p post.
Proof. unfold runs, bind. by destruct (m p) as [[a p']|e]. Qed.

Lemma runs_ret {A} (a : A) p (post : A -> parser -> Prop) : post a p -> runs (ret a) p post.
Proof. done. Qed.

Lemma runs_fail {A} p (post : A -> parser -> Prop) : runs (fail EParse) p post.
Proof. done. Qed.

Lemma runs_reads {A} (f : parser -> A) p (post : A -> parser -> Prop) : post (f p) p -> runs (reads f) p post.
Proof. done. Qed.

Lemma not_at_end p : isAtEnd p = false -> p_current p < len p.
Proof.
  unfold isAtEnd, peek, token_at, len. intros E. destruct (decide (p_current p < length (p_tokens p))); [done|].
  rewrite nth_overflow in E by lia. done.
Qed.

Lemma runs_advance p :
  runs advance p (fun _ p' => later p p' /\ (isAtEnd p = false -> consumed p p')).
Proof.
  unfold runs, advance. destruct (isAtEnd p) eqn:E; simpl; [|pose proof (not_at_end p E)].
  all: repeat case_match; simplify_eq; try reflexivity; unfold later, consumed, len in *; simpl in *.
  all: split; [done || split_and!; (done || lia)|intros; first [discriminate|split_and!; (done || lia)]].
Qed.

Lemma check_not_end t p : check t p = true -> isAtEnd p = false.
Proof. unfold check. by destruct (isAtEnd p). Qed.

Lemma advance_consumed p : isAtEnd p = false -> runs advance p (fun _ p' => consumed p p').
Proof. intros E. eapply runs_conseq; [apply runs_advance|]. naive_solver. Qed.

Lemma runs_match ts p : runs (match_ ts) p (fun b p' => if b : bool then consumed p p' else p' = p).
Proof.
  induction ts as [|t ts IH]; simpl; [done|]. apply runs_bind, runs_reads. destruct (check t p) eqn:E; [|done].
  apply runs_bind. eapply runs_conseq; [by eapply advance_consumed, check_not_end|]. done.
Qed.

Lemma runs_consume t p : runs (consume t) p (fun _ p' => consumed p p').
Proof.
  unfold consume. apply runs_bind, runs_reads. destruct (check t p) eqn:E; [|done].
  by eapply advance_consumed, check_not_end.
Qed.

Lemma runs_step_back p : runs step_back p (fun _ p' => p_tokens p' = p_tokens p /\ len p' = len p /\ p_current p' = pred (p_current p)).
Proof. done. Qed.

Lemma runs_next_parameter p : runs next_parameter p (fun _ p' => later p p').
Proof. done. Qed.

Section Words.

Context `{!CaseMapping}.

Lemma keyword_not_end w p : peekKeyword w p = true -> isAtEnd p = false.
Proof. unfold peekKeyword. by destruct (isAtEnd p). Qed.

Lemma runs_matchKeyword w p : runs (matchKeyword w) p (fun b p' => if b : bool then consumed p p' else p' = p).
Proof.
  unfold matchKeyword. apply runs_bind, runs_reads. destruct (isAtEnd p) eqn:E; [done|].
  apply runs_bind, runs_reads. destruct (peekKeyword w p); [|done].
  apply runs_bind. eapply runs_conseq; [by apply advance_consumed|]. done.
Qed.

Lemma runs_consumeKeyword w p : runs (consumeKeyword w) p (fun _ p' => consumed p p').
Proof.
  unfold consumeKeyword. apply runs_bind, runs_reads. destruct (peekKeyword w p) eqn:E; [|done].
  by eapply advance_consumed, keyword_not_end.
Qed.

Lemma runs_consumeIdentifier ws p : runs (consumeIdentifier ws) p (fun _ p' => later p p').
Proof.
  unfold consumeIdentifier. apply runs_bind, runs_reads, runs_bind, runs_reads.
  destruct (check "IDENTIFIER" p); [|destruct (among_keywords ws (peek p)); [|done]].
  all: apply runs_bind; eapply runs_conseq; [apply runs_advance|]; naive_solver.
Qed.

End Words.

(** ** Automation *)

Ltac bound :=
  unfold room, later, consumed, remaining in *; destruct_and?;
  first [lia | congruence | split_and!; first [lia | congruence]].

Create HintDb runs.
#[export] Hint Extern 5 (_ < _) => bound : runs.
#[export] Hint Extern 5 (room _ _) => bound : runs.

(** An [advance] after a check consumes a token. *)
Ltac after_advance :=
  try match goal with
  | E : check _ ?p = true, H : isAtEnd ?p = false -> _ |- _ => specialize (H (check_not_end _ _ E))
  | E : peekKeyword _ ?p = true, H : isAtEnd ?p = false -> _ |- _ => specialize (H (keyword_not_end _ _ E))
  end.

(** One step of a method: the primitives have exact postconditions, any other
    call has a lemma in the database. *)
Ltac step :=
  lazymatch goal with
  | |- runs (bind _ _) _ _ => apply runs_bind
  | |- runs (ret _) _ _ => apply runs_ret
  | |- runs (fail _) _ _ => apply runs_fail
  | |- runs (reads _) _ _ => apply runs_reads
  | |- runs (if negb ?b then _ else _) _ _ => destruct b eqn:?; cbn [negb]
  | |- runs (if ?b then _ else _) _ _ => destruct b eqn:?
  | |- runs (match ?x with _ => _ end) _ _ => destruct x eqn:?
  | |- runs (match_ _) _ _ => eapply runs_conseq; [apply runs_match|intros [] ? ?; cbn beta iota in *; simplify_eq]
  | |- runs (matchKeyword _) _ _ => eapply runs_conseq; [apply runs_matchKeyword|intros [] ? ?; cbn beta iota in *; simplify_eq]
  | |- runs (consume _) _ _ => eapply runs_conseq; [apply runs_consume|intros ? ? ?; cbn beta in *]
  | |- runs (consumeKeyword _) _ _ => eapply runs_conseq; [apply runs_consumeKeyword|intros ? ? ?; cbn beta in *]
  | |- runs (consumeIdentifier _) _ _ => eapply runs_conseq; [apply runs_consumeIdentifier|intros ? ? ?; cbn beta in *]
  | |- runs advance _ _ => eapply runs_conseq; [apply runs_advance|intros ? ? [? ?]]; after_advance
  | |- runs step_back _ _ => eapply runs_conseq; [apply runs_step_back|intros ? ? (? & ? & ?)]
  | |- runs next_parameter _ _ => eapply runs_conseq; [apply runs_next_parameter|intros ? ? ?; cbn beta in *]
  | |- runs _ _ _ => eapply runs_conseq; [solve [eauto 3 with runs]|intros ? ? ?; cbn beta in *]
  | |- later _ _ => bound
  end.

Tactic Notation "run" reference(f) := intros; unfold f; repeat (cbn beta iota zeta; step).

Lemma comma_list_returns {A} n k (item : P A) l p :
  returns n item -> room n p -> room k p -> runs (comma_list k item l) p (fun _ p' => later p p').
Proof.
  intros Hi. revert l p; induction k as [|k IH]; intros l p Hn Hk; [bound|]. simpl.
  repeat step.
Qed.

Section Levels.

Context `{!CaseMapping} {Q : Type} (n : nat) (expression : P (Expression Q)) (parseQueryExpr : P Q).
Context (expression_returns : returns n expression) (query_returns : returns n parseQueryExpr).

#[local] Hint Resolve expression_returns query_returns : runs.

Abbreviation fuel := (S n).

Lemma commas_return {A} (item : P A) l : returns n item -> returns n (comma_list fuel item l).
Proof. intros Hi p Hp. apply (comma_list_returns n); [done|bound..]. Qed.
#[local] Hint Resolve commas_return : runs.

Lemma parseWindowFrameBound_returns : returns n (parseWindowFrameBound expression).
Proof. run parseWindowFrameBound. Qed.
#[local] Hint Resolve parseWindowFrameBound_returns : runs.

Lemma parseOrderBy_returns : returns n (parseOrderBy expression).
Proof. run parseOrderBy. Qed.
#[local] Hint Resolve parseOrderBy_returns : runs.

Lemma parseFrame_returns : returns n (parseFrame expression).
Proof. run parseFrame. Qed.
#[local] Hint Resolve parseFrame_returns : runs.

Lemma parseWindowSpecification_returns : returns n (parseWindowSpecification fuel expression).
Proof. run parseWindowSpecification. Qed.
#[local] Hint Resolve parseWindowSpecification_returns : runs.

Lemma when_loop_returns k cs p :
  room n p -> room k p -> runs (when_loop expression k cs) p (fun _ p' => later p p').
Proof.
  revert cs p; induction k as [|k IH]; intros cs p Hn Hk; [bound|]. simpl.
  repeat step.
Qed.

Lemma when_loop_fuel cs : returns n (when_loop expression fuel cs).
Proof. intros p Hp. apply when_loop_returns; bound. Qed.
#[local] Hint Resolve when_loop_fuel : runs.

Lemma parseCaseExpression_returns : returns n (parseCaseExpression fuel expression).
Proof. run parseCaseExpression. Qed.
#[local] Hint Resolve parseCaseExpression_returns : runs.

Lemma parseCast_returns : returns fuel (parseCast expression).
Proof. run parseCast. Qed.
#[local] Hint Resolve parseCast_returns : runs.

Lemma parseExists_returns : returns n (parseExists parseQueryExpr).
Proof. run parseExists. Qed.
#[local] Hint Resolve parseExists_returns : runs.

Lemma parseNamedParameter_returns : returns n (parseNamedParameter (Q:=Q)).
Proof. run parseNamedParameter. Qed.
#[local] Hint Resolve parseNamedParameter_returns : runs.

Lemma parseArguments_returns : returns n (parseArguments fuel expression).
Proof. run parseArguments. Qed.
#[local] Hint Resolve parseArguments_returns : runs.

Lemma parseFunctionCall_returns : returns fuel (parseFunctionCall fuel expression).
Proof. run parseFunctionCall. Qed.
#[local] Hint Resolve parseFunctionCall_returns : runs.

Lemma parseColumn_returns : returns fuel (parseColumn (Q:=Q)).
Proof. run parseColumn. Qed.
#[local] Hint Resolve parseColumn_returns : runs.

Lemma parseParenthesized_returns : returns n (parseParenthesized parseQueryExpr expression).
Proof. run parseParenthesized. Qed.
#[local] Hint Resolve parseParenthesized_returns : runs.

Lemma primary_returns : returns fuel (primary parseQueryExpr fuel expression).
Proof. run primary. Qed.
#[local] Hint Resolve primary_returns : runs.

Lemma jsonPathRhs_returns : returns fuel (jsonPathRhs parseQueryExpr fuel expression).
Proof. run jsonPathRhs. Qed.
#[local] Hint Resolve jsonPathRhs_returns : runs.

Lemma json_loop_returns k e p :
  room fuel p -> room k p -> runs (json_loop parseQueryExpr fuel expression k e) p (fun _ p' => later p p').
Proof. revert e p; induction k as [|k IH]; intros e p Hn Hk; [bound|]. cbn [json_loop]. repeat step. Qed.
#[local] Hint Resolve json_loop_returns : runs.

Lemma jsonPath_returns : returns fuel (jsonPath parseQueryExpr fuel expression).
Proof. run jsonPath. Qed.
#[local] Hint Resolve jsonPath_returns : runs.

Lemma collateExpression_returns : returns fuel (collateExpression parseQueryExpr fuel expression).
Proof. run collateExpression. Qed.
#[local] Hint Resolve collateExpression_returns : runs.

Lemma chain_loop_returns k (operand : P (Expression Q)) ts f e p :
  returns fuel operand -> room fuel p -> room k p ->
  runs (chain_loop k operand ts f e) p (fun _ p' => later p p').
Proof. intros Ho. revert e p; induction k as [|k IH]; intros e p Hn Hk; [bound|]. cbn [chain_loop]. repeat step. Qed.

Lemma parseBinaryChain_returns (operand : P (Expression Q)) ts f :
  returns fuel operand -> returns fuel (parseBinaryChain fuel operand ts f).
Proof.
  intros Ho p Hp. unfold parseBinaryChain. step. step. eapply runs_conseq; [apply chain_loop_returns; eauto with runs|].
  intros. bound.
Qed.

Lemma concatenation_returns : returns fuel (concatenation parseQueryExpr fuel expression).
Proof. apply parseBinaryChain_returns. eauto with runs. Qed.
#[local] Hint Resolve concatenation_returns : runs.

Lemma unary_returns k p :
  room fuel p -> room k p -> runs (unary parseQueryExpr fuel expression k) p (fun _ p' => later p p').
Proof. revert p; induction k as [|k IH]; intros p Hn Hk; [bound|]. cbn [unary]. repeat step. Qed.

Lemma factor_returns : returns fuel (factor parseQueryExpr fuel expression).
Proof. apply parseBinaryChain_returns. intros p Hp. by apply unary_returns. Qed.
#[local] Hint Resolve factor_returns : runs.

Lemma term_returns : returns fuel (term parseQueryExpr fuel expression).
Proof. apply parseBinaryChain_returns. eauto with runs. Qed.
#[local] Hint Resolve term_returns : runs.

Lemma parseInTail_returns e : returns n (parseInTail parseQueryExpr fuel expression e).
Proof. run parseInTail. Qed.
#[local] Hint Resolve parseInTail_returns : runs.

Lemma parseBetweenTail_returns e neg : returns fuel (parseBetweenTail parseQueryExpr fuel expression e neg).
Proof. run parseBetweenTail. Qed.
#[local] Hint Resolve parseBetweenTail_returns : runs.

Lemma parseNegated_returns e p :
  room fuel p ->
  runs (parseNegated parseQueryExpr fuel expression e) p (fun r p' =>
    match r with
    | Some _ => later p p'
    | None => p_tokens p' = p_tokens p /\ len p' = len p /\ p_current p' = pred (p_current p)
    end).
Proof. intros Hp. unfold parseNegated. repeat (cbn beta iota; step). all: bound. Qed.

Lemma parseCompared_returns t e : returns fuel (parseCompared parseQueryExpr fuel expression t e).
Proof. run parseCompared. Qed.
#[local] Hint Resolve parseCompared_returns : runs.

Lemma comparison_loop_returns k e p :
  room fuel p -> room k p ->
  runs (comparison_loop parseQueryExpr fuel expression k e) p (fun _ p' => later p p').
Proof.
  revert e p; induction k as [|k IH]; intros e p Hn Hk; [bound|]. cbn [comparison_loop]. do 2 step.
  - step. step. step.
    + step. eapply runs_conseq; [apply parseNegated_returns; bound|]. intros [e'|] p1 H1; cbn beta iota in *; repeat step.
    + repeat step.
  - repeat step.
Qed.
#[local] Hint Resolve comparison_loop_returns : runs.

Lemma comparison_returns : returns fuel (comparison parseQueryExpr fuel expression).
Proof. run comparison. Qed.
#[local] Hint Resolve comparison_returns : runs.

Lemma equality_returns : returns fuel (equality parseQueryExpr fuel expression).
Proof. apply parseBinaryChain_returns. eauto with runs. Qed.
#[local] Hint Resolve equality_returns : runs.

Lemma isPredicate_returns : returns fuel (isPredicate parseQueryExpr fuel expression).
Proof. run isPredicate. Qed.
#[local] Hint Resolve isPredicate_returns : runs.

Lemma notExpression_returns k p :
  room fuel p -> room k p -> runs (notExpression parseQueryExpr fuel expression k) p (fun _ p' => later p p').
Proof. revert p; induction k as [|k IH]; intros p Hn Hk; [bound|]. cbn [notExpression]. repeat step. Qed.

Lemma logicalAnd_returns : returns fuel (logicalAnd parseQueryExpr fuel expression).
Proof. apply parseBinaryChain_returns. intros p Hp. by apply notExpression_returns. Qed.

Lemma logicalXorOr_returns : returns fuel (logicalXorOr parseQueryExpr fuel expression).
Proof. apply parseBinaryChain_returns, logicalAnd_returns. Qed.

End Levels.

(** ** Queries *)

Section Methods.

Context `{!CaseMapping, !CaseLaws} (n : nat) (expression : P (Expression QueryExpr)) (parseQueryExpr parseCompoundOperand : bool -> P QueryExpr).
Context (expression_returns : returns n expression)
        (query_returns : forall b, returns n (parseQueryExpr b))
        (operand_returns : forall b p, plain (p_tokens p) -> S (remaining p) < n -> runs (parseCompoundOperand b) p (fun _ p' => later p p')).

#[local] Hint Resolve expression_returns query_returns : runs.

Abbreviation fuel := (S n).

Lemma commas_before {A} (item : P A) l : returns n item -> returns n (comma_list fuel item l).
Proof. intros Hi p Hp. apply (comma_list_returns n); [done|bound..]. Qed.
Lemma commas_after {A} (item : P A) l : returns fuel item -> returns fuel (comma_list fuel item l).
Proof. intros Hi p Hp. apply (comma_list_returns fuel); [done|bound..]. Qed.
#[local] Hint Resolve commas_before commas_after : runs.

Lemma consumeIdentifier_returns ws : always (consumeIdentifier ws).
Proof. intros p. apply runs_consumeIdentifier. Qed.
#[local] Hint Resolve consumeIdentifier_returns : runs.

Lemma name_loop_returns k l p : room k p -> runs (name_loop k l) p (fun _ p' => later p p').
Proof. revert l p; induction k as [|k IH]; intros l p Hk; [bound|]. cbn [name_loop]. repeat step. Qed.
#[local] Hint Resolve name_loop_returns : runs.

Lemma names_in_parens_returns : returns fuel (names_in_parens fuel).
Proof. run names_in_parens. Qed.
#[local] Hint Resolve names_in_parens_returns : runs.

Lemma tableIdentifier_returns : always tableIdentifier.
Proof. run tableIdentifier. Qed.
#[local] Hint Resolve tableIdentifier_returns : runs.

Lemma assignment_of_returns ws : returns fuel (assignment_of expression ws).
Proof. run assignment_of. Qed.
#[local] Hint Resolve assignment_of_returns : runs.

Lemma distinct_assignments_returns k seen l p :
  room fuel p -> room k p -> runs (distinct_assignments expression k seen l) p (fun _ p' => later p p').
Proof. revert seen l p; induction k as [|k IH]; intros seen l p Hn Hk; [bound|]. cbn [distinct_assignments]. repeat step. Qed.
#[local] Hint Resolve distinct_assignments_returns : runs.

Lemma with_assignments_returns w : returns fuel (with_assignments fuel expression w).
Proof. run with_assignments. Qed.

Lemma parseDefaultsClause_returns : returns fuel (parseDefaultsClause fuel expression).
Proof. apply with_assignments_returns. Qed.
Lemma parseInverseClause_returns : returns fuel (parseInverseClause fuel expression).
Proof. apply with_assignments_returns. Qed.
#[local] Hint Resolve parseDefaultsClause_returns parseInverseClause_returns : runs.

Lemma rejectInverseClauseOnStar_returns : returns fuel (rejectInverseClauseOnStar fuel expression).
Proof. run rejectInverseClauseOnStar. Qed.
#[local] Hint Resolve rejectInverseClauseOnStar_returns : runs.

Lemma parseContextAssignments_returns : returns fuel (parseContextAssignments fuel expression).
Proof. run parseContextAssignments. Qed.
Lemma schema_names_returns : returns fuel (schema_names fuel).
Proof. run schema_names. Qed.
#[local] Hint Resolve parseContextAssignments_returns schema_names_returns : runs.

Lemma parseSchemaPath_returns : returns fuel (parseSchemaPath fuel).
Proof. run parseSchemaPath. Qed.
#[local] Hint Resolve parseSchemaPath_returns : runs.

Lemma parseTagValue_returns : always parseTagValue.
Proof. run parseTagValue. Qed.
#[local] Hint Resolve parseTagValue_returns : runs.

Lemma tag_loop_returns k t p : room k p -> runs (tag_loop k t) p (fun _ p' => later p p').
Proof. revert t p; induction k as [|k IH]; intros t p Hk; [bound|]. cbn [tag_loop]. repeat step. Qed.
#[local] Hint Resolve tag_loop_returns : runs.

Lemma parseTags_returns : returns fuel (parseTags fuel).
Proof. run parseTags. Qed.
#[local] Hint Resolve parseTags_returns : runs.

Lemma leading_with_returns k c t p :
  room fuel p -> room k p -> runs (leading_with fuel expression k c t) p (fun _ p' => later p p').
Proof. revert c t p; induction k as [|k IH]; intros c t p Hn Hk; [bound|]. cbn [leading_with]. repeat step. Qed.
#[local] Hint Resolve leading_with_returns : runs.

Lemma trailing_loop_returns k t p :
  room fuel p -> room k p -> runs (trailing_loop fuel expression k t) p (fun _ p' => later p p').
Proof. revert t p; induction k as [|k IH]; intros t p Hn Hk; [bound|]. cbn [trailing_loop]. repeat step. Qed.

Lemma parseTrailingWithClauses_returns : returns fuel (parseTrailingWithClauses fuel expression).
Proof. intros p Hp. by apply trailing_loop_returns. Qed.
#[local] Hint Resolve parseTrailingWithClauses_returns : runs.

Lemma merge_clause_returns {A} (a b : option A) : always (merge_clause a b).
Proof. intros p. unfold merge_clause. repeat step. Qed.
#[local] Hint Resolve merge_clause_returns : runs.

Lemma column_alias_returns : always column_alias.
Proof. run column_alias. Qed.
#[local] Hint Resolve column_alias_returns : runs.

Lemma resultColumn_returns : returns n (resultColumn fuel expression).
Proof. run resultColumn. Qed.
#[local] Hint Resolve resultColumn_returns : runs.

Lemma columnList_returns : returns n (columnList fuel expression).
Proof. run columnList. Qed.
#[local] Hint Resolve columnList_returns : runs.

Lemma matchBareSourceAlias_returns : always matchBareSourceAlias.
Proof. run matchBareSourceAlias. Qed.
#[local] Hint Resolve matchBareSourceAlias_returns : runs.

Lemma source_alias_returns ws : always (source_alias ws).
Proof. run source_alias. Qed.
#[local] Hint Resolve source_alias_returns : runs.

Lemma subquerySource_returns o b : returns fuel (subquerySource fuel parseQueryExpr o b).
Proof. run subquerySource. Qed.
#[local] Hint Resolve subquerySource_returns : runs.

Lemma subqueryDmlTarget_returns : returns fuel (subqueryDmlTarget fuel parseQueryExpr).
Proof. run subqueryDmlTarget. Qed.
#[local] Hint Resolve subqueryDmlTarget_returns : runs.

Lemma standardTableSource_returns : always standardTableSource.
Proof. run standardTableSource. Qed.
#[local] Hint Resolve standardTableSource_returns : runs.

Lemma arguments_return : returns n (parseArguments fuel expression).
Proof. by apply parseArguments_returns. Qed.
#[local] Hint Resolve arguments_return : runs.

Lemma functionSource_returns : returns fuel (functionSource fuel expression).
Proof. run functionSource. Qed.
#[local] Hint Resolve functionSource_returns : runs.

Lemma tableSource_returns : returns fuel (tableSource fuel expression parseQueryExpr).
Proof. run tableSource. Qed.
#[local] Hint Resolve tableSource_returns : runs.

Lemma resolveExistenceSide_returns t s : always (resolveExistenceSide t s).
Proof. intros p. unfold resolveExistenceSide. destruct t, s; simpl; repeat step. Qed.
#[local] Hint Resolve resolveExistenceSide_returns : runs.

Lemma explicit_side_returns : always explicit_side.
Proof. run explicit_side. Qed.
#[local] Hint Resolve explicit_side_returns : runs.

Lemma existence_loop_returns k side l p :
  (forall s, returns fuel (side s)) -> room fuel p -> room k p ->
  runs (existence_loop k side l) p (fun _ p' => later p p').
Proof. intros Hs. revert l p; induction k as [|k IH]; intros l p Hn Hk; [bound|]. cbn [existence_loop]. repeat step. Qed.

Lemma joinExistenceClauses_returns t : returns fuel (joinExistenceClauses fuel t).
Proof.
  intros p Hp. unfold joinExistenceClauses. do 3 step; [|repeat step].
  step. eapply runs_conseq; [apply existence_loop_returns; eauto with runs|]. intros. repeat step.
Qed.
#[local] Hint Resolve joinExistenceClauses_returns : runs.

Lemma membership_loop_returns k l p : room k p -> runs (membership_loop k l) p (fun _ p' => later p p').
Proof. revert l p; induction k as [|k IH]; intros l p Hk; [bound|]. cbn [membership_loop]. repeat step. Qed.
#[local] Hint Resolve membership_loop_returns : runs.

Lemma setOpMembershipClauses_returns op : returns fuel (setOpMembershipClauses fuel op).
Proof. run setOpMembershipClauses. Qed.
#[local] Hint Resolve setOpMembershipClauses_returns : runs.

Lemma join_type_returns : always join_type.
Proof. run join_type. Qed.
#[local] Hint Resolve join_type_returns : runs.

Lemma joinClause_returns l p :
  room fuel p -> runs (joinClause fuel expression parseQueryExpr l) p (fun _ p' => consumed p p').
Proof. intros Hp. unfold joinClause. repeat (cbn beta iota zeta; step). all: bound. Qed.

Lemma join_loop_returns k l p :
  room fuel p -> room k p -> runs (join_loop fuel expression parseQueryExpr k l) p (fun _ p' => later p p').
Proof.
  revert l p; induction k as [|k IH]; intros l p Hn Hk; [bound|]. cbn [join_loop]. do 3 step; [|repeat step].
  step. eapply runs_conseq; [by apply joinClause_returns|]. intros ? ? ?; cbn beta in *. repeat step.
Qed.
#[local] Hint Resolve join_loop_returns : runs.

Lemma tableSourceList_returns : returns fuel (tableSourceList fuel expression parseQueryExpr).
Proof. apply commas_after. intros p Hp. repeat step. Qed.
#[local] Hint Resolve tableSourceList_returns : runs.

Lemma parseCompoundOperator_returns : returns fuel (parseCompoundOperator fuel).
Proof. run parseCompoundOperator. Qed.
#[local] Hint Resolve parseCompoundOperator_returns : runs.

Lemma compound_loop_returns k o q p :
  room n p -> room k p -> runs (compound_loop fuel parseCompoundOperand k o q) p (fun _ p' => later p p').
Proof.
  revert q p; induction k as [|k IH]; intros q p Hn Hk; [bound|]. cbn [compound_loop]. do 3 step; [|step].
  eapply runs_conseq; [apply parseCompoundOperator_returns; bound|]. intros [op ex] p1 Hop. cbn beta iota zeta in *.
  do 3 step. eapply runs_conseq; [apply operand_returns; bound|]. intros r p2 Hr. cbn beta in *.
  destruct (check "LPAREN" p1); repeat step.
Qed.

Lemma parseCompoundTail_returns o q : returns n (parseCompoundTail fuel parseCompoundOperand o q).
Proof. intros p Hp. apply compound_loop_returns; bound. Qed.
#[local] Hint Resolve parseCompoundTail_returns : runs.

Lemma order_by_returns : returns n (parseOrderBy expression).
Proof. by apply parseOrderBy_returns. Qed.
#[local] Hint Resolve order_by_returns : runs.

Lemma parseTrailingOrderLimit_returns s b : returns fuel (parseTrailingOrderLimit fuel expression s b).
Proof. run parseTrailingOrderLimit. Qed.
#[local] Hint Resolve parseTrailingOrderLimit_returns : runs.

Lemma finish_select_returns q b : returns fuel (finish_select fuel expression q b).
Proof. run finish_select. Qed.
#[local] Hint Resolve finish_select_returns : runs.

(** A clause body is read after its keyword. *)
Lemma optional_clause_returns {A} t (body : P A) : returns n body -> returns fuel (optional_clause t body).
Proof. intros Hb. run optional_clause. Qed.

Lemma optional_expression t : returns fuel (optional_clause t expression).
Proof. by apply optional_clause_returns. Qed.
Lemma optional_group t : returns fuel (optional_clause t (consume "BY" ;! comma_list fuel expression [])%quereus).
Proof. apply optional_clause_returns. intros p Hp. repeat step. Qed.
Lemma optional_from t : returns fuel (optional_clause t (tableSourceList fuel expression parseQueryExpr)).
Proof. apply optional_clause_returns. intros p Hp. apply tableSourceList_returns; bound. Qed.
#[local] Hint Resolve optional_expression optional_group optional_from : runs.

Lemma selectStatement_returns o b : returns n (selectStatement fuel expression parseQueryExpr parseCompoundOperand o b).
Proof. run selectStatement. Qed.
#[local] Hint Resolve selectStatement_returns : runs.

Lemma valueList_returns : returns fuel (valueList fuel expression).
Proof. run valueList. Qed.
#[local] Hint Resolve valueList_returns : runs.

Lemma valuesStatement_returns : returns fuel (valuesStatement fuel expression).
Proof. run valuesStatement. Qed.
#[local] Hint Resolve valuesStatement_returns : runs.

Lemma continueSelectAfterFrom_returns s o b : returns n (continueSelectAfterFrom fuel expression parseCompoundOperand s o b).
Proof. run continueSelectAfterFrom. Qed.
#[local] Hint Resolve continueSelectAfterFrom_returns : runs.

Lemma values_compound_returns o b :
  returns n (valuesStatementWithOptionalCompound fuel expression parseCompoundOperand o b).
Proof. run valuesStatementWithOptionalCompound. Qed.
#[local] Hint Resolve values_compound_returns : runs.

Lemma parseUpsertClause_returns : returns fuel (parseUpsertClause fuel expression).
Proof. run parseUpsertClause. Qed.
#[local] Hint Resolve parseUpsertClause_returns : runs.

Lemma upsert_loop_returns k b l p :
  room fuel p -> room k p -> runs (upsert_loop fuel expression k b l) p (fun _ p' => later p p').
Proof. revert l p; induction k as [|k IH]; intros l p Hn Hk; [bound|]. cbn [upsert_loop]. repeat step. Qed.
#[local] Hint Resolve upsert_loop_returns : runs.

Lemma or_conflict_returns : always or_conflict.
Proof. run or_conflict. Qed.
Lemma insert_column_returns : always insert_column.
Proof. run insert_column. Qed.
Lemma returning_clause_returns : returns fuel (returning_clause fuel expression).
Proof. run returning_clause. Qed.
#[local] Hint Resolve or_conflict_returns insert_column_returns returning_clause_returns : runs.

Lemma insertStatement_returns : returns n (insertStatement fuel expression parseQueryExpr).
Proof. run insertStatement. Qed.
#[local] Hint Resolve insertStatement_returns : runs.

Lemma write_target_returns : returns fuel (write_target fuel parseQueryExpr).
Proof. run write_target. Qed.
#[local] Hint Resolve write_target_returns : runs.

Lemma updateStatement_returns : returns n (updateStatement fuel expression parseQueryExpr).
Proof. run updateStatement. Qed.
Lemma deleteStatement_returns : returns n (deleteStatement fuel expression parseQueryExpr).
Proof. run deleteStatement. Qed.
#[local] Hint Resolve updateStatement_returns deleteStatement_returns : runs.

Lemma commonTableExpression_returns : returns fuel (commonTableExpression fuel parseQueryExpr).
Proof. run commonTableExpression. Qed.
#[local] Hint Resolve commonTableExpression_returns : runs.

Lemma with_options_returns : always with_options.
Proof. run with_options. Qed.
#[local] Hint Resolve with_options_returns : runs.

Lemma tryParseWithClause_returns : returns fuel (tryParseWithClause fuel parseQueryExpr).
Proof. run tryParseWithClause. Qed.
#[local] Hint Resolve tryParseWithClause_returns : runs.

Lemma attach_with_returns w q : always (attach_with w q).
Proof. intros p. unfold attach_with. repeat step. Qed.
#[local] Hint Resolve attach_with_returns : runs.

Lemma paren_operand_returns b p :
  check "LPAREN" p = true -> room fuel p -> runs (paren_operand parseQueryExpr b) p (fun _ p' => consumed p p').
Proof. intros E Hp. unfold paren_operand. repeat step. bound. Qed.

Lemma end_has_no_text p : plain (p_tokens p) -> isAtEnd p = true -> lexeme (peek p) = [].
Proof.
  intros Hp E. apply String.eqb_eq in E. unfold peek, token_at in *.
  destruct (nth_in_or_default (p_current p) (p_tokens p) no_token) as [Hin| ->]; [|done].
  apply (proj1 (Forall_forall _ _) Hp); [by apply list_elem_of_In|done].
Qed.

(** A token whose text is a keyword is consumed by [advance]. *)
Lemma word_consumed w p :
  plain (p_tokens p) -> toUpperCase (lexeme (peek p)) = js w -> js w <> [] -> runs advance p (fun _ p' => consumed p p').
Proof.
  intros Hp Hw Hne. apply advance_consumed. destruct (isAtEnd p) eqn:E; [|done].
  rewrite end_has_no_text, upper_nil in Hw by done. by destruct Hne.
Qed.

(** ... and a body that is read after it has room. *)
Lemma after_word {A} w (body : P A) p :
  toUpperCase (lexeme (peek p)) = js w -> js w <> [] -> returns n body -> room fuel p ->
  runs (advance ;! body)%quereus p (fun _ p' => later p p').
Proof.
  intros Hw Hne Hb Hp. apply runs_bind. eapply runs_conseq; [eapply word_consumed; [apply Hp|done..]|].
  intros ? ? ?. cbn beta in *. eapply runs_conseq; [apply Hb; bound|]. intros. bound.
Qed.

Lemma query_body_returns b : returns fuel (query_body fuel expression parseQueryExpr parseCompoundOperand b).
Proof.
  intros p Hp. unfold query_body. do 4 step. destruct (check "LPAREN" p) eqn:E.
  - step. eapply runs_conseq; [by apply paren_operand_returns|]. intros q p1 H1. cbn beta in *. repeat step.
  - cbn zeta. repeat (case_bool_decide; [by eapply after_word; eauto with runs|]). step.
Qed.
#[local] Hint Resolve query_body_returns : runs.

Lemma query_expr_returns b : returns fuel (query_expr fuel expression parseQueryExpr parseCompoundOperand b).
Proof. run query_expr. Qed.

Lemma compound_operand_returns b p :
  room n p -> runs (compound_operand fuel expression parseQueryExpr parseCompoundOperand b) p (fun _ p' => later p p').
Proof.
  intros Hp. unfold compound_operand. do 3 step.
  - eapply runs_conseq; [apply paren_operand_returns; [done|bound]|]. intros. bound.
  - repeat step.
Qed.

End Methods.

(** ** The whole parser *)

Section Whole.

Context `{!CaseMapping, !CaseLaws}.

Lemma parser_returns n :
  returns n (expression n) /\ (forall b, returns n (parseQueryExpr n b)) /\
  (forall b p, plain (p_tokens p) -> S (remaining p) < n -> runs (parseCompoundOperand n b) p (fun _ p' => later p p')).
Proof.
  induction n as [|n (He & Hq & Ho)]; [split_and!; intros; bound|]. split_and!; cbn.
  - intros p Hp. apply logicalXorOr_returns; auto.
  - intros b p Hp. by apply query_expr_returns.
  - intros b p Hp Hr. apply compound_operand_returns; auto. bound.
Qed.

(** C38: The parser of queries and expressions returns on every text: it gives a
    syntax tree or a parse error, and never runs out of the fuel it is given,
    whatever the text is and however deep it nests. *)
Theorem parse_returns (sql : jsstring) :
  (exists q, parse_query sql = Ok q) \/ parse_query sql = Throw EParse.
Proof.
  unfold parse_query, initialize. destruct (existsb _ _); [by right|]. cbn [res_bind].
  set (p := mkParser _ _ _ _ _). assert (room (enough p) p) as Hp.
  { split; [apply scanTokens_eof|]. unfold remaining, enough, len. lia. }
  pose proof (proj1 (proj2 (parser_returns (enough p))) false p Hp) as Hr. unfold runs in Hr.
  destruct (parseQueryExpr (enough p) false p) as [[q p1]|e]; cbn [res_bind]; [|right; by rewrite Hr].
  pose proof (runs_match ["SEMICOLON"] p1) as H2. unfold runs in H2.
  destruct (match_ ["SEMICOLON"] p1) as [[b p2]|e]; cbn [res_bind]; [|right; by rewrite H2].
  destruct (isAtEnd p2); [|by right]. destruct (parenStack p2); [left; by eexists|by right].
Qed.

End Whole.

(** With the ASCII case mappings, on a query that nests. *)
Lemma parse_returns_witness :
  (exists q, @parse_query ascii_case (js "select (a + 1) from t where b in (select c from u)") = Ok q) \/
  @parse_query ascii_case (js "select (a + 1) from t where b in (select c from u)") = Throw EParse.
Proof. apply (@parse_returns ascii_case ascii_case_laws). Defined.

End ParserTotal.
