(* ===== verification/PrintExamples.v ===== *)
(** * Printed text read again

    Runs of the printer and the parser on concrete queries, with the ASCII case
    mappings.  [prints_back] holds of a query whose printed text parses to the
    same tree; the later examples are trees the parser builds whose text parses
    to another tree or to none. *)

From S2P Require Import Prelude Bytes Double Json Comparison VTab Lexer Ast AstStringify QueryStringify ExprParser QueryParser.
From Stdlib Require Import ZArith.
From Stdlib Require Ascii String.
From stdpp Require Import base tactics numbers list.
Import Comparison Ast Stringify QueryStringify QueryParser.
#[local] Open Scope string_scope.
#[local] Open Scope Z_scope.
#[local] Existing Instance ascii_case.

Module PrintExamples.

(** The text printed for the query [sql] stands for. *)
Definition printed (sql : jsstring) : res jsstring := let* q := parse_query sql in Ok (astToString q).

(** The printed text parses to the tree that was printed. *)
Definition prints_back (sql : jsstring) : Prop :=
  match parse_query sql with
  | Ok q => parse_query (astToString q) = Ok q
  | Throw _ => False
  end.

Example select_prints_back :
  prints_back (js "with t (a) as (select 1 union all select a + 1 from t where a < 10) select distinct t.a as x from t left join u on t.a = u.b where t.a between 1 and 5 and u.c is null group by t.a having count(*) > 1 order by x desc nulls last limit 3").
Proof. vm_compute. reflexivity. Qed.

Example write_prints_back :
  prints_back (js "insert or replace into main.t (a, b) values (1, 'it''s'), (2, x'00ff') with tags (k = 1) returning *").
Proof. vm_compute. reflexivity. Qed.

(** [*] and [%] share a level, and [*] is taken to be associative. *)
Example product_of_remainder :
  printed (js "select a * (b % c)") = Ok (js "select a * b % c") /\
  parse_query (js "select a * (b % c)") <> parse_query (js "select a * b % c").
Proof. split; vm_compute; [reflexivity|discriminate]. Qed.

(** The body of a minus is printed right after it. *)
Example double_minus :
  printed (js "select - -a") = Ok (js "select --a") /\ parse_query (js "select --a") = Throw EParse.
Proof. split; vm_compute; reflexivity. Qed.

(** Only a binary operand is ever put in parentheses. *)
Example negation_under_equality :
  printed (js "select (not a) = b") = Ok (js "select not a = b") /\
  parse_query (js "select (not a) = b") <> parse_query (js "select not a = b").
Proof. split; vm_compute; [reflexivity|discriminate]. Qed.

Example collated_concatenation :
  printed (js "select (a || b) collate nocase") = Ok (js "select a || b collate nocase") /\
  parse_query (js "select (a || b) collate nocase") <> parse_query (js "select a || b collate nocase").
Proof. split; vm_compute; [reflexivity|discriminate]. Qed.

(** The column names of a table function are not printed. *)
Example function_columns_lost :
  printed (js "select * from f(1) as g(a)") = Ok (js "select * from f(1) as g").
Proof. by vm_compute. Qed.

End PrintExamples.
