(* ===== verification/MemoryTable.v ===== *)
(** * Memory tables

    Models the row-level half of the in-memory table module
    ([packages/quereus/src/vtab/memory]): primary-key functions
    ([utils/primary-key.ts], [utils/primary-key-encode.ts]), secondary indexes
    ([index.ts]), the writes of a transaction layer ([layer/transaction.ts])
    and the mutations with their UNIQUE checks ([layer/manager.ts]).

    A key is the list of its components: the sources store the lone component
    of a one-column key unwrapped, a choice that depends on the arity alone.
    Trees are the interface [BTree]; a layer built over a parent starts from
    the parent's trees as values, which is what the copy-on-write of nodes and
    entries provides.  The row-time materialized views of the database are an
    argument. *)

From S2P Require Import Prelude Bytes Double Decimal NumberText Utf8 Json Comparison BTree VTab Types.
From Stdlib Require Import ZArith Lia.
From stdpp Require Import sorting.
From stdpp Require Import base tactics numbers sets gmap list.
#[local] Open Scope Z_scope.

Import Utf8 Json Comparison BTree VTab.

Module MemoryTable.

Section Model.
Context (resolver : jsstring -> CollationFunction).
Context {T : Type -> Type} `{!BTree T}.

Abbreviation value := SqlValue.
Abbreviation Row := (list value).

Definition BTreeKey : Type := list value.

(** ** Primary keys *)

Definition typed (columns : list ColumnSchema) (index : nat) (collation : option jsstring)
    : value -> value -> Z :=
  createTypedComparator
    (match columns !! index with Some c => c_logicalType c | None => untyped end)
    (resolver <$> collation).

(** The loop of the composite comparators, over the column comparators and
    their directions; [la - lb] is the answer when a key is too short. *)
Fixpoint composite_loop (cs : list ((value -> value -> Z) * bool)) (a b : BTreeKey) (la lb : Z) : Z :=
  match cs with
  | [] => 0
  | (cmp, desc) :: cs' =>
    match a, b with
    | x :: a', y :: b' =>
      let comparison := cmp x y in
      if negb (comparison =? 0) then (if desc then - comparison else comparison)
      else composite_loop cs' a' b' la lb
    | _, _ => la - lb
    end
  end.

Definition compare_composite (cs : list ((value -> value -> Z) * bool)) (a b : BTreeKey) : Z :=
  composite_loop cs a b (Z.of_nat (length a)) (Z.of_nat (length b)).

Definition compare_single (cmp : value -> value -> Z) (desc : bool) (a b : BTreeKey) : Z :=
  cmp (cell a 0) (cell b 0) * (if desc then -1 else 1).

Definition compare_columns (cs : list ((value -> value -> Z) * bool)) (a b : BTreeKey) : Z :=
  match cs with
  | [] => 0
  | [(cmp, desc)] => compare_single cmp desc a b
  | _ => compare_composite cs a b
  end.

Definition pk_comparators (schema : TableSchema) : list ((value -> value -> Z) * bool) :=
  map (fun def => (typed (t_columns schema) (p_index def) (p_collation def), p_desc def))
    (t_primaryKeyDefinition schema).

Definition pk_compare (schema : TableSchema) : BTreeKey -> BTreeKey -> Z :=
  compare_columns (pk_comparators schema).

(** [extractFromRow]: out of bounds throws. *)
Definition extract (indices : list nat) (row : Row) : res BTreeKey :=
  res_map (fun i => match row !! i with Some v => Ok v | None => Throw EInternal end) indices.

Definition extractFromRow (schema : TableSchema) (row : Row) : res BTreeKey :=
  extract (map p_index (t_primaryKeyDefinition schema)) row.

(** The key of a stored row, which extraction accepted. *)
Definition pk_of (schema : TableSchema) (row : Row) : BTreeKey :=
  map (fun def => cell row (p_index def)) (t_primaryKeyDefinition schema).

Definition buildPrimaryKeyFromValues (keyValues : Row) (defs : list PrimaryKeyColumnDefinition) : res BTreeKey :=
  match defs with
  | [] => Ok []
  | _ => if (length keyValues =? length defs)%nat then Ok keyValues else Throw EInternal
  end.

Definition encodeScalar (v : value) : jsstring :=
  match v with
  | VNull => js "n"
  | VBool b => js "i" ++ (if b then js "1" else js "0")
  | VBigint n => js "i" ++ dec n
  | VNumber d =>
    match BigInt_of_double d with
    | Some n => js "i" ++ dec n
    | None => js "if" ++ number_to_string d
    end
  | VText s => js "t" ++ s
  | VBlob b => js "b" ++ Bytes.bytesToHex b
  | VObject o => js "j" ++ canonicalJsonString o
  end.

Definition encode_component (v : value) : jsstring :=
  let c := encodeScalar v in dec (Z.of_nat (length c)) ++ js ":" ++ c.

Definition encodePrimaryKey (pk : BTreeKey) (arity : nat) : jsstring :=
  match arity with
  | O => js "S"
  | S O => js "1" ++ encodeScalar (cell pk 0)
  | _ => js "C" ++ dec (Z.of_nat arity) ++ concat (map encode_component (take arity pk))
  end.

Definition pk_encode (schema : TableSchema) (pk : BTreeKey) : jsstring :=
  encodePrimaryKey pk (length (t_primaryKeyDefinition schema)).

(** ** Secondary indexes *)

(** [primaryKeys] is a JS [Map]: entries in insertion order. *)
Record MemoryIndexEntry := mkEntry {
  indexKey : BTreeKey;
  primaryKeys : list (jsstring * BTreeKey)
}.

Record MemoryIndex := mkMemoryIndex {
  mi_spec : IndexSchema;
  mi_data : T MemoryIndexEntry
}.

Definition rowMatchesPredicate (ix : IndexSchema) (row : Row) : bool :=
  match ix_predicate ix with
  | None => true
  | Some p => bool_decide (evaluate p row = Some true)
  end.

Definition keyFromRow (ix : IndexSchema) (row : Row) : res BTreeKey :=
  extract (map ic_index (ix_columns ix)) row.

Definition index_comparators (columns : list ColumnSchema) (ix : IndexSchema)
    : list ((value -> value -> Z) * bool) :=
  map (fun sc => (typed columns (ic_index sc) (ic_collation sc), ic_desc sc)) (ix_columns ix).

Definition compareKeys (columns : list ColumnSchema) (ix : IndexSchema) : BTreeKey -> BTreeKey -> Z :=
  compare_columns (index_comparators columns ix).

(** [Map.prototype.set]. *)
Fixpoint map_set (enc : jsstring) (pk : BTreeKey) (m : list (jsstring * BTreeKey)) : list (jsstring * BTreeKey) :=
  match m with
  | [] => [(enc, pk)]
  | (e, p) :: m' => if bool_decide (e = enc) then (e, pk) :: m' else (e, p) :: map_set enc pk m'
  end.

(** [Map.prototype.delete]. *)
Definition map_delete (enc : jsstring) (m : list (jsstring * BTreeKey)) : list (jsstring * BTreeKey) :=
  filter (fun p => p.1 <> enc) m.

Definition addEntry (schema : TableSchema) (mi : MemoryIndex) (key pk : BTreeKey) : MemoryIndex :=
  let cmp := compareKeys (t_columns schema) (mi_spec mi) in
  let enc := pk_encode schema pk in
  let entry :=
    match bt_get indexKey cmp (mi_data mi) key with
    | Some existing => mkEntry (indexKey existing) (map_set enc pk (primaryKeys existing))
    | None => mkEntry key [(enc, pk)]
    end in
  mkMemoryIndex (mi_spec mi) (bt_upsert indexKey cmp (mi_data mi) entry).

Definition removeEntry (schema : TableSchema) (mi : MemoryIndex) (key pk : BTreeKey) : MemoryIndex :=
  let cmp := compareKeys (t_columns schema) (mi_spec mi) in
  match bt_get indexKey cmp (mi_data mi) key with
  | None => mi
  | Some entry =>
    let remaining := map_delete (pk_encode schema pk) (primaryKeys entry) in
    mkMemoryIndex (mi_spec mi)
      (match remaining with
       | [] => bt_remove indexKey cmp (mi_data mi) key
       | _ => bt_upsert indexKey cmp (mi_data mi) (mkEntry (indexKey entry) remaining)
       end)
  end.

Definition getSortedPrimaryKeys (schema : TableSchema) (entry : MemoryIndexEntry) : list BTreeKey :=
  js_sort (pk_compare schema) (map snd (primaryKeys entry)).

Definition getPrimaryKeys (schema : TableSchema) (mi : MemoryIndex) (key : BTreeKey) : list BTreeKey :=
  match bt_get indexKey (compareKeys (t_columns schema) (mi_spec mi)) (mi_data mi) key with
  | Some entry => getSortedPrimaryKeys schema entry
  | None => []
  end.

Definition hasAnyPrimaryKey (schema : TableSchema) (mi : MemoryIndex) (key : BTreeKey) : bool :=
  match bt_get indexKey (compareKeys (t_columns schema) (mi_spec mi)) (mi_data mi) key with
  | Some entry => (0 <? length (primaryKeys entry))%nat
  | None => false
  end.

(** ** Transaction layers *)

Inductive OwnWrite : Type :=
| WUpsert (primaryKey : BTreeKey) (newRow : Row)
| WDelete (primaryKey : BTreeKey).

Inductive PendingChange : Type :=
| PInsert (newRow : Row)
| PUpdate (oldRow newRow : Row)
| PDelete (oldRow : Row).

Record TransactionLayer := mkLayer {
  l_schema : TableSchema;
  primaryModifications : T Row;
  secondaryIndexes : gmap jsstring MemoryIndex;
  isCommitted : bool;
  hasModifications : bool;
  pendingChanges : option (list PendingChange);
  ownWrites : list OwnWrite
}.

Definition track (c : PendingChange) (p : option (list PendingChange)) : option (list PendingChange) :=
  (fun l => l ++ [c]) <$> p.

(** The body of the index loop of [recordUpsert]. *)
Definition upsert_index (schema : TableSchema) (mi : MemoryIndex) (primaryKey : BTreeKey) (newRowData : Row)
    (oldRowDataIfUpdate : option Row) : res MemoryIndex :=
  let ix := mi_spec mi in
  let newInScope := rowMatchesPredicate ix newRowData in
  match oldRowDataIfUpdate with
  | Some old =>
    let oldInScope := rowMatchesPredicate ix old in
    if negb oldInScope && negb newInScope then Ok mi
    else if oldInScope && negb newInScope then
      let* oldIndexKey := keyFromRow ix old in
      Ok (removeEntry schema mi oldIndexKey primaryKey)
    else if negb oldInScope && newInScope then
      let* newIndexKey := keyFromRow ix newRowData in
      Ok (addEntry schema mi newIndexKey primaryKey)
    else
      let* oldIndexKey := keyFromRow ix old in
      let* newIndexKey := keyFromRow ix newRowData in
      if negb (compareKeys (t_columns schema) ix oldIndexKey newIndexKey =? 0)
      then Ok (addEntry schema (removeEntry schema mi oldIndexKey primaryKey) newIndexKey primaryKey)
      else Ok (addEntry schema mi newIndexKey primaryKey)
  | None =>
    if negb newInScope then Ok mi
    else
      let* newIndexKey := keyFromRow ix newRowData in
      Ok (addEntry schema mi newIndexKey primaryKey)
  end.

(** The body of the index loop of [recordDelete]. *)
Definition delete_index (schema : TableSchema) (mi : MemoryIndex) (primaryKey : BTreeKey) (oldRow : Row)
    : res MemoryIndex :=
  if negb (rowMatchesPredicate (mi_spec mi) oldRow) then Ok mi
  else
    let* oldIndexKey := keyFromRow (mi_spec mi) oldRow in
    Ok (removeEntry schema mi oldIndexKey primaryKey).

(** [for (const indexSchema of schema.indexes)]. *)
Fixpoint index_loop (f : MemoryIndex -> res MemoryIndex) (indexes : list IndexSchema)
    (m : gmap jsstring MemoryIndex) : res (gmap jsstring MemoryIndex) :=
  match indexes with
  | [] => Ok m
  | indexSchema :: indexes' =>
    match m !! ix_name indexSchema with
    | None => index_loop f indexes' m
    | Some mi => let* mi' := f mi in index_loop f indexes' (<[ix_name indexSchema := mi']> m)
    end
  end.

Definition recordUpsert (l : TransactionLayer) (primaryKey : BTreeKey) (newRowData : Row)
    (oldRowDataIfUpdate : option Row) : res TransactionLayer :=
  if isCommitted l then Throw ECommitted
  else
    let schema := l_schema l in
    let primary := bt_upsert (pk_of schema) (pk_compare schema) (primaryModifications l) newRowData in
    let change := match oldRowDataIfUpdate with Some old => PUpdate old newRowData | None => PInsert newRowData end in
    let* ixs := index_loop (fun mi => upsert_index schema mi primaryKey newRowData oldRowDataIfUpdate)
                  (t_indexes schema) (secondaryIndexes l) in
    Ok (mkLayer schema primary ixs false true (track change (pendingChanges l))
          (ownWrites l ++ [WUpsert primaryKey newRowData])).

Definition recordDelete (l : TransactionLayer) (primaryKey : BTreeKey) (oldRowDataForIndexes : Row)
    : res TransactionLayer :=
  if isCommitted l then Throw ECommitted
  else
    let schema := l_schema l in
    let primary := bt_remove (pk_of schema) (pk_compare schema) (primaryModifications l) primaryKey in
    let* ixs := index_loop (fun mi => delete_index schema mi primaryKey oldRowDataForIndexes)
                  (t_indexes schema) (secondaryIndexes l) in
    Ok (mkLayer schema primary ixs false true (track (PDelete oldRowDataForIndexes) (pendingChanges l))
          (ownWrites l ++ [WDelete primaryKey])).

(** ** Mutations *)

Record ImplicitCoveringStructure := mkImplicit { ics_indexName : jsstring }.

Record MemoryTableManager := mkManager {
  m_tableName : jsstring;
  m_schema : TableSchema;
  implicitCoveringStructures : gmap jsstring ImplicitCoveringStructure;
  (** [db._findRowTimeCoveringStructure] with [db._lookupCoveringConflicts]. *)
  rowTimeCovering : UniqueConstraintSchema -> option (Row -> BTreeKey -> list Row)
}.

Definition lookupEffectiveRow (primaryKey : BTreeKey) (l : TransactionLayer) : option Row :=
  bt_get (pk_of (l_schema l)) (pk_compare (l_schema l)) (primaryModifications l) primaryKey.

Definition resolvePkConflict (schema : TableSchema) (onConflict : option ConflictResolution)
    (existingRow : Row) (message : jsstring) : option UpdateResult :=
  let pkAction := default ABORT (match onConflict with Some a => Some a | None => resolvePkDefaultConflict schema end) in
  if bool_decide (pkAction = REPLACE) then None
  else if bool_decide (pkAction = IGNORE) then Some (UOk None None None)
  else Some (UConstraint CUnique message (Some existingRow) pkAction).

Record UniqueCheckSelf := mkSelf { s_key : BTreeKey; s_vacated : option BTreeKey }.

Definition isSelfKey (schema : TableSchema) (self : UniqueCheckSelf) (pk : BTreeKey) : bool :=
  (pk_compare schema (s_key self) pk =? 0) ||
  match s_vacated self with
  | Some v => pk_compare schema v pk =? 0
  | None => false
  end.

(** [uc.columns.every((col, i) => compares[i](newRow[col], row[col]) === 0)]. *)
Definition all_match (compares : list (value -> value -> Z)) (columns : list nat) (newRow row : Row) : bool :=
  forallb (fun p => p.1 (cell newRow p.2) (cell row p.2) =? 0) (zip compares columns).

Definition join_names (names : list jsstring) : jsstring :=
  match names with
  | [] => []
  | n :: names' => n ++ concat (map (fun m => js ", " ++ m) names')
  end.

Definition unique_message (m : MemoryTableManager) (schema : TableSchema) (uc : UniqueConstraintSchema) : jsstring :=
  js "UNIQUE constraint failed: " ++ m_tableName m ++ js " (" ++
  join_names (map (fun i => match t_columns schema !! i with Some c => c_name c | None => [] end)
                (uc_columns uc)) ++ js ")".

(** What a conflict found with [conflictingRow] does: the result that ends the
    check, or the layer and evictions to go on with. *)
Definition on_conflict (m : MemoryTableManager) (uc : UniqueConstraintSchema) (effective : ConflictResolution)
    (l : TransactionLayer) (evicted : list Row) (pk : BTreeKey) (conflictingRow : Row)
    : res (option UpdateResult * TransactionLayer * list Row) :=
  if bool_decide (effective = IGNORE) then Ok (Some (UOk None None None), l, evicted)
  else if bool_decide (effective = REPLACE) then
    let* l' := recordDelete l pk conflictingRow in
    Ok (None, l', evicted ++ [conflictingRow])
  else Ok (Some (UConstraint CUnique (unique_message m (l_schema l) uc) (Some conflictingRow) effective), l, evicted).

(** The candidate loops of [checkUniqueViaIndex] and
    [checkUniqueViaMaterializedView]; [in_scope] is the former's re-check of the
    index predicate. *)
Fixpoint candidate_loop (m : MemoryTableManager) (uc : UniqueConstraintSchema) (newRowData : Row)
    (self : UniqueCheckSelf) (effective : ConflictResolution) (compares : list (value -> value -> Z))
    (in_scope : Row -> bool) (candidates : list (res BTreeKey)) (l : TransactionLayer) (evicted : list Row)
    : res (option UpdateResult * TransactionLayer * list Row) :=
  match candidates with
  | [] => Ok (None, l, evicted)
  | candidate :: candidates' =>
    let continue_ := candidate_loop m uc newRowData self effective compares in_scope candidates' in
    let* existingPK := candidate in
    if isSelfKey (m_schema m) self existingPK then continue_ l evicted
    else
      match lookupEffectiveRow existingPK l with
      | None => continue_ l evicted
      | Some conflictingRow =>
        if negb (all_match compares (uc_columns uc) newRowData conflictingRow) then continue_ l evicted
        else if negb (in_scope conflictingRow) then continue_ l evicted
        else
          let* r := on_conflict m uc effective l evicted existingPK conflictingRow in
          match r with
          | (Some result, l', evicted') => Ok (Some result, l', evicted')
          | (None, l', evicted') => continue_ l' evicted'
          end
      end
  end.

Definition declared_collation (schema : TableSchema) (col : nat) : jsstring :=
  match t_columns schema !! col with Some c => c_collation c | None => js "BINARY" end.

Definition index_collations (schema : TableSchema) (ix : IndexSchema) (uc : UniqueConstraintSchema)
    : list jsstring :=
  imap (fun i col => default (declared_collation schema col) (ix_columns ix !! i ≫= ic_collation)) (uc_columns uc).

Definition comparators_for (schema : TableSchema) (uc : UniqueConstraintSchema) (names : list jsstring)
    : list (value -> value -> Z) :=
  uniqueEnforcementComparators (t_columns schema) (uc_columns uc) (map resolver names).

Definition checkUniqueViaIndex (m : MemoryTableManager) (l : TransactionLayer) (uc : UniqueConstraintSchema)
    (mi : MemoryIndex) (newRowData : Row) (self : UniqueCheckSelf) (effective : ConflictResolution)
    (evicted : list Row) : res (option UpdateResult * TransactionLayer * list Row) :=
  let schema := l_schema l in
  let* key := keyFromRow (mi_spec mi) newRowData in
  match getPrimaryKeys schema mi key with
  | [] => Ok (None, l, evicted)
  | existingPKs =>
    candidate_loop m uc newRowData self effective (comparators_for schema uc (index_collations schema (mi_spec mi) uc))
      (rowMatchesPredicate (mi_spec mi)) (map Ok existingPKs) l evicted
  end.

Definition checkUniqueViaMaterializedView (m : MemoryTableManager) (l : TransactionLayer)
    (uc : UniqueConstraintSchema) (lookupCoveringConflicts : Row -> BTreeKey -> list Row) (newRowData : Row)
    (self : UniqueCheckSelf) (effective : ConflictResolution) (evicted : list Row)
    : res (option UpdateResult * TransactionLayer * list Row) :=
  let schema := l_schema l in
  let candidates := map (fun pk => buildPrimaryKeyFromValues pk (t_primaryKeyDefinition schema))
                      (lookupCoveringConflicts newRowData (s_key self)) in
  candidate_loop m uc newRowData self effective
    (comparators_for schema uc (map (default (js "BINARY")) (uniqueEnforcementCollations schema uc)))
    (fun _ => true) candidates l evicted.

(** The walk of [checkUniqueByScanning]: the first conflict decides. *)
Fixpoint scan_loop (m : MemoryTableManager) (uc : UniqueConstraintSchema) (newRowData : Row)
    (self : UniqueCheckSelf) (effective : ConflictResolution) (compares : list (value -> value -> Z))
    (rows : list Row) (l : TransactionLayer) (evicted : list Row)
    : res (option UpdateResult * TransactionLayer * list Row) :=
  match rows with
  | [] => Ok (None, l, evicted)
  | existingRow :: rows' =>
    let continue_ := scan_loop m uc newRowData self effective compares rows' l evicted in
    let* existingPK := extractFromRow (m_schema m) existingRow in
    if isSelfKey (m_schema m) self existingPK then continue_
    else if match uc_predicate uc with
            | Some p => negb (bool_decide (evaluate p existingRow = Some true))
            | None => false
            end then continue_
    else if negb (all_match compares (uc_columns uc) newRowData existingRow) then continue_
    else on_conflict m uc effective l evicted existingPK existingRow
  end.

Definition checkUniqueByScanning (m : MemoryTableManager) (l : TransactionLayer) (uc : UniqueConstraintSchema)
    (newRowData : Row) (self : UniqueCheckSelf) (effective : ConflictResolution) (evicted : list Row)
    : res (option UpdateResult * TransactionLayer * list Row) :=
  scan_loop m uc newRowData self effective
    (comparators_for (l_schema l) uc (map (declared_collation (l_schema l)) (uc_columns uc)))
    (bt_ascending (primaryModifications l)) l evicted.

Inductive CoveringStructure : Type :=
| MemoryIndexStructure (index : MemoryIndex)
| MaterializedViewStructure (view : Row -> BTreeKey -> list Row).

(** [uc_a_b] over the column names. *)
Definition implicitIndexNameOver (uc : UniqueConstraintSchema) (columns : list ColumnSchema) : jsstring :=
  js "_uc_" ++
  match map (fun i => match columns !! i with Some c => c_name c | None => dec (Z.of_nat i) end) (uc_columns uc) with
  | [] => []
  | n :: names => n ++ concat (map (fun m => js "_" ++ m) names)
  end.

Definition getImplicitCoveringStructure (m : MemoryTableManager) (uc : UniqueConstraintSchema)
    : option ImplicitCoveringStructure :=
  implicitCoveringStructures m !! default (implicitIndexNameOver uc (t_columns (m_schema m))) (uc_name uc).

Context (normalizeCollationName : jsstring -> jsstring).

Definition indexCollationsMatchDeclared (m : MemoryTableManager) (ix : IndexSchema) (uc : UniqueConstraintSchema)
    : bool :=
  forallb (fun p => bool_decide (normalizeCollationName p.1 = normalizeCollationName p.2))
    (zip (index_collations (m_schema m) ix uc) (map (declared_collation (m_schema m)) (uc_columns uc))).

(** The column-set scan of [findIndexForConstraint]. *)
Fixpoint column_set_scan (m : MemoryTableManager) (l : TransactionLayer) (uc : UniqueConstraintSchema)
    (indexes : list IndexSchema) : option CoveringStructure :=
  match indexes with
  | [] => None
  | idx :: indexes' =>
    if bool_decide (is_Some (ix_predicate idx)) then column_set_scan m l uc indexes'
    else if negb (bool_decide (map ic_index (ix_columns idx) = uc_columns uc)) then column_set_scan m l uc indexes'
    else if negb (indexCollationsMatchDeclared m idx uc) then column_set_scan m l uc indexes'
    else
      match secondaryIndexes l !! ix_name idx with
      | Some index => Some (MemoryIndexStructure index)
      | None => column_set_scan m l uc indexes'
      end
  end.

Definition by_name (m : MemoryTableManager) (l : TransactionLayer) (uc : UniqueConstraintSchema)
    : option MemoryIndex :=
  match uc_derivedFromIndex uc with
  | Some name => secondaryIndexes l !! name
  | None => getImplicitCoveringStructure m uc ≫= fun own => secondaryIndexes l !! ics_indexName own
  end.

Definition findIndexForConstraint (m : MemoryTableManager) (l : TransactionLayer) (uc : UniqueConstraintSchema)
    (allowMvCovering : bool) : option CoveringStructure :=
  match (if allowMvCovering then rowTimeCovering m uc else None) with
  | Some mv => Some (MaterializedViewStructure mv)
  | None =>
    match by_name m l uc with
    | Some index => Some (MemoryIndexStructure index)
    | None =>
      if bool_decide (is_Some (uc_predicate uc)) then None
      else column_set_scan m l uc (t_indexes (l_schema l))
    end
  end.

Definition checkSingleUniqueConstraint (m : MemoryTableManager) (l : TransactionLayer) (uc : UniqueConstraintSchema)
    (newRowData : Row) (self : UniqueCheckSelf) (onConflict : option ConflictResolution) (evicted : list Row)
    (allowMvCovering : bool) : res (option UpdateResult * TransactionLayer * list Row) :=
  if existsb (fun colIdx => is_null (cell newRowData colIdx)) (uc_columns uc) then Ok (None, l, evicted)
  else
    let covering := findIndexForConstraint m l uc allowMvCovering in
    let effective := default ABORT (match onConflict with Some a => Some a | None => uc_defaultConflict uc end) in
    match covering with
    | Some (MemoryIndexStructure index) =>
      if negb (rowMatchesPredicate (mi_spec index) newRowData) then Ok (None, l, evicted)
      else checkUniqueViaIndex m l uc index newRowData self effective evicted
    | Some (MaterializedViewStructure view) =>
      if match uc_predicate uc with
         | Some p => negb (bool_decide (evaluate p newRowData = Some true))
         | None => false
         end then Ok (None, l, evicted)
      else checkUniqueViaMaterializedView m l uc view newRowData self effective evicted
    | None => checkUniqueByScanning m l uc newRowData self effective evicted
    end.

Fixpoint checkUniqueConstraints (m : MemoryTableManager) (ucs : list UniqueConstraintSchema)
    (l : TransactionLayer) (newRowData : Row) (self : UniqueCheckSelf) (onConflict : option ConflictResolution)
    (evicted : list Row) : res (option UpdateResult * TransactionLayer * list Row) :=
  match ucs with
  | [] => Ok (None, l, evicted)
  | uc :: ucs' =>
    let* r := checkSingleUniqueConstraint m l uc newRowData self onConflict evicted true in
    match r with
    | (Some result, l', evicted') => Ok (Some result, l', evicted')
    | (None, l', evicted') => checkUniqueConstraints m ucs' l' newRowData self onConflict evicted'
    end
  end.

Definition UNIQUE_PK_MESSAGE (m : MemoryTableManager) : jsstring :=
  js "UNIQUE constraint failed: " ++ m_tableName m ++ js " PK.".

Definition evicted_field (evicted : list Row) : option (list Row) :=
  match evicted with [] => None | _ => Some evicted end.

Definition performInsert (m : MemoryTableManager) (l : TransactionLayer) (vals : option Row)
    (onConflict : option ConflictResolution) (preCoerced : bool) : res (TransactionLayer * UpdateResult) :=
  match vals with
  | None => Throw EMisuse
  | Some vals =>
    let schema := l_schema l in
    let* newRowData := (if preCoerced then Ok vals else Types.coerceRowToSchema vals (t_columns schema)) in
    let* primaryKey := extractFromRow (m_schema m) newRowData in
    let existingRow := lookupEffectiveRow primaryKey l in
    match (existingRow ≫= fun e => resolvePkConflict schema onConflict e (UNIQUE_PK_MESSAGE m)) with
    | Some outcome => Ok (l, outcome)
    | None =>
      let* r := checkUniqueConstraints m (t_uniqueConstraints schema) l newRowData (mkSelf primaryKey None)
                  onConflict [] in
      match r with
      | (Some ucResult, l', _) => Ok (l', ucResult)
      | (None, l', evicted) =>
        let* l'' := recordUpsert l' primaryKey newRowData existingRow in
        Ok (l'', UOk (Some newRowData) existingRow (evicted_field evicted))
      end
    end
  end.

Definition UNIQUE_NEW_PK_MESSAGE (m : MemoryTableManager) : jsstring :=
  js "UNIQUE constraint failed on new PK for " ++ m_tableName m ++ js ".".

Definition performUpdateWithPrimaryKeyChange (m : MemoryTableManager) (l : TransactionLayer)
    (oldPrimaryKey newPrimaryKey : BTreeKey) (oldRowData newRowData : Row) (onConflict : option ConflictResolution)
    : res (TransactionLayer * UpdateResult) :=
  let schema := l_schema l in
  let existingRowAtNewKey := lookupEffectiveRow newPrimaryKey l in
  match (existingRowAtNewKey ≫= fun e => resolvePkConflict schema onConflict e (UNIQUE_NEW_PK_MESSAGE m)) with
  | Some outcome => Ok (l, outcome)
  | None =>
    let* r := checkUniqueConstraints m (t_uniqueConstraints schema) l newRowData
                (mkSelf newPrimaryKey (Some oldPrimaryKey)) onConflict [] in
    match r with
    | (Some ucResult, l', _) => Ok (l', ucResult)
    | (None, l', evicted) =>
      let* l1 := (match existingRowAtNewKey with
                  | Some e => recordDelete l' newPrimaryKey e
                  | None => Ok l'
                  end) in
      let* l2 := recordDelete l1 oldPrimaryKey oldRowData in
      let* l3 := recordUpsert l2 newPrimaryKey newRowData None in
      Ok (l3, UOk (Some newRowData) existingRowAtNewKey (evicted_field evicted))
    end
  end.

(** The referenced columns of a partial constraint: those of the covering
    index's predicate, else of its own. *)
Definition predicate_columns (m : MemoryTableManager) (l : TransactionLayer) (uc : UniqueConstraintSchema)
    : option (list nat) :=
  match findIndexForConstraint m l uc true with
  | Some (MemoryIndexStructure index) => referencedColumns <$> ix_predicate (mi_spec index)
  | _ => referencedColumns <$> uc_predicate uc
  end.

(** [committed] is [this._currentCommittedLayer]. *)
Definition performUpdate (m : MemoryTableManager) (committed l : TransactionLayer) (vals oldKeyVals : option Row)
    (onConflict : option ConflictResolution) (preCoerced : bool) : res (TransactionLayer * UpdateResult) :=
  match vals, oldKeyVals with
  | Some vals, Some oldKeyVals =>
    let schema := l_schema l in
    let* newRowData := (if preCoerced then Ok vals else Types.coerceRowToSchema vals (t_columns schema)) in
    let* targetPrimaryKey := buildPrimaryKeyFromValues oldKeyVals (t_primaryKeyDefinition schema) in
    match lookupEffectiveRow targetPrimaryKey l with
    | None => Ok (l, UOk None None None)
    | Some oldRowData =>
      let* newPrimaryKey := extractFromRow (m_schema m) newRowData in
      if negb (pk_compare (m_schema m) targetPrimaryKey newPrimaryKey =? 0) then
        performUpdateWithPrimaryKeyChange m l targetPrimaryKey newPrimaryKey oldRowData newRowData onConflict
      else
        let* r :=
          (if uniqueColumnsChanged (t_uniqueConstraints schema) oldRowData newRowData
                (predicate_columns m committed)
           then checkUniqueConstraints m (t_uniqueConstraints schema) l newRowData (mkSelf targetPrimaryKey None)
                  onConflict []
           else Ok (None, l, [])) in
        match r with
        | (Some ucResult, l', _) => Ok (l', ucResult)
        | (None, l', evicted) =>
          let* l'' := recordUpsert l' targetPrimaryKey newRowData (Some oldRowData) in
          Ok (l'', UOk (Some newRowData) None (evicted_field evicted))
        end
    end
  | _, _ => Throw EMisuse
  end.

Definition performDelete (m : MemoryTableManager) (l : TransactionLayer) (oldKeyVals : option Row)
    : res (TransactionLayer * UpdateResult) :=
  match oldKeyVals with
  | None => Throw EMisuse
  | Some oldKeyVals =>
    let* targetPrimaryKey := buildPrimaryKeyFromValues oldKeyVals (t_primaryKeyDefinition (l_schema l)) in
    match lookupEffectiveRow targetPrimaryKey l with
    | None => Ok (l, UOk None None None)
    | Some oldRowData =>
      let* l' := recordDelete l targetPrimaryKey oldRowData in
      Ok (l', UOk (Some oldRowData) None None)
    end
  end.

(** The switch of [performMutation], on the connection's pending layer. *)
Definition mutate (m : MemoryTableManager) (committed l : TransactionLayer) (args : UpdateArgs)
    : res (TransactionLayer * UpdateResult) :=
  match operation args with
  | RInsert => performInsert m l (values args) (onConflict args) (preCoerced args)
  | RUpdate => performUpdate m committed l (values args) (oldKeyValues args) (onConflict args) (preCoerced args)
  | RDelete => performDelete m l (oldKeyValues args)
  end.

End Model.
End MemoryTable.
