(* ===== verification/MemoryKeys.v ===== *)
(** * Memory tables: encoded primary keys

    A secondary index of a memory table keys the primary keys of an entry by
    their encoding ([vtab/memory/utils/primary-key-encode.ts]).  The encoding
    is shown to identify keys exactly as the storage-class comparator does,
    with text compared by code points. *)

From S2P Require Import Prelude Bytes Double Decimal NumberText Utf8 Json Comparison KeySerializer BTree VTab MemoryTable.
From Stdlib Require Import ZArith Lia.
From stdpp Require Import sorting.
From stdpp Require Import base tactics numbers sets gmap list.
#[local] Open Scope Z_scope.

Import Utf8 Json Comparison KeySerializer BTree VTab MemoryTable.

Module MemoryKeys.

Section Encode.

Abbreviation value := SqlValue.
Abbreviation wf := wf_value.
Abbreviation encode := encodeScalar.
Abbreviation binary_compare := (value_compare (lex rank_cmp)).

(** Keys equal component by component under the storage-class comparator. *)
Definition same_key (k1 k2 : list value) : Prop :=
  Forall2 (fun a b => compareSqlValues a b = 0) k1 k2.

Lemma encode_numeric (v : value) :
  getStorageClass v = NUMERIC ->
  (exists n, numeric_of v = NFin (n * UNIT) /\ encode v = js "i" ++ dec n) \/
  (exists d, v = VNumber d /\ BigInt_of_double d = None /\ encode v = js "i" ++ js "f" ++ number_to_string d).
Proof.
  destruct v as [|d|n|b|s|b|o]; cbn [getStorageClass encodeScalar numeric_of]; try done; intros _.
  - destruct (BigInt_of_double d) as [n|] eqn:E; [left|right; by exists d].
    exists n. split; [by apply BigInt_of_double_num|done].
  - left. by exists n.
  - left. destruct b; [by exists 1|by exists 0].
Qed.

Lemma encode_numeric_eq (a b : value) :
  getStorageClass a = NUMERIC -> getStorageClass b = NUMERIC -> wf a -> wf b ->
  encode a = encode b <-> numeric_of a = numeric_of b.
Proof.
  intros Ca Cb Wa Wb. pose proof UNIT_pos.
  assert (Hf : forall n s, dec n <> 102 :: s).
  { intros n s E. assert (Hin : 102 ∈ dec n) by (rewrite E; left). revert Hin. apply dec_no_sep; lia. }
  destruct (encode_numeric a Ca) as [(n & Na & ->)|(d & -> & Nd & ->)],
    (encode_numeric b Cb) as [(k & Nb & ->)|(e & -> & Ne & ->)].
  - rewrite Na, Nb. split; [by intros ->%(inj (app (js "i")))%dec_inj_Z|]. intros [= H1]. do 2 f_equal. nia.
  - rewrite Na. cbn [numeric_of]. split; [by intros ?%(inj (app (js "i")))%Hf|].
    intros H1. symmetry in H1. apply BigInt_of_double_num in H1. congruence.
  - rewrite Nb. cbn [numeric_of]. split; [intros ?%(inj (app (js "i"))); symmetry in H0; by apply Hf in H0|].
    intros H1. apply BigInt_of_double_num in H1. congruence.
  - cbn [numeric_of]. destruct Wa as [Wa _], Wb as [Wb _]. split.
    + intros H1%(inj (app (js "i")))%(inj (app (js "f"))). by rewrite (number_to_string_inj d e).
    + intros H1. do 3 f_equal. apply num_of_double_inj; [done|done|by intros ->|by intros ->|done].
Qed.

Lemma encodeScalar_eq (a b : value) : wf a -> wf b -> encode a = encode b <-> binary_compare a b = Eq.
Proof.
  intros Wa Wb.
  destruct (decide (getStorageClass a = NUMERIC /\ getStorageClass b = NUMERIC)) as [[Ca Cb]|Hn].
  - rewrite encode_numeric_eq by done. unfold value_compare. rewrite Ca, Cb, Z.compare_refl. cbn [cmp_then].
    assert (num_part a = numeric_of a /\ num_part b = numeric_of b) as [-> ->] by (unfold num_part; by rewrite Ca, Cb).
    assert (text_part a = [] /\ text_part b = [] /\ blob_part a = [] /\ blob_part b = [] /\
      obj_part a = [] /\ obj_part b = [])
      as (-> & -> & -> & -> & -> & ->) by (destruct a; try done; by destruct b).
    cbn [lex cmp_then]. rewrite <- (cmp_eq num_compare). by destruct (num_compare (numeric_of a) (numeric_of b)).
  - assert (Htag : forall t u (x y : jsstring), t <> u -> t :: x = u :: y <-> False) by (clear; naive_solver).
    unfold value_compare. destruct a as [|d|n|x|s|x|o], b as [|d'|n'|y|s'|y|o']; cbn [getStorageClass] in Hn; try tauto; clear Hn;
      cbn [encodeScalar]; repeat match goal with |- context [BigInt_of_double ?d] => destruct (BigInt_of_double d) end;
      cbn [getStorageClass class_num Z.compare Pos.compare Pos.compare_cont cmp_then num_part num_compare text_part blob_part obj_part];
      try (by split); rewrite ?(cmp_refl (lex rank_cmp)), ?(cmp_refl blex); cbn [cmp_then num_part num_compare Z.compare].
    + change (num_compare (num_part (VText s)) (num_part (VText s'))) with Eq. cbn [cmp_then].
      transitivity (s = s'); [split; [by intros ?%(inj (app (js "t")))|by intros ->]|].
      rewrite <- (lex_rank_eq s s') by done. cbn [lex blex]. by destruct (lex rank_cmp s s').
    + change (num_compare (num_part (VBlob x)) (num_part (VBlob y))) with Eq. cbn [cmp_then lex].
      transitivity (x = y); [split; [by intros ?%(inj (app (js "b")))%Bytes.bytesToHex_inj|by intros ->]|].
      rewrite <- (cmp_eq blex). by destruct (blex x y).
    + change (num_compare (num_part (VObject o)) (num_part (VObject o'))) with Eq. cbn [cmp_then lex blex].
      transitivity (canonicalJsonString o = canonicalJsonString o'); [split; [by intros ?%(inj (app (js "j")))|by intros ->]|].
      by rewrite <- lex_rank_eq by auto with json.
Qed.

(** Length-prefixed components split off a longer text. *)
Lemma component_split (a b : value) r r' :
  encode_component a ++ r = encode_component b ++ r' <->
  encode a = encode b /\ r = r'.
Proof.
  unfold encode_component. split; [|by intros [-> ->]].
  change (js ":") with [58]. rewrite <- !app_assoc. cbn [app].
  intros [Hd H1]%(split_at_sep 58); [|apply dec_no_sep; lia|apply dec_no_sep; lia].
  apply dec_inj_Z, Nat2Z.inj in Hd. by apply app_inj_1 in H1.
Qed.

Lemma components_eq (k1 k2 : list value) :
  length k1 = length k2 ->
  concat (map (encode_component) k1) =
  concat (map (encode_component) k2) <->
  Forall2 (fun a b => encode a = encode b) k1 k2.
Proof.
  revert k2. induction k1 as [|a k1 IH]; intros [|b k2]; cbn [length map concat]; try done.
  intros [= Hl]. by rewrite component_split, (IH k2 Hl), Forall2_cons.
Qed.

Lemma encode_key_eq (k1 k2 : list value) (arity : nat) :
  length k1 = arity -> length k2 = arity -> Forall wf k1 -> Forall wf k2 ->
  encodePrimaryKey k1 arity =
  encodePrimaryKey k2 arity <->
  Forall2 (fun a b => binary_compare a b = Eq) k1 k2.
Proof.
  intros L1 L2 W1 W2.
  transitivity (Forall2 (fun a b => encode a = encode b) k1 k2).
  - destruct arity as [|[|n]]; cbn [encodePrimaryKey].
    + apply nil_length_inv in L1 as ->, L2 as ->. by split.
    + destruct k1 as [|a [|]], k2 as [|b [|]]; try done. cbn. rewrite Forall2_cons.
      split; [intros ?%(inj (app (js "1")))|intros [E _]; by f_equal]. split; [done|constructor].
    + rewrite <- components_eq by congruence. rewrite (take_ge k1), (take_ge k2) by lia.
      split; [by intros ?%(inj (app (js "C")))%(inj (app (dec _)))|by intros ->].
  - clear L1 L2. split; intros H; (induction H as [|a b k1 k2 E H IH];
      [constructor|apply Forall_cons in W1 as [Wa W1]; apply Forall_cons in W2 as [Wb W2]; constructor; [|by apply IH]]);
      by apply encodeScalar_eq.
Qed.

(** C9: Two primary keys of well-formed values encode to the same string
    exactly when the storage-class comparator holds each pair of components
    equal: numbers by value whatever their JS type, text by code points, blobs
    by bytes, JSON by canonical string.  The length prefixes keep composite
    keys apart, and the type tags single values of different classes. *)
Theorem encodePrimaryKey_faithful (k1 k2 : list value) (arity : nat) :
  length k1 = arity -> length k2 = arity -> Forall wf k1 -> Forall wf k2 ->
  encodePrimaryKey k1 arity =
  encodePrimaryKey k2 arity <->
  same_key k1 k2.
Proof.
  intros L1 L2 W1 W2. rewrite encode_key_eq by done. clear L1 L2. unfold same_key.
  split; intros H; (induction H as [|a b k1 k2 E H IH];
    [constructor|apply Forall_cons in W1 as [Wa W1]; apply Forall_cons in W2 as [Wb W2]; constructor; [|by apply IH]]).
  - apply sgn_eq. unfold compareSqlValues. by rewrite (compare_fast_spec _ _ a b BINARY_collates Wa Wb).
  - rewrite <- (compare_fast_spec _ _ a b BINARY_collates Wa Wb). by apply sgn_eq.
Qed.

End Encode.

Lemma encodePrimaryKey_faithful_witness :
  let k1 := [VBigint 5; VText (js "a:b")] in
  let k2 := [VNumber (double_of_Z 5); VText (js "a:b")] in
  encodePrimaryKey k1 2 = encodePrimaryKey k2 2 <->
  same_key k1 k2.
Proof.
  intros k1 k2. apply (encodePrimaryKey_faithful k1 k2 2).
  - reflexivity.
  - reflexivity.
  - constructor; [exact I|constructor; [apply wf_stringb_spec; reflexivity|constructor]].
  - constructor; [split; [vm_compute; split; [split; [discriminate|reflexivity]|left; discriminate]|vm_compute; discriminate]|].
    constructor; [apply wf_stringb_spec; reflexivity|constructor].
Defined.

End MemoryKeys.
