(* ===== verification/ScanLayer.v ===== *)
(** * Memory tables: scans

    Models how a layer of a memory table answers a scan plan
    ([packages/quereus/src/vtab/memory/layer]: [scan-plan.ts] for the shape of
    a plan, [plan-filter.ts], [safe-iterate.ts] and [scan-layer.ts]).

    A generator is the list it yields.  As in [MemoryTable] a key is the list of
    its components, so [keyParts] is the identity and a component out of range
    is [undefined]. *)

From S2P Require Import Prelude Bytes Double Decimal NumberText Utf8 Json Comparison BTree VTab MemoryTable.
From Stdlib Require Import ZArith Lia.
From stdpp Require Import sorting.
From stdpp Require Import base tactics numbers sets gmap list.
#[local] Open Scope Z_scope.

Import Utf8 Json Comparison BTree VTab MemoryTable.

Module ScanLayer.

Section Model.
Context (resolver : jsstring -> CollationFunction).
Context {T : Type -> Type} `{!BTree T}.

Abbreviation value := SqlValue.
Abbreviation Row := (list value).
Abbreviation Key := (list value).
Abbreviation layer := (TransactionLayer (T := T)).

(** ** Plans *)

Inductive IndexConstraintOp : Type := GT | GE | LT | LE.

Definition op_eqb (a b : IndexConstraintOp) : bool :=
  match a, b with GT, GT | GE, GE | LT, LT | LE, LE => true | _, _ => false end.

Record ScanPlanRangeBound := mkBound { b_op : IndexConstraintOp; b_value : value }.

Record ScanPlanRange := mkRange { r_lowerBound : option ScanPlanRangeBound; r_upperBound : option ScanPlanRangeBound }.

Record ScanPlan := mkPlan {
  indexName : jsstring;
  descending : bool;
  equalityKey : option Key;
  equalityKeys : option (list Key);
  equalityPrefix : option (list value);
  equalityPrefixCollations : option (list jsstring);
  boundCollation : option jsstring;
  lowerBound : option ScanPlanRangeBound;
  upperBound : option ScanPlanRangeBound;
  ranges : option (list ScanPlanRange)
}.

Definition with_key (p : ScanPlan) (k : Key) : ScanPlan :=
  mkPlan (indexName p) (descending p) (Some k) None (equalityPrefix p) (equalityPrefixCollations p)
    (boundCollation p) (lowerBound p) (upperBound p) (ranges p).

Definition with_range (p : ScanPlan) (r : ScanPlanRange) : ScanPlan :=
  mkPlan (indexName p) (descending p) (equalityKey p) (equalityKeys p) (equalityPrefix p) (equalityPrefixCollations p)
    (boundCollation p) (r_lowerBound r) (r_upperBound r) None.

(** ** [plan-filter.ts] *)

Record ResolvedScanComparators := mkComparators {
  sc_equalityPrefix : list (value -> value -> Z);
  sc_bound : value -> value -> Z
}.

Definition is_primary (name : jsstring) : bool := bool_decide (name = js "primary").

(** The table columns of the scanned structure. *)
Definition resolveIndexColumns (name : jsstring) (schema : TableSchema) : option (list nat) :=
  if is_primary name then Some (map p_index (t_primaryKeyDefinition schema))
  else (fun ix => map ic_index (ix_columns ix)) <$> find_index schema name.

Definition comparatorAt (schema : TableSchema) (indexColumns : option (list nat)) (position : nat)
    (collationName : option jsstring) : value -> value -> Z :=
  let collationFunc := match collationName with Some n => resolver n | None => BINARY_COLLATION end in
  match indexColumns ≫= fun cols => cols !! position ≫= fun i => t_columns schema !! i with
  | Some col => createTypedComparator (c_logicalType col) (Some collationFunc)
  | None => fun a b => compareSqlValuesFast a b collationFunc
  end.

Definition resolveScanComparators (plan : ScanPlan) (schema : TableSchema) : ResolvedScanComparators :=
  let indexColumns := resolveIndexColumns (indexName plan) schema in
  let prefix := default [] (equalityPrefix plan) in
  mkComparators
    (imap (fun i _ => comparatorAt schema indexColumns i (equalityPrefixCollations plan ≫= fun cs => cs !! i)) prefix)
    (comparatorAt schema indexColumns (length prefix) (boundCollation plan)).

Definition bound_is_null (b : option ScanPlanRangeBound) : bool :=
  match b with Some b => is_null (b_value b) | None => false end.

(** The prefix loop: each component against the plan's value. *)
Fixpoint prefix_matches (cs : list (value -> value -> Z)) (key : Key) (prefix : list value) : bool :=
  match cs, prefix with
  | c :: cs', v :: prefix' =>
    if negb (c (cell key 0) v =? 0) then false else prefix_matches cs' (tail key) prefix'
  | _, _ => true
  end.

Definition within_bounds (plan : ScanPlan) (bound : value -> value -> Z) (component : option value) : bool :=
  match component with
  | None => true
  | Some v =>
    if is_null v && (bool_decide (is_Some (lowerBound plan)) || bool_decide (is_Some (upperBound plan))) then false
    else if is_null v then true
    else
      match lowerBound plan with
      | Some b => let cmp := bound v (b_value b) in negb ((cmp <? 0) || ((cmp =? 0) && op_eqb (b_op b) GT))
      | None => true
      end &&
      match upperBound plan with
      | Some b => let cmp := bound v (b_value b) in negb ((0 <? cmp) || ((cmp =? 0) && op_eqb (b_op b) LT))
      | None => true
      end
  end.

Definition planAppliesToKey (plan : ScanPlan) (key : Key) (keyComparator : Key -> Key -> Z)
    (comparators : ResolvedScanComparators) : bool :=
  match equalityKey plan with
  | Some k => keyComparator key k =? 0
  | None =>
    if bound_is_null (lowerBound plan) || bound_is_null (upperBound plan) then false
    else
      match equalityPrefix plan with
      | Some prefix =>
        if existsb is_null prefix then false
        else if negb (prefix_matches (sc_equalityPrefix comparators) key prefix) then false
        else within_bounds plan (sc_bound comparators) (key !! length prefix)
      | None => within_bounds plan (sc_bound comparators) (key !! 0%nat)
      end
  end.

(** ** [safe-iterate.ts] *)

(** The entries from the start key on, in the direction of the walk: past the
    end of the tree, [moveNearest] steps back onto the nearest entry. *)
Definition safeIterate {V K : Type} (keyOf : V -> K) (cmp : K -> K -> Z) (tree : T V) (isAscending : bool)
    (startKey : option K) : list V :=
  match startKey with
  | None => if isAscending then bt_ascending tree else reverse (bt_ascending tree)
  | Some k =>
    let '(before, on, after) := bt_find keyOf cmp tree k in
    match on with
    | Some v => if isAscending then v :: after else v :: reverse before
    | None =>
      if isAscending then
        match after with [] => option_list (head (reverse before)) | _ => after end
      else
        match reverse before with [] => option_list (head after) | rev => rev end
    end
  end.

(** ** [scan-layer.ts] *)

Definition seekKeyHasNull (key : Key) : bool := existsb is_null key.

Definition orderSeekKeys (keys : list Key) (plan : ScanPlan) (l : layer) : list Key :=
  let compare :=
    if is_primary (indexName plan) then Some (pk_compare resolver (l_schema l))
    else (fun mi => compareKeys resolver (t_columns (l_schema l)) (mi_spec mi)) <$>
           secondaryIndexes l !! indexName plan in
  match compare with
  | None => keys
  | Some compare => if descending plan then js_sort (fun a b => - compare a b) keys else js_sort compare keys
  end.

Definition seekStartKey (plan : ScanPlan) (seekBound : option ScanPlanRangeBound) : option Key :=
  let parts := default [] (equalityPrefix plan) ++ match seekBound with Some b => [b_value b] | None => [] end in
  match parts with [] => None | _ => Some parts end.

Definition pastTerminatingBound (component : option value) (plan : ScanPlan) (seekFromUpper : bool)
    (comparators : ResolvedScanComparators) : bool :=
  match component with
  | None => false
  | Some v =>
    match (if seekFromUpper then None else upperBound plan) with
    | Some b => let cmp := sc_bound comparators v (b_value b) in (0 <? cmp) || ((cmp =? 0) && op_eqb (b_op b) LT)
    | None =>
      match (if seekFromUpper then lowerBound plan else None) with
      | Some b => let cmp := sc_bound comparators v (b_value b) in (cmp <? 0) || ((cmp =? 0) && op_eqb (b_op b) GT)
      | None => false
      end
    end
  end.

Definition walkIsExhausted (key : Key) (plan : ScanPlan) (seekFromUpper : bool)
    (comparators : ResolvedScanComparators) : bool :=
  match equalityPrefix plan with
  | None => pastTerminatingBound (key !! 0%nat) plan seekFromUpper comparators
  | Some prefix =>
    negb (prefix_matches (sc_equalityPrefix comparators) key prefix)
    || pastTerminatingBound (key !! length prefix) plan seekFromUpper comparators
  end.

(** The walk over the iterated entries, until it is exhausted. *)
Fixpoint walk {V : Type} (keyOf : V -> Key) (plan : ScanPlan) (keyComparator : Key -> Key -> Z)
    (seekFromUpper : bool) (comparators : ResolvedScanComparators) (entries : list V) : list V :=
  match entries with
  | [] => []
  | e :: entries' =>
    if negb (planAppliesToKey plan (keyOf e) keyComparator comparators) then
      if walkIsExhausted (keyOf e) plan seekFromUpper comparators then []
      else walk keyOf plan keyComparator seekFromUpper comparators entries'
    else e :: walk keyOf plan keyComparator seekFromUpper comparators entries'
  end.

(** One seek or one ordered walk of the scanned structure. *)
Definition scan_one (l : layer) (plan : ScanPlan) (comparators : ResolvedScanComparators) : res (list Row) :=
  if existsb is_null (default [] (equalityPrefix plan)) then Ok []
  else
    let schema := l_schema l in
    let primaryKeyComparator := pk_compare resolver schema in
    let boundPosition := length (default [] (equalityPrefix plan)) in
    let isAscending := negb (descending plan) in
    if is_primary (indexName plan) then
      match equalityKey plan with
      | Some k =>
        if seekKeyHasNull k then Ok []
        else Ok (option_list (bt_get (pk_of schema) primaryKeyComparator (primaryModifications l) k))
      | None =>
        let isDescBoundColumn :=
          match t_primaryKeyDefinition schema !! boundPosition with Some d => p_desc d | None => false end in
        let seekFromUpper := Bool.eqb isAscending isDescBoundColumn in
        let seekBound := if seekFromUpper then upperBound plan else lowerBound plan in
        Ok (walk (pk_of schema) plan primaryKeyComparator seekFromUpper comparators
              (safeIterate (pk_of schema) primaryKeyComparator (primaryModifications l) isAscending
                 (seekStartKey plan seekBound)))
      end
    else
      match secondaryIndexes l !! indexName plan with
      | None => Throw EInternal
      | Some mi =>
        let cmp := compareKeys resolver (t_columns schema) (mi_spec mi) in
        let rows_of (entry : MemoryIndexEntry) :=
          omap (fun pk => bt_get (pk_of schema) primaryKeyComparator (primaryModifications l) pk)
            (getSortedPrimaryKeys resolver schema entry) in
        match equalityKey plan with
        | Some k =>
          if seekKeyHasNull k then Ok []
          else Ok (match bt_get indexKey cmp (mi_data mi) k with Some entry => rows_of entry | None => [] end)
        | None =>
          let isDescBoundColumn :=
            match find_index schema (indexName plan) ≫= fun ix => ix_columns ix !! boundPosition with
            | Some c => ic_desc c
            | None => false
            end in
          let seekFromUpper := Bool.eqb isAscending isDescBoundColumn in
          let seekBound := if seekFromUpper then upperBound plan else lowerBound plan in
          Ok (concat (map rows_of (walk indexKey plan primaryKeyComparator seekFromUpper comparators
                (safeIterate indexKey cmp (mi_data mi) isAscending (seekStartKey plan seekBound)))))
        end
      end.

(** The multi-range loop. *)
Definition scan_ranges (l : layer) (plan : ScanPlan) (comparators : ResolvedScanComparators) : res (list Row) :=
  match ranges plan with
  | Some ((_ :: _) as rs) =>
    let* parts := res_map (fun r => scan_one l (with_range plan r) comparators) rs in
    Ok (concat parts)
  | _ => scan_one l plan comparators
  end.

(** Rows not yielded by an earlier seek. *)
Fixpoint take_unseen (schema : TableSchema) (rows : list Row) (seen : gset jsstring)
    : res (list Row * gset jsstring) :=
  match rows with
  | [] => Ok ([], seen)
  | row :: rows' =>
    let* pk := extractFromRow schema row in
    let encoded := pk_encode schema pk in
    if bool_decide (encoded ∈ seen) then take_unseen schema rows' seen
    else
      let* r := take_unseen schema rows' ({[ encoded ]} ∪ seen) in
      Ok (row :: r.1, r.2)
  end.

(** The multi-seek loop. *)
Fixpoint seek_loop (l : layer) (plan : ScanPlan) (comparators : ResolvedScanComparators) (keys : list Key)
    (seen : gset jsstring) : res (list Row) :=
  match keys with
  | [] => Ok []
  | key :: keys' =>
    if seekKeyHasNull key then seek_loop l plan comparators keys' seen
    else
      let* rows := scan_ranges l (with_key plan key) comparators in
      let* fresh := take_unseen (l_schema l) rows seen in
      let* rest := seek_loop l plan comparators keys' fresh.2 in
      Ok (fresh.1 ++ rest)
  end.

Definition scanLayer (l : layer) (plan : ScanPlan) : res (list Row) :=
  let comparators := resolveScanComparators plan (l_schema l) in
  match equalityKeys plan with
  | Some ((_ :: _) as keys) => seek_loop l plan comparators (orderSeekKeys keys plan l) ∅
  | _ => scan_ranges l plan comparators
  end.

End Model.
End ScanLayer.
