(* ===== verification/MemoryRefine.v ===== *)
(** * Memory tables: refinement of a plain table

    [Plain] is a table as a list of rows in key order, with UNIQUE constraints
    checked by looking at every row: no indexes, no logs.  The mutations of
    [MemoryTable] are proved to do to their primary tree exactly what the plain
    table does, with the same results, and to keep every secondary index equal
    to the rows it should list.  [Builtins] gives the orders of the built-in
    types under any lawful collations, and [Users] is a table with a NOCASE
    primary key. *)

From S2P Require Import Prelude Bytes Double Decimal NumberText Utf8 Json Comparison KeySerializer BTree VTab Types TypedOrder MemoryTable MemoryKeys.
From Stdlib Require Import ZArith Lia.
From stdpp Require Import sorting.
From stdpp Require Import base tactics numbers sets gmap list.
#[local] Open Scope Z_scope.

Import Utf8 Json Comparison KeySerializer BTree VTab MemoryTable.

(** ** The plain table *)

Module Plain.

Section Plain.
Context (resolver : jsstring -> CollationFunction).
Context (name : jsstring) (schema : TableSchema).

Abbreviation value := SqlValue.
Abbreviation Row := (list value).
Abbreviation Key := (list value).

Definition key_of : Row -> Key := pk_of schema.
Definition key_compare : Key -> Key -> Z := pk_compare resolver schema.

Definition get (rows : list Row) (k : Key) : option Row := SortedList.get key_of key_compare rows k.
Definition put (rows : list Row) (r : Row) : list Row := SortedList.upsert key_of key_compare rows r.
Definition del (rows : list Row) (k : Key) : list Row := SortedList.remove key_of key_compare rows k.

Definition enforcement_names (uc : UniqueConstraintSchema) : list jsstring :=
  map (default (js "BINARY")) (uniqueEnforcementCollations schema uc).

Definition uc_compares (uc : UniqueConstraintSchema) : list (value -> value -> Z) :=
  comparators_for resolver schema uc (enforcement_names uc).

Definition in_scope (uc : UniqueConstraintSchema) (row : Row) : bool :=
  match uc_predicate uc with
  | None => true
  | Some p => bool_decide (evaluate p row = Some true)
  end.

(** Two rows a UNIQUE constraint does not allow side by side. *)
Definition conflicts (uc : UniqueConstraintSchema) (newRow row : Row) : bool :=
  negb (existsb (fun i => is_null (cell newRow i)) (uc_columns uc)) &&
  in_scope uc newRow && in_scope uc row && all_match (uc_compares uc) (uc_columns uc) newRow row.

Definition unique_message (uc : UniqueConstraintSchema) : jsstring :=
  js "UNIQUE constraint failed: " ++ name ++ js " (" ++
  join_names (map (fun i => match t_columns schema !! i with Some c => c_name c | None => [] end)
                (uc_columns uc)) ++ js ")".

Definition action (onConflict perConstraint : option ConflictResolution) : ConflictResolution :=
  default ABORT (match onConflict with Some a => Some a | None => perConstraint end).

(** The first row, outside the keys of [self], that conflicts with [newRow]. *)
Definition find_conflict (uc : UniqueConstraintSchema) (self : UniqueCheckSelf) (newRow : Row) (rows : list Row)
    : option Row :=
  List.find (fun r => negb (isSelfKey resolver schema self (key_of r)) && conflicts uc newRow r) rows.

(** What a conflict with [r] does under [effective]. *)
Definition resolve (uc : UniqueConstraintSchema) (rows : list Row) (r : Row) (effective : ConflictResolution)
    (evicted : list Row) : option UpdateResult * list Row * list Row :=
  match effective with
  | IGNORE => (Some (UOk None None None), rows, evicted)
  | REPLACE => (None, del rows (key_of r), evicted ++ [r])
  | a => (Some (UConstraint CUnique (unique_message uc) (Some r) a), rows, evicted)
  end.

Definition check_one (uc : UniqueConstraintSchema) (rows : list Row) (newRow : Row) (self : UniqueCheckSelf)
    (onConflict : option ConflictResolution) (evicted : list Row)
    : option UpdateResult * list Row * list Row :=
  match find_conflict uc self newRow rows with
  | None => (None, rows, evicted)
  | Some r => resolve uc rows r (action onConflict (uc_defaultConflict uc)) evicted
  end.

Fixpoint check_all (ucs : list UniqueConstraintSchema) (rows : list Row) (newRow : Row) (self : UniqueCheckSelf)
    (onConflict : option ConflictResolution) (evicted : list Row)
    : option UpdateResult * list Row * list Row :=
  match ucs with
  | [] => (None, rows, evicted)
  | uc :: ucs' =>
    match check_one uc rows newRow self onConflict evicted with
    | (Some result, rows', evicted') => (Some result, rows', evicted')
    | (None, rows', evicted') => check_all ucs' rows' newRow self onConflict evicted'
    end
  end.

(** What a primary-key collision with [existing] does; [None] goes on. *)
Definition pk_outcome (onConflict : option ConflictResolution) (message : jsstring) (existing : option Row)
    : option UpdateResult :=
  match existing with
  | None => None
  | Some e =>
    match action onConflict (resolvePkDefaultConflict schema) with
    | REPLACE => None
    | IGNORE => Some (UOk None None None)
    | a => Some (UConstraint CUnique message (Some e) a)
    end
  end.

Definition insert (rows : list Row) (r : Row) (onConflict : option ConflictResolution)
    : list Row * UpdateResult :=
  let existing := get rows (key_of r) in
  match pk_outcome onConflict (js "UNIQUE constraint failed: " ++ name ++ js " PK.") existing with
  | Some outcome => (rows, outcome)
  | None =>
    match check_all (t_uniqueConstraints schema) rows r (mkSelf (key_of r) None) onConflict [] with
    | (Some result, rows', _) => (rows', result)
    | (None, rows', evicted) => (put rows' r, UOk (Some r) existing (evicted_field evicted))
    end
  end.

Definition update (rows : list Row) (k : Key) (r : Row) (onConflict : option ConflictResolution)
    : list Row * UpdateResult :=
  match get rows k with
  | None => (rows, UOk None None None)
  | Some _ =>
    if key_compare k (key_of r) =? 0 then
      match check_all (t_uniqueConstraints schema) rows r (mkSelf k None) onConflict [] with
      | (Some result, rows', _) => (rows', result)
      | (None, rows', evicted) => (put rows' r, UOk (Some r) None (evicted_field evicted))
      end
    else
      let existing := get rows (key_of r) in
      match pk_outcome onConflict (js "UNIQUE constraint failed on new PK for " ++ name ++ js ".") existing with
      | Some outcome => (rows, outcome)
      | None =>
        match check_all (t_uniqueConstraints schema) rows r (mkSelf (key_of r) (Some (A := BTreeKey) k)) onConflict [] with
        | (Some result, rows', _) => (rows', result)
        | (None, rows', evicted) => (put (del rows' k) r, UOk (Some r) existing (evicted_field evicted))
        end
      end
  end.

Definition delete (rows : list Row) (k : Key) : list Row * UpdateResult :=
  match get rows k with
  | None => (rows, UOk None None None)
  | Some old => (del rows k, UOk (Some old) None None)
  end.

Definition mutate (coerce : Row -> res Row) (rows : list Row) (args : UpdateArgs)
    : res (list Row * UpdateResult) :=
  let row vals := if preCoerced args then Ok vals else coerce vals in
  let key vals := buildPrimaryKeyFromValues vals (t_primaryKeyDefinition schema) in
  match operation args, values args, oldKeyValues args with
  | RInsert, Some vals, _ => let* r := row vals in Ok (insert rows r (onConflict args))
  | RUpdate, Some vals, Some old => let* r := row vals in let* k := key old in Ok (update rows k r (onConflict args))
  | RDelete, _, Some old => let* k := key old in Ok (delete rows k)
  | _, _, _ => Throw EMisuse
  end.

(** No two rows conflict. *)
Definition uniques_hold (rows : list Row) : Prop :=
  forall uc r1 r2, uc ∈ t_uniqueConstraints schema -> r1 ∈ rows -> r2 ∈ rows -> conflicts uc r1 r2 = true -> r1 = r2.

End Plain.
End Plain.

(** ** Orders of keys *)

Module Orders.

Section Keys.
Abbreviation value := SqlValue.
Context (value_ok : value -> Prop).

Definition key_ok (n : nat) (k : list value) : Prop := length k = n /\ Forall value_ok k.

Definition directed (desc : bool) (c : comparison) : comparison := if desc then CompOpp c else c.

#[export] Instance directed_laws {A} (c : A -> A -> comparison) desc :
  CmpLaws c -> CmpLaws (fun x y => directed desc (c x y)).
Proof.
  intros Hc. destruct desc; cbn; [|exact Hc]. split.
  - intros x y. by rewrite (cmp_opp c).
  - intros o x y z H1 H2. rewrite <- (CompOpp_involutive o) in *.
    apply (f_equal CompOpp) in H1, H2. rewrite !CompOpp_involutive in H1, H2. f_equal.
    by apply (cmp_trans c _ x y z).
  - intros x y z H. f_equal. apply (cmp_eq_l c). by destruct (c x y).
Qed.

(** The order of keys by columns: a short key is padded with NULL. *)
Fixpoint key_cmp (cs : list ((value -> value -> comparison) * bool)) (a b : list value) : comparison :=
  match cs with
  | [] => Eq
  | (c, desc) :: cs' =>
    cmp_then (directed desc (c (default VNull (head a)) (default VNull (head b)))) (key_cmp cs' (tail a) (tail b))
  end.

Lemma key_cmp_laws cs : Forall (fun p => CmpLaws p.1) cs -> CmpLaws (key_cmp cs).
Proof.
  induction 1 as [|[c desc] cs Hc Hcs IH]; cbn; [by split|]. cbn in Hc.
  apply cmp_then_laws; [|exact (cmp_on_laws (key_cmp cs) tail)].
  exact (cmp_on_laws (fun x y => directed desc (c x y)) (fun r => default VNull (head r))).
Qed.

Definition column_ordered (p : (value -> value -> Z) * bool) (q : (value -> value -> comparison) * bool) : Prop :=
  ordered value_ok p.1 q.1 /\ p.2 = q.2.

Lemma sgn_opp z : sgn (- z) = CompOpp (sgn z).
Proof. unfold sgn. rewrite <- Z.opp_0 at 1. rewrite Z.compare_opp. apply Z.compare_antisym. Qed.

Lemma composite_loop_spec zs cs a b la lb n :
  Forall2 column_ordered zs cs -> key_ok n a -> key_ok n b -> n = length zs ->
  sgn (composite_loop zs a b la lb) = key_cmp cs a b.
Proof.
  intros H. revert a b n. induction H as [|[z d] [c d'] zs cs [[Hc Ho] [= ->]] H IH]; intros a b n [La Wa] [Lb Wb] Hn;
    [done|].
  destruct Wa as [|x a Hx Wa], Wb as [|y b Hy Wb]; cbn in *; try lia.
  rewrite <- (Ho x y Hx Hy). destruct (Z.eqb_spec (z x y) 0) as [E|E]; cbn.
  - rewrite E. cbn. destruct d'; cbn; apply (IH a b (length zs)); (split; [lia|done]) || done.
  - assert (Hne : sgn (z x y) <> Eq) by (by rewrite sgn_eq).
    destruct d'; cbn; rewrite ?sgn_opp; by destruct (sgn (z x y)).
Qed.

Lemma compare_columns_spec zs cs a b :
  Forall2 column_ordered zs cs -> key_ok (length zs) a -> key_ok (length zs) b ->
  sgn (compare_columns zs a b) = key_cmp cs a b.
Proof.
  intros H Ha Hb. destruct H as [|[z d] [c d'] zs cs Hp H]; [done|].
  destruct H as [|p q zs cs Hq H].
  - cbn [compare_columns]. rewrite <- (composite_loop_spec [(z, d)] [(c, d')] a b 0 0 1); [|constructor; [done|constructor]|done..].
    destruct Ha as [La _], Hb as [Lb _]. destruct a as [|x [|]], b as [|y [|]]; cbn in *; try lia.
    unfold compare_single. cbn. destruct (Z.eqb_spec (z x y) 0) as [->|E]; [done|]. cbn.
    destruct d; f_equal; lia.
  - cbn [compare_columns]. apply (composite_loop_spec _ _ a b _ _ (length ((z, d) :: p :: zs))); [|done..].
    constructor; [done|]. by constructor.
Qed.

Lemma columns_ordered zs cs :
  Forall2 column_ordered zs cs -> ordered (key_ok (length zs)) (compare_columns zs) (key_cmp cs).
Proof.
  intros H. split; [|intros x y; by apply compare_columns_spec].
  apply key_cmp_laws. clear -H. induction H as [|p q zs cs [[Hc _] _] H IH]; by constructor.
Qed.

(** Equality of keys, column by column. *)
Lemma key_cmp_eq cs a b n :
  length cs = n -> length a = n -> length b = n ->
  key_cmp cs a b = Eq <-> Forall (fun p => p.1.1 p.2.1 p.2.2 = Eq) (zip cs (zip a b)).
Proof.
  revert a b n. induction cs as [|[c d] cs IH]; intros [|x a] [|y b] [|n]; cbn; try done; intros Hc Ha Hb.
  rewrite Forall_cons. cbn. rewrite <- (IH a b n) by lia. destruct d; cbn; destruct (c x y); cbn; naive_solver.
Qed.

End Keys.
End Orders.

(** ** Index maintenance *)

Module Refine.
Import Orders.

Section Refine.
Context (resolver : jsstring -> CollationFunction) (normalizeCollationName : jsstring -> jsstring).
Context {T : Type -> Type} `{!BTree T} `{!BTreeLaws T}.

Abbreviation value := SqlValue.
Abbreviation Row := (list value).
Abbreviation Key := (list value).
Abbreviation manager := MemoryTableManager.
Abbreviation layer := (TransactionLayer (T := T)).

(** The values the comparators order, those column [i] may hold, and the order
    of column [i] under a collation. *)
Context (value_ok : value -> Prop) (column_ok : nat -> value -> Prop).
Context (vcol : nat -> option CollationFunction -> value -> value -> comparison).

Definition column_order (i : nat) (collation : option jsstring) : value -> value -> comparison :=
  vcol i (resolver <$> collation).

Section Schema.
Context (schema : TableSchema).

Abbreviation width := (length (t_columns schema)).

Definition row_ok (r : Row) : Prop := length r = width /\ Forall value_ok r /\ forall i, column_ok i (cell r i).

Abbreviation arity := (length (t_primaryKeyDefinition schema)).

Definition pk_order : Key -> Key -> comparison :=
  key_cmp (map (fun d => (column_order (p_index d) (p_collation d), p_desc d)) (t_primaryKeyDefinition schema)).

Definition ix_order (ix : IndexSchema) : Key -> Key -> comparison :=
  key_cmp (map (fun c => (column_order (ic_index c) (ic_collation c), ic_desc c)) (ix_columns ix)).

Abbreviation pk_ok := (key_ok value_ok arity).
Abbreviation ix_ok ix := (key_ok value_ok (length (ix_columns ix))).

Definition index_key (ix : IndexSchema) (r : Row) : Key := map (fun c => cell r (ic_index c)) (ix_columns ix).

(** An index that can answer for a constraint. *)
Definition covers (uc : UniqueConstraintSchema) (ix : IndexSchema) : Prop :=
  map ic_index (ix_columns ix) = uc_columns uc /\
  map normalizeCollationName (index_collations schema ix uc) =
  map normalizeCollationName (Plain.enforcement_names schema uc) /\
  ix_predicate ix = uc_predicate uc.

(** The codes of two primary keys are equal.  Keys of one code compare equal;
    under NOCASE, RTRIM or a type with its own order, keys that compare equal
    can have different codes. *)
Abbreviation same p q := (pk_encode schema p = pk_encode schema q).

(** Columns exist, index names are distinct, every comparator is an order, and
    the encoding of primary keys tells apart what the comparators tell apart. *)
Record schema_ok : Prop := {
  ok_null : value_ok VNull;
  ok_pk_bound : Forall (fun d => (p_index d < width)%nat) (t_primaryKeyDefinition schema);
  ok_ix_bound : Forall (fun ix => Forall (fun c => (ic_index c < width)%nat) (ix_columns ix)) (t_indexes schema);
  ok_ix_names : NoDup (map ix_name (t_indexes schema));
  ok_uc_bound : Forall (fun uc => Forall (fun i => (i < width)%nat) (uc_columns uc)) (t_uniqueConstraints schema);
  ok_columns : forall i collation, (i < width)%nat ->
    ordered value_ok (typed resolver (t_columns schema) i collation) (column_order i collation);
  ok_code : forall k1 k2, pk_ok k1 -> pk_ok k2 -> same k1 k2 -> pk_order k1 k2 = Eq
}.

Context (Hschema : schema_ok).

Lemma pk_ordered : ordered pk_ok (pk_compare resolver schema) pk_order.
Proof.
  unfold pk_compare, pk_comparators.
  pose proof (columns_ordered value_ok
    (map (fun d => (typed resolver (t_columns schema) (p_index d) (p_collation d), p_desc d))
       (t_primaryKeyDefinition schema))
    (map (fun d => (column_order (p_index d) (p_collation d), p_desc d)) (t_primaryKeyDefinition schema))) as H.
  rewrite length_map in H. apply H. clear H. pose proof (ok_pk_bound Hschema) as Hb.
  induction Hb as [|d ds Hd Hb IH]; cbn; constructor; [|done]. split; [|done]. by apply (ok_columns Hschema).
Qed.

Lemma ix_ordered ix :
  ix ∈ t_indexes schema ->
  ordered (ix_ok ix) (compareKeys resolver (t_columns schema) ix) (ix_order ix).
Proof.
  intros Hix. unfold compareKeys, index_comparators.
  pose proof (columns_ordered value_ok
    (map (fun c => (typed resolver (t_columns schema) (ic_index c) (ic_collation c), ic_desc c))
       (ix_columns ix))
    (map (fun c => (column_order (ic_index c) (ic_collation c), ic_desc c)) (ix_columns ix))) as H.
  rewrite length_map in H. apply H. clear H. pose proof (ok_ix_bound Hschema) as Hb.
  eapply Forall_forall in Hb; [|exact Hix]. cbn in Hb.
  induction Hb as [|d ds Hd Hb IH]; cbn; constructor; [|done]. split; [|done]. by apply (ok_columns Hschema).
Qed.

Lemma pk_laws : CmpLaws pk_order.
Proof. exact (proj1 pk_ordered). Qed.
Lemma ix_laws ix : ix ∈ t_indexes schema -> CmpLaws (ix_order ix).
Proof. intros H. exact (proj1 (ix_ordered ix H)). Qed.

Lemma cell_ok r i : row_ok r -> value_ok (cell r i).
Proof.
  intros (_ & Hr & _). unfold cell. destruct (r !! i) as [v|] eqn:E; cbn; [|apply (ok_null Hschema)].
  eapply Forall_lookup in Hr; eauto.
Qed.

Lemma cell_column r i : row_ok r -> column_ok i (cell r i).
Proof. by intros (_ & _ & ?). Qed.

Lemma cells_ok {A} (f : A -> nat) (l : list A) r : row_ok r -> key_ok value_ok (length l) (map (fun x => cell r (f x)) l).
Proof.
  intros Hr. split; [by rewrite length_map|]. apply Forall_map, Forall_true. intros x. cbn. by apply cell_ok.
Qed.

Lemma pk_of_ok r : row_ok r -> pk_ok (pk_of schema r).
Proof. apply cells_ok. Qed.

Lemma index_key_ok ix r : row_ok r -> ix_ok ix (index_key ix r).
Proof. apply cells_ok. Qed.

Lemma extract_bound {A} (f : A -> nat) (l : list A) r :
  row_ok r -> Forall (fun x => (f x < width)%nat) l -> extract (map f l) r = Ok (map (fun x => cell r (f x)) l).
Proof.
  intros [Hl _] Hb. unfold extract. induction Hb as [|x l Hx Hb IH]; [done|]. cbn. unfold cell at 1.
  destruct (r !! f x) eqn:E; [|apply lookup_ge_None in E; lia]. cbn. by rewrite IH.
Qed.

Lemma extractFromRow_ok r : row_ok r -> extractFromRow schema r = Ok (pk_of schema r).
Proof. intros Hr. apply extract_bound; [done|]. apply (ok_pk_bound Hschema). Qed.

Lemma keyFromRow_ok ix r : ix ∈ t_indexes schema -> row_ok r -> keyFromRow ix r = Ok (index_key ix r).
Proof.
  intros Hix Hr. apply extract_bound; [done|]. pose proof (ok_ix_bound Hschema) as Hb. by eapply Forall_forall in Hb.
Qed.

(** *** Entries of an index *)

Definition entry_ok (e : MemoryIndexEntry) : Prop :=
  NoDup (map fst (primaryKeys e)) /\
  Forall (fun q => q.1 = pk_encode schema q.2 /\ pk_ok q.2) (primaryKeys e) /\
  primaryKeys e <> [].

(** The index lists primary key [p], as it is spelled, under key [k]. *)
Definition lists (ix : IndexSchema) (data : list MemoryIndexEntry) (k p : Key) : Prop :=
  exists e q, e ∈ data /\ ix_order ix (indexKey e) k = Eq /\ q ∈ map snd (primaryKeys e) /\ same q p.

Definition data_ok (ix : IndexSchema) (data : list MemoryIndexEntry) : Prop :=
  content_ok indexKey (ix_ok ix) (ix_order ix) data /\ Forall entry_ok data.

Definition belongs (ix : IndexSchema) (rows : list Row) (k p : Key) : Prop :=
  exists r, r ∈ rows /\ rowMatchesPredicate ix r = true /\ ix_order ix (index_key ix r) k = Eq /\
    same (pk_of schema r) p.

Definition index_ok (ix : IndexSchema) (rows : list Row) (data : list MemoryIndexEntry) : Prop :=
  data_ok ix data /\ forall k p, ix_ok ix k -> pk_ok p -> lists ix data k p <-> belongs ix rows k p.

Lemma map_set_keys enc (p : Key) ps :
  map fst (map_set enc p ps) = if bool_decide (enc ∈ map fst ps) then map fst ps else map fst ps ++ [enc].
Proof.
  induction ps as [|[e q] ps IH]; cbn [map_set map fst]; [by rewrite bool_decide_eq_false_2 by apply not_elem_of_nil|].
  destruct (decide (e = enc)) as [->|E].
  - rewrite (bool_decide_eq_true_2 (enc = enc)) by done. cbn. rewrite bool_decide_eq_true_2; [done|].
    apply list_elem_of_here.
  - rewrite (bool_decide_eq_false_2 (e = enc)) by done. cbn. rewrite IH. destruct (bool_decide (enc ∈ map fst ps)) eqn:Hb.
    + apply bool_decide_eq_true in Hb. rewrite bool_decide_eq_true_2; [done|]. by apply list_elem_of_further.
    + apply bool_decide_eq_false in Hb. rewrite bool_decide_eq_false_2; [done|].
      rewrite elem_of_cons. intros [->|?]; done.
Qed.

Lemma map_set_elem enc (p : Key) ps q :
  NoDup (map fst ps) -> q ∈ map_set enc p ps <-> q = (enc, p) \/ q ∈ ps /\ q.1 <> enc.
Proof.
  induction ps as [|[e r] ps IH]; cbn [map_set map fst]; intros Hn.
  - rewrite list_elem_of_singleton, elem_of_nil. naive_solver.
  - apply NoDup_cons in Hn as [Hni Hn]. case_bool_decide as E.
    + subst. rewrite !elem_of_cons. split.
      * intros [->|Hq]; [by left|]. right. split; [by right|]. intros <-. apply Hni.
        apply list_elem_of_fmap. by exists q.
      * intros [->|[[->|Hq] Hne]]; [by left|done|by right].
    + rewrite elem_of_cons, (IH Hn), elem_of_cons. split.
      * intros [->|[->|[Hq Hne]]]; [right; split; [by left|done]|by left|right; split; [by right|done]].
      * intros [->|[[->|Hq] Hne]]; [right; by left|by left|right; right; done].
Qed.

Lemma map_set_ok p e :
  entry_ok e -> pk_ok p ->
  entry_ok (mkEntry (indexKey e) (map_set (pk_encode schema p) p (primaryKeys e))).
Proof.
  intros (Hn & Hf & Hne) Hp. unfold entry_ok. cbn. split_and!.
  - rewrite map_set_keys. case_bool_decide as E; [done|]. apply NoDup_app. split_and!; [done| |apply NoDup_singleton].
    intros x Hx Hx'%list_elem_of_singleton. by subst.
  - apply Forall_forall. intros q Hq. apply map_set_elem in Hq as [->|[Hq _]]; [done| |done].
    by eapply Forall_forall in Hf.
  - destruct (primaryKeys e) as [|[e0 q0] ps]; [done|]. cbn. by case_bool_decide.
Qed.

(** Within one entry, setting or deleting the code of [p] acts on the keys of
    that code. *)
Lemma code_of q ps : Forall (fun q => q.1 = pk_encode schema q.2 /\ pk_ok q.2) ps -> q ∈ ps -> q.1 = pk_encode schema q.2.
Proof. intros Hf Hq. by eapply Forall_forall in Hf as [-> _]. Qed.

Lemma elem_of_snd {A B} (l : list (A * B)) (y : B) : y ∈ map snd l <-> exists q, q ∈ l /\ q.2 = y.
Proof. rewrite list_elem_of_fmap. naive_solver. Qed.

Lemma entry_set p e p' :
  entry_ok e ->
  (exists q, q ∈ map snd (map_set (pk_encode schema p) p (primaryKeys e)) /\ same q p') <->
  (exists q, q ∈ map snd (primaryKeys e) /\ same q p') \/ same p p'.
Proof.
  intros (Hn & Hf & Hne). setoid_rewrite elem_of_snd. split.
  - intros (q & (x & Hx & <-) & E). apply map_set_elem in Hx as [->|[Hx _]]; [by right|left; eauto|done].
  - intros [(q & (x & Hx & <-) & E)|E].
    + destruct (decide (x.1 = pk_encode schema p)) as [Ex|Ex].
      * exists p. split; [eexists; split; [apply map_set_elem; [done|by left]|done]|].
        by rewrite <- Ex, (code_of x _ Hf Hx).
      * exists x.2. split; [eexists; split; [apply map_set_elem; [done|by right]|done]|done].
    + exists p. split; [eexists; split; [apply map_set_elem; [done|by left]|done]|done].
Qed.

Lemma entry_delete p e p' :
  entry_ok e ->
  (exists q, q ∈ map snd (map_delete (pk_encode schema p) (primaryKeys e)) /\ same q p') <->
  (exists q, q ∈ map snd (primaryKeys e) /\ same q p') /\ ~ same p p'.
Proof.
  intros (Hn & Hf & Hne). setoid_rewrite elem_of_snd. unfold map_delete. setoid_rewrite list_elem_of_filter. split.
  - intros (q & (x & [Hne' Hx] & <-) & E). split; [eauto|]. intros Ep. apply Hne'. rewrite (code_of x _ Hf Hx). congruence.
  - intros ((q & (x & Hx & <-) & E) & Hne'). exists x.2. split; [|done]. exists x. split; [|done]. split; [|done].
    intros Ex. apply Hne'. by rewrite <- Ex, (code_of x _ Hf Hx).
Qed.

(** *** Adding and removing one key *)

Abbreviation data_of mi := (bt_ascending (mi_data (T := T) mi)).
Abbreviation add := (addEntry resolver schema (T := T)).
Abbreviation rem := (removeEntry resolver schema (T := T)).

(** The keys listed at the entry found for [k], and that none is when there
    is no entry. *)
Lemma lists_at ix data e k k' p :
  ix ∈ t_indexes schema -> data_ok ix data -> e ∈ data -> ix_order ix (indexKey e) k = Eq -> ix_order ix k k' = Eq ->
  lists ix data k' p <-> exists q, q ∈ map snd (primaryKeys e) /\ same q p.
Proof.
  intros Hix [Hc _] Hin Hat Ek. pose proof (ix_laws ix Hix).
  assert (He : ix_order ix (indexKey e) k' = Eq) by (by rewrite (cmp_eq_l (ix_order ix) _ _ k' Hat)).
  split.
  - intros (w & q & Hwin & Ew & Hq & Ep). assert (w = e) as ->; [|eauto].
    by apply (content_at_unique indexKey (ix_ok ix) (ix_order ix) data k').
  - intros (q & Hq & Ep). by exists e, q.
Qed.

Lemma entry_found ix mi k e :
  ix ∈ t_indexes schema -> data_ok ix (data_of mi) -> ix_ok ix k ->
  bt_get indexKey (compareKeys resolver (t_columns schema) ix) (mi_data mi) k = Some e ->
  e ∈ data_of mi /\ ix_order ix (indexKey e) k = Eq /\ entry_ok e /\ ix_ok ix (indexKey e).
Proof.
  intros Hix [Hc He] Hk Eg.
  apply (bt_get_spec _ _ _ (ix_ok ix) _ (ix_order ix)) in Eg as [Hin Hat]; [|by apply ix_ordered|done..].
  split_and!; [done|done|by eapply Forall_forall in He|]. destruct Hc as [Hd _]. by eapply Forall_forall in Hd.
Qed.

Lemma entry_missing ix mi k k' p :
  ix ∈ t_indexes schema -> data_ok ix (data_of mi) -> ix_ok ix k ->
  bt_get indexKey (compareKeys resolver (t_columns schema) ix) (mi_data mi) k = None ->
  ix_order ix k k' = Eq -> ~ lists ix (data_of mi) k' p.
Proof.
  intros Hix [Hc He] Hk Eg Ek (w & q & Hwin & Ew & _). pose proof (ix_laws ix Hix).
  enough (Hg : bt_get indexKey (compareKeys resolver (t_columns schema) ix) (mi_data mi) k = Some w)
    by congruence.
  apply (bt_get_spec _ _ _ (ix_ok ix) _ (ix_order ix)); [by apply ix_ordered|done|done|]. split; [done|].
  unfold at_key. rewrite <- Ew. by apply (cmp_eq_r (ix_order ix)).
Qed.

(** Storing an entry, and dropping one. *)
Lemma data_put ix (t : T MemoryIndexEntry) e :
  ix ∈ t_indexes schema -> data_ok ix (bt_ascending t) -> ix_ok ix (indexKey e) -> entry_ok e ->
  data_ok ix (bt_ascending (bt_upsert indexKey (compareKeys resolver (t_columns schema) ix) t e)) /\
  forall k p,
  lists ix (bt_ascending (bt_upsert indexKey (compareKeys resolver (t_columns schema) ix) t e)) k p <->
  (ix_order ix (indexKey e) k = Eq /\ (exists q, q ∈ map snd (primaryKeys e) /\ same q p)) \/
  (ix_order ix (indexKey e) k <> Eq /\ lists ix (bt_ascending t) k p).
Proof.
  intros Hix [Hc He] Hk Hoe. pose proof (ix_laws ix Hix).
  destruct (bt_upsert_spec _ _ indexKey (ix_ok ix) (compareKeys resolver (t_columns schema) ix)
              (ix_order ix) t e (ix_ordered ix Hix) Hc Hk) as [Hc' Hw].
  unfold at_key in Hw. split.
  - split; [done|]. apply Forall_forall. intros w [->|[Hw' _]]%Hw; [done|by eapply Forall_forall in He].
  - intros k p. unfold lists. split.
    + intros (w & q & [->|[Hin Hne]]%Hw & E & Hq & Ep); [left; eauto|].
      right. split; [|eauto 10]. intros Ek. apply Hne. rewrite (cmp_eq_l (ix_order ix) _ _ (indexKey e) E).
      by apply (cmp_eq_sym (ix_order ix)).
    + intros [[E (q & Hq & Ep)]|[Hne (w & q & Hin & E & Hq & Ep)]].
      * exists e, q. split_and!; try done. apply Hw. by left.
      * exists w, q. split_and!; try done. apply Hw. right. split; [done|]. intros Ew. apply Hne.
        rewrite <- E. symmetry. by apply (cmp_eq_l (ix_order ix)).
Qed.

Lemma data_drop ix (t : T MemoryIndexEntry) k0 :
  ix ∈ t_indexes schema -> data_ok ix (bt_ascending t) -> ix_ok ix k0 ->
  data_ok ix (bt_ascending (bt_remove indexKey (compareKeys resolver (t_columns schema) ix) t k0)) /\
  forall k p,
  lists ix (bt_ascending (bt_remove indexKey (compareKeys resolver (t_columns schema) ix) t k0)) k p <->
  ix_order ix k0 k <> Eq /\ lists ix (bt_ascending t) k p.
Proof.
  intros Hix [Hc He] Hk. pose proof (ix_laws ix Hix).
  destruct (bt_remove_spec _ _ indexKey (ix_ok ix) (compareKeys resolver (t_columns schema) ix)
              (ix_order ix) t k0 (ix_ordered ix Hix) Hc Hk) as [Hc' Hw].
  unfold at_key in Hw. split.
  - split; [done|]. apply Forall_forall. intros w [Hw' _]%Hw. by eapply Forall_forall in He.
  - intros k p. unfold lists. split.
    + intros (w & q & [Hin Hne]%Hw & E & Hq & Ep). split; [|eauto 10]. intros Ek. apply Hne.
      rewrite <- E. by apply (cmp_eq_r (ix_order ix)).
    + intros [Hne (w & q & Hin & E & Hq & Ep)]. exists w, q. split_and!; try done. apply Hw. split; [done|].
      intros Ew. apply Hne. rewrite <- E. symmetry. by apply (cmp_eq_l (ix_order ix)).
Qed.

Lemma index_add_spec ix mi k p :
  ix ∈ t_indexes schema -> mi_spec mi = ix -> data_ok ix (data_of mi) -> ix_ok ix k -> pk_ok p ->
  mi_spec (add mi k p) = ix /\ data_ok ix (data_of (add mi k p)) /\
  forall k' p', ix_ok ix k' -> pk_ok p' ->
    lists ix (data_of (add mi k p)) k' p' <->
    lists ix (data_of mi) k' p' \/ ix_order ix k k' = Eq /\ same p p'.
Proof.
  intros Hix Hs Hd Hk Hp. pose proof (ix_laws ix Hix).
  unfold addEntry. rewrite Hs. destruct (bt_get _ _ _ _) as [e|] eqn:Eg; cbn [mi_spec mi_data].
  - destruct (entry_found ix mi k e Hix Hd Hk Eg) as (Hin & Hat & Hoe & Hke).
    destruct (data_put ix (mi_data mi)
      (mkEntry (indexKey e) (map_set (pk_encode schema p) p (primaryKeys e))))
      as [Hd' Hl]; [done|done|done|by apply map_set_ok|].
    split_and!; [done|done|]. intros k' p' Hk' Hp'. rewrite Hl. cbn [indexKey primaryKeys].
    rewrite (entry_set p e p' Hoe), (cmp_eq_l (ix_order ix) _ _ k' Hat).
    destruct (decide (ix_order ix k k' = Eq)) as [Ek|Ek]; [|clear -Ek; naive_solver].
    rewrite (lists_at ix (data_of mi) e k k' p') by done. clear -Ek. naive_solver.
  - destruct (data_put ix (mi_data mi) (mkEntry k [(pk_encode schema p, p)]))
      as [Hd' Hl]; [done|done|done| |].
    { split_and!; cbn; [apply NoDup_singleton|by constructor|done]. }
    split_and!; [done|done|]. intros k' p' Hk' Hp'. rewrite Hl. cbn [indexKey primaryKeys map snd].
    setoid_rewrite list_elem_of_singleton.
    destruct (decide (ix_order ix k k' = Eq)) as [Ek|Ek]; [|clear -Ek; naive_solver].
    pose proof (entry_missing ix mi k k' p' Hix Hd Hk Eg Ek) as Hno. clear -Ek Hno. naive_solver.
Qed.

Lemma map_delete_ok p e :
  entry_ok e -> map_delete p (primaryKeys e) <> [] -> entry_ok (mkEntry (indexKey e) (map_delete p (primaryKeys e))).
Proof.
  intros (Hn & Hf & _) Hne. unfold entry_ok, map_delete in *. cbn.
  split_and!; [|apply Forall_forall; intros q [_ Hq]%list_elem_of_filter; by eapply Forall_forall in Hf|done].
  clear -Hn. induction (primaryKeys e) as [|x l IH]; [constructor|].
  cbn in Hn. apply NoDup_cons in Hn as [Hx Hn]. rewrite filter_cons. case_decide; [|by apply IH].
  cbn. constructor; [|by apply IH]. intros (y & Ey & [_ Hy]%list_elem_of_filter)%list_elem_of_fmap.
  apply Hx. rewrite Ey. apply list_elem_of_fmap. by exists y.
Qed.

Lemma index_remove_spec ix mi k p :
  ix ∈ t_indexes schema -> mi_spec mi = ix -> data_ok ix (data_of mi) -> ix_ok ix k -> pk_ok p ->
  mi_spec (rem mi k p) = ix /\ data_ok ix (data_of (rem mi k p)) /\
  forall k' p', ix_ok ix k' -> pk_ok p' ->
    lists ix (data_of (rem mi k p)) k' p' <->
    lists ix (data_of mi) k' p' /\ ~ (ix_order ix k k' = Eq /\ same p p').
Proof.
  intros Hix Hs Hd Hk Hp. pose proof (ix_laws ix Hix).
  unfold removeEntry. rewrite Hs. destruct (bt_get _ _ _ _) as [e|] eqn:Eg; cbn [mi_spec mi_data].
  - destruct (entry_found ix mi k e Hix Hd Hk Eg) as (Hin & Hat & Hoe & Hke).
    pose proof (fun p' => entry_delete p e p' Hoe) as Hrem.
    destruct (map_delete _ (primaryKeys e)) as [|q0 qs] eqn:Er.
    + destruct (data_drop ix (mi_data mi) k Hix Hd Hk) as [Hd' Hl]. cbn [mi_spec mi_data].
      split_and!; [done|done|]. intros k' p' Hk' Hp'. rewrite Hl.
      destruct (decide (ix_order ix k k' = Eq)) as [Ek|Ek]; [|clear -Ek; naive_solver].
      rewrite (lists_at ix (data_of mi) e k k' p') by done. split; [naive_solver|]. intros [Hq Hne]. exfalso.
      destruct (proj2 (Hrem p')) as (q & Hq' & _); [clear -Hq Hne Ek; naive_solver|]. by apply elem_of_nil in Hq'.
    + cbn [mi_spec mi_data]. rewrite <- Er in *. destruct (data_put ix (mi_data mi)
        (mkEntry (indexKey e) (map_delete (pk_encode schema p) (primaryKeys e))))
        as [Hd' Hl]; [done|done|done|apply map_delete_ok; [done|by rewrite Er]|].
      split_and!; [done|done|]. intros k' p' Hk' Hp'. rewrite Hl. cbn [indexKey primaryKeys].
      rewrite (Hrem p'), (cmp_eq_l (ix_order ix) _ _ k' Hat).
      destruct (decide (ix_order ix k k' = Eq)) as [Ek|Ek]; [|clear -Ek; naive_solver].
      rewrite (lists_at ix (data_of mi) e k k' p') by done. clear -Ek. naive_solver.
  - split_and!; [done|done|]. intros k' p' Hk' Hp'. split; [|naive_solver]. intros Hl. split; [done|].
    intros [Ek _]. by apply (entry_missing ix mi k k' p' Hix Hd Hk Eg Ek).
Qed.

(** *** Index maintenance *)

Abbreviation rows_content := (content_ok (pk_of schema) pk_ok pk_order).
Abbreviation keyed p := (at_key (pk_of schema) pk_order p).

(** [old] is the row at key [p]. *)
Definition old_row (rows : list Row) (p : Key) (old : option Row) : Prop :=
  match old with Some o => o ∈ rows /\ keyed p o | None => forall w, w ∈ rows -> ~ keyed p w end.

(** The row at [p], if there is one, spells its key as [p] does. *)
Definition spelled (rows : list Row) (p : Key) : Prop := forall w, w ∈ rows -> keyed p w -> same (pk_of schema w) p.

(** The rows once the one at [p] has been replaced by [new]. *)
Definition replaced (rows rows' : list Row) (p : Key) (new : option Row) : Prop :=
  forall w, w ∈ rows' <-> Some w = new \/ w ∈ rows /\ ~ keyed p w.

Lemma belongs_replaced ix rows rows' p new k p' :
  Forall row_ok rows -> pk_ok p -> spelled rows p ->
  replaced rows rows' p new -> (forall r, new = Some r -> same (pk_of schema r) p) ->
  belongs ix rows' k p' <->
  (exists r, new = Some r /\ rowMatchesPredicate ix r = true /\ ix_order ix (index_key ix r) k = Eq /\ same p p')
  \/ belongs ix rows k p' /\ ~ same p p'.
Proof.
  intros Hrows Hp Hsp Hr Hn. unfold belongs, replaced in *. split.
  - intros (w & [Ew|[Hw Hne]]%Hr & Hm & Ek & Ep).
    + left. exists w. split_and!; try done. by rewrite <- (Hn w).
    + right. split; [eauto 10|]. intros E. apply Hne. eapply Forall_forall in Hrows; [|exact Hw].
      apply (ok_code Hschema); [by apply pk_of_ok|done|congruence].
  - intros [(r & -> & Hm & Ek & Ep)|[(w & Hw & Hm & Ek & Ep) Hne]].
    + exists r. split_and!; try done; [apply Hr; by left|]. by rewrite (Hn r eq_refl).
    + exists w. split_and!; try done. apply Hr. right. split; [done|]. intros E. apply Hne. by rewrite <- (Hsp w Hw E).
Qed.

Lemma belongs_old ix rows p old k p' :
  rows_content rows -> Forall row_ok rows -> pk_ok p -> spelled rows p -> old_row rows p old ->
  belongs ix rows k p' /\ same p p' <->
  exists o, old = Some o /\ rowMatchesPredicate ix o = true /\ ix_order ix (index_key ix o) k = Eq /\ same p p'.
Proof.
  intros Hc Hrows Hp Hsp Ho. pose proof pk_laws. unfold belongs. split.
  - intros [(w & Hw & Hm & Ek & Ep) E].
    assert (Hwp : keyed p w).
    { eapply Forall_forall in Hrows; [|exact Hw]. apply (ok_code Hschema); [by apply pk_of_ok|done|congruence]. }
    destruct old as [o|]; [|by destruct (Ho w Hw)]. destruct Ho as [Hin Hat].
    assert (w = o) as -> by (by apply (content_at_unique (pk_of schema) pk_ok pk_order rows p)). eauto.
  - intros (o & -> & Hm & Ek & Ep). destruct Ho as [Hin Hat]. split; [|done]. exists o. split_and!; try done.
    by rewrite (Hsp o Hin Hat).
Qed.

Lemma upsert_index_spec ix mi rows rows' p r old :
  ix ∈ t_indexes schema -> mi_spec mi = ix -> rows_content rows -> Forall row_ok rows -> row_ok r -> pk_ok p ->
  same (pk_of schema r) p -> spelled rows p -> old_row rows p old -> replaced rows rows' p (Some r) -> index_ok ix rows (data_of mi) ->
  exists mi', upsert_index resolver schema mi p r old = Ok mi' /\
    mi_spec mi' = ix /\ index_ok ix rows' (data_of mi').
Proof.
  intros Hix Hs Hc Hrows Hr Hp Hat Hsp Ho Hrep [Hd Hl]. pose proof (ix_laws ix Hix).
  assert (Hro : forall o, old = Some o -> row_ok o).
  { intros o ->. destruct Ho as [Hin _]. by eapply Forall_forall in Hrows. }
  pose proof (fun k p' => belongs_replaced ix rows rows' p (Some r) k p' Hrows Hp Hsp Hrep ltac:(by intros ? [= <-])) as Hb.
  pose proof (fun k p' => belongs_old ix rows p old k p' Hc Hrows Hp Hsp Ho) as Hbo.
  pose proof (index_key_ok ix r Hr) as Hkr. pose proof (keyFromRow_ok ix r Hix Hr) as Ekr.
  unfold upsert_index. rewrite Hs. rewrite Ekr.
  assert (Hfin : forall data, data_ok ix data ->
    (forall k p', ix_ok ix k -> pk_ok p' -> lists ix data k p' <->
       (rowMatchesPredicate ix r = true /\ ix_order ix (index_key ix r) k = Eq /\ same p p') \/
       (belongs ix rows k p' /\ ~ same p p')) -> index_ok ix rows' data).
  { intros data Hdd H'. split; [done|]. intros k p' Hk Hp'. rewrite (H' k p' Hk Hp'), Hb. naive_solver. }
  destruct old as [o|].
  - specialize (Hro o eq_refl). pose proof (index_key_ok ix o Hro) as Hko. rewrite (keyFromRow_ok ix o Hix Hro).
    destruct (index_remove_spec ix mi (index_key ix o) p Hix Hs Hd Hko Hp) as (Rs & Rd & Rl).
    destruct (index_add_spec ix mi (index_key ix r) p Hix Hs Hd Hkr Hp) as (As & Ad & Al).
    destruct (index_add_spec ix _ (index_key ix r) p Hix Rs Rd Hkr Hp) as (RAs & RAd & RAl).
    pose proof (proj2 (ix_ordered ix Hix) _ _ Hko Hkr) as Hcmp.
    assert (Hbo' : forall k p', same p p' ->
      belongs ix rows k p' <-> rowMatchesPredicate ix o = true /\ ix_order ix (index_key ix o) k = Eq).
    { intros k p' E. specialize (Hbo k p'). clear -Hbo E. naive_solver. }
    destruct (rowMatchesPredicate ix o) eqn:Mo, (rowMatchesPredicate ix r) eqn:Mr; cbn [negb andb res_bind].
    + destruct (Z.eqb_spec (compareKeys resolver (t_columns schema) ix (index_key ix o) (index_key ix r)) 0)
        as [Ec|Ec]; cbn [negb]; eexists; (split_and!; [done|done|apply Hfin; [done|]]); intros k p' Hk Hp'.
      * assert (E : ix_order ix (index_key ix o) (index_key ix r) = Eq) by (rewrite <- Hcmp, Ec; done).
        rewrite (Al k p' Hk Hp'), (Hl k p' Hk Hp'), <- (cmp_eq_l (ix_order ix) _ _ k E).
        destruct (decide (same p p')) as [Ep|Ep]; [rewrite (Hbo' k p' Ep)|]; clear -Ep; tauto.
      * rewrite (RAl k p' Hk Hp'), (Rl k p' Hk Hp'), (Hl k p' Hk Hp').
        destruct (decide (same p p')) as [Ep|Ep]; [rewrite (Hbo' k p' Ep)|]; clear -Ep; tauto.
    + eexists. split_and!; [done|done|apply Hfin; [done|]]. intros k p' Hk Hp'.
      rewrite (Rl k p' Hk Hp'), (Hl k p' Hk Hp').
      destruct (decide (same p p')) as [Ep|Ep]; [rewrite (Hbo' k p' Ep)|]; clear -Ep; intuition congruence.
    + eexists. split_and!; [done|done|apply Hfin; [done|]]. intros k p' Hk Hp'.
      rewrite (Al k p' Hk Hp'), (Hl k p' Hk Hp').
      destruct (decide (same p p')) as [Ep|Ep]; [rewrite (Hbo' k p' Ep)|]; clear -Ep; intuition congruence.
    + eexists. split_and!; [done|done|apply Hfin; [done|]]. intros k p' Hk Hp'. rewrite (Hl k p' Hk Hp').
      destruct (decide (same p p')) as [Ep|Ep]; [rewrite (Hbo' k p' Ep)|]; clear -Ep; intuition congruence.
  - destruct (index_add_spec ix mi (index_key ix r) p Hix Hs Hd Hkr Hp) as (As & Ad & Al).
    assert (Hno : forall k p', same p p' -> ~ belongs ix rows k p').
    { intros k p' E HB. destruct (proj1 (Hbo k p') (conj HB E)) as (? & ? & _). done. }
    destruct (rowMatchesPredicate ix r) eqn:Mr; cbn [negb res_bind]; eexists;
      (split_and!; [done|done|apply Hfin; [done|]]); intros k p' Hk Hp'; [rewrite (Al k p' Hk Hp')|];
      rewrite (Hl k p' Hk Hp'); specialize (Hno k p'); clear -Hno; intuition congruence.
Qed.

Lemma delete_index_spec ix mi rows rows' p o :
  ix ∈ t_indexes schema -> mi_spec mi = ix -> rows_content rows -> Forall row_ok rows -> pk_ok p ->
  spelled rows p -> o ∈ rows -> keyed p o -> replaced rows rows' p None -> index_ok ix rows (data_of mi) ->
  exists mi', delete_index resolver schema mi p o = Ok mi' /\
    mi_spec mi' = ix /\ index_ok ix rows' (data_of mi').
Proof.
  intros Hix Hs Hc Hrows Hp Hsp Hin Hat Hrep [Hd Hl].
  assert (Hro : row_ok o) by (by eapply Forall_forall in Hrows). pose proof (index_key_ok ix o Hro) as Hko.
  destruct (index_remove_spec ix mi (index_key ix o) p Hix Hs Hd Hko Hp) as (Rs & Rd & Rl).
  unfold delete_index. rewrite Hs, (keyFromRow_ok ix o Hix Hro).
  assert (Hb : forall k p', belongs ix rows' k p' <-> belongs ix rows k p' /\ ~ same p p').
  { intros k p'. rewrite (belongs_replaced ix rows rows' p None k p' Hrows Hp Hsp Hrep) by done. naive_solver. }
  assert (Hbo : forall k p', same p p' ->
    belongs ix rows k p' <-> rowMatchesPredicate ix o = true /\ ix_order ix (index_key ix o) k = Eq).
  { intros k p' E. pose proof (belongs_old ix rows p (Some o) k p' Hc Hrows Hp Hsp (conj Hin Hat)) as H'. clear -H' E. naive_solver. }
  destruct (rowMatchesPredicate ix o) eqn:Mo; cbn [negb res_bind]; eexists; (split_and!; [done|done|split; [done|]]);
    intros k p' Hk Hp'; rewrite Hb; [rewrite (Rl k p' Hk Hp')|]; rewrite (Hl k p' Hk Hp');
    (destruct (decide (same p p')) as [Ep|Ep]; [rewrite (Hbo k p' Ep)|]); clear -Ep; intuition congruence.
Qed.

(** *** Layers *)

Abbreviation rows l := (bt_ascending (primaryModifications (T := T) l)).

(** Every index of the schema is in the layer. *)
Definition indexes_present (l : layer) : Prop :=
  forall ix, ix ∈ t_indexes schema -> exists mi, secondaryIndexes l !! ix_name ix = Some mi /\ mi_spec mi = ix.

Record layer_ok (l : layer) : Prop := {
  ok_schema : l_schema l = schema;
  ok_open : isCommitted l = false;
  ok_content : rows_content (rows l);
  ok_rows : Forall row_ok (rows l);
  ok_indexes : forall ix, ix ∈ t_indexes schema -> exists mi, secondaryIndexes l !! ix_name ix = Some mi /\
    mi_spec mi = ix /\ index_ok ix (rows l) (data_of mi)
}.

Lemma index_loop_spec (f : MemoryIndex -> res (MemoryIndex (T := T))) (P Q : IndexSchema -> MemoryIndex -> Prop) ixs m :
  NoDup (map ix_name ixs) -> (forall ix, ix ∈ ixs -> exists mi, m !! ix_name ix = Some mi /\ P ix mi) ->
  (forall ix mi, ix ∈ ixs -> P ix mi -> exists mi', f mi = Ok mi' /\ Q ix mi') ->
  exists m', index_loop f ixs m = Ok m' /\ (forall ix, ix ∈ ixs -> exists mi, m' !! ix_name ix = Some mi /\ Q ix mi) /\
    forall n, n ∉ map ix_name ixs -> m' !! n = m !! n.
Proof.
  revert m. induction ixs as [|ix ixs IH]; cbn [index_loop map]; intros m Hn HP Hf.
  { exists m. split_and!; [done| |done]. intros ix Hix. by apply elem_of_nil in Hix. }
  apply NoDup_cons in Hn as [Hni Hn]. destruct (HP ix (list_elem_of_here _ _)) as (mi & -> & Hmi).
  destruct (Hf ix mi (list_elem_of_here _ _) Hmi) as (mi' & -> & Hq). cbn [res_bind].
  destruct (IH (<[ix_name ix := mi']> m) Hn) as (m' & -> & Hin & Hout).
  - intros ix' Hix'. rewrite lookup_insert_ne; [apply HP; by right|].
    intros E. apply Hni. rewrite E. apply list_elem_of_fmap. eauto.
  - intros ix' mi0 Hix'. apply Hf. by right.
  - exists m'. split_and!; [done| |].
    + intros ix' [->|Hix']%elem_of_cons; [|by apply Hin]. exists mi'. by rewrite (Hout _ Hni), lookup_insert_eq.
    + intros n [Hne Hnn]%not_elem_of_cons. rewrite (Hout n Hnn). by rewrite lookup_insert_ne.
Qed.

Lemma recordUpsert_ok l p r old :
  layer_ok l -> row_ok r -> pk_ok p -> same (pk_of schema r) p -> spelled (rows l) p -> old_row (rows l) p old ->
  exists l', recordUpsert resolver l p r old = Ok l' /\ layer_ok l' /\
    rows l' = Plain.put resolver schema (rows l) r.
Proof.
  intros [Hs Ho Hc Hr Hi] Hrow Hp Hsame Hsp Hold. unfold recordUpsert. rewrite Ho, Hs.
  pose proof pk_laws. pose proof (pk_of_ok r Hrow) as Hk. assert (Hat : keyed p r) by (by apply (ok_code Hschema)).
  set (t' := bt_upsert (pk_of schema) (pk_compare resolver schema) (primaryModifications l) r).
  destruct (bt_upsert_spec _ _ (pk_of schema) pk_ok (pk_compare resolver schema) pk_order
              (primaryModifications l) r pk_ordered Hc Hk) as [Hc' Hw]. fold t' in Hc', Hw.
  assert (Hrep : replaced (rows l) (bt_ascending t') p (Some r)).
  { intros w. rewrite Hw. unfold at_key in *. rewrite (cmp_eq_r pk_order _ _ (pk_of schema w) Hat). naive_solver. }
  assert (Hr' : Forall row_ok (bt_ascending t')).
  { apply Forall_forall. intros w [->|[Hin _]]%Hw; [done|]. by eapply Forall_forall in Hr. }
  destruct (index_loop_spec
    (fun mi => upsert_index resolver schema mi p r old)
    (fun ix mi => mi_spec mi = ix /\ index_ok ix (rows l) (data_of mi))
    (fun ix mi => mi_spec mi = ix /\ index_ok ix (bt_ascending t') (data_of mi))
    (t_indexes schema) (secondaryIndexes l)) as (m' & -> & Hin & _);
    [apply (ok_ix_names Hschema)|done|intros ix mi Hix [Hmi Hok]; by apply (upsert_index_spec ix mi (rows l))|].
  eexists. split_and!; [done|by split|]. cbn.
  apply (content_ext (pk_of schema) pk_ok pk_order); [done|by apply (list_upsert_ok _ _ _ pk_order pk_ordered)|].
  intros v. rewrite Hw. symmetry. by apply (list_upsert_elem _ _ _ pk_order pk_ordered).
Qed.

Lemma recordDelete_ok l p o :
  layer_ok l -> pk_ok p -> spelled (rows l) p -> o ∈ rows l -> keyed p o ->
  exists l', recordDelete resolver l p o = Ok l' /\ layer_ok l' /\
    rows l' = Plain.del resolver schema (rows l) (pk_of schema o).
Proof.
  intros [Hs Ho Hc Hr Hi] Hp Hsp Hin Hat. unfold recordDelete. rewrite Ho, Hs.
  pose proof pk_laws. assert (Hk : pk_ok (pk_of schema o)) by (apply pk_of_ok; by eapply Forall_forall in Hr).
  set (t' := bt_remove (pk_of schema) (pk_compare resolver schema) (primaryModifications l) p).
  destruct (bt_remove_spec _ _ (pk_of schema) pk_ok (pk_compare resolver schema) pk_order
              (primaryModifications l) p pk_ordered Hc Hp) as [Hc' Hw]. fold t' in Hc', Hw.
  assert (Hrep : replaced (rows l) (bt_ascending t') p None).
  { intros w. rewrite Hw. naive_solver. }
  assert (Hr' : Forall row_ok (bt_ascending t')).
  { apply Forall_forall. intros w [Hwin _]%Hw. by eapply Forall_forall in Hr. }
  destruct (index_loop_spec
    (fun mi => delete_index resolver schema mi p o)
    (fun ix mi => mi_spec mi = ix /\ index_ok ix (rows l) (data_of mi))
    (fun ix mi => mi_spec mi = ix /\ index_ok ix (bt_ascending t') (data_of mi))
    (t_indexes schema) (secondaryIndexes l)) as (m' & -> & Hin' & _);
    [apply (ok_ix_names Hschema)|done|intros ix mi Hix [Hmi Hok]; by apply (delete_index_spec ix mi (rows l))|].
  eexists. split_and!; [done|by split|]. cbn.
  apply (content_ext (pk_of schema) pk_ok pk_order); [done|by apply (list_remove_ok _ _ _ pk_order pk_ordered)|].
  intros v. rewrite Hw. unfold Plain.del, Plain.key_of, Plain.key_compare.
  rewrite (list_remove_elem _ _ _ pk_order pk_ordered) by done. unfold at_key in *.
  by rewrite (cmp_eq_r pk_order _ _ (pk_of schema v) Hat).
Qed.

Lemma lookup_row l k w :
  layer_ok l -> pk_ok k ->
  lookupEffectiveRow resolver k l = Some w <-> w ∈ rows l /\ keyed k w.
Proof.
  intros [Hs Ho Hc Hr Hi] Hk. unfold lookupEffectiveRow. rewrite Hs.
  by apply (bt_get_spec _ _ _ pk_ok _ pk_order); [apply pk_ordered| |].
Qed.

Lemma lookup_get l k :
  layer_ok l -> pk_ok k ->
  lookupEffectiveRow resolver k l = Plain.get resolver schema (rows l) k.
Proof.
  intros Hl Hk. apply option_eq. intros w. rewrite (lookup_row l k w Hl Hk). symmetry.
  apply (list_get_spec _ _ _ pk_order pk_ordered); [apply (ok_content l Hl)|done].
Qed.

Lemma lookup_old l k :
  layer_ok l -> pk_ok k -> old_row (rows l) k (lookupEffectiveRow resolver k l).
Proof.
  intros Hl Hk. pose proof (fun w => lookup_row l k w Hl Hk) as Hw. unfold old_row.
  destruct (lookupEffectiveRow _ k l) as [o|]; [by apply Hw|]. intros w Hin Hat. by assert (None = Some w) by (by apply Hw).
Qed.

(** *** UNIQUE constraints *)

Section Unique.
Context (m : manager).

Definition index_name_of (uc : UniqueConstraintSchema) : option jsstring :=
  match uc_derivedFromIndex uc with
  | Some name => Some name
  | None => ics_indexName <$> getImplicitCoveringStructure m uc
  end.

(** What the schema builder, the registries and the database provide for the
    UNIQUE checks: comparators that agree with the column orders on equality,
    collations known by their normalized names and recorded in the indexes,
    predicates that depend on the columns they reference, no covering
    materialized view, and an index for every partial constraint. *)
Record manager_ok : Prop := {
  ok_manager : m_schema m = schema;
  ok_enforce : forall i name a b, (i < width)%nat -> value_ok a -> value_ok b -> column_ok i a -> column_ok i b ->
    enforcement_comparator (t_columns schema) i (resolver name) a b = 0 <->
    vcol i (Some (resolver name)) a b = Eq;
  ok_collation_name : forall a b, normalizeCollationName a = normalizeCollationName b -> resolver a = resolver b;
  ok_same : forall i name a b, (i < width)%nat -> value_ok a -> value_ok b -> column_ok i a -> column_ok i b ->
    compareSqlValues a b = 0 -> vcol i (Some (resolver name)) a b = Eq;
  ok_predicate : forall uc p a b, uc ∈ t_uniqueConstraints schema -> uc_predicate uc = Some p -> row_ok a -> row_ok b ->
    (forall i, i ∈ referencedColumns p -> compareSqlValues (cell a i) (cell b i) = 0) ->
    evaluate p a = evaluate p b;
  ok_ix_collation : Forall (fun ix => Forall (fun c => is_Some (ic_collation c)) (ix_columns ix)) (t_indexes schema);
  ok_no_view : forall uc, uc ∈ t_uniqueConstraints schema -> rowTimeCovering m uc = None;
  ok_by_name : forall uc, uc ∈ t_uniqueConstraints schema ->
    match index_name_of uc with
    | Some n => exists ix, ix ∈ t_indexes schema /\ ix_name ix = n /\ covers uc ix
    | None => uc_predicate uc = None
    end
}.

Context (Hm : manager_ok).

Lemma forallb_zip {A B} (P : A * B -> bool) (l : list A) (k : list B) :
  forallb P (zip l k) = true <-> forall j x y, l !! j = Some x -> k !! j = Some y -> P (x, y) = true.
Proof.
  rewrite forallb_forall. split.
  - intros H' j x y Hx Hy. apply H', list_elem_of_In, (list_elem_of_lookup_2 _ j).
    by apply lookup_zip_Some.
  - intros H' [x y] (j & Hj)%list_elem_of_In%list_elem_of_lookup_1. apply lookup_zip_Some in Hj as [Hx Hy]. eauto.
Qed.

(** The rows agree on the columns of the constraint, under [names]. *)
Definition agree (uc : UniqueConstraintSchema) (names : list jsstring) (a b : Row) : Prop :=
  forall j i name, uc_columns uc !! j = Some i -> names !! j = Some name ->
    vcol i (Some (resolver name)) (cell a i) (cell b i) = Eq.

Lemma uc_bound uc j i : uc ∈ t_uniqueConstraints schema -> uc_columns uc !! j = Some i -> (i < width)%nat.
Proof.
  intros Hu Hj. pose proof (ok_uc_bound Hschema) as Hb. eapply Forall_forall in Hb; [|exact Hu].
  by eapply Forall_lookup in Hb.
Qed.

Lemma all_match_spec uc names a b :
  uc ∈ t_uniqueConstraints schema -> length names = length (uc_columns uc) -> row_ok a -> row_ok b ->
  all_match (comparators_for resolver schema uc names) (uc_columns uc) a b = true <->
  agree uc names a b.
Proof.
  intros Hu Hl Ha Hb. unfold all_match. rewrite forallb_zip. unfold agree, comparators_for, uniqueEnforcementComparators.
  split.
  - intros H' j i name Hj Hn. apply (ok_enforce Hm); [by eapply uc_bound|by apply cell_ok|by apply cell_ok|by apply cell_column|by apply cell_column|].
    apply Z.eqb_eq. apply (H' j (enforcement_comparator (t_columns schema) i (resolver name)) i);
      [|done]. by rewrite list_lookup_imap, Hj, list_lookup_fmap, Hn.
  - intros H' j x i Hx Hj. rewrite list_lookup_imap, Hj, list_lookup_fmap in Hx.
    destruct (names !! j) as [name|] eqn:En.
    + cbn in Hx. injection Hx as <-. cbn. apply Z.eqb_eq.
      apply (ok_enforce Hm); [by eapply uc_bound|by apply cell_ok|by apply cell_ok|by apply cell_column|by apply cell_column|]. eauto.
    + apply lookup_ge_None in En. apply lookup_lt_Some in Hj. lia.
Qed.

Lemma order_laws i name : (i < width)%nat -> CmpLaws (vcol i (Some (resolver name))).
Proof. intros Hi. exact (proj1 (ok_columns Hschema i (Some name) Hi)). Qed.

Lemma agree_sym uc names a b : uc ∈ t_uniqueConstraints schema -> agree uc names a b -> agree uc names b a.
Proof.
  intros Hu H' j i name Hj Hn. pose proof (order_laws i name (uc_bound uc j i Hu Hj)).
  apply (cmp_eq_sym (vcol i (Some (resolver name)))). eauto.
Qed.

Lemma agree_trans uc names a b c :
  uc ∈ t_uniqueConstraints schema -> agree uc names a b -> agree uc names b c -> agree uc names a c.
Proof.
  intros Hu H1 H2 j i name Hj Hn. pose proof (order_laws i name (uc_bound uc j i Hu Hj)).
  rewrite (cmp_eq_l (vcol i (Some (resolver name))) _ _ (cell c i) (H1 j i name Hj Hn)). eauto.
Qed.

Lemma enforcement_null i name (a b : value) :
  enforcement_comparator (t_columns schema) i (resolver name) a b = 0 -> is_null a = is_null b.
Proof.
  unfold enforcement_comparator, hasSemanticOrdering.
  assert (Hf : compareSqlValuesFast a b (resolver name) = 0 -> is_null a = is_null b)
    by (unfold compareSqlValuesFast; by destruct a, b).
  destruct (c_logicalType <$> t_columns schema !! i) as [t|]; [|done].
  destruct (t_semanticOrdering t && bool_decide (is_Some (t_compare t))); [|done].
  unfold createTypedComparator. destruct (t_compare t); [by destruct a, b|done].
Qed.

Lemma agree_null uc names a b i :
  uc ∈ t_uniqueConstraints schema -> length names = length (uc_columns uc) -> row_ok a -> row_ok b ->
  agree uc names a b -> i ∈ uc_columns uc -> is_null (cell a i) = is_null (cell b i).
Proof.
  intros Hu Hl Ha Hb Hag (j & Hj)%list_elem_of_lookup.
  destruct (lookup_lt_is_Some_2 names j) as [name Hn]; [rewrite Hl; by eapply lookup_lt_Some|].
  apply (enforcement_null i name). apply (ok_enforce Hm); [by eapply uc_bound|by apply cell_ok|by apply cell_ok|by apply cell_column|by apply cell_column|]. eauto.
Qed.

Abbreviation names_of := (Plain.enforcement_names schema).
Abbreviation conflict := (Plain.conflicts resolver schema).
Abbreviation holds := (Plain.uniques_hold resolver schema).

Lemma length_names uc : length (names_of uc) = length (uc_columns uc).
Proof. unfold Plain.enforcement_names, uniqueEnforcementCollations. by rewrite length_map, length_imap. Qed.

Definition no_null (uc : UniqueConstraintSchema) (a : Row) : Prop :=
  forall i, i ∈ uc_columns uc -> is_null (cell a i) = false.

Lemma null_test uc (a : Row) : existsb (fun i => is_null (cell a i)) (uc_columns uc) = false <-> no_null uc a.
Proof.
  rewrite <- not_true_iff_false, existsb_exists. unfold no_null. split.
  - intros H' i Hi. apply not_true_iff_false. intros E. apply H'. exists i. by rewrite <- list_elem_of_In.
  - intros H' (i & Hi%list_elem_of_In & E). by rewrite (H' i Hi) in E.
Qed.

Lemma conflicts_spec uc a b :
  uc ∈ t_uniqueConstraints schema -> row_ok a -> row_ok b ->
  conflict uc a b = true <->
  no_null uc a /\ Plain.in_scope uc a = true /\ Plain.in_scope uc b = true /\ agree uc (names_of uc) a b.
Proof.
  intros Hu Ha Hb. unfold Plain.conflicts.
  rewrite !andb_true_iff, negb_true_iff, null_test. unfold Plain.uc_compares.
  rewrite (all_match_spec uc (names_of uc) a b Hu (length_names uc) Ha Hb). tauto.
Qed.

Lemma conflicts_sym uc a b :
  uc ∈ t_uniqueConstraints schema -> row_ok a -> row_ok b -> conflict uc a b = true -> conflict uc b a = true.
Proof.
  intros Hu Ha Hb. rewrite !conflicts_spec by done. intros (Hn & Sa & Sb & Hag).
  split_and!; [|done|done|by apply agree_sym]. intros i Hi.
  rewrite <- (agree_null uc (names_of uc) a b i); [by apply Hn|done|apply length_names|done..].
Qed.

Lemma conflicts_trans uc a b c :
  uc ∈ t_uniqueConstraints schema -> row_ok a -> row_ok b -> row_ok c ->
  conflict uc a b = true -> conflict uc b c = true -> conflict uc a c = true.
Proof.
  intros Hu Ha Hb Hc. rewrite !conflicts_spec by done. intros (Hn & Sa & Sb & H1) (_ & _ & Sc & H2).
  split_and!; [done..|]. by apply (agree_trans uc _ a b c).
Qed.

(** A row conflicts with at most one row of a valid table. *)
Lemma conflict_unique rs uc n r1 r2 :
  holds rs -> uc ∈ t_uniqueConstraints schema -> Forall row_ok rs -> row_ok n -> r1 ∈ rs -> r2 ∈ rs ->
  conflict uc n r1 = true -> conflict uc n r2 = true -> r1 = r2.
Proof.
  intros Hh Hu Hrs Hn H1 H2 C1 C2. rewrite Forall_forall in Hrs. apply (Hh uc); [done..|].
  apply (conflicts_trans uc r1 n r2); auto. apply conflicts_sym; auto.
Qed.

(** *** Checks of the plain table *)

Abbreviation put := (Plain.put resolver schema).
Abbreviation del := (Plain.del resolver schema).
Abbreviation get := (Plain.get resolver schema).
Abbreviation is_self := (isSelfKey resolver schema).

Definition table_ok (rs : list Row) : Prop := rows_content rs /\ Forall row_ok rs.

Lemma get_some rs k r : table_ok rs -> pk_ok k -> get rs k = Some r <-> r ∈ rs /\ keyed k r.
Proof. intros [Hc _] Hk. exact (list_get_spec _ _ _ pk_order pk_ordered rs k r Hc Hk). Qed.

Lemma put_elem rs r w : table_ok rs -> row_ok r -> w ∈ put rs r <-> w = r \/ w ∈ rs /\ ~ keyed (pk_of schema r) w.
Proof. intros [Hc _] Hr. exact (list_upsert_elem _ _ _ pk_order pk_ordered rs r w Hc (pk_of_ok r Hr)). Qed.

Lemma del_elem rs k w : table_ok rs -> pk_ok k -> w ∈ del rs k <-> w ∈ rs /\ ~ keyed k w.
Proof. intros [Hc _] Hk. exact (list_remove_elem _ _ _ pk_order pk_ordered rs k w Hc Hk). Qed.

Lemma store_entry_ok rs r : table_ok rs -> row_ok r -> table_ok (put rs r).
Proof.
  intros Ht Hr. split.
  - destruct Ht as [Hc _]. exact (list_upsert_ok _ _ _ pk_order pk_ordered rs r Hc (pk_of_ok r Hr)).
  - apply Forall_forall. intros w [->|[Hw _]]%(put_elem rs r w Ht Hr); [done|].
    destruct Ht as [_ Hf]. by eapply Forall_forall in Hf.
Qed.

Lemma del_ok rs k : table_ok rs -> pk_ok k -> table_ok (del rs k).
Proof.
  intros Ht Hk. split.
  - destruct Ht as [Hc _]. exact (list_remove_ok _ _ _ pk_order pk_ordered rs k Hc Hk).
  - apply Forall_forall. intros w [Hw _]%(del_elem rs k w Ht Hk). destruct Ht as [_ Hf]. by eapply Forall_forall in Hf.
Qed.

Lemma row_in rs r : table_ok rs -> r ∈ rs -> row_ok r.
Proof. intros [_ Hf] Hr. by eapply Forall_forall in Hf. Qed.

Lemma table_ext rs rs' : table_ok rs -> table_ok rs' -> (forall w, w ∈ rs <-> w ∈ rs') -> rs = rs'.
Proof. intros [Hc _] [Hc' _]. pose proof pk_laws. by apply (content_ext (pk_of schema) pk_ok pk_order). Qed.

Definition self_ok (self : UniqueCheckSelf) : Prop :=
  pk_ok (s_key self) /\ match s_vacated self with Some v => pk_ok v | None => True end.

Lemma is_self_true self p :
  self_ok self -> pk_ok p ->
  is_self self p = true <-> pk_order (s_key self) p = Eq \/ exists v, s_vacated self = Some v /\ pk_order v p = Eq.
Proof.
  intros [Hs Hv] Hp. unfold isSelfKey. rewrite orb_true_iff, (cmp_is_0 pk_ok _ pk_order pk_ordered) by done.
  rewrite bool_decide_eq_true. destruct (s_vacated self) as [v|].
  - rewrite (cmp_is_0 pk_ok _ pk_order pk_ordered), bool_decide_eq_true by done. naive_solver.
  - naive_solver.
Qed.

Lemma is_self_eq self p p' : self_ok self -> pk_ok p -> pk_ok p' -> pk_order p p' = Eq -> is_self self p = is_self self p'.
Proof.
  intros Hs Hp Hp' E. pose proof pk_laws. apply eq_true_iff_eq. rewrite !is_self_true by done.
  rewrite (cmp_eq_r pk_order _ _ (s_key self) E). by setoid_rewrite (cmp_eq_r pk_order _ _ _ E).
Qed.

(** Removing rows keeps a table valid. *)
Lemma holds_sub rs rs' : holds rs -> (forall w, w ∈ rs' -> w ∈ rs) -> holds rs'.
Proof. intros Hh Hs uc r1 r2 Hu H1 H2. apply Hh; auto. Qed.

Abbreviation find_c := (Plain.find_conflict resolver schema).
Abbreviation plain_check := (Plain.check_one resolver (m_tableName m) schema).
Abbreviation plain_checks := (Plain.check_all resolver (m_tableName m) schema).

Lemma find_conflict_some uc self n rs r :
  find_c uc self n rs = Some r -> r ∈ rs /\ is_self self (pk_of schema r) = false /\ conflict uc n r = true.
Proof. intros [Hin [Hs Hc]%andb_true_iff]%find_some. rewrite list_elem_of_In. by apply negb_true_iff in Hs. Qed.

Lemma find_conflict_none uc self n rs r :
  find_c uc self n rs = None -> r ∈ rs -> conflict uc n r = true -> is_self self (pk_of schema r) = true.
Proof.
  intros Hn Hin Hc. pose proof (find_none _ _ Hn r (proj1 (list_elem_of_In _ _) Hin)) as H'. cbn in H'.
  rewrite Hc, andb_true_r in H'. by apply negb_false_iff.
Qed.

(** The rows that may stay beside [n]. *)
Definition clear (uc : UniqueConstraintSchema) (self : UniqueCheckSelf) (n : Row) (rs : list Row) : Prop :=
  forall r, r ∈ rs -> conflict uc n r = true -> is_self self (pk_of schema r) = true.

Lemma check_one_spec uc rs n self oc ev o rs' ev' :
  table_ok rs -> holds rs -> uc ∈ t_uniqueConstraints schema -> row_ok n ->
  plain_check uc rs n self oc ev = (o, rs', ev') ->
  table_ok rs' /\ (forall w, w ∈ rs' -> w ∈ rs) /\ (o = None -> clear uc self n rs').
Proof.
  intros Ht Hh Hu Hn. unfold Plain.check_one. destruct (find_c uc self n rs) as [r|] eqn:Ef.
  - apply find_conflict_some in Ef as (Hin & Hs & Hc). pose proof (row_in rs r Ht Hin) as Hr. pose proof (pk_of_ok r Hr) as Hk.
    unfold Plain.resolve. destruct (Plain.action _ _); intros [= <- <- <-]; (split_and!; [|done|done]) || idtac; try done.
    split_and!; [by apply del_ok| |].
    + intros w [Hw _]%del_elem; done.
    + intros _ w [Hw Hne]%del_elem Hcw; [|done..]. exfalso. apply Hne. destruct Ht as [_ Hf].
      assert (w = r) as -> by (by apply (conflict_unique rs uc n w r)).
      pose proof pk_laws. apply (cmp_refl pk_order).
  - intros [= <- <- <-]. split_and!; [done|done|]. intros _ r Hr Hc. by eapply find_conflict_none.
Qed.

Lemma check_all_spec ucs rs n self oc ev o rs' ev' :
  table_ok rs -> holds rs -> (forall uc, uc ∈ ucs -> uc ∈ t_uniqueConstraints schema) -> row_ok n ->
  plain_checks ucs rs n self oc ev = (o, rs', ev') ->
  table_ok rs' /\ (forall w, w ∈ rs' -> w ∈ rs) /\ (o = None -> forall uc, uc ∈ ucs -> clear uc self n rs').
Proof.
  revert rs ev. induction ucs as [|uc ucs IH]; intros rs ev Ht Hh Hu Hn; cbn [Plain.check_all].
  - intros [= <- <- <-]. split_and!; [done|done|]. intros _ uc Huc. by apply elem_of_nil in Huc.
  - destruct (plain_check uc rs n self oc ev) as [[o1 rs1] ev1] eqn:E1.
    apply check_one_spec in E1 as (Ht1 & Hs1 & Hc1); [|done|done|apply Hu; left|done].
    destruct o1 as [u|]; [by intros [= <- <- <-]|].
    intros (Ht' & Hs' & Hc')%IH; [|done|by eapply holds_sub|intros uc' Huc'; apply Hu; by right|done].
    split_and!; [done|auto|]. intros -> uc' [->|Huc']%elem_of_cons; [|by apply Hc'].
    intros r Hr. apply Hc1; auto.
Qed.

(** Adding a row next to which every other may stay. *)
Lemma holds_add rs rs' n :
  table_ok rs -> holds rs -> row_ok n -> (forall w, w ∈ rs' -> w = n \/ w ∈ rs) ->
  (forall uc w, uc ∈ t_uniqueConstraints schema -> w ∈ rs' -> conflict uc n w = true -> w = n) -> holds rs'.
Proof.
  intros Ht Hh Hn Hs Hc uc r1 r2 Hu H1 H2 Hx.
  destruct (Hs r1 H1) as [->|R1], (Hs r2 H2) as [->|R2].
  - done.
  - symmetry. by apply (Hc uc).
  - apply (Hc uc); [done..|]. apply conflicts_sym; try done. by apply (row_in rs).
  - by apply (Hh uc).
Qed.

(** *** Mutations of the plain table keep it valid *)

Definition valid (rs : list Row) : Prop := table_ok rs /\ holds rs.

Abbreviation plain_insert := (Plain.insert resolver (m_tableName m) schema).
Abbreviation plain_update := (Plain.update resolver (m_tableName m) schema).
Abbreviation plain_delete := (Plain.delete resolver schema).

Lemma self_new k vacated : pk_ok k -> (forall v, vacated = Some v -> pk_ok v) -> self_ok (mkSelf k vacated).
Proof. intros Hk Hv. split; [done|]. destruct vacated; [by apply Hv|done]. Qed.

(** Storing [r] once the checks have cleared the rest of the table: the rows
    at the keys of [self] are gone, or [r] itself. *)
Lemma put_valid rs rs' r self :
  valid rs -> row_ok r -> self_ok self -> table_ok rs' -> (forall w, w ∈ rs' -> w ∈ rs) ->
  (forall uc, uc ∈ t_uniqueConstraints schema -> clear uc self r rs') ->
  (forall w, w ∈ rs' -> is_self self (pk_of schema w) = true -> keyed (pk_of schema r) w) -> valid (put rs' r).
Proof.
  intros [Ht Hh] Hr Hs Ht' Hsub Hc Hself. split; [by apply store_entry_ok|].
  apply (holds_add rs _ r); [done|done|done| |].
  - intros w [->|[Hw _]]%put_elem; auto.
  - intros uc w Hu [->|[Hw Hne]]%put_elem Hx; [done| |done..]. exfalso. apply Hne, Hself; [done|].
    by apply (Hc uc).
Qed.

Lemma plain_insert_valid rs r oc : valid rs -> row_ok r -> valid (plain_insert rs r oc).1.
Proof.
  intros [Ht Hh] Hr. unfold Plain.insert. destruct (Plain.pk_outcome _ _ _ _); [done|].
  destruct (plain_checks _ _ _ _ _ _) as [[o rs'] ev'] eqn:E. pose proof (pk_of_ok r Hr) as Hk.
  apply check_all_spec in E as (Ht' & Hs' & Hc'); [|done..]. destruct o; [by split; [|eapply holds_sub]|].
  apply (put_valid rs rs' r (mkSelf (pk_of schema r) None)); [done|done|by apply self_new|done|done|by apply Hc'|].
  intros w Hw E. pose proof pk_laws. pose proof (pk_of_ok w (row_in rs' w Ht' Hw)).
  apply is_self_true in E as [E|(v & [=] & _)]; [|by apply self_new|done]. by apply (cmp_eq_sym pk_order).
Qed.

Lemma plain_update_valid rs k r oc : valid rs -> row_ok r -> pk_ok k -> valid (plain_update rs k r oc).1.
Proof.
  intros [Ht Hh] Hr Hk. unfold Plain.update. pose proof (pk_of_ok r Hr) as Hkr. pose proof pk_laws.
  destruct (get rs k) as [o|]; [|done]. unfold Plain.key_compare, Plain.key_of.
  rewrite (cmp_is_0 pk_ok _ pk_order pk_ordered) by done. case_bool_decide as Ek.
  - destruct (plain_checks _ _ _ _ _ _) as [[u rs'] ev'] eqn:E.
    apply check_all_spec in E as (Ht' & Hs' & Hc'); [|done..]. destruct u; [by split; [|eapply holds_sub]|].
    apply (put_valid rs rs' r (mkSelf k None)); [done|done|by apply self_new|done|done|by apply Hc'|].
    intros w Hw E. pose proof (pk_of_ok w (row_in rs' w Ht' Hw)).
    apply is_self_true in E as [E|(v & [=] & _)]; [|by apply self_new|done]. cbn in E.
    apply (cmp_eq_sym pk_order). by rewrite <- (cmp_eq_l pk_order _ _ _ Ek).
  - destruct (Plain.pk_outcome _ _ _ _); [done|].
    destruct (plain_checks _ _ _ _ _ _) as [[u rs'] ev'] eqn:E.
    apply check_all_spec in E as (Ht' & Hs' & Hc'); [|done..]. destruct u; [by split; [|eapply holds_sub]|].
    assert (Hsub : forall w, w ∈ del rs' k -> w ∈ rs' /\ ~ keyed k w) by (intros w; by apply del_elem).
    apply (put_valid rs (del rs' k) r (mkSelf (pk_of schema r) (Some k))).
    + done.
    + done.
    + apply self_new; [done|by intros v [= <-]].
    + by apply del_ok.
    + intros w [Hw _]%Hsub. auto.
    + intros uc Hu w [Hw _]%Hsub. by apply Hc'.
    + intros w [Hw Hne]%Hsub E. pose proof (pk_of_ok w (row_in rs' w Ht' Hw)).
      apply is_self_true in E as [E|(v & [= <-] & E)]; [by apply (cmp_eq_sym pk_order)| |by apply self_new; [|intros v [= <-]]|done].
      exfalso. apply Hne. by apply (cmp_eq_sym pk_order).
Qed.

Lemma plain_delete_valid rs k : valid rs -> pk_ok k -> valid (plain_delete rs k).1.
Proof.
  intros [Ht Hh] Hk. unfold Plain.delete. destruct (get rs k); [|done]. split; [by apply del_ok|].
  eapply holds_sub; [done|]. intros w [Hw _]%del_elem; done.
Qed.

(** *** The checks of a memory table *)

Lemma layer_table l : layer_ok l -> table_ok (rows l).
Proof. intros []. by split. Qed.

Abbreviation row_at := (lookupEffectiveRow resolver (T := T)).

Lemma on_conflict_spec uc eff l ev q r :
  layer_ok l -> pk_ok q -> spelled (rows l) q -> r ∈ rows l -> keyed q r ->
  exists o l' ev', on_conflict resolver m uc eff l ev q r = Ok (o, l', ev') /\
    layer_ok l' /\ Plain.resolve resolver (m_tableName m) schema uc (rows l) r eff ev = (o, rows l', ev').
Proof.
  intros Hl Hq Hsp Hin Hat. destruct (recordDelete_ok l q r Hl Hq Hsp Hin Hat) as (l' & Hd & Hl' & Hr').
  unfold on_conflict, Plain.resolve, Plain.key_of. rewrite Hd. unfold unique_message. rewrite (ok_schema l Hl). rewrite <- Hr'.
  destruct eff; cbn; eauto 10.
Qed.

(** What the loop sees at a candidate key. *)
Definition hit (uc : UniqueConstraintSchema) (n : Row) (self : UniqueCheckSelf) (compares : list (value -> value -> Z))
    (scope : Row -> bool) (l : layer) (q : Key) : option Row :=
  if is_self self q then None
  else match row_at q l with
       | Some r => if all_match compares (uc_columns uc) n r && scope r then Some r else None
       | None => None
       end.

Section Loop.
Context (uc : UniqueConstraintSchema) (n : Row) (self : UniqueCheckSelf) (eff : ConflictResolution).
Context (compares : list (value -> value -> Z)) (scope : Row -> bool).

Abbreviation loop := (candidate_loop resolver m uc n self eff compares scope).

Lemma loop_cons q cands l ev :
  layer_ok l ->
  loop (Ok q :: map Ok cands) l ev =
  match hit uc n self compares scope l q with
  | None => loop (map Ok cands) l ev
  | Some r =>
    let* x := on_conflict resolver m uc eff l ev q r in
    match x with
    | (Some result, l', ev') => Ok (Some result, l', ev')
    | (None, l', ev') => loop (map Ok cands) l' ev'
    end
  end.
Proof.
  intros Hl. cbn [candidate_loop res_bind]. rewrite (ok_manager Hm). unfold hit.
  destruct (is_self self q); [done|]. destruct (row_at q l) as [r|]; [|done].
  by destruct (all_match _ _ _ _), (scope r).
Qed.

Lemma loop_miss cands l ev :
  layer_ok l -> (forall q, q ∈ cands -> hit uc n self compares scope l q = None) -> loop (map Ok cands) l ev = Ok (None, l, ev).
Proof.
  intros Hl. induction cands as [|q cands IH]; intros H'; [done|].
  cbn [map]. rewrite loop_cons, (H' q) by (done || left). apply IH. intros q' Hq'. apply H'. by right.
Qed.

Lemma hit_row l q r :
  layer_ok l -> pk_ok q -> hit uc n self compares scope l q = Some r ->
  r ∈ rows l /\ keyed q r /\ is_self self q = false /\ all_match compares (uc_columns uc) n r && scope r = true.
Proof.
  intros Hl Hq. unfold hit. destruct (is_self self q); [done|]. destruct (row_at q l) as [r'|] eqn:El; [|done].
  destruct (all_match _ _ _ _ && scope r') eqn:E; [|done]. intros [= <-]. apply lookup_row in El as [Hin Hat]; done.
Qed.

Lemma hit_intro l q r :
  layer_ok l -> pk_ok q -> r ∈ rows l -> keyed q r -> is_self self q = false ->
  all_match compares (uc_columns uc) n r && scope r = true -> hit uc n self compares scope l q = Some r.
Proof.
  intros Hl Hq Hin Hat Hs E. unfold hit. rewrite Hs. rewrite (proj2 (lookup_row l q r Hl Hq) (conj Hin Hat)). by rewrite E.
Qed.

(** The loop resolves the one conflicting row, whichever candidates come
    before and after it. *)
Lemma loop_hit cands l ev r :
  layer_ok l -> (forall q, q ∈ cands -> pk_ok q) -> (forall q, q ∈ cands -> spelled (rows l) q) ->
  (forall q w, q ∈ cands -> hit uc n self compares scope l q = Some w -> w = r) ->
  (exists q, q ∈ cands /\ hit uc n self compares scope l q = Some r) ->
  exists o l' ev', loop (map Ok cands) l ev = Ok (o, l', ev') /\ layer_ok l' /\
    Plain.resolve resolver (m_tableName m) schema uc (rows l) r eff ev = (o, rows l', ev').
Proof.
  intros Hl. induction cands as [|q cands IH]; intros Hok Hspell Hone (q0 & Hq0 & Hh0); [by apply elem_of_nil in Hq0|].
  cbn [map]. rewrite loop_cons by done. destruct (hit uc n self compares scope l q) as [w|] eqn:Eh.
  - assert (w = r) as -> by (apply (Hone q w); [left|done]).
    assert (Hq : pk_ok q) by (apply Hok; left).
    pose proof (hit_row l q r Hl Hq Eh) as (Hin & Hat & _ & _).
    destruct (on_conflict_spec uc eff l ev q r Hl Hq (Hspell q ltac:(left)) Hin Hat) as (o & l' & ev' & -> & Hl' & Hr). cbn [res_bind].
    destruct o as [u|]; [eauto 10|]. exists None, l', ev'. split_and!; [|done|done]. apply loop_miss; [done|].
    intros q' Hq'. destruct (hit uc n self compares scope l' q') as [w|] eqn:Eh'; [|done]. exfalso.
    assert (Hkr : pk_ok (pk_of schema r)) by (apply pk_of_ok, (row_in (rows l)); [by apply layer_table|done]).
    assert (Hr' : rows l' = del (rows l) (pk_of schema r)) by (unfold Plain.resolve in Hr; by destruct eff; simplify_eq).
    assert (Hq'ok : pk_ok q') by (apply Hok; by right).
    apply hit_row in Eh' as (Hin' & Hat' & Hs' & Hm'); [|done|done].
    rewrite Hr' in Hin'. apply del_elem in Hin' as [Hin' Hne]; [|by apply layer_table|done].
    assert (w = r) as ->.
    { apply (Hone q'); [by right|]. by apply hit_intro. }
    apply Hne. pose proof pk_laws. apply (cmp_refl pk_order).
  - apply IH.
    + intros q' Hq'. apply Hok. by right.
    + intros q' Hq'. apply Hspell. by right.
    + intros q' w Hq'. apply Hone. by right.
    + exists q0. apply elem_of_cons in Hq0 as [->|Hq0]; [congruence|done].
Qed.

End Loop.

(** *** The covering index *)

Lemma map_lookup_eq {A B} (f : A -> B) (l l' : list A) j x y :
  map f l = map f l' -> l !! j = Some x -> l' !! j = Some y -> f x = f y.
Proof.
  intros E Hx Hy. apply (f_equal (lookup j)) in E. rewrite !list_lookup_fmap, Hx, Hy in E. by injection E.
Qed.

Lemma covers_order uc ix a b :
  uc ∈ t_uniqueConstraints schema -> ix ∈ t_indexes schema -> covers uc ix ->
  ix_order ix (index_key ix a) (index_key ix b) = Eq <-> agree uc (names_of uc) a b.
Proof.
  intros Hu Hix (Hcols & Hnames & _). unfold ix_order, index_key.
  rewrite (key_cmp_eq value_ok _ _ _ (length (ix_columns ix))) by (by rewrite length_map).
  rewrite Forall_lookup. unfold agree. pose proof (ok_ix_collation Hm) as Hcoll.
  eapply Forall_forall in Hcoll; [|exact Hix]. cbn in Hcoll.
  assert (Hj : forall j c name, ix_columns ix !! j = Some c -> names_of uc !! j = Some name ->
    column_order (ic_index c) (ic_collation c) = vcol (ic_index c) (Some (resolver name))).
  { intros j c name Hc Hn. eapply Forall_lookup in Hcoll as [cn Hcn]; [|exact Hc].
    assert (Hi : uc_columns uc !! j = Some (ic_index c)) by (by rewrite <- Hcols, list_lookup_fmap, Hc).
    assert (Hx : index_collations schema ix uc !! j = Some cn).
    { unfold index_collations. rewrite list_lookup_imap, Hi. cbn. by rewrite Hc; cbn; rewrite Hcn. }
    unfold column_order. rewrite Hcn. cbn. do 2 f_equal. apply (ok_collation_name Hm).
    by apply (map_lookup_eq normalizeCollationName _ _ j _ _ Hnames). }
  split.
  - intros H' j i name Hi Hn. rewrite <- Hcols, list_lookup_fmap in Hi.
    destruct (ix_columns ix !! j) as [c|] eqn:Hc; [|done]. injection Hi as <-.
    rewrite <- (Hj j c name Hc Hn).
    apply (H' j (column_order (ic_index c) (ic_collation c), ic_desc c, (cell a (ic_index c), cell b (ic_index c)))).
    apply lookup_zip_Some. rewrite list_lookup_fmap, Hc. split; [done|]. apply lookup_zip_Some.
    by rewrite !list_lookup_fmap, Hc.
  - intros H' j [[o d] [x y]] [Ho Hxy]%lookup_zip_Some. apply lookup_zip_Some in Hxy as [Hx Hy].
    rewrite list_lookup_fmap in Ho. rewrite list_lookup_fmap in Hx, Hy. destruct (ix_columns ix !! j) as [c|] eqn:Hc; [|done].
    cbn in *. simplify_eq.
    destruct (lookup_lt_is_Some_2 (names_of uc) j) as [name Hn].
    { rewrite length_names, <- Hcols, length_map. by eapply lookup_lt_Some. }
    rewrite (Hj j c name Hc Hn). apply (H' j); [|done]. by rewrite <- Hcols, list_lookup_fmap, Hc.
Qed.

Lemma covers_comparators uc ix :
  covers uc ix ->
  comparators_for resolver schema uc (index_collations schema ix uc) =
  Plain.uc_compares resolver schema uc.
Proof.
  intros (_ & Hnames & _). unfold Plain.uc_compares, comparators_for. f_equal.
  apply list_eq. intros j. rewrite !list_lookup_fmap. apply (f_equal (lookup j)) in Hnames as E.
  rewrite !list_lookup_fmap in E.
  destruct (index_collations schema ix uc !! j), (names_of uc !! j); cbn in *; simplify_eq; [|done].
  f_equal. by apply (ok_collation_name Hm).
Qed.

Lemma covers_scope uc ix r : covers uc ix -> rowMatchesPredicate ix r = Plain.in_scope uc r.
Proof. intros (_ & _ & E). unfold rowMatchesPredicate, Plain.in_scope. by rewrite E. Qed.

(** The primary keys listed at a key. *)
Lemma getPrimaryKeys_spec ix mi k :
  ix ∈ t_indexes schema -> mi_spec mi = ix -> data_ok ix (data_of mi) -> ix_ok ix k ->
  (forall q, q ∈ getPrimaryKeys resolver schema mi k -> pk_ok q /\ lists ix (data_of mi) k q) /\
  (forall p, lists ix (data_of mi) k p ->
     exists q, q ∈ getPrimaryKeys resolver schema mi k /\ same q p).
Proof.
  intros Hix Hs Hd Hk. unfold getPrimaryKeys. rewrite Hs. pose proof (ix_laws ix Hix). pose proof pk_laws.
  destruct (bt_get _ _ _ _) as [e|] eqn:Eg.
  - destruct (entry_found ix mi k e Hix Hd Hk Eg) as (Hin & Hat & (Hn & Hf & _) & Hke).
    assert (Hl : forall p, lists ix (data_of mi) k p <-> exists q, q ∈ map snd (primaryKeys e) /\ same q p).
    { intros p. apply (lists_at ix (data_of mi) e k k); try done. apply (cmp_refl (ix_order ix)). }
    unfold getSortedPrimaryKeys. setoid_rewrite elem_of_js_sort. split; [|intros p; apply Hl].
    intros q Hq. split; [|apply Hl; by exists q].
    apply list_elem_of_fmap in Hq as (x & -> & Hx). eapply Forall_forall in Hf as [_ Hpk]; [|exact Hx]. done.
  - split; [intros q Hq; by apply elem_of_nil in Hq|]. intros p Hp. exfalso.
    eapply (entry_missing ix mi k k p Hix Hd Hk Eg); [apply (cmp_refl (ix_order ix))|done].
Qed.

(** A listed key is spelled as the key of its row. *)
Lemma listed_spelled l ix mi k q :
  layer_ok l -> ix ∈ t_indexes schema -> index_ok ix (rows l) (data_of mi) -> ix_ok ix k -> pk_ok q ->
  lists ix (data_of mi) k q -> spelled (rows l) q.
Proof.
  intros Hl Hix [_ Hls] Hk Hq (r & Hr & _ & _ & E)%Hls w Hw Hat; [|done|done]. pose proof pk_laws.
  assert (Hrq : keyed q r) by (apply (ok_code Hschema); [|done|done]; by apply pk_of_ok, (row_in (rows l)); [apply layer_table|]).
  by assert (w = r) as -> by (apply (content_at_unique (pk_of schema) pk_ok pk_order (rows l) q); [apply (ok_content l Hl)|done..]).
Qed.

Lemma via_index l uc ix mi n self eff ev oc :
  layer_ok l -> holds (rows l) -> uc ∈ t_uniqueConstraints schema -> ix ∈ t_indexes schema -> covers uc ix ->
  mi_spec mi = ix -> index_ok ix (rows l) (data_of mi) -> row_ok n -> self_ok self -> no_null uc n ->
  rowMatchesPredicate ix n = true -> eff = Plain.action oc (uc_defaultConflict uc) ->
  exists o l' ev', checkUniqueViaIndex resolver m l uc mi n self eff ev = Ok (o, l', ev') /\
    layer_ok l' /\ plain_check uc (rows l) n self oc ev = (o, rows l', ev').
Proof.
  intros Hl Hh Hu Hix Hcov Hs [Hd Hls] Hn Hself Hnn Hsn ->. unfold checkUniqueViaIndex.
  rewrite Hs, (keyFromRow_ok ix n Hix Hn), (ok_schema l Hl). cbn [res_bind].
  pose proof (index_key_ok ix n Hn) as Hk. pose proof (layer_table l Hl) as Ht. pose proof pk_laws.
  destruct (getPrimaryKeys_spec ix mi (index_key ix n) Hix Hs Hd Hk) as [Hsound Hcomplete].
  set (cands := getPrimaryKeys resolver schema mi (index_key ix n)) in *.
  set (compares := comparators_for resolver schema uc (index_collations schema ix uc)).
  set (eff := Plain.action oc (uc_defaultConflict uc)).
  assert (Htest : forall r, row_ok r -> all_match compares (uc_columns uc) n r && rowMatchesPredicate ix r = conflict uc n r).
  { intros r Hr. unfold compares. rewrite (covers_comparators uc ix Hcov), (covers_scope uc ix r Hcov).
    unfold Plain.conflicts. rewrite (proj2 (null_test uc n) Hnn), <- (covers_scope uc ix n Hcov), Hsn. cbn. apply andb_comm. }
  match goal with |- exists o l' ev', ?x = _ /\ _ => replace x with
    (candidate_loop resolver m uc n self eff compares (rowMatchesPredicate ix) (map Ok cands) l ev)
    by (by destruct cands) end.
  unfold Plain.check_one.
  assert (Hqok : forall q, q ∈ cands -> pk_ok q) by (intros q Hq; by apply Hsound).
  assert (Hspell : forall q, q ∈ cands -> spelled (rows l) q) by (intros q Hq; apply (listed_spelled l ix mi (index_key ix n)); by try apply Hsound).
  assert (Hhits : forall q w, q ∈ cands -> hit uc n self compares (rowMatchesPredicate ix) l q = Some w ->
    w ∈ rows l /\ is_self self (pk_of schema w) = false /\ conflict uc n w = true).
  { intros q w Hq (Hin & Hat & Hns & Hmt)%hit_row; [|done|by apply Hqok]. pose proof (row_in (rows l) w Ht Hin) as Hw.
    rewrite <- (Htest w Hw). split_and!; [done| |done]. rewrite <- Hns.
    apply is_self_eq; [done|by apply pk_of_ok|by apply Hqok|done]. }
  destruct (find_c uc self n (rows l)) as [r|] eqn:Ef.
  - apply find_conflict_some in Ef as (Hin & Hns & Hc). pose proof (row_in (rows l) r Ht Hin) as Hr.
    apply loop_hit; [done|done|done| |].
    + intros q w Hq (Hwin & _ & Hwc)%Hhits; [|done]. destruct Ht as [_ Hf].
      by apply (conflict_unique (rows l) uc n w r).
    + pose proof Hc as Hc'. apply conflicts_spec in Hc' as (_ & _ & Hsr & Hag); [|done..].
      destruct (Hcomplete (pk_of schema r)) as (q & Hq & Es).
      { apply Hls; [done|by apply pk_of_ok|]. exists r. split_and!; [done|by rewrite (covers_scope uc ix r Hcov)| |done].
        apply (covers_order uc ix); [done..|]. by apply agree_sym. }
      assert (pk_order q (pk_of schema r) = Eq) by (apply (ok_code Hschema); [by apply Hqok|by apply pk_of_ok|done]).
      exists q. split; [done|]. apply hit_intro; [done|by apply Hqok|done|by apply (cmp_eq_sym pk_order)| |by rewrite Htest].
      rewrite <- Hns. by apply is_self_eq; [|apply Hqok|apply pk_of_ok|].
  - exists None, l, ev. split_and!; [|done|done]. apply loop_miss; [done|]. intros q Hq.
    destruct (hit uc n self compares (rowMatchesPredicate ix) l q) as [w|] eqn:Eh; [|done]. exfalso.
    apply Hhits in Eh as (Hin & Hns & Hc); [|done]. rewrite (find_conflict_none uc self n (rows l) w) in Hns; done.
Qed.

(** *** One constraint *)

Abbreviation find_index := (findIndexForConstraint normalizeCollationName (T := T)).

Lemma names_declared uc :
  uc_derivedFromIndex uc = None -> names_of uc = map (declared_collation schema) (uc_columns uc).
Proof.
  intros E. unfold Plain.enforcement_names, uniqueEnforcementCollations. rewrite E. cbn.
  apply list_eq. intros j. rewrite !list_lookup_fmap, list_lookup_imap.
  destruct (uc_columns uc !! j) as [i|]; [|done]. cbn. unfold declared_collation. by destruct (t_columns schema !! i).
Qed.

Lemma match_declared ix uc :
  indexCollationsMatchDeclared normalizeCollationName m ix uc = true ->
  map normalizeCollationName (index_collations schema ix uc) =
  map normalizeCollationName (map (declared_collation schema) (uc_columns uc)).
Proof.
  unfold indexCollationsMatchDeclared. rewrite (ok_manager Hm), forallb_zip. intros H'.
  apply list_eq. intros j. rewrite !list_lookup_fmap. unfold index_collations in *.
  specialize (H' j). rewrite list_lookup_imap, list_lookup_fmap in *.
  destruct (uc_columns uc !! j) as [i|]; [|done]. cbn in *. specialize (H' _ _ eq_refl eq_refl). cbn in H'.
  by apply bool_decide_eq_true in H' as ->.
Qed.

Lemma column_set_scan_spec l uc ixs s :
  column_set_scan normalizeCollationName m l uc ixs = Some s ->
  exists ix mi, s = MemoryIndexStructure (T := T) mi /\ ix ∈ ixs /\ secondaryIndexes l !! ix_name ix = Some mi /\
    ix_predicate ix = None /\ map ic_index (ix_columns ix) = uc_columns uc /\
    indexCollationsMatchDeclared normalizeCollationName m ix uc = true.
Proof.
  induction ixs as [|ix ixs IH]; cbn [column_set_scan]; [done|].
  assert (Hmore : column_set_scan normalizeCollationName m l uc ixs = Some s ->
    exists ix' mi, s = MemoryIndexStructure (T := T) mi /\ ix' ∈ ix :: ixs /\ secondaryIndexes l !! ix_name ix' = Some mi /\
    ix_predicate ix' = None /\ map ic_index (ix_columns ix') = uc_columns uc /\
    indexCollationsMatchDeclared normalizeCollationName m ix' uc = true).
  { intros (ix' & mi & E & Hin & Hrest)%IH. exists ix', mi. split_and!; [done|by right|apply Hrest..]. }
  case_bool_decide as Ep; [done|]. case_bool_decide as Ec; [|done]. cbn.
  destruct (indexCollationsMatchDeclared normalizeCollationName m ix uc) eqn:Em; [|done]. cbn.
  destruct (secondaryIndexes l !! ix_name ix) as [mi|] eqn:El; [|done]. intros [= <-].
  exists ix, mi. split_and!; try done; [left|]. by apply eq_None_not_Some.
Qed.

(** The structure the check goes through covers the constraint; without one,
    the constraint is plain. *)
Lemma find_index_spec l uc allow :
  l_schema l = schema -> indexes_present l -> uc ∈ t_uniqueConstraints schema ->
  match find_index m l uc allow with
  | Some (MemoryIndexStructure mi) =>
    exists ix, ix ∈ t_indexes schema /\ secondaryIndexes l !! ix_name ix = Some mi /\ mi_spec mi = ix /\ covers uc ix
  | Some (MaterializedViewStructure _) => False
  | None => uc_predicate uc = None /\ uc_derivedFromIndex uc = None
  end.
Proof.
  intros Hls Hp Hu. unfold findIndexForConstraint. rewrite Hls, (ok_no_view Hm uc Hu).
  destruct allow; cbn; pose proof (ok_by_name Hm uc Hu) as Hb; unfold by_name, index_name_of in *;
  (destruct (uc_derivedFromIndex uc) as [name|] eqn:Ed;
   [destruct Hb as (ix & Hix & <- & Hc); destruct (Hp ix Hix) as (mi & El & Hmi); rewrite El; by exists ix|]);
  (destruct (getImplicitCoveringStructure m uc) as [own|]; cbn in *;
   [destruct Hb as (ix & Hix & <- & Hc); destruct (Hp ix Hix) as (mi & El & Hmi); rewrite El; by exists ix|]);
  rewrite Hb; cbn;
  (destruct (column_set_scan _ _ _ _ _) as [s|] eqn:Es; [|done]);
  apply column_set_scan_spec in Es as (ix & mi & -> & Hix & El & Ep & Ec & Em);
  exists ix; destruct (Hp ix Hix) as (mi' & El' & Hmi); simplify_eq;
  (split_and!; try done); (split_and!; [done| |congruence]);
  rewrite (names_declared uc Ed); by apply match_declared.
Qed.

Lemma layer_present l : layer_ok l -> indexes_present l.
Proof. intros Hl ix Hix. destruct (ok_indexes l Hl ix Hix) as (mi & E & Hs & _). eauto. Qed.

Lemma stored_spelled l r : layer_ok l -> r ∈ rows l -> spelled (rows l) (pk_of schema r).
Proof.
  intros Hl Hr w Hw Hat. pose proof pk_laws.
  assert (w = r) as ->; [|done]. apply (content_at_unique (pk_of schema) pk_ok pk_order (rows l) (pk_of schema r)); [apply (ok_content l Hl)|done|done|done|].
  apply (cmp_refl pk_order).
Qed.

Lemma scan_loop_spec uc n self eff rs l ev oc :
  layer_ok l -> (forall w, w ∈ rs -> w ∈ rows l) -> uc ∈ t_uniqueConstraints schema -> uc_predicate uc = None ->
  uc_derivedFromIndex uc = None -> no_null uc n -> eff = Plain.action oc (uc_defaultConflict uc) ->
  exists o l' ev', scan_loop resolver m uc n self eff
      (comparators_for resolver schema uc (map (declared_collation schema) (uc_columns uc))) rs l ev = Ok (o, l', ev') /\
    layer_ok l' /\
    match find_c uc self n rs with
    | None => (None, rows l, ev)
    | Some r => Plain.resolve resolver (m_tableName m) schema uc (rows l) r eff ev
    end = (o, rows l', ev').
Proof.
  intros Hl Hsub Hu Hp Hd Hnn ->. rewrite <- (names_declared uc Hd). pose proof pk_laws.
  change (comparators_for resolver schema uc (names_of uc))
    with (Plain.uc_compares resolver schema uc).
  induction rs as [|r rs IH]; cbn [scan_loop]; [eauto 10|].
  assert (Hin : r ∈ rows l) by (apply Hsub; left). pose proof (row_in _ r (layer_table l Hl) Hin) as Hr.
  rewrite (ok_manager Hm), (extractFromRow_ok r Hr), Hp. cbn [res_bind].
  unfold Plain.find_conflict in *. cbn [List.find]. fold (pk_of schema r).
  change (Plain.key_of schema r) with (pk_of schema r).
  unfold Plain.conflicts at 1. rewrite (proj2 (null_test uc n) Hnn). unfold Plain.in_scope. rewrite Hp. cbn [negb andb].
  destruct (is_self self (pk_of schema r)); cbn [negb andb]; [apply IH; intros w Hw; apply Hsub; by right|].
  destruct (all_match _ _ n r); cbn [negb]; [|apply IH; intros w Hw; apply Hsub; by right].
  apply on_conflict_spec; [done|by apply pk_of_ok|by apply stored_spelled|done|apply (cmp_refl pk_order)].
Qed.

Abbreviation check_single :=
  (checkSingleUniqueConstraint resolver normalizeCollationName m).

Lemma check_single_spec l uc n self oc ev allow :
  layer_ok l -> holds (rows l) -> uc ∈ t_uniqueConstraints schema -> row_ok n -> self_ok self ->
  exists o l' ev', check_single l uc n self oc ev allow = Ok (o, l', ev') /\ layer_ok l' /\
    plain_check uc (rows l) n self oc ev = (o, rows l', ev').
Proof.
  intros Hl Hh Hu Hn Hself. unfold checkSingleUniqueConstraint.
  assert (Hmiss : (forall r, r ∈ rows l -> conflict uc n r = false) -> plain_check uc (rows l) n self oc ev = (None, rows l, ev)).
  { intros Hno. unfold Plain.check_one. destruct (find_c uc self n (rows l)) as [r|] eqn:Ef; [|done].
    apply find_conflict_some in Ef as (Hin & _ & Hc). by rewrite (Hno r Hin) in Hc. }
  destruct (existsb _ (uc_columns uc)) eqn:Enull.
  { exists None, l, ev. split_and!; [done|done|]. apply Hmiss. intros r _. unfold Plain.conflicts. by rewrite Enull. }
  apply null_test in Enull. pose proof (find_index_spec l uc allow (ok_schema l Hl) (layer_present l Hl) Hu) as Hf.
  destruct (find_index m l uc allow) as [[mi|view]|]; [|done|].
  - destruct Hf as (ix & Hix & El & Hs & Hcov). destruct (ok_indexes l Hl ix Hix) as (mi' & El' & _ & Hok).
    rewrite El in El'. injection El' as <-. rewrite Hs.
    destruct (rowMatchesPredicate ix n) eqn:Hsn; cbn [negb].
    + by apply (via_index l uc ix).
    + exists None, l, ev. split_and!; [done|done|]. apply Hmiss. intros r _. unfold Plain.conflicts.
      rewrite <- (covers_scope uc _ n Hcov), Hsn. by rewrite andb_false_r.
  - destruct Hf as [Hp Hd]. unfold checkUniqueByScanning. rewrite (ok_schema l Hl).
    by apply (scan_loop_spec uc n self _ (rows l) l ev oc).
Qed.

Lemma check_all_refines ucs l n self oc ev :
  layer_ok l -> holds (rows l) -> (forall uc, uc ∈ ucs -> uc ∈ t_uniqueConstraints schema) -> row_ok n -> self_ok self ->
  exists o l' ev', checkUniqueConstraints resolver normalizeCollationName m ucs l n self oc ev
    = Ok (o, l', ev') /\ layer_ok l' /\ plain_checks ucs (rows l) n self oc ev = (o, rows l', ev').
Proof.
  revert l ev. induction ucs as [|uc ucs IH]; intros l ev Hl Hh Hu Hn Hself; cbn [checkUniqueConstraints Plain.check_all];
    [eauto 10|].
  assert (Huc : uc ∈ t_uniqueConstraints schema) by (apply Hu; left).
  destruct (check_single_spec l uc n self oc ev true Hl Hh Huc Hn Hself) as (o & l1 & ev1 & -> & Hl1 & E). cbn [res_bind].
  rewrite E. apply check_one_spec in E as (_ & Hsub & _); [|by apply layer_table|done..].
  destruct o as [u|]; [eauto 10|]. apply IH; try done; [by eapply holds_sub|]. intros uc' Huc'. apply Hu. by right.
Qed.

(** *** Updates that leave every constrained column alone *)

Lemma any_changed cols (a b : Row) i :
  anyColumnChanged cols a b = false -> i ∈ cols ->
  compareSqlValues (cell a i) (cell b i) = 0.
Proof.
  unfold anyColumnChanged. rewrite <- not_true_iff_false, existsb_exists. intros H' Hi.
  destruct (Z.eqb_spec (compareSqlValues (cell a i) (cell b i)) 0) as [E|E]; [done|].
  exfalso. apply H'. exists i. rewrite <- list_elem_of_In. split; [done|]. apply negb_true_iff. by apply Z.eqb_neq.
Qed.

Lemma unchanged_agrees committed old n uc :
  l_schema committed = schema -> indexes_present committed -> row_ok old -> row_ok n -> uc ∈ t_uniqueConstraints schema ->
  uniqueColumnsChanged (t_uniqueConstraints schema) old n
    (predicate_columns normalizeCollationName m committed) = false ->
  agree uc (names_of uc) old n /\ Plain.in_scope uc old = Plain.in_scope uc n.
Proof.
  intros Hcs Hcp Ho Hn Hu. unfold uniqueColumnsChanged. rewrite <- not_true_iff_false, existsb_exists. intros H'.
  assert (Huc : anyColumnChanged (uc_columns uc) old n = false /\
    forall p, uc_predicate uc = Some p -> anyColumnChanged (referencedColumns p) old n = false).
  { split.
    - apply not_true_iff_false. intros E. apply H'. exists uc. rewrite <- list_elem_of_In. by rewrite E.
    - intros p Hp. apply not_true_iff_false. intros E. apply H'. exists uc. rewrite <- list_elem_of_In.
      split; [done|]. rewrite Hp. unfold predicate_columns.
      pose proof (find_index_spec committed uc true Hcs Hcp Hu) as Hf.
      destruct (find_index m committed uc true) as [[mi|]|]; [|done|].
      + destruct Hf as (ix & _ & _ & -> & (_ & _ & ->)). rewrite Hp. cbn. by rewrite E, orb_true_r.
      + rewrite Hp. cbn. by rewrite E, orb_true_r. }
  destruct Huc as [Hc Hp]. split.
  - intros j i name Hi Hnm. apply (ok_same Hm); [by eapply uc_bound|by apply cell_ok|by apply cell_ok|by apply cell_column|by apply cell_column|].
    apply (any_changed (uc_columns uc)); [done|]. by eapply list_elem_of_lookup_2.
  - unfold Plain.in_scope. destruct (uc_predicate uc) as [p|] eqn:Ep; [|done].
    rewrite (ok_predicate Hm uc p old n Hu Ep Ho Hn); [done|]. intros i Hi. by eapply any_changed; [apply Hp|].
Qed.

Lemma unchanged_checks committed rs k old n oc ucs :
  l_schema committed = schema -> indexes_present committed -> valid rs -> row_ok n -> pk_ok k -> old ∈ rs -> keyed k old ->
  (forall uc, uc ∈ ucs -> uc ∈ t_uniqueConstraints schema) ->
  uniqueColumnsChanged (t_uniqueConstraints schema) old n
    (predicate_columns normalizeCollationName m committed) = false ->
  plain_checks ucs rs n (mkSelf k None) oc [] = (None, rs, []).
Proof.
  intros Hcs Hcp [Ht Hh] Hn Hk Hin Hat Hu Hch. pose proof (row_in rs old Ht Hin) as Ho.
  induction ucs as [|uc ucs IH]; [done|]. cbn [Plain.check_all]. unfold Plain.check_one.
  assert (Huc : uc ∈ t_uniqueConstraints schema) by (apply Hu; left).
  destruct (unchanged_agrees committed old n uc Hcs Hcp Ho Hn Huc Hch) as [Hag Hsc].
  destruct (find_c uc (mkSelf k None) n rs) as [r|] eqn:Ef; [exfalso|apply IH; intros uc' Huc'; apply Hu; by right].
  apply find_conflict_some in Ef as (Hr & Hns & Hc). pose proof (row_in rs r Ht Hr) as Hro.
  apply conflicts_spec in Hc as (Hnn & Sn & Sr & Hnr); [|done..].
  assert (Heq : old = r).
  { apply (Hh uc); try done. apply conflicts_spec; [done..|]. rewrite Hsc. split_and!; try done.
    - intros i Hi. rewrite (agree_null uc (names_of uc) old n i); auto using length_names.
    - by apply (agree_trans uc _ old n r). }
  subst r. apply not_true_iff_false in Hns. apply Hns, is_self_true; [by apply self_new|by apply pk_of_ok|].
  left. pose proof pk_laws. by apply (cmp_eq_sym pk_order).
Qed.

(** *** Mutations *)

Abbreviation insert := (performInsert resolver normalizeCollationName (T := T) m).
Abbreviation update := (performUpdate resolver normalizeCollationName (T := T) m).
Abbreviation delete := (performDelete resolver (T := T) m).

(** A layer that holds a valid table. *)
Definition layer_valid (l : layer) : Prop := layer_ok l /\ holds (rows l).

Lemma pk_outcome_eq oc message existing :
  (existing ≫= fun e => resolvePkConflict schema oc e message) = Plain.pk_outcome schema oc message existing.
Proof.
  destruct existing as [e|]; [|done]. cbn. unfold resolvePkConflict. unfold Plain.action.
  by destruct (default ABORT _).
Qed.

Definition row_arg (pre : bool) (vals : Row) : res Row := if pre then Ok vals else Types.coerceRowToSchema vals (t_columns schema).

(** The checks never remove the rows the mutation is about. *)
Lemma check_all_keeps ucs rs n self oc ev o rs' ev' w :
  table_ok rs -> holds rs -> (forall uc, uc ∈ ucs -> uc ∈ t_uniqueConstraints schema) -> row_ok n -> self_ok self ->
  plain_checks ucs rs n self oc ev = (o, rs', ev') -> w ∈ rs -> is_self self (pk_of schema w) = true -> w ∈ rs'.
Proof.
  revert rs ev. induction ucs as [|uc ucs IH]; intros rs ev Ht Hh Hu Hn Hself; cbn [Plain.check_all]; [by intros [= _ <- _]|].
  destruct (plain_check uc rs n self oc ev) as [[o1 rs1] ev1] eqn:E1. pose proof E1 as Hc1.
  apply check_one_spec in E1 as (Ht1 & Hs1 & _); [|done|done|apply Hu; left|done].
  assert (Hkeep : w ∈ rs -> is_self self (pk_of schema w) = true -> w ∈ rs1).
  { intros Hw Hsw. unfold Plain.check_one in Hc1. destruct (find_c uc self n rs) as [r|] eqn:Ef; [|by simplify_eq].
    apply find_conflict_some in Ef as (Hr & Hns & _). unfold Plain.resolve in Hc1.
    destruct (Plain.action _ _); simplify_eq; try done.
    pose proof (pk_of_ok r (row_in rs r Ht Hr)). pose proof (pk_of_ok w (row_in rs w Ht Hw)).
    apply del_elem; [done|done|]. split; [done|]. intros E.
    rewrite (is_self_eq self (pk_of schema w) (pk_of schema r) Hself) in Hsw by done. congruence. }
  destruct o1; [by intros [= _ <- _]|].
  intros E Hw Hsw. apply (IH rs1 ev1); try done; [by eapply holds_sub| |by apply Hkeep].
  intros uc' Huc'. apply Hu. by right.
Qed.

(** So the row at a key of [self] is the same before and after them. *)
Lemma checked_old l l1 n self k oc ev o ev' :
  layer_ok l -> layer_ok l1 -> holds (rows l) -> row_ok n -> self_ok self -> pk_ok k -> is_self self k = true ->
  plain_checks (t_uniqueConstraints schema) (rows l) n self oc ev = (o, rows l1, ev') ->
  old_row (rows l1) k (row_at k l).
Proof.
  intros Hl Hl1 Hh Hn Hself Hk Hsk E. pose proof (lookup_old l k Hl Hk) as Hold. pose proof (layer_table l Hl) as Ht.
  destruct (check_all_spec _ _ _ _ _ _ _ _ _ Ht Hh (fun uc H => H) Hn E) as (_ & Hsub & _).
  destruct (row_at k l) as [w|]; cbn in *; [|intros w Hw; by apply Hold, Hsub]. destruct Hold as [Hw Hat]. split; [|done].
  apply (check_all_keeps _ _ _ _ _ _ _ _ _ w Ht Hh (fun uc H => H) Hn Hself E Hw).
  rewrite <- Hsk. apply is_self_eq; [done|by apply pk_of_ok, (row_in (rows l))|done|done].
Qed.

(** The checks only remove rows, so spelling survives them. *)
Lemma checked_spelled l l1 n self k oc ev o ev' :
  layer_ok l -> holds (rows l) -> row_ok n ->
  plain_checks (t_uniqueConstraints schema) (rows l) n self oc ev = (o, rows l1, ev') ->
  spelled (rows l) k -> spelled (rows l1) k.
Proof.
  intros Hl Hh Hn E Hsp w Hw. apply Hsp.
  destruct (check_all_spec _ _ _ _ _ _ _ _ _ (layer_table l Hl) Hh (fun uc H => H) Hn E) as (_ & Hsub & _). auto.
Qed.

Lemma insert_refines l vals r oc pre :
  layer_valid l -> row_arg pre vals = Ok r -> row_ok r -> spelled (rows l) (pk_of schema r) ->
  exists l' u, insert l (Some vals) oc pre = Ok (l', u) /\ layer_ok l' /\ plain_insert (rows l) r oc = (rows l', u).
Proof.
  intros [Hl Hh] Hra Hr Hsp. unfold performInsert. unfold row_arg in Hra. rewrite (ok_schema l Hl), Hra. cbn [res_bind].
  rewrite (ok_manager Hm), (extractFromRow_ok r Hr). cbn [res_bind].
  pose proof (pk_of_ok r Hr) as Hk. pose proof (layer_table l Hl) as Ht. pose proof pk_laws.
  rewrite pk_outcome_eq. unfold Plain.insert, Plain.key_of. rewrite <- (lookup_get l _ Hl Hk).
  unfold UNIQUE_PK_MESSAGE. destruct (Plain.pk_outcome _ _ _ _); [eauto 10|].
  assert (Hself : self_ok (mkSelf (pk_of schema r) None)) by (by apply self_new).
  destruct (check_all_refines (t_uniqueConstraints schema) l r _ oc [] Hl Hh (fun uc H => H) Hr Hself)
    as (o & l1 & ev1 & -> & Hl1 & E). rewrite E. cbn [res_bind]. destruct o as [u|]; [eauto 10|].
  destruct (recordUpsert_ok l1 (pk_of schema r) r (row_at (pk_of schema r) l) Hl1 Hr Hk) as (l2 & -> & Hl2 & Er);
    [done|by apply (checked_spelled l l1 r _ _ _ _ _ _ Hl Hh Hr E)| |cbn [res_bind]; rewrite <- Er; eauto 10].
  eapply checked_old; eauto. apply is_self_true; [done|done|]. left. apply (cmp_refl pk_order).
Qed.

Lemma update_pk_refines l k r old oc :
  layer_valid l -> row_ok r -> pk_ok k -> spelled (rows l) k -> spelled (rows l) (pk_of schema r) ->
  row_at k l = Some old -> pk_order k (pk_of schema r) <> Eq ->
  exists l' u, performUpdateWithPrimaryKeyChange resolver normalizeCollationName (T := T) m l k
      (pk_of schema r) old r oc = Ok (l', u) /\ layer_ok l' /\ plain_update (rows l) k r oc = (rows l', u).
Proof.
  intros [Hl Hh] Hr Hk Hspk Hspr Hold Hne. unfold performUpdateWithPrimaryKeyChange. cbv zeta.
  pose proof (pk_of_ok r Hr) as Hkr. pose proof (layer_table l Hl) as Ht. pose proof pk_laws.
  unfold Plain.update, Plain.key_of, Plain.key_compare. rewrite <- (lookup_get l k Hl Hk), Hold.
  rewrite (cmp_is_0 pk_ok _ pk_order pk_ordered), bool_decide_eq_false_2 by done.
  rewrite (ok_schema l Hl), pk_outcome_eq, <- (lookup_get l _ Hl Hkr). unfold UNIQUE_NEW_PK_MESSAGE.
  destruct (Plain.pk_outcome _ _ _ _); [eauto 10|].
  assert (Hself : self_ok (mkSelf (pk_of schema r) (Some (A := BTreeKey) k))) by (apply self_new; [done|by intros v [= <-]]).
  destruct (check_all_refines (t_uniqueConstraints schema) l r _ oc [] Hl Hh (fun uc H => H) Hr Hself)
    as (o & l1 & ev1 & -> & Hl1 & E). rewrite E. cbn [res_bind]. destruct o as [u|]; [eauto 10|].
  assert (Hs1 : is_self (mkSelf (pk_of schema r) (Some (A := BTreeKey) k)) (pk_of schema r) = true)
    by (apply is_self_true; [done|done|left; apply (cmp_refl pk_order)]).
  assert (Hs2 : is_self (mkSelf (pk_of schema r) (Some (A := BTreeKey) k)) k = true)
    by (apply is_self_true; [done|done|right; exists k; split; [done|apply (cmp_refl pk_order)]]).
  pose proof (checked_old l l1 r _ (pk_of schema r) oc [] None ev1 Hl Hl1 Hh Hr Hself Hkr Hs1 E) as Ho1.
  pose proof (checked_old l l1 r _ k oc [] None ev1 Hl Hl1 Hh Hr Hself Hk Hs2 E) as Ho2. rewrite Hold in Ho2.
  apply (checked_spelled l l1 r _ _ _ _ _ _ Hl Hh Hr E) in Hspk, Hspr.
  destruct Ho2 as [Hin Hat]. pose proof (layer_table l1 Hl1) as Ht1.
  assert (Hfirst : exists l2, match row_at (pk_of schema r) l with
      | Some e => recordDelete resolver l1 (pk_of schema r) e
      | None => Ok l1 end = Ok l2 /\ layer_ok l2 /\ forall w, w ∈ rows l2 <-> w ∈ rows l1 /\ ~ keyed (pk_of schema r) w).
  { destruct (row_at (pk_of schema r) l) as [e|].
    - destruct Ho1 as [Hin1 Hat1]. destruct (recordDelete_ok l1 (pk_of schema r) e Hl1 Hkr Hspr Hin1 Hat1) as (l2 & E2 & Hl2 & Er2).
      exists l2. split_and!; [done|done|]. intros w. rewrite Er2, del_elem by (done || by apply pk_of_ok, (row_in (rows l1))).
      unfold at_key in *. by rewrite (cmp_eq_r pk_order _ _ (pk_of schema w) Hat1).
    - exists l1. split_and!; [done|done|]. intros w. split; [|naive_solver]. intros Hw. split; [done|by apply Ho1]. }
  destruct Hfirst as (l2 & -> & Hl2 & Hw2). cbn [res_bind]. pose proof (layer_table l2 Hl2) as Ht2.
  assert (Hin2 : old ∈ rows l2).
  { apply Hw2. split; [done|]. intros Ekr. apply Hne. unfold at_key in *. rewrite <- Ekr. symmetry. by apply (cmp_eq_l pk_order). }
  destruct (recordDelete_ok l2 k old Hl2 Hk (fun w Hw => Hspk w (proj1 (proj1 (Hw2 w) Hw))) Hin2 Hat) as (l3 & -> & Hl3 & Er3). cbn [res_bind].
  pose proof (layer_table l3 Hl3) as Ht3. assert (Hko : pk_ok (pk_of schema old)) by (by apply pk_of_ok, (row_in (rows l2))).
  assert (Hw3 : forall w, w ∈ rows l3 <-> w ∈ rows l2 /\ ~ keyed k w).
  { intros w. rewrite Er3, del_elem by done. unfold at_key in *. by rewrite (cmp_eq_r pk_order _ _ (pk_of schema w) Hat). }
  destruct (recordUpsert_ok l3 (pk_of schema r) r None Hl3 Hr Hkr) as (l4 & -> & Hl4 & Er4); [done| | |].
  { intros w [[_ Hno]%Hw2 _]%Hw3 Hat'. by destruct Hno. }
  { intros w [Hw _]%Hw3. by apply Hw2. }
  cbn [res_bind]. eexists _, _. split_and!; [done|done|]. f_equal. rewrite Er4.
  apply table_ext; [by apply store_entry_ok; [apply del_ok|]|by apply store_entry_ok|]. intros w.
  rewrite !put_elem, Hw3, Hw2, del_elem by (done || by apply del_ok). tauto.
Qed.

Lemma update_refines committed l vals old k r oc pre :
  layer_valid l -> l_schema committed = schema -> indexes_present committed ->
  row_arg pre vals = Ok r -> row_ok r -> buildPrimaryKeyFromValues old (t_primaryKeyDefinition schema) = Ok k -> pk_ok k ->
  spelled (rows l) k -> spelled (rows l) (pk_of schema r) -> (pk_order k (pk_of schema r) = Eq -> same (pk_of schema r) k) ->
  exists l' u, update committed l (Some vals) (Some old) oc pre = Ok (l', u) /\ layer_ok l' /\
    plain_update (rows l) k r oc = (rows l', u).
Proof.
  intros [Hl Hh] Hcs Hcp Hra Hr Hb Hk Hspk Hspr Hsame. unfold performUpdate. unfold row_arg in Hra. rewrite (ok_schema l Hl), Hra. cbn [res_bind].
  rewrite (ok_manager Hm), Hb, (extractFromRow_ok r Hr). cbn [res_bind].
  destruct (row_at k l) as [o|] eqn:Eo;
    [|exists l; eexists; split_and!; [done|done|]; unfold Plain.update; by rewrite <- (lookup_get l k Hl Hk), Eo].
  pose proof (pk_of_ok r Hr) as Hkr. pose proof (layer_table l Hl) as Ht. pose proof pk_laws.
  rewrite (cmp_is_0 pk_ok _ pk_order pk_ordered) by done. case_bool_decide as Ek; cbn [negb]; [|by apply update_pk_refines].
  unfold Plain.update, Plain.key_of, Plain.key_compare. rewrite <- (lookup_get l k Hl Hk), Eo.
  rewrite (cmp_is_0 pk_ok _ pk_order pk_ordered), bool_decide_eq_true_2 by done.
  assert (Hself : self_ok (mkSelf k None)) by (by apply self_new). apply lookup_row in Eo as Hok; [|done..]. destruct Hok as [Hin Hat].
  assert (Hchk : exists o' l1 ev1, (if uniqueColumnsChanged (t_uniqueConstraints schema) o r
         (predicate_columns normalizeCollationName m committed)
       then checkUniqueConstraints resolver normalizeCollationName m
              (t_uniqueConstraints schema) l r (mkSelf k None) oc []
       else Ok (None, l, [])) = Ok (o', l1, ev1) /\ layer_ok l1 /\
       plain_checks (t_uniqueConstraints schema) (rows l) r (mkSelf k None) oc [] = (o', rows l1, ev1)).
  { destruct (uniqueColumnsChanged _ _ _ _) eqn:Ech; [by apply check_all_refines|].
    exists None, l, []. split_and!; [done|done|]. by apply (unchanged_checks committed (rows l) k o). }
  destruct Hchk as (u & l1 & ev1 & -> & Hl1 & E). rewrite E. cbn [res_bind]. destruct u as [u|]; [eauto 10|].
  destruct (recordUpsert_ok l1 k r (Some o) Hl1 Hr Hk) as (l2 & -> & Hl2 & Er);
    [by apply Hsame|by apply (checked_spelled l l1 r _ _ _ _ _ _ Hl Hh Hr E)| |cbn [res_bind]; rewrite <- Er; eauto 10].
  rewrite <- Eo. eapply checked_old; eauto. apply is_self_true; [done|done|]. left. apply (cmp_refl pk_order).
Qed.

Lemma delete_refines l old k :
  layer_valid l -> buildPrimaryKeyFromValues old (t_primaryKeyDefinition schema) = Ok k -> pk_ok k -> spelled (rows l) k ->
  exists l' u, delete l (Some old) = Ok (l', u) /\ layer_ok l' /\ plain_delete (rows l) k = (rows l', u).
Proof.
  intros [Hl Hh] Hb Hk Hsp. unfold performDelete. rewrite (ok_schema l Hl), Hb. cbn [res_bind].
  unfold Plain.delete. rewrite <- (lookup_get l k Hl Hk). pose proof (layer_table l Hl) as Ht. pose proof pk_laws.
  destruct (row_at k l) as [o|] eqn:Eo; [|eauto 10]. apply lookup_row in Eo as [Hin Hat]; [|done..].
  destruct (recordDelete_ok l k o Hl Hk Hsp Hin Hat) as (l1 & -> & Hl1 & Er). cbn [res_bind].
  eexists _, _. split_and!; [done|done|]. f_equal. rewrite Er. pose proof (pk_of_ok o (row_in (rows l) o Ht Hin)) as Hko.
  apply table_ext; [by apply del_ok|by apply del_ok|]. intros w. rewrite !del_elem by done. unfold at_key in *.
  by rewrite (cmp_eq_r pk_order _ _ (pk_of schema w) Hat).
Qed.

(** The mutations of a layer and of the plain table. *)
Abbreviation plain_mutate :=
  (Plain.mutate resolver (m_tableName m) schema (fun vals => Types.coerceRowToSchema vals (t_columns schema))).
Abbreviation memory_mutate :=
  (mutate resolver normalizeCollationName (T := T) m).

(** The rows and keys of a request hold values of the table. *)
Definition args_ok (args : UpdateArgs) : Prop :=
  (forall vals r, values args = Some vals -> row_arg (preCoerced args) vals = Ok r -> row_ok r) /\
  (forall old, oldKeyValues args = Some old -> Forall value_ok old).

Lemma build_key_ok old k :
  Forall value_ok old -> buildPrimaryKeyFromValues old (t_primaryKeyDefinition schema) = Ok k -> pk_ok k.
Proof.
  intros Hv. unfold buildPrimaryKeyFromValues. destruct (t_primaryKeyDefinition schema) as [|d ds] eqn:Ed.
  - intros [= <-]. by split.
  - destruct (Nat.eqb_spec (length old) (length (d :: ds))) as [E|E]; [|done]. intros [= <-]. by split.
Qed.

(** The keys of a request are spelled as the stored rows they compare equal to,
    and an update does not respell the key it keeps.  A key encoding that tells
    no more apart than the comparators makes this hold of every request. *)
Definition args_spelled (rs : list Row) (args : UpdateArgs) : Prop :=
  (forall vals r, values args = Some vals -> row_arg (preCoerced args) vals = Ok r -> spelled rs (pk_of schema r)) /\
  (forall old k, oldKeyValues args = Some old -> buildPrimaryKeyFromValues old (t_primaryKeyDefinition schema) = Ok k ->
     spelled rs k /\
     forall vals r, values args = Some vals -> row_arg (preCoerced args) vals = Ok r ->
       pk_order k (pk_of schema r) = Eq -> same (pk_of schema r) k).

Lemma exact_spelled rs args :
  (forall k1 k2, pk_ok k1 -> pk_ok k2 -> pk_order k1 k2 = Eq -> same k1 k2) ->
  Forall row_ok rs -> args_ok args -> args_spelled rs args.
Proof.
  intros Hex Hrs [Hr Hk]. pose proof pk_laws.
  assert (Hsp : forall k, pk_ok k -> spelled rs k).
  { intros k Hok w Hw E. eapply Forall_forall in Hrs; [|exact Hw]. apply Hex; [by apply pk_of_ok|done|done]. }
  split; [intros vals r Hv Ha; apply Hsp, pk_of_ok; eauto|].
  intros old k Ho Hb. pose proof (build_key_ok old k (Hk old Ho) Hb) as Hok. split; [by apply Hsp|].
  intros vals r Hv Ha E. apply Hex; [apply pk_of_ok; eauto|done|by apply (cmp_eq_sym pk_order)].
Qed.

(** A step that gives what the plain table gives, and keeps the layer valid. *)
Definition step_refines (y : res (layer * UpdateResult)) (x : res (list Row * UpdateResult)) : Prop :=
  match y with Ok (l', u) => layer_valid l' /\ x = Ok (rows l', u) | Throw e => x = Throw e end.

Lemma step_intro (y : res (layer * UpdateResult)) rs' :
  (exists l' u, y = Ok (l', u) /\ layer_ok l' /\ rs' = (rows l', u)) -> valid rs'.1 -> step_refines y (Ok rs').
Proof. intros (l' & u & -> & Hl' & ->) [_ Hv]. by split. Qed.

Lemma layer_valid_rows l : layer_valid l -> valid (rows l).
Proof. intros [Hl Hh]. split; [by apply layer_table|done]. Qed.

Lemma insert_step l vals oc pre :
  layer_valid l -> (forall r, row_arg pre vals = Ok r -> row_ok r /\ spelled (rows l) (pk_of schema r)) ->
  step_refines (insert l (Some vals) oc pre) (let* r := row_arg pre vals in Ok (plain_insert (rows l) r oc)).
Proof.
  intros Hl Hr. destruct (row_arg pre vals) as [r|e] eqn:E; cbn [res_bind].
  - destruct (Hr r eq_refl) as [Hok Hsp].
    apply step_intro; [by apply (insert_refines l vals r)|]. apply plain_insert_valid; [by apply layer_valid_rows|done].
  - unfold performInsert. unfold row_arg in E. by rewrite (ok_schema l (proj1 Hl)), E.
Qed.

Lemma update_step committed l vals old oc pre :
  layer_valid l -> l_schema committed = schema -> indexes_present committed ->
  (forall r, row_arg pre vals = Ok r -> row_ok r /\ spelled (rows l) (pk_of schema r)) -> Forall value_ok old ->
  (forall k, buildPrimaryKeyFromValues old (t_primaryKeyDefinition schema) = Ok k ->
     spelled (rows l) k /\ forall r, row_arg pre vals = Ok r -> pk_order k (pk_of schema r) = Eq -> same (pk_of schema r) k) ->
  step_refines (update committed l (Some vals) (Some old) oc pre)
    (let* r := row_arg pre vals in let* k := buildPrimaryKeyFromValues old (t_primaryKeyDefinition schema) in
     Ok (plain_update (rows l) k r oc)).
Proof.
  intros Hl Hcs Hcp Hr Hold Hkey. destruct (row_arg pre vals) as [r|e] eqn:E; cbn [res_bind].
  - destruct (Hr r eq_refl) as [Hok Hsp]. destruct (buildPrimaryKeyFromValues old (t_primaryKeyDefinition schema)) as [k|e] eqn:Ek; cbn [res_bind].
    + pose proof (build_key_ok old k Hold Ek) as Hk. destruct (Hkey k eq_refl) as [Hspk Hsame].
      apply step_intro; [apply (update_refines committed l vals old k r); auto|]. apply plain_update_valid; [by apply layer_valid_rows|done|done].
    + unfold performUpdate. unfold row_arg in E. rewrite (ok_schema l (proj1 Hl)), E. cbn [res_bind]. by rewrite Ek.
  - unfold performUpdate. unfold row_arg in E. by rewrite (ok_schema l (proj1 Hl)), E.
Qed.

Lemma delete_step l old :
  layer_valid l -> Forall value_ok old ->
  (forall k, buildPrimaryKeyFromValues old (t_primaryKeyDefinition schema) = Ok k -> spelled (rows l) k) ->
  step_refines (delete l (Some old))
    (let* k := buildPrimaryKeyFromValues old (t_primaryKeyDefinition schema) in Ok (plain_delete (rows l) k)).
Proof.
  intros Hl Hold Hsp. destruct (buildPrimaryKeyFromValues old (t_primaryKeyDefinition schema)) as [k|e] eqn:Ek; cbn [res_bind].
  - pose proof (build_key_ok old k Hold Ek) as Hk. apply step_intro; [apply (delete_refines l old k); auto|].
    apply plain_delete_valid; [by apply layer_valid_rows|done].
  - unfold performDelete. by rewrite (ok_schema l (proj1 Hl)), Ek.
Qed.

(** C6: A row mutation of a memory table (insert, update with or without a
    primary-key change, delete, under every conflict resolution) either throws
    exactly when the plain table does, or leaves in the layer's primary tree
    the rows the plain table computes by checking every constraint against
    every row, and answers the same result: the same row, replaced row,
    evicted rows, or constraint violation.  The new layer is again valid: each
    secondary index lists exactly the rows in its scope, by the code of their
    primary key, and no two rows break a UNIQUE constraint, so the index-driven
    checks and the skipped checks of unchanged columns never miss a conflict.
    Every collation of the primary key is allowed, with one condition on the
    request: a key of it that compares equal to a stored one is spelled as the
    stored one ([args_spelled]).  Without it the index keeps an entry of the old
    spelling, see [Fruits.stale_index_entry]. *)
Theorem memory_mutation_refines committed l args :
  layer_valid l -> l_schema committed = schema -> indexes_present committed -> args_ok args -> args_spelled (rows l) args ->
  match memory_mutate committed l args with
  | Ok (l', u) => layer_valid l' /\ plain_mutate (rows l) args = Ok (rows l', u)
  | Throw e => plain_mutate (rows l) args = Throw e
  end.
Proof.
  intros Hl Hcs Hcp [Hrow Hkey] [Hrs Hks].
  change (step_refines (memory_mutate committed l args) (plain_mutate (rows l) args)).
  unfold mutate, Plain.mutate.
  destruct (operation args), (values args) as [vals|], (oldKeyValues args) as [old|]; try done;
    first [apply insert_step|apply update_step|apply delete_step]; try done; eauto.
  - intros k Hk. destruct (Hks old k eq_refl Hk) as [Hsp Hsame]. split; [done|]. intros r. by apply Hsame.
  - intros k Hk. by apply (Hks old k).
  - intros k Hk. by apply (Hks old k).
Qed.

End Unique.
(** *** Seeks *)

(** The keys an index entry lists, sorted. *)
Lemma sorted_keys_content l ix mi e :
  layer_ok l -> ix ∈ t_indexes schema -> index_ok ix (rows l) (data_of mi) -> e ∈ data_of mi ->
  content_ok (fun q => q) pk_ok pk_order (getSortedPrimaryKeys resolver schema e).
Proof.
  intros Hl Hix Hok He. pose proof pk_laws. pose proof (ix_laws ix Hix) as Hlaws. pose proof Hok as [[[Hk _] Hoe] Hls].
  eapply Forall_forall in Hoe as (Hn & Hf & _); [|exact He]. eapply Forall_forall in Hk; [|exact He].
  assert (Hin : forall x, x ∈ primaryKeys e -> x.1 = pk_encode schema x.2 /\ pk_ok x.2 /\
    exists r, r ∈ rows l /\ keyed x.2 r /\ same (pk_of schema r) x.2).
  { intros x Hx. pose proof Hf as Hf'. eapply Forall_forall in Hf' as [Ex Wx]; [|exact Hx]. split_and!; [done|done|].
    destruct (proj1 (Hls (indexKey e) x.2 Hk Wx)) as (r & Hr & _ & _ & E).
    { exists e, x.2. split_and!; [done|apply (cmp_refl (ix_order ix))|apply elem_of_snd; eauto|done]. }
    exists r. split_and!; [done| |done]. apply (ok_code Hschema); [|done|done].
    apply pk_of_ok. pose proof (ok_rows l Hl) as Hr'. by eapply Forall_forall in Hr'. }
  assert (Hinj : forall v w, v ∈ map snd (primaryKeys e) -> w ∈ map snd (primaryKeys e) -> pk_order v w = Eq -> v = w).
  { intros v w (x & -> & Hx)%list_elem_of_fmap (y & -> & Hy)%list_elem_of_fmap E.
    destruct (Hin x Hx) as (Ex & Wx & r & Hr & Kr & Sr), (Hin y Hy) as (Ey & Wy & r' & Hr' & Kr' & Sr').
    assert (r' = r) as ->.
    { apply (content_at_unique (pk_of schema) pk_ok pk_order (rows l) y.2); [apply (ok_content l Hl)|done..|].
      unfold at_key. by rewrite <- (cmp_eq_r pk_order _ _ _ E). }
    apply list_elem_of_lookup in Hx as (i & Hi), Hy as (j & Hj).
    assert (i = j) as ->; [|by simplify_eq].
    apply (NoDup_lookup _ _ _ x.1 Hn); rewrite list_lookup_fmap; [by rewrite Hi|rewrite Hj; cbn; congruence]. }
  apply (sort_content (fun q : Key => q) pk_ok _ pk_order pk_ordered); [| |done].
  - apply Forall_map. eapply Forall_impl; [exact Hf|]. by intros x [_ ?].
  - clear Hinj Hin He. induction (primaryKeys e) as [|x ks IH]; [constructor|]. cbn in *.
    apply NoDup_cons in Hn as [Hx Hn]. apply Forall_cons in Hf as [[Ex Wx] Hf]. constructor; [|by apply IH].
    intros (y & Ey & Hy)%list_elem_of_fmap. apply Hx, list_elem_of_fmap. exists y. split; [|done].
    rewrite Forall_forall in Hf. destruct (Hf y Hy) as [-> _]. by rewrite Ex, Ey.
Qed.

(** The rows found at keys in order are in order. *)
Lemma omap_content (f : Key -> option Row) qs :
  content_ok (fun q => q) pk_ok pk_order qs -> (forall q w, q ∈ qs -> f q = Some w -> row_ok w /\ keyed q w) ->
  rows_content (omap f qs).
Proof.
  intros [Hd Hs] Hf. pose proof pk_laws. split.
  - apply Forall_forall. intros w (q & Hq & E)%list_elem_of_omap. by apply pk_of_ok, (Hf q).
  - clear Hd. induction Hs as [|q qs Hs IH Hq]; cbn; [constructor|].
    assert (IH' : StronglySorted (fun v w => pk_order (pk_of schema v) (pk_of schema w) = Lt) (omap f qs))
      by (apply IH; intros q' w Hq'; apply Hf; by right).
    destruct (f q) as [w|] eqn:E; [|done]. constructor; [done|]. apply Forall_forall.
    intros w' (q' & Hq' & E')%list_elem_of_omap. rewrite Forall_forall in Hq. specialize (Hq q' Hq').
    assert (K : keyed q w) by (apply Hf; [left|done]). assert (K' : keyed q' w') by (apply Hf; [by right|done]).
    unfold at_key in *. by rewrite (cmp_eq_l pk_order _ _ _ K), (cmp_eq_r pk_order _ _ _ K').
Qed.

(** The rows an index entry stands for, in primary-key order. *)
Definition rows_of (l : layer) (e : MemoryIndexEntry) : list Row :=
  omap (fun pk => lookupEffectiveRow resolver pk l)
    (getSortedPrimaryKeys resolver schema e).

Lemma rows_of_spec l ix mi e :
  layer_ok l -> ix ∈ t_indexes schema -> mi_spec mi = ix -> index_ok ix (rows l) (data_of mi) -> e ∈ data_of mi ->
  rows_content (rows_of l e) /\
  forall r, r ∈ rows_of l e <->
    r ∈ rows l /\ rowMatchesPredicate ix r = true /\ ix_order ix (index_key ix r) (indexKey e) = Eq.
Proof.
  intros Hl Hix Hs Hok He. pose proof Hok as [Hd Hls]. pose proof pk_laws. pose proof (ix_laws ix Hix). pose proof (layer_table l Hl) as Ht.
  pose proof Hd as [[Hk _] Hoe]. eapply Forall_forall in Hoe as Heo; [|exact He]. eapply Forall_forall in Hk; [|exact He].
  pose proof (sorted_keys_content l ix mi e Hl Hix Hok He) as Hc.
  assert (Hq : forall q, q ∈ getSortedPrimaryKeys resolver schema e -> pk_ok q).
  { intros q Hq. destruct Hc as [Hc _]. by eapply Forall_forall in Hc. }
  assert (Hl' : forall p, lists ix (data_of mi) (indexKey e) p <->
    exists q, q ∈ getSortedPrimaryKeys resolver schema e /\ same q p).
  { intros p. unfold getSortedPrimaryKeys. setoid_rewrite elem_of_js_sort.
    apply (lists_at ix (data_of mi) e (indexKey e)); try done; apply (cmp_refl (ix_order ix)). }
  split.
  - apply omap_content; [done|]. intros q w Hqin E. apply lookup_row in E as [Hw Hat]; [|done|by apply Hq].
    split; [by apply (row_in (rows l))|done].
  - intros r. unfold rows_of. rewrite list_elem_of_omap. split.
    + intros (q & Hqin & E). apply lookup_row in E as [Hw Hat]; [|done|by apply Hq].
      assert (Hlq : lists ix (data_of mi) (indexKey e) q) by (apply Hl'; by exists q).
      apply Hls in Hlq as (r' & Hr & Hm & Ek & Ep); [|done|by apply Hq].
      apply (ok_code Hschema) in Ep; [|by apply pk_of_ok, (row_in (rows l))|by apply Hq].
      assert (r' = r) as -> by (apply (content_at_unique (pk_of schema) pk_ok pk_order (rows l) q); [apply (ok_content l Hl)|done..]).
      done.
    + intros (Hr & Hm & Ek). pose proof (row_in (rows l) r Ht Hr) as Hro.
      destruct (proj1 (Hl' (pk_of schema r))) as (q & Hqin & Es).
      { apply Hls; [done|by apply pk_of_ok|]. by exists r. }
      apply (ok_code Hschema) in Es; [|by apply Hq|by apply pk_of_ok].
      exists q. split; [done|]. apply lookup_row; [done|by apply Hq|]. split; [done|]. by apply (cmp_eq_sym pk_order).
Qed.

End Schema.
End Refine.
End Refine.

(** ** Tables of built-in types *)

Module Builtins.
Import Types TypedOrder Orders Refine.

Section Builtins.
Context (resolver : jsstring -> CollationFunction) (normalizeCollationName toLowerCase : jsstring -> jsstring).

Abbreviation value := SqlValue.
Abbreviation wf := wf_value.

(** The order of a collation, from its three-way tests. *)
Definition clean (s : jsstring) : jsstring := if decide (Forall (fun u => 0 <= u < 0x10000) s) then s else [].

Definition order_of (f : CollationFunction) (s t : jsstring) : comparison := sgn (f (clean s) (clean t)).

Lemma clean_wf s : wf_string (clean s).
Proof. unfold clean. case_decide; [done|constructor]. Qed.

Lemma clean_id s : wf_string s -> clean s = s.
Proof. intros H. unfold clean. by rewrite decide_True. Qed.

Lemma order_of_collates f : (exists c, collates f c) -> collates f (order_of f).
Proof.
  intros (c & Hl & Hc). split.
  - pose proof (cmp_on_laws c clean) as [L1 L2 L3].
    split; unfold order_of; intros *; rewrite ?Hc by apply clean_wf; [apply L1|apply L2|apply L3].
  - intros s t Hs Ht. unfold order_of. by rewrite !clean_id.
Qed.

Section Table.
Context (schema : TableSchema).

Abbreviation width := (length (t_columns schema)).

(** Every column has a built-in type without an order of its own, and the
    registry resolves every name to a lawful collation. *)
Record builtin_types : Prop := {
  bt_types : Forall (fun c => c_logicalType c ∈ plain_types toLowerCase) (t_columns schema);
  bt_collations : forall name, exists c, collates (resolver name) c
}.

Definition type_at (i : nat) : LogicalType := default ANY_TYPE (c_logicalType <$> t_columns schema !! i).

(** Column [i] holds values its type admits, in the order of its type. *)
Definition builtin_column (i : nat) (v : value) : Prop := isValidForType v (type_at i) = true.

Definition builtin_order (i : nat) (f : option CollationFunction) : value -> value -> comparison :=
  plain_order (type_at i) (order_of (default BINARY_COLLATION f)).

Context (Hd : builtin_types).

Lemma type_at_plain i : type_at i ∈ plain_types toLowerCase.
Proof.
  unfold type_at. destruct (t_columns schema !! i) as [c|] eqn:E; cbn; [|unfold plain_types; set_solver].
  pose proof (bt_types Hd) as Ht. by eapply Forall_lookup in Ht.
Qed.

Lemma resolved_collates (collation : option jsstring) :
  collates (default BINARY_COLLATION (resolver <$> collation)) (order_of (default BINARY_COLLATION (resolver <$> collation))).
Proof.
  apply order_of_collates. destruct collation as [n|]; cbn; [apply (bt_collations Hd)|eexists; apply BINARY_collates].
Qed.

Lemma builtin_ordered i collation :
  (i < width)%nat -> ordered wf (typed resolver (t_columns schema) i collation) (column_order resolver builtin_order i collation).
Proof.
  intros [c Hi]%lookup_lt_is_Some. pose proof (typed_ordered toLowerCase (type_at i) (resolver <$> collation)
    (order_of (default BINARY_COLLATION (resolver <$> collation))) (type_at_plain i) (resolved_collates collation)) as [Hl Ho].
  split; [done|]. intros a b Ha Hb. unfold column_order, builtin_order. rewrite <- (Ho a b Ha Hb). unfold typed, type_at. by rewrite Hi.
Qed.

Lemma builtin_enforce i name a b :
  wf a -> wf b -> builtin_column i a -> builtin_column i b ->
  enforcement_comparator (t_columns schema) i (resolver name) a b = 0 <->
  builtin_order i (Some (resolver name)) a b = Eq.
Proof.
  intros Ha Hb Va Vb. pose proof (resolved_collates (Some name)) as Hc. pose proof (proj1 Hc).
  assert (E : enforcement_comparator (t_columns schema) i (resolver name) a b = compareSqlValuesFast a b (resolver name)).
  { unfold enforcement_comparator, hasSemanticOrdering. pose proof (type_at_plain i) as Ht. unfold type_at in Ht.
    destruct (t_columns schema !! i) as [c|]; [|done]. cbn in Ht |- *.
    by rewrite (plain_not_semantic toLowerCase _ Ht). }
  unfold builtin_order. cbn in Hc. rewrite E, <- sgn_eq, (compare_fast_spec _ _ a b Hc Ha Hb).
  by rewrite (plain_order_valid toLowerCase) by (apply type_at_plain || done || apply (cmp_refl (order_of _))).
Qed.

(** Values equal for the storage classes are equal in every column. *)
Lemma builtin_same i f a b :
  (exists c, collates (default BINARY_COLLATION f) c) -> wf a -> wf b -> value_compare (lex rank_cmp) a b = Eq -> builtin_order i f a b = Eq.
Proof. intros Hf Ha Hb. apply plain_order_same; [|done..]. exact (proj1 (order_of_collates _ Hf)). Qed.

Lemma resolves (collation : option jsstring) : exists c, collates (default BINARY_COLLATION (resolver <$> collation)) c.
Proof. eexists. apply resolved_collates. Qed.

(** Keys of one code compare equal, under every collation. *)
Lemma builtin_code k1 k2 :
  key_ok wf (length (t_primaryKeyDefinition schema)) k1 -> key_ok wf (length (t_primaryKeyDefinition schema)) k2 ->
  pk_encode schema k1 = pk_encode schema k2 -> pk_order resolver builtin_order schema k1 k2 = Eq.
Proof.
  intros [L1 W1] [L2 W2]. unfold pk_encode. rewrite MemoryKeys.encode_key_eq by done. unfold pk_order.
  induction (t_primaryKeyDefinition schema) as [|d ds IH] in k1, k2, L1, W1, L2, W2 |- *; [done|].
  destruct k1 as [|a k1], k2 as [|b k2]; try done. apply Forall_cons in W1 as [Wa W1], W2 as [Wb W2].
  rewrite Forall2_cons. intros [E Es]. cbn [map key_cmp head tail default]. unfold column_order.
  rewrite (builtin_same _ _ a b (resolves (p_collation d)) Wa Wb E). injection L1 as L1. injection L2 as L2.
  destruct (p_desc d); cbn; apply IH; done.
Qed.

(** What is left to check of a schema is its shape. *)
Record shape_ok : Prop := {
  sh_pk : Forall (fun d => (p_index d < width)%nat) (t_primaryKeyDefinition schema);
  sh_ix : Forall (fun ix => Forall (fun c => (ic_index c < width)%nat) (ix_columns ix)) (t_indexes schema);
  sh_names : NoDup (map ix_name (t_indexes schema));
  sh_uc : Forall (fun uc => Forall (fun i => (i < width)%nat) (uc_columns uc)) (t_uniqueConstraints schema)
}.

Lemma builtin_schema_ok : shape_ok -> schema_ok resolver wf builtin_order schema.
Proof.
  intros []. split; try done.
  - intros i collation. apply builtin_ordered.
  - intros k1 k2. apply builtin_code.
Qed.

Lemma builtin_same_value i name a b :
  wf a -> wf b -> compareSqlValues a b = 0 -> builtin_order i (Some (resolver name)) a b = Eq.
Proof.
  intros Ha Hb E. apply builtin_same; [exact (resolves (Some name))|done..|].
  unfold compareSqlValues in E. by rewrite <- sgn_eq, (compare_fast_spec _ _ a b BINARY_collates Ha Hb) in E.
Qed.

End Table.
End Builtins.
End Builtins.

(** ** A table of users

    [users(name text collate nocase primary key, email text collate nocase
    unique, age integer)]. *)

Module Users.
Import Types TypedOrder Orders Refine Builtins.

Definition table_rows (l : TransactionLayer (T := sorted_list)) := bt_ascending (primaryModifications l).

Definition lower (s : jsstring) : jsstring := map (fun u => if (65 <=? u) && (u <=? 90) then u + 32 else u) s.

Definition resolver (name : jsstring) : CollationFunction :=
  if bool_decide (name = js "NOCASE") then NOCASE_COLLATION lower else BINARY_COLLATION.

Definition email_index : IndexSchema :=
  mkIndex (js "_uc_email") [mkIndexColumn 1 false (Some (js "NOCASE"))] None.

Definition email_unique : UniqueConstraintSchema := mkUnique None [1%nat] None None None.

Definition schema : TableSchema :=
  mkTable (js "users")
    [mkColumn (js "name") TEXT_TYPE (js "NOCASE") None; mkColumn (js "email") TEXT_TYPE (js "NOCASE") None;
     mkColumn (js "age") INTEGER_TYPE (js "BINARY") None]
    [mkPkColumn 0 false (Some (js "NOCASE"))] None [email_index] [email_unique].

Definition manager : MemoryTableManager :=
  mkManager (js "users") schema {[ js "_uc_email" := mkImplicit (js "_uc_email") ]} (fun _ => None).

Definition empty : TransactionLayer (T := sorted_list) :=
  mkLayer schema [] {[ js "_uc_email" := mkMemoryIndex email_index [] ]} false false None [].

Definition user (name email : jsstring) (age : Z) : list SqlValue := [VText name; VText email; VBigint age].

Definition ann : list SqlValue := user (js "Ann") (js "Ann@x.org") 30.
Definition bob : list SqlValue := user (js "bob") (js "ann@X.org") 31.

Definition with_ann : TransactionLayer (T := sorted_list) :=
  match performInsert resolver id manager empty (Some ann) None true with
  | Ok (l, _) => l
  | Throw _ => empty
  end.

Abbreviation wf := wf_value.
Abbreviation order := (builtin_order schema).
Abbreviation fits := (builtin_column schema).

Lemma types_ok : builtin_types resolver lower schema.
Proof.
  split.
  - repeat constructor; unfold plain_types; set_solver.
  - intros name. unfold resolver. case_bool_decide; [|eexists; apply BINARY_collates].
    eexists. apply NOCASE_collates. intros s Hs. apply Forall_map. eapply Forall_impl; [exact Hs|].
    intros u Hu. cbn. destruct ((65 <=? u) && (u <=? 90)) eqn:E; [|done]. apply andb_true_iff in E. lia.
Qed.

Lemma users_schema_ok : schema_ok resolver wf order schema.
Proof.
  apply (builtin_schema_ok resolver lower); [exact types_ok|]. split; cbn.
  - repeat constructor; lia.
  - repeat constructor; cbn; lia.
  - apply NoDup_singleton.
  - repeat constructor; lia.
Qed.

Lemma users_manager_ok : manager_ok resolver id wf fits order schema manager.
Proof.
  split; try done.
  - intros i name a b _. exact (builtin_enforce resolver lower schema types_ok i name a b).
  - intros a b E. unfold id in E. by subst.
  - intros i name a b _ Ha Hb _ _. exact (builtin_same_value resolver lower schema types_ok i name a b Ha Hb).
  - intros uc p a b ->%list_elem_of_singleton. done.
  - repeat constructor. by eexists.
  - intros uc ->%list_elem_of_singleton. exists email_index. split_and!; [left|done|]. by split_and!.
Qed.

Lemma empty_valid : layer_valid resolver wf fits order schema empty.
Proof.
  split; [|intros uc r1 r2 _ H1; by apply elem_of_nil in H1].
  split; [done|done|split; constructor|constructor|].
  intros ix ->%list_elem_of_singleton. eexists. split_and!; [apply lookup_singleton_eq|done|].
  split; [split; [split; constructor|constructor]|]. intros k p _ _. split.
  - by intros (e & q & He%elem_of_nil & _).
  - by intros (r & Hr%elem_of_nil & _).
Qed.

Lemma user_ok name email age : wf_string name -> wf_string email -> row_ok wf fits schema (user name email age).
Proof.
  intros Hn He. split_and!; [done|by repeat constructor|]. by intros [|[|[|i]]].
Qed.

Lemma ann_ok : row_ok wf fits schema ann.
Proof. apply user_ok; by apply wf_stringb_spec. Qed.

Lemma bob_ok : row_ok wf fits schema bob.
Proof. apply user_ok; by apply wf_stringb_spec. Qed.

Lemma with_ann_rows : table_rows with_ann = [ann].
Proof. by vm_compute. Qed.

(** No row is stored at the key of [r] under another spelling. *)
Lemma spelled_dec rs p :
  forallb (fun w => bool_decide (pk_order resolver order schema (pk_of schema w) p <> Eq) || bool_decide (pk_encode schema (pk_of schema w) = pk_encode schema p)) rs = true ->
  spelled resolver order schema rs p.
Proof.
  rewrite forallb_forall. intros H w Hw%list_elem_of_In E. specialize (H w Hw). apply orb_true_iff in H as [H|H]; by apply bool_decide_eq_true in H.
Qed.

Lemma with_ann_valid : layer_valid resolver wf fits order schema with_ann.
Proof.
  pose proof (insert_step resolver id wf fits order schema users_schema_ok manager users_manager_ok
                empty ann None true empty_valid) as H.
  unfold step_refines, with_ann in *.
  assert (Ha : forall r, row_arg schema true ann = Ok r -> row_ok wf fits schema r /\ spelled resolver order schema [] (pk_of schema r)).
  { intros r [= <-]. split; [exact ann_ok|by intros w ?%elem_of_nil]. }
  destruct (performInsert resolver id manager empty (Some ann) None true) as [[l u]|e].
  - by apply H.
  - discriminate (H Ha).
Qed.

(** Bob's address is Ann's up to case: inserting it evicts her row. *)
Definition replace_ann : UpdateArgs := mkUpdateArgs RInsert (Some bob) None (Some REPLACE) true false.

Lemma memory_mutation_refines_witness :
  match mutate resolver id manager with_ann with_ann replace_ann with
  | Ok (l', u) => layer_valid resolver wf fits order schema l' /\
      Plain.mutate resolver (js "users") schema (fun vals => Types.coerceRowToSchema vals (t_columns schema)) (table_rows with_ann) replace_ann = Ok (table_rows l', u)
  | Throw e => Plain.mutate resolver (js "users") schema (fun vals => Types.coerceRowToSchema vals (t_columns schema)) (table_rows with_ann) replace_ann = Throw e
  end /\
  Plain.mutate resolver (js "users") schema (fun vals => Types.coerceRowToSchema vals (t_columns schema)) (table_rows with_ann) replace_ann =
  Ok ([bob], UOk (Some bob) None (Some [ann])).
Proof.
  split; [|vm_compute; reflexivity].
  apply (memory_mutation_refines resolver id wf fits order schema users_schema_ok manager users_manager_ok
           with_ann with_ann replace_ann).
  - exact with_ann_valid.
  - exact (ok_schema _ _ _ _ _ _ (proj1 with_ann_valid)).
  - apply (layer_present _ _ _ _ _ _ (proj1 with_ann_valid)).
  - split; [intros vals r [= <-] [= <-]; exact bob_ok|discriminate].
  - split; [|discriminate]. intros vals r [= <-] [= <-]. apply spelled_dec. vm_compute. reflexivity.
Defined.

End Users.
