(* ===== verification/MemoryScan.v ===== *)
(** * Memory tables: scans read what they should

    A scan seeks to a start key, walks its tree and stops as soon as no later
    key can match.  The scans of [ScanLayer] are shown to yield exactly the rows
    a filter over the whole table yields, in the order of the structure. *)

From S2P Require Import Prelude Bytes Double Decimal NumberText Utf8 Json Comparison KeySerializer BTree VTab Types TypedOrder MemoryTable MemoryKeys.
From S2P Require Import MemoryRefine ScanLayer.
From Stdlib Require Import ZArith Lia.
From stdpp Require Import sorting.
From stdpp Require Import base tactics numbers sets gmap list.
#[local] Open Scope Z_scope.

Import Utf8 Json Comparison KeySerializer BTree VTab MemoryTable Orders ScanLayer.

(** ** Partial keys

    A start key may have fewer components than the keys of the tree: it sorts
    before every key it is a prefix of. *)

Module Tuples.

Definition opt_cmp {A} (c : A -> A -> comparison) (x y : option A) : comparison :=
  match x, y with
  | None, None => Eq
  | None, Some _ => Lt
  | Some _, None => Gt
  | Some a, Some b => c a b
  end.

#[export] Instance opt_cmp_laws {A} (c : A -> A -> comparison) : CmpLaws c -> CmpLaws (opt_cmp c).
Proof.
  intros Hc. split.
  - intros [a|] [b|]; cbn; try done. apply (cmp_opp c).
  - intros o [a|] [b|] [d|]; cbn; try congruence. apply (cmp_trans c).
  - intros [a|] [b|] [d|]; cbn; try done. apply (cmp_eq_l c).
Qed.

Section Tuples.
Abbreviation value := SqlValue.
Abbreviation orders := (list ((value -> value -> comparison) * bool)).
Context (value_ok : value -> Prop).

Fixpoint tuple_cmp (cs : orders) (a b : list value) : comparison :=
  match cs with
  | [] => Eq
  | (c, desc) :: cs' =>
    cmp_then (opt_cmp (fun x y => directed desc (c x y)) (head a) (head b)) (tuple_cmp cs' (tail a) (tail b))
  end.

Lemma tuple_cmp_laws (cs : orders) : Forall (fun p => CmpLaws p.1) cs -> CmpLaws (tuple_cmp cs).
Proof.
  induction 1 as [|[c desc] cs Hc Hcs IH]; cbn; [by split|]. cbn in Hc.
  apply cmp_then_laws; [|exact (cmp_on_laws (tuple_cmp cs) tail)].
  exact (cmp_on_laws (opt_cmp (fun x y => directed desc (c x y))) head).
Qed.

(** On complete keys it is the order of keys. *)
Lemma tuple_cmp_full (cs : orders) a b :
  length a = length cs -> length b = length cs -> tuple_cmp cs a b = key_cmp cs a b.
Proof.
  revert a b. induction cs as [|[c d] cs IH]; intros [|x a] [|y b]; cbn; try done.
  intros [= Ha] [= Hb]. by rewrite (IH a b).
Qed.

Definition tuple_ok (n : nat) (k : list value) : Prop :=
  (length k <= n)%nat /\ (n = 1%nat -> length k = 1%nat) /\ Forall value_ok k.

Lemma key_tuple n k : key_ok value_ok n k -> tuple_ok n k.
Proof. intros [Hl Hf]. split_and!; [lia|lia|done]. Qed.

Lemma composite_tuple zs (cs : orders) a b la lb :
  Forall2 (column_ordered value_ok) zs cs -> (length a <= length zs)%nat -> (length b <= length zs)%nat ->
  Forall value_ok a -> Forall value_ok b -> la - lb = Z.of_nat (length a) - Z.of_nat (length b) ->
  sgn (composite_loop zs a b la lb) = tuple_cmp cs a b.
Proof.
  intros H. revert a b la lb. induction H as [|[z d] [c d'] zs cs [[Hc Ho] [= ->]] H IH]; intros a b la lb La Lb Wa Wb Hd; [done|].
  destruct Wa as [|x a Hx Wa], Wb as [|y b Hy Wb]; cbn in *.
  - replace (la - lb) with 0 by lia. cbn. rewrite <- (IH [] [] 0 0) by (done || cbn; lia). by destruct zs as [|[]].
  - replace (la - lb) with (Z.neg (Pos.of_nat (S (length b)))) by lia. done.
  - replace (la - lb) with (Z.pos (Pos.of_nat (S (length a)))) by lia. done.
  - rewrite <- (Ho x y Hx Hy). destruct (Z.eqb_spec (z x y) 0) as [E|E]; cbn.
    + rewrite E. cbn. destruct d'; cbn; apply IH; (done || lia).
    + assert (Hne : sgn (z x y) <> Eq) by (by rewrite sgn_eq).
      destruct d'; cbn; rewrite ?sgn_opp; by destruct (sgn (z x y)).
Qed.

Lemma tuple_ordered zs (cs : orders) :
  Forall2 (column_ordered value_ok) zs cs -> ordered (tuple_ok (length zs)) (compare_columns zs) (tuple_cmp cs).
Proof.
  intros H. split.
  - apply tuple_cmp_laws. clear -H. induction H as [|p q zs cs [[Hc _] _] H IH]; by constructor.
  - intros a b (La & L1a & Wa) (Lb & L1b & Wb). destruct H as [|[z d] [c d'] zs cs Hp H]; [done|].
    destruct H as [|p q zs cs Hq H].
    + specialize (L1a eq_refl). specialize (L1b eq_refl).
      rewrite tuple_cmp_full by done.
      apply (compare_columns_spec value_ok [(z, d)] [(c, d')]); [constructor; [done|constructor]|by split|by split].
    + cbn [compare_columns]. apply composite_tuple; try done. constructor; [done|]. by constructor.
Qed.

(** The first [p] components decide first. *)
Lemma tuple_split (cs : orders) p a b :
  (p <= length a)%nat -> (p <= length b)%nat ->
  tuple_cmp cs a b = cmp_then (tuple_cmp (take p cs) a b) (tuple_cmp (drop p cs) (drop p a) (drop p b)).
Proof.
  revert cs a b. induction p as [|p IH]; intros cs a b Ha Hb; [by rewrite !drop_0|].
  destruct cs as [|[c d] cs]; [done|]. destruct a as [|x a], b as [|y b]; cbn in Ha, Hb; try lia. cbn.
  rewrite (IH cs a b) by lia. by destruct (directed d (c x y)).
Qed.

(** Components past the columns do not matter. *)
Lemma tuple_app_r (cs : orders) a b s :
  (length cs <= length b)%nat -> tuple_cmp cs a (b ++ s) = tuple_cmp cs a b.
Proof.
  revert a b. induction cs as [|[c d] cs IH]; intros a b Hb; [done|]. destruct b as [|y b]; cbn in Hb; [lia|].
  cbn. by rewrite IH by lia.
Qed.

End Tuples.
End Tuples.

(** ** One ordered walk *)

Module Walk.
Import Tuples.

Section Walk.
Abbreviation value := SqlValue.
Abbreviation Key := (list value).
Abbreviation orders := (list ((value -> value -> comparison) * bool)).
Context (value_ok : value -> Prop) (cs : orders) (plan : ScanPlan) (comparators : ResolvedScanComparators).
Context (keyComparator : Key -> Key -> Z).

Definition prefix : list value := match equalityPrefix plan with Some P => P | None => [] end.

Definition has_bound : bool := bool_decide (is_Some (lowerBound plan)) || bool_decide (is_Some (upperBound plan)).

(** The tests of the plan are the orders of the columns they are about. *)
Record fits : Prop := {
  f_laws : Forall (fun q => CmpLaws q.1) cs;
  f_key : equalityKey plan = None;
  f_length : (length prefix <= length cs)%nat;
  f_bound : has_bound = true -> (length prefix < length cs)%nat;
  f_prefix_ok : Forall value_ok prefix;
  f_lower_ok : forall b, lowerBound plan = Some b -> value_ok (b_value b);
  f_upper_ok : forall b, upperBound plan = Some b -> value_ok (b_value b);
  f_prefix : Forall2 (fun z q => forall a b, value_ok a -> value_ok b -> sgn (z a b) = q.1 a b)
    (sc_equalityPrefix comparators) (take (length prefix) cs);
  f_test : has_bound = true -> forall q, cs !! length prefix = Some q ->
    forall a b, value_ok a -> value_ok b -> sgn (sc_bound comparators a b) = q.1 a b;
  f_null : forall q, cs !! length prefix = Some q ->
    forall a b, value_ok a -> value_ok b -> q.1 a b = Eq -> is_null a = is_null b
}.

Context (Hf : fits).

Abbreviation p := (length prefix).
Abbreviation key_full := (key_ok value_ok (length cs)).

Definition applies (k : Key) : bool := planAppliesToKey plan k keyComparator comparators.

(** The direction of the column the bounds are about: an ascending walk starts
    from the upper bound of a descending column. *)
Definition from_upper : bool := match cs !! p with Some (_, d) => d | None => false end.

Definition start : option Key := seekStartKey plan (if from_upper then upperBound plan else lowerBound plan).

Lemma prefix_matches_spec zs (os : orders) k P :
  Forall2 (fun z q => forall a b, value_ok a -> value_ok b -> sgn (z a b) = q.1 a b) zs os ->
  length P = length os -> (length os <= length k)%nat -> Forall value_ok k -> Forall value_ok P ->
  prefix_matches zs k P = bool_decide (tuple_cmp os k P = Eq).
Proof.
  intros H. revert k P. induction H as [|z [c d] zs os Hz H IH]; intros k P LP Lk Wk WP; [by destruct P|].
  destruct WP as [|v P Hv WP]; [done|]. destruct Wk as [|x k Hx Wk]; cbn in LP, Lk; [lia|]. cbn.
  specialize (Hz x v Hx Hv). cbn in Hz. destruct (Z.eqb_spec (z x v) 0) as [E|E]; cbn.
  - rewrite IH by (done || lia). rewrite <- Hz, E. by destruct d.
  - assert (Hne : c x v <> Eq) by (rewrite <- Hz; by rewrite sgn_eq). symmetry. apply bool_decide_eq_false.
    destruct d; cbn; by destruct (c x v).
Qed.

Lemma prefix_matches_key k :
  key_full k -> prefix_matches (sc_equalityPrefix comparators) k prefix = bool_decide (tuple_cmp (take p cs) k prefix = Eq).
Proof.
  intros [Lk Wk]. pose proof (f_length Hf). apply prefix_matches_spec; try done.
  - apply (f_prefix Hf).
  - rewrite length_take. lia.
  - rewrite length_take. lia.
  - apply (f_prefix_ok Hf).
Qed.

(** A key the plan applies to. *)
Lemma applies_true k :
  key_full k -> applies k = true ->
  tuple_cmp (take p cs) k prefix = Eq /\ within_bounds plan (sc_bound comparators) (k !! p) = true.
Proof.
  intros Hk. unfold applies, planAppliesToKey. rewrite (f_key Hf).
  destruct (bound_is_null _ || bound_is_null _); [done|]. pose proof (prefix_matches_key k Hk) as Hm. unfold prefix in *.
  destruct (equalityPrefix plan) as [P|]; [|done].
  destruct (existsb is_null P); [done|]. rewrite Hm. case_bool_decide; [|done]. done.
Qed.

Lemma lower_sat b x :
  within_bounds plan (sc_bound comparators) (Some x) = true -> lowerBound plan = Some b ->
  sgn (sc_bound comparators x (b_value b)) <> Lt /\ (sgn (sc_bound comparators x (b_value b)) = Eq -> op_eqb (b_op b) GT = false).
Proof.
  intros Hw Hb. unfold within_bounds in Hw. rewrite Hb in Hw. destruct (is_null x); [done|]. cbn in Hw.
  apply andb_true_iff in Hw as [Hl _]. apply negb_true_iff, orb_false_iff in Hl as [H1 H2]. apply Z.ltb_ge in H1.
  rewrite sgn_lt, sgn_eq. split; [lia|]. intros E. rewrite E in H2. done.
Qed.

Lemma upper_sat b x :
  within_bounds plan (sc_bound comparators) (Some x) = true -> upperBound plan = Some b ->
  sgn (sc_bound comparators x (b_value b)) <> Gt /\ (sgn (sc_bound comparators x (b_value b)) = Eq -> op_eqb (b_op b) LT = false).
Proof.
  intros Hw Hb. unfold within_bounds in Hw. rewrite Hb in Hw.
  destruct (is_null x); [by rewrite (bool_decide_eq_true_2 (is_Some (Some b))), orb_true_r in Hw by eauto|]. cbn in Hw.
  apply andb_true_iff in Hw as [_ Hl]. apply negb_true_iff, orb_false_iff in Hl as [H1 H2]. apply Z.ltb_ge in H1.
  rewrite sgn_gt, sgn_eq. split; [lia|]. intros E. rewrite E in H2. done.
Qed.

Lemma tuple_nil (os : orders) k : tuple_cmp os k [] <> Lt.
Proof.
  revert k. induction os as [|[c d] os IH]; intros k; [done|]. destruct k as [|x k]; [|done].
  exact (IH []).
Qed.

Lemma prefix_default : default [] (equalityPrefix plan) = prefix.
Proof. unfold prefix. by destruct (equalityPrefix plan). Qed.

Lemma key_at k : key_full k -> has_bound = true ->
  exists q os x, drop p cs = q :: os /\ cs !! p = Some q /\ k !! p = Some x /\ drop p k = x :: drop (S p) k /\ value_ok x.
Proof.
  intros [Lk Wk] Hb. pose proof (f_bound Hf Hb) as Hlt.
  destruct (lookup_lt_is_Some_2 cs p) as [q Hq]; [lia|]. destruct (lookup_lt_is_Some_2 k p) as [x Hx]; [lia|].
  exists q, (drop (S p) cs), x. split_and!; [by apply drop_S|done|done|by apply drop_S|]. by eapply Forall_lookup in Wk.
Qed.

Lemma start_parts s :
  start = Some s ->
  s = prefix ++ match (if from_upper then upperBound plan else lowerBound plan) with Some b => [b_value b] | None => [] end.
Proof.
  unfold start, seekStartKey. rewrite prefix_default. destruct (prefix ++ _) eqn:E; [done|]. congruence.
Qed.

Lemma start_split s k :
  start = Some s -> key_full k ->
  tuple_cmp cs k s = cmp_then (tuple_cmp (take p cs) k prefix) (tuple_cmp (drop p cs) (drop p k) (drop p s)).
Proof.
  intros Hs [Lk _]. pose proof (f_length Hf). rewrite (start_parts s Hs).
  rewrite (tuple_split cs p k) by (rewrite ?length_app; lia). f_equal. apply tuple_app_r. rewrite length_take. lia.
Qed.

(** Nothing before the start key matches. *)
Lemma before_start s k : start = Some s -> key_full k -> tuple_cmp cs k s = Lt -> applies k = false.
Proof.
  intros Hs Hk Hlt. apply not_true_iff_false. intros Ha. apply applies_true in Ha as [Hp Hw]; [|done].
  rewrite (start_split s k Hs Hk), Hp in Hlt. cbn [cmp_then] in Hlt. rewrite (start_parts s Hs), drop_app_length in Hlt.
  destruct (if from_upper then upperBound plan else lowerBound plan) as [b|] eqn:Eb; [|by apply tuple_nil in Hlt].
  assert (Hbd : has_bound = true).
  { unfold has_bound. destruct from_upper; rewrite Eb; cbn; [by rewrite orb_true_r|done]. }
  destruct (key_at k Hk Hbd) as ([c d] & os & x & Hc & Hq & Hx & Hdk & Wx). rewrite Hx in Hw.
  assert (Efu : from_upper = d) by (unfold from_upper; by rewrite Hq). rewrite Efu in Eb.
  rewrite Hc, Hdk in Hlt. cbn in Hlt. pose proof (f_test Hf Hbd (c, d) Hq) as Ht. cbn in Ht.
  assert (Hdir : directed d (c x (b_value b)) = Lt).
  { destruct (directed d (c x (b_value b))); [|done|done]. by apply tuple_nil in Hlt. }
  destruct d; cbn in Hdir.
  - destruct (upper_sat b x Hw Eb) as [Hs1 _]. rewrite Ht in Hs1; [|done|by apply (f_upper_ok Hf)].
    by destruct (c x (b_value b)).
  - destruct (lower_sat b x Hw Eb) as [Hs1 _]. rewrite Ht in Hs1; [done|done|by apply (f_lower_ok Hf)].
Qed.

(** Once the walk is exhausted, nothing later matches. *)
Lemma exhausted_later kv kw :
  key_full kv -> key_full kw -> tuple_cmp cs kv kw = Lt -> (forall s, start = Some s -> tuple_cmp cs kv s <> Lt) ->
  walkIsExhausted kv plan from_upper comparators = true -> applies kw = false.
Proof.
  intros Hv Hw Hlt Hstart Hex. apply not_true_iff_false. intros Ha. apply applies_true in Ha as [Hpw Hww]; [|done].
  pose proof (f_laws Hf) as Hl. pose proof (f_length Hf) as Hlen.
  assert (CmpLaws (tuple_cmp (take p cs))) by (apply tuple_cmp_laws; by apply Forall_take).
  assert (Hpv : tuple_cmp (take p cs) kv prefix <> Lt).
  { intros E. destruct start as [s|] eqn:Es; [apply (Hstart s eq_refl); by rewrite (start_split s kv Es Hv), E|].
    unfold start, seekStartKey in Es. rewrite prefix_default in Es. destruct prefix; [done|]. cbn in Es. done. }
  destruct Hv as [Lv Wv], Hw as [Lw Ww]. rewrite (tuple_split cs p kv kw) in Hlt by lia.
  rewrite (cmp_eq_r (tuple_cmp (take p cs)) _ _ kv Hpw) in Hlt.
  destruct (tuple_cmp (take p cs) kv prefix) eqn:Ev; [|done|done]. cbn [cmp_then] in Hlt.
  assert (Hpast : pastTerminatingBound (kv !! p) plan from_upper comparators = true).
  { pose proof (prefix_matches_key kv (conj Lv Wv)) as Hm. rewrite Ev, bool_decide_eq_true_2 in Hm by done.
    unfold walkIsExhausted in Hex. unfold prefix in *. destruct (equalityPrefix plan); [|done]. by rewrite Hm in Hex. }
  assert (Hbd : has_bound = true).
  { unfold pastTerminatingBound in Hpast. unfold has_bound. destruct (kv !! p); [|done].
    destruct from_upper, (upperBound plan), (lowerBound plan); try done. }
  destruct (key_at kv (conj Lv Wv) Hbd) as ([c d] & os & x & Hc & Hq & Hx & Hdk & Wx).
  destruct (key_at kw (conj Lw Ww) Hbd) as (q' & os' & y & Hc' & Hq' & Hy & Hdk' & Wy).
  rewrite Hx in Hpast. rewrite Hy in Hww.
  assert (Efu : from_upper = d) by (unfold from_upper; by rewrite Hq). rewrite Efu in Hpast.
  pose proof (f_test Hf Hbd (c, d) Hq) as Ht. cbn in Ht.
  assert (CmpLaws c) by (eapply Forall_lookup in Hl; [|exact Hq]; done).
  rewrite Hc, Hdk, Hdk' in Hlt. cbn in Hlt.
  assert (Hdir : directed d (c x y) <> Gt) by (intros E; by rewrite E in Hlt).
  unfold pastTerminatingBound in Hpast. destruct d; cbn in Hdir.
  - destruct (lowerBound plan) as [b|] eqn:Eb; [|done]. destruct (lower_sat b y Hww Eb) as [Hs1 Hs2].
    pose proof (f_lower_ok Hf b Eb) as Wb. rewrite Ht in Hs1, Hs2 by done.
    assert (Hxy : c y x <> Gt) by (rewrite (cmp_opp c x y); by destruct (c x y)).
    apply orb_true_iff in Hpast as [Hpast%Z.ltb_lt%sgn_lt|[Hpast%Z.eqb_eq%sgn_eq Hop]%andb_true_iff]; rewrite Ht in Hpast by done.
    + apply Hs1. by apply (cmp_le_lt_trans c y x).
    + destruct (c y (b_value b)) eqn:E; [by rewrite Hs2 in Hop|done|].
      apply Hxy. rewrite <- E. by apply (cmp_eq_r c).
  - destruct (upperBound plan) as [b|] eqn:Eb; [|done]. destruct (upper_sat b y Hww Eb) as [Hs1 Hs2].
    pose proof (f_upper_ok Hf b Eb) as Wb. rewrite Ht in Hs1, Hs2 by done.
    apply orb_true_iff in Hpast as [Hpast%Z.ltb_lt%sgn_gt|[Hpast%Z.eqb_eq%sgn_eq Hop]%andb_true_iff]; rewrite Ht in Hpast by done.
    + apply Hs1. apply (cmp_lt_gt c). apply (cmp_lt_gt c) in Hpast. by apply (cmp_lt_le_trans c _ x).
    + destruct (c y (b_value b)) eqn:E; [by rewrite Hs2 in Hop| |done].
      apply Hdir, (cmp_lt_gt c). rewrite <- E. by apply (cmp_eq_r c).
Qed.

(** Keys the tree holds equal pass or fail together. *)
Lemma within_eq q x y :
  cs !! p = Some q -> value_ok x -> value_ok y -> q.1 x y = Eq ->
  within_bounds plan (sc_bound comparators) (Some x) = within_bounds plan (sc_bound comparators) (Some y).
Proof.
  intros Hq Hx Hy E. unfold within_bounds. rewrite (f_null Hf q Hq x y Hx Hy E).
  destruct has_bound eqn:Hb.
  - assert (CmpLaws q.1) by (pose proof (f_laws Hf) as Hl; by eapply Forall_lookup in Hl).
    pose proof (f_test Hf Hb q Hq) as Ht.
    assert (Hs : forall v, value_ok v -> sgn (sc_bound comparators x v) = sgn (sc_bound comparators y v)).
    { intros v Hv. rewrite !Ht by done. by apply (cmp_eq_l q.1). }
    assert (Hz : forall z z', sgn z = sgn z' -> (z <? 0) = (z' <? 0) /\ (0 <? z) = (0 <? z') /\ (z =? 0) = (z' =? 0)).
    { intros z z' Ez. split_and!; apply eq_true_iff_eq; rewrite ?Z.ltb_lt, ?Z.eqb_eq, <- ?sgn_lt, <- ?sgn_gt, <- ?sgn_eq; by rewrite Ez. }
    destruct (lowerBound plan) as [b|] eqn:El, (upperBound plan) as [b'|] eqn:Eu; cbn;
      try (destruct (Hz _ _ (Hs (b_value b) (f_lower_ok Hf b El))) as (E1 & E2 & E3));
      try (destruct (Hz _ _ (Hs (b_value b') (f_upper_ok Hf b' Eu))) as (E4 & E5 & E6));
      rewrite ?E1, ?E3, ?E5, ?E6; done.
  - unfold has_bound in Hb. destruct (lowerBound plan), (upperBound plan); done.
Qed.

Lemma applies_eq k k' : key_full k -> key_full k' -> key_cmp cs k k' = Eq -> applies k = applies k'.
Proof.
  intros Hk Hk' E. pose proof (f_length Hf) as Hlen. pose proof (f_laws Hf) as Hl.
  rewrite <- tuple_cmp_full in E by (apply Hk || apply Hk').
  pose proof Hk as [Lk Wk]. pose proof Hk' as [Lk' Wk']. rewrite (tuple_split cs p k k') in E by lia.
  assert (E1 : tuple_cmp (take p cs) k k' = Eq) by (by destruct (tuple_cmp (take p cs) k k')). rewrite E1 in E. cbn [cmp_then] in E.
  assert (CmpLaws (tuple_cmp (take p cs))) by (apply tuple_cmp_laws; by apply Forall_take).
  assert (Hm : prefix_matches (sc_equalityPrefix comparators) k prefix = prefix_matches (sc_equalityPrefix comparators) k' prefix).
  { rewrite !prefix_matches_key by done. by rewrite (cmp_eq_l (tuple_cmp (take p cs)) k k' prefix E1). }
  assert (Hw : within_bounds plan (sc_bound comparators) (k !! p) = within_bounds plan (sc_bound comparators) (k' !! p)).
  { destruct (cs !! p) as [q|] eqn:Hq.
    - pose proof (lookup_lt_Some _ _ _ Hq) as Hlt. destruct (lookup_lt_is_Some_2 k p) as [x Hx]; [lia|].
      destruct (lookup_lt_is_Some_2 k' p) as [y Hy]; [lia|]. rewrite Hx, Hy.
      apply (within_eq q); [done|by eapply Forall_lookup in Wk|by eapply Forall_lookup in Wk'|].
      rewrite (drop_S _ _ _ Hq), (drop_S _ _ _ Hx), (drop_S _ _ _ Hy) in E. destruct q as [c d]. cbn in *.
      destruct d; cbn in E; by destruct (c x y).
    - apply lookup_ge_None in Hq. rewrite !lookup_ge_None_2 by lia. done. }
  unfold applies, planAppliesToKey. rewrite (f_key Hf). unfold prefix in *.
  destruct (equalityPrefix plan); [by rewrite Hm, Hw|]. cbn [length] in Hw. by rewrite Hw.
Qed.

Section Tree.
Context {V : Type} (keyOf : V -> Key).
Context {T : Type -> Type} `{!BTree T} `{!BTreeLaws T}.
Context (zs : list ((value -> value -> Z) * bool)) (Hzs : Forall2 (column_ordered value_ok) zs cs).

Abbreviation step := (walk keyOf plan keyComparator from_upper comparators).
Abbreviation keep := (filter (fun v => applies (keyOf v) = true)).

Lemma keep_nil es : Forall (fun v => applies (keyOf v) = false) es -> keep es = [].
Proof. induction 1 as [|v es Hv H IH]; [done|]. rewrite filter_cons, decide_False; [done|by rewrite Hv]. Qed.

Lemma walk_filter es :
  StronglySorted (fun v w => walkIsExhausted (keyOf v) plan from_upper comparators = true -> applies (keyOf w) = false) es ->
  step es = keep es.
Proof.
  induction 1 as [|v es Hs IH Hv]; [done|]. cbn [walk]. rewrite filter_cons. fold (applies (keyOf v)).
  destruct (applies (keyOf v)) eqn:Ea; cbn [negb]; [by rewrite decide_True, IH|]. rewrite decide_False by done.
  destruct (walkIsExhausted (keyOf v) plan from_upper comparators) eqn:Ex; [|done].
  symmetry. apply keep_nil. eapply Forall_impl; [exact Hv|]. intros w Hw. by apply Hw.
Qed.

Lemma content_tuple l :
  content_ok keyOf key_full (key_cmp cs) l -> content_ok keyOf (tuple_ok value_ok (length zs)) (tuple_cmp cs) l.
Proof.
  rewrite (Forall2_length _ _ _ Hzs). intros [Hd Hs]. split.
  - eapply Forall_impl; [exact Hd|]. intros v Hv. by apply key_tuple.
  - induction Hs as [|v l Hs IH Hv]; constructor; apply Forall_cons in Hd as [Hdv Hd]; [by apply IH|].
    rewrite Forall_forall in Hv. rewrite Forall_forall in Hd. apply Forall_forall. intros w Hw.
    rewrite tuple_cmp_full; [by apply Hv|apply Hdv|by apply (Hd w Hw)].
Qed.

Lemma start_ok s : start = Some s -> tuple_ok value_ok (length zs) s.
Proof.
  intros Hs. rewrite (Forall2_length _ _ _ Hzs). rewrite (start_parts s Hs).
  pose proof (f_length Hf) as Hlen. pose proof (f_prefix_ok Hf) as Wp.
  destruct (if from_upper then upperBound plan else lowerBound plan) as [b|] eqn:Eb.
  - assert (Hbd : has_bound = true) by (unfold has_bound; destruct from_upper; rewrite Eb; cbn; [by rewrite orb_true_r|done]).
    pose proof (f_bound Hf Hbd). split_and!; rewrite ?length_app; cbn; [lia|lia|].
    apply Forall_app. split; [done|]. constructor; [|constructor].
    destruct from_upper; [by apply (f_upper_ok Hf)|by apply (f_lower_ok Hf)].
  - rewrite app_nil_r. split_and!; [done| |done]. intros E1. unfold start, seekStartKey in Hs.
    rewrite prefix_default, Eb, app_nil_r in Hs. destruct prefix as [|v P]; [done|]. cbn in *. lia.
Qed.

(** The walk from the start key yields what filtering the whole tree yields. *)
Lemma walk_tree (t : T V) :
  content_ok keyOf key_full (key_cmp cs) (bt_ascending t) ->
  step (safeIterate keyOf (compare_columns zs) t true start) = keep (bt_ascending t).
Proof.
  intros Hc. pose proof (tuple_ordered value_ok zs cs Hzs) as Ho. pose proof (proj1 Ho) as Hlaws.
  pose proof (content_tuple _ Hc) as Ht. destruct Hc as [Hfull _].
  assert (Hgo : forall es, (forall v, v ∈ es -> v ∈ bt_ascending t) ->
    StronglySorted (fun v w => tuple_cmp cs (keyOf v) (keyOf w) = Lt) es ->
    Forall (fun v => forall s, start = Some s -> tuple_cmp cs (keyOf v) s <> Lt) es -> step es = keep es).
  { intros es Hin Hs Hst. apply walk_filter. rewrite Forall_forall in Hfull. induction Hs as [|v es Hs IH Hv]; constructor.
    - apply IH; [intros w Hw; apply Hin; by right|]. by apply Forall_cons in Hst as [_ ?].
    - apply Forall_cons in Hst as [Hst _]. rewrite Forall_forall in Hv. apply Forall_forall. intros w Hw Hex.
      apply (exhausted_later (keyOf v)); auto; apply Hfull, Hin; [left|by right]. }
  unfold safeIterate. destruct start as [s|] eqn:Es; [|apply Hgo; [done|apply Ht|apply Forall_true; done]].
  pose proof (bt_find_spec _ _ keyOf _ _ _ t s Ho Ht (start_ok s Es)) as Hfind.
  destruct (bt_find keyOf (compare_columns zs) t s) as [[before on] after]. destruct Hfind as (Hl & Hb & Hon & Ha).
  rewrite Hl, filter_app. rewrite Hl in Hgo, Hfull. destruct Ht as [_ Hss]. rewrite Hl in Hss.
  apply Forall_app in Hfull as [Hfb Hfr].
  assert (Hkb : Forall (fun v => applies (keyOf v) = false) before).
  { rewrite Forall_forall in Hb, Hfb. apply Forall_forall. intros v Hv. apply (before_start s); auto. }
  rewrite (keep_nil before Hkb), app_nil_l. apply StronglySorted_app in Hss as (_ & _ & Hss).
  assert (Hrest : step (option_list on ++ after) = keep (option_list on ++ after)).
  { apply Hgo; [intros v Hv; apply elem_of_app; by right|done|]. apply Forall_app. split.
    - eapply Forall_impl; [exact Hon|]. intros v Hv s' [= <-]. by rewrite Hv.
    - eapply Forall_impl; [exact Ha|]. intros v Hv s' [= <-]. by rewrite Hv. }
  destruct on as [v|]; cbn in *; [done|]. destruct after as [|a after]; [|done].
  destruct (head (reverse before)) as [v|] eqn:Eh; [|done]. cbn.
  assert (Hv : applies (keyOf v) = false).
  { rewrite Forall_forall in Hkb. apply Hkb. destruct (reverse before) as [|v' r] eqn:Er; [done|]. injection Eh as ->.
    rewrite <- (reverse_involutive before), Er. apply elem_of_reverse. left. }
  fold (applies (keyOf v)). rewrite Hv. cbn. by destruct (walkIsExhausted _ _ _ _).
Qed.

End Tree.
End Walk.
End Walk.

(** ** Scans of a layer *)

Module Scans.
Import Refine Walk.

Section Scans.
Context (resolver : jsstring -> CollationFunction).
Context {T : Type -> Type} `{!BTree T} `{!BTreeLaws T}.

Abbreviation value := SqlValue.
Abbreviation Row := (list value).
Abbreviation layer := (TransactionLayer (T := T)).

Context (value_ok : value -> Prop) (column_ok : nat -> value -> Prop).
Context (vcol : nat -> option CollationFunction -> value -> value -> comparison).
Context (schema : TableSchema).
Context (Hschema : schema_ok resolver value_ok vcol schema).

Abbreviation width := (length (t_columns schema)).
Abbreviation rows l := (bt_ascending (primaryModifications (T := T) l)).
Abbreviation layer_fine := (layer_ok resolver value_ok column_ok vcol schema (T := T)).
Abbreviation pk_order := (pk_order resolver vcol schema).
Abbreviation ix_order := (ix_order resolver vcol).

(** The columns of a structure: table column, collation, direction. *)
Abbreviation column := (nat * option jsstring * bool)%type.

Definition pk_columns : list column := map (fun d => (p_index d, p_collation d, p_desc d)) (t_primaryKeyDefinition schema).
Definition index_columns (ix : IndexSchema) : list column :=
  map (fun c => (ic_index c, ic_collation c, ic_desc c)) (ix_columns ix).

Definition orders_of (cols : list column) : list ((value -> value -> comparison) * bool) :=
  map (fun c => (column_order resolver vcol c.1.1 c.1.2, c.2)) cols.
Definition tests_of (cols : list column) : list ((value -> value -> Z) * bool) :=
  map (fun c => (typed resolver (t_columns schema) c.1.1 c.1.2, c.2)) cols.

Definition same_collation (a b : option jsstring) : Prop :=
  exists n n', a = Some n /\ b = Some n' /\ resolver n = resolver n'.

(** A plan for an ordered walk of a structure, as the builder makes them: no
    more values than columns, each tested under the collation of its column. *)
Record plan_ok (cols : list column) (plan : ScanPlan) : Prop := {
  po_ascending : descending plan = false;
  po_key : equalityKey plan = None;
  po_keys : equalityKeys plan = None;
  po_ranges : ranges plan = None;
  po_prefix : Forall value_ok (prefix plan);
  po_lower : forall b, lowerBound plan = Some b -> value_ok (b_value b);
  po_upper : forall b, upperBound plan = Some b -> value_ok (b_value b);
  po_length : (length (prefix plan) + (if has_bound plan then 1 else 0) <= length cols)%nat;
  po_prefix_collation : forall j c, (j < length (prefix plan))%nat -> cols !! j = Some c ->
    same_collation (equalityPrefixCollations plan ≫= fun cs => cs !! j) c.1.2;
  po_bound_collation : forall c, has_bound plan = true -> cols !! length (prefix plan) = Some c ->
    same_collation (boundCollation plan) c.1.2
}.

Definition columns_bound (cols : list column) : Prop := Forall (fun c => (c.1.1 < width)%nat) cols.

Lemma column_test (cols : list column) j c name :
  columns_bound cols -> cols !! j = Some c -> same_collation name c.1.2 ->
  comparatorAt resolver schema (Some (map (fun c => c.1.1) cols)) j name =
  typed resolver (t_columns schema) c.1.1 c.1.2.
Proof.
  intros Hb Hc (n & n' & -> & En & Er). eapply Forall_lookup in Hb; [|exact Hc].
  destruct (lookup_lt_is_Some_2 (t_columns schema) c.1.1 Hb) as [col Hcol].
  assert (El : map (fun c : column => c.1.1) cols !! j = Some c.1.1) by (by rewrite list_lookup_fmap, Hc).
  unfold comparatorAt, typed. cbn [mbind option_bind]. rewrite El. cbn [mbind option_bind]. by rewrite Hcol, En, Er.
Qed.

Lemma typed_null i c (a b : value) :
  typed resolver (t_columns schema) i c a b = 0 -> is_null a = is_null b.
Proof.
  unfold typed, createTypedComparator. destruct (t_compare _); [by destruct a, b|].
  unfold compareSqlValuesFast. by destruct a, b.
Qed.

Lemma columns_ordered_of (cols : list column) : columns_bound cols -> Forall2 (column_ordered value_ok) (tests_of cols) (orders_of cols).
Proof.
  induction 1 as [|c cols Hc H IH]; cbn; constructor; [|done]. split; [|done]. by apply (ok_columns _ _ _ _ Hschema).
Qed.

Lemma plan_fits (cols : list column) plan :
  columns_bound cols -> plan_ok cols plan ->
  resolveIndexColumns (indexName plan) schema = Some (map (fun c => c.1.1) cols) ->
  fits value_ok (orders_of cols) plan (resolveScanComparators resolver plan schema).
Proof.
  intros Hb [] Hcols. pose proof (ok_columns _ _ _ _ Hschema) as Hok.
  assert (Ho : forall c, c ∈ cols -> ordered value_ok (typed resolver (t_columns schema) c.1.1 c.1.2)
    (column_order resolver vcol c.1.1 c.1.2)).
  { intros c Hc. apply Hok. unfold columns_bound in Hb. by eapply Forall_forall in Hb. }
  assert (Hlen : (length (prefix plan) <= length cols)%nat) by lia.
  split; try done.
  - apply Forall_map, Forall_forall. intros c Hc. apply (proj1 (Ho c Hc)).
  - unfold orders_of. rewrite length_map. lia.
  - intros Hbd. unfold orders_of. rewrite length_map. rewrite Hbd in *. lia.
  - unfold resolveScanComparators. cbn [sc_equalityPrefix]. rewrite Hcols, prefix_default. apply Forall2_same_length_lookup_2.
    + rewrite length_imap, length_take. unfold orders_of. rewrite length_map. lia.
    + intros j z q Hz Hq a b Ha Hv. rewrite list_lookup_imap in Hz. destruct (prefix plan !! j) as [v|] eqn:Ev; [|done].
      cbn in Hz. injection Hz as <-. pose proof (lookup_lt_Some _ _ _ Ev) as Hj. rewrite lookup_take_lt in Hq by done.
      unfold orders_of in Hq. rewrite list_lookup_fmap in Hq. destruct (cols !! j) as [c|] eqn:Ec; [|done]. injection Hq as <-.
      rewrite (column_test cols j c) by (auto). apply (Ho c); [by eapply list_elem_of_lookup_2|done|done].
  - intros Hbd q Hq a b Ha Hv. unfold resolveScanComparators. cbn [sc_bound]. rewrite Hcols, prefix_default.
    unfold orders_of in Hq. rewrite list_lookup_fmap in Hq. destruct (cols !! length (prefix plan)) as [c|] eqn:Ec; [|done].
    injection Hq as <-. rewrite (column_test cols _ c) by auto. apply (Ho c); [by eapply list_elem_of_lookup_2|done|done].
  - intros q Hq a b Ha Hv E. unfold orders_of in Hq. rewrite list_lookup_fmap in Hq.
    destruct (cols !! length (prefix plan)) as [c|] eqn:Ec; [|done]. injection Hq as <-. cbn in E.
    apply (typed_null c.1.1 c.1.2), sgn_eq. rewrite <- E. apply (Ho c); [by eapply list_elem_of_lookup_2|done|done].
Qed.

(** *** The structures of a layer *)

Lemma pk_tests : tests_of pk_columns = pk_comparators resolver schema.
Proof. unfold tests_of, pk_columns, pk_comparators. by rewrite map_map. Qed.

Lemma pk_orders : orders_of pk_columns = map (fun d => (column_order resolver vcol (p_index d) (p_collation d), p_desc d))
  (t_primaryKeyDefinition schema).
Proof. unfold orders_of, pk_columns. by rewrite map_map. Qed.

Lemma ix_tests ix : tests_of (index_columns ix) = index_comparators resolver (t_columns schema) ix.
Proof. unfold tests_of, index_columns, index_comparators. by rewrite map_map. Qed.

Lemma ix_orders ix : orders_of (index_columns ix) = map (fun c => (column_order resolver vcol (ic_index c) (ic_collation c), ic_desc c))
  (ix_columns ix).
Proof. unfold orders_of, index_columns. by rewrite map_map. Qed.

Lemma pk_bound : columns_bound pk_columns.
Proof. unfold columns_bound, pk_columns. apply Forall_map. apply (ok_pk_bound _ _ _ _ Hschema). Qed.

Lemma ix_bound ix : ix ∈ t_indexes schema -> columns_bound (index_columns ix).
Proof.
  intros Hix. unfold columns_bound, index_columns. apply Forall_map.
  pose proof (ok_ix_bound _ _ _ _ Hschema) as Hb. by eapply Forall_forall in Hb.
Qed.

Lemma length_pk : length (orders_of pk_columns) = length (t_primaryKeyDefinition schema).
Proof. unfold orders_of, pk_columns. by rewrite !length_map. Qed.

Lemma length_ix ix : length (orders_of (index_columns ix)) = length (ix_columns ix).
Proof. unfold orders_of, index_columns. by rewrite !length_map. Qed.

Lemma null_prefix_applies (plan : ScanPlan) k cmp comps :
  equalityKey plan = None -> existsb is_null (prefix plan) = true -> planAppliesToKey plan k cmp comps = false.
Proof.
  intros Hk Hn. unfold planAppliesToKey. rewrite Hk. destruct (bound_is_null _ || bound_is_null _); [done|].
  unfold prefix in Hn. destruct (equalityPrefix plan); [by rewrite Hn|done].
Qed.

Lemma filter_none {A} (P : A -> Prop) `{!forall x, Decision (P x)} l : (forall x, ~ P x) -> filter P l = [].
Proof. intros Hno. induction l as [|x l IH]; [done|]. by rewrite filter_cons, decide_False. Qed.

Lemma filter_ext_in {A} (P Q : A -> Prop) `{!forall x, Decision (P x)} `{!forall x, Decision (Q x)} (l : list A) :
  (forall x, x ∈ l -> P x <-> Q x) -> filter P l = filter Q l.
Proof.
  induction l as [|x l IH]; intros Hpq; [done|]. rewrite !filter_cons, IH by (intros y Hy; apply Hpq; by right).
  destruct (Hpq x (list_elem_of_here _ _)). by do 2 case_decide; auto; tauto.
Qed.

Lemma sorted_in {A} (R R' : A -> A -> Prop) (l : list A) :
  StronglySorted R l -> (forall x y, x ∈ l -> y ∈ l -> R x y -> R' x y) -> StronglySorted R' l.
Proof.
  induction 1 as [|x l Hs IH Hx]; intros Hr; constructor; [apply IH; intros; apply Hr; auto; by right|].
  rewrite Forall_forall in Hx. apply Forall_forall. intros y Hy. apply Hr; [left|by right|by apply Hx].
Qed.

Lemma sorted_filter {A} (R : A -> A -> Prop) (P : A -> Prop) `{!forall x, Decision (P x)} (l : list A) :
  StronglySorted R l -> StronglySorted R (filter P l).
Proof.
  induction 1 as [|x l Hs IH Hx]; [constructor|]. rewrite filter_cons. case_decide; [|done]. constructor; [done|].
  rewrite Forall_forall in Hx. apply Forall_forall. intros y [_ Hy]%list_elem_of_filter. by apply Hx.
Qed.

Lemma from_upper_desc (cols : list column) plan :
  from_upper (orders_of cols) plan = match cols !! length (prefix plan) with Some c => c.2 | None => false end.
Proof. unfold from_upper, orders_of. rewrite list_lookup_fmap. by destruct (cols !! length (prefix plan)). Qed.

Abbreviation scan := (scanLayer resolver (T := T)).
Abbreviation resolved plan := (resolveScanComparators resolver plan schema).

(** C7: An ascending walk of the primary tree — from the start key built from
    an equality prefix and the bound the tree's direction calls for, until the
    key shows that no later one can match — yields exactly the rows that a
    filter by the plan yields from the whole table, in primary-key order.
    Seeking and stopping early never lose or add a row, whatever the collations
    and the directions of the key columns.  Of the layer only its primary tree
    matters: rows in the order of their keys. *)
Theorem primary_scan_exact l plan :
  l_schema l = schema -> content_ok (pk_of schema) (key_ok value_ok (length (t_primaryKeyDefinition schema))) pk_order (rows l) ->
  indexName plan = js "primary" -> plan_ok pk_columns plan ->
  scan l plan =
  Ok (filter (fun r => planAppliesToKey plan (pk_of schema r) (pk_compare resolver schema) (resolved plan) = true)
        (rows l)).
Proof.
  intros Hs Hc Hn Hp.
  assert (Hcols : resolveIndexColumns (indexName plan) schema = Some (map (fun c : column => c.1.1) pk_columns)).
  { unfold resolveIndexColumns, is_primary. rewrite Hn. cbn. unfold pk_columns. by rewrite map_map. }
  pose proof (plan_fits pk_columns plan pk_bound Hp Hcols) as Hf.
  unfold scanLayer. rewrite Hs, (po_keys _ _ Hp). unfold scan_ranges. rewrite (po_ranges _ _ Hp). unfold scan_one.
  rewrite Hs, prefix_default. unfold is_primary. rewrite Hn, bool_decide_eq_true_2, (po_key _ _ Hp) by done.
  destruct (existsb is_null (prefix plan)) eqn:En.
  - f_equal. symmetry. apply filter_none. intros r. by rewrite (null_prefix_applies plan) by (done || apply (po_key _ _ Hp)).
  - f_equal. rewrite (po_ascending _ _ Hp). cbn [negb].
    assert (Hdir : match t_primaryKeyDefinition schema !! length (prefix plan) with Some d => p_desc d | None => false end
      = from_upper (orders_of pk_columns) plan).
    { rewrite from_upper_desc. unfold pk_columns. rewrite list_lookup_fmap.
      by destruct (t_primaryKeyDefinition schema !! length (prefix plan)). }
    rewrite Hdir.
    replace (Bool.eqb true (from_upper (orders_of pk_columns) plan)) with (from_upper (orders_of pk_columns) plan)
      by (by destruct (from_upper (orders_of pk_columns) plan)).
    unfold pk_compare. rewrite <- pk_tests. apply (walk_tree value_ok (orders_of pk_columns) plan (resolved plan) _ Hf).
    + apply _.
    + apply columns_ordered_of, pk_bound.
    + rewrite length_pk. unfold Refine.pk_order in Hc. by rewrite <- pk_orders in Hc.
Qed.

(** *** Secondary indexes *)

Lemma find_index_in ix : ix ∈ t_indexes schema -> find_index schema (ix_name ix) = Some ix.
Proof.
  intros Hix. pose proof (ok_ix_names _ _ _ _ Hschema) as Hn. unfold find_index.
  destruct (list_find (fun i => ix_name i = ix_name ix) (t_indexes schema)) as [[j ix']|] eqn:E.
  - apply list_find_Some in E as (Hj & En & _). cbn. f_equal.
    apply list_elem_of_lookup in Hix as (i & Hi).
    assert (i = j) as ->; [|by simplify_eq].
    apply (NoDup_lookup _ _ _ (ix_name ix) Hn); rewrite list_lookup_fmap; [by rewrite Hi|by rewrite Hj; cbn; rewrite En].
  - apply list_find_None in E. rewrite Forall_forall in E. by destruct (E ix Hix).
Qed.

Abbreviation index_lt ix := (fun r r' : Row =>
  cmp_then (ix_order ix (index_key ix r) (index_key ix r')) (pk_order (pk_of schema r) (pk_of schema r')) = Lt).

(** Groups of rows, one per entry and in the order of the entries. *)
Lemma groups_sorted ix (f : MemoryIndexEntry -> list Row) es :
  ix ∈ t_indexes schema -> StronglySorted (fun e e' => ix_order ix (indexKey e) (indexKey e') = Lt) es ->
  (forall e, e ∈ es -> StronglySorted (fun r r' => pk_order (pk_of schema r) (pk_of schema r') = Lt) (f e)) ->
  (forall e r, e ∈ es -> r ∈ f e -> ix_order ix (index_key ix r) (indexKey e) = Eq) ->
  StronglySorted (index_lt ix) (concat (map f es)).
Proof.
  intros Hix Hs Hf He. pose proof (ix_laws _ _ _ _ Hschema ix Hix) as Hl.
  induction Hs as [|e es Hs IH Hlt]; cbn; [constructor|]. apply StronglySorted_app_2.
  - intros r r' Hr Hr'. pose proof (He e r (list_elem_of_here _ _) Hr) as E1.
    apply list_elem_of_In, in_concat in Hr' as (rs & Hrs & Hr'). apply in_map_iff in Hrs as (e' & <- & He').
    apply list_elem_of_In in Hr', He'. pose proof (He e' r' ltac:(by right) Hr') as E2.
    rewrite Forall_forall in Hlt. specialize (Hlt e' He'). cbn in Hlt.
    rewrite (cmp_eq_l (ix_order ix) _ _ _ E1), (cmp_eq_r (ix_order ix) _ _ (indexKey e) E2), Hlt. done.
  - assert (Hall : Forall (fun r => ix_order ix (index_key ix r) (indexKey e) = Eq) (f e)).
    { apply Forall_forall. intros r Hr. apply (He e r); [left|done]. }
    pose proof (Hf e (list_elem_of_here _ _)) as Hfe. induction Hfe as [|r rs Hrs IHr Hr]; constructor;
      apply Forall_cons in Hall as [Hre Hall]; [by apply IHr|].
    rewrite Forall_forall in Hr, Hall. apply Forall_forall. intros r' Hr'.
    rewrite (cmp_eq_l (ix_order ix) _ _ _ Hre). rewrite (cmp_eq_sym (ix_order ix) _ _ (Hall r' Hr')). cbn. by apply Hr.
  - apply IH; intros; [apply Hf; by right|eapply He; [by right|done]].
Qed.

Lemma index_columns_resolved ix (plan : ScanPlan) :
  ix ∈ t_indexes schema -> indexName plan = ix_name ix -> ix_name ix <> js "primary" ->
  resolveIndexColumns (indexName plan) schema = Some (map (fun c : column => c.1.1) (index_columns ix)).
Proof.
  intros Hix Hn Hnp. unfold resolveIndexColumns, is_primary. rewrite Hn, bool_decide_eq_false_2, find_index_in by done. cbn.
  unfold index_columns. by rewrite map_map.
Qed.

Abbreviation passes plan k :=
  (planAppliesToKey plan k (pk_compare resolver schema) (resolved plan)).

(** The scan is the walk of the entries, and each entry's rows. *)
Lemma index_scan_entries l plan ix mi :
  layer_fine l -> ix ∈ t_indexes schema -> indexName plan = ix_name ix -> ix_name ix <> js "primary" ->
  plan_ok (index_columns ix) plan -> secondaryIndexes l !! ix_name ix = Some mi -> mi_spec mi = ix ->
  content_ok indexKey (key_ok value_ok (length (ix_columns ix))) (ix_order ix) (bt_ascending (mi_data mi)) ->
  scan l plan = Ok (concat (map (rows_of resolver schema l)
    (filter (fun e => passes plan (indexKey e) = true) (bt_ascending (mi_data mi))))).
Proof.
  intros Hl Hix Hn Hnp Hp Hlook Hmi Hc. pose proof (ok_schema _ _ _ _ _ _ Hl) as Hs.
  pose proof (plan_fits (index_columns ix) plan (ix_bound ix Hix) Hp (index_columns_resolved ix plan Hix Hn Hnp)) as Hf.
  unfold scanLayer. rewrite Hs, (po_keys _ _ Hp). unfold scan_ranges. rewrite (po_ranges _ _ Hp). unfold scan_one.
  rewrite Hs, prefix_default. unfold is_primary. rewrite Hn, bool_decide_eq_false_2, (po_key _ _ Hp), Hlook by done.
  destruct (existsb is_null (prefix plan)) eqn:En.
  - rewrite filter_none; [done|]. intros e. by rewrite (null_prefix_applies plan) by (done || apply (po_key _ _ Hp)).
  - f_equal. rewrite (po_ascending _ _ Hp). cbn [negb]. unfold rows_of, lookupEffectiveRow. rewrite Hs. do 2 f_equal.
    assert (Hdir : match find_index schema (ix_name ix) ≫= fun ix => ix_columns ix !! length (prefix plan) with
        Some c => ic_desc c | None => false end = from_upper (orders_of (index_columns ix)) plan).
    { rewrite find_index_in, from_upper_desc by done. unfold index_columns. rewrite list_lookup_fmap. cbn.
      by destruct (ix_columns ix !! length (prefix plan)). }
    rewrite Hdir.
    replace (Bool.eqb true (from_upper (orders_of (index_columns ix)) plan)) with (from_upper (orders_of (index_columns ix)) plan)
      by (by destruct (from_upper (orders_of (index_columns ix)) plan)).
    rewrite Hmi. unfold compareKeys. rewrite <- ix_tests.
    apply (walk_tree value_ok (orders_of (index_columns ix)) plan (resolved plan) _ Hf).
    + apply _.
    + by apply columns_ordered_of, ix_bound.
    + rewrite length_ix. unfold Refine.ix_order in Hc. by rewrite <- ix_orders in Hc.
Qed.

(** An entry passes when the rows it lists do. *)
Lemma entry_passes plan ix k k' :
  ix ∈ t_indexes schema -> indexName plan = ix_name ix -> ix_name ix <> js "primary" -> plan_ok (index_columns ix) plan ->
  key_ok value_ok (length (ix_columns ix)) k -> key_ok value_ok (length (ix_columns ix)) k' -> ix_order ix k k' = Eq ->
  passes plan k = passes plan k'.
Proof.
  intros Hix Hn Hnp Hp Hk Hk' E. rewrite <- length_ix in Hk, Hk'.
  pose proof (plan_fits (index_columns ix) plan (ix_bound ix Hix) Hp (index_columns_resolved ix plan Hix Hn Hnp)) as Hf.
  apply (applies_eq value_ok (orders_of (index_columns ix)) plan (resolved plan) _ Hf); [done|done|].
  unfold Refine.ix_order in E. by rewrite <- ix_orders in E.
Qed.

(** C8: An ascending walk of a secondary index yields exactly the rows in the
    scope of the index whose indexed columns the plan accepts, each once, in
    the order of the index and by primary key within equal index keys (the
    order the overlay merge of the isolation layer relies on).  Every collation
    of the primary key is allowed: the index lists the rows by the codes of
    their keys ([layer_ok]), which the mutations keep. *)
Theorem index_scan_exact l plan ix :
  layer_fine l -> ix ∈ t_indexes schema -> indexName plan = ix_name ix -> ix_name ix <> js "primary" ->
  plan_ok (index_columns ix) plan ->
  exists rs, scan l plan = Ok rs /\ StronglySorted (index_lt ix) rs /\
    forall r, r ∈ rs <-> r ∈ rows l /\ rowMatchesPredicate ix r = true /\ passes plan (index_key ix r) = true.
Proof.
  intros Hl Hix Hn Hnp Hp. destruct (ok_indexes _ _ _ _ _ _ Hl ix Hix) as (mi & Hlook & Hmi & Hok).
  pose proof Hok as [[Hc _] Hls]. pose proof (ix_laws _ _ _ _ Hschema ix Hix). pose proof (pk_laws _ _ _ _ Hschema).
  eexists. split; [by apply (index_scan_entries l plan ix mi)|].
  pose proof (fun e He => rows_of_spec _ _ _ _ _ Hschema l ix mi e Hl Hix Hmi Hok He) as Hrows.
  assert (Hkey : forall e, e ∈ bt_ascending (mi_data mi) -> key_ok value_ok (length (ix_columns ix)) (indexKey e)).
  { intros e He. destruct Hc as [Hd _]. by eapply Forall_forall in Hd. }
  assert (Hro : forall r, r ∈ rows l -> row_ok value_ok column_ok schema r).
  { intros r Hr. pose proof (ok_rows _ _ _ _ _ _ Hl) as Hro. by eapply Forall_forall in Hro. }
  assert (Hrk : forall r, r ∈ rows l -> key_ok value_ok (length (ix_columns ix)) (index_key ix r)).
  { intros r Hr. eapply index_key_ok; [exact Hschema|]. auto. }
  split.
  - apply groups_sorted; [done|..].
    + refine (proj2 (content_filter indexKey _ (ix_order ix) (fun e => passes plan (indexKey e) = true) _ Hc)).
    + intros e [_ He]%list_elem_of_filter. by apply (Hrows e He).
    + intros e r [_ He]%list_elem_of_filter Hr. by apply (Hrows e He).
  - intros r. rewrite list_elem_of_In, in_concat. split.
    + intros (rs & Hrs & Hr%list_elem_of_In). apply in_map_iff in Hrs as (e & <- & He%list_elem_of_In).
      apply list_elem_of_filter in He as [Ha He]. apply (Hrows e He) in Hr as (Hr & Hm & E).
      by rewrite (entry_passes plan ix _ (indexKey e)) by auto.
    + intros (Hr & Hm & Ha).
      assert (Hpk : key_ok value_ok (length (t_primaryKeyDefinition schema)) (pk_of schema r))
        by (eapply pk_of_ok; [exact Hschema|auto]).
      destruct (proj2 (Hls (index_key ix r) (pk_of schema r) (Hrk r Hr) Hpk)) as (e & q & He & E & _).
      { exists r. split_and!; [done|done|apply (cmp_refl (ix_order ix))|done]. }
      exists (rows_of resolver schema l e).
      split; [|apply list_elem_of_In, (Hrows e He); split_and!; [done|done|by apply (cmp_eq_sym (ix_order ix))]].
      apply in_map, list_elem_of_In, list_elem_of_filter. split; [|done].
      by rewrite (entry_passes plan ix _ (index_key ix r)) by auto.
Qed.

(** *** Lists of keys *)

Abbreviation encoded r := (pk_encode schema (pk_of schema r)).
Abbreviation row_fine := (row_ok value_ok column_ok schema).
Abbreviation pk_fine := (key_ok value_ok (length (t_primaryKeyDefinition schema))).

Lemma encoded_eq r r' : row_fine r -> row_fine r' -> encoded r = encoded r' -> pk_order (pk_of schema r) (pk_of schema r') = Eq.
Proof. intros Hr Hr'. apply (ok_code _ _ _ _ Hschema); by eapply pk_of_ok. Qed.

Lemma take_unseen_spec rs seen :
  Forall row_fine rs -> StronglySorted (fun r r' => pk_order (pk_of schema r) (pk_of schema r') = Lt) rs ->
  exists seen', take_unseen schema rs seen = Ok (filter (fun r => encoded r ∉ seen) rs, seen') /\
    forall e, e ∈ seen' <-> e ∈ seen \/ exists r, r ∈ rs /\ encoded r = e.
Proof.
  intros Hr Hs. revert seen. induction Hs as [|r rs Hs IH Hlt]; intros seen; cbn [take_unseen].
  { exists seen. split; [done|]. intros e. split; [by left|]. intros [He|(r & Hr' & _)]; [done|by apply elem_of_nil in Hr']. }
  apply Forall_cons in Hr as [Hro Hrs]. rewrite (extractFromRow_ok _ _ _ _ _ Hschema r Hro). cbn [res_bind].
  assert (Hne : forall r', r' ∈ rs -> encoded r <> encoded r').
  { intros r' Hr' E. rewrite Forall_forall in Hlt, Hrs. apply (encoded_eq r r') in E; [|done|by apply Hrs].
    by rewrite (Hlt r' Hr') in E. }
  case_bool_decide as Hin; rewrite filter_cons.
  - rewrite decide_False by (intros H'; by apply H'). destruct (IH Hrs seen) as (seen' & -> & Hs'). exists seen'.
    split; [done|]. intros e. rewrite Hs'. setoid_rewrite elem_of_cons. split; [naive_solver|].
    intros [He|(r' & [->|Hr'] & <-)]; [by left|by left|]. right. eauto.
  - rewrite decide_True by done. destruct (IH Hrs ({[ encoded r ]} ∪ seen)) as (seen' & -> & Hs'). cbn [res_bind fst snd].
    exists seen'. split.
    + do 3 f_equal. apply filter_ext_in. intros r' Hr'. specialize (Hne r' Hr'). set_solver.
    + intros e. rewrite Hs'. setoid_rewrite elem_of_cons. set_solver.
Qed.

(** The loop over ordered keys: [look k] are the rows found for a key, the
    rows in scope whose key is [k]. *)
Section Seeks.
Context (l : layer) (plan : ScanPlan) (comparators : ResolvedScanComparators).
Context (kord : list value -> list value -> comparison) (keyr : Row -> list value) (in_scope : Row -> bool).
Context (look : list value -> list Row) (key_fine : list value -> Prop).
Context (Hl : layer_fine l) (Hk : CmpLaws kord).
Context (Hlook : forall k, key_fine k -> seekKeyHasNull k = false ->
  scan_ranges resolver l (with_key plan k) comparators = Ok (look k)).
Context (Hsorted : forall k, key_fine k -> StronglySorted (fun r r' => pk_order (pk_of schema r) (pk_of schema r') = Lt) (look k)).
Context (Helem : forall k r, key_fine k -> r ∈ look k <-> r ∈ rows l /\ in_scope r = true /\ kord (keyr r) k = Eq).

Definition found (ks : list (list value)) (r : Row) : Prop :=
  in_scope r = true /\ exists k, k ∈ ks /\ seekKeyHasNull k = false /\ kord (keyr r) k = Eq.

Definition seek_lt (r r' : Row) : Prop :=
  cmp_then (kord (keyr r) (keyr r')) (pk_order (pk_of schema r) (pk_of schema r')) = Lt.

Lemma same_row r r' : r ∈ rows l -> r' ∈ rows l -> encoded r = encoded r' -> r = r'.
Proof.
  intros Hr Hr' E. pose proof (pk_laws _ _ _ _ Hschema). pose proof (ok_rows _ _ _ _ _ _ Hl) as Hrows.
  rewrite Forall_forall in Hrows.
  apply (content_unique (pk_of schema) pk_fine pk_order (rows l)); [apply (ok_content _ _ _ _ _ _ Hl)|done..|].
  by apply encoded_eq; [apply Hrows|apply Hrows|].
Qed.

Lemma found_cons k ks r :
  found (k :: ks) r <->
  (in_scope r = true /\ seekKeyHasNull k = false /\ kord (keyr r) k = Eq) \/ found ks r.
Proof. unfold found. setoid_rewrite elem_of_cons. naive_solver. Qed.

(** One key: the rows yielded and the keys seen after it. *)
Lemma seek_step k past seen :
  key_fine k -> (forall r, r ∈ rows l -> encoded r ∈ seen <-> found past r) -> seekKeyHasNull k = false ->
  exists fresh seen', take_unseen schema (look k) seen = Ok (fresh, seen') /\
    StronglySorted (fun r r' => pk_order (pk_of schema r) (pk_of schema r') = Lt) fresh /\
    (forall r, r ∈ fresh <-> r ∈ rows l /\ in_scope r = true /\ kord (keyr r) k = Eq /\ ~ found past r) /\
    (forall r, r ∈ rows l -> encoded r ∈ seen' <-> found (k :: past) r).
Proof.
  intros Hkf Hseen En. pose proof (ok_rows _ _ _ _ _ _ Hl) as Hrows. rewrite Forall_forall in Hrows.
  destruct (take_unseen_spec (look k) seen) as (seen' & E & Hs'); [|by apply Hsorted|].
  { apply Forall_forall. intros r Hr. apply Hrows. by apply (Helem k r Hkf). }
  eexists _, seen'. split_and!; [exact E|by apply sorted_filter, Hsorted|..].
  - intros r. rewrite list_elem_of_filter, (Helem k r Hkf). split.
    + intros (Hns & Hr & Hsc & Ek). split_and!; try done. by rewrite <- (Hseen r Hr).
    + intros (Hr & Hsc & Ek & Hno). split_and!; try done. by rewrite (Hseen r Hr).
  - intros r Hr. rewrite Hs', (Hseen r Hr), found_cons. split.
    + intros [Hp|(r' & Hr' & Ee)]; [by right|]. apply (Helem k r' Hkf) in Hr' as (Hin' & Hsc & Ek).
      apply same_row in Ee as ->; [by left|done|done].
    + intros [(Hsc & _ & Ek)|Hp]; [|by left]. right. exists r. split; [by apply (Helem k r Hkf)|done].
Qed.

Lemma seek_loop_spec ks past seen :
  Forall key_fine ks -> StronglySorted (fun k k' => kord k k' <> Gt) ks ->
  (forall r, r ∈ rows l -> encoded r ∈ seen <-> found past r) ->
  exists rs, seek_loop resolver l plan comparators ks seen = Ok rs /\
    StronglySorted seek_lt rs /\ forall r, r ∈ rs <-> r ∈ rows l /\ found ks r /\ ~ found past r.
Proof.
  intros Hf Hs. revert past seen. induction Hs as [|k ks Hs IH Hle]; intros past seen Hseen; cbn [seek_loop].
  { exists []. split_and!; [done|constructor|]. intros r. split; [by intros ?%elem_of_nil|].
    intros (_ & (_ & k & Hin & _) & _). by apply elem_of_nil in Hin. }
  apply Forall_cons in Hf as [Hkf Hf]. specialize (IH Hf). rewrite Forall_forall in Hle.
  destruct (seekKeyHasNull k) eqn:En.
  { destruct (IH past seen Hseen) as (rs & -> & Hsr & Hr). exists rs. split_and!; [done|done|].
    intros r. rewrite Hr, found_cons, En. clear. intuition congruence. }
  rewrite (Hlook k Hkf En). cbn [res_bind]. rewrite (ok_schema _ _ _ _ _ _ Hl).
  destruct (seek_step k past seen Hkf Hseen En) as (fresh & seen' & -> & Hfs & Hfresh & Hs'). cbn [res_bind fst snd].
  destruct (IH (k :: past) seen' Hs') as (rs & -> & Hsr & Hr). cbn [res_bind]. eexists. split_and!; [done| |].
  - apply StronglySorted_app_2; [| |done].
    + intros r r' (Hin & Hsc & E & Hno)%Hfresh (Hin' & (Hsc' & k0 & Hk0 & Hn0 & E0) & Hno')%Hr. unfold seek_lt.
      rewrite (cmp_eq_l kord _ _ _ E), (cmp_eq_r kord _ _ k E0).
      destruct (kord k k0) eqn:Ek; [|done|by destruct (Hle k0 Hk0)]. exfalso. apply Hno', found_cons. left.
      split_and!; [done|done|]. rewrite (cmp_eq_l kord _ _ k E0). by apply (cmp_eq_sym kord).
    + eapply sorted_in; [exact Hfs|]. intros r r' (_ & _ & E & _)%Hfresh (_ & _ & E' & _)%Hfresh Hlt.
      unfold seek_lt. rewrite (cmp_eq_l kord _ _ _ E). by rewrite (cmp_eq_sym kord _ _ E').
  - intros r. rewrite elem_of_app, Hfresh, Hr, !found_cons.
    assert (Hsc : found ks r -> in_scope r = true) by (by intros [? _]).
    destruct (decide (kord (keyr r) k = Eq)) as [E|E]; clear -E En Hsc; tauto.
Qed.

End Seeks.

(** The two kinds of structure a seek goes to. *)
Inductive structure : Type :=
| Primary
| Secondary (ix : IndexSchema).

Definition s_ok (s : structure) : Prop :=
  match s with Primary => True | Secondary ix => ix ∈ t_indexes schema /\ ix_name ix <> js "primary" end.
Definition s_name (s : structure) : jsstring := match s with Primary => js "primary" | Secondary ix => ix_name ix end.
Definition s_arity (s : structure) : nat :=
  match s with Primary => length (t_primaryKeyDefinition schema) | Secondary ix => length (ix_columns ix) end.
Definition s_order (s : structure) : list value -> list value -> comparison :=
  match s with Primary => pk_order | Secondary ix => ix_order ix end.
Definition s_key (s : structure) (r : Row) : list value :=
  match s with Primary => pk_of schema r | Secondary ix => index_key ix r end.
Definition s_scope (s : structure) (r : Row) : bool :=
  match s with Primary => true | Secondary ix => rowMatchesPredicate ix r end.

(** The rows of one key. *)
Definition s_look (s : structure) (l : layer) (k : list value) : list Row :=
  match s with
  | Primary => option_list (lookupEffectiveRow resolver k l)
  | Secondary ix =>
    match secondaryIndexes l !! ix_name ix with
    | None => []
    | Some mi =>
      match bt_get indexKey (compareKeys resolver (t_columns schema) ix) (mi_data mi) k with
      | Some e => rows_of resolver schema l e
      | None => []
      end
    end
  end.

Lemma s_laws s : s_ok s -> CmpLaws (s_order s).
Proof. destruct s as [|ix]; cbn; [intros _; by eapply pk_laws|]. intros [Hix _]. by eapply ix_laws. Qed.

Lemma s_look_scan s l plan k :
  layer_fine l -> s_ok s -> indexName plan = s_name s -> equalityPrefix plan = None -> ranges plan = None ->
  seekKeyHasNull k = false ->
  scan_ranges resolver l (with_key plan k) (resolved plan) = Ok (s_look s l k).
Proof.
  intros Hl Hs Hn Hp Hr Hnull. unfold scan_ranges. cbn [ranges with_key]. rewrite Hr. unfold scan_one.
  cbn [equalityPrefix with_key indexName equalityKey]. rewrite Hp, Hn, Hnull, (ok_schema _ _ _ _ _ _ Hl). cbn [default existsb].
  unfold is_primary, s_look, lookupEffectiveRow. destruct s as [|ix]; cbn [s_name].
  - rewrite bool_decide_eq_true_2 by done. by rewrite (ok_schema _ _ _ _ _ _ Hl).
  - destruct Hs as [Hix Hnp]. rewrite bool_decide_eq_false_2 by done.
    destruct (ok_indexes _ _ _ _ _ _ Hl ix Hix) as (mi & -> & -> & _).
    unfold rows_of, lookupEffectiveRow. by rewrite (ok_schema _ _ _ _ _ _ Hl).
Qed.

Lemma s_look_spec s l k :
  layer_fine l -> s_ok s -> key_ok value_ok (s_arity s) k ->
  StronglySorted (fun r r' => pk_order (pk_of schema r) (pk_of schema r') = Lt) (s_look s l k) /\
  forall r, r ∈ s_look s l k <-> r ∈ rows l /\ s_scope s r = true /\ s_order s (s_key s r) k = Eq.
Proof.
  intros Hl Hs Hk. destruct s as [|ix]; cbn in *.
  - pose proof (fun w => lookup_row _ _ _ _ _ Hschema l k w Hl Hk) as Hw. unfold at_key in Hw.
    destruct (lookupEffectiveRow _ k l) as [w|] eqn:E; cbn.
    + split; [by repeat constructor|]. intros r. rewrite list_elem_of_singleton. split.
      * intros ->. destruct (proj1 (Hw w) eq_refl). done.
      * intros (Hr & _ & Ek). enough (Some w = Some r) by congruence. by apply Hw.
    + split; [constructor|]. intros r. split; [by intros ?%elem_of_nil|]. intros (Hr & _ & Ek).
      by assert (None = Some r) by (by apply Hw).
  - destruct Hs as [Hix _]. destruct (ok_indexes _ _ _ _ _ _ Hl ix Hix) as (mi & -> & Hmi & Hok).
    pose proof (ix_laws _ _ _ _ Hschema ix Hix). pose proof (pk_laws _ _ _ _ Hschema).
    destruct (bt_get _ _ _ _) as [e|] eqn:Eg.
    + destruct (entry_found _ _ _ _ Hschema ix mi k e Hix (proj1 Hok) Hk Eg) as (He & Hat & _).
      destruct (rows_of_spec _ _ _ _ _ Hschema l ix mi e Hl Hix Hmi Hok He) as [[_ Hs] Hel]. split; [done|].
      intros r. rewrite Hel. by rewrite (cmp_eq_r (ix_order ix) _ _ (index_key ix r) Hat).
    + split; [constructor|]. intros r. split; [by intros ?%elem_of_nil|]. intros (Hr & Hm & Ek). exfalso.
      eapply (entry_missing _ _ _ _ Hschema ix mi k k (pk_of schema r) Hix (proj1 Hok) Hk Eg); [apply (cmp_refl (ix_order ix))|].
      apply (proj2 Hok); [done| |by exists r].
      eapply pk_of_ok; [exact Hschema|]. pose proof (ok_rows _ _ _ _ _ _ Hl) as Hro. by eapply Forall_forall in Hro.
Qed.

Lemma s_sorted_keys s l plan keys :
  layer_fine l -> s_ok s -> indexName plan = s_name s -> descending plan = false -> Forall (key_ok value_ok (s_arity s)) keys ->
  StronglySorted (fun k k' => s_order s k k' <> Gt) (orderSeekKeys resolver keys plan l) /\
  orderSeekKeys resolver keys plan l ≡ₚ keys.
Proof.
  intros Hl Hs Hn Hd Hk. unfold orderSeekKeys, is_primary. rewrite Hn, Hd, (ok_schema _ _ _ _ _ _ Hl).
  destruct s as [|ix]; cbn [s_name s_arity s_order] in *.
  - rewrite bool_decide_eq_true_2 by done. split; [|apply js_sort_perm].
    exact (sort_ordered (fun k => k) _ _ _ (pk_ordered _ _ _ _ Hschema) keys Hk).
  - destruct Hs as [Hix Hnp]. rewrite bool_decide_eq_false_2 by done.
    destruct (ok_indexes _ _ _ _ _ _ Hl ix Hix) as (mi & -> & Hmi & _). cbn. rewrite Hmi.
    split; [|apply js_sort_perm]. exact (sort_ordered (fun k => k) _ _ _ (ix_ordered _ _ _ _ Hschema ix Hix) keys Hk).
Qed.

(** A multi-seek (an [IN] list) on the primary key or on a secondary index
    is set membership: it yields every row in scope whose key equals one of the
    listed keys exactly once, however often and in whatever spelling the key is
    listed, keys with a NULL match nothing, and the rows come in the order of
    the structure whatever the order of the list. *)
Theorem multi_seek_exact s l plan k0 keys :
  layer_fine l -> s_ok s -> indexName plan = s_name s -> descending plan = false -> equalityPrefix plan = None ->
  ranges plan = None -> equalityKeys plan = Some (k0 :: keys) -> Forall (key_ok value_ok (s_arity s)) (k0 :: keys) ->
  exists rs, scan l plan = Ok rs /\
    StronglySorted (fun r r' => cmp_then (s_order s (s_key s r) (s_key s r')) (pk_order (pk_of schema r) (pk_of schema r')) = Lt) rs /\
    forall r, r ∈ rs <-> r ∈ rows l /\ s_scope s r = true /\
      exists k, k ∈ k0 :: keys /\ seekKeyHasNull k = false /\ s_order s (s_key s r) k = Eq.
Proof.
  intros Hl Hs Hn Hd Hp Hr Hks Hok. pose proof (s_laws s Hs) as Hlaws.
  destruct (s_sorted_keys s l plan (k0 :: keys) Hl Hs Hn Hd Hok) as [Hsorted Hperm].
  unfold scanLayer. rewrite Hks, (ok_schema _ _ _ _ _ _ Hl).
  destruct (seek_loop_spec l plan (resolved plan) (s_order s) (s_key s) (s_scope s) (s_look s l)
    (key_ok value_ok (s_arity s)) Hl Hlaws (fun k _ Hnull => s_look_scan s l plan k Hl Hs Hn Hp Hr Hnull)) with
    (ks := orderSeekKeys resolver (k0 :: keys) plan l) (past := @nil (list value)) (seen := (∅ : gset jsstring))
    as (rs & Hrs & Hso & Hel).
  - intros k Hk. by apply s_look_spec.
  - intros k r Hk. by apply s_look_spec.
  - by rewrite Hperm.
  - done.
  - intros r _. unfold found. split; [by intros ?%not_elem_of_empty|]. by intros (_ & k & ?%elem_of_nil & _).
  - exists rs. split_and!; [exact Hrs|exact Hso|]. intros r. rewrite Hel. unfold found. setoid_rewrite Hperm.
    split; [tauto|]. intros (? & ? & ?). split_and!; try done. by intros (_ & k & ?%elem_of_nil & _).
Qed.

End Scans.
End Scans.

(** ** A table scanned

    Ann's row and Carl's, in the table of [Users]. *)

Module Readings.
Import Types TypedOrder Refine Builtins Users Scans.

Definition carl : list SqlValue := user (js "Carl") (js "Carl@x.org") 32.

Definition table : TransactionLayer (T := sorted_list) :=
  match performInsert resolver id manager with_ann (Some carl) None true with
  | Ok (l, _) => l
  | Throw _ => with_ann
  end.

Lemma carl_ok : row_ok wf fits schema carl.
Proof. apply user_ok; by apply wf_stringb_spec. Qed.

Lemma table_valid : layer_valid resolver wf fits order schema table.
Proof.
  pose proof (insert_step resolver id wf fits order schema users_schema_ok manager users_manager_ok
                with_ann carl None true with_ann_valid) as H.
  unfold step_refines, table in *.
  assert (Hc : forall r, row_arg schema true carl = Ok r ->
    row_ok wf fits schema r /\ spelled resolver order schema (table_rows with_ann) (pk_of schema r)).
  { intros r [= <-]. split; [exact carl_ok|apply spelled_dec; by vm_compute]. }
  destruct (performInsert resolver id manager with_ann (Some carl) None true) as [[l u]|e].
  - by apply H.
  - discriminate (H Hc).
Qed.

Abbreviation scan_table := (scanLayer resolver (T := sorted_list) table).

Definition walk_plan (name collation : jsstring) (lower upper : option (ScanPlanRangeBound)) : ScanPlan :=
  mkPlan name false None None None None (Some collation) lower upper None.

(** [where name > 'ANN' and name <= 'carl'], without case. *)
Definition by_name : ScanPlan :=
  walk_plan (js "primary") (js "NOCASE") (Some (mkBound GT (VText (js "ANN")))) (Some (mkBound LE (VText (js "carl")))).

Lemma primary_scan_exact_witness :
  scan_table by_name =
  Ok (filter (fun r => planAppliesToKey by_name (pk_of schema r) (pk_compare resolver schema)
                         (resolveScanComparators resolver by_name schema) = true) (table_rows table)) /\
  scan_table by_name = Ok [carl].
Proof.
  split; [|vm_compute; reflexivity].
  apply (primary_scan_exact resolver wf order schema users_schema_ok table by_name).
  - exact (ok_schema _ _ _ _ _ _ (proj1 table_valid)).
  - exact (ok_content _ _ _ _ _ _ (proj1 table_valid)).
  - reflexivity.
  - split; [reflexivity|reflexivity|reflexivity|reflexivity|apply Forall_nil_2|..].
    + intros b [= <-]. apply wf_stringb_spec. reflexivity.
    + intros b [= <-]. apply wf_stringb_spec. reflexivity.
    + cbn. lia.
    + intros j c Hj. cbn in Hj. lia.
    + intros [[i n] d] _ [= <- <- <-]. by exists (js "NOCASE"), (js "NOCASE").
Defined.

(** [where email <= 'BOB'], under the collation of the column. *)
Definition by_email : ScanPlan :=
  walk_plan (js "_uc_email") (js "NOCASE") None (Some (mkBound LE (VText (js "BOB")))).

Lemma index_scan_exact_witness :
  (exists rs, scan_table by_email = Ok rs /\
    StronglySorted (fun r r' => cmp_then (ix_order resolver order email_index (index_key email_index r) (index_key email_index r'))
      (pk_order resolver order schema (pk_of schema r) (pk_of schema r')) = Lt) rs /\
    forall r, r ∈ rs <-> r ∈ table_rows table /\ rowMatchesPredicate email_index r = true /\
      planAppliesToKey by_email (index_key email_index r) (pk_compare resolver schema)
        (resolveScanComparators resolver by_email schema) = true) /\
  scan_table by_email = Ok [ann].
Proof.
  split; [|vm_compute; reflexivity].
  apply (index_scan_exact resolver wf fits order schema users_schema_ok table by_email email_index (proj1 table_valid)).
  - left.
  - reflexivity.
  - discriminate.
  - split; [reflexivity|reflexivity|reflexivity|reflexivity|apply Forall_nil_2|..].
    + discriminate.
    + intros b [= <-]. apply wf_stringb_spec. reflexivity.
    + cbn. lia.
    + intros j c Hj. cbn in Hj. lia.
    + intros [[i n] d] _ [= <- <- <-]. by exists (js "NOCASE"), (js "NOCASE").
Defined.

(** [where email in ('CARL@X.ORG', null, 'ann@x.org', 'ANN@x.org')]. *)
Definition emails : list (list SqlValue) :=
  [[VText (js "CARL@X.ORG")]; [VNull]; [VText (js "ann@x.org")]; [VText (js "ANN@x.org")]].

Definition in_emails : ScanPlan := mkPlan (js "_uc_email") false None (Some emails) None None None None None None.

Lemma multi_seek_exact_witness :
  (exists rs, scan_table in_emails = Ok rs /\
    StronglySorted (fun r r' => cmp_then (ix_order resolver order email_index (index_key email_index r) (index_key email_index r'))
      (pk_order resolver order schema (pk_of schema r) (pk_of schema r')) = Lt) rs /\
    forall r, r ∈ rs <-> r ∈ table_rows table /\ rowMatchesPredicate email_index r = true /\
      exists k, k ∈ emails /\ seekKeyHasNull k = false /\ ix_order resolver order email_index (index_key email_index r) k = Eq) /\
  scan_table in_emails = Ok [ann; carl].
Proof.
  split; [|vm_compute; reflexivity].
  apply (multi_seek_exact resolver wf fits order schema users_schema_ok (Secondary email_index) table in_emails
           [VText (js "CARL@X.ORG")] (tail emails) (proj1 table_valid)).
  - split; [left|discriminate].
  - reflexivity.
  - reflexivity.
  - reflexivity.
  - reflexivity.
  - reflexivity.
  - repeat (constructor; [split; [reflexivity|constructor; [|constructor]]; first [exact I|apply wf_stringb_spec; reflexivity]|]).
    constructor.
Defined.

End Readings.

(** ** Walks down a composite key

    A start key shorter than the keys of the tree sorts before every key it is
    a prefix of.  A descending walk that starts from one therefore starts below
    the group it is meant to read: under an equality prefix it yields nothing,
    and under an inclusive upper bound it misses the rows at the bound. *)

Module Descending.


Definition schema : TableSchema :=
  mkTable (js "moves") [mkColumn (js "game") Types.INTEGER_TYPE (js "BINARY") None; mkColumn (js "ply") Types.INTEGER_TYPE (js "BINARY") None]
    [mkPkColumn 0 false (Some (js "BINARY")); mkPkColumn 1 false (Some (js "BINARY"))] None [] [].

Definition move (game ply : Z) : list SqlValue := [VBigint game; VBigint ply].

Definition layer : TransactionLayer (T := sorted_list) :=
  mkLayer schema [move 1 1; move 2 1; move 2 2; move 3 1] ∅ false false None [].

Definition plan (down : bool) (prefix : option (list SqlValue)) (upper : option ScanPlanRangeBound) : ScanPlan :=
  mkPlan (js "primary") down None None prefix None None None upper None.

Abbreviation moves := (scanLayer (fun _ => BINARY_COLLATION) layer).

Lemma descending_prefix_lost :
  moves (plan false (Some [VBigint 2]) None) = Ok [move 2 1; move 2 2] /\
  moves (plan true (Some [VBigint 2]) None) = Ok [].
Proof. vm_compute. by split. Qed.

Lemma descending_bound_lost :
  moves (plan false None (Some (mkBound LE (VBigint 2)))) = Ok [move 1 1; move 2 1; move 2 2] /\
  moves (plan true None (Some (mkBound LE (VBigint 2)))) = Ok [move 1 1].
Proof. vm_compute. by split. Qed.

End Descending.

(** ** Keys compared without case

    Index entries list primary keys by their encoding, which keeps case.  When
    a key column compares without case, an upsert under another spelling drops
    the entry of the new spelling, not the one the row was listed under, and the
    old index key keeps pointing at the row. *)

Module Fruits.
Import Users.

Definition color_index : IndexSchema := mkIndex (js "ix_color") [mkIndexColumn 1 false (Some (js "BINARY"))] None.

Definition schema : TableSchema :=
  mkTable (js "fruits")
    [mkColumn (js "name") Types.TEXT_TYPE (js "NOCASE") None; mkColumn (js "color") Types.TEXT_TYPE (js "BINARY") None]
    [mkPkColumn 0 false (Some (js "NOCASE"))] None [color_index] [].

Definition fruits : MemoryTableManager := mkManager (js "fruits") schema ∅ (fun _ => None).

Definition fruit (name color : jsstring) : list SqlValue := [VText name; VText color].

Definition layer : TransactionLayer (T := sorted_list) :=
  mkLayer schema [] {[ js "ix_color" := mkMemoryIndex color_index [] ]} false false None [].

Definition replaced : res (TransactionLayer (T := sorted_list)) :=
  let* l := performInsert resolver id fruits layer (Some (fruit (js "apple") (js "red"))) None true in
  let* l := performInsert resolver id fruits l.1 (Some (fruit (js "APPLE") (js "green"))) (Some REPLACE) true in
  Ok l.1.

Definition by_color (color : jsstring) : ScanPlan :=
  mkPlan (js "ix_color") false (Some [VText color]) None None None None None None None.

Lemma stale_index_entry :
  match replaced with
  | Ok l => table_rows l = [fruit (js "APPLE") (js "green")] /\
      scanLayer resolver l (by_color (js "red")) = Ok [fruit (js "APPLE") (js "green")]
  | Throw _ => False
  end.
Proof. vm_compute. by split. Qed.

End Fruits.
