(* ===== verification/KeyEncoding.v ===== *)
(** * Sortable key bytes

    Models [packages/quereus-store/src/common/encoding.ts]: the byte keys under
    which a store-backed table files its rows and index entries, and their
    decoding.

    JSON text is that of [Json]; the case mappings of strings are arguments. *)

From S2P Require Import Prelude Bytes Double NumberText Utf8 Json Comparison KeySerializer.
From Stdlib Require Import ZArith Lia.
From stdpp Require Import sorting.
From stdpp Require Import base tactics numbers sets gmap list.
#[local] Open Scope Z_scope.

Import Utf8 Json Comparison KeySerializer.

Module KeyEncoding.

(** ** Options *)

(** A collation name to its normalizer, or an error. *)
Definition KeyNormalizerResolver : Type := jsstring -> res normalizer.

Definition BUILTIN_KEY_NORMALIZER_RESOLVER (toUpperCase toLowerCase : normalizer)
    : KeyNormalizerResolver := fun collationName =>
  if decide (collationName = []) then Ok IDENTITY_NORMALIZER
  else if decide (collationName = js "BINARY") then Ok IDENTITY_NORMALIZER
  else match BUILTIN_NORMALIZERS toLowerCase (toUpperCase collationName) with
       | Some norm => Ok norm
       | None => Throw ENoCollation
       end.

Record EncodeOptions := mkEncodeOptions {
  collation : option jsstring;
  normalizers : option KeyNormalizerResolver
}.

Definition TYPE_NULL : Z := 0x00.
Definition TYPE_NUMERIC : Z := 0x01.
Definition TYPE_TEXT : Z := 0x03.
Definition TYPE_BLOB : Z := 0x04.
Definition TYPE_OBJECT : Z := 0x05.
Definition NUMERIC_KEY_LENGTH : nat := 17.
Definition ESCAPE_BYTE : Z := 0x01.
Definition NULL_BYTE : Z := 0x00.

(** ** Numbers *)

(** [for (i = off; i < off + n; i++) buffer[i] ^= mask]. *)
Definition u8_xor (buffer : bytes) (off n : nat) (mask : Z) : bytes :=
  take off buffer ++ map (fun b => Z.lxor b mask) (take n (drop off buffer)) ++ drop (off + n) buffer.

Definition writeSortableDouble (buffer : bytes) (offset : nat) (value : double) : res bytes :=
  let normalized := if is_neg_zero value then 0 else value in
  let* buffer := u8_set buffer (be 8 normalized) offset in
  if num_ltb (num_of_double normalized) (NFin 0)
  then Ok (u8_xor buffer offset 8 0xff)
  else Ok (u8_xor buffer offset 1 0x80).

Inductive numeric : Type :=
| NumDouble (d : double)
| NumBig (n : Z).

(** Nearest double and residual; [BigInt(Infinity)] throws. *)
Definition primary_offset (value : numeric) : res (double * Z) :=
  match value with
  | NumBig n =>
    if 2 ^ 1024 <=? Z.abs (Number_of_bigint n) then Throw ERange
    else Ok (Number_bits n, n - Number_of_bigint n)
  | NumDouble d => Ok (if is_neg_zero d then 0 else d, 0)
  end.

Definition encodeNumeric (value : numeric) : res bytes :=
  let buffer := <[0%nat := TYPE_NUMERIC]> (u8_new NUMERIC_KEY_LENGTH) in
  let* po := primary_offset value in
  let* buffer := writeSortableDouble buffer 1 po.1 in
  let* buffer := u8_set buffer (be 8 (po.2 mod 2 ^ 64)) 9 in
  Ok (u8_xor buffer 9 1 0x80).

(** ** Text and bytes *)

Definition escape (byte : Z) : bytes :=
  if byte =? NULL_BYTE then [ESCAPE_BYTE; 0x01]
  else if byte =? ESCAPE_BYTE then [ESCAPE_BYTE; 0x02]
  else [byte].

Definition writeEscapedWithTerminator (typeTag : Z) (bs : bytes) : bytes :=
  typeTag :: concat (map escape bs) ++ [NULL_BYTE].

Definition HAS_SURROGATE (s : jsstring) : bool := existsb (within 0xD800 0xDFFF) s.

Fixpoint unpaired_loop (i : Z) (value : jsstring) : Z :=
  match value with
  | [] => -1
  | unit :: rest =>
    if (unit <? 0xD800) || (0xDFFF <? unit) then unpaired_loop (i + 1) rest
    else if 0xDC00 <=? unit then i
    else
      match rest with
      | next :: rest' =>
        if (next <? 0xDC00) || (0xDFFF <? next) then i else unpaired_loop (i + 2) rest'
      | [] => i
      end
  end.

Definition findUnpairedSurrogate (value : jsstring) : Z :=
  if negb (HAS_SURROGATE value) then -1 else unpaired_loop 0 value.

Definition assertNoUnpairedSurrogate (value : jsstring) : res unit :=
  let at_ := findUnpairedSurrogate value in
  if at_ <? 0 then Ok tt else Throw (EUnpairedSurrogate (Z.to_nat at_)).

Definition encodeText (value coll : jsstring) (resolve : KeyNormalizerResolver) : res bytes :=
  let* norm := resolve coll in
  let sortValue := norm value in
  let* _ := assertNoUnpairedSurrogate sortValue in
  Ok (writeEscapedWithTerminator TYPE_TEXT (utf8_encode sortValue)).

Definition encodeBlob (value : bytes) : bytes := writeEscapedWithTerminator TYPE_BLOB value.

Definition encodeObject (jsonString : jsstring) : bytes :=
  writeEscapedWithTerminator TYPE_OBJECT (utf8_encode jsonString).

Section Encode.
Context (toUpperCase toLowerCase : normalizer).

Abbreviation value := SqlValue.

Definition encodeValue (v : value) (options : EncodeOptions) : res bytes :=
  let coll := default (js "NOCASE") (collation options) in
  let resolve := default (BUILTIN_KEY_NORMALIZER_RESOLVER toUpperCase toLowerCase) (normalizers options) in
  match v with
  | VNull => Ok [TYPE_NULL]
  | VBigint n => encodeNumeric (NumBig n)
  | VNumber d => encodeNumeric (NumDouble d)
  | VText s => encodeText s coll resolve
  | VBlob b => Ok (encodeBlob b)
  | VBool b => encodeNumeric (NumBig (if b then 1 else 0))
  | VObject o => Ok (encodeObject (canonicalJsonString o))
  end.

Definition KeyValueTransform : Type := value -> value.

Definition invert (bs : bytes) : bytes := map (fun b => Z.lxor b 0xff) bs.

(** One component: its collation, transform and direction. *)
Definition encodePart (v : value) (options : EncodeOptions) (direction : bool)
    (colCollation : option jsstring) (transform : option KeyValueTransform) : res bytes :=
  let colOptions := match colCollation with
                    | Some c => mkEncodeOptions (Some c) (normalizers options)
                    | None => options
                    end in
  let* encoded := encodeValue (transform_value transform v) colOptions in
  Ok (if direction then invert encoded else encoded).

(** Missing entries of the per-column arrays are [undefined]. *)
Fixpoint encode_parts (values : list value) (options : EncodeOptions) (directions : list bool)
    (collations : list (option jsstring)) (transforms : list (option KeyValueTransform)) : res (list bytes) :=
  match values with
  | [] => Ok []
  | v :: values' =>
    let* part := encodePart v options (default false (head directions)) (mjoin (head collations))
                   (mjoin (head transforms)) in
    let* parts := encode_parts values' options (tail directions) (tail collations) (tail transforms) in
    Ok (part :: parts)
  end.

Definition encodeCompositeKey (values : list value) (options : EncodeOptions) (directions : list bool)
    (collations : list (option jsstring)) (transforms : list (option KeyValueTransform)) : res bytes :=
  let* parts := encode_parts values options directions collations transforms in
  Ok (concat parts).

(** ** Decoding *)

(** [getFloat64]: every NaN pattern reads as NaN. *)
Definition read_double (bits : Z) : double := if INF_MAG <? dmag bits then NAN_BITS else bits.

(** [getBigInt64]. *)
Definition to_int64 (z : Z) : Z := if 2 ^ 63 <=? z then z - 2 ^ 64 else z.

Definition decodeNumeric (buffer : bytes) (offset : nat) : res (value * nat) :=
  if (length buffer <? offset + NUMERIC_KEY_LENGTH)%nat then Throw EUnderflow
  else
    let primaryBytes := slice (offset + 1) (offset + 9) buffer in
    let wasNegative := Z.land (nth (offset + 1) buffer 0) 0x80 =? 0 in
    let primaryBytes := if wasNegative then u8_xor primaryBytes 0 8 0xff
                        else u8_xor primaryBytes 0 1 0x80 in
    let primary := read_double (unbe primaryBytes) in
    let offsetBytes := u8_xor (slice (offset + 9) (offset + NUMERIC_KEY_LENGTH) buffer) 0 1 0x80 in
    let residual := to_int64 (unbe offsetBytes) in
    if residual =? 0 then
      match BigInt_of_double primary with
      | Some n => Ok (VBigint n, NUMERIC_KEY_LENGTH)
      | None => Ok (VNumber primary, NUMERIC_KEY_LENGTH)
      end
    else
      match BigInt_of_double primary with
      | Some n => Ok (VBigint (n + residual), NUMERIC_KEY_LENGTH)
      | None => Throw ERange
      end.

(** The [while] of [readEscapedUntilTerminator] from a position: the content
    and how many bytes it took. *)
Fixpoint unescape (bs : bytes) : bytes * nat :=
  match bs with
  | [] => ([], O)
  | byte :: rest =>
    if byte =? NULL_BYTE then ([], 1%nat)
    else
      let plain := let '(content, n) := unescape rest in (byte :: content, S n) in
      if byte =? ESCAPE_BYTE then
        match rest with
        | next :: rest' =>
          if next =? 0x01 then let '(content, n) := unescape rest' in (NULL_BYTE :: content, S (S n))
          else if next =? 0x02 then let '(content, n) := unescape rest' in (ESCAPE_BYTE :: content, S (S n))
          else plain
        | [] => plain
        end
      else plain
  end.

Definition readEscapedUntilTerminator (buffer : bytes) (offset : nat) : bytes * nat :=
  let '(content, n) := unescape (drop (offset + 1) buffer) in (content, S n).

Definition decodeText (buffer : bytes) (offset : nat) : value * nat :=
  let '(content, n) := readEscapedUntilTerminator buffer offset in (VText (utf8_decode content), n).

Definition decodeBlob (buffer : bytes) (offset : nat) : value * nat :=
  let '(content, n) := readEscapedUntilTerminator buffer offset in (VBlob content, n).

Definition decodeObject (buffer : bytes) (offset : nat) : res (value * nat) :=
  let '(content, n) := readEscapedUntilTerminator buffer offset in
  match JSON_parse (utf8_decode content) with
  | Some v => Ok (sql_of_json v, n)
  | None => Throw ESyntax
  end.

Definition decodeValue (buffer : bytes) (offset : nat) : res (value * nat) :=
  match buffer !! offset with
  | None => Throw EUnderflow
  | Some typePrefix =>
    if typePrefix =? TYPE_NULL then Ok (VNull, 1%nat)
    else if typePrefix =? TYPE_NUMERIC then decodeNumeric buffer offset
    else if typePrefix =? TYPE_TEXT then Ok (decodeText buffer offset)
    else if typePrefix =? TYPE_BLOB then Ok (decodeBlob buffer offset)
    else if typePrefix =? TYPE_OBJECT then decodeObject buffer offset
    else Throw (EUnknownTag typePrefix)
  end.

(** The [while] of [decodeCompositeKey]; every value takes at least a byte, so
    one turn per byte of the buffer is enough. *)
Fixpoint decode_loop (fuel : nat) (buffer : bytes) (expectedCount : option nat) (offset : nat)
    (values : list value) : res (list value) :=
  match fuel with
  | O => Ok values
  | S fuel' =>
    if (offset <? length buffer)%nat then
      let* x := decodeValue buffer offset in
      let values := values ++ [x.1] in
      if match expectedCount with Some n => (n <=? length values)%nat | None => false end
      then Ok values
      else decode_loop fuel' buffer expectedCount (offset + x.2) values
    else Ok values
  end.

Definition decodeCompositeKey (buffer : bytes) (expectedCount : option nat) : res (list value) :=
  decode_loop (length buffer) buffer expectedCount 0 [].

End Encode.

(** ** Keys that diverge *)

(** [o] is settled inside the two keys: they are equal, or the first byte where
    they differ decides, whatever follows. *)
Inductive diverge : comparison -> bytes -> bytes -> Prop :=
| diverge_eq k : diverge Eq k k
| diverge_ne p a b sa sb : a <> b -> diverge (a ?= b) (p ++ a :: sa) (p ++ b :: sb).

Lemma blex_app p x y : blex (p ++ x) (p ++ y) = blex x y.
Proof. induction p as [|b p IH]; [done|]. cbn. by rewrite Z.compare_refl. Qed.

Lemma compare_ne_then a b o : a <> b -> cmp_then (a ?= b) o = (a ?= b).
Proof. intros H. destruct (Z.compare_spec a b); [done|done|done]. Qed.

Lemma diverge_blex o ka kb x y : diverge o ka kb -> blex (ka ++ x) (kb ++ y) = cmp_then o (blex x y).
Proof.
  intros [k|p a b sa sb Hne]; [apply blex_app|].
  rewrite <- !app_assoc, blex_app. cbn. unfold cmp_then. by destruct (Z.compare_spec a b).
Qed.

Lemma diverge_cmp o ka kb : diverge o ka kb -> blex ka kb = o.
Proof.
  intros H. pose proof (diverge_blex o ka kb [] [] H) as E. rewrite !app_nil_r in E. rewrite E. by destruct o.
Qed.

Lemma diverge_app o o' ka kb ka' kb' :
  diverge o ka kb -> diverge o' ka' kb' -> diverge (cmp_then o o') (ka ++ ka') (kb ++ kb').
Proof.
  intros [k|p a b sa sb Hne] H'.
  - destruct H' as [k'|p' a' b' sa' sb' Hne']; cbn; [constructor|]. rewrite !app_assoc. by constructor.
  - rewrite compare_ne_then by done. rewrite <- !app_assoc. cbn. by constructor.
Qed.

Lemma diverge_prefix p o ka kb : diverge o ka kb -> diverge o (p ++ ka) (p ++ kb).
Proof. intros H. exact (diverge_app Eq o p p ka kb (diverge_eq p) H). Qed.

Lemma diverge_fixed ka kb : length ka = length kb -> diverge (blex ka kb) ka kb.
Proof.
  revert kb. induction ka as [|a ka IH]; intros [|b kb] H; try done; [constructor|].
  cbn. destruct (Z.compare_spec a b) as [->|Hlt|Hgt]; cbn.
  - apply (diverge_prefix [b]). apply IH. by injection H.
  - pose proof (diverge_ne [] a b ka kb ltac:(lia)) as D. by rewrite (proj2 (Z.compare_lt_iff a b)) in D.
  - pose proof (diverge_ne [] a b ka kb ltac:(lia)) as D. by rewrite (proj2 (Z.compare_gt_iff a b)) in D.
Qed.

Lemma byte_cases (P : Z -> bool) : forallb P (seqZ 0 256) = true -> forall b, is_byte b -> P b = true.
Proof. intros H b Hb. rewrite forallb_forall in H. apply H, list_elem_of_In, elem_of_seqZ. unfold is_byte in *. lia. Qed.

Lemma lxor_ff b : is_byte b -> Z.lxor b 0xff = 255 - b.
Proof. intros Hb. apply Z.eqb_eq. by apply (byte_cases (fun b => Z.lxor b 0xff =? 255 - b)). Qed.

Lemma lxor_80 b : is_byte b -> Z.lxor b 0x80 = (b + 128) mod 256.
Proof. intros Hb. apply Z.eqb_eq. by apply (byte_cases (fun b => Z.lxor b 0x80 =? (b + 128) mod 256)). Qed.

Lemma invert_sub l : wf_bytes l -> invert l = map (fun b => 255 - b) l.
Proof.
  intros Hl. apply map_ext_Forall. eapply Forall_impl; [exact Hl|]. intros b. apply lxor_ff.
Qed.

Lemma invert_wf l : wf_bytes l -> wf_bytes (invert l).
Proof.
  intros Hl. rewrite invert_sub by done. apply Forall_map. eapply Forall_impl; [exact Hl|].
  intros b Hb. unfold compose, is_byte in *. lia.
Qed.

(** A descending component: the inverted bytes order the other way round. *)
Lemma diverge_invert o ka kb :
  wf_bytes ka -> wf_bytes kb -> diverge o ka kb -> diverge (CompOpp o) (invert ka) (invert kb).
Proof.
  intros Wa Wb H. rewrite !invert_sub by done. destruct H as [k|p a b sa sb Hne]; [constructor|].
  rewrite !map_app. cbn [map]. replace (CompOpp (a ?= b)) with (255 - a ?= 255 - b).
  - constructor. lia.
  - rewrite <- Z.compare_antisym. destruct (Z.compare_spec b a), (Z.compare_spec (255 - a) (255 - b)); lia || done.
Qed.

(** ** Escaped bytes *)

Lemma escape_head_pos x y a b :
  is_byte x -> is_byte y -> x <> y ->
  diverge (x ?= y) (escape x ++ a) (escape y ++ b).
Proof.
  unfold is_byte, escape, NULL_BYTE, ESCAPE_BYTE. intros Hx Hy Hne.
  destruct (Z.eqb_spec x 0) as [->|Hx0], (Z.eqb_spec y 0) as [->|Hy0]; try done.
  - destruct (Z.eqb_spec y 1) as [->|Hy1].
    + exact (diverge_ne [1] 1 2 a b ltac:(lia)).
    + replace (0 ?= y) with (1 ?= y) by (destruct (Z.compare_spec 1 y), (Z.compare_spec 0 y); lia || done).
      exact (diverge_ne [] 1 y (1 :: a) b ltac:(lia)).
  - destruct (Z.eqb_spec x 1) as [->|Hx1].
    + exact (diverge_ne [1] 2 1 a b ltac:(lia)).
    + replace (x ?= 0) with (x ?= 1) by (destruct (Z.compare_spec x 1), (Z.compare_spec x 0); lia || done).
      exact (diverge_ne [] x 1 a (1 :: b) ltac:(lia)).
  - destruct (Z.eqb_spec x 1) as [->|Hx1], (Z.eqb_spec y 1) as [->|Hy1]; try done.
    + exact (diverge_ne [] 1 y (2 :: a) b ltac:(lia)).
    + exact (diverge_ne [] x 1 a (2 :: b) ltac:(lia)).
    + exact (diverge_ne [] x y a b ltac:(lia)).
Qed.

Lemma escape_pos x : is_byte x -> exists h t, escape x = h :: t /\ 0 < h.
Proof.
  unfold is_byte, escape, NULL_BYTE, ESCAPE_BYTE. intros Hx.
  destruct (Z.eqb_spec x 0); [by exists 1, [1]|]. destruct (Z.eqb_spec x 1); [by exists 1, [2]|].
  exists x, []. split; [done|lia].
Qed.

(** The terminator sorts below every continuation, so no escaped sequence is a
    proper prefix of another. *)
Lemma escaped_diverge tag a b :
  wf_bytes a -> wf_bytes b ->
  diverge (blex a b) (writeEscapedWithTerminator tag a) (writeEscapedWithTerminator tag b).
Proof.
  intros Ha Hb. apply (diverge_prefix [tag]). unfold NULL_BYTE.
  revert b Hb. induction Ha as [|x a Hx Ha IH]; intros b Hb; destruct Hb as [|y b Hy Hb]; cbn [map concat blex lex].
  - constructor.
  - destruct (escape_pos y Hy) as (h & t & -> & Hh). cbn [app].
    pose proof (diverge_ne [] 0 h [] ((t ++ concat (map escape b)) ++ [0]) ltac:(lia)) as D.
    by rewrite (proj2 (Z.compare_lt_iff 0 h)) in D.
  - destruct (escape_pos x Hx) as (h & t & -> & Hh). cbn [app].
    pose proof (diverge_ne [] h 0 ((t ++ concat (map escape a)) ++ [0]) [] ltac:(lia)) as D.
    by rewrite (proj2 (Z.compare_gt_iff h 0)) in D.
  - rewrite <- !app_assoc. destruct (Z.eq_dec x y) as [->|Hne].
    + rewrite Z.compare_refl. by apply diverge_prefix, IH.
    + unfold cmp_then. pose proof (escape_head_pos x y (concat (map escape a) ++ [0]) (concat (map escape b) ++ [0]) Hx Hy Hne) as D.
      by destruct (Z.compare_spec x y).
Qed.

Lemma escaped_wf tag a : is_byte tag -> wf_bytes a -> wf_bytes (writeEscapedWithTerminator tag a).
Proof.
  intros Ht Ha. unfold writeEscapedWithTerminator. apply wf_cons. split; [done|]. apply wf_app. split; [|repeat constructor; done].
  induction Ha as [|x a Hx Ha IH]; cbn; [constructor|]. apply wf_app. split; [|done].
  unfold escape. destruct (_ =? _); [|destruct (_ =? _)]; repeat constructor; done || apply Hx.
Qed.

(** ** Numeric keys *)

Lemma unbe_cons b l : unbe (b :: l) = b * 256 ^ Z.of_nat (length l) + unbe l.
Proof.
  revert b. induction l as [|x l IH] using rev_ind; intros b; [by cbn; lia|].
  rewrite app_comm_cons, !unbe_snoc, IH, length_app. cbn [length].
  rewrite Nat2Z.inj_add, Z.pow_add_r by lia. lia.
Qed.

Lemma be_unique n z l : wf_bytes l -> length l = n -> unbe l = z -> l = be n z.
Proof. intros Hw <- <-. by rewrite be_unbe. Qed.

Lemma unbe_invert l : wf_bytes l -> unbe (invert l) = 256 ^ Z.of_nat (length l) - 1 - unbe l.
Proof.
  intros Hl. rewrite invert_sub by done. induction l as [|b l IH]; [done|].
  apply wf_cons in Hl as [_ Hl]. cbn [map]. rewrite !unbe_cons, IH, length_map by done. cbn [length].
  rewrite Nat2Z.inj_succ, Z.pow_succ_r by lia. lia.
Qed.

Lemma invert_be n z : 0 <= z < 256 ^ Z.of_nat n -> invert (be n z) = be n (256 ^ Z.of_nat n - 1 - z).
Proof.
  intros Hz. apply be_unique; [apply invert_wf, wf_be|unfold invert; by rewrite length_map, length_be|].
  by rewrite unbe_invert, length_be, unbe_be_small by (done || apply wf_be).
Qed.

Definition flip_top (l : bytes) : bytes := u8_xor l 0 1 0x80.

Lemma flip_top_be z : 0 <= z < 2 ^ 64 -> flip_top (be 8 z) = be 8 ((z + 2 ^ 63) mod 2 ^ 64).
Proof.
  intros Hz. pose proof (wf_be 8 z) as Hw. pose proof (length_be 8 z) as Hl.
  pose proof (unbe_be_small 8 z ltac:(cbn; lia)) as Hu.
  destruct (be 8 z) as [|b l]; [done|]. apply wf_cons in Hw as [Hb Hw]. rewrite unbe_cons in Hu.
  injection Hl as Hl. pose proof (unbe_bound l Hw) as Hr. rewrite Hl in *.
  change (flip_top (b :: l)) with (Z.lxor b 0x80 :: l). rewrite lxor_80 by done.
  change (256 ^ Z.of_nat 7) with (2 ^ 56) in *. unfold is_byte in Hb.
  apply be_unique.
  - apply wf_cons. split; [|done]. by apply Z.mod_pos_bound.
  - cbn. by rewrite Hl.
  - rewrite unbe_cons, Hl. change (256 ^ Z.of_nat 7) with (2 ^ 56). Z.to_euclidean_division_equations. lia.
Qed.

Lemma u8_xor_mid pre mid post n mask :
  length mid = n ->
  u8_xor (pre ++ mid ++ post) (length pre) n mask = pre ++ map (fun b => Z.lxor b mask) mid ++ post.
Proof.
  intros <-. unfold u8_xor. rewrite take_app_length, drop_app_length, take_app_length.
  rewrite drop_app_add, drop_app_length. done.
Qed.

Lemma is_negative d :
  wf_double d -> d <> NEG_ZERO -> num_ltb (num_of_double d) (NFin 0) = dneg d.
Proof.
  intros Hd Hz. destruct (num_of_double_cases d Hd Hz) as [(Hm & -> & Hp)|[(Hm & ->)|H]].
  - cbn. pose proof (dmag_bound d). destruct (dneg d).
    + pose proof (units_pos (dmag d) ltac:(auto)). lia.
    + pose proof (units_nonneg (dmag d) ltac:(lia)). lia.
  - by destruct (dneg d).
  - destruct H as (_ & -> & -> & _). done.
Qed.

(** The sortable form is the big-endian [skey]. *)
Lemma writeSortableDouble_at pre post d :
  wf_double d -> d <> NEG_ZERO ->
  writeSortableDouble (pre ++ u8_new 8 ++ post) (length pre) d = Ok (pre ++ be 8 (skey d) ++ post).
Proof.
  intros Hd Hz. unfold writeSortableDouble, is_neg_zero. rewrite (proj2 (Z.eqb_neq d NEG_ZERO) Hz).
  rewrite (u8_set_at pre (u8_new 8) post (be 8 d)) by done. cbn [res_bind]. rewrite is_negative by done.
  pose proof (dsplit d (proj1 Hd)) as Hs. pose proof (dmag_bound d) as Hm. destruct Hd as [Hd _].
  unfold skey. destruct (dneg d) eqn:Hn; f_equal.
  - rewrite (u8_xor_mid pre (be 8 d) post 8) by done. do 2 f_equal.
    change (invert (be 8 d) = be 8 (2 ^ 63 - 1 - dmag d)). rewrite invert_be by (cbn; lia).
    f_equal. cbn. lia.
  - pose proof (flip_top_be d Hd) as F. rewrite Z.mod_small in F by lia.
    replace (2 ^ 63 + dmag d) with (d + 2 ^ 63) by lia. rewrite <- F.
    pose proof (length_be 8 d) as L. destruct (be 8 d) as [|b l]; [done|].
    exact (u8_xor_mid pre [b] (l ++ post) 1 0x80 eq_refl).
Qed.

Definition numeric_num (v : numeric) : num :=
  match v with
  | NumDouble d => num_of_double d
  | NumBig n => num_of_bigint n
  end.

(** Integers whose nearest double is finite and whose distance to it fits the
    tie-break field; every 64-bit integer does. *)
Definition keyable_int (n : Z) : Prop :=
  Z.abs (Number_of_bigint n) < 2 ^ 1024 /\ - 2 ^ 63 <= n - Number_of_bigint n < 2 ^ 63.

Definition keyable (v : numeric) : Prop :=
  match v with
  | NumDouble d => wf_double d
  | NumBig n => keyable_int n
  end.

Lemma int64_keyable n : - 2 ^ 63 <= n < 2 ^ 63 -> keyable_int n.
Proof.
  intros Hn. pose proof (residual_bound n ltac:(lia)) as Hr. unfold keyable_int.
  assert (2 ^ 64 < 2 ^ 1024) by (apply Z.pow_lt_mono_r; lia). lia.
Qed.

Lemma double_finite p u : wf_double p -> p <> NEG_ZERO -> num_of_double p = NFin u -> double_value u.
Proof.
  intros Hp Hz Hu. pose proof (dmag_bound p) as B.
  destruct (num_of_double_cases p Hp Hz) as [(Hm & E & _)|[(_ & E)|(_ & _ & E & _)]].
  - rewrite E in Hu. injection Hu as <-. pose proof (units_double_value (dmag p) ltac:(lia)).
    destruct (dneg p); [by apply double_value_opp|done].
  - rewrite E in Hu. by destruct (dneg p).
  - by rewrite E in Hu.
Qed.

Lemma Number_bits_value n :
  Z.abs (Number_of_bigint n) < 2 ^ 1024 ->
  num_of_double (Number_bits n) = NFin (Number_of_bigint n * UNIT) /\ wf_double (Number_bits n) /\
  Number_bits n <> NEG_ZERO.
Proof.
  intros Hn. apply double_of_Z_value; [apply Number_representable|].
  destruct (Z.eq_dec (Z.abs (Number_of_bigint n)) 0) as [->|]; [done|].
  apply Z.lt_succ_r, Z.log2_lt_pow2; lia.
Qed.

(** The two fields of a numeric key, by what they say of the value. *)
Lemma primary_offset_spec v :
  keyable v ->
  exists p o, primary_offset v = Ok (p, o) /\ wf_double p /\ p <> NEG_ZERO /\ - 2 ^ 63 <= o < 2 ^ 63 /\
    ((exists n, numeric_num v = NFin (n * UNIT) /\ num_of_double p = NFin (Number_of_bigint n * UNIT) /\
        o = n - Number_of_bigint n) \/
     (numeric_num v = num_of_double p /\ o = 0)).
Proof.
  destruct v as [d|n]; cbn [keyable primary_offset numeric_num].
  - intros Hd. unfold is_neg_zero. destruct (Z.eqb_spec d NEG_ZERO) as [->|Hz].
    + exists 0, 0. split_and!; try done; [|by right]. split; [done|by left].
    + exists d, 0. split_and!; try done; [apply Hd..|by right].
  - intros [Ha Ho]. rewrite (proj2 (Z.leb_gt _ _)) by done.
    destruct (Number_bits_value n Ha) as (Hv & Hw & Hz). do 2 eexists. split; [done|].
    split_and!; try done; [lia..|]. left. by exists n.
Qed.

Definition numeric_key (p : double) (o : Z) : bytes :=
  TYPE_NUMERIC :: be 8 (skey p) ++ be 8 (o + 2 ^ 63).

Lemma encodeNumeric_key v p o :
  primary_offset v = Ok (p, o) -> wf_double p -> p <> NEG_ZERO -> - 2 ^ 63 <= o < 2 ^ 63 ->
  encodeNumeric v = Ok (numeric_key p o).
Proof.
  intros Hpo Hp Hz Ho. unfold encodeNumeric. rewrite Hpo. cbn [res_bind fst snd].
  pose proof (writeSortableDouble_at [TYPE_NUMERIC] (u8_new 8) p Hp Hz) as W.
  change (writeSortableDouble (<[0%nat := TYPE_NUMERIC]> (u8_new NUMERIC_KEY_LENGTH)) 1 p
          = Ok ([TYPE_NUMERIC] ++ be 8 (skey p) ++ u8_new 8)) in W.
  rewrite W. cbn [res_bind].
  set (x := o mod 2 ^ 64).
  pose proof (u8_set_at (TYPE_NUMERIC :: be 8 (skey p)) (u8_new 8) [] (be 8 x) 9 eq_refl eq_refl) as E.
  rewrite !app_nil_r in E. change ([TYPE_NUMERIC] ++ be 8 (skey p) ++ u8_new 8)
    with ((TYPE_NUMERIC :: be 8 (skey p)) ++ u8_new 8). rewrite E. cbn [res_bind]. f_equal.
  assert (0 <= x < 2 ^ 64) as Hx by (apply Z.mod_pos_bound; lia).
  pose proof (flip_top_be x Hx) as F. replace ((x + 2 ^ 63) mod 2 ^ 64) with (o + 2 ^ 63) in F.
  2: { unfold x. Z.to_euclidean_division_equations. lia. }
  unfold numeric_key. rewrite app_comm_cons, <- F.
  pose proof (length_be 8 x) as L. destruct (be 8 x) as [|b l]; [done|].
  exact (u8_xor_mid (TYPE_NUMERIC :: be 8 (skey p)) [b] l 1 0x80 eq_refl).
Qed.

Lemma numeric_key_diverge p o q o' :
  wf_double p -> p <> NEG_ZERO -> - 2 ^ 63 <= o < 2 ^ 63 ->
  wf_double q -> q <> NEG_ZERO -> - 2 ^ 63 <= o' < 2 ^ 63 ->
  diverge (cmp_then (num_compare (num_of_double p) (num_of_double q)) (o ?= o'))
    (numeric_key p o) (numeric_key q o').
Proof.
  intros Hp Zp Ho Hq Zq Ho'. apply (diverge_prefix [TYPE_NUMERIC]). apply diverge_app.
  - rewrite <- skey_cmp, <- (lex_be 8) by (done || exact (skey_bound p) || exact (skey_bound q)).
    by apply diverge_fixed.
  - replace (o ?= o') with (o + 2 ^ 63 ?= o' + 2 ^ 63)
      by (destruct (Z.compare_spec o o'), (Z.compare_spec (o + 2 ^ 63) (o' + 2 ^ 63)); lia || done).
    rewrite <- (lex_be 8) by (cbn; lia). by apply diverge_fixed.
Qed.

Lemma NFin_compare x y : num_compare (NFin (x * UNIT)) (NFin (y * UNIT)) = (x ?= y).
Proof. cbn. pose proof UNIT_pos. destruct (Z.compare_spec x y), (Z.compare_spec (x * UNIT) (y * UNIT)); nia || done. Qed.

Lemma int_double_compare n u q :
  wf_double q -> q <> NEG_ZERO ->
  num_of_double u = NFin (Number_of_bigint n * UNIT) ->
  cmp_then (num_compare (num_of_double u) (num_of_double q)) (n - Number_of_bigint n ?= 0)
  = num_compare (NFin (n * UNIT)) (num_of_double q).
Proof.
  intros Hq Zq ->. destruct (num_of_double q) as [| |x|] eqn:E; try done.
  apply nearest_cmp. by apply (double_finite q).
Qed.

Lemma num_compare_opp a b : num_compare b a = CompOpp (num_compare a b).
Proof. apply (cmp_opp num_compare). Qed.

Lemma cmp_then_opp a b : CompOpp (cmp_then a b) = cmp_then (CompOpp a) (CompOpp b).
Proof. by destruct a, b. Qed.

(** Keys of numbers sort by exact value, across integers and reals. *)
Lemma numeric_diverge v w :
  keyable v -> keyable w ->
  exists kv kw, encodeNumeric v = Ok kv /\ encodeNumeric w = Ok kw /\
    diverge (num_compare (numeric_num v) (numeric_num w)) kv kw.
Proof.
  intros Hv Hw.
  destruct (primary_offset_spec v Hv) as (p & o & Ev & Wp & Zp & Bo & Cv).
  destruct (primary_offset_spec w Hw) as (q & o' & Ew & Wq & Zq & Bo' & Cw).
  exists (numeric_key p o), (numeric_key q o').
  split; [by apply encodeNumeric_key|]. split; [by apply encodeNumeric_key|].
  pose proof (numeric_key_diverge p o q o' Wp Zp Bo Wq Zq Bo') as D.
  assert (cmp_then (num_compare (num_of_double p) (num_of_double q)) (o ?= o')
          = num_compare (numeric_num v) (numeric_num w)) as <-; [|exact D].
  destruct Cv as [(n & -> & Hp & ->)|[-> ->]], Cw as [(m & -> & Hq & ->)|[-> ->]].
  - rewrite Hp, Hq, !NFin_compare. apply nearest_cmp_int.
  - by apply int_double_compare.
  - rewrite (num_compare_opp (NFin (m * UNIT))), <- (int_double_compare m q p) by done.
    rewrite cmp_then_opp, <- num_compare_opp, <- Z.compare_antisym. done.
  - by destruct (num_compare _ _).
Qed.

(** ** Keys of values *)

(** What a normalizer owes its collation for keys to sort as values compare:
    comparing under the collation is comparing the normalized strings by code
    point. *)
Class KeyOrdered (coll : CollationFunction) (norm : normalizer) : Prop := {
  norm_wf s : wf_string s -> wf_string (norm s);
  norm_order s t : wf_string s -> wf_string t -> sgn (coll s t) = lex rank_cmp (norm s) (norm t)
}.

#[global] Instance BINARY_ordered : KeyOrdered BINARY_COLLATION IDENTITY_NORMALIZER.
Proof. split; [done|]. apply BINARY_collates. Qed.

#[global] Instance RTRIM_ordered : KeyOrdered RTRIM_COLLATION RTRIM_NORMALIZER.
Proof.
  split; intros s; [rewrite RTRIM_NORMALIZER_rtrim; by apply Forall_take|].
  intros t Hs Ht. rewrite (proj2 RTRIM_collates s t Hs Ht). by rewrite !RTRIM_NORMALIZER_rtrim.
Qed.

Lemma NOCASE_ordered (toLowerCase : normalizer) :
  (forall s, wf_string s -> wf_string (toLowerCase s)) ->
  KeyOrdered (NOCASE_COLLATION toLowerCase) (NOCASE_NORMALIZER toLowerCase).
Proof. intros Hl. split; [done|]. by apply NOCASE_collates. Qed.

Lemma ordered_collates coll norm :
  KeyOrdered coll norm -> collates coll (fun s t => lex rank_cmp (norm s) (norm t)).
Proof. intros H. split; [exact (cmp_on_laws (lex rank_cmp) norm)|apply H]. Qed.

Lemma utf8_rank_lex s t :
  wf_string s -> wf_string t -> well_formed s = true -> well_formed t = true ->
  blex (utf8_encode s) (utf8_encode t) = lex rank_cmp s t.
Proof. intros. rewrite utf8_encode_lex by done. symmetry. by apply lex_rank_code_points. Qed.

Lemma unpaired_loop_spec i s : 0 <= i -> unpaired_loop i s = -1 <-> well_formed s = true.
Proof.
  revert i. induction s as [s IH] using (induction_ltof1 _ length). unfold ltof in IH. intros i Hi.
  destruct s as [|u s]; [done|]. cbn [unpaired_loop well_formed]. unfold is_high, is_low, within.
  destruct (Z.ltb_spec u 0xD800), (Z.ltb_spec 0xDFFF u), (Z.leb_spec 0xD800 u), (Z.leb_spec u 0xDBFF),
    (Z.leb_spec 0xDC00 u), (Z.leb_spec u 0xDFFF); try lia; cbn [orb andb].
  all: try (apply IH; [cbn; lia|lia]).
  all: try (split; [lia|done]).
  destruct s as [|v s]; [split; [lia|done]|].
  destruct (Z.ltb_spec v 0xDC00), (Z.ltb_spec 0xDFFF v), (Z.leb_spec 0xDC00 v), (Z.leb_spec v 0xDFFF);
    try lia; cbn [orb andb].
  all: try (apply IH; [cbn; lia|lia]).
  all: split; [lia|done].
Qed.

Lemma findUnpairedSurrogate_spec s : findUnpairedSurrogate s = -1 <-> well_formed s = true.
Proof.
  rewrite <- (unpaired_loop_spec 0 s) by lia. unfold findUnpairedSurrogate.
  destruct (HAS_SURROGATE s) eqn:E; [done|]. cbn. split; [|done]. intros _.
  rewrite unpaired_loop_spec by lia. revert E. unfold HAS_SURROGATE.
  induction s as [|u s IH]; [done|]. cbn [existsb well_formed]. rewrite orb_false_iff. intros [Hu Hs].
  unfold is_high, is_low, within in *.
  destruct (Z.leb_spec 0xD800 u), (Z.leb_spec u 0xDBFF), (Z.leb_spec 0xDC00 u), (Z.leb_spec u 0xDFFF);
    try lia; cbn in *; auto; lia || done.
Qed.

(** ** Reading a key back *)

Lemma unescape_escaped a post :
  wf_bytes a ->
  unescape (concat (map escape a) ++ NULL_BYTE :: post) = (a, S (length (concat (map escape a)))).
Proof.
  intros Ha. induction Ha as [|x a Hx Ha IH]; [done|]. cbn [map concat]. rewrite <- app_assoc.
  unfold escape at 1 3. destruct (Z.eqb_spec x NULL_BYTE) as [->|H0].
  - cbn [app unescape length]. change (ESCAPE_BYTE =? NULL_BYTE) with false. cbn [Z.eqb Pos.eqb].
    change (ESCAPE_BYTE =? ESCAPE_BYTE) with true. by rewrite IH.
  - destruct (Z.eqb_spec x ESCAPE_BYTE) as [->|H1].
    + cbn [app unescape length]. change (ESCAPE_BYTE =? NULL_BYTE) with false.
      change (ESCAPE_BYTE =? ESCAPE_BYTE) with true. cbn [Z.eqb Pos.eqb]. by rewrite IH.
    + cbn [app unescape length]. rewrite (proj2 (Z.eqb_neq _ _) H0), (proj2 (Z.eqb_neq _ _) H1). by rewrite IH.
Qed.

Lemma drop_app_S {A} (pre : list A) x l : drop (length pre + 1) (pre ++ x :: l) = l.
Proof. by rewrite drop_app_add. Qed.

Lemma readEscaped_at pre tag a post :
  wf_bytes a ->
  readEscapedUntilTerminator (pre ++ writeEscapedWithTerminator tag a ++ post) (length pre)
  = (a, length (writeEscapedWithTerminator tag a)).
Proof.
  intros Ha. unfold readEscapedUntilTerminator, writeEscapedWithTerminator. cbn [app].
  rewrite drop_app_S, <- app_assoc. cbn [app]. rewrite unescape_escaped by done.
  cbn [length]. rewrite length_app. cbn. by rewrite Nat.add_1_r.
Qed.

Lemma top_bit z b l : 0 <= z < 2 ^ 64 -> be 8 z = b :: l -> (Z.land b 0x80 =? 0) = (z <? 2 ^ 63).
Proof.
  intros Hz E. pose proof (wf_be 8 z) as W. pose proof (length_be 8 z) as L.
  pose proof (unbe_be_small 8 z ltac:(cbn; lia)) as U. rewrite E in *.
  apply wf_cons in W as [Wb Wl]. injection L as L. rewrite unbe_cons, L in U.
  pose proof (unbe_bound l Wl) as B. rewrite L in B. change (256 ^ Z.of_nat 7) with (2 ^ 56) in *.
  assert ((Z.land b 0x80 =? 0) = (b <? 128)) as ->.
  { apply Bool.eqb_prop. by apply (byte_cases (fun b => Bool.eqb (Z.land b 0x80 =? 0) (b <? 128))). }
  destruct (Z.ltb_spec b 128), (Z.ltb_spec z (2 ^ 63)); lia.
Qed.

(** Undoing the sortable form. *)
Definition unsort (primaryBytes : bytes) : double :=
  let wasNegative := Z.land (nth 0 primaryBytes 0) 0x80 =? 0 in
  read_double (unbe (if wasNegative then u8_xor primaryBytes 0 8 0xff else u8_xor primaryBytes 0 1 0x80)).

Lemma read_double_wf d : wf_double d -> read_double d = d.
Proof.
  intros [Hd Hc]. unfold read_double. fold (dmag d) in Hc.
  destruct (Z.ltb_spec INF_MAG (dmag d)); [|done]. destruct Hc as [?| ->]; [lia|done].
Qed.

Lemma unsort_skey d : wf_double d -> unsort (be 8 (skey d)) = d.
Proof.
  intros Hd. pose proof (skey_bound d) as B. pose proof (dsplit d (proj1 Hd)) as S. pose proof (dmag_bound d) as M.
  rewrite <- (read_double_wf d Hd) at 2. unfold unsort. f_equal.
  assert (Z.land (nth 0 (be 8 (skey d)) 0) 0x80 =? 0 = dneg d) as ->.
  { destruct (be 8 (skey d)) as [|b l] eqn:E; [done|]. cbn [nth]. rewrite (top_bit _ _ _ B E). unfold skey.
    destruct (dneg d); [apply Z.ltb_lt|apply Z.ltb_ge]; lia. }
  unfold skey in *. destruct Hd as [Hd _]. destruct (dneg d).
  - change (u8_xor (be 8 (2 ^ 63 - 1 - dmag d)) 0 8 0xff) with (invert (be 8 (2 ^ 63 - 1 - dmag d))).
    rewrite invert_be, unbe_be_small by (cbn; lia). cbn. lia.
  - fold (flip_top (be 8 (2 ^ 63 + dmag d))). rewrite flip_top_be by lia.
    rewrite <- (Z.mod_unique (2 ^ 63 + dmag d + 2 ^ 63) (2 ^ 64) 1 (dmag d)) by lia.
    rewrite unbe_be_small by (cbn; lia). lia.
Qed.

Lemma to_int64_flip o :
  - 2 ^ 63 <= o < 2 ^ 63 -> to_int64 (unbe (flip_top (be 8 (o + 2 ^ 63)))) = o.
Proof.
  intros Ho. rewrite flip_top_be, unbe_be by lia. change (256 ^ Z.of_nat 8) with (2 ^ 64). rewrite Z.mod_mod by lia.
  unfold to_int64. destruct (Z.ltb_spec o 0).
  - rewrite Z.mod_small by lia. rewrite (proj2 (Z.leb_le _ _)); lia.
  - rewrite <- (Z.mod_unique (o + 2 ^ 63 + 2 ^ 63) (2 ^ 64) 1 o) by lia. rewrite (proj2 (Z.leb_gt _ _)); lia.
Qed.

Lemma length_numeric_key p o : length (numeric_key p o) = NUMERIC_KEY_LENGTH.
Proof. done. Qed.

Lemma nth_app_0 {A} (pre l : list A) d : nth (length pre) (pre ++ l) d = nth 0 l d.
Proof. rewrite app_nth2 by lia. by rewrite Nat.sub_diag. Qed.

Lemma decodeNumeric_key pre p o post :
  wf_double p -> - 2 ^ 63 <= o < 2 ^ 63 ->
  decodeNumeric (pre ++ numeric_key p o ++ post) (length pre)
  = (if o =? 0 then
       match BigInt_of_double p with
       | Some n => Ok (VBigint n, NUMERIC_KEY_LENGTH)
       | None => Ok (VNumber p, NUMERIC_KEY_LENGTH)
       end
     else
       match BigInt_of_double p with
       | Some n => Ok (VBigint (n + o), NUMERIC_KEY_LENGTH)
       | None => Throw ERange
       end).
Proof.
  intros Hp Ho. unfold decodeNumeric.
  assert ((length (pre ++ numeric_key p o ++ post) <? length pre + NUMERIC_KEY_LENGTH)%nat = false) as ->.
  { apply Nat.ltb_ge. rewrite !length_app, length_numeric_key. lia. }
  set (A := be 8 (skey p)). set (B := be 8 (o + 2 ^ 63)).
  assert (length A = 8%nat) as LA by apply length_be. assert (length B = 8%nat) as LB by apply length_be.
  replace (pre ++ numeric_key p o ++ post) with ((pre ++ [TYPE_NUMERIC]) ++ A ++ B ++ post)
    by (unfold numeric_key; by rewrite <- !app_assoc; cbn [app]; rewrite <- !app_assoc).
  rewrite (slice_mid (pre ++ [TYPE_NUMERIC]) A (B ++ post) (length pre + 1) (length pre + 9)) by (unfold NUMERIC_KEY_LENGTH; rewrite ?length_app, ?LA, ?LB; cbn; lia).
  replace ((pre ++ [TYPE_NUMERIC]) ++ A ++ B ++ post) with (((pre ++ [TYPE_NUMERIC]) ++ A) ++ B ++ post)
    by by rewrite <- !app_assoc.
  rewrite (slice_mid ((pre ++ [TYPE_NUMERIC]) ++ A) B post (length pre + 9) (length pre + NUMERIC_KEY_LENGTH)) by (unfold NUMERIC_KEY_LENGTH; rewrite ?length_app, ?LA, ?LB; cbn; lia).
  rewrite <- app_assoc. replace (length pre + 1)%nat with (length (pre ++ [TYPE_NUMERIC])) by by rewrite length_app.
  rewrite (nth_app_0 (pre ++ [TYPE_NUMERIC])). replace (nth 0 (A ++ B ++ post) 0) with (nth 0 A 0) by (by unfold A; cbn [be]; destruct (be _ _)).
  pose proof (unsort_skey p Hp) as U. pose proof (to_int64_flip o Ho) as T. fold A in U. fold B in T.
  unfold unsort in U. unfold flip_top in T. cbv zeta in U |- *. by rewrite U, T.
Qed.

Section KeyOrder.
Context (toUpperCase toLowerCase : normalizer).

Abbreviation value := SqlValue.
Abbreviation compare_fast := compareSqlValuesFast.
Abbreviation encode := (encodeValue toUpperCase toLowerCase).

(** The normalizer the options lead to. *)
Definition resolves (options : EncodeOptions) (norm : normalizer) : Prop :=
  default (BUILTIN_KEY_NORMALIZER_RESOLVER toUpperCase toLowerCase) (normalizers options)
    (default (js "NOCASE") (collation options)) = Ok norm.

(** Values that have a key: integers within reach of the tie-break, text
    without unpaired surrogates. [JSON.stringify] escapes unpaired surrogates,
    so canonical strings have none ([canonicalJsonString_text]). *)
Definition encodable (norm : normalizer) (v : value) : Prop :=
  match v with
  | VNumber d => wf_double d /\ not_nan (num_of_double d)
  | VBigint n => keyable_int n
  | VText s => wf_string s /\ well_formed (norm s) = true
  | VBlob b => wf_bytes b
  | VObject o => wf_json o
  | _ => True
  end.

Lemma encodable_wf norm v : encodable norm v -> wf_value v.
Proof. destruct v; cbn; tauto. Qed.

Definition class_tag (c : StorageClass) : Z :=
  match c with
  | NULL => TYPE_NULL
  | NUMERIC => TYPE_NUMERIC
  | TEXT => TYPE_TEXT
  | BLOB => TYPE_BLOB
  | OBJECT => TYPE_OBJECT
  end.

Lemma class_tag_compare c d : (class_tag c ?= class_tag d) = (class_num c ?= class_num d).
Proof. by destruct c, d. Qed.

Definition as_numeric (v : value) : numeric :=
  match v with
  | VNumber d => NumDouble d
  | VBigint n => NumBig n
  | VBool b => NumBig (if b then 1 else 0)
  | _ => NumBig 0
  end.

Lemma as_numeric_spec norm options v :
  getStorageClass v = NUMERIC -> encodable norm v ->
  encode v options = encodeNumeric (as_numeric v) /\ keyable (as_numeric v) /\
  numeric_of v = numeric_num (as_numeric v).
Proof.
  destruct v as [|d|n|b|s|b|o]; try done; cbn; intros _ H; split_and!; try done.
  - apply H.
  - apply int64_keyable. by destruct b.
Qed.

Lemma numeric_encoded v :
  keyable v -> exists p o, encodeNumeric v = Ok (numeric_key p o).
Proof.
  intros Hv. destruct (primary_offset_spec v Hv) as (p & o & E & Wp & Zp & Bo & _).
  exists p, o. by apply encodeNumeric_key.
Qed.

Lemma encodeText_ok s coll resolve norm :
  resolve coll = Ok norm -> well_formed (norm s) = true ->
  encodeText s coll resolve = Ok (writeEscapedWithTerminator TYPE_TEXT (utf8_encode (norm s))).
Proof.
  intros Hr Hs. unfold encodeText, assertNoUnpairedSurrogate. rewrite Hr. cbn [res_bind].
  by rewrite (proj2 (findUnpairedSurrogate_spec _) Hs).
Qed.

(** A value's key: its class tag, then its bytes. *)
Lemma encode_ok options norm coll v :
  KeyOrdered coll norm -> resolves options norm -> encodable norm v ->
  exists body, encode v options = Ok (class_tag (getStorageClass v) :: body) /\ wf_bytes body.
Proof.
  intros Ho Hr Hv.
  assert (getStorageClass v = NUMERIC ->
    exists body, encode v options = Ok (TYPE_NUMERIC :: body) /\ wf_bytes body) as Hnum.
  { intros Hc. destruct (as_numeric_spec norm options v Hc Hv) as (-> & Hk & _).
    destruct (numeric_encoded _ Hk) as (p & o & ->). eexists. split; [done|].
    apply wf_app. split; apply wf_be. }
  assert (forall tag bs, wf_bytes bs -> exists body, writeEscapedWithTerminator tag bs = tag :: body /\ wf_bytes body)
    as Hesc.
  { intros tag bs Hbs. eexists. split; [done|]. pose proof (escaped_wf 0 bs ltac:(done) Hbs) as W.
    by apply wf_cons in W as [_ W]. }
  destruct v as [|d|n|b|s|b|o]; cbn [getStorageClass class_tag] in *; auto.
  - exists []. split; [done|constructor].
  - destruct Hv as [Ws Hs]. cbn [encodeValue]. rewrite (encodeText_ok s _ _ norm Hr Hs).
    destruct (Hesc TYPE_TEXT (utf8_encode (norm s))) as (body & -> & W); [|by exists body].
    apply utf8_encode_wf; [by apply Ho|done].
  - cbn [encodeValue]. unfold encodeBlob. destruct (Hesc TYPE_BLOB b Hv) as (body & -> & W). by exists body.
  - cbn [encodeValue]. unfold encodeObject. destruct (canonicalJsonString_text o Hv) as [_ Hs].
    destruct (Hesc TYPE_OBJECT (utf8_encode (canonicalJsonString o))) as (body & -> & W); [|by exists body].
    apply utf8_encode_wf; auto with json.
Qed.

(** Within a class. *)
Lemma same_class_diverge options norm coll a b ka kb :
  KeyOrdered coll norm -> resolves options norm -> encodable norm a -> encodable norm b ->
  getStorageClass a = getStorageClass b ->
  encode a options = Ok ka -> encode b options = Ok kb ->
  diverge (sgn (compareSameType a b coll)) ka kb.
Proof.
  intros Ho Hr Ha Hb Hc Ea Eb.
  assert (getStorageClass a = NUMERIC ->
    diverge (sgn (compareNumbers (numeric_of a) (numeric_of b))) ka kb) as Hnum.
  { intros Hn. pose proof (num_part_not_nan a (encodable_wf norm a Ha)) as Na.
    pose proof (num_part_not_nan b (encodable_wf norm b Hb)) as Nb.
    unfold num_part in Na, Nb. rewrite <- Hc, Hn in Nb. rewrite Hn in Na.
    rewrite compareNumbers_sgn by done.
    destruct (as_numeric_spec norm options a Hn Ha) as (E & Ka & ->). rewrite E in Ea.
    destruct (as_numeric_spec norm options b ltac:(congruence) Hb) as (E' & Kb & ->). rewrite E' in Eb.
    destruct (numeric_diverge _ _ Ka Kb) as (kv & kw & E1 & E2 & D).
    rewrite E1 in Ea. rewrite E2 in Eb. injection Ea as <-. injection Eb as <-. exact D. }
  destruct a as [|d|n|x|s|x|o], b as [|d'|m|y|t|y|o']; try done;
    cbn [compareSameType getStorageClass] in *; auto.
  - injection Ea as <-. injection Eb as <-. constructor.
  - destruct Ha as [Ws Hs], Hb as [Wt Ht]. cbn [encodeValue] in Ea, Eb.
    rewrite (encodeText_ok s _ _ norm Hr Hs) in Ea. rewrite (encodeText_ok t _ _ norm Hr Ht) in Eb. simplify_eq.
    rewrite (norm_order s t Ws Wt). pose proof (norm_wf s Ws). pose proof (norm_wf t Wt).
    rewrite <- utf8_rank_lex by done. apply escaped_diverge; by apply utf8_encode_wf.
  - injection Ea as <-. injection Eb as <-. rewrite compareBlobs_sgn. by apply escaped_diverge.
  - destruct (canonicalJsonString_text o Ha) as [_ Hs], (canonicalJsonString_text o' Hb) as [_ Ht].
    pose proof (canonicalJsonString_wf o Ha). pose proof (canonicalJsonString_wf o' Hb).
    injection Ea as <-. injection Eb as <-. rewrite compareCodePoints_lex, <- utf8_rank_lex by done. apply escaped_diverge; by apply utf8_encode_wf.
Qed.

Lemma encode_diverge options norm coll a b ka kb :
  KeyOrdered coll norm -> resolves options norm -> encodable norm a -> encodable norm b ->
  encode a options = Ok ka -> encode b options = Ok kb ->
  diverge (sgn (compare_fast a b coll)) ka kb.
Proof.
  intros Ho Hr Ha Hb Ea Eb. destruct (decide (getStorageClass a = getStorageClass b)) as [Hc|Hc].
  - pose proof (same_class_diverge options norm coll a b ka kb Ho Hr Ha Hb Hc Ea Eb) as D.
    assert (compare_fast a b coll = compareSameType a b coll) as ->; [|done].
    unfold compareSqlValuesFast. by destruct a, b.
  - destruct (encode_ok options norm coll a Ho Hr Ha) as (body & Ea' & _).
    destruct (encode_ok options norm coll b Ho Hr Hb) as (body' & Eb' & _).
    rewrite Ea in Ea'. injection Ea' as ->. rewrite Eb in Eb'. injection Eb' as ->.
    pose proof (diverge_ne [] (class_tag (getStorageClass a)) (class_tag (getStorageClass b)) body body') as D.
    rewrite class_tag_compare in D.
    assert (sgn (compare_fast a b coll) = (class_num (getStorageClass a) ?= class_num (getStorageClass b))) as ->.
    { unfold compareSqlValuesFast. by destruct a, b. }
    apply D. revert Hc. by destruct (getStorageClass a), (getStorageClass b).
Qed.

(** ** Composite keys *)

(** A key column as its table declares it. *)
Record key_column := mkColumn {
  col_desc : bool;
  col_collation : option jsstring;
  col_transform : option (value -> value);
  col_compare : CollationFunction;
  col_norm : normalizer
}.

Abbreviation composite := (encodeCompositeKey toUpperCase toLowerCase).

Definition column_options (options : EncodeOptions) (c : key_column) : EncodeOptions :=
  match col_collation c with
  | Some name => mkEncodeOptions (Some name) (normalizers options)
  | None => options
  end.

(** The resolver knows the column's collation, and keys it in its order. *)
Definition column_ok (options : EncodeOptions) (c : key_column) : Prop :=
  KeyOrdered (col_compare c) (col_norm c) /\ resolves (column_options options c) (col_norm c).

Definition column_value (c : key_column) (v : value) : value := transform_value (col_transform c) v.

Definition row_encodable (cols : list key_column) (row : list value) : Prop :=
  Forall2 (fun c v => encodable (col_norm c) (column_value c v)) cols row.

(** The order a key stands for: columns left to right, each under its
    collation and transform, descending ones reversed. *)
Fixpoint key_compare (cols : list key_column) (a b : list value) : comparison :=
  match cols, a, b with
  | c :: cols', v :: a', w :: b' =>
    let o := sgn (compare_fast (column_value c v) (column_value c w) (col_compare c)) in
    cmp_then (if col_desc c then CompOpp o else o) (key_compare cols' a' b')
  | _, _, _ => Eq
  end.

Abbreviation row_key options cols row :=
  (composite row options (map col_desc cols) (map col_collation cols) (map col_transform cols)).

Lemma encodePart_spec options c v :
  column_ok options c -> encodable (col_norm c) (column_value c v) ->
  exists k, encode (column_value c v) (column_options options c) = Ok k /\ wf_bytes k /\ k <> [] /\
    encodePart toUpperCase toLowerCase v options (col_desc c) (col_collation c)
      (col_transform c) = Ok (if col_desc c then invert k else k).
Proof.
  intros [Ho Hr] Hv. destruct (encode_ok _ _ _ _ Ho Hr Hv) as (body & E & W).
  exists (class_tag (getStorageClass (column_value c v)) :: body). split; [done|]. split_and!; [|done|].
  - apply wf_cons. split; [|done]. by destruct (getStorageClass _).
  - unfold encodePart. fold (column_value c v). fold (column_options options c). by rewrite E.
Qed.

Lemma composite_cons options c cols v row :
  row_key options (c :: cols) (v :: row)
  = let* part := encodePart toUpperCase toLowerCase v options (col_desc c)
                   (col_collation c) (col_transform c) in
    let* key := row_key options cols row in Ok (part ++ key).
Proof.
  unfold encodeCompositeKey. cbn [encode_parts map head tail default mjoin option_join].
  destruct (encodePart _ _ _ _ _ _ _); [|done]. cbn [res_bind].
  by destruct (encode_parts _ _ _ _ _ _ _).
Qed.

Lemma composite_diverge options cols a b :
  Forall (column_ok options) cols -> row_encodable cols a -> row_encodable cols b ->
  exists ka kb, row_key options cols a = Ok ka /\ row_key options cols b = Ok kb /\
    diverge (key_compare cols a b) ka kb.
Proof.
  intros Hc Ha. revert b. induction Ha as [|c v cols a Hv Ha IH]; intros b Hb.
  - apply Forall2_nil_inv_l in Hb as ->. exists [], []. split; [done|]. split; [done|constructor].
  - apply Forall2_cons_inv_l in Hb as (w & b' & Hw & Hb & ->). apply Forall_cons in Hc as [Hc Hcs].
    destruct (IH Hcs b' Hb) as (ka & kb & Ea & Eb & D). rewrite !composite_cons, Ea, Eb.
    destruct (encodePart_spec options c v Hc Hv) as (k & Ek & Wk & _ & ->).
    destruct (encodePart_spec options c w Hc Hw) as (k' & Ek' & Wk' & _ & ->). cbn [res_bind].
    do 2 eexists. split; [done|]. split; [done|]. cbn [key_compare]. apply diverge_app; [|done].
    destruct Hc as [Ho Hr]. pose proof (encode_diverge _ _ _ _ _ _ _ Ho Hr Hv Hw Ek Ek') as D1.
    destruct (col_desc c); [by apply diverge_invert|done].
Qed.

(** C14: The bytes of a composite key sort as the rows they stand for: whatever
    follows the two keys, they compare column by column under each column's
    collation and transform, descending columns reversed, and only then by what
    follows. Two rows share a key exactly when every column compares equal. The
    values are encodable: no NaN, no integer so wide that its residual leaves 64
    bits, no unpaired surrogate in the normalized text. *)
Theorem composite_key_order (options : EncodeOptions) (cols : list key_column) (a b : list value) :
  Forall (column_ok options) cols -> row_encodable cols a -> row_encodable cols b ->
  exists ka kb, row_key options cols a = Ok ka /\ row_key options cols b = Ok kb /\
    (forall x y, blex (ka ++ x) (kb ++ y) = cmp_then (key_compare cols a b) (blex x y)) /\
    (ka = kb <-> key_compare cols a b = Eq).
Proof.
  intros Hc Ha Hb. destruct (composite_diverge options cols a b Hc Ha Hb) as (ka & kb & Ea & Eb & D).
  exists ka, kb. split_and!; try done; [intros x y; by apply diverge_blex|].
  rewrite <- (diverge_cmp _ _ _ D). symmetry. apply lex_Z_eq.
Qed.

(** ** Decoding *)

Section Decode.
(** What a key says of its value: integers of either kind as bigints, text as
    normalized, JSON with its keys sorted as JSON text holds it. *)
Definition key_image (norm : normalizer) (v : value) : value :=
  match v with
  | VNumber d => match BigInt_of_double d with Some n => VBigint n | None => VNumber d end
  | VBool b => VBigint (if b then 1 else 0)
  | VText s => VText (norm s)
  | VObject o => sql_of_json (plain (canonicalize o))
  | _ => v
  end.

(** [TextDecoder] drops a leading byte order mark. *)
Definition bom_free (norm : normalizer) (v : value) : Prop :=
  match v with
  | VText s => head (norm s) <> Some 0xFEFF
  | _ => True
  end.

Lemma decodeNumeric_image norm options v k pre post :
  getStorageClass v = NUMERIC -> encodable norm v -> encode v options = Ok k ->
  decodeNumeric (pre ++ k ++ post) (length pre) = Ok (key_image norm v, length k).
Proof.
  intros Hc Hv Ek. destruct (as_numeric_spec norm options v Hc Hv) as (E & Hk & Hnum). rewrite E in Ek.
  destruct (primary_offset_spec _ Hk) as (p & o & Ep & Wp & Zp & Bo & C).
  rewrite (encodeNumeric_key _ p o Ep Wp Zp Bo) in Ek. injection Ek as <-.
  rewrite decodeNumeric_key by done. rewrite length_numeric_key.
  assert (forall n, as_numeric v = NumBig n -> (if o =? 0 then
       match BigInt_of_double p with Some m => Ok (VBigint m, NUMERIC_KEY_LENGTH) | None => Ok (VNumber p, NUMERIC_KEY_LENGTH) end
     else match BigInt_of_double p with Some m => Ok (VBigint (m + o), NUMERIC_KEY_LENGTH) | None => Throw ERange end)
     = Ok (VBigint n : value, NUMERIC_KEY_LENGTH)) as Hint.
  { intros n En. rewrite En in *. cbn in Hk. destruct Hk as [Ha Ho]. destruct (Number_bits_value n Ha) as (Hp & _ & _).
    cbn in Ep. destruct (_ <=? _); [done|]. injection Ep as <- <-.
    rewrite (proj2 (BigInt_of_double_num _ _) Hp). destruct (Z.eqb_spec (n - Number_of_bigint n) 0).
    - do 3 f_equal. lia.
    - do 3 f_equal. lia. }
  destruct v as [|d|n|b|s|b|j]; try done; [|by apply Hint..].
  cbn [as_numeric primary_offset] in Ep. injection Ep as <- <-. cbn [key_image Z.eqb]. unfold is_neg_zero.
  by destruct (Z.eqb_spec d NEG_ZERO) as [->|Hz]; [|destruct (BigInt_of_double d)].
Qed.

Lemma decode_image norm coll options v k pre post :
  KeyOrdered coll norm -> resolves options norm -> encodable norm v -> bom_free norm v ->
  encode v options = Ok k ->
  decodeValue (pre ++ k ++ post) (length pre) = Ok (key_image norm v, length k).
Proof.
  intros Ho Hr Hv Hb Ek. destruct (encode_ok options norm coll v Ho Hr Hv) as (body & Ek' & _).
  rewrite Ek in Ek'. injection Ek' as Hk. unfold decodeValue.
  assert ((pre ++ k ++ post) !! length pre = Some (class_tag (getStorageClass v))) as ->.
  { rewrite lookup_app_r, Nat.sub_diag by lia. by subst k. }
  destruct (decide (getStorageClass v = NUMERIC)) as [Hn|Hn].
  { rewrite Hn. cbn [class_tag]. by apply (decodeNumeric_image norm options). }
  destruct v as [|d|n|b|s|b|j]; try done; cbn [getStorageClass class_tag].
  - by injection Ek as <-.
  - destruct Hv as [Ws Hs]. cbn [encodeValue] in Ek. rewrite (encodeText_ok s _ _ norm Hr Hs) in Ek.
    injection Ek as <-. cbn [Z.eqb TYPE_TEXT]. unfold TYPE_TEXT at 1 2 3, TYPE_NULL, TYPE_NUMERIC. cbn [Z.eqb Pos.eqb].
    unfold decodeText. pose proof (norm_wf s Ws). rewrite readEscaped_at by by apply utf8_encode_wf.
    by rewrite utf8_roundtrip.
  - injection Ek as Ek. rewrite <- Ek. unfold TYPE_BLOB, TYPE_TEXT, TYPE_NULL, TYPE_NUMERIC. cbn [Z.eqb Pos.eqb].
    unfold decodeBlob, encodeBlob. by rewrite readEscaped_at.
  - injection Ek as Ek. rewrite <- Ek. destruct (canonicalJsonString_text j Hv) as [Hl Hs].
    pose proof (canonicalJsonString_wf j Hv) as Ws.
    unfold TYPE_OBJECT, TYPE_BLOB, TYPE_TEXT, TYPE_NULL, TYPE_NUMERIC. cbn [Z.eqb Pos.eqb].
    unfold decodeObject, encodeObject. rewrite readEscaped_at by by apply utf8_encode_wf.
    rewrite utf8_roundtrip; [|done|done|].
    { unfold canonicalJsonString. by rewrite JSON_parse_stringify by auto with json. }
    destruct (stringify_start (canonicalize j)) as (c & t & E & Hc); [auto with json|].
    unfold canonicalJsonString. rewrite E. cbn. intros [= ->]. by destruct Hc as (_ & _ & _ & _ & Hc).
Qed.

Definition row_image (cols : list key_column) (row : list value) : list value :=
  zip_with (fun c v => key_image (col_norm c) (column_value c v)) cols row.

Definition row_bom_free (cols : list key_column) (row : list value) : Prop :=
  Forall2 (fun c v => bom_free (col_norm c) (column_value c v)) cols row.

Lemma decode_loop_image options cols row k count :
  Forall (column_ok options) cols -> Forall (fun c => col_desc c = false) cols ->
  row_encodable cols row -> row_bom_free cols row -> row_key options cols row = Ok k ->
  forall fuel pre acc, (length k <= fuel)%nat ->
  (count = None \/ count = Some (length acc + length row)%nat) ->
  decode_loop fuel (pre ++ k) count (length pre) acc = Ok (acc ++ row_image cols row).
Proof.
  intros Hc Hd He. revert k. induction He as [|c v cols row Hv He IH]; intros k Hb Ek fuel pre acc Hf Hn.
  - injection Ek as <-. cbn [row_image zip_with]. rewrite !app_nil_r.
    destruct fuel; cbn [decode_loop]; [done|]. by rewrite Nat.ltb_irrefl.
  - apply Forall_cons in Hc as [Hc Hcs]. apply Forall_cons in Hd as [Hd Hds].
    apply Forall2_cons in Hb as [Hbv Hb]. rewrite composite_cons in Ek.
    destruct (encodePart_spec options c v Hc Hv) as (kv & Ekv & _ & Hne & Ep). rewrite Ep, Hd in Ek.
    cbn [res_bind] in Ek. destruct (row_key options cols row) as [kr|] eqn:Er; [|done].
    cbn [res_bind] in Ek. injection Ek as <-. rewrite length_app in Hf.
    assert (0 < length kv)%nat by (destruct kv; [done|cbn; lia]).
    destruct fuel as [|fuel]; [lia|]. cbn [decode_loop].
    rewrite (proj2 (Nat.ltb_lt _ _)) by (rewrite !length_app; lia).
    destruct Hc as [Ho Hr]. rewrite (decode_image _ _ _ _ _ pre kr Ho Hr Hv Hbv Ekv). cbn [res_bind fst snd].
    set (acc' := acc ++ [key_image (col_norm c) (column_value c v)]).
    assert (length acc' = S (length acc)) as La by (unfold acc'; rewrite length_app; cbn; lia).
    assert (acc' ++ row_image cols row = acc ++ row_image (c :: cols) (v :: row)) as Happ
      by (unfold acc'; by rewrite <- app_assoc).
    rewrite <- Happ. cbn [length] in Hn. destruct (match count with Some n => _ | None => _ end) eqn:Ecount.
    + destruct Hn as [->| ->]; [done|]. apply Nat.leb_le in Ecount. destruct row; [|cbn in *; lia].
      unfold row_image. by rewrite zip_with_nil_r, app_nil_r.
    + replace (length pre + length kv)%nat with (length (pre ++ kv)) by by rewrite length_app.
      replace (pre ++ kv ++ kr) with ((pre ++ kv) ++ kr) by by rewrite app_assoc.
      apply IH; try done; [lia|]. destruct Hn as [->| ->]; [by left|right]. f_equal. lia.
Qed.

(** C15: Decoding an ascending composite key gives back its row: every value as
    its key states it, with numbers exact, text in its normalized form, blobs
    byte for byte and JSON with sorted keys. It does so whether or not the
    number of columns is announced. The values are encodable, and no normalized
    text starts with U+FEFF, which the decoder drops. *)
Theorem composite_key_roundtrip (options : EncodeOptions) (cols : list key_column) (row : list value) :
  Forall (column_ok options) cols -> Forall (fun c => col_desc c = false) cols ->
  row_encodable cols row -> row_bom_free cols row ->
  exists k, row_key options cols row = Ok k /\
    decodeCompositeKey k None = Ok (row_image cols row) /\
    decodeCompositeKey k (Some (length row)) = Ok (row_image cols row).
Proof.
  intros Hc Hd He Hb. destruct (composite_diverge options cols row row Hc He He) as (k & _ & Ek & _ & _).
  exists k. split; [done|]. unfold decodeCompositeKey.
  split; apply (decode_loop_image options cols row k _ Hc Hd He Hb Ek (length k) [] []); auto.
Qed.

End Decode.

End KeyOrder.

(** ** Witnesses *)

Section KeyWitness.

Abbreviation id_norm := (fun s : jsstring => s).

Abbreviation toy_value := SqlValue.

Definition toy_options : EncodeOptions := mkEncodeOptions None None.

Definition toy_cols : list (key_column) :=
  [mkColumn true None None (NOCASE_COLLATION id_norm) (NOCASE_NORMALIZER id_norm);
   mkColumn false (Some (js "RTRIM")) None RTRIM_COLLATION RTRIM_NORMALIZER;
   mkColumn false (Some (js "BINARY")) None BINARY_COLLATION IDENTITY_NORMALIZER].

Lemma toy_cols_ok : Forall (column_ok id_norm id_norm toy_options) toy_cols.
Proof.
  repeat apply List.Forall_cons; [..|apply List.Forall_nil]; (split; [|done]).
  all: first [by apply (NOCASE_ordered id_norm)|apply RTRIM_ordered|apply BINARY_ordered].
Qed.

Definition toy_a : list toy_value := [VText (js "b"); VText (js "x  "); VBigint 9007199254740993].
Definition toy_b : list toy_value := [VText (js "b"); VText (js "x"); VNumber (Number_bits 9007199254740992)].

Lemma toy_encodable : row_encodable toy_cols toy_a /\ row_encodable toy_cols toy_b.
Proof.
  split; repeat constructor; try done; try (by apply wf_stringb_spec); try apply int64_keyable; done.
Qed.

(** The integer 2^53 + 1 sorts above the real 2^53 behind two equal columns. *)
Lemma composite_key_order_witness :
  exists ka kb,
    encodeCompositeKey id_norm id_norm toy_a toy_options (map col_desc toy_cols)
      (map col_collation toy_cols) (map col_transform toy_cols) = Ok ka /\
    encodeCompositeKey id_norm id_norm toy_b toy_options (map col_desc toy_cols)
      (map col_collation toy_cols) (map col_transform toy_cols) = Ok kb /\
    (forall x y, blex (ka ++ x) (kb ++ y) = cmp_then (key_compare toy_cols toy_a toy_b) (blex x y)) /\
    (ka = kb <-> key_compare toy_cols toy_a toy_b = Eq).
Proof.
  apply (composite_key_order id_norm id_norm toy_options toy_cols toy_a toy_b);
    [exact toy_cols_ok|apply toy_encodable|apply toy_encodable].
Defined.

Lemma toy_compare : key_compare toy_cols toy_a toy_b = Gt.
Proof. by vm_compute. Qed.

Lemma composite_key_roundtrip_witness :
  exists k,
    encodeCompositeKey id_norm id_norm (tail toy_a) toy_options (map col_desc (tail toy_cols))
      (map col_collation (tail toy_cols)) (map col_transform (tail toy_cols)) = Ok k /\
    decodeCompositeKey k None = Ok (row_image (tail toy_cols) (tail toy_a)) /\
    decodeCompositeKey k (Some 2%nat) = Ok (row_image (tail toy_cols) (tail toy_a)).
Proof.
  apply (composite_key_roundtrip id_norm id_norm toy_options (tail toy_cols) (tail toy_a)).
  - pose proof toy_cols_ok as H. by apply Forall_cons in H as [_ H].
  - by repeat constructor.
  - pose proof (proj1 toy_encodable) as H. by apply Forall2_cons in H as [_ H].
  - by repeat constructor.
Defined.

(** Past 64 bits the tie-break field wraps: two integers 2^64 apart that share
    their nearest double share their key. *)
Lemma wide_integer_collision :
  encodeNumeric (NumBig (2 ^ 120)) = encodeNumeric (NumBig (2 ^ 120 + 2 ^ 64)).
Proof. by vm_compute. Qed.

End KeyWitness.

End KeyEncoding.
