(* ===== verification/SeekKeys.v ===== *)
(** * One key space for numbers

    [sharesSeekKeySpace] ([types/builtin-types.ts]) lets an index seek keyed by
    a value of one numeric type probe a column of another.  Its claim spans the
    type comparators ([Types.v]), hash keys ([KeySerializer.v]), in-memory
    primary keys ([MemoryTable.v]) and stored keys ([KeyEncoding.v]): here it is
    proved across all of them. *)

From S2P Require Import Prelude Bytes Double Decimal NumberText Utf8 Json Comparison KeySerializer VTab Types MemoryTable MemoryKeys KeyEncoding.
From Stdlib Require Import ZArith Lia.
From stdpp Require Import sorting.
From stdpp Require Import base tactics numbers sets gmap list.
#[local] Open Scope Z_scope.

Import Utf8 Json Comparison KeySerializer VTab Types MemoryTable MemoryKeys KeyEncoding.

Module SeekKeys.

(** A non-NULL value of a numeric column, within reach of the stored key's
    tie-break field. *)
Definition seekable (t : LogicalType) (v : value) : Prop :=
  isValidForType v t = true /\ is_null v = false /\ encodable IDENTITY_NORMALIZER v.

Definition numeric_types : list LogicalType := [INTEGER_TYPE; REAL_TYPE; NUMERIC_TYPE].

Lemma seekable_class t v : t ∈ numeric_types -> seekable t v -> getStorageClass v = NUMERIC.
Proof.
  intros Ht (Hv & Hn & _). unfold isValidForType in Hv. rewrite Hn in Hv. unfold numeric_types in Ht.
  rewrite !elem_of_cons in Ht. destruct_or! Ht; subst; [..|by apply elem_of_nil in Ht]; by destruct v.
Qed.

Lemma compareNumbers_eq a b : not_nan a -> not_nan b -> compareNumbers a b = 0 <-> a = b.
Proof. intros Ha Hb. rewrite <- sgn_eq, compareNumbers_sgn by done. apply (cmp_eq num_compare). Qed.

(** The comparator of each numeric type tells two numbers apart exactly when
    they differ. *)
Lemma type_compare_eq u v w :
  u ∈ numeric_types -> wf_value v -> wf_value w -> getStorageClass v = NUMERIC -> getStorageClass w = NUMERIC ->
  exists compare, t_compare u = Some compare /\ (compare v w None = 0 <-> numeric_of v = numeric_of w).
Proof.
  intros Hu Wv Ww Cv Cw. pose proof (num_part_not_nan v Wv) as Nv. pose proof (num_part_not_nan w Ww) as Nw.
  unfold num_part in Nv, Nw. rewrite Cv in Nv. rewrite Cw in Nw.
  assert (compareNulls v w = None) as En by (by destruct v, w).
  assert (Hnan : forall x, not_nan (numeric_of x) -> is_nan_value x = false).
  { intros [] H; try done. cbn in *. unfold is_nan. by destruct (num_of_double d). }
  assert (compareNumericWithNaN v w = compareNumericValues v w) as Er.
  { unfold compareNumericWithNaN. by rewrite En, !Hnan. }
  unfold numeric_types in Hu. rewrite !elem_of_cons, elem_of_nil in Hu.
  destruct Hu as [->|[->|[->|[]]]]; eexists; (split; [reflexivity|]); cbn beta; rewrite ?En, ?Er; by apply compareNumbers_eq.
Qed.

Lemma fast_numeric v w :
  wf_value v -> wf_value w -> getStorageClass v = NUMERIC -> getStorageClass w = NUMERIC ->
  compareSqlValuesFast v w BINARY_COLLATION = 0 <-> numeric_of v = numeric_of w.
Proof.
  intros Wv Ww Cv Cw. pose proof (num_part_not_nan v Wv) as Nv. pose proof (num_part_not_nan w Ww) as Nw.
  unfold num_part in Nv, Nw. rewrite Cv in Nv. rewrite Cw in Nw.
  rewrite <- (compareNumbers_eq _ _ Nv Nw). destruct v, w; done.
Qed.

Lemma hash_part_eq v w :
  wf_value v -> wf_value w -> is_null v = false -> is_null w = false ->
  serializeKey [v] [IDENTITY_NORMALIZER] = serializeKey [w] [IDENTITY_NORMALIZER] <->
  compareSqlValuesFast v w BINARY_COLLATION = 0.
Proof.
  intros Wv Ww Nv Nw. assert (Hs : forall x, is_null x = false ->
    serializeKey [x] [IDENTITY_NORMALIZER] = Some (serializeKeyNullGrouping [x] [IDENTITY_NORMALIZER])).
  { intros x Hx. unfold serializeKey. rewrite serialize_loop_grouping. cbn [existsb]. by rewrite Hx. }
  rewrite !Hs, !grouping_join by done.
  change (Some (part_of v IDENTITY_NORMALIZER) = Some (part_of w IDENTITY_NORMALIZER) <-> compareSqlValuesFast v w BINARY_COLLATION = 0).
  rewrite <- (part_eq v w BINARY_COLLATION _ IDENTITY_NORMALIZER BINARY_collates); [|apply keyed_BINARY|done|done].
  split; [by intros ?%(inj Some)|by intros ->].
Qed.

(** C40: A numeric key is its value, in every layer that holds keys.  For two
    values of any of the types INTEGER, REAL and NUMERIC, which
    [sharesSeekKeySpace] accepts for one another, the following are all
    equivalent to SQL equality of the values, whatever mix of doubles, bigints
    and types holds them: equal hash keys, a zero of the comparator of each of
    the three types (the order of the in-memory trees), equal in-memory
    primary key parts, and equal bytes of the stored key.  NaN is left out, and
    so are integers too wide for the tie-break field of the stored key. *)
Theorem seek_key_space (toUpperCase toLowerCase : normalizer) options t t' v w :
  t ∈ numeric_types -> t' ∈ numeric_types -> seekable t v -> seekable t' w ->
  resolves toUpperCase toLowerCase options IDENTITY_NORMALIZER ->
  let equal := compareSqlValuesFast v w BINARY_COLLATION = 0 in
  sharesSeekKeySpace t t' = true /\
  (serializeKey [v] [IDENTITY_NORMALIZER] = serializeKey [w] [IDENTITY_NORMALIZER] <-> equal) /\
  Forall (fun u => exists compare, t_compare u = Some compare /\ (compare v w None = 0 <-> equal)) numeric_types /\
  (encodeScalar v = encodeScalar w <-> equal) /\
  exists k k', encodeValue toUpperCase toLowerCase v options = Ok k /\
    encodeValue toUpperCase toLowerCase w options = Ok k' /\ (k = k' <-> equal).
Proof.
  intros Ht Ht' Hv Hw Hr equal. pose proof (seekable_class t v Ht Hv) as Cv. pose proof (seekable_class t' w Ht' Hw) as Cw.
  destruct Hv as (_ & Nv & Ev), Hw as (_ & Nw & Ew).
  pose proof (encodable_wf _ _ Ev) as Wv. pose proof (encodable_wf _ _ Ew) as Ww.
  pose proof (fast_numeric v w Wv Ww Cv Cw) as Hf. split_and!.
  - unfold numeric_types in *. rewrite !elem_of_cons, elem_of_nil in Ht, Ht'.
    destruct Ht as [->|[->|[->|[]]]], Ht' as [->|[->|[->|[]]]]; reflexivity.
  - by apply hash_part_eq.
  - apply Forall_forall. intros u Hu. destruct (type_compare_eq u v w Hu Wv Ww Cv Cw) as (c & E & H).
    exists c. split; [done|]. unfold equal. by rewrite Hf.
  - unfold equal. by rewrite encode_numeric_eq, Hf.
  - pose proof BINARY_ordered as Ho.
    destruct (encode_ok toUpperCase toLowerCase options _ _ v Ho Hr Ev) as (b & E & _).
    destruct (encode_ok toUpperCase toLowerCase options _ _ w Ho Hr Ew) as (b' & E' & _).
    exists (class_tag (getStorageClass v) :: b), (class_tag (getStorageClass w) :: b'). split; [done|]. split; [done|].
    pose proof (encode_diverge toUpperCase toLowerCase options _ _ v w _ _ Ho Hr Ev Ew E E') as D. apply diverge_cmp in D.
    unfold equal. by rewrite <- sgn_eq, <- D, (cmp_eq blex).
Qed.

(** 5 as a bigint in an INTEGER column, 5.0 in a REAL one. *)
Lemma seek_key_space_witness :
  let options := mkEncodeOptions (Some (js "BINARY")) None in
  serializeKey [VBigint 5] [IDENTITY_NORMALIZER] = serializeKey [VNumber (double_of_Z 5)] [IDENTITY_NORMALIZER] /\
  encodeValue IDENTITY_NORMALIZER IDENTITY_NORMALIZER (VBigint 5) options = encodeValue IDENTITY_NORMALIZER IDENTITY_NORMALIZER (VNumber (double_of_Z 5)) options.
Proof.
  destruct (seek_key_space IDENTITY_NORMALIZER IDENTITY_NORMALIZER (mkEncodeOptions (Some (js "BINARY")) None) INTEGER_TYPE REAL_TYPE (VBigint 5)
    (VNumber (double_of_Z 5))) as (_ & H1 & _ & _ & k & k' & E & E' & H2).
  - left.
  - right. left.
  - split; [reflexivity|]. split; [reflexivity|]. apply int64_keyable. lia.
  - split; [reflexivity|]. split; [reflexivity|]. split; [split; [split|left]; by vm_compute|by vm_compute].
  - reflexivity.
  - split.
    + apply H1. vm_compute. reflexivity.
    + cbv zeta. rewrite E, E'. f_equal. apply H2. vm_compute. reflexivity.
Defined.

End SeekKeys.
