(* ===== verification/SyncKeys.v ===== *)
(** * Keys of the sync metadata

    Models [packages/quereus-sync/src/metadata/keys.ts] (the key of every
    metadata record, its parser and the scan bounds over the families) and
    [filing-position.ts] (the place a fact takes in a replica's change log).

    The shared [TextEncoder] and [TextDecoder] are those of [Utf8]; random bytes
    and [toLowerCase] are arguments. *)

From S2P Require Import Prelude Bytes Double Decimal Site Hlc KvStore Utf8 Comparison KeySerializer KeyEncoding.
From Stdlib Require Import ZArith Lia.
From stdpp Require Import sorting.
From stdpp Require Import base tactics numbers sets gmap list.
#[local] Open Scope Z_scope.

Import Utf8 KeySerializer KeyEncoding.

Module SyncKeys.

Abbreviation HLC := Hlc.HLC.

(** [encoder.encode] and [decoder.decode]. *)
Abbreviation encode := utf8_encode.
Abbreviation decode := utf8_decode.

(** ** Prefixes *)

Definition COLUMN_VERSION : bytes := encode (js "cv:").
Definition TOMBSTONE : bytes := encode (js "tb:").
Definition PEER_STATE : bytes := encode (js "ps:").
Definition PEER_SENT_STATE : bytes := encode (js "pt:").
Definition SCHEMA_MIGRATION : bytes := encode (js "sm:").
Definition CHANGE_LOG : bytes := encode (js "cl:").
Definition QUARANTINE : bytes := encode (js "qt:").
Definition BASIS_LIFECYCLE : bytes := encode (js "bl:").
Definition SNAPSHOT_CHECKPOINT : bytes := encode (js "sc:").
Definition TABLE_GENERATION : bytes := encode (js "tg:").
Definition DELTA_FLOOR : bytes := encode (js "df:").

Definition SEPARATOR : Z := 58.

(** ** Components *)

Fixpoint assertKeyableIdentifiers (names : list jsstring) : res unit :=
  match names with
  | [] => Ok tt
  | name :: names' => let* _ := assertNoUnpairedSurrogate name in assertKeyableIdentifiers names'
  end.

Definition joinKeyPart (part : jsstring) : jsstring := dec (Z.of_nat (length part)) ++ SEPARATOR :: part.

Definition joinKeyParts (parts : list jsstring) : jsstring := concat (map joinKeyPart parts).

(** [rest.indexOf(c)], [None] for -1. *)
Fixpoint index_of (c : Z) (s : jsstring) : option nat :=
  match s with
  | [] => None
  | x :: s' => if x =? c then Some O else S <$> index_of c s'
  end.

(** [/^\d+$/.test(s)]. *)
Definition all_digits (s : jsstring) : bool :=
  match s with
  | [] => false
  | _ => forallb is_digit s
  end.

(** [parseInt] rounds past 2^53, where the length exceeds every string whether
    rounded or not. *)
Definition splitKeyPart (rest : jsstring) : option (jsstring * jsstring) :=
  match index_of SEPARATOR rest with
  | None | Some O => None
  | Some lenColon =>
    let lenStr := take lenColon rest in
    if negb (all_digits lenStr) then None
    else
      let len := parse_digits lenStr in
      let start := S lenColon in
      if Z.of_nat (length rest) <? Z.of_nat start + len then None
      else
        let stop := (start + Z.to_nat len)%nat in
        Some (slice start stop rest, drop stop rest)
  end.

Fixpoint splitKeyParts (rest : jsstring) (count : nat) : option (list jsstring * jsstring) :=
  match count with
  | O => Some ([], rest)
  | S count' =>
    match splitKeyPart rest with
    | None => None
    | Some (part, remainder) =>
      match splitKeyParts remainder count' with
      | None => None
      | Some (parts, remainder') => Some (part :: parts, remainder')
      end
    end
  end.

(** ** Primary key identities *)

Section Identity.

Abbreviation value := (Comparison.SqlValue).

Record PkKeying := mkPkKeying {
  pk_normalizers : list normalizer;
  pk_transforms : list (option (value -> value))
}.

Definition RAW_PK_KEYING : PkKeying := mkPkKeying [] [].

Definition encodePkIdentity (pk : list value) (keying : PkKeying) : jsstring :=
  let values := imap (fun i v => transform_value (mjoin (pk_transforms keying !! i)) v) pk in
  let normalizers := imap (fun i _ => default IDENTITY_NORMALIZER (pk_normalizers keying !! i)) pk in
  serializeKeyNullGrouping values normalizers.

Definition encodeRawPkIdentity (pk : list value) : jsstring := encodePkIdentity pk RAW_PK_KEYING.

End Identity.

(** ** Table generations *)

Definition TABLE_GENERATION_BYTES : nat := 16.

Definition mintTableGeneration (randomBytes : bytes) : jsstring := Site.toBase64Url randomBytes.

Definition tableGenerationToBytes (generation : jsstring) : res bytes :=
  if negb (length generation =? 22)%nat then Throw (EBadLength (Z.of_nat (length generation)) 22)
  else Ok (Site.fromBase64Url generation).

Definition tableGenerationFromBytes (bs : bytes) : res jsstring :=
  if negb (length bs =? TABLE_GENERATION_BYTES)%nat
  then Throw (EBadLength (Z.of_nat (length bs)) (Z.of_nat TABLE_GENERATION_BYTES))
  else Ok (Site.toBase64Url bs).

Definition buildTablePrefix (prefix schemaName tableName : jsstring) : bytes :=
  encode (prefix ++ joinKeyParts [schemaName; tableName]).

Definition buildGenerationPrefix (prefix generation : jsstring) : bytes :=
  encode (prefix ++ joinKeyParts [generation]).

Definition buildTableGenerationKey (schemaName tableName : jsstring) : res bytes :=
  let* _ := assertKeyableIdentifiers [schemaName; tableName] in
  Ok (buildTablePrefix (js "tg:") schemaName tableName).

(** [keyStr.startsWith(prefix)] and [keyStr.slice(prefix.length)]. *)
Fixpoint strip_prefix (prefix s : jsstring) : option jsstring :=
  match prefix, s with
  | [], _ => Some s
  | p :: prefix', c :: s' => if p =? c then strip_prefix prefix' s' else None
  | _ :: _, [] => None
  end.

(** The parsers' common part: the components of a key, all of it. *)
Definition parse_parts (prefix : jsstring) (count : nat) (keyStr : jsstring) : option (list jsstring) :=
  match strip_prefix prefix keyStr with
  | None => None
  | Some rest =>
    match splitKeyParts rest count with
    | Some (parts, []) => Some parts
    | _ => None
    end
  end.

Definition parseTableGenerationKey (key : bytes) : option (jsstring * jsstring) :=
  match parse_parts (js "tg:") 2 (decode key) with
  | Some [schema; table] => Some (schema, table)
  | _ => None
  end.

(** ** Row records *)

Definition buildColumnVersionKey (generation identity column : jsstring) : res bytes :=
  let* _ := assertKeyableIdentifiers [column] in
  Ok (encode (js "cv:" ++ joinKeyParts [generation; identity; column])).

Definition buildTombstoneKey (generation identity : jsstring) : bytes :=
  encode (js "tb:" ++ joinKeyParts [generation; identity]).

Definition buildPeerStateKey (siteId : Site.SiteId) : bytes := encode (js "ps:" ++ Site.siteIdToBase64 siteId).

Definition buildPeerSentStateKey (siteId : Site.SiteId) : bytes := encode (js "pt:" ++ Site.siteIdToBase64 siteId).

Definition parsePeerStateKey (key : bytes) : option Site.SiteId :=
  let keyStr := decode key in
  match strip_prefix (js "ps:") keyStr, strip_prefix (js "pt:") keyStr with
  | Some rest, _ | None, Some rest =>
    match Site.siteIdFromBase64 rest with
    | Ok id => Some id
    | Throw _ => None
    end
  | None, None => None
  end.

Inductive SchemaObjectKind : Type := KTable | KIndex.

Definition kind_name (kind : SchemaObjectKind) : jsstring :=
  match kind with
  | KTable => js "table"
  | KIndex => js "index"
  end.

Definition buildSchemaMigrationPrefix (schemaName : jsstring) (kind : SchemaObjectKind) (objectName : jsstring)
    : jsstring :=
  js "sm:" ++ joinKeyParts [schemaName; kind_name kind; objectName].

Definition buildSchemaMigrationKey (schemaName : jsstring) (kind : SchemaObjectKind) (objectName : jsstring)
    (version : Z) : res bytes :=
  let* _ := assertKeyableIdentifiers [schemaName; objectName] in
  let versionPart := Bytes.pad_start 10 48 (dec version) in
  Ok (encode (buildSchemaMigrationPrefix schemaName kind objectName ++ versionPart)).

Definition parseColumnVersionKey (key : bytes) : option (jsstring * jsstring * jsstring) :=
  match parse_parts (js "cv:") 3 (decode key) with
  | Some [generation; identity; column] => Some (generation, identity, column)
  | _ => None
  end.

Definition parseTombstoneKey (key : bytes) : option (jsstring * jsstring) :=
  match parse_parts (js "tb:") 2 (decode key) with
  | Some [generation; identity] => Some (generation, identity)
  | _ => None
  end.

Definition parseSchemaMigrationKey (key : bytes) : option (jsstring * SchemaObjectKind * jsstring * Z) :=
  match strip_prefix (js "sm:") (decode key) with
  | None => None
  | Some rest =>
    match splitKeyParts rest 3 with
    | Some ([schema; kind; table], remainder) =>
      if negb (all_digits remainder) then None
      else
        let version := Number_of_bigint (parse_digits remainder) in
        if decide (kind = js "table") then Some (schema, KTable, table, version)
        else if decide (kind = js "index") then Some (schema, KIndex, table, version)
        else None
    | _ => None
    end
  end.

(** ** Scan bounds *)

(** The carry loop of [incrementLastByte] and [incrementHLCBytes], from the
    last byte. *)
Fixpoint increment_rev (l : bytes) : bytes :=
  match l with
  | [] => []
  | b :: l' => if b <? 255 then (b + 1) :: l' else 0 :: increment_rev l'
  end.

Definition incrementLastByte (key : bytes) : bytes := reverse (increment_rev (reverse key)).

Definition incrementHLCBytes (hlcBytes : bytes) : bytes := reverse (increment_rev (reverse hlcBytes)).

Definition bounds (gte lt : bytes) : IterateOptions := mkOptions (Some gte) None None (Some lt) false None.

Definition prefixBounds (prefix : bytes) : IterateOptions := bounds prefix (incrementLastByte prefix).

Definition buildAllTableGenerationScanBounds : IterateOptions :=
  bounds TABLE_GENERATION (incrementLastByte TABLE_GENERATION).

Definition buildTableColumnVersionScanBounds (generation : jsstring) : IterateOptions :=
  prefixBounds (buildGenerationPrefix (js "cv:") generation).

Definition buildColumnVersionRowPrefix (generation identity : jsstring) : jsstring :=
  js "cv:" ++ joinKeyParts [generation; identity].

Definition buildColumnVersionScanBounds (generation identity : jsstring) : IterateOptions :=
  prefixBounds (encode (buildColumnVersionRowPrefix generation identity)).

Definition buildTombstoneScanBounds (generation : jsstring) : IterateOptions :=
  prefixBounds (buildGenerationPrefix (js "tb:") generation).

Definition buildSchemaMigrationScanBounds (schemaName : jsstring) (kind : SchemaObjectKind)
    (objectName : jsstring) : IterateOptions :=
  prefixBounds (encode (buildSchemaMigrationPrefix schemaName kind objectName)).

Definition buildAllColumnVersionsScanBounds : IterateOptions :=
  bounds COLUMN_VERSION (incrementLastByte COLUMN_VERSION).

Definition buildAllTombstonesScanBounds : IterateOptions :=
  bounds TOMBSTONE (incrementLastByte TOMBSTONE).

Definition buildAllSchemaMigrationsScanBounds : IterateOptions :=
  bounds SCHEMA_MIGRATION (incrementLastByte SCHEMA_MIGRATION).

(** ** The change log *)

Inductive ChangeLogEntryType : Type := ETColumn | ETDelete.

#[global] Instance ChangeLogEntryType_eq_dec : EqDecision ChangeLogEntryType.
Proof. solve_decision. Defined.

#[global] Instance ChangeLogEntryType_countable : Countable ChangeLogEntryType.
Proof.
  refine (inj_countable' (fun t => match t with ETColumn => true | ETDelete => false end)
            (fun b => if b : bool then ETColumn else ETDelete) _).
  by intros [].
Defined.

Definition type_byte (entryType : ChangeLogEntryType) : Z :=
  match entryType with
  | ETColumn => 0x01
  | ETDelete => 0x02
  end.

Definition serializeHLCForKey (hlc : HLC) : res bytes :=
  let buffer := u8_new 30 in
  let* buffer := u8_set buffer (be 8 (Hlc.wallTime hlc)) 0 in
  let* buffer := u8_set buffer (be 2 (Hlc.counter hlc)) 8 in
  let* buffer := u8_set buffer (Hlc.siteId hlc) 10 in
  u8_set buffer (be 4 (Hlc.opSeq hlc)) 26.

Definition deserializeHLCFromKey (buffer : bytes) : res HLC :=
  let* w := dv_get 8 0 buffer in
  let* c := dv_get 2 8 buffer in
  let siteId := slice 10 26 buffer in
  let* o := dv_get 4 26 buffer in
  Ok (Hlc.mkHLC w c siteId o).

(** The optional last component of a key. *)
Definition column_part (column : option jsstring) : list jsstring :=
  match column with
  | Some c => [c]
  | None => []
  end.

Definition buildChangeLogKey (position : HLC) (entryType : ChangeLogEntryType)
    (generation identity : jsstring) (column : option jsstring) : res bytes :=
  let* _ := assertKeyableIdentifiers (column_part column) in
  let* positionBytes := serializeHLCForKey position in
  let suffixBytes := encode (joinKeyParts ([generation; identity] ++ column_part column)) in
  let key := u8_new (3 + 30 + 1 + length suffixBytes) in
  let* key := u8_set key CHANGE_LOG 0 in
  let* key := u8_set key positionBytes 3 in
  let* key := u8_set key [type_byte entryType] 33 in
  u8_set key suffixBytes 34.

Definition buildChangeLogScanBoundsAfter (sincePosition : HLC) : res IterateOptions :=
  let* positionBytes := serializeHLCForKey sincePosition in
  let gte := u8_new (3 + 30) in
  let* gte := u8_set gte CHANGE_LOG 0 in
  let* gte := u8_set gte (incrementHLCBytes positionBytes) 3 in
  Ok (bounds gte (incrementLastByte CHANGE_LOG)).

Definition buildAllChangeLogScanBounds : IterateOptions :=
  bounds CHANGE_LOG (incrementLastByte CHANGE_LOG).

Record ParsedChangeLogKey := mkParsedKey {
  pk_position : HLC;
  pk_entryType : ChangeLogEntryType;
  pk_generation : jsstring;
  pk_identity : jsstring;
  pk_column : option jsstring
}.

Definition parseChangeLogKey (key : bytes) : res (option ParsedChangeLogKey) :=
  if (length key <? 35)%nat then Ok None
  else if decide (decode (slice 0 3 key) = js "cl:") then
    let* position := deserializeHLCFromKey (slice 3 33 key) in
    let entryType := if nth 33 key 0 =? 0x01 then ETColumn else ETDelete in
    let suffixStr := decode (drop 34 key) in
    Ok (match splitKeyParts suffixStr (match entryType with ETColumn => 3 | ETDelete => 2 end) with
        | Some ([generation; identity; column], []) =>
          Some (mkParsedKey position entryType generation identity (Some column))
        | Some ([generation; identity], []) =>
          Some (mkParsedKey position entryType generation identity None)
        | _ => None
        end)
  else Ok None.

(** ** Quarantine, lifecycle and checkpoints *)

Section Quarantine.

Definition buildQuarantineKey (schemaName tableName : jsstring) (hlc : HLC) (entryType : ChangeLogEntryType)
    (pk : list (Comparison.SqlValue)) (column : option jsstring) : res bytes :=
  let* _ := assertKeyableIdentifiers ([schemaName; tableName] ++ column_part column) in
  let prefixBytes := buildTablePrefix (js "qt:") schemaName tableName in
  let* hlcBytes := serializeHLCForKey hlc in
  let rawIdentity := encodeRawPkIdentity pk in
  let suffixBytes := encode (joinKeyParts ([rawIdentity] ++ column_part column)) in
  let key := u8_new (length prefixBytes + 30 + 1 + length suffixBytes) in
  let* key := u8_set key prefixBytes 0 in
  let offset := length prefixBytes in
  let* key := u8_set key hlcBytes offset in
  let* key := u8_set key [type_byte entryType] (offset + 30) in
  u8_set key suffixBytes (offset + 31).

End Quarantine.

Definition buildQuarantineScanBounds (schemaName tableName : option jsstring) : IterateOptions :=
  match schemaName, tableName with
  | Some schema, Some table => prefixBounds (buildTablePrefix (js "qt:") schema table)
  | Some schema, None => prefixBounds (encode (js "qt:" ++ joinKeyParts [schema]))
  | None, _ => bounds QUARANTINE (incrementLastByte QUARANTINE)
  end.

Definition buildBasisLifecycleKey (toLowerCase : normalizer) (schemaName tableName : jsstring) : res bytes :=
  let* _ := assertKeyableIdentifiers [schemaName; tableName] in
  Ok (buildTablePrefix (js "bl:") (toLowerCase schemaName) (toLowerCase tableName)).

Definition buildAllBasisLifecycleScanBounds : IterateOptions :=
  bounds BASIS_LIFECYCLE (incrementLastByte BASIS_LIFECYCLE).

Definition buildSnapshotCheckpointKey (snapshotId : jsstring) : bytes := encode (js "sc:" ++ snapshotId).

Definition buildAllSnapshotCheckpointScanBounds : IterateOptions :=
  bounds SNAPSHOT_CHECKPOINT (incrementLastByte SNAPSHOT_CHECKPOINT).

(** ** Filing positions *)

Record FiledAt := mkFiled {
  f_hlc : HLC;
  f_position : option HLC
}.

Definition filingPosition (filed : FiledAt) : HLC := default (f_hlc filed) (f_position filed).

Definition positionField (hlc : HLC) (position : option HLC) : option HLC :=
  match position with
  | Some p => if negb (Hlc.compareHLC p hlc =? 0) then Some p else None
  | None => None
  end.

(** One call of the generator [positionsFrom] returns, with its counter. *)
Definition positionsFrom (tick : HLC) (opSeq : Z) : res (HLC * Z) :=
  if Hlc.MAX_OPSEQ <? opSeq then Throw EOpSeqExhausted
  else Ok (Hlc.createHLC (Hlc.wallTime tick) (Hlc.counter tick) (Hlc.siteId tick) opSeq, opSeq + 1).

Definition encodePosition (position : HLC) : res jsstring :=
  let* b := Hlc.serializeHLC position in Ok (Site.toBase64Url b).

Definition decodePosition (encoded : jsstring) : res HLC := Hlc.deserializeHLC (Site.fromBase64Url encoded).

(** ** Splitting *)

Lemma index_of_app c a b : c ∉ a -> index_of c (a ++ c :: b) = Some (length a).
Proof.
  induction a as [|x a IH]; cbn [app index_of length].
  - by rewrite Z.eqb_refl.
  - intros H. apply not_elem_of_cons in H as [Hx Ha]. rewrite (proj2 (Z.eqb_neq x c)) by congruence.
    by rewrite (IH Ha).
Qed.

Lemma all_digits_dec n : 0 <= n -> all_digits (dec n) = true.
Proof.
  intros Hn. pose proof (dec_nonempty n Hn) as Hne. pose proof (dec_is_digits n Hn) as Hd.
  unfold all_digits. destruct (dec n) as [|c l] eqn:E; [done|].
  apply forallb_forall. intros x Hx%list_elem_of_In. by rewrite Forall_forall in Hd; apply Hd.
Qed.

Lemma splitKeyPart_join part rest : splitKeyPart (joinKeyPart part ++ rest) = Some (part, rest).
Proof.
  unfold splitKeyPart, joinKeyPart. set (n := Z.of_nat (length part)).
  assert (0 <= n) as Hn by (unfold n; lia). pose proof (dec_nonempty n Hn) as Hne.
  rewrite <- app_assoc. cbn [app]. rewrite index_of_app by apply dec_no_colon.
  destruct (length (dec n)) as [|m] eqn:El; [by apply nil_length_inv in El|]. rewrite <- El.
  rewrite take_app_length, all_digits_dec, parse_digits_dec by done. cbn [negb].
  rewrite length_app. cbn [length]. rewrite length_app.
  rewrite (proj2 (Z.ltb_ge _ _)) by (unfold n; lia). unfold n. rewrite Nat2Z.id.
  replace (dec (Z.of_nat (length part)) ++ SEPARATOR :: part ++ rest)
    with ((dec (Z.of_nat (length part)) ++ [SEPARATOR]) ++ part ++ rest) by by rewrite <- app_assoc.
  rewrite (slice_mid (dec (Z.of_nat (length part)) ++ [SEPARATOR]) part rest)
    by (rewrite ?length_app; cbn; lia).
  rewrite app_assoc. rewrite drop_app_length'; [done|]. rewrite !length_app. cbn. lia.
Qed.

Lemma splitKeyParts_join parts rest :
  splitKeyParts (joinKeyParts parts ++ rest) (length parts) = Some (parts, rest).
Proof.
  induction parts as [|part parts IH]; [done|].
  change (joinKeyParts (part :: parts)) with (joinKeyPart part ++ joinKeyParts parts).
  rewrite <- app_assoc. cbn [splitKeyParts length]. by rewrite splitKeyPart_join, IH.
Qed.

(** No component can shift into another. *)
Lemma join_cancel ps qs r r' :
  length ps = length qs -> joinKeyParts ps ++ r = joinKeyParts qs ++ r' -> ps = qs /\ r = r'.
Proof.
  intros Hl H. pose proof (splitKeyParts_join ps r) as E. rewrite H, Hl, splitKeyParts_join in E.
  by injection E as -> ->.
Qed.

Lemma strip_prefix_app p s : strip_prefix p (p ++ s) = Some s.
Proof. induction p as [|c p IH]; [done|]. cbn. by rewrite Z.eqb_refl. Qed.

Lemma parse_parts_join prefix parts :
  parse_parts prefix (length parts) (prefix ++ joinKeyParts parts) = Some parts.
Proof.
  unfold parse_parts. rewrite strip_prefix_app.
  pose proof (splitKeyParts_join parts []) as E. rewrite app_nil_r in E. by rewrite E.
Qed.

(** ** Text in key bytes *)

(** Text that UTF-8 keeps: 16-bit units, surrogates in pairs. *)
Definition text_ok (s : jsstring) : Prop := wf_string s /\ well_formed s = true.

Lemma code_points_app a b : well_formed a = true -> code_points (a ++ b) = code_points a ++ code_points b.
Proof.
  intros Ha. pattern a. revert a Ha. apply well_formed_ind.
  - done.
  - intros u s Hh Hl Hs IH. cbn. rewrite Hh, Hl. cbn. by rewrite IH.
  - intros u v s Hu Hv Hs IH. cbn. rewrite Hu, Hv. cbn. by rewrite IH.
Qed.

Lemma text_app a b : text_ok a -> text_ok b -> text_ok (a ++ b).
Proof.
  intros [Wa Ha] [Wb Hb]. split; [by apply Forall_app|]. by rewrite well_formed_app.
Qed.

Lemma encode_app a b : text_ok a -> encode (a ++ b) = encode a ++ encode b.
Proof.
  intros [_ Ha]. unfold encode, utf8_encode, utf8_cps. rewrite code_points_app by done.
  by rewrite map_app, concat_app.
Qed.

Lemma text_ascii s : Forall (fun c => 0 <= c < 128) s -> text_ok s.
Proof.
  intros H. split; [eapply Forall_impl; [exact H|]; cbn; lia|].
  induction H as [|c s Hc Hs IH]; [done|]. cbn. unfold is_high, is_low, within.
  destruct (Z.leb_spec 0xD800 c); [lia|]. destruct (Z.leb_spec 0xDC00 c); [lia|]. done.
Qed.

Lemma text_dec n : 0 <= n -> text_ok (dec n).
Proof.
  intros Hn. apply text_ascii. eapply Forall_impl; [by apply dec_is_digits|]. intros c Hc.
  apply is_digit_range in Hc. lia.
Qed.

Lemma text_joinPart part : text_ok part -> text_ok (joinKeyPart part).
Proof.
  intros H. apply text_app; [apply text_dec; lia|].
  apply (text_app [SEPARATOR] part); [by apply text_ascii; repeat constructor|done].
Qed.

Lemma text_join parts : Forall text_ok parts -> text_ok (joinKeyParts parts).
Proof.
  induction 1 as [|part parts Hp Hs IH]; [by split; [constructor|]|]. apply (text_app (joinKeyPart part)); [by apply text_joinPart|done].
Qed.

Lemma assertKeyable_ok names : Forall text_ok names -> assertKeyableIdentifiers names = Ok tt.
Proof.
  induction 1 as [|name names [_ Hn] _ IH]; [done|]. cbn. unfold assertNoUnpairedSurrogate.
  by rewrite (proj2 (findUnpairedSurrogate_spec name) Hn).
Qed.

Lemma decode_encode s : text_ok s -> head s <> Some 0xFEFF -> decode (encode s) = s.
Proof. intros [Hw Hs] Hb. by apply utf8_roundtrip. Qed.

Lemma utf8_cps_prefix cs ds x :
  Forall scalar cs -> Forall scalar ds -> utf8_cps cs = utf8_cps ds ++ x -> exists es, cs = ds ++ es.
Proof.
  intros Hc Hd. revert cs Hc. induction Hd as [|d ds Hd Hds IH]; intros cs Hc H; [by exists cs|].
  destruct Hc as [|c cs Hc Hcs].
  - exfalso. unfold utf8_cps in H. cbn in H. unfold utf8_cp in H. repeat case_match; done.
  - unfold utf8_cps in H. cbn [map concat] in H. rewrite <- app_assoc in H.
    pose proof (utf8_cp_lex c d (utf8_cps cs) (utf8_cps ds ++ x) Hc Hd) as L.
    unfold utf8_cps in L at 1 2. rewrite H, (cmp_refl blex) in L.
    destruct (Z.compare_spec c d) as [->|?|?]; [|done..]. apply app_inv_head in H.
    destruct (IH cs Hcs H) as [es ->]. by exists es.
Qed.

(** UTF-8 is a prefix code: a byte prefix is a text prefix. *)
Lemma encode_prefix s p x :
  text_ok s -> text_ok p -> encode s = encode p ++ x -> exists t, s = p ++ t.
Proof.
  intros [Ws Hs] [Wp Hp] H.
  destruct (utf8_cps_prefix (code_points s) (code_points p) x) as [es E];
    [by apply code_points_scalar..|done|].
  exists (concat (map units_of es)). rewrite <- (units_of_code_points s Ws Hs), E, map_app, concat_app.
  by rewrite units_of_code_points.
Qed.

Lemma encode_inj s t : text_ok s -> text_ok t -> encode s = encode t -> s = t.
Proof.
  intros Hs Ht H. destruct (encode_prefix s t [] Hs Ht) as [u ->]; [by rewrite app_nil_r|].
  destruct (encode_prefix t (t ++ u) [] Ht Hs) as [v E]; [by rewrite app_nil_r|].
  rewrite <- app_assoc in E. rewrite <- (app_nil_r t) in E at 1. apply app_inv_head in E.
  destruct u; [by rewrite app_nil_r|done].
Qed.

Lemma utf8_cp_low c : scalar c -> Forall (fun b => 0 <= b < 255) (utf8_cp c).
Proof.
  unfold scalar, utf8_cp. intros Hc.
  destruct (Z.ltb_spec c 0x80); [|destruct (Z.ltb_spec c 0x800); [|destruct (Z.ltb_spec c 0x10000)]];
    repeat constructor; Z.to_euclidean_division_equations; lia.
Qed.

Lemma encode_low s : text_ok s -> Forall (fun b => 0 <= b < 255) (encode s).
Proof.
  intros [Ws Hs]. pose proof (code_points_scalar s Ws Hs) as H. unfold encode, utf8_encode, utf8_cps.
  induction H as [|c cs Hc Hcs IH]; cbn; [constructor|]. apply Forall_app. split; [by apply utf8_cp_low|done].
Qed.

Lemma encode_wf s : text_ok s -> wf_bytes (encode s).
Proof. intros [Ws Hs]. by apply utf8_encode_wf. Qed.

Lemma encode_nil s : text_ok s -> encode s = [] -> s = [].
Proof. intros Hs H. by apply encode_inj; [|split; [constructor|]|]. Qed.

(** ** Prefix scans *)

Lemma incrementLastByte_snoc q b : b < 255 -> incrementLastByte (q ++ [b]) = q ++ [b + 1].
Proof.
  intros Hb. unfold incrementLastByte. rewrite reverse_snoc. cbn [increment_rev]. rewrite (proj2 (Z.ltb_lt _ _) Hb).
  by rewrite reverse_cons, reverse_involutive.
Qed.

Lemma between_prefix q b k :
  blex k (q ++ [b]) <> Lt -> blex k (q ++ [b + 1]) = Lt -> exists x, k = (q ++ [b]) ++ x.
Proof.
  revert k. induction q as [|c q IH]; intros [|y k]; cbn; try done.
  - destruct (Z.compare_spec y b) as [->|?|?]; [intros; by exists k|done|].
    destruct (Z.compare_spec y (b + 1)); try lia; try done. destruct k; done.
  - destruct (Z.compare_spec y c) as [->|?|?]; cbn; [|done..]. intros H1 H2.
    destruct (IH k H1 H2) as [x ->]. by exists x.
Qed.

(** A prefix scan is exact: it visits the keys that start with the prefix. *)
Lemma prefixBounds_exact p k :
  p <> [] -> Forall (fun b => 0 <= b < 255) p ->
  in_range (prefixBounds p) k = true <-> exists x, k = p ++ x.
Proof.
  intros Hne Hp. destruct (exists_last Hne) as (q & b & ->). apply Forall_app in Hp as [_ Hb].
  apply Forall_cons in Hb as [Hb _]. unfold in_range, lower_ok, upper_ok, prefixBounds, bounds, test.
  cbn [o_gte o_gt o_lte o_lt]. rewrite incrementLastByte_snoc by lia. rewrite !andb_true_r. cbn [andb].
  rewrite andb_true_iff, negb_true_iff. split.
  - intros [H1 H2]. apply between_prefix; [by intros H; rewrite H in H1|]. 
    revert H2. destruct (blex k (q ++ [b + 1])); cbn; [discriminate|done|discriminate].
  - intros [x ->]. replace ((q ++ [b]) ++ x) with (q ++ b :: x) by by rewrite <- app_assoc.
    rewrite !KeyEncoding.blex_app. split.
    + cbn. rewrite Z.compare_refl. by destruct x.
    + cbn. by rewrite (proj2 (Z.compare_lt_iff b (b + 1))) by lia.
Qed.

(** The same over text: the scan of [prefix] visits the keys whose text starts
    with it. *)
Lemma text_scan_exact p s :
  text_ok p -> text_ok s -> p <> [] ->
  in_range (prefixBounds (encode p)) (encode s) = true <-> exists t, s = p ++ t.
Proof.
  intros Hp Hs Hne. rewrite prefixBounds_exact.
  - split; [intros [x H]; by apply (encode_prefix s p x)|]. intros [t ->]. exists (encode t). by apply encode_app.
  - intros E. by apply Hne, encode_nil.
  - by apply encode_low.
Qed.

(** ** Keys of the families *)

Lemma serializeHLCForKey_bytes h :
  length (Hlc.siteId h) = 16%nat -> serializeHLCForKey h = Ok (Hlc.hlc_bytes h).
Proof. exact (Hlc.serializeHLC_bytes h). Qed.

Lemma deserializeHLCFromKey_bytes h : Hlc.valid_hlc h -> deserializeHLCFromKey (Hlc.hlc_bytes h) = Ok h.
Proof.
  intros Hv. pose proof (Hlc.deserialize_hlc_bytes h Hv) as E. unfold Hlc.deserializeHLC in E.
  rewrite Hlc.length_hlc_bytes in E by apply Hv. exact E.
Qed.

Definition change_log_bytes (position : HLC) (entryType : ChangeLogEntryType) (parts : list jsstring) : bytes :=
  CHANGE_LOG ++ Hlc.hlc_bytes position ++ [type_byte entryType] ++ encode (joinKeyParts parts).

Lemma buildChangeLogKey_bytes position entryType generation identity column :
  length (Hlc.siteId position) = 16%nat -> Forall text_ok (column_part column) ->
  buildChangeLogKey position entryType generation identity column
  = Ok (change_log_bytes position entryType ([generation; identity] ++ column_part column)).
Proof.
  intros Hs Hc. unfold buildChangeLogKey, change_log_bytes. rewrite assertKeyable_ok, serializeHLCForKey_bytes by done.
  cbn [res_bind]. set (suffix := encode _). pose proof (Hlc.length_hlc_bytes position Hs) as Hl.
  replace (u8_new (3 + 30 + 1 + length suffix))
    with ([] ++ u8_new 3 ++ u8_new 30 ++ u8_new 1 ++ u8_new (length suffix)).
  2: { unfold u8_new. cbn [app]. rewrite !app_assoc, <- !replicate_add. done. }
  rewrite u8_set_at by done. cbn [res_bind app].
  rewrite (u8_set_at CHANGE_LOG (u8_new 30)) by (by rewrite ?Hl). cbn [res_bind].
  rewrite (app_assoc CHANGE_LOG (Hlc.hlc_bytes position)).
  rewrite (u8_set_at (CHANGE_LOG ++ Hlc.hlc_bytes position) (u8_new 1)) by (by rewrite ?length_app, ?Hl). cbn [res_bind].
  rewrite (app_assoc (CHANGE_LOG ++ Hlc.hlc_bytes position)).
  pose proof (u8_set_at ((CHANGE_LOG ++ Hlc.hlc_bytes position) ++ [type_byte entryType]) (u8_new (length suffix)) []
    suffix 34) as E. rewrite !app_nil_r in E. rewrite E; [by rewrite <- !app_assoc|by rewrite !length_app, Hl|].
  apply length_u8_new.
Qed.

Ltac ascii := apply text_ascii; repeat constructor; lia.

Ltac key_args :=
  first [done|solve [repeat constructor; lia]|by repeat first [apply Forall_nil_2|apply Forall_cons_2]].

Ltac each := repeat first [apply Forall_nil_2|apply Forall_cons_2].

Lemma text_prefix_parts (prefix : jsstring) parts :
  Forall (fun c => 0 <= c < 128) prefix -> Forall text_ok parts -> text_ok (prefix ++ joinKeyParts parts).
Proof. intros Hp Hs. apply text_app; [by apply text_ascii|by apply text_join]. Qed.

Lemma parse_encoded (prefix : jsstring) n parts :
  Forall (fun c => 0 <= c < 128) prefix -> prefix <> [] -> n = length parts -> Forall text_ok parts ->
  parse_parts prefix n (decode (encode (prefix ++ joinKeyParts parts))) = Some parts.
Proof.
  intros Hp Hne -> Hs. rewrite decode_encode; [apply parse_parts_join|by apply text_prefix_parts|].
  destruct Hp as [|c p Hc _]; [done|]. cbn. intros [= ->]. lia.
Qed.

Lemma digit_head_not_bom s : Forall (fun c => is_digit c = true) s -> s <> [] -> forall t, head (s ++ t) <> Some 0xFEFF.
Proof.
  intros Hd Hne t. destruct Hd as [|c s Hc _]; [done|]. cbn. intros [= ->]. apply is_digit_range in Hc. lia.
Qed.

Lemma join_head_not_bom part parts : head (joinKeyParts (part :: parts)) <> Some 0xFEFF.
Proof.
  change (joinKeyParts (part :: parts)) with (joinKeyPart part ++ joinKeyParts parts).
  unfold joinKeyPart. rewrite <- app_assoc. apply digit_head_not_bom; [apply dec_is_digits|apply dec_nonempty]; lia.
Qed.

Lemma parse_digits_padded n v : 0 <= v -> parse_digits (Bytes.pad_start n 48 (dec v)) = v.
Proof.
  intros Hv. unfold Bytes.pad_start. set (k := (n - _)%nat). clearbody k.
  rewrite <- (parse_digits_dec v Hv) at 2. induction k as [|k IH]; [done|]. rewrite <- IH. done.
Qed.

Lemma padded_digits n v : 0 <= v -> Forall (fun c => is_digit c = true) (Bytes.pad_start n 48 (dec v)).
Proof. intros Hv. apply Forall_app. split; [by apply Forall_replicate|by apply dec_is_digits]. Qed.

Lemma all_digits_padded n v : 0 <= v -> all_digits (Bytes.pad_start n 48 (dec v)) = true.
Proof.
  intros Hv. pose proof (padded_digits n v Hv) as Hd. unfold all_digits.
  destruct (Bytes.pad_start n 48 (dec v)) as [|c l] eqn:E.
  - unfold Bytes.pad_start in E. apply app_nil in E as [_ E]. by apply dec_nonempty in E.
  - apply forallb_forall. intros x Hx%list_elem_of_In. by rewrite Forall_forall in Hd; apply Hd.
Qed.

Lemma text_digits s : Forall (fun c => is_digit c = true) s -> text_ok s.
Proof. intros H. apply text_ascii. eapply Forall_impl; [exact H|]. intros c Hc. apply is_digit_range in Hc. lia. Qed.

Lemma text_kind kind : text_ok (kind_name kind).
Proof. destruct kind; ascii. Qed.

Lemma schema_migration_parses schema kind object version :
  text_ok schema -> text_ok object -> 0 <= version < 2 ^ 53 ->
  parseSchemaMigrationKey (encode (buildSchemaMigrationPrefix schema kind object
    ++ Bytes.pad_start 10 48 (dec version))) = Some (schema, kind, object, version).
Proof.
  intros Hs Ho Hv. unfold parseSchemaMigrationKey, buildSchemaMigrationPrefix.
  rewrite decode_encode, <- app_assoc, strip_prefix_app.
  - change 3%nat with (length [schema; kind_name kind; object]). rewrite splitKeyParts_join.
    rewrite all_digits_padded, parse_digits_padded, Number_of_bigint_exact by lia. by destruct kind.
  - apply text_app; [apply text_app; [ascii|apply text_join; each; try done; apply text_kind]|].
    apply text_digits, padded_digits. lia.
  - done.
Qed.

Lemma type_byte_decoded entryType : (if type_byte entryType =? 0x01 then ETColumn else ETDelete) = entryType.
Proof. by destruct entryType. Qed.

Lemma parseChangeLogKey_bytes position entryType generation identity column :
  Hlc.valid_hlc position -> text_ok generation -> text_ok identity -> Forall text_ok (column_part column) ->
  (entryType = ETColumn <-> is_Some column) ->
  parseChangeLogKey (change_log_bytes position entryType ([generation; identity] ++ column_part column))
  = Ok (Some (mkParsedKey position entryType generation identity column)).
Proof.
  intros Hp Hg Hi Hc Hk. unfold parseChangeLogKey, change_log_bytes.
  set (suffix := encode _). pose proof (Hlc.length_hlc_bytes position (proj2 (proj1 (proj2 (proj2 Hp))))) as Hl.
  assert (0 < length suffix)%nat as Hpos.
  { destruct suffix eqn:E; [|cbn; lia]. exfalso. unfold suffix in E. apply encode_nil in E.
    - change (joinKeyPart generation ++ joinKeyParts ([identity] ++ column_part column) = []) in E.
      apply app_nil in E as [E _]. unfold joinKeyPart in E. apply app_nil in E as [_ E]. done.
    - apply text_join. by each. }
  rewrite (proj2 (Nat.ltb_ge _ _)) by (rewrite !length_app, Hl; change (length CHANGE_LOG) with 3%nat; change (length [type_byte entryType]) with 1%nat; lia).
  change (slice 0 3 (CHANGE_LOG ++ Hlc.hlc_bytes position ++ [type_byte entryType] ++ suffix)) with CHANGE_LOG.
  rewrite decide_True by done.
  rewrite (slice_mid CHANGE_LOG (Hlc.hlc_bytes position)) by (by rewrite ?Hl).
  rewrite deserializeHLCFromKey_bytes by done. cbn [res_bind].
  assert (length (CHANGE_LOG ++ Hlc.hlc_bytes position) = 33%nat) as Hl3 by (by rewrite length_app, Hl).
  rewrite (app_assoc CHANGE_LOG). set (front := CHANGE_LOG ++ Hlc.hlc_bytes position) in *.
  pose proof (nth_app_0 front ([type_byte entryType] ++ suffix) 0) as En. rewrite Hl3 in En. rewrite En.
  pose proof (drop_app_S front (type_byte entryType) suffix) as Ed. rewrite Hl3 in Ed.
  change (33 + 1)%nat with 34%nat in Ed. cbn [app nth] in *. rewrite Ed, type_byte_decoded.
  unfold suffix. rewrite decode_encode; [|apply text_join; by each|by apply join_head_not_bom].
  set (parts := generation :: identity :: column_part column).
  assert (splitKeyParts (joinKeyParts parts) (match entryType with ETColumn => 3 | ETDelete => 2 end) = Some (parts, [])) as ->.
  { replace (match entryType with ETColumn => 3 | ETDelete => 2 end)%nat with (length parts).
    - pose proof (splitKeyParts_join parts []) as E. by rewrite app_nil_r in E.
    - unfold parts. destruct entryType, column; try done; exfalso.
      + by destruct (proj1 Hk eq_refl).
      + by discriminate (proj2 Hk (ex_intro _ _ eq_refl)). }
  unfold parts. by destruct column.
Qed.

Lemma b64_ascii l : wf_bytes l -> Forall (fun c => 0 <= c < 128) (Site.toBase64Url l).
Proof.
  assert (forall i, 0 <= Site.b64_char i < 128) as H.
  { intros i. unfold Site.b64_char. destruct (nth_in_or_default (Z.to_nat i) Site.BASE64URL_CHARS 0) as [Hin|E].
    - assert (Forall (fun c => 0 <= c < 128) Site.BASE64URL_CHARS) as Ha by (vm_compute; repeat constructor; done).
      rewrite List.Forall_forall in Ha. by apply Ha.
    - rewrite E. lia. }
  intros _. induction l as [|b1|b1 b2|b1 b2 b3 l IH] using list_ind3; cbn [Site.toBase64Url]; repeat constructor; try apply H.
  exact IH.
Qed.

Lemma parse_peer_key (b : Z) id :
  (b = 115 \/ b = 116) -> wf_bytes id -> length id = 16%nat ->
  parsePeerStateKey (encode ([112; b; 58] ++ Site.siteIdToBase64 id)) = Some id.
Proof.
  intros Hb Hw Hl. unfold parsePeerStateKey. rewrite decode_encode.
  - assert (Site.siteIdFromBase64 (Site.siteIdToBase64 id) = Ok id) as E.
    { unfold Site.siteIdFromBase64, Site.siteIdToBase64. rewrite Site.length_toBase64Url_16 by done.
      by rewrite Site.base64url_roundtrip. }
    destruct Hb as [->| ->].
    all: change (match Site.siteIdFromBase64 (Site.siteIdToBase64 id) with
                 | Ok x => Some x | Throw _ => None end = Some id); by rewrite E.
  - apply text_app; [destruct Hb as [->| ->]; ascii|]. by apply text_ascii, b64_ascii.
  - done.
Qed.

(** Every metadata key parses back to what it was built from, whatever
    characters the names hold: column versions, tombstones, table generations,
    schema migrations, change-log entries with or without a column, and both
    peer watermarks. *)
Theorem metadata_key_roundtrip (generation identity column schema table : jsstring) (kind : SchemaObjectKind)
    (version : Z) (position : HLC) :
  text_ok generation -> text_ok identity -> text_ok column -> text_ok schema -> text_ok table ->
  0 <= version < 2 ^ 53 -> Hlc.valid_hlc position ->
  (let* k := buildColumnVersionKey generation identity column in Ok (parseColumnVersionKey k))
    = Ok (Some (generation, identity, column)) /\
  parseTombstoneKey (buildTombstoneKey generation identity) = Some (generation, identity) /\
  (let* k := buildTableGenerationKey schema table in Ok (parseTableGenerationKey k)) = Ok (Some (schema, table)) /\
  (let* k := buildSchemaMigrationKey schema kind table version in Ok (parseSchemaMigrationKey k))
    = Ok (Some (schema, kind, table, version)) /\
  (let* k := buildChangeLogKey position ETColumn generation identity (Some column) in parseChangeLogKey k)
    = Ok (Some (mkParsedKey position ETColumn generation identity (Some column))) /\
  (let* k := buildChangeLogKey position ETDelete generation identity None in parseChangeLogKey k)
    = Ok (Some (mkParsedKey position ETDelete generation identity None)) /\
  parsePeerStateKey (buildPeerStateKey (Hlc.siteId position)) = Some (Hlc.siteId position) /\
  parsePeerStateKey (buildPeerSentStateKey (Hlc.siteId position)) = Some (Hlc.siteId position).
Proof.
  intros Hg Hi Hc Hs Ht Hv Hp. pose proof Hp as (_ & _ & [Hw Hl] & _). split_and!.
  - unfold buildColumnVersionKey. rewrite assertKeyable_ok by by each. cbn [res_bind].
    unfold parseColumnVersionKey. by rewrite (parse_encoded (js "cv:") 3 [generation; identity; column]) by key_args.
  - unfold parseTombstoneKey, buildTombstoneKey.
    by rewrite (parse_encoded (js "tb:") 2 [generation; identity]) by key_args.
  - unfold buildTableGenerationKey. rewrite assertKeyable_ok by by each. cbn [res_bind].
    unfold parseTableGenerationKey, buildTablePrefix.
    by rewrite (parse_encoded (js "tg:") 2 [schema; table]) by key_args.
  - unfold buildSchemaMigrationKey. rewrite assertKeyable_ok by by each. cbn [res_bind].
    by rewrite schema_migration_parses.
  - rewrite buildChangeLogKey_bytes by (done || by each). cbn [res_bind].
    apply (parseChangeLogKey_bytes position ETColumn generation identity (Some column)); try done; by each.
  - rewrite buildChangeLogKey_bytes by (done || by each). cbn [res_bind].
    by apply (parseChangeLogKey_bytes position ETDelete generation identity None).
  - apply (parse_peer_key 115); auto.
  - apply (parse_peer_key 116); auto.
Qed.

(** ** What a scan visits *)

Lemma joinKeyParts_app ps qs : joinKeyParts (ps ++ qs) = joinKeyParts ps ++ joinKeyParts qs.
Proof. unfold joinKeyParts. by rewrite map_app, concat_app. Qed.

Lemma scan_parts (prefix : jsstring) ps qs :
  Forall (fun c => 0 <= c < 128) prefix -> prefix <> [] -> Forall text_ok ps -> Forall text_ok qs ->
  (length ps <= length qs)%nat ->
  in_range (prefixBounds (encode (prefix ++ joinKeyParts ps))) (encode (prefix ++ joinKeyParts qs)) = true
  <-> ps = take (length ps) qs.
Proof.
  intros Hp Hne Hps Hqs Hl. rewrite text_scan_exact; [|by apply text_prefix_parts..|by destruct prefix].
  assert (joinKeyParts qs = joinKeyParts (take (length ps) qs) ++ joinKeyParts (drop (length ps) qs)) as ->
    by by rewrite <- joinKeyParts_app, take_drop.
  split.
  - intros [t H]. rewrite <- app_assoc in H. apply app_inv_head in H. symmetry.
    refine (proj1 (join_cancel _ _ _ _ _ H)). by rewrite length_take_le.
  - intros E. rewrite <- E, app_assoc. by eexists.
Qed.

Lemma scan_migrations schema kind object schema' kind' object' version :
  text_ok schema -> text_ok object -> text_ok schema' -> text_ok object' -> 0 <= version ->
  in_range (buildSchemaMigrationScanBounds schema kind object)
    (encode (buildSchemaMigrationPrefix schema' kind' object' ++ Bytes.pad_start 10 48 (dec version))) = true
  <-> schema = schema' /\ kind = kind' /\ object = object'.
Proof.
  intros Hs Ho Hs' Ho' Hv. unfold buildSchemaMigrationScanBounds, buildSchemaMigrationPrefix.
  assert (forall s k o, text_ok s -> text_ok o -> text_ok (js "sm:" ++ joinKeyParts [s; kind_name k; o])) as Ht.
  { intros s k o Hs1 Ho1. apply text_prefix_parts; [key_args|]. each; try done. apply text_kind. }
  rewrite text_scan_exact; [|by apply Ht|apply text_app; [by apply Ht|by apply text_digits, padded_digits]|done].
  split.
  - intros [t H]. rewrite <- !app_assoc in H. apply app_inv_head in H.
    apply (join_cancel [schema'; kind_name kind'; object'] [schema; kind_name kind; object]) in H as [H _]; [|done].
    injection H as -> Hk ->. split; [done|]. split; [|done]. by destruct kind, kind'.
  - intros (-> & -> & ->). by eexists.
Qed.

(** C13: The scan bounds are exact. The scan of a table generation visits the
    column versions and tombstones filed under it and no other, the scan of a
    row its own column versions, and the scan of a schema object the migrations
    of that object and kind, even when one name is a prefix of another or holds
    the separator. *)
Theorem metadata_scans_exact (generation identity generation' identity' column : jsstring)
    (kind kind' : SchemaObjectKind) (version : Z) :
  text_ok generation -> text_ok identity -> text_ok generation' -> text_ok identity' -> text_ok column ->
  0 <= version ->
  (forall k, buildColumnVersionKey generation' identity' column = Ok k ->
     (in_range (buildTableColumnVersionScanBounds generation) k = true <-> generation = generation') /\
     (in_range (buildColumnVersionScanBounds generation identity) k = true
        <-> generation = generation' /\ identity = identity') /\
     in_range buildAllColumnVersionsScanBounds k = true) /\
  (in_range (buildTombstoneScanBounds generation) (buildTombstoneKey generation' identity') = true
     <-> generation = generation') /\
  (forall k, buildSchemaMigrationKey generation' kind' identity' version = Ok k ->
     in_range (buildSchemaMigrationScanBounds generation kind identity) k = true
       <-> generation = generation' /\ kind = kind' /\ identity = identity').
Proof.
  intros Hg Hi Hg' Hi' Hc Hv. split_and!.
  - unfold buildColumnVersionKey. rewrite assertKeyable_ok by by each. intros k [= <-]. split_and!.
    + unfold buildTableColumnVersionScanBounds, buildGenerationPrefix.
      rewrite (scan_parts (js "cv:") [generation] [generation'; identity'; column]) by key_args.
      cbn. split; [by intros [= ->]|by intros ->].
    + unfold buildColumnVersionScanBounds, buildColumnVersionRowPrefix.
      rewrite (scan_parts (js "cv:") [generation; identity] [generation'; identity'; column]) by key_args.
      cbn. split; [by intros [= -> ->]|by intros [-> ->]].
    + change buildAllColumnVersionsScanBounds with (prefixBounds (encode (js "cv:"))).
      apply (text_scan_exact (js "cv:") (js "cv:" ++ joinKeyParts [generation'; identity'; column]));
        [ascii|apply text_prefix_parts; key_args|done|]. by eexists.
  - unfold buildTombstoneScanBounds, buildGenerationPrefix, buildTombstoneKey.
    rewrite (scan_parts (js "tb:") [generation] [generation'; identity']) by key_args.
    cbn. split; [by intros [= ->]|by intros ->].
  - unfold buildSchemaMigrationKey. rewrite assertKeyable_ok by by each. intros k [= <-].
    by apply scan_migrations.
Qed.

(** ** Order of the change log *)

Lemma unbe_app a b : unbe (a ++ b) = unbe a * 256 ^ Z.of_nat (length b) + unbe b.
Proof.
  induction b as [|x b IH] using rev_ind; [rewrite app_nil_r; cbn; lia|].
  rewrite app_assoc, !unbe_snoc, IH, length_app, Nat2Z.inj_add, Z.pow_add_r by lia. cbn [length]. lia.
Qed.

Lemma blex_unbe a b : wf_bytes a -> wf_bytes b -> length a = length b -> blex a b = (unbe a ?= unbe b).
Proof.
  intros Ha Hb Hl. pose proof (unbe_bound a Ha). pose proof (unbe_bound b Hb).
  rewrite <- (be_unbe a Ha) at 1. rewrite <- (be_unbe b Hb) at 1. rewrite Hl in *. by apply lex_be.
Qed.

Lemma increment_spec l :
  wf_bytes l -> unbe l + 1 < 256 ^ Z.of_nat (length l) ->
  wf_bytes (incrementHLCBytes l) /\ length (incrementHLCBytes l) = length l /\
  unbe (incrementHLCBytes l) = unbe l + 1.
Proof.
  unfold incrementHLCBytes. induction l as [|b l IH] using rev_ind; [cbn; lia|]. intros Hw Hb.
  apply wf_app in Hw as [Hw Hwb]. apply Forall_cons in Hwb as [Hwb _]. unfold is_byte in Hwb.
  rewrite reverse_snoc. cbn [increment_rev]. rewrite unbe_snoc, length_app, Nat2Z.inj_add, Z.pow_add_r in * by lia.
  cbn [length] in *. destruct (Z.ltb_spec b 255).
  - rewrite reverse_cons, reverse_involutive. split_and!.
    + apply wf_app. split; [done|]. repeat constructor; lia.
    + by rewrite length_app.
    + rewrite unbe_snoc. lia.
  - destruct (IH Hw) as (H1 & H2 & H3); [lia|]. rewrite reverse_cons. split_and!.
    + apply wf_app. split; [done|]. repeat constructor; lia.
    + by rewrite length_app, H2.
    + rewrite unbe_snoc, H3. lia.
Qed.

(** Timestamps below the last one representable. *)
Definition bounded_hlc (h : HLC) : Prop := Hlc.valid_hlc h /\ Hlc.wallTime h + 1 < 2 ^ 64.

Lemma increment_hlc h :
  bounded_hlc h ->
  wf_bytes (incrementHLCBytes (Hlc.hlc_bytes h)) /\ length (incrementHLCBytes (Hlc.hlc_bytes h)) = 30%nat /\
  unbe (incrementHLCBytes (Hlc.hlc_bytes h)) = unbe (Hlc.hlc_bytes h) + 1.
Proof.
  intros [Hv Hm]. pose proof Hv as (Hw & _ & [Hs Hl] & _). rewrite <- (Hlc.length_hlc_bytes h Hl).
  apply increment_spec; [by apply Hlc.wf_hlc_bytes|].
  unfold Hlc.hlc_bytes. set (rest := be 2 _ ++ _). assert (wf_bytes rest) as Hr.
  { unfold rest. rewrite !wf_app. auto using wf_be. }
  pose proof (unbe_bound rest Hr) as Hb. rewrite unbe_app, length_app, length_be, Nat2Z.inj_add, Z.pow_add_r by lia.
  rewrite unbe_be_small by (cbn; lia). change (256 ^ Z.of_nat 8) with (2 ^ 64). nia.
Qed.

Definition after_bounds (since : HLC) : IterateOptions :=
  bounds (CHANGE_LOG ++ incrementHLCBytes (Hlc.hlc_bytes since)) (incrementLastByte CHANGE_LOG).

Lemma scan_after_bounds since :
  bounded_hlc since -> buildChangeLogScanBoundsAfter since = Ok (after_bounds since).
Proof.
  intros Hs. pose proof (increment_hlc since Hs) as (Wi & Li & Ui). destruct Hs as [Hs _].
  unfold buildChangeLogScanBoundsAfter. rewrite serializeHLCForKey_bytes by apply Hs. cbn [res_bind].
  change (u8_new (3 + 30)) with ([] ++ u8_new 3 ++ u8_new 30). rewrite u8_set_at by done. cbn [res_bind].
  pose proof (u8_set_at CHANGE_LOG (u8_new 30) [] (incrementHLCBytes (Hlc.hlc_bytes since)) 3) as E.
  rewrite !app_nil_r in E. by rewrite app_nil_l, E by (by rewrite ?Li).
Qed.

(** An entry is visited by the scan after [since] exactly when it was filed
    later. *)
Lemma scan_after since position entryType parts :
  bounded_hlc since -> Hlc.valid_hlc position ->
  in_range (after_bounds since) (change_log_bytes position entryType parts) = true
  <-> Hlc.hlc_cmp position since = Gt.
Proof.
  intros Hs Hp. pose proof (increment_hlc since Hs) as (Wi & Li & Ui). destruct Hs as [Hs _].
  unfold after_bounds. set (inc := incrementHLCBytes (Hlc.hlc_bytes since)) in *.
  unfold in_range, lower_ok, upper_ok, bounds, test, change_log_bytes. cbn [o_gte o_gt o_lte o_lt].
  rewrite KeyEncoding.blex_app. set (rest := [type_byte entryType] ++ _).
  assert (length (Hlc.hlc_bytes position) = 30%nat) as Lp by (apply Hlc.length_hlc_bytes, Hp).
  assert (wf_bytes (Hlc.hlc_bytes position)) as Wp by (apply Hlc.wf_hlc_bytes, Hp).
  assert (length (Hlc.hlc_bytes since) = 30%nat) as Ls by (apply Hlc.length_hlc_bytes, Hs).
  assert (wf_bytes (Hlc.hlc_bytes since)) as Ws by (apply Hlc.wf_hlc_bytes, Hs).
  rewrite <- (app_nil_r inc) at 1. rewrite lex_app by congruence. rewrite blex_unbe by congruence.
  rewrite <- Hlc.hlc_bytes_lex by done. rewrite (blex_unbe (Hlc.hlc_bytes position)) by congruence. rewrite Ui.
  rewrite andb_true_r. cbn [andb].
  change (incrementLastByte CHANGE_LOG) with (encode (js "cl;")).
  change (blex (CHANGE_LOG ++ Hlc.hlc_bytes position ++ rest) (encode (js "cl;"))) with Lt. cbn [is_lt]. rewrite andb_true_r.
  destruct (Z.compare_spec (unbe (Hlc.hlc_bytes position)) (unbe (Hlc.hlc_bytes since) + 1)),
    (Z.compare_spec (unbe (Hlc.hlc_bytes position)) (unbe (Hlc.hlc_bytes since))); cbn; try lia; try done.
Qed.

(** Entries sort by position first. *)
Lemma change_log_order p t parts p' t' parts' :
  Hlc.valid_hlc p -> Hlc.valid_hlc p' -> Hlc.hlc_cmp p p' <> Eq ->
  blex (change_log_bytes p t parts) (change_log_bytes p' t' parts') = Hlc.hlc_cmp p p'.
Proof.
  intros Hp Hp' Hne. unfold change_log_bytes. rewrite KeyEncoding.blex_app.
  rewrite lex_app by (by rewrite !Hlc.length_hlc_bytes by (apply Hp || apply Hp')).
  rewrite Hlc.hlc_bytes_lex by done. by destruct (Hlc.hlc_cmp p p').
Qed.

Lemma change_log_inj p t parts p' t' parts' :
  Hlc.valid_hlc p -> Hlc.valid_hlc p' -> Forall text_ok parts -> Forall text_ok parts' ->
  length parts = length parts' ->
  change_log_bytes p t parts = change_log_bytes p' t' parts' -> p = p' /\ t = t' /\ parts = parts'.
Proof.
  intros Hp Hp' Ht Ht' Hl H. unfold change_log_bytes in H. apply app_inv_head in H.
  assert (length (Hlc.hlc_bytes p) = length (Hlc.hlc_bytes p')) as L
    by (by rewrite !Hlc.length_hlc_bytes by (apply Hp || apply Hp')).
  apply app_inj_1 in H as [H1 H]; [|done]. injection H as H2 H3.
  split_and!.
  - apply (cmp_eq Hlc.hlc_cmp). rewrite <- Hlc.hlc_bytes_lex, H1 by done. apply (cmp_refl blex).
  - by destruct t, t'.
  - apply encode_inj in H3; [|by apply text_join..].
    apply (join_cancel parts parts' [] [] Hl). by rewrite !app_nil_r.
Qed.

(** ** Witnesses *)

Definition toy_position : HLC := Hlc.mkHLC 1700000000000 3 (map Z.of_nat (seq 1 16)) 7.

Lemma toy_position_bounded : bounded_hlc toy_position.
Proof. repeat split; try done. repeat constructor; done. Qed.

(** A schema, table and column whose names hold the separator. *)
Lemma metadata_key_roundtrip_witness :
  (let* k := buildColumnVersionKey (js "gen") (js "1:x") (js "2:") in Ok (parseColumnVersionKey k))
    = Ok (Some (js "gen", js "1:x", js "2:")).
Proof.
  apply (metadata_key_roundtrip (js "gen") (js "1:x") (js "2:") (js "a:b") (js "12:t") KIndex 42 toy_position).
  1-5: ascii.
  - done.
  - apply toy_position_bounded.
Defined.

Lemma metadata_scans_exact_witness :
  in_range (buildTombstoneScanBounds (js "g")) (buildTombstoneKey (js "g1") (js "1:x")) = true
    <-> js "g" = js "g1".
Proof.
  apply (metadata_scans_exact (js "g") (js "1:x") (js "g1") (js "1:x") (js "c") KTable KIndex 1).
  1-5: ascii.
  done.
Defined.

End SyncKeys.
