(* ===== verification/TableIdentity.v ===== *)
(** * Table identity

    Models [packages/quereus-sync/src/metadata/table-identity.ts]: the map from a
    table's name to the generation its row records are filed under, its [tg:]
    records, and the transitions of create, drop and rename.

    A call that stages into a batch returns the operations it appends. [retire]
    awaits a scan between forgetting the name and releasing its record; the two
    halves are [retire_forget] and [retire_release], so that what other calls do
    in between can be said. *)

From S2P Require Import Prelude Bytes Double Decimal Site Hlc KvStore Transaction StoreRead Utf8 Comparison KeySerializer KeyEncoding SyncKeys.
From Stdlib Require Import ZArith Lia.
From stdpp Require Import sorting.
From stdpp Require Import base tactics numbers sets gmap list.
#[local] Open Scope Z_scope.

Import SyncKeys.

Module TableIdentity.

(** ** The record *)

Record TableGeneration := mkGeneration {
  tg_generation : jsstring;
  tg_mintedAt : Z
}.

Definition serializeTableGeneration (record : TableGeneration) : res bytes :=
  let buffer := u8_new (TABLE_GENERATION_BYTES + 8) in
  let* gen := tableGenerationToBytes (tg_generation record) in
  let* buffer := u8_set buffer gen 0 in
  u8_set buffer (be 8 (tg_mintedAt record)) TABLE_GENERATION_BYTES.

Definition deserializeTableGeneration (buffer : bytes) : res TableGeneration :=
  if negb (length buffer =? TABLE_GENERATION_BYTES + 8)%nat
  then Throw (EBadLength (Z.of_nat (length buffer)) (Z.of_nat (TABLE_GENERATION_BYTES + 8)))
  else
    let* generation := tableGenerationFromBytes (slice 0 TABLE_GENERATION_BYTES buffer) in
    let* t := dv_get 8 TABLE_GENERATION_BYTES buffer in
    Ok (mkGeneration generation (Number_of_bigint t)).

(** ** The index *)

Record TableIdentityStore := mkIds {
  byName : gmap jsstring jsstring;
  byGeneration : gmap jsstring (jsstring * jsstring)
}.

Definition index (ids : TableIdentityStore) (schema table generation : jsstring) : TableIdentityStore :=
  mkIds (<[joinKeyParts [schema; table] := generation]> (byName ids))
        (<[generation := (schema, table)]> (byGeneration ids)).

Definition generationOf (ids : TableIdentityStore) (schema table : jsstring) : option jsstring :=
  byName ids !! joinKeyParts [schema; table].

Definition nameOf (ids : TableIdentityStore) (generation : jsstring) : option (jsstring * jsstring) :=
  byGeneration ids !! generation.

(** The loop of [load]; an unparseable key is skipped. *)
Fixpoint load_loop (ids : TableIdentityStore) (entries : list kventry) : res TableIdentityStore :=
  match entries with
  | [] => Ok ids
  | (key, value) :: entries' =>
    match parseTableGenerationKey key with
    | None => load_loop ids entries'
    | Some (schema, table) =>
      let* record := deserializeTableGeneration value in
      load_loop (index ids schema table (tg_generation record)) entries'
    end
  end.

Section Store.
Context {S : Type} `{KVStore S}.

Definition load (kv : S) : res TableIdentityStore :=
  let* entries := kv_iterate kv buildAllTableGenerationScanBounds in
  load_loop (mkIds ∅ ∅) entries.

(** ** Transitions *)

(** The generation, the new index and the staged operations. *)
Definition ensure (ids : TableIdentityStore) (schema table : jsstring) (randomBytes : bytes) (now : Z)
    : res (jsstring * TableIdentityStore * list BatchOp) :=
  match generationOf ids schema table with
  | Some existing => Ok (existing, ids, [])
  | None =>
    let generation := mintTableGeneration randomBytes in
    let* key := buildTableGenerationKey schema table in
    let* value := serializeTableGeneration (mkGeneration generation now) in
    Ok (generation, index ids schema table generation, [OpPut key value])
  end.

(** [retire] up to its first await: the name forgets its generation. *)
Definition retire_forget (ids : TableIdentityStore) (schema table : jsstring)
    : option (jsstring * TableIdentityStore) :=
  match generationOf ids schema table with
  | None => None
  | Some generation =>
    Some (generation, mkIds (delete (joinKeyParts [schema; table]) (byName ids))
                            (delete generation (byGeneration ids)))
  end.

Definition stageRecordDeletions (kv : S) (generation : jsstring) : res (list BatchOp) :=
  let* columns := kv_iterate kv (buildTableColumnVersionScanBounds generation) in
  let* tombstones := kv_iterate kv (buildTombstoneScanBounds generation) in
  Ok (map (fun e => OpDelete e.1) columns ++ map (fun e => OpDelete e.1) tombstones).

(** [retire] after the scan, against the index as it is by then. *)
Definition retire_release (ids : TableIdentityStore) (schema table : jsstring) : res (list BatchOp) :=
  match generationOf ids schema table with
  | None => let* key := buildTableGenerationKey schema table in Ok [OpDelete key]
  | Some _ => Ok []
  end.

(** [retire] with nothing else running during its scan. *)
Definition retire (kv : S) (ids : TableIdentityStore) (schema table : jsstring)
    : res (TableIdentityStore * list BatchOp) :=
  match retire_forget ids schema table with
  | None => Ok (ids, [])
  | Some (generation, ids') =>
    let* records := stageRecordDeletions kv generation in
    let* release := retire_release ids' schema table in
    Ok (ids', records ++ release)
  end.

Definition move (ids : TableIdentityStore) (schema from to : jsstring) (now : Z)
    : res (TableIdentityStore * list BatchOp) :=
  match generationOf ids schema from with
  | None => Ok (ids, [])
  | Some generation =>
    match generationOf ids schema to with
    | Some _ => Throw EMisuse
    | None =>
      let* fromKey := buildTableGenerationKey schema from in
      let* toKey := buildTableGenerationKey schema to in
      let* value := serializeTableGeneration (mkGeneration generation now) in
      let ids' := mkIds (delete (joinKeyParts [schema; from]) (byName ids)) (byGeneration ids) in
      Ok (index ids' schema to generation, [OpDelete fromKey; OpPut toKey value])
    end
  end.

(** [writeIdentityBatch]: the staged write is committed; when staging or the
    commit fails the index is read again from the store. *)
Definition writeIdentityBatch {A} (kv : S) (ids : TableIdentityStore)
    (stage : TableIdentityStore -> res (A * TableIdentityStore * list BatchOp))
    : res (S * TableIdentityStore * res A) :=
  match stage ids with
  | Ok (a, ids', ops) =>
    match kv_write kv ops with
    | Ok kv' => Ok (kv', ids', Ok a)
    | Throw e => let* ids'' := load kv in Ok (kv, ids'', Throw e)
    end
  | Throw e => let* ids'' := load kv in Ok (kv, ids'', Throw e)
  end.

(** ** Schema changes *)

Inductive TableLifecycleChange : Type :=
| CreateTable (schema table : jsstring) (randomBytes : bytes)
| DropTable (schema table : jsstring)
| RenameTable (schema : jsstring) (fromTable : option jsstring) (table : jsstring)
| OtherChange.

Fixpoint applySchemaChangeTransitions (kv : S) (ids : TableIdentityStore) (now : Z)
    (changes : list TableLifecycleChange) : res (TableIdentityStore * list BatchOp) :=
  match changes with
  | [] => Ok (ids, [])
  | change :: changes' =>
    let* x :=
      match change with
      | CreateTable schema table random => let* r := ensure ids schema table random now in Ok (r.1.2, r.2)
      | DropTable schema table => retire kv ids schema table
      | RenameTable schema (Some from) table => move ids schema from table now
      | RenameTable _ None _ | OtherChange => Ok (ids, [])
      end in
    let* y := applySchemaChangeTransitions kv x.1 now changes' in
    Ok (y.1, x.2 ++ y.2)
  end.

End Store.

(** ** The index and its records *)

Definition valid_generation (g : jsstring) : Prop :=
  exists b, wf_bytes b /\ length b = 16%nat /\ g = Site.toBase64Url b.

Definition tg_key (schema table : jsstring) : bytes := buildTablePrefix (js "tg:") schema table.

Definition tg_value (g : jsstring) (t : Z) : bytes := Site.fromBase64Url g ++ be 8 t.

Definition tg_range (k : bytes) : Prop := in_range buildAllTableGenerationScanBounds k = true.

Lemma buildTableGenerationKey_ok schema table :
  text_ok schema -> text_ok table -> buildTableGenerationKey schema table = Ok (tg_key schema table).
Proof. intros Hs Ht. unfold buildTableGenerationKey. by rewrite assertKeyable_ok by by each. Qed.

Lemma tg_range_prefix k : tg_range k <-> exists x, k = TABLE_GENERATION ++ x.
Proof.
  unfold tg_range. change buildAllTableGenerationScanBounds with (prefixBounds TABLE_GENERATION).
  apply prefixBounds_exact; [done|]. repeat constructor; lia.
Qed.

Lemma tg_key_range schema table : tg_range (tg_key schema table).
Proof.
  apply tg_range_prefix. unfold tg_key, buildTablePrefix. rewrite encode_app by ascii. by eexists.
Qed.

Lemma tg_key_text schema table :
  text_ok schema -> text_ok table -> text_ok (js "tg:" ++ joinKeyParts [schema; table]).
Proof. intros. apply text_prefix_parts; [repeat constructor; lia|by each]. Qed.

Lemma tg_key_inj s t s' t' :
  text_ok s -> text_ok t -> text_ok s' -> text_ok t' -> tg_key s t = tg_key s' t' -> s = s' /\ t = t'.
Proof.
  intros Hs Ht Hs' Ht' H. unfold tg_key, buildTablePrefix in H. apply encode_inj in H; [|by apply tg_key_text..].
  apply app_inv_head in H. destruct (join_cancel [s; t] [s'; t'] [] []) as [E _]; [done|by rewrite !app_nil_r|].
  by injection E as -> ->.
Qed.

Lemma join_pair_inj s t s' t' : joinKeyParts [s; t] = joinKeyParts [s'; t'] -> s = s' /\ t = t'.
Proof.
  intros H. destruct (join_cancel [s; t] [s'; t'] [] []) as [E _]; [done|by rewrite !app_nil_r|].
  by injection E as -> ->.
Qed.

Lemma parse_tg_key schema table :
  text_ok schema -> text_ok table -> parseTableGenerationKey (tg_key schema table) = Some (schema, table).
Proof.
  intros Hs Ht. unfold parseTableGenerationKey, tg_key, buildTablePrefix.
  by rewrite (parse_encoded (js "tg:") 2 [schema; table]) by key_args.
Qed.

Lemma generation_bytes g :
  valid_generation g -> length g = 22%nat /\ length (Site.fromBase64Url g) = 16%nat /\
    Site.toBase64Url (Site.fromBase64Url g) = g.
Proof.
  intros (b & Hw & Hl & ->). rewrite Site.base64url_roundtrip by done.
  split; [by apply Site.length_toBase64Url_16|done].
Qed.

Lemma serialize_generation g t :
  valid_generation g -> serializeTableGeneration (mkGeneration g t) = Ok (tg_value g t).
Proof.
  intros Hg. destruct (generation_bytes g Hg) as (L22 & L16 & _).
  unfold serializeTableGeneration, tableGenerationToBytes. cbn [tg_generation tg_mintedAt]. rewrite L22. cbn [Nat.eqb negb res_bind].
  change (u8_new (TABLE_GENERATION_BYTES + 8)) with ([] ++ u8_new 16 ++ u8_new 8).
  rewrite u8_set_at by (done || by rewrite L16). cbn [res_bind]. rewrite app_nil_l.
  pose proof (u8_set_at (Site.fromBase64Url g) (u8_new 8) [] (be 8 t) 16 L16 eq_refl) as E.
  by rewrite !app_nil_r in E.
Qed.

Lemma deserialize_generation g t :
  valid_generation g -> 0 <= t < 2 ^ 53 ->
  deserializeTableGeneration (tg_value g t) = Ok (mkGeneration g t).
Proof.
  intros Hg Ht. destruct (generation_bytes g Hg) as (L22 & L16 & Hg').
  pose proof (slice_app_l (Site.fromBase64Url g) (be 8 t)) as E1. rewrite L16 in E1.
  pose proof (dv_get_mid (Site.fromBase64Url g) (be 8 t) [] 8 16 L16 eq_refl) as E2. rewrite app_nil_r in E2.
  unfold deserializeTableGeneration, tg_value, TABLE_GENERATION_BYTES. rewrite length_app, L16, length_be.
  cbn [Nat.eqb Nat.add negb]. rewrite E1, E2. unfold tableGenerationFromBytes. rewrite L16. cbn [Nat.eqb negb res_bind TABLE_GENERATION_BYTES].
  rewrite unbe_be_small by (cbn; lia). rewrite Number_of_bigint_exact by lia. by rewrite Hg'.
Qed.

(** What the index says of a store's content [m]: it is a bijection between
    names and generations, every name has its record, and every [tg:] record is
    of an indexed name. A drop under way may leave the record of its name,
    [stale]. *)
Record consistent (stale : option (jsstring * jsstring)) (ids : TableIdentityStore) (m : kvmap) : Prop := {
  c_name n g : byName ids !! n = Some g ->
    exists schema table t, n = joinKeyParts [schema; table] /\ text_ok schema /\ text_ok table /\
      byGeneration ids !! g = Some (schema, table) /\ valid_generation g /\
      0 <= t < 2 ^ 53 /\ m !! tg_key schema table = Some (tg_value g t);
  c_gen g schema table : byGeneration ids !! g = Some (schema, table) -> generationOf ids schema table = Some g;
  c_disk k v : tg_range k -> m !! k = Some v ->
    exists schema table, text_ok schema /\ text_ok table /\ k = tg_key schema table /\
      (is_Some (generationOf ids schema table) \/ stale = Some (schema, table))
}.

Lemma generation_name stale ids m schema table g :
  consistent stale ids m -> generationOf ids schema table = Some g ->
  byGeneration ids !! g = Some (schema, table) /\ valid_generation g /\ text_ok schema /\ text_ok table /\
  exists t, 0 <= t < 2 ^ 53 /\ m !! tg_key schema table = Some (tg_value g t).
Proof.
  intros Hc Hg. destruct (c_name _ _ _ Hc _ _ Hg) as (s & t & t0 & Hn & Hs & Ht & Hb & Hv & Hb0 & Hm).
  apply join_pair_inj in Hn as [-> ->]. split_and!; try done. by exists t0.
Qed.

Lemma consistent_frame stale ids m m' :
  (forall k, tg_range k -> m' !! k = m !! k) -> consistent stale ids m -> consistent stale ids m'.
Proof.
  intros Hf [H1 H2 H3]. split; [|done|].
  - intros n g Hn. destruct (H1 n g Hn) as (s & t & t0 & ? & ? & ? & ? & ? & ? & Hm).
    exists s, t, t0. rewrite Hf by apply tg_key_range. done.
  - intros k v Hk. rewrite Hf by done. by apply H3.
Qed.

(** ** Reading the index back *)

(** An entry that records a binding of the index [tgt]. *)
Definition records (tgt : TableIdentityStore) (e : kventry) : Prop :=
  exists schema table g t, text_ok schema /\ text_ok table /\ valid_generation g /\ 0 <= t < 2 ^ 53 /\
    e = (tg_key schema table, tg_value g t) /\
    generationOf tgt schema table = Some g /\ byGeneration tgt !! g = Some (schema, table).

Definition below (ids tgt : TableIdentityStore) : Prop :=
  byName ids ⊆ byName tgt /\ byGeneration ids ⊆ byGeneration tgt.

Lemma insert_sub {A B} `{Countable A} (m tgt : gmap A B) k v : m ⊆ tgt -> tgt !! k = Some v -> <[k := v]> m ⊆ tgt.
Proof. intros Hm Hk. by apply insert_subseteq_l. Qed.

Lemma load_loop_spec tgt entries ids :
  below ids tgt -> Forall (records tgt) entries ->
  exists ids', load_loop ids entries = Ok ids' /\ below ids ids' /\ below ids' tgt /\
    forall schema table g v, (tg_key schema table, v) ∈ entries -> text_ok schema -> text_ok table ->
      generationOf tgt schema table = Some g ->
      generationOf ids' schema table = Some g /\ byGeneration ids' !! g = Some (schema, table).
Proof.
  intros Hb He. revert ids Hb. induction He as [|e entries Hr He IH]; intros ids Hb.
  - exists ids. split; [done|]. split; [by split|]. split; [done|]. intros ? ? ? ? Hin. by apply elem_of_nil in Hin.
  - destruct Hr as (schema & table & g & t & Hs & Ht & Hg & Hb0 & -> & Hn & Hgn).
    cbn [load_loop]. rewrite parse_tg_key, deserialize_generation by done. cbn [res_bind tg_generation].
    assert (below (index ids schema table g) tgt) as Hb'.
    { destruct Hb as [H1 H2]. split; by apply insert_sub. }
    destruct (IH _ Hb') as (ids' & -> & [H1 H2] & Hb2 & Hall). exists ids'. split; [done|].
    assert (below ids (index ids schema table g)) as [H3 H4].
    { destruct Hb as [B1 B2]. split; apply map_subseteq_spec; intros k x Hk; cbn.
      - destruct (decide (k = joinKeyParts [schema; table])) as [->|Hne]; [|by rewrite lookup_insert_ne].
        rewrite lookup_insert_eq. apply (lookup_weaken _ _ _ _ Hk) in B1. unfold generationOf in Hn. congruence.
      - destruct (decide (k = g)) as [->|Hne]; [|by rewrite lookup_insert_ne].
        rewrite lookup_insert_eq. apply (lookup_weaken _ _ _ _ Hk) in B2. congruence. }
    split; [split; by etrans|]. split; [done|]. intros s' t' g' v Hin Hs' Ht' Hg'.
    apply elem_of_cons in Hin as [E|Hin]; [|by eapply Hall].
    apply (f_equal fst) in E. cbn [fst] in E. apply tg_key_inj in E as [-> ->]; [|done..].
    rewrite Hg' in Hn. injection Hn as ->.
    split; [eapply (lookup_weaken _ _ _ _ _ H1)|eapply (lookup_weaken _ _ _ _ _ H2)]. Unshelve.
    all: apply lookup_insert_eq.
Qed.

(** ** Transitions keep the index true *)

Lemma generationOf_index_ne ids schema table g s t :
  (s, t) <> (schema, table) -> generationOf (index ids schema table g) s t = generationOf ids s t.
Proof.
  intros Hne. unfold generationOf, index. cbn [byName]. rewrite lookup_insert_ne; [done|].
  intros E. apply join_pair_inj in E as [-> ->]. done.
Qed.

Lemma generationOf_index ids schema table g : generationOf (index ids schema table g) schema table = Some g.
Proof. apply lookup_insert_eq. Qed.

(** A free name gets a generation no name has. *)
Lemma bind_consistent stale ids m schema table g t :
  consistent stale ids m -> text_ok schema -> text_ok table -> valid_generation g -> 0 <= t < 2 ^ 53 ->
  generationOf ids schema table = None -> byGeneration ids !! g = None ->
  consistent stale (index ids schema table g) (<[tg_key schema table := tg_value g t]> m).
Proof.
  intros Hc Hs Ht Hg Hb Hn Hf. split.
  - intros n g' Hn'. cbn [index byName byGeneration] in *.
    apply lookup_insert_Some in Hn' as [[<- <-]|[Hne Hn']].
    + exists schema, table, t. rewrite !lookup_insert_eq. done.
    + destruct (c_name _ _ _ Hc n g' Hn') as (s & t' & t0 & -> & Hs' & Ht' & Hgn & Hv & Hb0 & Hm).
      exists s, t', t0. split_and!; try done; try lia.
      * rewrite lookup_insert_ne; [done|]. intros ->. by rewrite Hf in Hgn.
      * rewrite lookup_insert_ne; [done|]. intros E. apply tg_key_inj in E as [-> ->]; done.
  - intros g' s t' Hg'. cbn [index byGeneration] in Hg'.
    apply lookup_insert_Some in Hg' as [[<- [= <- <-]]|[Hne Hg']]; [apply generationOf_index|].
    pose proof (c_gen _ _ _ Hc g' s t' Hg') as E. rewrite generationOf_index_ne; [done|].
    intros [= -> ->]. by rewrite Hn in E.
  - intros k v Hk Hv. apply lookup_insert_Some in Hv as [[<- _]|[_ Hv]].
    + exists schema, table. split_and!; try done. left. rewrite generationOf_index. by eexists.
    + destruct (c_disk _ _ _ Hc k v Hk Hv) as (s & t' & Hs' & Ht' & -> & Hor).
      exists s, t'. split_and!; try done. destruct Hor as [Hor|Hor]; [left|by right].
      destruct (decide ((s, t') = (schema, table))) as [[= -> ->]|Hne]; [by rewrite generationOf_index|].
      by rewrite generationOf_index_ne.
Qed.

(** A name loses its generation; its record stays until it is released. *)
Lemma forget_consistent ids m schema table g ids' :
  consistent None ids m -> retire_forget ids schema table = Some (g, ids') ->
  consistent (Some (schema, table)) ids' m /\ generationOf ids' schema table = None.
Proof.
  intros Hc. unfold retire_forget. destruct (generationOf ids schema table) as [g0|] eqn:Eg; [|done].
  intros E. injection E as <- <-. destruct (generation_name _ _ _ _ _ _ Hc Eg) as (Hn & _ & Hs & Ht & _).
  split; [|apply lookup_delete_eq]. split.
  - intros n g' Hn'. cbn [byName byGeneration] in *. apply lookup_delete_Some in Hn' as [Hne Hn'].
    destruct (c_name _ _ _ Hc n g' Hn') as (s & t & t0 & -> & H1 & H2 & H3 & H4).
    exists s, t, t0. split_and!; try done; try apply H4. rewrite lookup_delete_ne; [done|]. intros ->. congruence.
  - intros g' s t Hg'. cbn [byGeneration] in Hg'. apply lookup_delete_Some in Hg' as [Hne Hg'].
    pose proof (c_gen _ _ _ Hc g' s t Hg') as E. unfold generationOf in *. cbn [byName].
    rewrite lookup_delete_ne; [done|]. intros Ej. rewrite Ej in Eg. congruence.
  - intros k v Hk Hv. destruct (c_disk _ _ _ Hc k v Hk Hv) as (s & t & Hs' & Ht' & -> & [Hor|?]); [|done].
    exists s, t. split_and!; try done. destruct (decide ((s, t) = (schema, table))) as [[= -> ->]|Hne]; [by right|left].
    unfold generationOf in *. cbn [byName]. rewrite lookup_delete_ne; [done|].
    intros Ej. apply join_pair_inj in Ej as [-> ->]. done.
Qed.

Lemma release_consistent ids m schema table :
  text_ok schema -> text_ok table -> consistent (Some (schema, table)) ids m ->
  exists ops, retire_release ids schema table = Ok ops /\ consistent None ids (apply_ops m ops).
Proof.
  intros Hs Ht Hc. unfold retire_release. destruct (generationOf ids schema table) as [g|] eqn:Eg.
  - exists []. split; [done|]. split; [apply Hc|apply Hc|]. cbn [apply_ops foldl]. intros k v Hk Hv.
    destruct (c_disk _ _ _ Hc k v Hk Hv) as (s & t & Hs' & Ht' & -> & Hor). exists s, t. split_and!; try done. left.
    destruct Hor as [Hor|[= <- <-]]; [done|]. rewrite Eg. by eexists.
  - rewrite buildTableGenerationKey_ok by done. eexists. split; [done|]. cbn [apply_ops foldl apply_op]. split.
    + intros n g Hn. destruct (c_name _ _ _ Hc n g Hn) as (s & t & t0 & -> & H1 & H2 & H3 & H4 & H5 & Hm).
      exists s, t, t0. split_and!; try done; try lia. rewrite lookup_delete_ne; [done|].
      intros E. apply tg_key_inj in E as [-> ->]; [|done..]. unfold generationOf in Eg. congruence.
    + apply Hc.
    + intros k v Hk Hv. apply lookup_delete_Some in Hv as [Hne Hv].
      destruct (c_disk _ _ _ Hc k v Hk Hv) as (s & t & Hs' & Ht' & -> & Hor). exists s, t. split_and!; try done. left.
      destruct Hor as [Hor|[= <- <-]]; done.
Qed.

(** A rename: the generation moves with its record. *)
Lemma move_consistent stale ids m schema from to now :
  consistent stale ids m -> text_ok schema -> text_ok to -> 0 <= now < 2 ^ 53 ->
  match move ids schema from to now with
  | Ok (ids', ops) => consistent stale ids' (apply_ops m ops)
  | Throw e => e = EMisuse /\ is_Some (generationOf ids schema from) /\ is_Some (generationOf ids schema to)
  end.
Proof.
  intros Hc Hs Hto Hb. unfold move. destruct (generationOf ids schema from) as [g|] eqn:Ef; [|done].
  destruct (generationOf ids schema to) as [g'|] eqn:Et; [split_and!; by eexists|].
  destruct (generation_name _ _ _ _ _ _ Hc Ef) as (Hn & Hv & _ & Hfrom & t0 & Hb0 & Hm).
  rewrite !buildTableGenerationKey_ok, serialize_generation by done. cbn [res_bind apply_ops foldl apply_op].
  set (ids0 := mkIds (delete (joinKeyParts [schema; from]) (byName ids)) (delete g (byGeneration ids))).
  assert (index (mkIds (delete (joinKeyParts [schema; from]) (byName ids)) (byGeneration ids)) schema to g
          = index ids0 schema to g) as ->.
  { unfold ids0, index. cbn [byName byGeneration]. by rewrite insert_delete_eq. }
  assert (consistent stale ids0 (delete (tg_key schema from) m)) as Hc0.
  { split.
    - intros n x Hx. cbn [ids0 byName byGeneration] in *. apply lookup_delete_Some in Hx as [Hne Hx].
      destruct (c_name _ _ _ Hc n x Hx) as (s & t & t1 & -> & H1 & H2 & H3 & H4 & H5 & H6).
      exists s, t, t1. split_and!; try done; try lia.
      + rewrite lookup_delete_ne; [done|]. intros ->. congruence.
      + rewrite lookup_delete_ne; [done|]. intros E. apply tg_key_inj in E as [-> ->]; done.
    - intros x s t Hx. cbn [ids0 byGeneration] in Hx. apply lookup_delete_Some in Hx as [Hne Hx].
      pose proof (c_gen _ _ _ Hc x s t Hx) as E. unfold generationOf in *. cbn [ids0 byName].
      rewrite lookup_delete_ne; [done|]. intros Ej. rewrite Ej in Ef. congruence.
    - intros k v Hk Hkv. apply lookup_delete_Some in Hkv as [Hne Hkv].
      destruct (c_disk _ _ _ Hc k v Hk Hkv) as (s & t & H1 & H2 & -> & Hor). exists s, t. split_and!; try done.
      destruct Hor as [Hor|Hor]; [left|by right]. unfold generationOf in *. cbn [ids0 byName].
      rewrite lookup_delete_ne; [done|]. intros Ej. apply join_pair_inj in Ej as [-> ->]. done. }
  apply bind_consistent; try done.
  - unfold generationOf in *. cbn [ids0 byName]. by apply lookup_delete_None; right.
  - apply lookup_delete_eq.
Qed.

Section Tracks.
Context {S : Type} `{KVStoreLaws S}.

Lemma wf_prefix_options p : wf_bytes p -> wf_bytes (incrementLastByte p) -> wf_options (prefixBounds p).
Proof. intros. by repeat split. Qed.

Lemma load_consistent kv ids :
  kv_ok kv -> consistent None ids (kv_abs kv) -> load kv = Ok ids.
Proof.
  intros Hok Hc. unfold load. rewrite kv_iterate_spec; [|done|by repeat split; repeat constructor].
  cbn [res_bind]. set (entries := spec_iterate _ _).
  assert (forall e, e ∈ entries <-> tg_range e.1 /\ kv_abs kv !! e.1 = Some e.2) as Hel.
  { intros e. by apply StoreRead.elem_of_spec_iterate. }
  destruct (load_loop_spec ids entries (mkIds ∅ ∅)) as (ids' & E & _ & [B1 B2] & Hall).
  - split; apply map_empty_subseteq.
  - apply Forall_forall. intros [k v] Hin. apply Hel in Hin as [Hk Hv]. cbn in Hk, Hv.
    destruct (c_disk _ _ _ Hc k v Hk Hv) as (schema & table & Hs & Ht & -> & [[g Hg]|?]); [|done].
    destruct (generation_name _ _ _ _ _ _ Hc Hg) as (Hn & Hvg & _ & _ & t & Hb & Hm).
    exists schema, table, g, t. rewrite Hm in Hv. injection Hv as <-. done.
  - rewrite E. f_equal.
    assert (forall schema table g, generationOf ids schema table = Some g ->
      generationOf ids' schema table = Some g /\ byGeneration ids' !! g = Some (schema, table)) as Hb.
    { intros schema table g Hg. destruct (generation_name _ _ _ _ _ _ Hc Hg) as (_ & _ & Hs & Ht & t & _ & Hm).
      apply (Hall schema table g (tg_value g t)); try done. apply Hel. split; [apply tg_key_range|done]. }
    assert (byName ids ⊆ byName ids' /\ byGeneration ids ⊆ byGeneration ids') as [B3 B4].
    { split; apply map_subseteq_spec.
      - intros n g Hn. destruct (c_name _ _ _ Hc n g Hn) as (s & t & t0 & -> & _). by apply Hb.
      - intros g [s t] Hg. by apply Hb, (c_gen _ _ _ Hc). }
    destruct ids as [N G], ids' as [N' G']. cbn in *. f_equal; by apply (anti_symm (⊆)).
Qed.

Lemma increment_wf p :
  p <> [] -> Forall (fun b => 0 <= b < 255) p -> wf_bytes p /\ wf_bytes (incrementLastByte p).
Proof.
  intros Hne Hp. destruct (exists_last Hne) as (q & b & ->). apply Forall_app in Hp as [Hq Hb].
  apply Forall_cons in Hb as [Hb _]. rewrite incrementLastByte_snoc by lia.
  assert (wf_bytes q) by (eapply Forall_impl; [exact Hq|]; unfold is_byte; cbn; lia).
  split; apply wf_app; (split; [done|]); apply wf_cons; (split; [unfold is_byte; lia|constructor]).
Qed.

Lemma scan_options_wf p : text_ok p -> p <> [] -> wf_options (prefixBounds (encode p)).
Proof.
  intros Hp Hne. destruct (increment_wf (encode p)) as [H1 H2]; [|by apply encode_low|by apply wf_prefix_options].
  intros E. by apply Hne, encode_nil.
Qed.

Lemma scanned_not_tg (a b : Z) generation k :
  text_ok generation -> 0 <= a < 128 -> 0 <= b < 128 -> [a; b] <> [116; 103] ->
  in_range (prefixBounds (buildGenerationPrefix [a; b; 58] generation)) k = true -> ~ tg_range k.
Proof.
  intros Hg Ha Hb Hne Hk Ht. unfold buildGenerationPrefix in Hk.
  assert (text_ok ([a; b; 58] ++ joinKeyParts [generation])) as Hp
    by (apply text_prefix_parts; [repeat constructor; lia|by each]).
  apply prefixBounds_exact in Hk as [x ->]; [|intros E; by apply encode_nil in E|by apply encode_low].
  apply tg_range_prefix in Ht as [y Hy]. rewrite encode_app, <- app_assoc in Hy by ascii.
  assert (encode [a; b; 58] = [a; b; 58]) as E.
  { unfold encode, Utf8.utf8_encode, Utf8.utf8_cps. cbn [Utf8.code_points]. unfold Utf8.is_high, Utf8.is_low, Utf8.within.
    destruct (Z.leb_spec 0xD800 a), (Z.leb_spec 0xDC00 a), (Z.leb_spec 0xD800 b), (Z.leb_spec 0xDC00 b); try lia. cbn [andb map concat app].
    unfold Utf8.utf8_cp. by rewrite !(proj2 (Z.ltb_lt _ _)) by lia. }
  rewrite E in Hy. change TABLE_GENERATION with [116; 103; 58] in Hy. cbn [app] in Hy. by injection Hy as -> ->.
Qed.

Lemma apply_deletes_frame (P : bytes -> Prop) ops m k :
  Forall (fun op => exists d, op = OpDelete d /\ ~ P d) ops -> P k -> apply_ops m ops !! k = m !! k.
Proof.
  intros Hops Hk. revert m. induction Hops as [|op ops (d & -> & Hd) Hops IH]; intros m; [done|].
  change (apply_ops (delete d m) ops !! k = m !! k). rewrite IH, lookup_delete_ne; [done|]. by intros ->.
Qed.

Lemma valid_generation_text g : valid_generation g -> text_ok g.
Proof. intros (b & Hw & _ & ->). by apply text_ascii, b64_ascii. Qed.

Lemma record_deletions kv generation :
  kv_ok kv -> valid_generation generation ->
  exists ops, stageRecordDeletions kv generation = Ok ops /\
    Forall (fun op => exists d, op = OpDelete d /\ ~ tg_range d) ops /\
    Forall (fun op => wf_bytes (op_key op)) ops.
Proof.
  intros Hok Hg%valid_generation_text. unfold stageRecordDeletions, buildTableColumnVersionScanBounds, buildTombstoneScanBounds.
  assert (forall p : jsstring, (p = js "cv:" \/ p = js "tb:") -> wf_options (prefixBounds (buildGenerationPrefix p generation))) as Hwf.
  { intros p Hp. apply scan_options_wf; [|by destruct Hp as [-> | ->]].
    apply text_prefix_parts; [destruct Hp as [-> | ->]; repeat constructor; lia|by each]. }
  rewrite !kv_iterate_spec by auto. cbn [res_bind]. eexists. split; [done|].
  assert (forall p : jsstring, (p = js "cv:" \/ p = js "tb:") ->
    Forall (fun e => ~ tg_range e.1 /\ wf_bytes e.1) (spec_iterate (prefixBounds (buildGenerationPrefix p generation)) (kv_abs kv))) as Hf.
  { intros p Hp. apply Forall_forall. intros [k v] Hin.
    apply StoreRead.elem_of_spec_iterate in Hin as [Hr Hm]; [|done]. cbn in Hr, Hm. split; [|by eapply kv_abs_wf].
    destruct Hp as [-> | ->]; [by apply (scanned_not_tg 99 118 generation)|by apply (scanned_not_tg 116 98 generation)]. }
  rewrite !Forall_app, !Forall_map. split_and!.
  all: eapply Forall_impl; [apply Hf; auto|]; unfold compose; cbn; intros e [H1 H2]; eauto.
Qed.

Lemma ensure_consistent stale ids m schema table random now :
  consistent stale ids m -> text_ok schema -> text_ok table -> wf_bytes random -> length random = 16%nat ->
  byGeneration ids !! Site.toBase64Url random = None -> 0 <= now < 2 ^ 53 ->
  exists g ids' ops, ensure ids schema table random now = Ok (g, ids', ops) /\
    consistent stale ids' (apply_ops m ops) /\ Forall (fun op => wf_bytes (op_key op)) ops /\
    (forall g', g' <> Site.toBase64Url random -> byGeneration ids !! g' = None -> byGeneration ids' !! g' = None).
Proof.
  intros Hc Hs Ht Hw Hl Hf Hb. unfold ensure. destruct (generationOf ids schema table) as [g|] eqn:Eg.
  - exists g, ids, []. done.
  - unfold mintTableGeneration. assert (valid_generation (Site.toBase64Url random)) as Hv by by exists random.
    rewrite buildTableGenerationKey_ok, serialize_generation by done. do 3 eexists. split; [done|].
    split; [by apply bind_consistent|]. split.
    + apply Forall_singleton. cbn [op_key]. by apply encode_wf, tg_key_text.
    + intros g' Hne Hg'. cbn. by rewrite lookup_insert_ne.
Qed.

Definition mint_of (c : TableLifecycleChange) : list jsstring :=
  match c with
  | CreateTable _ _ random => [Site.toBase64Url random]
  | _ => []
  end.

Definition mints (changes : list TableLifecycleChange) : list jsstring := concat (map mint_of changes).

Definition wf_change (c : TableLifecycleChange) : Prop :=
  match c with
  | CreateTable schema table random => text_ok schema /\ text_ok table /\ wf_bytes random /\ length random = 16%nat
  | DropTable schema table => text_ok schema /\ text_ok table
  | RenameTable schema _ table => text_ok schema /\ text_ok table
  | OtherChange => True
  end.

Definition is_drop (c : TableLifecycleChange) : Prop := match c with DropTable _ _ => True | _ => False end.

(** Generations are 128 random bits: no two mints agree, and none agrees with
    one in use. *)
Definition fresh (ids : TableIdentityStore) (gs : list jsstring) : Prop :=
  NoDup gs /\ Forall (fun g => byGeneration ids !! g = None) gs.

Definition ops_wf (ops : list BatchOp) : Prop := Forall (fun op => wf_bytes (op_key op)) ops.

Lemma apply_ops_app m ops ops' : apply_ops m (ops ++ ops') = apply_ops (apply_ops m ops) ops'.
Proof. apply foldl_app. Qed.

Lemma retire_consistent kv ids m schema table :
  kv_ok kv -> consistent None ids m -> text_ok schema -> text_ok table ->
  exists ids' ops, retire kv ids schema table = Ok (ids', ops) /\ consistent None ids' (apply_ops m ops) /\
    ops_wf ops /\ (forall g, byGeneration ids !! g = None -> byGeneration ids' !! g = None).
Proof.
  intros Hok Hc Hs Ht. unfold retire. destruct (retire_forget ids schema table) as [[g ids']|] eqn:Ef.
  2: { exists ids, []. split_and!; try done. constructor. }
  assert (valid_generation g) as Hg.
  { unfold retire_forget in Ef. destruct (generationOf ids schema table) as [g0|] eqn:Eg; [|done].
    injection Ef as <- _. by apply (generation_name _ _ _ _ _ _ Hc Eg). }
  destruct (forget_consistent ids m schema table g ids' Hc Ef) as [Hc1 Hn1].
  destruct (record_deletions kv g Hok Hg) as (recs & -> & Hdel & Hwf). cbn [res_bind].
  destruct (release_consistent ids' (apply_ops m recs) schema table Hs Ht) as (rel & Er & Hc2).
  { eapply consistent_frame; [|exact Hc1]. intros k Hk. by apply (apply_deletes_frame tg_range). }
  rewrite Er. cbn [res_bind]. do 2 eexists. split; [done|]. rewrite apply_ops_app. split; [done|]. split.
  - apply Forall_app. split; [done|]. unfold retire_release in Er. rewrite Hn1, buildTableGenerationKey_ok in Er by done.
    injection Er as <-. apply Forall_singleton. by apply encode_wf, tg_key_text.
  - intros g' Hg'. unfold retire_forget in Ef. destruct (generationOf ids schema table); [|done].
    injection Ef as _ <-. apply lookup_delete_None. by right.
Qed.

Lemma move_wf ids schema from to now ids' ops m stale :
  consistent stale ids m -> text_ok schema -> text_ok to -> move ids schema from to now = Ok (ids', ops) ->
  ops_wf ops /\ (forall g, byGeneration ids !! g = None -> byGeneration ids' !! g = None).
Proof.
  intros Hc Hs Ht. unfold move. destruct (generationOf ids schema from) as [g|] eqn:Ef.
  2: { intros E. injection E as <- <-. split; [constructor|done]. }
  destruct (generationOf ids schema to); [done|].
  destruct (generation_name _ _ _ _ _ _ Hc Ef) as (Hn & Hv & _ & Hfrom & _).
  rewrite !buildTableGenerationKey_ok, serialize_generation by done. intros E. injection E as <- <-. split.
  - apply Forall_cons_2; [|apply Forall_singleton]; cbn [op_key]; by apply encode_wf, tg_key_text.
  - intros g' Hg'. cbn. rewrite lookup_insert_ne; [done|]. intros ->. congruence.
Qed.

Lemma transitions_consistent stale kv ids m now changes :
  kv_ok kv -> consistent stale ids m -> 0 <= now < 2 ^ 53 -> Forall wf_change changes ->
  fresh ids (mints changes) -> (stale = None \/ Forall (fun c => ~ is_drop c) changes) ->
  match applySchemaChangeTransitions kv ids now changes with
  | Ok (ids', ops) => consistent stale ids' (apply_ops m ops) /\ ops_wf ops
  | Throw e => e = EMisuse
  end.
Proof.
  intros Hok Hc Hb Hw Hf Hd. revert ids m Hc Hf.
  induction Hw as [|c changes Hwc Hw IH]; intros ids m Hc [Hnd Hfr]; [by split; [|constructor]|].
  assert (stale = None \/ Forall (fun c => ~ is_drop c) changes) as Hd'.
  { destruct Hd as [->|Hd]; [by left|right]. by apply Forall_cons in Hd as [_ Hd]. }
  unfold mints in Hnd, Hfr. cbn [map concat] in Hnd, Hfr. apply NoDup_app in Hnd as (_ & Hdis & Hnd).
  apply Forall_app in Hfr as [Hfc Hfr]. fold (mints changes) in Hnd, Hfr, Hdis. cbn [applySchemaChangeTransitions].
  set (step := match c with CreateTable _ _ _ => _ | _ => _ end).
  assert (match step with
          | Ok (ids1, ops1) => consistent stale ids1 (apply_ops m ops1) /\ ops_wf ops1 /\ fresh ids1 (mints changes)
          | Throw e => e = EMisuse
          end) as Hstep.
  { unfold step. destruct c as [schema table random|schema table|schema [from|] table|]; cbn in Hwc.
    - destruct Hwc as (Hs & Ht & Hwr & Hlr). cbn [mint_of] in Hfc. apply Forall_cons in Hfc as [Hfc _].
      destruct (ensure_consistent stale ids m schema table random now Hc Hs Ht Hwr Hlr Hfc Hb)
        as (g & ids1 & ops1 & -> & Hc1 & Ho1 & Hg1). cbn. split_and!; try done.
      split; [done|]. rewrite Forall_forall in *. intros g' Hg'. apply Hg1; [|by apply Hfr].
      intros ->. apply (Hdis (Site.toBase64Url random)); [by apply list_elem_of_singleton|done].
    - destruct Hwc as [Hs Ht]. destruct Hd as [->|Hd]; [|by apply Forall_cons in Hd as [[] _]].
      destruct (retire_consistent kv ids m schema table Hok Hc Hs Ht) as (ids1 & ops1 & -> & Hc1 & Ho1 & Hg1).
      split_and!; try done. split; [done|]. eapply Forall_impl; [exact Hfr|]. auto.
    - destruct Hwc as [Hs Ht]. pose proof (move_consistent stale ids m schema from table now Hc Hs Ht Hb) as Hm.
      destruct (move ids schema from table now) as [[ids1 ops1]|e] eqn:E; [|by destruct Hm].
      destruct (move_wf _ _ _ _ _ _ _ _ _ Hc Hs Ht E) as [Ho1 Hg1]. split_and!; try done. split; [done|].
      eapply Forall_impl; [exact Hfr|]. auto.
    - split_and!; try done. constructor.
    - split_and!; try done. constructor. }
  destruct step as [[ids1 ops1]|e]; [|done]. destruct Hstep as (Hc1 & Ho1 & Hf1). cbn [res_bind fst snd].
  specialize (IH Hd' ids1 _ Hc1 Hf1). destruct (applySchemaChangeTransitions _ _ _ _) as [[ids2 ops2]|e]; [|done].
  cbn [res_bind fst snd]. destruct IH as [Hc2 Ho2]. rewrite apply_ops_app. split; [done|]. by apply Forall_app.
Qed.

(** C12: The in-memory index never drifts from the store: after any create,
    drop and rename steps, committing what they staged and reading the index
    again gives the index in memory, a bijection between live names and their
    generations. The steps fail only on a rename onto a name that has its own
    generation. *)
Theorem identity_survives_reload (kv : S) (ids : TableIdentityStore) (now : Z)
    (changes : list TableLifecycleChange) :
  kv_ok kv -> consistent None ids (kv_abs kv) -> 0 <= now < 2 ^ 53 -> Forall wf_change changes ->
  fresh ids (mints changes) ->
  match applySchemaChangeTransitions kv ids now changes with
  | Ok (ids', ops) =>
    (exists kv', kv_write kv ops = Ok kv' /\ load kv' = Ok ids') /\
    (forall schema table g, generationOf ids' schema table = Some g <-> nameOf ids' g = Some (schema, table))
  | Throw e => e = EMisuse
  end.
Proof.
  intros Hok Hc Hb Hw Hf.
  pose proof (transitions_consistent None kv ids (kv_abs kv) now changes Hok Hc Hb Hw Hf (or_introl eq_refl)) as Ht.
  destruct (applySchemaChangeTransitions kv ids now changes) as [[ids' ops]|e]; [|done].
  destruct Ht as [Hc' Ho]. destruct (kv_write_spec kv ops Hok Ho) as (kv' & Ew & Hok' & Ha). split.
  - exists kv'. split; [done|]. apply load_consistent; [done|]. by rewrite Ha.
  - intros schema table g. split; [intros Hg; by apply (generation_name _ _ _ _ _ _ Hc' Hg)|apply (c_gen _ _ _ Hc')].
Qed.

(** C11: A drop does not take a newer table with it. While a drop scans for the
    records of the generation it retired, another batch may create or rename
    tables, onto the dropped name included; when the drop then commits, reading
    the index again gives exactly the tables the index holds, and the name
    resolves on disk to its new generation. *)
Theorem drop_spares_new_table (kv kv2 : S) (ids ids1 ids2 : TableIdentityStore) (schema table g : jsstring)
    (now : Z) (changes : list TableLifecycleChange) (ops : list BatchOp) :
  kv_ok kv -> consistent None ids (kv_abs kv) -> 0 <= now < 2 ^ 53 ->
  retire_forget ids schema table = Some (g, ids1) ->
  Forall wf_change changes -> Forall (fun c => ~ is_drop c) changes -> fresh ids1 (mints changes) ->
  applySchemaChangeTransitions kv ids1 now changes = Ok (ids2, ops) -> kv_write kv ops = Ok kv2 ->
  exists records release kv3,
    stageRecordDeletions kv2 g = Ok records /\ retire_release ids2 schema table = Ok release /\
    kv_write kv2 (records ++ release) = Ok kv3 /\ load kv3 = Ok ids2.
Proof.
  intros Hok Hc Hb Hfo Hw Hnd Hf Ha Hwr.
  assert (exists g0, generationOf ids schema table = Some g0 /\ g0 = g) as (g0 & Eg & ->).
  { unfold retire_forget in Hfo. destruct (generationOf ids schema table) as [g0|]; [|done]. exists g0. by injection Hfo as ->. }
  destruct (generation_name _ _ _ _ _ _ Hc Eg) as (_ & Hv & Hs & Ht & _).
  destruct (forget_consistent _ _ _ _ _ _ Hc Hfo) as [Hc1 _].
  pose proof (transitions_consistent _ kv ids1 _ now changes Hok Hc1 Hb Hw Hf (or_intror Hnd)) as Htr.
  rewrite Ha in Htr. destruct Htr as [Hc2 Ho].
  destruct (kv_write_spec kv ops Hok Ho) as (kv' & Ew & Hok2 & Ha2). rewrite Ew in Hwr. injection Hwr as ->.
  rewrite <- Ha2 in Hc2. destruct (record_deletions kv2 g Hok2 Hv) as (recs & Er & Hdel & Hrw).
  destruct (release_consistent ids2 (apply_ops (kv_abs kv2) recs) schema table Hs Ht) as (rel & Erel & Hc3).
  { eapply consistent_frame; [|exact Hc2]. intros k Hk. by apply (apply_deletes_frame tg_range). }
  assert (ops_wf rel) as Hrel.
  { unfold retire_release in Erel. destruct (generationOf ids2 schema table); [injection Erel as <-; constructor|].
    rewrite buildTableGenerationKey_ok in Erel by done. injection Erel as <-.
    apply Forall_singleton. by apply encode_wf, tg_key_text. }
  destruct (kv_write_spec kv2 (recs ++ rel) Hok2) as (kv3 & Ew3 & Hok3 & Ha3); [by apply Forall_app|].
  exists recs, rel, kv3. split_and!; try done. apply load_consistent; [done|]. by rewrite Ha3, apply_ops_app.
Qed.

End Tracks.

(** ** Witnesses *)

Definition toy_random (n : Z) : bytes := replicate 16 n.

Lemma toy_consistent : consistent None (mkIds ∅ ∅) (kv_abs MemoryStore.new_store).
Proof. split; intros *; rewrite ?lookup_empty; done. Qed.

Definition toy_changes : list TableLifecycleChange :=
  [CreateTable (js "main") (js "t:1") (toy_random 1); RenameTable (js "main") (Some (js "t:1")) (js "u");
   CreateTable (js "main") (js "t:1") (toy_random 2); DropTable (js "main") (js "u")].

Lemma toy_changes_wf : Forall wf_change toy_changes.
Proof. apply Forall_forall. intros c Hc. repeat (apply elem_of_cons in Hc as [->|Hc]; [cbn; split_and!; try ascii; try done; by repeat constructor|]). by apply elem_of_nil in Hc. Qed.

Lemma identity_survives_reload_witness :
  match applySchemaChangeTransitions MemoryStore.new_store (mkIds ∅ ∅) 1700000000000 toy_changes with
  | Ok (ids', ops) =>
    (exists kv', kv_write MemoryStore.new_store ops = Ok kv' /\ load kv' = Ok ids') /\
    (forall schema table g, generationOf ids' schema table = Some g <-> nameOf ids' g = Some (schema, table))
  | Throw e => e = EMisuse
  end.
Proof.
  apply (identity_survives_reload MemoryStore.new_store (mkIds ∅ ∅) 1700000000000 toy_changes).
  - by split.
  - exact toy_consistent.
  - done.
  - exact toy_changes_wf.
  - split; [apply (bool_decide_unpack _); by vm_compute|]. by apply Forall_forall.
Defined.

(** A table is dropped and, during the drop's scan, created again. *)
Definition toy_gen (n : Z) : jsstring := Site.toBase64Url (toy_random n).
Definition toy_ids : TableIdentityStore := index (mkIds ∅ ∅) (js "main") (js "t") (toy_gen 1).
Definition toy_ops : list BatchOp := [OpPut (tg_key (js "main") (js "t")) (tg_value (toy_gen 1) 5)].
Definition toy_forgotten : TableIdentityStore :=
  match retire_forget toy_ids (js "main") (js "t") with Some (_, ids) => ids | None => toy_ids end.
Definition toy_ids2 : TableIdentityStore := index toy_forgotten (js "main") (js "t") (toy_gen 2).
Definition toy_ops2 : list BatchOp := [OpPut (tg_key (js "main") (js "t")) (tg_value (toy_gen 2) 6)].

Lemma toy_kv :
  exists kv, kv_write MemoryStore.new_store toy_ops = Ok kv /\ kv_ok kv /\ consistent None toy_ids (kv_abs kv).
Proof.
  destruct (kv_write_spec MemoryStore.new_store toy_ops) as (kv & Ew & Hok & Ha).
  - by split.
  - apply Forall_singleton. apply encode_wf, tg_key_text; ascii.
  - exists kv. split_and!; try done. rewrite Ha. cbn [toy_ops apply_ops foldl apply_op].
    apply bind_consistent; [exact toy_consistent|ascii|ascii| |lia|done|done].
    exists (toy_random 1). split_and!; [by repeat constructor|done|done].
Qed.

Lemma drop_spares_new_table_witness :
  exists kv kv2 records release kv3,
    kv_write MemoryStore.new_store toy_ops = Ok kv /\ kv_write kv toy_ops2 = Ok kv2 /\
    stageRecordDeletions kv2 (toy_gen 1) = Ok records /\
    retire_release toy_ids2 (js "main") (js "t") = Ok release /\
    kv_write kv2 (records ++ release) = Ok kv3 /\ load kv3 = Ok toy_ids2.
Proof.
  destruct toy_kv as (kv & Ew & Hok & Hc).
  destruct (kv_write_spec kv toy_ops2 Hok) as (kv2 & Ew2 & _ & _).
  { apply Forall_singleton. apply encode_wf, tg_key_text; ascii. }
  destruct (drop_spares_new_table kv kv2 toy_ids toy_forgotten toy_ids2 (js "main") (js "t") (toy_gen 1) 6
    [CreateTable (js "main") (js "t") (toy_random 2)] toy_ops2) as (records & release & kv3 & H); try done.
  - apply Forall_singleton. cbn. split_and!; try ascii; try done. by repeat constructor.
  - apply Forall_singleton. intros [].
  - split; [by apply NoDup_singleton|by apply Forall_singleton].
  - exists kv, kv2, records, release, kv3. split; [done|]. split; [done|]. exact H.
Defined.

End TableIdentity.
