(* ===== verification/ChangeLog.v ===== *)
(** * The change log

    Models [packages/quereus-sync/src/metadata/change-log.ts]: the index over a
    replica's live facts in the order it filed them, which peers read from their
    watermark on.

    The key-value store is any [KVStore]; a call that stages into a batch returns
    the operations it appends. Random bytes and the time of a generation's mint
    are arguments. *)

From S2P Require Import Prelude Bytes Double Decimal Site Hlc KvStore Transaction StoreRead Utf8 Comparison KeySerializer KeyEncoding SyncKeys TableIdentity.
From Stdlib Require Import ZArith Lia.
From stdpp Require Import sorting.
From stdpp Require Import base tactics numbers sets gmap list.
#[local] Open Scope Z_scope.

Import SyncKeys TableIdentity.

Module ChangeLog.

Record ChangeLogEntry := mkEntry {
  e_position : HLC;
  e_hlc : HLC;
  e_type : ChangeLogEntryType;
  e_generation : jsstring;
  e_identity : jsstring;
  e_column : option jsstring
}.

Definition originValue (filed : FiledAt) : res bytes :=
  if Hlc.compareHLC (filingPosition filed) (f_hlc filed) =? 0 then Ok [] else Hlc.serializeHLC (f_hlc filed).

Definition parseEntry (key value : bytes) : res (option ChangeLogEntry) :=
  let* parsed := parseChangeLogKey key in
  match parsed with
  | None => Ok None
  | Some p =>
    let* hlc := if (length value =? 0)%nat then Ok (pk_position p) else Hlc.deserializeHLC value in
    Ok (Some (mkEntry (pk_position p) hlc (pk_entryType p) (pk_generation p) (pk_identity p) (pk_column p)))
  end.

Section Log.
Context {S : Type} `{KVStore S} (keying : jsstring -> jsstring -> PkKeying).

Abbreviation value := (Comparison.SqlValue).

Definition identity (schema table : jsstring) (pk : list value) : jsstring :=
  encodePkIdentity pk (keying schema table).

(** The entry of a record: what both batch writers put. *)
Definition put_entry (filed : FiledAt) (entryType : ChangeLogEntryType) (generation id : jsstring)
    (column : option jsstring) : res BatchOp :=
  let* key := buildChangeLogKey (filingPosition filed) entryType generation id column in
  let* v := originValue filed in
  Ok (OpPut key v).

Definition recordColumnChangeBatch (filed : FiledAt) (schema table : jsstring) (pk : list value)
    (column : jsstring) (random : bytes) (now : Z) (ids : TableIdentityStore)
    : res (unit * TableIdentityStore * list BatchOp) :=
  let id := identity schema table pk in
  let* x := ensure ids schema table random now in
  let* op := put_entry filed ETColumn x.1.1 id (Some column) in
  Ok (tt, x.1.2, x.2 ++ [op]).

Definition recordDeletionBatch (filed : FiledAt) (schema table : jsstring) (pk : list value)
    (random : bytes) (now : Z) (ids : TableIdentityStore) : res (unit * TableIdentityStore * list BatchOp) :=
  let id := identity schema table pk in
  let* x := ensure ids schema table random now in
  let* op := put_entry filed ETDelete x.1.1 id None in
  Ok (tt, x.1.2, x.2 ++ [op]).

Definition recordColumnChange (kv : S) (ids : TableIdentityStore) (filed : FiledAt) (schema table : jsstring)
    (pk : list value) (column : jsstring) (random : bytes) (now : Z) : res (S * TableIdentityStore * res unit) :=
  writeIdentityBatch kv ids (recordColumnChangeBatch filed schema table pk column random now).

Definition recordDeletion (kv : S) (ids : TableIdentityStore) (filed : FiledAt) (schema table : jsstring)
    (pk : list value) (random : bytes) (now : Z) : res (S * TableIdentityStore * res unit) :=
  writeIdentityBatch kv ids (recordDeletionBatch filed schema table pk random now).

(** The loop of [entriesIn]: entries that do not parse are skipped. *)
Fixpoint parse_entries (entries : list kventry) : res (list ChangeLogEntry) :=
  match entries with
  | [] => Ok []
  | (key, v) :: entries' =>
    let* parsed := parseEntry key v in
    let* rest := parse_entries entries' in
    Ok (match parsed with Some e => e :: rest | None => rest end)
  end.

Definition entriesIn (kv : S) (o : IterateOptions) : res (list ChangeLogEntry) :=
  let* entries := kv_iterate kv o in parse_entries entries.

Definition getChangesSince (kv : S) (sincePosition : HLC) : res (list ChangeLogEntry) :=
  let* o := buildChangeLogScanBoundsAfter sincePosition in entriesIn kv o.

Definition getAllChanges (kv : S) : res (list ChangeLogEntry) := entriesIn kv buildAllChangeLogScanBounds.

(** The loop of [pruneEntriesBefore]: the keys to delete, up to the first entry
    at or after the boundary. *)
Fixpoint prune_loop (beforePosition : HLC) (entries : list kventry) : res (list bytes) :=
  match entries with
  | [] => Ok []
  | (key, _) :: entries' =>
    let* parsed := parseChangeLogKey key in
    match parsed with
    | None => prune_loop beforePosition entries'
    | Some p =>
      if 0 <=? Hlc.compareHLC (pk_position p) beforePosition then Ok []
      else let* rest := prune_loop beforePosition entries' in Ok (key :: rest)
    end
  end.

Definition pruneEntriesBefore (kv : S) (beforePosition : HLC) : res (S * Z) :=
  let* entries := kv_iterate kv buildAllChangeLogScanBounds in
  let* keys := prune_loop beforePosition entries in
  let* kv' := kv_write kv (map OpDelete keys) in
  Ok (kv', Z.of_nat (length keys)).

Definition deleteEntryByIdentityBatch (filed : FiledAt) (entryType : ChangeLogEntryType)
    (generation id : jsstring) (column : option jsstring) : res (list BatchOp) :=
  let* key := buildChangeLogKey (filingPosition filed) entryType generation id column in
  Ok [OpDelete key].

Definition deleteEntryBatch (ids : TableIdentityStore) (filed : FiledAt) (entryType : ChangeLogEntryType)
    (schema table : jsstring) (pk : list value) (column : option jsstring) : res (list BatchOp) :=
  let id := identity schema table pk in
  match generationOf ids schema table with
  | None => Ok []
  | Some generation => deleteEntryByIdentityBatch filed entryType generation id column
  end.

End Log.

(** ** Entries and their records *)

Definition valid_entry (e : ChangeLogEntry) : Prop :=
  Hlc.valid_hlc (e_position e) /\ Hlc.valid_hlc (e_hlc e) /\ text_ok (e_generation e) /\ text_ok (e_identity e) /\
  Forall text_ok (column_part (e_column e)) /\ (e_type e = ETColumn <-> is_Some (e_column e)).

Definition entry_key (e : ChangeLogEntry) : bytes :=
  change_log_bytes (e_position e) (e_type e) ([e_generation e; e_identity e] ++ column_part (e_column e)).

Definition entry_value (e : ChangeLogEntry) : bytes :=
  if Hlc.compareHLC (e_position e) (e_hlc e) =? 0 then [] else Hlc.hlc_bytes (e_hlc e).

Definition cl_range (k : bytes) : Prop := in_range buildAllChangeLogScanBounds k = true.

(** Every [cl:] record of [m] is an entry's. *)
Definition log_ok (m : kvmap) : Prop :=
  forall k v, cl_range k -> m !! k = Some v -> exists e, valid_entry e /\ k = entry_key e /\ v = entry_value e.

Definition in_log (m : kvmap) (e : ChangeLogEntry) : Prop :=
  valid_entry e /\ m !! entry_key e = Some (entry_value e).

Lemma parse_entry_key e :
  valid_entry e ->
  parseChangeLogKey (entry_key e)
  = Ok (Some (mkParsedKey (e_position e) (e_type e) (e_generation e) (e_identity e) (e_column e))).
Proof. intros (Hp & _ & Hg & Hi & Hc & Ht). exact (parseChangeLogKey_bytes _ _ _ _ _ Hp Hg Hi Hc Ht). Qed.

Lemma parse_entry e : valid_entry e -> parseEntry (entry_key e) (entry_value e) = Ok (Some e).
Proof.
  intros He. unfold parseEntry. rewrite parse_entry_key by done. cbn [res_bind pk_position pk_entryType pk_generation pk_identity pk_column].
  destruct He as (_ & Hh & _). unfold entry_value. destruct (Z.eqb_spec (Hlc.compareHLC (e_position e) (e_hlc e)) 0) as [E|Hne].
  - apply Hlc.compareHLC_0 in E. cbn. rewrite E. destruct e; cbn in *; by subst.
  - rewrite Hlc.length_hlc_bytes by apply Hh. cbn [Nat.eqb]. rewrite Hlc.deserialize_hlc_bytes by done. by destruct e.
Qed.

Lemma cl_range_prefix k : cl_range k <-> exists x, k = CHANGE_LOG ++ x.
Proof.
  unfold cl_range. change buildAllChangeLogScanBounds with (prefixBounds CHANGE_LOG).
  apply prefixBounds_exact; [done|]. repeat constructor; lia.
Qed.

Lemma entry_key_range e : cl_range (entry_key e).
Proof. apply cl_range_prefix. by eexists. Qed.

Lemma entry_key_wf e : valid_entry e -> wf_bytes (entry_key e).
Proof.
  intros (Hp & _ & Hg & Hi & Hc & _). unfold entry_key, change_log_bytes. apply wf_app. split; [by repeat constructor|].
  apply wf_app. split; [apply Hlc.wf_hlc_bytes, Hp|]. apply wf_app. split.
  - destruct (e_type e); by repeat constructor.
  - apply encode_wf, text_join. by each.
Qed.

Lemma entry_key_inj e e' :
  valid_entry e -> valid_entry e' -> entry_key e = entry_key e' ->
  e_position e = e_position e' /\ e_type e = e_type e' /\ e_generation e = e_generation e' /\
  e_identity e = e_identity e' /\ e_column e = e_column e'.
Proof.
  intros He He' E. pose proof (parse_entry_key e He) as P. rewrite E, parse_entry_key in P by done. by injection P.
Qed.

(** Two entries at one key agree, origin included. *)
Lemma in_log_unique m e e' : in_log m e -> in_log m e' -> entry_key e = entry_key e' -> e = e'.
Proof.
  intros [He Hm] [He' Hm'] E. pose proof (parse_entry e He) as P. rewrite E in Hm, P. rewrite Hm in Hm'.
  injection Hm' as Hv. rewrite Hv, parse_entry in P by done. by injection P.
Qed.

Lemma entry_order e e' :
  valid_entry e -> valid_entry e' -> blex (entry_key e) (entry_key e') = Lt ->
  Hlc.hlc_cmp (e_position e) (e_position e') <> Gt.
Proof.
  intros (Hp & _) (Hp' & _) Hlt Hgt. unfold entry_key in Hlt. rewrite change_log_order in Hlt; [congruence|done|done|].
  by rewrite Hgt.
Qed.

Lemma parse_entries_all entries (es : list ChangeLogEntry) :
  entries = map (fun e => (entry_key e, entry_value e)) es -> Forall valid_entry es ->
  parse_entries entries = Ok es.
Proof.
  intros -> Hv. induction Hv as [|e es He Hes IH]; [done|]. cbn [map parse_entries].
  rewrite parse_entry by done. cbn [res_bind]. by rewrite IH.
Qed.

Lemma log_entries m l :
  log_ok m -> Forall (fun kv => cl_range kv.1 /\ m !! kv.1 = Some kv.2) l ->
  exists es, l = map (fun e => (entry_key e, entry_value e)) es /\ Forall (in_log m) es.
Proof.
  intros Hm Hl. induction Hl as [|[k v] l [Hk Hv] Hl IH]; [by exists []|]. cbn in Hk, Hv.
  destruct (Hm k v Hk Hv) as (e & He & -> & ->). destruct IH as (es & -> & Hes). exists (e :: es).
  split; [done|]. by apply Forall_cons_2.
Qed.

Lemma cl_range_after since e :
  bounded_hlc since -> valid_entry e ->
  in_range (after_bounds since) (entry_key e) = true <-> 0 < Hlc.compareHLC (e_position e) since.
Proof. intros Hs [Hp _]. rewrite Hlc.compareHLC_gt. exact (scan_after since _ _ _ Hs Hp). Qed.

Lemma after_bounds_sub since k : bounded_hlc since -> in_range (after_bounds since) k = true -> cl_range k.
Proof.
  intros _ Hk. unfold cl_range, in_range, lower_ok, upper_ok, after_bounds, buildAllChangeLogScanBounds, bounds, test in *.
  cbn [o_gte o_gt o_lte o_lt] in *. rewrite !andb_true_r in *. apply andb_true_iff in Hk as [H1 H2].
  rewrite H2, andb_true_r. apply negb_true_iff. apply negb_true_iff in H1.
  set (x := incrementHLCBytes _) in *. clearbody x.
  destruct (blex k CHANGE_LOG) eqn:E; try done. exfalso.
  assert (blex k (CHANGE_LOG ++ x) = Lt) as E'; [|by rewrite E' in H1].
  apply (cmp_lt_le_trans blex k CHANGE_LOG); [done|]. rewrite <- (app_nil_r CHANGE_LOG) at 1.
  rewrite KeyEncoding.blex_app. by destruct x.
Qed.

Lemma sorted_unmap {A B} (R : relation B) (Q : relation A) (f : A -> B) l :
  StronglySorted R (map f l) -> (forall x y, x ∈ l -> y ∈ l -> R (f x) (f y) -> Q x y) -> StronglySorted Q l.
Proof.
  induction l as [|x l IH]; intros Hs Hq; [constructor|]. cbn in Hs. apply StronglySorted_inv in Hs as [Hs Hx].
  constructor; [apply IH; [done|]; intros; apply Hq; auto using list_elem_of_further|].
  rewrite Forall_map in Hx. rewrite Forall_forall in *. intros y Hy.
  apply Hq; [by apply list_elem_of_here|by apply list_elem_of_further|]. by apply Hx.
Qed.

Section Reads.
Context {S : Type} `{KVStoreLaws S}.

Definition filed_before (a b : ChangeLogEntry) : Prop :=
  Hlc.compareHLC (e_position a) (e_position b) <= 0 /\ a <> b.

(** A scan of the log: the entries in range, in filing order. *)
Lemma entriesIn_spec (kv : S) o :
  kv_ok kv -> log_ok (kv_abs kv) -> wf_options o -> o_limit o = None -> o_reverse o = false ->
  (forall k, in_range o k = true -> cl_range k) ->
  exists es, entriesIn kv o = Ok es /\
    (forall e, e ∈ es <-> in_log (kv_abs kv) e /\ in_range o (entry_key e) = true) /\
    StronglySorted filed_before es.
Proof.
  intros Hok Hlog Hwf Hlim Hrev Hsub. unfold entriesIn. rewrite kv_iterate_spec by done. cbn [res_bind].
  pose proof (StoreRead.spec_iterate_strict o (kv_abs kv) Hlim) as Hsort. rewrite Hrev in Hsort.
  assert (forall kv0, kv0 ∈ spec_iterate o (kv_abs kv) <-> in_range o kv0.1 = true /\ kv_abs kv !! kv0.1 = Some kv0.2) as Hel
    by (intros; by apply StoreRead.elem_of_spec_iterate).
  destruct (log_entries (kv_abs kv) (spec_iterate o (kv_abs kv)) Hlog) as (es & Ees & Hes).
  { apply Forall_forall. intros kv0 Hin. apply Hel in Hin as [Hr Hm]. auto. }
  exists es. split.
  { apply parse_entries_all; [done|]. eapply Forall_impl; [exact Hes|]. by intros e []. }
  rewrite Ees in Hel, Hsort. split.
  - intros e. rewrite Forall_forall in Hes. split.
    + intros Hin. split; [by apply Hes|].
      apply (Hel (entry_key e, entry_value e)). apply list_elem_of_fmap. by exists e.
    + intros [Hin Hr]. assert ((entry_key e, entry_value e) ∈ map (fun e => (entry_key e, entry_value e)) es) as Hin'
        by (apply Hel; split; [done|apply Hin]).
      apply list_elem_of_fmap in Hin' as (e' & E & Hin'). apply (f_equal fst) in E. cbn [fst] in E.
      by rewrite (in_log_unique (kv_abs kv) e e' Hin (Hes e' Hin') E).
  - eapply (sorted_unmap _ _ _ _ Hsort). rewrite Forall_forall in Hes. intros a b Ha%Hes Hb%Hes Hlt.
    unfold StoreRead.before in Hlt. cbn [fst] in Hlt. destruct Ha as [Va _], Hb as [Vb _]. split.
    + pose proof (entry_order a b Va Vb Hlt) as Hg. rewrite <- Hlc.compareHLC_gt in Hg. lia.
    + intros ->. by rewrite (cmp_refl blex) in Hlt.
Qed.

Lemma all_bounds_wf : wf_options buildAllChangeLogScanBounds.
Proof. by repeat split; repeat constructor. Qed.

Lemma after_bounds_wf since : bounded_hlc since -> wf_options (after_bounds since).
Proof.
  intros Hs. destruct (increment_hlc since Hs) as (W & _). split_and!; cbn; try done.
  - apply wf_app. split; [by repeat constructor|done].
  - by repeat constructor.
Qed.

Lemma getChangesSince_spec (kv : S) since :
  kv_ok kv -> log_ok (kv_abs kv) -> bounded_hlc since ->
  exists delta, getChangesSince kv since = Ok delta /\ StronglySorted filed_before delta /\
    (forall e, e ∈ delta <-> in_log (kv_abs kv) e /\ 0 < Hlc.compareHLC (e_position e) since).
Proof.
  intros Hok Hlog Hs. unfold getChangesSince. rewrite scan_after_bounds by done. cbn [res_bind].
  destruct (entriesIn_spec kv (after_bounds since) Hok Hlog (after_bounds_wf since Hs) eq_refl eq_refl)
    as (delta & E & Hd & Sd); [intros k; by apply after_bounds_sub|].
  exists delta. split_and!; try done. intros e. rewrite Hd. split; intros [He Hr]; (split; [done|]);
    (apply cl_range_after; [done|apply He|done]).
Qed.

Lemma getAllChanges_spec (kv : S) :
  kv_ok kv -> log_ok (kv_abs kv) ->
  exists all, getAllChanges kv = Ok all /\ StronglySorted filed_before all /\
    (forall e, e ∈ all <-> in_log (kv_abs kv) e).
Proof.
  intros Hok Hlog. unfold getAllChanges.
  destruct (entriesIn_spec kv buildAllChangeLogScanBounds Hok Hlog all_bounds_wf eq_refl eq_refl)
    as (all & E & Ha & Sa); [done|].
  exists all. split_and!; try done. intros e. rewrite Ha. split; [by intros []|].
  intros H1. split; [done|]. apply entry_key_range.
Qed.

(** Reading the log from a watermark gives exactly the entries filed
    strictly after it, each once with its origin timestamp, in filing order;
    reading all of it gives every entry. *)
Theorem change_log_delta (kv : S) (since : HLC) :
  kv_ok kv -> log_ok (kv_abs kv) -> bounded_hlc since ->
  exists delta all, getChangesSince kv since = Ok delta /\ getAllChanges kv = Ok all /\
    (forall e, e ∈ all <-> in_log (kv_abs kv) e) /\
    (forall e, e ∈ delta <-> e ∈ all /\ 0 < Hlc.compareHLC (e_position e) since) /\
    StronglySorted filed_before delta /\ StronglySorted filed_before all.
Proof.
  intros Hok Hlog Hs. destruct (getChangesSince_spec kv since Hok Hlog Hs) as (delta & Ed & Sd & Hd).
  destruct (getAllChanges_spec kv Hok Hlog) as (all & Ea & Sa & Ha).
  exists delta, all. split_and!; try done. intros e. by rewrite Hd, Ha.
Qed.

(** ** Recording *)

Lemma put_entry_ok filed e :
  valid_entry e -> e_position e = filingPosition filed -> e_hlc e = f_hlc filed ->
  put_entry filed (e_type e) (e_generation e) (e_identity e) (e_column e) = Ok (OpPut (entry_key e) (entry_value e)).
Proof.
  intros He Hp Hh. pose proof He as (Vp & Vh & _ & _ & Hc & _). unfold put_entry, originValue, entry_key, entry_value.
  rewrite <- Hp, <- Hh. rewrite buildChangeLogKey_bytes by (done || apply Vp). cbn [res_bind].
  destruct (_ =? 0); [done|]. by rewrite Hlc.serializeHLC_bytes by apply Vh.
Qed.

Lemma log_ok_put m e :
  log_ok m -> valid_entry e ->
  log_ok (<[entry_key e := entry_value e]> m) /\
  (forall e', in_log (<[entry_key e := entry_value e]> m) e'
     <-> e' = e \/ (in_log m e' /\ entry_key e' <> entry_key e)).
Proof.
  intros Hm He. split.
  - intros k v Hk. rewrite lookup_insert_Some. intros [[<- <-]|[_ Hv]]; [by exists e|by apply Hm].
  - intros e'. split.
    + intros [He' Hv]. destruct (decide (entry_key e' = entry_key e)) as [E|Hne].
      * left. apply (in_log_unique (<[entry_key e := entry_value e]> m)); [done|split; [done|apply lookup_insert_eq]|done].
      * right. split; [|done]. split; [done|]. by rewrite lookup_insert_ne in Hv.
    + intros [->|[[He' Hv] Hne]]; (split; [done|]); [apply lookup_insert_eq|]. by rewrite lookup_insert_ne.
Qed.

Lemma frame_log m m' :
  (forall k, cl_range k -> m' !! k = m !! k) -> log_ok m -> log_ok m' /\ (forall e, in_log m' e <-> in_log m e).
Proof.
  intros Hf Hm. split.
  - intros k v Hk Hv. rewrite Hf in Hv by done. by apply Hm.
  - intros e. unfold in_log. by rewrite Hf by apply entry_key_range.
Qed.

Lemma tg_not_cl k : tg_range k -> ~ cl_range k.
Proof.
  intros Ht Hc. apply tg_range_prefix in Ht as [x ->]. apply cl_range_prefix in Hc as [y E].
  change TABLE_GENERATION with [116; 103; 58] in E. change CHANGE_LOG with [99; 108; 58] in E. discriminate E.
Qed.

Lemma ensure_ops ids schema table random now g ids' ops :
  ensure ids schema table random now = Ok (g, ids', ops) ->
  generationOf ids' schema table = Some g /\ Forall (fun op => tg_range (op_key op)) ops.
Proof.
  unfold ensure. destruct (generationOf ids schema table) as [g0|] eqn:Eg.
  { intros E. injection E as <- <- <-. split; [done|constructor]. }
  unfold buildTableGenerationKey. destruct (assertKeyableIdentifiers _); [|done]. cbn [res_bind].
  destruct (serializeTableGeneration _); [|done]. cbn [res_bind]. intros E. injection E as <- <- <-.
  split; [apply lookup_insert_eq|]. apply Forall_singleton. apply tg_key_range.
Qed.

Lemma apply_ops_frame (P : bytes -> Prop) ops m k :
  Forall (fun op => ~ P (op_key op)) ops -> P k -> apply_ops m ops !! k = m !! k.
Proof.
  intros Ho Hk. revert m. induction Ho as [|op ops Hop Ho IH]; intros m; [done|].
  change (apply_ops (apply_op m op) ops !! k = m !! k). rewrite IH.
  destruct op as [k' v|k']; cbn in *; [rewrite lookup_insert_ne|rewrite lookup_delete_ne]; try done; by intros ->.
Qed.

(** ** Pruning *)

Definition is_before (p : HLC) (e : ChangeLogEntry) : bool := Hlc.compareHLC (e_position e) p <? 0.

Lemma prune_loop_spec p es :
  Forall valid_entry es -> StronglySorted filed_before es ->
  prune_loop p (map (fun e => (entry_key e, entry_value e)) es) = Ok (map entry_key (List.filter (is_before p) es)).
Proof.
  intros Hv Hs. induction Hs as [|e es Hs IH Hx]; [done|]. apply Forall_cons in Hv as [He Hv].
  cbn [map prune_loop List.filter]. rewrite parse_entry_key by done. cbn [res_bind pk_position].
  unfold is_before at 1. destruct (Z.leb_spec 0 (Hlc.compareHLC (e_position e) p)) as [Hge|Hlt].
  - rewrite (proj2 (Z.ltb_ge _ _)) by done. assert (List.filter (is_before p) es = []) as ->; [|done].
    clear IH. induction Hx as [|e' es [Hle _] Hx IH']; [done|]. apply Forall_cons in Hv as [He' Hv].
    apply StronglySorted_inv in Hs as [Hs _]. cbn [List.filter]. unfold is_before at 1.
    rewrite (proj2 (Z.ltb_ge _ _)); [by apply IH'|].
    destruct (Z.ltb_spec (Hlc.compareHLC (e_position e') p) 0) as [Hlt|]; [|done]. exfalso.
    apply Hlc.compareHLC_lt in Hlt.
    assert (Hlc.hlc_cmp (e_position e) (e_position e') <> Gt) as Hle' by (rewrite <- Hlc.compareHLC_gt; lia).
    pose proof (cmp_le_lt_trans Hlc.hlc_cmp _ _ _ Hle' Hlt) as Hlt'. apply Hlc.compareHLC_lt in Hlt'. lia.
  - rewrite (proj2 (Z.ltb_lt _ _)) by done. by rewrite IH.
Qed.

Lemma apply_delete_keys ks m k : apply_ops m (map OpDelete ks) !! k = if decide (k ∈ ks) then None else m !! k.
Proof.
  revert m. induction ks as [|x ks IH]; intros m; cbn [map]; [by rewrite decide_False by apply not_elem_of_nil|].
  change (apply_ops (delete x m) (map OpDelete ks) !! k = if decide (k ∈ x :: ks) then None else m !! k).
  rewrite IH. destruct (decide (k ∈ ks)) as [Hin|Hnin].
  - by rewrite decide_True by by apply list_elem_of_further.
  - destruct (decide (k = x)) as [->|Hne].
    + rewrite decide_True by apply list_elem_of_here. apply lookup_delete_eq.
    + rewrite decide_False; [by rewrite lookup_delete_ne|]. by rewrite elem_of_cons; intros [?|?].
Qed.

(** Pruning removes exactly the entries filed before the boundary and
    reports their number; every entry at or after it stays, and so does every
    record of another family. *)
Theorem prune_exact (kv : S) (p : HLC) :
  kv_ok kv -> log_ok (kv_abs kv) ->
  exists kv' all, getAllChanges kv = Ok all /\
    pruneEntriesBefore kv p = Ok (kv', Z.of_nat (length (List.filter (is_before p) all))) /\
    kv_ok kv' /\ log_ok (kv_abs kv') /\
    (forall e, in_log (kv_abs kv') e <-> in_log (kv_abs kv) e /\ 0 <= Hlc.compareHLC (e_position e) p) /\
    (forall k, ~ cl_range k -> kv_abs kv' !! k = kv_abs kv !! k).
Proof.
  intros Hok Hlog. destruct (getAllChanges_spec kv Hok Hlog) as (all & Ea & Sa & Ha).
  assert (Forall valid_entry all) as Hv by (apply Forall_forall; intros e He; by apply Ha).
  assert (kv_iterate kv buildAllChangeLogScanBounds = Ok (map (fun e => (entry_key e, entry_value e)) all)) as Ei.
  { unfold getAllChanges, entriesIn in Ea. rewrite kv_iterate_spec in Ea |- * by (done || apply all_bounds_wf).
    cbn [res_bind] in Ea.
    destruct (log_entries (kv_abs kv) (spec_iterate buildAllChangeLogScanBounds (kv_abs kv)) Hlog) as (es & Ees & Hes).
    { apply Forall_forall. intros kv0 Hin. by apply StoreRead.elem_of_spec_iterate in Hin. }
    rewrite (parse_entries_all _ es Ees) in Ea by (eapply Forall_impl; [exact Hes|]; by intros e []).
    injection Ea as <-. by rewrite Ees. }
  set (gone := List.filter (is_before p) all).
  assert (forall e, e ∈ gone <-> in_log (kv_abs kv) e /\ Hlc.compareHLC (e_position e) p < 0) as Hgone.
  { intros e. unfold gone. rewrite bfilter_elem, Ha. unfold is_before. rewrite Z.ltb_lt. tauto. }
  destruct (kv_write_spec kv (map OpDelete (map entry_key gone)) Hok) as (kv' & Ew & Hok' & Ha').
  { apply Forall_map, Forall_map, Forall_forall. intros e He. apply entry_key_wf. by apply Hgone in He as [[He _] _]. }
  exists kv', all. split; [done|]. split.
  { unfold pruneEntriesBefore. rewrite Ei. cbn [res_bind]. rewrite prune_loop_spec by done. fold gone. cbn [res_bind].
    rewrite Ew. cbn [res_bind]. by rewrite length_map. }
  assert (forall k, kv_abs kv' !! k = if decide (k ∈ map entry_key gone) then None else kv_abs kv !! k) as Hl
    by (intros k; rewrite Ha'; apply apply_delete_keys).
  assert (forall e, in_log (kv_abs kv) e -> entry_key e ∈ map entry_key gone -> Hlc.compareHLC (e_position e) p < 0) as Hin.
  { intros e He Hk. apply list_elem_of_fmap in Hk as (e' & E & He'). apply Hgone in He' as [He' Hlt].
    by rewrite (in_log_unique _ _ _ He He' E). }
  split_and!; try done.
  - intros k v Hk Hkv. rewrite Hl in Hkv. destruct (decide _); [done|]. by apply Hlog.
  - intros e. split.
    + intros [He Hkv]. rewrite Hl in Hkv. destruct (decide _) as [|Hn]; [done|]. split; [done|].
      destruct (Z.ltb_spec (Hlc.compareHLC (e_position e) p) 0) as [Hlt|]; [|done]. exfalso. apply Hn.
      apply list_elem_of_fmap. exists e. split; [done|]. apply Hgone. done.
    + intros [[He Hkv] Hge]. split; [done|]. rewrite Hl, decide_False; [done|]. intros Hk.
      apply Hin in Hk; [lia|done].
  - intros k Hk. rewrite Hl, decide_False; [done|]. intros Hx. apply list_elem_of_fmap in Hx as (e & -> & _).
    apply Hk, entry_key_range.
Qed.

Context
  (keying : jsstring -> jsstring -> PkKeying).

Abbreviation value := (Comparison.SqlValue).

(** Both writers, by the presence of a column. *)
Definition record_change (kv : S) (ids : TableIdentityStore) (filed : FiledAt) (schema table : jsstring)
    (pk : list value) (column : option jsstring) (random : bytes) (now : Z) : res (S * TableIdentityStore * res unit) :=
  match column with
  | Some c => recordColumnChange keying kv ids filed schema table pk c random now
  | None => recordDeletion keying kv ids filed schema table pk random now
  end.

Definition type_of (column : option jsstring) : ChangeLogEntryType :=
  match column with Some _ => ETColumn | None => ETDelete end.

(** The entry a record call files. *)
Definition filed_entry (ids : TableIdentityStore) (filed : FiledAt) (schema table : jsstring) (pk : list value)
    (column : option jsstring) : option ChangeLogEntry :=
  (fun g => mkEntry (filingPosition filed) (f_hlc filed) (type_of column) g
              (identity keying schema table pk) column)
  <$> generationOf ids schema table.

Lemma record_change_batch kv ids filed schema table pk column random now g ids' ops op :
  ensure ids schema table random now = Ok (g, ids', ops) ->
  put_entry filed (type_of column) g
    (identity keying schema table pk) column = Ok op ->
  record_change kv ids filed schema table pk column random now
  = writeIdentityBatch kv ids (fun _ => Ok (tt, ids', ops ++ [op])).
Proof.
  intros Ee Ep. unfold record_change, recordColumnChange, recordDeletion, writeIdentityBatch.
  destruct column as [c|]; unfold recordColumnChangeBatch, recordDeletionBatch; rewrite Ee; cbn [res_bind fst snd];
    cbn [type_of] in Ep; by rewrite Ep.
Qed.

(** C10: A recorded fact reaches every peer that lacks it. Recording a column
    change or a deletion files exactly one entry, at the fact's filing position,
    keeps all others, and keeps the log and the table index well-formed; the
    entry is then part of every delta whose watermark is below the fact's origin
    timestamp, however late the fact was filed. *)
Theorem recorded_fact_delivered (kv : S) (ids : TableIdentityStore) (filed : FiledAt) (schema table : jsstring)
    (pk : list value) (column : option jsstring) (random : bytes) (now : Z) :
  kv_ok kv -> log_ok (kv_abs kv) -> consistent None ids (kv_abs kv) ->
  text_ok schema -> text_ok table -> Forall text_ok (column_part column) ->
  text_ok (identity keying schema table pk) ->
  wf_bytes random -> length random = 16%nat -> byGeneration ids !! Site.toBase64Url random = None ->
  0 <= now < 2 ^ 53 -> Hlc.valid_hlc (f_hlc filed) -> Hlc.valid_hlc (filingPosition filed) ->
  0 <= Hlc.compareHLC (filingPosition filed) (f_hlc filed) ->
  exists kv' ids' e,
    record_change kv ids filed schema table pk column random now = Ok (kv', ids', Ok tt) /\
    filed_entry ids' filed schema table pk column = Some e /\
    kv_ok kv' /\ log_ok (kv_abs kv') /\ consistent None ids' (kv_abs kv') /\
    (forall e', in_log (kv_abs kv') e' <-> e' = e \/ (in_log (kv_abs kv) e' /\ entry_key e' <> entry_key e)) /\
    (forall since, bounded_hlc since -> Hlc.compareHLC since (f_hlc filed) < 0 ->
       exists delta, getChangesSince kv' since = Ok delta /\ e ∈ delta).
Proof.
  intros Hok Hlog Hc Hs Ht Hcol Hid Hwr Hlr Hf Hb Vh Vp Hle.
  destruct (ensure_consistent None ids (kv_abs kv) schema table random now Hc Hs Ht Hwr Hlr Hf Hb)
    as (g & ids' & ops & Ee & Hc1 & Ho1 & _). destruct (ensure_ops _ _ _ _ _ _ _ _ Ee) as [Hg Htg].
  destruct (generation_name _ _ _ _ _ _ Hc1 Hg) as (_ & Vg & _).
  set (e := mkEntry (filingPosition filed) (f_hlc filed) (type_of column) g
              (identity keying schema table pk) column).
  assert (valid_entry e) as He.
  { unfold valid_entry. cbn. split_and!; try done; [by apply valid_generation_text|..]; destruct column; naive_solver. }
  pose proof (put_entry_ok filed e He eq_refl eq_refl) as Ep.
  destruct (kv_write_spec kv (ops ++ [OpPut (entry_key e) (entry_value e)]) Hok) as (kv' & Ew & Hok' & Ha').
  { apply Forall_app. split; [done|]. apply Forall_singleton. cbn [op_key]. by apply entry_key_wf. }
  rewrite apply_ops_app in Ha'. cbn [apply_ops foldl apply_op] in Ha'. fold (apply_ops (kv_abs kv) ops) in Ha'.
  destruct (frame_log (kv_abs kv) (apply_ops (kv_abs kv) ops)) as [Hl1 Hi1]; [|done|].
  { intros k Hk. apply (apply_ops_frame cl_range); [|done]. eapply Forall_impl; [exact Htg|]. intros op. apply tg_not_cl. }
  destruct (log_ok_put _ e Hl1 He) as [Hl2 Hi2]. rewrite <- Ha' in Hl2, Hi2.
  exists kv', ids', e. split_and!; try done.
  - rewrite (record_change_batch kv ids filed schema table pk column random now g ids' ops _ Ee Ep).
    unfold writeIdentityBatch. by rewrite Ew.
  - unfold filed_entry. by rewrite Hg.
  - rewrite Ha'. eapply consistent_frame; [|exact Hc1]. intros k Hk. apply lookup_insert_ne.
    intros <-. by eapply tg_not_cl, entry_key_range.
  - intros e'. by rewrite Hi2, Hi1.
  - intros since Hsince Hlt. destruct (getChangesSince_spec kv' since Hok' Hl2 Hsince) as (delta & Ed & _ & Hd).
    exists delta. split; [done|]. apply Hd. split; [apply Hi2; by left|]. cbn [e e_position].
    apply Hlc.compareHLC_gt. apply Hlc.compareHLC_lt in Hlt.
    rewrite (cmp_opp Hlc.hlc_cmp since). rewrite (cmp_lt_le_trans Hlc.hlc_cmp since (f_hlc filed)); [done|done|].
    rewrite (cmp_opp Hlc.hlc_cmp (filingPosition filed)). intros Hx.
    assert (Hlc.hlc_cmp (filingPosition filed) (f_hlc filed) = Lt) as Hy
      by (destruct (Hlc.hlc_cmp (filingPosition filed) (f_hlc filed)); cbn in Hx; congruence).
    apply Hlc.compareHLC_lt in Hy. lia.
Qed.

End Reads.

(** ** Witnesses *)

Definition toy_site : bytes := map Z.of_nat (seq 1 16).
Definition toy_since : HLC := Hlc.mkHLC 1699999999999 0 toy_site 0.

(** A fact written at one timestamp and filed at a later one. *)
Definition toy_filed : FiledAt := mkFiled (Hlc.mkHLC 1700000000000 3 toy_site 7) (Some (Hlc.mkHLC 1800000000000 0 toy_site 1)).

Definition toy_entry : ChangeLogEntry :=
  mkEntry (filingPosition toy_filed) (f_hlc toy_filed) ETColumn (js "g") (js "n:1") (Some (js "c:1")).

Lemma toy_entry_valid : valid_entry toy_entry.
Proof.
  split_and!; try done; try ascii; try (by apply Forall_singleton; ascii).
  - repeat split; try done. by repeat constructor.
  - repeat split; try done. by repeat constructor.
Qed.

Lemma toy_since_bounded : bounded_hlc toy_since.
Proof. repeat split; try done. by repeat constructor. Qed.

Lemma empty_log : log_ok (kv_abs MemoryStore.new_store).
Proof. intros k v _ H. done. Qed.

Lemma toy_log :
  exists kv, kv_write MemoryStore.new_store [OpPut (entry_key toy_entry) (entry_value toy_entry)] = Ok kv /\
    kv_ok kv /\ log_ok (kv_abs kv) /\ in_log (kv_abs kv) toy_entry.
Proof.
  destruct (kv_write_spec MemoryStore.new_store [OpPut (entry_key toy_entry) (entry_value toy_entry)])
    as (kv & Ew & Hok & Ha).
  - by split.
  - apply Forall_singleton. apply entry_key_wf, toy_entry_valid.
  - destruct (log_ok_put _ toy_entry empty_log toy_entry_valid) as [Hl Hi].
    exists kv. split_and!; try done; rewrite Ha; [exact Hl|]. apply Hi. by left.
Qed.

Lemma change_log_delta_witness :
  exists (kv : MemoryStore.InMemoryKVStore) delta, getChangesSince kv toy_since = Ok delta /\ toy_entry ∈ delta.
Proof.
  destruct toy_log as (kv & _ & Hok & Hlog & Hin).
  destruct (change_log_delta kv toy_since Hok Hlog toy_since_bounded) as (delta & all & Ed & _ & Ha & Hd & _).
  exists kv, delta. split; [done|]. apply Hd. split; [by apply Ha|]. by vm_compute.
Defined.

Lemma prune_exact_witness :
  exists (kv kv' : MemoryStore.InMemoryKVStore) n, pruneEntriesBefore kv toy_since = Ok (kv', n) /\
    in_log (kv_abs kv') toy_entry.
Proof.
  destruct toy_log as (kv & _ & Hok & Hlog & Hin).
  destruct (prune_exact kv toy_since Hok Hlog) as (kv' & all & _ & Ep & _ & _ & Hi & _).
  exists kv, kv'. eexists. split; [exact Ep|]. apply Hi. split; [done|]. by vm_compute.
Defined.

Lemma recorded_fact_delivered_witness :
  exists (kv' : MemoryStore.InMemoryKVStore) ids' e delta,
    record_change (fun _ _ => RAW_PK_KEYING) MemoryStore.new_store
      (mkIds ∅ ∅) toy_filed (js "main") (js "t") [Comparison.VBigint 1] (Some (js "c:1")) (toy_random 1) 5
      = Ok (kv', ids', Ok tt) /\ getChangesSince kv' toy_since = Ok delta /\ e ∈ delta.
Proof.
  destruct (recorded_fact_delivered (fun _ _ => RAW_PK_KEYING) MemoryStore.new_store
    (mkIds ∅ ∅) toy_filed (js "main") (js "t") [Comparison.VBigint 1] (Some (js "c:1")) (toy_random 1) 5)
    as (kv' & ids' & e & E & _ & _ & _ & _ & _ & Hd); try done; try ascii.
  - apply Forall_singleton. ascii.
  - by apply text_ascii; vm_compute; repeat constructor.
  - by repeat constructor.
  - apply toy_entry_valid.
  - apply toy_entry_valid.
  - destruct (Hd toy_since toy_since_bounded) as (delta & Edelta & Hin); [by vm_compute|].
    exists kv', ids', e, delta. done.
Defined.

End ChangeLog.
