(* ===== verification/Watermarks.v ===== *)
(** * Delta floor and peer watermarks

    Models [packages/quereus-sync/src/metadata/delta-floor.ts], the position
    below which a replica can no longer serve a complete delta, and
    [peer-state.ts], how far it has read from and pushed to each peer.

    [Date.now()] is an argument. *)

From S2P Require Import Prelude Bytes Double Decimal Site Hlc KvStore Transaction StoreRead Utf8 Comparison KeySerializer KeyEncoding SyncKeys TableIdentity.
From Stdlib Require Import ZArith Lia.
From stdpp Require Import sorting.
From stdpp Require Import base tactics numbers sets gmap list.
#[local] Open Scope Z_scope.

Import SyncKeys.

(** ** Delta floor *)

Module DeltaFloor.

Section Store.
Context {S : Type} `{KVStore S}.

Definition get (kv : S) : res (option HLC) :=
  let* data := kv_get kv DELTA_FLOOR in
  match data with
  | None => Ok None
  | Some d => let* h := Hlc.deserializeHLC d in Ok (Some h)
  end.

Definition admits (kv : S) (sinceHLC : HLC) : res bool :=
  let* floor := get kv in
  Ok (match floor with
      | None => true
      | Some f => 0 <=? Hlc.compareHLC sinceHLC f
      end).

(** The operations the call appends to the batch. *)
Definition raiseBatch (kv : S) (hlc : HLC) : res (list BatchOp) :=
  let* current := get kv in
  let put := let* v := Hlc.serializeHLC hlc in Ok [OpPut DELTA_FLOOR v] in
  match current with
  | Some c => if Hlc.compareHLC hlc c <=? 0 then Ok [] else put
  | None => put
  end.

(** A prune: the deletes and the raise that accounts for them, in one write. *)
Definition raise (kv : S) (hlc : HLC) (deletes : list bytes) : res S :=
  let* ops := raiseBatch kv hlc in
  kv_write kv (map OpDelete deletes ++ ops).

Fixpoint raise_all (kv : S) (prunes : list (HLC * list bytes)) : res S :=
  match prunes with
  | [] => Ok kv
  | (hlc, deletes) :: prunes' => let* kv' := raise kv hlc deletes in raise_all kv' prunes'
  end.

End Store.

Section Floor.
Context {S : Type} `{KVStoreLaws S}.

(** The store's floor is [f]. *)
Definition floor_is (kv : S) (f : option HLC) : Prop :=
  kv_ok kv /\ kv_abs kv !! DELTA_FLOOR = Hlc.hlc_bytes <$> f /\
  match f with Some h => Hlc.valid_hlc h | None => True end.

Lemma get_floor (kv : S) f : floor_is kv f -> get kv = Ok f.
Proof.
  intros (Hok & Hm & Hv). unfold get. rewrite kv_get_spec, Hm by (done || by repeat constructor).
  destruct f as [h|]; cbn [fmap option_fmap option_map res_bind]; [|done]. by rewrite Hlc.deserialize_hlc_bytes.
Qed.

Lemma raise_floor (kv : S) f hlc deletes :
  floor_is kv f -> Hlc.valid_hlc hlc -> Forall wf_bytes deletes -> DELTA_FLOOR ∉ deletes ->
  exists kv', raise kv hlc deletes = Ok kv' /\ floor_is kv' (Hlc.maxHLC_step f hlc).
Proof.
  intros Hf Hv Hd Hn. unfold raise, raiseBatch. rewrite (get_floor kv f Hf). cbn [res_bind].
  destruct Hf as (Hok & Hm & Hvf). rewrite Hlc.serializeHLC_bytes by apply Hv. cbn [res_bind].
  set (put := match f with Some c => _ | None => _ end).
  assert (exists ops, put = Ok ops /\ Forall (fun op => wf_bytes (op_key op)) ops /\
    forall m, m !! DELTA_FLOOR = Hlc.hlc_bytes <$> f ->
      apply_ops m ops !! DELTA_FLOOR = Hlc.hlc_bytes <$> Hlc.maxHLC_step f hlc) as (ops & -> & Hw & Ho).
  { assert (wf_bytes DELTA_FLOOR) by by repeat constructor.
    unfold put, Hlc.maxHLC_step. destruct f as [c|].
    - destruct (Z.leb_spec (Hlc.compareHLC hlc c) 0), (Z.ltb_spec 0 (Hlc.compareHLC hlc c)); try lia.
      + by exists [].
      + eexists. split; [done|]. split; [by apply Forall_singleton|]. intros m _. apply lookup_insert_eq.
    - eexists. split; [done|]. split; [by apply Forall_singleton|]. intros m _. apply lookup_insert_eq. }
  cbn [res_bind]. destruct (kv_write_spec kv (map OpDelete deletes ++ ops) Hok) as (kv' & Ew & Hok' & Ha).
  { apply Forall_app. split; [|done]. by apply Forall_map. }
  exists kv'. split; [done|]. split; [done|]. rewrite Ha, TableIdentity.apply_ops_app. split.
  - apply Ho. rewrite <- Hm. apply (TableIdentity.apply_deletes_frame (fun k => k = DELTA_FLOOR)); [|done].
    apply Forall_map, Forall_forall. intros k Hk. exists k. split; [done|]. by intros ->.
  - unfold Hlc.maxHLC_step. destruct f as [c|]; [|done]. by destruct (_ <? _).
Qed.

Lemma raise_all_floor (kv : S) f prunes :
  floor_is kv f -> Forall (fun x => Hlc.valid_hlc x.1 /\ Forall wf_bytes x.2 /\ DELTA_FLOOR ∉ x.2) prunes ->
  exists kv', raise_all kv prunes = Ok kv' /\ floor_is kv' (foldl Hlc.maxHLC_step f (map fst prunes)).
Proof.
  intros Hf Hp. revert kv f Hf. induction Hp as [|[h ds] prunes (Hv & Hd & Hn) Hp IH]; intros kv f Hf; [by exists kv|].
  cbn in Hv, Hd, Hn. destruct (raise_floor kv f h ds Hf Hv Hd Hn) as (kv1 & E1 & Hf1).
  destruct (IH kv1 _ Hf1) as (kv' & E & Hf'). exists kv'. cbn [raise_all]. rewrite E1. done.
Qed.

(** The delta floor is the greatest timestamp ever pruned, whatever order
    the prunes came in: it never moves back, and a watermark is admitted exactly
    when it is at or above every pruned timestamp. *)
Theorem delta_floor_is_max (kv : S) (prunes : list (HLC * list bytes)) :
  floor_is kv None -> Forall (fun x => Hlc.valid_hlc x.1 /\ Forall wf_bytes x.2 /\ DELTA_FLOOR ∉ x.2) prunes ->
  exists kv', raise_all kv prunes = Ok kv' /\ get kv' = Ok (Hlc.maxHLC (map fst prunes)) /\
    forall since, exists b, admits kv' since = Ok b /\
      (b = true <-> Forall (fun h => 0 <= Hlc.compareHLC since h) (map fst prunes)).
Proof.
  intros Hf Hp. destruct (raise_all_floor kv None prunes Hf Hp) as (kv' & E & Hf'). exists kv'.
  split; [done|]. fold (Hlc.maxHLC (map fst prunes)) in Hf'. pose proof (get_floor kv' _ Hf') as Eg.
  split; [done|]. intros since. unfold admits. rewrite Eg. cbn [res_bind]. eexists. split; [done|].
  pose proof (Hlc.maxHLC_fold None (map fst prunes)) as Hmax. unfold Hlc.maxHLC.
  destruct (foldl Hlc.maxHLC_step None (map fst prunes)) as [m|].
  - destruct Hmax as ([?|Hin] & Hall & _); [done|]. rewrite Z.leb_le. rewrite Forall_forall in *. split.
    + intros Hge h Hh. specialize (Hall h Hh).
      assert (Hlc.hlc_cmp since h <> Lt) as Hx; [|rewrite <- Hlc.compareHLC_lt in Hx; lia]. intros Hlt.
      pose proof (cmp_lt_le_trans Hlc.hlc_cmp since h m Hlt Hall) as Hy. apply Hlc.compareHLC_lt in Hy. lia.
    + intros Hge. by apply Hge.
  - destruct Hmax as [_ ->]. done.
Qed.

End Floor.

Lemma delta_floor_is_max_witness :
  exists kv', raise_all MemoryStore.new_store [(toy_position, [[1; 2]]); (Hlc.mkHLC 5 0 (Hlc.siteId toy_position) 0, [])] = Ok kv' /\
    get kv' = Ok (Some toy_position).
Proof.
  destruct (delta_floor_is_max MemoryStore.new_store
    [(toy_position, [[1; 2]]); (Hlc.mkHLC 5 0 (Hlc.siteId toy_position) 0, [])]) as (kv' & E & Eg & _).
  - by split.
  - repeat constructor; try done; by apply (bool_decide_unpack _).
  - exists kv'. split; [done|exact Eg].
Defined.

End DeltaFloor.

(** ** Peer watermarks *)

Module PeerStates.

Record PeerState := mkPeerState {
  lastSyncHLC : HLC;
  lastSyncTime : Z
}.

Definition serializePeerState (state : PeerState) : res bytes :=
  let result := u8_new 38 in
  let* hlcBytes := Hlc.serializeHLC (lastSyncHLC state) in
  let* result := u8_set result hlcBytes 0 in
  u8_set result (be 8 (lastSyncTime state)) 30.

Definition deserializePeerState (buffer : bytes) : res PeerState :=
  let* h := Hlc.deserializeHLC (slice 0 30 buffer) in
  let* t := dv_get 8 30 buffer in
  Ok (mkPeerState h (Number_of_bigint t)).

Section Store.
Context {S : Type} `{KVStore S}.

Definition getPeerState (kv : S) (peerSiteId : Site.SiteId) : res (option PeerState) :=
  let* data := kv_get kv (buildPeerStateKey peerSiteId) in
  match data with
  | None => Ok None
  | Some d => let* s := deserializePeerState d in Ok (Some s)
  end.

Definition setPeerState (kv : S) (peerSiteId : Site.SiteId) (hlc : HLC) (now : Z) : res S :=
  let* v := serializePeerState (mkPeerState hlc now) in
  kv_put kv (buildPeerStateKey peerSiteId) v.

Definition getPeerSentState (kv : S) (peerSiteId : Site.SiteId) : res (option HLC) :=
  let* data := kv_get kv (buildPeerSentStateKey peerSiteId) in
  match data with
  | None => Ok None
  | Some d => let* s := deserializePeerState d in Ok (Some (lastSyncHLC s))
  end.

Definition setPeerSentState (kv : S) (peerSiteId : Site.SiteId) (hlc : HLC) (now : Z) : res S :=
  let* v := serializePeerState (mkPeerState hlc now) in
  kv_put kv (buildPeerSentStateKey peerSiteId) v.

Fixpoint min_loop (min : option HLC) (entries : list kventry) : res (option HLC) :=
  match entries with
  | [] => Ok min
  | (_, v) :: entries' =>
    let* s := deserializePeerState v in
    min_loop (match min with
              | None => Some (lastSyncHLC s)
              | Some m => if Hlc.compareHLC (lastSyncHLC s) m <? 0 then Some (lastSyncHLC s) else Some m
              end) entries'
  end.

Definition getMinSentWatermark (kv : S) : res (option HLC) :=
  let* entries := kv_iterate kv (prefixBounds PEER_SENT_STATE) in min_loop None entries.

Fixpoint peers_loop (entries : list kventry) : res (list (Site.SiteId * PeerState)) :=
  match entries with
  | [] => Ok []
  | (key, v) :: entries' =>
    match parsePeerStateKey key with
    | None => Throw EMalformedKey
    | Some site =>
      let* s := deserializePeerState v in
      let* rest := peers_loop entries' in
      Ok ((site, s) :: rest)
    end
  end.

Definition getAllPeers (kv : S) : res (list (Site.SiteId * PeerState)) :=
  let* entries := kv_iterate kv (prefixBounds PEER_STATE) in peers_loop entries.

Definition deletePeerState (kv : S) (peerSiteId : Site.SiteId) : res S :=
  kv_delete kv (buildPeerStateKey peerSiteId).

End Store.

(** ** The two tables a replica keeps *)

Record peers := mkPeers {
  received : gmap Site.SiteId PeerState;
  sent : gmap Site.SiteId PeerState
}.

Definition valid_site (s : Site.SiteId) : Prop := wf_bytes s /\ length s = 16%nat.

Definition valid_state (s : PeerState) : Prop :=
  Hlc.valid_hlc (lastSyncHLC s) /\ 0 <= lastSyncTime s < 2 ^ 53.

Definition state_bytes (s : PeerState) : bytes := Hlc.hlc_bytes (lastSyncHLC s) ++ be 8 (lastSyncTime s).

Lemma serialize_state s : valid_state s -> serializePeerState s = Ok (state_bytes s).
Proof.
  intros [Hv _]. unfold serializePeerState. rewrite Hlc.serializeHLC_bytes by apply Hv. cbn [res_bind].
  assert (length (Hlc.hlc_bytes (lastSyncHLC s)) = 30%nat) as L by (apply Hlc.length_hlc_bytes, Hv).
  change (u8_new 38) with ([] ++ u8_new 30 ++ u8_new 8). rewrite u8_set_at by (by rewrite ?L). cbn [res_bind].
  pose proof (u8_set_at (Hlc.hlc_bytes (lastSyncHLC s)) (u8_new 8) [] (be 8 (lastSyncTime s)) 30 L eq_refl) as E.
  by rewrite !app_nil_r in E.
Qed.

Lemma deserialize_state s : valid_state s -> deserializePeerState (state_bytes s) = Ok s.
Proof.
  intros [Hv Ht]. unfold deserializePeerState, state_bytes.
  assert (length (Hlc.hlc_bytes (lastSyncHLC s)) = 30%nat) as L by (apply Hlc.length_hlc_bytes, Hv).
  pose proof (slice_app_l (Hlc.hlc_bytes (lastSyncHLC s)) (be 8 (lastSyncTime s))) as E1. rewrite L in E1.
  pose proof (dv_get_mid (Hlc.hlc_bytes (lastSyncHLC s)) (be 8 (lastSyncTime s)) [] 8 30 L eq_refl) as E2.
  rewrite app_nil_r in E2. rewrite E1, E2, Hlc.deserialize_hlc_bytes by done. cbn [res_bind].
  rewrite unbe_be_small by (cbn; lia). rewrite Number_of_bigint_exact by lia. by destruct s.
Qed.

(** A watermark family of the store holds exactly the table [t]. *)
Record family (prefix : bytes) (m : kvmap) (t : gmap Site.SiteId PeerState) : Prop := {
  fam_valid site s : t !! site = Some s -> valid_site site /\ valid_state s;
  fam_get site : valid_site site -> m !! (prefix ++ encode (Site.siteIdToBase64 site)) = state_bytes <$> t !! site;
  fam_range k v : in_range (prefixBounds prefix) k = true -> m !! k = Some v ->
    exists site, valid_site site /\ k = prefix ++ encode (Site.siteIdToBase64 site)
}.

Lemma site_text site : valid_site site -> text_ok (Site.siteIdToBase64 site).
Proof. intros [Hw _]. by apply text_ascii, b64_ascii. Qed.

Lemma site_key_inj prefix a b :
  valid_site a -> valid_site b ->
  prefix ++ encode (Site.siteIdToBase64 a) = prefix ++ encode (Site.siteIdToBase64 b) -> a = b.
Proof.
  intros Ha Hb E. apply app_inv_head in E. apply encode_inj in E; [|by apply site_text..].
  rewrite <- (Site.base64url_roundtrip a) by apply Ha. rewrite <- (Site.base64url_roundtrip b) by apply Hb.
  by unfold Site.siteIdToBase64 in E; rewrite E.
Qed.

Lemma family_put prefix m t site s :
  family prefix m t -> valid_site site -> valid_state s ->
  family prefix (<[prefix ++ encode (Site.siteIdToBase64 site) := state_bytes s]> m) (<[site := s]> t).
Proof.
  intros [H1 H2 H3] Hs Hv. split.
  - intros site' s'. rewrite lookup_insert_Some. intros [[<- <-]|[_ H]]; [done|by apply H1].
  - intros site' Hs'. destruct (decide (site' = site)) as [->|Hne]; [by rewrite !lookup_insert_eq|].
    rewrite !lookup_insert_ne; [by apply H2|done|]. intros E. by apply Hne, (site_key_inj prefix).
  - intros k v Hk. rewrite lookup_insert_Some. intros [[<- _]|[_ H]]; [by exists site|by apply (H3 k v)].
Qed.

Lemma family_delete prefix m t site :
  family prefix m t -> valid_site site ->
  family prefix (delete (prefix ++ encode (Site.siteIdToBase64 site)) m) (delete site t).
Proof.
  intros [H1 H2 H3] Hs. split.
  - intros site' s'. rewrite lookup_delete_Some. intros [_ H]. by apply H1.
  - intros site' Hs'. destruct (decide (site' = site)) as [->|Hne]; [by rewrite !lookup_delete_eq|].
    rewrite !lookup_delete_ne; [by apply H2|done|]. intros E. by apply Hne, (site_key_inj prefix).
  - intros k v Hk. rewrite lookup_delete_Some. intros [_ H]. by apply (H3 k v).
Qed.

(** Writes under another prefix leave a family alone. *)
Lemma family_frame prefix m m' t :
  prefix <> [] -> Forall (fun b => 0 <= b < 255) prefix ->
  (forall k, (exists x, k = prefix ++ x) -> m' !! k = m !! k) -> family prefix m t -> family prefix m' t.
Proof.
  intros Hne Hp Hf [H1 H2 H3]. split; [done|..].
  - intros site Hs. rewrite Hf by by eexists. by apply H2.
  - intros k v Hk Hv. rewrite Hf in Hv by by apply prefixBounds_exact. by apply (H3 k v).
Qed.

Lemma peer_key site : buildPeerStateKey site = PEER_STATE ++ encode (Site.siteIdToBase64 site).
Proof. unfold buildPeerStateKey. by rewrite encode_app by ascii. Qed.

Lemma peer_sent_key site : buildPeerSentStateKey site = PEER_SENT_STATE ++ encode (Site.siteIdToBase64 site).
Proof. unfold buildPeerSentStateKey. by rewrite encode_app by ascii. Qed.

Lemma prefix_low (p : bytes) : p = PEER_STATE \/ p = PEER_SENT_STATE -> p <> [] /\ Forall (fun b => 0 <= b < 255) p.
Proof. intros [->| ->]; (split; [done|]); repeat constructor; lia. Qed.

Lemma families_apart x y : PEER_STATE ++ x <> PEER_SENT_STATE ++ y.
Proof.
  change PEER_STATE with [112; 115; 58]. change PEER_SENT_STATE with [112; 116; 58]. intros E. discriminate E.
Qed.

Inductive request : Type :=
| SetReceived (site : Site.SiteId) (hlc : HLC) (now : Z)
| SetSent (site : Site.SiteId) (hlc : HLC) (now : Z)
| Forget (site : Site.SiteId).

Definition wf_request (r : request) : Prop :=
  match r with
  | SetReceived site hlc now | SetSent site hlc now =>
    valid_site site /\ valid_state (mkPeerState hlc now)
  | Forget site => valid_site site
  end.

Definition spec_step (p : peers) (r : request) : peers :=
  match r with
  | SetReceived site hlc now => mkPeers (<[site := mkPeerState hlc now]> (received p)) (sent p)
  | SetSent site hlc now => mkPeers (received p) (<[site := mkPeerState hlc now]> (sent p))
  | Forget site => mkPeers (delete site (received p)) (sent p)
  end.

Section Peers.
Context {S : Type} `{KVStoreLaws S}.

Definition step (kv : S) (r : request) : res S :=
  match r with
  | SetReceived site hlc now => setPeerState kv site hlc now
  | SetSent site hlc now => setPeerSentState kv site hlc now
  | Forget site => deletePeerState kv site
  end.

Fixpoint run (kv : S) (rs : list request) : res S :=
  match rs with
  | [] => Ok kv
  | r :: rs' => let* kv' := step kv r in run kv' rs'
  end.

Definition holds (kv : S) (p : peers) : Prop :=
  kv_ok kv /\ family PEER_STATE (kv_abs kv) (received p) /\ family PEER_SENT_STATE (kv_abs kv) (sent p).

Lemma site_key_wf prefix site : wf_bytes prefix -> valid_site site -> wf_bytes (prefix ++ encode (Site.siteIdToBase64 site)).
Proof. intros Hp Hs. apply wf_app. split; [done|]. by apply encode_wf, site_text. Qed.

Lemma peer_prefix_wf : wf_bytes PEER_STATE /\ wf_bytes PEER_SENT_STATE.
Proof. by split; repeat constructor. Qed.

Lemma step_holds (kv : S) p r :
  holds kv p -> wf_request r -> exists kv', step kv r = Ok kv' /\ holds kv' (spec_step p r).
Proof.
  intros (Hok & Hr & Hs) Hw. destruct peer_prefix_wf as [Wp Ws].
  destruct r as [site hlc now|site hlc now|site]; cbn in Hw; cbn [step].
  - destruct Hw as [Hsite Hv]. unfold setPeerState. rewrite serialize_state, peer_key by done. cbn [res_bind].
    destruct (kv_put_spec kv (PEER_STATE ++ encode (Site.siteIdToBase64 site)) (state_bytes (mkPeerState hlc now)) Hok)
      as (kv' & E & Hok' & Ha); [by apply site_key_wf|].
    exists kv'. split; [done|]. unfold holds. rewrite Ha. split; [done|]. split; [by apply family_put|].
    destruct (prefix_low PEER_SENT_STATE) as [Hn Hl]; [by right|]. apply (family_frame _ (kv_abs kv)); try done.
    intros k [x ->]. apply lookup_insert_ne. apply families_apart.
  - destruct Hw as [Hsite Hv]. unfold setPeerSentState. rewrite serialize_state, peer_sent_key by done. cbn [res_bind].
    destruct (kv_put_spec kv (PEER_SENT_STATE ++ encode (Site.siteIdToBase64 site)) (state_bytes (mkPeerState hlc now)) Hok)
      as (kv' & E & Hok' & Ha); [by apply site_key_wf|].
    exists kv'. split; [done|]. unfold holds. rewrite Ha. split; [done|]. split; [|by apply family_put].
    destruct (prefix_low PEER_STATE) as [Hn Hl]; [by left|]. apply (family_frame _ (kv_abs kv)); try done.
    intros k [x ->]. apply lookup_insert_ne. intros E'. symmetry in E'. by apply families_apart in E'.
  - unfold deletePeerState. rewrite peer_key.
    destruct (kv_delete_spec kv (PEER_STATE ++ encode (Site.siteIdToBase64 site)) Hok)
      as (kv' & E & Hok' & Ha); [by apply site_key_wf|].
    exists kv'. split; [done|]. unfold holds. rewrite Ha. split; [done|]. split; [by apply family_delete|].
    destruct (prefix_low PEER_SENT_STATE) as [Hn Hl]; [by right|]. apply (family_frame _ (kv_abs kv)); try done.
    intros k [x ->]. apply lookup_delete_ne. apply families_apart.
Qed.

Lemma run_holds (kv : S) p rs :
  holds kv p -> Forall wf_request rs -> exists kv', run kv rs = Ok kv' /\ holds kv' (foldl spec_step p rs).
Proof.
  intros Hh Hw. revert kv p Hh. induction Hw as [|r rs Hr Hw IH]; intros kv p Hh; [by exists kv|].
  destruct (step_holds kv p r Hh Hr) as (kv1 & E1 & Hh1). destruct (IH kv1 _ Hh1) as (kv' & E & Hh').
  exists kv'. cbn [run]. by rewrite E1.
Qed.

(** ** Reading *)

Lemma family_entries (kv : S) prefix t :
  (prefix = PEER_STATE \/ prefix = PEER_SENT_STATE) -> kv_ok kv -> family prefix (kv_abs kv) t ->
  exists l, kv_iterate kv (prefixBounds prefix)
      = Ok (map (fun x => (prefix ++ encode (Site.siteIdToBase64 x.1), state_bytes x.2)) l) /\
    (forall x, x ∈ l <-> t !! x.1 = Some x.2).
Proof.
  intros Hpre Hok Hf. destruct (prefix_low prefix Hpre) as [Hne Hlow].
  assert (wf_options (prefixBounds prefix)) as Hwf.
  { destruct (TableIdentity.increment_wf prefix Hne Hlow). by apply TableIdentity.wf_prefix_options. }
  rewrite kv_iterate_spec by done. set (entries := spec_iterate _ _).
  assert (forall e, e ∈ entries <-> in_range (prefixBounds prefix) e.1 = true /\ kv_abs kv !! e.1 = Some e.2) as Hel
    by (intros; by apply StoreRead.elem_of_spec_iterate).
  assert (Forall (fun e => exists x, t !! x.1 = Some x.2 /\
    e = (prefix ++ encode (Site.siteIdToBase64 x.1), state_bytes x.2)) entries) as Hall.
  { apply Forall_forall. intros [k v] Hin. apply Hel in Hin as [Hr Hv]. cbn in Hr, Hv.
    destruct (fam_range _ _ _ Hf k v Hr Hv) as (site & Hs & ->).
    rewrite (fam_get _ _ _ Hf site Hs) in Hv. apply fmap_Some in Hv as (s & Ht & ->). by exists (site, s). }
  assert (exists l, entries = map (fun x => (prefix ++ encode (Site.siteIdToBase64 x.1), state_bytes x.2)) l /\
    Forall (fun x => t !! x.1 = Some x.2) l) as (l & El & Hl).
  { clear Hel. induction Hall as [|e entries' (x & Hx & ->) _ IH]; [by exists []|].
    destruct IH as (l & -> & Hl). exists (x :: l). split; [done|]. by apply Forall_cons_2. }
  exists l. split; [by rewrite El|]. rewrite Forall_forall in Hl. intros [site s]. split; [apply Hl|]. cbn. intros Ht.
  assert ((prefix ++ encode (Site.siteIdToBase64 site), state_bytes s) ∈ entries) as Hin.
  { destruct (fam_valid _ _ _ Hf site s Ht) as [Hs _]. apply Hel. split; [by apply prefixBounds_exact; eauto|].
    cbn. by rewrite (fam_get _ _ _ Hf site Hs), Ht. }
  rewrite El in Hin. apply list_elem_of_fmap in Hin as ([site' s'] & E & Hin). pose proof (Hl _ Hin) as Ht'. cbn in Ht'.
  apply (f_equal fst) in E. cbn [fst] in E.
  apply site_key_inj in E; [|by eapply (fam_valid _ _ _ Hf)..]. subst site'. by simplify_eq.
Qed.

Lemma get_family (kv : S) prefix t site :
  wf_bytes prefix -> kv_ok kv -> family prefix (kv_abs kv) t -> valid_site site ->
  kv_get kv (prefix ++ encode (Site.siteIdToBase64 site)) = Ok (state_bytes <$> t !! site).
Proof.
  intros Hp Hok Hf Hs. rewrite kv_get_spec; [|done|by apply site_key_wf]. by rewrite (fam_get _ _ _ Hf site Hs).
Qed.

(** The running minimum: a lower bound of what was read, and one of it. *)
Lemma min_loop_spec acc (l : list (Site.SiteId * PeerState)) f :
  Forall (fun x => valid_state x.2) l ->
  exists m, min_loop acc (map (fun x => (f x, state_bytes x.2)) l) = Ok m /\
    match m with
    | None => acc = None /\ l = []
    | Some h => (acc = Some h \/ exists x, x ∈ l /\ lastSyncHLC x.2 = h) /\
        Forall (fun x => Hlc.hlc_cmp h (lastSyncHLC x.2) <> Gt) l /\
        (forall a, acc = Some a -> Hlc.hlc_cmp h a <> Gt)
    end.
Proof.
  intros Hv. revert acc. induction Hv as [|[site s] l Hs Hv IH]; intros acc.
  - exists acc. split; [done|]. destruct acc as [h|]; [|done]. split_and!; [by left|constructor|].
    intros a [= ->]. by rewrite (cmp_refl Hlc.hlc_cmp).
  - cbn [map min_loop snd] in *. rewrite deserialize_state by done. cbn [res_bind].
    set (acc' := match acc with None => _ | Some m => _ end).
    assert (exists a', acc' = Some a' /\ Hlc.hlc_cmp a' (lastSyncHLC s) <> Gt /\
      (forall a, acc = Some a -> Hlc.hlc_cmp a' a <> Gt) /\ (a' = lastSyncHLC s \/ acc = Some a')) as (a' & Ea & H1 & H2 & H3).
    { unfold acc'. destruct acc as [a|].
      - destruct (Z.ltb_spec (Hlc.compareHLC (lastSyncHLC s) a) 0) as [Hlt|Hge].
        + exists (lastSyncHLC s). apply Hlc.compareHLC_lt in Hlt. split_and!; [done|by rewrite (cmp_refl Hlc.hlc_cmp)| |by left].
          intros b [= <-]. by rewrite Hlt.
        + exists a. split_and!; [done| | |by right].
          * rewrite (cmp_opp Hlc.hlc_cmp (lastSyncHLC s)). intros E.
            assert (Hlc.hlc_cmp (lastSyncHLC s) a = Lt) as Hlt by (destruct (Hlc.hlc_cmp (lastSyncHLC s) a); cbn in E; congruence).
            apply Hlc.compareHLC_lt in Hlt. lia.
          * intros b [= <-]. by rewrite (cmp_refl Hlc.hlc_cmp).
      - exists (lastSyncHLC s). split_and!; [done|by rewrite (cmp_refl Hlc.hlc_cmp)|done|by left]. }
    rewrite Ea. destruct (IH (Some a')) as (m & Em & Hm). exists m. split; [done|].
    destruct m as [h|]; [|by destruct Hm]. destruct Hm as (Hin & Hall & Hacc). specialize (Hacc a' eq_refl).
    split_and!.
    + destruct Hin as [[= <-]|(x & Hx & <-)].
      * destruct H3 as [->|H3]; [right; exists (site, s); split; [by left|done]|by left].
      * right. exists x. split; [by right|done].
    + apply Forall_cons_2; [|done]. cbn. by apply (cmp_le_trans Hlc.hlc_cmp h a').
    + intros a Ha. apply (cmp_le_trans Hlc.hlc_cmp h a'); auto.
Qed.

Lemma peers_loop_spec l :
  Forall (fun x => valid_site x.1 /\ valid_state x.2) l ->
  peers_loop (map (fun x => (PEER_STATE ++ encode (Site.siteIdToBase64 x.1), state_bytes x.2)) l) = Ok l.
Proof.
  induction 1 as [|[site s] l [[Hw Hl] Hs] _ IH]; [done|]. cbn [map peers_loop fst snd] in *.
  rewrite <- peer_key. unfold buildPeerStateKey. rewrite (parse_peer_key 115) by auto.
  rewrite deserialize_state by done. cbn [res_bind]. by rewrite IH.
Qed.

(** The two watermarks of a peer are kept apart and read back as last set:
    after any sequence of updates and removals, the received and the sent
    watermark of every peer are the latest ones, the list of peers is exactly
    the peers with a received watermark, and the minimum sent watermark is the
    least of the sent ones, absent exactly when there are none. *)
Theorem peer_watermarks (kv : S) (p : peers) (rs : list request) :
  holds kv p -> Forall wf_request rs ->
  exists kv' ps m, let p' := foldl spec_step p rs in
    run kv rs = Ok kv' /\
    (forall site, valid_site site -> getPeerState kv' site = Ok (received p' !! site)) /\
    (forall site, valid_site site -> getPeerSentState kv' site = Ok (lastSyncHLC <$> sent p' !! site)) /\
    getAllPeers kv' = Ok ps /\ (forall site s, (site, s) ∈ ps <-> received p' !! site = Some s) /\
    getMinSentWatermark kv' = Ok m /\
    match m with
    | None => sent p' = ∅
    | Some h => (exists site s, sent p' !! site = Some s /\ lastSyncHLC s = h) /\
        (forall site s, sent p' !! site = Some s -> Hlc.compareHLC h (lastSyncHLC s) <= 0)
    end.
Proof.
  intros Hh Hw. destruct (run_holds kv p rs Hh Hw) as (kv' & E & Hok & Hr & Hs). destruct peer_prefix_wf as [Wp Ws].
  set (p' := foldl spec_step p rs) in *.
  destruct (family_entries kv' PEER_STATE _ (or_introl eq_refl) Hok Hr) as (lr & Er & Hlr).
  destruct (family_entries kv' PEER_SENT_STATE _ (or_intror eq_refl) Hok Hs) as (ls & Es & Hls).
  assert (Forall (fun x => valid_site x.1 /\ valid_state x.2) lr) as Vr
    by (apply Forall_forall; intros x Hx; apply Hlr in Hx; by apply (fam_valid _ _ _ Hr)).
  assert (Forall (fun x => valid_state x.2) ls) as Vs
    by (apply Forall_forall; intros x Hx; apply Hls in Hx; by apply (fam_valid _ _ _ Hs x.1)).
  destruct (min_loop_spec None ls (fun x => PEER_SENT_STATE ++ encode (Site.siteIdToBase64 x.1)) Vs) as (m & Em & Hm).
  exists kv', lr, m. cbv zeta. split_and!; try done.
  - intros site Hsite. unfold getPeerState. rewrite peer_key, (get_family kv' PEER_STATE (received p') site) by done.
    destruct (received p' !! site) as [s|] eqn:Et; cbn [fmap option_fmap option_map res_bind]; [|done].
    rewrite deserialize_state; [done|]. by apply (fam_valid _ _ _ Hr site).
  - intros site Hsite. unfold getPeerSentState. rewrite peer_sent_key, (get_family kv' PEER_SENT_STATE (sent p') site) by done.
    destruct (sent p' !! site) as [s|] eqn:Et; cbn [fmap option_fmap option_map res_bind]; [|done].
    rewrite deserialize_state; [done|]. by apply (fam_valid _ _ _ Hs site).
  - unfold getAllPeers. rewrite Er. by apply peers_loop_spec.
  - unfold getMinSentWatermark. rewrite Es. exact Em.
  - destruct m as [h|].
    + destruct Hm as ([?|([site s] & Hx & Eh)] & Hall & _); [done|]. split.
      * exists site, s. split; [by apply (Hls (site, s))|done].
      * intros site' s' Ht. rewrite Forall_forall in Hall.
        assert ((site', s') ∈ ls) as Hin by by apply Hls. specialize (Hall _ Hin). cbn in Hall.
        rewrite <- Hlc.compareHLC_gt in Hall. lia.
    + destruct Hm as [_ ->]. apply map_empty. intros site. apply eq_None_not_Some. intros [s Ht].
      apply (not_elem_of_nil (site, s)). by apply Hls.
Qed.

End Peers.

Definition toy_requests : list request :=
  let a := Hlc.siteId toy_position in let b := replicate 16 9 in
  [SetReceived a toy_position 5; SetSent a toy_position 6;
   SetSent b (Hlc.mkHLC 7 0 a 0) 7; SetReceived b toy_position 8; Forget a].

Lemma peer_watermarks_witness :
  exists kv' m, run MemoryStore.new_store toy_requests = Ok kv' /\ getMinSentWatermark kv' = Ok m /\ m <> None.
Proof.
  destruct (peer_watermarks MemoryStore.new_store (mkPeers ∅ ∅) toy_requests) as (kv' & ps & m & E & _ & _ & _ & _ & Em & Hm).
  - split; [by split|]. split; split; intros *; by rewrite ?lookup_empty.
  - apply Forall_forall. intros r Hr.
    repeat (apply elem_of_cons in Hr as [->|Hr]; [repeat split; try done; by repeat constructor|]). by apply elem_of_nil in Hr.
  - exists kv', m. split; [done|]. split; [done|]. intros ->. revert Hm. cbn. intros Hm.
    apply (f_equal (fun x => x !! (replicate 16 9 : bytes))) in Hm. vm_compute in Hm. discriminate Hm.
Defined.

End PeerStates.
