(* ===== verification/SyncApply.v ===== *)
(** * Applying remote changes

    Models how a replica applies a batch of changes from a peer
    ([packages/quereus-sync/src/sync]): conflict resolution, the in-batch rules,
    the filing of the records ([change-applicator.ts]), the admission order
    ([admission.ts]), the local-write tracker ([local-write-tracker.ts]) and the
    row writes of the store adapter ([store-adapter.ts]), for batches without
    schema migrations.

    The record stores are finite maps: cell versions by row and column,
    tombstones by row, change-log entries and held changes by what their keys are
    built from ([SyncKeys] shows that those keys are read back exactly).  A row
    is named by [rowIdentityKey], as the in-batch maps name it.  A call that
    stages into a write batch returns the operations it appends.  [Date.now()]
    is an argument.  Calls run to completion: a local commit during an apply is
    seen only through the tracker.

    Storage may fail.  A batch write of the metadata store commits all of its
    operations or none and may reject ([kv-store.ts]); [rejected] names the write
    of the apply that does, if one does, counting from 0.  A read that rejects
    has the effect of rejecting the next write.  [thrown] is what the tables are
    left at when the store callback throws. *)

From S2P Require Import Prelude Bytes Double Decimal Site Hlc KvStore Transaction StoreRead Utf8 Comparison KeySerializer KeyEncoding SyncKeys.
From Stdlib Require Import ZArith Lia.
From stdpp Require Import sorting.
From stdpp Require Import base tactics numbers sets gmap list.
#[local] Open Scope Z_scope.

Import SyncKeys.

Module SyncApply.

Abbreviation HLC := Hlc.HLC.

Section Model.
Context (keying : jsstring -> jsstring -> PkKeying) (toLowerCase : jsstring -> jsstring).

Abbreviation value := (Comparison.SqlValue).
Abbreviation Row := (list value).

(** ** Changes ([protocol.ts]) *)

Record ColumnChange := mkColumnChange {
  cc_schema : jsstring;
  cc_table : jsstring;
  cc_pk : list value;
  cc_column : jsstring;
  cc_value : value;
  cc_hlc : HLC;
  cc_priorHlc : option HLC;
  cc_priorValue : option value
}.

Record RowDeletion := mkDeletion {
  rd_schema : jsstring;
  rd_table : jsstring;
  rd_pk : list value;
  rd_hlc : HLC;
  rd_priorRow : option Row
}.

Inductive Change : Type :=
| CColumn (c : ColumnChange)
| CDelete (d : RowDeletion).

Definition ch_schema (c : Change) : jsstring := match c with CColumn c => cc_schema c | CDelete d => rd_schema d end.
Definition ch_table (c : Change) : jsstring := match c with CColumn c => cc_table c | CDelete d => rd_table d end.
Definition ch_pk (c : Change) : list value := match c with CColumn c => cc_pk c | CDelete d => rd_pk d end.
Definition ch_hlc (c : Change) : HLC := match c with CColumn c => cc_hlc c | CDelete d => rd_hlc d end.

(** A change set that carries no schema migration. *)
Record ChangeSet := mkChangeSet {
  cs_siteId : Site.SiteId;
  cs_hlc : HLC;
  cs_changes : list Change
}.

Inductive DataType : Type := DInsert | DUpdate | DDelete.

Record DataChangeToApply := mkData {
  dc_type : DataType;
  dc_schema : jsstring;
  dc_table : jsstring;
  dc_pk : list value;
  dc_columns : option (list (jsstring * value))
}.

Record ConflictContext := mkConflict {
  x_schema : jsstring;
  x_table : jsstring;
  x_pk : list value;
  x_column : jsstring;
  x_localValue : value;
  x_localHlc : HLC;
  x_remoteValue : value;
  x_remoteHlc : HLC;
  x_remotePrior : option (HLC * option value)
}.

Inductive ConflictResolution : Type := Local | Remote.

Definition lwwResolver (ctx : ConflictContext) : ConflictResolution :=
  if 0 <? Hlc.compareHLC (x_remoteHlc ctx) (x_localHlc ctx) then Remote else Local.

Definition localWinsResolver (ctx : ConflictContext) : ConflictResolution := Local.

Definition remoteWinsResolver (ctx : ConflictContext) : ConflictResolution := Remote.

Inductive UnknownTableDisposition : Type := Quarantine | Ignore | StoreAndForward.

Record SyncConfig := mkConfig {
  conflictResolver : option (ConflictContext -> ConflictResolution);
  allowResurrection : bool;
  unknownTableDisposition : UnknownTableDisposition
}.

(** ** Records *)

Record ColumnVersion := mkVersion {
  cv_hlc : HLC;
  cv_position : option HLC;
  cv_value : value;
  cv_pk : list value;
  cv_priorHlc : option HLC;
  cv_priorValue : option value
}.

Record Tombstone := mkTombstone {
  tb_hlc : HLC;
  tb_position : option HLC;
  tb_createdAt : Z;
  tb_pk : list value;
  tb_priorRow : option Row
}.

Record QuarantineEntry := mkHeld {
  qe_change : Change;
  qe_receivedAt : Z;
  qe_forwardable : bool;
  qe_position : option HLC
}.

Definition holdPosition (entry : QuarantineEntry) : HLC :=
  filingPosition (mkFiled (ch_hlc (qe_change entry)) (qe_position entry)).

(** What a change-log key and a quarantine key are built from. *)
Abbreviation LogKey := (HLC * ChangeLogEntryType * jsstring * option jsstring)%type.
Abbreviation HoldKey := (jsstring * HLC * ChangeLogEntryType * option jsstring)%type.

Record SyncMetadata := mkMeta {
  clock : Hlc.HLCManager;
  savedClock : option (Z * Z);
  columnVersions : gmap (jsstring * jsstring) ColumnVersion;
  tombstones : gmap jsstring Tombstone;
  changeLog : gmap LogKey HLC;
  quarantine : gmap HoldKey QuarantineEntry;
  deltaFloor : option HLC
}.

Inductive MetaOp : Type :=
| PutVersion (row column : jsstring) (v : ColumnVersion)
| DelVersion (row column : jsstring)
| PutTombstone (row : jsstring) (t : Tombstone)
| PutEntry (key : LogKey) (origin : HLC)
| DelEntry (key : LogKey)
| PutHold (key : HoldKey) (e : QuarantineEntry)
| SaveClock (state : Z * Z).

Definition apply_op (m : SyncMetadata) (op : MetaOp) : SyncMetadata :=
  match op with
  | PutVersion row column v =>
    mkMeta (clock m) (savedClock m) (<[(row, column) := v]> (columnVersions m)) (tombstones m) (changeLog m) (quarantine m) (deltaFloor m)
  | DelVersion row column =>
    mkMeta (clock m) (savedClock m) (delete (row, column) (columnVersions m)) (tombstones m) (changeLog m) (quarantine m) (deltaFloor m)
  | PutTombstone row t =>
    mkMeta (clock m) (savedClock m) (columnVersions m) (<[row := t]> (tombstones m)) (changeLog m) (quarantine m) (deltaFloor m)
  | PutEntry key origin =>
    mkMeta (clock m) (savedClock m) (columnVersions m) (tombstones m) (<[key := origin]> (changeLog m)) (quarantine m) (deltaFloor m)
  | DelEntry key =>
    mkMeta (clock m) (savedClock m) (columnVersions m) (tombstones m) (delete key (changeLog m)) (quarantine m) (deltaFloor m)
  | PutHold key e =>
    mkMeta (clock m) (savedClock m) (columnVersions m) (tombstones m) (changeLog m) (<[key := e]> (quarantine m)) (deltaFloor m)
  | SaveClock state =>
    mkMeta (clock m) (Some state) (columnVersions m) (tombstones m) (changeLog m) (quarantine m) (deltaFloor m)
  end.

Definition write_batch (m : SyncMetadata) (ops : list MetaOp) : SyncMetadata := foldl apply_op m ops.

Definition set_clock (m : SyncMetadata) (c : Hlc.HLCManager) : SyncMetadata :=
  mkMeta c (savedClock m) (columnVersions m) (tombstones m) (changeLog m) (quarantine m) (deltaFloor m).

(** ** Row identity *)

Definition identity (schema table : jsstring) (pk : list value) : jsstring :=
  encodePkIdentity pk (keying schema table).

Definition row_key (schema table : jsstring) (pk : list value) : jsstring :=
  joinKeyParts [schema; table; identity schema table pk].

Definition rowIdentityKey (c : Change) (freshLocalTable : bool) : jsstring :=
  let id := if freshLocalTable then encodeRawPkIdentity (ch_pk c)
            else identity (ch_schema c) (ch_table c) (ch_pk c) in
  joinKeyParts [ch_schema c; ch_table c; id].

Definition deleteKey (d : RowDeletion) : jsstring := js "delete:" ++ rowIdentityKey (CDelete d) false.

Definition columnKey (c : ColumnChange) : jsstring :=
  js "column:" ++ rowIdentityKey (CColumn c) false ++ joinKeyParts [cc_column c].

Definition tableKey (schema table : jsstring) : jsstring := schema ++ js "." ++ table.

(** ** The record stores ([column-version.ts], [tombstones.ts], [change-log.ts]) *)

Definition getColumnVersion (m : SyncMetadata) (schema table : jsstring) (pk : list value) (column : jsstring)
    : option ColumnVersion := columnVersions m !! (row_key schema table pk, column).

Definition getTombstone (m : SyncMetadata) (schema table : jsstring) (pk : list value) : option Tombstone :=
  tombstones m !! row_key schema table pk.

Definition isDeletedAndBlocking (m : SyncMetadata) (schema table : jsstring) (pk : list value) (incomingHLC : HLC)
    (allowResurrection : bool) : bool :=
  match getTombstone m schema table pk with
  | None => false
  | Some t => if allowResurrection then Hlc.compareHLC incomingHLC (tb_hlc t) <=? 0 else true
  end.

(** The cells of a row: what a scan of its prefix reads. *)
Definition getRowVersions (m : SyncMetadata) (row : jsstring) : list (jsstring * ColumnVersion) :=
  omap (fun p => if decide (p.1.1 = row) then Some (p.1.2, p.2) else None) (map_to_list (columnVersions m)).

Definition setColumnVersionBatch (schema table : jsstring) (pk : list value) (column : jsstring) (hlc position : HLC)
    (v : value) (priorHlc : option HLC) (priorValue : option value) : list MetaOp :=
  [PutVersion (row_key schema table pk) column
     (mkVersion hlc (positionField hlc (Some position)) v pk priorHlc priorValue)].

Definition setTombstoneBatch (schema table : jsstring) (pk : list value) (filed : FiledAt) (priorRow : option Row)
    (createdAt : Z) : list MetaOp :=
  [PutTombstone (row_key schema table pk)
     (mkTombstone (f_hlc filed) (positionField (f_hlc filed) (f_position filed)) createdAt pk priorRow)].

Definition log_key (filed : FiledAt) (entryType : ChangeLogEntryType) (schema table : jsstring) (pk : list value)
    (column : option jsstring) : LogKey := (filingPosition filed, entryType, row_key schema table pk, column).

Definition recordColumnChangeBatch (filed : FiledAt) (schema table : jsstring) (pk : list value) (column : jsstring)
    : list MetaOp := [PutEntry (log_key filed ETColumn schema table pk (Some column)) (f_hlc filed)].

Definition recordDeletionBatch (filed : FiledAt) (schema table : jsstring) (pk : list value) : list MetaOp :=
  [PutEntry (log_key filed ETDelete schema table pk None) (f_hlc filed)].

Definition deleteEntryBatch (filed : FiledAt) (entryType : ChangeLogEntryType) (schema table : jsstring)
    (pk : list value) (column : option jsstring) : list MetaOp := [DelEntry (log_key filed entryType schema table pk column)].

Definition version_filed (v : ColumnVersion) : FiledAt := mkFiled (cv_hlc v) (cv_position v).
Definition tombstone_filed (t : Tombstone) : FiledAt := mkFiled (tb_hlc t) (tb_position t).

(** [deleteRowVersionsAndLogEntries] with nothing staged. *)
Definition deleteRowVersionsAndLogEntries (m : SyncMetadata) (schema table : jsstring) (pk : list value)
    (keepColumns : gset jsstring) : list MetaOp :=
  let row := row_key schema table pk in
  let removed := List.filter (fun p => negb (bool_decide (p.1 ∈ keepColumns))) (getRowVersions m row) in
  map (fun p => DelVersion row p.1) removed ++
  concat (map (fun p => deleteEntryBatch (version_filed p.2) ETColumn schema table pk (Some p.1)) removed).

(** ** Local writes during an apply ([local-write-tracker.ts]) *)

Record LocalWriteTracker := mkTracker {
  lw_cells : gset jsstring;
  lw_replacedRows : gset jsstring;
  lw_closed : bool
}.

Definition newTracker : LocalWriteTracker := mkTracker ∅ ∅ false.

Definition lw_rowKey (schema table : jsstring) (pk : list value) : jsstring :=
  joinKeyParts [toLowerCase schema; toLowerCase table; identity schema table pk].

Definition cellKey (row column : jsstring) : jsstring := joinKeyParts [row; toLowerCase column].

Definition noteCells (t : LocalWriteTracker) (schema table : jsstring) (pk : list value) (columns : list jsstring)
    : LocalWriteTracker :=
  if lw_closed t then t
  else mkTracker (lw_cells t ∪ list_to_set (map (cellKey (lw_rowKey schema table pk)) columns)) (lw_replacedRows t) false.

Definition noteRowReplaced (t : LocalWriteTracker) (schema table : jsstring) (pk : list value) : LocalWriteTracker :=
  if lw_closed t then t else mkTracker (lw_cells t) ({[ lw_rowKey schema table pk ]} ∪ lw_replacedRows t) false.

Definition close (t : LocalWriteTracker) : LocalWriteTracker := mkTracker (lw_cells t) (lw_replacedRows t) true.

Definition supersedes (t : LocalWriteTracker) (schema table : jsstring) (pk : list value) (column : option jsstring) : bool :=
  if bool_decide (lw_cells t = ∅) && bool_decide (lw_replacedRows t = ∅) then false
  else
    let row := lw_rowKey schema table pk in
    bool_decide (row ∈ lw_replacedRows t) ||
    match column with Some c => bool_decide (cellKey row c ∈ lw_cells t) | None => false end.

Definition supersededChange (t : LocalWriteTracker) (c : Change) : bool :=
  supersedes t (ch_schema c) (ch_table c) (ch_pk c) (match c with CColumn c => Some (cc_column c) | CDelete _ => None end).

(** ** Phase 1: resolution *)

Inductive Outcome : Type := Applied | Skipped | Conflict.

#[global] Instance Outcome_eq_dec : EqDecision Outcome.
Proof. solve_decision. Defined.

Record ResolvedChange := mkResolved {
  outcome : Outcome;
  change : Change;
  dataChange : option DataChangeToApply;
  keepColumns : gset jsstring;
  priorErasedByInBatchDelete : bool;
  freshLocalTable : bool;
  editOfForgottenRow : bool
}.

(** A result with an outcome and its change only. *)
Definition plain (o : Outcome) (c : Change) : ResolvedChange := mkResolved o c None ∅ false false false.

(** [emitConflictResolved]: the conflict and who won it. *)
Record ConflictEvent := mkEvent { ev_context : ConflictContext; ev_winner : ConflictResolution }.

Context (ctxSiteId : Site.SiteId) (config : SyncConfig).

Definition isEditOfForgottenRow (m : SyncMetadata) (c : ColumnChange) : bool :=
  if allowResurrection config || negb (bool_decide (is_Some (cc_priorHlc c))) then false
  else if negb (bool_decide (is_Some (deltaFloor m))) then false
  else (length (getRowVersions m (row_key (cc_schema c) (cc_table c) (cc_pk c))) =? 0)%nat.

Definition conflict_of (c : ColumnChange) (localVersion : ColumnVersion) : ConflictContext :=
  mkConflict (cc_schema c) (cc_table c) (cc_pk c) (cc_column c) (cv_value localVersion) (cv_hlc localVersion)
    (cc_value c) (cc_hlc c)
    (match cc_priorHlc c with Some h => Some (h, cc_priorValue c) | None => None end).

Definition remote_wins (c : ColumnChange) (localVersion : ColumnVersion) : bool :=
  match conflictResolver config with
  | Some resolver => match resolver (conflict_of c localVersion) with Remote => true | Local => false end
  | None => 0 <? Hlc.compareHLC (cc_hlc c) (cv_hlc localVersion)
  end.

Definition resolveChange (m : SyncMetadata) (c : Change) (fresh : bool) : ResolvedChange * list ConflictEvent :=
  if Site.siteIdEquals (Hlc.siteId (ch_hlc c)) ctxSiteId then (plain Skipped c, [])
  else
    match c with
    | CDelete d =>
      let existingTombstone := if fresh then None else getTombstone m (rd_schema d) (rd_table d) (rd_pk d) in
      if match existingTombstone with Some t => Hlc.compareHLC (rd_hlc d) (tb_hlc t) <=? 0 | None => false end
      then (plain Skipped c, [])
      else (mkResolved Applied c (Some (mkData DDelete (rd_schema d) (rd_table d) (rd_pk d) None)) ∅ false false false, [])
    | CColumn cc =>
      let localVersion := if fresh then None else getColumnVersion m (cc_schema cc) (cc_table cc) (cc_pk cc) (cc_column cc) in
      match localVersion with
      | Some v =>
        if negb (remote_wins cc v) then (plain Conflict c, [mkEvent (conflict_of cc v) Local])
        else if isDeletedAndBlocking m (cc_schema cc) (cc_table cc) (cc_pk cc) (cc_hlc cc) (allowResurrection config)
        then (plain Skipped c, [])
        else (mkResolved Applied c
                (Some (mkData DUpdate (cc_schema cc) (cc_table cc) (cc_pk cc) (Some [(cc_column cc, cc_value cc)])))
                ∅ false false false,
              [mkEvent (conflict_of cc v) Remote])
      | None =>
        let isBlocked := if fresh then false
                         else isDeletedAndBlocking m (cc_schema cc) (cc_table cc) (cc_pk cc) (cc_hlc cc) (allowResurrection config) in
        if isBlocked then (plain Skipped c, [])
        else (mkResolved Applied c
                (Some (mkData DUpdate (cc_schema cc) (cc_table cc) (cc_pk cc) (Some [(cc_column cc, cc_value cc)])))
                ∅ false false (negb fresh && isEditOfForgottenRow m cc), [])
      end
    end.

(** ** In-batch rules *)

Definition is_applied (r : ResolvedChange) : bool := bool_decide (outcome r = Applied).

Definition row_of (r : ResolvedChange) : jsstring := rowIdentityKey (change r) (freshLocalTable r).

(** The greatest applied delete of each row, as the index of its entry. *)
Fixpoint delete_winners (entries : list ResolvedChange) (i : nat) (winners : gmap jsstring (nat * HLC))
    : gmap jsstring (nat * HLC) :=
  match entries with
  | [] => winners
  | entry :: entries' =>
    let winners' :=
      match change entry with
      | CDelete d =>
        if is_applied entry then
          match winners !! row_of entry with
          | Some (_, h) => if 0 <? Hlc.compareHLC (rd_hlc d) h then <[row_of entry := (i, rd_hlc d)]> winners else winners
          | None => <[row_of entry := (i, rd_hlc d)]> winners
          end
        else winners
      | CColumn _ => winners
      end in
    delete_winners entries' (S i) winners'
  end.

(** A column change against the winning delete of its row: does it survive? *)
Definition survives (h : HLC) (c : ColumnChange) : bool :=
  allowResurrection config && (0 <? Hlc.compareHLC (cc_hlc c) h).

(** The columns a winning delete keeps: those whose change survived it. *)
Definition kept_columns (winners : gmap jsstring (nat * HLC)) (row : jsstring) (entries : list ResolvedChange) : gset jsstring :=
  list_to_set (omap (fun r =>
    match change r with
    | CColumn c =>
      if is_applied r && bool_decide (row_of r = row) then
        match winners !! row with Some (_, h) => if survives h c then Some (cc_column c) else None | None => None end
      else None
    | CDelete _ => None
    end) entries).

Definition reconcile_entry (winners : gmap jsstring (nat * HLC)) (entries : list ResolvedChange) (i : nat)
    (entry : ResolvedChange) : ResolvedChange :=
  match change entry with
  | CDelete _ =>
    (* the winner's own object collects the columns kept past it *)
    match winners !! row_of entry with
    | Some (j, _) =>
      if is_applied entry && (j =? i)%nat
      then mkResolved (outcome entry) (change entry) (dataChange entry) (kept_columns winners (row_of entry) entries)
             (priorErasedByInBatchDelete entry) (freshLocalTable entry) (editOfForgottenRow entry)
      else entry
    | None => entry
    end
  | CColumn c =>
    if negb (is_applied entry) then entry
    else
      match winners !! row_of entry with
      | None => entry
      | Some (_, h) =>
        if survives h c
        then mkResolved (outcome entry) (change entry) (dataChange entry) (keepColumns entry) true (freshLocalTable entry)
               (editOfForgottenRow entry)
        else plain Skipped (change entry)
      end
  end.

Definition reconcileInBatchDeletes (resolved : list ResolvedChange) : list ResolvedChange :=
  imap (reconcile_entry (delete_winners resolved 0 ∅) resolved) resolved.

(** With no schema change in the batch, no table has its records elsewhere. *)
Definition founded_rows (resolved : list ResolvedChange) : gset jsstring :=
  list_to_set (omap (fun r =>
    match change r with
    | CColumn c => if is_applied r && negb (bool_decide (is_Some (cc_priorHlc c))) then Some (row_of r) else None
    | CDelete _ => None
    end) resolved).

Definition refuseEditsOfForgottenRows (resolved : list ResolvedChange) : list ResolvedChange :=
  let foundedRows := founded_rows resolved in
  map (fun entry =>
    if negb (editOfForgottenRow entry) then entry
    else if bool_decide (rowIdentityKey (change entry) false ∈ foundedRows) then entry
    else plain Skipped (change entry)) resolved.

(** ** Phase 3: filing *)

Inductive FactToFile : Type :=
| FDelete (d : RowDeletion) (keepColumns : gset jsstring)
| FColumn (c : ColumnChange) (priorErasedByInBatchDelete : bool)
| FHeld (c : Change) (receivedAt : Z) (forwardable : bool).

Definition fact_hlc (f : FactToFile) : HLC :=
  match f with FDelete d _ => rd_hlc d | FColumn c _ => cc_hlc c | FHeld c _ _ => ch_hlc c end.

Definition keepMaxHLC (winners : list (jsstring * ResolvedChange)) (key : jsstring) (resolved : ResolvedChange)
    : list (jsstring * ResolvedChange) :=
  match alist_get key winners with
  | Some prev =>
    if 0 <? Hlc.compareHLC (ch_hlc (change resolved)) (ch_hlc (change prev)) then alist_set key resolved winners else winners
  | None => alist_set key resolved winners
  end.

Definition collapse_step (w : list (jsstring * ResolvedChange) * list (jsstring * ResolvedChange)) (resolved : ResolvedChange)
    : list (jsstring * ResolvedChange) * list (jsstring * ResolvedChange) :=
  if negb (is_applied resolved) then w
  else
    match change resolved with
    | CDelete d => (keepMaxHLC w.1 (deleteKey d) resolved, w.2)
    | CColumn c => (w.1, keepMaxHLC w.2 (columnKey c) resolved)
    end.

Definition fact_of (r : ResolvedChange) : FactToFile :=
  match change r with
  | CDelete d => FDelete d (keepColumns r)
  | CColumn c => FColumn c (priorErasedByInBatchDelete r)
  end.

Definition collapseInBatchRepeats (resolvedChanges : list ResolvedChange) : list FactToFile :=
  let w := foldl collapse_step ([], []) resolvedChanges in
  map fact_of (w.1.*2 ++ w.2.*2).

Record HoldOptions := mkHold { ho_changes : list Change; ho_receivedAt : Z; ho_forwardable : bool }.

Definition heldFacts (hold : option HoldOptions) : list FactToFile :=
  match hold with
  | Some h => map (fun c => FHeld c (ho_receivedAt h) (ho_forwardable h)) (ho_changes h)
  | None => []
  end.

Definition lostToLocalWrite (localWrites : LocalWriteTracker) (f : FactToFile) : bool :=
  match f with
  | FDelete d _ => supersededChange localWrites (CDelete d)
  | FColumn c _ => supersededChange localWrites (CColumn c)
  | FHeld _ _ _ => false
  end.

Definition hold_key (c : Change) : HoldKey :=
  (joinKeyParts [ch_schema c; ch_table c; encodeRawPkIdentity (ch_pk c)], ch_hlc c,
   match c with CColumn _ => ETColumn | CDelete _ => ETDelete end,
   match c with CColumn cc => Some (cc_column cc) | CDelete _ => None end).

(** The position a held fact keeps. *)
Definition existing_hold (m : SyncMetadata) (f : FactToFile) : option HLC :=
  match f with
  | FHeld c _ forwardable =>
    match quarantine m !! hold_key c with
    | Some entry => if qe_forwardable entry || negb forwardable then Some (holdPosition entry) else None
    | None => None
    end
  | _ => None
  end.

Context (now : Z).

Definition commitDeleteMetadata (d : RowDeletion) (position : HLC) (oldTombstone : option Tombstone) : list MetaOp :=
  let filed := mkFiled (rd_hlc d) (Some position) in
  match oldTombstone with
  | Some t => deleteEntryBatch (tombstone_filed t) ETDelete (rd_schema d) (rd_table d) (rd_pk d) None
  | None => []
  end ++
  setTombstoneBatch (rd_schema d) (rd_table d) (rd_pk d) filed (rd_priorRow d) now ++
  recordDeletionBatch filed (rd_schema d) (rd_table d) (rd_pk d).

Definition commitColumnMetadata (c : ColumnChange) (position : HLC) (oldColumnVersion : option ColumnVersion)
    (priorErased : bool) : list MetaOp :=
  let prior :=
    match oldColumnVersion with
    | Some v => if bool_decide (is_Some (cc_priorHlc c)) && negb priorErased then Some v else None
    | None => None
    end in
  match oldColumnVersion with
  | Some v => deleteEntryBatch (version_filed v) ETColumn (cc_schema c) (cc_table c) (cc_pk c) (Some (cc_column c))
  | None => []
  end ++
  setColumnVersionBatch (cc_schema c) (cc_table c) (cc_pk c) (cc_column c) (cc_hlc c) position (cc_value c)
    (cv_hlc <$> prior) (cv_value <$> prior) ++
  recordColumnChangeBatch (mkFiled (cc_hlc c) (Some position)) (cc_schema c) (cc_table c) (cc_pk c) (cc_column c).

(** A fact and the record it replaces, read before the batch is written. *)
Definition fileFact (m : SyncMetadata) (f : FactToFile) (position : HLC) : list MetaOp :=
  match f with
  | FDelete d _ => commitDeleteMetadata d position (getTombstone m (rd_schema d) (rd_table d) (rd_pk d))
  | FColumn c erased =>
    commitColumnMetadata c position (getColumnVersion m (cc_schema c) (cc_table c) (cc_pk c) (cc_column c)) erased
  | FHeld c receivedAt forwardable =>
    [PutHold (hold_key c) (mkHeld c receivedAt forwardable (positionField (ch_hlc c) (Some position)))]
  end.

(** Positions in origin order; a re-held change keeps its own. *)
Fixpoint file_all (m : SyncMetadata) (tick : HLC) (opSeq : Z) (facts : list FactToFile) : res (list MetaOp) :=
  match facts with
  | [] => Ok []
  | f :: facts' =>
    match existing_hold m f with
    | Some p => let* rest := file_all m tick opSeq facts' in Ok (fileFact m f p ++ rest)
    | None =>
      let* p := positionsFrom tick opSeq in
      let* rest := file_all m tick p.2 facts' in
      Ok (fileFact m f p.1 ++ rest)
    end
  end.

Context (rejected : option nat).

(** [batch.write()], the [n]th of the apply. *)
Definition submit (n : nat) (m : SyncMetadata) (ops : list MetaOp) : SyncMetadata * res unit :=
  if bool_decide (rejected = Some n) then (m, Throw EStore) else (write_batch m ops, Ok tt).

(** The clock in memory moves before the batch is written, and stays moved when
    the write rejects. *)
Definition fileAtNextTick (m : SyncMetadata) (facts : list FactToFile) (watermarkHLC : option HLC)
    (localWrites : LocalWriteTracker) : SyncMetadata * res (list FactToFile) :=
  let toFile := List.filter (fun f => negb (lostToLocalWrite (close localWrites) f)) facts in
  match (match watermarkHLC with
         | Some h => let* r := Hlc.receive (clock m) h now in Ok (set_clock m r.1)
         | None => Ok m
         end) with
  | Throw e => (m, Throw e)
  | Ok m1 =>
    let '(m2, staged) :=
      match toFile with
      | [] => (m1, Ok [])
      | _ :: _ =>
        let t := Hlc.tick (clock m1) now in
        (set_clock m1 t.1, file_all m1 t.2 0 (js_sort (fun a b => Hlc.compareHLC (fact_hlc a) (fact_hlc b)) toFile))
      end in
    match staged with
    | Throw e => (m2, Throw e)
    | Ok ops =>
      let '(m3, written) := submit 0 m2 (ops ++ [SaveClock (Hlc.getState (clock m2))]) in
      (m3, let* _ := written in Ok toFile)
    end
  end.

Definition columnsKeptPastDelete (d : RowDeletion) (keep : gset jsstring) (localWrites : LocalWriteTracker) : gset jsstring :=
  filter (fun column => supersedes localWrites (rd_schema d) (rd_table d) (rd_pk d) (Some column) = false) keep.

(** The cleanup of the filed deletes, one batch each, the first being write [n]
    of the apply; it stops at a write that rejects. *)
Fixpoint cleanup (n : nat) (m : SyncMetadata) (localWrites : LocalWriteTracker) (filed : list FactToFile)
    : SyncMetadata * res unit :=
  match filed with
  | [] => (m, Ok tt)
  | FDelete d keep :: filed' =>
    match submit n m (deleteRowVersionsAndLogEntries m (rd_schema d) (rd_table d) (rd_pk d)
                        (columnsKeptPastDelete d keep localWrites)) with
    | (m1, Throw e) => (m1, Throw e)
    | (m1, Ok _) => cleanup (S n) m1 localWrites filed'
    end
  | _ :: filed' => cleanup n m localWrites filed'
  end.

Definition commitChangeMetadata (m : SyncMetadata) (resolvedChanges : list ResolvedChange) (watermarkHLC : option HLC)
    (hold : option HoldOptions) (localWrites : LocalWriteTracker) : SyncMetadata * res unit :=
  let facts := collapseInBatchRepeats resolvedChanges ++ heldFacts hold in
  match facts, watermarkHLC with
  | [], None => (m, Ok tt)
  | _, _ =>
    match fileAtNextTick m facts watermarkHLC localWrites with
    | (m1, Throw e) => (m1, Throw e)
    | (m1, Ok filed) => cleanup 1 m1 localWrites filed
    end
  end.

(** ** Phase 2: row writes ([store-adapter.ts]) *)

Record StoreTable := mkStoreTable {
  columnIndexMap : gmap jsstring nat;
  columnCount : nat;
  primaryKeyIndices : list nat;
  storedRows : gmap jsstring Row
}.

Definition Tables : Type := gmap (jsstring * jsstring) StoreTable.

(** [row[i]]. *)
Definition cell (row : Row) (i : nat) : value := default Comparison.VNull (row !! i).

Definition group_step (key : DataChangeToApply -> jsstring) (grouped : list (jsstring * list DataChangeToApply))
    (c : DataChangeToApply) : list (jsstring * list DataChangeToApply) :=
  match alist_get (key c) grouped with
  | Some existing => alist_set (key c) (existing ++ [c]) grouped
  | None => alist_set (key c) [c] grouped
  end.

Definition groupChangesByTable (changes : list DataChangeToApply) : list (jsstring * list DataChangeToApply) :=
  foldl (group_step (fun c => tableKey (dc_schema c) (dc_table c))) [] changes.

Definition groupChangesByRow (changes : list DataChangeToApply) (pkIdentity : list value -> jsstring)
    : list (jsstring * list DataChangeToApply) := foldl (group_step (fun c => pkIdentity (dc_pk c))) [] changes.

Fixpoint withoutSupersededChanges (changes : list DataChangeToApply) (superseded : LocalWriteTracker)
    : list DataChangeToApply :=
  match changes with
  | [] => []
  | c :: changes' =>
    let rest := withoutSupersededChanges changes' superseded in
    match dc_type c, dc_columns c with
    | DDelete, _ => if supersedes superseded (dc_schema c) (dc_table c) (dc_pk c) None then rest else c :: rest
    | _, None => c :: rest
    | _, Some columns =>
      match List.filter (fun p => negb (supersedes superseded (dc_schema c) (dc_table c) (dc_pk c) (Some p.1))) columns with
      | [] => rest
      | kept => mkData (dc_type c) (dc_schema c) (dc_table c) (dc_pk c) (Some kept) :: rest
      end
    end
  end.

Inductive ExternalRowOp : Type :=
| ODelete (pk : list value)
| OUpsert (row : Row).

(** The loop of [buildRowOp]: whether a delete was met, and the updates after
    the last one. *)
Fixpoint net_effect (deleted : bool) (updates : list DataChangeToApply) (changes : list DataChangeToApply)
    : bool * list DataChangeToApply :=
  match changes with
  | [] => (deleted, updates)
  | c :: changes' =>
    match dc_type c with
    | DDelete => net_effect true [] changes'
    | _ => net_effect deleted (updates ++ [c]) changes'
    end
  end.

Definition set_column (table : StoreTable) (row : Row) (p : jsstring * value) : Row :=
  match columnIndexMap table !! toLowerCase p.1 with
  | Some i => <[i := p.2]> row
  | None => row
  end.

Definition set_columns (table : StoreTable) (row : Row) (c : DataChangeToApply) : Row :=
  foldl (set_column table) row (default [] (dc_columns c)).

Definition key_row (table : StoreTable) (pk : list value) : Row :=
  foldl (fun row p => <[p.2 := cell pk p.1]> row) (replicate (columnCount table) Comparison.VNull) (imap pair (primaryKeyIndices table)).

Definition mergeColumnUpdates (table : StoreTable) (existing : option Row) (pk : list value)
    (changes : list DataChangeToApply) : Row :=
  foldl (set_columns table) (match existing with Some row => row | None => key_row table pk end) changes.

Definition extractPK (table : StoreTable) (row : Row) : list value := map (cell row) (primaryKeyIndices table).

Definition buildRowOp (table : StoreTable) (pkIdentity : list value -> jsstring) (pk : list value)
    (changes : list DataChangeToApply) : ExternalRowOp :=
  let '(deleted, updates) := net_effect false [] changes in
  match deleted, updates with
  | true, [] => ODelete pk
  | _, _ => OUpsert (mergeColumnUpdates table (if deleted then None else storedRows table !! pkIdentity pk) pk updates)
  end.

Definition apply_row_op (table : StoreTable) (pkIdentity : list value -> jsstring) (rows : gmap jsstring Row)
    (op : ExternalRowOp) : gmap jsstring Row :=
  match op with
  | ODelete pk => delete (pkIdentity pk) rows
  | OUpsert row => <[pkIdentity (extractPK table row) := row]> rows
  end.

Definition applyExternalRowChanges (table : StoreTable) (pkIdentity : list value -> jsstring) (ops : list ExternalRowOp)
    : StoreTable :=
  mkStoreTable (columnIndexMap table) (columnCount table) (primaryKeyIndices table)
    (foldl (apply_row_op table pkIdentity) (storedRows table) ops).

(** One table's changes: the table written, or the changes reported as errors. *)
Definition write_table (tables : Tables) (localWrites : LocalWriteTracker) (tableChanges : list DataChangeToApply)
    : Tables * nat :=
  match tableChanges with
  | [] => (tables, 0%nat)
  | first :: _ =>
    let schema := dc_schema first in
    let name := dc_table first in
    match withoutSupersededChanges tableChanges localWrites with
    | [] => (tables, 0%nat)
    | toWrite =>
      match tables !! (schema, name) with
      | None => (tables, length tableChanges)
      | Some table =>
        let pkIdentity := identity schema name in
        let ops := map (fun g => buildRowOp table pkIdentity (match g.2 with c :: _ => dc_pk c | [] => [] end) g.2)
                     (groupChangesByRow toWrite pkIdentity) in
        (<[(schema, name) := applyExternalRowChanges table pkIdentity ops]> tables, 0%nat)
      end
    end
  end.

Fixpoint writeTableRows (tables : Tables) (localWrites : LocalWriteTracker)
    (changesByTable : list (jsstring * list DataChangeToApply)) : Tables * nat :=
  match changesByTable with
  | [] => (tables, 0%nat)
  | (_, tableChanges) :: groups =>
    let '(tables1, errors1) := write_table tables localWrites tableChanges in
    let '(tables2, errors2) := writeTableRows tables1 localWrites groups in
    (tables2, (errors1 + errors2)%nat)
  end.

(** ** The apply *)

Record Replica := mkReplica { meta : SyncMetadata; tables : option Tables }.

Context (thrown : option Tables).

(** Without a store callback, or with nothing to write, no data is applied. *)
Definition applyDataToStore (r : Replica) (dataChanges : list DataChangeToApply) (localWrites : LocalWriteTracker)
    : Replica * res unit :=
  match tables r, dataChanges with
  | None, _ | _, [] => (r, Ok tt)
  | Some ts, _ =>
    match thrown with
    | Some ts' => (mkReplica (meta r) (Some ts'), Throw EStore)
    | None =>
      let '(ts', errors) := writeTableRows ts localWrites (groupChangesByTable dataChanges) in
      (mkReplica (meta r) (Some ts'), if (errors =? 0)%nat then Ok tt else Throw (EApplyFailed errors))
    end
  end.

(** Data first; metadata only when the data landed. *)
Definition admitGroup (r : Replica) (dataChanges : list DataChangeToApply) (localWrites : LocalWriteTracker)
    (commitMetadata : SyncMetadata -> SyncMetadata * res unit) : Replica * res unit :=
  match applyDataToStore r dataChanges localWrites with
  | (r1, Throw e) => (r1, Throw e)
  | (r1, Ok _) =>
    let '(m, committed) := commitMetadata (meta r1) in (mkReplica m (tables r1), committed)
  end.

Definition has_data (r : ResolvedChange) : option (HLC * DataChangeToApply) :=
  match dataChange r with Some d => Some (ch_hlc (change r), d) | None => None end.

Definition orderDataChangesByHLC (applied : list ResolvedChange) : list DataChangeToApply :=
  (js_sort (fun a b => Hlc.compareHLC a.1 b.1) (omap has_data applied)).*2.

Context (isTableInBasis : jsstring -> jsstring -> bool).

(** Phase 1b for one change: skipped as an echo, diverted, or resolved. *)
Inductive Routed : Type :=
| REcho
| RUnknown (c : Change)
| RResolved (r : ResolvedChange) (events : list ConflictEvent).

Definition route (m : SyncMetadata) (c : Change) : Routed :=
  if Site.siteIdEquals (Hlc.siteId (ch_hlc c)) ctxSiteId then REcho
  else if negb (isTableInBasis (ch_schema c) (ch_table c)) then RUnknown c
  else let '(r, events) := resolveChange m c false in RResolved r events.

Definition unknown_step (groups : list (jsstring * list Change)) (x : Routed) : list (jsstring * list Change) :=
  match x with
  | RUnknown c =>
    let key := tableKey (ch_schema c) (ch_table c) in
    alist_set key (default [] (alist_get key groups) ++ [c]) groups
  | _ => groups
  end.

Definition holdOptions (unknownByTable : list (jsstring * list Change)) (receivedAt : Z) : option HoldOptions :=
  match unknownTableDisposition config, unknownByTable with
  | Ignore, _ | _, [] => None
  | Quarantine, _ => Some (mkHold (concat unknownByTable.*2) receivedAt false)
  | StoreAndForward, _ => Some (mkHold (concat unknownByTable.*2) receivedAt true)
  end.

Record ApplyResult := mkResult {
  ar_applied : nat;
  ar_skipped : nat;
  ar_conflicts : nat;
  ar_transactions : nat;
  ar_unknownTable : nat
}.

Definition count_outcome (o : Outcome) (rs : list ResolvedChange) : nat :=
  length (List.filter (fun r => bool_decide (outcome r = o)) rs).

Definition is_echo (x : Routed) : bool := match x with REcho => true | _ => false end.
Definition resolved_of (x : Routed) : option ResolvedChange := match x with RResolved r _ => Some r | _ => None end.

Definition applyTrackedBatch (r : Replica) (changes : list ChangeSet) (watermarkHLC : option HLC)
    (localWrites : LocalWriteTracker) : Replica * res ApplyResult :=
  let routed := map (route (meta r)) (concat (map cs_changes changes)) in
  let reconciled := refuseEditsOfForgottenRows (reconcileInBatchDeletes (omap resolved_of routed)) in
  let resolvedDataChanges := List.filter is_applied reconciled in
  let unknownByTable := foldl unknown_step [] routed in
  let dataChangesToApply := orderDataChangesByHLC resolvedDataChanges in
  let '(r1, status) :=
    admitGroup r dataChangesToApply localWrites (fun m =>
      commitChangeMetadata m resolvedDataChanges watermarkHLC (holdOptions unknownByTable now) localWrites) in
  match status with
  | Throw e => (r1, Throw e)
  | Ok _ =>
    let landed := List.filter (fun x => negb (supersededChange localWrites (change x))) resolvedDataChanges in
    let lost := (length resolvedDataChanges - length landed)%nat in
    (r1, Ok (mkResult (length resolvedDataChanges - lost)
               (length (List.filter is_echo routed) + count_outcome Skipped reconciled)
               (count_outcome Conflict reconciled + lost)
               (length changes)
               (length (concat unknownByTable.*2))))
  end.

(** The drift check and the merge of the batch's clock come before anything. *)
Definition applyChanges (r : Replica) (changes : list ChangeSet) (localWrites : LocalWriteTracker)
    : Replica * res ApplyResult :=
  let watermarkHLC := Hlc.maxHLC (map cs_hlc changes) in
  match watermarkHLC with
  | None => applyTrackedBatch r changes None localWrites
  | Some h =>
    match Hlc.assertWithinDrift (Hlc.wallTime h) now with
    | Throw e => (r, Throw e)
    | Ok _ =>
      match Hlc.receive (clock (meta r)) h now with
      | Throw e => (r, Throw e)
      | Ok (c, _) => applyTrackedBatch (mkReplica (set_clock (meta r) c) (tables r)) changes watermarkHLC localWrites
      end
    end
  end.

End Model.
End SyncApply.
