(* ===== verification/SyncCommit.v ===== *)
(** * Applying remote changes: the commit of the metadata

    The commit of a batch's metadata as a partial function, when no write is
    rejected: [filing] is the one batch of [fileAtNextTick], [cleaned] the
    batches of its cleanup, [commit_all] both.  [commit_accepted] relates it to
    [commitChangeMetadata]; [commit_rejected] says what a rejected write leaves:
    either the clock alone has moved, or the filing is complete and the cleanup
    stopped at one of its deletes. *)

From S2P Require Import Prelude Bytes Double Decimal Site Hlc KvStore Transaction StoreRead Utf8 Comparison KeySerializer KeyEncoding SyncKeys SyncApply.
From Stdlib Require Import ZArith Lia.
From stdpp Require Import base tactics numbers sets gmap list.
#[local] Open Scope Z_scope.

Import SyncKeys SyncApply.

Module Commit.

Section Commit.
Context (keying : jsstring -> jsstring -> PkKeying) (toLowerCase : jsstring -> jsstring) (now : Z).

Abbreviation Meta := SyncMetadata.
Abbreviation Fact := FactToFile.
Abbreviation by_origin := (fun a b : Fact => Hlc.compareHLC (fact_hlc a) (fact_hlc b)).

(** The clock merged with the batch's. *)
Definition received (m : Meta) (w : option HLC) : res Meta :=
  match w with
  | Some h => let* r := Hlc.receive (clock m) h now in Ok (set_clock m r.1)
  | None => Ok m
  end.

Definition filing (m : Meta) (facts : list Fact) (w : option HLC) (lw : LocalWriteTracker) : res (Meta * list Fact) :=
  let toFile := List.filter (fun f => negb (lostToLocalWrite keying toLowerCase (close lw) f)) facts in
  let* m1 := received m w in
  let* r :=
    match toFile with
    | [] => Ok (m1, [])
    | _ :: _ =>
      let t := Hlc.tick (clock m1) now in
      let* ops := file_all keying now m1 t.2 0 (js_sort by_origin toFile) in
      Ok (set_clock m1 t.1, ops)
    end in
  Ok (write_batch r.1 (r.2 ++ [SaveClock (Hlc.getState (clock r.1))]), toFile).

Definition clean_one (m : Meta) (lw : LocalWriteTracker) (d : RowDeletion) (keep : gset jsstring) : Meta :=
  write_batch m (deleteRowVersionsAndLogEntries keying m (rd_schema d) (rd_table d) (rd_pk d)
    (columnsKeptPastDelete keying toLowerCase d keep lw)).

Fixpoint cleaned (m : Meta) (lw : LocalWriteTracker) (filed : list Fact) : Meta :=
  match filed with
  | [] => m
  | FDelete d keep :: filed' => cleaned (clean_one m lw d keep) lw filed'
  | _ :: filed' => cleaned m lw filed'
  end.

Definition commit_all (m : Meta) (rs : list ResolvedChange) (w : option HLC) (h : option HoldOptions)
    (lw : LocalWriteTracker) : res Meta :=
  let facts := collapseInBatchRepeats keying rs ++ heldFacts h in
  match facts, w with
  | [], None => Ok m
  | _, _ => let* r := filing m facts w lw in Ok (cleaned r.1 lw r.2)
  end.

(** What a filing that throws leaves: the clock merged and ticked. *)
Definition spent (m : Meta) (w : option HLC) : Meta :=
  match received m w with
  | Ok m1 => set_clock m1 (Hlc.tick (clock m1) now).1
  | Throw _ => m
  end.

Lemma file_accepted rejected m facts w lw :
  rejected <> Some 0%nat ->
  fileAtNextTick keying toLowerCase now rejected m facts w lw =
  match filing m facts w lw with Ok (m', filed) => (m', Ok filed) | Throw e => (spent m w, Throw e) end.
Proof.
  intros Hr. unfold fileAtNextTick, filing, spent, submit. fold (received m w). rewrite bool_decide_eq_false_2 by done.
  destruct (received m w) as [m1|e]; [|done]. cbn [res_bind].
  destruct (List.filter _ facts) as [|f fs]; [done|]. cbn zeta. by destruct (file_all _ _ _ _ _ _).
Qed.

Lemma cleanup_accepted rejected n m lw filed :
  (forall k, rejected = Some k -> (k < n)%nat) -> cleanup keying toLowerCase rejected n m lw filed = (cleaned m lw filed, Ok tt).
Proof.
  revert n m. induction filed as [|f filed IH]; intros n m Hr; [done|]. destruct f; cbn [cleanup cleaned]; [|by apply IH|by apply IH].
  unfold submit. rewrite bool_decide_eq_false_2; [|intros E; apply Hr in E; lia]. apply IH. intros k Hk. apply Hr in Hk. lia.
Qed.

Lemma commit_accepted m rs w h lw :
  commitChangeMetadata keying toLowerCase now None m rs w h lw =
  match commit_all m rs w h lw with Ok m' => (m', Ok tt) | Throw e => (spent m w, Throw e) end.
Proof.
  unfold commitChangeMetadata, commit_all. generalize (collapseInBatchRepeats keying rs ++ heldFacts h) as fs. intros fs.
  destruct fs as [|f fs], w as [x|]; [|done| |]; rewrite file_accepted by done;
    (destruct (filing _ _ _ _) as [[m1 filed]|e]; [|done]); cbn; by rewrite cleanup_accepted.
Qed.

(** The cleanup with faults: complete, or stopped after some of the filed facts. *)
Lemma cleanup_prefix rejected n m lw filed :
  match cleanup keying toLowerCase rejected n m lw filed with
  | (m', Ok _) => m' = cleaned m lw filed
  | (m', Throw e) => e = EStore /\ exists k done rest, rejected = Some (n + k)%nat /\ filed = done ++ rest /\ m' = cleaned m lw done
  end.
Proof.
  revert n m. induction filed as [|f filed IH]; intros n m; [done|]. destruct f as [d keep|c er|c t fw]; cbn [cleanup cleaned].
  - unfold submit. case_bool_decide as Hr.
    + split; [done|]. exists 0%nat, [], (FDelete d keep :: filed). by rewrite Nat.add_0_r.
    + fold (clean_one m lw d keep). specialize (IH (S n) (clean_one m lw d keep)). destruct (cleanup _ _ _ (S n) _ _ _) as [m' [u|e]]; [done|].
      destruct IH as (-> & k & l & rest & Hk & -> & ->). split; [done|]. exists (S k), (FDelete d keep :: l), rest. split_and!; [|done|done].
      rewrite Hk. f_equal. lia.
  - specialize (IH n m). destruct (cleanup _ _ _ n m lw filed) as [m' [u|e]]; [done|].
    destruct IH as (-> & k & l & rest & Hk & -> & ->). split; [done|]. by exists k, (FColumn c er :: l), rest.
  - specialize (IH n m). destruct (cleanup _ _ _ n m lw filed) as [m' [u|e]]; [done|].
    destruct IH as (-> & k & l & rest & Hk & -> & ->). split; [done|]. by exists k, (FHeld c t fw :: l), rest.
Qed.

(** The clock moved and nothing else, to a later time. *)
Definition ticked (m m' : Meta) : Prop :=
  m' = m \/ exists c, m' = set_clock m c /\
    Hlc.stamp_lt (Hlc.m_wallTime (clock m)) (Hlc.m_counter (clock m)) (Hlc.m_wallTime c) (Hlc.m_counter c).

(** The filing is complete and only some of its deletes are cleaned up. *)
Definition half_cleaned (m : Meta) (rs : list ResolvedChange) (w : option HLC) (h : option HoldOptions)
    (lw : LocalWriteTracker) (m' : Meta) : Prop :=
  exists m1 l rest, filing m (collapseInBatchRepeats keying rs ++ heldFacts h) w lw = Ok (m1, l ++ rest) /\
    commit_all m rs w h lw = Ok (cleaned m1 lw (l ++ rest)) /\ m' = cleaned m1 lw l.

Lemma set_clock_twice m c c' : set_clock (set_clock m c) c' = set_clock m c'.
Proof. done. Qed.

Lemma received_ticks m w m1 : received m w = Ok m1 -> ticked m m1.
Proof.
  destruct w as [x|]; cbn; [|intros [= ->]; by left]. destruct (Hlc.receive (clock m) x now) as [[c y]|] eqn:E; [|done].
  intros [= <-]. right. exists c. split; [done|]. by apply Hlc.receive_advances in E as [? _].
Qed.

Lemma ticked_tick m m1 : ticked m m1 -> ticked m (set_clock m1 (Hlc.tick (clock m1) now).1).
Proof.
  intros Ht. right. pose proof (Hlc.tick_advances (clock m1) now) as [Hlt _]. exists (Hlc.tick (clock m1) now).1.
  destruct Ht as [->|(c & -> & Hc)]; [done|]. split; [done|]. change (clock (set_clock m c)) with c in *. unfold Hlc.stamp_lt in *. lia.
Qed.

(** A filing that throws moves the clock at most. *)
Lemma file_thrown rejected m facts w lw m' e :
  fileAtNextTick keying toLowerCase now rejected m facts w lw = (m', Throw e) -> ticked m m'.
Proof.
  unfold fileAtNextTick. fold (received m w). destruct (received m w) as [m1|e1] eqn:E1; [|intros [= <- <-]; by left].
  apply received_ticks in E1. destruct (List.filter _ facts) as [|f fs].
  - unfold submit. case_bool_decide; [by intros [= <- <-]|done].
  - cbn zeta. apply ticked_tick in E1. destruct (file_all _ _ _ _ _ _) as [ops|e2]; [|by intros [= <- <-]].
    unfold submit. case_bool_decide; [by intros [= <- <-]|done].
Qed.

Lemma commit_result rejected m rs w h lw :
  match commitChangeMetadata keying toLowerCase now rejected m rs w h lw with
  | (m', Ok _) => commit_all m rs w h lw = Ok m'
  | (m', Throw e) => ticked m m' \/ (e = EStore /\ (exists k, rejected = Some (S k)) /\ half_cleaned m rs w h lw m')
  end.
Proof.
  unfold commitChangeMetadata, half_cleaned, commit_all. generalize (collapseInBatchRepeats keying rs ++ heldFacts h) as fs. intros fs.
  assert (H : match (match fileAtNextTick keying toLowerCase now rejected m fs w lw with
                     | (m1, Throw e) => (m1, Throw e)
                     | (m1, Ok filed) => cleanup keying toLowerCase rejected 1 m1 lw filed
                     end) with
    | (m', Ok _) => (let* r := filing m fs w lw in Ok (cleaned r.1 lw r.2)) = Ok m'
    | (m', Throw e) => ticked m m' \/ (e = EStore /\ (exists k, rejected = Some (S k)) /\
        exists m1 l rest, filing m fs w lw = Ok (m1, l ++ rest) /\
          (let* r := filing m fs w lw in Ok (cleaned r.1 lw r.2)) = Ok (cleaned m1 lw (l ++ rest)) /\ m' = cleaned m1 lw l)
    end).
  { destruct (fileAtNextTick _ _ _ _ _ _ _ _) as [m1 [filed|e]] eqn:Ef; [|left; by eapply file_thrown].
    destruct (decide (rejected = Some 0%nat)) as [->|Hr].
    - exfalso. revert Ef. unfold fileAtNextTick, submit. rewrite bool_decide_true by done. cbn zeta.
      repeat (case_match; [|done]); by repeat case_match.
    - rewrite file_accepted in Ef by done. destruct (filing m fs w lw) as [[m2 filed2]|]; [|done]. injection Ef as -> ->. cbn [res_bind fst snd].
      pose proof (cleanup_prefix rejected 1 m1 lw filed) as Hc. destruct (cleanup _ _ _ _ _ _ _) as [m' [u|e]]; [by rewrite Hc|].
      destruct Hc as (-> & k & l & rest & Hk & -> & ->). right. split_and!; [done|by exists k|]. by exists m1, l, rest. }
  destruct fs as [|f fs], w as [x|]; try exact H. done.
Qed.

End Commit.
End Commit.
