(* ===== verification/SyncBatch.v ===== *)
(** * Applying remote changes: the in-batch rules

    What the reconciled batch holds, and which facts it files, in terms of the
    set of the batch's changes: the greatest delete of each row, the greatest
    surviving write of each cell.  None of it depends on the order in which the
    changes arrived. *)

From S2P Require Import Prelude Bytes Double Decimal Site Hlc KvStore Transaction StoreRead Utf8 Comparison KeySerializer KeyEncoding SyncKeys.
From S2P Require Import SyncApply SyncCommit.
From Stdlib Require Import ZArith Lia.
From stdpp Require Import sorting.
From stdpp Require Import base tactics numbers sets gmap list.
#[local] Open Scope Z_scope.

Import SyncKeys SyncApply Commit.

#[local] Arguments rowIdentityKey : simpl never.
#[local] Arguments row_of : simpl never.
#[local] Arguments row_key : simpl never.
#[local] Arguments joinKeyParts : simpl never.

(** ** First maxima

    Both in-batch maps keep, per key, the entry of greatest timestamp and among
    equals the first. *)

Module FirstMax.

Abbreviation hle a b := (Hlc.hlc_cmp a b <> Gt).
Abbreviation hlt a b := (Hlc.hlc_cmp a b = Lt).

Lemma compare_gt a b : (0 <? Hlc.compareHLC a b) = true <-> hlt b a.
Proof. rewrite Z.ltb_lt, Hlc.compareHLC_gt. by rewrite (cmp_lt_gt Hlc.hlc_cmp). Qed.

Lemma compare_le_iff a b : Hlc.compareHLC a b <= 0 <-> hle a b.
Proof.
  pose proof (Hlc.compareHLC_gt a b) as H. split; [intros Hle E%H; lia|].
  intros Hn. destruct (Z.le_gt_cases (Hlc.compareHLC a b) 0) as [|Hgt]; [done|]. by destruct Hn; apply H.
Qed.

Lemma compare_ngt a b : (0 <? Hlc.compareHLC a b) = false <-> hle a b.
Proof. rewrite Z.ltb_ge. apply compare_le_iff. Qed.

Lemma compare_le a b : (Hlc.compareHLC a b <=? 0) = true <-> hle a b.
Proof. rewrite Z.leb_le. apply compare_le_iff. Qed.

Lemma hle_antisym a b : hle a b -> hle b a -> a = b.
Proof.
  intros H1 H2. apply (cmp_eq Hlc.hlc_cmp). pose proof (cmp_opp Hlc.hlc_cmp a b) as H.
  destruct (Hlc.hlc_cmp a b) eqn:E; [done| |done]. by rewrite H in H2.
Qed.

Lemma hlt_le a b : hlt a b -> hle a b.
Proof. by intros ->. Qed.

Lemma hle_refl a : hle a a.
Proof. by rewrite (cmp_refl Hlc.hlc_cmp). Qed.

Lemma nle_lt a b : ~ hle a b -> hlt b a.
Proof. intros H. apply (cmp_lt_gt Hlc.hlc_cmp). by destruct (Hlc.hlc_cmp a b); [destruct H|destruct H|]. Qed.

Lemma lfilter_perm {A} (f : A -> bool) (l l' : list A) : l ≡ₚ l' -> List.filter f l ≡ₚ List.filter f l'.
Proof. induction 1; cbn; repeat case_match; by econstructor. Qed.

#[global] Instance by_hlc_laws {A} (f : A -> HLC) : CmpLaws (fun a b => sgn (Hlc.compareHLC (f a) (f b))).
Proof. exact (cmp_on_laws (fun a b => sgn (Hlc.compareHLC a b)) f). Qed.

Section Max.
Context {A K : Type} (key : A -> option K) (hlc : A -> HLC).

Definition first_max (l : list A) (k : K) (i : nat) (a : A) : Prop :=
  l !! i = Some a /\ key a = Some k /\
  forall j b, l !! j = Some b -> key b = Some k -> hle (hlc b) (hlc a) /\ ((j < i)%nat -> hlt (hlc b) (hlc a)).

Definition absent (l : list A) (k : K) : Prop := forall a, a ∈ l -> key a <> Some k.

Lemma first_max_unique l k i j a b : first_max l k i a -> first_max l k j b -> i = j /\ a = b.
Proof.
  intros (Hi & Ka & Ha) (Hj & Kb & Hb). destruct (Ha j b Hj Kb) as [H1 H2]. destruct (Hb i a Hi Ka) as [H3 H4].
  assert (i = j) as ->; [|split; congruence]. destruct (Nat.lt_total i j) as [Hl|[He|Hl]]; [exfalso|done|exfalso].
  - apply (cmp_lt_gt Hlc.hlc_cmp) in H4; [|done]. by rewrite H4 in H1.
  - apply (cmp_lt_gt Hlc.hlc_cmp) in H2; [|done]. by rewrite H2 in H3.
Qed.

Lemma first_max_skip l x k i a : key x <> Some k -> first_max l k i a -> first_max (l ++ [x]) k i a.
Proof.
  intros Hx (Hi & Ka & Ha). split_and!; [by apply lookup_app_l_Some|done|].
  intros j b Hj Kb. apply lookup_app_Some in Hj as [Hj|[_ Hj]]; [by apply Ha|]. by apply list_lookup_singleton_Some in Hj as [_ ->].
Qed.

Lemma first_max_new l x k : key x = Some k -> absent l k -> first_max (l ++ [x]) k (length l) x.
Proof.
  intros Kx Hn. split_and!; [by apply list_lookup_middle|done|]. intros j b Hj Kb.
  apply lookup_app_Some in Hj as [Hj|[Hl Hj]]; [exfalso; by apply list_elem_of_lookup_2, Hn in Hj|].
  apply list_lookup_singleton_Some in Hj as [Hj ->]. split; [apply hle_refl|lia].
Qed.

Lemma first_max_greater l x k i a :
  key x = Some k -> first_max l k i a -> hlt (hlc a) (hlc x) -> first_max (l ++ [x]) k (length l) x.
Proof.
  intros Kx (Hi & Ka & Ha) Hlt. split_and!; [by apply list_lookup_middle|done|]. intros j b Hj Kb.
  apply lookup_app_Some in Hj as [Hj|[Hl Hj]].
  - assert (hlt (hlc b) (hlc x)) by (eapply (cmp_le_lt_trans Hlc.hlc_cmp); [by apply (Ha j)|done]). split; [by apply hlt_le|done].
  - apply list_lookup_singleton_Some in Hj as [Hj ->]. split; [apply hle_refl|lia].
Qed.

Lemma first_max_stays l x k i a :
  key x = Some k -> first_max l k i a -> hle (hlc x) (hlc a) -> first_max (l ++ [x]) k i a.
Proof.
  intros Kx (Hi & Ka & Ha) Hle. split_and!; [by apply lookup_app_l_Some|done|]. intros j b Hj Kb.
  apply lookup_app_Some in Hj as [Hj|[Hl Hj]]; [by apply Ha|]. apply list_lookup_singleton_Some in Hj as [Hj ->].
  split; [done|]. apply lookup_lt_Some in Hi. lia.
Qed.

Lemma absent_snoc l x k : key x <> Some k -> absent l k -> absent (l ++ [x]) k.
Proof. intros Hx Hl a [Ha| ->%list_elem_of_singleton]%elem_of_app; [by apply Hl|done]. Qed.

(** A maximum has the timestamp of the first one. *)
Lemma first_max_hlc l k i a b :
  first_max l k i a -> b ∈ l -> key b = Some k -> (forall c, c ∈ l -> key c = Some k -> hle (hlc c) (hlc b)) -> hlc a = hlc b.
Proof.
  intros (Hi & Ka & Ha) [j Hj]%list_elem_of_lookup Kb Hb. apply hle_antisym; [|by apply (Ha j)].
  apply Hb; [by apply list_elem_of_lookup_2 in Hi|done].
Qed.

End Max.
End FirstMax.

(** ** The in-batch rules *)

Module Batch.
Import FirstMax.

Section Batch.
Context (keying : jsstring -> jsstring -> PkKeying) (config : SyncConfig).

Abbreviation value := (Comparison.SqlValue).
Abbreviation Resolved := ResolvedChange.
Abbreviation row := (row_of keying).
Abbreviation row_id c := (rowIdentityKey keying c false).
Abbreviation delete_key := (deleteKey keying).
Abbreviation column_key := (columnKey keying).
Abbreviation winners := (delete_winners keying).
Abbreviation reconcile := (reconcileInBatchDeletes keying config).
Abbreviation founded := (founded_rows keying).
Abbreviation refuse := (refuseEditsOfForgottenRows keying).
Abbreviation kept := (kept_columns keying config).
Abbreviation collapse := (collapse_step keying).
Abbreviation facts_of := (collapseInBatchRepeats keying).

Definition hlc_of (r : Resolved) : HLC := ch_hlc (change r).

(** The key an entry competes for among the deletes of the batch. *)
Definition dkey (r : Resolved) : option jsstring :=
  match change r with CDelete _ => if is_applied r then Some (row r) else None | CColumn _ => None end.

Definition winner_step (w : gmap jsstring (nat * HLC)) (i : nat) (r : Resolved) : gmap jsstring (nat * HLC) :=
  match dkey r with
  | Some k =>
    match w !! k with
    | Some (_, h) => if 0 <? Hlc.compareHLC (hlc_of r) h then <[k := (i, hlc_of r)]> w else w
    | None => <[k := (i, hlc_of r)]> w
    end
  | None => w
  end.

Lemma winners_step r l i w : winners (r :: l) i w = winners l (S i) (winner_step w i r).
Proof.
  cbn [delete_winners]. f_equal. unfold winner_step, dkey, hlc_of. destruct (change r) as [c|d] eqn:Ec; [done|].
  by destruct (is_applied r).
Qed.

Lemma winners_app l1 l2 i w : winners (l1 ++ l2) i w = winners l2 (i + length l1) (winners l1 i w).
Proof.
  revert i w. induction l1 as [|r l1 IH]; intros i w; [by rewrite Nat.add_0_r|].
  rewrite <- app_comm_cons, !winners_step, IH. f_equal. cbn. lia.
Qed.

Definition winners_ok (l : list Resolved) (w : gmap jsstring (nat * HLC)) : Prop :=
  forall k, match w !! k with
            | Some (i, h) => exists a, first_max dkey hlc_of l k i a /\ h = hlc_of a
            | None => absent dkey l k
            end.

Lemma winners_spec l : winners_ok l (winners l 0 ∅).
Proof.
  induction l as [|r l IH] using rev_ind; [intros k; cbn [delete_winners]; rewrite lookup_empty; by intros a ?%elem_of_nil|].
  rewrite winners_app, winners_step. cbn [delete_winners Nat.add]. set (w := winners l 0 ∅) in *.
  intros k. specialize (IH k). unfold winner_step. destruct (dkey r) as [k'|] eqn:Er; cycle 1.
  { destruct (w !! k) as [[i h]|]; [|apply absent_snoc; [congruence|done]].
    destruct IH as (a & Ha & ->). exists a. split; [apply first_max_skip; [congruence|done]|done]. }
  destruct (decide (k' = k)) as [->|Hk].
  - destruct (w !! k) as [[i h]|] eqn:Ew.
    + destruct IH as (a & Ha & ->). destruct (0 <? Hlc.compareHLC (hlc_of r) (hlc_of a)) eqn:Ec.
      * rewrite lookup_insert_eq. exists r. split; [|done]. eapply first_max_greater; [done|exact Ha|by apply compare_gt].
      * rewrite Ew. exists a. split; [|done]. apply first_max_stays; [done|done|by apply compare_ngt].
    + rewrite lookup_insert_eq. exists r. split; [by apply first_max_new|done].
  - assert (Hw : (match w !! k' with
       | Some (_, h) => if 0 <? Hlc.compareHLC (hlc_of r) h then <[k' := (length l, hlc_of r)]> w else w
       | None => <[k' := (length l, hlc_of r)]> w end) !! k = w !! k).
    { destruct (w !! k') as [[i h]|]; [destruct (0 <? _)|]; by rewrite ?lookup_insert_ne. }
    rewrite Hw. destruct (w !! k) as [[i h]|]; [|apply absent_snoc; [congruence|done]].
    destruct IH as (a & Ha & ->). exists a. split; [apply first_max_skip; [congruence|done]|done].
Qed.

(** *** What the in-batch rules make of one entry *)

Definition entry_ok (r : Resolved) : Prop :=
  freshLocalTable r = false /\ keepColumns r = ∅ /\ priorErasedByInBatchDelete r = false /\
  match change r with CDelete _ => editOfForgottenRow r = false | CColumn _ => True end.

Definition strip (r : Resolved) : Resolved :=
  mkResolved (outcome r) (change r) (dataChange r) ∅ (priorErasedByInBatchDelete r) (freshLocalTable r) (editOfForgottenRow r).

(** The timestamp of the winning delete of a row. *)
Definition barrier (l : list Resolved) (k : jsstring) : option HLC := snd <$> winners l 0 ∅ !! k.

Definition after_deletes (b : jsstring -> option HLC) (r : Resolved) : Resolved :=
  match change r with
  | CDelete _ => r
  | CColumn c =>
    if negb (is_applied r) then r
    else
      match b (row r) with
      | None => r
      | Some h => if survives config h c
                  then mkResolved (outcome r) (change r) (dataChange r) (keepColumns r) true (freshLocalTable r) (editOfForgottenRow r)
                  else plain Skipped (change r)
      end
  end.

Definition after_forgotten (rows : gset jsstring) (r : Resolved) : Resolved :=
  if negb (editOfForgottenRow r) then r
  else if bool_decide (row_id (change r) ∈ rows) then r
  else plain Skipped (change r).

Definition founded_in (l : list Resolved) : gset jsstring := founded (map (after_deletes (barrier l)) l).

(** The entry once the batch is reconciled, but for the columns a delete keeps. *)
Definition settled (l : list Resolved) (r : Resolved) : Resolved :=
  after_forgotten (founded_in l) (after_deletes (barrier l) r).

Abbreviation reconciled l := (refuse (reconcile l)).

Lemma founded_strip l l' : map strip l = map strip l' -> founded l = founded l'.
Proof.
  unfold founded_rows. intros H. f_equal. revert l' H.
  induction l as [|r l IH]; intros [|r' l'] H; try discriminate H; [done|]. cbn [map] in H. injection H as Ho Hc Hd He Hf Hg H.
  cbn [omap list_omap]. rewrite (IH l' H). unfold is_applied, row_of. by rewrite Ho, Hc, Hf.
Qed.

Lemma reconcile_strip l : map strip (reconcile l) = map strip (map (after_deletes (barrier l)) l).
Proof.
  unfold reconcileInBatchDeletes. rewrite map_map. apply list_eq. intros i. rewrite !list_lookup_fmap, list_lookup_imap.
  destruct (l !! i) as [r|] eqn:Er; [|done]. cbn. f_equal. unfold reconcile_entry, after_deletes, barrier.
  destruct (change r) as [c|d] eqn:Ec.
  - destruct (negb (is_applied r)); [done|]. by destruct (winners l 0 ∅ !! row r) as [[j h]|]; cbn; [destruct (survives config h c)|].
  - destruct (winners l 0 ∅ !! row r) as [[j h]|]; [|done]. destruct (is_applied r && (j =? i)%nat); [|done]. unfold strip. cbn.
    by rewrite Ec.
Qed.

Lemma reconciled_strip l : map strip (reconciled l) = map strip (map (settled l) l).
Proof.
  unfold refuseEditsOfForgottenRows. rewrite (founded_strip _ _ (reconcile_strip l)). fold (founded_in l).
  rewrite !map_map. pose proof (reconcile_strip l) as H. rewrite map_map in H. unfold settled.
  revert H. generalize (reconcile l). generalize (founded_in l). generalize (barrier l). intros b F l'. revert l'.
  induction l as [|r l IH]; intros [|r' l'] H; try discriminate H; [done|]. cbn [map] in *. injection H as Ho Hc Hd He Hf Hg H.
  rewrite (IH l' H). f_equal. assert (Es : strip r' = strip (after_deletes b r)) by (unfold strip; congruence).
  unfold after_forgotten. rewrite Hg, Hc. case_match; [exact Es|]. case_match; [exact Es|done].
Qed.

Lemma reconciled_lookup l i r :
  reconciled l !! i = Some r -> exists e, l !! i = Some e /\ strip r = strip (settled l e).
Proof.
  intros H. pose proof (reconciled_strip l) as Hs. apply (f_equal (fun x => x !! i)) in Hs.
  rewrite map_map, !list_lookup_fmap, H in Hs. cbn in Hs. destruct (l !! i) as [e|]; [|done]. exists e. split; [done|]. exact (inj Some _ _ Hs).
Qed.

Lemma reconciled_lookup_back l i e :
  l !! i = Some e -> exists r, reconciled l !! i = Some r /\ strip r = strip (settled l e).
Proof.
  intros H. pose proof (reconciled_strip l) as Hs. apply (f_equal (fun x => x !! i)) in Hs.
  rewrite map_map, !list_lookup_fmap, H in Hs. cbn in Hs. destruct (reconciled l !! i) as [r|]; [|done]. exists r. split; [done|].
  exact (inj Some _ _ Hs).
Qed.

Lemma settled_change l r : change (settled l r) = change r.
Proof.
  unfold settled, after_forgotten, after_deletes. destruct (change r) as [c|d] eqn:E;
    repeat (case_match; cbn; try congruence); congruence.
Qed.

Lemma settled_delete l r d : entry_ok r -> change r = CDelete d -> settled l r = r.
Proof. intros (_ & _ & _ & He) E. unfold settled, after_deletes, after_forgotten. rewrite E in *. by rewrite He. Qed.

(** *** Collapsing repeats *)

Definition key_d (r : Resolved) : option jsstring :=
  if is_applied r then match change r with CDelete d => Some (delete_key d) | CColumn _ => None end else None.

Definition key_c (r : Resolved) : option jsstring :=
  if is_applied r then match change r with CColumn c => Some (column_key c) | CDelete _ => None end else None.

Definition kstep (key : Resolved -> option jsstring) (w : list (jsstring * Resolved)) (r : Resolved) : list (jsstring * Resolved) :=
  match key r with Some k => keepMaxHLC w k r | None => w end.

Lemma collapse_split l a b : foldl collapse (a, b) l = (foldl (kstep key_d) a l, foldl (kstep key_c) b l).
Proof.
  revert a b. induction l as [|r l IH]; intros a b; [done|]. cbn [foldl]. rewrite <- IH. f_equal. unfold collapse_step, kstep, key_d, key_c.
  destruct (is_applied r); [|done]. by destruct (change r).
Qed.

Lemma keepMax_get w k r k' :
  alist_get k' (keepMaxHLC w k r) =
  if decide (k = k') then
    match alist_get k w with
    | Some p => if 0 <? Hlc.compareHLC (hlc_of r) (hlc_of p) then Some r else Some p
    | None => Some r
    end
  else alist_get k' w.
Proof.
  unfold keepMaxHLC. fold (hlc_of r). destruct (alist_get k w) as [p|] eqn:E.
  - fold (hlc_of p). destruct (0 <? _); [by rewrite alist_get_set|]. destruct (decide (k = k')) as [<-|]; [done|done].
  - rewrite alist_get_set. by destruct (decide (k = k')) as [<-|].
Qed.

Lemma kstep_spec key l :
  NoDup (foldl (kstep key) [] l).*1 /\
  forall k, match alist_get k (foldl (kstep key) [] l) with
            | Some r => exists i, first_max key hlc_of l k i r
            | None => absent key l k
            end.
Proof.
  induction l as [|x l IH] using rev_ind; [split; [constructor|]; intros k; by intros a ?%elem_of_nil|].
  rewrite foldl_app. cbn [foldl]. set (w := foldl (kstep key) [] l) in *. destruct IH as [Hn IH]. split.
  - unfold kstep. destruct (key x) as [k|]; [|done]. unfold keepMaxHLC. destruct (alist_get k w); [destruct (0 <? _)|]; auto using alist_set_NoDup.
  - intros k. specialize (IH k). unfold kstep. destruct (key x) as [k'|] eqn:Ex; cycle 1.
    { destruct (alist_get k w) as [r|]; [destruct IH as [i Hi]; exists i; apply first_max_skip; [congruence|done]|].
      apply absent_snoc; [congruence|done]. }
    rewrite keepMax_get. destruct (decide (k' = k)) as [->|Hk]; cycle 1.
    { destruct (alist_get k w) as [r|]; [destruct IH as [i Hi]; exists i; apply first_max_skip; [congruence|done]|].
      apply absent_snoc; [congruence|done]. }
    destruct (alist_get k w) as [r|]; [|exists (length l); by apply first_max_new]. destruct IH as [i Hi].
    destruct (0 <? Hlc.compareHLC (hlc_of x) (hlc_of r)) eqn:Ec.
    + exists (length l). eapply first_max_greater; [done|exact Hi|by apply compare_gt].
    + exists i. apply first_max_stays; [done|done|by apply compare_ngt].
Qed.

Lemma kstep_elem key l r :
  r ∈ (foldl (kstep key) [] l).*2 <-> exists k i, first_max key hlc_of l k i r.
Proof.
  destruct (kstep_spec key l) as [Hn Hs]. rewrite list_elem_of_fmap. split.
  - intros ([k r'] & -> & Hin). apply (alist_get_elem k r' _ Hn) in Hin. specialize (Hs k). rewrite Hin in Hs. destruct Hs as [i Hi].
    by exists k, i.
  - intros (k & i & Hi). specialize (Hs k). destruct (alist_get k _) as [r'|] eqn:E.
    + destruct Hs as [j Hj]. destruct (first_max_unique _ _ _ _ _ _ _ _ Hi Hj) as [_ ->]. exists (k, r'). split; [done|].
      by apply alist_get_elem.
    + exfalso. destruct Hi as (Hl & Hk & _). apply list_elem_of_lookup_2 in Hl. by apply (Hs r).
Qed.

Lemma facts_elem l f :
  f ∈ facts_of l <-> exists k i r, (first_max key_d hlc_of l k i r \/ first_max key_c hlc_of l k i r) /\ f = fact_of r.
Proof.
  unfold collapseInBatchRepeats. rewrite collapse_split. cbn [fst snd]. rewrite list_elem_of_fmap. setoid_rewrite elem_of_app.
  setoid_rewrite kstep_elem. split.
  - intros (r & -> & [(k & i & H)|(k & i & H)]); exists k, i, r; auto.
  - intros (k & i & r & [H|H] & ->); exists r; (split; [done|]); [left|right]; eauto.
Qed.

(** Entries that were not applied do not matter. *)
Lemma facts_filter l : facts_of (List.filter is_applied l) = facts_of l.
Proof.
  unfold collapseInBatchRepeats. rewrite !collapse_split. cbn [fst snd].
  assert (H : forall key, (forall r, is_applied r = false -> key r = None) ->
    forall a, foldl (kstep key) a (List.filter is_applied l) = foldl (kstep key) a l).
  { intros key Hk. induction l as [|r l IH]; intros a; [done|]. cbn. destruct (is_applied r) eqn:E; cbn; [apply IH|].
    rewrite IH. unfold kstep at 3. by rewrite Hk. }
  by rewrite !H by (intros r E; unfold key_d, key_c; by rewrite E).
Qed.

(** A fact names its key, so no fact is filed twice. *)
Definition fact_key (f : FactToFile) : option jsstring :=
  match f with FDelete d _ => Some (delete_key d) | FColumn c _ => Some (column_key c) | FHeld _ _ _ => None end.

Lemma key_d_fact r k : key_d r = Some k -> fact_key (fact_of r) = Some k /\ exists d keep, fact_of r = FDelete d keep.
Proof. unfold key_d, fact_key, fact_of. destruct (is_applied r); [|done]. destruct (change r); [done|]. intros [= <-]. eauto. Qed.

Lemma key_c_fact r k : key_c r = Some k -> fact_key (fact_of r) = Some k /\ exists c er, fact_of r = FColumn c er.
Proof. unfold key_c, fact_key, fact_of. destruct (is_applied r); [|done]. destruct (change r); [|done]. intros [= <-]. eauto. Qed.

Lemma keys_disjoint d c : delete_key d <> column_key c.
Proof. unfold deleteKey, columnKey. intros H. apply (f_equal head) in H. by vm_compute in H. Qed.

Lemma kstep_keys key l (P : FactToFile -> Prop) :
  (forall r k, key r = Some k -> fact_key (fact_of r) = Some k /\ P (fact_of r)) ->
  map (fun p => fact_key (fact_of p.2)) (foldl (kstep key) [] l) = map (fun p => Some p.1) (foldl (kstep key) [] l) /\
  Forall (fun r => P (fact_of r)) (foldl (kstep key) [] l).*2.
Proof.
  intros Hk. destruct (kstep_spec key l) as [Hn Hs]. split.
  - apply map_ext_in. intros [k r] Hin%list_elem_of_In. apply (alist_get_elem k r _ Hn) in Hin. specialize (Hs k). rewrite Hin in Hs.
    destruct Hs as (i & _ & Hkr & _). by apply Hk.
  - apply Forall_forall. intros r (k & i & _ & Hkr & _)%kstep_elem. by apply (Hk r k).
Qed.

Lemma facts_keys l : NoDup (map fact_key (facts_of l)).
Proof.
  unfold collapseInBatchRepeats. rewrite collapse_split. cbn [fst snd].
  destruct (kstep_keys key_d l (fun f => exists d keep, f = FDelete d keep)) as [Ed Pd]; [apply key_d_fact|].
  destruct (kstep_keys key_c l (fun f => exists c er, f = FColumn c er)) as [Ec Pc]; [apply key_c_fact|].
  assert (H : forall key, map (fun p => fact_key (fact_of p.2)) (foldl (kstep key) [] l) = map (fun p => Some p.1) (foldl (kstep key) [] l) ->
    NoDup (map fact_key (map fact_of (foldl (kstep key) [] l).*2))).
  { intros key E.
    assert (E' : map fact_key (map fact_of (foldl (kstep key) [] l).*2) = map (fun p => fact_key (fact_of p.2)) (foldl (kstep key) [] l)).
    { change (map fact_key (map fact_of (map snd (foldl (kstep key) [] l))) = map (fun p => fact_key (fact_of p.2)) (foldl (kstep key) [] l)).
      by rewrite !map_map. }
    rewrite E', E, <- (map_map fst Some). apply NoDup_fmap_2; [apply _|]. apply kstep_spec. }
  rewrite !map_app. apply NoDup_app. split_and!; [by apply H| |by apply H].
  intros k (f & -> & (r & -> & Hr)%list_elem_of_fmap)%list_elem_of_fmap (f' & E & (r' & -> & Hr')%list_elem_of_fmap)%list_elem_of_fmap.
  rewrite Forall_forall in Pd. rewrite Forall_forall in Pc.
  destruct (Pd r Hr) as (d & keep & Ed'). destruct (Pc r' Hr') as (c & er & Ec'). rewrite Ed', Ec' in E. cbn in E.
  apply (inj Some) in E. by apply keys_disjoint in E.
Qed.

Lemma facts_NoDup l : NoDup (facts_of l).
Proof. apply (NoDup_fmap_1 fact_key). apply facts_keys. Qed.

Lemma column_key_inj c c' :
  column_key c = column_key c' -> row_id (CColumn c) = row_id (CColumn c') /\ cc_column c = cc_column c'.
Proof.
  unfold columnKey, rowIdentityKey. intros H%(inj (app (js "column:"))). apply join_cancel in H as [[= H1 H2 H3] H]; [|done].
  rewrite <- (app_nil_r (joinKeyParts [cc_column c])), <- (app_nil_r (joinKeyParts [cc_column c'])) in H.
  apply join_cancel in H as [[= H4] _]; [|done]. split; [|done]. cbn [ch_schema ch_table ch_pk]. by rewrite H3, H1, H2.
Qed.

Lemma delete_key_inj d d' : delete_key d = delete_key d' <-> row_id (CDelete d) = row_id (CDelete d').
Proof. unfold deleteKey. split; [by intros ?%(inj (app (js "delete:")))|by intros ->]. Qed.

(** *** The facts of a batch *)

Definition agree (l : list Resolved) : Prop := forall r r', r ∈ l -> r' ∈ l -> hlc_of r = hlc_of r' -> r = r'.

Lemma first_max_transfer {A B K K'} (ka : A -> option K) (kb : B -> option K') (ha : A -> HLC) (hb : B -> HLC) (f : K -> K')
    (la : list A) (lb : list B) k i a b :
  Inj (=) (=) f ->
  (forall j x y, la !! j = Some x -> lb !! j = Some y -> kb y = f <$> ka x /\ hb y = ha x) ->
  (forall j y, lb !! j = Some y -> is_Some (la !! j)) ->
  first_max ka ha la k i a -> lb !! i = Some b -> first_max kb hb lb (f k) i b.
Proof.
  intros Hf Hxy Hdom (Hi & Ka & Ha) Hb. destruct (Hxy i a b Hi Hb) as [Kb Eb]. split_and!; [done|by rewrite Kb, Ka|].
  intros j y Hj Ky. destruct (Hdom j y Hj) as [x Hx]. destruct (Hxy j x y Hx Hj) as [Kx Ex].
  rewrite Eb, Ex. apply Ha; [done|]. rewrite Kx in Ky. destruct (ka x) as [k'|]; [|done]. cbn in Ky. f_equal. injection Ky as Ky.
  by apply Hf in Ky.
Qed.

Lemma strip_applied r r' : strip r = strip r' -> is_applied r = is_applied r' /\ change r = change r' /\
  priorErasedByInBatchDelete r = priorErasedByInBatchDelete r' /\ dataChange r = dataChange r' /\ outcome r = outcome r'.
Proof. intros [= Ho Hc Hd He Hf Hg]. unfold is_applied. rewrite Ho. by split_and!. Qed.

Section Facts.
Context (l : list Resolved) (Hok : Forall entry_ok l).

Lemma ok_at i r : l !! i = Some r -> entry_ok r.
Proof. intros H. by eapply Forall_lookup_1 in H. Qed.

Lemma same_key_d i e r :
  l !! i = Some e -> reconciled l !! i = Some r -> key_d r = app (js "delete:") <$> dkey e /\ hlc_of r = hlc_of e.
Proof.
  intros He Hr. destruct (reconciled_lookup l i r Hr) as (e' & He' & Hs). rewrite He in He'. injection He' as <-.
  apply strip_applied in Hs as (Ha & Hc & _). rewrite settled_change in Hc. unfold key_d, dkey, hlc_of. rewrite Ha, Hc. split; [|done].
  destruct (change e) as [c|d] eqn:E; [by case_match|]. rewrite (settled_delete l e d (ok_at i e He) E).
  destruct (is_applied e); [|done]. cbn. unfold deleteKey, row_of. by rewrite E, (proj1 (ok_at i e He)).
Qed.

Lemma same_key_c i e r :
  l !! i = Some e -> reconciled l !! i = Some r -> key_c r = key_c (settled l e) /\ hlc_of r = hlc_of e.
Proof.
  intros He Hr. destruct (reconciled_lookup l i r Hr) as (e' & He' & Hs). rewrite He in He'. injection He' as <-.
  apply strip_applied in Hs as (Ha & Hc & _). unfold key_c, hlc_of. by rewrite Ha, Hc, settled_change.
Qed.

Lemma reconciled_dom i r : reconciled l !! i = Some r -> is_Some (l !! i).
Proof. intros H. destruct (reconciled_lookup l i r H) as (e & -> & _). by eexists. Qed.

Lemma reconciled_dom_back i e : l !! i = Some e -> is_Some (reconciled l !! i).
Proof. intros H. destruct (reconciled_lookup_back l i e H) as (r & -> & _). by eexists. Qed.

(** The entry of the winning delete of a row collects the kept columns. *)
Lemma winner_entry k i e r :
  first_max dkey hlc_of l k i e -> reconciled l !! i = Some r -> keepColumns r = kept (winners l 0 ∅) k l /\ change r = change e.
Proof.
  intros Hm Hr. pose proof (winners_spec l k) as Hw. pose proof Hm as (Hi & Hk & _). destruct (winners l 0 ∅ !! k) as [[j h]|] eqn:Ew; cycle 1.
  { exfalso. apply list_elem_of_lookup_2 in Hi. by apply (Hw e). }
  destruct Hw as (a & Ha & ->). destruct (first_max_unique _ _ _ _ _ _ _ _ Hm Ha) as [<- <-].
  pose proof (ok_at i e Hi) as (Hf & _ & _ & Hed). unfold dkey in Hk. destruct (change e) as [c|d] eqn:Ec; [done|].
  destruct (is_applied e) eqn:Eap; [|done]. injection Hk as Hrow.
  unfold refuseEditsOfForgottenRows, reconcileInBatchDeletes in Hr. rewrite list_lookup_fmap, list_lookup_imap, Hi in Hr. cbn in Hr.
  unfold reconcile_entry in Hr. rewrite Ec, Hrow, Ew, Eap, Nat.eqb_refl in Hr. cbn in Hr. rewrite Hed in Hr. cbn in Hr.
  by injection Hr as <-.
Qed.

Lemma delete_facts d keep :
  agree l ->
  FDelete d keep ∈ facts_of (reconciled l) <->
  exists e, e ∈ l /\ change e = CDelete d /\ is_applied e = true /\
    (forall e', e' ∈ l -> dkey e' = Some (row e) -> hle (hlc_of e') (hlc_of e)) /\ keep = kept (winners l 0 ∅) (row e) l.
Proof.
  intros Hag. rewrite facts_elem. split.
  - intros (k & i & r & [Hm|Hm] & Ef); pose proof Hm as (Hr & Hk & _).
    + destruct (reconciled_lookup l i r Hr) as (e & He & _). destruct (same_key_d i e r He Hr) as [Ek Eh].
      rewrite Hk in Ek. destruct (dkey e) as [ke|] eqn:Edk; [|done]. injection Ek as ->.
      assert (Hme : first_max dkey hlc_of l ke i e).
      { destruct Hm as (_ & _ & Hall). split_and!; [done|done|]. intros j b Hj Hb. destruct (reconciled_dom_back j b Hj) as [rj Hrj].
        destruct (same_key_d j b rj Hj Hrj) as [Ekj Ehj]. rewrite <- Eh, <- Ehj. apply Hall; [done|]. by rewrite Ekj, Hb. }
      destruct (winner_entry ke i e r Hme Hr) as [Ekeep Ech]. unfold fact_of in Ef.
      assert (Erow : ke = row e) by (unfold dkey in Edk; destruct (change e); [done|]; destruct (is_applied e); congruence). subst ke.
      destruct (change r) as [c|d'] eqn:Ec; [done|]. injection Ef as -> ->. exists e. split_and!; [by apply list_elem_of_lookup_2 in He|done| | |done].
      * unfold dkey in Edk. rewrite <- Ech in Edk. by destruct (is_applied e).
      * intros e' [j Hj]%list_elem_of_lookup Ek'. by apply (proj2 (proj2 Hme) j e').
    + apply key_c_fact in Hk as (_ & c & er & E). congruence.
  - intros (e & He & Ec & Eap & Hmax & ->).
    assert (Edk : dkey e = Some (row e)) by (unfold dkey; by rewrite Ec, Eap).
    pose proof (winners_spec l (row e)) as Hw. destruct (winners l 0 ∅ !! row e) as [[i h]|] eqn:Ew; [|by destruct (Hw e He)].
    destruct Hw as (a & Ha & _). assert (a = e) as ->.
    { apply Hag; [|done|by eapply first_max_hlc]. destruct Ha as (Hi & _). by apply list_elem_of_lookup_2 in Hi. }
    pose proof Ha as (Hi & _). destruct (reconciled_dom_back i e Hi) as [r Hr].
    exists (js "delete:" ++ row e), i, r. split.
    + left. eapply (first_max_transfer dkey key_d hlc_of hlc_of (app (js "delete:"))); [apply _| | |exact Ha|done].
      * intros j x y. apply same_key_d.
      * apply reconciled_dom.
    + destruct (winner_entry _ i e r Ha Hr) as [Ek Ech]. unfold fact_of. by rewrite Ech, Ec, Ek.
Qed.

Lemma column_facts c er :
  agree l ->
  FColumn c er ∈ facts_of (reconciled l) <->
  exists e, e ∈ l /\ change e = CColumn c /\ is_applied (settled l e) = true /\ er = priorErasedByInBatchDelete (settled l e) /\
    (forall e', e' ∈ l -> key_c (settled l e') = Some (column_key c) -> hle (hlc_of e') (hlc_of e)).
Proof.
  intros Hag. rewrite facts_elem. split.
  - intros (k & i & r & [Hm|Hm] & Ef); pose proof Hm as (Hr & Hk & Hall).
    { apply key_d_fact in Hk as (_ & d & keep & E). congruence. }
    destruct (reconciled_lookup l i r Hr) as (e & He & Hs). destruct (same_key_c i e r He Hr) as [Ek Eh].
    apply strip_applied in Hs as (Ha & Hc & Hp & _). rewrite settled_change in Hc.
    unfold fact_of in Ef. destruct (change r) as [c'|d'] eqn:Ec; [|done]. injection Ef as -> ->. exists e.
    assert (Eap : is_applied r = true) by (unfold key_c in Hk; by destruct (is_applied r)).
    split_and!; [by apply list_elem_of_lookup_2 in He|done|congruence|done|].
    intros e' [j Hj]%list_elem_of_lookup Ek'. destruct (reconciled_dom_back j e' Hj) as [rj Hrj].
    destruct (same_key_c j e' rj Hj Hrj) as [Ekj Ehj]. rewrite <- Eh, <- Ehj. apply (Hall j rj Hrj). rewrite Ekj, Ek', <- Hk.
    unfold key_c. by rewrite Eap, Ec.
  - intros (e & He & Ec & Eap & -> & Hmax). apply list_elem_of_lookup in He as [i0 Hi0].
    destruct (kstep_spec key_c (reconciled l)) as [_ Hs]. specialize (Hs (column_key c)).
    assert (Eke : key_c (settled l e) = Some (column_key c)) by (unfold key_c; by rewrite Eap, settled_change, Ec).
    destruct (alist_get (column_key c) _) as [r|] eqn:Eg; cycle 1.
    { exfalso. destruct (reconciled_dom_back i0 e Hi0) as [r Hr]. destruct (same_key_c i0 e r Hi0 Hr) as [Ek _].
      apply (Hs r); [by apply list_elem_of_lookup_2 in Hr|congruence]. }
    destruct Hs as [i Hm]. exists (column_key c), i, r. split; [by right|]. pose proof Hm as (Hr & Hk & Hall).
    destruct (reconciled_lookup l i r Hr) as (a & Hia & Hs). destruct (same_key_c i a r Hia Hr) as [Eka Eha].
    assert (a = e) as ->.
    { apply Hag; [by apply list_elem_of_lookup_2 in Hia|by apply list_elem_of_lookup_2 in Hi0|]. apply hle_antisym.
      - apply Hmax; [by apply list_elem_of_lookup_2 in Hia|congruence].
      - destruct (reconciled_dom_back i0 e Hi0) as [r0 Hr0]. destruct (same_key_c i0 e r0 Hi0 Hr0) as [Ek0 Eh0].
        rewrite <- Eha, <- Eh0. apply (Hall i0 r0 Hr0). congruence. }
    apply strip_applied in Hs as (_ & Hc & Hp & _). unfold fact_of. by rewrite Hc, settled_change, Ec, Hp.
Qed.

Lemma no_held_facts c t f : FHeld c t f ∉ facts_of (reconciled l).
Proof.
  rewrite facts_elem. intros (k & i & r & [(_ & Hk & _)|(_ & Hk & _)] & E); [apply key_d_fact in Hk|apply key_c_fact in Hk];
    destruct Hk as (_ & ? & ? & ?); congruence.
Qed.

End Facts.

(** *** Order does not matter *)

Lemma barrier_max l k :
  match barrier l k with
  | Some h => (exists e, e ∈ l /\ dkey e = Some k /\ hlc_of e = h) /\ forall e, e ∈ l -> dkey e = Some k -> hle (hlc_of e) h
  | None => absent dkey l k
  end.
Proof.
  unfold barrier. pose proof (winners_spec l k) as Hw. destruct (winners l 0 ∅ !! k) as [[i h]|]; cbn; [|done].
  destruct Hw as (a & (Hi & Hk & Ha) & ->). split.
  - exists a. split_and!; [by apply list_elem_of_lookup_2 in Hi|done|done].
  - intros e [j Hj]%list_elem_of_lookup Hke. by apply (Ha j e).
Qed.

Lemma barrier_perm l l' k : (forall e, e ∈ l <-> e ∈ l') -> barrier l k = barrier l' k.
Proof.
  intros Hp. pose proof (barrier_max l k) as H. pose proof (barrier_max l' k) as H'.
  destruct (barrier l k) as [h|], (barrier l' k) as [h'|]; [|exfalso..|done].
  - destruct H as [(e & He & Hk & <-) Hm], H' as [(e' & He' & Hk' & <-) Hm']. f_equal. apply hle_antisym; [apply Hm'|apply Hm]; naive_solver.
  - destruct H as [(e & He & Hk & _) _]. apply (H' e); [by apply Hp|done].
  - destruct H' as [(e & He & Hk & _) _]. apply (H e); [by apply Hp|done].
Qed.

Lemma kept_elem l k col :
  col ∈ kept (winners l 0 ∅) k l <->
  exists e c h, e ∈ l /\ change e = CColumn c /\ is_applied e = true /\ row e = k /\ barrier l k = Some h /\ survives config h c = true /\
    col = cc_column c.
Proof.
  unfold kept_columns, barrier. rewrite elem_of_list_to_set, list_elem_of_omap. split.
  - intros (e & He & H). destruct (change e) as [c|d] eqn:Ec; [|done]. destruct (is_applied e) eqn:Ea; [|done]. cbn in H.
    case_bool_decide as Hr; [|done]. destruct (winners l 0 ∅ !! k) as [[i h]|]; [|done]. destruct (survives config h c) eqn:Es; [|done].
    injection H as <-. by exists e, c, h.
  - intros (e & c & h & He & Ec & Ea & Hr & Hw & Hs & ->). exists e. split; [done|]. rewrite Ec, Ea, bool_decide_eq_true_2 by done. cbn.
    destruct (winners l 0 ∅ !! k) as [[i h']|]; [|done]. cbn in Hw. injection Hw as ->. by rewrite Hs.
Qed.

Lemma kept_perm l l' k : (forall e, e ∈ l <-> e ∈ l') -> kept (winners l 0 ∅) k l = kept (winners l' 0 ∅) k l'.
Proof.
  intros Hp. apply set_eq. intros col. rewrite !kept_elem. rewrite (barrier_perm l l' k Hp). by setoid_rewrite Hp.
Qed.

Lemma after_deletes_ext b b' r : (forall k, b k = b' k) -> after_deletes b r = after_deletes b' r.
Proof. intros H. unfold after_deletes. by rewrite H. Qed.

Lemma founded_elem l k :
  k ∈ founded l <-> exists e c, e ∈ l /\ change e = CColumn c /\ is_applied e = true /\ cc_priorHlc c = None /\ row e = k.
Proof.
  unfold founded_rows. rewrite elem_of_list_to_set, list_elem_of_omap. split.
  - intros (e & He & H). destruct (change e) as [c|d] eqn:Ec; [|done]. destruct (is_applied e) eqn:Ea; [|done]. cbn in H.
    case_bool_decide as Hp; [done|]. cbn in H. injection H as <-. exists e, c. split_and!; try done. by destruct (cc_priorHlc c); [destruct Hp|].
  - intros (e & c & He & Ec & Ea & Hp & <-). exists e. split; [done|]. rewrite Ec, Ea, Hp. done.
Qed.

Lemma settled_perm l l' r : (forall e, e ∈ l <-> e ∈ l') -> settled l r = settled l' r.
Proof.
  intros Hp. unfold settled. rewrite (after_deletes_ext (barrier l) (barrier l')) by (intros k; by apply barrier_perm). f_equal.
  apply set_eq. intros k. unfold founded_in. rewrite !founded_elem. setoid_rewrite list_elem_of_In. setoid_rewrite in_map_iff.
  setoid_rewrite <- list_elem_of_In.
  assert (He : forall e, after_deletes (barrier l) e = after_deletes (barrier l') e)
    by (intros e; apply after_deletes_ext; intros k'; by apply barrier_perm).
  split; intros (e & c & (x & Hx & Hin) & H); exists e, c; (split; [exists x; split; [by rewrite <- Hx|by apply Hp]|done]).
Qed.

Lemma facts_same l l' f :
  Forall entry_ok l -> Forall entry_ok l' -> agree l -> agree l' -> (forall e, e ∈ l <-> e ∈ l') ->
  f ∈ facts_of (reconciled l) -> f ∈ facts_of (reconciled l').
Proof.
  intros Hok Hok' Hag Hag' Hp. destruct f as [d keep|c er|c t fw].
  - rewrite !delete_facts by done. intros (e & He & H1 & H2 & H3 & ->). exists e. split_and!; try naive_solver. by apply kept_perm.
  - rewrite !column_facts by done. intros (e & He & H1 & H2 & H3 & H4). exists e. rewrite <- !(settled_perm l l') by done.
    split_and!; try done; [by apply Hp|]. intros e' He'. rewrite <- (settled_perm l l') by done. apply H4. by apply Hp.
  - by intros ?%no_held_facts.
Qed.

(** The facts of a batch are those of its changes in any order. *)
Lemma facts_perm l l' :
  Forall entry_ok l -> agree l -> l ≡ₚ l' -> facts_of (reconciled l) ≡ₚ facts_of (reconciled l').
Proof.
  intros Hok Hag Hp. assert (Hel : forall e, e ∈ l <-> e ∈ l') by (intros e; by rewrite Hp).
  assert (Hok' : Forall entry_ok l') by (by rewrite <- Hp).
  assert (Hag' : agree l') by (intros r r' Hr Hr'; apply Hag; by apply Hel).
  apply NoDup_Permutation; [apply facts_NoDup..|]. intros f. split; apply facts_same; try done.
Qed.

(** Facts of one timestamp are one fact. *)
Lemma facts_agree l f g :
  Forall entry_ok l -> agree l -> f ∈ facts_of (reconciled l) -> g ∈ facts_of (reconciled l) -> fact_hlc f = fact_hlc g -> f = g.
Proof.
  intros Hok Hag Hf Hg. destruct f as [d keep|c er|c t fw], g as [d' keep'|c' er'|c' t' fw']; try by apply no_held_facts in Hf.
  all: try by apply no_held_facts in Hg.
  - apply (delete_facts l Hok d keep Hag) in Hf as (e & He & Ec & _ & _ & ->).
    apply (delete_facts l Hok d' keep' Hag) in Hg as (e' & He' & Ec' & _ & _ & ->). cbn. intros Eh.
    assert (e = e') as -> by (apply Hag; unfold hlc_of; [done|done|by rewrite Ec, Ec']). congruence.
  - apply (delete_facts l Hok d keep Hag) in Hf as (e & He & Ec & _).
    apply (column_facts l c' er' Hag) in Hg as (e' & He' & Ec' & _). cbn. intros Eh.
    assert (e = e') as -> by (apply Hag; unfold hlc_of; [done|done|by rewrite Ec, Ec']). congruence.
  - apply (column_facts l c er Hag) in Hf as (e & He & Ec & _).
    apply (delete_facts l Hok d' keep' Hag) in Hg as (e' & He' & Ec' & _). cbn. intros Eh.
    assert (e = e') as -> by (apply Hag; unfold hlc_of; [done|done|by rewrite Ec, Ec']). congruence.
  - apply (column_facts l c er Hag) in Hf as (e & He & Ec & _ & -> & _).
    apply (column_facts l c' er' Hag) in Hg as (e' & He' & Ec' & _ & -> & _). cbn. intros Eh.
    assert (e = e') as -> by (apply Hag; unfold hlc_of; [done|done|by rewrite Ec, Ec']). congruence.
Qed.

(** The row writes in order. *)
Lemma data_perm l l' :
  Forall entry_ok l -> agree l -> l ≡ₚ l' ->
  orderDataChangesByHLC (List.filter is_applied (reconciled l)) = orderDataChangesByHLC (List.filter is_applied (reconciled l')).
Proof.
  intros Hok Hag Hp. unfold orderDataChangesByHLC. f_equal.
  set (g := fun e : Resolved => if is_applied e then has_data e else None).
  assert (Hg : forall x, omap has_data (List.filter is_applied x) = omap g x).
  { intros x. induction x as [|r x IH]; [done|]. cbn. unfold g at 1. destruct (is_applied r); cbn; [|done]. by rewrite IH. }
  assert (Hs : forall x, omap g (reconciled x) = omap (fun e => g (settled x e)) x).
  { intros x. assert (Hstrip : forall y, g (strip y) = g y) by done.
    assert (E : forall y, omap g (map strip y) = omap g y) by (intros y; induction y as [|r y IH]; [done|]; cbn; by rewrite Hstrip, IH).
    rewrite <- E, reconciled_strip, E. generalize (settled x). intros f. clear. induction x as [|r x IH]; [done|]. cbn. by rewrite IH. }
  rewrite !Hg, !Hs. apply js_sort_perm_eq; [exact (by_hlc_laws fst)|..].
  - intros [h d] [h' d'] (e & He & E)%list_elem_of_omap (e' & He' & E')%list_elem_of_omap. cbn. rewrite sgn_eq, Hlc.compareHLC_0. intros <-.
    unfold g, has_data in E, E'. rewrite settled_change in E. rewrite settled_change in E'.
    destruct (is_applied (settled l e)); [|done]. destruct (is_applied (settled l e')); [|done].
    destruct (dataChange (settled l e)) eqn:D; [|done]. destruct (dataChange (settled l e')) eqn:D'; [|done].
    injection E as E1 E2. injection E' as E1' E2'. assert (e = e') as -> by (apply Hag; unfold hlc_of; congruence). congruence.
  - assert (E : omap (fun e => g (settled l' e)) l' = omap (fun e => g (settled l e)) l').
    { apply list_omap_ext, Forall_Forall2_diag, Forall_true. intros e. f_equal. apply settled_perm. intros x. by rewrite Hp. }
    rewrite E. by apply omap_Permutation.
Qed.

Lemma count_perm l l' o : l ≡ₚ l' -> count_outcome o (reconciled l) = count_outcome o (reconciled l').
Proof.
  intros Hp. unfold count_outcome.
  assert (Hs : forall x, length (List.filter (fun r => bool_decide (outcome r = o)) (reconciled x)) =
    length (List.filter (fun r => bool_decide (outcome (settled x r) = o)) x)).
  { intros x. assert (E : forall y, length (List.filter (fun r => bool_decide (outcome r = o)) (map strip y)) =
      length (List.filter (fun r => bool_decide (outcome r = o)) y)).
    { intros y. induction y as [|r y IH]; [done|]. cbn. destruct (bool_decide _); cbn; by rewrite IH. }
    rewrite <- E, reconciled_strip, E. generalize (settled x). intros f. clear. induction x as [|r x IH]; [done|]. cbn.
    destruct (bool_decide _); cbn; by rewrite IH. }
  rewrite !Hs. apply Permutation_length.
  rewrite (filter_ext (fun r => bool_decide (outcome (settled l' r) = o)) (fun r => bool_decide (outcome (settled l r) = o))); [by apply lfilter_perm|].
  intros e. by rewrite (settled_perm l l') by (intros x; by rewrite Hp).
Qed.

End Batch.
End Batch.
