(* ===== verification/SyncFiling.v ===== *)
(** * Applying remote changes: filing

    What the commit of a batch's metadata does to the record stores: each filed
    fact replaces the record of its cell or row, the cleanup of a delete erases
    the cells it does not keep, and the change log goes on indexing exactly the
    records.  The whole apply does not depend on the order of the changes. *)

From S2P Require Import Prelude Bytes Double Decimal Site Hlc KvStore Transaction StoreRead Utf8 Comparison KeySerializer KeyEncoding SyncKeys.
From S2P Require Import SyncApply SyncCommit SyncBatch.
From Stdlib Require Import ZArith Lia.
From stdpp Require Import sorting.
From stdpp Require Import base tactics numbers sets gmap list.
#[local] Open Scope Z_scope.

Import SyncKeys SyncApply Commit FirstMax Batch.

#[local] Arguments rowIdentityKey : simpl never.
#[local] Arguments row_of : simpl never.
#[local] Arguments row_key : simpl never.
#[local] Arguments joinKeyParts : simpl never.

Module Filing.

Section Filing.
Context (keying : jsstring -> jsstring -> PkKeying) (toLowerCase : jsstring -> jsstring).

Abbreviation value := (Comparison.SqlValue).
Abbreviation Meta := SyncMetadata.
Abbreviation Fact := FactToFile.
Abbreviation LogKey := (HLC * ChangeLogEntryType * jsstring * option jsstring)%type.
Abbreviation the_row := (row_key keying).
Abbreviation wipe := (deleteRowVersionsAndLogEntries keying).
Abbreviation keep_past := (columnsKeptPastDelete keying toLowerCase).
Abbreviation clean := (cleaned keying toLowerCase).

(** ** Erasing cells *)

Definition entry_erased (er : jsstring * jsstring -> bool) (vs : gmap (jsstring * jsstring) (ColumnVersion)) (k : LogKey) : bool :=
  match k with
  | (p, ETColumn, row, Some c) =>
    er (row, c) && match vs !! (row, c) with Some v => bool_decide (filingPosition (version_filed v) = p) | None => false end
  | _ => false
  end.

(** The cells [er] selects, removed with their log entries. *)
Definition erase (er : jsstring * jsstring -> bool) (m : Meta) : Meta :=
  mkMeta (clock m) (savedClock m) (filter (fun p => er p.1 = false) (columnVersions m)) (tombstones m)
    (filter (fun e => entry_erased er (columnVersions m) e.1 = false) (changeLog m)) (quarantine m) (deltaFloor m).

Lemma erase_ext er er' m : (forall p, er p = er' p) -> erase er m = erase er' m.
Proof.
  intros H. unfold erase. f_equal; apply map_filter_ext; intros i x _; cbn; [by rewrite H|].
  assert (E : entry_erased er (columnVersions m) i = entry_erased er' (columnVersions m) i); [|by rewrite E].
  unfold entry_erased. destruct i as [[[p t] r] o]. destruct t; [|done]. destruct o; [|done]. by rewrite H.
Qed.

Lemma erase_none m : erase (fun _ => false) m = m.
Proof.
  unfold erase. destruct m as [a b vs ts lg q fl]. cbn. f_equal; apply map_filter_id; intros i x _; cbn; [done|].
  by destruct i as [[[p []] r] []].
Qed.

Lemma erase_erase e1 e2 m : erase e2 (erase e1 m) = erase (fun p => e1 p || e2 p) m.
Proof.
  unfold erase. cbn. f_equal; rewrite map_filter_filter; apply map_filter_ext; intros i x _; cbn; [rewrite orb_false_iff; naive_solver|].
  destruct i as [[[p t] r] o]. destruct t; [|done]. destruct o as [c|]; [|done]. cbn.
  rewrite map_lookup_filter. destruct (columnVersions m !! (r, c)) as [v|]; cbn; [|by rewrite !andb_false_r].
  destruct (e1 (r, c)), (e2 (r, c)); cbn; naive_solver.
Qed.

Lemma row_versions_elem (m : Meta) row c v : (c, v) ∈ getRowVersions m row <-> columnVersions m !! (row, c) = Some v.
Proof.
  unfold getRowVersions. rewrite list_elem_of_omap. split.
  - intros ([[r c'] v'] & Hin & E). cbn in E. case_decide; [|done]. subst r. injection E as -> ->. by apply elem_of_map_to_list.
  - intros H. exists ((row, c), v). split; [by apply elem_of_map_to_list|]. cbn. by rewrite decide_True.
Qed.

Lemma write_dels (m : Meta) row (cols : list jsstring) (keys : list LogKey) :
  write_batch m (map (DelVersion row) cols ++ map DelEntry keys) =
  mkMeta (clock m) (savedClock m) (filter (fun p => bool_decide (p.1.1 = row) && bool_decide (p.1.2 ∈ cols) = false) (columnVersions m))
    (tombstones m) (filter (fun e => bool_decide (e.1 ∈ keys) = false) (changeLog m)) (quarantine m) (deltaFloor m).
Proof.
  unfold write_batch. rewrite foldl_app.
  assert (H1 : forall m : Meta, foldl apply_op m (map (DelVersion row) cols) =
    mkMeta (clock m) (savedClock m) (filter (fun p => bool_decide (p.1.1 = row) && bool_decide (p.1.2 ∈ cols) = false) (columnVersions m))
    (tombstones m) (changeLog m) (quarantine m) (deltaFloor m)).
  { induction cols as [|c cols IH]; intros [a b vs ts lg q fl]; cbn.
    - f_equal. symmetry. apply map_filter_id. intros [r c] v _. cbn. by rewrite andb_false_r.
    - rewrite IH. cbn. f_equal. rewrite map_filter_delete. apply map_eq. intros [r c']. rewrite lookup_delete, !map_lookup_filter.
      case_decide as Hd; [injection Hd as -> ->|].
      + destruct (vs !! _); [|done]. cbn. rewrite option_guard_False; [done|]. cbn. by rewrite !bool_decide_eq_true_2 by set_solver.
      + destruct (vs !! (r, c')) as [v|]; [|done]. cbn. apply option_guard_iff. cbn. rewrite !andb_false_iff, !bool_decide_eq_false.
        rewrite elem_of_cons. destruct (decide (r = row)) as [->|]; naive_solver. }
  assert (H2 : forall m : Meta, foldl apply_op m (map DelEntry keys) =
    mkMeta (clock m) (savedClock m) (columnVersions m)
    (tombstones m) (filter (fun e => bool_decide (e.1 ∈ keys) = false) (changeLog m)) (quarantine m) (deltaFloor m)).
  { induction keys as [|k keys IH]; intros [a b vs ts lg q fl]; cbn.
    - f_equal. symmetry. by apply map_filter_id.
    - rewrite IH. cbn. f_equal. rewrite map_filter_delete. apply map_eq. intros k'. rewrite lookup_delete, !map_lookup_filter.
      case_decide as Hd; [subst k'|].
      + destruct (lg !! _); [|done]. cbn. rewrite option_guard_False; [done|]. cbn. by rewrite !bool_decide_eq_true_2 by set_solver.
      + destruct (lg !! k') as [v|]; [|done]. cbn. apply option_guard_iff. cbn. rewrite !bool_decide_eq_false. set_solver. }
  by rewrite H1, H2.
Qed.

Definition wipes (row : jsstring) (keep : gset jsstring) (p : jsstring * jsstring) : bool :=
  bool_decide (p.1 = row) && negb (bool_decide (p.2 ∈ keep)).

Lemma wipe_erases m s t pk keep : write_batch m (wipe m s t pk keep) = erase (wipes (the_row s t pk) keep) m.
Proof.
  unfold deleteRowVersionsAndLogEntries. set (row := the_row s t pk).
  set (removed := List.filter _ _). cbn.
  assert (Hr : forall c v, (c, v) ∈ removed <-> columnVersions m !! (row, c) = Some v /\ c ∉ keep).
  { intros c v. unfold removed. rewrite list_elem_of_In, filter_In, <- list_elem_of_In, row_versions_elem. cbn.
    rewrite negb_true_iff, bool_decide_eq_false. done. }
  assert (E1 : map (fun p => DelVersion row p.1) removed = map (DelVersion row) removed.*1) by (unfold fmap; cbn; by rewrite map_map).
  set (key := fun p : jsstring * ColumnVersion => (filingPosition (version_filed p.2), ETColumn, row, Some p.1) : LogKey).
  assert (E2 : concat (map (fun p => deleteEntryBatch keying (version_filed p.2) ETColumn s t pk (Some p.1)) removed)
    = map (DelEntry) (map key removed)).
  { rewrite map_map. clear. induction removed as [|p l IH]; [done|]. cbn. by rewrite IH. }
  rewrite E1, E2, write_dels. unfold erase. f_equal; apply map_filter_strong_ext; intros i x; cbn.
  - split; intros [H Hl]; (split; [|done]); revert H; unfold wipes; rewrite !andb_false_iff, ?negb_false_iff, !bool_decide_eq_false, ?bool_decide_eq_true.
    + destruct i as [r c]. cbn. intros [Hn|Hn]; [by left|]. destruct (decide (r = row)) as [->|]; [|by left]. right.
      destruct (decide (c ∈ keep)); [done|]. destruct Hn. apply list_elem_of_fmap. exists (c, x). split; [done|]. by apply Hr.
    + destruct i as [r c]. cbn. intros [Hn|Hn]; [by left|]. right. intros ([c' v] & -> & Hin)%list_elem_of_fmap. by apply Hr in Hin as [_ ?].
  - assert (Hk : i ∈ map key removed <-> entry_erased (wipes row keep) (columnVersions m) i = true).
    { rewrite list_elem_of_fmap. destruct i as [[[p ty] r] o]. unfold entry_erased, key. split.
      - intros ([c v] & [= -> -> -> ->] & Hin). apply Hr in Hin as [Hv Hn]. cbn. rewrite Hv. unfold wipes. cbn.
        by rewrite (bool_decide_eq_true_2 (row = row)), (bool_decide_eq_false_2 (c ∈ keep)), bool_decide_eq_true_2 by done.
      - destruct ty; [|done]. destruct o as [c|]; [|done]. intros [Hw Hp]%andb_true_iff.
        unfold wipes in Hw. cbn in Hw. apply andb_true_iff in Hw as [->%bool_decide_eq_true Hn%negb_true_iff%bool_decide_eq_false].
        destruct (columnVersions m !! (row, c)) as [v|] eqn:Ev; [|done]. apply bool_decide_eq_true in Hp as <-.
        exists (c, v). split; [done|]. by apply Hr. }
    rewrite bool_decide_eq_false, Hk, not_true_iff_false. done.
Qed.

(** What the cleanup of the filed facts erases. *)
Definition erases (lw : LocalWriteTracker) (filed : list Fact) (p : jsstring * jsstring) : bool :=
  existsb (fun f => match f with
                    | FDelete d keep => wipes (the_row (rd_schema d) (rd_table d) (rd_pk d)) (keep_past d keep lw) p
                    | _ => false
                    end) filed.

Lemma cleaned_erase m lw filed : clean m lw filed = erase (erases lw filed) m.
Proof.
  revert m. induction filed as [|f filed IH]; intros m; [symmetry; apply erase_none|]. destruct f as [d keep|c er|c t fw]; cbn [cleaned].
  - unfold clean_one. by rewrite wipe_erases, IH, erase_erase.
  - by rewrite IH.
  - by rewrite IH.
Qed.

Lemma erases_perm lw l l' : l ≡ₚ l' -> forall p, erases lw l p = erases lw l' p.
Proof.
  intros Hp p. apply eq_iff_eq_true. unfold erases. rewrite !existsb_exists. setoid_rewrite <- list_elem_of_In. by setoid_rewrite Hp.
Qed.

End Filing.
End Filing.

(** ** The order of the changes *)

Module Order.
Import Filing.

Lemma maxHLC_perm l l' : l ≡ₚ l' -> Hlc.maxHLC l = Hlc.maxHLC l'.
Proof.
  intros Hp. pose proof (Hlc.maxHLC_fold None l) as H. pose proof (Hlc.maxHLC_fold None l') as H'. unfold Hlc.maxHLC.
  destruct (foldl Hlc.maxHLC_step None l) as [a|], (foldl Hlc.maxHLC_step None l') as [b|].
  - destruct H as ([|Ha] & Hall & _); [done|]. destruct H' as ([|Hb] & Hall' & _); [done|]. f_equal.
    rewrite Forall_forall in Hall. rewrite Forall_forall in Hall'. apply hle_antisym; [apply Hall'; by rewrite <- Hp|apply Hall; by rewrite Hp].
  - destruct H' as [_ ->]. destruct H as ([|Ha] & _); [done|]. by apply Permutation_nil_r in Hp as ->; apply elem_of_nil in Ha.
  - destruct H as [_ ->]. destruct H' as ([|Hb] & _); [done|]. by apply Permutation_nil_l in Hp as <-; apply elem_of_nil in Hb.
  - done.
Qed.

Section Order.
Context (keying : jsstring -> jsstring -> PkKeying) (toLowerCase : jsstring -> jsstring).
Context (ctxSiteId : Site.SiteId) (config : SyncConfig) (now : Z) (isTableInBasis : jsstring -> jsstring -> bool).

Abbreviation Change := (SyncApply.Change).
Abbreviation Meta := SyncMetadata.
Abbreviation Fact := FactToFile.
Abbreviation route := (SyncApply.route keying ctxSiteId config isTableInBasis).
Abbreviation resolve := (resolveChange keying ctxSiteId config).
Abbreviation reconcile := (reconcileInBatchDeletes keying config).
Abbreviation refuse := (refuseEditsOfForgottenRows keying).
Abbreviation facts_of := (collapseInBatchRepeats keying).
Abbreviation file_tick := (filing keying toLowerCase now).
Abbreviation commit := (commit_all keying toLowerCase now).
Context (thrown : option Tables).

Abbreviation tracked := (applyTrackedBatch keying toLowerCase ctxSiteId config now None thrown isTableInBasis).
Abbreviation apply_batch := (applyChanges keying toLowerCase ctxSiteId config now None thrown isTableInBasis).

(** A timestamp names one change. *)
Definition unambiguous (cs : list Change) : Prop := forall c c', c ∈ cs -> c' ∈ cs -> ch_hlc c = ch_hlc c' -> c = c'.

Definition unknown_of (x : Routed) : option Change := match x with RUnknown c => Some c | _ => None end.

Lemma resolve_change m c fresh : change (resolve m c fresh).1 = c.
Proof. unfold resolveChange. repeat (case_match; cbn; try done). Qed.

Lemma resolve_ok m c : entry_ok (resolve m c false).1.
Proof. unfold resolveChange, entry_ok. repeat (case_match; cbn; try by split_and!). Qed.

Lemma route_resolved m c r events : route m c = RResolved r events -> r = (resolve m c false).1 /\ isTableInBasis (ch_schema c) (ch_table c) = true.
Proof.
  unfold SyncApply.route. case_match; [done|]. destruct (isTableInBasis _ _); [|done]. cbn. destruct (resolve m c false). by intros [= <- <-].
Qed.

Lemma route_unknown m c c' : route m c = RUnknown c' -> c' = c /\ isTableInBasis (ch_schema c) (ch_table c) = false.
Proof.
  unfold SyncApply.route. case_match; [done|]. destruct (isTableInBasis _ _); cbn; [by destruct (resolve m c false)|]. by intros [= <-].
Qed.

Lemma resolved_elem m cs r :
  r ∈ omap resolved_of (map (route m) cs) -> exists c, c ∈ cs /\ r = (resolve m c false).1 /\ isTableInBasis (ch_schema c) (ch_table c) = true.
Proof.
  intros (x & (c & -> & Hc)%list_elem_of_fmap & E)%list_elem_of_omap. destruct (route m c) as [| |r' ev] eqn:Er; try done.
  injection E as ->. apply route_resolved in Er as [-> ?]. by exists c.
Qed.

Lemma unknown_elem m cs c :
  c ∈ omap unknown_of (map (route m) cs) -> c ∈ cs /\ isTableInBasis (ch_schema c) (ch_table c) = false.
Proof.
  intros (x & (c' & -> & Hc)%list_elem_of_fmap & E)%list_elem_of_omap. destruct (route m c') as [|u|] eqn:Er; try done.
  injection E as ->. apply route_unknown in Er as [-> ?]. done.
Qed.

Lemma resolved_ok m cs : Forall entry_ok (omap resolved_of (map (route m) cs)).
Proof. apply Forall_forall. intros r (c & _ & -> & _)%resolved_elem. apply resolve_ok. Qed.

Lemma resolved_agree m cs : unambiguous cs -> agree (omap resolved_of (map (route m) cs)).
Proof.
  intros Hu r r' (c & Hc & -> & _)%resolved_elem (c' & Hc' & -> & _)%resolved_elem. unfold hlc_of. rewrite !resolve_change. intros E.
  by rewrite (Hu c c' Hc Hc' E).
Qed.

(** The diverted changes, grouped by table, are all of them. *)
Lemma unknown_groups xs :
  concat (foldl unknown_step [] xs).*2 ≡ₚ omap unknown_of xs /\ (foldl unknown_step [] xs = [] <-> omap unknown_of xs = []).
Proof.
  assert (Hset : forall (key : jsstring) (c : Change) (g : list (jsstring * list Change)),
    concat (alist_set key (default [] (alist_get key g) ++ [c]) g).*2 ≡ₚ concat g.*2 ++ [c]).
  { intros key c g. induction g as [|[k l] g IH]; [done|]. cbn. destruct (decide (k = key)) as [->|Hn]; cbn.
    - rewrite <- !app_assoc. apply Permutation_app_head. apply Permutation_app_comm.
    - rewrite IH. by rewrite app_assoc. }
  assert (Hne : forall (key : jsstring) (l : list Change) g, alist_set key l g <> []) by (intros key l [|[k x] g]; cbn; [done|]; by case_decide).
  induction xs as [|x xs IH] using rev_ind; [done|]. rewrite foldl_app, omap_app. cbn [foldl]. destruct IH as [IH1 IH2].
  destruct x as [|c|r ev]; cbn; rewrite ?app_nil_r; [done| |done]. split.
  - by rewrite Hset, IH1.
  - split; intros H; [by apply Hne in H|]. by destruct (omap unknown_of xs).
Qed.

Lemma hold_perm xs xs' t :
  xs ≡ₚ xs' ->
  match holdOptions config (foldl unknown_step [] xs) t, holdOptions config (foldl unknown_step [] xs') t with
  | Some h, Some h' => ho_changes h ≡ₚ ho_changes h' /\ ho_receivedAt h = ho_receivedAt h' /\ ho_forwardable h = ho_forwardable h' /\
                       ho_changes h ≡ₚ omap unknown_of xs
  | None, None => True
  | _, _ => False
  end.
Proof.
  intros Hp. destruct (unknown_groups xs) as [H1 H2]. destruct (unknown_groups xs') as [H1' H2'].
  assert (Hu : omap unknown_of xs ≡ₚ omap unknown_of xs') by (by apply omap_Permutation).
  unfold holdOptions. destruct (foldl unknown_step [] xs) as [|g gs], (foldl unknown_step [] xs') as [|g' gs'].
  - by destruct (unknownTableDisposition config).
  - assert (E : omap unknown_of xs = []) by (by apply H2). rewrite E in Hu. apply Permutation_nil_l in Hu. symmetry in Hu. by apply H2' in Hu.
  - assert (E : omap unknown_of xs' = []) by (by apply H2'). rewrite E in Hu. apply Permutation_nil_r in Hu. by apply H2 in Hu.
  - destruct (unknownTableDisposition config); cbn [ho_changes ho_receivedAt ho_forwardable]; [|done|]; (split_and!; [|done|done|done]); by rewrite H1, H1'.
Qed.

Lemma nothing_superseded s t pk c : supersedes keying toLowerCase newTracker s t pk c = false.
Proof. done. Qed.

Lemma nothing_lost fs :
  List.filter (fun f => negb (lostToLocalWrite keying toLowerCase (close newTracker) f)) fs = fs.
Proof. induction fs as [|f fs IH]; [done|]. cbn. rewrite IH. by destruct f. Qed.

Lemma file_tick_perm m fs fs' w :
  fs ≡ₚ fs' -> (forall f g, f ∈ fs -> g ∈ fs -> fact_hlc f = fact_hlc g -> f = g) ->
  match file_tick m fs w newTracker, file_tick m fs' w newTracker with
  | Ok (a, b), Ok (a', b') => a = a' /\ b ≡ₚ b'
  | Throw e, Throw e' => e = e'
  | _, _ => False
  end.
Proof.
  intros Hp Hag. unfold filing. rewrite !nothing_lost.
  destruct (received now m w) as [m1|e]; [|done]. cbn.
  assert (Es : js_sort (fun a b => Hlc.compareHLC (fact_hlc a) (fact_hlc b)) fs = js_sort (fun a b => Hlc.compareHLC (fact_hlc a) (fact_hlc b)) fs').
  { apply js_sort_perm_eq; [exact (by_hlc_laws fact_hlc)| |done]. intros f g Hf Hg. rewrite sgn_eq, Hlc.compareHLC_0. by apply Hag. }
  destruct fs as [|f fs]; [apply Permutation_nil_l in Hp as <-; done|]. destruct fs' as [|f' fs']; [by apply Permutation_nil_r in Hp|].
  rewrite Es. destruct (file_all _ _ _ _ _ _); [|done]. done.
Qed.

Lemma commit_perm m rs rs' w h h' :
  let fs := facts_of rs ++ heldFacts h in
  fs ≡ₚ facts_of rs' ++ heldFacts h' -> (forall f g, f ∈ fs -> g ∈ fs -> fact_hlc f = fact_hlc g -> f = g) ->
  commit m rs w h newTracker = commit m rs' w h' newTracker.
Proof.
  cbn. unfold commit_all. generalize (facts_of rs ++ heldFacts h) (facts_of rs' ++ heldFacts h'). intros fs fs' Hp Hag.
  pose proof (file_tick_perm m fs fs' w Hp Hag) as H.
  assert (E : (let* r := file_tick m fs w newTracker in Ok (cleaned keying toLowerCase r.1 newTracker r.2)) =
    (let* r := file_tick m fs' w newTracker in Ok (cleaned keying toLowerCase r.1 newTracker r.2))).
  { destruct (file_tick m fs w newTracker) as [[a b]|e], (file_tick m fs' w newTracker) as [[a' b']|e']; try done; cbn; [|congruence].
    destruct H as [-> Hb]. f_equal. rewrite !cleaned_erase. apply erase_ext. intros p. by apply erases_perm. }
  destruct fs as [|f fs]; [apply Permutation_nil_l in Hp as <-; done|]. destruct fs' as [|f' fs']; [by apply Permutation_nil_r in Hp|done].
Qed.

Lemma held_elem (h : option (HoldOptions)) f : f ∈ heldFacts h -> exists o c, h = Some o /\ c ∈ ho_changes o /\ f = FHeld c (ho_receivedAt o) (ho_forwardable o).
Proof. destruct h as [o|]; [|by intros ?%elem_of_nil]. intros (c & -> & Hc)%list_elem_of_fmap. by exists o, c. Qed.

(** Everything a batch files, with the held changes: one timestamp, one fact. *)
Lemma all_facts_agree m cs t f g :
  unambiguous cs ->
  let xs := map (route m) cs in
  let fs := facts_of (refuse (reconcile (omap resolved_of xs))) ++ heldFacts (holdOptions config (foldl unknown_step [] xs) t) in
  f ∈ fs -> g ∈ fs -> fact_hlc f = fact_hlc g -> f = g.
Proof.
  intros Hu xs fs. set (l := omap resolved_of xs) in *.
  assert (Hl : Forall entry_ok l) by apply resolved_ok. assert (Ha : agree l) by by apply resolved_agree.
  pose proof (hold_perm xs xs t (reflexivity _)) as Hh.
  assert (Hheld : forall f, f ∈ heldFacts (holdOptions config (foldl unknown_step [] xs) t) ->
    exists c o, f = FHeld c (ho_receivedAt o) (ho_forwardable o) /\ holdOptions config (foldl unknown_step [] xs) t = Some o /\ c ∈ cs /\
      isTableInBasis (ch_schema c) (ch_table c) = false).
  { intros f' (o & c & E & Hc & ->)%held_elem. rewrite E in Hh. destruct Hh as (_ & _ & _ & Hh). rewrite Hh in Hc.
    apply unknown_elem in Hc as [? ?]. by exists c, o. }
  assert (Hfact : forall f, f ∈ facts_of (refuse (reconcile l)) -> exists c, c ∈ cs /\ fact_hlc f = ch_hlc c /\
      isTableInBasis (ch_schema c) (ch_table c) = true).
  { intros f' Hf'. destruct f' as [d keep|c er|c t' fw]; [| |by apply no_held_facts in Hf'].
    - apply delete_facts in Hf' as (e & (c & Hc & -> & Hb)%resolved_elem & Ec & _); [|done|done]. rewrite resolve_change in Ec. subst c. by exists (CDelete d).
    - apply column_facts in Hf' as (e & (c' & Hc & -> & Hb)%resolved_elem & Ec & _); [|done]. rewrite resolve_change in Ec. subst c'. by exists (CColumn c). }
  intros [Hf|Hf]%elem_of_app [Hg|Hg]%elem_of_app Eh.
  - by eapply facts_agree.
  - destruct (Hfact f Hf) as (c & Hc & E & Hb). destruct (Hheld g Hg) as (c' & o & -> & _ & Hc' & Hb'). cbn in Eh.
    rewrite (Hu c c') in Hb by (try done; congruence). congruence.
  - destruct (Hfact g Hg) as (c & Hc & E & Hb). destruct (Hheld f Hf) as (c' & o & -> & _ & Hc' & Hb'). cbn in Eh.
    rewrite (Hu c c') in Hb by (try done; congruence). congruence.
  - destruct (Hheld f Hf) as (c & o & -> & E & Hc & _). destruct (Hheld g Hg) as (c' & o' & -> & E' & Hc' & _). cbn in Eh.
    rewrite (Hu c c') by done. congruence.
Qed.

Lemma landed_all rs :
  List.filter (fun x => negb (supersededChange keying toLowerCase newTracker (change x))) rs = rs.
Proof. induction rs as [|x rs IH]; [done|]. cbn. by rewrite IH. Qed.

Lemma applied_count rs : length (List.filter is_applied rs) = count_outcome Applied rs.
Proof. done. Qed.

Lemma tracked_perm r css css' w :
  unambiguous (concat (map cs_changes css)) -> concat (map cs_changes css) ≡ₚ concat (map cs_changes css') -> length css = length css' ->
  tracked r css w newTracker = tracked r css' w newTracker.
Proof.
  intros Hu Hp Hlen. unfold applyTrackedBatch. rewrite !landed_all, Hlen.
  set (cs := concat (map cs_changes css)) in *. set (cs' := concat (map cs_changes css')) in *.
  pose proof (all_facts_agree (meta r) cs now) as Hag. specialize (Hag) with (1 := Hu). cbn zeta in Hag.
  set (xs := map (route (meta r)) cs) in *. set (xs' := map (route (meta r)) cs') in *.
  assert (Hx : xs ≡ₚ xs') by (by apply Permutation_map).
  set (l := omap resolved_of xs) in *. set (l' := omap resolved_of xs') in *.
  assert (Hl : l ≡ₚ l') by (by apply omap_Permutation).
  assert (Hok : Forall entry_ok l) by apply resolved_ok. assert (Ha : agree l) by by apply resolved_agree.
  assert (Ed : orderDataChangesByHLC (List.filter is_applied (refuse (reconcile l))) =
    orderDataChangesByHLC (List.filter is_applied (refuse (reconcile l')))) by (by apply data_perm).
  assert (Ec : forall o, count_outcome o (refuse (reconcile l)) = count_outcome o (refuse (reconcile l'))) by (intros o; by apply count_perm).
  assert (Em : forall m, commit m (List.filter is_applied (refuse (reconcile l))) w (holdOptions config (foldl unknown_step [] xs) now) newTracker =
    commit m (List.filter is_applied (refuse (reconcile l'))) w (holdOptions config (foldl unknown_step [] xs') now) newTracker).
  { intros m. apply commit_perm.
    - rewrite !facts_filter. apply Permutation_app; [by apply facts_perm|]. pose proof (hold_perm xs xs' now Hx) as Hh.
      destruct (holdOptions config (foldl unknown_step [] xs) now) as [o|], (holdOptions config (foldl unknown_step [] xs') now) as [o'|]; try done.
      destruct Hh as (H1 & H2 & H3 & _). cbn. rewrite H2, H3. by apply Permutation_map.
    - rewrite facts_filter. exact Hag. }
  rewrite !applied_count, Ed, !Ec. unfold admitGroup. destruct (applyDataToStore _ _ _ _ _ _) as [r1 [u|e]]; [|done]. rewrite !commit_accepted, Em.
  destruct (commit _ _ _); [|done].
  assert (Ee : length (List.filter is_echo xs) = length (List.filter is_echo xs')) by (by apply Permutation_length, lfilter_perm).
  assert (Eu : length (concat (foldl unknown_step [] xs).*2) = length (concat (foldl unknown_step [] xs').*2)).
  { apply Permutation_length. rewrite !(proj1 (unknown_groups _)). by apply omap_Permutation. }
  by rewrite Ee, Eu.
Qed.

(** C3: Applying a batch does not depend on the order in which its changes
    arrive, nor on how they are cut into change sets: with no local write during
    the apply, where a timestamp names one change, two batches with the same
    changes and the same watermarks leave the same replica (records, change log,
    held changes, clock and table rows) and report the same result, failures
    included: a drift, a missing table, a store callback that throws, no position
    left.  No metadata write is rejected; a rejected cleanup leaves the deletes
    cleaned before it, which are the first in arrival order. *)
Theorem apply_order_independent (r : Replica) (css css' : list (ChangeSet)) :
  unambiguous (concat (map cs_changes css)) ->
  concat (map cs_changes css) ≡ₚ concat (map cs_changes css') -> map cs_hlc css ≡ₚ map cs_hlc css' ->
  apply_batch r css newTracker = apply_batch r css' newTracker.
Proof.
  intros Hu Hp Hh. unfold applyChanges. rewrite (maxHLC_perm _ _ Hh).
  assert (Hlen : length css = length css') by (apply Permutation_length in Hh; by rewrite !length_map in Hh).
  destruct (Hlc.maxHLC (map cs_hlc css')) as [h|]; [|by apply tracked_perm].
  destruct (Hlc.assertWithinDrift _ _); [|done]. destruct (Hlc.receive _ _ _) as [[c ?]|]; [|done]. by apply tracked_perm.
Qed.

End Order.
End Order.
