(* ===== verification/SyncRecords.v ===== *)
(** * Applying remote changes: the records

    The apply keeps the change log an exact index of the records, files every
    new entry past the clock the replica had before, and leaves the records as
    they were when it fails. *)

From S2P Require Import Prelude Bytes Double Decimal Site Hlc KvStore Transaction StoreRead Utf8 Comparison KeySerializer KeyEncoding SyncKeys.
From S2P Require Import SyncApply SyncCommit SyncBatch SyncFiling.
From Stdlib Require Import ZArith Lia.
From stdpp Require Import sorting.
From stdpp Require Import base tactics numbers sets gmap list.
#[local] Open Scope Z_scope.

Import SyncKeys SyncApply Commit FirstMax Batch Filing Order.

#[local] Arguments rowIdentityKey : simpl never.
#[local] Arguments row_of : simpl never.
#[local] Arguments row_key : simpl never.
#[local] Arguments joinKeyParts : simpl never.

Module Records.

Section Records.
Context (keying : jsstring -> jsstring -> PkKeying) (toLowerCase : jsstring -> jsstring).
Context (now : Z).

Abbreviation Meta := SyncMetadata.
Abbreviation Fact := FactToFile.
Abbreviation LogKey := (HLC * ChangeLogEntryType * jsstring * option jsstring)%type.
Abbreviation the_row := (row_key keying).
Abbreviation facts_of := (collapseInBatchRepeats keying).
Abbreviation file := (fileFact keying now).
Abbreviation files := (file_all keying now).
Abbreviation held_at := existing_hold.
Abbreviation lost := (lostToLocalWrite keying toLowerCase).
Abbreviation file_tick := (filing keying toLowerCase now).
Abbreviation commit := (commit_all keying toLowerCase now).

(** ** The record a fact is about *)

Definition slot (f : Fact) : option (jsstring * option jsstring) :=
  match f with
  | FDelete d _ => Some (the_row (rd_schema d) (rd_table d) (rd_pk d), None)
  | FColumn c _ => Some (the_row (cc_schema c) (cc_table c) (cc_pk c), Some (cc_column c))
  | FHeld _ _ _ => None
  end.

Lemma row_id_key c : rowIdentityKey keying c false = the_row (ch_schema c) (ch_table c) (ch_pk c).
Proof. done. Qed.

Lemma slot_key f g : is_Some (slot f) -> slot f = slot g -> fact_key keying f = fact_key keying g.
Proof.
  destruct f as [d k|c e|c t fw], g as [d' k'|c' e'|c' t' fw']; cbn; intros [s Hs] [=]; try done.
  - unfold deleteKey. rewrite !row_id_key. cbn [ch_schema ch_table ch_pk]. congruence.
  - unfold columnKey. rewrite !row_id_key. cbn [ch_schema ch_table ch_pk]. congruence.
Qed.

(** No two facts of a batch are about the same record. *)
Lemma facts_slots l h : NoDup (omap slot (facts_of l ++ heldFacts h)).
Proof.
  rewrite omap_app. assert (E : omap slot (heldFacts h) = []).
  { destruct h as [o|]; [|done]. cbn. induction (ho_changes o) as [|c cs IH]; [done|]. exact IH. }
  rewrite E, app_nil_r. pose proof (facts_keys keying l) as H. induction (facts_of l) as [|f fs IH]; [constructor|].
  cbn in H. apply NoDup_cons in H as [Hf H]. cbn. destruct (slot f) as [s|] eqn:Es; [|by apply IH]. apply NoDup_cons. split; [|by apply IH].
  intros (g & Hg & Eg)%list_elem_of_omap. apply Hf. apply list_elem_of_fmap. exists g. split; [|done]. apply slot_key; [by rewrite Es|congruence].
Qed.

Lemma slots_perm (l l' : list Fact) : l ≡ₚ l' -> NoDup (omap slot l) -> NoDup (omap slot l').
Proof. intros Hp H. by rewrite <- (omap_Permutation slot l l' Hp). Qed.

Lemma slots_filter (p : Fact -> bool) l : NoDup (omap slot l) -> NoDup (omap slot (List.filter p l)).
Proof.
  induction l as [|f l IH]; [done|]. cbn. destruct (slot f) as [s|] eqn:Es.
  - intros [Hs H]%NoDup_cons. destruct (p f); [|by apply IH]. cbn. rewrite Es. apply NoDup_cons. split; [|by apply IH].
    intros (g & Hg & E)%list_elem_of_omap. apply Hs, list_elem_of_omap. exists g. split; [|done].
    by apply list_elem_of_In, filter_In in Hg as [?%list_elem_of_In _].
  - intros H. destruct (p f); [|by apply IH]. cbn. rewrite Es. by apply IH.
Qed.

(** ** Filing one fact *)

Lemma filing_field h p : filingPosition (mkFiled h (positionField h (Some p))) = p.
Proof.
  unfold filingPosition, positionField. cbn. destruct (Z.eqb_spec (Hlc.compareHLC p h) 0) as [E|]; cbn; [|done]. by apply Hlc.compareHLC_0 in E.
Qed.

Definition new_version (m : Meta) (c : ColumnChange) (erased : bool) (p : HLC) : ColumnVersion :=
  let old := getColumnVersion keying m (cc_schema c) (cc_table c) (cc_pk c) (cc_column c) in
  let prior := match old with
               | Some v => if bool_decide (is_Some (cc_priorHlc c)) && negb erased then Some v else None
               | None => None
               end in
  mkVersion (cc_hlc c) (positionField (cc_hlc c) (Some p)) (cc_value c) (cc_pk c) (cv_hlc <$> prior) (cv_value <$> prior).

Definition new_tombstone (d : RowDeletion) (p : HLC) : Tombstone :=
  mkTombstone (rd_hlc d) (positionField (rd_hlc d) (Some p)) now (rd_pk d) (rd_priorRow d).

Definition old_entry (m : Meta) (f : Fact) : option LogKey :=
  match f with
  | FDelete d _ =>
    let row := the_row (rd_schema d) (rd_table d) (rd_pk d) in
    (fun t => (filingPosition (tombstone_filed t), ETDelete, row, None)) <$> tombstones m !! row
  | FColumn c _ =>
    let row := the_row (cc_schema c) (cc_table c) (cc_pk c) in
    (fun v => (filingPosition (version_filed v), ETColumn, row, Some (cc_column c))) <$> columnVersions m !! (row, cc_column c)
  | FHeld _ _ _ => None
  end.

Definition drop_entry (o : option LogKey) (lg : gmap LogKey HLC) : gmap LogKey HLC :=
  match o with Some k => delete k lg | None => lg end.

Lemma file_column m c er p m0 :
  let row := the_row (cc_schema c) (cc_table c) (cc_pk c) in
  write_batch m0 (file m (FColumn c er) p) =
  mkMeta (clock m0) (savedClock m0) (<[(row, cc_column c) := new_version m c er p]> (columnVersions m0)) (tombstones m0)
    (<[(p, ETColumn, row, Some (cc_column c)) := cc_hlc c]> (drop_entry (old_entry m (FColumn c er)) (changeLog m0)))
    (quarantine m0) (deltaFloor m0).
Proof.
  cbn. unfold commitColumnMetadata, new_version, getColumnVersion. destruct (columnVersions m !! _) as [v|]; done.
Qed.

Lemma file_delete m d keep p m0 :
  let row := the_row (rd_schema d) (rd_table d) (rd_pk d) in
  write_batch m0 (file m (FDelete d keep) p) =
  mkMeta (clock m0) (savedClock m0) (columnVersions m0) (<[row := new_tombstone d p]> (tombstones m0))
    (<[(p, ETDelete, row, None) := rd_hlc d]> (drop_entry (old_entry m (FDelete d keep)) (changeLog m0)))
    (quarantine m0) (deltaFloor m0).
Proof. cbn. unfold commitDeleteMetadata, getTombstone. destruct (tombstones m !! _) as [t|]; done. Qed.

Lemma file_held m c t fw p m0 :
  exists q, write_batch m0 (file m (FHeld c t fw) p) =
  mkMeta (clock m0) (savedClock m0) (columnVersions m0) (tombstones m0) (changeLog m0) q (deltaFloor m0).
Proof. eexists. done. Qed.

(** ** The log as an index of the records *)

Definition log_ok (m : Meta) : Prop :=
  forall p t row col h,
    changeLog m !! (p, t, row, col) = Some h <->
    match t, col with
    | ETColumn, Some c =>
      exists v, columnVersions m !! (row, c) = Some v /\ filingPosition (version_filed v) = p /\ cv_hlc v = h
    | ETDelete, None => exists b, tombstones m !! row = Some b /\ filingPosition (tombstone_filed b) = p /\ tb_hlc b = h
    | _, _ => False
    end.

Definition same_at (m m' : Meta) (s : jsstring * option jsstring) : Prop :=
  match s.2 with
  | Some c => columnVersions m !! (s.1, c) = columnVersions m' !! (s.1, c)
  | None => tombstones m !! s.1 = tombstones m' !! s.1
  end.

Lemma drop_entry_lookup o lg k : drop_entry o lg !! k = if decide (o = Some k) then None else lg !! k.
Proof.
  destruct o as [k'|]; cbn; [|by rewrite decide_False]. destruct (decide (k' = k)) as [->|Hn].
  - by rewrite decide_True, lookup_delete_eq by done.
  - rewrite decide_False, lookup_delete_ne by congruence. done.
Qed.

Lemma file_log_ok m f p m0 :
  log_ok m0 -> (forall s, slot f = Some s -> same_at m m0 s) -> log_ok (write_batch m0 (file m f p)).
Proof.
  intros Hl Hs. destruct f as [d keep|c er|c t fw].
  - rewrite file_delete. specialize (Hs _ eq_refl). cbn in Hs. set (row := the_row _ _ _) in *. intros p' t' row' col' h. cbn.
    destruct (decide (t' = ETDelete /\ row' = row /\ col' = None)) as [(-> & -> & ->)|Hne].
    + rewrite lookup_insert_eq. rewrite lookup_insert. case_decide as Hk.
      * injection Hk as <-. split; [intros [= <-]; eexists; split; [done|]; split; [exact (filing_field (rd_hlc d) p)|done]|].
        intros (b & [= <-] & _ & <-). done.
      * rewrite drop_entry_lookup. cbn. fold row. rewrite Hs. split; [|intros (b & [= <-] & E & _); destruct Hk; f_equal; f_equal; f_equal].
        -- case_decide as Hd; [done|]. intros E. apply Hl in E as (b & Hb & Ep & _). destruct Hd. rewrite Hb. cbn. by rewrite <- Ep.
        -- rewrite <- E. symmetry. exact (filing_field (rd_hlc d) p).
    + rewrite lookup_insert_ne by naive_solver. rewrite drop_entry_lookup, decide_False.
      2: { cbn. fold row. destruct (tombstones m !! row); cbn; naive_solver. }
      rewrite (Hl p' t' row' col' h). destruct t', col'; try done. rewrite lookup_insert_ne by naive_solver. done.
  - rewrite file_column. specialize (Hs _ eq_refl). cbn in Hs. set (row := the_row _ _ _) in *. intros p' t' row' col' h. cbn.
    destruct (decide (t' = ETColumn /\ row' = row /\ col' = Some (cc_column c))) as [(-> & -> & ->)|Hne].
    + rewrite lookup_insert_eq. rewrite lookup_insert. case_decide as Hk.
      * injection Hk as <-. split; [intros [= <-]; eexists; split; [done|]; split; [exact (filing_field (cc_hlc c) p)|done]|].
        intros (b & [= <-] & _ & <-). done.
      * rewrite drop_entry_lookup. cbn. fold row. rewrite Hs. split; [|intros (b & [= <-] & E & _); destruct Hk; f_equal; f_equal; f_equal].
        -- case_decide as Hd; [done|]. intros E. apply Hl in E as (b & Hb & Ep & _). destruct Hd. rewrite Hb. cbn. by rewrite <- Ep.
        -- rewrite <- E. symmetry. exact (filing_field (cc_hlc c) p).
    + rewrite lookup_insert_ne by naive_solver. rewrite drop_entry_lookup, decide_False.
      2: { cbn. fold row. destruct (columnVersions m !! (row, cc_column c)); cbn; naive_solver. }
      rewrite (Hl p' t' row' col' h). destruct t', col'; try done. rewrite lookup_insert_ne by naive_solver. done.
  - destruct (file_held m c t fw p m0) as [q ->]. exact Hl.
Qed.

Lemma file_elsewhere m f p m0 s : slot f <> Some s -> same_at m0 (write_batch m0 (file m f p)) s.
Proof.
  intros Hs. destruct s as [row col]. unfold same_at. cbn. destruct f as [d keep|c er|c t fw].
  - rewrite file_delete. destruct col; cbn; [done|]. rewrite lookup_insert_ne; [done|]. intros E. apply Hs. cbn. congruence.
  - rewrite file_column. destruct col; cbn; [|done]. rewrite lookup_insert_ne; [done|]. intros E. apply Hs. cbn. congruence.
  - destruct (file_held m c t fw p m0) as [q ->]. by destruct col.
Qed.

(** ** Filing a batch *)

Definition at_tick (t p : HLC) : Prop := exists o, p = Hlc.createHLC (Hlc.wallTime t) (Hlc.counter t) (Hlc.siteId t) o.

Definition file_list (m m0 : Meta) (fps : list (Fact * HLC)) : Meta := foldl (fun a q => write_batch a (file m q.1 q.2)) m0 fps.

Lemma file_all_spec m t o fs ops :
  files m t o fs = Ok ops ->
  exists fps, fps.*1 = fs /\ Forall (fun q => held_at m q.1 = Some q.2 \/ held_at m q.1 = None /\ at_tick t q.2) fps /\
    forall m0, write_batch m0 ops = file_list m m0 fps.
Proof.
  revert o ops. induction fs as [|f fs IH]; intros o ops H; cbn in H; [injection H as <-; by exists []|].
  destruct (held_at m f) as [p|] eqn:Eh.
  - destruct (files m t o fs) as [rest|] eqn:Er; [|done]. injection H as <-. destruct (IH o rest Er) as (fps & <- & Hf & Hw).
    exists ((f, p) :: fps). split_and!; [done|constructor; [by left|done]|]. intros m0. unfold write_batch in *. by rewrite foldl_app, Hw.
  - destruct (positionsFrom t o) as [[p o']|] eqn:Ep; [|done]. cbn in H. destruct (files m t o' fs) as [rest|] eqn:Er; [|done]. injection H as <-.
    destruct (IH o' rest Er) as (fps & <- & Hf & Hw). exists ((f, p) :: fps). split_and!; [done| |].
    + constructor; [|done]. right. split; [done|]. unfold positionsFrom in Ep. destruct (_ <? o); [done|]. injection Ep as <- <-. by exists o.
    + intros m0. unfold write_batch in *. by rewrite foldl_app, Hw.
Qed.

Lemma file_all_ok m t o fs :
  0 <= o -> o + Z.of_nat (length fs) <= Hlc.MAX_OPSEQ + 1 -> exists ops, files m t o fs = Ok ops.
Proof.
  revert o. induction fs as [|f fs IH]; intros o Ho Hl; cbn; [by eexists|]. cbn [length] in Hl. destruct (held_at m f) as [p|].
  - destruct (IH o) as [ops ->]; [lia|lia|]. by eexists.
  - unfold positionsFrom. destruct (Z.ltb_spec Hlc.MAX_OPSEQ o); [lia|]. cbn. destruct (IH (o + 1)) as [ops ->]; [lia|lia|]. by eexists.
Qed.

Lemma same_at_trans m1 m2 m3 s : same_at m1 m2 s -> same_at m2 m3 s -> same_at m1 m3 s.
Proof. unfold same_at. destruct (s.2); congruence. Qed.

Lemma file_list_elsewhere m m0 fps s : s ∉ omap slot fps.*1 -> same_at m0 (file_list m m0 fps) s.
Proof.
  revert m0. induction fps as [|[f p] fps IH]; intros m0 Hs; [by unfold same_at; destruct (s.2)|]. cbn [fmap list_fmap fst omap list_omap] in Hs.
  cbn. eapply same_at_trans; [apply (file_elsewhere m f p m0 s)|apply IH]; destruct (slot f); set_solver.
Qed.

Lemma file_list_log_ok m m0 fps :
  log_ok m0 -> NoDup (omap slot fps.*1) -> (forall s, s ∈ omap slot fps.*1 -> same_at m m0 s) -> log_ok (file_list m m0 fps).
Proof.
  revert m0. induction fps as [|[f p] fps IH]; intros m0 Hl Hn Hs; [done|]. cbn. cbn [fmap list_fmap fst omap list_omap] in Hn, Hs. apply IH.
  - apply file_log_ok; [done|]. intros s E. apply Hs. rewrite E. set_solver.
  - destruct (slot f); [by apply NoDup_cons in Hn as [_ ?]|done].
  - intros s Hin. eapply same_at_trans; [apply Hs; destruct (slot f); set_solver|]. apply file_elsewhere. intros E. rewrite E in Hn.
    by apply NoDup_cons in Hn as [? _].
Qed.

Lemma erase_log_ok er m : log_ok m -> log_ok (erase er m).
Proof.
  intros Hl p t row col h. cbn. rewrite map_lookup_filter_Some. cbn. rewrite (Hl p t row col h). destruct t, col as [c|]; try naive_solver. cbn.
  rewrite map_lookup_filter. split.
  - intros [(v & Hv & Hp & Hh) Her]. rewrite Hv in *. exists v. cbn. destruct (er (row, c)); cbn in *; [|done].
    by rewrite bool_decide_eq_true_2 in Her.
  - intros (v & Hv & Hp & Hh). destruct (columnVersions m !! (row, c)) as [v'|]; cbn in Hv; [|done].
    destruct (er (row, c)) eqn:E; cbn in Hv; [done|]. injection Hv as ->. cbn. by split; [exists v|].
Qed.

Lemma file_list_ext m m' m0 fps : (forall f p, file m f p = file m' f p) -> file_list m m0 fps = file_list m' m0 fps.
Proof. intros H. revert m0. induction fps as [|q fps IH]; intros m0; [done|]. cbn. rewrite H. apply IH. Qed.

(** What filing does: the clock moves, the facts are filed, and of the filed
    deletes those among [l] are cleaned up. *)
Definition filed_with (m : Meta) (fs : list Fact) (w : option HLC) (lw : LocalWriteTracker) (l : list Fact) (m' : Meta) : Prop :=
  exists m1 fps saved,
    let toFile := List.filter (fun f => negb (lost (close lw) f)) fs in
    fps.*1 ≡ₚ toFile /\
    match w with Some x => exists mc y, Hlc.receive (clock m) x now = Ok (mc, y) /\ m1 = set_clock m mc | None => m1 = m end /\
    Forall (fun q => held_at m q.1 = Some q.2 \/ held_at m q.1 = None /\ at_tick (Hlc.tick (clock m1) now).2 q.2) fps /\
    let m2 := match toFile with [] => m1 | _ => set_clock m1 (Hlc.tick (clock m1) now).1 end in
    m' = erase (erases keying toLowerCase lw l) (apply_op (file_list m m2 fps) (SaveClock saved)).

(** All of them. *)
Definition filed_as (m : Meta) (fs : list Fact) (w : option HLC) (lw : LocalWriteTracker) (m' : Meta) : Prop :=
  filed_with m fs w lw (List.filter (fun f => negb (lost (close lw) f)) fs) m'.

Lemma file_tick_spec m fs w lw m' filed :
  file_tick m fs w lw = Ok (m', filed) ->
  filed = List.filter (fun f => negb (lost (close lw) f)) fs /\
  forall l, filed_with m fs w lw l (cleaned keying toLowerCase m' lw l).
Proof.
  unfold filing, filed_with. set (toFile := List.filter _ fs).
  destruct (received now m w) as [m1|] eqn:E1; [|done]. cbn [res_bind]. unfold received in E1.
  assert (Hm1 : match w with Some x => exists mc y, Hlc.receive (clock m) x now = Ok (mc, y) /\ m1 = set_clock m mc | None => m1 = m end).
  { destruct w as [x|]; [|by injection E1]. destruct (Hlc.receive (clock m) x now) as [[mc y]|]; [|done]. injection E1 as <-. by exists mc, y. }
  assert (Hh : forall f, held_at m1 f = held_at m f) by (intros f; destruct w; [destruct Hm1 as (mc & y & _ & ->)|subst m1]; by destruct f).
  assert (Hf : forall f p, file m1 f p = file m f p) by (intros f p; destruct w; [destruct Hm1 as (mc & y & _ & ->)|subst m1]; by destruct f).
  destruct toFile as [|f0 fs0] eqn:Et.
  - cbn. intros [= <- <-]. split; [done|]. intros l. exists m1, [], (Hlc.getState (clock m1)). split_and!; try done. by rewrite cleaned_erase.
  - rewrite <- Et. cbn [res_bind]. set (sorted := js_sort _ toFile). destruct (files m1 _ 0 sorted) as [ops|] eqn:Eo; [|done]. cbn [res_bind fst snd].
    intros [= <- <-]. split; [done|]. intros l. destruct (file_all_spec _ _ _ _ _ Eo) as (fps & Hfst & Hall & Hw).
    exists m1, fps, (Hlc.getState (Hlc.tick (clock m1) now).1). split_and!; [|done| |].
    + rewrite Hfst. apply js_sort_perm.
    + eapply Forall_impl; [exact Hall|]. intros q. cbn beta. by rewrite Hh.
    + rewrite cleaned_erase. f_equal. unfold write_batch in *. rewrite foldl_app, Hw. cbn [foldl]. by rewrite (file_list_ext m1 m _ fps Hf).
Qed.

Lemma commit_filed m rs w h lw m' : commit m rs w h lw = Ok m' -> (facts_of rs ++ heldFacts h = [] /\ m' = m) \/ filed_as m (facts_of rs ++ heldFacts h) w lw m'.
Proof.
  unfold commit_all. set (fs := facts_of rs ++ heldFacts h).
  assert (H : (let* r := file_tick m fs w lw in Ok (cleaned keying toLowerCase r.1 lw r.2)) = Ok m' ->
    filed_as m fs w lw m').
  { destruct (file_tick m fs w lw) as [[m1 filed]|] eqn:E; [|done]. cbn. intros [= <-]. apply file_tick_spec in E as [-> H]. apply H. }
  destruct fs as [|f fs']; [destruct w|]; intros E; [right; by apply H|left; by injection E as ->|right; by apply H].
Qed.

(** ** The records after filing *)

Lemma file_list_record m m0 fps f p s :
  NoDup (omap slot fps.*1) -> (f, p) ∈ fps -> slot f = Some s -> exists m1, same_at (write_batch m1 (file m f p)) (file_list m m0 fps) s.
Proof.
  revert m0. induction fps as [|[g q] fps IH]; intros m0 Hn Hin Hs; [by apply elem_of_nil in Hin|]. cbn [fmap list_fmap fst omap list_omap] in Hn.
  apply elem_of_cons in Hin as [[= <- <-]|Hin]; cbn [file_list foldl].
  - exists m0. rewrite Hs in Hn. apply NoDup_cons in Hn as [Hn _]. by apply file_list_elsewhere.
  - apply IH; [|done|done]. destruct (slot g); [by apply NoDup_cons in Hn as [_ ?]|done].
Qed.

Lemma filed_tombstone m fs w lw l m' k :
  NoDup (omap slot fs) -> filed_with m fs w lw l m' ->
  let toFile := List.filter (fun f => negb (lost (close lw) f)) fs in
  (exists d keep p, FDelete d keep ∈ toFile /\ the_row (rd_schema d) (rd_table d) (rd_pk d) = k /\ tombstones m' !! k = Some (new_tombstone d p)) \/
  ((forall d keep, FDelete d keep ∈ toFile -> the_row (rd_schema d) (rd_table d) (rd_pk d) <> k) /\ tombstones m' !! k = tombstones m !! k).
Proof.
  intros Hn (m1 & fps & saved & Hp & Hm1 & _ & ->). cbn zeta. set (toFile := List.filter _ fs) in *.
  assert (Hn' : NoDup (omap slot fps.*1)) by (eapply slots_perm; [symmetry; exact Hp|by apply slots_filter]).
  set (m2 := match toFile with [] => _ | _ => _ end). cbn [erase tombstones apply_op].
  assert (H2 : tombstones m2 = tombstones m).
  { unfold m2. destruct w; [destruct Hm1 as (mc & y & _ & ->)|subst m1]; by destruct toFile. }
  destruct (decide ((k, None) ∈ omap slot toFile)) as [(f & Hf & Hs)%list_elem_of_omap|Hno].
  - left. destruct f as [d keep|c er|c t fw]; try done. cbn in Hs. injection Hs as Hk. assert (Hf' := Hf). rewrite <- Hp in Hf.
    apply list_elem_of_fmap in Hf as ([f p] & E & Hin). cbn in E. subst f.
    destruct (file_list_record m m2 fps _ p (k, None) Hn' Hin) as [m3 Hsame]; [cbn; congruence|]. exists d, keep, p. split_and!; [done|done|].
    rewrite file_delete in Hsame. cbn in Hsame. by rewrite Hk, lookup_insert_eq in Hsame.
  - right. split.
    + intros d keep Hd <-. apply Hno, list_elem_of_omap. by exists (FDelete d keep).
    + pose proof (file_list_elsewhere m m2 fps (k, None)) as He. cbn in He. rewrite H2 in He. symmetry. apply He.
      by rewrite (omap_Permutation slot _ _ Hp).
Qed.

Lemma filed_version m fs w lw m' k c :
  NoDup (omap slot fs) -> filed_as m fs w lw m' ->
  let toFile := List.filter (fun f => negb (lost (close lw) f)) fs in
  (erases keying toLowerCase lw toFile (k, c) = true -> columnVersions m' !! (k, c) = None) /\
  (erases keying toLowerCase lw toFile (k, c) = false ->
   (exists cc er p, FColumn cc er ∈ toFile /\ the_row (cc_schema cc) (cc_table cc) (cc_pk cc) = k /\ cc_column cc = c /\
      columnVersions m' !! (k, c) = Some (new_version m cc er p)) \/
   ((forall cc er, FColumn cc er ∈ toFile -> the_row (cc_schema cc) (cc_table cc) (cc_pk cc) = k -> cc_column cc <> c) /\
    columnVersions m' !! (k, c) = columnVersions m !! (k, c))).
Proof.
  intros Hn (m1 & fps & saved & Hp & Hm1 & _ & ->). cbn zeta. set (toFile := List.filter _ fs) in *.
  assert (Hn' : NoDup (omap slot fps.*1)) by (eapply slots_perm; [symmetry; exact Hp|by apply slots_filter]).
  set (m2 := match toFile with [] => _ | _ => _ end). cbn [erase columnVersions apply_op].
  assert (H2 : columnVersions m2 = columnVersions m).
  { unfold m2. destruct w; [destruct Hm1 as (mc & y & _ & ->)|subst m1]; by destruct toFile. }
  split; [intros Er; apply map_lookup_filter_None; right; intros x _; cbn; by rewrite Er|]. intros Er.
  set (er := erases _ _ lw toFile) in *.
  assert (Eg : filter (fun q => er q.1 = false) (columnVersions (file_list m m2 fps)) !! (k, c) = columnVersions (file_list m m2 fps) !! (k, c)).
  { destruct (columnVersions (file_list m m2 fps) !! (k, c)) eqn:E; [by apply map_lookup_filter_Some|]. apply map_lookup_filter_None. by left. }
  rewrite Eg. clear Eg.
  destruct (decide ((k, Some c) ∈ omap slot toFile)) as [(f & Hf & Hs)%list_elem_of_omap|Hno].
  - left. destruct f as [d keep|cc e|cc t fw]; try done. cbn in Hs. injection Hs as Hk Hc. assert (Hf' := Hf). rewrite <- Hp in Hf.
    apply list_elem_of_fmap in Hf as ([f p] & E & Hin). cbn in E. subst f.
    destruct (file_list_record m m2 fps _ p (k, Some c) Hn' Hin) as [m3 Hsame]; [cbn; congruence|]. exists cc, e, p. split_and!; [done|done|done|].
    rewrite file_column in Hsame. cbn in Hsame. rewrite Hk, Hc, lookup_insert_eq in Hsame. by rewrite <- Hsame.
  - right. split.
    + intros cc e Hd <- <-. apply Hno, list_elem_of_omap. by exists (FColumn cc e).
    + pose proof (file_list_elsewhere m m2 fps (k, Some c)) as He. cbn in He. rewrite H2 in He. rewrite <- He; [done|].
      by rewrite (omap_Permutation slot _ _ Hp).
Qed.

(** ** The apply *)

Context (ctxSiteId : Site.SiteId) (config : SyncConfig) (isTableInBasis : jsstring -> jsstring -> bool).

Context (rejected : option nat) (thrown : option Tables).

Abbreviation apply_batch := (applyChanges keying toLowerCase ctxSiteId config now rejected thrown isTableInBasis).
Abbreviation tracked := (applyTrackedBatch keying toLowerCase ctxSiteId config now rejected thrown isTableInBasis).
Abbreviation to_store := (applyDataToStore keying toLowerCase thrown).

(** The same calls with no metadata write rejected. *)
Abbreviation apply_accepted := (applyChanges keying toLowerCase ctxSiteId config now None thrown isTableInBasis).
Abbreviation tracked_accepted := (applyTrackedBatch keying toLowerCase ctxSiteId config now None thrown isTableInBasis).

Lemma to_store_meta r d lw : meta (to_store r d lw).1 = meta r.
Proof. unfold applyDataToStore. destruct (tables r), d; try done. destruct thrown; [done|]. by destruct (writeTableRows _ _ _ _ _). Qed.

(** The metadata after a batch, and what an apply without the fault leaves. *)
Definition batch_outcome (m : Meta) (lw : LocalWriteTracker) (r' : Replica) (st : res ApplyResult) (accepted : Replica * res ApplyResult) : Prop :=
  match st with
  | Ok _ => exists rs w h, commit m rs w h lw = Ok (meta r')
  | Throw e =>
    ticked m (meta r') \/
    e = EStore /\ (exists k, rejected = Some (S k)) /\
    exists rs w h ok res, half_cleaned keying toLowerCase now m rs w h lw (meta r') /\
      commit m rs w h lw = Ok (meta ok) /\ accepted = (ok, Ok res) /\ tables ok = tables r'
  end.

Lemma tracked_meta r css w lw r' st :
  tracked r css w lw = (r', st) -> batch_outcome (meta r) lw r' st (tracked_accepted r css w lw).
Proof.
  unfold applyTrackedBatch, admitGroup, batch_outcome. set (rs := List.filter is_applied _). set (h := holdOptions _ _ _).
  pose proof (to_store_meta r (orderDataChangesByHLC rs) lw) as Hm. destruct (to_store r _ lw) as [r1 [u|e]]; cbn in Hm; cycle 1.
  { intros [= <- <-]. left. by left. }
  rewrite Hm, commit_accepted. pose proof (commit_result keying toLowerCase now rejected (meta r) rs w h lw) as Hc.
  destruct (commitChangeMetadata _ _ _ rejected _ _ _ _ _) as [m' [v|e]]; intros [= <- <-]; cbn [meta tables].
  - by exists rs, w, h.
  - destruct Hc as [Ht|(-> & Hk & Hh)]; [by left|]. right. split_and!; [done..|].
    pose proof Hh as (m1 & l & rest & _ & Ec & _). rewrite Ec. eexists rs, w, h, (mkReplica _ (tables r1)), _. by split_and!.
Qed.

Lemma ticked_trans m m1 m2 : ticked m m1 -> ticked m1 m2 -> ticked m m2.
Proof.
  intros [->|(c & -> & Hc)] [->|(d & -> & Hd)]; [by left|right; eauto..|]. right. exists d. split; [done|].
  cbn in Hd. unfold Hlc.stamp_lt in *. lia.
Qed.

Lemma apply_meta r css lw r' st :
  apply_batch r css lw = (r', st) ->
  exists m, ticked (meta r) m /\ batch_outcome m lw r' st (apply_accepted r css lw).
Proof.
  unfold applyChanges. destruct (Hlc.maxHLC (map cs_hlc css)) as [x|].
  - destruct (Hlc.assertWithinDrift _ _); [|by intros [= <- <-]; exists (meta r); split; [left|left; left]].
    destruct (Hlc.receive (clock (meta r)) x now) as [[c y]|] eqn:Er; [|by intros [= <- <-]; exists (meta r); split; [left|left; left]].
    intros H%tracked_meta. exists (set_clock (meta r) c). split; [|done].
    right. exists c. split; [done|]. by apply Hlc.receive_advances in Er as [? _].
  - intros H%tracked_meta. exists (meta r). split; [by left|done].
Qed.

Lemma set_clock_log_ok m c : log_ok m -> log_ok (set_clock m c).
Proof. done. Qed.

Lemma filed_log_ok m fs w lw l m' : log_ok m -> NoDup (omap slot fs) -> filed_with m fs w lw l m' -> log_ok m'.
Proof.
  intros Hl Hn (m1 & fps & saved & Hp & Hm1 & _ & ->). apply erase_log_ok.
  assert (Hn' : NoDup (omap slot fps.*1)) by (eapply slots_perm; [symmetry; exact Hp|by apply slots_filter]).
  set (m2 := match _ with [] => _ | _ => _ end).
  assert (H2 : exists c, m2 = set_clock m c).
  { unfold m2. destruct w; [destruct Hm1 as (mc & y & _ & ->)|subst m1]; (case_match; [|by eexists]); [by eexists|].
    exists (clock m). by destruct m. }
  destruct H2 as [c ->]. change (log_ok (file_list m (set_clock m c) fps)). apply file_list_log_ok; [done|done|].
  intros s _. unfold same_at. by destruct (s.2).
Qed.

Lemma half_filed m rs w h lw m' :
  half_cleaned keying toLowerCase now m rs w h lw m' ->
  exists l, filed_with m (facts_of rs ++ heldFacts h) w lw l m'.
Proof. intros (m1 & l & rest & Hf & _ & ->). apply file_tick_spec in Hf as [_ Hf]. by exists l. Qed.

(** C4: The change log is an exact index of the records, and an apply keeps it
    so: each cell version and each tombstone has one entry, at the position it is
    filed at, with its timestamp, and there are no others.  This holds for every
    configuration, every batch, whatever local writes the tracker noted, and
    also when the apply fails, whichever of its writes is rejected. *)
Theorem apply_keeps_log (r : Replica) (css : list (ChangeSet)) (lw : LocalWriteTracker) :
  log_ok (meta r) -> log_ok (meta (apply_batch r css lw).1).
Proof.
  intros Hl. destruct (apply_batch r css lw) as [r' st] eqn:E. apply apply_meta in E as (m & Hm & Hst). cbn.
  assert (Hlm : log_ok m) by (destruct Hm as [->|(c & -> & _)]; done). destruct st as [res|e].
  - destruct Hst as (rs & w & h & [[_ ->]|Hf]%commit_filed); [done|]. eapply filed_log_ok; [exact Hlm|apply facts_slots|exact Hf].
  - destruct Hst as [[->|(c & -> & _)]|(_ & _ & rs & w & h & ok & res & Hh & _)]; [done..|]. apply half_filed in Hh as [l Hh].
    eapply filed_log_ok; [exact Hlm|apply facts_slots|exact Hh].
Qed.

Definition only_clock_moved (m m' : Meta) : Prop := exists c, m' = set_clock m c.

Lemma ticked_clock m m' : ticked m m' -> only_clock_moved m m'.
Proof. intros [->|(c & -> & _)]; [|by exists c]. exists (clock m). by destruct m. Qed.

(** [m'] is [m] with cells left behind: cells of rows that have a tombstone. *)
Record left_behind (m m' : Meta) : Prop := {
  lb_tombstones : tombstones m' = tombstones m;
  lb_quarantine : quarantine m' = quarantine m;
  lb_clock : clock m' = clock m;
  lb_saved : savedClock m' = savedClock m;
  lb_floor : deltaFloor m' = deltaFloor m;
  lb_kept : columnVersions m ⊆ columnVersions m';
  lb_more : forall k c, columnVersions m' !! (k, c) <> columnVersions m !! (k, c) ->
    columnVersions m !! (k, c) = None /\ is_Some (tombstones m' !! k)
}.

Lemma erases_app lw l l' p : erases keying toLowerCase lw (l ++ l') p = erases keying toLowerCase lw l p || erases keying toLowerCase lw l' p.
Proof. apply existsb_app. Qed.

Lemma half_left_behind m rs w h lw m' ok :
  half_cleaned keying toLowerCase now m rs w h lw m' -> commit m rs w h lw = Ok ok -> left_behind ok m'.
Proof.
  intros (m1 & l & rest & Hf & Ec & ->) E. rewrite Ec in E. injection E as <-. pose proof (file_tick_spec _ _ _ _ _ _ Hf) as [Hall Hfw].
  assert (Hd : forall p, erases keying toLowerCase lw (l ++ rest) p = true -> is_Some (tombstones m1 !! p.1)).
  { intros [k c]. unfold erases. rewrite existsb_exists. intros (f & Hin%list_elem_of_In & Hw). destruct f as [d keep|cc er|cc t fw]; try done.
    apply andb_true_iff in Hw as [Hk%bool_decide_eq_true _]. cbn in Hk |- *.
    destruct (filed_tombstone m _ w lw [] m1 k (facts_slots rs h)) as [(d' & keep' & p & _ & _ & ->)|[Hno _]]; [|by eexists|].
    - specialize (Hfw []). by cbn in Hfw.
    - exfalso. eapply Hno; [|symmetry; exact Hk]. rewrite <- Hall. exact Hin. }
  rewrite !cleaned_erase. split; try done; cbn [erase columnVersions tombstones].
  - apply map_subseteq_spec. intros i x [Hx He]%map_lookup_filter_Some. apply map_lookup_filter_Some. split; [done|].
    cbn in He |- *. rewrite erases_app in He. by apply orb_false_iff in He as [? _].
  - intros k c Hne. destruct (columnVersions m1 !! (k, c)) as [v|] eqn:Ev; cycle 1.
    { exfalso. apply Hne. transitivity (@None ColumnVersion); [|symmetry]; apply map_lookup_filter_None; by left. }
    destruct (erases keying toLowerCase lw (l ++ rest) (k, c)) eqn:Ee.
    + split; [|by apply (Hd (k, c))]. apply map_lookup_filter_None. right. intros x _. cbn. by rewrite Ee.
    + exfalso. apply Hne. transitivity (Some v); [|symmetry]; apply map_lookup_filter_Some; (split; [done|]); cbn; [|done].
      rewrite erases_app in Ee. by apply orb_false_iff in Ee as [? _].
Qed.


(** ** Positions and the clock *)

Definition stamp_le (w c w' c' : Z) : Prop := w < w' \/ (w = w' /\ c <= c').

Definition position_of (k : LogKey) : HLC := k.1.1.1.

(** Every entry stands at or below the clock. *)
Definition log_below_clock (m : Meta) : Prop :=
  forall k h, changeLog m !! k = Some h ->
    stamp_le (Hlc.wallTime (position_of k)) (Hlc.counter (position_of k)) (Hlc.m_wallTime (clock m)) (Hlc.m_counter (clock m)).

Lemma file_entries m f p m0 k h :
  changeLog (write_batch m0 (file m f p)) !! k = Some h ->
  changeLog m0 !! k = Some h \/ (is_Some (slot f) /\ position_of k = p).
Proof.
  destruct f as [d keep|c er|c t fw].
  - rewrite file_delete. cbn. rewrite lookup_insert. case_decide as Hk; [subst k; by right|]. rewrite drop_entry_lookup. case_decide; [done|by left].
  - rewrite file_column. cbn. rewrite lookup_insert. case_decide as Hk; [subst k; by right|]. rewrite drop_entry_lookup. case_decide; [done|by left].
  - destruct (file_held m c t fw p m0) as [q ->]. by left.
Qed.

Lemma file_list_entries m m0 fps k h :
  changeLog (file_list m m0 fps) !! k = Some h ->
  changeLog m0 !! k = Some h \/ exists f, is_Some (slot f) /\ (f, position_of k) ∈ fps.
Proof.
  revert m0. induction fps as [|[f p] fps IH]; intros m0; [by left|]. cbn. intros H. apply IH in H as [H|(g & Hs & Hg)].
  - apply file_entries in H as [H|[Hs <-]]; [by left|]. right. exists f. split; [done|set_solver].
  - right. exists g. split; [done|set_solver].
Qed.

Lemma file_clock m f p m0 : clock (write_batch m0 (file m f p)) = clock m0.
Proof.
  destruct f as [d keep|c er|c t fw]; [by rewrite file_delete|by rewrite file_column|]. by destruct (file_held m c t fw p m0) as [q ->].
Qed.

Lemma file_list_clock m m0 fps : clock (file_list m m0 fps) = clock m0.
Proof. revert m0. induction fps as [|[f p] fps IH]; intros m0; [done|]. cbn [file_list foldl]. etrans; [apply IH|apply file_clock]. Qed.

Abbreviation clock_le a b := (stamp_le (Hlc.m_wallTime a) (Hlc.m_counter a) (Hlc.m_wallTime b) (Hlc.m_counter b)).

(** What filing adds to the log stands above the old clock and not above the
    new one. *)
Lemma filed_positions m fs w lw l m' k h :
  filed_with m fs w lw l m' -> changeLog m' !! k = Some h ->
  clock_le (clock m) (clock m') /\
  (changeLog m !! k = Some h \/
   Hlc.stamp_lt (Hlc.m_wallTime (clock m)) (Hlc.m_counter (clock m)) (Hlc.wallTime (position_of k)) (Hlc.counter (position_of k)) /\
   stamp_le (Hlc.wallTime (position_of k)) (Hlc.counter (position_of k)) (Hlc.m_wallTime (clock m')) (Hlc.m_counter (clock m'))).
Proof.
  intros (m1 & fps & saved & Hp & Hm1 & Hall & ->). cbn [erase changeLog clock apply_op].
  rewrite map_lookup_filter_Some. intros [Hk _]. rewrite file_list_clock.
  assert (H1 : clock_le (clock m) (clock m1) /\ changeLog m1 = changeLog m).
  { destruct w as [x|]; [|subst m1; split; [right; lia|done]]. destruct Hm1 as (mc & y & Hr%Hlc.receive_advances & ->). cbn.
    destruct Hr as [H _]. unfold Hlc.stamp_lt, stamp_le in *. split; [lia|done]. }
  destruct (Hlc.tick_advances (clock m1) now) as (Ht & _ & Et & _).
  set (toFile := List.filter _ fs) in *. set (m2 := match toFile with [] => _ | _ => _ end) in *.
  assert (H2 : changeLog m2 = changeLog m /\ (toFile = [] /\ clock m2 = clock m1 \/ clock m2 = (Hlc.tick (clock m1) now).1)).
  { unfold m2. destruct toFile; cbn; (split; [apply H1|]); [by left|by right]. }
  apply file_list_entries in Hk as [Hk|(f & Hs & Hf)].
  - rewrite (proj1 H2) in Hk. split; [|by left]. unfold stamp_le, Hlc.stamp_lt in *. destruct H2 as [_ [[_ ->]| ->]]; lia.
  - destruct H2 as [_ [[Hnil _]|Ec]]; [rewrite Hnil in Hp; apply Permutation_nil_r in Hp; destruct fps; [by apply elem_of_nil in Hf|done]|].
    rewrite Forall_forall in Hall. destruct (Hall _ Hf) as [Hh|[_ [o Ho]]]; [by destruct f, Hs as [? ?]|]. cbn [snd] in Ho.
    rewrite Et in Ho. rewrite Ec, Ho. revert Ht. generalize ((Hlc.tick (clock m1) now).1). intros c Ht. cbn. unfold stamp_le, Hlc.stamp_lt in *. split; [lia|]. right. lia.
Qed.

(** Everything an apply files can be found by a peer that has read the log so
    far: with every entry at or below the clock before, every entry is at or
    below the clock after, and an entry the apply filed stands strictly after
    every position that was in the log. *)
Theorem apply_files_past_the_log (r : Replica) (css : list (ChangeSet)) (lw : LocalWriteTracker) :
  let r' := (apply_batch r css lw).1 in
  log_below_clock (meta r) ->
  log_below_clock (meta r') /\
  forall k h, changeLog (meta r') !! k = Some h ->
    changeLog (meta r) !! k = Some h \/
    forall k0 h0, changeLog (meta r) !! k0 = Some h0 -> Hlc.compareHLC (position_of k0) (position_of k) < 0.
Proof.
  cbn. destruct (apply_batch r css lw) as [r' st] eqn:E. apply apply_meta in E as (m & Hm & Hst). cbn. intros Hb.
  assert (Hbm : forall m, ticked (meta r) m -> changeLog m = changeLog (meta r) /\ clock_le (clock (meta r)) (clock m)).
  { clear. intros m [->|(c & -> & Hc)]; cbn; [split; [done|right; lia]|]. split; [done|]. unfold stamp_le, Hlc.stamp_lt in *. lia. }
  assert (Hkeep : ticked (meta r) (meta r') -> log_below_clock (meta r') /\ forall k h, changeLog (meta r') !! k = Some h -> changeLog (meta r) !! k = Some h \/
    forall k0 h0, changeLog (meta r) !! k0 = Some h0 -> Hlc.compareHLC (position_of k0) (position_of k) < 0).
  { intros [El' Hle']%Hbm. rewrite El'. split; [|by left]. intros k h Hk. rewrite El' in Hk. specialize (Hb k h Hk). unfold stamp_le in *. lia. }
  assert (Hfiled : (exists fs w l, filed_with m fs w lw l (meta r')) -> log_below_clock (meta r') /\ forall k h, changeLog (meta r') !! k = Some h ->
    changeLog (meta r) !! k = Some h \/ forall k0 h0, changeLog (meta r) !! k0 = Some h0 -> Hlc.compareHLC (position_of k0) (position_of k) < 0).
  { intros (fs & w & l & Hf). destruct (Hbm m Hm) as [El Hle]. split.
    - intros k x Hk. destruct (filed_positions _ _ _ _ _ _ _ _ Hf Hk) as [Hc [Hk'|[_ H]]]; [|done]. rewrite El in Hk'. specialize (Hb k x Hk').
      unfold stamp_le in *. lia.
    - intros k x Hk. destruct (filed_positions _ _ _ _ _ _ _ _ Hf Hk) as [_ [Hk'|[H _]]]; [left; congruence|]. right. intros k0 h0 Hk0.
      apply Hlc.compareHLC_lt, Hlc.stamp_lt_hlc. specialize (Hb k0 h0 Hk0). unfold stamp_le, Hlc.stamp_lt in *. lia. }
  destruct st as [res|e].
  - destruct Hst as (rs & w & h & [[_ E]|Hf]%commit_filed); [apply Hkeep; by rewrite E|]. apply Hfiled. eauto.
  - destruct Hst as [Ht|(_ & _ & rs & w & h & ok & res & Hh & _)]; [apply Hkeep; by eapply ticked_trans|]. apply half_filed in Hh as [l Hh]. eauto.
Qed.

End Records.
End Records.
