(* ===== verification/SyncConverge.v ===== *)
(** * Applying remote changes: convergence

    Under last-writer-wins without resurrection, the cells and tombstones of a
    replica are the join of the changes it has received: a deleted row is the
    greatest delete of it, a cell is the greatest write of it.  Replicas that
    received the same changes, in whatever batches and order, hold the same. *)

From S2P Require Import Prelude Bytes Double Decimal Site Hlc KvStore Transaction StoreRead Utf8 Comparison KeySerializer KeyEncoding SyncKeys.
From S2P Require Import SyncApply SyncCommit SyncBatch SyncFiling SyncRecords.
From Stdlib Require Import ZArith Lia.
From stdpp Require Import sorting.
From stdpp Require Import base tactics numbers sets gmap list.
#[local] Open Scope Z_scope.

Import SyncKeys SyncApply Commit FirstMax Batch Filing Order Records.

#[local] Arguments rowIdentityKey : simpl never.
#[local] Arguments row_of : simpl never.
#[local] Arguments row_key : simpl never.
#[local] Arguments joinKeyParts : simpl never.

Module Converge.

Lemma list_max {A} (P : A -> Prop) `{forall x, Decision (P x)} (hlc : A -> HLC) (l : list A) x :
  x ∈ l -> P x -> exists y, y ∈ l /\ P y /\ forall z, z ∈ l -> P z -> hle (hlc z) (hlc y).
Proof.
  revert x. induction l as [|a l IH]; intros x Hx Px; [by apply elem_of_nil in Hx|].
  destruct (decide (Exists P l)) as [(y & Hy & Py)%Exists_exists|Hno].
  - destruct (IH y Hy Py) as (b & Hb & Pb & Hmax). destruct (decide (P a)) as [Pa|Na].
    + destruct (decide (hle (hlc a) (hlc b))) as [Hab|Hab%nle_lt].
      * exists b. split_and!; [set_solver|done|]. intros z [->|Hz]%elem_of_cons Pz; [done|by apply Hmax].
      * exists a. split_and!; [set_solver|done|]. intros z [->|Hz]%elem_of_cons Pz; [apply hle_refl|].
        apply hlt_le. eapply (cmp_le_lt_trans Hlc.hlc_cmp); [by apply Hmax|done].
    + exists b. split_and!; [set_solver|done|]. intros z [->|Hz]%elem_of_cons Pz; [done|by apply Hmax].
  - apply elem_of_cons in Hx as [->|Hx]; [|destruct Hno; apply Exists_exists; by exists x]. exists a. split_and!; [set_solver|done|].
    intros z [->|Hz]%elem_of_cons Pz; [apply hle_refl|]. destruct Hno. apply Exists_exists. by exists z.
Qed.

Lemma omap_length_le {A B} (f : A -> option B) l : (length (omap f l) <= length l)%nat.
Proof. induction l as [|x l IH]; [done|]. cbn. destruct (f x); cbn; lia. Qed.

Section Converge.
Context (keying : jsstring -> jsstring -> PkKeying) (toLowerCase : jsstring -> jsstring).

Abbreviation value := (Comparison.SqlValue).
Abbreviation Meta := SyncMetadata.
Abbreviation Change := (SyncApply.Change).
Abbreviation Fact := FactToFile.
Abbreviation the_row := (row_key keying).

Definition change_row (c : Change) : jsstring := the_row (ch_schema c) (ch_table c) (ch_pk c).

(** ** What a replica shows *)

Definition row_deleted (m : Meta) (k : jsstring) : option HLC := tb_hlc <$> tombstones m !! k.

Definition row_cell (m : Meta) (k c : jsstring) : option (HLC * value) :=
  (fun v => (cv_hlc v, cv_value v)) <$> columnVersions m !! (k, c).

(** The deletes of a row and the writes of a cell among the changes received. *)
Definition deletes (s : list Change) (k : jsstring) (h : HLC) : Prop := exists d, CDelete d ∈ s /\ change_row (CDelete d) = k /\ rd_hlc d = h.

Definition writes (s : list Change) (k c : jsstring) (h : HLC) (v : value) : Prop :=
  exists cc, CColumn cc ∈ s /\ change_row (CColumn cc) = k /\ cc_column cc = c /\ cc_hlc cc = h /\ cc_value cc = v.

(** The records are the join of the changes: the greatest delete of a row hides
    its cells; otherwise a cell is its greatest write. *)
Definition holds (m : Meta) (s : list Change) : Prop :=
  (forall k,
    match row_deleted m k with
    | Some h => deletes s k h /\ forall h', deletes s k h' -> hle h' h
    | None => forall h', ~ deletes s k h'
    end) /\
  (forall k c,
    match row_cell m k c with
    | Some (h, v) => writes s k c h v /\ (forall h' v', writes s k c h' v' -> hle h' h) /\ forall h', ~ deletes s k h'
    | None => (exists h', deletes s k h') \/ forall h' v', ~ writes s k c h' v'
    end).

(** Such records are determined by the set of changes. *)
Lemma holds_unique m m' s s' :
  unambiguous s -> (forall c, c ∈ s <-> c ∈ s') -> holds m s -> holds m' s' ->
  forall k, row_deleted m k = row_deleted m' k /\ forall c, row_cell m k c = row_cell m' k c.
Proof.
  intros Hu Hs [Hd Hc] [Hd' Hc'] k.
  assert (Ed : forall h, deletes s' k h <-> deletes s k h) by (intros h; unfold deletes; by setoid_rewrite Hs).
  assert (Ew : forall c h v, writes s' k c h v <-> writes s k c h v) by (intros c h v; unfold writes; by setoid_rewrite Hs).
  split.
  - specialize (Hd k). specialize (Hd' k). destruct (row_deleted m k) as [h|], (row_deleted m' k) as [h'|]; setoid_rewrite Ed in Hd'; [|naive_solver..|done].
    destruct Hd as [H1 H2], Hd' as [H3 H4]. f_equal. apply hle_antisym; [by apply H4|by apply H2].
  - intros c. specialize (Hc k c). specialize (Hc' k c). destruct (row_cell m k c) as [[h v]|], (row_cell m' k c) as [[h' v']|]; try done.
    + destruct Hc as (H1 & H2 & _), Hc' as (H1' & H2' & _). setoid_rewrite Ew in H2'. apply Ew in H1'.
      assert (h = h') as <- by (apply hle_antisym; [by eapply H2'|by eapply H2]).
      destruct H1 as (a & Ha & _ & _ & Eh & <-), H1' as (b & Hb & _ & _ & Eh' & <-). do 2 f_equal.
      assert (E : CColumn a = CColumn b) by (apply Hu; [done|done|cbn; congruence]). congruence.
    + destruct Hc as (H1 & _ & H3). setoid_rewrite Ew in Hc'. setoid_rewrite Ed in Hc'. naive_solver.
    + destruct Hc' as (H1 & _ & H3). apply Ew in H1. setoid_rewrite Ed in H3. naive_solver.
Qed.

(** ** One apply *)

Section Apply.
Context (ctxSiteId : Site.SiteId) (config : SyncConfig) (now : Z) (isTableInBasis : jsstring -> jsstring -> bool).
Hypothesis no_resurrection : allowResurrection config = false.
Hypothesis last_writer_wins : conflictResolver config = None.

Abbreviation route := (SyncApply.route keying ctxSiteId config isTableInBasis).
Abbreviation resolve := (resolveChange keying ctxSiteId config).
Abbreviation reconcile := (reconcileInBatchDeletes keying config).
Abbreviation refuse := (refuseEditsOfForgottenRows keying).
Abbreviation facts_of := (collapseInBatchRepeats keying).
Abbreviation settle := (settled keying config).
Abbreviation barriers := (barrier keying).
Abbreviation row := (row_of keying).

Definition own (c : Change) : bool := Site.siteIdEquals (Hlc.siteId (ch_hlc c)) ctxSiteId.

Lemma resolve_row m c : row (resolve m c false).1 = change_row c.
Proof. unfold row_of. rewrite resolve_change. destruct (resolve_ok keying ctxSiteId config m c) as [-> _]. done. Qed.

Lemma delete_applied m d :
  is_applied (resolve m (CDelete d) false).1 = true <->
  own (CDelete d) = false /\ match row_deleted m (change_row (CDelete d)) with Some h => hlt h (rd_hlc d) | None => True end.
Proof.
  unfold resolveChange, own. cbn [ch_hlc]. destruct (Site.siteIdEquals _ _); [naive_solver|].
  unfold row_deleted, change_row, getTombstone. cbn [ch_schema ch_table ch_pk]. destruct (tombstones m !! _) as [t|]; cbn; [|done].
  destruct (Hlc.compareHLC (rd_hlc d) (tb_hlc t) <=? 0) eqn:E; cbn.
  - apply compare_le in E. split; [done|]. intros [_ H]. apply (cmp_lt_gt Hlc.hlc_cmp) in H. by rewrite H in E.
  - split; [|done]. intros _. split; [done|]. apply nle_lt. intros H%compare_le. congruence.
Qed.

Lemma column_applied m c :
  is_applied (resolve m (CColumn c) false).1 = true <->
  own (CColumn c) = false /\ row_deleted m (change_row (CColumn c)) = None /\
  match row_cell m (change_row (CColumn c)) (cc_column c) with Some (h, _) => hlt h (cc_hlc c) | None => True end.
Proof.
  unfold resolveChange, own. cbn [ch_hlc]. destruct (Site.siteIdEquals _ _); [naive_solver|].
  unfold row_deleted, row_cell, change_row, getColumnVersion, isDeletedAndBlocking, getTombstone, remote_wins. cbn [ch_schema ch_table ch_pk].
  rewrite no_resurrection, last_writer_wins.
  destruct (columnVersions m !! _) as [v|]; cbn.
  - destruct (0 <? Hlc.compareHLC (cc_hlc c) (cv_hlc v)) eqn:E; cbn.
    + apply compare_gt in E. destruct (tombstones m !! _); cbn; naive_solver.
    + apply compare_ngt in E. split; [done|]. intros (_ & _ & H). apply (cmp_lt_gt Hlc.hlc_cmp) in H. by rewrite H in E.
  - destruct (tombstones m !! _); cbn; naive_solver.
Qed.

Lemma never_forgotten m c : deltaFloor m = None -> editOfForgottenRow (resolve m c false).1 = false.
Proof.
  intros Hf. assert (E : forall cc, isEditOfForgottenRow keying config m cc = false).
  { intros cc. unfold isEditOfForgottenRow. rewrite Hf. by case_match. }
  unfold resolveChange. repeat (case_match; cbn; try done).
Qed.

Section Batch.
Context (m : Meta) (cs : list Change).
Hypothesis floor : deltaFloor m = None.
Hypothesis in_basis : forall c, c ∈ cs -> isTableInBasis (ch_schema c) (ch_table c) = true.
Hypothesis one_each : unambiguous cs.

Let l := omap resolved_of (map (route m) cs).

Lemma batch_elem e : e ∈ l <-> exists c, c ∈ cs /\ own c = false /\ e = (resolve m c false).1.
Proof.
  unfold l. rewrite list_elem_of_omap. split.
  - intros (x & (c & -> & Hc)%list_elem_of_fmap & E). exists c. split; [done|]. unfold SyncApply.route in E.
    unfold own. destruct (Site.siteIdEquals _ _); [done|]. rewrite (in_basis c Hc) in E. cbn in E. destruct (resolve m c false). cbn in *. by injection E as ->.
  - intros (c & Hc & Ho & ->). exists (route m c). split; [by apply list_elem_of_fmap_2|]. unfold SyncApply.route. unfold own in Ho. rewrite Ho, (in_basis c Hc).
    cbn. by destruct (resolve m c false).
Qed.

Lemma batch_ok : Forall entry_ok l.
Proof. apply resolved_ok. Qed.

Lemma batch_agree : agree l.
Proof. by apply resolved_agree. Qed.

(** The rows with an applied delete in the batch. *)
Lemma barrier_none k :
  barriers l k = None <-> forall d, CDelete d ∈ cs -> change_row (CDelete d) = k -> is_applied (resolve m (CDelete d) false).1 = false.
Proof.
  pose proof (barrier_max keying l k) as H. destruct (barriers l k) as [h|].
  - split; [done|]. intros Hn. exfalso. destruct H as [(e & He & Hk & _) _]. apply batch_elem in He as (c & Hc & _ & ->).
    unfold dkey in Hk. rewrite resolve_change, resolve_row in Hk. destruct c as [|d]; [done|]. destruct (is_applied _) eqn:E; [|done].
    apply (inj Some) in Hk. by rewrite (Hn d Hc Hk) in E.
  - split; [|done]. intros _ d Hd Hk. destruct (is_applied _) eqn:E; [exfalso|done].
    apply (H (resolve m (CDelete d) false).1); [apply batch_elem; exists (CDelete d); split_and!; [done|by apply delete_applied in E as [? _]|done]|].
    unfold dkey. rewrite resolve_change, resolve_row, E. by rewrite Hk.
Qed.

Lemma settled_applied c :
  is_applied (settle l (resolve m (CColumn c) false).1) = true <->
  is_applied (resolve m (CColumn c) false).1 = true /\ barriers l (change_row (CColumn c)) = None.
Proof.
  set (e := (resolve m (CColumn c) false).1).
  assert (Hc : change e = CColumn c) by apply resolve_change. assert (Hr : row e = change_row (CColumn c)) by apply resolve_row.
  assert (Hf : editOfForgottenRow e = false) by (by apply never_forgotten).
  unfold settled, after_deletes. rewrite Hc, Hr. destruct (is_applied e) eqn:Ea; cbn [negb].
  - destruct (barriers l (change_row (CColumn c))) as [h|]; cbn.
    + unfold survives. rewrite no_resurrection. cbn. unfold after_forgotten. cbn. naive_solver.
    + unfold after_forgotten. rewrite Hf. cbn. by rewrite Ea.
  - unfold after_forgotten. rewrite Hf. cbn. rewrite Ea. naive_solver.
Qed.

Lemma delete_fact_iff d keep :
  FDelete d keep ∈ facts_of (refuse (reconcile l)) <->
  CDelete d ∈ cs /\ is_applied (resolve m (CDelete d) false).1 = true /\ keep = ∅ /\
  forall d', CDelete d' ∈ cs -> change_row (CDelete d') = change_row (CDelete d) ->
    is_applied (resolve m (CDelete d') false).1 = true -> hle (rd_hlc d') (rd_hlc d).
Proof.
  rewrite delete_facts by (apply batch_ok || apply batch_agree).
  assert (Hk : forall k, kept_columns keying config
     (delete_winners keying l 0 ∅) k l = ∅).
  { intros k. apply elem_of_equiv_empty_L. intros x (e & c & h & _ & _ & _ & _ & _ & Hs & _)%kept_elem.
    unfold survives in Hs. by rewrite no_resurrection in Hs. }
  split.
  - intros (e & (c & Hc & Ho & ->)%batch_elem & Ec & Ea & Hmax & ->). rewrite resolve_change in Ec. subst c. rewrite resolve_row in Hmax.
    split_and!; [done|done|apply Hk|]. intros d' Hd' Hrow Ha'.
    specialize (Hmax (resolve m (CDelete d') false).1). unfold hlc_of, dkey in Hmax. rewrite !resolve_change, resolve_row, Ha' in Hmax. apply Hmax.
    + apply batch_elem. exists (CDelete d'). split_and!; [done|by apply delete_applied in Ha' as [? _]|done].
    + by rewrite Hrow.
  - intros (Hd & Ha & -> & Hmax). exists (resolve m (CDelete d) false).1. rewrite resolve_change, resolve_row. split_and!; [|done|done| |].
    + apply batch_elem. exists (CDelete d). split_and!; [done|by apply delete_applied in Ha as [? _]|done].
    + intros e' (c & Hc & Ho & ->)%batch_elem. unfold dkey, hlc_of. rewrite !resolve_change, resolve_row. destruct c as [|d']; [done|].
      destruct (is_applied (resolve m (CDelete d') false).1) eqn:E; [|done]. intros Hrow%(inj Some). by apply Hmax.
    + symmetry. apply Hk.
Qed.

Lemma column_key_iff c c' :
  columnKey keying c = columnKey keying c' <->
  change_row (CColumn c) = change_row (CColumn c') /\ cc_column c = cc_column c'.
Proof.
  split; [apply column_key_inj|]. intros [H1 H2]. unfold columnKey. change (rowIdentityKey keying (CColumn c) false) with (change_row (CColumn c)).
  rewrite H1, H2. done.
Qed.

Lemma column_fact_iff c :
  (exists er, FColumn c er ∈ facts_of (refuse (reconcile l))) <->
  CColumn c ∈ cs /\ is_applied (resolve m (CColumn c) false).1 = true /\ barriers l (change_row (CColumn c)) = None /\
  forall c', CColumn c' ∈ cs -> change_row (CColumn c') = change_row (CColumn c) -> cc_column c' = cc_column c ->
    is_applied (resolve m (CColumn c') false).1 = true -> hle (cc_hlc c') (cc_hlc c).
Proof.
  split.
  - intros [er Hf]. apply column_facts in Hf as (e & (c0 & Hc & Ho & ->)%batch_elem & Ec & Ea & _ & Hmax); [|apply batch_agree].
    rewrite resolve_change in Ec. subst c0. apply settled_applied in Ea as [Ea Hb]. split_and!; [done|done|done|]. intros c' Hc' Hr Hcol Ha'.
    specialize (Hmax (resolve m (CColumn c') false).1). unfold hlc_of in Hmax. rewrite !resolve_change in Hmax. apply Hmax.
    + apply batch_elem. exists (CColumn c'). split_and!; [done|by apply column_applied in Ha' as [? _]|done].
    + unfold key_c. rewrite settled_change, resolve_change. rewrite (proj2 (settled_applied c')) by (by rewrite Hr). f_equal. by apply column_key_iff.
  - intros (Hc & Ha & Hb & Hmax). eexists. apply column_facts; [apply batch_agree|]. exists (resolve m (CColumn c) false).1. rewrite resolve_change.
    split_and!; [|done|by apply settled_applied|done|].
    + apply batch_elem. exists (CColumn c). split_and!; [done|by apply column_applied in Ha as [? _]|done].
    + intros e' (c0 & Hc0 & Ho & ->)%batch_elem. unfold key_c, hlc_of. rewrite settled_change, !resolve_change.
      destruct c0 as [c'|]; [|by case_match]. destruct (is_applied (settle _ _)) eqn:E; [|done]. intros [Hr Hcol]%(inj Some)%column_key_iff.
      apply settled_applied in E as [E _]. by apply Hmax.
Qed.

(** *** The records after the batch *)

Let fs := facts_of (refuse (reconcile l)).

(** What filing the facts leaves. *)
Definition filed (m' : Meta) : Prop :=
  (forall k,
    (exists d keep, FDelete d keep ∈ fs /\ change_row (CDelete d) = k /\ row_deleted m' k = Some (rd_hlc d) /\ forall c, row_cell m' k c = None) \/
    (forall d keep, FDelete d keep ∈ fs -> change_row (CDelete d) <> k) /\ row_deleted m' k = row_deleted m k /\
    forall c,
      (exists cc er, FColumn cc er ∈ fs /\ change_row (CColumn cc) = k /\ cc_column cc = c /\ row_cell m' k c = Some (cc_hlc cc, cc_value cc)) \/
      (forall cc er, FColumn cc er ∈ fs -> change_row (CColumn cc) = k -> cc_column cc <> c) /\ row_cell m' k c = row_cell m k c).

Lemma filed_as_filed w m' :
  filed_as keying toLowerCase now m fs w newTracker m' -> filed m'.
Proof.
  intros Hf k.
  assert (Hn : NoDup (omap (slot keying) fs)).
  { rewrite <- (app_nil_r fs). apply (facts_slots keying _ None). }
  pose proof (filed_tombstone keying toLowerCase now m fs w newTracker _ m' k Hn Hf) as Ht.
  cbn zeta in Ht. rewrite nothing_lost in Ht.
  assert (Hv : forall c, _) by exact (fun c => filed_version keying toLowerCase now m fs w newTracker m' k c Hn Hf).
  cbn zeta in Hv. rewrite nothing_lost in Hv.
  destruct Ht as [(d & keep & p & Hd & Hk & Et)|[Hno Et]].
  - left. exists d, keep. split_and!; [done|done|unfold row_deleted; by rewrite Et|]. intros c. destruct (Hv c) as [H _].
    unfold row_cell. rewrite H; [done|]. unfold erases. apply existsb_exists. exists (FDelete d keep). split; [by apply list_elem_of_In|].
    apply delete_fact_iff in Hd as (_ & _ & -> & _). unfold wipes, columnsKeptPastDelete. cbn. rewrite bool_decide_eq_true_2 by done. cbn.
    rewrite bool_decide_eq_false_2; [done|]. set_solver.
  - right. split_and!; [exact Hno|unfold row_deleted; by rewrite Et|]. intros c. destruct (Hv c) as [_ H].
    assert (Her : erases keying toLowerCase newTracker fs (k, c) = false).
    { apply not_true_iff_false. unfold erases. rewrite existsb_exists. intros (f & Hin & Hw). destruct f as [d keep|cc er|cc t fw]; try done.
      apply list_elem_of_In in Hin. unfold wipes in Hw. apply andb_true_iff in Hw as [Hw _]. apply bool_decide_eq_true in Hw. by apply (Hno d keep). }
    destruct (H Her) as [(cc & er & p & Hin & Hk & Hc & Ev)|[Hnc Ev]].
    + left. exists cc, er. split_and!; [done|done|done|]. unfold row_cell. by rewrite Ev.
    + right. split; [done|]. unfold row_cell. by rewrite Ev.
Qed.

Lemma filed_nothing : fs = [] -> filed m.
Proof. intros E k. right. rewrite E. split_and!; [set_solver|done|]. intros c. right. split; [set_solver|done]. Qed.

Context (s : list Change).
Hypothesis own_known : forall c, c ∈ cs -> own c = true -> c ∈ s.

Lemma deletes_app s' k h : deletes (s ++ s') k h <-> deletes s k h \/ deletes s' k h.
Proof. unfold deletes. setoid_rewrite elem_of_app. naive_solver. Qed.

Lemma writes_app s' k c h v : writes (s ++ s') k c h v <-> writes s k c h v \/ writes s' k c h v.
Proof. unfold writes. setoid_rewrite elem_of_app. naive_solver. Qed.

(** A delete of the batch is applied, or not above what the replica holds. *)
Lemma delete_known k h :
  holds m s -> deletes cs k h ->
  (exists d, CDelete d ∈ cs /\ change_row (CDelete d) = k /\ rd_hlc d = h /\ is_applied (resolve m (CDelete d) false).1 = true) \/
  exists t, row_deleted m k = Some t /\ hle h t.
Proof.
  intros [Hd _] (d & Hc & <- & <-). specialize (Hd (change_row (CDelete d))). destruct (is_applied (resolve m (CDelete d) false).1) eqn:E; [left; by exists d|].
  right. destruct (row_deleted m (change_row (CDelete d))) as [t|] eqn:Et.
  - exists t. split; [done|]. destruct (own (CDelete d)) eqn:Eo; [destruct Hd as [_ Hd]; apply Hd; exists d; by split_and!; [apply own_known| |]|].
    intros Hgt. assert (Happ : is_applied (resolve m (CDelete d) false).1 = true); [|congruence].
    apply delete_applied. split; [done|]. rewrite Et. by apply (cmp_lt_gt Hlc.hlc_cmp).
  - exfalso. destruct (own (CDelete d)) eqn:Eo; [by apply (Hd (rd_hlc d)); exists d; split_and!; [apply own_known| |]|].
    assert (Happ : is_applied (resolve m (CDelete d) false).1 = true); [|congruence]. apply delete_applied. by rewrite Et.
Qed.

(** A write of the batch is applied, or blocked by a delete, or not above the
    cell the replica holds. *)
Lemma write_known k c h v :
  holds m s -> writes cs k c h v ->
  (exists cc, CColumn cc ∈ cs /\ change_row (CColumn cc) = k /\ cc_column cc = c /\ cc_hlc cc = h /\ is_applied (resolve m (CColumn cc) false).1 = true) \/
  is_Some (row_deleted m k) \/ exists t w, row_cell m k c = Some (t, w) /\ hle h t.
Proof.
  intros [Hd Hw] (cc & Hc & <- & <- & <- & <-). set (k := change_row (CColumn cc)) in *. set (c := cc_column cc) in *.
  specialize (Hd k). specialize (Hw k c). destruct (is_applied (resolve m (CColumn cc) false).1) eqn:E; [left; by exists cc|]. right.
  destruct (row_deleted m k) as [t|] eqn:Et; [left; by eexists|]. right.
  destruct (own (CColumn cc)) eqn:Eo.
  - assert (Hin : writes s k c (cc_hlc cc) (cc_value cc)) by (exists cc; split_and!; try done; by apply own_known).
    destruct (row_cell m k c) as [[t w]|]; [|naive_solver]. exists t, w. split; [done|]. destruct Hw as (_ & Hm & _). by eapply Hm.
  - destruct (row_cell m k c) as [[t w]|] eqn:Ec.
    + exists t, w. split; [done|]. intros Hgt. assert (Happ : is_applied (resolve m (CColumn cc) false).1 = true); [|congruence].
      apply column_applied. split_and!; [done|done|]. fold k c. rewrite Ec. by apply (cmp_lt_gt Hlc.hlc_cmp).
    + exfalso. assert (Happ : is_applied (resolve m (CColumn cc) false).1 = true); [|congruence].
      apply column_applied. split_and!; [done|done|]. fold k c. by rewrite Ec.
Qed.

(** An applied delete has its row's greatest among the facts. *)
Lemma delete_filed d :
  CDelete d ∈ cs -> is_applied (resolve m (CDelete d) false).1 = true ->
  exists d', FDelete d' ∅ ∈ fs /\ change_row (CDelete d') = change_row (CDelete d).
Proof.
  intros Hd Ha.
  destruct (list_max (fun c => match c with
      | CDelete d' => bool_decide (change_row c = change_row (CDelete d)) && is_applied (resolve m c false).1
      | CColumn _ => false end = true) ch_hlc cs (CDelete d)) as (x & Hx & Px & Hmax); [done|by rewrite bool_decide_eq_true_2|].
  destruct x as [|d']; [done|]. apply andb_true_iff in Px as [Hr%bool_decide_eq_true Ha'].
  exists d'. split; [|done]. apply delete_fact_iff. split_and!; [done|done|done|]. intros d2 Hd2 Hr2 Ha2. apply (Hmax (CDelete d2) Hd2).
  rewrite bool_decide_eq_true_2 by congruence. done.
Qed.

Lemma column_filed c :
  CColumn c ∈ cs -> is_applied (resolve m (CColumn c) false).1 = true -> barriers l (change_row (CColumn c)) = None ->
  exists c' er, FColumn c' er ∈ fs /\ change_row (CColumn c') = change_row (CColumn c) /\ cc_column c' = cc_column c.
Proof.
  intros Hc Ha Hb.
  destruct (list_max (fun x => match x with
      | CColumn c' => bool_decide (change_row x = change_row (CColumn c) /\ cc_column c' = cc_column c) && is_applied (resolve m x false).1
      | CDelete _ => false end = true) ch_hlc cs (CColumn c)) as (x & Hx & Px & Hmax); [done|by rewrite bool_decide_eq_true_2|].
  destruct x as [c'|]; [|done]. apply andb_true_iff in Px as [[Hr Hcol]%bool_decide_eq_true Ha'].
  destruct (proj2 (column_fact_iff c')) as [er Hf]; [|by exists c', er].
  split_and!; [done|done|by rewrite Hr|]. intros c2 Hc2 Hr2 Hcol2 Ha2. apply (Hmax (CColumn c2) Hc2).
  rewrite bool_decide_eq_true_2 by (split; congruence). done.
Qed.

Lemma no_delete k :
  holds m s -> (forall d keep, FDelete d keep ∈ fs -> change_row (CDelete d) <> k) -> row_deleted m k = None -> forall h, ~ deletes (s ++ cs) k h.
Proof.
  intros Hh Hno Et h [Hd|Hd]%deletes_app; [destruct Hh as [H _]; specialize (H k); rewrite Et in H; by apply (H h)|].
  destruct (delete_known k h Hh Hd) as [(d & Hc & Hr & _ & Ha)|(t & E & _)]; [|congruence].
  destruct (delete_filed d Hc Ha) as (d' & Hf & Hr'). by apply (Hno d' ∅ Hf); congruence.
Qed.

Lemma no_barrier k : (forall d keep, FDelete d keep ∈ fs -> change_row (CDelete d) <> k) -> barriers l k = None.
Proof.
  intros Hno. apply barrier_none. intros d Hd Hr. destruct (is_applied _) eqn:E; [exfalso|done].
  destruct (delete_filed d Hd E) as (d' & Hf & Hr'). by apply (Hno d' ∅ Hf); congruence.
Qed.

(** A filed row's tombstone is the greatest delete received. *)
Lemma join_deleted m' k :
  holds m s -> filed m' ->
  match row_deleted m' k with
  | Some h => deletes (s ++ cs) k h /\ forall h', deletes (s ++ cs) k h' -> hle h' h
  | None => forall h', ~ deletes (s ++ cs) k h'
  end.
Proof.
  intros Hh Hf. destruct (Hf k) as [(d & keep & Hd & Hr & -> & _)|(Hno & -> & _)].
  - apply delete_fact_iff in Hd as (Hc & Ha & _ & Hmax). split; [apply deletes_app; right; by exists d|].
    assert (Hbig : forall t, row_deleted m k = Some t -> hle t (rd_hlc d)).
    { intros t Et. apply delete_applied in Ha as [_ H]. rewrite Hr, Et in H. by apply hlt_le. }
    intros h' [Hs|Hs]%deletes_app.
    + destruct Hh as [H _]. specialize (H k). destruct (row_deleted m k) as [t|]; [|naive_solver].
      eapply (cmp_le_trans Hlc.hlc_cmp); [by apply H|by apply Hbig].
    + destruct (delete_known k h' Hh Hs) as [(d' & Hc' & Hr' & <- & Ha')|(t & Et & Hle)].
      * by apply Hmax; [|congruence|].
      * eapply (cmp_le_trans Hlc.hlc_cmp); [exact Hle|by apply Hbig].
  - destruct (row_deleted m k) as [t|] eqn:Et; [|by apply no_delete]. pose proof (proj1 Hh k) as H. rewrite Et in H. destruct H as [H1 H2].
    split; [apply deletes_app; by left|]. intros h' [Hs|Hs]%deletes_app; [by apply H2|].
    destruct (delete_known k h' Hh Hs) as [(d' & Hc' & Hr' & _ & Ha')|(t' & E & Hle)]; [|congruence].
    destruct (delete_filed d' Hc' Ha') as (d2 & Hf2 & Hr2). exfalso. apply (Hno d2 ∅ Hf2). congruence.
Qed.

(** A cell is the greatest write received, where no delete of its row was. *)
Lemma join_cell m' k c :
  holds m s -> filed m' ->
  match row_cell m' k c with
  | Some (h, v) => writes (s ++ cs) k c h v /\ (forall h' v', writes (s ++ cs) k c h' v' -> hle h' h) /\ forall h', ~ deletes (s ++ cs) k h'
  | None => (exists h', deletes (s ++ cs) k h') \/ forall h' v', ~ writes (s ++ cs) k c h' v'
  end.
Proof.
  intros Hh Hf. pose proof (proj2 Hh k c) as Hc. destruct (Hf k) as [(d & keep & Hd & Hr & _ & ->)|(Hno & _ & Hcell)].
  { left. exists (rd_hlc d). apply deletes_app. right. apply delete_fact_iff in Hd as (Hd & _). by exists d. }
  destruct (Hcell c) as [(cc & er & Hcf & Hr & Hcol & ->)|(Hnc & ->)].
  - assert (Hx : exists er, FColumn cc er ∈ fs) by (by eexists). apply column_fact_iff in Hx as (Hin & Ha & _ & Hmax).
    apply column_applied in Ha as (_ & Hnd & Hbig). rewrite Hr, ?Hcol in *.
    split_and!; [apply writes_app; right; by exists cc| |by apply no_delete]. intros h' v' [Hs|Hs]%writes_app.
    + destruct (row_cell m k c) as [[t w]|].
      * destruct Hc as (_ & Hm & _). apply hlt_le. eapply (cmp_le_lt_trans Hlc.hlc_cmp); [by eapply Hm|done].
      * destruct Hc as [[x Hx]|Hx]; [|naive_solver]. destruct Hh as [H _]. specialize (H k). rewrite Hnd in H. by apply H in Hx.
    + destruct (write_known k c h' v' Hh Hs) as [(c2 & Hc2 & Hr2 & Hcol2 & <- & Ha2)|[[x Hx]|(t & w & E & Hle)]]; [|congruence|].
      * by apply Hmax.
      * rewrite E in Hbig. apply hlt_le. eapply (cmp_le_lt_trans Hlc.hlc_cmp); [exact Hle|done].
  - assert (Hout : row_deleted m k = None -> forall h' v', writes cs k c h' v' -> exists t w, row_cell m k c = Some (t, w) /\ hle h' t).
    { intros Hnd h' v' Hw. destruct (write_known k c h' v' Hh Hw) as [(c2 & Hc2 & Hr2 & Hcol2 & <- & Ha2)|[[x Hx]|H]]; [|congruence|done].
      exfalso. destruct (column_filed c2 Hc2 Ha2) as (c3 & er & Hf3 & Hr3 & Hcol3); [rewrite Hr2; by apply no_barrier|]. apply (Hnc c3 er Hf3); congruence. }
    destruct (row_cell m k c) as [[h v]|] eqn:Ec.
    + destruct Hc as (H1 & H2 & H3). assert (Hnd : row_deleted m k = None).
      { destruct Hh as [H _]. specialize (H k). destruct (row_deleted m k); [|done]. destruct H as [H _]. by apply H3 in H. }
      split_and!; [apply writes_app; by left| |by apply no_delete]. intros h' v' [Hs|Hs]%writes_app; [by eapply H2|].
      destruct (Hout Hnd h' v' Hs) as (t & w & [= <- <-] & Hle). done.
    + destruct (row_deleted m k) as [t|] eqn:Et.
      { left. exists t. apply deletes_app. left. destruct Hh as [H _]. specialize (H k). rewrite Et in H. apply H. }
      right. intros h' v' [Hs|Hs]%writes_app.
      * destruct Hc as [[x Hx]|Hx]; [|by eapply Hx]. destruct Hh as [H _]. specialize (H k). rewrite Et in H. by apply H in Hx.
      * by destruct (Hout eq_refl h' v' Hs) as (t & w & ? & _).
Qed.

Lemma join_batch m' : holds m s -> filed m' -> holds m' (s ++ cs).
Proof. intros Hh Hf. split; intros k; [by apply join_deleted|]. intros c. by apply join_cell. Qed.

End Batch.

(** *** The apply succeeds *)

Abbreviation apply_batch := (applyChanges keying toLowerCase ctxSiteId config now None None isTableInBasis).
Abbreviation tracked := (applyTrackedBatch keying toLowerCase ctxSiteId config now None None isTableInBasis).
Abbreviation commit := (commit_all keying toLowerCase now).
Abbreviation to_store := (applyDataToStore keying toLowerCase None).
Abbreviation write_rows := (writeTableRows keying toLowerCase).

(** The store, if there is one, has the tables of the changes. *)
Definition has_tables (r : Replica) (cs : list Change) : Prop :=
  match tables r with Some ts => forall c, c ∈ cs -> is_Some (ts !! (ch_schema c, ch_table c)) | None => True end.

Definition in_drift (css : list (ChangeSet)) : Prop := forall cs, cs ∈ css -> Hlc.wallTime (cs_hlc cs) <= now + Hlc.MAX_DRIFT_MS.

Lemma group_elem (key : DataChangeToApply -> jsstring) ds k g :
  (k, g) ∈ foldl (group_step key) [] ds -> forall d, d ∈ g -> d ∈ ds.
Proof.
  assert (Hg : forall ds acc, (forall k g, (k, g) ∈ acc -> forall d, d ∈ g -> d ∈ ds) -> forall more, 
    forall k g, (k, g) ∈ foldl (group_step key) acc more -> forall d, d ∈ g -> d ∈ ds ++ more).
  { clear. intros ds acc Hacc more. revert ds acc Hacc. induction more as [|x more IH]; intros ds acc Hacc k g Hk d Hd; [rewrite app_nil_r; by eapply Hacc|].
    cbn in Hk. rewrite cons_middle, app_assoc. eapply IH; [|exact Hk|exact Hd]. clear -Hacc. intros k g Hk d Hd.
    assert (Hset : forall v (acc : list (jsstring * list DataChangeToApply)), (k, g) ∈ alist_set (key x) v acc -> g = v \/ (k, g) ∈ acc).
    { clear. intros v acc. induction acc as [|[k' v'] acc IH]; cbn; [intros [= -> ->]%list_elem_of_singleton; by left|].
      case_decide; intros [[= -> ->]|Hin]%elem_of_cons; [by left|right; set_solver|right; set_solver|]. destruct (IH Hin); [by left|right; set_solver]. }
    unfold group_step in Hk. destruct (alist_get (key x) acc) as [old|] eqn:Eo; apply Hset in Hk as [->|Hk]; try (apply elem_of_app; left; by eapply Hacc).
    - apply elem_of_app in Hd as [Hd|Hd]; [|set_solver]. apply elem_of_app. left.
      assert (Hin : exists k', (k', old) ∈ acc); [|destruct Hin as [k' Hin]; by eapply Hacc]. clear -Eo. induction acc as [|[k' v'] acc IH]; [done|].
      cbn in Eo. case_decide; [injection Eo as ->; exists k'; set_solver|]. destruct (IH Eo) as [k2 H2]. exists k2. set_solver.
    - set_solver. }
  intros Hk d Hd. apply (Hg [] [] ltac:(set_solver) ds k g Hk d Hd).
Qed.

Lemma write_rows_ok ts lw groups :
  (forall k g d, (k, g) ∈ groups -> d ∈ g -> is_Some (ts !! (dc_schema d, dc_table d))) ->
  (write_rows ts lw groups).2 = 0%nat /\ forall k : jsstring * jsstring, is_Some (ts !! k) -> is_Some ((write_rows ts lw groups).1 !! k).
Proof.
  revert ts. induction groups as [|[k g] groups IH]; intros ts Hts; [done|]. cbn [writeTableRows].
  assert (H1 : (write_table keying toLowerCase ts lw g).2 = 0%nat /\
    forall k : jsstring * jsstring, is_Some (ts !! k) -> is_Some ((write_table keying toLowerCase ts lw g).1 !! k)).
  { destruct g as [|d g']; [done|]. cbn [write_table]. destruct (withoutSupersededChanges _ _ _ _); [done|].
    destruct (Hts k (d :: g') d ltac:(set_solver) ltac:(set_solver)) as [t ->]. split; [done|]. intros k' Hk'. cbn [fst].
    unfold Tables in *. rewrite lookup_insert_is_Some'. by right. }
  destruct (write_table _ _ ts lw g) as [ts1 e1]. cbn in H1. destruct H1 as [-> Hmono].
  destruct (IH ts1) as [H2 H3]; [intros k' g' d' Hin Hd; apply Hmono; apply (Hts k' g'); [by right|done]|].
  destruct (write_rows ts1 lw groups) as [ts2 e2]. cbn in *. split; [lia|]. intros k' Hk'. by apply H3, Hmono.
Qed.

Lemma data_of_batch m cs d :
  d ∈ orderDataChangesByHLC (List.filter is_applied (refuse (reconcile (omap resolved_of (map (route m) cs))))) ->
  exists c, c ∈ cs /\ dc_schema d = ch_schema c /\ dc_table d = ch_table c.
Proof.
  unfold orderDataChangesByHLC. intros ([h d'] & -> & Hin%elem_of_js_sort)%list_elem_of_fmap. apply list_elem_of_omap in Hin as (x & Hx & E).
  apply list_elem_of_In, filter_In in Hx as [Hx%list_elem_of_In _]. apply list_elem_of_lookup in Hx as [i Hi].
  apply reconciled_lookup in Hi as (e & He & Hs). apply strip_applied in Hs as (_ & _ & _ & Hd & _). unfold has_data in E. rewrite Hd in E.
  apply list_elem_of_lookup_2 in He. apply resolved_elem in He as (c & Hc & -> & _). exists c. split; [done|].
  assert (Hdc : forall d, dataChange (resolve m c false).1 = Some d -> dc_schema d = ch_schema c /\ dc_table d = ch_table c).
  { intros d0. unfold resolveChange. repeat (case_match; cbn; try done); intros [= <-]; done. }
  assert (Hset : dataChange (settle (omap resolved_of (map (route m) cs)) (resolve m c false).1) = None \/
    dataChange (settle (omap resolved_of (map (route m) cs)) (resolve m c false).1) = dataChange (resolve m c false).1).
  { unfold settled, after_forgotten, after_deletes. repeat (case_match; cbn; auto). }
  destruct (dataChange (settle _ _)) as [d0|] eqn:E0; [|done]. injection E as <- <-. destruct Hset as [|Hset]; [done|]. cbn. by apply Hdc.
Qed.

Lemma store_ok r cs ds lw :
  has_tables r cs -> (forall d, d ∈ ds -> exists c, c ∈ cs /\ dc_schema d = ch_schema c /\ dc_table d = ch_table c) ->
  exists r', to_store r ds lw = (r', Ok tt) /\ meta r' = meta r /\ forall cs', has_tables r cs' -> has_tables r' cs'.
Proof.
  unfold has_tables, applyDataToStore. intros Ht Hd. destruct (tables r) as [ts|] eqn:Et.
  - destruct ds as [|d0 ds0]; [exists r; by rewrite Et|]. set (ds := d0 :: ds0) in *.
    destruct (write_rows_ok ts lw (groupChangesByTable ds)) as [H0 Hm].
    { intros k g d Hin Hdg. destruct (Hd d) as (c & Hc & -> & ->); [by eapply group_elem|]. by apply Ht. }
    destruct (write_rows ts lw (groupChangesByTable ds)) as [ts' e]. cbn in *. subst e. eexists. split_and!; [done|done|]. cbn. intros cs' Hcs' c Hc. by apply Hm, Hcs'.
  - exists r. by rewrite Et.
Qed.

Lemma facts_length rs : (length (facts_of rs) <= length rs)%nat.
Proof.
  rewrite <- (length_map fact_of rs). apply submseteq_length, NoDup_submseteq; [apply facts_NoDup|].
  intros f (k & i & r & Hm & ->)%facts_elem. apply list_elem_of_fmap_2. destruct Hm as [(H & _)|(H & _)]; by apply list_elem_of_lookup_2 in H.
Qed.

Lemma receive_ok mc h : Hlc.wallTime h <= now + Hlc.MAX_DRIFT_MS -> exists mc' y, Hlc.receive mc h now = Ok (mc', y).
Proof.
  intros Hd. unfold Hlc.receive, Hlc.assertWithinDrift. destruct (Z.ltb_spec (now + Hlc.MAX_DRIFT_MS) (Hlc.wallTime h)); [lia|]. cbn [res_bind].
  destruct (if (_ =? _) && _ then _ else _) as [a b]. by eexists _, _.
Qed.

Lemma commit_ok m rs w lw :
  (match w with Some h => Hlc.wallTime h <= now + Hlc.MAX_DRIFT_MS | None => True end) ->
  Z.of_nat (length rs) <= Hlc.MAX_OPSEQ + 1 -> exists m', commit m rs w None lw = Ok m'.
Proof.
  intros Hw Hl. unfold commit_all. cbn [heldFacts]. rewrite app_nil_r. pose proof (facts_length rs) as Hf. revert Hf. generalize (facts_of rs). intros fs Hf.
  assert (H : exists r, filing keying toLowerCase now m fs w lw = Ok r).
  { unfold filing, received. set (toFile := List.filter _ fs).
    assert (Hlen : (length toFile <= length fs)%nat) by apply filter_length_le.
    assert (Hm : exists m1, match w with Some h => let* r := Hlc.receive (clock m) h now in Ok (set_clock m r.1) | None => Ok m end = Ok m1).
    { destruct w as [h|]; [|by eexists]. destruct (receive_ok (clock m) h Hw) as (mc & y & ->). by eexists. }
    destruct Hm as [m1 ->]. cbn [res_bind]. destruct toFile as [|f0 fs0] eqn:Et; [by eexists|]. rewrite <- Et in *.
    destruct (file_all_ok keying now m1 (Hlc.tick (clock m1) now).2 0
      (js_sort (fun a b => Hlc.compareHLC (fact_hlc a) (fact_hlc b)) toFile)) as [ops ->]; [lia|rewrite js_sort_length; lia|]. by eexists. }
  destruct H as [r ->]. cbn. destruct fs; [|by eexists]. destruct w; by eexists.
Qed.

Lemma file_floor m f p m0 : deltaFloor (write_batch m0 (fileFact keying now m f p)) = deltaFloor m0.
Proof.
  destruct f as [d keep|c er|c t fw]; [by rewrite file_delete|by rewrite file_column|].
  by destruct (file_held keying now m c t fw p m0) as [q ->].
Qed.

Lemma filed_floor m fs w lw m' :
  filed_as keying toLowerCase now m fs w lw m' -> deltaFloor m' = deltaFloor m.
Proof.
  intros (m1 & fps & saved & _ & Hm1 & _ & ->). cbn [erase apply_op deltaFloor]. set (m2 := match _ with [] => _ | _ => _ end).
  assert (H2 : deltaFloor m2 = deltaFloor m) by (unfold m2; destruct w; [destruct Hm1 as (mc & y & _ & ->)|subst m1]; by case_match).
  rewrite <- H2. clear. generalize m2. induction fps as [|[f p] fps IH]; intros m2'; [done|]. cbn [file_list foldl]. etrans; [apply IH|apply file_floor].
Qed.

Lemma holds_clock m c s : holds m s -> holds (set_clock m c) s.
Proof. done. Qed.

Lemma unknown_none m cs :
  (forall c, c ∈ cs -> isTableInBasis (ch_schema c) (ch_table c) = true) -> foldl unknown_step [] (map (route m) cs) = [].
Proof.
  intros Hb. apply unknown_groups. destruct (omap unknown_of (map (route m) cs)) as [|c us] eqn:E; [done|].
  destruct (unknown_elem keying ctxSiteId config isTableInBasis m cs c) as [Hc Hn]; [rewrite E; by left|].
  rewrite (Hb c Hc) in Hn. done.
Qed.

(** What a batch must satisfy to be applied to a replica that holds [s]. *)
Record deliverable (r : Replica) (s : list Change) (css : list (ChangeSet)) : Prop := mkDeliverable {
  dl_basis : forall c, c ∈ concat (map cs_changes css) -> isTableInBasis (ch_schema c) (ch_table c) = true;
  dl_tables : has_tables r (concat (map cs_changes css));
  dl_drift : in_drift css;
  dl_size : Z.of_nat (length (concat (map cs_changes css))) <= Hlc.MAX_OPSEQ + 1;
  dl_own : forall c, c ∈ concat (map cs_changes css) -> own c = true -> c ∈ s
}.

Lemma tracked_joins r css w s :
  deltaFloor (meta r) = None -> deliverable r s css -> unambiguous (concat (map cs_changes css)) ->
  match w with Some h => Hlc.wallTime h <= now + Hlc.MAX_DRIFT_MS | None => True end -> holds (meta r) s ->
  exists r' res, tracked r css w newTracker = (r', Ok res) /\ holds (meta r') (s ++ concat (map cs_changes css)) /\
    deltaFloor (meta r') = None /\ forall cs', has_tables r cs' -> has_tables r' cs'.
Proof.
  intros Hfl [Hb Ht _ Hsz Hown] Hu Hw Hh. unfold applyTrackedBatch. set (cs := concat (map cs_changes css)) in *.
  set (l := omap resolved_of (map (route (meta r)) cs)). rewrite (unknown_none (meta r) cs Hb).
  assert (Eh : holdOptions config [] now = None) by (unfold holdOptions; by destruct (unknownTableDisposition config)). rewrite Eh.
  set (rs := List.filter is_applied (refuse (reconcile l))).
  destruct (store_ok r cs (orderDataChangesByHLC rs) newTracker Ht) as (r1 & Es & Em & Htab); [by apply data_of_batch|].
  assert (Hlen : (length rs <= length cs)%nat).
  { unfold rs. etrans; [apply filter_length_le|]. unfold refuseEditsOfForgottenRows, reconcileInBatchDeletes. rewrite length_map, length_imap.
    unfold l. etrans; [apply omap_length_le|]. by rewrite length_map. }
  destruct (commit_ok (meta r) rs w newTracker Hw) as [m' Ec]; [lia|].
  unfold admitGroup. rewrite Es, Em, commit_accepted, Ec. eexists (mkReplica m' (tables r1)), _. split; [done|]. cbn [meta].
  assert (Hfiled : filed (meta r) cs m' /\ deltaFloor m' = None).
  { unfold filed. fold l. pose proof Ec as Ec'. unfold rs in Ec'. apply commit_filed in Ec'. rewrite app_nil_r, facts_filter in Ec'.
    destruct Ec' as [[E ->]|Hf].
    - split; [|done]. by apply filed_nothing.
    - split; [|by rewrite (filed_floor _ _ _ _ _ Hf)]. by apply (filed_as_filed (meta r) cs) with w. }
  destruct Hfiled as [Hf Hfl']. split_and!; [|done|exact Htab]. by apply (join_batch (meta r) cs).
Qed.

Lemma apply_joins r css s :
  deltaFloor (meta r) = None -> deliverable r s css -> unambiguous (concat (map cs_changes css)) -> holds (meta r) s ->
  exists r' res, apply_batch r css newTracker = (r', Ok res) /\ holds (meta r') (s ++ concat (map cs_changes css)) /\
    deltaFloor (meta r') = None /\ forall cs', has_tables r cs' -> has_tables r' cs'.
Proof.
  intros Hfl Hd Hu Hh. unfold applyChanges. pose proof (Hlc.maxHLC_fold None (map cs_hlc css)) as Hmax. fold (Hlc.maxHLC (map cs_hlc css)) in Hmax.
  destruct (Hlc.maxHLC (map cs_hlc css)) as [h|]; [|by apply tracked_joins].
  assert (Hw : Hlc.wallTime h <= now + Hlc.MAX_DRIFT_MS).
  { destruct Hmax as ([|Hin] & _); [done|]. apply list_elem_of_fmap in Hin as (c & -> & Hc). by apply Hd. }
  unfold Hlc.assertWithinDrift. destruct (Z.ltb_spec (now + Hlc.MAX_DRIFT_MS) (Hlc.wallTime h)); [lia|].
  destruct (receive_ok (clock (meta r)) h Hw) as (mc & y & ->). 
  apply (tracked_joins (mkReplica (set_clock (meta r) mc) (tables r)) css (Some h) s); [done| |done..]. by destruct Hd; constructor.
Qed.

End Apply.

(** ** Runs *)

Section Run.
Context (config : SyncConfig) (isTableInBasis : jsstring -> jsstring -> bool).

(** A replica receives batches one after the other, each at its own time, with
    no storage failure, and stops at the first that throws. *)
Fixpoint deliver (site : Site.SiteId) (r : Replica) (batches : list (Z * list ChangeSet)) : Replica * res unit :=
  match batches with
  | [] => (r, Ok tt)
  | (now, css) :: batches' =>
    match applyChanges keying toLowerCase site config now None None isTableInBasis r css newTracker with
    | (r', Ok _) => deliver site r' batches'
    | (r', Throw e) => (r', Throw e)
    end
  end.

Definition delivered (batches : list (Z * list (ChangeSet))) : list Change := concat (map (fun b => concat (map cs_changes b.2)) batches).

Hypothesis no_resurrection : allowResurrection config = false.
Hypothesis last_writer_wins : conflictResolver config = None.

Lemma unambiguous_sub (cs cs' : list Change) : (forall c, c ∈ cs' -> c ∈ cs) -> unambiguous cs -> unambiguous cs'.
Proof. intros Hs Hu c c' Hc Hc'. apply Hu; by apply Hs. Qed.

Lemma deliver_joins site r batches s :
  deltaFloor (meta r) = None -> Forall (fun b => deliverable site b.1 isTableInBasis r s b.2) batches ->
  unambiguous (delivered batches) -> holds (meta r) s ->
  exists r', deliver site r batches = (r', Ok tt) /\ holds (meta r') (s ++ delivered batches).
Proof.
  revert r s. induction batches as [|[now css] batches IH]; intros r s Hfl Hall Hu Hh.
  - exists r. split; [done|]. unfold delivered. cbn. by rewrite app_nil_r.
  - apply Forall_cons in Hall as [Hd Hall]. cbn in Hd. unfold delivered in Hu. cbn in Hu. fold (delivered batches) in Hu.
    destruct (apply_joins site config now isTableInBasis no_resurrection last_writer_wins r css s Hfl Hd) as (r1 & res1 & E & Hh1 & Hfl1 & Ht1);
      [eapply unambiguous_sub; [|exact Hu]; set_solver|done|].
    cbn [deliver]. rewrite E. destruct (IH r1 (s ++ concat (map cs_changes css))) as (r' & E' & Hh'); [done| |eapply unambiguous_sub; [|exact Hu]; set_solver|done|].
    + eapply Forall_impl; [exact Hall|]. intros b [H1 H2 H3 H4 H5]. split; [done|by apply Ht1|done|done|]. intros c Hc Ho. apply elem_of_app. left. by apply H5.
    + exists r'. split; [done|]. unfold delivered in *. cbn. by rewrite app_assoc.
Qed.

(** C1: Replicas converge: under last-writer-wins without resurrection, two
    replicas that start from records which are the join of what each has
    received, and then receive batches (each within the drift bound, for tables
    the replica has, echoing only its own known changes) apply all of them; and
    if what they received is in the end the same set of changes, whatever the
    batches and the order, they show the same: the same rows deleted, at the
    same timestamps, and in each cell the same value at the same timestamp. *)
Theorem replicas_converge (siteA siteB : Site.SiteId) (A B : Replica) (sA sB : list Change) (batchesA batchesB : list (Z * list ChangeSet)) :
  deltaFloor (meta A) = None -> deltaFloor (meta B) = None -> holds (meta A) sA -> holds (meta B) sB ->
  Forall (fun b => deliverable siteA b.1 isTableInBasis A sA b.2) batchesA ->
  Forall (fun b => deliverable siteB b.1 isTableInBasis B sB b.2) batchesB ->
  unambiguous (sA ++ delivered batchesA) -> (forall c, c ∈ sA ++ delivered batchesA <-> c ∈ sB ++ delivered batchesB) ->
  exists A' B', deliver siteA A batchesA = (A', Ok tt) /\ deliver siteB B batchesB = (B', Ok tt) /\
    forall k, row_deleted (meta A') k = row_deleted (meta B') k /\ forall c, row_cell (meta A') k c = row_cell (meta B') k c.
Proof.
  intros HfA HfB HhA HhB HdA HdB Hu Hs.
  assert (HuB : unambiguous (sB ++ delivered batchesB)) by (eapply unambiguous_sub; [|exact Hu]; apply Hs).
  destruct (deliver_joins siteA A batchesA sA) as (A' & EA & HA); [done|done|eapply unambiguous_sub; [|exact Hu]; set_solver|done|].
  destruct (deliver_joins siteB B batchesB sB) as (B' & EB & HB); [done|done|eapply unambiguous_sub; [|exact HuB]; set_solver|done|].
  exists A', B'. split_and!; [done|done|]. exact (holds_unique _ _ _ _ Hu Hs HA HB).
Qed.

End Run.

End Converge.
End Converge.
