(* ===== verification/SyncRows.v ===== *)
(** * Applying remote changes: rows and cells

    The tables follow the cells: after an apply a row is stored exactly when the
    replica holds a cell of it, and each of its columns carries the value of its
    cell, whatever mix of writes and deletes the batch had. *)

From S2P Require Import Prelude Bytes Double Decimal Site Hlc KvStore Transaction StoreRead Utf8 Comparison KeySerializer KeyEncoding SyncKeys.
From S2P Require Import SyncApply SyncCommit SyncBatch SyncFiling SyncRecords SyncConverge.
From Stdlib Require Import ZArith Lia.
From stdpp Require Import sorting.
From stdpp Require Import base tactics numbers sets gmap list.
#[local] Open Scope Z_scope.

Import SyncKeys SyncApply Commit FirstMax Batch Filing Order Records Converge.

#[local] Arguments rowIdentityKey : simpl never.
#[local] Arguments row_of : simpl never.
#[local] Arguments row_key : simpl never.
#[local] Arguments joinKeyParts : simpl never.
#[local] Arguments identity : simpl never.

Module Rows.

Lemma js_sort_map {A B} (f : A -> B) (cmp : B -> B -> Z) l :
  js_sort cmp (map f l) = map f (js_sort (fun a b => cmp (f a) (f b)) l).
Proof.
  assert (Hi : forall x k, sort_insert cmp (f x) (map f k) = map f (sort_insert (fun a b => cmp (f a) (f b)) x k)).
  { intros x k. induction k as [|y k IH]; [done|]. cbn. destruct (0 <? _); cbn; [by rewrite IH|done]. }
  induction l as [|x l IH]; [done|]. cbn. unfold js_sort in IH. by rewrite IH, Hi.
Qed.

Lemma lfilter_elem {A} (p : A -> bool) (l : list A) x : x ∈ List.filter p l <-> x ∈ l /\ p x = true.
Proof. by rewrite !list_elem_of_In, filter_In. Qed.

Lemma lfilter_map {A B} (f : A -> B) (p : B -> bool) (l : list A) : List.filter p (map f l) = map f (List.filter (fun x => p (f x)) l).
Proof. induction l as [|x l IH]; [done|]. cbn. destruct (p (f x)); cbn; by rewrite IH. Qed.

Lemma lfilter_lfilter {A} (p q : A -> bool) (l : list A) : List.filter p (List.filter q l) = List.filter (fun x => q x && p x) l.
Proof. induction l as [|x l IH]; [done|]. cbn. destruct (q x); cbn; [|done]. destruct (p x); by rewrite IH. Qed.

Lemma lfilter_ext_in {A} (p q : A -> bool) (l : list A) : (forall x, x ∈ l -> p x = q x) -> List.filter p l = List.filter q l.
Proof. intros H. apply List.filter_ext_in. intros x Hx. apply H. by apply list_elem_of_In. Qed.

Lemma lfilter_sorted {A} (R : A -> A -> Prop) (p : A -> bool) l : StronglySorted R l -> StronglySorted R (List.filter p l).
Proof.
  induction 1 as [|x l Hs IH Hall]; [constructor|]. cbn. destruct (p x); [|done]. constructor; [done|].
  rewrite Forall_forall in *. intros y [Hy _]%lfilter_elem. by apply Hall.
Qed.

Section Rows.
Context (keying : jsstring -> jsstring -> PkKeying) (toLowerCase : jsstring -> jsstring).

Abbreviation value := (Comparison.SqlValue).
Abbreviation Row := (list value).
Abbreviation Meta := SyncMetadata.
Abbreviation Change := (SyncApply.Change).
Abbreviation Data := DataChangeToApply.
Abbreviation ident := (identity keying).
Abbreviation the_row := (row_key keying).
Abbreviation setc := (set_column toLowerCase).

(** ** Groups *)

Lemma groups_keys (key : Data -> jsstring) ds : NoDup (foldl (group_step key) [] ds).*1.
Proof.
  assert (H : forall acc, NoDup acc.*1 -> NoDup (foldl (group_step key) acc ds).*1); [|apply H; constructor].
  induction ds as [|d ds IH]; intros acc Hn; [done|]. cbn. apply IH. unfold group_step. destruct (alist_get _ _); by apply alist_set_NoDup.
Qed.

Lemma groups_get (key : Data -> jsstring) ds k :
  alist_get k (foldl (group_step key) [] ds) =
  match List.filter (fun d => bool_decide (key d = k)) ds with [] => None | g => Some g end.
Proof.
  induction ds as [|d ds IH] using rev_ind; [done|]. rewrite foldl_app, List.filter_app. cbn [foldl List.filter].
  set (acc := foldl (group_step key) [] ds) in *. unfold group_step.
  assert (Hk : key d = k -> alist_get (key d) acc = alist_get k acc) by (by intros ->).
  destruct (decide (key d = k)) as [E|E].
  - rewrite bool_decide_eq_true_2 by done. rewrite (Hk E), IH. destruct (List.filter _ ds); by rewrite alist_get_set, decide_True.
  - rewrite bool_decide_eq_false_2, app_nil_r, <- IH by done. by destruct (alist_get (key d) acc); rewrite alist_get_set, decide_False.
Qed.

Lemma groups_elem (key : Data -> jsstring) ds k g :
  (k, g) ∈ foldl (group_step key) [] ds <-> g <> [] /\ g = List.filter (fun d => bool_decide (key d = k)) ds.
Proof.
  rewrite <- alist_get_elem by apply groups_keys. rewrite groups_get.
  destruct (List.filter _ ds) as [|d g'] eqn:E; split; [done|naive_solver|by intros [= <-]|]. by intros [_ ->].
Qed.

(** ** The rows of one table *)

Definition op_target (t : StoreTable) (id : list value -> jsstring) (op : ExternalRowOp) : jsstring :=
  match op with ODelete pk => id pk | OUpsert row => id (extractPK t row) end.

Definition op_result (op : ExternalRowOp) : option Row := match op with ODelete _ => None | OUpsert row => Some row end.

Lemma row_op_lookup t id rows op k :
  apply_row_op t id rows op !! k = if decide (op_target t id op = k) then op_result op else rows !! k.
Proof.
  destruct op as [pk|row]; cbn; case_decide as Hk; subst; rewrite ?lookup_delete_eq, ?lookup_insert_eq, ?lookup_delete_ne, ?lookup_insert_ne by done; done.
Qed.

Lemma ops_lookup t id rows (groups : list (jsstring * list Data)) (f : jsstring * list Data -> ExternalRowOp) k :
  NoDup groups.*1 -> (forall g, g ∈ groups -> op_target t id (f g) = g.1) ->
  foldl (apply_row_op t id) rows (map f groups) !! k =
  match alist_get k groups with Some h => op_result (f (k, h)) | None => rows !! k end.
Proof.
  revert rows. induction groups as [|[k' h] groups IH]; intros rows Hn Ht; [done|]. cbn [map foldl alist_get]. cbn [fmap list_fmap fst] in Hn.
  apply NoDup_cons in Hn as [Hk Hn]. rewrite IH; [|done|intros g Hg; apply Ht; by right]. rewrite row_op_lookup, (Ht (k', h)) by left. cbn.
  destruct (decide (k' = k)) as [->|Hne]; [|done]. destruct (alist_get k groups) as [h'|] eqn:E; [|done].
  apply alist_get_elem in E; [|done]. destruct Hk. by apply (list_elem_of_fmap_2 fst) in E.
Qed.

(** ** One row *)

Definition data_of (c : Change) : Data :=
  match c with
  | CColumn c => mkData DUpdate (cc_schema c) (cc_table c) (cc_pk c) (Some [(cc_column c, cc_value c)])
  | CDelete d => mkData DDelete (rd_schema d) (rd_table d) (rd_pk d) None
  end.

Definition is_delete (c : Change) : bool := match c with CDelete _ => true | CColumn _ => false end.
Definition columns_of (w : list Change) : list ColumnChange := omap (fun c => match c with CColumn c => Some c | CDelete _ => None end) w.

Abbreviation by_hlc := (fun a b : Change => Hlc.compareHLC (ch_hlc a) (ch_hlc b)).

Lemma by_hlc_le a b : cmp_le by_hlc a b <-> hle (ch_hlc a) (ch_hlc b).
Proof. unfold cmp_le. by rewrite Hlc.compareHLC_cmp. Qed.

Lemma columns_elem w c : c ∈ columns_of w <-> CColumn c ∈ w.
Proof.
  unfold columns_of. rewrite list_elem_of_omap. split; [|intros H; by exists (CColumn c)]. intros ([c'|d] & Hc & E); [|done]. by injection E as <-.
Qed.

(** In timestamp order the deletes come first. *)
Lemma net_effect_sorted w :
  StronglySorted (cmp_le by_hlc) w -> (forall d c, CDelete d ∈ w -> CColumn c ∈ w -> hlt (rd_hlc d) (cc_hlc c)) ->
  net_effect false [] (map data_of w) = (existsb is_delete w, map (fun c => data_of (CColumn c)) (columns_of w)).
Proof.
  intros Hs Hlt.
  assert (Hcol : forall b ups v, (forall c, c ∈ v -> is_delete c = false) ->
    net_effect b ups (map data_of v) = (b, ups ++ map (fun c => data_of (CColumn c)) (columns_of v))).
  { clear. intros b ups v. revert ups. induction v as [|c v IH]; intros ups Hv; [cbn; by rewrite app_nil_r|].
    destruct c as [c|d]; [|by specialize (Hv (CDelete d) ltac:(left))]. cbn. rewrite IH by (intros c' Hc'; apply Hv; by right).
    by rewrite <- app_assoc. }
  assert (H : forall b, net_effect b [] (map data_of w) = (b || existsb is_delete w, map (fun c => data_of (CColumn c)) (columns_of w))); [|apply H].
  induction Hs as [|c w Hs IH Hall]; intros b; [cbn; by rewrite orb_false_r|]. destruct c as [c|d].
  - rewrite (Hcol b [] (CColumn c :: w)).
    + cbn. f_equal. assert (existsb is_delete w = false) as ->; [|by rewrite orb_false_r]. apply not_true_iff_false. rewrite existsb_exists.
      intros (x & Hx%list_elem_of_In & Hd). destruct x as [|d]; [done|]. rewrite Forall_forall in Hall. specialize (Hall _ Hx). apply by_hlc_le in Hall. cbn in Hall.
      specialize (Hlt d c ltac:(by right) ltac:(left)). apply (cmp_lt_gt Hlc.hlc_cmp) in Hlt. congruence.
    + intros x [->|Hx]%elem_of_cons; [done|]. destruct x as [|d]; [done|]. rewrite Forall_forall in Hall. specialize (Hall _ Hx). apply by_hlc_le in Hall. cbn in Hall.
      specialize (Hlt d c ltac:(by right) ltac:(left)). apply (cmp_lt_gt Hlc.hlc_cmp) in Hlt. congruence.
  - cbn. rewrite IH; [by rewrite orb_true_r|]. intros d' c' Hd' Hc'. apply Hlt; by right.
Qed.

Section Table.
Context (t : StoreTable).

Definition index_of_column (col : jsstring) : option nat := columnIndexMap t !! toLowerCase col.

Definition put_cell (row : Row) (c : ColumnChange) : Row := setc t row (cc_column c, cc_value c).

(** Positions in range and distinct key columns. *)
Record table_ok : Prop := {
  tk_columns : forall col i, columnIndexMap t !! col = Some i -> (i < columnCount t)%nat
}.

Lemma put_cell_length row c : length (put_cell row c) = length row.
Proof. unfold put_cell, set_column. cbn. destruct (columnIndexMap t !! _); [apply length_insert|done]. Qed.

Lemma put_cells_length row cs : length (foldl put_cell row cs) = length row.
Proof. revert row. induction cs as [|c cs IH]; intros row; [done|]. cbn. by rewrite IH, put_cell_length. Qed.

Lemma put_cell_lookup row c i :
  (i < length row)%nat -> put_cell row c !! i = if decide (index_of_column (cc_column c) = Some i) then Some (cc_value c) else row !! i.
Proof.
  intros Hi. unfold put_cell, set_column, index_of_column. cbn. destruct (columnIndexMap t !! toLowerCase (cc_column c)) as [j|].
  - destruct (decide (Some j = Some i)) as [[= ->]|Hn]; [by apply list_lookup_insert_eq|apply list_lookup_insert_ne; congruence].
  - by rewrite decide_False.
Qed.

Lemma put_cells_other row cs i :
  (i < length row)%nat -> (forall c, c ∈ cs -> index_of_column (cc_column c) <> Some i) -> foldl put_cell row cs !! i = row !! i.
Proof.
  revert row. induction cs as [|c cs IH]; intros row Hi Hn; [done|]. cbn. rewrite IH by (rewrite ?put_cell_length; auto; intros; apply Hn; by right).
  rewrite put_cell_lookup, decide_False by (done || apply Hn; by left). done.
Qed.

(** The greatest write of a position decides it. *)
Lemma put_cells_last row cs i c :
  (i < length row)%nat -> StronglySorted (fun a b => hle (cc_hlc a) (cc_hlc b)) cs -> c ∈ cs -> index_of_column (cc_column c) = Some i ->
  (forall c', c' ∈ cs -> index_of_column (cc_column c') = Some i -> cc_hlc c' = cc_hlc c -> cc_value c' = cc_value c) ->
  (forall c', c' ∈ cs -> index_of_column (cc_column c') = Some i -> hle (cc_hlc c') (cc_hlc c)) ->
  foldl put_cell row cs !! i = Some (cc_value c).
Proof.
  intros Hi Hs Hc Hidx Heq Hmax. revert Hs Hc Heq Hmax. induction cs as [|x cs IH] using rev_ind; intros Hs Hc Heq Hmax; [by apply elem_of_nil in Hc|].
  rewrite foldl_app. cbn. rewrite put_cell_lookup by (by rewrite put_cells_length). case_decide as Hx.
  - f_equal. apply Heq; [set_solver|done|]. apply hle_antisym; [apply Hmax; [set_solver|done]|].
    apply elem_of_app in Hc as [Hc| ->%list_elem_of_singleton]; [|apply hle_refl].
    clear -Hs Hc. induction cs as [|y cs IH]; [by apply elem_of_nil in Hc|]. cbn in Hs. apply StronglySorted_inv in Hs as [Hs Hall].
    apply elem_of_cons in Hc as [->|Hc]; [|by apply IH]. rewrite Forall_forall in Hall. apply Hall. set_solver.
  - apply elem_of_app in Hc as [Hc| ->%list_elem_of_singleton]; [|done].
    apply IH; [|done|intros c' Hc'; apply Heq; set_solver|intros c' Hc'; apply Hmax; set_solver].
    clear -Hs. induction cs as [|y cs IH]; [constructor|]. cbn in Hs. apply StronglySorted_inv in Hs as [Hs Hall]. constructor; [by apply IH|].
    rewrite Forall_forall in *. intros z Hz. apply Hall. set_solver.
Qed.

Lemma merge_cells existing pk cs :
  mergeColumnUpdates toLowerCase t existing pk (map (fun c => data_of (CColumn c)) cs) =
  foldl put_cell (match existing with Some row => row | None => key_row t pk end) cs.
Proof.
  unfold mergeColumnUpdates. generalize (match existing with Some row => row | None => key_row t pk end). intros row.
  revert row. induction cs as [|c cs IH]; intros row; [done|]. cbn. by rewrite IH.
Qed.

Lemma key_row_length pk : length (key_row t pk) = columnCount t.
Proof.
  unfold key_row. assert (H : forall l row, length (foldl (fun (row : Row) (p : nat * nat) => <[p.2 := cell pk p.1]> row) row l) = length row).
  { intros l. induction l as [|p l IH]; intros row; [done|]. cbn. by rewrite IH, length_insert. }
  rewrite H. apply length_replicate.
Qed.

(** What the changes of one row make of it. *)
Lemma row_op_result id pk w :
  StronglySorted (cmp_le by_hlc) w -> (forall d c, CDelete d ∈ w -> CColumn c ∈ w -> hlt (rd_hlc d) (cc_hlc c)) ->
  buildRowOp toLowerCase t id pk (map data_of w) =
  match existsb is_delete w, columns_of w with
  | true, [] => ODelete pk
  | deleted, cs => OUpsert (foldl put_cell (match (if deleted then None else storedRows t !! id pk) with Some row => row | None => key_row t pk end) cs)
  end.
Proof.
  intros Hs Hlt. unfold buildRowOp. rewrite net_effect_sorted by done. destruct (existsb is_delete w), (columns_of w) as [|c cs]; cbn [map];
    first [done | f_equal; exact (merge_cells _ _ [])| f_equal; exact (merge_cells _ _ (c :: cs))].
Qed.

End Table.

(** ** The changes a batch applies to a row *)

Section Apply.
Context (ctxSiteId : Site.SiteId) (config : SyncConfig) (now : Z) (isTableInBasis : jsstring -> jsstring -> bool).

Abbreviation route := (SyncApply.route keying ctxSiteId config isTableInBasis).
Abbreviation resolve := (resolveChange keying ctxSiteId config).
Abbreviation reconcile := (reconcileInBatchDeletes keying config).
Abbreviation refuse := (refuseEditsOfForgottenRows keying).
Abbreviation facts_of := (collapseInBatchRepeats keying).
Abbreviation settle := (settled keying config).
Abbreviation barriers := (barrier keying).
Abbreviation row := (row_of keying).
Abbreviation crow := (change_row keying).
Abbreviation filing := (filed_as keying toLowerCase now).

Section Batch.
Context (m : Meta) (cs : list Change).
Hypothesis one_each : unambiguous cs.

Let l := omap resolved_of (map (route m) cs).

Definition applied_changes : list Change := map change (List.filter is_applied (refuse (reconcile l))).

(** The applied changes of a row, in timestamp order. *)
Definition row_changes (k : jsstring) : list Change := List.filter (fun c => bool_decide (crow c = k)) (js_sort by_hlc applied_changes).

Lemma l_elem e : e ∈ l -> exists c, c ∈ cs /\ e = (resolve m c false).1.
Proof. intros (c & Hc & -> & _)%resolved_elem. by exists c. Qed.

Lemma l_row e : e ∈ l -> row e = crow (change e).
Proof. intros (c & Hc & ->)%l_elem. rewrite resolve_change. unfold row_of. rewrite resolve_change. by destruct (resolve_ok keying ctxSiteId config m c) as [-> _]. Qed.

Lemma l_ok : Forall entry_ok l.
Proof. apply resolved_ok. Qed.

Lemma l_agree : agree l.
Proof. by apply resolved_agree. Qed.

Lemma applied_elem c : c ∈ applied_changes <-> exists e, e ∈ l /\ change e = c /\ is_applied (settle l e) = true.
Proof.
  unfold applied_changes. rewrite list_elem_of_fmap. split.
  - intros (r & -> & [[i Hr]%list_elem_of_lookup Ha]%lfilter_elem). apply reconciled_lookup in Hr as (e & He & Hs).
    apply strip_applied in Hs as (Ea & Ec & _). rewrite settled_change in Ec. exists e. split_and!; [by apply list_elem_of_lookup_2 in He|done|congruence].
  - intros (e & [i He]%list_elem_of_lookup & <- & Ha). destruct (reconciled_lookup_back keying config l i e He) as (r & Hr & Hs).
    apply strip_applied in Hs as (Ea & Ec & _). rewrite settled_change in Ec. exists r. split; [done|]. apply lfilter_elem. split; [by apply list_elem_of_lookup_2 in Hr|congruence].
Qed.

Lemma applied_in c : c ∈ js_sort by_hlc applied_changes -> c ∈ cs.
Proof. intros (e & He & <- & _)%elem_of_js_sort%applied_elem. apply l_elem in He as (c & Hc & ->). by rewrite resolve_change. Qed.

Lemma row_changes_elem k c : c ∈ row_changes k <-> crow c = k /\ exists e, e ∈ l /\ change e = c /\ is_applied (settle l e) = true.
Proof. unfold row_changes. rewrite lfilter_elem, elem_of_js_sort, applied_elem, bool_decide_eq_true. naive_solver. Qed.

Lemma row_changes_sorted k : StronglySorted (cmp_le by_hlc) (row_changes k).
Proof. apply lfilter_sorted, (js_sort_sorted by_hlc (CmpLaws0 := by_hlc_laws ch_hlc)). Qed.

Lemma settled_column e c :
  e ∈ l -> change e = CColumn c -> is_applied (settle l e) = true ->
  is_applied e = true /\ forall h, barriers l (row e) = Some h -> survives config h c = true.
Proof.
  intros He Hc Ha. unfold settled, after_forgotten, after_deletes in Ha. rewrite Hc in Ha.
  destruct (is_applied e) eqn:Ea; cbn [negb] in Ha.
  - split; [done|]. intros h Hb. rewrite Hb in Ha. destruct (survives config h c); [done|]. by repeat case_match.
  - exfalso. assert (Hnot : forall r : ResolvedChange, is_applied r = false -> is_applied (if negb (editOfForgottenRow r) then r
        else if bool_decide (rowIdentityKey keying (change r) false ∈ founded_in keying config l) then r
        else plain Skipped (change r)) = false) by (intros r Hr; by repeat case_match).
    by rewrite Hnot in Ha.
Qed.

Lemma row_delete_applied k d : CDelete d ∈ row_changes k -> exists e, e ∈ l /\ change e = CDelete d /\ is_applied e = true /\ row e = k.
Proof.
  intros (Hr & e & He & Hc & Ha)%row_changes_elem. exists e. rewrite (settled_delete keying config l e d) in Ha; [|by eapply Forall_forall in He; [|apply l_ok]|done].
  split_and!; [done|done|done|]. rewrite l_row, Hc by done. done.
Qed.

Lemma row_barrier k d : CDelete d ∈ row_changes k -> exists h, barriers l k = Some h /\ hle (rd_hlc d) h.
Proof.
  intros (e & He & Hc & Ha & Hr)%row_delete_applied. pose proof (barrier_max keying l k) as Hb.
  assert (Hd : dkey keying e = Some k) by (unfold dkey; by rewrite Hc, Ha, Hr).
  destruct (barriers l k) as [h|]; [|by destruct (Hb e He)]. exists h. split; [done|]. destruct Hb as [_ Hb]. specialize (Hb e He Hd).
  unfold hlc_of in Hb. by rewrite Hc in Hb.
Qed.

(** A write that survives stands after every delete of its row. *)
Lemma deletes_first k d c : CDelete d ∈ row_changes k -> CColumn c ∈ row_changes k -> hlt (rd_hlc d) (cc_hlc c).
Proof.
  intros (h & Hb & Hle)%row_barrier (Hr & e & He & Hc & Ha)%row_changes_elem. destruct (settled_column e c He Hc Ha) as [_ Hs].
  rewrite l_row, Hc, Hr in Hs by done. specialize (Hs h Hb). unfold survives in Hs. apply andb_true_iff in Hs as [_ Hs]. apply compare_gt in Hs.
  by eapply (cmp_le_lt_trans Hlc.hlc_cmp).
Qed.

Let fs := facts_of (refuse (reconcile l)).

Lemma has_delete_fact k :
  existsb is_delete (row_changes k) = true <-> exists d keep, FDelete d keep ∈ fs /\ crow (CDelete d) = k.
Proof.
  rewrite existsb_exists. split.
  - intros (x & Hx%list_elem_of_In & Hd). destruct x as [|d]; [done|]. apply row_delete_applied in Hx as (e & He & Hc & Ha & Hr).
    destruct (list_max (fun e => dkey keying e = Some k) hlc_of l e) as (x & Hx & Px & Hmax); [done|unfold dkey; by rewrite Hc, Ha, Hr|].
    unfold dkey in Px. destruct (change x) as [|dx] eqn:Ex; [done|]. destruct (is_applied x) eqn:Eax; [|done]. apply (inj Some) in Px.
    eexists dx, _. split; [apply delete_facts; [apply l_ok|apply l_agree|]; exists x; split_and!; [done|done|done|by rewrite Px|reflexivity]|].
    rewrite <- Ex, <- l_row by done. done.
  - intros (d & keep & Hf & Hr). apply delete_facts in Hf as (e & He & Hc & Ha & _); [|apply l_ok|apply l_agree].
    exists (CDelete d). split; [|done]. apply list_elem_of_In, row_changes_elem. split; [done|]. exists e. split_and!; [done|done|].
    rewrite (settled_delete keying config l e d); [done|by eapply Forall_forall in He; [|apply l_ok]|done].
Qed.

(** The delete of a row keeps the columns whose writes survive it. *)
Lemma keep_columns k d keep col :
  FDelete d keep ∈ fs -> crow (CDelete d) = k -> col ∈ keep <-> exists c, CColumn c ∈ row_changes k /\ cc_column c = col.
Proof.
  intros Hf Hr. apply delete_facts in Hf as (e & He & Hc & Ha & _ & ->); [|apply l_ok|apply l_agree].
  assert (Hre : row e = k) by (rewrite l_row, Hc by done; done). rewrite Hre, kept_elem. split.
  - intros (x & c & h & Hx & Ecx & Eax & Erx & Hb & Hs & ->). exists c. split; [|done]. apply row_changes_elem.
    rewrite l_row, Ecx in Erx by done. split; [done|]. exists x. split_and!; [done|done|].
    unfold survives in Hs. apply andb_true_iff in Hs as [Hres Hgt].
    destruct (l_elem x Hx) as (c0 & Hc0 & ->). rewrite resolve_change in Ecx. subst c0.
    assert (Hnf : editOfForgottenRow (resolve m (CColumn c) false).1 = false).
    { assert (E : isEditOfForgottenRow keying config m c = false) by (unfold isEditOfForgottenRow; by rewrite Hres).
      unfold resolveChange. repeat (case_match; cbn; try done). }
    unfold settled, after_deletes. rewrite resolve_change, Eax. cbn [negb]. rewrite l_row, resolve_change, Erx, Hb by done. unfold survives. rewrite Hres, Hgt. cbn.
    unfold after_forgotten. cbn. rewrite Hnf. cbn. exact Eax.
  - intros (c & Hcw & <-). pose proof Hcw as (Hrc & x & Hx & Ecx & Hax)%row_changes_elem. destruct (settled_column x c Hx Ecx Hax) as [Hap Hs].
    assert (Hrx : row x = k) by (rewrite l_row, Ecx by done; done).
    assert (Hdk : CDelete d ∈ row_changes k).
    { apply row_changes_elem. split; [done|]. exists e. split_and!; [done|done|].
      rewrite (settled_delete keying config l e d); [done|by eapply Forall_forall in He; [|apply l_ok]|done]. }
    destruct (row_barrier k d Hdk) as (h & Hb & _). exists x, c, h. rewrite Hrx in Hs. split_and!; try done. by apply Hs.
Qed.

Lemma column_fact_max k c er :
  FColumn c er ∈ fs -> crow (CColumn c) = k ->
  CColumn c ∈ row_changes k /\ forall c', CColumn c' ∈ row_changes k -> cc_column c' = cc_column c -> hle (cc_hlc c') (cc_hlc c).
Proof.
  intros Hf Hr. apply column_facts in Hf as (e & He & Hc & Ha & _ & Hmax); [|apply l_agree]. split; [apply row_changes_elem; split; [done|]; by exists e|].
  intros c' (Hr' & e' & He' & Hc' & Ha')%row_changes_elem Hcol. specialize (Hmax e' He'). unfold hlc_of in Hmax. rewrite Hc, Hc' in Hmax. apply Hmax.
  unfold key_c. rewrite Ha', settled_change, Hc'. f_equal. apply column_key_iff. split; [congruence|done].
Qed.

Lemma column_fact_exists k c :
  CColumn c ∈ row_changes k -> exists c' er, FColumn c' er ∈ fs /\ crow (CColumn c') = k /\ cc_column c' = cc_column c.
Proof.
  intros (Hr & e & He & Hc & Ha)%row_changes_elem.
  destruct (list_max (fun x => key_c keying (settle l x) = Some (columnKey keying c)) hlc_of l e) as (x & Hx & Px & Hmax);
    [done|unfold key_c; by rewrite Ha, settled_change, Hc|].
  pose proof Px as Px'. unfold key_c in Px. rewrite settled_change in Px. destruct (is_applied (settle l x)) eqn:Ex; [|done]. destruct (change x) as [c'|] eqn:Ec'; [|done].
  apply (inj Some), column_key_iff in Px as [Hr' Hcol]. eexists c', _. split; [|split; [congruence|done]].
  apply column_facts; [apply l_agree|]. exists x. split_and!; [done|done|done|reflexivity|]. intros z Hz Ez. apply Hmax; [done|].
  rewrite Ez. f_equal. by apply column_key_iff.
Qed.

(** *** The cells after the batch *)

Lemma cells_after w h m' k col :
  (forall f, f ∈ heldFacts h -> slot keying f = None) ->
  filing m (fs ++ heldFacts h) w newTracker m' ->
  (exists c v, CColumn c ∈ row_changes k /\ cc_column c = col /\ columnVersions m' !! (k, col) = Some v /\ cv_value v = cc_value c /\
     forall c', CColumn c' ∈ row_changes k -> cc_column c' = col -> hle (cc_hlc c') (cc_hlc c)) \/
  ((forall c, CColumn c ∈ row_changes k -> cc_column c <> col) /\
   columnVersions m' !! (k, col) = if existsb is_delete (row_changes k) then None else columnVersions m !! (k, col)).
Proof.
  intros Hheld Hf. pose proof (facts_slots keying (refuse (reconcile l)) h) as Hn. fold fs in Hn.
  destruct (filed_version keying toLowerCase now m (fs ++ heldFacts h) w newTracker m' k col Hn Hf) as [Her Hke].
  rewrite nothing_lost in Her, Hke.
  assert (Hin : forall f, slot keying f <> None -> f ∈ fs ++ heldFacts h -> f ∈ fs).
  { intros f Hs [Hi|Hi]%elem_of_app; [done|]. by apply Hheld in Hi. }
  assert (Hkeep : forall d keep, columnsKeptPastDelete keying toLowerCase d keep newTracker = keep).
  { intros d keep. unfold columnsKeptPastDelete. apply set_eq. intros x. rewrite elem_of_filter. naive_solver. }
  destruct (erases keying toLowerCase newTracker (fs ++ heldFacts h) (k, col)) eqn:Ee.
  - right. pose proof Ee as Ee'. unfold erases in Ee'. apply existsb_exists in Ee' as (f & Hfi%list_elem_of_In & Hw). destruct f as [d keep|c er|c t fw]; try done.
    unfold wipes in Hw. rewrite Hkeep in Hw. cbn in Hw. apply andb_true_iff in Hw as [Hk%bool_decide_eq_true Hnk%negb_true_iff%bool_decide_eq_false].
    apply Hin in Hfi; [|done]. split.
    + intros c Hc Hcol. apply Hnk. eapply keep_columns; [exact Hfi|done|]. by exists c.
    + rewrite (Her eq_refl). assert (existsb is_delete (row_changes k) = true) as ->; [|done]. apply has_delete_fact. by exists d, keep.
  - destruct (Hke eq_refl) as [(cc & er & p & Hc & Hr & Hcol & Ev)|[Hno Ev]].
    + left. apply Hin in Hc; [|done]. destruct (column_fact_max k cc er Hc Hr) as [Hcw Hmax]. exists cc. eexists. split_and!; [done|done|exact Ev|done|].
      intros c' Hc' Hcol'. apply Hmax; [done|congruence].
    + right. assert (Hnc : forall c, CColumn c ∈ row_changes k -> cc_column c <> col).
      { intros c Hc Hcol. destruct (column_fact_exists k c Hc) as (c' & er & Hf' & Hr' & Hcol').
        apply (Hno c' er); [apply elem_of_app; by left|done|congruence]. }
      split; [done|]. rewrite Ev. destruct (existsb is_delete (row_changes k)) eqn:Ed; [exfalso|done].
      apply has_delete_fact in Ed as (d & keep & Hf' & Hr').
      assert (Hex : erases keying toLowerCase newTracker (fs ++ heldFacts h) (k, col) = true); [|congruence].
      unfold erases. apply existsb_exists. exists (FDelete d keep). split; [apply list_elem_of_In, elem_of_app; by left|].
      unfold wipes. rewrite Hkeep. cbn. rewrite bool_decide_eq_true_2 by done. cbn. apply negb_true_iff, bool_decide_eq_false.
      intros (c & Hc & Hcol)%(keep_columns k d keep col Hf' Hr'). by apply (Hnc c).
Qed.

Lemma no_changes k : fs = [] -> row_changes k = [].
Proof.
  intros E. destruct (row_changes k) as [|x w] eqn:Ew; [done|]. exfalso. destruct x as [c|d].
  - destruct (column_fact_exists k c) as (c' & er & Hf & _); [rewrite Ew; by left|]. rewrite E in Hf. by apply elem_of_nil in Hf.
  - destruct (proj1 (has_delete_fact k)) as (d' & keep & Hf & _); [by rewrite Ew|]. rewrite E in Hf. by apply elem_of_nil in Hf.
Qed.

(** *** The rows after the batch *)

Abbreviation dataChanges := (orderDataChangesByHLC (List.filter is_applied (refuse (reconcile l)))).

Lemma resolve_data c : is_applied (resolve m c false).1 = true -> dataChange (resolve m c false).1 = Some (data_of c).
Proof. unfold resolveChange. repeat (case_match; cbn; try done). Qed.

Lemma data_sorted : dataChanges = map data_of (js_sort by_hlc applied_changes).
Proof.
  unfold orderDataChangesByHLC, applied_changes.
  set (F := List.filter is_applied (refuse (reconcile l))).
  assert (Hd : forall r, r ∈ F -> has_data r = Some (ch_hlc (change r), data_of (change r))).
  { intros r [[i Hi]%list_elem_of_lookup Ha]%lfilter_elem. apply reconciled_lookup in Hi as (e & He & Hs). apply strip_applied in Hs as (Ea & Ec & _ & Ed & _).
    rewrite Ea in Ha. rewrite settled_change in Ec. unfold has_data. rewrite Ed, Ec. apply list_elem_of_lookup_2 in He.
    assert (Hset : is_applied e = true /\ dataChange (settle l e) = dataChange e).
    { revert Ha. unfold settled, after_forgotten, after_deletes. repeat (case_match; cbn; try done); intros; (split; [congruence || done|done]). }
    destruct Hset as [Hap ->]. destruct (l_elem e He) as (c & Hc & ->). rewrite resolve_change. by rewrite resolve_data. }
  assert (E : omap has_data F = map (fun r => (ch_hlc (change r), data_of (change r))) F).
  { clearbody F. induction F as [|r F IH]; [done|]. cbn. rewrite Hd by left. f_equal. apply IH. intros x Hx. apply Hd. by right. }
  rewrite E. rewrite <- (map_map change (fun c => (ch_hlc c, data_of c))), js_sort_map. etrans; [exact (map_map _ snd _)|]. done.
Qed.

End Batch.

(** ** The tables *)

Abbreviation write_tab := (write_table keying toLowerCase).
Abbreviation write_rows := (writeTableRows keying toLowerCase).

Lemma nothing_dropped w : withoutSupersededChanges keying toLowerCase (map data_of w) newTracker = map data_of w.
Proof. induction w as [|c w IH]; [done|]. destruct c as [c|d]; cbn; by rewrite IH. Qed.

Definition table_of (g : list Data) : option (jsstring * jsstring) := match g with d :: _ => Some (dc_schema d, dc_table d) | [] => None end.

(** One group of changes, written to its table. *)
Definition row_ops (t : StoreTable) (x : jsstring * jsstring) (g : list Data) : list ExternalRowOp :=
  map (fun h => buildRowOp toLowerCase t (ident x.1 x.2) (match h.2 with c :: _ => dc_pk c | [] => [] end) h.2) (groupChangesByRow g (ident x.1 x.2)).

Lemma write_table_lookup ts w x (y : jsstring * jsstring) :
  table_of (map data_of w) = Some x ->
  (write_tab ts newTracker (map data_of w)).1 !! y =
  if decide (x = y) then (fun t => applyExternalRowChanges t (ident x.1 x.2) (row_ops t x (map data_of w))) <$> ts !! y else ts !! y.
Proof.
  destruct w as [|c w]; [done|]. intros [= <-]. unfold write_table. cbn [map]. change (data_of c :: map data_of w) with (map data_of (c :: w)).
  rewrite nothing_dropped. cbn [map]. unfold Tables in *. destruct (ts !! (dc_schema (data_of c), dc_table (data_of c))) as [t|] eqn:Et; cbn [fst snd].
  - case_decide as Hy; [subst y; rewrite lookup_insert_eq, Et; done|by rewrite lookup_insert_ne].
  - case_decide as Hy; [subst y; by rewrite Et|done].
Qed.

Lemma write_rows_other ts groups (y : jsstring * jsstring) :
  (forall k g, (k, g) ∈ groups -> (exists w, g = map data_of w) /\ table_of g <> Some y) -> (write_rows ts newTracker groups).1 !! y = ts !! y.
Proof.
  revert ts. induction groups as [|[k g] groups IH]; intros ts Hg; [done|]. cbn [writeTableRows].
  destruct (Hg k g ltac:(left)) as [[w ->] Hy].
  assert (H1 : (write_tab ts newTracker (map data_of w)).1 !! y = ts !! y).
  { destruct (table_of (map data_of w)) as [x|] eqn:Ex; [|by destruct w]. rewrite (write_table_lookup ts w x y Ex), decide_False by congruence. done. }
  destruct (write_tab ts newTracker (map data_of w)) as [ts1 e1]. cbn in H1. specialize (IH ts1).
  destruct (write_rows ts1 newTracker groups) as [ts2 e2]. cbn [fst] in *. etrans; [apply IH|exact H1]. intros k' g' H'. apply (Hg k'). by right.
Qed.

Lemma write_rows_at ts groups k w (y : jsstring * jsstring) :
  NoDup groups.*1 -> (forall k g, (k, g) ∈ groups -> exists w, g = map data_of w) ->
  (k, map data_of w) ∈ groups -> table_of (map data_of w) = Some y -> (forall k' g', (k', g') ∈ groups -> table_of g' = Some y -> k' = k) ->
  (write_rows ts newTracker groups).1 !! y = (fun t => applyExternalRowChanges t (ident y.1 y.2) (row_ops t y (map data_of w))) <$> ts !! y.
Proof.
  revert ts. induction groups as [|[k0 g0] groups IH]; intros ts Hn Hd Hk Hy Huniq; [by apply elem_of_nil in Hk|]. cbn [fmap list_fmap fst] in Hn.
  apply NoDup_cons in Hn as [Hk0 Hn]. cbn [writeTableRows]. destruct (Hd k0 g0 ltac:(left)) as [w0 ->].
  apply elem_of_cons in Hk as [[= -> Ew]|Hk].
  - rewrite Ew. assert (Hy0 : table_of (map data_of w0) = Some y) by congruence. pose proof (write_table_lookup ts w0 y y Hy0) as H1. rewrite decide_True in H1 by done.
    destruct (write_tab ts newTracker (map data_of w0)) as [ts1 e1]. cbn in H1.
    pose proof (write_rows_other ts1 groups y) as H2. destruct (write_rows ts1 newTracker groups) as [ts2 e2]. cbn [fst] in *. etrans; [apply H2|exact H1].
    intros k' g' Hk'. split; [apply (Hd k'); by right|]. intros Ht. assert (k' = k0) as -> by (apply (Huniq k' g'); [by right|done]).
    destruct Hk0. by apply (list_elem_of_fmap_2 fst) in Hk'.
  - assert (Hne : table_of (map data_of w0) <> Some y).
    { intros E. assert (k0 = k) as -> by (apply (Huniq k0 (map data_of w0)); [by left|done]). destruct Hk0. by apply (list_elem_of_fmap_2 fst) in Hk. }
    assert (H1 : (write_tab ts newTracker (map data_of w0)).1 !! y = ts !! y).
    { destruct (table_of (map data_of w0)) as [x|] eqn:Ex; [|by destruct w0]. rewrite (write_table_lookup ts w0 x y Ex), decide_False by congruence. done. }
    destruct (write_tab ts newTracker (map data_of w0)) as [ts1 e1]. cbn in H1. specialize (IH ts1 Hn).
    destruct (write_rows ts1 newTracker groups) as [ts2 e2]. cbn [fst] in *. etrans; [apply IH|by f_equal].
    + intros k' g' H'. apply (Hd k'). by right.
    + done.
    + done.
    + intros k' g' H'. apply Huniq. by right.
Qed.

(** The changes of a table, whichever their order. *)
Definition of_table (y : jsstring * jsstring) (w : list Change) : list Change :=
  List.filter (fun c => bool_decide ((ch_schema c, ch_table c) = y)) w.

Lemma data_table c : (dc_schema (data_of c), dc_table (data_of c)) = (ch_schema c, ch_table c).
Proof. by destruct c. Qed.

Lemma tables_after ts w (y : jsstring * jsstring) :
  (forall c c', c ∈ w -> c' ∈ w -> tableKey (ch_schema c) (ch_table c) = tableKey (ch_schema c') (ch_table c') -> (ch_schema c, ch_table c) = (ch_schema c', ch_table c')) ->
  (write_rows ts newTracker (groupChangesByTable (map data_of w))).1 !! y =
  match of_table y w with
  | [] => ts !! y
  | g => (fun t => applyExternalRowChanges t (ident y.1 y.2) (row_ops t y (map data_of g))) <$> ts !! y
  end.
Proof.
  intros Hdot. unfold groupChangesByTable. set (key := fun d : Data => tableKey (dc_schema d) (dc_table d)). set (groups := foldl (group_step key) [] (map data_of w)).
  assert (Hg : forall k g, (k, g) ∈ groups -> g <> [] /\ g = map data_of (List.filter (fun c => bool_decide (key (data_of c) = k)) w)).
  { intros k g [Hne ->]%groups_elem. split; [done|]. apply lfilter_map. }
  assert (Hkey : forall c, key (data_of c) = tableKey (ch_schema c) (ch_table c)) by (by intros []).
  assert (Hof : forall k g, (k, g) ∈ groups -> table_of g = Some y -> k = tableKey y.1 y.2 /\ g = map data_of (of_table y w)).
  { intros k g [Hne Eg]%Hg Ht. destruct (List.filter _ w) as [|c0 g0] eqn:Ef; [by subst g|]. assert (Hc0 : c0 ∈ c0 :: g0) by left. rewrite <- Ef in Hc0.
    apply lfilter_elem in Hc0 as [Hc0 Hk0%bool_decide_eq_true]. subst g. cbn in Ht. rewrite data_table in Ht. injection Ht as <-. rewrite Hkey in Hk0. subst k.
    split; [done|]. rewrite <- Ef. f_equal. apply lfilter_ext_in. intros c Hc. apply bool_decide_ext. rewrite Hkey. split; [intros E; by apply Hdot|]. by intros [= -> ->]. }
  destruct (of_table y w) as [|c0 g0] eqn:Eo.
  - apply write_rows_other. intros k g Hk. split; [apply Hg in Hk as [_ ->]; by eexists|]. intros Ht. destruct (Hof k g Hk Ht) as [_ ->]. apply Hg in Hk as [? _]. done.
  - rewrite <- Eo. rewrite <- Eo in Hof. assert (Hc0 : c0 ∈ of_table y w) by (rewrite Eo; left). unfold of_table in Hc0. apply lfilter_elem in Hc0 as [Hc0 Hy0%bool_decide_eq_true].
    assert (Ht : table_of (map data_of (of_table y w)) = Some y) by (rewrite Eo; cbn; rewrite data_table; congruence).
    apply (write_rows_at ts groups (tableKey y.1 y.2)); [apply groups_keys| | |done|].
    + intros k g [_ ->]%Hg. by eexists.
    + apply groups_elem. split; [by rewrite Eo|]. rewrite lfilter_map. f_equal. apply lfilter_ext_in. intros c Hc. apply bool_decide_ext. rewrite Hkey. subst y. cbn.
      split; [by intros [= -> ->]|]. intros E. by apply Hdot.
    + intros k' g' Hk' Ht'. by apply (Hof k' g').
Qed.

(** ** Agreement *)

Section Agreement.
(** The name a table declares for the column at a position. *)
Context (declared : jsstring -> jsstring -> nat -> jsstring).

(** What the cells of a row, by column, say about the stored row. *)
Definition row_agrees (s n : jsstring) (t : StoreTable) (rid : jsstring) (cells : jsstring -> option (ColumnVersion))
    (stored : option Row) : Prop :=
  match stored with
  | None => forall col, cells col = None
  | Some r =>
    length r = columnCount t /\ ident s n (extractPK t r) = rid /\ (exists col, is_Some (cells col)) /\
    forall col v i, cells col = Some v -> index_of_column t col = Some i -> declared s n i = col /\ r !! i = Some (cv_value v)
  end.

Definition agrees (m : Meta) (ts : Tables) : Prop :=
  forall s n t, ts !! (s, n) = Some t ->
    table_ok t /\ forall rid, row_agrees s n t rid (fun col => columnVersions m !! (joinKeyParts [s; n; rid], col)) (storedRows t !! rid).

(** The changes name columns as declared, no dotted schema name makes two tables
    one, and no change moves its row to another identity. *)
Record batch_fits (ts : Tables) (cs : list Change) : Prop := {
  bf_tables : forall c c', c ∈ cs -> c' ∈ cs ->
    tableKey (ch_schema c) (ch_table c) = tableKey (ch_schema c') (ch_table c') -> (ch_schema c, ch_table c) = (ch_schema c', ch_table c');
  bf_names : forall c t i, CColumn c ∈ cs -> ts !! (cc_schema c, cc_table c) = Some t -> index_of_column t (cc_column c) = Some i ->
    declared (cc_schema c) (cc_table c) i = cc_column c;
  bf_key : forall c t, c ∈ cs -> ts !! (ch_schema c, ch_table c) = Some t ->
    ident (ch_schema c) (ch_table c) (extractPK t (key_row t (ch_pk c))) = ident (ch_schema c) (ch_table c) (ch_pk c);
  bf_cell : forall c t r, CColumn c ∈ cs -> ts !! (cc_schema c, cc_table c) = Some t -> length r = columnCount t ->
    ident (cc_schema c) (cc_table c) (extractPK t r) = ident (cc_schema c) (cc_table c) (cc_pk c) ->
    ident (cc_schema c) (cc_table c) (extractPK t (put_cell t r c)) = ident (cc_schema c) (cc_table c) (cc_pk c)
}.

Lemma crow_inj c s n rid : crow c = joinKeyParts [s; n; rid] <-> ch_schema c = s /\ ch_table c = n /\ ident (ch_schema c) (ch_table c) (ch_pk c) = rid.
Proof.
  unfold change_row, row_key. split; [|by intros (-> & -> & <-)]. intros H.
  rewrite <- (app_nil_r (joinKeyParts [ch_schema c; _; _])), <- (app_nil_r (joinKeyParts [s; n; rid])) in H.
  apply join_cancel in H as [[= H1 H2 H3] _]; [|done]. by rewrite H1, H2 in *.
Qed.

Section Step.
Context (m m' : Meta) (cs : list Change) (ts : Tables) (s n : jsstring) (t : StoreTable) (rid : jsstring).
Hypothesis one_each : unambiguous cs.
Hypothesis fits : batch_fits ts cs.
Hypothesis here : ts !! (s, n) = Some t.
Hypothesis in_range : table_ok t.

Let k := joinKeyParts [s; n; rid].
Let w := row_changes m cs k.

Lemma w_change c : c ∈ w -> c ∈ cs /\ ch_schema c = s /\ ch_table c = n /\ ident s n (ch_pk c) = rid.
Proof.
  intros (Hr & e & He & Hc & _)%row_changes_elem. apply l_elem in He as (c' & Hc' & ->). rewrite resolve_change in Hc. subst c'.
  apply crow_inj in Hr as (<- & <- & Hr). done.
Qed.

Hypothesis before : row_agrees s n t rid (fun col => columnVersions m !! (k, col)) (storedRows t !! rid).

(** The base a row's surviving writes are merged onto. *)
Lemma base_ok c0 (deleted : bool) :
  c0 ∈ w ->
  let base := match (if deleted then None else storedRows t !! rid) with Some row => row | None => key_row t (ch_pk c0) end in
  length base = columnCount t /\ ident s n (extractPK t base) = rid.
Proof.
  intros (Hc & Hs & Hn & Hi)%w_change. cbn zeta.
  assert (Hk : length (key_row t (ch_pk c0)) = columnCount t /\ ident s n (extractPK t (key_row t (ch_pk c0))) = rid).
  { split; [apply key_row_length|]. destruct fits as [_ _ Hkey _]. specialize (Hkey c0 t Hc). rewrite Hs, Hn in Hkey. by rewrite Hkey. }
  destruct deleted; [done|]. destruct (storedRows t !! rid) as [r|]; [|done]. destruct before as (H1 & H2 & _). done.
Qed.

Lemma merged_ok base cols :
  (forall c, c ∈ cols -> CColumn c ∈ w) -> length base = columnCount t -> ident s n (extractPK t base) = rid ->
  length (foldl (put_cell t) base cols) = columnCount t /\ ident s n (extractPK t (foldl (put_cell t) base cols)) = rid.
Proof.
  intros Hw Hl Hi. split; [by rewrite put_cells_length|]. revert base Hl Hi. induction cols as [|c cols IH]; intros base Hl Hi; [done|]. cbn. apply IH.
  - intros c' Hc'. apply Hw. by right.
  - by rewrite put_cell_length.
  - destruct (w_change (CColumn c) (Hw c ltac:(left))) as (Hc & Hs & Hn & Hid). cbn in Hs, Hn, Hid. destruct fits as [_ _ _ Hcell].
    specialize (Hcell c t base Hc). rewrite Hs, Hn in Hcell. rewrite Hid in Hcell. by apply Hcell.
Qed.

(** The row operation of the group hits its own row. *)
Lemma row_op_ok c0 w' :
  w = c0 :: w' ->
  let op := buildRowOp toLowerCase t (ident s n) (ch_pk c0) (map data_of w) in
  op_target t (ident s n) op = rid /\
  op_result op = match existsb is_delete w, columns_of w with
                 | true, [] => None
                 | deleted, cols => Some (foldl (put_cell t) (match (if deleted then None else storedRows t !! rid) with Some row => row | None => key_row t (ch_pk c0) end) cols)
                 end.
Proof.
  intros Ew. cbn zeta. assert (Hc0 : c0 ∈ w) by (rewrite Ew; left). destruct (w_change c0 Hc0) as (_ & _ & _ & Hid).
  rewrite row_op_result; [|apply row_changes_sorted|intros d c; by apply deletes_first]. rewrite Hid.
  assert (Hup : forall deleted : bool, op_target t (ident s n) (OUpsert (foldl (put_cell t) (match (if deleted then None else storedRows t !! rid) with Some row => row | None => key_row t (ch_pk c0) end) (columns_of w))) = rid).
  { intros deleted. destruct (base_ok c0 deleted Hc0) as [Hl Hi]. apply merged_ok; [intros c; apply columns_elem|done|done]. }
  destruct (existsb is_delete w); [specialize (Hup true)|specialize (Hup false)]; destruct (columns_of w); done.
Qed.

Lemma declared_name c i : CColumn c ∈ w -> index_of_column t (cc_column c) = Some i -> declared s n i = cc_column c.
Proof.
  intros Hc Hidx. destruct (w_change (CColumn c) Hc) as (Hcs & Hs & Hn & _). cbn in Hs, Hn. destruct fits as [_ Hnames _ _].
  specialize (Hnames c t i Hcs). rewrite Hs, Hn in Hnames. by apply Hnames.
Qed.

Lemma columns_sorted : StronglySorted (fun a b => hle (cc_hlc a) (cc_hlc b)) (columns_of w).
Proof.
  pose proof (row_changes_sorted m cs k) as H. fold w in H. induction H as [|c w' Hs IH Hall]; [constructor|]. destruct c as [c|d]; [|exact IH].
  cbn. constructor; [exact IH|]. rewrite Forall_forall in Hall. apply Forall_forall. intros c' Hc'%columns_elem. exact (proj1 (by_hlc_le (CColumn c) (CColumn c')) (Hall (CColumn c') Hc')).
Qed.

(** The stored row after the batch agrees with the cells after it. *)
Lemma row_step stored' :
  (forall col,
    (exists c v, CColumn c ∈ w /\ cc_column c = col /\ columnVersions m' !! (k, col) = Some v /\ cv_value v = cc_value c /\
       forall c', CColumn c' ∈ w -> cc_column c' = col -> hle (cc_hlc c') (cc_hlc c)) \/
    ((forall c, CColumn c ∈ w -> cc_column c <> col) /\
     columnVersions m' !! (k, col) = if existsb is_delete w then None else columnVersions m !! (k, col))) ->
  stored' = match w with
            | [] => storedRows t !! rid
            | c0 :: _ =>
              match existsb is_delete w, columns_of w with
              | true, [] => None
              | deleted, cols => Some (foldl (put_cell t) (match (if deleted then None else storedRows t !! rid) with Some row => row | None => key_row t (ch_pk c0) end) cols)
              end
            end ->
  row_agrees s n t rid (fun col => columnVersions m' !! (k, col)) stored'.
Proof.
  intros Hcells ->.
  assert (Hkeep : forall col, (forall c, CColumn c ∈ w -> cc_column c <> col) ->
    columnVersions m' !! (k, col) = if existsb is_delete w then None else columnVersions m !! (k, col)).
  { intros col Hno. destruct (Hcells col) as [(c & v & Hc & <- & _)|[_ H]]; [by destruct (Hno c Hc)|done]. }
  destruct w as [|c0 w'] eqn:Ew.
  { revert before. unfold row_agrees. assert (E : forall col, columnVersions m' !! (k, col) = columnVersions m !! (k, col)) by (intros col; apply Hkeep; set_solver).
    destruct (storedRows t !! rid) as [r|]; setoid_rewrite E; done. }
  assert (Hc0 : c0 ∈ w) by (rewrite Ew; left). rewrite <- Ew in *. clear Ew w'.
  assert (Hnone : columns_of w = [] -> forall c, CColumn c ∉ w) by (intros E c Hc%columns_elem; rewrite E in Hc; by apply elem_of_nil in Hc).
  destruct (columns_of w) as [|c1 cols'] eqn:Ecols.
  - specialize (Hnone eq_refl). destruct c0 as [c0|d0]; [by apply Hnone in Hc0|].
    assert (Hdel : existsb is_delete w = true) by (apply existsb_exists; exists (CDelete d0); split; [by apply list_elem_of_In|done]).
    rewrite Hdel in *. intros col. apply Hkeep. intros c Hc. by apply Hnone in Hc.
  - rewrite <- Ecols in *. assert (Hc1 : CColumn c1 ∈ w) by (apply columns_elem; rewrite Ecols; left). clear Ecols Hnone cols'.
    set (base := match (if existsb is_delete w then None else storedRows t !! rid) with Some row => row | None => key_row t (ch_pk c0) end).
    assert (Hgoal : row_agrees s n t rid (fun col => columnVersions m' !! (k, col)) (Some (foldl (put_cell t) base (columns_of w)))).
    2: { unfold base in Hgoal. by destruct (existsb is_delete w). }
    destruct (base_ok c0 (existsb is_delete w) Hc0) as [Hl Hi]. fold base in Hl, Hi.
    destruct (merged_ok base (columns_of w)) as [Hl' Hi']; [intros c; apply columns_elem|done|done|]. split_and!; [done|done| |].
    + exists (cc_column c1). destruct (Hcells (cc_column c1)) as [(c & v & _ & _ & -> & _)|[Hno _]]; [done|by destruct (Hno c1 Hc1)].
    + intros col v i Hv Hidx. assert (Hlt : (i < length base)%nat) by (rewrite Hl; by eapply in_range).
      destruct (Hcells col) as [(c & v' & Hc & <- & Hv' & Hval & Hmax)|[Hno E]].
      * rewrite Hv' in Hv. injection Hv as <-. split; [by apply (declared_name c)|]. rewrite Hval.
        apply put_cells_last; [done|apply columns_sorted|by apply columns_elem|done| |].
        -- intros c' Hc'%columns_elem _ Eh. assert (Ec : CColumn c' = CColumn c) by (apply one_each; [by apply w_change|by apply w_change|done]). congruence.
        -- intros c' Hc'%columns_elem Hidx'. apply Hmax; [done|]. rewrite <- (declared_name c' i), <- (declared_name c i) by done. done.
      * rewrite E in Hv. destruct (existsb is_delete w) eqn:Ed; [done|]. unfold row_agrees in before. destruct (storedRows t !! rid) as [r0|] eqn:Er0; [|by rewrite before in Hv].
        destruct before as (_ & _ & _ & Hold). destruct (Hold col v i Hv Hidx) as [Hdecl Hr]. split; [done|].
        unfold base. cbn. rewrite put_cells_other; [done|done|]. intros c Hc%columns_elem Hidx'. apply (Hno c Hc). by rewrite <- (declared_name c i), Hdecl by done.
Qed.

End Step.
Lemma first_pk (w : list Change) : match map data_of w with d :: _ => dc_pk d | [] => [] end = match w with c :: _ => ch_pk c | [] => [] end.
Proof. by destruct w as [|[c|d] w]. Qed.

(** The rows of a table after its group of changes. *)
Lemma rows_after m cs ts s n t rid :
  batch_fits ts cs -> ts !! (s, n) = Some t -> unambiguous cs ->
  (forall rid, row_agrees s n t rid (fun col => columnVersions m !! (joinKeyParts [s; n; rid], col)) (storedRows t !! rid)) ->
  let w := row_changes m cs (joinKeyParts [s; n; rid]) in
  storedRows (applyExternalRowChanges t (ident s n) (row_ops t (s, n) (map data_of (of_table (s, n) (js_sort by_hlc (applied_changes m cs)))))) !! rid =
  match w with
  | [] => storedRows t !! rid
  | c0 :: _ => op_result (buildRowOp toLowerCase t (ident s n) (ch_pk c0) (map data_of w))
  end.
Proof.
  intros Hfit Ht Hu Hag w. cbn [applyExternalRowChanges storedRows]. unfold row_ops, groupChangesByRow. cbn [fst snd].
  set (S := js_sort by_hlc (applied_changes m cs)). set (key := fun d : Data => ident s n (dc_pk d)).
  assert (Hrow : forall rid, List.filter (fun d => bool_decide (key d = rid)) (map data_of (of_table (s, n) S)) = map data_of (row_changes m cs (joinKeyParts [s; n; rid]))).
  { intros rid'. rewrite lfilter_map. f_equal. unfold of_table. rewrite lfilter_lfilter. apply lfilter_ext_in. intros c Hc.
    apply eq_iff_eq_true. rewrite andb_true_iff, !bool_decide_eq_true, crow_inj. unfold key.
    assert (E : dc_pk (data_of c) = ch_pk c) by (by destruct c). rewrite E. split; [intros [[= <- <-] <-]; done|]. intros (<- & <- & <-). done. }
  rewrite ops_lookup.
  - rewrite groups_get, Hrow. fold w. destruct w as [|c0 w'] eqn:Ew; [done|]. cbn [map]. cbn [snd]. f_equal. f_equal. by destruct c0.
  - apply groups_keys.
  - intros [rid' h] Hg. cbn [fst snd]. apply groups_elem in Hg as [Hne ->]. rewrite Hrow in *. destruct (row_changes m cs (joinKeyParts [s; n; rid'])) as [|c0 w'] eqn:Ew; [done|].
    destruct (row_op_ok m cs ts s n t rid' Hfit Ht (Hag rid') c0 w' Ew) as [Htgt _]. rewrite Ew in Htgt. cbn [map] in *.
    assert (E : dc_pk (data_of c0) = ch_pk c0) by (by destruct c0). by rewrite E.
Qed.

Context (rejected : option nat) (thrown : option Tables).

Abbreviation apply_batch := (applyChanges keying toLowerCase ctxSiteId config now rejected thrown isTableInBasis).
Abbreviation tracked := (applyTrackedBatch keying toLowerCase ctxSiteId config now rejected thrown isTableInBasis).
Abbreviation commit := (commitChangeMetadata keying toLowerCase now rejected).
Abbreviation to_store := (applyDataToStore keying toLowerCase thrown).

Lemma to_store_tables r ds r1 ts :
  to_store r ds newTracker = (r1, Ok tt) -> tables r = Some ts -> tables r1 = Some (write_rows ts newTracker (groupChangesByTable ds)).1.
Proof.
  unfold applyDataToStore. intros H Ht. rewrite Ht in H. destruct ds as [|d ds]; [by injection H as <-|]. destruct thrown; [done|].
  destruct (write_rows ts newTracker _) as [ts' e]. destruct (e =? 0)%nat; by injection H as <-.
Qed.

Lemma held_slots h f : f ∈ heldFacts h -> slot keying f = None.
Proof. intros (o & c & _ & _ & ->)%held_elem. done. Qed.

Lemma no_row_changes m cs s n rid : of_table (s, n) (js_sort by_hlc (applied_changes m cs)) = [] -> row_changes m cs (joinKeyParts [s; n; rid]) = [].
Proof.
  intros Eo. destruct (row_changes _ _ _) as [|c w] eqn:Ew; [done|]. exfalso. assert (Hc : c ∈ c :: w) by left. rewrite <- Ew in Hc.
  unfold row_changes in Hc. apply lfilter_elem in Hc as [Hc Hr%bool_decide_eq_true]. apply crow_inj in Hr as (Hs & Hn & _).
  assert (Ho : c ∈ of_table (s, n) (js_sort by_hlc (applied_changes m cs))) by (apply lfilter_elem; split; [done|]; apply bool_decide_eq_true; by rewrite Hs, Hn).
  rewrite Eo in Ho. by apply elem_of_nil in Ho.
Qed.

Lemma row_agrees_ext s n t t' rid cells stored :
  columnIndexMap t' = columnIndexMap t -> columnCount t' = columnCount t -> primaryKeyIndices t' = primaryKeyIndices t ->
  row_agrees s n t rid cells stored -> row_agrees s n t' rid cells stored.
Proof. intros E1 E2 E3. unfold row_agrees, extractPK, index_of_column. by rewrite E1, E2, E3. Qed.

Lemma tracked_agrees r css w r' res ts :
  unambiguous (concat (map cs_changes css)) -> tables r = Some ts -> batch_fits ts (concat (map cs_changes css)) -> agrees (meta r) ts ->
  tracked r css w newTracker = (r', Ok res) -> exists ts', tables r' = Some ts' /\ agrees (meta r') ts'.
Proof.
  intros Hu Ht Hfit Hag. unfold applyTrackedBatch, admitGroup. set (cs := concat (map cs_changes css)) in *. set (m := meta r) in *.
  set (l := omap resolved_of (map (route m) cs)). set (h := holdOptions _ _ _).
  set (ds := orderDataChangesByHLC (List.filter is_applied (refuse (reconcile l)))).
  pose proof (to_store_meta keying toLowerCase thrown r ds newTracker) as Hm.
  destruct (to_store r ds newTracker) as [r1 [u|e]] eqn:Es; [|done]. destruct u. cbn in Hm.
  set (rs := List.filter is_applied _). pose proof (commit_result keying toLowerCase now rejected (meta r1) rs w h newTracker) as Ec.
  destruct (commit (meta r1) rs w h newTracker) as [m' [u|e]]; [|done]. intros [= <- _]. unfold rs in Ec. cbn [meta tables].
  apply (to_store_tables r ds r1 ts) in Es; [|done]. rewrite Es. eexists. split; [done|]. rewrite Hm in Ec. fold m in Ec.
  assert (Eds : ds = map data_of (js_sort by_hlc (applied_changes m cs))) by apply data_sorted. rewrite Eds.
  apply commit_filed in Ec. rewrite facts_filter in Ec.
  assert (Hcells : forall k col,
    (exists c v, CColumn c ∈ row_changes m cs k /\ cc_column c = col /\ columnVersions m' !! (k, col) = Some v /\ cv_value v = cc_value c /\
       forall c', CColumn c' ∈ row_changes m cs k -> cc_column c' = col -> hle (cc_hlc c') (cc_hlc c)) \/
    ((forall c, CColumn c ∈ row_changes m cs k -> cc_column c <> col) /\
     columnVersions m' !! (k, col) = if existsb is_delete (row_changes m cs k) then None else columnVersions m !! (k, col))).
  { intros k col. destruct Ec as [[E ->]|Hf]; [|eapply (cells_after m cs Hu w h m' k col); [apply held_slots|exact Hf]].
    right. apply app_eq_nil in E as [E _]. rewrite (no_changes m cs Hu k E). split; [set_solver|done]. }
  intros s n t'. rewrite tables_after.
  2: { intros c c' Hc Hc'. apply Hfit; [by apply (applied_in m cs)|by apply (applied_in m cs)]. }
  intros Ht'.
  assert (Hold : exists t, ts !! (s, n) = Some t /\ columnIndexMap t' = columnIndexMap t /\ columnCount t' = columnCount t /\ primaryKeyIndices t' = primaryKeyIndices t /\
    forall rid, storedRows t' !! rid = match row_changes m cs (joinKeyParts [s; n; rid]) with
      | [] => storedRows t !! rid
      | c0 :: _ => op_result (buildRowOp toLowerCase t (ident s n) (ch_pk c0) (map data_of (row_changes m cs (joinKeyParts [s; n; rid]))))
      end).
  { destruct (of_table (s, n) (js_sort by_hlc (applied_changes m cs))) as [|c0 g0] eqn:Eo.
    - exists t'. split_and!; try done. intros rid. rewrite (no_row_changes m cs s n rid Eo). done.
    - rewrite <- Eo in Ht'. destruct (ts !! (s, n)) as [t|] eqn:Et; [|done]. injection Ht' as <-. exists t. split_and!; try done. intros rid.
      rewrite (rows_after m cs ts s n t rid Hfit Et Hu); [done|]. by apply Hag. }
  destruct Hold as (t & Et & E1 & E2 & E3 & Hrows). destruct (Hag s n t Et) as [Hok Hrow]. split; [split; rewrite E1, E2; apply Hok|]. intros rid.
  apply (row_agrees_ext s n t t'); [done|done|done|]. apply (row_step m m' cs ts s n t rid Hu Hfit Et Hok (Hrow rid)); [by apply Hcells|].
  rewrite Hrows. destruct (row_changes m cs (joinKeyParts [s; n; rid])) as [|c0 w'] eqn:Ew; [done|].
  destruct (row_op_ok m cs ts s n t rid Hfit Et (Hrow rid) c0 w' Ew) as [_ Hres]. rewrite Ew in Hres. exact Hres.
Qed.

(** C2: The tables follow the cells.  Where the stored rows agree with the cells
    (a row is stored exactly when some cell of it is held, under its own
    identity, and every column of it that has a cell carries the cell's value),
    a successful apply leaves rows that agree with the cells it leaves: for any
    configuration, whatever storage failures there could have been, and any batch in which a timestamp names one change, columns
    are named as declared and no change moves its row to another identity. *)
Theorem rows_follow_cells (r : Replica) (css : list (ChangeSet)) (ts : Tables) r' res :
  unambiguous (concat (map cs_changes css)) -> tables r = Some ts -> batch_fits ts (concat (map cs_changes css)) -> agrees (meta r) ts ->
  apply_batch r css newTracker = (r', Ok res) -> exists ts', tables r' = Some ts' /\ agrees (meta r') ts'.
Proof.
  intros Hu Ht Hfit Hag. unfold applyChanges. destruct (Hlc.maxHLC _) as [h|]; [|by apply (tracked_agrees r css None r' res ts)].
  destruct (Hlc.assertWithinDrift _ _); [|done]. destruct (Hlc.receive _ _ _) as [[c ?]|]; [|done].
  by apply (tracked_agrees (mkReplica (set_clock (meta r) c) (tables r)) css (Some h) r' res ts).
Qed.

End Agreement.

End Apply.

End Rows.
End Rows.
