(* ===== verification/SyncExamples.v ===== *)
(** * Applying remote changes: a table of notes

    Two replicas of a table [notes (id, body)] receive the writes of a third:
    the theorems of [SyncFiling], [SyncRecords] and [SyncConverge] at concrete
    batches, and a run in which resurrection makes the cut into batches
    visible. *)

From S2P Require Import Prelude Bytes Double Decimal Site Hlc KvStore Transaction StoreRead Utf8 Comparison KeySerializer KeyEncoding SyncKeys.
From S2P Require Import SyncApply SyncCommit SyncBatch SyncFiling SyncRecords SyncConverge SyncRows.
From Stdlib Require Import ZArith Lia.
From stdpp Require Import sorting.
From stdpp Require Import base tactics numbers sets gmap list.
#[local] Open Scope Z_scope.

Import SyncKeys SyncApply Commit FirstMax Batch Filing Order Records Converge Rows.

Module Notes.

Definition keying (schema table : jsstring) : PkKeying := RAW_PK_KEYING.
Definition lower (s : jsstring) : jsstring := map (fun u => if (65 <=? u) && (u <=? 90) then u + 32 else u) s.

Definition siteA : Site.SiteId := replicate 16 1.
Definition siteB : Site.SiteId := replicate 16 2.
Definition siteC : Site.SiteId := replicate 16 3.

Definition at_c (w : Z) : Hlc.HLC := Hlc.mkHLC w 0 siteC 0.

Definition write (id body : jsstring) (w : Z) : Change :=
  CColumn (mkColumnChange (js "main") (js "notes") [Comparison.VText id] (js "body") (Comparison.VText body) (at_c w) None None).

Definition remove (id : jsstring) (w : Z) : Change :=
  CDelete (mkDeletion (js "main") (js "notes") [Comparison.VText id] (at_c w) None).

Definition notes : StoreTable :=
  mkStoreTable (<[js "id" := 0%nat]> (<[js "body" := 1%nat]> ∅)) 2 [0%nat] ∅.

Definition empty (site : Site.SiteId) : Replica :=
  mkReplica (mkMeta (Hlc.newManager site None) None ∅ ∅ ∅ ∅ None) (Some (<[(js "main", js "notes") := notes]> ∅)).

Definition config (resurrect : bool) : SyncConfig := mkConfig None resurrect Quarantine.

Definition in_basis (schema table : jsstring) : bool := bool_decide (schema = js "main") && bool_decide (table = js "notes").

Definition set_of (w : Z) (cs : list Change) : ChangeSet := mkChangeSet siteC (at_c w) cs.

Definition w1 := write (js "a") (js "one") 1000.
Definition w2 := write (js "a") (js "two") 2000.
Definition w3 := write (js "b") (js "three") 1200.
Definition d3 := remove (js "b") 1500.

(** An apply in which metadata write [rejected] is refused. *)
Abbreviation apply_faulty rejected site cfg now := (applyChanges keying lower site cfg now rejected None in_basis).
Abbreviation apply_at site cfg now := (apply_faulty None site cfg now).

Ltac each_change := repeat match goal with H : _ ∈ _ :: _ |- _ => apply elem_of_cons in H as [->|H] | H : _ ∈ [] |- _ => by apply elem_of_nil in H end.

Lemma unambiguous_dec cs :
  Forall (fun c => Forall (fun c' => ch_hlc c = ch_hlc c' -> c = c') cs) cs -> unambiguous cs.
Proof. rewrite Forall_forall. intros H c c' Hc Hc'. specialize (H c Hc). rewrite Forall_forall in H. by apply H. Qed.

Ltac distinct_stamps := apply unambiguous_dec; repeat constructor; intros E; first [done|by vm_compute in E].

Lemma apply_order_independent_witness :
  apply_at siteA (config true) 5000 (empty siteA) [set_of 2000 [w1; w3]; set_of 2000 [d3; w2]] newTracker =
  apply_at siteA (config true) 5000 (empty siteA) [set_of 2000 [w2; d3; w3; w1]; set_of 2000 []] newTracker.
Proof.
  apply (apply_order_independent keying lower siteA (config true) 5000 in_basis None (empty siteA)).
  - distinct_stamps.
  - change ([w1; w3; d3; w2] ≡ₚ rev [w1; w3; d3; w2]). apply Permutation_rev.
  - done.
Defined.

Lemma notes_log site : log_ok (meta (empty site)).
Proof.
  intros p t row col h. cbn. rewrite lookup_empty. split; [done|]. destruct t, col; try done; intros (x & Hx & _); by rewrite lookup_empty in Hx.
Qed.

Lemma apply_keeps_log_witness :
  log_ok (meta (apply_at siteA (config false) 5000 (empty siteA) [set_of 2000 [w1; w2; w3; d3]] newTracker).1).
Proof. apply (apply_keeps_log keying lower 5000 siteA (config false) in_basis None None (empty siteA)). apply notes_log. Defined.

Lemma apply_files_past_the_log_witness :
  log_below_clock (meta (apply_at siteA (config false) 5000 (empty siteA) [set_of 2000 [w1; w2; w3; d3]] newTracker).1).
Proof.
  apply (apply_files_past_the_log keying lower 5000 siteA (config false) in_basis None None (empty siteA)).
  intros k h. cbn. by rewrite lookup_empty.
Defined.

(** A store without the table, and one that has the note the batch deletes. *)
Definition no_table : Replica := mkReplica (meta (empty siteA)) (Some ∅).
Definition with_note : Replica := (apply_at siteA (config false) 5000 (empty siteA) [set_of 1200 [w3]] newTracker).1.

(** The cell of that note. *)
Definition cell_b (r : Replica) : option Comparison.SqlValue :=
  cv_value <$> columnVersions (meta r) !! (row_key keying (js "main") (js "notes") [Comparison.VText (js "b")], js "body").


(** The cell left behind stays: the delete delivered again is not newer than its
    own tombstone, so it is skipped and nothing cleans up after it. *)
Lemma rejected_cleanup_is_not_repeated :
  let failed := (apply_faulty (Some 1%nat) siteA (config false) 6000 with_note [set_of 1500 [d3]] newTracker).1 in
  let again := apply_at siteA (config false) 7000 failed [set_of 1500 [d3]] newTracker in
  cell_b (apply_at siteA (config false) 6000 with_note [set_of 1500 [d3]] newTracker).1 = None /\
  again.2 = Ok (mkResult 0 1 0 1 0) /\
  cell_b again.1 = Some (Comparison.VText (js "three")).
Proof. by vm_compute. Qed.

Lemma empty_holds site : holds keying (meta (empty site)) [].
Proof.
  split.
  - intros k. unfold row_deleted. cbn. rewrite lookup_empty. cbn. by intros h (d & ?%elem_of_nil & _).
  - intros k c. unfold row_cell. cbn. rewrite lookup_empty. cbn. right. by intros h v (d & ?%elem_of_nil & _).
Qed.

Lemma deliverable_note site now css :
  Site.siteIdEquals siteC site = false -> Forall (fun s => Hlc.wallTime (cs_hlc s) <= now + Hlc.MAX_DRIFT_MS) css ->
  Forall (fun c => c ∈ [w1; w2; w3; d3]) (concat (map cs_changes css)) -> (length (concat (map cs_changes css)) <= 100)%nat ->
  deliverable site now in_basis (empty site) [] css.
Proof.
  rewrite !Forall_forall. intros Hs Hd Hc Hl. split.
  - intros c H%Hc. each_change; by vm_compute.
  - intros c H%Hc. each_change; eexists; vm_compute; reflexivity.
  - exact Hd.
  - unfold Hlc.MAX_OPSEQ. lia.
  - intros c H%Hc Ho. exfalso. unfold own in Ho. each_change; change (Site.siteIdEquals siteC site = true) in Ho; congruence.
Qed.

Lemma replicas_converge_witness :
  exists A' B',
    deliver keying lower (config false) in_basis siteA (empty siteA) [(5000, [set_of 2000 [w2; d3]]); (6000, [set_of 1200 [w1; w3]])] = (A', Ok tt) /\
    deliver keying lower (config false) in_basis siteB (empty siteB) [(9000, [set_of 2000 [w1; w3; w2; d3; w1]])] = (B', Ok tt) /\
    forall k, row_deleted (meta A') k = row_deleted (meta B') k /\ forall c, row_cell (meta A') k c = row_cell (meta B') k c.
Proof.
  apply (replicas_converge keying lower (config false) in_basis eq_refl eq_refl siteA siteB (empty siteA) (empty siteB) [] []); try done.
  - apply empty_holds.
  - apply empty_holds.
  - apply Forall_cons; split; [|apply Forall_singleton]; (apply deliverable_note; [done|by repeat constructor| |cbn; lia]);
      apply Forall_forall; intros c Hc; cbn in Hc |- *; set_solver.
  - apply Forall_singleton, deliverable_note; [done|by repeat constructor| |cbn; lia].
    apply Forall_forall; intros c Hc; cbn in Hc |- *; set_solver.
  - distinct_stamps.
  - intros c. cbn. set_solver.
Defined.

(** Under [allowResurrection], the cut into batches shows: a write later than the
    delete survives it within one batch, but a replica that received the write
    first loses it to the older delete. *)
Definition w4 := write (js "b") (js "four") 2000.

Definition shown (rs : Replica * res unit) : option Comparison.SqlValue :=
  snd <$> row_cell (meta rs.1) (row_key keying (js "main") (js "notes") [Comparison.VText (js "b")]) (js "body").

Lemma resurrection_depends_on_batches :
  shown (deliver keying lower (config true) in_basis siteA (empty siteA) [(5000, [set_of 2000 [w4; d3]])]) = Some (Comparison.VText (js "four")) /\
  shown (deliver keying lower (config true) in_basis siteA (empty siteA) [(5000, [set_of 1500 [d3]]); (6000, [set_of 2000 [w4]])])
    = Some (Comparison.VText (js "four")) /\
  shown (deliver keying lower (config true) in_basis siteA (empty siteA) [(5000, [set_of 2000 [w4]]); (6000, [set_of 1500 [d3]])]) = None.
Proof. by vm_compute. Qed.

(** *** Rows and cells *)

Definition declared (schema table : jsstring) (i : nat) : jsstring := match i with 0%nat => js "id" | _ => js "body" end.

Definition note_tables : Tables := <[(js "main", js "notes") := notes]> ∅.

Lemma empty_agrees : agrees keying lower declared (meta (empty siteA)) note_tables.
Proof.
  intros s n t. unfold note_tables, Tables. rewrite lookup_insert_Some. intros [[[= <- <-] <-]|[_ ?]]; [|done]. split.
  - split. cbn. intros col i. rewrite !lookup_insert_Some. intros [[_ <-]|[_ [[_ <-]|[_ ?]]]]; [lia|lia|done].
  - intros rid. cbn. rewrite lookup_empty. intros col. apply lookup_empty.
Qed.

Lemma notes_fit : batch_fits keying lower declared note_tables [w1; w2; w3; d3].
Proof.
  assert (Ht : forall t, note_tables !! (js "main", js "notes") = Some t -> t = notes) by (unfold note_tables, Tables; intros t; rewrite lookup_insert_eq; congruence).
  split.
  - intros c c' Hc Hc' _. each_change; done.
  - intros c t i Hc Hl. rewrite !elem_of_cons in Hc. destruct Hc as [[= ->]|[[= ->]|[[= ->]|[?|?%elem_of_nil]]]]; try done;
      apply Ht in Hl as ->; vm_compute; by intros [= <-].
  - intros c t Hc Hl. each_change; apply Ht in Hl as ->; by vm_compute.
  - intros c t r Hc Hl Hlen. rewrite !elem_of_cons in Hc. destruct Hc as [[= ->]|[[= ->]|[[= ->]|[?|?%elem_of_nil]]]]; try done;
      apply Ht in Hl as ->; destruct r as [|a [|b [|? ?]]]; try done.
Qed.

Lemma rows_follow_cells_witness :
  let r' := (apply_at siteA (config true) 5000 (empty siteA) [set_of 2000 [w1; w2; w3; d3]] newTracker).1 in
  exists ts', tables r' = Some ts' /\ agrees keying lower declared (meta r') ts'.
Proof.
  set (x := apply_at siteA (config true) 5000 (empty siteA) [set_of 2000 [w1; w2; w3; d3]] newTracker). cbn.
  apply (rows_follow_cells keying lower siteA (config true) 5000 in_basis declared None None (empty siteA) [set_of 2000 [w1; w2; w3; d3]] note_tables x.1
    (mkResult 3 1 0 1 0)).
  - distinct_stamps.
  - reflexivity.
  - apply notes_fit.
  - apply empty_agrees.
  - assert (E : x.2 = Ok (mkResult 3 1 0 1 0)) by (vm_compute; reflexivity). rewrite <- E. apply surjective_pairing.
Defined.

End Notes.
