(* ===== verification/Latches.v ===== *)
(** * Latches

    Models [packages/quereus/src/util/latches.ts]: the queue of lock holders per
    key.  An [acquire] reads the tail of its key, installs a promise of its own
    and waits for the one it read; the [release] it returns resolves that promise
    and drops the queue entry when it is still the tail.

    A call of [acquire] is a ticket, numbered in call order; the promise a ticket
    installs carries its number and is resolved exactly when the ticket is
    finished.  What runs without interruption in the source is one step: the
    body of [acquire] up to its first [await], the continuation after it, a
    [release], and the timer of a bounded wait.  A timer callback never runs
    while a continuation is ready, so a wait times out only while its predecessor
    is unresolved. *)

From S2P Require Import Prelude Bytes.
From Stdlib Require Import ZArith Lia.
From stdpp Require Import base tactics numbers sets gmap list.

Module Latches.

Inductive status : Type := Waiting | Granted | Released | TimedOut.

#[global] Instance status_eq_dec : EqDecision status.
Proof. solve_decision. Defined.

Record ticket := mkTicket {
  t_key : jsstring;
  t_currentTail : option nat;
  t_timed : bool;
  t_status : status
}.

Record Latches := mkLatches {
  lockQueues : gmap jsstring nat;
  tickets : list ticket
}.

Definition newLatches : Latches := mkLatches ∅ [].

Definition finished (t : ticket) : bool :=
  match t_status t with Released | TimedOut => true | _ => false end.

(** A promise that is not in the queue map any more, or whose owner finished. *)
Definition resolved (s : Latches) (p : option nat) : bool :=
  match p with
  | None => true
  | Some j => match tickets s !! j with Some t => finished t | None => false end
  end.

Definition set_status (t : ticket) (st : status) : ticket := mkTicket (t_key t) (t_currentTail t) (t_timed t) st.

(** The closure [release] of ticket [i]. *)
Definition finish (s : Latches) (i : nat) (t : ticket) (st : status) : Latches :=
  mkLatches (if bool_decide (lockQueues s !! t_key t = Some i) then delete (t_key t) (lockQueues s) else lockQueues s)
    (<[i := set_status t st]> (tickets s)).

Inductive event : Type :=
| Acquire (key : jsstring) (timed : bool)
| Resume (i : nat)
| Release (i : nat)
| Timeout (i : nat).

Definition acquire (s : Latches) (key : jsstring) (timed : bool) : Latches :=
  mkLatches (<[key := length (tickets s)]> (lockQueues s))
    (tickets s ++ [mkTicket key (lockQueues s !! key) timed Waiting]).

(** One event, when it can happen. *)
Definition step (s : Latches) (e : event) : option Latches :=
  match e with
  | Acquire key timed => Some (acquire s key timed)
  | Resume i =>
    t ← tickets s !! i;
    if bool_decide (t_status t = Waiting) && resolved s (t_currentTail t)
    then Some (mkLatches (lockQueues s) (<[i := set_status t Granted]> (tickets s)))
    else None
  | Release i =>
    t ← tickets s !! i;
    if bool_decide (t_status t = Granted) then Some (finish s i t Released) else None
  | Timeout i =>
    t ← tickets s !! i;
    if bool_decide (t_status t = Waiting) && t_timed t && negb (resolved s (t_currentTail t))
    then Some (finish s i t TimedOut)
    else None
  end.

Fixpoint run (s : Latches) (es : list event) : option Latches :=
  match es with
  | [] => Some s
  | e :: es' => s' ← step s e; run s' es'
  end.

Definition untimed (e : event) : bool := match e with Acquire _ timed => negb timed | _ => true end.

(** States reached without bounded waits. *)
Definition reachable (s : Latches) : Prop := exists es, forallb untimed es = true /\ run newLatches es = Some s.

(** ** The queue of a key *)

Definition at_ (s : Latches) (i : nat) (t : ticket) : Prop := tickets s !! i = Some t.

(** Every ticket of [t]'s key before position [i] is finished. *)
Definition clear_before (s : Latches) (i : nat) (k : jsstring) : Prop :=
  forall j u, (j < i)%nat -> at_ s j u -> t_key u = k -> finished u = true.

Record queue_ok (s : Latches) : Prop := {
  q_untimed : forall i t, at_ s i t -> t_timed t = false /\ t_status t <> TimedOut;
  (** the entry of a key is its last ticket, unfinished *)
  q_tail : forall k i, lockQueues s !! k = Some i -> exists t, at_ s i t /\ t_key t = k /\ finished t = false /\
    forall j u, at_ s j u -> t_key u = k -> (j <= i)%nat;
  q_no_tail : forall k, lockQueues s !! k = None -> clear_before s (length (tickets s)) k;
  (** a ticket waits for the one before it, if that was unfinished *)
  q_first : forall i t, at_ s i t -> t_currentTail t = None -> clear_before s i (t_key t);
  q_chain : forall i t j, at_ s i t -> t_currentTail t = Some j -> (j < i)%nat /\ exists u, at_ s j u /\ t_key u = t_key t /\
    forall m v, (j < m < i)%nat -> at_ s m v -> t_key v <> t_key t;
  q_order : forall i t, at_ s i t -> t_status t <> Waiting -> clear_before s i (t_key t)
}.

Lemma queue_new : queue_ok newLatches.
Proof. split; cbn; unfold at_, clear_before; cbn; intros; by rewrite ?lookup_nil, ?lookup_empty in *. Qed.

Lemma finished_set t st : finished (set_status t st) = match st with Released | TimedOut => true | _ => false end.
Proof. done. Qed.

(** Tickets after an update of one. *)
Lemma at_insert_iff m ts i t u j v :
  ts !! i = Some t ->
  at_ (mkLatches m (<[i := u]> ts)) j v <-> (i = j /\ v = u) \/ (i <> j /\ ts !! j = Some v).
Proof.
  intros H. unfold at_. cbn. rewrite list_lookup_insert_Some. apply lookup_lt_Some in H. naive_solver.
Qed.

Lemma at_unique s i t u : at_ s i t -> at_ s i u -> t = u.
Proof. unfold at_. congruence. Qed.

(** Finishing or granting a ticket leaves what was clear clear. *)
Lemma clear_step s m i t st k n :
  at_ s i t -> (finished t = true -> match st with Released | TimedOut => True | _ => False end) ->
  clear_before s n k -> clear_before (mkLatches m (<[i := set_status t st]> (tickets s))) n k.
Proof.
  intros Hi Hst Hc j u Hj Hu Hk. apply (at_insert_iff m (tickets s) i t) in Hu as [[<- ->]|[Hn Hu]]; [|by apply (Hc j)|done].
  pose proof (Hc i t Hj Hi Hk) as Hf. rewrite finished_set. specialize (Hst Hf). by destruct st.
Qed.

Lemma queue_acquire s k : queue_ok s -> queue_ok (acquire s k false).
Proof.
  intros [Hu Ht Hn Hf Hc Ho]. set (n := length (tickets s)).
  assert (Hat : forall i t, at_ (acquire s k false) i t <->
    at_ s i t \/ (i = n /\ t = mkTicket k (lockQueues s !! k) false Waiting)).
  { intros i t. unfold at_, acquire. cbn. rewrite lookup_app_Some, list_lookup_singleton_Some. subst n.
    split; [intros [?|(? & ? & ?)]; [by left|right; split; [lia|done]]|].
    intros [?|[-> ->]]; [by left|right; split_and!; [lia|lia|done]]. }
  assert (Hlt : forall i t, at_ s i t -> (i < n)%nat) by (intros i t H; by apply lookup_lt_Some in H).
  assert (Hclear : forall i k', (i <= n)%nat -> clear_before s i k' -> clear_before (acquire s k false) i k').
  { intros i k' Hi H j u Hj [H'|[-> _]]%Hat Hk; [by apply (H j)|lia]. }
  split.
  - intros i t [H|[-> ->]]%Hat; [by apply (Hu i)|done].
  - intros k' i. cbn. rewrite lookup_insert_Some. intros [[<- <-]|[Hk Hl]].
    + eexists. split_and!; [apply Hat; right; by split|done|done|]. intros j u [H|[-> _]]%Hat _; [apply Hlt in H; lia|done].
    + destruct (Ht k' i Hl) as (t & Hi & Hkt & Hft & Hmax). exists t. split_and!; [apply Hat; by left|done|done|].
      intros j u [H|[-> ->]]%Hat Hku; [by apply (Hmax j u)|done].
  - intros k'. cbn. rewrite lookup_insert_None. intros [Hl Hk] j u Hj [H|[-> ->]]%Hat Hku; [|done].
    apply (Hn k' Hl j u); [by eapply Hlt|done|done].
  - intros i t [H|[-> ->]]%Hat Hp; [apply Hclear; [apply Hlt in H; lia|by apply (Hf i)]|]. apply Hclear; [done|].
    cbn in *. by apply Hn.
  - intros i t j [H|[-> ->]]%Hat Hp.
    + destruct (Hc i t j H Hp) as (Hj & u & Hu' & Hku & Hm). split; [done|]. exists u. split_and!; [apply Hat; by left|done|].
      intros m v Hmi [Hv|[-> _]]%Hat; [by apply (Hm m)|apply Hlt in H; lia].
    + cbn in Hp. destruct (Ht k j Hp) as (u & Hu' & Hku & _ & Hmax). split; [by eapply Hlt|]. exists u. split_and!; [apply Hat; by left|done|].
      intros m v Hmi [Hv|[-> _]]%Hat; [|lia]. cbn. intros Hkv. pose proof (Hmax m v Hv Hkv). lia.
  - intros i t [H|[-> ->]]%Hat Hs; [|done]. apply Hclear; [apply Hlt in H; lia|by apply (Ho i)].
Qed.

Lemma resolved_clear s i t :
  queue_ok s -> at_ s i t -> resolved s (t_currentTail t) = true -> clear_before s i (t_key t).
Proof.
  intros [Hu Ht Hn Hf Hc Ho] Hi Hr. destruct (t_currentTail t) as [j|] eqn:E; [|by apply (Hf i)].
  destruct (Hc i t j Hi E) as (Hj & u & Hju & Hk & Hm). unfold resolved in Hr. unfold at_ in Hju. rewrite Hju in Hr.
  assert (Hw : t_status u <> Waiting) by (intros Hw; unfold finished in Hr; by rewrite Hw in Hr).
  intros m v Hmi Hv Hkv. destruct (decide (m < j)%nat) as [Hl|Hl]; [apply (Ho j u Hju Hw m v Hl Hv); congruence|].
  destruct (decide (m = j)) as [->|Hne]; [by rewrite (at_unique s j v u)|]. exfalso. eapply (Hm m v); [lia|done|done].
Qed.

Lemma queue_status s m i t st :
  m = (if bool_decide (st = Released) && bool_decide (lockQueues s !! t_key t = Some i)
       then delete (t_key t) (lockQueues s) else lockQueues s) ->
  queue_ok s -> at_ s i t -> (st = Granted /\ t_status t = Waiting \/ st = Released /\ t_status t = Granted) ->
  clear_before s i (t_key t) -> st <> TimedOut ->
  queue_ok (mkLatches m (<[i := set_status t st]> (tickets s))).
Proof.
  intros Em [Hu Ht Hn Hf Hc Ho] Hi Hst Hcl Hto. set (s' := mkLatches m _).
  assert (Hat : forall j u, at_ s' j u <-> (i = j /\ u = set_status t st) \/ (i <> j /\ at_ s j u))
    by (intros j u; by apply (at_insert_iff m (tickets s) i t)).
  assert (Hft : finished t = false) by (unfold finished; destruct Hst as [[_ ->]|[_ ->]]; done).
  assert (Hclear : forall n k, clear_before s n k -> clear_before s' n k).
  { intros n k. apply clear_step; [done|]. congruence. }
  assert (Hkeep : forall j u', at_ s' j u' -> exists u, at_ s j u /\ t_key u = t_key u' /\ t_currentTail u = t_currentTail u' /\
    t_timed u = t_timed u' /\ (i <> j -> u = u')).
  { intros j u' [[<- ->]|[Hne Hj]]%Hat; [by exists t|by exists u']. }
  assert (Hback : forall j u, at_ s j u -> exists u', at_ s' j u' /\ t_key u' = t_key u /\ (i <> j -> u' = u)).
  { intros j u Hj. destruct (decide (i = j)) as [->|Hne]; [exists (set_status t st)|exists u].
    - rewrite (at_unique s j u t Hj Hi). split_and!; [apply Hat; by left|done|done].
    - split_and!; [apply Hat; by right|done|done]. }
  assert (Hm : forall k n, m !! k = Some n -> lockQueues s !! k = Some n /\ (st = Released -> n <> i)).
  { intros k n. rewrite Em. destruct (bool_decide (st = Released)) eqn:Er; cbn.
    - case_bool_decide as Hq; [rewrite lookup_delete_Some; intros [Hk Hl]|intros Hl]; (split; [done|]); intros _ ->;
        destruct (Ht k i Hl) as (u & Hui & Hku & _); rewrite (at_unique s i u t Hui Hi) in Hku; congruence.
    - intros Hl. split; [done|]. intros ->. by rewrite bool_decide_eq_true_2 in Er. }
  split.
  - intros j u' Hj. destruct (Hkeep j u' Hj) as (u & Hju & _ & _ & Etm & Eu). rewrite <- Etm. split; [by apply (Hu j)|].
    apply Hat in Hj as [[<- ->]|[Hne Hj]]; [done|by apply (Hu j)].
  - intros k n Hl. destruct (Hm k n Hl) as [Hl' Hni]. destruct (Ht k n Hl') as (u & Hnu & Hku & Hfu & Hmax).
    destruct (Hback n u Hnu) as (u' & Hnu' & Hk' & Eu). exists u'. split_and!; [done|congruence| |].
    + apply Hat in Hnu' as [[<- ->]|[Hne Hn']]; [|by rewrite (Eu Hne)]. rewrite finished_set.
      destruct Hst as [[-> _]|[-> _]]; [done|]. by destruct (Hni eq_refl).
    + intros j v' Hj Hkv. destruct (Hkeep j v' Hj) as (v & Hjv & Ekv & _). apply (Hmax j v Hjv). congruence.
  - intros k Hl. cbn. rewrite length_insert.
    destruct (lockQueues s !! k) as [n|] eqn:Eq; [|by apply Hclear, Hn].
    assert (Hdel : st = Released /\ t_key t = k /\ n = i).
    { cbn in Hl. rewrite Em in Hl. destruct (bool_decide (st = Released)) eqn:Er; cbn in Hl; [|congruence]. apply bool_decide_eq_true in Er.
      case_bool_decide as Hq; [|congruence]. rewrite lookup_delete_None in Hl. destruct Hl as [Hl|Hl]; [|congruence].
      split_and!; congruence. }
    destruct Hdel as (-> & <- & ->). intros j u' Hj Hju Hk. destruct (Ht _ _ Eq) as (u & Hui & _ & _ & Hmax).
    apply Hat in Hju as [[<- ->]|[Hne Hju]]; [done|]. pose proof (Hmax j u' Hju Hk). apply (Hcl j u'); [lia|done|done].
  - intros j u' Hj Hp. destruct (Hkeep j u' Hj) as (u & Hju & Ek & Ec & _). rewrite <- Ek. apply Hclear, (Hf j u Hju). congruence.
  - intros j u' p Hj Hp. destruct (Hkeep j u' Hj) as (u & Hju & Ek & Ec & _).
    destruct (Hc j u p Hju) as (Hlt & w & Hpw & Ekw & Hbetween); [congruence|]. split; [done|].
    destruct (Hback p w Hpw) as (w' & Hpw' & Ekw' & _). exists w'. split_and!; [done|congruence|].
    intros n v' Hn' Hv'. destruct (Hkeep n v' Hv') as (v & Hnv & Ekv & _). rewrite <- Ekv, <- Ek. by apply (Hbetween n v).
  - intros j u' Hj Hs. apply Hclear. apply Hat in Hj as [[<- ->]|[Hne Hju]]; [done|by apply (Ho j)].
Qed.

Lemma queue_step s e s' : queue_ok s -> untimed e = true -> step s e = Some s' -> queue_ok s'.
Proof.
  intros Hs Hun. destruct e as [k timed|i|i|i]; cbn [step].
  - destruct timed; [done|]. intros [= <-]. by apply queue_acquire.
  - destruct (tickets s !! i) as [t|] eqn:E; cbn; [|done]. destruct (bool_decide _ && _) eqn:G; [|done]. intros [= <-].
    apply andb_true_iff in G as [Hw%bool_decide_eq_true Hr].
    refine (queue_status s _ i t Granted eq_refl Hs E _ _ _); [by left| |done]. by apply resolved_clear.
  - destruct (tickets s !! i) as [t|] eqn:E; cbn; [|done]. case_bool_decide as Hg; [|done]. intros [= <-].
    refine (queue_status s _ i t Released eq_refl Hs E _ _ _); [by right| |done]. apply (q_order s Hs i t E). by rewrite Hg.
  - destruct (tickets s !! i) as [t|] eqn:E; cbn; [|done]. by rewrite (proj1 (q_untimed s Hs i t E)), andb_false_r.
Qed.

Lemma queue_run es s s' : queue_ok s -> forallb untimed es = true -> run s es = Some s' -> queue_ok s'.
Proof.
  revert s. induction es as [|e es IH]; intros s Hs Hun Hr; cbn in *; [by injection Hr as <-|].
  apply andb_true_iff in Hun as [He Hes]. destruct (step s e) as [s1|] eqn:E; [|done]. eapply IH; [|done|exact Hr].
  by eapply queue_step.
Qed.

Lemma reachable_ok s : reachable s -> queue_ok s.
Proof. intros (es & Hun & Hr). eapply queue_run; [apply queue_new|done|done]. Qed.

(** C27: Without bounded waits a latch serializes: once an acquire of a key has
    been granted, every earlier acquire of that key has been released — so at
    most one holder at a time, in the order of the calls — and the queue map has
    an entry for exactly the keys with an acquire that is not yet released. *)
Theorem latch_serializes s :
  reachable s ->
  (forall i j t u, tickets s !! i = Some t -> tickets s !! j = Some u -> t_key t = t_key u -> (i < j)%nat ->
    t_status u <> Waiting -> t_status t = Released) /\
  (forall k, is_Some (lockQueues s !! k) <-> exists i t, tickets s !! i = Some t /\ t_key t = k /\ t_status t <> Released).
Proof.
  intros Hr. pose proof (reachable_ok s Hr) as Hs.
  assert (Hfin : forall i t, at_ s i t -> finished t = true <-> t_status t = Released).
  { intros i t Hi. pose proof (proj2 (q_untimed s Hs i t Hi)). unfold finished. by destruct (t_status t). }
  split.
  - intros i j t u Hi Hj Hk Hlt Hst. apply (Hfin i t Hi). by apply (q_order s Hs j u Hj Hst i t).
  - intros k. split.
    + intros [i Hl]. destruct (q_tail s Hs k i Hl) as (t & Hi & Hk & Hf & _). exists i, t. split_and!; [done|done|].
      intros Hrel. apply (Hfin i t Hi) in Hrel. congruence.
    + intros (i & t & Hi & Hk & Hnr). destruct (lockQueues s !! k) as [n|] eqn:E; [by eexists|]. exfalso. apply Hnr, (Hfin i t Hi).
      apply (q_no_tail s Hs k E i t); [by apply lookup_lt_Some in Hi|done|done].
Qed.

(** ** Progress *)

(** Events that move acquires already made towards their release. *)
Definition settling (e : event) : bool := match e with Resume _ | Release _ => true | _ => false end.

Definition left (t : ticket) : nat := match t_status t with Waiting => 2 | Granted => 1 | _ => 0 end.

#[local] Arguments left : simpl never.

(** The grants and releases still to come. *)
Definition work (s : Latches) : nat := sum_list_with left (tickets s).

Lemma work_insert (ts : list ticket) i t u :
  ts !! i = Some t -> (sum_list_with left (<[i := u]> ts) + left t = sum_list_with left ts + left u)%nat.
Proof.
  intros H. rewrite <- (take_drop_middle ts i t H) at 2. rewrite insert_take_drop by (by apply lookup_lt_Some in H).
  rewrite !sum_list_with_app. cbn. lia.
Qed.

Lemma settling_work s e s' : settling e = true -> step s e = Some s' -> work s = S (work s').
Proof.
  intros He. destruct e as [k timed|i|i|i]; try done; cbn [step];
    (destruct (tickets s !! i) as [t|] eqn:E; cbn; [|done]).
  - destruct (bool_decide _ && _) eqn:G; [|done]. intros [= <-]. apply andb_true_iff in G as [Hw%bool_decide_eq_true _].
    unfold work. cbn. pose proof (work_insert _ i t (set_status t Granted) E) as W. unfold left at 2 4 in W. cbn in W. rewrite Hw in W. lia.
  - case_bool_decide as Hg; [|done]. intros [= <-]. unfold work. cbn.
    pose proof (work_insert _ i t (set_status t Released) E) as W. unfold left at 2 4 in W. cbn in W. rewrite Hg in W. lia.
Qed.

(** The first unfinished ticket of the queue can move. *)
Lemma first_moves (ts : list ticket) :
  Exists (fun t => finished t = false) ts ->
  exists i t, ts !! i = Some t /\ finished t = false /\ forall j u, (j < i)%nat -> ts !! j = Some u -> finished u = true.
Proof.
  intros H. destruct (list_find (fun t => finished t = false) ts) as [[i t]|] eqn:E.
  - apply list_find_Some in E as (Hi & Hf & Hm). exists i, t. split_and!; [done|done|]. intros j u Hj Hu.
    specialize (Hm j u Hu Hj). by destruct (finished u).
  - apply list_find_None in E. rewrite Exists_exists in H. destruct H as (t & Ht & Hf). rewrite Forall_forall in E. by destruct (E t Ht).
Qed.

Lemma work_done (ts : list ticket) : Forall (fun t => finished t <> false) ts -> sum_list_with left ts = 0%nat.
Proof. induction 1 as [|t ts Ht H IH]; [done|]. cbn. rewrite IH. unfold left, finished in *. by destruct (t_status t). Qed.

Lemma settling_enabled s : queue_ok s -> (0 < work s)%nat -> exists e s', settling e = true /\ step s e = Some s'.
Proof.
  intros Hs Hw. destruct (first_moves (tickets s)) as (i & t & Hi & Hf & Hbefore).
  { destruct (decide (Exists (fun t => finished t = false) (tickets s))) as [|Hno]; [done|].
    apply not_Exists_Forall in Hno; [|intros t; apply _]. unfold work in Hw. rewrite work_done in Hw; [lia|done]. }
  destruct (t_status t) eqn:Et; try by (unfold finished in Hf; rewrite Et in Hf).
  - exists (Resume i). cbn. rewrite Hi. cbn. rewrite bool_decide_eq_true_2 by done. cbn.
    assert (Hr : resolved s (t_currentTail t) = true); [|rewrite Hr; by eexists].
    unfold resolved. destruct (t_currentTail t) as [j|] eqn:Ec; [|done].
    destruct (q_chain s Hs i t j Hi Ec) as (Hj & u & Hu & _). unfold at_ in Hu. rewrite Hu. by apply (Hbefore j).
  - exists (Release i). cbn. rewrite Hi. cbn. rewrite bool_decide_eq_true_2 by done. by eexists.
Qed.

Lemma settle es s s' : forallb settling es = true -> run s es = Some s' -> (length es + work s' = work s)%nat.
Proof.
  revert s. induction es as [|e es IH]; intros s He Hr; cbn in *; [by injection Hr as <-|].
  apply andb_true_iff in He as [He Hes]. destruct (step s e) as [s1|] eqn:E; [|done].
  rewrite (settling_work s e s1 He E), <- (IH s1 Hes Hr). lia.
Qed.

Lemma settling_untimed es : forallb settling es = true -> forallb untimed es = true.
Proof. induction es as [|[] es IH]; cbn; try done. Qed.

Lemma no_work s : work s = 0%nat -> forall i t, tickets s !! i = Some t -> finished t = true.
Proof.
  unfold work. induction (tickets s) as [|t ts IH]; intros Hw [|i] u Hi; cbn in *; try done.
  - injection Hi as ->. unfold left in Hw at 1. unfold finished. destruct (t_status u); cbn in *; (done || lia).
  - apply (IH ltac:(lia) i). done.
Qed.

(** Every acquire is granted, if holders release: without bounded waits no
    reachable state is stuck, each grant and release is progress, and however
    they are scheduled, once neither is possible every acquire made has been
    granted and released and the queue map is empty. *)
Theorem latch_settles s :
  reachable s ->
  (forall es, forallb settling es = true -> is_Some (run s es) -> (length es <= work s)%nat) /\
  (forall es s', forallb settling es = true -> run s es = Some s' ->
    (forall e, settling e = true -> step s' e = None) ->
    length es = work s /\ lockQueues s' = ∅ /\ forall i t, tickets s' !! i = Some t -> t_status t = Released).
Proof.
  intros Hr. split.
  - intros es He [s' Hs']. rewrite <- (settle es s s' He Hs'). lia.
  - intros es s' He Hs' Hstuck. pose proof (queue_run es s s' (reachable_ok s Hr) (settling_untimed es He) Hs') as Hq.
    assert (Hw : work s' = 0%nat).
    { destruct (work s') as [|n] eqn:E; [done|exfalso]. destruct (settling_enabled s' Hq) as (e & s2 & Hse & Hst); [lia|].
      by rewrite (Hstuck e Hse) in Hst. }
    pose proof (settle es s s' He Hs') as Hl. pose proof (no_work s' Hw) as Hfin. split_and!; [lia| |].
    + apply map_eq. intros k. rewrite lookup_empty. destruct (lockQueues s' !! k) as [i|] eqn:E; [|done]. exfalso.
      destruct (q_tail s' Hq k i E) as (t & Hi & _ & Hf & _). by rewrite (Hfin i t Hi) in Hf.
    + intros i t Hi. pose proof (Hfin i t Hi) as Hf. pose proof (proj2 (q_untimed s' Hq i t Hi)) as Hto. unfold finished in Hf.
      by destruct (t_status t).
Qed.

(** ** A queue of three *)

Definition table : jsstring := js "main.t".

Definition queue : list event := [Acquire table false; Acquire table false; Acquire table false; Resume 0].

Definition queued : Latches :=
  mkLatches {[ table := 2%nat ]}
    [mkTicket table None false Granted; mkTicket table (Some 0%nat) false Waiting; mkTicket table (Some 1%nat) false Waiting].

Lemma queued_reachable : reachable queued.
Proof. exists queue. by split; vm_compute. Qed.

Lemma latch_serializes_witness :
  (forall i j t u, tickets queued !! i = Some t -> tickets queued !! j = Some u -> t_key t = t_key u -> (i < j)%nat ->
    t_status u <> Waiting -> t_status t = Released) /\
  (forall k, is_Some (lockQueues queued !! k) <-> exists i t, tickets queued !! i = Some t /\ t_key t = k /\ t_status t <> Released).
Proof. apply (latch_serializes queued). exact queued_reachable. Defined.

Definition settle_all : list event := [Release 0; Resume 1; Release 1; Resume 2; Release 2].

Lemma latch_settles_witness :
  (length settle_all <= work queued)%nat /\
  exists s, run queued settle_all = Some s /\ lockQueues s = ∅ /\ forall i t, tickets s !! i = Some t -> t_status t = Released.
Proof.
  destruct (latch_settles queued queued_reachable) as [Hb Hend]. split; [apply Hb; [reflexivity|by eexists; vm_compute]|].
  eexists. split; [vm_compute; reflexivity|]. apply (Hend settle_all); [reflexivity|vm_compute; reflexivity|].
  intros [k timed|i|i|i] He; try discriminate He; destruct i as [|[|[|i]]]; reflexivity.
Defined.

(** A bounded wait that times out releases its own slot although its
    predecessor still holds the latch: the next acquire in the queue is then
    granted beside the holder. *)
Definition timed_out : list event :=
  [Acquire table false; Resume 0; Acquire table true; Acquire table false; Timeout 1; Resume 2].

Lemma timeout_breaks_exclusion :
  map t_status <$> (tickets <$> run newLatches timed_out) = Some [Granted; TimedOut; Granted].
Proof. by vm_compute. Qed.

(** Timing out at the tail drops the queue entry of a held latch, so a later
    acquire does not wait at all. *)
Lemma timeout_forgets_holder :
  map t_status <$> (tickets <$> run newLatches
    [Acquire table false; Resume 0; Acquire table true; Timeout 1; Acquire table false; Resume 2]) =
  Some [Granted; TimedOut; Granted].
Proof. by vm_compute. Qed.

End Latches.
